(* ===== verification/_CoqProject ===== *)
-Q . S2P
Prelude.v
Clock.v
BTreeMap.v
Message.v
Tracker.v
AlignedWindow.v
AlignedReducer.v
SessionWindow.v
AccumulatorWindow.v
Wal.v
WalMessage.v
Compactor.v
Timeline.v
Manager.v
Publisher.v
IsbIdle.v
Fetcher.v
IsbWatermark.v
SourceWatermark.v
F32.v
Throttle.v
ThrottleStore.v
Forward.v
ServingGraph.v
Backoff.v
SinkActor.v
SinkWriter.v
BypassRouter.v
InMemoryIsb.v
IsbWriter.v
IsbReader.v
UnalignedUdf.v
UnalignedReducer.v
Source.v
UdfRetry.v
MapUdf.v
MapClient.v
Mapper.v
Transformer.v
Pbq.v
ServerInfo.v
RedisStore.v
JetStreamIsb.v
ServingStore.v
ServingProxy.v
HttpSource.v
Generator.v
SqsSource.v
KafkaSource.v
PulsarSource.v
NatsSource.v
BuiltinSinks.v
SideInput.v
KvStore.v
UserDefined.v
AlignedUdf.v
Config.v
Recovery.v
UnalignedClient.v
IsbWriteLoop.v
