(* ===== verification/Prelude.v ===== *)
(** * Verification of the numaflow data plane

    The sources are the Rust crates under src/rust; file names below are relative to
    src/rust/numaflow-core/src unless they start with src/. A vertex of a pipeline reads
    messages from an inter-step buffer (ISB), applies a user-defined function and writes the
    results to the next buffers. Around that loop are the parts modelled here:

    - watermarks: every processor of a vertex publishes pairs (offset, watermark) to a
      key-value bucket; the vertices downstream watch the bucket, keep a timeline per
      processor and partition, and take the minimum;
    - messages: their offsets, their protobuf forms, and the reference-counted handle whose
      last release acknowledges or rejects the message;
    - the tracker of the messages in flight;
    - aligned reduce: messages are assigned to fixed or sliding windows, windows are closed by
      the watermark, a task per window runs the user-defined function and writes a GC event;
    - the write-ahead log of reduce: messages are appended to segments, replayed after a
      restart, and compacted with the GC events;
    - unaligned reduce: session windows per key and accumulators, with the same log;
    - the persistent buffer queue between the buffer and reduce, which fills and replays the log;
    - sources: reading, transforming and acknowledging batches;
    - mappers: requests to the user-defined function, one by one, in batches or as streams, with
      retries;
    - writing: to the buffers of the next vertices, or to the sinks, with retries; what was
      written decides the verdict on the handle, and which watermarks are published;
    - the check, at the start, that the versions of the SDK and of the controller go together;
    - rate limiting of the reads, shared between the processors of a vertex;
    - serving: HTTP requests are handed to a pipeline; from the callbacks of the vertices the
      orchestrator finds out whether a request has been answered, and what the answer is;
    - the built-in sources (HTTP, generator, SQS, Kafka, Pulsar, NATS, JetStream) and the
      built-in sinks (log, blackhole, serve, SQS, Kafka, Pulsar);
    - side inputs: values from user-defined code, stored in a bucket and written to files;
    - the key-value stores behind watermarks and side inputs.

    ** Files

    - [Prelude]: automation, machine-width integers, the iteration order of a HashMap
      ([HashOrder]: an arbitrary permutation), lemmas on lists, maps and minima.
    - [Clock]: chrono as the class [Chrono], an interface with its documented laws, and an
      instance.
    - [BTreeMap]: ordered maps as sorted association lists, for a comparison that is a strict
      order on some of the keys only.
    - [Timeline]: watermark/wmb.rs, watermark/processor/timeline.rs.
    - [Manager]: watermark/processor/manager.rs. The OT watcher, the refresher and the deletions
      are the labels of a step relation on the map of processors.
    - [Publisher]: watermark/isb/wm_publisher.rs.
    - [Fetcher]: watermark/isb/wm_fetcher.rs.
    - [Message]: message.rs, metadata.rs, the timestamps of shared/grpc.rs. The handle is a
      state machine over the atomic steps of its clones.
    - [Tracker]: tracker.rs.
    - [AlignedWindow]: reduce/reducer/aligned/windower.rs, windower/fixed.rs, windower/sliding.rs,
      behind the interface [AlignedWindower] with its laws.
    - [AlignedReducer]: reduce/reducer/aligned/reducer.rs, proved against that interface. The
      main task, the actor and the ends of the tasks interleave freely.
    - [Wal]: reduce/wal/segment.rs, segment/append.rs, segment/replay.rs. The writer's commands,
      timers and buffer spills are the events of a run over a directory.
    - [WalMessage]: reduce/wal.rs, the command handler of segment/append.rs.
    - [Compactor]: reduce/wal/segment/compactor.rs. The compactor and the writer of the
      compaction log interleave over a channel.
    - [SessionWindow], [AccumulatorWindow]: reduce/reducer/unaligned/windower.rs,
      windower/session.rs, windower/accumulator.rs.
    - [IsbIdle], [IsbWatermark]: watermark/idle/isb.rs, watermark/isb.rs, on top of the tracker,
      the windowers, the fetcher and the publisher.
    - [SourceWatermark]: watermark/source.rs, source/source_wm_fetcher.rs,
      source/source_wm_publisher.rs, watermark/idle/source.rs.
    - [F32], [Throttle], [ThrottleStore]: 32-bit floating point, and
      src/rust/numaflow-throttling/src (lib.rs, state.rs, the in-memory store). A request is both
      a function and a sequence of atomic steps that callers interleave.
    - [Forward], [ServingGraph]: shared/forward.rs, src/rust/serving/src/app/tracker.rs.
    - [Backoff]: src/rust/backoff/src; the retry future is a state machine polled by an executor.
    - [SinkActor], [SinkWriter], [BypassRouter]: sinker/actor.rs, config/components/sink.rs,
      sinker/sink.rs, monovertex/bypass_router.rs. A sink is any function of the calls made of it.
    - [InMemoryIsb]: pipeline/isb/inmemory (buffer.rs, writer.rs, reader.rs).
    - [IsbWriter]: pipeline/isb/writer.rs, against streams that answer in any way.
    - [IsbReader]: pipeline/isb/reader.rs, on top of the tracker and the rate limiter. The read
      loop, the tasks of the messages, and the other users of the tracker interleave freely.
    - [UnalignedUdf], [UnalignedReducer]: reduce/reducer/unaligned/user_defined (session.rs,
      accumulator.rs), reduce/reducer/unaligned/reducer.rs, on top of the unaligned windowers.
    - [Source]: source.rs, on top of the tracker and the rate limiter.
    - [UdfRetry], [MapUdf], [MapClient], [Mapper]: shared/retry.rs; mapper/map/user_defined.rs;
      the clients in mapper/map (unary.rs, batch.rs, stream.rs), each a state machine over the
      steps of its callers and of the task that receives the responses; the tasks in the same
      files and the component in mapper/map.rs.
    - [Transformer]: transformer.rs, transformer/user_defined.rs.
    - [Pbq]: reduce/pbq.rs and the task of the compactor, on top of [Wal], [WalMessage] and
      [Compactor]. The queue, the compaction task and the writer interleave freely.
    - [ServerInfo]: src/rust/numaflow-shared/src/server_info.rs.
    - [RedisStore]: src/rust/numaflow-throttling/src/state/store/redis_store.rs and its Lua
      scripts, a second instance of the class [Store] of [ThrottleStore].
    - [JetStreamIsb]: pipeline/isb/jetstream (js_writer.rs, js_reader.rs), pipeline/isb/compression.rs.
    - [ServingStore]: src/rust/serving/src/app/store (status.rs, datastore/jetstream.rs,
      cbstore/jetstream_store.rs), sinker/sink/serve/nats.rs: the JetStream buckets of statuses,
      responses and callbacks with their central watchers.
    - [ServingProxy]: src/rust/serving/src/app (orchestrator.rs, jetstream_proxy.rs,
      message_path.rs, response.rs), on top of [ServingStore] and [ServingGraph].
    - [HttpSource], [Generator], [SqsSource], [KafkaSource], [PulsarSource], [NatsSource]: the
      crates under src/rust/extns and source (http.rs, generator.rs, sqs.rs, kafka.rs, pulsar.rs,
      nats.rs, jetstream.rs). A client is any function of the calls made of it.
    - [BuiltinSinks]: sinker/sink (log.rs, blackhole.rs, serve.rs, sqs.rs, kafka.rs, pulsar.rs)
      with the crates behind them, as instances of the class [AnswersAll].
    - [SideInput]: src/rust/numaflow-sideinput/src (manager.rs, synchronize.rs,
      synchronize/persistence.rs), over a file system with links, one operation at a time.
    - [KvStore]: src/rust/numaflow-shared/src (kv.rs, kv/inmemory/store.rs, isb/jetstream.rs).
    - [UserDefined]: the clients of user-defined sources and sinks (source/user_defined.rs,
      sinker/sink/user_defined.rs); [AlignedUdf], [UnalignedClient]: those of reduce
      (reduce/reducer/aligned/user_defined.rs, reduce/reducer/unaligned/user_defined). What
      arrives on a stream is a list.
    - [Config]: config/pipeline.rs, config/pipeline/watermark.rs, config/components/reduce.rs,
      config/components/ratelimit.rs, from the parsed specification on.
    - [Recovery]: the loop in lib.rs that builds the forwarder again after a failure.
    - [IsbWriteLoop]: the loop of pipeline/isb/writer.rs over the tasks of [IsbWriter].

    ** What the theorems show

    - Watermarks. The bounded deque of a timeline answers as the unbounded history of accepted
      entries does ([timeline_refines_history]), monotonically ([timeline_monotone]); the
      map of processors is at every moment what the history of entries, deletions, refresh
      passes and removals says ([manager_refines_log], [ot_watch_put_effect], [refresh_classifies]); what a publisher
      writes never goes back ([published_wmbs_monotone], [publish_gate]); the fetched
      watermark is a lower bound of what the processors report, does not depend on the
      iteration order of the maps, and idle and head watermarks are exact
      ([fetch_watermark_safe], [fetch_watermark_order], [fetch_head_idle_sound],
      [fetch_head_watermark_min]).
    - Messages. A handle sends exactly one verdict, the right one, in every interleaving
      ([ack_verdict]); the ISB form keeps what it should ([message_isb_roundtrip]).
    - Tracker. It refines one map of messages in flight ([tracker_refines_inflight]), and its
      minima are exact ([tracker_lowest]).
    - Aligned reduce. In every interleaving a window is opened once and closed once
      ([window_lifecycle]), a message reaches all the windows that contain it or none
      ([message_admission], [streams_and_oldest]), none because of the allowed lateness
      ([lateness_admits_none]), and a GC event covers only messages of finished windows
      ([gc_events_safe]), except after a failed task of a fixed window
      ([fixed_gc_covers_failed_window]).
    - Persistent buffer queue. The log is replayed first, then what is read from the buffer is passed
      on in order, and acknowledged once the writer of the log has it ([pbq_flow]); what
      was written is in whole segments that the compaction has deleted or the next start
      replays ([pbq_restart]).
    - Write-ahead log. What was written is replayed in order, after a stop, a crash or a cut, after which
      exactly the whole entries are ([wal_write_replay], [wal_crash_replay], [torn_segment_replay],
      [wal_messages_replayed]); compaction keeps exactly the entries that the GC events do not
      cover ([compaction_refines_filter], [aligned_retention], [unaligned_retention]) and GC
      segments go only when a gate allows it ([gc_segment_gate]).
    - Unaligned windows. Closing sessions keeps every former window inside an active or a
      closed one and separates the two ([session_close_effect], [session_closed_at_end]), and GC events of sessions cover
      only what is finished ([session_gc_safe]); a message finds its session
      ([session_assign_effect]); ended windows are grouped into the connected components of
      their overlaps ([session_groups]); the accumulator holds back the watermark by exactly
      the event times not yet collected ([accumulator_refines_pending],
      [accumulator_close_effect]). Concrete runs show where windows that share an end, and
      keys that are closed twice, are lost.
    - Watermark handles. What a vertex publishes is what it published before or, if greater, a minimum that
      is not ahead of its messages in flight nor of its open windows ([publish_safe], [idle_publish_sound], [one_control_message]); at a source
      the published watermark is the minimum over its partitions, idleness moves it within
      bounds ([source_watermark_min], [source_publish_lowest], [source_idle_bounds],
      [rebalance_exact]).
    - Rate limiting. Tokens are conserved and bounded in an epoch when calls follow one another,
      for concurrent callers by one maximum each ([epoch_budget], [concurrent_budget]); the
      processors come to the same pool size ([pool_converges], [pool_agrees_any_size]); the Redis
      scripts do what the store in memory does, given whole seconds and numbers below 2^53
      ([redis_refines_memory]; [clock_resolution] shows what the resolution changes).
    - Retries. A retried operation ends ([retry_completes]) with delays within their bound
      ([exponential_delays]).
    - Sinks. Every message of a batch is accounted for once ([sink_accounting]) and every handle
      gets one verdict, an acknowledgement only for a reason ([sink_verdicts],
      [bypass_verdicts]); the built-in sinks answer every message, if SQS names every
      entry of a request, so that the actor accepts their answers ([builtin_sinks_accepted],
      [sqs_omits_entry]).
    - Sources. The read loop tracks exactly the messages that await a verdict
      ([source_inflight]). An HTTP request has one answer or waits, and
      its answer is the verdict on its message; only requests that come after the actor has
      stopped stay without one ([http_requests_answered], [late_request_unanswered]); the generator keeps to its quota
      ([unit_quota]); an SQS queue gives its messages in order and the queues of a source share
      a read fairly ([sqs_messages_in_order], [queue_count_fair]); batches acknowledged
      in order are committed to Kafka without skipping a message ([kafka_commits_safe]); the
      Pulsar source knows which messages it has handed out ([pulsar_ids_exact]). Concrete runs show messages that are lost or skipped
      ([nacked_message_skipped], [unordered_acks_skip], [partial_ack], [js_read_error_drops]).
    - Mappers and transformers. Every call of a client gets the answer to it or an error, in
      every interleaving ([batch_answered], [stream_complete]); with retries every message gets its
      verdict ([batch_map_verdicts], [map_task_settles], [transform_batch_verdicts]); the
      component runs at most the configured number of tasks ([map_component]).
    - Start-up. The version checks decide by the order of the versions ([sdk_check_exact], for SDKs other than Python's).
    - Buffers. The in-memory buffer implements a queue ([in_memory_refines_queue],
      [acked_not_redelivered]); the ISB writer acknowledges only what all its vertices have
      stored or discarded ([isb_write_verdict]) and terminates once the streams accept or it is
      cancelled ([isb_write_terminates]); the ISB reader tracks exactly the messages that await a
      verdict, at most the configured number, and sends none of them twice meanwhile;
      it panics in one case only ([reader_inflight]); a concrete run shows it hand out more tokens than the limiter
      granted ([rate_limit_defeated]); an edge takes the messages its condition says
      ([forward_rule]); what the JetStream writer stores the reader gives back
      ([js_write_fetch]).
    - Serving. The search for the path of a request terminates, is sound and finds complete
      answers ([search_sound], [search_complete]); its edge rule is the data plane's for two
      of three operators ([edge_rules_agree]). A request is accepted once, until it is discarded or its status expires
      ([accepted_once], [expired_accepted_again]), its result is exactly its responses ([serving_result_exact]), and it completes when its
      callbacks are those of a complete trace ([request_completes]); the task panics at its end
      if the client has gone ([client_gone_panics]).
    - Side inputs. The file of a side input always reads as a whole value that was put
      ([side_inputs_synchronized]).
    - Key-value stores. Without a race a watch gives every entry once and in order
      ([quiet_watch]); with one it misses or reorders entries ([watch_gap], [watch_reorders]).
      The JetStream watcher never ends ([js_watcher_never_ends]).
    - User-defined code. What a source gives is read batch by batch, and its offsets come back
      as they were ([user_source_roundtrip]); a sink that names every request is one the actor
      accepts ([user_answers]); the results of aligned reduce have different ids, and a rerun
      repeats them ([aligned_ids_unique], [rerun_repeats_ids]); those of sessions are numbered
      as [session_ids_unique] needs it ([session_indexed]).
    - Configuration. The two ends of an edge agree on streams and buckets ([streams_agree],
      [buckets_agree]), but not on partitions: where the numbers of partitions differ the
      watermark is stuck or unsafe ([watermark_stuck], [watermark_unsafe]).
    - Running. A failed forwarder is reported and built again until the process stops
      ([recovery_reports], [recovery_goes_on]); the writer ends when all its tasks have
      ([loop_accounts], [loop_progress], [loop_measure_falls]).

    ** Conventions

    A Rust panic is [None]; an error is [Err]. Integers are [Z] or [N] with casts and
    wrap-around written out where the code has them; times are nanoseconds. Bytes and text are
    both [string]. Protobuf encoders are parameters with one law, that decoding what was encoded
    gives it back; each has an instance, used by the witnesses. Loops over a HashMap take the
    order from [HashOrder]. External code that keeps state is any function of the calls made of
    it.

    ** Fuel

    - In loops over byte strings and text (reading a segment, decoding UTF-8, trimming) the
      length is enough, since every turn takes at least one byte; likewise the length of the
      list for batches cut into chunks, and the size of the value for its tree.
    - In the search of [ServingGraph] one more than the number of callbacks is enough, since
      every call visits one.
    - In the retries of [SinkActor], of the mappers and of the transformer, one more than the
      attempts left is enough.
    - The watcher of [KvStore] needs one more than the number of watchers that fail
      ([js_watcher_returns]).
    - The retries of [IsbWriter], [IsbReader], [Source] and [JetStreamIsb] have no bound in the
      code: [isb_write_terminates] and [ack_with_retry_ends] say when they end.

    ** Bounds

    The order of segment names assumes that the clock of the writer does not go back, that
    microseconds fit 64 bits and that a run has fewer than 2^31 events (the index is parsed at 32
    bits). Entries of the log are not empty and their length fits 64 bits. The rate limiter is
    bounded for maxima below 2^24, up to which an integer is exact as a 32-bit float. Numbers of
    attempts fit 16 bits, as their type says. The sequence numbers of the in-memory buffer are
    unbounded.

    Times given to the processor manager are non-negative 64-bit ones.

    ** Not modelled

    The code of users behind gRPC, and the clients of NATS, Redis, Kafka, Pulsar and SQS: what
    they answer is an argument. Of the two hours that entries of the serving buckets live, only the
    expiry of a status is modelled. Decoding of the specification and the settings of concrete
    sources and sinks, metrics, logging, the HTTP and TLS servers and the daemon are I/O. The
    forwarders and the start-up of the vertices connect the parts and wait for their tasks; they
    keep no state of their own. Generated protobuf code is represented by its types and by the
    round trip of its encoders. *)
From stdpp Require Export gmap strings list fin_maps sorting.
From Stdlib Require Export ZArith Lia.

#[global] Open Scope Z_scope.

(** * Automation *)

Create HintDb numa discriminated.
Create HintDb numa_rw.

Declare Scope numa_scope.
Delimit Scope numa_scope with numa.
#[global] Open Scope numa_scope.

(** [let? x := m in k]: an [expect]/[unwrap] of the source; [None] is a panic. *)
Notation "'let?' x := m 'in' k" := (match m with Some x => k | None => None end)
  (at level 10, x pattern, m at level 200, k at level 200) : numa_scope.

(** Split every [match]/[if] of the goal or of a hypothesis, then simplify. *)
Ltac crush := repeat (case_match || simplify_eq/=); try done; try lia.

(** Turn boolean integer tests in the context and the goal into propositions. *)
Ltac zify_bool := repeat match goal with
  | H : (_ <? _) = true |- _ => apply Z.ltb_lt in H
  | H : (_ <? _) = false |- _ => apply Z.ltb_ge in H
  | H : (_ <=? _) = true |- _ => apply Z.leb_le in H
  | H : (_ <=? _) = false |- _ => apply Z.leb_gt in H
  | H : (_ =? _) = true |- _ => apply Z.eqb_eq in H
  | H : (_ =? _) = false |- _ => apply Z.eqb_neq in H
  | H : (_ && _)%bool = true |- _ => apply andb_true_iff in H as [? ?]
  | H : (_ || _)%bool = false |- _ => apply orb_false_iff in H as [? ?]
  | H : (_ ?= _) = Eq |- _ => apply Z.compare_eq_iff in H
  | H : (_ ?= _) = Lt |- _ => apply (proj1 (Z.compare_lt_iff _ _)) in H
  | H : (_ ?= _) = Gt |- _ => apply (proj1 (Z.compare_gt_iff _ _)) in H
  end.

(** * Machine integers *)

Definition i64_min : Z := - 2 ^ 63.
Definition i64_max : Z := 2 ^ 63 - 1.
Definition in_i64 (z : Z) : Prop := i64_min <= z <= i64_max.

(** Two's complement wrap-around of a 64-bit signed result. *)
Definition wrap_i64 (z : Z) : Z := (z + 2 ^ 63) mod 2 ^ 64 - 2 ^ 63.

(** [as u16] and [as u32] of a signed value, and [as i32] of an unsigned one. *)
Definition as_u16 (z : Z) : Z := z mod 2 ^ 16.
Definition as_u32 (z : Z) : Z := z mod 2 ^ 32.
Definition as_i32 (z : Z) : Z := (z + 2 ^ 31) mod 2 ^ 32 - 2 ^ 31.

Lemma wrap_i64_id z : in_i64 z -> wrap_i64 z = z.
Proof. unfold in_i64, wrap_i64, i64_min, i64_max. intros. rewrite Z.mod_small; lia. Qed.

Lemma wrap_i64_in z : in_i64 (wrap_i64 z).
Proof.
  unfold in_i64, wrap_i64, i64_min, i64_max.
  pose proof (Z.mod_pos_bound (z + 2 ^ 63) (2 ^ 64)). lia.
Qed.

Lemma as_u16_small z : 0 <= z < 2 ^ 16 -> as_u16 z = z.
Proof. apply Z.mod_small. Qed.

Lemma as_u32_as_i32 z : 0 <= z < 2 ^ 32 -> as_u32 (as_i32 z) = z.
Proof.
  intros Hz. unfold as_u32, as_i32.
  rewrite Zminus_mod_idemp_l. rewrite Z.add_simpl_r. by apply Z.mod_small.
Qed.

#[export] Hint Resolve wrap_i64_in : numa.

(** * Minimum and maximum of an iterator *)

(** [Iterator::min] and [Iterator::max] on an ordered key. *)
Definition list_min (l : list Z) : option Z :=
  match l with [] => None | x :: l' => Some (foldl Z.min x l') end.
Definition list_max (l : list Z) : option Z :=
  match l with [] => None | x :: l' => Some (foldl Z.max x l') end.

Lemma foldl_min_spec (l : list Z) (a : Z) :
  foldl Z.min a l <= a /\ (forall x, x ∈ l -> foldl Z.min a l <= x) /\
  (foldl Z.min a l = a \/ foldl Z.min a l ∈ l).
Proof.
  revert a. induction l as [|y l IH]; intros a; simpl.
  { split_and!; [lia | by intros ? ?%elem_of_nil | by left]. }
  destruct (IH (Z.min a y)) as (H1 & H2 & H3).
  split_and!; [lia | intros x [->|Hx]%elem_of_cons; [lia | auto] |].
  rewrite elem_of_cons. destruct H3 as [->|?]; [|auto].
  destruct (Z.min_spec a y) as [[_ ->]|[_ ->]]; auto.
Qed.

Lemma foldl_max_spec (l : list Z) (a : Z) :
  a <= foldl Z.max a l /\ (forall x, x ∈ l -> x <= foldl Z.max a l) /\
  (foldl Z.max a l = a \/ foldl Z.max a l ∈ l).
Proof.
  revert a. induction l as [|y l IH]; intros a; simpl.
  { split_and!; [lia | by intros ? ?%elem_of_nil | by left]. }
  destruct (IH (Z.max a y)) as (H1 & H2 & H3).
  split_and!; [lia | intros x [->|Hx]%elem_of_cons; [lia | auto] |].
  rewrite elem_of_cons. destruct H3 as [->|?]; [|auto].
  destruct (Z.max_spec a y) as [[_ ->]|[_ ->]]; auto.
Qed.

Lemma list_min_Some l m :
  list_min l = Some m <-> m ∈ l /\ forall x, x ∈ l -> m <= x.
Proof.
  destruct l as [|y l]; simpl.
  { split; [done | intros [?%elem_of_nil _]; done]. }
  destruct (foldl_min_spec l y) as (H1 & H2 & H3).
  assert (Hle : forall x, x ∈ y :: l -> foldl Z.min y l <= x).
  { intros x [->|?]%elem_of_cons; auto. }
  assert (Hin : foldl Z.min y l ∈ y :: l) by (rewrite elem_of_cons; naive_solver).
  split; [intros [= <-]; auto | intros [Hm Hall]].
  f_equal. apply Z.le_antisymm; auto.
Qed.

Lemma list_max_Some l m :
  list_max l = Some m <-> m ∈ l /\ forall x, x ∈ l -> x <= m.
Proof.
  destruct l as [|y l]; simpl.
  { split; [done | intros [?%elem_of_nil _]; done]. }
  destruct (foldl_max_spec l y) as (H1 & H2 & H3).
  assert (Hle : forall x, x ∈ y :: l -> x <= foldl Z.max y l).
  { intros x [->|?]%elem_of_cons; auto. }
  assert (Hin : foldl Z.max y l ∈ y :: l) by (rewrite elem_of_cons; naive_solver).
  split; [intros [= <-]; auto | intros [Hm Hall]].
  f_equal. apply Z.le_antisymm; auto.
Qed.

Lemma list_min_None l : list_min l = None <-> l = [].
Proof. destruct l; naive_solver. Qed.

Lemma list_min_is_Some l x : x ∈ l -> exists m, list_min l = Some m /\ m <= x.
Proof.
  intros Hx. destruct (list_min l) as [m|] eqn:E.
  - exists m. split; [done|]. apply list_min_Some in E as [_ ?]. auto.
  - apply list_min_None in E as ->. by apply elem_of_nil in Hx.
Qed.

(** The minimum depends only on the elements: iteration order is irrelevant. *)
#[global] Instance list_min_perm : Proper ((≡ₚ) ==> (=)) list_min.
Proof.
  intros l k Hlk. destruct (list_min l) as [m|] eqn:E; symmetry.
  - apply list_min_Some in E as [Hm Hall]. apply list_min_Some.
    split; [by rewrite <- Hlk | intros x; rewrite <- Hlk; auto].
  - apply list_min_None in E as ->. apply Permutation_nil_l in Hlk. by subst.
Qed.

#[global] Instance list_max_perm : Proper ((≡ₚ) ==> (=)) list_max.
Proof.
  intros l k Hlk. destruct (list_max l) as [m|] eqn:E; symmetry.
  - apply list_max_Some in E as [Hm Hall]. apply list_max_Some.
    split; [by rewrite <- Hlk | intros x; rewrite <- Hlk; auto].
  - destruct l; [|done]. apply Permutation_nil_l in Hlk. by subst.
Qed.

Lemma foldl_min_ext a (l k : list Z) :
  (forall x, x ∈ l <-> x ∈ k) -> foldl Z.min a l = foldl Z.min a k.
Proof.
  intros Hm.
  destruct (foldl_min_spec l a) as (H1 & H2 & H3), (foldl_min_spec k a) as (G1 & G2 & G3).
  apply Z.le_antisymm.
  - destruct G3 as [->|G3]; [done|]. apply H2. by apply Hm.
  - destruct H3 as [->|H3]; [done|]. apply G2. by apply Hm.
Qed.

#[global] Instance foldl_min_perm a : Proper ((≡ₚ) ==> (=)) (foldl Z.min a).
Proof. intros l k Hlk. apply foldl_min_ext. intros x. by rewrite Hlk. Qed.

(** * Iteration over a [HashMap] *)

(** The order in which a [HashMap] is iterated is unspecified: an operation that
    iterates takes it from this class, so its theorems hold for every order. *)
Class HashOrder := {
  hm_iter : forall {K} `{Countable K} {V : Type}, gmap K V -> list (K * V);
  hm_iter_perm : forall {K} `{Countable K} {V : Type} (m : gmap K V),
    hm_iter m ≡ₚ map_to_list m
}.

(** One admissible order, used to evaluate the operations. *)
Definition canonical_order : HashOrder.
Proof. by refine {| hm_iter := fun K _ _ V m => map_to_list m |}. Defined.

Section HashIter.
Context `{HashOrder} `{Countable K} {V : Type}.
Implicit Types m : gmap K V.

Definition hm_values m : list V := (hm_iter m).*2.
Definition hm_keys m : list K := (hm_iter m).*1.

Lemma elem_of_hm_iter m k v : (k, v) ∈ hm_iter m <-> m !! k = Some v.
Proof. rewrite hm_iter_perm. apply elem_of_map_to_list. Qed.

Lemma elem_of_hm_values m v : v ∈ hm_values m <-> exists k, m !! k = Some v.
Proof.
  unfold hm_values. rewrite list_elem_of_fmap. split.
  - intros ([k v'] & -> & Hin). exists k. by apply elem_of_hm_iter.
  - intros [k Hk]. exists (k, v). split; [done|]. by apply elem_of_hm_iter.
Qed.

Lemma elem_of_hm_keys m k : k ∈ hm_keys m <-> is_Some (m !! k).
Proof.
  unfold hm_keys. rewrite list_elem_of_fmap. split.
  - intros ([k' v'] & -> & Hin). apply elem_of_hm_iter in Hin. eauto.
  - intros [v Hk]. exists (k, v). split; [done|]. by apply elem_of_hm_iter.
Qed.

Lemma hm_values_perm m : hm_values m ≡ₚ (map_to_list m).*2.
Proof. unfold hm_values. by rewrite hm_iter_perm. Qed.

Lemma list_to_map_hm_iter m : list_to_map (hm_iter m) = m.
Proof.
  rewrite <- (list_to_map_to_list m) at 2. apply list_to_map_proper; [|apply hm_iter_perm].
  rewrite hm_iter_perm. apply NoDup_fst_map_to_list.
Qed.

Lemma NoDup_hm_keys m : NoDup (hm_keys m).
Proof. unfold hm_keys. rewrite hm_iter_perm. apply NoDup_fst_map_to_list. Qed.
End HashIter.

(** * Ordered sets *)

(** A [BTreeSet] whose [Ord] compares one integer key: the elements in strictly
    increasing key order. [insert] keeps the element already present under an
    equal key; [remove] and [contains] look the key up. *)
Section BTreeSet.
Context {A : Type} (key : A -> Z).
Implicit Types (x y : A) (l : list A).

Fixpoint bt_insert x l : list A :=
  match l with
  | [] => [x]
  | y :: l' =>
      match key x ?= key y with
      | Lt => x :: l
      | Eq => l
      | Gt => y :: bt_insert x l'
      end
  end.

Fixpoint bt_remove x l : list A :=
  match l with
  | [] => []
  | y :: l' => if key x =? key y then l' else y :: bt_remove x l'
  end.

Definition bt_contains x l : bool := existsb (fun y => key x =? key y) l.

(** [extend]/[collect] into the set, in iteration order. *)
Definition bt_extend l (xs : list A) : list A := foldl (fun s x => bt_insert x s) l xs.

Definition bt_lt x y : Prop := key x < key y.
Definition bt_sorted l : Prop := StronglySorted bt_lt l.

Lemma bt_insert_elem_inv x l y : y ∈ bt_insert x l -> y = x \/ y ∈ l.
Proof.
  induction l as [|z l IH]; simpl; [rewrite list_elem_of_singleton; auto|].
  case_match; rewrite ?elem_of_cons; naive_solver.
Qed.

Lemma bt_insert_old x l y : y ∈ l -> y ∈ bt_insert x l.
Proof.
  induction l as [|z l IH]; simpl; [by intros ?%elem_of_nil|].
  case_match; rewrite ?elem_of_cons; naive_solver.
Qed.

Lemma bt_insert_sorted x l : bt_sorted l -> bt_sorted (bt_insert x l).
Proof.
  unfold bt_sorted. induction 1 as [|y l Hl IH Hy]; simpl; [repeat constructor|].
  case_match; zify_bool; [by constructor| |].
  - constructor; [by constructor|]. constructor; [done|].
    eapply Forall_impl; [done|]. unfold bt_lt. intros z ?; lia.
  - constructor; [done|]. apply Forall_forall. intros z [->|Hz]%bt_insert_elem_inv; [done|].
    by eapply Forall_forall in Hy.
Qed.

Lemma bt_insert_elem x l y :
  bt_sorted l ->
  y ∈ bt_insert x l <-> y ∈ l \/ (y = x /\ forall z, z ∈ l -> key z <> key x).
Proof.
  unfold bt_sorted. induction 1 as [|z l Hl IH Hz]; simpl.
  { rewrite list_elem_of_singleton, elem_of_nil. split; [|naive_solver].
    intros ->. right. split; [done|]. by intros ? ?%elem_of_nil. }
  rewrite Forall_forall in Hz. unfold bt_lt in Hz.
  case_match; zify_bool; rewrite ?elem_of_cons; [| |rewrite IH].
  - split; [auto|]. intros [?|[-> Hk]]; [done|]. exfalso. apply (Hk z); [left|]; done.
  - split; [intros [->|?]; [right; split; [done|]|auto] | intros [?|[-> _]]; auto].
    intros w [->|Hw]%elem_of_cons; [lia|]. apply Hz in Hw. lia.
  - split; [intros [->|[?|[-> Hk]]]; auto; right; split; [done|] |
            intros [?|[-> Hk]]; [naive_solver|]].
    + intros w [->|Hw]%elem_of_cons; [lia|auto].
    + right; right. split; [done|]. intros w Hw. apply Hk. by right.
Qed.

Lemma bt_remove_elem x l y :
  bt_sorted l -> y ∈ bt_remove x l <-> y ∈ l /\ key y <> key x.
Proof.
  unfold bt_sorted. induction 1 as [|z l Hl IH Hz]; simpl.
  { rewrite elem_of_nil. naive_solver. }
  rewrite Forall_forall in Hz. unfold bt_lt in Hz.
  case_match; zify_bool; rewrite ?elem_of_cons, ?IH.
  - split; [intros Hy; pose proof (Hz _ Hy); split; [auto|lia] | intros [[->|?] ?]; [lia|done]].
  - split; [intros [->|[? ?]]; auto with lia | naive_solver].
Qed.

Lemma bt_remove_sorted x l : bt_sorted l -> bt_sorted (bt_remove x l).
Proof.
  unfold bt_sorted. intros Hs. induction Hs as [|z l Hl IH Hz]; simpl; [constructor|].
  case_match; [done|]. constructor; [done|].
  apply Forall_forall. intros w Hw%bt_remove_elem; [|done].
  by eapply Forall_forall in Hz; [|apply Hw].
Qed.

Lemma bt_contains_spec x l : bt_contains x l = true <-> exists y, y ∈ l /\ key y = key x.
Proof.
  unfold bt_contains. rewrite existsb_exists. split; intros (y & Hy & Hk); exists y.
  - split; [by apply list_elem_of_In | zify_bool; lia].
  - split; [by apply list_elem_of_In | by apply Z.eqb_eq].
Qed.

Lemma bt_filter_sorted (P : A -> Prop) `{forall x, Decision (P x)} l :
  bt_sorted l -> bt_sorted (filter P l).
Proof.
  unfold bt_sorted. induction 1 as [|z l Hl IH Hz]; [constructor|].
  rewrite filter_cons. case_decide; [|done]. constructor; [done|].
  apply Forall_forall. intros w [_ Hw]%list_elem_of_filter.
  by eapply Forall_forall in Hz.
Qed.

Lemma bt_head_min x l : bt_sorted (x :: l) -> forall y, y ∈ x :: l -> key x <= key y.
Proof.
  intros Hs y [->|Hy]%elem_of_cons; [done|].
  apply StronglySorted_inv in Hs as [_ Hs].
  eapply Forall_forall in Hs; [|done]. unfold bt_lt in Hs. lia.
Qed.

Lemma bt_extend_sorted l xs : bt_sorted l -> bt_sorted (bt_extend l xs).
Proof.
  revert l. induction xs as [|x xs IH]; intros l Hl; simpl; [done|].
  by apply IH, bt_insert_sorted.
Qed.
End BTreeSet.

#[export] Hint Resolve bt_insert_sorted bt_remove_sorted bt_filter_sorted bt_extend_sorted : numa.

(** * Lists *)

Lemma Forall2_elem_l {A B} (P : A -> B -> Prop) l k x :
  Forall2 P l k -> x ∈ l -> exists y, y ∈ k /\ P x y.
Proof.
  induction 1 as [|a b l k Hab _ IH]; [by intros ?%elem_of_nil|].
  intros [->|Hx]%elem_of_cons; [exists b; split; [by left|done]|].
  destruct (IH Hx) as (y & ? & ?). exists y. split; [by right|done].
Qed.

Lemma Forall2_elem_r {A B} (P : A -> B -> Prop) l k y :
  Forall2 P l k -> y ∈ k -> exists x, x ∈ l /\ P x y.
Proof. intros Hp%Forall2_flip. by apply (Forall2_elem_l (flip P)). Qed.
