(* ===== verification/Clock.v ===== *)
(** Wall-clock time. The crate chrono is not part of the sources: the operations the code
    uses are the fields of [Chrono], with what chrono documents about them as laws.

    A [DateTime<Utc>] is its number of nanoseconds since the Unix epoch; it is totally
    ordered by that number. Durations are nanoseconds too. *)
From S2P Require Import Prelude.

Abbreviation DateTime := Z (only parsing).
Abbreviation Duration := Z (only parsing).

Definition ns_per_ms : Z := 1000000.

Class Chrono := {
  dt_min : DateTime;                              (* DateTime::<Utc>::MIN_UTC *)
  dt_max : DateTime;                              (* DateTime::<Utc>::MAX_UTC *)
  timestamp_millis : DateTime -> Z;
  from_timestamp_millis : Z -> option DateTime;   (* None out of range *)
  duration_trunc : DateTime -> Duration -> option DateTime;
  dt_add : DateTime -> Duration -> option DateTime; (* the operator +; None is its panic *)
  timestamp : DateTime -> Z;                      (* whole seconds, rounded down *)
  nanosecond : DateTime -> Z;                     (* nanoseconds within the second *)
  from_timestamp : Z -> Z -> option DateTime;     (* seconds and nanoseconds *)
  dt_range_min : dt_min <= i64_min;
  dt_range_max : i64_max <= dt_max;
  timestamp_millis_spec : forall t, timestamp_millis t = t / ns_per_ms;
  from_timestamp_millis_spec : forall ms, from_timestamp_millis ms =
    if decide (dt_min <= ms * ns_per_ms <= dt_max) then Some (ms * ns_per_ms) else None;
  duration_trunc_spec : forall t d, in_i64 t -> 0 < d <= i64_max ->
    duration_trunc t d = Some (t - t mod d);
  dt_add_spec : forall t d, dt_add t d = if decide (dt_min <= t + d <= dt_max) then Some (t + d) else None;
  timestamp_spec : forall t, timestamp t = t / 10 ^ 9;
  nanosecond_spec : forall t, nanosecond t = t mod 10 ^ 9;
  from_timestamp_spec : forall s n, 0 <= n < 10 ^ 9 -> from_timestamp s n =
    if decide (dt_min <= s * 10 ^ 9 + n <= dt_max) then Some (s * 10 ^ 9 + n) else None
}.

(** The instants a [DateTime<Utc>] can hold. *)
Definition dt_valid `{Chrono} (t : DateTime) : Prop := dt_min <= t <= dt_max.

(** [Duration::as_millis() as i64] of a standard duration. *)
Definition as_millis_i64 (d : Duration) : Z := wrap_i64 (d / ns_per_ms).

(** The milliseconds of the sentinel "no watermark". *)
Definition no_watermark : Z := -1.

Section Laws.
Context `{Chrono}.

Lemma timestamp_from_millis ms t : from_timestamp_millis ms = Some t -> timestamp_millis t = ms.
Proof.
  rewrite from_timestamp_millis_spec, timestamp_millis_spec. case_decide; [|done].
  intros [= <-]. unfold ns_per_ms. apply Z.div_mul. lia.
Qed.

Lemma from_timestamp_millis_Some ms t : from_timestamp_millis ms = Some t -> t = ms * ns_per_ms.
Proof. rewrite from_timestamp_millis_spec. case_decide; [|done]. by intros [= <-]. Qed.

Lemma from_timestamp_millis_i64 ms :
  i64_min <= ms * ns_per_ms <= i64_max -> from_timestamp_millis ms = Some (ms * ns_per_ms).
Proof.
  intros Hr. rewrite from_timestamp_millis_spec, decide_True; [done|].
  pose proof dt_range_min. pose proof dt_range_max. lia.
Qed.

Lemma timestamp_millis_mono t t' : t <= t' -> timestamp_millis t <= timestamp_millis t'.
Proof. rewrite !timestamp_millis_spec. intros. by apply Z.div_le_mono. Qed.

(** [timestamp_millis] is the greatest number of milliseconds not after [t]. *)
Lemma timestamp_millis_bounds t :
  timestamp_millis t * ns_per_ms <= t < (timestamp_millis t + 1) * ns_per_ms.
Proof.
  rewrite timestamp_millis_spec. unfold ns_per_ms.
  pose proof (Z.div_mod t 1000000). pose proof (Z.mod_pos_bound t 1000000). lia.
Qed.

(** Seconds and nanoseconds determine the instant. *)
Lemma from_timestamp_parts t :
  dt_valid t -> from_timestamp (timestamp t) (nanosecond t) = Some t.
Proof.
  unfold dt_valid. intros Ht. rewrite timestamp_spec, nanosecond_spec.
  pose proof (Z.mod_pos_bound t (10 ^ 9)). pose proof (Z.div_mod t (10 ^ 9)).
  rewrite from_timestamp_spec by lia. rewrite decide_True by lia. f_equal. lia.
Qed.

Lemma nanosecond_bound t : 0 <= nanosecond t < 10 ^ 9.
Proof. rewrite nanosecond_spec. apply Z.mod_pos_bound. lia. Qed.
End Laws.

(** An implementation of the laws, with the range of years -262143 to 262142. *)
Definition chrono_utc : Chrono.
Proof.
  refine {|
    dt_min := -8334601315200 * 10 ^ 9;
    dt_max := 8210266876800 * 10 ^ 9 - 1;
    timestamp_millis t := t / ns_per_ms;
    from_timestamp_millis ms :=
      if decide (-8334601315200 * 10 ^ 9 <= ms * ns_per_ms <= 8210266876800 * 10 ^ 9 - 1)
      then Some (ms * ns_per_ms) else None;
    duration_trunc t d := if decide (in_i64 t /\ 0 < d <= i64_max) then Some (t - t mod d) else None;
    dt_add t d := if decide (-8334601315200 * 10 ^ 9 <= t + d <= 8210266876800 * 10 ^ 9 - 1)
                  then Some (t + d) else None;
    timestamp t := t / 10 ^ 9;
    nanosecond t := t mod 10 ^ 9;
    from_timestamp s n :=
      if decide (0 <= n < 10 ^ 9 /\
                 -8334601315200 * 10 ^ 9 <= s * 10 ^ 9 + n <= 8210266876800 * 10 ^ 9 - 1)
      then Some (s * 10 ^ 9 + n) else None
  |}; try done.
  - intros t d ? ?. by rewrite decide_True.
  - intros s n ?. apply decide_ext. naive_solver.
Defined.
