(* ===== verification/BTreeMap.v ===== *)
(** [BTreeMap] over keys compared by a function: the entries in increasing key order.
    The laws are proved on the keys of a predicate [ok] on which the comparison is a strict
    total order, since an [Ord] of the sources need not be one on the whole type. *)
From S2P Require Import Prelude.

Class CmpOrder {K : Type} (cmp : K -> K -> comparison) (ok : K -> Prop) : Prop := {
  cmp_eq : forall a b, ok a -> ok b -> cmp a b = Eq <-> a = b;
  cmp_antisym : forall a b, ok a -> ok b -> cmp b a = CompOpp (cmp a b);
  cmp_lt_trans : forall a b c, ok a -> ok b -> ok c -> cmp a b = Lt -> cmp b c = Lt -> cmp a c = Lt
}.

Section BTreeMap.
Context {K V : Type} (cmp : K -> K -> comparison).
Implicit Types (k : K) (v : V) (m : list (K * V)).

Fixpoint bm_lookup k m : option V :=
  match m with
  | [] => None
  | (k', v) :: m => match cmp k k' with Eq => Some v | _ => bm_lookup k m end
  end.

(** [insert]: an equal key keeps its place and gets the new value. *)
Fixpoint bm_insert k v m : list (K * V) :=
  match m with
  | [] => [(k, v)]
  | (k', v') :: m' =>
      match cmp k k' with
      | Lt => (k, v) :: m
      | Eq => (k', v) :: m'
      | Gt => (k', v') :: bm_insert k v m'
      end
  end.

Fixpoint bm_remove k m : list (K * V) :=
  match m with
  | [] => []
  | (k', v') :: m' => match cmp k k' with Eq => m' | _ => (k', v') :: bm_remove k m' end
  end.

Definition bm_first m : option (K * V) := head m.

Definition bm_lt (e e' : K * V) : Prop := cmp e.1 e'.1 = Lt.

Context (ok : K -> Prop).

(** The entries are strictly increasing and their keys satisfy [ok]. *)
Definition bm_wf m : Prop := StronglySorted bm_lt m /\ Forall (fun e => ok e.1) m.

Context `{!CmpOrder cmp ok}.

Lemma cmp_refl k : ok k -> cmp k k = Eq.
Proof. intros. by apply cmp_eq. Qed.

Lemma bm_insert_ok k v m e : e ∈ bm_insert k v m -> e.1 = k \/ exists e', e' ∈ m /\ e'.1 = e.1.
Proof.
  induction m as [|[k' v'] m IH]; simpl; [intros ->%list_elem_of_singleton; auto|].
  case_match; rewrite !elem_of_cons.
  - intros [->|He]; right; [exists (k', v')|exists e]; split; simpl; rewrite ?elem_of_cons; auto.
  - intros [->|He]; [auto|]. right. exists e. rewrite !elem_of_cons. auto.
  - intros [->|He]; [right; exists (k', v'); rewrite elem_of_cons; auto|].
    destruct (IH He) as [?|(e' & ? & ?)]; [auto|]. right. exists e'. rewrite elem_of_cons. auto.
Qed.

Lemma bm_wf_cons e m : bm_wf (e :: m) <-> bm_wf m /\ ok e.1 /\ Forall (bm_lt e) m.
Proof.
  unfold bm_wf. split.
  - intros [[? ?]%StronglySorted_inv [? ?]%Forall_cons]. by split_and!.
  - intros ([? ?] & ? & ?). split; by constructor.
Qed.

Lemma bm_insert_wf k v m : ok k -> bm_wf m -> bm_wf (bm_insert k v m).
Proof.
  intros Hk. induction m as [|[k' v'] m IH]; simpl; intros Hm.
  { apply bm_wf_cons. split_and!; [done..|constructor]. }
  pose proof Hm as (Hm' & Hk' & Hlt)%bm_wf_cons. simpl in *.
  pose proof (proj2 Hm') as Hok. rewrite Forall_forall in Hok.
  pose proof Hlt as Hlt'. rewrite Forall_forall in Hlt'. unfold bm_lt in Hlt'. simpl in Hlt'.
  case_match eqn:E; apply bm_wf_cons.
  - by split_and!.
  - split_and!; [done..|]. constructor; [done|]. apply Forall_forall. intros e He.
    eapply (cmp_lt_trans k k' e.1); eauto.
  - split_and!; [auto|done|]. apply Forall_forall. unfold bm_lt. simpl.
    intros e [->|(e' & He & <-)]%bm_insert_ok; [|auto].
    by rewrite (cmp_antisym k k'), E.
Qed.

Lemma bm_remove_sub k m e : e ∈ bm_remove k m -> e ∈ m.
Proof.
  induction m as [|[k' v'] m IH]; simpl; [done|].
  case_match; rewrite !elem_of_cons; naive_solver.
Qed.

Lemma bm_remove_wf k m : bm_wf m -> bm_wf (bm_remove k m).
Proof.
  induction m as [|[k' v'] m IH]; simpl; [done|]. intros (Hm & Hk' & Hlt)%bm_wf_cons.
  case_match; [done| |]; apply bm_wf_cons; split_and!; auto; rewrite Forall_forall in *;
    eauto using bm_remove_sub.
Qed.

(** A key below all the entries is not found. *)
Lemma bm_lookup_lt k m : Forall (fun e => cmp k e.1 = Lt) m -> bm_lookup k m = None.
Proof. induction 1 as [|[k' v'] m Hk _ IH]; simpl in *; [done|]. by rewrite Hk. Qed.

Lemma bm_lookup_insert k v m k' :
  ok k -> ok k' -> bm_wf m ->
  bm_lookup k' (bm_insert k v m) = match cmp k' k with Eq => Some v | _ => bm_lookup k' m end.
Proof.
  intros Hk Hk'. induction m as [|[j w] m IH]; simpl; intros Hm; [done|].
  apply bm_wf_cons in Hm as (Hm & Hj & Hlt). simpl in *. destruct (cmp k j) eqn:E; simpl.
  - apply cmp_eq in E; [|done..]. subst j. by destruct (cmp k' k).
  - done.
  - rewrite IH by done. destruct (cmp k' j) eqn:E1; [|done..].
    apply cmp_eq in E1; [|done..]. subst j. by rewrite (cmp_antisym k k'), E.
Qed.

Lemma bm_lookup_remove k m k' :
  ok k -> ok k' -> bm_wf m ->
  bm_lookup k' (bm_remove k m) = match cmp k' k with Eq => None | _ => bm_lookup k' m end.
Proof.
  intros Hk Hk'. induction m as [|[j w] m IH]; simpl; intros Hm.
  { by destruct (cmp k' k). }
  apply bm_wf_cons in Hm as (Hm & Hj & Hlt). simpl in *. destruct (cmp k j) eqn:E; simpl.
  - apply cmp_eq in E; [|done..]. subst j. destruct (cmp k' k) eqn:E1; [|done..].
    apply cmp_eq in E1; [|done..]. subst k'. by apply bm_lookup_lt.
  - rewrite IH by done. destruct (cmp k' j) eqn:E1; [|done..].
    apply cmp_eq in E1; [|done..]. subst j. by rewrite (cmp_antisym k k'), E.
  - rewrite IH by done. destruct (cmp k' j) eqn:E1; [|done..].
    apply cmp_eq in E1; [|done..]. subst j. by rewrite (cmp_antisym k k'), E.
Qed.

Lemma bm_lookup_elem k v m : bm_wf m -> ok k -> bm_lookup k m = Some v <-> (k, v) ∈ m.
Proof.
  intros Hm Hk. induction m as [|[j w] m IH]; simpl; [by rewrite elem_of_nil|].
  apply bm_wf_cons in Hm as (Hm & Hj & Hlt). simpl in *. rewrite elem_of_cons.
  destruct (cmp k j) eqn:E.
  - apply cmp_eq in E; [|done..]. subst. split; [intros [= ->]; auto|].
    intros [[= ->]|Hin]; [done|]. rewrite Forall_forall in Hlt. apply Hlt in Hin.
    unfold bm_lt in Hin. simpl in Hin. by rewrite cmp_refl in Hin.
  - rewrite IH by done. split; [auto|]. intros [[= -> ->]|]; [|done]. by rewrite cmp_refl in E.
  - rewrite IH by done. split; [auto|]. intros [[= -> ->]|]; [|done]. by rewrite cmp_refl in E.
Qed.

(** The first entry has the least key. *)
Lemma bm_first_least e m : bm_wf m -> bm_first m = Some e -> forall e', e' ∈ m -> e' = e \/ cmp e.1 e'.1 = Lt.
Proof.
  destruct m as [|e0 m]; [done|]. intros (_ & _ & Hlt)%bm_wf_cons [= ->] e' [->|He]%elem_of_cons; [by left|].
  right. rewrite Forall_forall in Hlt. by apply Hlt.
Qed.
End BTreeMap.
