(* ===== verification/Message.v ===== *)
(** Messages, their offsets and their acknowledgement ([message.rs], [metadata.rs], the
    timestamp conversions of [shared/grpc.rs]).

    The module holds the message record the other components pass around, the order of
    offsets, the conversion of a message to and from its ISB protobuf form, and the
    reference-counted [AckHandle] as a state machine over the atomic steps that the clones
    of a handle take. Text and byte strings are both [string] (a list of bytes). *)
From S2P Require Import Prelude Clock.
From stdpp Require Import pretty.
#[local] Open Scope Z_scope.

(** * Results *)

Inductive Error :=
  | EProto (what : string)
  | ESource (what : string)
  | EDuplicateInflight (offset : string)
  | EWatermark (what : string)
  | ESink (what : string)
  | EFbSink (what : string)
  | EOsSink (what : string)
  | EActorPatternRecv (what : string)
  | EBypassRouter (what : string)
  | EGrpc (what : string)
  | EMapper (what : string)
  | ETransformer (what : string)
  | EReduce (what : string)
  | ECancelled
  | ENonRetryable (what : string)
  | EOther (what : string).

Inductive Result (A : Type) := Ok (a : A) | Err (e : Error).
Arguments Ok {A} _.
Arguments Err {A} _.

Definition ok_or {A} (o : option A) (e : Error) : Result A :=
  match o with Some a => Ok a | None => Err e end.

(** The operator [?]. *)
Notation "'try!' x := m 'in' k" := (match m with Ok x => k | Err e => Err e end)
  (at level 10, x pattern, m at level 200, k at level 200) : numa_scope.

(** * UTF-8

    [String::from_utf8_lossy]: every maximal invalid chunk becomes one U+FFFD. *)

Definition byte_in (lo hi : Z) (b : option Ascii.ascii) : bool :=
  match b with
  | Some a => let z := Z.of_N (Ascii.N_of_ascii a) in (lo <=? z) && (z <=? hi)
  | None => false
  end.

Definition continuation (b : option Ascii.ascii) : bool := byte_in 128 191 b.

Definition shead (s : string) : option Ascii.ascii :=
  match s with EmptyString => None | String a _ => Some a end.
Definition stail (s : string) : string :=
  match s with EmptyString => EmptyString | String _ s => s end.

(** The length of the chunk at the front of a non-empty byte string that starts with [a] and
    goes on with [s], and whether it is a well-formed character. *)
Definition utf8_chunk (a : Ascii.ascii) (s : string) : nat * bool :=
  let b1 := shead s in let b2 := shead (stail s) in let b3 := shead (stail (stail s)) in
  let lead lo hi := byte_in lo hi (Some a) in
  if lead 0 127 then (1%nat, true)
  else if lead 194 223 then if continuation b1 then (2%nat, true) else (1%nat, false)
  else if lead 224 239 then
    if (lead 224 224 && byte_in 160 191 b1) || (lead 225 236 && byte_in 128 191 b1)
       || (lead 237 237 && byte_in 128 159 b1) || (lead 238 239 && byte_in 128 191 b1)
    then if continuation b2 then (3%nat, true) else (2%nat, false)
    else (1%nat, false)
  else if lead 240 244 then
    if (lead 240 240 && byte_in 144 191 b1) || (lead 241 243 && byte_in 128 191 b1)
       || (lead 244 244 && byte_in 128 143 b1)
    then if continuation b2
         then if continuation b3 then (4%nat, true) else (3%nat, false)
         else (2%nat, false)
    else (1%nat, false)
  else (1%nat, false).

Definition replacement_character : string :=
  String (Ascii.ascii_of_N 239) (String (Ascii.ascii_of_N 191) (String (Ascii.ascii_of_N 189) "")).

Fixpoint stake (n : nat) (s : string) : string :=
  match n, s with
  | S n, String a s => String a (stake n s)
  | _, _ => ""
  end.
Fixpoint sdrop (n : nat) (s : string) : string :=
  match n, s with
  | S n, String _ s => sdrop n s
  | _, _ => s
  end.

(** [fuel] bounds the number of chunks; the length of the string is enough. *)
Fixpoint lossy_go (fuel : nat) (s : string) : string :=
  match fuel, s with
  | S fuel, String a s' =>
      let (n, ok) := utf8_chunk a s' in
      (if ok then stake n s else replacement_character) +:+ lossy_go fuel (sdrop n s)
  | _, _ => ""
  end.

Definition from_utf8_lossy (s : string) : string := lossy_go (String.length s) s.

Fixpoint utf8_valid_go (fuel : nat) (s : string) : bool :=
  match fuel, s with
  | _, EmptyString => true
  | S fuel, String a s' => let (n, ok) := utf8_chunk a s' in ok && utf8_valid_go fuel (sdrop n s)
  | O, _ => false
  end.

(** [std::str::from_utf8] succeeds. *)
Definition utf8_valid (s : string) : bool := utf8_valid_go (String.length s) s.

(** * Offsets *)

Record IntOffset := mkIntOffset { io_offset : Z; io_partition_idx : Z }.
Record StringOffset := mkStringOffset { so_offset : string; so_partition_idx : Z }.
Inductive Offset := OInt (o : IntOffset) | OString (o : StringOffset).

#[global] Instance IntOffset_eq_dec : EqDecision IntOffset.
Proof. solve_decision. Defined.
#[global] Instance StringOffset_eq_dec : EqDecision StringOffset.
Proof. solve_decision. Defined.
#[global] Instance Offset_eq_dec : EqDecision Offset.
Proof. solve_decision. Defined.
#[global] Instance Offset_countable : Countable Offset.
Proof.
  refine (inj_countable'
    (fun o => match o with
      | OInt o => inl (io_offset o, io_partition_idx o)
      | OString o => inr (so_offset o, so_partition_idx o) end)
    (fun x => match x with
      | inl (a, b) => OInt (mkIntOffset a b)
      | inr (a, b) => OString (mkStringOffset a b) end) _).
  by intros [[]|[]].
Defined.

Definition partition_idx (o : Offset) : Z :=
  match o with OInt o => io_partition_idx o | OString o => so_partition_idx o end.

(** [Ord]: by offset alone within a kind; offsets of different kinds compare equal. *)
Definition offset_cmp (a b : Offset) : comparison :=
  match a, b with
  | OInt a, OInt b => io_offset a ?= io_offset b
  | OString a, OString b => String.compare (so_offset a) (so_offset b)
  | _, _ => Eq
  end.

(** [Display]; [None] is the panic on a string offset that is not UTF-8. *)
Definition offset_to_string (o : Offset) : option string :=
  match o with
  | OInt o => Some (pretty (io_offset o) +:+ "-" +:+ pretty (io_partition_idx o))
  | OString o => if utf8_valid (so_offset o)
                 then Some (so_offset o +:+ "-" +:+ pretty (so_partition_idx o)) else None
  end.

Definition offset_default : Offset := OInt (mkIntOffset 0 0).

(** * Metadata *)

Record KeyValueGroup := mkKeyValueGroup { key_value : gmap string string }.
Record Metadata := mkMetadata {
  previous_vertex : string;
  sys_metadata : gmap string KeyValueGroup;
  user_metadata : gmap string KeyValueGroup
}.
Definition Metadata_default : Metadata := mkMetadata "" ∅ ∅.

(** [set_sink_retry_count]: the count in decimal, under the group "sink". *)
Definition set_sink_retry_count (m : Metadata) (count : N) : Metadata :=
  let group := default (mkKeyValueGroup ∅) (sys_metadata m !! "sink") in
  mkMetadata (previous_vertex m)
    (<["sink" := mkKeyValueGroup (<["retry_count" := pretty count]> (key_value group))]>
       (sys_metadata m)) (user_metadata m).

(** The generated protobuf types and the conversions; [into_iter().map().collect()] keeps the
    keys. *)
Record ProtoKeyValueGroup := mkProtoKeyValueGroup { pkv_key_value : gmap string string }.
Record ProtoMetadata := mkProtoMetadata {
  pmd_previous_vertex : string;
  pmd_sys_metadata : gmap string ProtoKeyValueGroup;
  pmd_user_metadata : gmap string ProtoKeyValueGroup
}.
Definition group_of_proto (g : ProtoKeyValueGroup) : KeyValueGroup := mkKeyValueGroup (pkv_key_value g).
Definition group_to_proto (g : KeyValueGroup) : ProtoKeyValueGroup := mkProtoKeyValueGroup (key_value g).
Definition metadata_of_proto (m : ProtoMetadata) : Metadata :=
  mkMetadata (pmd_previous_vertex m) (group_of_proto <$> pmd_sys_metadata m)
    (group_of_proto <$> pmd_user_metadata m).
Definition metadata_to_proto (m : Metadata) : ProtoMetadata :=
  mkProtoMetadata (previous_vertex m) (group_to_proto <$> sys_metadata m)
    (group_to_proto <$> user_metadata m).

(** * The message *)

Inductive MessageType := Data | MWMB.

Record MessageID := mkMessageID { id_vertex_name : string; id_offset : string; id_index : Z }.
Definition MessageID_default : MessageID := mkMessageID "" "" 0.

#[global] Instance MessageID_eq_dec : EqDecision MessageID.
Proof. solve_decision. Defined.
#[global] Instance MessageID_countable : Countable MessageID.
Proof.
  refine (inj_countable' (fun i => (id_vertex_name i, id_offset i, id_index i))
    (fun x => mkMessageID x.1.1 x.1.2 x.2) _).
  by intros [].
Defined.

(** [Display]; [None] is the panic on bytes that are not UTF-8. *)
Definition message_id_to_string (i : MessageID) : option string :=
  if utf8_valid (id_vertex_name i) && utf8_valid (id_offset i)
  then Some (id_vertex_name i +:+ "-" +:+ id_offset i +:+ "-" +:+ pretty (id_index i)) else None.

Record NackOptions := mkNackOptions {
  nack_delay : option Z;
  nack_max_deliveries : option Z;
  nack_reason : option string;
  nack_map : gmap string string
}.

Record Message := mkMessage {
  m_typ : MessageType;
  m_keys : list string;
  m_tags : option (list string);
  m_value : string;
  m_offset : Offset;
  m_event_time : DateTime;
  m_watermark : option DateTime;
  m_id : MessageID;
  m_headers : gmap string string;
  m_metadata : option Metadata;
  m_is_late : bool;
  m_nack_options : option NackOptions
}.

Definition message_default (now : DateTime) : Message :=
  mkMessage Data [] None "" offset_default now None MessageID_default ∅ None false None.

Definition DROP : string := "U+005C__DROP__".
Definition NACK : string := "U+005C__NACK__".
Definition FAIL : string := "U+005C__FAIL__".

Definition has_tag (t : string) (m : Message) : bool :=
  match m_tags m with Some tags => bool_decide (t ∈ tags) | None => false end.
Definition dropped (m : Message) : bool := has_tag DROP m.
Definition nacked (m : Message) : bool := has_tag NACK m.
Definition failed (m : Message) : bool := has_tag FAIL m.

Definition with_metadata (m : Message) (md : option Metadata) : Message :=
  mkMessage (m_typ m) (m_keys m) (m_tags m) (m_value m) (m_offset m) (m_event_time m)
    (m_watermark m) (m_id m) (m_headers m) md (m_is_late m) (m_nack_options m).

Definition message_set_sink_retry_count (m : Message) (count : N) : Message :=
  with_metadata m (Some (set_sink_retry_count (default Metadata_default (m_metadata m)) count)).

(** * The ISB protobuf form *)

Record Timestamp := mkTimestamp { ts_seconds : Z; ts_nanos : Z }.
Record ProtoMessageInfo := mkProtoMessageInfo { pi_event_time : option Timestamp; pi_is_late : bool }.
Record ProtoMessageId := mkProtoMessageId { pid_vertex_name : string; pid_offset : string; pid_index : Z }.
Record ProtoHeader := mkProtoHeader {
  ph_message_info : option ProtoMessageInfo;
  ph_kind : Z;
  ph_id : option ProtoMessageId;
  ph_keys : list string;
  ph_headers : gmap string string;
  ph_metadata : option ProtoMetadata
}.
Record ProtoMessage := mkProtoMessage { pm_header : option ProtoHeader; pm_body : option string }.

(** The prost encoder and decoder of the generated message types. *)
Class IsbCodec := {
  isb_encode : ProtoMessage -> option string;
  isb_decode : string -> option ProtoMessage;
  isb_decode_encode : forall p b, isb_encode p = Some b -> isb_decode b = Some p
}.

Definition type_of_i32 (k : Z) : MessageType := if k =? 0 then Data else MWMB.
Definition i32_of_type (t : MessageType) : Z := match t with Data => 0 | MWMB => 1 end.

Section Proto.
Context `{Chrono}.

Definition prost_timestamp_from_utc (t : DateTime) : Timestamp :=
  mkTimestamp (timestamp t) (as_i32 (nanosecond t)).
Definition utc_from_timestamp (t : Timestamp) : DateTime :=
  default (-1) (from_timestamp (ts_seconds t) (as_u32 (ts_nanos t))).

Definition id_of_proto (i : ProtoMessageId) : MessageID :=
  mkMessageID (pid_vertex_name i) (pid_offset i) (pid_index i).
Definition id_to_proto (i : MessageID) : ProtoMessageId :=
  mkProtoMessageId (from_utf8_lossy (id_vertex_name i)) (from_utf8_lossy (id_offset i)) (id_index i).

(** [m.previous_vertex = get_vertex_name()]. *)
Definition stamp_vertex (vertex_name : string) (m : Metadata) : Metadata :=
  mkMetadata vertex_name (sys_metadata m) (user_metadata m).

Definition message_to_isb_proto (vertex_name : string) (m : Message) : ProtoMessage :=
  mkProtoMessage
    (Some (mkProtoHeader
      (Some (mkProtoMessageInfo (Some (prost_timestamp_from_utc (m_event_time m))) (m_is_late m)))
      (i32_of_type (m_typ m)) (Some (id_to_proto (m_id m))) (m_keys m) (m_headers m)
      ((fun md => metadata_to_proto (stamp_vertex vertex_name md)) <$> m_metadata m)))
    (Some (m_value m)).

Definition message_to_bytes `{IsbCodec} (vertex_name : string) (m : Message) : Result string :=
  ok_or (isb_encode (message_to_isb_proto vertex_name m)) (EProto "encode").

Definition message_from_isb_proto (proto : ProtoMessage) (offset : Offset) : Result Message :=
  try! header := ok_or (pm_header proto) (EProto "Missing header") in
  try! body := ok_or (pm_body proto) (EProto "Missing body") in
  try! info := ok_or (ph_message_info header) (EProto "Missing message_info") in
  try! et := ok_or (utc_from_timestamp <$> pi_event_time info) (EProto "Missing event_time") in
  Ok (mkMessage (type_of_i32 (ph_kind header)) (ph_keys header) None body offset et None
        (default MessageID_default (id_of_proto <$> ph_id header)) (ph_headers header)
        (metadata_of_proto <$> ph_metadata header) (pi_is_late info) None).
End Proto.

(** * Acknowledgement

    One [AckHandle] shared by the clones of a [MessageHandle]. A clone is live until it is
    marked or dropped; its [Arc] is released in a later step, and the release of the last one
    runs [Drop for AckHandle]. The steps of different clones interleave freely. *)

Inductive ReadAck := Ack | Nak (o : option NackOptions).

Record AckState := mkAck {
  ack_sender : bool;
  ref_count : Z;                       (* AtomicUsize *)
  failure_reason : option string;      (* OnceLock *)
  ack_nack_options : option NackOptions; (* OnceLock *)
  live : nat;                          (* handles not yet consumed *)
  consumed : nat;                      (* consumed, Arc not yet released *)
  sent : option ReadAck
}.

Inductive AckLabel :=
  | LClone                                            (* clone, with_message *)
  | LSuccess                                          (* mark_success *)
  | LFail (reason : string) (o : option NackOptions)  (* mark_failed *)
  | LDrop                                             (* the handle goes out of scope *)
  | LRelease.                                         (* the Arc is decremented *)

Definition usize (z : Z) : Z := z mod 2 ^ 64.
Definition once_set {A} (o : option A) (a : A) : option A :=
  match o with Some _ => o | None => Some a end.

Definition message_handle_new : AckState := mkAck true 1 None None 1 0 None.
Definition message_handle_from : AckState := mkAck false 0 None None 1 0 None.

(** [Drop for AckHandle]. *)
Definition ack_drop (st : AckState) : AckState :=
  if ack_sender st
  then mkAck false (ref_count st) (failure_reason st) (ack_nack_options st) (live st) (consumed st)
         (Some (if ref_count st =? 0 then Ack else Nak (ack_nack_options st)))
  else st.

(** [None]: the step is not enabled, there is no handle to take it. *)
Definition ack_exec (st : AckState) (l : AckLabel) : option AckState :=
  match l, live st, consumed st with
  | LClone, S n, c =>
      Some (mkAck (ack_sender st) (usize (ref_count st + 1)) (failure_reason st)
              (ack_nack_options st) (S (S n)) c (sent st))
  | LSuccess, S n, c =>
      Some (mkAck (ack_sender st) (usize (ref_count st - 1)) (failure_reason st)
              (ack_nack_options st) n (S c) (sent st))
  | LFail r o, S n, c =>
      Some (mkAck (ack_sender st) (ref_count st) (once_set (failure_reason st) r)
              (match o with Some o => once_set (ack_nack_options st) o | None => ack_nack_options st end)
              n (S c) (sent st))
  | LDrop, S n, c =>
      Some (mkAck (ack_sender st) (ref_count st) (failure_reason st) (ack_nack_options st)
              n (S c) (sent st))
  | LRelease, n, S c =>
      let st' := mkAck (ack_sender st) (ref_count st) (failure_reason st) (ack_nack_options st)
                   n c (sent st) in
      Some (if bool_decide (n + c = 0)%nat then ack_drop st' else st')
  | _, _, _ => None
  end.

Fixpoint ack_run (st : AckState) (ls : list AckLabel) : option AckState :=
  match ls with
  | [] => Some st
  | l :: ls => let? st' := ack_exec st l in ack_run st' ls
  end.

(** ** What the verdict should be, read off the trace *)

Definition unsuccessful (l : AckLabel) : bool :=
  match l with LFail _ _ | LDrop => true | _ => false end.
Definition fail_options (l : AckLabel) : option NackOptions :=
  match l with LFail _ o => o | _ => None end.

Definition verdict (ls : list AckLabel) : ReadAck :=
  if existsb unsuccessful ls then Nak (head (omap fail_options ls)) else Ack.

Definition bad (ls : list AckLabel) : nat := length (filter (fun l => unsuccessful l = true) ls).

(** [ref_count] counts the live handles and the ones that ended without success. *)
Definition ack_inv (past : list AckLabel) (st : AckState) : Prop :=
  ref_count st = usize (Z.of_nat (live st) + Z.of_nat (bad past)) /\
  ack_nack_options st = head (omap fail_options past) /\
  match decide (live st + consumed st = 0)%nat with
  | left _ => sent st = Some (verdict past) /\ ack_sender st = false
  | right _ => sent st = None /\ ack_sender st = true
  end.

Lemma head_omap_snoc (ls : list AckLabel) l :
  head (omap fail_options (ls ++ [l])) =
  match head (omap fail_options ls) with Some o => Some o | None => fail_options l end.
Proof.
  rewrite omap_app. destruct (omap fail_options ls) as [|o os]; simpl; [|done].
  by destruct (fail_options l).
Qed.

Lemma bad_snoc ls l : bad (ls ++ [l]) = (bad ls + if unsuccessful l then 1 else 0)%nat.
Proof.
  unfold bad. rewrite filter_app, length_app, filter_cons, filter_nil.
  by destruct (unsuccessful l).
Qed.

Lemma bad_length ls : (bad ls <= length ls)%nat.
Proof. apply length_filter. Qed.

Lemma unsuccessful_existsb ls : existsb unsuccessful ls = negb (bool_decide (bad ls = 0)%nat).
Proof.
  unfold bad. induction ls as [|l ls IH]; [done|]. simpl. rewrite filter_cons.
  destruct (unsuccessful l) eqn:E; simpl; [done|apply IH].
Qed.

Lemma usize_shift z d : usize (usize z + d) = usize (z + d).
Proof. unfold usize. by rewrite Zplus_mod_idemp_l. Qed.
Lemma usize_shift_sub z d : usize (usize z - d) = usize (z - d).
Proof. unfold usize. by rewrite Zminus_mod_idemp_l. Qed.

(** The last release sends the verdict of the trace. *)
Lemma ack_drop_verdict past st :
  ref_count st = usize (Z.of_nat (bad past)) -> ack_nack_options st = head (omap fail_options past) ->
  ack_sender st = true -> Z.of_nat (length past) < 2 ^ 64 ->
  sent (ack_drop st) = Some (verdict past).
Proof.
  intros Hr Hn Hs Hlen. unfold ack_drop, verdict. rewrite Hs. simpl.
  rewrite unsuccessful_existsb, Hr, Hn. pose proof (bad_length past).
  unfold usize. rewrite Z.mod_small by lia.
  case_bool_decide; destruct (Z.eqb_spec (Z.of_nat (bad past)) 0); simpl; try done; lia.
Qed.

Lemma ack_exec_inv past st l st' :
  ack_inv past st -> ack_exec st l = Some st' -> Z.of_nat (length past) + 1 < 2 ^ 64 ->
  ack_inv (past ++ [l]) st'.
Proof.
  intros (Hr & Hn & Hs) Hx Hlen. unfold ack_inv. rewrite head_omap_snoc, bad_snoc, <- Hn.
  destruct st as [sd r fr no lv cs se]; simpl in *.
  destruct l, lv as [|n], cs as [|c]; simpl in Hx; try discriminate Hx;
    injection Hx as <-; simpl in *; destruct Hs as [-> ->].
  1-8: split; [rewrite ?Hr, ?usize_shift, ?usize_shift_sub; f_equal; lia|].
  1-8: split; [by destruct no, o || by destruct no | done || (case_decide; [lia|done])].
  - split; [by destruct c; simpl; rewrite ?Nat.add_0_r|].
    destruct c as [|c]; simpl; [|split; [by destruct no|done]].
    split; [by destruct no|]. split; [|done].
    apply (ack_drop_verdict (past ++ [LRelease]) (mkAck true r fr no 0 0 None)); simpl; try done.
    + rewrite bad_snoc, Hr. simpl. f_equal. lia.
    + rewrite head_omap_snoc, <- Hn. by destruct no.
    + rewrite length_app. simpl. lia.
  - split; [by rewrite Nat.add_0_r|]. split; [by destruct no|done].
Qed.

Lemma ack_run_inv ls past st st' :
  ack_inv past st -> ack_run st ls = Some st' -> Z.of_nat (length past + length ls) < 2 ^ 64 ->
  ack_inv (past ++ ls) st'.
Proof.
  revert past st. induction ls as [|l ls IH]; intros past st Hinv Hrun Hlen; simpl in *.
  - simplify_eq. by rewrite app_nil_r.
  - destruct (ack_exec st l) as [st1|] eqn:Hx; [|done].
    rewrite (cons_middle l past ls), app_assoc. apply (IH _ st1); [|done|rewrite length_app; simpl; lia].
    eapply ack_exec_inv; [done..|lia].
Qed.

(** A handle that carries no sender never answers. *)
Lemma ack_run_untracked ls st st' :
  ack_sender st = false -> sent st = None -> ack_run st ls = Some st' -> sent st' = None.
Proof.
  revert st. induction ls as [|l ls IH]; intros st Hs Hn Hrun; simpl in *; [by simplify_eq|].
  destruct (ack_exec st l) as [st1|] eqn:Hx; [|done].
  assert (ack_sender st1 = false /\ sent st1 = None) as [? ?]; [|eauto].
  destruct st as [sd r fr no lv cs se]; simpl in *; subst.
  destruct l, lv as [|n], cs as [|c]; simpl in Hx; try discriminate Hx; injection Hx as <-; try done.
  by destruct c.
Qed.

(** C31: the acknowledgement protocol. Whatever the interleaving of clones, marks, drops and
    releases, nothing is sent while a reference to the handle remains; the release of the last
    one sends exactly the verdict of the history: [Ack] when every clone was marked successful,
    and otherwise a [Nak] that carries the first options given to [mark_failed]. After that no
    step is possible. *)
Theorem ack_verdict (ls : list AckLabel) (st : AckState) :
  ack_run message_handle_new ls = Some st -> Z.of_nat (length ls) < 2 ^ 64 ->
  (sent st = if bool_decide (live st + consumed st = 0)%nat then Some (verdict ls) else None) /\
  (is_Some (sent st) -> forall l, ack_exec st l = None).
Proof.
  intros Hrun Hlen.
  assert (ack_inv ls st) as (_ & _ & Hs).
  { apply (ack_run_inv ls [] message_handle_new); [|done|done]. by split. }
  case_bool_decide as Hz; destruct (decide _) in Hs; try done; destruct Hs as [-> ?].
  - split; [done|]. intros _ l. unfold ack_exec.
    replace (live st) with 0%nat by lia. replace (consumed st) with 0%nat by lia. by destruct l.
  - split; [done|]. by intros [? ?].
Qed.

Lemma ack_verdict_witness :
  let ls := [LClone; LSuccess; LRelease; LFail "boom" None; LRelease] in
  exists st, ack_run message_handle_new ls = Some st /\ sent st = Some (Nak None) /\ sent st = Some (verdict ls).
Proof.
  intros ls. eexists. split; [reflexivity|]. split; [reflexivity|].
  apply (ack_verdict ls _ eq_refl). done.
Defined.

(** ** The protobuf round trip *)

Lemma stake_sdrop n s : stake n s +:+ sdrop n s = s.
Proof.
  revert s. induction n as [|n IH]; intros [|a s]; try done.
  change (String a (stake n s +:+ sdrop n s) = String a s). by rewrite IH.
Qed.

Lemma lossy_valid fuel s : utf8_valid_go fuel s = true -> lossy_go fuel s = s.
Proof.
  revert s. induction fuel as [|fuel IH]; intros [|a s]; simpl; try done.
  destruct (utf8_chunk a s) as [n ok]. intros [-> Hv]%andb_true_iff.
  rewrite IH by done. apply (stake_sdrop n (String a s)).
Qed.

Lemma from_utf8_lossy_valid s : utf8_valid s = true -> from_utf8_lossy s = s.
Proof. apply lossy_valid. Qed.

Lemma metadata_proto_roundtrip m : metadata_of_proto (metadata_to_proto m) = m.
Proof.
  destruct m as [pv sm um]. unfold metadata_of_proto. simpl.
  f_equal; rewrite <- map_fmap_compose; apply map_eq; intros k; rewrite lookup_fmap;
    by destruct (_ !! k) as [[]|].
Qed.

(** The message a reader gets back at [off] from the bytes written by [vertex_name]. *)
Definition as_read (vertex_name : string) (off : Offset) (m : Message) : Message :=
  mkMessage (m_typ m) (m_keys m) None (m_value m) off (m_event_time m) None (m_id m) (m_headers m)
    (stamp_vertex vertex_name <$> m_metadata m) (m_is_late m) None.

Lemma utc_timestamp_roundtrip `{Chrono} t :
  dt_valid t -> utc_from_timestamp (prost_timestamp_from_utc t) = t.
Proof.
  intros Ht. unfold utc_from_timestamp, prost_timestamp_from_utc. simpl.
  pose proof (nanosecond_bound t). unfold as_u32, as_i32.
  rewrite !Z.mod_small by (rewrite ?Z.mod_small; lia).
  replace (nanosecond t + 2 ^ 31 - 2 ^ 31) with (nanosecond t) by lia.
  by rewrite from_timestamp_parts.
Qed.

(** From a message to its protobuf form and back. *)
Lemma isb_proto_roundtrip `{Chrono} vertex_name m off :
  dt_valid (m_event_time m) ->
  utf8_valid (id_vertex_name (m_id m)) = true -> utf8_valid (id_offset (m_id m)) = true ->
  message_from_isb_proto (message_to_isb_proto vertex_name m) off = Ok (as_read vertex_name off m).
Proof.
  intros Ht Hv Ho. unfold message_from_isb_proto, as_read. simpl. rewrite utc_timestamp_roundtrip by done.
  unfold id_of_proto, id_to_proto. simpl. rewrite !from_utf8_lossy_valid by done.
  f_equal. f_equal.
  - by destruct (m_typ m).
  - by destruct (m_id m).
  - destruct (m_metadata m) as [md|]; [|done]. simpl. by rewrite metadata_proto_roundtrip.
Qed.

(** What survives the inter-step buffer. A message written by a vertex and read back at
    an offset keeps its type, keys, payload, event time (to the nanosecond), id, headers and
    late flag; tags, watermark and nack options are not carried, the offset is the reader's,
    and the metadata names the writing vertex as the previous one. *)
Theorem message_isb_roundtrip (C : Chrono) (K : IsbCodec) (vertex_name b : string) (m : Message)
    (off : Offset) :
  message_to_bytes vertex_name m = Ok b ->
  dt_valid (m_event_time m) ->
  utf8_valid (id_vertex_name (m_id m)) = true -> utf8_valid (id_offset (m_id m)) = true ->
  exists p, isb_decode b = Some p /\ message_from_isb_proto p off = Ok (as_read vertex_name off m).
Proof.
  unfold message_to_bytes. intros Hb Ht Hv Ho.
  destruct (isb_encode _) as [b'|] eqn:He; [|done]. simpl in Hb. injection Hb as ->.
  exists (message_to_isb_proto vertex_name m). split; [by apply isb_decode_encode|]. by apply isb_proto_roundtrip.
Qed.

(** A codec that satisfies the law: the binary digits of the message's code number. *)
#[local] Ltac derive_countable to_t of_t :=
  refine (inj_countable' to_t of_t _); by intros [].

#[global] Instance Timestamp_eq_dec : EqDecision Timestamp.
Proof. solve_decision. Defined.
#[global] Instance Timestamp_countable : Countable Timestamp.
Proof. derive_countable (fun t => (ts_seconds t, ts_nanos t)) (fun x => mkTimestamp x.1 x.2). Defined.
#[global] Instance ProtoMessageInfo_eq_dec : EqDecision ProtoMessageInfo.
Proof. solve_decision. Defined.
#[global] Instance ProtoMessageInfo_countable : Countable ProtoMessageInfo.
Proof.
  derive_countable (fun t => (pi_event_time t, pi_is_late t)) (fun x => mkProtoMessageInfo x.1 x.2).
Defined.
#[global] Instance ProtoMessageId_eq_dec : EqDecision ProtoMessageId.
Proof. solve_decision. Defined.
#[global] Instance ProtoMessageId_countable : Countable ProtoMessageId.
Proof.
  derive_countable (fun t => (pid_vertex_name t, pid_offset t, pid_index t))
    (fun x => mkProtoMessageId x.1.1 x.1.2 x.2).
Defined.
#[global] Instance ProtoKeyValueGroup_eq_dec : EqDecision ProtoKeyValueGroup.
Proof. solve_decision. Defined.
#[global] Instance ProtoKeyValueGroup_countable : Countable ProtoKeyValueGroup.
Proof. derive_countable (fun t => pkv_key_value t) (fun x => mkProtoKeyValueGroup x). Defined.
#[global] Instance ProtoMetadata_eq_dec : EqDecision ProtoMetadata.
Proof. solve_decision. Defined.
#[global] Instance ProtoMetadata_countable : Countable ProtoMetadata.
Proof.
  derive_countable (fun t => (pmd_previous_vertex t, pmd_sys_metadata t, pmd_user_metadata t))
    (fun x => mkProtoMetadata x.1.1 x.1.2 x.2).
Defined.
#[global] Instance ProtoHeader_eq_dec : EqDecision ProtoHeader.
Proof. solve_decision. Defined.
#[global] Instance ProtoHeader_countable : Countable ProtoHeader.
Proof.
  derive_countable
    (fun t => (ph_message_info t, ph_kind t, ph_id t, ph_keys t, ph_headers t, ph_metadata t))
    (fun x => mkProtoHeader x.1.1.1.1.1 x.1.1.1.1.2 x.1.1.1.2 x.1.1.2 x.1.2 x.2).
Defined.
#[global] Instance ProtoMessage_eq_dec : EqDecision ProtoMessage.
Proof. solve_decision. Defined.
#[global] Instance ProtoMessage_countable : Countable ProtoMessage.
Proof. derive_countable (fun t => (pm_header t, pm_body t)) (fun x => mkProtoMessage x.1 x.2). Defined.

Fixpoint digits (p : positive) : string :=
  match p with
  | xH => ""
  | xO p => String Ascii.zero (digits p)
  | xI p => String Ascii.one (digits p)
  end.
Fixpoint of_digits (s : string) : positive :=
  match s with
  | EmptyString => xH
  | String a s => if decide (a = Ascii.zero) then xO (of_digits s) else xI (of_digits s)
  end.

Lemma of_digits_digits p : of_digits (digits p) = p.
Proof. by induction p as [q IH|q IH|]; simpl; rewrite ?IH. Qed.

Definition digit_codec : IsbCodec.
Proof.
  refine {| isb_encode p := Some (digits (encode p)); isb_decode s := decode (of_digits s) |}.
  intros p b [= <-]. by rewrite of_digits_digits, decode_encode.
Defined.

Definition example_message : Message :=
  mkMessage Data ["k"] (Some ["even"]) "payload" (OInt (mkIntOffset 7 1)) 1627846261000000005
    (Some 1627846260000000000) (mkMessageID "in" "7-1" 0) {["h" := "v"]}
    (Some (mkMetadata "src" ∅ {["g" := mkKeyValueGroup {["a" := "b"]}]})) false None.

Lemma message_isb_roundtrip_witness :
  exists b p, @message_to_bytes chrono_utc digit_codec "cat" example_message = Ok b /\
    @isb_decode digit_codec b = Some p /\
    @message_from_isb_proto chrono_utc p (OInt (mkIntOffset 9 1)) =
      Ok (as_read "cat" (OInt (mkIntOffset 9 1)) example_message).
Proof.
  eexists. edestruct (message_isb_roundtrip chrono_utc digit_codec "cat" _ example_message
    (OInt (mkIntOffset 9 1)) eq_refl) as (p & Hd & Hr); [by vm_compute|by vm_compute|by vm_compute|].
  exists p. split; [reflexivity|]. split; [exact Hd|exact Hr].
Defined.
