(* ===== verification/Tracker.v ===== *)
(** The in-flight message tracker ([tracker.rs]).

    A tracker keeps, per partition, a [BTreeMap] from offset to what is known of the message
    read at that offset. Every operation is a function on the whole state; calls to the serving
    callback handler are recorded in [callbacks], their failures are only logged. *)
From S2P Require Import Prelude Clock BTreeMap Message.

Record ServingCallbackInfo := mkCallbackInfo {
  cb_id : string;
  cb_pod_hash : string;
  cb_from_vertex : string;
  cb_responses : list (option (list string))
}.

Record TrackerEntry := mkEntry {
  te_callback_info : option ServingCallbackInfo;
  te_watermark : option DateTime;
  te_event_time : DateTime
}.

Definition DEFAULT_ID_HEADER : string := "X-Numaflow-Id".
Definition DEFAULT_POD_HASH_KEY : string := "X-Numaflow-Pod-Hash".

Definition callback_info_try_from (m : Message) : Result ServingCallbackInfo :=
  try! uuid := ok_or (m_headers m !! DEFAULT_ID_HEADER)
                 (ESource (DEFAULT_ID_HEADER +:+ " is not found in message headers")) in
  try! pod_hash := ok_or (m_headers m !! DEFAULT_POD_HASH_KEY)
                 (ESource (DEFAULT_POD_HASH_KEY +:+ " is not found in message headers")) in
  try! md := ok_or (m_metadata m) (ESource "Metadata field is empty in the message") in
  Ok (mkCallbackInfo uuid pod_hash (previous_vertex md) [None]).

Abbreviation Partition := (list (Offset * TrackerEntry)) (only parsing).

Record Tracker := mkTracker {
  t_entries : gmap Z Partition;
  idle_offset_map : gmap Z (option Z);
  serving_callback_handler : bool;           (* is a handler configured *)
  processed_msg_count : Z;                   (* AtomicUsize *)
  callbacks : list ServingCallbackInfo       (* calls made, oldest first *)
}.

Definition tracker_new (handler : bool) : Tracker := mkTracker ∅ ∅ handler 0 [].

Definition set_entries (t : Tracker) (es : gmap Z Partition) : Tracker :=
  mkTracker es (idle_offset_map t) (serving_callback_handler t) (processed_msg_count t) (callbacks t).

(** Replace the map of one partition. *)
Definition set_partition (t : Tracker) (part : Z) (p : Partition) : Tracker :=
  set_entries t (<[part := p]> (t_entries t)).

Definition completed_successfully (t : Tracker) (e : TrackerEntry) : Tracker :=
  let calls := if serving_callback_handler t
               then match te_callback_info e with Some cb => [cb] | None => [] end else [] in
  mkTracker (t_entries t) (idle_offset_map t) (serving_callback_handler t)
    (usize (processed_msg_count t + 1)) (callbacks t ++ calls).

(** [None] is the panic of printing an offset that is not UTF-8. *)
Definition tracker_insert (t : Tracker) (m : Message) : option (Tracker * Result unit) :=
  let off := m_offset m in
  let info := if serving_callback_handler t
              then match callback_info_try_from m with Ok i => Ok (Some i) | Err e => Err e end
              else Ok None in
  match info with
  | Err e => Some (t, Err e)
  | Ok info =>
      let part := partition_idx off in
      let p := default [] (t_entries t !! part) in
      match bm_lookup offset_cmp off p with
      | Some _ =>
          let? s := offset_to_string off in
          Some (set_partition t part p, Err (EDuplicateInflight s))
      | None =>
          Some (set_partition t part
                  (bm_insert offset_cmp off (mkEntry info (m_watermark m) (m_event_time m)) p), Ok tt)
      end
  end.

Definition set_responses (e : TrackerEntry)
    (f : list (option (list string)) -> list (option (list string))) : TrackerEntry :=
  mkEntry
    ((fun cb => mkCallbackInfo (cb_id cb) (cb_pod_hash cb) (cb_from_vertex cb) (f (cb_responses cb)))
       <$> te_callback_info e)
    (te_watermark e) (te_event_time e).

(** [get_mut] of an entry and the update of its responses in place. *)
Fixpoint bm_alter_entry (f : TrackerEntry -> TrackerEntry) (k : Offset) (m : Partition) : Partition :=
  match m with
  | [] => []
  | (k', v) :: m => match offset_cmp k k' with Eq => (k', f v) :: m | _ => (k', v) :: bm_alter_entry f k m end
  end.

Definition serving_update (t : Tracker) (off : Offset) (responses : list (option (list string))) : Tracker :=
  if serving_callback_handler t then
    match t_entries t !! partition_idx off with
    | None => t
    | Some p => match bm_lookup offset_cmp off p with
        | None => t
        | Some _ => set_partition t (partition_idx off)
                      (bm_alter_entry (fun e => set_responses e (fun _ => responses)) off p)
        end
    end
  else t.

Definition serving_refresh (t : Tracker) (off : Offset) : Tracker :=
  if serving_callback_handler t then
    match t_entries t !! partition_idx off with
    | None => t
    | Some p => match bm_lookup offset_cmp off p with
        | None => t
        | Some e => set_partition t (partition_idx off)
                      (bm_insert offset_cmp off (set_responses e (fun _ => []))
                         (bm_remove offset_cmp off p))
        end
    end
  else t.

Definition serving_append (t : Tracker) (off : Offset) (tags : option (list string)) : Tracker :=
  if serving_callback_handler t then
    match t_entries t !! partition_idx off with
    | None => t
    | Some p => match bm_lookup offset_cmp off p with
        | None => t
        | Some _ => set_partition t (partition_idx off)
                      (bm_alter_entry (fun e => set_responses e (fun rs => rs ++ [tags])) off p)
        end
    end
  else t.

Definition tracker_delete (t : Tracker) (off : Offset) : Tracker :=
  match t_entries t !! partition_idx off with
  | None => t
  | Some p => match bm_lookup offset_cmp off p with
      | None => t
      | Some e => completed_successfully (set_partition t (partition_idx off) (bm_remove offset_cmp off p)) e
      end
  end.

Definition tracker_is_empty (t : Tracker) : bool :=
  forallb (fun kp => match kp.2 with [] => true | _ => false end) (map_to_list (t_entries t)).

Definition set_idle_offset (t : Tracker) (part : Z) (o : option Z) : Tracker :=
  mkTracker (t_entries t) (<[part := o]> (idle_offset_map t)) (serving_callback_handler t)
    (processed_msg_count t) (callbacks t).
Definition get_idle_offset (t : Tracker) : gmap Z (option Z) := idle_offset_map t.

Section Lowest.
Context `{HashOrder} `{Chrono}.

Definition minus_one : DateTime := default 0 (from_timestamp_millis (-1)).

(** The watermark of the first offset of each partition. *)
Definition first_watermarks (t : Tracker) : list DateTime :=
  omap (fun p : Partition => bm_first p ≫= fun e => te_watermark e.2) (hm_values (t_entries t)).
Definition lowest_watermark (t : Tracker) : DateTime := default minus_one (list_min (first_watermarks t)).

Definition tracked_event_times (t : Tracker) : list DateTime :=
  hm_values (t_entries t) ≫= fun p : Partition => (fun e => te_event_time e.2) <$> p.
Definition lowest_event_time (t : Tracker) : DateTime := default minus_one (list_min (tracked_event_times t)).
End Lowest.

(** ** Runs of operations *)

Inductive TOp :=
  | TInsert (m : Message)
  | TUpdate (off : Offset) (responses : list (option (list string)))
  | TRefresh (off : Offset)
  | TAppend (off : Offset) (tags : option (list string))
  | TDelete (off : Offset)
  | TIdle (part : Z) (o : option Z).

Definition texec (t : Tracker) (o : TOp) : option (Tracker * Result unit) :=
  match o with
  | TInsert m => tracker_insert t m
  | TUpdate off rs => Some (serving_update t off rs, Ok tt)
  | TRefresh off => Some (serving_refresh t off, Ok tt)
  | TAppend off tags => Some (serving_append t off tags, Ok tt)
  | TDelete off => Some (tracker_delete t off, Ok tt)
  | TIdle p o => Some (set_idle_offset t p o, Ok tt)
  end.

Fixpoint trun (t : Tracker) (os : list TOp) : option (Tracker * list (Result unit)) :=
  match os with
  | [] => Some (t, [])
  | o :: os =>
      let? (t1, r) := texec t o in
      let? (t2, rs) := trun t1 os in
      Some (t2, r :: rs)
  end.

(** * Abstract specification

    One finite map from offset to entry, the number of completed messages and the callbacks
    made; partitions and their order are forgotten. *)

Record Inflight := mkInflight {
  inflight : gmap Offset TrackerEntry;
  s_completed : Z;
  s_callbacks : list ServingCallbackInfo
}.

Definition spec_entry (handler : bool) (m : Message) : Result TrackerEntry :=
  if handler then
    try! i := callback_info_try_from m in Ok (mkEntry (Some i) (m_watermark m) (m_event_time m))
  else Ok (mkEntry None (m_watermark m) (m_event_time m)).

Definition spec_respond (handler : bool) (a : Inflight) (off : Offset)
    (f : list (option (list string)) -> list (option (list string))) : Inflight :=
  if handler
  then mkInflight (alter (fun e => set_responses e f) off (inflight a)) (s_completed a) (s_callbacks a)
  else a.

Definition spec_exec (handler : bool) (a : Inflight) (o : TOp) : option (Inflight * Result unit) :=
  match o with
  | TInsert m =>
      match spec_entry handler m with
      | Err e => Some (a, Err e)
      | Ok e => match inflight a !! m_offset m with
          | Some _ => let? s := offset_to_string (m_offset m) in Some (a, Err (EDuplicateInflight s))
          | None => Some (mkInflight (<[m_offset m := e]> (inflight a)) (s_completed a) (s_callbacks a), Ok tt)
          end
      end
  | TUpdate off rs => Some (spec_respond handler a off (fun _ => rs), Ok tt)
  | TRefresh off => Some (spec_respond handler a off (fun _ => []), Ok tt)
  | TAppend off tags => Some (spec_respond handler a off (fun rs => rs ++ [tags]), Ok tt)
  | TDelete off =>
      Some (match inflight a !! off with
            | None => a
            | Some e => mkInflight (base.delete off (inflight a)) (usize (s_completed a + 1))
                (s_callbacks a ++ if handler
                   then match te_callback_info e with Some cb => [cb] | None => [] end else [])
            end, Ok tt)
  | TIdle _ _ => Some (a, Ok tt)
  end.

Fixpoint spec_run (handler : bool) (a : Inflight) (os : list TOp) : option (Inflight * list (Result unit)) :=
  match os with
  | [] => Some (a, [])
  | o :: os =>
      let? (a1, r) := spec_exec handler a o in
      let? (a2, rs) := spec_run handler a1 os in
      Some (a2, r :: rs)
  end.

(** Recording responses does not change which offsets are in flight. *)
Lemma spec_respond_dom h a x f off : is_Some (inflight (spec_respond h a x f) !! off) <-> is_Some (inflight a !! off).
Proof.
  unfold spec_respond. destruct h; [|done]. cbn [inflight].
  destruct (decide (x = off)) as [->|Hne]; [rewrite lookup_alter_eq; apply fmap_is_Some|by rewrite lookup_alter_ne].
Qed.

(** ** The order of offsets

    Every partition of a vertex uses one kind of offset; [kind] says which. On the offsets of
    one partition and kind the [Ord] of the sources is a strict total order. *)

Definition is_int (o : Offset) : bool := match o with OInt _ => true | OString _ => false end.

Definition in_partition (b : bool) (part : Z) (o : Offset) : Prop := is_int o = b /\ partition_idx o = part.

Lemma ascii_compare_lt_trans a b c :
  Ascii.compare a b = Lt -> Ascii.compare b c = Lt -> Ascii.compare a c = Lt.
Proof. unfold Ascii.compare. rewrite !N.compare_lt_iff. lia. Qed.

Lemma string_compare_lt_trans s1 s2 s3 :
  String.compare s1 s2 = Lt -> String.compare s2 s3 = Lt -> String.compare s1 s3 = Lt.
Proof.
  revert s2 s3. induction s1 as [|a s1 IH]; intros [|b s2] [|c s3]; simpl; try done.
  destruct (Ascii.compare a b) eqn:E1; [|destruct (Ascii.compare b c) eqn:E2; try done|done].
  - apply Ascii.compare_eq_iff in E1 as ->. destruct (Ascii.compare b c); eauto.
  - apply Ascii.compare_eq_iff in E2 as ->. by rewrite E1.
  - by rewrite (ascii_compare_lt_trans _ _ _ E1 E2).
Qed.

Lemma string_compare_refl s : String.compare s s = Eq.
Proof.
  induction s as [|a s IH]; simpl; [done|]. unfold Ascii.compare. by rewrite N.compare_refl.
Qed.

#[global] Instance offset_cmp_order b part : CmpOrder offset_cmp (in_partition b part).
Proof.
  split; unfold in_partition.
  - intros [[x p]|[x p]] [[y q]|[y q]] [Hx1 Hx2] [Hy1 Hy2]; simplify_eq/=; [|].
    + rewrite Z.compare_eq_iff. split; congruence.
    + split; [intros ->%String.compare_eq_iff; done|intros [= ->]; apply string_compare_refl].
  - intros [[x p]|[x p]] [[y q]|[y q]] [Hx1 Hx2] [Hy1 Hy2]; simplify_eq/=.
    + apply Z.compare_antisym.
    + apply String.compare_antisym.
  - intros [[x p]|[x p]] [[y q]|[y q]] [[z r]|[z r]] [Hx1 Hx2] [Hy1 Hy2] [Hz1 Hz2]; simplify_eq/=.
    + rewrite !Z.compare_lt_iff. lia.
    + apply string_compare_lt_trans.
Qed.

(** * Refinement *)

Section Refinement.
Context (kind : Z -> bool).

Definition well_kinded (o : Offset) : Prop := is_int o = kind (partition_idx o).
Definition partition_ok (part : Z) : Offset -> Prop := in_partition (kind part) part.
#[local] Instance partition_order part : CmpOrder offset_cmp (partition_ok part).
Proof. apply offset_cmp_order. Qed.

Definition tracker_wf (t : Tracker) : Prop :=
  map_Forall (fun part p => bm_wf offset_cmp (partition_ok part) p) (t_entries t).

Definition tlookup (t : Tracker) (off : Offset) : option TrackerEntry :=
  t_entries t !! partition_idx off ≫= bm_lookup offset_cmp off.

Definition trefines (t : Tracker) (a : Inflight) : Prop :=
  tracker_wf t /\
  (forall off, well_kinded off -> inflight a !! off = tlookup t off) /\
  (forall off, is_Some (inflight a !! off) -> well_kinded off) /\
  s_completed a = processed_msg_count t /\ s_callbacks a = callbacks t.

Lemma cmp_decide {A} part k k' (x y : A) :
  partition_ok part k -> partition_ok part k' ->
  (match offset_cmp k' k with Eq => x | _ => y end) = if decide (k' = k) then x else y.
Proof.
  intros Hk Hk'. case_decide as E.
  - apply (cmp_eq (ok := partition_ok part)) in E as ->; done.
  - destruct (offset_cmp k' k) eqn:Hc; [|done..].
    by apply (cmp_eq (ok := partition_ok part)) in Hc.
Qed.

Lemma bm_alter_keys f k m : (bm_alter_entry f k m).*1 = m.*1.
Proof. induction m as [|[k' v] m IH]; simpl; [done|]. case_match; simpl; by f_equal. Qed.

Lemma bm_wf_keys part (m m' : list (Offset * TrackerEntry)) :
  m.*1 = m'.*1 -> bm_wf offset_cmp (partition_ok part) m -> bm_wf offset_cmp (partition_ok part) m'.
Proof.
  revert m'. induction m as [|[k v] m IH]; intros [|[k' v'] m'] Hk; try done. simpl in Hk.
  injection Hk as -> Hk. rewrite !bm_wf_cons. intros (Hm & Hok & Hlt). split_and!; [by apply IH|done|].
  change (m.*1 = m'.*1) in Hk.
  assert (Hf : Forall (fun j => offset_cmp k' j = Lt) m.*1) by (by apply Forall_fmap).
  rewrite Hk in Hf. by apply Forall_fmap in Hf.
Qed.

Lemma bm_lookup_alter part f k m k' :
  partition_ok part k -> partition_ok part k' -> bm_wf offset_cmp (partition_ok part) m ->
  bm_lookup offset_cmp k' (bm_alter_entry f k m) =
  if decide (k' = k) then f <$> bm_lookup offset_cmp k m else bm_lookup offset_cmp k' m.
Proof.
  intros Hk Hk'. induction m as [|[j v] m IH]; simpl; [by case_decide|].
  rewrite bm_wf_cons. intros (Hm & Hj & Hlt). simpl in *. specialize (IH Hm).
  rewrite !(cmp_decide part j) by done. destruct (decide (k = j)) as [->|Hkj]; simpl;
    rewrite (cmp_decide part j) by done; [by repeat case_decide|].
  rewrite IH. repeat case_decide; congruence.
Qed.

(** Replacing a partition by one that differs at [off] only. *)
Lemma trefines_set t a off p' x :
  trefines t a -> well_kinded off -> bm_wf offset_cmp (partition_ok (partition_idx off)) p' ->
  (forall k, partition_ok (partition_idx off) k -> bm_lookup offset_cmp k p' =
     if decide (k = off) then x
     else bm_lookup offset_cmp k (default [] (t_entries t !! partition_idx off))) ->
  trefines (set_partition t (partition_idx off) p')
    (mkInflight (partial_alter (fun _ => x) off (inflight a)) (s_completed a) (s_callbacks a)).
Proof.
  intros (Hwf & Hl & Hk & Hc & Hb) Ho Hp' Hx. split_and!; simpl; try done.
  - by apply map_Forall_insert_2.
  - intros k Hwk. unfold tlookup. simpl. destruct (decide (partition_idx k = partition_idx off)) as [He|He].
    + rewrite He, lookup_insert_eq. simpl. rewrite Hx.
      * case_decide as E; [subst; by rewrite lookup_partial_alter_eq|].
        rewrite lookup_partial_alter_ne by done. rewrite Hl by done. unfold tlookup. rewrite He.
        by destruct (t_entries t !! _).
      * split; [|done]. unfold well_kinded in Hwk. congruence.
    + rewrite lookup_insert_ne by done. rewrite lookup_partial_alter_ne by congruence. by apply Hl.
  - intros k. destruct (decide (k = off)) as [->|]; [done|].
    rewrite lookup_partial_alter_ne by done. apply Hk.
Qed.

Lemma trefines_partition t a off :
  trefines t a -> well_kinded off ->
  bm_wf offset_cmp (partition_ok (partition_idx off)) (default [] (t_entries t !! partition_idx off)) /\
  partition_ok (partition_idx off) off /\
  bm_lookup offset_cmp off (default [] (t_entries t !! partition_idx off)) = inflight a !! off.
Proof.
  intros (Hwf & Hl & _) Ho. split_and!; [|done|].
  - destruct (t_entries t !! _) as [p|] eqn:E; simpl; [by apply Hwf in E|]. split; constructor.
  - rewrite Hl by done. unfold tlookup. by destruct (t_entries t !! _).
Qed.

Lemma trefines_insert t a m :
  trefines t a -> well_kinded (m_offset m) ->
  match tracker_insert t m, spec_exec (serving_callback_handler t) a (TInsert m) with
  | Some (t', r), Some (a', r') => trefines t' a' /\ r = r' /\
      serving_callback_handler t' = serving_callback_handler t
  | None, None => True
  | _, _ => False
  end.
Proof.
  intros Hr Ho. destruct (trefines_partition t a _ Hr Ho) as (Hp & Hok & Hl).
  assert (Hspec : forall e, spec_entry (serving_callback_handler t) m = Ok e -> exists i, e =
    mkEntry i (m_watermark m) (m_event_time m) /\
    (if serving_callback_handler t then match callback_info_try_from m with Ok i => Ok (Some i) | Err e => Err e end
     else Ok None) = Ok i).
  { unfold spec_entry. intros e. destruct (serving_callback_handler t); [|intros [= <-]; eauto].
    destruct (callback_info_try_from m); [|done]. intros [= <-]. eauto. }
  unfold tracker_insert. simpl. destruct (spec_entry _ m) as [e|e] eqn:Hse.
  - destruct (Hspec e eq_refl) as (i & -> & ->). rewrite Hl.
    destruct (inflight a !! m_offset m) as [e0|] eqn:Ea.
    + destruct (offset_to_string _); [|done]. split_and!; try done.
      destruct a as [f c b]. simpl in *. rewrite <- (partial_alter_self f (m_offset m)).
      apply (trefines_set t (mkInflight f c b)); try done.
      intros k Hk. case_decide; [|done]. subst. by rewrite Hl, Ea.
    + split_and!; try done. apply (trefines_set t a); try done; [by apply (bm_insert_wf _ _)|].
      intros k Hk. rewrite (bm_lookup_insert _ (partition_ok (partition_idx (m_offset m)))) by done.
      by apply (cmp_decide (partition_idx (m_offset m))).
  - unfold spec_entry in Hse. destruct (serving_callback_handler t) eqn:Hs; [|done].
    destruct (callback_info_try_from m); simplify_eq. by rewrite Hs.
Qed.

(** A partition that changes the responses at [off] and nothing else. *)
Lemma trefines_respond t a off p f q :
  trefines t a -> well_kinded off -> t_entries t !! partition_idx off = Some p ->
  bm_wf offset_cmp (partition_ok (partition_idx off)) q ->
  (forall k, partition_ok (partition_idx off) k -> bm_lookup offset_cmp k q =
     if decide (k = off) then (fun e => set_responses e f) <$> bm_lookup offset_cmp off p
     else bm_lookup offset_cmp k p) ->
  trefines (set_partition t (partition_idx off) q)
    (mkInflight (alter (fun e => set_responses e f) off (inflight a)) (s_completed a) (s_callbacks a)).
Proof.
  intros Hr Ho Hp Hq Hlq. destruct (trefines_partition t a _ Hr Ho) as (_ & _ & Hl).
  rewrite Hp in Hl. simpl in Hl.
  replace (alter (fun e => set_responses e f) off (inflight a)) with
    (partial_alter (fun _ => (fun e => set_responses e f) <$> inflight a !! off) off (inflight a)).
  - apply trefines_set; try done. rewrite Hp. simpl. by rewrite <- Hl.
  - apply partial_alter_ext. by intros ? <-.
Qed.

(** A response to an offset that is not tracked changes nothing. *)
Lemma trefines_respond_absent t a off f :
  trefines t a -> well_kinded off -> tlookup t off = None ->
  trefines t (spec_respond (serving_callback_handler t) a off f).
Proof.
  intros Hr Ho Hn. unfold spec_respond. destruct (serving_callback_handler t); [|done].
  destruct a as [m c b]. replace (alter _ _ _) with m; [done|]. simpl.
  symmetry. apply map_eq. intros k. destruct (decide (off = k)) as [<-|]; [|by rewrite lookup_alter_ne].
  destruct Hr as (_ & Hl & _). simpl in Hl. by rewrite lookup_alter_eq, Hl, Hn.
Qed.

(** The two lookups the serving operations make. *)
Lemma tlookup_cases t off :
  match t_entries t !! partition_idx off with
  | None => tlookup t off = None
  | Some p => tlookup t off = bm_lookup offset_cmp off p
  end.
Proof. unfold tlookup. by destruct (t_entries t !! _). Qed.

Lemma trefines_alter t a off p f :
  trefines t a -> well_kinded off -> t_entries t !! partition_idx off = Some p ->
  trefines (set_partition t (partition_idx off) (bm_alter_entry (fun e => set_responses e f) off p))
    (mkInflight (alter (fun e => set_responses e f) off (inflight a)) (s_completed a) (s_callbacks a)).
Proof.
  intros Hr Ho Hp. destruct (trefines_partition t a _ Hr Ho) as (Hwf & Hok & _).
  rewrite Hp in Hwf. simpl in Hwf. apply (trefines_respond t a off p); try done.
  - eapply bm_wf_keys; [|exact Hwf]. by rewrite bm_alter_keys.
  - intros k Hk. by apply (bm_lookup_alter (partition_idx off)).
Qed.

Lemma trefines_delete t a off :
  trefines t a -> well_kinded off ->
  match spec_exec (serving_callback_handler t) a (TDelete off) with
  | Some (a', _) => trefines (tracker_delete t off) a'
  | None => False
  end.
Proof.
  intros Hr Ho. destruct (trefines_partition t a _ Hr Ho) as (Hwf & Hok & Hl).
  unfold tracker_delete. simpl. destruct (t_entries t !! partition_idx off) as [p|] eqn:Ep; simpl in *.
  - rewrite Hl. destruct (inflight a !! off) as [e|] eqn:Ea; [|done].
    assert (Hs : trefines (set_partition t (partition_idx off) (bm_remove offset_cmp off p))
      (mkInflight (partial_alter (fun _ => None) off (inflight a)) (s_completed a) (s_callbacks a))).
    { apply trefines_set; try done; [by apply bm_remove_wf|]. intros k Hk. rewrite Ep. simpl.
      rewrite (bm_lookup_remove _ (partition_ok (partition_idx off))) by done.
      by apply (cmp_decide (partition_idx off)). }
    destruct Hs as (Hs1 & Hs2 & Hs3 & Hs4 & Hs5). split_and!; try done; simpl in *; congruence.
  - by rewrite <- Hl.
Qed.

Definition op_ok (o : TOp) : Prop :=
  match o with
  | TInsert m => well_kinded (m_offset m)
  | TUpdate off _ | TRefresh off | TAppend off _ | TDelete off => well_kinded off
  | TIdle _ _ => True
  end.

Definition step_sim (h : bool) (x : option (Tracker * Result unit)) (y : option (Inflight * Result unit)) : Prop :=
  match x, y with
  | Some (t', r), Some (a', r') => trefines t' a' /\ r = r' /\ serving_callback_handler t' = h
  | None, None => True
  | _, _ => False
  end.

(** The shape the serving operations share: a change of the responses at a tracked offset. *)
Lemma serving_sim t a off f (g : list (Offset * TrackerEntry) -> TrackerEntry -> Tracker) :
  trefines t a -> well_kinded off ->
  (forall p e, t_entries t !! partition_idx off = Some p -> bm_lookup offset_cmp off p = Some e ->
     serving_callback_handler (g p e) = serving_callback_handler t /\
     trefines (g p e)
       (mkInflight (alter (fun e => set_responses e f) off (inflight a)) (s_completed a) (s_callbacks a))) ->
  step_sim (serving_callback_handler t)
    (Some (if serving_callback_handler t then
             match t_entries t !! partition_idx off with
             | None => t
             | Some p => match bm_lookup offset_cmp off p with None => t | Some e => g p e end
             end
           else t, Ok tt))
    (Some (spec_respond (serving_callback_handler t) a off f, Ok tt)).
Proof.
  intros Hr Ho Hg. pose proof (tlookup_cases t off) as Hc.
  destruct (serving_callback_handler t) eqn:Hh; [|done]. rewrite <- Hh in *.
  destruct (t_entries t !! _) as [p|] eqn:Ep; [destruct (bm_lookup _ _ p) as [e|] eqn:El|].
  - destruct (Hg p e eq_refl El) as [? ?]. split_and!; [|done..]. unfold spec_respond. by rewrite Hh.
  - split_and!; [|done..]. by apply trefines_respond_absent.
  - split_and!; [|done..]. by apply trefines_respond_absent.
Qed.

Lemma trefines_refresh t a off p e :
  trefines t a -> well_kinded off -> t_entries t !! partition_idx off = Some p ->
  bm_lookup offset_cmp off p = Some e ->
  trefines (set_partition t (partition_idx off)
      (bm_insert offset_cmp off (set_responses e (fun _ => [])) (bm_remove offset_cmp off p)))
    (mkInflight (alter (fun e => set_responses e (fun _ => [])) off (inflight a))
       (s_completed a) (s_callbacks a)).
Proof.
  intros Hr Ho Ep El. destruct (trefines_partition t a _ Hr Ho) as (Hwf & Hok & _).
  rewrite Ep in Hwf. simpl in Hwf. pose proof (bm_remove_wf offset_cmp _ off p Hwf) as Hwf'.
  apply (trefines_respond t a off p); try done; [by apply (bm_insert_wf _ _)|]. intros k Hk.
  rewrite (bm_lookup_insert _ (partition_ok (partition_idx off))),
    (bm_lookup_remove _ (partition_ok (partition_idx off))) by done.
  rewrite !(cmp_decide (partition_idx off) off k) by done. rewrite El. by case_decide.
Qed.

Lemma texec_refines t a o :
  trefines t a -> op_ok o ->
  step_sim (serving_callback_handler t) (texec t o) (spec_exec (serving_callback_handler t) a o).
Proof.
  intros Hr Ho. destruct o as [m|off rs|off|off tags|off|part i]; simpl in Ho.
  - by apply trefines_insert.
  - apply (serving_sim t a off _ (fun p _ => _)); try done. split; [done|]. by apply trefines_alter.
  - apply (serving_sim t a off _ (fun p e => _)); try done. split; [done|]. by apply trefines_refresh.
  - apply (serving_sim t a off _ (fun p _ => _)); try done. split; [done|]. by apply trefines_alter.
  - pose proof (trefines_delete t a off Hr Ho) as Hd. simpl in *. split_and!; [done..|].
    unfold tracker_delete. by repeat case_match.
  - by destruct Hr as (? & ? & ? & ? & ?).
Qed.

Lemma trun_refines t a os :
  trefines t a -> Forall op_ok os ->
  match trun t os, spec_run (serving_callback_handler t) a os with
  | Some (t', rs), Some (a', rs') => trefines t' a' /\ rs = rs'
  | None, None => True
  | _, _ => False
  end.
Proof.
  revert t a. induction os as [|o os IH]; intros t a Hr Hos; simpl; [done|].
  apply Forall_cons in Hos as [Ho Hos]. pose proof (texec_refines t a o Hr Ho) as Hs.
  unfold step_sim in Hs. destruct (texec t o) as [[t1 r]|], (spec_exec _ a o) as [[a1 r']|]; try done.
  destruct Hs as (Hr1 & <- & Hh). specialize (IH t1 a1 Hr1 Hos). rewrite Hh in IH.
  destruct (trun t1 os) as [[t2 rs]|], (spec_run _ a1 os) as [[a2 rs']|]; try done.
  by destruct IH as [? <-].
Qed.

Lemma trefines_new h : trefines (tracker_new h) (mkInflight ∅ 0 []).
Proof. split_and!; try done. intros off [? Hs]. simpl in Hs. by rewrite lookup_empty in Hs. Qed.

(** ** Reading the refined state *)

Lemma trefines_elem t a part p off e :
  trefines t a -> t_entries t !! part = Some p ->
  (off, e) ∈ p <-> partition_idx off = part /\ inflight a !! off = Some e.
Proof.
  intros (Hwf & Hl & Hk & _) Hp. pose proof (Hwf _ _ Hp) as Hpw. simpl in Hpw. split.
  - intros Hin. pose proof (proj2 Hpw) as Hok. rewrite Forall_forall in Hok.
    destruct (Hok _ Hin) as [Hi Hpi]. simpl in Hi, Hpi. split; [done|].
    rewrite Hl by (unfold well_kinded; congruence). unfold tlookup. rewrite Hpi, Hp. simpl.
    by apply (bm_lookup_elem _ (partition_ok part)).
  - intros [<- Ha]. assert (well_kinded off) as Hwk by (apply Hk; eauto).
    rewrite Hl in Ha by done. unfold tlookup in Ha. rewrite Hp in Ha. simpl in Ha.
    by apply (bm_lookup_elem _ (partition_ok (partition_idx off))) in Ha.
Qed.

(** A tracked offset lies in the map of its partition. *)
Lemma trefines_partition_of t a off e :
  trefines t a -> inflight a !! off = Some e -> exists p, t_entries t !! partition_idx off = Some p.
Proof.
  intros (_ & Hl & Hk & _) Ha. assert (well_kinded off) as Hwk by (apply Hk; eauto).
  rewrite Hl in Ha by done. unfold tlookup in Ha. destruct (t_entries t !! _); [eauto|done].
Qed.

Lemma elem_of_tracked_times (O : HashOrder) t a x :
  trefines t a ->
  x ∈ tracked_event_times t <-> exists off e, inflight a !! off = Some e /\ te_event_time e = x.
Proof.
  intros Hr. unfold tracked_event_times. rewrite list_elem_of_bind. split.
  - intros (p & (? & -> & Hin)%list_elem_of_fmap & [part Hp]%elem_of_hm_values).
    destruct x0 as [off e]. exists off, e. split; [|done]. by eapply trefines_elem.
  - intros (off & e & Ha & <-). destruct (trefines_partition_of t a off e Hr Ha) as [p Hp].
    exists p. split; [|apply elem_of_hm_values; eauto]. apply list_elem_of_fmap. exists (off, e).
    split; [done|]. by eapply trefines_elem.
Qed.

(** The watermarks tracked in a partition never go back as the offsets grow. *)
Definition watermarks_monotone (a : Inflight) : Prop :=
  forall off off' e e', inflight a !! off = Some e -> inflight a !! off' = Some e' ->
    partition_idx off = partition_idx off' -> offset_cmp off off' = Lt ->
    exists w w', te_watermark e = Some w /\ te_watermark e' = Some w' /\ w <= w'.

Lemma first_watermark_least (O : HashOrder) t a off e w :
  trefines t a -> watermarks_monotone a -> inflight a !! off = Some e -> te_watermark e = Some w ->
  exists w0, w0 ∈ first_watermarks t /\ w0 <= w.
Proof.
  intros Hr Hm Ha Hw. destruct (trefines_partition_of t a off e Hr Ha) as [p Hp].
  assert (Hin : (off, e) ∈ p) by (by eapply trefines_elem).
  destruct (bm_first p) as [[off0 e0]|] eqn:Hf; [|destruct p; [by apply elem_of_nil in Hin|done]].
  assert (H0 : (off0, e0) ∈ p) by (destruct p; [done|injection Hf as ->; by left]).
  pose proof (proj1 Hr _ _ Hp) as Hwf. simpl in Hwf.
  assert (Hfw : forall w0, te_watermark e0 = Some w0 -> w0 ∈ first_watermarks t).
  { intros w0 Hw0. apply list_elem_of_omap. exists p. split; [apply elem_of_hm_values; eauto|].
    by rewrite Hf. }
  destruct (bm_first_least offset_cmp (partition_ok (partition_idx off)) _ _ Hwf Hf _ Hin) as [[= -> ->]|Hlt];
    [eauto with lia|].
  apply (trefines_elem t a _ _ _ _ Hr Hp) in H0 as [Hpi Ha0].
  destruct (Hm off0 off e0 e) as (w0 & w' & Hw0 & Hw' & Hle); try done.
  simplify_eq. eauto.
Qed.

Lemma first_watermark_tracked (O : HashOrder) t a w :
  trefines t a -> w ∈ first_watermarks t -> exists off e, inflight a !! off = Some e /\ te_watermark e = Some w.
Proof.
  intros Hr (p & [part Hp]%elem_of_hm_values & Hw)%list_elem_of_omap.
  destruct p as [|[off e] p]; [done|]. simpl in Hw. exists off, e. split; [|done].
  eapply (trefines_elem t a part); [done..|by left].
Qed.
End Refinement.

(** * Properties *)

(** C24: the tracker is one map of in-flight messages. Over any run of inserts, serving updates,
    deletes and idle marks in which every partition uses one kind of offset, each call answers
    as the abstract map does (in particular an insert is refused as a duplicate exactly when
    the offset is in flight, and leaves the state as it was), the tracked entries are those of
    the map, and the completed count and the serving callbacks are those of its deletions. *)
Theorem tracker_refines_inflight (kind : Z -> bool) (handler : bool) (os : list TOp) (t : Tracker)
    (rs : list (Result unit)) :
  Forall (op_ok kind) os -> trun (tracker_new handler) os = Some (t, rs) ->
  exists a, spec_run handler (mkInflight ∅ 0 []) os = Some (a, rs) /\
    (forall off, is_int off = kind (partition_idx off) -> inflight a !! off = tlookup t off) /\
    processed_msg_count t = s_completed a /\ callbacks t = s_callbacks a.
Proof.
  intros Hos Hrun. pose proof (trun_refines kind _ _ os (trefines_new kind handler) Hos) as Hr.
  rewrite Hrun in Hr. simpl in Hr. destruct (spec_run _ _ os) as [[a rs']|]; [|done].
  destruct Hr as [(_ & Hl & _ & Hc & Hb) <-]. exists a. split_and!; [done| |done..].
  intros off Ho. by apply Hl.
Qed.

(** The lowest event time is the exact minimum over everything in flight, and -1 when
    nothing is; the lowest watermark, when each partition's watermarks grow with its offsets,
    is the watermark of an in-flight message and is not above that of any other. *)
Theorem tracker_lowest (O : HashOrder) (C : Chrono) (kind : Z -> bool) (handler : bool)
    (os : list TOp) (t : Tracker) (rs : list (Result unit)) :
  Forall (op_ok kind) os -> trun (tracker_new handler) os = Some (t, rs) ->
  exists a, spec_run handler (mkInflight ∅ 0 []) os = Some (a, rs) /\
    (if decide (inflight a = ∅) then lowest_event_time t = minus_one
     else (exists off e, inflight a !! off = Some e /\ te_event_time e = lowest_event_time t) /\
          (forall off e, inflight a !! off = Some e -> lowest_event_time t <= te_event_time e)) /\
    (watermarks_monotone a -> forall off e w, inflight a !! off = Some e -> te_watermark e = Some w ->
       lowest_watermark t <= w /\
       exists off' e', inflight a !! off' = Some e' /\ te_watermark e' = Some (lowest_watermark t)).
Proof.
  intros Hos Hrun. pose proof (trun_refines kind _ _ os (trefines_new kind handler) Hos) as Hr.
  rewrite Hrun in Hr. simpl in Hr. destruct (spec_run _ _ os) as [[a rs']|]; [|done].
  destruct Hr as [Hr <-]. exists a. split_and!; [done| |].
  - pose proof (fun x => elem_of_tracked_times kind O t a x Hr) as He. unfold lowest_event_time.
    destruct (list_min (tracked_event_times t)) as [m|] eqn:El; simpl.
    + apply list_min_Some in El as [Hin Hle]. pose proof Hin as (off & e & Ha & <-)%He.
      rewrite decide_False by (intros Hz; rewrite Hz in Ha; by apply lookup_empty_Some in Ha).
      split; [eauto|]. intros off' e' Ha'. apply Hle, He. eauto.
    + apply list_min_None in El. rewrite decide_True; [done|]. apply map_empty. intros off.
      destruct (inflight a !! off) as [e|] eqn:Ha; [|done].
      assert (Hin : te_event_time e ∈ tracked_event_times t) by (apply He; eauto).
      rewrite El in Hin. by apply elem_of_nil in Hin.
  - intros Hm off e w Ha Hw. unfold lowest_watermark.
    destruct (first_watermark_least kind O t a off e w Hr Hm Ha Hw) as (w0 & Hin & Hle).
    destruct (list_min_is_Some _ _ Hin) as (m & El & Hm0). rewrite El. simpl.
    apply list_min_Some in El as [Hmin _]. split; [lia|].
    by eapply first_watermark_tracked.
Qed.

Definition example_inflight_message (off part et wm : Z) : Message :=
  mkMessage Data [] None "v" (OInt (mkIntOffset off part)) et (Some wm) MessageID_default
    {[DEFAULT_ID_HEADER := "1234"; DEFAULT_POD_HASH_KEY := "abcd"]}
    (Some (mkMetadata "in" ∅ ∅)) false None.

Definition example_ops : list TOp :=
  [TInsert (example_inflight_message 5 0 700 100); TInsert (example_inflight_message 3 0 900 90);
   TInsert (example_inflight_message 5 0 100 100); TAppend (OInt (mkIntOffset 3 0)) (Some ["even"]);
   TInsert (example_inflight_message 5 1 800 120); TDelete (OInt (mkIntOffset 3 0))].

Lemma example_ops_ok : Forall (op_ok (fun _ => true)) example_ops.
Proof. by repeat constructor. Defined.

Lemma tracker_refines_inflight_witness :
  exists t a, trun (tracker_new true) example_ops =
      Some (t, [Ok tt; Ok tt; Err (EDuplicateInflight "5-0"); Ok tt; Ok tt; Ok tt]) /\
    spec_run true (mkInflight ∅ 0 []) example_ops =
      Some (a, [Ok tt; Ok tt; Err (EDuplicateInflight "5-0"); Ok tt; Ok tt; Ok tt]) /\
    callbacks t = s_callbacks a /\ callbacks t = [mkCallbackInfo "1234" "abcd" "in" [None; Some ["even"]]].
Proof.
  eexists. edestruct (tracker_refines_inflight (fun _ => true) true example_ops) as (a & Hs & _ & _ & Hc).
  - exact example_ops_ok.
  - vm_compute. reflexivity.
  - exists a. split; [vm_compute; reflexivity|]. split; [exact Hs|]. split; [exact Hc|reflexivity].
Defined.

Lemma tracker_lowest_witness :
  exists t rs a, trun (tracker_new true) example_ops = Some (t, rs) /\
    spec_run true (mkInflight ∅ 0 []) example_ops = Some (a, rs) /\
    @lowest_event_time canonical_order chrono_utc t = 700.
Proof.
  eexists _, _. edestruct (tracker_lowest canonical_order chrono_utc (fun _ => true) true example_ops)
    as (a & Hs & _).
  - exact example_ops_ok.
  - vm_compute. reflexivity.
  - exists a. split; [vm_compute; reflexivity|]. split; [exact Hs|vm_compute; reflexivity].
Defined.
