(* ===== verification/AlignedWindow.v ===== *)
(** The aligned windowers ([reduce/reducer/aligned/windower.rs], [windower/fixed.rs],
    [windower/sliding.rs]): assigning messages to windows, closing and collecting windows, the
    oldest window, and the state file of the sliding windower.

    A set of windows is a [BTreeSet] ordered by end time. [None] is a panic ([unwrap] or
    [expect] of a conversion). The window managers are behind the interface [AlignedWindower],
    with the laws the reducer relies on. *)
From S2P Require Import Prelude Clock Message.
From stdpp Require Import pretty.
#[local] Open Scope Z_scope.

Record Window := mkWindow { start_time : DateTime; end_time : DateTime }.
#[global] Instance Window_eq_dec : EqDecision Window.
Proof. solve_decision. Defined.

Abbreviation win_insert := (bt_insert end_time) (only parsing).
Abbreviation win_remove := (bt_remove end_time) (only parsing).
Abbreviation win_contains := (bt_contains end_time) (only parsing).
Abbreviation win_sorted := (bt_sorted end_time) (only parsing).

Inductive AlignedWindowOperation :=
  | Open (message : Message) (window : Window)
  | Close (window : Window)
  | Append (message : Message) (window : Window).

Record AlignedWindowMessage := mkWindowMessage {
  operation : AlignedWindowOperation;
  pnf_slot : string
}.

Definition op_window (o : AlignedWindowOperation) : Window :=
  match o with Open _ w | Close w | Append _ w => w end.

Record ProtoWindow := mkProtoWindow {
  pw_start_time : option Timestamp;
  pw_end_time : option Timestamp
}.
Record GcEvent := mkGcEvent {
  gc_start_time : option Timestamp;
  gc_end_time : option Timestamp;
  gc_keys : list string
}.
Record WindowManagerState := mkWindowManagerState {
  wms_windows : list ProtoWindow;
  wms_max_deleted_window_end_time : Z
}.

(** The prost encoder and decoder of [WindowManagerState]. *)
Class StateCodec := {
  state_encode : WindowManagerState -> option string;
  state_decode : string -> option WindowManagerState;
  state_decode_encode : forall s b, state_encode s = Some b -> state_decode b = Some s
}.

Record FixedWindowManager := mkFixed {
  f_window_length : Duration;
  f_active_windows : list Window;
  f_closed_windows : list Window
}.

Record SlidingWindowManager := mkSliding {
  s_window_length : Duration;
  s_slide : Duration;
  s_active_windows : list Window;
  s_closed_windows : list Window;
  s_active_window_state_file : option string;
  s_max_deleted_window_end_time : Z            (* AtomicI64, milliseconds *)
}.

Section Windower.
Context `{Chrono}.

Definition window_to_gc_event (w : Window) : GcEvent :=
  mkGcEvent (Some (prost_timestamp_from_utc (start_time w)))
    (Some (prost_timestamp_from_utc (end_time w))) [].
Definition window_to_proto (w : Window) : ProtoWindow :=
  mkProtoWindow (Some (prost_timestamp_from_utc (start_time w)))
    (Some (prost_timestamp_from_utc (end_time w))).
Definition window_of_proto (p : ProtoWindow) : option Window :=
  let? s := utc_from_timestamp <$> pw_start_time p in
  let? e := utc_from_timestamp <$> pw_end_time p in
  Some (mkWindow s e).

Definition window_to_pnf_slot (w : Window) : string :=
  pretty (timestamp_millis (start_time w)) +:+ "-" +:+ pretty (timestamp_millis (end_time w)).

(** [TimeDelta::try_milliseconds] fails on [i64::MIN] only. *)
Definition try_milliseconds (ms : Z) : option Duration :=
  if decide (i64_min < ms <= i64_max) then Some (ms * ns_per_ms) else None.

Definition truncate_to_duration (ts_millis duration_millis : Z) : option Z :=
  let? dt := from_timestamp_millis ts_millis in
  let? d := try_milliseconds duration_millis in
  let? truncated := duration_trunc dt d in
  Some (timestamp_millis truncated).

Definition window_msg (op : AlignedWindowOperation) : AlignedWindowMessage :=
  mkWindowMessage op (window_to_pnf_slot (op_window op)).

(** ** Fixed windows *)

Definition fixed_new (window_length : Duration) : FixedWindowManager := mkFixed window_length [] [].

Definition fixed_create_window (mgr : FixedWindowManager) (m : Message) : option Window :=
  let len := as_millis_i64 (f_window_length mgr) in
  let et := timestamp_millis (m_event_time m) in
  let? start_millis := truncate_to_duration et len in
  let end_millis := wrap_i64 (start_millis + len) in
  let? s := from_timestamp_millis start_millis in
  let? e := from_timestamp_millis end_millis in
  Some (mkWindow s e).

Definition fixed_assign_windows (mgr : FixedWindowManager) (m : Message)
    : option (FixedWindowManager * list AlignedWindowMessage) :=
  let? w := fixed_create_window mgr m in
  if win_contains w (f_active_windows mgr)
  then Some (mgr, [window_msg (Append m w)])
  else Some (mkFixed (f_window_length mgr) (win_insert w (f_active_windows mgr)) (f_closed_windows mgr),
             [window_msg (Open m w)]).

(** [extract_if]: the windows that end at or before the watermark, in order. *)
Definition windows_to_close (watermark : DateTime) (ws : list Window) : list Window :=
  filter (fun w => end_time w <= watermark) ws.
Definition windows_to_keep (watermark : DateTime) (ws : list Window) : list Window :=
  filter (fun w => ~ end_time w <= watermark) ws.

Definition fixed_close_windows (mgr : FixedWindowManager) (watermark : DateTime)
    : FixedWindowManager * list AlignedWindowMessage :=
  let ws := windows_to_close watermark (f_active_windows mgr) in
  (mkFixed (f_window_length mgr) (windows_to_keep watermark (f_active_windows mgr))
     (bt_extend end_time (f_closed_windows mgr) ws),
   (fun w => window_msg (Close w)) <$> ws).

Definition fixed_gc_window (mgr : FixedWindowManager) (w : Window) : FixedWindowManager :=
  mkFixed (f_window_length mgr) (f_active_windows mgr) (win_remove w (f_closed_windows mgr)).

Definition fixed_oldest_window (mgr : FixedWindowManager) : option Window :=
  match f_closed_windows mgr with
  | w :: _ => Some w
  | [] => head (f_active_windows mgr)
  end.

Definition fixed_active_window_count (mgr : FixedWindowManager) : nat := length (f_active_windows mgr).
Definition fixed_closed_window_count (mgr : FixedWindowManager) : nat := length (f_closed_windows mgr).

(** ** Sliding windows *)

(** The [while] loop: from the latest window back, a slide at a time. Each turn lowers
    [current_end] by a slide, so the number of turns is at most [length / slide + 1]. *)
Fixpoint slide_back (fuel : nat) (et slide current_start current_end : Z) : option (list Window) :=
  if (current_start <=? et) && (et <? current_end) then
    match fuel with
    | O => None
    | S fuel =>
        let? s := from_timestamp_millis current_start in
        let? e := from_timestamp_millis current_end in
        let? ws := slide_back fuel et slide (wrap_i64 (current_start - slide)) (wrap_i64 (current_end - slide)) in
        Some (mkWindow s e :: ws)
    end
  else Some [].

Definition slide_fuel (len slide : Z) : nat := S (Z.to_nat (len / slide)).

Definition sliding_create_windows (mgr : SlidingWindowManager) (m : Message) : option (list Window) :=
  let len := as_millis_i64 (s_window_length mgr) in
  let slide := as_millis_i64 (s_slide mgr) in
  let et := timestamp_millis (m_event_time m) in
  let? start_millis := truncate_to_duration et slide in
  slide_back (slide_fuel len slide) et slide start_millis (wrap_i64 (start_millis + len)).

Definition sliding_close_windows (mgr : SlidingWindowManager) (watermark : DateTime)
    : SlidingWindowManager * list AlignedWindowMessage :=
  let ws := windows_to_close watermark (s_active_windows mgr) in
  (mkSliding (s_window_length mgr) (s_slide mgr) (windows_to_keep watermark (s_active_windows mgr))
     (bt_extend end_time (s_closed_windows mgr) ws) (s_active_window_state_file mgr)
     (s_max_deleted_window_end_time mgr),
   (fun w => window_msg (Close w)) <$> ws).

Definition sliding_gc_window (mgr : SlidingWindowManager) (w : Window) : SlidingWindowManager :=
  mkSliding (s_window_length mgr) (s_slide mgr) (s_active_windows mgr)
    (win_remove w (s_closed_windows mgr)) (s_active_window_state_file mgr)
    (Z.max (s_max_deleted_window_end_time mgr) (timestamp_millis (end_time w))).

Definition sliding_oldest_window (mgr : SlidingWindowManager) : option Window :=
  match s_closed_windows mgr with
  | w :: _ => Some w
  | [] => head (s_active_windows mgr)
  end.

Definition sliding_active_window_count (mgr : SlidingWindowManager) : nat := length (s_active_windows mgr).
Definition sliding_closed_window_count (mgr : SlidingWindowManager) : nat := length (s_closed_windows mgr).

(** The loop over the windows of a message; [max_deleted] is the guard against windows
    already materialised and deleted, [None] when the windower has no such guard. *)
Fixpoint assign_loop (max_deleted : option Z) (m : Message) (active : list Window) (ws : list Window)
    : list Window * list AlignedWindowMessage :=
  match ws with
  | [] => (active, [])
  | w :: ws =>
      if win_contains w active then
        let (a, out) := assign_loop max_deleted m active ws in (a, window_msg (Append m w) :: out)
      else if match max_deleted with Some d => d <? timestamp_millis (end_time w) | None => true end then
        let (a, out) := assign_loop max_deleted m (win_insert w active) ws in
        (a, window_msg (Open m w) :: out)
      else assign_loop max_deleted m active ws
  end.

Definition sliding_assign_windows (mgr : SlidingWindowManager) (m : Message)
    : option (SlidingWindowManager * list AlignedWindowMessage) :=
  let? ws := sliding_create_windows mgr m in
  let (a, out) := assign_loop (Some (s_max_deleted_window_end_time mgr)) m (s_active_windows mgr) ws in
  Some (mkSliding (s_window_length mgr) (s_slide mgr) a (s_closed_windows mgr)
          (s_active_window_state_file mgr) (s_max_deleted_window_end_time mgr), out).

(** ** The state file

    [fs] maps a path to the bytes of the file; the flags say whether the operating system
    carries out the write, the read and the removal. *)

Definition save_state `{StateCodec} (mgr : SlidingWindowManager) (write_ok : bool) (fs : gmap string string)
    : gmap string string * Result unit :=
  match s_active_window_state_file mgr with
  | None => (fs, Ok tt)
  | Some path =>
      let state := mkWindowManagerState
        (window_to_proto <$> (s_closed_windows mgr ++ s_active_windows mgr))
        (s_max_deleted_window_end_time mgr) in
      match state_encode state with
      | None => (fs, Err (EOther "encode"))
      | Some buf => if write_ok then (<[path := buf]> fs, Ok tt) else (fs, Err (EOther "write"))
      end
  end.

Definition load_state `{StateCodec} (mgr : SlidingWindowManager) (path : string) (read_ok remove_ok : bool)
    (fs : gmap string string)
    : option (SlidingWindowManager * gmap string string * Result unit) :=
  match fs !! path with
  | None => Some (mgr, fs, Ok tt)
  | Some buf =>
      if read_ok then
        match state_decode buf with
        | None => Some (mgr, fs, Err (EOther "decode"))
        | Some state =>
            let? ws := mapM window_of_proto (wms_windows state) in
            let mgr' := mkSliding (s_window_length mgr) (s_slide mgr)
              (bt_extend end_time (s_active_windows mgr) ws) (s_closed_windows mgr)
              (s_active_window_state_file mgr) (wms_max_deleted_window_end_time state) in
            if remove_ok then Some (mgr', delete path fs, Ok tt)
            else Some (mgr', fs, Err (EOther "remove"))
        end
      else Some (mgr, fs, Err (EOther "read"))
  end.

(** A failure to load is only logged. *)
Definition sliding_new `{StateCodec} (window_length slide : Duration) (state_file : option string)
    (read_ok remove_ok : bool) (fs : gmap string string)
    : option (SlidingWindowManager * gmap string string) :=
  let mgr := mkSliding window_length slide [] [] state_file (-1) in
  match state_file with
  | None => Some (mgr, fs)
  | Some path => let? (mgr', fs', _) := load_state mgr path read_ok remove_ok fs in Some (mgr', fs')
  end.
End Windower.

(** * The window manager of the reducer *)

Inductive AlignedWindowManager := Fixed (m : FixedWindowManager) | Sliding (m : SlidingWindowManager).

Section Manager.
Context `{Chrono}.

Definition assign_windows (mgr : AlignedWindowManager) (m : Message)
    : option (AlignedWindowManager * list AlignedWindowMessage) :=
  match mgr with
  | Fixed mgr => let? (mgr', out) := fixed_assign_windows mgr m in Some (Fixed mgr', out)
  | Sliding mgr => let? (mgr', out) := sliding_assign_windows mgr m in Some (Sliding mgr', out)
  end.
Definition close_windows (mgr : AlignedWindowManager) (watermark : DateTime)
    : AlignedWindowManager * list AlignedWindowMessage :=
  match mgr with
  | Fixed mgr => let (mgr', out) := fixed_close_windows mgr watermark in (Fixed mgr', out)
  | Sliding mgr => let (mgr', out) := sliding_close_windows mgr watermark in (Sliding mgr', out)
  end.
Definition gc_window (mgr : AlignedWindowManager) (w : Window) : AlignedWindowManager :=
  match mgr with
  | Fixed mgr => Fixed (fixed_gc_window mgr w)
  | Sliding mgr => Sliding (sliding_gc_window mgr w)
  end.
Definition oldest_window (mgr : AlignedWindowManager) : option Window :=
  match mgr with Fixed mgr => fixed_oldest_window mgr | Sliding mgr => sliding_oldest_window mgr end.
Definition active_window_count (mgr : AlignedWindowManager) : nat :=
  match mgr with
  | Fixed mgr => fixed_active_window_count mgr | Sliding mgr => sliding_active_window_count mgr end.
Definition closed_window_count (mgr : AlignedWindowManager) : nat :=
  match mgr with
  | Fixed mgr => fixed_closed_window_count mgr | Sliding mgr => sliding_closed_window_count mgr end.
End Manager.

(** * The slot of a window identifies it *)

Definition dash : Ascii.ascii := Ascii.Ascii true false true true false true false false.

Fixpoint no_dash (s : string) : Prop :=
  match s with EmptyString => True | String a s => a <> dash /\ no_dash s end.

Lemma pretty_char_dash x : pretty_N_char x <> dash.
Proof. unfold pretty_N_char, dash. by repeat case_match. Qed.

Lemma pretty_go_no_dash x s : s <> "" -> no_dash s -> pretty_N_go x s <> "" /\ no_dash (pretty_N_go x s).
Proof.
  revert s. induction (N.lt_wf_0 x) as [x _ IH]. intros s Hs Hd.
  destruct (decide (0 < x)%N) as [Hx|Hx].
  - rewrite pretty_N_go_step by done. apply IH; [by apply N.div_lt|done|].
    split; [apply pretty_char_dash|done].
  - replace x with 0%N by lia. by rewrite pretty_N_go_0.
Qed.

Lemma pretty_positive_no_dash (p : positive) : pretty p <> "" /\ no_dash (pretty p).
Proof.
  change (pretty p) with (pretty (N.pos p)). unfold pretty, pretty_N. rewrite decide_False by done.
  rewrite pretty_N_go_step by done. apply pretty_go_no_dash; [done|].
  split; [apply pretty_char_dash|done].
Qed.

(** The sign and the digits of a printed integer. *)
Lemma pretty_Z_digits (z : Z) :
  exists d, d <> "" /\ no_dash d /\ pretty z = (if z <? 0 then String dash d else d).
Proof.
  destruct z as [|p|p].
  - exists "0". done.
  - exists (pretty p). destruct (pretty_positive_no_dash p). by split_and!.
  - exists (pretty p). destruct (pretty_positive_no_dash p). by split_and!.
Qed.

Lemma no_dash_split d d' r r' :
  no_dash d -> no_dash d' -> d +:+ String dash r = d' +:+ String dash r' -> d = d' /\ r = r'.
Proof.
  revert d'. induction d as [|a d IH]; intros [|a' d'] Hd Hd' Heq; simpl in *.
  - by injection Heq as ->.
  - injection Heq as <- _. naive_solver.
  - injection Heq as -> _. naive_solver.
  - injection Heq as <- Heq. destruct (IH d') as [-> ->]; naive_solver.
Qed.

(** A printed integer before a dash can be read back. *)
Lemma pretty_prefix_inj (a a' : Z) (s s' : string) :
  pretty a +:+ String dash s = pretty a' +:+ String dash s' -> a = a' /\ s = s'.
Proof.
  destruct (pretty_Z_digits a) as (d & Hd & Hn & Ha), (pretty_Z_digits a') as (d' & Hd' & Hn' & Ha').
  intros Heq. assert (pretty a = pretty a' /\ s = s') as [Hp ->]; [|split; [by apply (inj pretty)|done]].
  rewrite Ha, Ha' in *. destruct (a <? 0), (a' <? 0); simpl in Heq.
  - injection Heq as Heq. apply no_dash_split in Heq as [-> ->]; done.
  - destruct d' as [|c d']; [done|]. injection Heq as <- _. by destruct Hn'.
  - destruct d as [|c d]; [done|]. injection Heq as -> _. by destruct Hn.
  - by apply no_dash_split in Heq as [-> ->].
Qed.

Lemma pretty_pair_inj (a b a' b' : Z) :
  pretty a +:+ "-" +:+ pretty b = pretty a' +:+ "-" +:+ pretty b' -> a = a' /\ b = b'.
Proof. intros [-> Hb]%pretty_prefix_inj. split; [done|by apply (inj pretty)]. Qed.

(** * Which windows a message belongs to *)

(** The times computed for an event at [et] milliseconds stay in the range chrono converts. *)
Definition times_in_range (et len slide : Z) : Prop :=
  0 < slide /\ 0 < len /\ i64_min <= (et - len - slide) * ns_per_ms /\ (et + len + slide) * ns_per_ms <= i64_max.

(** The window of [len] milliseconds that starts at [s]. *)
Definition window_at (len s : Z) : Window := mkWindow (s * ns_per_ms) ((s + len) * ns_per_ms).

Section Creation.
Context `{Chrono}.

Lemma truncate_to_duration_spec ts d :
  in_i64 (ts * ns_per_ms) -> 0 < d -> d * ns_per_ms <= i64_max ->
  truncate_to_duration ts d = Some (ts - ts mod d).
Proof.
  intros Hts Hd Hdm. unfold truncate_to_duration, try_milliseconds.
  assert (i64_min < d <= i64_max) by (unfold i64_min, i64_max, ns_per_ms in *; lia).
  rewrite from_timestamp_millis_i64, decide_True, duration_trunc_spec by (unfold ns_per_ms in *; done || lia).
  f_equal. rewrite timestamp_millis_spec, Z.mul_mod_distr_r by (unfold ns_per_ms; lia).
  rewrite <- Z.mul_sub_distr_r. apply Z.div_mul. done.
Qed.

Lemma range_conv et len slide x :
  times_in_range et len slide -> et - len - slide <= x <= et + len + slide ->
  from_timestamp_millis x = Some (x * ns_per_ms) /\ wrap_i64 x = x.
Proof.
  intros (? & ? & ? & ?) ?. split.
  - apply from_timestamp_millis_i64. unfold ns_per_ms in *. lia.
  - apply wrap_i64_id. unfold in_i64, i64_min, i64_max, ns_per_ms in *. lia.
Qed.

Lemma fixed_create_window_spec mgr m :
  let len := as_millis_i64 (f_window_length mgr) in
  let et := timestamp_millis (m_event_time m) in
  times_in_range et len len ->
  fixed_create_window mgr m = Some (window_at len (et - et mod len)).
Proof.
  intros len et Hr. unfold fixed_create_window. fold len et.
  pose proof Hr as (Hl & _ & Hlo & Hhi). pose proof (Z.mod_pos_bound et len Hl).
  rewrite truncate_to_duration_spec by (unfold in_i64, i64_min, i64_max, ns_per_ms in *; lia).
  destruct (range_conv et len len (et - et mod len) Hr) as [-> _]; [lia|].
  destruct (range_conv et len len (et - et mod len + len) Hr) as [He ->]; [lia|].
  by rewrite He.
Qed.

Lemma slide_back_spec fuel et len slide s :
  times_in_range et len slide -> et - len - slide <= s <= et ->
  s + len - et <= Z.of_nat fuel * slide ->
  exists ws, slide_back fuel et slide s (s + len) = Some ws /\
    (forall x, x ∈ ws <-> exists k, 0 <= k /\ x = window_at len (s - k * slide) /\ et < s - k * slide + len) /\
    StronglySorted (fun x y => end_time y < end_time x) ws.
Proof.
  intros Hr. pose proof Hr as (Hs & Hl & _). revert s.
  induction fuel as [|fuel IH]; intros s Hb Hf; simpl;
    (destruct (Z.leb_spec s et); [|lia]); destruct (Z.ltb_spec et (s + len)); simpl.
  - lia.
  - exists []. split; [done|]. split; [|constructor]. intros x. split; [by intros ?%elem_of_nil|].
    intros (k & ? & _ & ?). nia.
  - destruct (range_conv et len slide s Hr) as [-> _]; [lia|].
    destruct (range_conv et len slide (s + len) Hr) as [-> _]; [lia|].
    destruct (range_conv et len slide (s - slide) Hr) as [_ ->]; [lia|].
    destruct (range_conv et len slide (s + len - slide) Hr) as [_ ->]; [lia|].
    replace (s + len - slide) with (s - slide + len) by lia.
    destruct (IH (s - slide)) as (ws & -> & Hws & Hsort); [lia|lia|].
    eexists. split; [done|]. split.
    + intros x. rewrite elem_of_cons, Hws. split.
      * intros [->|(k & ? & -> & ?)].
        -- exists 0. unfold window_at. rewrite Z.mul_0_l, Z.sub_0_r. by split_and!.
        -- exists (k + 1). replace (s - (k + 1) * slide) with (s - slide - k * slide) by lia. split_and!; [lia|done|lia].
      * intros (k & ? & -> & ?). destruct (decide (k = 0)) as [->|]; [left|right].
        -- unfold window_at. by rewrite Z.mul_0_l, Z.sub_0_r.
        -- exists (k - 1). replace (s - slide - (k - 1) * slide) with (s - k * slide) by lia. split_and!; [lia|done|lia].
    + constructor; [done|]. apply Forall_forall. intros x (k & ? & -> & ?)%Hws. simpl.
      unfold ns_per_ms. nia.
  - exists []. split; [done|]. split; [|constructor]. intros x. split; [by intros ?%elem_of_nil|].
    intros (k & ? & _ & ?). nia.
Qed.

(** The aligned windows of a grid that contain an instant. *)
Definition grid_window (len slide et : Z) (x : Window) : Prop :=
  exists s, x = window_at len s /\ (slide | s) /\ s <= et < s + len.

Lemma sliding_create_windows_spec mgr m :
  let len := as_millis_i64 (s_window_length mgr) in
  let slide := as_millis_i64 (s_slide mgr) in
  let et := timestamp_millis (m_event_time m) in
  times_in_range et len slide ->
  exists ws, sliding_create_windows mgr m = Some ws /\
    (forall x, x ∈ ws <-> grid_window len slide et x) /\
    StronglySorted (fun x y => end_time y < end_time x) ws.
Proof.
  intros len slide et Hr. unfold sliding_create_windows. fold len slide et.
  pose proof Hr as (Hs & Hl & Hlo & Hhi). pose proof (Z.mod_pos_bound et slide Hs).
  rewrite truncate_to_duration_spec by (unfold in_i64, i64_min, i64_max, ns_per_ms in *; lia).
  destruct (range_conv et len slide (et - et mod slide + len) Hr) as [_ ->]; [lia|].
  destruct (slide_back_spec (slide_fuel len slide) et len slide (et - et mod slide)) as (ws & -> & Hws & Hsort);
    [done|lia| |].
  { unfold slide_fuel. rewrite Nat2Z.inj_succ, Z2Nat.id by (apply Z.div_pos; lia).
    pose proof (Z.mod_pos_bound len slide Hs). pose proof (Z.div_mod len slide). lia. }
  exists ws. split; [done|]. split; [|done]. intros x. rewrite Hws. unfold grid_window.
  assert (Hdiv : (slide | et - et mod slide)).
  { exists (et / slide). pose proof (Z.div_mod et slide). lia. }
  split.
  - intros (k & ? & -> & ?). eexists. split; [done|]. split; [|nia].
    apply Z.divide_sub_r; [done|]. apply Z.divide_factor_r.
  - intros (s & -> & [q Hq] & Hse). destruct Hdiv as [q0 Hq0]. exists (q0 - q).
    replace (et - et mod slide - (q0 - q) * slide) with s by lia. split_and!; [nia|done|lia].
Qed.
End Creation.

(** * The interface the reducer uses *)

Class AlignedWindower (W : Type) := {
  aw_active : W -> list Window;
  aw_closed : W -> list Window;
  aw_guard : W -> option Z;            (* windows that end at or before it are not opened *)
  aw_length : W -> Z;                  (* milliseconds *)
  aw_slide : W -> Z;
  aw_sliding : W -> bool;
  aw_create : W -> Message -> option (list Window);
  aw_assign : W -> Message -> option (W * list AlignedWindowMessage);
  aw_close : W -> DateTime -> W * list AlignedWindowMessage;
  aw_gc : W -> Window -> W;
  aw_oldest : W -> option Window
}.

(** What does not change over the life of a manager. *)
Definition same_config `{AlignedWindower W} (w w' : W) : Prop :=
  aw_length w' = aw_length w /\ aw_slide w' = aw_slide w /\ aw_sliding w' = aw_sliding w.

Class AlignedWindowerLaws `{Chrono} (W : Type) `{AlignedWindower W} : Prop := {
  aw_create_law : forall w m,
    times_in_range (timestamp_millis (m_event_time m)) (aw_length w) (aw_slide w) ->
    exists ws, aw_create w m = Some ws /\
      (forall x, x ∈ ws <-> grid_window (aw_length w) (aw_slide w) (timestamp_millis (m_event_time m)) x) /\
      StronglySorted (fun x y => end_time y < end_time x) ws;
  aw_assign_law : forall w m ws, aw_create w m = Some ws -> exists w',
    aw_assign w m = Some (w', (assign_loop (aw_guard w) m (aw_active w) ws).2) /\
    aw_active w' = (assign_loop (aw_guard w) m (aw_active w) ws).1 /\
    aw_closed w' = aw_closed w /\ aw_guard w' = aw_guard w /\ same_config w w';
  aw_close_law : forall w t, exists w',
    aw_close w t = (w', (fun x => window_msg (Close x)) <$> windows_to_close t (aw_active w)) /\
    aw_active w' = windows_to_keep t (aw_active w) /\
    aw_closed w' = bt_extend end_time (aw_closed w) (windows_to_close t (aw_active w)) /\
    aw_guard w' = aw_guard w /\ same_config w w';
  aw_gc_law : forall w x,
    aw_active (aw_gc w x) = aw_active w /\
    aw_closed (aw_gc w x) = win_remove x (aw_closed w) /\
    (forall d, aw_guard (aw_gc w x) = Some d ->
       exists d0, aw_guard w = Some d0 /\ d <= Z.max d0 (timestamp_millis (end_time x))) /\
    same_config w (aw_gc w x);
  aw_oldest_law : forall w, aw_oldest w = head (aw_closed w ++ aw_active w);
  aw_fixed_law : forall w, aw_sliding w = false -> aw_slide w = aw_length w
}.

Section Instances.
Context `{Chrono}.

#[global] Instance fixed_windower : AlignedWindower FixedWindowManager := {
  aw_active := f_active_windows;
  aw_closed := f_closed_windows;
  aw_guard _ := None;
  aw_length w := as_millis_i64 (f_window_length w);
  aw_slide w := as_millis_i64 (f_window_length w);
  aw_sliding _ := false;
  aw_create w m := (fun x => [x]) <$> fixed_create_window w m;
  aw_assign := fixed_assign_windows;
  aw_close := fixed_close_windows;
  aw_gc := fixed_gc_window;
  aw_oldest := fixed_oldest_window
}.

#[global] Instance sliding_windower : AlignedWindower SlidingWindowManager := {
  aw_active := s_active_windows;
  aw_closed := s_closed_windows;
  aw_guard w := Some (s_max_deleted_window_end_time w);
  aw_length w := as_millis_i64 (s_window_length w);
  aw_slide w := as_millis_i64 (s_slide w);
  aw_sliding _ := true;
  aw_create := sliding_create_windows;
  aw_assign := sliding_assign_windows;
  aw_close := sliding_close_windows;
  aw_gc := sliding_gc_window;
  aw_oldest := sliding_oldest_window
}.

#[global] Instance aligned_windower : AlignedWindower AlignedWindowManager := {
  aw_active w := match w with Fixed w => f_active_windows w | Sliding w => s_active_windows w end;
  aw_closed w := match w with Fixed w => f_closed_windows w | Sliding w => s_closed_windows w end;
  aw_guard w := match w with Fixed w => aw_guard w | Sliding w => aw_guard w end;
  aw_length w := match w with Fixed w => aw_length w | Sliding w => aw_length w end;
  aw_slide w := match w with Fixed w => aw_slide w | Sliding w => aw_slide w end;
  aw_sliding w := match w with Fixed _ => false | Sliding _ => true end;
  aw_create w := match w with Fixed w => aw_create w | Sliding w => aw_create w end;
  aw_assign := assign_windows;
  aw_close := close_windows;
  aw_gc := gc_window;
  aw_oldest := oldest_window
}.

#[global] Instance fixed_windower_laws : AlignedWindowerLaws FixedWindowManager.
Proof.
  split.
  - intros w m Hr. simpl in *. rewrite fixed_create_window_spec by done. simpl.
    set (et := timestamp_millis _) in *. set (len := as_millis_i64 _) in *.
    pose proof Hr as (Hl & _). pose proof (Z.mod_pos_bound et len Hl).
    eexists. split; [done|]. split; [|repeat constructor]. intros x. rewrite list_elem_of_singleton.
    unfold grid_window. pose proof (Z.div_mod et len). split.
    + intros ->. eexists. split; [done|]. split; [exists (et / len); lia|lia].
    + intros (s & -> & [q ->] & Hse). f_equal. assert (q = et / len) as ->; [|lia].
      apply (Z.div_unique_pos et len q (et - q * len)); lia.
  - intros w m ws Hc. simpl in *. unfold fixed_assign_windows.
    destruct (fixed_create_window w m) as [x|]; [|done]. simpl in Hc. injection Hc as <-. simpl.
    destruct (win_contains x (f_active_windows w)); eexists; simpl; by split_and!.
  - intros w t. eexists. split; [done|]. by split_and!.
  - intros w x. by split_and!.
  - intros w. simpl. unfold fixed_oldest_window. by destruct (f_closed_windows w).
  - done.
Qed.

#[global] Instance sliding_windower_laws : AlignedWindowerLaws SlidingWindowManager.
Proof.
  split.
  - intros w m Hr. by apply sliding_create_windows_spec.
  - intros w m ws Hc. simpl in *. unfold sliding_assign_windows. rewrite Hc.
    destruct (assign_loop _ _ _ _) as [a out]. eexists. by split_and!.
  - intros w t. eexists. split; [done|]. by split_and!.
  - intros w x. split_and!; try done. intros d [= <-]. by eexists.
  - intros w. simpl. unfold sliding_oldest_window. by destruct (s_closed_windows w).
  - done.
Qed.

#[global] Instance aligned_windower_laws : AlignedWindowerLaws AlignedWindowManager.
Proof.
  split.
  - intros [w|w] m; exact (aw_create_law w m).
  - intros [w|w] m ws Hc; destruct (aw_assign_law w m ws Hc) as (w' & Ha & ?); simpl in Ha; simpl;
      rewrite Ha; eexists; (split; [done|]); done.
  - intros [w|w] t; (eexists; split; [done|]); by split_and!.
  - intros [w|w] x; exact (aw_gc_law w x).
  - intros [w|w]; exact (aw_oldest_law w).
  - intros [w|w]; [done|by intros].
Qed.
End Instances.

(** * Restart *)

Section Restart.
Context `{Chrono}.

Lemma window_proto_roundtrip w :
  dt_valid (start_time w) -> dt_valid (end_time w) -> window_of_proto (window_to_proto w) = Some w.
Proof.
  intros Hs He. unfold window_of_proto. simpl. rewrite !utc_timestamp_roundtrip by done. by destruct w.
Qed.

Lemma windows_proto_roundtrip ws :
  Forall (fun w => dt_valid (start_time w) /\ dt_valid (end_time w)) ws ->
  mapM window_of_proto (window_to_proto <$> ws) = Some ws.
Proof.
  intros Hv. apply mapM_Some, Forall2_fmap_l, Forall_Forall2_diag. eapply Forall_impl; [exact Hv|].
  intros w [? ?]. by apply window_proto_roundtrip.
Qed.

(** Inserting above every element appends. *)
Lemma bt_insert_last x l : Forall (fun y => end_time y < end_time x) l -> bt_insert end_time x l = l ++ [x].
Proof.
  induction 1 as [|y l Hy _ IH]; simpl; [done|].
  destruct (Z.compare_spec (end_time x) (end_time y)); try lia. by rewrite IH.
Qed.

Lemma bt_extend_sorted_app l xs : bt_sorted end_time (l ++ xs) -> bt_extend end_time l xs = l ++ xs.
Proof.
  revert l. induction xs as [|x xs IH]; intros l Hs; simpl; [by rewrite app_nil_r|].
  rewrite bt_insert_last, IH by (by rewrite <- app_assoc || (apply Forall_forall; intros y Hy;
    apply (StronglySorted_app_1_elem_of _ _ _ y x Hs Hy); by left)).
  by rewrite <- app_assoc.
Qed.

(** A restart keeps the windows. When the sliding windower saves its state and a new one is
    made from the same file, the new one holds as active every window that was closed but not
    collected and every active one, in order, with the same bound on deleted windows, and the
    file is gone, so that a crash later does not restore it a second time. *)
Theorem sliding_state_roundtrip (K : StateCodec) (mgr : SlidingWindowManager) (path : string)
    (fs fs' : gmap string string) :
  s_active_window_state_file mgr = Some path ->
  bt_sorted end_time (s_closed_windows mgr ++ s_active_windows mgr) ->
  Forall (fun w => dt_valid (start_time w) /\ dt_valid (end_time w))
    (s_closed_windows mgr ++ s_active_windows mgr) ->
  save_state mgr true fs = (fs', Ok tt) ->
  sliding_new (s_window_length mgr) (s_slide mgr) (Some path) true true fs' =
  Some (mkSliding (s_window_length mgr) (s_slide mgr) (s_closed_windows mgr ++ s_active_windows mgr) []
          (Some path) (s_max_deleted_window_end_time mgr), delete path fs).
Proof.
  intros Hp Hs Hv Hsave. unfold save_state in Hsave. rewrite Hp in Hsave.
  destruct (state_encode _) as [buf|] eqn:Hb; [|done]. injection Hsave as <-.
  unfold sliding_new, load_state. rewrite lookup_insert_eq, (state_decode_encode _ _ Hb). simpl.
  rewrite windows_proto_roundtrip by done. by rewrite (bt_extend_sorted_app []), delete_insert_eq.
Qed.
End Restart.

#[global] Instance ProtoWindow_eq_dec : EqDecision ProtoWindow.
Proof. solve_decision. Defined.
#[global] Instance ProtoWindow_countable : Countable ProtoWindow.
Proof.
  refine (inj_countable' (fun p => (pw_start_time p, pw_end_time p)) (fun x => mkProtoWindow x.1 x.2) _).
  by intros [].
Defined.
#[global] Instance WindowManagerState_eq_dec : EqDecision WindowManagerState.
Proof. solve_decision. Defined.
#[global] Instance WindowManagerState_countable : Countable WindowManagerState.
Proof.
  refine (inj_countable' (fun p => (wms_windows p, wms_max_deleted_window_end_time p))
    (fun x => mkWindowManagerState x.1 x.2) _). by intros [].
Defined.

Definition state_digit_codec : StateCodec.
Proof.
  refine {| state_encode p := Some (digits (encode p)); state_decode s := decode (of_digits s) |}.
  intros p b [= <-]. by rewrite of_digits_digits, decode_encode.
Defined.

Definition example_sliding : SlidingWindowManager :=
  mkSliding (30 * ns_per_ms) (10 * ns_per_ms) [window_at 30 80; window_at 30 90] [window_at 30 70]
    (Some "state") 90.

Lemma sliding_state_roundtrip_witness :
  let fs' := (@save_state chrono_utc state_digit_codec example_sliding true ∅).1 in
  @sliding_new chrono_utc state_digit_codec (30 * ns_per_ms) (10 * ns_per_ms) (Some "state") true true fs' =
  Some (mkSliding (30 * ns_per_ms) (10 * ns_per_ms) [window_at 30 70; window_at 30 80; window_at 30 90] []
          (Some "state") 90, delete "state" ∅).
Proof.
  apply (@sliding_state_roundtrip chrono_utc state_digit_codec example_sliding "state" ∅).
  - reflexivity.
  - repeat constructor.
  - repeat constructor; vm_compute; discriminate.
  - reflexivity.
Defined.
