(* ===== verification/AlignedReducer.v ===== *)
(** The aligned reducer ([reduce/reducer/aligned/reducer.rs]): the main task that accepts
    messages, advances the watermark, closes and assigns windows; the actor that takes the
    window messages off its channel; and the end of a reduce task, which collects the window
    and writes the garbage-collection event.

    The main task and the actor share the window manager and are joined by a first-in
    first-out channel: the system interleaves their steps freely. The reducer is written and
    verified against the interface [AlignedWindower]. *)
From S2P Require Import Prelude Clock Message AlignedWindow.

Definition DEFAULT_KEY_FOR_NON_KEYED_STREAM : string := "NON_KEYED_STREAM".

Record AlignedReducer (W : Type) := mkReducer {
  window_manager : W;
  allowed_lateness : Duration;
  current_watermark : DateTime;
  keyed : bool;
  shutting_down_on_err : bool
}.
Arguments mkReducer {W} _ _ _ _ _.
Arguments window_manager {W} _.
Arguments allowed_lateness {W} _.
Arguments current_watermark {W} _.
Arguments keyed {W} _.
Arguments shutting_down_on_err {W} _.

(** Why a message is dropped, or that it is accepted. *)
Inductive Admission := Accept | DropNoWatermark | DropLate | DropOld.
#[global] Instance Admission_eq_dec : EqDecision Admission.
Proof. solve_decision. Defined.

Section Reducer.
Context `{Chrono} {W : Type} `{AlignedWindower W}.

Definition minus_one_ms : option DateTime := from_timestamp_millis (-1).

Definition reducer_new (w : W) (lateness : Duration) (keyed : bool) : option (AlignedReducer W) :=
  let? wm := minus_one_ms in Some (mkReducer w lateness wm keyed false).

Definition set_manager (r : AlignedReducer W) (w : W) : AlignedReducer W :=
  mkReducer w (allowed_lateness r) (current_watermark r) (keyed r) (shutting_down_on_err r).
Definition advance (r : AlignedReducer W) (wm : DateTime) : AlignedReducer W :=
  mkReducer (window_manager r) (allowed_lateness r) wm (keyed r) (shutting_down_on_err r).

Definition set_keys (m : Message) (ks : list string) : Message :=
  mkMessage (m_typ m) ks (m_tags m) (m_value m) (m_offset m) (m_event_time m) (m_watermark m) (m_id m)
    (m_headers m) (m_metadata m) (m_is_late m) (m_nack_options m).

(** [handle_error]: only the first error is kept, the input is drained from then on. *)
Definition handle_error (r : AlignedReducer W) : AlignedReducer W :=
  mkReducer (window_manager r) (allowed_lateness r) (current_watermark r) (keyed r) true.

(** [watermark.sub(lateness)]. *)
Definition close_windows_with_watermark (r : AlignedReducer W) (watermark : DateTime)
    : option (AlignedReducer W * list AlignedWindowMessage) :=
  let? t := dt_add watermark (- allowed_lateness r) in
  let (w', out) := aw_close (window_manager r) t in
  Some (set_manager r w', out).

Definition admit_message (r : AlignedReducer W) (m : Message) : option Admission :=
  let? late := (if m_is_late m then
      if timestamp_millis (current_watermark r) =? -1 then Some (Some DropNoWatermark)
      else let? t := dt_add (current_watermark r) (- allowed_lateness r) in
           Some (if m_event_time m <? t then Some DropLate else None)
    else Some None) in
  match late with
  | Some d => Some d
  | None => Some (if m_event_time m <? current_watermark r then DropOld else Accept)
  end.

Definition assign_and_close_windows (r : AlignedReducer W) (m : Message)
    : option (AlignedReducer W * list AlignedWindowMessage) :=
  let? default_wm := minus_one_ms in
  let r1 := advance r (Z.max (current_watermark r) (default default_wm (m_watermark m))) in
  let? a := admit_message r1 m in
  match a with
  | Accept =>
      let? (r2, closes) := close_windows_with_watermark r1 (current_watermark r1) in
      let? (w', out) := aw_assign (window_manager r2) m in
      Some (set_manager r2 w', closes ++ out)
  | _ => Some (r1, [])
  end.

(** One message of the input stream. *)
Definition reducer_handle (r : AlignedReducer W) (m : Message)
    : option (AlignedReducer W * list AlignedWindowMessage) :=
  if shutting_down_on_err r then Some (r, [])
  else match m_typ m with
  | MWMB => match m_watermark m with
      | Some idle => if current_watermark r <? idle
                     then close_windows_with_watermark (advance r idle) idle else Some (r, [])
      | None => Some (r, [])
      end
  | Data => assign_and_close_windows r
              (if keyed r then m else set_keys m [DEFAULT_KEY_FOR_NON_KEYED_STREAM])
  end.

(** ** The actor and the reduce tasks *)

Record ReduceSystem := mkSystem {
  reducer : AlignedReducer W;
  channel : list AlignedWindowMessage;        (* sent to the actor, not yet taken *)
  active_streams : gmap string (list AlignedWindowMessage);
  gc_wal : bool;                              (* is a GC WAL configured *)
  gc_events : list GcEvent;                   (* written, oldest first *)
  errors : nat                                (* sent to the main task, not yet taken *)
}.

(** The range of messages a finished task lets the WAL forget. *)
Definition gc_window_of (sliding : bool) (window oldest : Window) : Window :=
  if sliding then mkWindow (start_time oldest) (start_time oldest) else window.

(** The end of a reduce task whose stream was closed: on success the oldest window is read,
    the window is collected and the event is written; on an error nothing is collected and
    the error is sent to the main task. *)
Definition task_end (s : ReduceSystem) (window : Window) (ok : bool) : option ReduceSystem :=
  let r := reducer s in
  if ok then
    let? oldest := aw_oldest (window_manager r) in
    let ev := window_to_gc_event (gc_window_of (aw_sliding (window_manager r)) window oldest) in
    Some (mkSystem (set_manager r (aw_gc (window_manager r) window)) (channel s) (active_streams s)
            (gc_wal s) (gc_events s ++ if gc_wal s then [ev] else []) (errors s))
  else Some (mkSystem r (channel s) (active_streams s) (gc_wal s) (gc_events s) (S (errors s))).

Definition set_streams (s : ReduceSystem) (st : gmap string (list AlignedWindowMessage)) : ReduceSystem :=
  mkSystem (reducer s) (channel s) st (gc_wal s) (gc_events s) (errors s).

(** [handle_window_message]; closing a window waits for its task to end. *)
Definition handle_window_message (s : ReduceSystem) (wm : AlignedWindowMessage) (ok : bool)
    : option ReduceSystem :=
  let slot := pnf_slot wm in
  match operation wm with
  | Open _ _ => Some (set_streams s (<[slot := [wm]]> (active_streams s)))
  | Append m w =>
      match active_streams s !! slot with
      | Some ms => Some (set_streams s (<[slot := ms ++ [wm]]> (active_streams s)))
      | None => Some (set_streams s (<[slot := [mkWindowMessage (Open m w) slot]]> (active_streams s)))
      end
  | Close w =>
      match active_streams s !! slot with
      | Some _ => task_end (set_streams s (delete slot (active_streams s))) w ok
      | None => Some s
      end
  end.

Inductive RLabel :=
  | RInput (m : Message)       (* the main task handles one message *)
  | RError                     (* the main task takes an error *)
  | RActor (task_ok : bool).   (* the actor takes one window message *)

Definition rexec (s : ReduceSystem) (l : RLabel) : option (ReduceSystem * list AlignedWindowMessage) :=
  match l with
  | RInput m =>
      let? (r', out) := reducer_handle (reducer s) m in
      Some (mkSystem r' (channel s ++ out) (active_streams s) (gc_wal s) (gc_events s) (errors s), out)
  | RError =>
      match errors s with
      | O => Some (s, [])
      | S n => Some (mkSystem (handle_error (reducer s)) (channel s) (active_streams s) (gc_wal s)
                       (gc_events s) n, [])
      end
  | RActor ok =>
      match channel s with
      | [] => Some (s, [])
      | wm :: rest =>
          let? s' := handle_window_message
            (mkSystem (reducer s) rest (active_streams s) (gc_wal s) (gc_events s) (errors s)) wm ok in
          Some (s', [])
      end
  end.

(** A run returns the final state and everything sent to the actor. *)
Fixpoint rrun (s : ReduceSystem) (ls : list RLabel) : option (ReduceSystem * list AlignedWindowMessage) :=
  match ls with
  | [] => Some (s, [])
  | l :: ls =>
      let? (s1, out) := rexec s l in
      let? (s2, out') := rrun s1 ls in
      Some (s2, out ++ out')
  end.

Definition system_new (w : W) (lateness : Duration) (keyed gc : bool) : option ReduceSystem :=
  let? r := reducer_new w lateness keyed in Some (mkSystem r [] ∅ gc [] 0).
End Reducer.
Arguments ReduceSystem W : clear implicits.

(** * Grid windows *)

Definition on_grid (len slide : Z) (x : Window) : Prop := exists s, x = window_at len s /\ (slide | s).

Lemma on_grid_end len slide x y :
  on_grid len slide x -> on_grid len slide y -> end_time x = end_time y -> x = y.
Proof.
  intros (s & -> & _) (s' & -> & _). unfold window_at, ns_per_ms. simpl. intros.
  replace s' with s by lia. done.
Qed.

Lemma on_grid_order len slide x y :
  on_grid len slide x -> on_grid len slide y -> end_time x <= end_time y <-> start_time x <= start_time y.
Proof. intros (s & -> & _) (s' & -> & _). unfold window_at, ns_per_ms. simpl. lia. Qed.

(** Windows of a tiling grid that start before [y] ends, end no later than [y]. *)
Lemma on_grid_tiling len x y :
  0 < len -> on_grid len len x -> on_grid len len y -> start_time x < end_time y -> end_time x <= end_time y.
Proof.
  intros Hl (s & -> & [q ->]) (s' & -> & [q' ->]). unfold window_at, ns_per_ms. simpl. intros Hlt.
  assert (Hq : q * len < (q' + 1) * len) by lia. apply Z.mul_lt_mono_pos_r in Hq; [|done].
  assert (q * len <= q' * len) by (apply Z.mul_le_mono_nonneg_r; lia). lia.
Qed.

Lemma slot_inj `{Chrono} len slide x y :
  on_grid len slide x -> on_grid len slide y -> window_to_pnf_slot x = window_to_pnf_slot y -> x = y.
Proof.
  intros (s & -> & _) (s' & -> & _). unfold window_to_pnf_slot, window_at. simpl.
  intros [Heq _]%pretty_pair_inj. rewrite !timestamp_millis_spec, !Z.div_mul in Heq by done. by subst.
Qed.

Lemma win_contains_grid len slide x l :
  on_grid len slide x -> (forall y, y ∈ l -> on_grid len slide y) -> bt_contains end_time x l = bool_decide (x ∈ l).
Proof.
  intros Hx Hl. apply eq_bool_prop_intro. rewrite bool_decide_spec, Is_true_true, bt_contains_spec. split.
  - intros (y & Hy & He). by rewrite <- (on_grid_end len slide y x); auto.
  - eauto.
Qed.

Lemma desc_NoDup (ws : list Window) : StronglySorted (fun x y => end_time y < end_time x) ws -> NoDup ws.
Proof.
  induction 1 as [|x ws _ IH Hx]; constructor; [|done]. intros Hin.
  rewrite Forall_forall in Hx. apply Hx in Hin. lia.
Qed.

Section Assign.
Context `{Chrono} (len slide : Z).

(** What the loop sends for one window. *)
Definition assign_op (active : list Window) (m : Message) (x : Window) : AlignedWindowMessage :=
  window_msg (if decide (x ∈ active) then Append m x else Open m x).

Lemma assign_loop_spec guard m active ws :
  bt_sorted end_time active -> (forall y, y ∈ active -> on_grid len slide y) ->
  (forall y, y ∈ ws -> on_grid len slide y) -> NoDup ws ->
  (forall y d, y ∈ ws -> guard = Some d -> d < timestamp_millis (end_time y)) ->
  let res := assign_loop guard m active ws in
  bt_sorted end_time res.1 /\ (forall x, x ∈ res.1 <-> x ∈ active \/ x ∈ ws) /\
  res.2 = assign_op active m <$> ws.
Proof.
  revert active. induction ws as [|w ws IH]; intros active Hs Ha Hw Hnd Hg; simpl.
  { split_and!; [done| |done]. intros x. rewrite elem_of_nil. naive_solver. }
  apply NoDup_cons in Hnd as [Hnw Hnd]. assert (on_grid len slide w) as Hgw by (apply Hw; by left).
  rewrite (win_contains_grid len slide) by done. case_bool_decide as Hin.
  - destruct (IH active) as (H1 & H2 & H3); try done; [by intros; apply Hw; right|by intros y d ?; apply Hg; right|].
    destruct (assign_loop guard m active ws) as [a out]. simpl in *. split_and!; [done| |].
    + intros x. rewrite H2, elem_of_cons. naive_solver.
    + rewrite H3. unfold assign_op at 2. by rewrite decide_True.
  - assert (Hgo : match guard with Some d => d <? timestamp_millis (end_time w) | None => true end = true).
    { destruct guard as [d|]; [|done]. apply Z.ltb_lt. apply (Hg w d); [by left|done]. }
    rewrite Hgo.
    assert (Hfresh : forall x, x ∈ bt_insert end_time w active <-> x ∈ active \/ x = w).
    { intros x. rewrite bt_insert_elem by done. split; [naive_solver|]. intros [?| ->]; [auto|]. right.
      split; [done|]. intros z Hz He. apply Hin. by rewrite <- (on_grid_end len slide z w); auto. }
    destruct (IH (bt_insert end_time w active)) as (H1 & H2 & H3); try done.
    { by apply bt_insert_sorted. }
    { intros y [?| ->]%Hfresh; auto. }
    { by intros; apply Hw; right. }
    { by intros y d ?; apply Hg; right. }
    destruct (assign_loop guard m _ ws) as [a out]. simpl in *. split_and!; [done| |].
    + intros x. rewrite H2, Hfresh, elem_of_cons. naive_solver.
    + rewrite H3. unfold assign_op at 2. rewrite decide_False by done. f_equal.
      apply list_fmap_ext. intros i x Hx%list_elem_of_lookup_2. unfold assign_op.
      assert (x <> w) by (by intros ->). by rewrite (decide_ext _ (x ∈ active)) by (rewrite Hfresh; naive_solver).
Qed.
End Assign.

(** * The life of a window

    Per window, the messages sent to the actor must be an [Open], then any number of
    [Append]s, then at most one [Close]; [phase] is the automaton, [None] its error state. *)

Inductive Phase := PNone | POpen | PClosed.

Definition phase_step (p : option Phase) (o : AlignedWindowOperation) : option Phase :=
  match p, o with
  | Some PNone, Open _ _ => Some POpen
  | Some POpen, Append _ _ => Some POpen
  | Some POpen, Close _ => Some PClosed
  | _, _ => None
  end.

Definition phase_from (p : option Phase) (x : Window) (outs : list AlignedWindowMessage) : option Phase :=
  foldl (fun p wm => if decide (op_window (operation wm) = x) then phase_step p (operation wm) else p) p outs.
Definition phase (x : Window) (outs : list AlignedWindowMessage) : option Phase := phase_from (Some PNone) x outs.

(** The message [m] was sent to the window [x]. *)
Definition sent_to (m : Message) (x : Window) (wm : AlignedWindowMessage) : Prop :=
  operation wm = Open m x \/ operation wm = Append m x.
Definition delivered (m : Message) (x : Window) (outs : list AlignedWindowMessage) : Prop :=
  exists wm, wm ∈ outs /\ sent_to m x wm.

Definition close_of (wm : AlignedWindowMessage) : option Window :=
  match operation wm with Close x => Some x | _ => None end.
Definition closes (outs : list AlignedWindowMessage) : list Window := omap close_of outs.

Lemma phase_from_app p x a b : phase_from p x (a ++ b) = phase_from (phase_from p x a) x b.
Proof. unfold phase_from. apply foldl_app. Qed.

Lemma phase_from_fmap `{Chrono} (f : Window -> AlignedWindowOperation) p x ws :
  (forall w, op_window (f w) = w) -> NoDup ws ->
  phase_from p x ((fun w => window_msg (f w)) <$> ws) = if decide (x ∈ ws) then phase_step p (f x) else p.
Proof.
  intros Hf. revert p. induction ws as [|w ws IH]; intros p; [done|].
  intros [Hw Hnd]%NoDup_cons. rewrite fmap_cons. unfold phase_from. simpl. fold (phase_from). rewrite Hf.
  change (foldl _ ?q _) with (phase_from q x ((fun w => window_msg (f w)) <$> ws)).
  rewrite IH by done. destruct (decide (w = x)) as [->|Hne].
  - rewrite (decide_False (P := x ∈ ws)) by done. by rewrite decide_True by (by left).
  - apply decide_ext. rewrite elem_of_cons. naive_solver.
Qed.

Lemma closes_app a b : closes (a ++ b) = closes a ++ closes b.
Proof. apply omap_app. Qed.

Lemma closes_fmap_close `{Chrono} ws : closes ((fun w => window_msg (Close w)) <$> ws) = ws.
Proof. unfold closes. induction ws as [|w ws IH]; simpl; [done|]. by f_equal. Qed.

Lemma closes_assign `{Chrono} active m ws : closes (assign_op active m <$> ws) = [].
Proof.
  unfold closes. induction ws as [|w ws IH]; simpl; [done|]. unfold close_of at 1, assign_op. simpl.
  by case_decide.
Qed.

Lemma delivered_app m x a b : delivered m x (a ++ b) <-> delivered m x a \/ delivered m x b.
Proof.
  unfold delivered. split.
  - intros (wm & [?|?]%elem_of_app & ?); eauto.
  - intros [(wm & ? & ?)|(wm & ? & ?)]; exists wm; (split; [|done]); apply elem_of_app; auto.
Qed.

Lemma delivered_close `{Chrono} m x ws : ~ delivered m x ((fun w => window_msg (Close w)) <$> ws).
Proof. intros (wm & (w & -> & _)%list_elem_of_fmap & [?|?]); done. Qed.

Lemma delivered_assign `{Chrono} m x active m' ws :
  delivered m x (assign_op active m' <$> ws) <-> m = m' /\ x ∈ ws.
Proof.
  unfold delivered, sent_to. split.
  - intros (wm & (w & -> & Hw)%list_elem_of_fmap & Hop). unfold assign_op in Hop. simpl in Hop.
    case_decide; destruct Hop; simplify_eq; done.
  - intros [-> Hx]. exists (assign_op active m' x). split; [by apply list_elem_of_fmap_2|].
    unfold assign_op. simpl. case_decide; auto.
Qed.

Lemma sorted_app_lt (l k : list Window) T :
  bt_sorted end_time l -> bt_sorted end_time k ->
  (forall x, x ∈ l -> end_time x <= T) -> (forall x, x ∈ k -> T < end_time x) ->
  bt_sorted end_time (l ++ k).
Proof.
  intros Hl Hk Hlt Hkt. induction Hl as [|x l Hl IH Hx]; simpl; [done|].
  constructor; [apply IH; intros; apply Hlt; by right|].
  apply Forall_app. split; [done|]. apply Forall_forall. intros y Hy. unfold bt_lt.
  specialize (Hlt x ltac:(by left)). specialize (Hkt y Hy). lia.
Qed.

Lemma grid_insert len slide x l :
  bt_sorted end_time l -> on_grid len slide x -> (forall y, y ∈ l -> on_grid len slide y) ->
  forall y, y ∈ bt_insert end_time x l <-> y ∈ l \/ y = x.
Proof.
  intros Hs Hx Hl y. rewrite bt_insert_elem by done. split; [naive_solver|].
  intros [?| ->]; [auto|]. destruct (decide (x ∈ l)) as [|Hn]; [auto|]. right. split; [done|].
  intros z Hz He. apply Hn. by rewrite <- (on_grid_end len slide z x); auto.
Qed.

Lemma grid_extend len slide l ws :
  bt_sorted end_time l -> (forall y, y ∈ l -> on_grid len slide y) -> (forall y, y ∈ ws -> on_grid len slide y) ->
  forall y, y ∈ bt_extend end_time l ws <-> y ∈ l \/ y ∈ ws.
Proof.
  revert l. induction ws as [|w ws IH]; intros l Hs Hl Hw y; simpl; [rewrite elem_of_nil; naive_solver|].
  pose proof (grid_insert len slide w l Hs (Hw w ltac:(by left)) Hl) as Hi.
  rewrite IH; [rewrite Hi, elem_of_cons; naive_solver|by apply bt_insert_sorted| |by intros; apply Hw; right].
  intros z [?| ->]%Hi; [auto|apply Hw; by left].
Qed.

Section Invariant.
Context `{Chrono} {W : Type} `{!AlignedWindower W} `{!AlignedWindowerLaws W}.
Context (len slide : Z) (sliding : bool).

(** [T] is the latest instant at which windows were closed: everything at or before it is
    closed, every open window ends after it. *)
Record reducer_inv (w : W) (cur : DateTime) (outs : list AlignedWindowMessage) (T : DateTime) : Prop := {
  ri_length : aw_length w = len;
  ri_slide : aw_slide w = slide;
  ri_sliding : aw_sliding w = sliding;
  ri_T : T <= cur;
  ri_low : - ns_per_ms <= T;
  ri_active_sorted : bt_sorted end_time (aw_active w);
  ri_closed_sorted : bt_sorted end_time (aw_closed w);
  ri_active : forall x, x ∈ aw_active w -> on_grid len slide x /\ T < end_time x;
  ri_closed : forall x, x ∈ aw_closed w -> on_grid len slide x /\ end_time x <= T;
  ri_guard : forall d, aw_guard w = Some d -> d * ns_per_ms <= T;
  ri_phase : forall x, ((x ∈ aw_active w) /\ phase x outs = Some POpen) \/
    ((x ∉ aw_active w) /\ (phase x outs = Some PNone \/ (phase x outs = Some PClosed /\ end_time x <= T)));
  ri_closes_sorted : bt_sorted end_time (closes outs);
  ri_closes : forall x, x ∈ closes outs -> on_grid len slide x /\ end_time x <= T;
  ri_delivered : forall m x, delivered m x outs ->
    on_grid len slide x /\ start_time x <= m_event_time m < end_time x
}.

Lemma filter_sorted (P : Window -> Prop) `{forall x, Decision (P x)} ws :
  bt_sorted end_time ws -> bt_sorted end_time (filter P ws).
Proof. apply bt_filter_sorted. Qed.

Lemma sorted_NoDup ws : bt_sorted end_time ws -> NoDup ws.
Proof.
  unfold bt_sorted. induction 1 as [|x ws _ IH Hx]; constructor; [|done]. intros Hin.
  rewrite Forall_forall in Hx. apply Hx in Hin. unfold bt_lt in Hin. lia.
Qed.

(** Closing every window that ends at or before [t]. *)
Lemma close_inv w cur outs T t w' out :
  reducer_inv w cur outs T -> t <= cur -> aw_close w t = (w', out) ->
  reducer_inv w' cur (outs ++ out) (Z.max T t) /\ same_config w w' /\
  out = (fun x => window_msg (Close x)) <$> windows_to_close t (aw_active w) /\
  (forall x, x ∈ aw_active w' -> x ∈ aw_active w) /\
  (forall x, x ∈ aw_closed w' <-> x ∈ aw_closed w \/ x ∈ windows_to_close t (aw_active w)).
Proof.
  intros [Hlen Hsl Hmd HT Hlow Has Hcs Ha Hc Hg Hp Hos Ho Hd] Ht Hcl.
  destruct (aw_close_law w t) as (w1 & Hc1 & Hact & Hclo & Hgd & Hcfg & Hcfg2 & Hcfg3).
  rewrite Hcl in Hc1. injection Hc1 as <- ->.
  set (ws := windows_to_close t (aw_active w)) in *.
  assert (Hws : forall x, x ∈ ws <-> end_time x <= t /\ x ∈ aw_active w) by (intros; unfold ws, windows_to_close; by rewrite list_elem_of_filter).
  assert (Hkeep : forall x, x ∈ aw_active w' <-> ~ end_time x <= t /\ x ∈ aw_active w)
    by (intros; rewrite Hact; unfold windows_to_keep; by rewrite list_elem_of_filter).
  assert (Hsw : bt_sorted end_time ws) by (by apply filter_sorted).
  assert (Hext : forall x, x ∈ aw_closed w' <-> x ∈ aw_closed w \/ x ∈ ws).
  { rewrite Hclo. apply (grid_extend len slide); [done|intros; by apply Hc|].
    intros y [_ Hy]%Hws. by apply Ha. }
  split_and!; try done; [|intros x [_ ?]%Hkeep; done].
  split; try done; try lia; try congruence.
  - rewrite Hact. by apply filter_sorted.
  - rewrite Hclo. by apply bt_extend_sorted.
  - intros x [Hn Hx]%Hkeep. destruct (Ha x Hx). split; [done|lia].
  - intros x [Hx|[Hx Hx']%Hws]%Hext; [destruct (Hc x Hx)|destruct (Ha x Hx')]; split; (done || lia).
  - intros d Hd'. rewrite Hgd in Hd'. specialize (Hg d Hd'). lia.
  - intros x. unfold phase. rewrite phase_from_app, (phase_from_fmap Close) by (done || by apply sorted_NoDup).
    fold (phase x outs). rewrite Hkeep. destruct (Hp x) as [[Hin ->]|[Hnin Hph]].
    + case_decide as Hx; rewrite Hws in Hx; [right|left].
      * split; [intros [Hn _]; exact (Hn (proj1 Hx))|]. right. split; [done|]. destruct Hx. lia.
      * split; [|done]. split; [intros Hle; by apply Hx|done].
    + rewrite decide_False by (rewrite Hws; naive_solver). right. split; [naive_solver|].
      destruct Hph as [->|[-> ?]]; [auto|right; split; [done|lia]].
  - rewrite closes_app, closes_fmap_close. apply (sorted_app_lt _ _ T); try done; [intros; by apply Ho|].
    intros x [_ Hx]%Hws. by apply Ha.
  - intros x. rewrite closes_app, closes_fmap_close. intros [Hx|[Ht' Hx]%Hws]%elem_of_app.
    + destruct (Ho x Hx). split; [done|lia].
    + destruct (Ha x Hx). split; [done|lia].
  - intros m x [?|[]%delivered_close]%delivered_app. by apply Hd.
Qed.

(** A later watermark changes nothing else. *)
Lemma advance_inv w cur cur' outs T :
  reducer_inv w cur outs T -> cur <= cur' -> reducer_inv w cur' outs T.
Proof. intros [] ?. split; try done. lia. Qed.

(** A window that contains an instant ends after it, to the nanosecond. *)
Lemma grid_window_bounds t x :
  grid_window len slide (timestamp_millis t) x ->
  on_grid len slide x /\ start_time x <= t < end_time x.
Proof.
  intros (s & -> & Hs & Hb). split; [by exists s|]. pose proof (timestamp_millis_bounds t).
  unfold window_at, ns_per_ms in *. simpl. lia.
Qed.

(** Assigning an accepted message: it goes to every window of the grid that contains it. *)
Lemma assign_inv w cur outs T m w' out :
  reducer_inv w cur outs T -> cur <= m_event_time m ->
  times_in_range (timestamp_millis (m_event_time m)) len slide -> aw_assign w m = Some (w', out) ->
  reducer_inv w' cur (outs ++ out) T /\ same_config w w' /\ aw_closed w' = aw_closed w /\
  exists ws, (forall x, x ∈ ws <-> grid_window len slide (timestamp_millis (m_event_time m)) x) /\
    NoDup ws /\ out = assign_op (aw_active w) m <$> ws /\
    (forall x, x ∈ aw_active w' <-> x ∈ aw_active w \/ x ∈ ws).
Proof.
  intros [Hlen Hsl Hmd HT Hlow Has Hcs Ha Hc Hg Hp Hos Ho Hd] Het Hr Has'.
  destruct (aw_create_law w m) as (ws & Hcr & Hws & Hdesc); [by rewrite Hlen, Hsl|].
  rewrite Hlen, Hsl in Hws.
  destruct (aw_assign_law w m ws Hcr) as (w1 & Hw1 & Hact & Hclo & Hgd & Hcfg & Hcfg2 & Hcfg3).
  rewrite Has' in Hw1. injection Hw1 as <- ->.
  assert (Hnd : NoDup ws) by (by apply desc_NoDup).
  assert (Hwsb : forall x, x ∈ ws -> on_grid len slide x /\ start_time x <= m_event_time m < end_time x)
    by (intros x Hx; apply grid_window_bounds; by apply Hws).
  destruct (assign_loop_spec len slide (aw_guard w) m (aw_active w) ws) as (Hs & Hel & Hout); try done.
  { intros y Hy. by apply Ha. }
  { intros y Hy. by apply Hwsb. }
  { intros y d Hy Hgy. specialize (Hg d Hgy). destruct (Hwsb y Hy) as [(s & -> & _) Hb].
    rewrite timestamp_millis_spec. simpl in *. rewrite Z.div_mul by done. unfold ns_per_ms in *. lia. }
  rewrite <- Hact in Hs, Hel. split_and!; try done; [|by exists ws].
  split; try done; try congruence.
  - intros x [Hx|Hx]%Hel; [by apply Ha|]. destruct (Hwsb x Hx). split; [done|lia].
  - intros x Hx. rewrite Hclo in Hx. by apply Hc.
  - intros d. rewrite Hgd. apply Hg.
  - intros x. unfold phase. rewrite Hout, phase_from_app. unfold assign_op.
    rewrite (phase_from_fmap (fun y => if decide (y ∈ aw_active w) then Append m y else Open m y))
      by (done || by intros y; case_decide).
    fold (phase x outs). rewrite Hel. destruct (Hp x) as [[Hin ->]|[Hnin Hph]].
    + left. split; [auto|]. rewrite (decide_True (P := x ∈ aw_active w)) by done. by case_decide.
    + case_decide as Hx; [left|right; naive_solver]. split; [auto|]. rewrite decide_False by done.
      destruct Hph as [->|[_ He]]; [done|]. destruct (Hwsb x Hx). lia.
  - by rewrite closes_app, Hout, closes_assign, app_nil_r.
  - intros x. rewrite closes_app, Hout, closes_assign, app_nil_r. apply Ho.
  - intros m' x. rewrite delivered_app, Hout, delivered_assign. intros [?|[-> Hx]]; auto.
Qed.

(** Collecting a closed window. *)
Lemma gc_inv w cur outs T x :
  reducer_inv w cur outs T -> x ∈ aw_closed w ->
  reducer_inv (aw_gc w x) cur outs T /\ same_config w (aw_gc w x) /\
  aw_active (aw_gc w x) = aw_active w /\
  (forall y, y ∈ aw_closed (aw_gc w x) <-> y ∈ aw_closed w /\ y <> x).
Proof.
  intros [Hlen Hsl Hmd HT Hlow Has Hcs Ha Hc Hg Hp Hos Ho Hd] Hx.
  destruct (aw_gc_law w x) as (Hact & Hclo & Hgd & Hcfg). pose proof Hcfg as (? & ? & ?).
  assert (Hrem : forall y, y ∈ aw_closed (aw_gc w x) <-> y ∈ aw_closed w /\ y <> x).
  { intros y. rewrite Hclo, bt_remove_elem by done. split; intros [Hy Hn]; (split; [done|]).
    - by intros ->.
    - intros He. apply Hn. apply (on_grid_end len slide); [by apply Hc..|done]. }
  split_and!; try done. split; try done; try congruence.
  - by rewrite Hclo; apply bt_remove_sorted.
  - intros y Hy. rewrite Hact in Hy. by apply Ha.
  - intros y [Hy _]%Hrem. by apply Hc.
  - intros d (d0 & Hd0 & Hle)%Hgd. specialize (Hg d0 Hd0). destruct (Hc x Hx) as [_ He].
    pose proof (timestamp_millis_bounds (end_time x)). unfold ns_per_ms in *. lia.
  - intros y. rewrite Hact. apply Hp.
Qed.

(** The oldest window has the least end of all windows not yet collected. *)
Lemma oldest_inv w cur outs T o x :
  reducer_inv w cur outs T -> aw_oldest w = Some o -> x ∈ aw_closed w \/ x ∈ aw_active w ->
  end_time o <= end_time x /\ on_grid len slide o.
Proof.
  intros [Hlen Hsl Hmd HT Hlow Has Hcs Ha Hc Hg Hp Hos Ho Hd]. rewrite aw_oldest_law.
  assert (Hall : bt_sorted end_time (aw_closed w ++ aw_active w)).
  { apply (sorted_app_lt _ _ T); try done; intros; [by apply Hc|by apply Ha]. }
  intros Ho' Hx. destruct (aw_closed w ++ aw_active w) as [|o' l] eqn:El; [done|]. injection Ho' as ->.
  split; [apply (bt_head_min end_time o l Hall); rewrite <- El; by apply elem_of_app|].
  assert (Hin : o ∈ aw_closed w ++ aw_active w) by (rewrite El; by left).
  apply elem_of_app in Hin as [?|?]; [by apply Hc|by apply Ha].
Qed.

(** What one step of the main task does. *)
Record handle_effect (w w' : W) (out : list AlignedWindowMessage) (T T' : DateTime) : Prop := {
  he_T : T <= T';
  he_config : same_config w w';
  he_active : forall x, x ∈ aw_active w' -> x ∈ aw_active w \/ T < end_time x /\ exists m, delivered m x out;
  he_closed : forall x, x ∈ aw_closed w' <-> x ∈ aw_closed w \/ x ∈ closes out;
  he_closes : forall x, x ∈ closes out -> x ∈ aw_active w;
  he_delivered : forall m x, delivered m x out -> T <= m_event_time m;
  he_slot : forall wm, wm ∈ out -> wm = window_msg (operation wm)
}.

Lemma handle_effect_refl w T : handle_effect w w [] T T.
Proof.
  split; try done; [by left|..].
  - intros x. unfold closes. simpl. rewrite elem_of_nil. naive_solver.
  - by intros x ?%elem_of_nil.
  - intros m x (wm & ?%elem_of_nil & _). done.
  - by intros wm ?%elem_of_nil.
Qed.

Definition msg_ok (m : Message) : Prop :=
  m_typ m = Data -> times_in_range (timestamp_millis (m_event_time m)) len slide.

Definition rinv (r : AlignedReducer W) : list AlignedWindowMessage -> DateTime -> Prop :=
  reducer_inv (window_manager r) (current_watermark r).

Lemma close_with_watermark_inv r outs T r' out :
  rinv r outs T -> 0 <= allowed_lateness r ->
  close_windows_with_watermark r (current_watermark r) = Some (r', out) ->
  exists T', rinv r' (outs ++ out) T' /\ handle_effect (window_manager r) (window_manager r') out T T' /\
    r' = set_manager r (window_manager r') /\ T' <= current_watermark r /\
    (forall m x, ~ delivered m x out).
Proof.
  unfold close_windows_with_watermark. intros Hinv Hl Hcl.
  rewrite dt_add_spec in Hcl. case_decide; [|done].
  destruct (aw_close _ _) as [w' out'] eqn:Hc. injection Hcl as <- <-.
  assert (Ht : current_watermark r + - allowed_lateness r <= current_watermark r) by lia.
  destruct (close_inv _ _ _ _ _ _ _ Hinv Ht Hc) as (Hi & Hcfg & Hout & Hact & Hclo).
  eexists. split; [exact Hi|]. pose proof (ri_T _ _ _ _ Hi).
  assert (Hnd : forall m x, ~ delivered m x out').
  { intros m x. rewrite Hout. apply delivered_close. }
  split_and!; try done. split; try done; [lia|auto|..].
  - intros x. by rewrite Hclo, Hout, closes_fmap_close.
  - intros x. rewrite Hout, closes_fmap_close. intros [_ ?]%list_elem_of_filter. done.
  - intros m x []%Hnd.
  - rewrite Hout. by intros wm (x & -> & _)%list_elem_of_fmap.
Qed.

Lemma reducer_handle_inv r m outs T r' out :
  rinv r outs T -> 0 <= allowed_lateness r -> msg_ok m -> reducer_handle r m = Some (r', out) ->
  exists T', rinv r' (outs ++ out) T' /\ handle_effect (window_manager r) (window_manager r') out T T' /\
    allowed_lateness r' = allowed_lateness r.
Proof.
  intros Hinv Hl Hm Hh. unfold reducer_handle in Hh.
  assert (Hskip : Some (r, []) = Some (r', out) ->
    exists T', rinv r' (outs ++ out) T' /\ handle_effect (window_manager r) (window_manager r') out T T' /\
      allowed_lateness r' = allowed_lateness r).
  { intros [= <- <-]. exists T. rewrite app_nil_r. split_and!; [done|apply handle_effect_refl|done]. }
  destruct (shutting_down_on_err r); [auto|]. destruct (m_typ m) eqn:Ht.
  - set (m' := if keyed r then m else _) in Hh.
    assert (Hr : times_in_range (timestamp_millis (m_event_time m')) len slide)
      by (unfold m'; destruct (keyed r); by apply Hm).
    clearbody m'. unfold assign_and_close_windows in Hh.
    destruct minus_one_ms as [d|]; [|done]. set (r1 := advance r _) in Hh.
    assert (Hinv1 : rinv r1 outs T) by (eapply advance_inv; [exact Hinv|simpl; lia]).
    destruct (admit_message r1 m') as [[]|] eqn:Ha; simplify_eq;
      try (exists T; rewrite app_nil_r; split_and!; [done|apply handle_effect_refl|done]).
    destruct (close_windows_with_watermark r1 _) as [[r2 cl]|] eqn:Hc; [|done].
    destruct (close_with_watermark_inv _ _ _ _ _ Hinv1 Hl Hc) as (T' & Hi & [] & Hr2 & HT' & Hnd).
    destruct (aw_assign _ m') as [[w' out']|] eqn:Has; [|done]. injection Hh as <- <-.
    assert (Hcur : current_watermark r1 <= m_event_time m').
    { unfold admit_message in Ha. clear -Ha. repeat case_match; simplify_eq; zify_bool; lia. }
    assert (Hcur2 : current_watermark r2 = current_watermark r1) by (by rewrite Hr2).
    rewrite <- Hcur2 in Hcur. destruct (assign_inv _ _ _ _ _ _ _ Hi Hcur Hr Has) as (Hi2 & Hcfg2 & Hclo2 & ws & Hws & _ & Hout & Hact2).
    exists T'. rewrite app_assoc. split_and!; [done| |by rewrite Hr2].
    assert (Hcl2 : closes out' = []) by (rewrite Hout; apply closes_assign).
    pose proof (ri_T _ _ _ _ Hinv1). destruct Hcfg2 as (? & ? & ?), he_config0 as (? & ? & ?).
    split; simpl; try done.
    + change (window_manager r) with (window_manager r1). split_and!; congruence.
    + intros x [[?|[? [m0 []%Hnd]]]%he_active0|Hx]%Hact2; [by left|]. right.
      assert (Hdx : delivered m' x out') by (rewrite Hout; by apply delivered_assign).
      split; [|exists m'; apply delivered_app; by right].
      pose proof (ri_delivered _ _ _ _ Hi2 m' x) as Hb. rewrite delivered_app in Hb. destruct Hb as [_ Hb]; [by right|]. lia.
    + intros x. by rewrite Hclo2, he_closed0, closes_app, Hcl2, app_nil_r.
    + intros x. rewrite closes_app, Hcl2, app_nil_r. auto.
    + intros m0 x [[]%Hnd|Hd]%delivered_app. rewrite Hout in Hd. apply delivered_assign in Hd as [-> _]. lia.
    + intros wm [?|Hin]%elem_of_app; [auto|]. rewrite Hout in Hin.
      by apply list_elem_of_fmap in Hin as (x & -> & _).
  - destruct (m_watermark m) as [idle|]; [|auto]. destruct (Z.ltb_spec (current_watermark r) idle); [|auto].
    destruct (close_with_watermark_inv (advance r idle) outs T r' out) as (T' & Hi & He & Hr & _); try done.
    { eapply advance_inv; [exact Hinv|simpl; lia]. }
    exists T'. split_and!; [done..|]. by rewrite Hr.
Qed.

(** ** The system *)

(** The messages sent to one window. *)
Definition stream_of (x : Window) (outs : list AlignedWindowMessage) : list AlignedWindowMessage :=
  filter (fun wm => op_window (operation wm) = x) outs.

Record sys_inv (nofail : bool) (s : ReduceSystem W) (outs taken : list AlignedWindowMessage) (T : DateTime)
    : Prop := {
  si_red : rinv (reducer s) outs T;
  si_late : 0 <= allowed_lateness (reducer s);
  si_chan : outs = taken ++ channel s;
  si_slots : forall wm, wm ∈ outs -> wm = window_msg (operation wm);
  si_streams : forall x, phase x taken = Some POpen ->
    active_streams s !! window_to_pnf_slot x = Some (stream_of x taken);
  si_pending : forall x, x ∈ closes (channel s) -> x ∈ aw_closed (window_manager (reducer s));
  si_nofail : nofail = true ->
    forall x, x ∈ aw_closed (window_manager (reducer s)) -> x ∈ closes (channel s);
  si_gc : sliding = true \/ nofail = true -> forall ev, ev ∈ gc_events s -> exists g, ev = window_to_gc_event g /\ end_time g <= T /\
    forall m x, delivered m x outs -> m_event_time m < end_time g ->
      (x ∉ aw_active (window_manager (reducer s))) /\ (x ∉ aw_closed (window_manager (reducer s)))
}.

Lemma phase_from_None x outs : phase_from None x outs = None.
Proof. unfold phase_from. induction outs as [|wm outs IH]; simpl; [done|]. by case_decide. Qed.

Lemma phase_cons p x wm outs :
  phase_from p x (wm :: outs) =
  phase_from (if decide (op_window (operation wm) = x) then phase_step p (operation wm) else p) x outs.
Proof. done. Qed.

(** The initial phase is never entered again. *)
Lemma phase_no_return q x outs : q <> Some PNone -> phase_from q x outs <> Some PNone.
Proof.
  revert q. induction outs as [|w o IH]; intros q Hq; [done|]. rewrite phase_cons. apply IH.
  case_decide; [|done]. by destruct q as [[]|], (operation w).
Qed.

(** A window in its initial phase has received nothing. *)
Lemma phase_none_stream x outs : phase x outs = Some PNone -> stream_of x outs = [].
Proof.
  unfold phase, stream_of. induction outs as [|wm outs IH]; [done|].
  rewrite phase_cons, filter_cons. case_decide; [|done]. intros Hp. exfalso. revert Hp.
  apply phase_no_return. by destruct (operation wm).
Qed.

(** The closed phase is entered by a close message only. *)
Lemma phase_closed_from q x outs :
  phase_from q x outs = Some PClosed -> q = Some PClosed \/ x ∈ closes outs.
Proof.
  revert q. induction outs as [|wm outs IH]; intros q; [by left|]. rewrite phase_cons.
  intros [Hq|Hin]%IH.
  - case_decide as Hx; [|by left]. right. unfold closes, close_of. simpl.
    destruct q as [[]|], (operation wm) eqn:Ho; simplify_eq/=. by left.
  - right. unfold closes. simpl. destruct (close_of wm); [by right|done].
Qed.

Lemma phase_closed_closes x outs : phase x outs = Some PClosed -> x ∈ closes outs.
Proof. by intros [?|?]%phase_closed_from. Qed.

Lemma delivered_phase m x outs : delivered m x outs -> phase x outs <> Some PNone.
Proof.
  intros (wm & Hin & Hop) Hp%phase_none_stream.
  assert (wm ∈ stream_of x outs) as Hs; [|rewrite Hp in Hs; by apply elem_of_nil in Hs].
  apply list_elem_of_filter. split; [by destruct Hop as [->| ->]|done].
Qed.

(** The window of every message sent is on the grid. *)
Lemma outs_on_grid w cur outs T wm :
  reducer_inv w cur outs T -> wm ∈ outs -> on_grid len slide (op_window (operation wm)).
Proof.
  intros Hi Hin. destruct (operation wm) as [m x|x|m x] eqn:Ho; simpl.
  - eapply (ri_delivered _ _ _ _ Hi m). exists wm. split; [done|by left].
  - apply (ri_closes _ _ _ _ Hi). apply list_elem_of_omap. exists wm. split; [done|].
    unfold close_of. by rewrite Ho.
  - eapply (ri_delivered _ _ _ _ Hi m). exists wm. split; [done|by right].
Qed.

(** A window that has left its initial phase received a message. *)
Lemma phase_grid w cur outs T taken rest x :
  reducer_inv w cur outs T -> outs = taken ++ rest -> phase x taken = Some POpen -> on_grid len slide x.
Proof.
  intros Hi -> Hp. destruct (stream_of x taken) as [|wm l] eqn:Es.
  - exfalso. assert (Hz : forall p, phase_from p x taken = p); [|unfold phase in Hp; by rewrite Hz in Hp].
    clear -Es. induction taken as [|wm tk IH]; intros p; [done|]. unfold stream_of in *.
    rewrite filter_cons in Es. rewrite phase_cons. case_decide; [done|]. by apply IH.
  - assert (Hin : wm ∈ stream_of x taken) by (rewrite Es; by left).
    apply list_elem_of_filter in Hin as [<- Hin]. eapply outs_on_grid; [exact Hi|].
    apply elem_of_app. by left.
Qed.

(** The next message of the channel is a legal one for its window. *)
Lemma next_phase w cur taken wm rest T :
  reducer_inv w cur (taken ++ wm :: rest) T ->
  phase_step (phase (op_window (operation wm)) taken) (operation wm) <> None.
Proof.
  intros Hi Hn. destruct (ri_phase _ _ _ _ Hi (op_window (operation wm))) as [[_ Hp]|[_ [Hp|[Hp _]]]];
    unfold phase in Hp; rewrite phase_from_app, phase_cons, decide_True in Hp by done;
    unfold phase in Hn; by rewrite Hn, phase_from_None in Hp.
Qed.

Lemma phase_snoc x taken wm :
  phase x (taken ++ [wm]) =
  if decide (op_window (operation wm) = x) then phase_step (phase x taken) (operation wm) else phase x taken.
Proof. unfold phase. by rewrite phase_from_app. Qed.

Lemma stream_snoc x taken wm :
  stream_of x (taken ++ [wm]) = stream_of x taken ++ if decide (op_window (operation wm) = x) then [wm] else [].
Proof. unfold stream_of. rewrite filter_app, filter_cons, filter_nil. by case_decide. Qed.

Lemma sys_inv_input nofail s outs taken T m r' out :
  sys_inv nofail s outs taken T -> msg_ok m -> reducer_handle (reducer s) m = Some (r', out) ->
  exists T', sys_inv nofail
    (mkSystem r' (channel s ++ out) (active_streams s) (gc_wal s) (gc_events s) (errors s)) (outs ++ out) taken T'.
Proof.
  intros [Hred Hlate Hchan Hslots Hstr Hpend Hnf Hgc] Hm Hh.
  destruct (reducer_handle_inv _ _ _ _ _ _ Hred Hlate Hm Hh) as (T' & Hr' & [HT Hcfg Hact Hclo Hcls Hdel Hslot] & Hl).
  exists T'. split; simpl; try done.
  - by rewrite Hl.
  - by rewrite Hchan, app_assoc.
  - intros wm [?|?]%elem_of_app; auto.
  - intros x. rewrite closes_app, Hclo. intros [?|?]%elem_of_app; auto.
  - intros Hn x. rewrite closes_app, Hclo. intros [?|?]; apply elem_of_app; auto.
  - intros Hmode ev Hev. destruct (Hgc Hmode ev Hev) as (g & -> & Hg & Hsafe). exists g. split_and!; [done|lia|].
    intros m0 x [Hd|Hd]%delivered_app Hlt.
    + destruct (Hsafe m0 x Hd Hlt) as [Hna Hnc]. split.
      * intros [?|[Hx _]]%Hact; [done|].
        destruct (ri_phase _ _ _ _ Hred x) as [[? _]|[_ [Hp|[_ He]]]]; [done| |lia].
        by apply (delivered_phase m0 x outs).
      * intros [?|?%Hcls]%Hclo; done.
    + apply Hdel in Hd. lia.
Qed.

(** The stream table after one window message. *)
Definition streams_after (st : gmap string (list AlignedWindowMessage)) (taken : list AlignedWindowMessage)
    (wm : AlignedWindowMessage) : gmap string (list AlignedWindowMessage) :=
  let x := op_window (operation wm) in
  match operation wm with
  | Close _ => delete (window_to_pnf_slot x) st
  | _ => <[window_to_pnf_slot x := stream_of x taken ++ [wm]]> st
  end.

Lemma streams_step st w cur taken wm rest T :
  reducer_inv w cur (taken ++ wm :: rest) T ->
  (forall x, phase x taken = Some POpen -> st !! window_to_pnf_slot x = Some (stream_of x taken)) ->
  forall y, phase y (taken ++ [wm]) = Some POpen ->
    streams_after st taken wm !! window_to_pnf_slot y = Some (stream_of y (taken ++ [wm])).
Proof.
  intros Hi Hst y. rewrite phase_snoc, stream_snoc. unfold streams_after.
  set (x := op_window (operation wm)). case_decide as He.
  - subst y. destruct (operation wm) eqn:Ho; intros Hp; [by rewrite lookup_insert_eq| |by rewrite lookup_insert_eq].
    by destruct (phase x taken) as [[]|].
  - intros Hp. rewrite app_nil_r, <- Hst by done.
    assert (Hne : window_to_pnf_slot x <> window_to_pnf_slot y).
    { intros Heq. apply He. apply (slot_inj len slide); [|by eapply phase_grid|done].
      eapply outs_on_grid; [exact Hi|]. apply elem_of_app. right. by left. }
    destruct (operation wm); by rewrite ?lookup_insert_ne, ?lookup_delete_ne.
Qed.

Lemma reducer_inv_set_manager r outs T w' :
  reducer_inv w' (current_watermark r) outs T -> rinv (set_manager r w') outs T.
Proof. done. Qed.

(** Windows are closed in the order of their ends. *)
Lemma pending_later nofail s outs taken T x rest y :
  sys_inv nofail s outs taken T -> closes (channel s) = x :: rest -> y ∈ rest -> end_time x < end_time y.
Proof.
  intros Hs Hcl Hy. pose proof (ri_closes_sorted _ _ _ _ (si_red _ _ _ _ _ Hs)) as Hsort.
  rewrite (si_chan _ _ _ _ _ Hs), closes_app, Hcl in Hsort.
  apply StronglySorted_app_1_r, StronglySorted_inv in Hsort as [_ Hx]. rewrite Forall_forall in Hx.
  by apply Hx.
Qed.

(** Which messages a collected window lets the log forget. *)
Lemma gc_window_safe nofail s outs taken T x o rest :
  sys_inv nofail s outs taken T -> closes (channel s) = x :: rest -> 0 < len ->
  aw_oldest (window_manager (reducer s)) = Some o ->
  sliding = true \/ nofail = true ->
  let g := gc_window_of (aw_sliding (window_manager (reducer s))) x o in
  end_time g <= T /\
  forall m y, delivered m y outs -> m_event_time m < end_time g ->
    (y ∉ aw_active (window_manager (reducer s))) /\ (y ∈ aw_closed (window_manager (reducer s)) -> y = x).
Proof.
  intros Hs Hcl Hlen Ho Hmode g.
  pose proof (fun y => pending_later _ _ _ _ _ _ _ y Hs Hcl) as Hlater.
  destruct Hs as [Hred Hlate Hchan Hslots Hstr Hpend Hnf Hgc].
  assert (Hx : x ∈ aw_closed (window_manager (reducer s))) by (apply Hpend; rewrite Hcl; by left).
  destruct (ri_closed _ _ _ _ Hred x Hx) as [Hgx HxT].
  unfold g, gc_window_of. rewrite (ri_sliding _ _ _ _ Hred). destruct sliding eqn:Esl; simpl.
  - pose proof (fun y Hy => oldest_inv _ _ _ _ o y Hred Ho Hy) as Hold.
    destruct (Hold x (or_introl Hx)) as [Hox (s0 & Hs0 & _)].
    assert (Hso : start_time o < end_time o) by (rewrite Hs0; simpl; unfold ns_per_ms; lia).
    split; [lia|]. intros m y Hd Hlt. destruct (ri_delivered _ _ _ _ Hred m y Hd) as [Hgy Hb].
    assert (Hn : ~ (y ∈ aw_closed (window_manager (reducer s)) \/ y ∈ aw_active (window_manager (reducer s)))).
    { intros Hy. destruct (Hold y Hy) as [Hoy Hgo]. apply (on_grid_order len slide) in Hoy; [lia|done..]. }
    split; naive_solver.
  - destruct Hmode as [|Hmode]; [done|]. split; [done|]. intros m y Hd Hlt.
    destruct (ri_delivered _ _ _ _ Hred m y Hd) as [Hgy Hb].
    assert (Hyx : end_time y <= end_time x).
    { pose proof (aw_fixed_law _ (eq_trans (ri_sliding _ _ _ _ Hred) Esl)) as Hfx.
      rewrite (ri_slide _ _ _ _ Hred), (ri_length _ _ _ _ Hred) in Hfx. rewrite Hfx in *.
      apply (on_grid_tiling len); try done. lia. }
    split.
    + intros Hya. destruct (ri_active _ _ _ _ Hred y Hya). lia.
    + intros Hyc. apply (Hnf Hmode) in Hyc. rewrite Hcl in Hyc. apply elem_of_cons in Hyc as [->|Hyr]; [done|].
      specialize (Hlater y Hyr). lia.
Qed.

(** The end of a task that has written its results. *)
Lemma sys_inv_collect nofail s outs taken T x o rest wms st gcs :
  sys_inv nofail s outs taken T -> closes (channel s) = x :: rest -> closes wms = rest -> 0 < len ->
  aw_oldest (window_manager (reducer s)) = Some o ->
  (gcs = [] \/ gcs = [window_to_gc_event (gc_window_of (aw_sliding (window_manager (reducer s))) x o)]) ->
  outs = (taken ++ [window_msg (Close x)]) ++ wms ->
  (forall y, phase y (taken ++ [window_msg (Close x)]) = Some POpen ->
     st !! window_to_pnf_slot y = Some (stream_of y (taken ++ [window_msg (Close x)]))) ->
  sys_inv nofail
    (mkSystem (set_manager (reducer s) (aw_gc (window_manager (reducer s)) x)) wms st (gc_wal s)
       (gc_events s ++ gcs) (errors s)) outs (taken ++ [window_msg (Close x)]) T.
Proof.
  intros Hs Hcl Hrest Hlen Ho Hgcs Houts Hst.
  pose proof (gc_window_safe _ _ _ _ _ _ _ _ Hs Hcl Hlen Ho) as Hsafe.
  pose proof (fun y => pending_later _ _ _ _ _ _ _ y Hs Hcl) as Hlater.
  destruct Hs as [Hred Hlate Hchan Hslots Hstr Hpend Hnf Hgc].
  assert (Hx : x ∈ aw_closed (window_manager (reducer s))) by (apply Hpend; rewrite Hcl; by left).
  destruct (gc_inv _ _ _ _ _ Hred Hx) as (Hi & Hcfg & Hact & Hrem).
  split; simpl; try done.
  - intros y Hy. rewrite Hrest in Hy. apply Hrem. split; [apply Hpend; rewrite Hcl; by right|].
    intros ->. specialize (Hlater x Hy). lia.
  - intros Hn y [Hy Hne]%Hrem. apply (Hnf Hn) in Hy. rewrite Hcl in Hy. rewrite Hrest.
    by apply elem_of_cons in Hy as [?|?].
  - intros Hmode ev [Hev|Hev]%elem_of_app.
    + destruct (Hgc Hmode ev Hev) as (g & -> & Hg & Hsf). exists g. split_and!; [done..|].
      intros m y Hd Hlt. rewrite Hact, Hrem. destruct (Hsf m y Hd Hlt). naive_solver.
    + destruct Hgcs as [->| ->]; [by apply elem_of_nil in Hev|]. apply list_elem_of_singleton in Hev as ->.
      destruct (Hsafe Hmode) as [HgT Hsf]. eexists. split_and!; [done..|].
      intros m y Hd Hlt. rewrite Hact, Hrem. destruct (Hsf m y Hd Hlt). naive_solver.
Qed.

(** A step of the actor. *)
Lemma sys_inv_actor nofail s outs taken T wm rest ok s' :
  sys_inv nofail s outs taken T -> channel s = wm :: rest -> 0 < len ->
  (nofail = true -> ok = true) ->
  handle_window_message
    (mkSystem (reducer s) rest (active_streams s) (gc_wal s) (gc_events s) (errors s)) wm ok = Some s' ->
  sys_inv nofail s' outs (taken ++ [wm]) T.
Proof.
  intros Hs Hch Hlen Hok Hh.
  pose proof (si_red _ _ _ _ _ Hs) as Hred. pose proof (si_chan _ _ _ _ _ Hs) as Hchan.
  rewrite Hch in Hchan. rewrite Hchan in Hred. pose proof (next_phase _ _ _ _ _ _ Hred) as Hnext.
  pose proof (streams_step (active_streams s) _ _ _ _ _ _ Hred (si_streams _ _ _ _ _ Hs)) as Hst.
  assert (Houts : outs = (taken ++ [wm]) ++ rest) by (by rewrite <- app_assoc).
  assert (Hw : wm = window_msg (operation wm)).
  { apply (si_slots _ _ _ _ _ Hs). rewrite Hchan. apply elem_of_app. right. by left. }
  assert (Hslot : pnf_slot wm = window_to_pnf_slot (op_window (operation wm))) by (by rewrite Hw).
  unfold handle_window_message in Hh. rewrite Hslot in Hh.
  assert (Hkeep : forall st, closes (wm :: rest) = closes rest ->
    (forall y, phase y (taken ++ [wm]) = Some POpen -> st !! window_to_pnf_slot y = Some (stream_of y (taken ++ [wm]))) ->
    sys_inv nofail (mkSystem (reducer s) rest st (gc_wal s) (gc_events s) (errors s)) outs (taken ++ [wm]) T).
  { intros st Hc Hst'. destruct Hs. rewrite Hch in *. split; simpl; try done; by rewrite <- Hc. }
  unfold streams_after in Hst. destruct (operation wm) as [m x|x|m x] eqn:Hop; simpl in *.
  - injection Hh as <-. apply Hkeep; [unfold closes, close_of; simpl; by rewrite Hop|].
    rewrite (phase_none_stream x taken) in Hst; [done|]. by destruct (phase x taken) as [[]|].
  - assert (Hp : phase x taken = Some POpen) by (by destruct (phase x taken) as [[]|]).
    rewrite (si_streams _ _ _ _ _ Hs x Hp) in Hh.
    assert (Hcl : closes (channel s) = x :: closes rest)
      by (rewrite Hch; unfold closes, close_of; simpl; by rewrite Hop).
    unfold task_end in Hh. simpl in Hh. destruct ok.
    + destruct (aw_oldest _) as [o|] eqn:Ho; [|done]. injection Hh as <-. rewrite Hw in Houts, Hst |- *.
      eapply sys_inv_collect; try done. destruct (gc_wal s); auto.
    + injection Hh as <-. destruct nofail; [by specialize (Hok eq_refl)|]. destruct Hs.
      split; simpl; try done. intros y Hy. apply si_pending0. rewrite Hcl. by right.
  - assert (Hp : phase x taken = Some POpen) by (by destruct (phase x taken) as [[]|]).
    rewrite (si_streams _ _ _ _ _ Hs x Hp) in Hh. injection Hh as <-.
    apply Hkeep; [unfold closes, close_of; simpl; by rewrite Hop|done].
Qed.

Definition label_ok (nofail : bool) (l : RLabel) : Prop :=
  match l with
  | RInput m => msg_ok m
  | RError => True
  | RActor ok => nofail = true -> ok = true
  end.

Lemma rrun_inv nofail ls s outs taken T s' out :
  sys_inv nofail s outs taken T -> 0 < len ->
  Forall (label_ok nofail) ls -> rrun s ls = Some (s', out) ->
  exists taken' T', sys_inv nofail s' (outs ++ out) taken' T'.
Proof.
  intros Hs Hlen. revert s outs taken T out Hs.
  induction ls as [|l ls IH]; intros s outs taken T out Hs Hls Hrun; simpl in Hrun.
  { simplify_eq. rewrite app_nil_r. eauto. }
  apply Forall_cons in Hls as [Hl Hls]. destruct (rexec s l) as [[s1 out1]|] eqn:Hx; [|done].
  destruct (rrun s1 ls) as [[s2 out2]|] eqn:Hr; [|done]. injection Hrun as <- <-.
  assert (exists taken1 T1, sys_inv nofail s1 (outs ++ out1) taken1 T1) as (tk1 & T1 & Hs1);
    [|rewrite app_assoc; by eapply IH].
  destruct l as [m| |ok]; simpl in Hx, Hl.
  - destruct (reducer_handle (reducer s) m) as [[r' o]|] eqn:Hh; [|done]. injection Hx as <- <-.
    destruct (sys_inv_input _ _ _ _ _ _ _ _ Hs Hl Hh) as [T' ?]. eauto.
  - destruct (errors s); injection Hx as <- <-; rewrite app_nil_r; [eauto|].
    exists taken, T. destruct Hs. by split.
  - destruct (channel s) as [|wm rest] eqn:Hch; [injection Hx as <- <-; rewrite app_nil_r; eauto|].
    destruct (handle_window_message _ wm ok) as [s3|] eqn:Hh; [|done]. injection Hx as <- <-.
    rewrite app_nil_r. do 2 eexists. by eapply sys_inv_actor.
Qed.

(** A manager that holds no window yet. *)
Definition fresh (w : W) : Prop :=
  aw_length w = len /\ aw_slide w = slide /\ aw_sliding w = sliding /\ aw_active w = [] /\ aw_closed w = [] /\
  (forall d, aw_guard w = Some d -> d <= -1).

Lemma system_new_inv nofail w lateness kd gc s :
  fresh w -> 0 <= lateness -> system_new w lateness kd gc = Some s -> exists T, sys_inv nofail s [] [] T.
Proof.
  intros (Hl & Hsl & Hmd & Ha & Hc & Hg) Hlate Hnew. unfold system_new, reducer_new in Hnew.
  destruct minus_one_ms as [wm|] eqn:Hm; [|done]. injection Hnew as <-.
  apply from_timestamp_millis_Some in Hm. exists wm. split; simpl; try done.
  - split; simpl; rewrite ?Ha, ?Hc; try done; try (by constructor); try (by intros ? ?%elem_of_nil).
    + unfold ns_per_ms in *. lia.
    + intros d ?%Hg. unfold ns_per_ms in *. lia.
    + intros x. right. split; [apply not_elem_of_nil|by left].
    + intros m x (? & ?%elem_of_nil & _). done.
  - by intros ? ?%elem_of_nil.
  - by intros ? ?%elem_of_nil.
  - rewrite Hc. by intros _ ? ?%elem_of_nil.
  - by intros _ ? ?%elem_of_nil.
Qed.

(** The window of a message that carries data. *)
Definition data_window (wm : AlignedWindowMessage) : option Window :=
  match operation wm with Open _ x | Append _ x => Some x | Close _ => None end.

Lemma data_window_close (ws : list Window) : omap data_window ((fun x => window_msg (Close x)) <$> ws) = [].
Proof. by induction ws. Qed.

Lemma data_window_assign active m (ws : list Window) : omap data_window (assign_op active m <$> ws) = ws.
Proof.
  induction ws as [|x ws IH]; simpl; [done|]. unfold data_window at 1, assign_op at 1. simpl.
  case_decide; simpl; by f_equal.
Qed.

Lemma close_with_watermark_out (r r' : AlignedReducer W) wm out :
  close_windows_with_watermark r wm = Some (r', out) ->
  exists cs : list Window, out = (fun x => window_msg (Close x)) <$> cs.
Proof.
  unfold close_windows_with_watermark. destruct (dt_add _ _) as [t|]; [|done].
  destruct (aw_close_law (window_manager r) t) as (w' & -> & _). intros [= _ <-]. eauto.
Qed.

Lemma admit_message_spec (r : AlignedReducer W) m a :
  0 <= allowed_lateness r -> admit_message r m = Some a ->
  a = Accept <-> current_watermark r <= m_event_time m /\
    (m_is_late m = true -> timestamp_millis (current_watermark r) <> -1).
Proof.
  unfold admit_message. rewrite dt_add_spec. intros Hl Ha.
  destruct (m_is_late m); repeat case_match; simplify_eq; zify_bool; naive_solver lia.
Qed.

(** The decision on a data message and what it sends. *)
Lemma assign_and_close_spec r outs T m r' out cur :
  rinv r outs T -> 0 <= allowed_lateness r ->
  times_in_range (timestamp_millis (m_event_time m)) len slide ->
  assign_and_close_windows r m = Some (r', out) ->
  cur = Z.max (current_watermark r) (default (- ns_per_ms) (m_watermark m)) ->
  (forall x, delivered m x out <->
     cur <= m_event_time m /\ (m_is_late m = true -> timestamp_millis cur <> -1) /\
     grid_window len slide (timestamp_millis (m_event_time m)) x) /\
  NoDup (omap data_window out).
Proof.
  intros Hinv Hl Hr Hh Hcur. unfold assign_and_close_windows in Hh.
  destruct minus_one_ms as [d|] eqn:Hd; [|done]. apply from_timestamp_millis_Some in Hd as ->.
  replace (-1 * ns_per_ms) with (- ns_per_ms) in Hh by (unfold ns_per_ms; lia). rewrite <- Hcur in Hh.
  assert (Hinv1 : rinv (advance r cur) outs T) by (eapply advance_inv; [exact Hinv|simpl; lia]).
  set (r1 := advance r cur) in *.
  assert (Hc1 : current_watermark r1 = cur /\ allowed_lateness r1 = allowed_lateness r) by done.
  clearbody r1. destruct Hc1 as [Hc1 Hl1]. rewrite <- Hl1 in Hl.
  destruct (admit_message r1 m) as [a|] eqn:Ha; [|done]. apply (admit_message_spec r1 m a Hl) in Ha.
  rewrite Hc1 in Ha. destruct (decide (a = Accept)) as [->|Hna].
  - destruct Ha as [Ha _]. destruct (Ha eq_refl) as [Hle Hlate].
    destruct (close_windows_with_watermark r1 _) as [[r2 cl]|] eqn:Hc; [|done].
    destruct (close_with_watermark_inv _ _ _ _ _ Hinv1 Hl Hc) as (T' & Hi & _ & Hr2 & _ & Hnd).
    destruct (aw_assign _ m) as [[w' out']|] eqn:Has; [|done]. injection Hh as <- <-.
    assert (Hcur2 : current_watermark r2 <= m_event_time m) by (rewrite Hr2; simpl; lia).
    destruct (assign_inv _ _ _ _ _ _ _ Hi Hcur2 Hr Has) as (_ & _ & _ & ws & Hws & Hndw & -> & _).
    split.
    + intros x. rewrite delivered_app, delivered_assign, Hws. specialize (Hnd m x). naive_solver.
    + rewrite omap_app, data_window_assign. apply close_with_watermark_out in Hc as [cs ->].
      by rewrite data_window_close.
  - assert (Hout : out = []) by (by destruct a; simplify_eq). subst out. split; [|constructor].
    intros x. split; [by intros (? & ?%elem_of_nil & _)|]. intros (? & ? & _). exfalso. apply Hna, Ha. done.
Qed.

(** A run of a fresh system. *)
Lemma fresh_run_inv nofail w lateness kd gc s0 ls s outs :
  fresh w -> 0 < len -> 0 <= lateness -> system_new w lateness kd gc = Some s0 ->
  Forall (label_ok nofail) ls -> rrun s0 ls = Some (s, outs) ->
  exists taken T, sys_inv nofail s outs taken T.
Proof.
  intros Hf Hlen Hlate Hnew Hls Hrun.
  destruct (system_new_inv nofail _ _ _ _ _ Hf Hlate Hnew) as [T0 H0].
  by apply (rrun_inv nofail ls s0 [] [] T0 s outs).
Qed.
End Invariant.

(** * Properties *)

Section Properties.
Context (C : Chrono) (len slide : Z) (sliding : bool).
Context (w : AlignedWindowManager) (lateness : Duration) (kd gc : bool).
Context (Hfresh : fresh len slide sliding w) (Hlen : 0 < len) (Hlate : 0 <= lateness).
Context (s0 : ReduceSystem AlignedWindowManager) (Hnew : system_new w lateness kd gc = Some s0).

(** C4: the life of a window. In every run of the reducer and its actor, whatever the order of
    their steps and whatever the tasks answer, each window is opened once, then appended to,
    then closed at most once, and never again touched after its close; the windows open at
    the end are the active windows of the manager. *)
Theorem window_lifecycle (ls : list RLabel) (s : ReduceSystem AlignedWindowManager)
    (outs : list AlignedWindowMessage) :
  Forall (label_ok len slide false) ls -> rrun s0 ls = Some (s, outs) ->
  forall x, phase x outs =
    if decide (x ∈ aw_active (window_manager (reducer s))) then Some POpen
    else if decide (x ∈ closes outs) then Some PClosed else Some PNone.
Proof.
  intros Hls Hrun x.
  destruct (fresh_run_inv len slide sliding false _ _ _ _ _ _ _ _ Hfresh Hlen Hlate Hnew Hls Hrun) as (tk & T & Hs).
  pose proof (ri_phase _ _ _ _ _ _ _ (si_red _ _ _ _ _ _ _ _ Hs) x) as Hp.
  destruct Hp as [[Hin ->]|[Hnin Hp]]; [by rewrite decide_True|]. rewrite (decide_False (P := x ∈ aw_active _)) by done.
  case_decide as Hc.
  - destruct Hp as [Hp|[-> _]]; [|done]. exfalso. apply list_elem_of_omap in Hc as (wm & Hin & Hc).
    apply phase_none_stream in Hp. assert (Hs' : wm ∈ stream_of x outs); [|rewrite Hp in Hs'; by apply elem_of_nil in Hs'].
    apply list_elem_of_filter. split; [|done]. unfold close_of in Hc. by destruct (operation wm); simplify_eq.
  - destruct Hp as [->|[Hp _]]; [done|]. exfalso. by apply Hc, phase_closed_closes.
Qed.

(** The exact condition under which a data message is accepted: its event time is not before the
    watermark (its own taken into account) and, if it is marked late, some watermark is known. No
    message is accepted because of the allowed lateness, though the user guide says that late data is
    included up to it. *)
Theorem lateness_admits_none (ls : list RLabel) (s : ReduceSystem AlignedWindowManager)
    (outs out : list AlignedWindowMessage) (m : Message) (r' : AlignedReducer AlignedWindowManager) :
  Forall (label_ok len slide false) ls -> rrun s0 ls = Some (s, outs) ->
  m_typ m = Data -> times_in_range (timestamp_millis (m_event_time m)) len slide ->
  shutting_down_on_err (reducer s) = false -> reducer_handle (reducer s) m = Some (r', out) ->
  let m' := if keyed (reducer s) then m else set_keys m [DEFAULT_KEY_FOR_NON_KEYED_STREAM] in
  let cur := Z.max (current_watermark (reducer s)) (default (- ns_per_ms) (m_watermark m)) in
  (forall x, delivered m' x out <->
     cur <= m_event_time m /\ (m_is_late m = true -> timestamp_millis cur <> -1) /\
     grid_window len slide (timestamp_millis (m_event_time m)) x) /\
  NoDup (omap data_window out).
Proof.
  intros Hls Hrun Ht Hr Hsd Hh m' cur.
  destruct (fresh_run_inv len slide sliding false _ _ _ _ _ _ _ _ Hfresh Hlen Hlate Hnew Hls Hrun) as (tk & T & Hs).
  pose proof (si_red _ _ _ _ _ _ _ _ Hs) as Hred. pose proof (si_late _ _ _ _ _ _ _ _ Hs) as Hl0.
  unfold reducer_handle in Hh. rewrite Hsd, Ht in Hh. fold m' in Hh.
  assert (Hmt : m_event_time m' = m_event_time m /\ m_is_late m' = m_is_late m /\ m_watermark m' = m_watermark m)
    by (unfold m'; by destruct (keyed _)).
  clearbody m'. destruct Hmt as (Het & Hil & Hwm). rewrite <- Het, <- Hil in *.
  eapply assign_and_close_spec; try done. unfold cur. by rewrite Hwm.
Qed.

(** C37: which messages are reduced, and where. After any run, a data message is either sent to every
    window of the grid that contains its event time, once to each and to no other, or it is sent nowhere. It is
    sent when its event time is not before the watermark (its own taken into account) and, if it
    is marked late, some watermark is known. It is dropped when its event time is before the watermark
    less the allowed lateness, and when it is late and no watermark is known. *)
Theorem message_admission (ls : list RLabel) (s : ReduceSystem AlignedWindowManager)
    (outs out : list AlignedWindowMessage) (m : Message) (r' : AlignedReducer AlignedWindowManager) :
  Forall (label_ok len slide false) ls -> rrun s0 ls = Some (s, outs) ->
  m_typ m = Data -> times_in_range (timestamp_millis (m_event_time m)) len slide ->
  shutting_down_on_err (reducer s) = false -> reducer_handle (reducer s) m = Some (r', out) ->
  let m' := if keyed (reducer s) then m else set_keys m [DEFAULT_KEY_FOR_NON_KEYED_STREAM] in
  let cur := Z.max (current_watermark (reducer s)) (default (- ns_per_ms) (m_watermark m)) in
  let sent := forall x, delivered m' x out <-> grid_window len slide (timestamp_millis (m_event_time m)) x in
  let dropped := forall x, ~ delivered m' x out in
  (sent \/ dropped) /\ NoDup (omap data_window out) /\
  (cur <= m_event_time m -> (m_is_late m = true -> timestamp_millis cur <> -1) -> sent) /\
  (m_event_time m < cur - allowed_lateness (reducer s) \/ (m_is_late m = true /\ timestamp_millis cur = -1) -> dropped).
Proof.
  intros Hls Hrun Ht Hr Hsd Hh m' cur sent dropped.
  destruct (lateness_admits_none ls s outs out m r' Hls Hrun Ht Hr Hsd Hh) as [Hd Hnd]. fold m' cur in Hd.
  destruct (fresh_run_inv len slide sliding false _ _ _ _ _ _ _ _ Hfresh Hlen Hlate Hnew Hls Hrun) as (tk & T & Hs).
  pose proof (si_late _ _ _ _ _ _ _ _ Hs) as Hl0.
  assert (Hsent : cur <= m_event_time m -> (m_is_late m = true -> timestamp_millis cur <> -1) -> sent).
  { intros Hc Hk x. rewrite Hd. tauto. }
  split_and!; [|done|done|].
  - destruct (decide (cur <= m_event_time m)) as [Hc|Hc]; [|right; intros x; rewrite Hd; tauto].
    destruct (decide (m_is_late m = true /\ timestamp_millis cur = -1)) as [Hk|Hk]; [right; intros x; rewrite Hd; tauto|].
    left. apply Hsent; tauto.
  - intros [Hc|Hc] x; rewrite Hd; [lia|tauto].
Qed.

(** C28: garbage collection is safe. When a finished task lets the log forget the messages
    before an instant, every message of the past that it covers went only to windows whose
    results have been written and which are collected. For sliding windows this holds
    whatever the tasks answer; for fixed windows, when no task fails. *)
Theorem gc_events_safe (nofail : bool) (ls : list RLabel) (s : ReduceSystem AlignedWindowManager)
    (outs : list AlignedWindowMessage) :
  sliding = true \/ nofail = true ->
  Forall (label_ok len slide nofail) ls -> rrun s0 ls = Some (s, outs) ->
  forall ev, ev ∈ gc_events s -> exists g, ev = window_to_gc_event g /\
    forall m x, delivered m x outs -> m_event_time m < end_time g ->
      x ∈ closes outs /\ (x ∉ aw_active (window_manager (reducer s))) /\
      (x ∉ aw_closed (window_manager (reducer s))).
Proof.
  intros Hmode Hls Hrun ev Hev.
  destruct (fresh_run_inv len slide sliding nofail _ _ _ _ _ _ _ _ Hfresh Hlen Hlate Hnew Hls Hrun) as (tk & T & Hs).
  destruct (si_gc _ _ _ _ _ _ _ _ Hs Hmode ev Hev) as (g & -> & _ & Hsafe). exists g. split; [done|].
  intros m x Hd Hlt. destruct (Hsafe m x Hd Hlt) as [Hna Hnc]. split_and!; try done.
  destruct (ri_phase _ _ _ _ _ _ _ (si_red _ _ _ _ _ _ _ _ Hs) x) as [[? _]|[_ [Hp|[Hp _]]]]; [done| |].
  - by apply delivered_phase in Hd.
  - by apply phase_closed_closes.
Qed.

(** Once the actor has taken everything, the stream of each open window holds exactly the
    messages sent to that window, in order; and the oldest window is the one with the least
    end among those not collected, closed ones before open ones. *)
Theorem streams_and_oldest (ls : list RLabel) (s : ReduceSystem AlignedWindowManager)
    (outs : list AlignedWindowMessage) :
  Forall (label_ok len slide false) ls -> rrun s0 ls = Some (s, outs) ->
  (channel s = [] -> forall x, x ∈ aw_active (window_manager (reducer s)) ->
     active_streams s !! window_to_pnf_slot x = Some (stream_of x outs)) /\
  (forall o x, oldest_window (window_manager (reducer s)) = Some o ->
     x ∈ aw_closed (window_manager (reducer s)) \/ x ∈ aw_active (window_manager (reducer s)) ->
     end_time o <= end_time x /\ start_time o <= start_time x).
Proof.
  intros Hls Hrun.
  destruct (fresh_run_inv len slide sliding false _ _ _ _ _ _ _ _ Hfresh Hlen Hlate Hnew Hls Hrun) as (tk & T & Hs).
  pose proof (si_red _ _ _ _ _ _ _ _ Hs) as Hred. split.
  - intros Hch x Hx. pose proof (si_chan _ _ _ _ _ _ _ _ Hs) as Hc. rewrite Hch, app_nil_r in Hc. subst tk.
    apply (si_streams _ _ _ _ _ _ _ _ Hs). by destruct (ri_phase _ _ _ _ _ _ _ Hred x) as [[_ ?]|[? _]].
  - intros o x Ho Hx. destruct (oldest_inv len slide sliding _ _ _ _ o x Hred Ho Hx) as [He Hg].
    split; [done|]. apply (on_grid_order len slide); [done| |done].
    destruct Hx as [Hx|Hx]; [by apply (ri_closed _ _ _ _ _ _ _ Hred)|by apply (ri_active _ _ _ _ _ _ _ Hred)].
Qed.
End Properties.

(** * Examples *)

Definition example_data (et : Z) (wm : option Z) : Message :=
  mkMessage Data ["k"] None "v" (OInt (mkIntOffset et 0)) (et * ns_per_ms) ((fun t => t * ns_per_ms) <$> wm)
    MessageID_default ∅ None false None.

Definition example_fixed : AlignedWindowManager := Fixed (fixed_new (10 * ns_per_ms)).

Definition example_system : ReduceSystem AlignedWindowManager :=
  mkSystem (mkReducer example_fixed 0 (- ns_per_ms) true false) [] ∅ true [] 0.

Lemma example_system_new :
  @system_new chrono_utc _ example_fixed 0 true true = Some example_system.
Proof. vm_compute. reflexivity. Defined.

Lemma example_fresh : @fresh _ (@aligned_windower chrono_utc) 10 10 false example_fixed.
Proof. split_and!; try reflexivity. intros d Hd. discriminate Hd. Defined.

Definition example_labels (second_ok : bool) : list RLabel :=
  [RInput (example_data 5 None); RInput (example_data 12 (Some 3)); RInput (example_data 25 (Some 22));
   RActor true; RActor true; RActor second_ok; RActor true; RActor true].

Lemma example_msg_ok et wm : 0 <= et <= 100 -> @msg_ok chrono_utc 10 10 (example_data et wm).
Proof.
  intros He _. unfold times_in_range. simpl. rewrite Z.div_mul by done.
  unfold i64_min, i64_max, ns_per_ms. lia.
Defined.

Lemma example_labels_ok nofail ok : (nofail = true -> ok = true) ->
  Forall (@label_ok chrono_utc 10 10 nofail) (example_labels ok).
Proof. intros Hok. repeat constructor; simpl; try done; apply example_msg_ok; lia. Defined.

Definition example_outcome (ok : bool) : ReduceSystem AlignedWindowManager * list AlignedWindowMessage :=
  default (example_system, []) (@rrun chrono_utc _ (@aligned_windower chrono_utc) example_system (example_labels ok)).

Lemma example_run ok :
  @rrun chrono_utc _ (@aligned_windower chrono_utc) example_system (example_labels ok) =
  Some (example_outcome ok).
Proof. destruct ok; vm_compute; reflexivity. Defined.

Lemma window_lifecycle_witness :
  phase (window_at 10 0) (example_outcome true).2 = Some PClosed.
Proof.
  rewrite (window_lifecycle chrono_utc 10 10 false example_fixed 0 true true example_fresh eq_refl
    (Z.le_refl 0) example_system example_system_new (example_labels true)
    (example_outcome true).1 (example_outcome true).2).
  - vm_compute. reflexivity.
  - apply example_labels_ok. done.
  - rewrite example_run. by destruct (example_outcome true).
Defined.

Lemma message_admission_witness :
  exists r' out, @reducer_handle chrono_utc _ (@aligned_windower chrono_utc) (reducer (example_outcome true).1)
      (example_data 31 None) = Some (r', out) /\
    delivered (example_data 31 None) (window_at 10 30) out.
Proof.
  destruct (@reducer_handle chrono_utc _ (@aligned_windower chrono_utc) (reducer (example_outcome true).1)
      (example_data 31 None)) as [[r' out]|] eqn:E; [|vm_compute in E; discriminate E].
  exists r', out. split; [reflexivity|].
  eapply (message_admission chrono_utc 10 10 false example_fixed 0 true true example_fresh eq_refl
    (Z.le_refl 0) example_system example_system_new (example_labels true) (example_outcome true).1
    (example_outcome true).2 out (example_data 31 None) r').
  - by apply example_labels_ok.
  - rewrite example_run. by destruct (example_outcome true).
  - reflexivity.
  - apply (example_msg_ok 31 None); [lia|reflexivity].
  - reflexivity.
  - exact E.
  - vm_compute. discriminate.
  - intros Hl. simpl in Hl. discriminate Hl.
  - exists 30. split; [reflexivity|]. split; [by exists 3|]. vm_compute. split; [discriminate|reflexivity].
Defined.

(** The end of the window of an event. *)
Lemma gc_event_end x y : window_to_gc_event (H := chrono_utc) x = window_to_gc_event (H := chrono_utc) y -> end_time x = end_time y.
Proof.
  unfold window_to_gc_event, prost_timestamp_from_utc. intros [= _ _ Hs Hn]. cbn in Hs, Hn.
  assert (Hsmall : forall z, as_i32 (z mod 10 ^ 9) = z mod 10 ^ 9).
  { intros z. unfold as_i32. pose proof (Z.mod_pos_bound z (10 ^ 9)). rewrite Z.mod_small; lia. }
  rewrite !Hsmall in Hn. rewrite (Z.div_mod (end_time x) (10 ^ 9)), (Z.div_mod (end_time y) (10 ^ 9)) by done. congruence.
Qed.

(** The first event of this run, which covers the first message. *)
Definition example_gc_event : GcEvent := window_to_gc_event (H := chrono_utc) (window_at 10 0).

Lemma gc_events_safe_witness :
  exists g, example_gc_event = window_to_gc_event (H := chrono_utc) g /\
    delivered (example_data 5 None) (window_at 10 0) (example_outcome true).2 /\
    m_event_time (example_data 5 None) < end_time g /\
    (window_at 10 0 ∈ closes (example_outcome true).2) /\
    (window_at 10 0 ∉ @aw_closed _ (@aligned_windower chrono_utc) (window_manager (reducer (example_outcome true).1))).
Proof.
  destruct (gc_events_safe chrono_utc 10 10 false example_fixed 0 true true example_fresh eq_refl
    (Z.le_refl 0) example_system example_system_new true (example_labels true) (example_outcome true).1
    (example_outcome true).2) with (ev := example_gc_event) as (g & Hg & Hsafe).
  - by right.
  - by apply example_labels_ok.
  - rewrite example_run. by destruct (example_outcome true).
  - vm_compute. by left.
  - assert (Hd : delivered (example_data 5 None) (window_at 10 0) (example_outcome true).2).
    { eexists. split; [vm_compute; left|left; vm_compute; reflexivity]. }
    assert (Hlt : m_event_time (example_data 5 None) < end_time g).
    { apply gc_event_end in Hg. rewrite <- Hg. vm_compute. reflexivity. }
    destruct (Hsafe _ _ Hd Hlt) as (H1 & _ & H3). exists g. split; [exact Hg|]. by split_and!.
Defined.

Lemma streams_and_oldest_witness :
  active_streams (example_outcome true).1 !! window_to_pnf_slot (H := chrono_utc) (window_at 10 20) =
  Some (stream_of (window_at 10 20) (example_outcome true).2).
Proof.
  destruct (streams_and_oldest chrono_utc 10 10 false example_fixed 0 true true example_fresh eq_refl
    (Z.le_refl 0) example_system example_system_new (example_labels true) (example_outcome true).1
    (example_outcome true).2) as [Hst _].
  - by apply example_labels_ok.
  - rewrite example_run. by destruct (example_outcome true).
  - apply Hst; [vm_compute; reflexivity|vm_compute; by left].
Defined.

(** With fixed windows the success of every task matters. Two windows are closed together,
    the task of the first fails, the task of the second succeeds: the event written for the
    second covers the messages of the first, whose window is not collected. *)
Theorem fixed_gc_covers_failed_window :
  exists (s : ReduceSystem AlignedWindowManager) outs (g x : Window) (m : Message),
    @rrun chrono_utc _ (@aligned_windower chrono_utc) example_system (example_labels false) = Some (s, outs) /\
    window_to_gc_event (H := chrono_utc) g ∈ gc_events s /\
    delivered m x outs /\ m_event_time m < end_time g /\
    x ∈ aw_closed (AlignedWindower := @aligned_windower chrono_utc) (window_manager (reducer s)).
Proof.
  exists (example_outcome false).1, (example_outcome false).2, (window_at 10 10), (window_at 10 0),
    (example_data 5 None).
  split; [rewrite example_run; by destruct (example_outcome false)|].
  split; [vm_compute; by left|]. split; [|split; [reflexivity|vm_compute; by left]].
  exists (window_msg (H := chrono_utc) (Open (example_data 5 None) (window_at 10 0))).
  split; [vm_compute; by left|by left].
Qed.
