(* ===== verification/SessionWindow.v ===== *)
(** The windows of the unaligned reducers ([reduce/reducer/unaligned/windower.rs]) and the
    session windower ([windower/session.rs]).

    The windows of a key are a [BTreeSet] ordered by end time only, as is the set of all closed
    windows: inserting a window whose end is already present does nothing. [None] is a panic
    of a time conversion. *)
From S2P Require Import Prelude Clock Message.

(** * Windows *)

Record Window := mkWindow {
  start_time : DateTime;
  end_time : DateTime;
  keys : list string
}.

#[global] Instance Window_eq_dec : EqDecision Window.
Proof. solve_decision. Defined.

Definition SHARED_PNF_SLOT : string := "GLOBAL_SLOT".
Definition combine_keys (ks : list string) : string := String.concat ":" ks.

Inductive UnalignedWindowOperation :=
  | Open (message : Message) (window : Window)
  | Close (window : Window)
  | Append (message : Message) (window : Window)
  | Merge (windows : list Window)
  | Expand (message : Message) (windows : list Window).

Record UnalignedWindowMessage := mkWindowMessage {
  operation : UnalignedWindowOperation;
  pnf_slot : string
}.
Definition window_msg (op : UnalignedWindowOperation) : UnalignedWindowMessage :=
  mkWindowMessage op SHARED_PNF_SLOT.

Abbreviation WindowSet := (list Window) (only parsing).
Definition win_insert : Window -> WindowSet -> WindowSet := bt_insert end_time.
Definition win_remove : Window -> WindowSet -> WindowSet := bt_remove end_time.

(** * The session windower *)

Record SessionWindowManager := mkSession {
  timeout : Duration;
  active_windows : gmap string (list Window);
  closed_windows : list Window
}.

Definition session_new (timeout : Duration) : SessionWindowManager := mkSession timeout ∅ [].

Definition overlaps (w w' : Window) : bool :=
  (start_time w <? end_time w') && (start_time w' <? end_time w).

Definition find_window_to_merge (window_set : WindowSet) (window : Window) : option Window :=
  head (filter (fun existing => overlaps window existing = true) window_set).

Definition expand_window_if_needed (new_window existing_window : Window) : option Window :=
  if negb (overlaps new_window existing_window) then None
  else if (start_time existing_window <=? start_time new_window) && (end_time new_window <=? end_time existing_window)
  then None
  else Some (mkWindow (Z.min (start_time new_window) (start_time existing_window))
               (Z.max (end_time new_window) (end_time existing_window)) (keys new_window)).

Section Session.
Context `{Chrono}.

Definition session_window_of (timeout : Duration) (msg : Message) : option Window :=
  let start_time_millis := timestamp_millis (m_event_time msg) in
  let? s := from_timestamp_millis start_time_millis in
  let? e := from_timestamp_millis (wrap_i64 (start_time_millis + as_millis_i64 timeout)) in
  Some (mkWindow s e (m_keys msg)).

Definition set_windows (mgr : SessionWindowManager) (key : string) (s : WindowSet) : SessionWindowManager :=
  mkSession (timeout mgr) (<[key := s]> (active_windows mgr)) (closed_windows mgr).

Definition assign_windows (mgr : SessionWindowManager) (msg : Message)
    : option (SessionWindowManager * list UnalignedWindowMessage) :=
  let combined_key := combine_keys (m_keys msg) in
  let? new_window := session_window_of (timeout mgr) msg in
  let window_set := default [] (active_windows mgr !! combined_key) in
  Some (match find_window_to_merge window_set new_window with
        | Some existing_window =>
            match expand_window_if_needed new_window existing_window with
            | Some expanded_window =>
                (set_windows mgr combined_key (win_insert expanded_window (win_remove existing_window window_set)),
                 [window_msg (Expand msg [existing_window; expanded_window])])
            | None => (set_windows mgr combined_key window_set, [window_msg (Append msg existing_window)])
            end
        | None =>
            (set_windows mgr combined_key (win_insert new_window window_set), [window_msg (Open msg new_window)])
        end).
End Session.

(** ** Closing *)

(** [extract_if]: the windows of each key that ended, in order, and those that stay; a key
    whose windows all ended is removed. *)
Definition expired (watermark : DateTime) (s : WindowSet) : list Window :=
  filter (fun w => end_time w <= watermark) s.
Definition remaining (watermark : DateTime) (s : WindowSet) : WindowSet :=
  filter (fun w => ~ end_time w <= watermark) s.
Definition nonempty (s : list Window) : bool := match s with [] => false | _ => true end.

Definition extract_expired_windows (all_windows : gmap string (list Window)) (watermark : DateTime)
    : gmap string (list Window) * gmap string (list Window) :=
  (filter (fun ks => nonempty ks.2 = true) (remaining watermark <$> all_windows),
   filter (fun ks => nonempty ks.2 = true) (expired watermark <$> all_windows)).

(** The two nested loops, from the last window to the first: [group] is the group being built
    and [last] its span. *)
Fixpoint merge_groups (ws : list Window) (group : list Window) (last : Window) : list (list Window) :=
  match ws with
  | [] => [group]
  | w :: ws =>
      if start_time last <? end_time w
      then merge_groups ws (group ++ [w])
             (mkWindow (Z.min (start_time w) (start_time last)) (Z.max (end_time w) (end_time last)) (keys last))
      else group :: merge_groups ws [w] w
  end.
Definition windows_that_can_be_merged (windows : list Window) : list (list Window) :=
  match reverse windows with
  | [] => []
  | w :: ws => reverse (merge_groups ws [w] w)
  end.

(** [None] is the [expect] on an empty list. *)
Definition merge_windows (windows : list Window) : option (Window * UnalignedWindowMessage) :=
  let? first := head windows in
  Some (foldl (fun a w => mkWindow (Z.min (start_time a) (start_time w)) (Z.max (end_time a) (end_time w)) (keys a))
          first windows,
        window_msg (Merge windows)).

Definition try_merge_with_active (active : gmap string (list Window)) (key : string) (window : Window)
    : option (Window * gmap string (list Window)) :=
  let? window_set := active !! key in
  let? active_window := find_window_to_merge window_set window in
  let new_merged := mkWindow (Z.min (start_time window) (start_time active_window))
                      (Z.max (end_time window) (end_time active_window)) (keys window) in
  Some (active_window, <[key := win_insert new_merged (win_remove active_window window_set)]> active).

Definition move_to_closed_windows (mgr : SessionWindowManager) (window : Window) : SessionWindowManager :=
  mkSession (timeout mgr) (active_windows mgr) (win_insert window (closed_windows mgr)).

(** The end of [process_close_window_group]: merge into an active window, or close. *)
Definition close_or_merge (mgr : SessionWindowManager) (key : string) (messages : list UnalignedWindowMessage)
    (window : Window) : SessionWindowManager * list UnalignedWindowMessage :=
  match try_merge_with_active (active_windows mgr) key window with
  | Some (old_active, active') =>
      (mkSession (timeout mgr) active' (closed_windows mgr),
       messages ++ [window_msg (Merge [window; old_active])])
  | None => (move_to_closed_windows mgr window, messages ++ [window_msg (Close window)])
  end.

Definition process_close_window_group (mgr : SessionWindowManager) (key : string) (closing_group : list Window)
    : SessionWindowManager * list UnalignedWindowMessage :=
  match closing_group with
  | [] => (mgr, [])
  | [window] => close_or_merge mgr key [] window
  | _ =>
      match merge_windows closing_group with
      | Some (merged_window, initial_merge_msg) => close_or_merge mgr key [initial_merge_msg] merged_window
      | None => (mgr, [])
      end
  end.

Fixpoint process_groups (mgr : SessionWindowManager) (key : string) (groups : list (list Window))
    : SessionWindowManager * list UnalignedWindowMessage :=
  match groups with
  | [] => (mgr, [])
  | g :: groups =>
      let (mgr1, ms) := process_close_window_group mgr key g in
      let (mgr2, ms') := process_groups mgr1 key groups in (mgr2, ms ++ ms')
  end.
Definition process_closed_windows (mgr : SessionWindowManager) (key : string) (closed : list Window)
    : SessionWindowManager * list UnalignedWindowMessage :=
  process_groups mgr key (windows_that_can_be_merged closed).

Fixpoint process_keys (mgr : SessionWindowManager) (by_key : list (string * list Window))
    : SessionWindowManager * list UnalignedWindowMessage :=
  match by_key with
  | [] => (mgr, [])
  | (key, ws) :: by_key =>
      let (mgr1, ms) := process_closed_windows mgr key ws in
      let (mgr2, ms') := process_keys mgr1 by_key in (mgr2, ms ++ ms')
  end.

Definition close_windows `{HashOrder} (mgr : SessionWindowManager) (watermark : DateTime)
    : SessionWindowManager * list UnalignedWindowMessage :=
  let (active, closed_windows_by_key) := extract_expired_windows (active_windows mgr) watermark in
  process_keys (mkSession (timeout mgr) active (closed_windows mgr)) (hm_iter closed_windows_by_key).

(** ** Collection and the oldest window *)

Definition delete_window (mgr : SessionWindowManager) (window : Window) : SessionWindowManager :=
  mkSession (timeout mgr) (active_windows mgr) (win_remove window (closed_windows mgr)).

Definition oldest_window_end_time `{HashOrder} (mgr : SessionWindowManager) : option DateTime :=
  match head (closed_windows mgr) with
  | Some w => Some (end_time w)
  | None => list_min (omap (fun s => end_time <$> head s) (hm_values (active_windows mgr)))
  end.

Definition active_window_count `{HashOrder} (mgr : SessionWindowManager) : nat :=
  sum_list_with length (hm_values (active_windows mgr)).
Definition closed_window_count (mgr : SessionWindowManager) : nat := length (closed_windows mgr).

(** * Grouping *)

Definition span_of (g : list Window) (last : Window) : Prop :=
  (forall w, w ∈ g -> start_time last <= start_time w) /\ exists w, w ∈ g /\ start_time w = start_time last.

(** Every window of the group but the first meets an earlier one. *)
Definition connected (g : list Window) : Prop :=
  g <> [] /\ forall pre w post, g = pre ++ w :: post -> pre <> [] -> exists w', w' ∈ pre /\ overlaps w w' = true.

(** All of [g'] is before all of [g]. *)
Definition after (g g' : list Window) : Prop :=
  forall w w', w ∈ g -> w' ∈ g' -> end_time w' <= start_time w.

Definition win_ok (w : Window) : Prop := start_time w < end_time w.
Definition ends_down (w w' : Window) : Prop := end_time w' < end_time w.

Lemma connected_snoc g w :
  connected g -> (exists w', w' ∈ g /\ overlaps w w' = true) -> connected (g ++ [w]).
Proof.
  intros [Hne Hc] Hw. split; [by destruct g|]. intros pre x post Heq Hpre.
  destruct (decide (post = [])) as [->|Hp].
  - apply app_inj_tail in Heq as [-> ->]. done.
  - destruct (exists_last Hp) as (post' & z & ->).
    rewrite app_comm_cons, app_assoc in Heq. apply app_inj_tail in Heq as [-> _]. by eapply Hc.
Qed.

Lemma connected_singleton w : connected [w].
Proof.
  split; [done|]. intros [|x pre] y post Heq Hpre; [done|]. by destruct pre.
Qed.

Lemma merge_groups_spec ws group last :
  StronglySorted ends_down (group ++ ws) -> Forall win_ok (group ++ ws) ->
  span_of group last -> connected group ->
  concat (merge_groups ws group last) = group ++ ws /\
  Forall connected (merge_groups ws group last) /\
  StronglySorted after (merge_groups ws group last).
Proof.
  revert group last. induction ws as [|w ws IH]; intros group last Hs Hok Hspan Hc; cbn [merge_groups].
  { simpl. rewrite !app_nil_r in *. split_and!; [done|by constructor|repeat constructor]. }
  pose proof Hspan as [Hmin (w0 & Hw0 & Hw0s)].
  assert (Hdown : forall x, x ∈ group -> end_time w < end_time x).
  { intros x Hx. apply (StronglySorted_app_1_elem_of ends_down group (w :: ws) x w Hs Hx). by left. }
  assert (Hwok : win_ok w) by (rewrite Forall_forall in Hok; apply Hok, elem_of_app; right; by left).
  destruct (Z.ltb_spec (start_time last) (end_time w)) as [Hlt|Hge].
  - destruct (IH (group ++ [w]) (mkWindow (Z.min (start_time w) (start_time last))
      (Z.max (end_time w) (end_time last)) (keys last))) as (E & Hcs & Hss).
    + by rewrite <- app_assoc.
    + by rewrite <- app_assoc.
    + split; simpl.
      * intros x [Hx| ->%list_elem_of_singleton]%elem_of_app; [apply Hmin in Hx|]; lia.
      * destruct (Z.min_spec (start_time w) (start_time last)) as [[_ ->]|[_ ->]].
        -- exists w. split; [apply elem_of_app; right; by left|done].
        -- exists w0. split; [apply elem_of_app; by left|done].
    + apply connected_snoc; [done|]. exists w0. split; [done|]. unfold overlaps, win_ok in *.
      specialize (Hdown w0 Hw0). apply andb_true_iff. split; apply Z.ltb_lt; lia.
    + rewrite <- app_assoc in E. done.
  - assert (Hs' : StronglySorted ends_down (w :: ws)) by (by apply StronglySorted_app_1_r in Hs).
    destruct (IH [w] w) as (E & Hcs & Hss).
    + done.
    + apply Forall_app in Hok. tauto.
    + split; [by intros x ->%list_elem_of_singleton|]. exists w. split; [by left|done].
    + apply connected_singleton.
    + cbn [concat]. rewrite E. split_and!; [done|by constructor|]. constructor; [done|].
      apply Forall_forall. intros g' Hg' x y Hx Hy.
      assert (Hyw : y ∈ w :: ws).
      { change (w :: ws) with ([w] ++ ws). rewrite <- E. apply list_elem_of_In, in_concat.
        exists g'. split; by apply list_elem_of_In. }
      apply Hmin in Hx. assert (end_time y <= end_time w); [|lia].
      apply elem_of_cons in Hyw as [->|Hyw]; [done|].
      apply StronglySorted_inv in Hs' as [_ Hall]. rewrite Forall_forall in Hall. apply Z.lt_le_incl, Hall, Hyw.
Qed.

Lemma reverse_sorted {A} (R : A -> A -> Prop) (ws : list A) :
  StronglySorted R ws -> StronglySorted (flip R) (reverse ws).
Proof.
  induction 1 as [|w ws _ IH Hw]; [constructor|]. rewrite reverse_cons.
  apply StronglySorted_app_2; [|done|repeat constructor].
  intros x y Hx ->%list_elem_of_singleton. rewrite Forall_forall in Hw. apply Hw. by apply elem_of_reverse.
Qed.

Lemma concat_reverse (gs : list (list Window)) : concat (reverse <$> reverse gs) = reverse (concat gs).
Proof.
  induction gs as [|g gs IH]; [done|].
  rewrite reverse_cons, fmap_app, concat_app, IH. simpl. by rewrite app_nil_r, reverse_app.
Qed.

Lemma groups_spec ws :
  bt_sorted end_time ws -> Forall win_ok ws ->
  concat (reverse <$> windows_that_can_be_merged ws) = ws /\
  Forall connected (windows_that_can_be_merged ws) /\
  StronglySorted (flip after) (windows_that_can_be_merged ws).
Proof.
  intros Hs Hok. unfold windows_that_can_be_merged. pose proof (reverse_sorted _ _ Hs) as Hr.
  assert (Hok' : Forall win_ok (reverse ws)).
  { apply Forall_forall. intros x Hx. rewrite Forall_forall in Hok. apply Hok. by apply elem_of_reverse. }
  destruct (reverse ws) as [|w rs] eqn:E.
  { apply (f_equal reverse) in E. rewrite reverse_involutive in E. subst. split_and!; constructor. }
  destruct (merge_groups_spec rs [w] w) as (Ec & Hc & Hss); [done|done| |apply connected_singleton|].
  { split; [by intros x ->%list_elem_of_singleton|]. exists w. split; [by left|done]. }
  split_and!.
  - rewrite concat_reverse, Ec. change ([w] ++ rs) with (w :: rs). rewrite <- E. apply reverse_involutive.
  - apply Forall_forall. intros g Hg. rewrite Forall_forall in Hc. apply Hc. by apply elem_of_reverse.
  - by apply reverse_sorted.
Qed.

(** * Closing *)

Definition covers (w' w : Window) : Prop := start_time w' <= start_time w /\ end_time w <= end_time w'.

#[global] Instance covers_refl : Reflexive covers.
Proof. intros w. unfold covers. lia. Qed.
#[global] Instance covers_trans : Transitive covers.
Proof. intros a b c. unfold covers. lia. Qed.

Definition close_of (m : UnalignedWindowMessage) : option Window :=
  match operation m with Close w => Some w | _ => None end.
Definition closes (ms : list UnalignedWindowMessage) : list Window := omap close_of ms.

Definition windows_of (mgr : SessionWindowManager) (key : string) : list Window :=
  default [] (active_windows mgr !! key).

Record set_ok (key : string) (s : list Window) : Prop := {
  so_sorted : bt_sorted end_time s;
  so_ok : forall w, w ∈ s -> win_ok w;
  so_key : forall w, w ∈ s -> combine_keys (keys w) = key
}.

Definition above (wm : DateTime) (s : list Window) : Prop := forall w, w ∈ s -> wm < end_time w.
Definition until (U : DateTime) (s : list Window) : Prop := forall w, w ∈ s -> end_time w <= U.
Definition from (L : DateTime) (s : list Window) : Prop := forall w, w ∈ s -> L <= start_time w.

(** The windows of a group, each of one key and ended. *)
Definition group_ok (key : string) (wm : DateTime) (g : list Window) : Prop :=
  g <> [] /\ forall w, w ∈ g -> win_ok w /\ end_time w <= wm /\ combine_keys (keys w) = key.

Lemma group_hull key wm g first :
  (forall w, w ∈ g -> win_ok w /\ end_time w <= wm /\ combine_keys (keys w) = key) ->
  win_ok first -> end_time first <= wm -> combine_keys (keys first) = key ->
  let c := foldl (fun a w => mkWindow (Z.min (start_time a) (start_time w)) (Z.max (end_time a) (end_time w)) (keys a))
    first g in
  win_ok c /\ end_time c <= wm /\ combine_keys (keys c) = key /\ covers c first /\
  (forall w, w ∈ g -> covers c w) /\ (forall L, from L g -> L <= start_time first -> L <= start_time c) /\
  (forall U, until U g -> end_time first <= U -> end_time c <= U).
Proof.
  revert first. induction g as [|w g IH]; intros first Hg Hf He Hk; simpl.
  { split_and!; try done. by intros w ?%elem_of_nil. }
  destruct (Hg w) as (Hw & Hwe & Hwk); [by left|]. unfold win_ok in *.
  edestruct (IH (mkWindow (Z.min (start_time first) (start_time w)) (Z.max (end_time first) (end_time w)) (keys first)))
    as (H1 & H2 & H3 & H4 & H5 & H6 & H7); simpl; [intros; apply Hg; by right|lia|lia|done|].
  unfold covers in *. simpl in *. split_and!; try done; try lia.
  - intros x [->|Hx]%elem_of_cons; [lia|by apply H5].
  - intros L HL Hlf. apply H6; [intros x Hx; apply HL; by right|]. 
    assert (L <= start_time w) by (apply HL; by left). simpl. lia.
  - intros U HU Huf. apply H7; [intros x Hx; apply HU; by right|].
    assert (end_time w <= U) by (apply HU; by left). simpl. lia.
Qed.

Lemma process_group_as_close mgr key wm g :
  group_ok key wm g ->
  exists pre c, process_close_window_group mgr key g = close_or_merge mgr key pre c /\ closes pre = [] /\
    win_ok c /\ end_time c <= wm /\ combine_keys (keys c) = key /\
    (forall w, w ∈ g -> covers c w) /\ (forall L, from L g -> L <= start_time c) /\
    (forall U, until U g -> end_time c <= U).
Proof.
  intros [Hne Hg]. destruct g as [|w [|w' g]]; [done| |].
  - destruct (Hg w) as (? & ? & ?); [by left|]. exists [], w. split_and!; try done.
    + by intros x ->%list_elem_of_singleton.
    + intros L HL. apply HL. by left.
    + intros U HU. apply HU. by left.
  - destruct (Hg w) as (? & ? & ?); [by left|].
    destruct (group_hull key wm (w :: w' :: g) w) as (G1 & G2 & G3 & G4 & G5 & G6 & G7); [done..|].
    eexists [window_msg (Merge (w :: w' :: g))], _. split; [reflexivity|]. split_and!; try done.
    + intros L HL. apply G6; [done|]. apply HL. by left.
    + intros U HU. apply G7; [done|]. apply HU. by left.
Qed.

Lemma find_window_spec s w :
  match find_window_to_merge s w with
  | Some a => a ∈ s /\ overlaps w a = true
  | None => forall a, a ∈ s -> overlaps w a = false
  end.
Proof.
  unfold find_window_to_merge. destruct (filter _ s) as [|a l] eqn:E; simpl.
  - intros a Ha. destruct (overlaps w a) eqn:Eo; [|done].
    assert (Hin : a ∈ filter (fun e => overlaps w e = true) s) by (by apply list_elem_of_filter).
    rewrite E in Hin. by apply elem_of_nil in Hin.
  - assert (Hin : a ∈ filter (fun e => overlaps w e = true) s) by (rewrite E; by left).
    apply list_elem_of_filter in Hin. tauto.
Qed.

(** The end of a window determines it within a set. *)
Lemma same_end s a w : bt_sorted end_time s -> a ∈ s -> w ∈ s -> end_time w = end_time a -> w = a.
Proof.
  intros Hs Ha Hw E. unfold bt_sorted in Hs. induction Hs as [|x s _ IH Hx]; [by apply elem_of_nil in Hw|].
  rewrite Forall_forall in Hx. apply elem_of_cons in Hw, Ha. unfold bt_lt in Hx.
  destruct Hw as [->|Hw], Ha as [->|Ha]; auto; [apply Hx in Ha|apply Hx in Hw]; lia.
Qed.

(** A window that ended is put into an active one that it meets. *)
Lemma merge_into_active key wm s c a :
  set_ok key s -> above wm s -> win_ok c -> end_time c <= wm -> combine_keys (keys c) = key ->
  a ∈ s -> overlaps c a = true ->
  let new := mkWindow (Z.min (start_time c) (start_time a)) (Z.max (end_time c) (end_time a)) (keys c) in
  let s' := win_insert new (win_remove a s) in
  set_ok key s' /\ above wm s' /\ new ∈ s' /\ covers new c /\ covers new a /\
  (forall w, w ∈ s -> exists w', w' ∈ s' /\ covers w' w) /\
  (forall L, from L s -> L <= start_time c -> from L s') /\
  (forall w, w ∈ s' -> exists w0, w0 ∈ s /\ end_time w0 = end_time w).
Proof.
  intros [Hs Hok Hk] Hab Hc He Hkc Ha Hov new s'.
  assert (Hae : end_time new = end_time a) by (specialize (Hab a Ha); simpl; lia).
  assert (Hel : forall w, w ∈ s' <-> (w ∈ s /\ end_time w <> end_time a) \/ w = new).
  { intros w. unfold s', win_insert, win_remove. rewrite bt_insert_elem by by apply bt_remove_sorted.
    rewrite bt_remove_elem by done. split; [tauto|]. intros [?| ->]; [tauto|]. right. split; [done|].
    intros z [_ Hz]%bt_remove_elem; [|done]. congruence. }
  assert (Hcov : covers new c /\ covers new a) by (unfold covers; simpl; lia).
  split_and!; try tauto.
  - split.
    + by apply bt_insert_sorted, bt_remove_sorted.
    + intros w [[Hw _]| ->]%Hel; [by apply Hok|]. specialize (Hok a Ha). unfold win_ok in *. simpl. lia.
    + intros w [[Hw _]| ->]%Hel; [by apply Hk|done].
  - intros w [[Hw _]| ->]%Hel; [by apply Hab|]. rewrite Hae. by apply Hab.
  - apply Hel. by right.
  - intros w Hw. destruct (decide (end_time w = end_time a)) as [E|E].
    + rewrite (same_end s a w) by done. exists new. split; [apply Hel; by right|tauto].
    + exists w. split; [apply Hel; by left|done].
  - intros L HL Hlc w [[Hw _]| ->]%Hel; [by apply HL|]. specialize (HL a Ha). simpl. lia.
  - intros w [[Hw _]| ->]%Hel; [by exists w|by exists a].
Qed.

(** What closing does to one key. *)
Record closed_key (key : string) (wm : DateTime) (s : list Window) (gone : list Window) (s' : list Window)
    (cs : list Window) : Prop := {
  ck_ok : set_ok key s';
  ck_above : above wm s';
  ck_kept : forall w, w ∈ s -> exists w', w' ∈ s' /\ covers w' w;
  ck_gone : forall w, w ∈ gone -> (exists w', w' ∈ s' /\ covers w' w) \/ (exists c, c ∈ cs /\ covers c w);
  ck_closes : forall c, c ∈ cs -> win_ok c /\ end_time c <= wm /\ combine_keys (keys c) = key /\ from (end_time c) s';
  ck_apart : StronglySorted (fun c c' => end_time c <= start_time c') cs;
  ck_from : forall L, from L gone -> from L cs /\ (from L s -> from L s');
  ck_until : forall U, until U gone -> until U cs;
  ck_ends : forall w, w ∈ s' -> exists w0, w0 ∈ s /\ end_time w0 = end_time w
}.

Lemma session_closes_app ms ms' : closes (ms ++ ms') = closes ms ++ closes ms'.
Proof. apply omap_app. Qed.

Lemma close_or_merge_spec mgr key wm pre c g :
  set_ok key (windows_of mgr key) -> above wm (windows_of mgr key) -> closes pre = [] ->
  win_ok c -> end_time c <= wm -> combine_keys (keys c) = key ->
  (forall w, w ∈ g -> covers c w) -> (forall L, from L g -> L <= start_time c) ->
  (forall U, until U g -> end_time c <= U) ->
  let r := close_or_merge mgr key pre c in
  closed_key key wm (windows_of mgr key) g (windows_of r.1 key) (closes r.2) /\
  (forall k, k <> key -> active_windows r.1 !! k = active_windows mgr !! k) /\
  (is_Some (active_windows r.1 !! key) <-> is_Some (active_windows mgr !! key)) /\ timeout r.1 = timeout mgr.
Proof.
  intros Hs Hab Hpre Hc He Hk Hg HL HU r. unfold r, close_or_merge, try_merge_with_active.
  unfold windows_of in *. destruct (active_windows mgr !! key) as [s|] eqn:Es; simpl in *.
  - pose proof (find_window_spec s c) as Hf. destruct (find_window_to_merge s c) as [a|]; simpl.
    + destruct Hf as [Ha Hov].
      destruct (merge_into_active key wm s c a Hs Hab Hc He Hk Ha Hov) as (M1 & M2 & M3 & M4 & M5 & M6 & M7 & M8).
      rewrite lookup_insert_eq, session_closes_app, Hpre. simpl. split; [|split_and!].
      * split; try done; [|by intros ? ?%elem_of_nil|constructor| |by intros ? _ ? ?%elem_of_nil].
        -- intros w Hw. left. eexists. split; [exact M3|]. etrans; [exact M4|]. by apply Hg.
        -- intros L HLg. split; [by intros ? ?%elem_of_nil|]. intros HLs. apply M7; [done|by apply HL].
      * intros k Hne. by rewrite lookup_insert_ne.
      * by split.
      * done.
    + unfold move_to_closed_windows. simpl. rewrite Es, session_closes_app, Hpre. simpl. split; [|split_and!; done].
      assert (Hfrom : from (end_time c) s).
      { intros w Hw. specialize (Hf w Hw). specialize (Hab w Hw). unfold overlaps, win_ok in *.
        apply andb_false_iff in Hf as [Hf|Hf]; apply Z.ltb_ge in Hf; lia. }
      split; try done.
      * intros w Hw. by exists w.
      * intros w Hw. right. exists c. split; [by left|by apply Hg].
      * intros c' ->%list_elem_of_singleton. done.
      * repeat constructor.
      * intros L HLg. split; [|done]. intros c' ->%list_elem_of_singleton. by apply HL.
      * intros U HUg c' ->%list_elem_of_singleton. by apply HU.
      * intros w Hw. by exists w.
  - unfold move_to_closed_windows. simpl. rewrite Es, session_closes_app, Hpre. simpl. split; [|split_and!; done].
    split; try done.
    + by intros w ?%elem_of_nil.
    + intros w Hw. right. exists c. split; [by left|by apply Hg].
    + intros c' ->%list_elem_of_singleton. split_and!; try done. by intros w ?%elem_of_nil.
    + repeat constructor.
    + intros L HLg. split; [|done]. intros c' ->%list_elem_of_singleton. by apply HL.
    + intros U HUg c' ->%list_elem_of_singleton. by apply HU.
    + by intros w ?%elem_of_nil.
Qed.

(** Closing some windows, then others that are all later. *)
Lemma closed_key_app key wm s g1 s1 cs1 g2 s2 cs2 :
  closed_key key wm s g1 s1 cs1 -> closed_key key wm s1 g2 s2 cs2 ->
  (forall w w', w ∈ g1 -> w' ∈ g2 -> end_time w <= start_time w') ->
  closed_key key wm s (g1 ++ g2) s2 (cs1 ++ cs2).
Proof.
  intros K1 K2 Hlt.
  assert (Hlater : forall c, c ∈ cs1 -> from (end_time c) g2).
  { intros c Hc w Hw. apply (ck_until _ _ _ _ _ _ K1 (start_time w)); [|done]. intros x Hx. by apply Hlt. }
  assert (Hup : forall w, (exists w', w' ∈ s1 /\ covers w' w) -> exists w', w' ∈ s2 /\ covers w' w).
  { intros w (w' & Hw' & Hc). destruct (ck_kept _ _ _ _ _ _ K2 w' Hw') as (w2 & Hw2 & Hc2).
    exists w2. split; [done|]. by etrans. }
  split.
  - apply K2.
  - apply K2.
  - intros w Hw. by apply Hup, (ck_kept _ _ _ _ _ _ K1).
  - intros w [Hw|Hw]%elem_of_app.
    + destruct (ck_gone _ _ _ _ _ _ K1 w Hw) as [?|(c & Hc & Hcv)]; [left; by apply Hup|].
      right. exists c. split; [apply elem_of_app; by left|done].
    + destruct (ck_gone _ _ _ _ _ _ K2 w Hw) as [?|(c & Hc & Hcv)]; [by left|].
      right. exists c. split; [apply elem_of_app; by right|done].
  - intros c [Hc|Hc]%elem_of_app; [|by apply (ck_closes _ _ _ _ _ _ K2)].
    destruct (ck_closes _ _ _ _ _ _ K1 c Hc) as (? & ? & ? & Hfr). split_and!; try done.
    by apply (ck_from _ _ _ _ _ _ K2); [apply Hlater|].
  - apply StronglySorted_app_2; [|apply K1|apply K2]. intros c c' Hc Hc'.
    destruct (ck_from _ _ _ _ _ _ K2 (end_time c)) as [Hfr _]; [by apply Hlater|]. by apply Hfr.
  - intros L HL. assert (HL1 : from L g1) by (intros w Hw; apply HL, elem_of_app; by left).
    assert (HL2 : from L g2) by (intros w Hw; apply HL, elem_of_app; by right).
    destruct (ck_from _ _ _ _ _ _ K1 L HL1) as [A1 A2], (ck_from _ _ _ _ _ _ K2 L HL2) as [B1 B2].
    split; [|auto]. intros c [Hc|Hc]%elem_of_app; auto.
  - intros U HU c [Hc|Hc]%elem_of_app; [eapply (ck_until _ _ _ _ _ _ K1)|eapply (ck_until _ _ _ _ _ _ K2)]; try done;
      intros w Hw; apply HU, elem_of_app; auto.
  - intros w (w1 & Hw1 & E1)%(ck_ends _ _ _ _ _ _ K2). apply (ck_ends _ _ _ _ _ _ K1) in Hw1 as (w0 & Hw0 & E0).
    exists w0. split; [done|congruence].
Qed.

Lemma process_groups_spec key wm groups mgr :
  set_ok key (windows_of mgr key) -> above wm (windows_of mgr key) ->
  Forall (group_ok key wm) groups -> StronglySorted (flip after) groups ->
  let r := process_groups mgr key groups in
  closed_key key wm (windows_of mgr key) (concat groups) (windows_of r.1 key) (closes r.2) /\
  (forall k, k <> key -> active_windows r.1 !! k = active_windows mgr !! k) /\
  (is_Some (active_windows r.1 !! key) <-> is_Some (active_windows mgr !! key)) /\ timeout r.1 = timeout mgr.
Proof.
  revert mgr. induction groups as [|g groups IH]; intros mgr Hs Hab Hok Hso; cbn [process_groups].
  { split; [|done]. split; simpl; try done.
    - intros w Hw. by exists w.
    - by intros w ?%elem_of_nil.
    - by intros w ?%elem_of_nil.
    - constructor.
    - intros w Hw. by exists w. }
  apply Forall_cons in Hok as [Hg Hok]. apply StronglySorted_inv in Hso as [Hso Haft].
  destruct (process_group_as_close mgr key wm g Hg) as (pre & c & Ep & Hpre & Hc & Hce & Hck & Hcov & HcL & HcU).
  rewrite Ep.
  destruct (close_or_merge_spec mgr key wm pre c g Hs Hab Hpre Hc Hce Hck Hcov HcL HcU) as (K1 & Hoth1 & Hdom1 & Ht1).
  destruct (close_or_merge mgr key pre c) as [mgr1 ms1]. cbn [fst snd] in *.
  destruct (IH mgr1 (ck_ok _ _ _ _ _ _ K1) (ck_above _ _ _ _ _ _ K1) Hok Hso) as (K2 & Hoth2 & Hdom2 & Ht2).
  destruct (process_groups mgr1 key groups) as [mgr2 ms2]. cbn [fst snd] in *.
  split; [|split_and!].
  - rewrite session_closes_app. eapply closed_key_app; [exact K1|exact K2|].
    intros w w' Hw Hw'. apply list_elem_of_In, in_concat in Hw' as (g' & Hg' & Hw'%list_elem_of_In).
    rewrite Forall_forall in Haft. apply (Haft g'); [by apply list_elem_of_In|done..].
  - intros k Hne. by rewrite Hoth2, Hoth1.
  - by rewrite Hdom2, Hdom1.
  - congruence.
Qed.

Lemma closed_key_ext key wm s g g' s' cs :
  (forall w, w ∈ g <-> w ∈ g') -> closed_key key wm s g s' cs -> closed_key key wm s g' s' cs.
Proof.
  intros Hg [? ? ? Hgone ? ? Hfr Hun ?]. split; try done.
  - intros w Hw%Hg. by apply Hgone.
  - intros L HL. apply Hfr. intros w Hw%Hg. by apply HL.
  - intros U HU. apply Hun. intros w Hw%Hg. by apply HU.
Qed.

Lemma process_closed_spec key wm mgr ws :
  set_ok key (windows_of mgr key) -> above wm (windows_of mgr key) -> set_ok key ws -> until wm ws ->
  let r := process_closed_windows mgr key ws in
  closed_key key wm (windows_of mgr key) ws (windows_of r.1 key) (closes r.2) /\
  (forall k, k <> key -> active_windows r.1 !! k = active_windows mgr !! k) /\
  (is_Some (active_windows r.1 !! key) <-> is_Some (active_windows mgr !! key)) /\ timeout r.1 = timeout mgr.
Proof.
  intros Hs Hab [Hso Hok Hkey] Hun r. unfold r, process_closed_windows.
  destruct (groups_spec ws) as (Ec & Hcon & Haft); [done|by apply Forall_forall|].
  assert (Hel : forall w, w ∈ concat (windows_that_can_be_merged ws) <-> w ∈ ws).
  { intros w. rewrite <- Ec at 2. rewrite !list_elem_of_In, !in_concat. split.
    - intros (g & Hg & Hw). exists (reverse g). split.
      { apply list_elem_of_In, list_elem_of_fmap. exists g. split; [done|by apply list_elem_of_In]. }
      apply list_elem_of_In, elem_of_reverse. by apply list_elem_of_In.
    - intros (g & Hg%list_elem_of_In & Hw%list_elem_of_In). apply list_elem_of_fmap in Hg as (g' & -> & Hg).
      rewrite elem_of_reverse in Hw. exists g'. split; [apply list_elem_of_In; exact Hg|apply list_elem_of_In; exact Hw]. }
  destruct (process_groups_spec key wm (windows_that_can_be_merged ws) mgr) as (K & Hrest); [done|done| |done|].
  { apply Forall_forall. intros g Hg. rewrite Forall_forall in Hcon. destruct (Hcon g Hg) as [Hne _]. split; [done|].
    intros w Hw. assert (Hws : w ∈ ws).
    { apply Hel, list_elem_of_In, in_concat. exists g. split; by apply list_elem_of_In. }
    split_and!; [by apply Hok|by apply Hun|by apply Hkey]. }
  split; [|done]. by eapply closed_key_ext.
Qed.

Definition of_key (k : string) (cs : list Window) : list Window := filter (fun c => combine_keys (keys c) = k) cs.

Lemma of_key_all k cs : (forall c, c ∈ cs -> combine_keys (keys c) = k) -> of_key k cs = cs.
Proof.
  unfold of_key. induction cs as [|c cs IH]; intros Hk; [done|]. rewrite filter_cons, decide_True by (apply Hk; by left).
  f_equal. apply IH. intros; apply Hk; by right.
Qed.
Lemma of_key_none k cs : (forall c, c ∈ cs -> combine_keys (keys c) <> k) -> of_key k cs = [].
Proof.
  unfold of_key. induction cs as [|c cs IH]; intros Hk; [done|]. rewrite filter_cons, decide_False by (apply Hk; by left).
  apply IH. intros; apply Hk; by right.
Qed.

Lemma process_keys_spec wm by_key mgr :
  NoDup by_key.*1 -> (forall k ws, (k, ws) ∈ by_key -> set_ok k ws /\ until wm ws) ->
  (forall k, set_ok k (windows_of mgr k) /\ above wm (windows_of mgr k)) ->
  let r := process_keys mgr by_key in
  (forall k, closed_key k wm (windows_of mgr k) (default [] ((list_to_map by_key : gmap string (list Window)) !! k))
    (windows_of r.1 k) (of_key k (closes r.2))) /\
  (forall k, is_Some (active_windows r.1 !! k) <-> is_Some (active_windows mgr !! k)) /\ timeout r.1 = timeout mgr.
Proof.
  revert mgr. induction by_key as [|[key ws] by_key IH]; intros mgr Hnd Hks Hset; cbn [process_keys].
  { split_and!; try done. intros k. destruct (Hset k) as [Hs Hab]. change (list_to_map [] : gmap string (list Window)) with (∅ : gmap string (list Window)). rewrite lookup_empty. simpl. split; try done.
    - intros w Hw. by exists w.
    - by intros w ?%elem_of_nil.
    - by intros w ?%elem_of_nil.
    - constructor.
    - intros w Hw. by exists w. }
  apply NoDup_cons in Hnd as [Hkey Hnd]. destruct (Hset key) as [Hs Hab], (Hks key ws) as [Hws Hun]; [by left|].
  destruct (process_closed_spec key wm mgr ws Hs Hab Hws Hun) as (K1 & Hoth & Hdom & Ht).
  destruct (process_closed_windows mgr key ws) as [mgr1 ms1]. cbn [fst snd] in *.
  assert (Hset1 : forall k, set_ok k (windows_of mgr1 k) /\ above wm (windows_of mgr1 k)).
  { intros k. destruct (decide (k = key)) as [->|Hne]; [split; apply K1|]. unfold windows_of. rewrite Hoth by done. apply Hset. }
  destruct (IH mgr1 Hnd ltac:(intros; apply Hks; by right) Hset1) as (K2 & Hdom2 & Ht2).
  destruct (process_keys mgr1 by_key) as [mgr2 ms2]. cbn [fst snd] in *.
  assert (Hck : forall c, c ∈ closes ms1 -> combine_keys (keys c) = key).
  { intros c Hc. by destruct (ck_closes _ _ _ _ _ _ K1 c Hc) as (_ & _ & ? & _). }
  split_and!; [| |congruence].
  - intros k. unfold of_key. rewrite session_closes_app, filter_app. fold (of_key k (closes ms1)) (of_key k (closes ms2)).
    specialize (K2 k). cbn [list_to_map foldr]. destruct (decide (k = key)) as [->|Hne].
    + rewrite lookup_insert_eq, of_key_all by done. simpl. rewrite <- (app_nil_r ws).
      rewrite not_elem_of_list_to_map_1 in K2 by done.
      eapply closed_key_app; [exact K1|exact K2|by intros ? ? _ ?%elem_of_nil].
    + rewrite lookup_insert_ne, of_key_none by (done || intros c Hc; rewrite (Hck c Hc); done).
      unfold windows_of in K2 |- *. by rewrite Hoth in K2 by done.
  - intros k. rewrite Hdom2. destruct (decide (k = key)) as [->|Hne]; [done|]. by rewrite Hoth.
Qed.

(** ** The set of closed windows *)

Record closed_grows (mgr : SessionWindowManager) (mgr' : SessionWindowManager) (cs : list Window) : Prop := {
  cg_sorted : bt_sorted end_time (closed_windows mgr) -> bt_sorted end_time (closed_windows mgr');
  cg_old : forall w, w ∈ closed_windows mgr -> w ∈ closed_windows mgr';
  cg_new : forall w, w ∈ closed_windows mgr' -> w ∈ closed_windows mgr \/ w ∈ cs;
  cg_end : forall c, c ∈ cs -> exists w, w ∈ closed_windows mgr' /\ end_time w = end_time c
}.

Lemma closed_grows_nil mgr mgr' : closed_windows mgr' = closed_windows mgr -> closed_grows mgr mgr' [].
Proof. intros E. split; rewrite ?E; auto. by intros c ?%elem_of_nil. Qed.

Lemma closed_grows_app m m1 m2 cs1 cs2 :
  closed_grows m m1 cs1 -> closed_grows m1 m2 cs2 -> closed_grows m m2 (cs1 ++ cs2).
Proof.
  intros [A1 A2 A3 A4] [B1 B2 B3 B4]. split; auto.
  - intros w Hw. rewrite elem_of_app. destruct (B3 w Hw) as [Hx|?]; [|auto]. destruct (A3 w Hx); auto.
  - intros c [Hc|Hc]%elem_of_app; [|auto]. destruct (A4 c Hc) as (w & Hw & E). eauto.
Qed.

Lemma bt_insert_end w s : exists x, x ∈ win_insert w s /\ end_time x = end_time w.
Proof.
  unfold win_insert. induction s as [|y s IH]; simpl; [exists w; split; [by left|done]|].
  destruct (Z.compare_spec (end_time w) (end_time y)) as [E|E|E].
  - exists y. split; [by left|done].
  - exists w. split; [by left|done].
  - destruct IH as (x & Hx & Ex). exists x. split; [by right|done].
Qed.

Lemma close_or_merge_grows mgr key pre c :
  closes pre = [] -> closed_grows mgr (close_or_merge mgr key pre c).1 (closes (close_or_merge mgr key pre c).2).
Proof.
  intros Hpre. unfold close_or_merge. destruct (try_merge_with_active _ _ _) as [[old act]|]; simpl.
  - rewrite session_closes_app, Hpre. simpl. by apply closed_grows_nil.
  - rewrite session_closes_app, Hpre. simpl. split; simpl.
    + intros Hs. by apply bt_insert_sorted.
    + intros w Hw. by apply bt_insert_old.
    + intros w [->|Hw]%bt_insert_elem_inv; [right; by left|by left].
    + intros c' ->%list_elem_of_singleton. apply bt_insert_end.
Qed.

Lemma process_group_grows mgr key g :
  closed_grows mgr (process_close_window_group mgr key g).1 (closes (process_close_window_group mgr key g).2).
Proof.
  destruct g as [|w [|w' g]]; simpl; [by apply closed_grows_nil| |]; by apply close_or_merge_grows.
Qed.

Lemma process_groups_grows mgr key groups :
  closed_grows mgr (process_groups mgr key groups).1 (closes (process_groups mgr key groups).2).
Proof.
  revert mgr. induction groups as [|g groups IH]; intros mgr; cbn [process_groups]; [by apply closed_grows_nil|].
  pose proof (process_group_grows mgr key g) as H1. destruct (process_close_window_group mgr key g) as [m1 ms1].
  specialize (IH m1). destruct (process_groups m1 key groups) as [m2 ms2]. cbn [fst snd] in *.
  rewrite session_closes_app. by eapply closed_grows_app.
Qed.

Lemma process_keys_grows mgr by_key :
  closed_grows mgr (process_keys mgr by_key).1 (closes (process_keys mgr by_key).2).
Proof.
  revert mgr. induction by_key as [|[key ws] by_key IH]; intros mgr; cbn [process_keys]; [by apply closed_grows_nil|].
  pose proof (process_groups_grows mgr key (windows_that_can_be_merged ws)) as H1.
  fold (process_closed_windows mgr key ws) in H1. destruct (process_closed_windows mgr key ws) as [m1 ms1].
  specialize (IH m1). destruct (process_keys m1 by_key) as [m2 ms2]. cbn [fst snd] in *.
  rewrite session_closes_app. by eapply closed_grows_app.
Qed.

(** * Properties *)

(** The windows of a key are not empty, sorted by end, each of positive length and of the key. *)
Record session_wf (mgr : SessionWindowManager) : Prop := {
  sw_active : forall k s, active_windows mgr !! k = Some s -> s <> [] /\ set_ok k s;
  sw_closed : bt_sorted end_time (closed_windows mgr)
}.

Lemma set_ok_nil k : set_ok k [].
Proof. split; [constructor|by intros ? ?%elem_of_nil..]. Qed.
Lemma set_ok_filter k s (P : Window -> Prop) `{forall w, Decision (P w)} : set_ok k s -> set_ok k (filter P s).
Proof.
  intros [Hs Hok Hk]. split; [by apply bt_filter_sorted|..]; intros w [_ Hw]%list_elem_of_filter; auto.
Qed.

Lemma windows_of_wf mgr k : session_wf mgr -> set_ok k (windows_of mgr k).
Proof.
  intros Hw. unfold windows_of. destruct (active_windows mgr !! k) as [s|] eqn:E; [|apply set_ok_nil].
  by apply (sw_active _ Hw).
Qed.

Lemma lookup_nonempty (f : list Window -> list Window) (m : gmap string (list Window)) k :
  f [] = [] -> default [] (filter (fun ks => nonempty ks.2 = true) (f <$> m) !! k) = f (default [] (m !! k)).
Proof.
  intros Hf. destruct (filter _ _ !! k) as [s|] eqn:E; simpl.
  - apply map_lookup_filter_Some in E as [E _]. rewrite lookup_fmap in E.
    destruct (m !! k) as [s0|]; simpl in E; [by injection E as <-|done].
  - apply map_lookup_filter_None in E as [E|E]; rewrite lookup_fmap in E.
    + destruct (m !! k); [done|]. by simpl.
    + destruct (m !! k) as [s|]; simpl; [|done]. simpl in E.
      specialize (E (f s) eq_refl). simpl in E. by destruct (f s).
Qed.

(** What [close_windows] does to every key, in whatever order the keys are visited. *)
Lemma session_close_spec `{HashOrder} mgr mgr' wm ms :
  session_wf mgr -> close_windows mgr wm = (mgr', ms) ->
  session_wf mgr' /\
  (forall k, closed_key k wm (remaining wm (windows_of mgr k)) (expired wm (windows_of mgr k)) (windows_of mgr' k)
               (of_key k (closes ms))) /\
  closed_grows mgr mgr' (closes ms) /\ timeout mgr' = timeout mgr.
Proof.
  intros Hwf Hcl. unfold close_windows, extract_expired_windows in Hcl.
  set (act := filter _ (remaining wm <$> active_windows mgr)) in *.
  set (bk := filter _ (expired wm <$> active_windows mgr)) in *.
  set (mgr0 := mkSession (timeout mgr) act (closed_windows mgr)) in *.
  assert (Hact : forall k, windows_of mgr0 k = remaining wm (windows_of mgr k)) by (intros k; by apply (lookup_nonempty (remaining wm))).
  assert (Hbk : forall k, default [] (bk !! k) = expired wm (windows_of mgr k)) by (intros k; by apply (lookup_nonempty (expired wm))).
  destruct (process_keys_spec wm (hm_iter bk) mgr0) as (K & Hdom & Ht).
  - apply NoDup_hm_keys.
  - intros k ws Hin%elem_of_hm_iter. specialize (Hbk k). rewrite Hin in Hbk. simpl in Hbk. subst ws. split.
    + apply set_ok_filter. by apply windows_of_wf.
    + intros w [? _]%list_elem_of_filter. done.
  - intros k. rewrite Hact. split.
    + apply set_ok_filter. by apply windows_of_wf.
    + intros w [? _]%list_elem_of_filter. lia.
  - pose proof (process_keys_grows mgr0 (hm_iter bk)) as Hg. rewrite Hcl in K, Hdom, Hg, Ht. cbn [fst snd] in *.
    rewrite list_to_map_hm_iter in K.
    assert (Hk : forall k, closed_key k wm (remaining wm (windows_of mgr k)) (expired wm (windows_of mgr k))
      (windows_of mgr' k) (of_key k (closes ms))) by (intros k; by rewrite <- Hact, <- Hbk).
    split_and!; [|done|split; apply Hg|done].
    split; [|by apply Hg, Hwf]. intros k s Hs. assert (Es : windows_of mgr' k = s) by (unfold windows_of; by rewrite Hs).
    rewrite <- Es. split; [|apply K]. destruct (proj1 (Hdom k)) as [s0 Hs0]; [by rewrite Hs|].
    simpl in Hs0. unfold act in Hs0. apply map_lookup_filter_Some in Hs0 as [Hs0 Hne]. simpl in Hne.
    destruct s0 as [|w0 s0]; [done|]. destruct (ck_kept _ _ _ _ _ _ (K k) w0) as (w' & Hw' & _).
    { unfold windows_of, mgr0. simpl. unfold act. rewrite (map_lookup_filter_Some_2 _ _ _ _ Hs0) by done. by left. }
    intros E. rewrite E in Hw'. by apply elem_of_nil in Hw'.
Qed.

(** A window whose end is the watermark is closed: every window that stays active ends after it. The
    comment of [extract_expired_windows] says that a window has expired when the watermark is greater
    than its end. *)
Theorem session_closed_at_end (H : HashOrder) (mgr mgr' : SessionWindowManager) (wm : DateTime)
    (ms : list UnalignedWindowMessage) :
  session_wf mgr -> close_windows mgr wm = (mgr', ms) ->
  forall k w, w ∈ windows_of mgr' k -> wm < end_time w.
Proof.
  intros Hwf Hcl k w Hw. destruct (session_close_spec mgr mgr' wm ms Hwf Hcl) as (_ & K & _).
  by apply (ck_above _ _ _ _ _ _ (K k)).
Qed.

(** C32: closing session windows. Whatever the order in which the keys are visited, after
    [close_windows] no window that ended before the watermark is active and the state is
    well-formed. Every window that was active is inside a window of its key that is still
    active, or inside one that was closed. The windows closed for a key ended by the watermark,
    come in order without overlap and touch no window of the key that is still active; each is
    represented by its end in the set of closed windows. (For a window that ends exactly at the
    watermark the comment in the code and the code differ: see [session_closed_at_end].) *)
Theorem session_close_effect (H : HashOrder) (mgr mgr' : SessionWindowManager) (wm : DateTime)
    (ms : list UnalignedWindowMessage) :
  session_wf mgr -> close_windows mgr wm = (mgr', ms) ->
  session_wf mgr' /\
  (forall k w, w ∈ windows_of mgr' k -> wm <= end_time w) /\
  (forall k w, w ∈ windows_of mgr k ->
     (exists w', w' ∈ windows_of mgr' k /\ covers w' w) \/ (exists c, c ∈ of_key k (closes ms) /\ covers c w)) /\
  (forall c, c ∈ closes ms -> end_time c <= wm /\
     (exists w, w ∈ closed_windows mgr' /\ end_time w = end_time c) /\
     forall w', w' ∈ windows_of mgr' (combine_keys (keys c)) -> end_time c <= start_time w') /\
  (forall k, StronglySorted (fun c c' => end_time c <= start_time c') (of_key k (closes ms))).
Proof.
  intros Hwf Hcl. destruct (session_close_spec mgr mgr' wm ms Hwf Hcl) as (Hwf' & K & Hg & _).
  assert (Hcs : forall c, c ∈ closes ms -> c ∈ of_key (combine_keys (keys c)) (closes ms)).
  { intros c Hc. by apply list_elem_of_filter. }
  split_and!; [done|..].
  - intros k w Hw. apply Z.lt_le_incl. by apply (ck_above _ _ _ _ _ _ (K k)).
  - intros k w Hw. destruct (decide (end_time w <= wm)) as [He|He].
    + apply (ck_gone _ _ _ _ _ _ (K k)). by apply list_elem_of_filter.
    + left. apply (ck_kept _ _ _ _ _ _ (K k)). by apply list_elem_of_filter.
  - intros c Hc. destruct (ck_closes _ _ _ _ _ _ (K _) c (Hcs c Hc)) as (_ & He & _ & Hfr).
    split_and!; [done|by apply Hg|exact Hfr].
  - intros k. apply (K k).
Qed.

Lemma set_ok_insert k s w : set_ok k s -> win_ok w -> combine_keys (keys w) = k -> set_ok k (win_insert w s).
Proof.
  intros [Hs Hok Hk] Hw Hkw. split; [by apply bt_insert_sorted|..]; intros x [->|Hx]%bt_insert_elem_inv; auto.
Qed.
Lemma set_ok_remove k s w : set_ok k s -> set_ok k (win_remove w s).
Proof.
  intros [Hs Hok Hk]. split; [by apply bt_remove_sorted|..]; intros x [Hx _]%bt_remove_elem; auto.
Qed.

Lemma set_windows_wf mgr k s : session_wf mgr -> s <> [] -> set_ok k s -> session_wf (set_windows mgr k s).
Proof.
  intros [Ha Hc] Hne Hs. split; simpl; [|done]. intros k' s'. rewrite lookup_insert_Some. naive_solver.
Qed.

Lemma session_window_spec `{Chrono} t msg w :
  session_window_of t msg = Some w -> 0 < as_millis_i64 t ->
  in_i64 (timestamp_millis (m_event_time msg) + as_millis_i64 t) ->
  start_time w = timestamp_millis (m_event_time msg) * ns_per_ms /\
  end_time w = start_time w + as_millis_i64 t * ns_per_ms /\ keys w = m_keys msg /\ win_ok w.
Proof.
  unfold session_window_of. intros Hw Ht Hi. rewrite wrap_i64_id in Hw by done.
  destruct (from_timestamp_millis (timestamp_millis _)) as [s|] eqn:Es; [|done]. simpl in Hw.
  destruct (from_timestamp_millis (timestamp_millis _ + _)) as [e|] eqn:Ee; [|done]. simpl in Hw.
  injection Hw as <-. apply from_timestamp_millis_Some in Es as ->, Ee as ->.
  unfold win_ok, ns_per_ms. cbn [start_time end_time keys]. split_and!; [done|lia|done|lia].
Qed.

(** Assigning a message to a session. The message's window starts at its event time,
    rounded down to the millisecond, and lasts for the timeout. It is opened as such when it
    meets no active window of its key; it is appended to a window that contains it; or the
    first window it meets is replaced by the hull of the two. The other keys and the other
    windows of the key stay. The hull is stored unless another window of the key already ends
    where the hull ends. *)
Theorem session_assign_effect (C : Chrono) (mgr mgr' : SessionWindowManager) (msg : Message)
    (ms : list UnalignedWindowMessage) :
  session_wf mgr -> 0 < as_millis_i64 (timeout mgr) ->
  in_i64 (timestamp_millis (m_event_time msg) + as_millis_i64 (timeout mgr)) ->
  assign_windows mgr msg = Some (mgr', ms) ->
  let k := combine_keys (m_keys msg) in
  session_wf mgr' /\ (forall k', k' <> k -> windows_of mgr' k' = windows_of mgr k') /\
  closed_windows mgr' = closed_windows mgr /\
  exists nw, start_time nw = timestamp_millis (m_event_time msg) * ns_per_ms /\
    end_time nw = start_time nw + as_millis_i64 (timeout mgr) * ns_per_ms /\
    ((ms = [window_msg (Open msg nw)] /\ (forall w, w ∈ windows_of mgr k -> overlaps nw w = false) /\
      (forall w, w ∈ windows_of mgr' k <-> w ∈ windows_of mgr k \/ w = nw)) \/
     (exists ex, ms = [window_msg (Append msg ex)] /\ ex ∈ windows_of mgr k /\ covers ex nw /\
      windows_of mgr' k = windows_of mgr k) \/
     (exists ex hull, ms = [window_msg (Expand msg [ex; hull])] /\ ex ∈ windows_of mgr k /\ overlaps nw ex = true /\
      start_time hull = Z.min (start_time nw) (start_time ex) /\ end_time hull = Z.max (end_time nw) (end_time ex) /\
      (forall w, w ∈ windows_of mgr k -> w <> ex -> w ∈ windows_of mgr' k) /\
      (hull ∈ windows_of mgr' k \/ exists w, w ∈ windows_of mgr k /\ w <> ex /\ end_time w = end_time hull))).
Proof.
  intros Hwf Ht Hi Ha k. unfold assign_windows in Ha.
  destruct (session_window_of (timeout mgr) msg) as [nw|] eqn:Enw; [|done]. simpl in Ha. injection Ha as Ha.
  destruct (session_window_spec _ _ _ Enw Ht Hi) as (Hst & Hen & Hks & Hok).
  fold k (windows_of mgr k) in Ha. pose proof (windows_of_wf mgr k Hwf) as Hset. pose proof Hset as [Hso Hall Hkeys].
  assert (Hother : forall s k', k' <> k -> windows_of (set_windows mgr k s) k' = windows_of mgr k').
  { intros s k' Hne. unfold windows_of, set_windows. simpl. by rewrite lookup_insert_ne. }
  assert (Hown : forall s, windows_of (set_windows mgr k s) k = s).
  { intros s. unfold windows_of, set_windows. simpl. by rewrite lookup_insert_eq. }
  assert (Hkn : combine_keys (keys nw) = k) by (by rewrite Hks).
  pose proof (find_window_spec (windows_of mgr k) nw) as Hf.
  destruct (find_window_to_merge _ nw) as [ex|] eqn:Ef.
  - destruct Hf as [Hex Hov]. unfold expand_window_if_needed in Ha. rewrite Hov in Ha. simpl in Ha.
    destruct ((start_time ex <=? start_time nw) && (end_time nw <=? end_time ex)) eqn:Ein; simpl in Ha; injection Ha as <- <-.
    + apply andb_true_iff in Ein as [E1%Z.leb_le E2%Z.leb_le].
      split_and!; [|by apply Hother|done|].
      * apply set_windows_wf; [done| |done]. intros E. rewrite E in Hex. by apply elem_of_nil in Hex.
      * exists nw. split_and!; [done..|]. right. left. exists ex. rewrite Hown. done.
    + set (hull := mkWindow _ _ _) in *.
      assert (Hnd : bt_sorted end_time (win_remove ex (windows_of mgr k))) by by apply bt_remove_sorted.
      assert (Hhk : win_ok hull) by (specialize (Hall ex Hex); unfold win_ok in *; simpl; lia).
      split_and!; [|by apply Hother|done|].
      * apply set_windows_wf; [done| |].
        -- intros E. destruct (bt_insert_end hull (win_remove ex (windows_of mgr k))) as (x & Hx & _).
           rewrite E in Hx. by apply elem_of_nil in Hx.
        -- apply set_ok_insert; [by apply set_ok_remove|done|done].
      * exists nw. split_and!; [done..|]. right. right. exists ex, hull. rewrite Hown. split_and!; try done.
        -- intros w Hw Hne. apply bt_insert_old, bt_remove_elem; [done|]. split; [done|].
           intros E. by apply Hne, (same_end (windows_of mgr k)).
        -- destruct (decide (Exists (fun z => end_time z = end_time hull) (win_remove ex (windows_of mgr k)))) as [Hx|Hx].
           ++ right. apply Exists_exists in Hx as (z & Hz & Ez).
              apply bt_remove_elem in Hz as [Hz Hze]; [|done]. exists z. split_and!; [done| |done].
              intros ->. done.
           ++ left. apply bt_insert_elem; [done|]. right. split; [done|]. intros z Hz Ez. apply Hx, Exists_exists. eauto.
  - injection Ha as <- <-. split_and!; [|by apply Hother|done|].
    + apply set_windows_wf; [done| |by apply set_ok_insert].
      intros E. destruct (bt_insert_end nw (windows_of mgr k)) as (x & Hx & _).
      rewrite E in Hx. by apply elem_of_nil in Hx.
    + exists nw. split_and!; [done..|]. left. split_and!; [done|done|]. intros w. rewrite Hown.
      unfold win_insert. rewrite bt_insert_elem by done. split; [tauto|]. intros [?| ->]; [tauto|]. right. split; [done|].
      intros z Hz Ez. specialize (Hf z Hz). specialize (Hall z Hz). unfold overlaps, win_ok in *.
      apply andb_false_iff in Hf as [Hf|Hf]; apply Z.ltb_ge in Hf; lia.
Qed.

(** ** The groups are the connected components *)

Definition meet (ws : list Window) (w w' : Window) : Prop := w ∈ ws /\ w' ∈ ws /\ overlaps w w' = true.

Lemma overlaps_sym w w' : overlaps w w' = overlaps w' w.
Proof. unfold overlaps. apply andb_comm. Qed.

Lemma connected_rtc ws g w w' :
  connected g -> (forall x, x ∈ g -> x ∈ ws) -> w ∈ g -> w' ∈ g -> rtc (meet ws) w w'.
Proof.
  intros [Hne Hc] Hsub Hw Hw'. destruct g as [|h g]; [done|].
  assert (Hboth : forall i x, (h :: g) !! i = Some x -> rtc (meet ws) x h /\ rtc (meet ws) h x).
  { intros i. induction (lt_wf i) as [i _ IH]. intros x Hx. destruct i as [|i]; [by injection Hx as ->|].
    destruct (Hc (take (S i) (h :: g)) x (drop (S (S i)) (h :: g))) as (y & Hy & Hov).
    - by rewrite take_drop_middle.
    - done.
    - apply list_elem_of_lookup in Hy as (j & Hj). apply lookup_take_Some in Hj as [Hj Hlt].
      destruct (IH j Hlt y Hj) as [IH1 IH2].
      assert (x ∈ ws /\ y ∈ ws) as [Hxw Hyw] by (split; apply Hsub; by eapply list_elem_of_lookup_2).
      split.
      + eapply rtc_l; [|exact IH1]. by split_and!.
      + eapply rtc_r; [exact IH2|]. split_and!; [done..|]. by rewrite overlaps_sym. }
  apply list_elem_of_lookup in Hw as (i & Hi). apply list_elem_of_lookup in Hw' as (j & Hj).
  etrans; [by apply (Hboth i)|by apply (Hboth j)].
Qed.

Lemma sorted_groups_apart gs g g' :
  StronglySorted (flip after) gs -> g ∈ gs -> g' ∈ gs -> g = g' \/ after g g' \/ after g' g.
Proof.
  induction 1 as [|x gs _ IH Hx]; [by intros ?%elem_of_nil|]. rewrite Forall_forall in Hx.
  rewrite !elem_of_cons. intros [->|Hg] [->|Hg']; [by left|right; right; by apply Hx|right; left; by apply Hx|auto].
Qed.

(** Grouping. [windows_that_can_be_merged] splits the ended windows of a key, sorted by end,
    into the connected components of the overlap relation: the groups together hold exactly
    the windows, two windows share a group exactly when a chain of overlapping windows leads
    from one to the other, and the groups come in time order. *)
Theorem session_groups (ws : list Window) :
  bt_sorted end_time ws -> Forall win_ok ws ->
  let gs := windows_that_can_be_merged ws in
  concat (reverse <$> gs) = ws /\ StronglySorted (flip after) gs /\
  forall w w', w ∈ ws -> w' ∈ ws ->
    (exists g, g ∈ gs /\ w ∈ g /\ w' ∈ g) <-> rtc (meet ws) w w'.
Proof.
  intros Hs Hok gs. destruct (groups_spec ws Hs Hok) as (Ec & Hcon & Haft). fold gs in Ec, Hcon, Haft.
  split_and!; [done..|]. rewrite Forall_forall in Hcon.
  assert (Hin : forall w, w ∈ ws <-> exists g, g ∈ gs /\ w ∈ g).
  { intros w. rewrite <- Ec at 1. rewrite list_elem_of_In, in_concat. split.
    - intros (g & Hg%list_elem_of_In & Hw%list_elem_of_In). apply list_elem_of_fmap in Hg as (g' & -> & Hg).
      rewrite elem_of_reverse in Hw. eauto.
    - intros (g & Hg & Hw). exists (reverse g). split; apply list_elem_of_In; [apply list_elem_of_fmap; eauto|].
      by apply elem_of_reverse. }
  intros w w' Hw Hw'. split.
  - intros (g & Hg & Hwg & Hwg'). apply (connected_rtc ws g); [by apply Hcon| |done..].
    intros x Hx. apply Hin. eauto.
  - induction 1 as [x|x y z (Hx & Hy & Hov) _ IH].
    + apply Hin in Hw as (g & Hg & Hwg). eauto.
    + destruct (IH Hy Hw') as (g & Hg & Hyg & Hzg). apply Hin in Hx as (g' & Hg' & Hxg).
      exists g. split_and!; [done| |done].
      unfold overlaps in Hov. apply andb_true_iff in Hov as [H1%Z.ltb_lt H2%Z.ltb_lt].
      destruct (sorted_groups_apart gs g g' Haft Hg Hg') as [->|[Ha|Ha]]; [done|..].
      * specialize (Ha y x Hyg Hxg). lia.
      * specialize (Ha x y Hxg Hyg). lia.
Qed.

(** * Concrete runs *)

Definition session_event (ks : list string) (ms : Z) : Message :=
  mkMessage Data ks None "" (OInt (mkIntOffset 0 0)) (ms * ns_per_ms) None MessageID_default ∅ None false None.
Definition ms_window (s e : Z) (ks : list string) : Window := mkWindow (s * ns_per_ms) (e * ns_per_ms) ks.

Fixpoint assign_all (mgr : SessionWindowManager) (msgs : list Message)
    : option (SessionWindowManager * list UnalignedWindowMessage) :=
  match msgs with
  | [] => Some (mgr, [])
  | m :: msgs =>
      let? (mgr1, ms) := @assign_windows chrono_utc mgr m in
      let? (mgr2, ms') := assign_all mgr1 msgs in
      Some (mgr2, ms ++ ms')
  end.

Definition ten_ms : SessionWindowManager := session_new (10 * ns_per_ms).

(** Two windows of a key with one end: the events 0, 10, 5, 10 (milliseconds, timeout 10) leave
    the SDK with a session expanded to [0, 20), but the set keeps only [10, 20): the session
    is never closed. *)
Example session_expand_lost :
  exists mgr ms, assign_all ten_ms (session_event ["k"] <$> [0; 10; 5; 10]) = Some (mgr, ms) /\
    windows_of mgr "k" = [ms_window 10 20 ["k"]] /\
    last ms = Some (window_msg (Expand (session_event ["k"] 10) [ms_window 0 15 ["k"]; ms_window 0 20 ["k"]])).
Proof. eexists _, _. split; [vm_compute; reflexivity|]. split; vm_compute; reflexivity. Qed.

(** Two keys whose windows end together: the set of closed windows holds one of them, and when
    it is deleted the other, still in work, no longer counts for the oldest window. *)
Example session_closed_collapse :
  exists mgr ms mgr' ms', assign_all ten_ms [session_event ["a"] 0; session_event ["b"] 0] = Some (mgr, ms) /\
    @close_windows canonical_order mgr (20 * ns_per_ms) = (mgr', ms') /\
    length (closes ms') = 2%nat /\ closed_window_count mgr' = 1%nat /\
    @oldest_window_end_time canonical_order (delete_window mgr' (ms_window 0 10 ["a"])) = None.
Proof. eexists _, _, _, _. split; [vm_compute; reflexivity|]. split_and!; vm_compute; reflexivity. Qed.

Definition three_windows : list Window :=
  [ms_window 0 10 ["k"]; ms_window 8 12 ["k"]; ms_window 30 40 ["k"]].
Definition three_mgr : SessionWindowManager := mkSession (10 * ns_per_ms) {["k" := three_windows]} [].

Lemma three_windows_ok : bt_sorted end_time three_windows /\ Forall win_ok three_windows.
Proof. split; repeat constructor. Qed.

Lemma three_wf : session_wf three_mgr.
Proof.
  split; [|constructor]. intros k s Hs. simpl in Hs. apply lookup_singleton_Some in Hs as [<- <-].
  split; [done|]. destruct three_windows_ok as [Hs Hok]. split; [done|by apply Forall_forall|].
  apply Forall_forall. repeat constructor.
Qed.

Lemma session_groups_witness :
  windows_that_can_be_merged three_windows =
    [[ms_window 8 12 ["k"]; ms_window 0 10 ["k"]]; [ms_window 30 40 ["k"]]] /\
  (exists g, g ∈ windows_that_can_be_merged three_windows /\ ms_window 0 10 ["k"] ∈ g /\ ms_window 8 12 ["k"] ∈ g) <->
  rtc (meet three_windows) (ms_window 0 10 ["k"]) (ms_window 8 12 ["k"]).
Proof.
  assert (Hgo : (exists g, g ∈ windows_that_can_be_merged three_windows /\ ms_window 0 10 ["k"] ∈ g /\ ms_window 8 12 ["k"] ∈ g) <->
    rtc (meet three_windows) (ms_window 0 10 ["k"]) (ms_window 8 12 ["k"])).
  { apply (session_groups three_windows).
    - apply three_windows_ok.
    - apply three_windows_ok.
    - by left.
    - right. by left. }
  split; [intros [_ Hx]; by apply Hgo|]. intros Hx. split; [reflexivity|by apply Hgo].
Defined.

Lemma session_close_effect_witness :
  exists mgr' ms, @close_windows canonical_order three_mgr (15 * ns_per_ms) = (mgr', ms) /\
    closes ms = [ms_window 0 12 ["k"]] /\ windows_of mgr' "k" = [ms_window 30 40 ["k"]] /\ session_wf mgr'.
Proof.
  eexists _, _. split; [vm_compute; reflexivity|]. split; [vm_compute; reflexivity|].
  split; [vm_compute; reflexivity|].
  apply (session_close_effect canonical_order three_mgr _ (15 * ns_per_ms)
    [window_msg (Merge [ms_window 8 12 ["k"]; ms_window 0 10 ["k"]]); window_msg (Close (ms_window 0 12 ["k"]))]).
  - exact three_wf.
  - vm_compute. reflexivity.
Defined.

Lemma session_assign_effect_witness :
  exists mgr' ms, @assign_windows chrono_utc three_mgr (session_event ["k"] 25) = Some (mgr', ms) /\
    windows_of mgr' "k" = [ms_window 0 10 ["k"]; ms_window 8 12 ["k"]; ms_window 25 40 ["k"]] /\ session_wf mgr'.
Proof.
  eexists _, _. split; [vm_compute; reflexivity|]. split; [vm_compute; reflexivity|].
  apply (session_assign_effect chrono_utc three_mgr _ (session_event ["k"] 25)
    [window_msg (Expand (session_event ["k"] 25) [ms_window 30 40 ["k"]; ms_window 25 40 ["k"]])]).
  - exact three_wf.
  - vm_compute. reflexivity.
  - vm_compute. split; discriminate.
  - vm_compute. reflexivity.
Defined.
