(* ===== verification/AccumulatorWindow.v ===== *)
(** The accumulator windower ([reduce/reducer/unaligned/windower/accumulator.rs]): one window per
    key from its first message on, closed when the watermark has passed the latest event time
    by the timeout; the event times of a window are kept until its results are written, and
    their minimum bounds the watermark that may be published.

    [None] is a panic of a time conversion. The extraction of the expired windows visits the
    keys in the order of [HashOrder]. *)
From S2P Require Import Prelude Clock Message SessionWindow.

Record WindowState := mkState {
  ws_window : Window;
  message_timestamps : list DateTime;     (* BTreeSet *)
  max_event_time : DateTime
}.

Definition state_new (window : Window) : WindowState := mkState window [] 0.

Definition ts_insert : DateTime -> list DateTime -> list DateTime := bt_insert (fun t => t).

Definition append_timestamp (st : WindowState) (event_time : DateTime) : WindowState :=
  mkState (ws_window st) (ts_insert event_time (message_timestamps st))
    (if max_event_time st <? event_time then event_time else max_event_time st).

(** The state with the timestamps left, and whether there are none. *)
Definition delete_timestamps_before (st : WindowState) (end_time : DateTime) : WindowState * bool :=
  let ts := filter (fun t => end_time <= t) (message_timestamps st) in
  (mkState (ws_window st) ts (max_event_time st), match ts with [] => true | _ => false end).

Definition oldest_timestamp (st : WindowState) : option DateTime := head (message_timestamps st).

Record AccumulatorWindowManager := mkAccumulator {
  acc_timeout : Duration;
  acc_active : gmap string WindowState;
  acc_closed : gmap string WindowState
}.

Definition accumulator_new (timeout : Duration) : AccumulatorWindowManager := mkAccumulator timeout ∅ ∅.

(** [chrono::Duration::from_std] fails above [i64::MAX] milliseconds. *)
Definition from_std (d : Duration) : option Duration :=
  if decide (d <= i64_max * ns_per_ms) then Some d else None.

Section Accumulator.
Context `{Chrono}.

Definition acc_assign_windows (mgr : AccumulatorWindowManager) (msg : Message)
    : AccumulatorWindowManager * list UnalignedWindowMessage :=
  let combined_key := combine_keys (m_keys msg) in
  match acc_active mgr !! combined_key with
  | Some st =>
      (mkAccumulator (acc_timeout mgr)
         (<[combined_key := append_timestamp st (m_event_time msg)]> (acc_active mgr)) (acc_closed mgr),
       [window_msg (Append msg (ws_window st))])
  | None =>
      let window := mkWindow (m_event_time msg) dt_max (m_keys msg) in
      (mkAccumulator (acc_timeout mgr)
         (<[combined_key := append_timestamp (state_new window) (m_event_time msg)]> (acc_active mgr)) (acc_closed mgr),
       [window_msg (Open msg window)])
  end.

(** The end of each active window, for the windows in iteration order. *)
Fixpoint expiries (timeout : Duration) (l : list (string * WindowState)) : option (list (string * WindowState * DateTime)) :=
  match l with
  | [] => Some []
  | (k, st) :: l =>
      let? e := dt_add (max_event_time st) timeout in
      let? es := expiries timeout l in
      Some ((k, st, e) :: es)
  end.

Definition acc_close_windows `{HashOrder} (mgr : AccumulatorWindowManager) (watermark : DateTime)
    : option (AccumulatorWindowManager * list UnalignedWindowMessage) :=
  let? timeout := from_std (acc_timeout mgr) in
  let? es := expiries timeout (hm_iter (acc_active mgr)) in
  let expired := filter (fun x => x.2 < watermark) es in
  Some (mkAccumulator (acc_timeout mgr)
          (foldl (fun m x => delete x.1.1 m) (acc_active mgr) expired)
          (foldl (fun m x => <[x.1.1 := x.1.2]> m) (acc_closed mgr) expired),
        (fun x => window_msg (Close (mkWindow (start_time (ws_window x.1.2)) x.2 (keys (ws_window x.1.2))))) <$> expired).

Definition acc_delete_window (mgr : AccumulatorWindowManager) (window : Window) : AccumulatorWindowManager :=
  let combined_key := combine_keys (keys window) in
  let active := match acc_active mgr !! combined_key with
                | Some st => <[combined_key := (delete_timestamps_before st (end_time window)).1]> (acc_active mgr)
                | None => acc_active mgr
                end in
  let closed := match acc_closed mgr !! combined_key with
                | Some st =>
                    let (st', drained) := delete_timestamps_before st (end_time window) in
                    if drained then delete combined_key (acc_closed mgr) else <[combined_key := st']> (acc_closed mgr)
                | None => acc_closed mgr
                end in
  mkAccumulator (acc_timeout mgr) active closed.

Definition acc_oldest_window_end_time `{HashOrder} (mgr : AccumulatorWindowManager) : option DateTime :=
  list_min (omap oldest_timestamp (hm_values (acc_active mgr) ++ hm_values (acc_closed mgr))).
End Accumulator.

Definition acc_active_window_count (mgr : AccumulatorWindowManager) : nat := size (acc_active mgr).
Definition acc_closed_window_count (mgr : AccumulatorWindowManager) : nat := size (acc_closed mgr).

(** The two managers behind one interface. *)
Inductive UnalignedWindowManager :=
  | Accumulator (m : AccumulatorWindowManager)
  | Session (m : SessionWindowManager).

Section Dispatch.
Context `{Chrono} `{HashOrder}.

Definition u_assign_windows (self : UnalignedWindowManager) (msg : Message)
    : option (UnalignedWindowManager * list UnalignedWindowMessage) :=
  match self with
  | Accumulator m => let (m', ms) := acc_assign_windows m msg in Some (Accumulator m', ms)
  | Session m => let? (m', ms) := assign_windows m msg in Some (Session m', ms)
  end.
Definition u_close_windows (self : UnalignedWindowManager) (watermark : DateTime)
    : option (UnalignedWindowManager * list UnalignedWindowMessage) :=
  match self with
  | Accumulator m => let? (m', ms) := acc_close_windows m watermark in Some (Accumulator m', ms)
  | Session m => let (m', ms) := close_windows m watermark in Some (Session m', ms)
  end.
Definition u_delete_window (self : UnalignedWindowManager) (window : Window) : UnalignedWindowManager :=
  match self with
  | Accumulator m => Accumulator (acc_delete_window m window)
  | Session m => Session (delete_window m window)
  end.
Definition u_oldest_window_end_time (self : UnalignedWindowManager) : option DateTime :=
  match self with
  | Accumulator m => acc_oldest_window_end_time m
  | Session m => oldest_window_end_time m
  end.
End Dispatch.

(** * Runs *)

Inductive AOp := AAssign (msg : Message) | AClose (watermark : DateTime) | ADelete (window : Window).

Section Runs.
Context `{Chrono} `{HashOrder}.

Definition aexec (mgr : AccumulatorWindowManager) (op : AOp) : option AccumulatorWindowManager :=
  match op with
  | AAssign msg => Some (acc_assign_windows mgr msg).1
  | AClose wm => let? (mgr', _) := acc_close_windows mgr wm in Some mgr'
  | ADelete w => Some (acc_delete_window mgr w)
  end.

Fixpoint arun (mgr : AccumulatorWindowManager) (ops : list AOp) : option AccumulatorWindowManager :=
  match ops with
  | [] => Some mgr
  | op :: ops => let? mgr' := aexec mgr op in arun mgr' ops
  end.

(** No window is closed while an earlier one of its key is still waiting to be collected. *)
Definition clean_close (mgr : AccumulatorWindowManager) (op : AOp) : Prop :=
  match op with
  | AClose wm => forall k st, acc_active mgr !! k = Some st -> max_event_time st + acc_timeout mgr < wm ->
      acc_closed mgr !! k = None
  | _ => True
  end.
Fixpoint clean_run (mgr : AccumulatorWindowManager) (ops : list AOp) : Prop :=
  match ops with
  | [] => True
  | op :: ops => clean_close mgr op /\ forall mgr', aexec mgr op = Some mgr' -> clean_run mgr' ops
  end.
End Runs.

(** ** The event times not yet collected, by key *)

Definition Pending := string -> DateTime -> Prop.
Definition abs_exec (P : Pending) (op : AOp) : Pending :=
  match op with
  | AAssign msg => fun k t => P k t \/ (k = combine_keys (m_keys msg) /\ t = m_event_time msg)
  | AClose _ => P
  | ADelete w => fun k t => P k t /\ ~ (k = combine_keys (keys w) /\ t < end_time w)
  end.
Definition abs_run (P : Pending) (ops : list AOp) : Pending := foldl abs_exec P ops.

Definition times (m : gmap string WindowState) (k : string) : list DateTime :=
  default [] (message_timestamps <$> m !! k).
Definition pending (mgr : AccumulatorWindowManager) (k : string) : list DateTime :=
  times (acc_active mgr) k ++ times (acc_closed mgr) k.

(** The timestamps of a window are sorted and no later than its latest event time. *)
Definition state_ok (st : WindowState) : Prop :=
  bt_sorted (fun t => t) (message_timestamps st) /\
  forall t, t ∈ message_timestamps st -> t <= max_event_time st.
Record acc_wf (mgr : AccumulatorWindowManager) : Prop := {
  aw_active : forall k st, acc_active mgr !! k = Some st -> state_ok st;
  aw_closed : forall k st, acc_closed mgr !! k = Some st -> state_ok st
}.

(** * Closing *)

Section Close.
Context `{Chrono} `{HashOrder}.

Definition with_end (t : Duration) (ks : string * WindowState) : string * WindowState * DateTime :=
  (ks.1, ks.2, max_event_time ks.2 + t).

Lemma expiries_spec t l es : expiries t l = Some es -> es = with_end t <$> l.
Proof.
  revert es. induction l as [|[k st] l IH]; intros es He; simpl in He; [by injection He as <-|].
  rewrite dt_add_spec in He. destruct (decide _); [|done]. simpl in He.
  destruct (expiries t l) as [es'|]; [|done]. simpl in He. injection He as <-.
  rewrite fmap_cons. f_equal. by apply IH.
Qed.

Definition expired_states (t : Duration) (wm : DateTime) (l : list (string * WindowState)) : list (string * WindowState) :=
  filter (fun ks => max_event_time ks.2 + t < wm) l.

Lemma expired_with_end t wm l :
  filter (fun x => x.2 < wm) (with_end t <$> l) = with_end t <$> expired_states t wm l.
Proof.
  induction l as [|[k st] l IH]; [done|]. unfold expired_states in *. rewrite fmap_cons, !filter_cons. simpl.
  case_decide; [by rewrite fmap_cons, IH|done].
Qed.

Lemma foldl_delete_lookup {A B} (f : A -> string) (m : gmap string B) xs k :
  foldl (fun m x => delete (f x) m) m xs !! k = if decide (k ∈ f <$> xs) then None else m !! k.
Proof.
  revert m. induction xs as [|x xs IH]; intros m; [done|]. simpl. rewrite IH.
  destruct (decide (k = f x)) as [->|Hne].
  - rewrite lookup_delete_eq. destruct (decide (f x ∈ f <$> xs)); rewrite decide_True by (by left); done.
  - rewrite lookup_delete_ne by done. destruct (decide (k ∈ f <$> xs)) as [Hin|Hin].
    + by rewrite decide_True by (by right).
    + rewrite decide_False; [done|]. by intros [?|?]%elem_of_cons.
Qed.

Lemma foldl_insert_notin {A B} (f : A -> string) (g : A -> B) (m : gmap string B) xs k :
  k ∉ f <$> xs -> foldl (fun m x => <[f x := g x]> m) m xs !! k = m !! k.
Proof.
  revert m. induction xs as [|x xs IH]; intros m Hk; [done|]. rewrite fmap_cons, not_elem_of_cons in Hk.
  cbn [foldl]. rewrite IH by tauto. apply lookup_insert_ne. naive_solver.
Qed.

Lemma foldl_insert_in {A B} (f : A -> string) (g : A -> B) (m : gmap string B) xs x :
  NoDup (f <$> xs) -> x ∈ xs -> foldl (fun m x => <[f x := g x]> m) m xs !! f x = Some (g x).
Proof.
  revert m. induction xs as [|y xs IH]; intros m Hnd Hx; [by apply elem_of_nil in Hx|].
  rewrite fmap_cons in Hnd. apply NoDup_cons in Hnd as [Hy Hnd]. cbn [foldl].
  apply elem_of_cons in Hx as [->|Hx]; [|by apply IH]. rewrite foldl_insert_notin by done. apply lookup_insert_eq.
Qed.

Lemma NoDup_expired t wm (m : gmap string WindowState) : NoDup ((expired_states t wm (hm_iter m)).*1).
Proof.
  pose proof (NoDup_hm_keys m) as Hnd. unfold hm_keys, expired_states in *.
  induction (hm_iter m) as [|[k st] l IH]; [done|]. rewrite fmap_cons in Hnd. apply NoDup_cons in Hnd as [Hk Hnd].
  rewrite filter_cons. case_decide; [|by apply IH]. rewrite fmap_cons. constructor; [|by apply IH].
  intros ([k' st'] & Hk' & [_ Hin]%list_elem_of_filter)%list_elem_of_fmap. apply Hk, list_elem_of_fmap. eauto.
Qed.

Lemma elem_of_expired t wm (m : gmap string WindowState) k st :
  (k, st) ∈ expired_states t wm (hm_iter m) <-> m !! k = Some st /\ max_event_time st + t < wm.
Proof. unfold expired_states. rewrite list_elem_of_filter, elem_of_hm_iter. simpl. tauto. Qed.

Definition expires (mgr : AccumulatorWindowManager) (wm : DateTime) (st : WindowState) : Prop :=
  max_event_time st + acc_timeout mgr < wm.
#[global] Instance expires_dec mgr wm st : Decision (expires mgr wm st).
Proof. unfold expires. apply _. Defined.

(** The two maps after closing, key by key, and the messages. *)
Lemma close_spec mgr wm mgr' ms :
  acc_close_windows mgr wm = Some (mgr', ms) ->
  acc_timeout mgr' = acc_timeout mgr /\
  (forall k, acc_active mgr' !! k =
     match acc_active mgr !! k with Some st => if decide (expires mgr wm st) then None else Some st | None => None end) /\
  (forall k, acc_closed mgr' !! k =
     match acc_active mgr !! k with
     | Some st => if decide (expires mgr wm st) then Some st else acc_closed mgr !! k
     | None => acc_closed mgr !! k
     end) /\
  (forall c, c ∈ closes ms <-> exists k st, acc_active mgr !! k = Some st /\ expires mgr wm st /\
     c = mkWindow (start_time (ws_window st)) (max_event_time st + acc_timeout mgr) (keys (ws_window st))).
Proof.
  unfold acc_close_windows, from_std. intros Hc. destruct (decide _); [|done]. simpl in Hc.
  destruct (expiries (acc_timeout mgr) (hm_iter (acc_active mgr))) as [es|] eqn:Ees; [|done]. simpl in Hc.
  apply expiries_spec in Ees as ->. rewrite expired_with_end in Hc. injection Hc as <- <-. simpl.
  set (xs := expired_states (acc_timeout mgr) wm (hm_iter (acc_active mgr))).
  assert (Hk1 : (fun x : string * WindowState * DateTime => x.1.1) <$> (with_end (acc_timeout mgr) <$> xs) = xs.*1).
  { rewrite <- list_fmap_compose. done. }
  pose proof (NoDup_expired (acc_timeout mgr) wm (acc_active mgr)) as Hnd. fold xs in Hnd.
  assert (Hel : forall k st, (k, st) ∈ xs <-> acc_active mgr !! k = Some st /\ expires mgr wm st).
  { intros. apply elem_of_expired. }
  assert (Hdom : forall k, k ∈ xs.*1 <-> exists st, acc_active mgr !! k = Some st /\ expires mgr wm st).
  { intros k. rewrite list_elem_of_fmap. split.
    - intros ([k' st] & -> & Hin). exists st. by apply Hel.
    - intros (st & Hst). exists (k, st). split; [done|]. by apply Hel. }
  split_and!; [done|..].
  - intros k. rewrite (foldl_delete_lookup (fun x => x.1.1)), Hk1.
    destruct (acc_active mgr !! k) as [st|] eqn:Ek; [|by case_decide].
    destruct (decide (expires mgr wm st)) as [He|He].
    + rewrite decide_True; [done|]. apply Hdom. eauto.
    + rewrite decide_False; [done|]. intros (st' & Hst' & He')%Hdom. congruence.
  - intros k. destruct (acc_active mgr !! k) as [st|] eqn:Ek; [destruct (decide (expires mgr wm st)) as [He|He]|].
    + assert (Hin : with_end (acc_timeout mgr) (k, st) ∈ with_end (acc_timeout mgr) <$> xs).
      { apply list_elem_of_fmap. exists (k, st). split; [done|]. by apply Hel. }
      apply (foldl_insert_in (fun x => x.1.1) (fun x => x.1.2) _ _ _ ltac:(by rewrite Hk1) Hin).
    + apply (foldl_insert_notin (fun x => x.1.1) (fun x => x.1.2)). rewrite Hk1.
      intros (st' & Hst' & He')%Hdom. congruence.
    + apply (foldl_insert_notin (fun x => x.1.1) (fun x => x.1.2)). rewrite Hk1.
      intros (st' & Hst' & He')%Hdom. congruence.
  - intros c. unfold closes. rewrite list_elem_of_omap. split.
    + intros (m & Hm & Hcl). apply list_elem_of_fmap in Hm as (x & -> & Hx).
      apply list_elem_of_fmap in Hx as ([k st] & -> & Hx). injection Hcl as <-. apply Hel in Hx as [? ?]. eauto.
    + intros (k & st & Hk & He & ->). eexists (window_msg (Close _)). split; [|reflexivity].
      apply list_elem_of_fmap. exists (with_end (acc_timeout mgr) (k, st)). split; [done|].
      apply list_elem_of_fmap. exists (k, st). split; [done|]. by apply Hel.
Qed.
End Close.

(** * The event times not yet collected *)

Lemma append_ok st t : state_ok st -> state_ok (append_timestamp st t).
Proof.
  intros [Hs Hm]. split; [by apply bt_insert_sorted|]. simpl.
  intros x [->|Hx]%bt_insert_elem_inv; [destruct (Z.ltb_spec (max_event_time st) t); lia|].
  specialize (Hm x Hx). destruct (Z.ltb_spec (max_event_time st) t); lia.
Qed.

Lemma append_times st t x : state_ok st ->
  x ∈ message_timestamps (append_timestamp st t) <-> x ∈ message_timestamps st \/ x = t.
Proof.
  intros [Hs _]. simpl. unfold ts_insert. rewrite bt_insert_elem by done. split; [tauto|].
  intros [?| ->]; [tauto|]. destruct (decide (t ∈ message_timestamps st)) as [?|Hn]; [tauto|].
  right. split; [done|]. by intros z Hz ->.
Qed.

Lemma delete_ok st e : state_ok st -> state_ok (delete_timestamps_before st e).1.
Proof.
  intros [Hs Hm]. split; [by apply bt_filter_sorted|]. simpl. intros x [_ Hx]%list_elem_of_filter. by apply Hm.
Qed.

Lemma state_new_ok w : state_ok (state_new w).
Proof. split; [constructor|by intros t ?%elem_of_nil]. Qed.

Section Refinement.
Context `{Chrono} `{HashOrder}.

Lemma aexec_wf mgr op mgr' : acc_wf mgr -> aexec mgr op = Some mgr' -> acc_wf mgr'.
Proof.
  intros [Ha Hc] He. destruct op as [msg|wm|w]; simpl in He.
  - injection He as <-. unfold acc_assign_windows. destruct (acc_active mgr !! _) as [st|] eqn:E; split; simpl; try done;
      intros k st'; rewrite lookup_insert_Some; intros [[<- <-]|[_ Hk]]; eauto using append_ok, state_new_ok.
  - destruct (acc_close_windows mgr wm) as [[m ms]|] eqn:E; [|done]. simpl in He. injection He as <-.
    destruct (close_spec _ _ _ _ E) as (_ & Ea & Ec & _). split; intros k st; rewrite ?Ea, ?Ec.
    + destruct (acc_active mgr !! k) as [st0|] eqn:E0; [|done]. case_decide; naive_solver.
    + destruct (acc_active mgr !! k) as [st0|] eqn:E0; [case_decide|]; naive_solver.
  - injection He as <-. split; unfold acc_delete_window; cbn [acc_active acc_closed].
    + intros k st. destruct (acc_active mgr !! combine_keys (keys w)) as [st0|] eqn:E; [|by apply Ha].
      rewrite lookup_insert_Some. intros [[<- <-]|[_ Hk]]; [|by eapply Ha]. by eapply delete_ok, Ha.
    + intros k st. destruct (acc_closed mgr !! combine_keys (keys w)) as [st0|] eqn:E; [|by apply Hc].
      destruct (delete_timestamps_before st0 (end_time w)) as [st1 b] eqn:Ed. destruct b.
      * intros [_ Hk]%lookup_delete_Some. by eapply Hc.
      * rewrite lookup_insert_Some. intros [[<- <-]|[_ Hk]]; [|by eapply Hc].
        pose proof (delete_ok st0 (end_time w) (Hc _ _ E)) as Hd. by rewrite Ed in Hd.
Qed.

Definition represents (mgr : AccumulatorWindowManager) (P : Pending) : Prop :=
  forall k t, t ∈ pending mgr k <-> P k t.

Lemma assign_represents mgr P msg :
  acc_wf mgr -> represents mgr P -> represents (acc_assign_windows mgr msg).1 (abs_exec P (AAssign msg)).
Proof.
  intros [Ha _] Hr k t. specialize (Hr k t). unfold pending, times in *. simpl. rewrite <- Hr. unfold acc_assign_windows.
  destruct (decide (k = combine_keys (m_keys msg))) as [->|Hne].
  - destruct (acc_active mgr !! combine_keys (m_keys msg)) as [st|] eqn:E; cbn [fst acc_active acc_closed];
      rewrite lookup_insert_eq; cbn [fmap option_fmap option_map default from_option id]; rewrite !elem_of_app.
    + rewrite append_times by (by eapply Ha). tauto.
    + rewrite append_times by apply state_new_ok. simpl. rewrite elem_of_nil. tauto.
  - destruct (acc_active mgr !! combine_keys (m_keys msg)) as [st|] eqn:E; cbn [fst acc_active acc_closed];
      rewrite lookup_insert_ne by done; rewrite !elem_of_app; tauto.
Qed.

Lemma close_represents mgr P wm mgr' ms :
  represents mgr P -> acc_close_windows mgr wm = Some (mgr', ms) -> clean_close mgr (AClose wm) -> represents mgr' P.
Proof.
  intros Hr Hc Hclean k t. rewrite <- (Hr k t). destruct (close_spec _ _ _ _ Hc) as (_ & Ea & Ec & _).
  unfold pending, times. rewrite Ea, Ec. destruct (acc_active mgr !! k) as [st|] eqn:E; [|done].
  case_decide as Hx; [|done]. rewrite (Hclean k st E Hx). simpl. rewrite app_nil_r. done.
Qed.

Lemma delete_times st e t :
  t ∈ message_timestamps (delete_timestamps_before st e).1 <-> t ∈ message_timestamps st /\ e <= t.
Proof. simpl. rewrite list_elem_of_filter. tauto. Qed.

Lemma not_before (ck : string) t e : ~ (ck = ck /\ t < e) <-> e <= t.
Proof. split; [|lia]. intros Hn. destruct (decide (e <= t)); [done|]. exfalso. apply Hn. split; [done|lia]. Qed.

Lemma delete_represents mgr P w :
  represents mgr P -> represents (acc_delete_window mgr w) (abs_exec P (ADelete w)).
Proof.
  intros Hr k t. specialize (Hr k t). simpl. rewrite <- Hr. clear Hr. unfold pending, times, acc_delete_window.
  cbn [acc_active acc_closed]. rewrite !elem_of_app. set (ck := combine_keys (keys w)).
  assert (Hactive : t ∈ default [] (message_timestamps <$> (match acc_active mgr !! ck with
      | Some st => <[ck := (delete_timestamps_before st (end_time w)).1]> (acc_active mgr)
      | None => acc_active mgr end) !! k) <->
    t ∈ default [] (message_timestamps <$> acc_active mgr !! k) /\ ~ (k = ck /\ t < end_time w)).
  { destruct (acc_active mgr !! ck) as [st|] eqn:E.
    - destruct (decide (k = ck)) as [->|Hne].
      + rewrite lookup_insert_eq, E, not_before. simpl. rewrite list_elem_of_filter. tauto.
      + rewrite lookup_insert_ne by done. tauto.
    - destruct (decide (k = ck)) as [->|Hne]; [|tauto]. rewrite E. simpl. rewrite elem_of_nil. tauto. }
  rewrite Hactive. clear Hactive.
  destruct (acc_closed mgr !! ck) as [st|] eqn:E.
  - pose proof (delete_times st (end_time w) t) as Hd.
    destruct (delete_timestamps_before st (end_time w)) as [st1 b] eqn:Ed. cbn [fst] in Hd.
    assert (Hb : b = true -> message_timestamps st1 = []).
    { unfold delete_timestamps_before in Ed. injection Ed as <- <-. simpl. by destruct (filter _ _). }
    destruct (decide (k = ck)) as [->|Hne].
    + rewrite E. destruct b.
      * rewrite lookup_delete_eq. simpl. rewrite (Hb eq_refl) in Hd. rewrite elem_of_nil in Hd |- *.
        rewrite not_before. tauto.
      * rewrite lookup_insert_eq, not_before. simpl. rewrite Hd. tauto.
    + destruct b; rewrite ?lookup_delete_ne, ?lookup_insert_ne by done; tauto.
  - destruct (decide (k = ck)) as [->|Hne]; [|tauto]. rewrite E. simpl. rewrite elem_of_nil. tauto.
Qed.
End Refinement.

(** * Properties *)

Section Reachable.
Context `{Chrono} `{HashOrder}.

(** Each window carries the keys it is stored under. *)
Definition acc_keyed (mgr : AccumulatorWindowManager) : Prop :=
  forall k st, acc_active mgr !! k = Some st -> combine_keys (keys (ws_window st)) = k.

Lemma aexec_keyed mgr op mgr' : acc_keyed mgr -> aexec mgr op = Some mgr' -> acc_keyed mgr'.
Proof.
  intros Ha He k st. destruct op as [msg|wm|w]; simpl in He.
  - injection He as <-. unfold acc_assign_windows. destruct (acc_active mgr !! _) as [st0|] eqn:E; simpl;
      rewrite lookup_insert_Some; intros [[<- <-]|[_ Hk]]; simpl; eauto.
  - destruct (acc_close_windows mgr wm) as [[m ms]|] eqn:E; [|done]. simpl in He. injection He as <-.
    destruct (close_spec _ _ _ _ E) as (_ & Ea & _ & _). rewrite Ea.
    destruct (acc_active mgr !! k) as [st0|] eqn:E0; [|done]. case_decide; naive_solver.
  - injection He as <-. unfold acc_delete_window. cbn [acc_active].
    destruct (acc_active mgr !! combine_keys (keys w)) as [st0|] eqn:E; [|by apply Ha].
    rewrite lookup_insert_Some. intros [[<- <-]|[_ Hk]]; [|by apply Ha]. by apply (Ha _ st0).
Qed.

Lemma aexec_timeout mgr op mgr' : aexec mgr op = Some mgr' -> acc_timeout mgr' = acc_timeout mgr.
Proof.
  destruct op as [msg|wm|w]; simpl; intros He.
  - injection He as <-. unfold acc_assign_windows. by destruct (acc_active mgr !! _).
  - destruct (acc_close_windows mgr wm) as [[m ms]|] eqn:E; [|done]. simpl in He. injection He as <-.
    by destruct (close_spec _ _ _ _ E) as (-> & _).
  - by injection He as <-.
Qed.

Lemma arun_inv mgr ops mgr' :
  acc_wf mgr -> acc_keyed mgr -> arun mgr ops = Some mgr' ->
  acc_wf mgr' /\ acc_keyed mgr' /\ acc_timeout mgr' = acc_timeout mgr.
Proof.
  revert mgr. induction ops as [|op ops IH]; intros mgr Hw Hk Hr; simpl in Hr; [by injection Hr as <-|].
  destruct (aexec mgr op) as [m1|] eqn:E; [|done]. simpl in Hr.
  destruct (IH m1) as (? & ? & ->); eauto using aexec_wf, aexec_keyed, aexec_timeout.
Qed.

Lemma arun_represents mgr ops mgr' P :
  acc_wf mgr -> represents mgr P -> arun mgr ops = Some mgr' -> clean_run mgr ops ->
  represents mgr' (abs_run P ops).
Proof.
  revert mgr P. induction ops as [|op ops IH]; intros mgr P Hw Hp Hr Hc; simpl in Hr; [by injection Hr as <-|].
  destruct (aexec mgr op) as [m1|] eqn:E; [|done]. simpl in Hr. destruct Hc as [Hcl Hc].
  apply (IH m1); [by eapply aexec_wf| |done|by apply Hc]. clear IH Hr Hc.
  destruct op as [msg|wm|w]; simpl in E.
  - injection E as <-. by apply assign_represents.
  - destruct (acc_close_windows mgr wm) as [[m ms]|] eqn:Ec; [|done]. simpl in E. injection E as <-.
    by eapply close_represents.
  - injection E as <-. by apply delete_represents.
Qed.

Lemma accumulator_new_wf t : acc_wf (accumulator_new t) /\ acc_keyed (accumulator_new t).
Proof. split; [split|]; intros k st; simpl; by rewrite lookup_empty. Qed.

(** The oldest of the pending event times. *)
Lemma oldest_spec mgr P :
  acc_wf mgr -> represents mgr P ->
  match acc_oldest_window_end_time mgr with
  | Some o => (exists k, P k o) /\ forall k t, P k t -> o <= t
  | None => forall k t, ~ P k t
  end.
Proof.
  intros Hw Hr. unfold acc_oldest_window_end_time.
  set (l := omap oldest_timestamp _).
  assert (Hheads : forall o, o ∈ l -> exists k, o ∈ pending mgr k).
  { intros o (st & Hst & Ho)%list_elem_of_omap. unfold pending, times.
    assert (Hot : o ∈ message_timestamps st).
    { unfold oldest_timestamp in Ho. destruct (message_timestamps st); [done|]. injection Ho as ->. by left. }
    apply elem_of_app in Hst as [(k & Hk)%elem_of_hm_values|(k & Hk)%elem_of_hm_values]; exists k; rewrite Hk;
      apply elem_of_app; [by left|by right]. }
  assert (Hlow : forall k t, t ∈ pending mgr k -> exists o, o ∈ l /\ o <= t).
  { assert (Hst : forall st t, st ∈ hm_values (acc_active mgr) ++ hm_values (acc_closed mgr) -> state_ok st ->
      t ∈ message_timestamps st -> exists o, o ∈ l /\ o <= t).
    { intros st t Hin [Hs _] Ht. destruct (message_timestamps st) as [|o ts] eqn:E; [by apply elem_of_nil in Ht|].
      exists o. split; [|by apply (bt_head_min (fun t => t) o ts)].
      apply list_elem_of_omap. exists st. split; [done|]. unfold oldest_timestamp. by rewrite E. }
    intros k t. unfold pending, times. rewrite elem_of_app. intros [Ht|Ht].
    - destruct (acc_active mgr !! k) as [st|] eqn:E; [|by apply elem_of_nil in Ht].
      apply (Hst st); [apply elem_of_app; left; apply elem_of_hm_values; eauto|by eapply aw_active|done].
    - destruct (acc_closed mgr !! k) as [st|] eqn:E; [|by apply elem_of_nil in Ht].
      apply (Hst st); [apply elem_of_app; right; apply elem_of_hm_values; eauto|by eapply aw_closed|done]. }
  destruct (list_min l) as [o|] eqn:E.
  - apply list_min_Some in E as [Hin Hmin]. split.
    + destruct (Hheads o Hin) as (k & Hk). exists k. by apply Hr.
    + intros k t Ht%Hr. destruct (Hlow k t Ht) as (o' & Ho' & Hle). specialize (Hmin o' Ho'). lia.
  - intros k t Ht%Hr. destruct (Hlow k t Ht) as (o & Ho & _). apply list_min_None in E. rewrite E in Ho.
    by apply elem_of_nil in Ho.
Qed.
End Reachable.

(** C33: the event times that hold the watermark back. Over every run of assignments, closes and
    deletions in which no window is closed while an earlier one of its key still waits to be
    collected, the manager holds for each key exactly the event times assigned and not yet
    deleted, and [oldest_window_end_time] is their minimum over all keys, or nothing when there
    are none. *)
Theorem accumulator_refines_pending (C : Chrono) (H : HashOrder) (timeout : Duration) (ops : list AOp)
    (mgr : AccumulatorWindowManager) :
  arun (accumulator_new timeout) ops = Some mgr -> clean_run (accumulator_new timeout) ops ->
  let P := abs_run (fun _ _ => False) ops in
  (forall k t, t ∈ pending mgr k <-> P k t) /\
  match acc_oldest_window_end_time mgr with
  | Some o => (exists k, P k o) /\ forall k t, P k t -> o <= t
  | None => forall k t, ~ P k t
  end.
Proof.
  intros Hr Hc P. destruct (accumulator_new_wf timeout) as [Hw Hk].
  assert (Hp : represents mgr P).
  { apply (arun_represents (accumulator_new timeout)); try done. intros k t. unfold pending, times. simpl.
    rewrite !lookup_empty. simpl. rewrite elem_of_nil. done. }
  split; [exact Hp|]. apply oldest_spec; [|done]. by apply (arun_inv _ _ _ Hw Hk Hr).
Qed.

(** Closing accumulator windows. In every reachable state the windows closed are exactly
    those whose latest event time plus the timeout is before the watermark; the close carries
    that sum as the end; they leave the active set, the others stay; and deleting a closed
    window collects it, so that it no longer holds the watermark back. *)
Theorem accumulator_close_effect (C : Chrono) (H : HashOrder) (timeout : Duration) (ops : list AOp)
    (mgr mgr' : AccumulatorWindowManager) (wm : DateTime) (ms : list UnalignedWindowMessage) :
  0 < timeout -> arun (accumulator_new timeout) ops = Some mgr -> acc_close_windows mgr wm = Some (mgr', ms) ->
  (forall c, c ∈ closes ms <-> exists k st, acc_active mgr !! k = Some st /\ max_event_time st + timeout < wm /\
     c = mkWindow (start_time (ws_window st)) (max_event_time st + timeout) (keys (ws_window st))) /\
  (forall k st, acc_active mgr' !! k = Some st <-> acc_active mgr !! k = Some st /\ wm <= max_event_time st + timeout) /\
  (forall c, c ∈ closes ms ->
     let k := combine_keys (keys c) in
     is_Some (acc_closed mgr' !! k) /\ acc_closed (acc_delete_window mgr' c) !! k = None).
Proof.
  intros Ht Hr Hc. destruct (accumulator_new_wf timeout) as [Hw Hk].
  destruct (arun_inv _ _ _ Hw Hk Hr) as ([Hwa _] & Hkey & Htm). simpl in Htm.
  destruct (close_spec _ _ _ _ Hc) as (_ & Ea & Ec & Hcl). unfold expires in *. rewrite Htm in *. split_and!.
  - exact Hcl.
  - intros k st. rewrite Ea. destruct (acc_active mgr !! k) as [st0|] eqn:E; [|naive_solver].
    case_decide; (split; [intros Hs; simplify_eq|intros [Hs ?]; simplify_eq]); try done; try lia. split; [done|lia].
  - intros c (k & st & Hst & He & ->)%Hcl. cbn [keys]. pose proof (Hkey k st Hst) as Ek. rewrite Ek.
    assert (Ecl : acc_closed mgr' !! k = Some st).
    { rewrite Ec, Hst. destruct (decide _) as [Hd|Hd]; [done|]. exfalso. apply Hd. unfold expires in *. rewrite Htm. exact He. }
    split; [by rewrite Ecl|]. unfold acc_delete_window. cbn [acc_closed keys end_time]. rewrite Ek, Ecl.
    unfold delete_timestamps_before. destruct (Hwa k st Hst) as [_ Hmax].
    destruct (filter _ (message_timestamps st)) as [|t ts] eqn:Ef; [apply lookup_delete_eq|].
    assert (Hin : t ∈ filter (fun t => max_event_time st + timeout <= t) (message_timestamps st)) by (rewrite Ef; by left).
    apply list_elem_of_filter in Hin as [Hle Hin]. apply Hmax in Hin. lia.
Qed.

(** * Concrete runs *)

Definition acc_event (ks : list string) (t : Z) : Message :=
  mkMessage Data ks None "" (OInt (mkIntOffset 0 0)) t None MessageID_default ∅ None false None.

Lemma accumulator_refines_pending_witness :
  let ops := [AAssign (acc_event ["a"] 5); AAssign (acc_event ["b"] 7); AAssign (acc_event ["a"] 9); AClose 18;
              ADelete (mkWindow 5 8 ["a"])] in
  exists mgr, @arun chrono_utc canonical_order (accumulator_new 10) ops = Some mgr /\
    @acc_oldest_window_end_time canonical_order mgr = Some 7 /\
    (forall k t, t ∈ pending mgr k <-> abs_run (fun _ _ => False) ops k t).
Proof.
  intros ops. eexists. split; [vm_compute; reflexivity|]. split; [vm_compute; reflexivity|].
  apply (accumulator_refines_pending chrono_utc canonical_order 10 ops).
  - vm_compute. reflexivity.
  - assert (Hc : forall m, acc_closed m = ∅ -> clean_close m (AClose 18)) by (intros m E k st _ _; by rewrite E).
    unfold ops. cbn [clean_run]. do 3 (split; [done|]; intros ? [= <-]).
    split; [by apply Hc|]. intros m _. split; [done|]. done.
Defined.

Definition two_ops : list AOp := [AAssign (acc_event ["a"] 5); AAssign (acc_event ["b"] 17)].
Definition two_mgr : AccumulatorWindowManager :=
  default (accumulator_new 10) (@arun chrono_utc canonical_order (accumulator_new 10) two_ops).
Definition two_closed : AccumulatorWindowManager * list UnalignedWindowMessage :=
  default (two_mgr, []) (@acc_close_windows chrono_utc canonical_order two_mgr 16).

Lemma accumulator_close_effect_witness :
  @arun chrono_utc canonical_order (accumulator_new 10) two_ops = Some two_mgr /\
  @acc_close_windows chrono_utc canonical_order two_mgr 16 = Some (two_closed.1, two_closed.2) /\
  closes two_closed.2 = [mkWindow 5 15 ["a"]] /\
  acc_closed (acc_delete_window two_closed.1 (mkWindow 5 15 ["a"])) !! combine_keys ["a"] = None.
Proof.
  split; [vm_compute; reflexivity|]. split; [vm_compute; reflexivity|].
  assert (Hcl : closes two_closed.2 = [mkWindow 5 15 ["a"]]) by (vm_compute; reflexivity).
  split; [exact Hcl|].
  destruct (accumulator_close_effect chrono_utc canonical_order 10 two_ops two_mgr two_closed.1 16 two_closed.2) as (_ & _ & Hc).
  - done.
  - vm_compute. reflexivity.
  - vm_compute. reflexivity.
  - apply (Hc (mkWindow 5 15 ["a"])). rewrite Hcl. by left.
Defined.

(** A key that is closed, receives data again and is closed again before the first close is
    collected: the first instance is overwritten and its event time 5 no longer holds the
    watermark back. *)
Example accumulator_reopen_lost :
  let ops := [AAssign (acc_event ["a"] 5); AClose 20; AAssign (acc_event ["a"] 25); AClose 40] in
  exists mgr, @arun chrono_utc canonical_order (accumulator_new 10) ops = Some mgr /\
    abs_run (fun _ _ => False) ops "a" 5 /\ pending mgr "a" = [25] /\
    @acc_oldest_window_end_time canonical_order mgr = Some 25.
Proof.
  intros ops. eexists. split; [vm_compute; reflexivity|]. split; [left; right; done|].
  split; vm_compute; reflexivity.
Qed.
