(* ===== verification/Wal.v ===== *)
(** The write-ahead log ([reduce/wal.rs], [reduce/wal/segment.rs], [segment/append.rs],
    [segment/replay.rs]): the framing of entries, the names of segment files and their order,
    the actor that appends and rotates, and replay.

    A directory is a map from file name to content; names are relative to the base path.
    The clock is read once per command of the writer. The buffer of the writer is kept apart
    from the file: only flushed bytes are on disk. *)
From S2P Require Import Prelude Clock Message.
From stdpp Require Import pretty.
#[local] Open Scope Z_scope.

Inductive WalType := WData | WGc | WCompact.

Definition segment_prefix (t : WalType) : string :=
  match t with WData => "data" | WGc => "gc" | WCompact => "compaction" end.
Definition segment_suffix (t : WalType) : string := "".

(** * Framing *)

(** [k] bytes, least significant first. *)
Fixpoint le_bytes (k : nat) (n : N) : string :=
  match k with
  | O => ""
  | S k => String (Ascii.ascii_of_N (n mod 256)) (le_bytes k (n / 256))
  end.
Fixpoint of_le (s : string) : N :=
  match s with
  | EmptyString => 0
  | String a s => Ascii.N_of_ascii a + 256 * of_le s
  end.

Definition slen (s : string) : N := N.of_nat (String.length s).

(** [write_u64_le] of the length, then the data. *)
Definition frame (data : string) : string := le_bytes 8 (slen data) +:+ data.
Definition frames (ds : list string) : string := foldr (fun d s => frame d +:+ s) "" ds.

Inductive SegmentEntry :=
  | DataEntry (size : N) (data : string)
  | CmdFileSwitch (filename : string).

(** The loop of [read_segment]: the entries sent before the end or the error. Every turn
    takes at least the eight bytes of a length, so the size of the file is enough fuel. *)
Fixpoint read_entries (fuel : nat) (s : string) : list SegmentEntry * Result unit :=
  match fuel with
  | O => ([], Ok tt)
  | S fuel =>
      if decide (slen s < 8)%N then ([], Ok tt)   (* UnexpectedEof ends the segment *)
      else
        let len := of_le (stake 8 s) in
        let rest := sdrop 8 s in
        if decide (slen rest < len)%N then ([], Err (EOther "read_exact"))
        else
          let (es, r) := read_entries fuel (sdrop (N.to_nat len) rest) in
          (DataEntry len (stake (N.to_nat len) rest) :: es, r)
  end.
Definition read_segment (content : string) : list SegmentEntry * Result unit :=
  read_entries (S (String.length content)) content.

(** * Segment names *)

Fixpoint split_at (sep : Ascii.ascii) (s : string) : list string :=
  match s with
  | EmptyString => [""]
  | String a s =>
      if decide (a = sep) then "" :: split_at sep s
      else match split_at sep s with
           | p :: ps => String a p :: ps
           | [] => [String a ""]
           end
  end.

Definition underscore : Ascii.ascii := Ascii.Ascii true true true true true false true false.
Definition dot : Ascii.ascii := Ascii.Ascii false true true true false true false false.

(** [str::parse] of an unsigned integer of the given bound: digits only, at least one, an
    optional leading plus sign. *)
Definition digit_of (a : Ascii.ascii) : option N :=
  let n := Ascii.N_of_ascii a in
  if decide (48 <= n /\ n <= 57)%N then Some (n - 48)%N else None.
Fixpoint parse_digits (acc : N) (s : string) : option N :=
  match s with
  | EmptyString => Some acc
  | String a s => let? d := digit_of a in parse_digits (acc * 10 + d) s
  end.
Definition plus_sign : Ascii.ascii := Ascii.Ascii true true false true false true false false.
Definition parse_unsigned (bound : N) (s : string) : option N :=
  let body := match s with String a s' => if decide (a = plus_sign) then s' else s | _ => s end in
  match body with
  | EmptyString => None
  | _ => let? n := parse_digits 0 body in if decide (n < bound)%N then Some n else None
  end.

Definition parse_segment_create_micros (file_name : string) : N :=
  let ts_part := default "0" (split_at underscore file_name !! 2%nat) in
  default 0%N (parse_unsigned (2 ^ 64) (default "0" (head (split_at dot ts_part)))).

Definition parse_segment_file_index (file_name : string) : N :=
  default 0%N (split_at underscore file_name !! 1%nat ≫= parse_unsigned (2 ^ 32)).

(** The order of segments: by creation time, then by index. *)
Definition segment_le (a b : string) : bool :=
  let (ta, ia) := (parse_segment_create_micros a, parse_segment_file_index a) in
  let (tb, ib) := (parse_segment_create_micros b, parse_segment_file_index b) in
  match (ta ?= tb)%N with Eq => (ia <=? ib)%N | Lt => true | Gt => false end.

(** [sort_by] is stable: a file stays before the later ones it is equal to. *)
Fixpoint insert_file (f : string) (fs : list string) : list string :=
  match fs with
  | [] => [f]
  | g :: fs' => if segment_le f g then f :: fs else g :: insert_file f fs'
  end.
Definition sort_filenames (files : list string) : list string := foldr insert_file [] files.

(** [Path::extension]: what follows the last dot, unless that dot starts the name. *)
Definition extension (f : string) : option string :=
  match reverse (split_at dot f) with
  | [] | [_] => None
  | [_; ""] => None
  | e :: _ => Some e
  end.

Fixpoint starts_with (p s : string) : bool :=
  match p, s with
  | EmptyString, _ => true
  | String a p, String b s => bool_decide (a = b) && starts_with p s
  | _, _ => false
  end.

Abbreviation Dir := (gmap string string) (only parsing).

Section Listing.
Context `{HashOrder}.

(** [read_dir] lists in no particular order. *)
Definition list_files_filtered (t : WalType) (is_ext : string -> bool) (dir : Dir) : list string :=
  filter (fun f => (starts_with (segment_prefix t) f &&
                    match extension f with Some e => is_ext e | None => false end) = true) (hm_keys dir).
Definition list_files (t : WalType) (dir : Dir) : list string :=
  list_files_filtered t (fun e => bool_decide (e = "frozen")) dir.
Definition list_files_with_active (t : WalType) (dir : Dir) : list string :=
  list_files_filtered t (fun e => bool_decide (e = "frozen") || bool_decide (e = "wal")) dir.

(** The files of a replay in order; the entries of each are followed by a switch. A file that
    cannot be read in full ends the replay with its error. *)
Fixpoint read_files (dir : Dir) (files : list string) : list SegmentEntry * Result unit :=
  match files with
  | [] => ([], Ok tt)
  | f :: files =>
      match dir !! f with
      | None => ([], Err (EOther "open"))
      | Some content =>
          match read_segment content with
          | (es, Err e) => (es, Err e)
          | (es, Ok _) => let (es', r) := read_files dir files in (es ++ CmdFileSwitch f :: es', r)
          end
      end
  end.
Definition streaming_read (t : WalType) (dir : Dir) : list SegmentEntry * Result unit :=
  read_files dir (sort_filenames (list_files t dir)).
End Listing.

Definition entry_data (e : SegmentEntry) : option string :=
  match e with DataEntry _ d => Some d | CmdFileSwitch _ => None end.

(** * The append actor *)

Record SegmentWriteActor := mkActor {
  wal_type : WalType;
  current_file_name : string;
  create_time : DateTime;
  current_file_buf : string;      (* bytes not yet on disk *)
  current_size : Z;
  file_index : N;
  max_file_size : Z;
  max_segment_age : Duration
}.

Definition segment_name (t : WalType) (idx : N) (now : DateTime) : string :=
  segment_prefix t +:+ "_" +:+ pretty idx +:+ "_" +:+ pretty (now / 1000) +:+ ".wal" +:+ segment_suffix t.

(** Create, or truncate an existing file. *)
Definition open_segment (t : WalType) (idx : N) (now : DateTime) (dir : Dir) : string * Dir :=
  let f := segment_name t idx now in (f, <[f := ""]> dir).

Definition set_buf (a : SegmentWriteActor) (buf : string) : SegmentWriteActor :=
  mkActor (wal_type a) (current_file_name a) (create_time a) buf (current_size a) (file_index a)
    (max_file_size a) (max_segment_age a).

Definition flush (a : SegmentWriteActor) (dir : Dir) : SegmentWriteActor * Dir :=
  (set_buf a "",
   <[current_file_name a := default "" (dir !! current_file_name a) +:+ current_file_buf a]> dir).

(** All suffixes are empty, so the frozen name is the current one with an extension added. *)
Definition frozen_name (f : string) : string := f +:+ ".frozen".

Definition rename (from to : string) (dir : Dir) : Dir :=
  match dir !! from with Some c => <[to := c]> (delete from dir) | None => dir end.

Definition rotate_file (open_new : bool) (now : DateTime) (a : SegmentWriteActor) (dir : Dir)
    : SegmentWriteActor * Dir :=
  if current_size a =? 0 then (a, dir)
  else
    let (a1, dir1) := flush a dir in
    let dir2 := rename (current_file_name a1) (frozen_name (current_file_name a1)) dir1 in
    if open_new then
      let idx := (file_index a1 + 1)%N in
      let (f, dir3) := open_segment (wal_type a1) idx now dir2 in
      (mkActor (wal_type a1) f now "" 0 idx (max_file_size a1) (max_segment_age a1), dir3)
    else (a1, dir2).

Definition write_data (now : DateTime) (data : string) (a : SegmentWriteActor) (dir : Dir)
    : SegmentWriteActor * Dir :=
  let (a1, dir1) :=
    if (0 <? current_size a) && (max_file_size a <=? current_size a + Z.of_N (slen data))
    then rotate_file true now a dir else (a, dir) in
  let (a2, dir2) :=
    if (0 <? current_size a1) && (max_segment_age a1 <? now - create_time a1)
    then rotate_file true now a1 dir1 else (a1, dir1) in
  (mkActor (wal_type a2) (current_file_name a2) (create_time a2) (current_file_buf a2 +:+ frame data)
     (current_size a2 + Z.of_N (slen data)) (file_index a2) (max_file_size a2) (max_segment_age a2), dir2).

Definition ROTATE_IF_STALE_DURATION : Duration := 30 * 10 ^ 9.

Definition flush_and_rotate (now : DateTime) (a : SegmentWriteActor) (dir : Dir) : SegmentWriteActor * Dir :=
  if ROTATE_IF_STALE_DURATION <? now - create_time a then rotate_file true now a dir else flush a dir.

(** What the actor reacts to: a command of its channel, silence on the channel, the flush
    timer, and the buffered writer spilling bytes to the file on its own. *)
Inductive WEvent :=
  | Write (data : string)          (* WriteMessage, WriteGcEvent *)
  | Rotate (on_size : bool)
  | Timeout
  | FlushTick
  | Spill (n : nat).

Definition wexec (now : DateTime) (e : WEvent) (a : SegmentWriteActor) (dir : Dir) : SegmentWriteActor * Dir :=
  match e with
  | Write data => write_data now data a dir
  | Rotate on_size => if negb on_size || (max_file_size a <=? current_size a)
                      then rotate_file true now a dir else (a, dir)
  | Timeout => flush_and_rotate now a dir
  | FlushTick => flush a dir
  | Spill n => (set_buf a (sdrop n (current_file_buf a)),
      <[current_file_name a := default "" (dir !! current_file_name a) +:+ stake n (current_file_buf a)]> dir)
  end.

Fixpoint wrun (es : list (DateTime * WEvent)) (a : SegmentWriteActor) (dir : Dir) : SegmentWriteActor * Dir :=
  match es with
  | [] => (a, dir)
  | (now, e) :: es => let (a', dir') := wexec now e a dir in wrun es a' dir'
  end.

(** [streaming_write] opens segment 0; when the channel closes the actor freezes the last one. *)
Definition actor_start (t : WalType) (max_file_size_mb : Z) (max_segment_age_secs : Z) (now : DateTime) (dir : Dir)
    : SegmentWriteActor * Dir :=
  let (f, dir') := open_segment t 0 now dir in
  (mkActor t f now "" 0 0 (max_file_size_mb * 1024 * 1024) (max_segment_age_secs * 10 ^ 9), dir').

Definition actor_stop (a : SegmentWriteActor) (dir : Dir) : Dir := (rotate_file false 0 a dir).2.

(** A whole life of the writer. *)
Definition streaming_write (t : WalType) (size_mb age : Z) (t0 : DateTime) (es : list (DateTime * WEvent)) (dir : Dir) : Dir :=
  let (a0, dir0) := actor_start t size_mb age t0 dir in
  let (a, dir1) := wrun es a0 dir0 in actor_stop a dir1.

Definition written (es : list (DateTime * WEvent)) : list string :=
  omap (fun e => match e.2 with Write d => Some d | _ => None end) es.

(** * Strings *)

Lemma sapp_cons a s t : String a s +:+ t = String a (s +:+ t).
Proof. done. Qed.
Lemma sapp_assoc (s t u : string) : (s +:+ t) +:+ u = s +:+ (t +:+ u).
Proof. induction s as [|a s IH]; [done|]. by rewrite !sapp_cons, IH. Qed.
Lemma sapp_nil_r (s : string) : s +:+ "" = s.
Proof. induction s as [|a s IH]; [done|]. by rewrite sapp_cons, IH. Qed.
Lemma slen_app s t : slen (s +:+ t) = (slen s + slen t)%N.
Proof.
  unfold slen. induction s as [|a s IH]; [done|]. rewrite sapp_cons. simpl String.length. lia.
Qed.
Lemma stake_app s t : stake (String.length s) (s +:+ t) = s.
Proof. induction s as [|a s IH]; simpl; [by destruct t|]. by rewrite IH. Qed.
Lemma sdrop_app s t : sdrop (String.length s) (s +:+ t) = t.
Proof. induction s as [|a s IH]; simpl; [by destruct t|]. by rewrite IH. Qed.
Lemma slen_stake n s : slen (stake n s) = N.min (N.of_nat n) (slen s).
Proof.
  unfold slen. revert s. induction n as [|n IH]; intros [|a s]; try done.
  simpl stake. simpl String.length. specialize (IH s). lia.
Qed.

Lemma stake_app_lt n s t : (n <= String.length s)%nat -> stake n (s +:+ t) = stake n s.
Proof.
  revert n. induction s as [|c s IH]; intros [|n] Hn; simpl in Hn; try lia; [by destruct t|done|].
  rewrite sapp_cons. simpl. rewrite IH by lia. done.
Qed.
Lemma stake_app_ge n s t :
  (String.length s <= n)%nat -> stake n (s +:+ t) = s +:+ stake (n - String.length s) t.
Proof.
  revert n. induction s as [|c s IH]; intros n Hn; [by rewrite Nat.sub_0_r|].
  destruct n as [|n]; simpl in Hn; [lia|]. rewrite !sapp_cons. simpl. rewrite IH by lia. done.
Qed.

(** * Framing round trip *)

Lemma slen_le_bytes k n : String.length (le_bytes k n) = k.
Proof. revert n. induction k as [|k IH]; intros n; simpl; [done|]. by rewrite IH. Qed.

Lemma of_le_bytes k n : (n < 256 ^ N.of_nat k)%N -> of_le (le_bytes k n) = n.
Proof.
  revert n. induction k as [|k IH]; intros n Hn; [simpl in *; lia|].
  simpl. rewrite Ascii.N_ascii_embedding by (apply N.mod_lt; lia).
  rewrite IH; [pose proof (N.div_mod n 256); lia|].
  apply N.Div0.div_lt_upper_bound. by rewrite <- N.pow_succ_r', <- Nnat.Nat2N.inj_succ.
Qed.

(** Entries that fit a 64-bit length. *)
Definition fits (d : string) : Prop := (slen d < 2 ^ 64)%N.

Lemma read_frame fuel d s :
  fits d ->
  read_entries (S fuel) (frame d +:+ s) =
  (DataEntry (slen d) d :: (read_entries fuel s).1, (read_entries fuel s).2).
Proof.
  intros Hd. unfold frame. rewrite sapp_assoc.
  assert (H8 : String.length (le_bytes 8 (slen d)) = 8%nat) by apply slen_le_bytes.
  assert (Hle : of_le (le_bytes 8 (slen d)) = slen d) by (by apply of_le_bytes).
  generalize dependent (le_bytes 8 (slen d)). intros h H8 Hle. cbn [read_entries].
  rewrite decide_False.
  2:{ rewrite slen_app. unfold slen at 1. rewrite H8. lia. }
  rewrite <- H8, stake_app, sdrop_app, Hle.
  rewrite decide_False by (rewrite slen_app; lia).
  replace (N.to_nat (slen d)) with (String.length d) by (unfold slen; lia).
  rewrite sdrop_app, stake_app. by destruct (read_entries fuel s).
Qed.

Definition data_entry (d : string) : SegmentEntry := DataEntry (slen d) d.

Lemma read_frames fuel ds rest :
  Forall fits ds ->
  read_entries (length ds + fuel) (frames ds +:+ rest) =
  ((data_entry <$> ds) ++ (read_entries fuel rest).1, (read_entries fuel rest).2).
Proof.
  induction ds as [|d ds IH]; intros Hf; [apply surjective_pairing|].
  apply Forall_cons in Hf as [Hd Hf]. change (frames (d :: ds)) with (frame d +:+ frames ds).
  simpl length. rewrite Nat.add_succ_l, sapp_assoc, read_frame by done. by rewrite IH.
Qed.

Lemma frames_app ds es : frames (ds ++ es) = frames ds +:+ frames es.
Proof.
  induction ds as [|d ds IH]; [done|]. change (frames ((d :: ds) ++ es)) with (frame d +:+ frames (ds ++ es)).
  by rewrite IH, <- sapp_assoc.
Qed.

Lemma slen_frame d : slen (frame d) = (8 + slen d)%N.
Proof. unfold frame. rewrite slen_app. unfold slen at 1. by rewrite slen_le_bytes. Qed.

Lemma slen_frames ds : (N.of_nat (length ds) <= slen (frames ds))%N.
Proof.
  induction ds as [|d ds IH]; [done|]. change (frames (d :: ds)) with (frame d +:+ frames ds).
  rewrite slen_app, slen_frame. simpl length. lia.
Qed.

(** Reading [frames ds] with some bytes left over. *)
Lemma read_segment_app ds rest :
  Forall fits ds -> exists fuel, (0 < fuel)%nat /\
  read_segment (frames ds +:+ rest) =
  ((data_entry <$> ds) ++ (read_entries fuel rest).1, (read_entries fuel rest).2).
Proof.
  intros Hf. unfold read_segment. set (n := String.length _).
  assert (Hn : (length ds <= n)%nat).
  { pose proof (slen_frames ds). pose proof (slen_app (frames ds) rest). unfold slen in *. lia. }
  exists (S n - length ds)%nat. split; [lia|].
  replace (S n) with (length ds + (S n - length ds))%nat at 1 by lia. by apply read_frames.
Qed.

Lemma read_segment_frames ds : Forall fits ds -> read_segment (frames ds) = (data_entry <$> ds, Ok tt).
Proof.
  intros Hf. destruct (read_segment_app ds "" Hf) as (fuel & Hfu & Heq).
  rewrite sapp_nil_r in Heq. rewrite Heq. destruct fuel; [lia|]. simpl. by rewrite app_nil_r.
Qed.

(** A prefix of a sequence of frames: whole frames, then part of the next one. *)
Lemma stake_frames n ds :
  exists k rest, stake n (frames ds) = frames (take k ds) +:+ rest /\
    ((ds !! k = None /\ rest = "") \/ exists d m, ds !! k = Some d /\ rest = stake m (frame d) /\ (slen rest < slen (frame d))%N).
Proof.
  revert n. induction ds as [|d ds IH]; intros n.
  { exists 0%nat, "". split; [by destruct n|by left]. }
  change (frames (d :: ds)) with (frame d +:+ frames ds).
  destruct (decide (n < String.length (frame d))%nat) as [Hlt|Hge].
  - exists 0%nat, (stake n (frame d)). split.
    + by rewrite stake_app_lt by lia.
    + right. exists d, n. split_and!; [done..|]. rewrite slen_stake. unfold slen. lia.
  - destruct (IH (n - String.length (frame d))%nat) as (k & rest & Heq & Hr).
    exists (S k), rest. split; [|done]. change (take (S k) (d :: ds)) with (d :: take k ds).
    change (frames (d :: take k ds)) with (frame d +:+ frames (take k ds)).
    by rewrite sapp_assoc, <- Heq, stake_app_ge by lia.
Qed.

Lemma read_torn_body fuel d m :
  fits d -> (0 < fuel)%nat -> let rest := stake m (frame d) in
  (8 <= slen rest)%N -> (slen rest < slen (frame d))%N ->
  read_entries fuel rest = ([], Err (EOther "read_exact")).
Proof.
  intros Hd Hfu rest H8 Hlt. destruct fuel as [|fuel]; [lia|]. cbn [read_entries].
  rewrite decide_False by lia.
  assert (Hm : (8 <= m)%nat) by (unfold rest in H8; rewrite slen_stake in H8; lia).
  assert (Hrest : rest = le_bytes 8 (slen d) +:+ stake (m - 8) d).
  { unfold rest, frame. rewrite stake_app_ge; rewrite slen_le_bytes; [done|lia]. }
  rewrite slen_frame in Hlt. clearbody rest. subst rest.
  pose proof (slen_le_bytes 8 (slen d)) as Hl8.
  assert (Hle : of_le (le_bytes 8 (slen d)) = slen d) by (by apply of_le_bytes).
  set (h := le_bytes 8 (slen d)) in *. set (b := stake (m - 8) d) in *. clearbody h b.
  assert (slen h = 8)%N by (unfold slen; by rewrite Hl8).
  rewrite slen_app in Hlt. rewrite <- Hl8, stake_app, sdrop_app, Hle, decide_True by lia. done.
Qed.

(** * Segment names *)

Fixpoint all_digits (s : string) : Prop :=
  match s with EmptyString => True | String a s => is_Some (digit_of a) /\ all_digits s end.
Fixpoint lacks (c : Ascii.ascii) (s : string) : Prop :=
  match s with EmptyString => True | String a s => a <> c /\ lacks c s end.

Lemma digit_of_pretty x : (x < 10)%N -> digit_of (pretty_N_char x) = Some x.
Proof.
  intros Hx. destruct x as [|p]; [done|].
  do 4 (destruct p as [p|p|]; try done); lia.
Qed.

Lemma pretty_go_digits x s :
  all_digits s -> all_digits (pretty_N_go x s) /\
  (s <> "" -> pretty_N_go x s <> "") /\
  parse_digits 0 (pretty_N_go x s) = parse_digits x s.
Proof.
  revert s. induction (N.lt_wf_0 x) as [x _ IH]. intros s Hs.
  destruct (decide (0 < x)%N) as [Hx|Hx].
  - rewrite pretty_N_go_step by done.
    assert (Hd : digit_of (pretty_N_char (x `mod` 10)) = Some (x `mod` 10)%N)
      by (apply digit_of_pretty, N.mod_lt; lia).
    destruct (IH (x `div` 10)%N (N.div_lt x 10 Hx eq_refl) (String (pretty_N_char (x `mod` 10)) s))
      as (H1 & H2 & H3); [by split; [rewrite Hd|]|].
    split_and!; [done|by intros; apply H2|]. rewrite H3. simpl. rewrite Hd. f_equal.
    pose proof (N.div_mod x 10). lia.
  - replace x with 0%N by lia. by rewrite pretty_N_go_0.
Qed.

Lemma pretty_N_digits (n : N) :
  all_digits (pretty n) /\ pretty n <> "" /\ parse_digits 0 (pretty n) = Some n.
Proof.
  destruct (decide (n = 0%N)) as [->|Hn]; [by split_and!; [split|..]|].
  unfold pretty, pretty_N. rewrite decide_False by done.
  destruct (pretty_go_digits n "") as (H1 & _ & H3); [done|]. split_and!; [done| |by rewrite H3].
  rewrite pretty_N_go_step by lia. apply pretty_go_digits; [|done].
  split; [|done]. rewrite digit_of_pretty by (apply N.mod_lt; lia). done.
Qed.

Lemma pretty_Z_N (z : Z) : 0 <= z -> pretty z = pretty (Z.to_N z).
Proof. by destruct z. Qed.

Lemma digits_lack c s : digit_of c = None -> all_digits s -> lacks c s.
Proof.
  intros Hc. induction s as [|a s IH]; simpl; [done|]. intros [[d Hd] Hs]. split; [|auto].
  intros ->. congruence.
Qed.

Lemma parse_unsigned_pretty b (n : N) : (n < b)%N -> parse_unsigned b (pretty n) = Some n.
Proof.
  intros Hn. destruct (pretty_N_digits n) as (Hd & Hne & Hp). unfold parse_unsigned.
  destruct (pretty n) as [|a s] eqn:E; [done|]. rewrite decide_False.
  - rewrite Hp. by rewrite decide_True.
  - intros ->. destruct Hd as [[? Hd] _]. done.
Qed.

Lemma split_at_lacks c s : lacks c s -> split_at c s = [s].
Proof.
  induction s as [|a s IH]; simpl; [done|]. intros [Ha Hs]. by rewrite decide_False, IH.
Qed.
Lemma split_at_app c s t : lacks c s -> split_at c (s +:+ String c t) = s :: split_at c t.
Proof.
  induction s as [|a s IH]; [by simpl; rewrite decide_True|]. intros [Ha Hs].
  rewrite sapp_cons. simpl. by rewrite decide_False, IH.
Qed.

Lemma lacks_app c s t : lacks c s -> lacks c t -> lacks c (s +:+ t).
Proof. induction s as [|a s IH]; [done|]. intros [? ?] ?. split; [done|]. by apply IH. Qed.

Lemma prefix_lacks t c : c = underscore \/ c = dot -> lacks c (segment_prefix t).
Proof. intros [->| ->]; destruct t; by split_and!. Qed.

Lemma under_cons (s : string) : "_" +:+ s = String underscore s.
Proof. done. Qed.

(** The three parts of a segment name, with an extension added or not. *)
Lemma segment_name_split t idx now ext :
  0 <= now -> lacks underscore ext ->
  split_at underscore (segment_name t idx now +:+ ext) =
  [segment_prefix t; pretty idx; pretty (now / 1000) +:+ ".wal" +:+ ext].
Proof.
  intros Hn He. unfold segment_name, segment_suffix. rewrite sapp_nil_r, !sapp_assoc.
  rewrite !under_cons.
  destruct (pretty_N_digits idx) as (Hd & _ & _).
  assert (Hz : 0 <= now / 1000) by (apply Z.div_pos; lia). rewrite pretty_Z_N by done.
  destruct (pretty_N_digits (Z.to_N (now / 1000))) as (Hd' & _ & _).
  rewrite split_at_app by (apply prefix_lacks; by left).
  rewrite split_at_app by (by apply digits_lack).
  rewrite split_at_lacks; [done|]. apply lacks_app; [by apply digits_lack|]. by split_and!.
Qed.

Lemma segment_name_parse t idx now ext :
  0 <= now / 1000 < 2 ^ 64 -> (idx < 2 ^ 32)%N -> lacks underscore ext ->
  parse_segment_create_micros (segment_name t idx now +:+ ext) = Z.to_N (now / 1000) /\
  parse_segment_file_index (segment_name t idx now +:+ ext) = idx.
Proof.
  intros Hn Hi He. assert (0 <= now) by (pose proof (Z.div_mod now 1000); pose proof (Z.mod_pos_bound now 1000); lia).
  unfold parse_segment_create_micros, parse_segment_file_index.
  rewrite segment_name_split by done. simpl. split.
  - rewrite pretty_Z_N by lia. destruct (pretty_N_digits (Z.to_N (now / 1000))) as (Hd & _ & _).
    change (".wal" +:+ ext) with (String dot ("wal" +:+ ext)).
    rewrite split_at_app by (by apply digits_lack). simpl. rewrite parse_unsigned_pretty; [done|lia].
  - rewrite parse_unsigned_pretty by done. done.
Qed.

Lemma segment_base t i ts r :
  lacks dot i -> lacks dot ts ->
  split_at dot (segment_prefix t +:+ String underscore (i +:+ String underscore (ts +:+ String dot r))) =
  (segment_prefix t +:+ String underscore (i +:+ String underscore ts)) :: split_at dot r.
Proof.
  intros Hi Ht. rewrite <- split_at_app.
  - by rewrite !sapp_assoc, !sapp_cons, !sapp_assoc.
  - apply lacks_app; [apply prefix_lacks; by right|]. split; [done|]. apply lacks_app; [done|by split].
Qed.

Lemma starts_with_app p s : starts_with p (p +:+ s) = true.
Proof. induction p as [|a p IH]; [done|]. rewrite sapp_cons. simpl. by rewrite bool_decide_true. Qed.

Lemma starts_with_more p s s' : starts_with p s = true -> starts_with p (s +:+ s') = true.
Proof.
  revert s. induction p as [|a p IH]; intros [|b s]; try done. rewrite sapp_cons. simpl.
  rewrite !andb_true_iff. naive_solver.
Qed.

Lemma segment_name_ext t idx now :
  0 <= now ->
  extension (segment_name t idx now) = Some "wal" /\
  extension (frozen_name (segment_name t idx now)) = Some "frozen" /\
  starts_with (segment_prefix t) (frozen_name (segment_name t idx now)) = true.
Proof.
  intros Hn. unfold frozen_name, segment_name, segment_suffix. rewrite sapp_nil_r, !sapp_assoc.
  split_and!; [| |apply starts_with_app];
    rewrite !under_cons; rewrite pretty_Z_N by (apply Z.div_pos; lia);
    destruct (pretty_N_digits idx) as (Hd & _ & _);
    destruct (pretty_N_digits (Z.to_N (now / 1000))) as (Hd' & _ & _); unfold extension.
  - rewrite (segment_base t (pretty idx) (pretty (Z.to_N (now / 1000))) "wal") by (done || by apply digits_lack).
    by destruct t.
  - rewrite (segment_base t (pretty idx) (pretty (Z.to_N (now / 1000))) ("wal" +:+ ".frozen"))
      by (done || by apply digits_lack). by destruct t.
Qed.

(** * Sorting *)

(** The sort key of a file. *)
Definition key_le (a b : string) : Prop := segment_le a b = true.

Lemma segment_le_spec a b :
  key_le a b <->
  (parse_segment_create_micros a < parse_segment_create_micros b)%N \/
  (parse_segment_create_micros a = parse_segment_create_micros b /\
   (parse_segment_file_index a <= parse_segment_file_index b)%N).
Proof.
  unfold key_le, segment_le. destruct (N.compare_spec (parse_segment_create_micros a) (parse_segment_create_micros b)) as [E|E|E].
  - rewrite N.leb_le. lia.
  - intuition lia.
  - split; [done|lia].
Qed.

#[global] Instance key_le_trans : Transitive key_le.
Proof. intros a b c. rewrite !segment_le_spec. lia. Qed.

Lemma key_le_total a b : key_le a b \/ key_le b a.
Proof. rewrite !segment_le_spec. lia. Qed.

Lemma insert_file_perm f fs : insert_file f fs ≡ₚ f :: fs.
Proof.
  induction fs as [|g fs IH]; simpl; [done|]. case_match; [done|]. rewrite IH. by constructor.
Qed.
Lemma sort_filenames_perm fs : sort_filenames fs ≡ₚ fs.
Proof. induction fs as [|f fs IH]; simpl; [done|]. by rewrite insert_file_perm, IH. Qed.

Lemma insert_file_sorted f fs : StronglySorted key_le fs -> StronglySorted key_le (insert_file f fs).
Proof.
  induction 1 as [|g fs Hs IH Hg]; simpl; [repeat constructor|]. case_match eqn:E.
  - constructor; [by constructor|]. constructor; [done|].
    eapply Forall_impl; [exact Hg|]. intros h Hh. by etrans.
  - constructor; [done|]. rewrite insert_file_perm. constructor; [|done].
    destruct (key_le_total f g) as [Hc|Hc]; [|done]. unfold key_le in Hc. congruence.
Qed.

Lemma sort_filenames_sorted fs : StronglySorted key_le (sort_filenames fs).
Proof. induction fs as [|f fs IH]; simpl; [constructor|]. by apply insert_file_sorted. Qed.

(** Files whose keys differ have one sorted order. *)
Definition key_lt (a b : string) : Prop := key_le a b /\ ~ key_le b a.

Lemma StronglySorted_total (gs : list string) a b :
  StronglySorted key_lt gs -> a ∈ gs -> b ∈ gs -> a = b \/ key_lt a b \/ key_lt b a.
Proof.
  induction 1 as [|g gs _ IH Hg]; [by intros ?%elem_of_nil|]. rewrite Forall_forall in Hg.
  rewrite !elem_of_cons. intros [->|Ha] [->|Hb]; auto.
Qed.

Lemma sort_filenames_unique fs gs : StronglySorted key_lt gs -> fs ≡ₚ gs -> sort_filenames fs = gs.
Proof.
  intros Hg Hp. assert (Hle : StronglySorted key_le gs).
  { clear -Hg. induction Hg as [|g gs _ IH Hg]; constructor; [done|]. eapply Forall_impl; [exact Hg|]. by intros ? []. }
  apply (StronglySorted_unique_strong key_le); [|apply sort_filenames_sorted|done|by rewrite sort_filenames_perm].
  intros a b Ha Hb H1 H2. rewrite sort_filenames_perm, Hp in Ha.
  destruct (StronglySorted_total gs a b Hg Ha Hb) as [?|[[_ ?]|[_ ?]]]; done.
Qed.

(** * The writer *)

(** A file that replay of this type of log would read. *)
Definition listed (t : WalType) (f : string) : Prop :=
  starts_with (segment_prefix t) f = true /\ extension f = Some "frozen".

Definition good (d : string) : Prop := fits d /\ d <> "".
Definition total_size (ds : list string) : Z := foldr (fun d z => Z.of_N (slen d) + z) 0 ds.

Lemma total_size_app ds es : total_size (ds ++ es) = total_size ds + total_size es.
Proof. induction ds as [|d ds IH]; simpl; lia. Qed.

Lemma total_size_pos ds : Forall good ds -> 0 <= total_size ds /\ (total_size ds = 0 <-> ds = []).
Proof.
  induction 1 as [|d ds [_ Hd] _ [IH1 IH2]]; simpl; [done|].
  assert (0 < Z.of_N (slen d)) by (unfold slen; destruct d; simpl; [done|lia]).
  split; [lia|]. split; [lia|done].
Qed.

Definition cur_key (a : SegmentWriteActor) : string := frozen_name (current_file_name a).

#[global] Instance key_lt_trans : Transitive key_lt.
Proof. intros a b c [H1 H2] [H3 H4]. split; [by etrans|]. intros H5. apply H2. by etrans. Qed.

Lemma key_lt_irrefl a : ~ key_lt a a.
Proof. by intros [? ?]. Qed.

Section Writer.
Context (t : WalType).

(** [F]: the frozen segments in order, each with the entries it holds; [cur]: the entries of
    the current segment; [last]: the latest reading of the clock; [k] bounds the index. *)
Record winv (a : SegmentWriteActor) (dir : gmap string string) (F : list (string * list string))
    (cur : list string) (last : DateTime) (k : N) : Prop := {
  wi_type : wal_type a = t;
  wi_name : current_file_name a = segment_name t (file_index a) (create_time a);
  wi_index : (file_index a <= k)%N;
  wi_time : 0 <= create_time a <= last;
  wi_order : StronglySorted key_lt (F.*1 ++ [cur_key a]);
  wi_cur : exists disk, dir !! current_file_name a = Some disk /\ disk +:+ current_file_buf a = frames cur;
  wi_frozen : forall f ds, (f, ds) ∈ F -> dir !! f = Some (frames ds) /\ listed t f /\ Forall good ds;
  wi_only : forall f, is_Some (dir !! f) -> listed t f -> f ∈ F.*1;
  wi_size : current_size a = total_size cur;
  wi_good : Forall good cur
}.

Lemma winv_weaken a dir F cur last k last' k' :
  winv a dir F cur last k -> last <= last' -> (k <= k')%N -> winv a dir F cur last' k'.
Proof. intros [] ? ?. split; try done; lia. Qed.

(** The current file is not one that replay reads. *)
Lemma current_not_listed a dir F cur last k : winv a dir F cur last k -> ~ listed t (current_file_name a).
Proof.
  intros Hw [_ He]. rewrite (wi_name _ _ _ _ _ _ Hw) in He.
  destruct (segment_name_ext t (file_index a) (create_time a)) as (Hx & _); [apply (wi_time _ _ _ _ _ _ Hw)|].
  congruence.
Qed.

Lemma current_not_frozen a dir F cur last k f ds :
  winv a dir F cur last k -> (f, ds) ∈ F -> f <> current_file_name a.
Proof.
  intros Hw Hf ->. apply (current_not_listed _ _ _ _ _ _ Hw). by eapply wi_frozen.
Qed.

(** Writing part of the buffer to the file. *)
Lemma spill_inv a dir F cur last k disk b1 b2 :
  winv a dir F cur last k -> dir !! current_file_name a = Some disk -> current_file_buf a = b1 +:+ b2 ->
  winv (set_buf a b2) (<[current_file_name a := disk +:+ b1]> dir) F cur last k.
Proof.
  intros Hw Hd Hb. pose proof (current_not_listed _ _ _ _ _ _ Hw) as Hnl.
  pose proof (fun f ds => current_not_frozen _ _ _ _ _ _ f ds Hw) as Hnf.
  destruct Hw as [? ? ? ? ? (disk' & Hd' & Hc) Hfz Honly ? ?]. split; simpl; try done.
  - exists (disk +:+ b1). rewrite lookup_insert_eq. split; [done|].
    rewrite Hd in Hd'. injection Hd' as <-. by rewrite sapp_assoc, <- Hb.
  - intros f ds Hf. rewrite lookup_insert_ne by (intros E; by eapply Hnf). by apply Hfz.
  - intros f [c Hf] Hl. apply Honly; [|done]. rewrite lookup_insert_ne in Hf by (by intros <-). eauto.
Qed.

Lemma flush_inv a dir F cur last k :
  winv a dir F cur last k ->
  winv (flush a dir).1 (flush a dir).2 F cur last k /\
  (flush a dir).2 !! current_file_name a = Some (frames cur) /\ current_file_buf (flush a dir).1 = "".
Proof.
  intros Hw. destruct (wi_cur _ _ _ _ _ _ Hw) as (disk & Hd & Hc). unfold flush. simpl. rewrite Hd. simpl.
  split_and!; [|by rewrite lookup_insert_eq, Hc|done].
  eapply spill_inv; [done..|]. by rewrite sapp_nil_r.
Qed.

(** The key of a segment opened later is larger. *)
Lemma later_key idx idx' now now' :
  0 <= now <= now' -> now' / 1000 < 2 ^ 64 -> (idx < idx')%N -> (idx' < 2 ^ 32)%N ->
  key_lt (frozen_name (segment_name t idx now)) (frozen_name (segment_name t idx' now')).
Proof.
  intros Hn Hb Hi Hi'. assert (now / 1000 <= now' / 1000) by (apply Z.div_le_mono; lia).
  assert (0 <= now / 1000) by (apply Z.div_pos; lia).
  unfold key_lt. rewrite !segment_le_spec. unfold frozen_name.
  destruct (segment_name_parse t idx now ".frozen") as [-> ->]; [lia|lia|by split_and!|].
  destruct (segment_name_parse t idx' now' ".frozen") as [-> ->]; [lia|lia|by split_and!|]. lia.
Qed.

Lemma cur_key_listed a dir F cur last k : winv a dir F cur last k -> listed t (cur_key a).
Proof.
  intros Hw. unfold cur_key. rewrite (wi_name _ _ _ _ _ _ Hw).
  destruct (segment_name_ext t (file_index a) (create_time a)) as (_ & He & Hs); [apply (wi_time _ _ _ _ _ _ Hw)|].
  by split.
Qed.

Lemma cur_key_fresh a dir F cur last k : winv a dir F cur last k -> cur_key a ∉ F.*1.
Proof.
  intros Hw Hin. eapply key_lt_irrefl, (StronglySorted_app_1_elem_of _ _ _ _ _ (wi_order _ _ _ _ _ _ Hw)); [done|].
  by left.
Qed.

(** The directory with the current segment frozen. *)
Lemma freeze_dir a dir F cur last k :
  winv a dir F cur last k ->
  let dir2 := rename (current_file_name a) (cur_key a) (flush a dir).2 in
  let F' := F ++ [(cur_key a, cur)] in
  (forall f ds, (f, ds) ∈ F' -> dir2 !! f = Some (frames ds) /\ listed t f /\ Forall good ds) /\
  (forall f, is_Some (dir2 !! f) -> listed t f -> f ∈ F'.*1).
Proof.
  intros Hw dir2 F'. destruct (flush_inv _ _ _ _ _ _ Hw) as (Hw1 & Hcont & _).
  pose proof (cur_key_listed _ _ _ _ _ _ Hw) as Hkl. pose proof (cur_key_fresh _ _ _ _ _ _ Hw) as Hkf.
  pose proof (current_not_listed _ _ _ _ _ _ Hw) as Hnl.
  assert (Hne : cur_key a <> current_file_name a) by (intros He; rewrite He in Hkl; done).
  assert (Hd2 : dir2 = <[cur_key a := frames cur]> (delete (current_file_name a) (flush a dir).2)).
  { unfold dir2, rename. by rewrite Hcont. }
  rewrite Hd2. split.
  - intros f ds [Hf|Hf]%elem_of_app.
    + destruct (wi_frozen _ _ _ _ _ _ Hw1 f ds Hf) as (Hc & Hl & Hg).
      assert (f <> cur_key a) by (intros ->; apply Hkf, list_elem_of_fmap; by exists (cur_key a, ds)).
      assert (f <> current_file_name a) by (by intros ->).
      by rewrite lookup_insert_ne, lookup_delete_ne.
    + apply list_elem_of_singleton in Hf. injection Hf as -> ->. rewrite lookup_insert_eq.
      split_and!; [done..|]. apply (wi_good _ _ _ _ _ _ Hw).
  - intros f [c Hf] Hl. unfold F'. rewrite fmap_app, elem_of_app.
    destruct (decide (f = cur_key a)) as [->|Hk]; [right; by left|]. left.
    rewrite lookup_insert_ne, lookup_delete_ne in Hf by (by intros <-).
    apply (wi_only _ _ _ _ _ _ Hw1); eauto.
Qed.

(** Freezing the current segment and opening the next. *)
Lemma rotate_inv a dir F cur last k now :
  winv a dir F cur last k -> last <= now -> now / 1000 < 2 ^ 64 -> (k + 1 < 2 ^ 32)%N ->
  exists G cur', winv (rotate_file true now a dir).1 (rotate_file true now a dir).2 (F ++ G) cur' now (k + 1) /\
    concat (G.*2) ++ cur' = cur.
Proof.
  intros Hw Hl Hb Hk. unfold rotate_file. rewrite (wi_size _ _ _ _ _ _ Hw).
  destruct (total_size_pos cur (wi_good _ _ _ _ _ _ Hw)) as [_ Hz].
  destruct (Z.eqb_spec (total_size cur) 0) as [H0|H0].
  { exists [], cur. rewrite app_nil_r. split; [|done]. simpl. eapply winv_weaken; [done|done|lia]. }
  destruct (freeze_dir _ _ _ _ _ _ Hw) as [Hfz Honly].
  pose proof (cur_key_listed _ _ _ _ _ _ Hw) as Hkl.
  unfold flush, open_segment in *. simpl in *. fold (cur_key a).
  set (dir2 := rename _ _ _) in *. exists [(cur_key a, cur)], []. split.
  2:{ simpl. by rewrite !app_nil_r. }
  pose proof (wi_time _ _ _ _ _ _ Hw) as Ht. pose proof (wi_index _ _ _ _ _ _ Hw) as Hi.
  destruct (segment_name_ext t (file_index a + 1) now) as (Hext & _ & _); [lia|].
  assert (Hnew : ~ listed t (segment_name t (file_index a + 1) now)) by (intros [_ He]; congruence).
  rewrite (wi_type _ _ _ _ _ _ Hw). split; simpl; try done; [lia|lia| |by eexists; rewrite lookup_insert_eq| |].
  - rewrite fmap_app. simpl. unfold cur_key at 2. simpl.
    assert (Hlt : key_lt (cur_key a) (frozen_name (segment_name t (file_index a + 1) now))).
    { unfold cur_key. rewrite (wi_name _ _ _ _ _ _ Hw). apply later_key; lia. }
    pose proof (wi_order _ _ _ _ _ _ Hw) as Ho.
    apply StronglySorted_app_2; [|done|repeat constructor].
    intros x y [Hx|Hx]%elem_of_app ->%list_elem_of_singleton.
    + etrans; [|exact Hlt]. eapply StronglySorted_app_1_elem_of; [exact Ho|done|by left].
    + apply list_elem_of_singleton in Hx as ->. done.
  - intros f ds Hf. destruct (Hfz f ds Hf) as (Hc & Hlf & Hg). split_and!; try done.
    rewrite lookup_insert_ne; [done|]. by intros <-.
  - intros f [c Hf] Hlf. apply Honly; [|done]. rewrite lookup_insert_ne in Hf by (by intros <-). eauto.
Qed.

Lemma rotate_if_inv (b : bool) a dir F cur last k now :
  winv a dir F cur last k -> last <= now -> now / 1000 < 2 ^ 64 -> (k + 1 < 2 ^ 32)%N ->
  let r := if b then rotate_file true now a dir else (a, dir) in
  exists G cur', winv r.1 r.2 (F ++ G) cur' now (k + 1) /\ concat (G.*2) ++ cur' = cur.
Proof.
  intros Hw Hl Hb Hk r. destruct b; [by apply (rotate_inv _ _ _ _ last)|].
  exists [], cur. rewrite app_nil_r. split; [|done]. eapply winv_weaken; [done|done|lia].
Qed.

(** Appending an entry to the buffer. *)
Lemma append_inv a dir F cur last k d :
  winv a dir F cur last k -> good d ->
  winv (mkActor (wal_type a) (current_file_name a) (create_time a) (current_file_buf a +:+ frame d)
     (current_size a + Z.of_N (slen d)) (file_index a) (max_file_size a) (max_segment_age a)) dir
     F (cur ++ [d]) last k.
Proof.
  intros [? ? ? ? ? (disk & Hd & Hc) ? ? Hs ?] Hg. split; simpl; try done.
  - exists disk. split; [done|]. rewrite <- sapp_assoc, Hc, frames_app. simpl. by rewrite sapp_nil_r.
  - rewrite Hs, total_size_app. simpl. lia.
  - by apply Forall_app_2; [|constructor].
Qed.

Lemma write_inv a dir F cur last k now d :
  winv a dir F cur last k -> last <= now -> now / 1000 < 2 ^ 64 -> (k + 2 < 2 ^ 32)%N -> good d ->
  exists G cur', winv (write_data now d a dir).1 (write_data now d a dir).2 (F ++ G) cur' now (k + 2) /\
    concat (G.*2) ++ cur' = cur ++ [d].
Proof.
  intros Hw Hl Hb Hk Hg. unfold write_data.
  edestruct (rotate_if_inv ((0 <? current_size a) && (max_file_size a <=? current_size a + Z.of_N (slen d)))
    _ _ _ _ _ _ now Hw) as (G1 & c1 & Hw1 & E1); [done|done|lia|].
  destruct (if (0 <? current_size a) && _ then _ else _) as [a1 dir1]. simpl in Hw1.
  edestruct (rotate_if_inv ((0 <? current_size a1) && (max_segment_age a1 <? now - create_time a1))
    _ _ _ _ _ _ now Hw1) as (G2 & c2 & Hw2 & E2); [done|done|lia|].
  destruct (if (0 <? current_size a1) && _ then _ else _) as [a2 dir2]. simpl in Hw2.
  exists (G1 ++ G2), (c2 ++ [d]). split.
  - simpl. rewrite app_assoc. apply append_inv; [|done]. eapply winv_weaken; [done|done|lia].
  - rewrite fmap_app, concat_app, <- E1, <- E2, <- !app_assoc. done.
Qed.

Definition event_data (e : WEvent) : list string := match e with Write d => [d] | _ => [] end.

Lemma wexec_inv a dir F cur last k now e :
  winv a dir F cur last k -> last <= now -> now / 1000 < 2 ^ 64 -> (k + 2 < 2 ^ 32)%N ->
  Forall good (event_data e) ->
  exists G cur', winv (wexec now e a dir).1 (wexec now e a dir).2 (F ++ G) cur' now (k + 2) /\
    concat (G.*2) ++ cur' = cur ++ event_data e.
Proof.
  intros Hw Hl Hb Hk Hg.
  assert (Hr : forall b : bool, exists G cur',
    winv (if b then rotate_file true now a dir else (a, dir)).1
         (if b then rotate_file true now a dir else (a, dir)).2 (F ++ G) cur' now (k + 2) /\
    concat (G.*2) ++ cur' = cur).
  { intros b. edestruct (rotate_if_inv b _ _ _ _ _ _ now Hw) as (G & c & Hw' & E); [done|done|lia|].
    exists G, c. split; [|done]. eapply winv_weaken; [done|done|lia]. }
  assert (Hsame : forall a' dir', winv a' dir' F cur last k -> exists G cur',
    winv a' dir' (F ++ G) cur' now (k + 2) /\ concat (G.*2) ++ cur' = cur).
  { intros a' dir' Hw'. exists [], cur. rewrite app_nil_r. split; [|done]. eapply winv_weaken; [done|done|lia]. }
  destruct e as [d|on_size| | |n]; cbn [wexec event_data]; rewrite ?app_nil_r.
  - eapply write_inv; [done..|]. by inversion Hg.
  - apply Hr.
  - unfold flush_and_rotate. destruct (_ <? _); [apply (Hr true)|]. apply Hsame, flush_inv; done.
  - apply Hsame, flush_inv; done.
  - simpl. apply Hsame. destruct (wi_cur _ _ _ _ _ _ Hw) as (disk & Hd & _). rewrite Hd. simpl.
    eapply spill_inv; [done..|]. by rewrite stake_sdrop.
Qed.
End Writer.

(** The writer touches no file outside its own prefix. *)
Definition owns (t : WalType) (a : SegmentWriteActor) : Prop :=
  wal_type a = t /\ starts_with (segment_prefix t) (current_file_name a) = true.
Definition outside (t : WalType) (f : string) : Prop := starts_with (segment_prefix t) f = false.

Lemma owns_outside t a s f : owns t a -> outside t f -> f <> current_file_name a +:+ s.
Proof.
  intros [_ Ho] Hf ->. unfold outside in Hf. rewrite (starts_with_more _ _ s Ho) in Hf. done.
Qed.

Lemma write_other t a f v dir : owns t a -> outside t f -> (<[current_file_name a := v]> dir) !! f = (dir : gmap string string) !! f.
Proof.
  intros Ho Hf. apply lookup_insert_ne. intros E. apply (owns_outside t a "" f Ho Hf). by rewrite sapp_nil_r.
Qed.

Lemma rotate_other t b now a dir f :
  owns t a -> outside t f ->
  owns t (rotate_file b now a dir).1 /\ (rotate_file b now a dir).2 !! f = dir !! f.
Proof.
  intros Ho Hf. unfold rotate_file. destruct (_ =? _); [done|]. unfold flush, open_segment. simpl.
  set (dir1 := <[current_file_name a := _]> dir).
  assert (H2 : rename (current_file_name a) (frozen_name (current_file_name a)) dir1 !! f = dir !! f).
  { transitivity (dir1 !! f); [|by apply (write_other t)]. unfold rename.
    destruct (dir1 !! current_file_name a); [|done].
    rewrite lookup_insert_ne by (intros E; by apply (owns_outside t a ".frozen" f Ho Hf)).
    apply lookup_delete_ne. intros E. apply (owns_outside t a "" f Ho Hf). by rewrite sapp_nil_r. }
  destruct b; simpl; [|by split]. destruct Ho as [Ht Ho]. rewrite Ht.
  assert (Hn : owns t (mkActor t (segment_name t (file_index a + 1) now) now "" 0 (file_index a + 1)
    (max_file_size a) (max_segment_age a))) by (split; [done|apply starts_with_app]).
  split; [done|]. rewrite <- H2. by apply (write_other t (mkActor t (segment_name t (file_index a + 1) now) now "" 0
    (file_index a + 1) (max_file_size a) (max_segment_age a))).
Qed.

Lemma wexec_other t now e a dir f :
  owns t a -> outside t f -> owns t (wexec now e a dir).1 /\ (wexec now e a dir).2 !! f = dir !! f.
Proof.
  intros Ho Hf.
  assert (Hr : forall (b : bool) a dir, owns t a ->
    owns t (if b then rotate_file true now a dir else (a, dir)).1 /\
    (if b then rotate_file true now a dir else (a, dir)).2 !! f = dir !! f).
  { intros [] a' dir' Ho'; [by apply rotate_other|done]. }
  destruct e as [d|on_size| | |n]; cbn [wexec].
  - unfold write_data.
    destruct (Hr ((0 <? current_size a) && (max_file_size a <=? current_size a + Z.of_N (slen d))) a dir Ho) as [H1 E1].
    destruct (if (0 <? current_size a) && _ then _ else _) as [a1 dir1]. simpl in H1, E1.
    destruct (Hr ((0 <? current_size a1) && (max_segment_age a1 <? now - create_time a1)) a1 dir1 H1) as [H2 E2].
    destruct (if (0 <? current_size a1) && _ then _ else _) as [a2 dir2]. simpl in H2, E2.
    simpl. split; [done|]. by rewrite E2, E1.
  - by apply Hr.
  - unfold flush_and_rotate. destruct (_ <? _); [by apply (Hr true)|]. simpl. split; [done|]. by apply (write_other t).
  - simpl. split; [done|]. by apply (write_other t).
  - simpl. split; [done|]. by apply (write_other t).
Qed.

(** The clock does not go back and stays within the 64 bits of the names. *)
Fixpoint clock_ok (last : DateTime) (es : list (DateTime * WEvent)) : Prop :=
  match es with
  | [] => True
  | (now, _) :: es => last <= now /\ now / 1000 < 2 ^ 64 /\ clock_ok now es
  end.

Lemma written_cons now e es : written ((now, e) :: es) = event_data e ++ written es.
Proof. by destruct e. Qed.

Lemma wrun_inv t a dir F cur last k es :
  winv t a dir F cur last k -> clock_ok last es -> (k + 2 * N.of_nat (length es) < 2 ^ 32)%N ->
  Forall good (written es) ->
  exists G cur' last' k', winv t (wrun es a dir).1 (wrun es a dir).2 (F ++ G) cur' last' k' /\
    concat (G.*2) ++ cur' = cur ++ written es.
Proof.
  revert a dir F cur last k. induction es as [|[now e] es IH]; intros a dir F cur last k Hw Hc Hk Hg.
  { exists [], cur, last, k. by rewrite app_nil_r, app_nil_r. }
  destruct Hc as (Hl & Hb & Hc). rewrite written_cons in *. apply Forall_app in Hg as [Hg1 Hg2].
  simpl length in Hk.
  edestruct (wexec_inv t a dir F cur last k now e) as (G1 & c1 & Hw1 & E1); [done..|lia|done|].
  cbn [wrun]. destruct (wexec now e a dir) as [a1 dir1]. simpl in Hw1.
  edestruct (IH a1 dir1 (F ++ G1) c1 now (k + 2)%N) as (G2 & c2 & l2 & k2 & Hw2 & E2); [done|done|lia|done|].
  exists (G1 ++ G2), c2, l2, k2. rewrite app_assoc. split; [done|].
  rewrite fmap_app, concat_app, <- app_assoc, E2. rewrite (app_assoc (concat G1.*2)), E1. by rewrite <- app_assoc.
Qed.

(** * Replay of a directory *)

(** The log of type [t] in a directory: its frozen segments in order, with their entries. *)
Record frozen_log (t : WalType) (dir : gmap string string) (F : list (string * list string)) : Prop := {
  fl_order : StronglySorted key_lt (F.*1);
  fl_frozen : forall f ds, (f, ds) ∈ F -> dir !! f = Some (frames ds) /\ listed t f /\ Forall good ds;
  fl_only : forall f, is_Some (dir !! f) -> listed t f -> f ∈ F.*1
}.

(** What replay of such a log yields. *)
Definition log_entries (F : list (string * list string)) : list SegmentEntry :=
  concat ((fun p => (data_entry <$> p.2) ++ [CmdFileSwitch p.1]) <$> F).

Lemma log_entries_data F : omap entry_data (log_entries F) = concat (F.*2).
Proof.
  induction F as [|[f ds] F IH]; [done|].
  change (log_entries ((f, ds) :: F)) with (((data_entry <$> ds) ++ [CmdFileSwitch f]) ++ log_entries F).
  rewrite !omap_app, IH. simpl. rewrite app_nil_r. f_equal. clear. by induction ds as [|d ds IH]; simpl; f_equal.
Qed.

Lemma read_files_log t dir F :
  (forall f ds, (f, ds) ∈ F -> dir !! f = Some (frames ds) /\ listed t f /\ Forall good ds) ->
  read_files dir (F.*1) = (log_entries F, Ok tt).
Proof.
  induction F as [|[f ds] F IH]; intros Hf; [done|].
  change (((f, ds) :: F).*1) with (f :: F.*1). cbn [read_files].
  destruct (Hf f ds) as (-> & _ & Hg); [by left|].
  rewrite read_segment_frames by (eapply Forall_impl; [exact Hg|]; by intros ? []).
  rewrite IH by (intros; apply Hf; by right). unfold log_entries. simpl. by rewrite <- app_assoc.
Qed.

Lemma StronglySorted_key_NoDup fs : StronglySorted key_lt fs -> NoDup fs.
Proof.
  induction 1 as [|f fs _ IH Hf]; constructor; [|done]. intros Hin. rewrite Forall_forall in Hf.
  by apply (key_lt_irrefl f), Hf.
Qed.

(** The files replay lists are the frozen segments. *)
Lemma list_files_log `{HashOrder} t dir F : frozen_log t dir F -> list_files t dir ≡ₚ F.*1.
Proof.
  intros [Ho Hf Hon]. unfold list_files, list_files_filtered.
  assert (Hext : forall f, (starts_with (segment_prefix t) f &&
    match extension f with Some e => bool_decide (e = "frozen") | None => false end) = true <-> listed t f).
  { intros f. unfold listed. rewrite andb_true_iff. destruct (extension f) as [e|]; [|by split; intros []].
    rewrite bool_decide_eq_true. split; intros [? ?]; split; congruence. }
  apply NoDup_Permutation.
  - apply NoDup_filter, NoDup_hm_keys.
  - by apply StronglySorted_key_NoDup.
  - intros f. rewrite list_elem_of_filter, Hext, elem_of_hm_keys. split; [intros []; auto|].
    intros ([f' ds] & -> & Hin)%list_elem_of_fmap. destruct (Hf f' ds Hin) as (? & ? & _). eauto.
Qed.

Lemma replay_log `{HashOrder} t dir F : frozen_log t dir F -> streaming_read t dir = (log_entries F, Ok tt).
Proof.
  intros Hl. unfold streaming_read. rewrite (sort_filenames_unique _ (F.*1)).
  - eapply read_files_log, fl_frozen, Hl.
  - apply Hl.
  - by apply list_files_log.
Qed.

(** Opening the first segment after the ones of an earlier run. *)
Lemma start_inv t mb age now dir F :
  frozen_log t dir F -> 0 <= now -> now / 1000 < 2 ^ 64 ->
  Forall (fun f => Z.of_N (parse_segment_create_micros f) < now / 1000) (F.*1) ->
  winv t (actor_start t mb age now dir).1 (actor_start t mb age now dir).2 F [] now 0.
Proof.
  intros [Ho Hf Hon] H0 Hb Hnew. unfold actor_start, open_segment. simpl.
  destruct (segment_name_ext t 0 now H0) as (Hext & _ & _).
  assert (Hnl : ~ listed t (segment_name t 0 now)) by (intros [_ He]; congruence).
  split; simpl; try done.
  - apply StronglySorted_app_2; [|done|repeat constructor].
    intros f g Hfin ->%list_elem_of_singleton. rewrite Forall_forall in Hnew. specialize (Hnew f Hfin).
    unfold key_lt. rewrite !segment_le_spec. unfold cur_key, frozen_name. simpl.
    destruct (segment_name_parse t 0 now ".frozen") as [-> ->];
      [split; [apply Z.div_pos; lia|done]|done|by split_and!|].
    lia.
  - exists "". by rewrite lookup_insert_eq.
  - intros f ds Hin. destruct (Hf f ds Hin) as (? & ? & ?). split_and!; try done.
    rewrite lookup_insert_ne; [done|]. by intros <-.
  - intros f [c Hc] Hl. apply Hon; [|done]. rewrite lookup_insert_ne in Hc by (by intros <-). eauto.
Qed.

(** The last segment is frozen when the channel closes. *)
Lemma stop_inv t a dir F cur last k :
  winv t a dir F cur last k ->
  exists G, frozen_log t (actor_stop a dir) (F ++ G) /\ concat (G.*2) = cur.
Proof.
  intros Hw. pose proof (wi_order _ _ _ _ _ _ _ Hw) as Ho. unfold actor_stop, rotate_file.
  rewrite (wi_size _ _ _ _ _ _ _ Hw).
  destruct (total_size_pos cur (wi_good _ _ _ _ _ _ _ Hw)) as [_ Hz].
  destruct (Z.eqb_spec (total_size cur) 0) as [H0|H0].
  - exists []. rewrite app_nil_r. apply Hz in H0. subst. split; [|done]. simpl. split; [|apply Hw..].
    by apply StronglySorted_app_1_l in Ho.
  - destruct (freeze_dir _ _ _ _ _ _ _ Hw) as [Hfz Hon]. exists [(cur_key a, cur)].
    split; [|simpl; by rewrite app_nil_r]. unfold flush in *. simpl in *. split.
    + by rewrite fmap_app.
    + exact Hfz.
    + exact Hon.
Qed.

Lemma wal_write_log t mb age t0 es dir F :
  frozen_log t dir F ->
  Forall (fun f => Z.of_N (parse_segment_create_micros f) < t0 / 1000) (F.*1) ->
  0 <= t0 -> t0 / 1000 < 2 ^ 64 -> clock_ok t0 es -> Z.of_nat (length es) < 2 ^ 31 ->
  Forall good (written es) ->
  exists G, frozen_log t (streaming_write t mb age t0 es dir) (F ++ G) /\ concat (G.*2) = written es.
Proof.
  intros Hl Hnew H0 Hb Hc Hn Hg. pose proof (start_inv t mb age t0 dir F Hl H0 Hb Hnew) as Hw.
  unfold streaming_write. destruct (actor_start t mb age t0 dir) as [a0 dir0]. simpl in Hw.
  edestruct (wrun_inv t a0 dir0 F [] t0 0 es Hw Hc) as (G1 & cur & last & k & Hw' & E); [lia|done|].
  destruct (wrun es a0 dir0) as [a dir1]. simpl in Hw'.
  destruct (stop_inv _ _ _ _ _ _ _ Hw') as (G2 & Hl' & E2).
  exists (G1 ++ G2). rewrite app_assoc. split; [done|]. by rewrite fmap_app, concat_app, E2.
Qed.

(** C25: write, then replay. Whatever was frozen before, in whatever order the directory is
    listed, and however the writer's commands, timeouts, flushes and spills interleave: after
    the writer has stopped, replay ends without error and yields the earlier entries followed
    by every entry written in this run, in the order written, none lost and none repeated. *)
Theorem wal_write_replay (H : HashOrder) (t : WalType) (mb age : Z) (t0 : DateTime)
    (es : list (DateTime * WEvent)) (dir : gmap string string) (F : list (string * list string)) :
  frozen_log t dir F ->
  Forall (fun f => Z.of_N (parse_segment_create_micros f) < t0 / 1000) (F.*1) ->
  0 <= t0 -> t0 / 1000 < 2 ^ 64 -> clock_ok t0 es -> Z.of_nat (length es) < 2 ^ 31 ->
  Forall good (written es) ->
  let replay := streaming_read t (streaming_write t mb age t0 es dir) in
  replay.2 = Ok tt /\ omap entry_data replay.1 = omap entry_data (streaming_read t dir).1 ++ written es.
Proof.
  intros Hl Hnew H0 Hb Hc Hn Hg replay.
  destruct (wal_write_log t mb age t0 es dir F) as (G & Hl' & E); [done..|].
  unfold replay. rewrite (replay_log _ _ _ Hl'), (replay_log _ _ _ Hl). simpl. split; [done|].
  by rewrite !log_entries_data, fmap_app, concat_app, E.
Qed.

Definition old_segment : string := "data_0_1000.wal.frozen".
Definition old_dir : gmap string string := {[old_segment := frames ["old"]]}.

Lemma old_log : frozen_log WData old_dir [(old_segment, ["old"])].
Proof.
  split; simpl.
  - repeat constructor.
  - intros f ds [= -> ->]%list_elem_of_singleton. split; [apply lookup_singleton_eq|].
    split; [split; reflexivity|]. constructor; [|constructor]. by split.
  - intros f [c Hc] _. unfold old_dir in Hc. apply lookup_singleton_Some in Hc as [<- _]. by left.
Qed.

Lemma wal_write_replay_witness :
  let es := [(3000000, Write "abc"); (3000000, FlushTick); (3000001, Write "de"); (3000002, Rotate false);
             (3000005, Write "f"); (3000005, Spill 3)] in
  let replay := @streaming_read canonical_order WData (streaming_write WData 1 300 2000000 es old_dir) in
  replay.2 = Ok tt /\ omap entry_data replay.1 = ["old"; "abc"; "de"; "f"].
Proof.
  intros es. apply (wal_write_replay canonical_order WData 1 300 2000000 es old_dir [(old_segment, ["old"])]).
  - exact old_log.
  - repeat constructor.
  - done.
  - done.
  - repeat split; done.
  - done.
  - repeat constructor; done.
Defined.

(** C38: a crash while the writer runs. Replay yields, without error, what was frozen: the
    earlier entries and a prefix of the entries written in this run. What is missing is
    the whole content of the segment that was open, the bytes already on disk included,
    since replay reads only frozen segments. *)
Theorem wal_crash_replay (H : HashOrder) (t : WalType) (mb age : Z) (t0 : DateTime)
    (es : list (DateTime * WEvent)) (dir : gmap string string) (F : list (string * list string)) :
  frozen_log t dir F ->
  Forall (fun f => Z.of_N (parse_segment_create_micros f) < t0 / 1000) (F.*1) ->
  0 <= t0 -> t0 / 1000 < 2 ^ 64 -> clock_ok t0 es -> Z.of_nat (length es) < 2 ^ 31 ->
  Forall good (written es) ->
  let st0 := actor_start t mb age t0 dir in
  let st := wrun es st0.1 st0.2 in
  exists kept lost disk, written es = kept ++ lost /\
    (streaming_read t st.2).2 = Ok tt /\
    omap entry_data (streaming_read t st.2).1 = omap entry_data (streaming_read t dir).1 ++ kept /\
    st.2 !! current_file_name st.1 = Some disk /\ disk +:+ current_file_buf st.1 = frames lost.
Proof.
  intros Hl Hnew H0 Hb Hc Hn Hg st0 st.
  destruct (wrun_inv t st0.1 st0.2 F [] t0 0 es) as (G & lost & last & k & Hw & E); [|done|lia|done|].
  { by apply start_inv. }
  fold st in Hw. destruct (wi_cur _ _ _ _ _ _ _ Hw) as (disk & Hd & Hlost).
  exists (concat (G.*2)), lost, disk. split; [done|].
  assert (Hl' : frozen_log t st.2 (F ++ G)).
  { split; [|apply Hw..]. pose proof (wi_order _ _ _ _ _ _ _ Hw) as Ho. by apply StronglySorted_app_1_l in Ho. }
  rewrite (replay_log _ _ _ Hl'), (replay_log _ _ _ Hl). simpl.
  by rewrite !log_entries_data, fmap_app, concat_app.
Qed.

Lemma wal_crash_replay_witness :
  let es := [(3000000, Write "abc"); (3000002, Rotate false); (3000005, Write "f"); (3000005, FlushTick)] in
  let st0 := actor_start WData 1 300 2000000 old_dir in
  let st := wrun es st0.1 st0.2 in
  omap entry_data (@streaming_read canonical_order WData st.2).1 = ["old"; "abc"] /\
  exists kept lost disk, written es = kept ++ lost /\
    (@streaming_read canonical_order WData st.2).2 = Ok tt /\
    omap entry_data (@streaming_read canonical_order WData st.2).1 =
      omap entry_data (@streaming_read canonical_order WData old_dir).1 ++ kept /\
    st.2 !! current_file_name st.1 = Some disk /\ disk +:+ current_file_buf st.1 = frames lost.
Proof.
  intros es st0 st. split; [vm_compute; reflexivity|].
  apply (wal_crash_replay canonical_order WData 1 300 2000000 es old_dir [(old_segment, ["old"])]).
  - exact old_log.
  - repeat constructor.
  - done.
  - done.
  - repeat split; done.
  - done.
  - repeat constructor; done.
Defined.

(** C39: replay of a segment cut at an arbitrary byte. Replay yields exactly the entries that lie
    whole before the cut: what is left after them is nothing, when the cut is after the last
    entry, or less than the frame of the next entry. It ends without an error exactly when this
    remainder is shorter than the eight bytes of a length, and with a read error when the length is there but
    the data is not. *)
Theorem torn_segment_replay (ds : list string) (n : nat) :
  Forall fits ds ->
  exists k rest, stake n (frames ds) = frames (take k ds) +:+ rest /\
    match ds !! k with Some d => (slen rest < slen (frame d))%N | None => rest = "" end /\
    read_segment (stake n (frames ds)) =
      (data_entry <$> take k ds, if decide (slen rest < 8)%N then Ok tt else Err (EOther "read_exact")).
Proof.
  intros Hf. destruct (stake_frames n ds) as (k & rest & Heq & Hr). exists k, rest.
  split; [done|]. split; [by destruct Hr as [[-> ->]|(d & m & -> & _ & Hlt)]|]. rewrite Heq.
  destruct (read_segment_app (take k ds) rest) as (fuel & Hfu & ->); [by apply Forall_take|].
  destruct (decide (slen rest < 8)%N) as [Hs|Hs].
  - destruct fuel as [|fuel]; [lia|]. cbn [read_entries]. rewrite decide_True by done. simpl.
    by rewrite app_nil_r.
  - destruct Hr as [[_ ->]|(d & m & Hd & -> & Hlt)]; [done|].
    pose proof (Forall_lookup_1 _ _ _ _ Hf Hd) as Hfd. rewrite (read_torn_body fuel d m) by (done || lia).
    simpl. by rewrite app_nil_r.
Qed.

Lemma torn_segment_replay_witness :
  let ds := ["abc"; "hello"] in
  exists k rest, stake 16 (frames ds) = frames (take k ds) +:+ rest /\
    match ds !! k with Some d => (slen rest < slen (frame d))%N | None => rest = "" end /\
    read_segment (stake 16 (frames ds)) =
      (data_entry <$> take k ds, if decide (slen rest < 8)%N then Ok tt else Err (EOther "read_exact")).
Proof.
  intros ds. apply (torn_segment_replay ds 16). repeat constructor.
Defined.
