(* ===== verification/WalMessage.v ===== *)
(** Messages in the write-ahead log ([reduce/wal.rs], [handle_message] of
    [reduce/wal/segment/append.rs], [GcEventEntry] of [reduce/wal/segment.rs]): their bytes,
    the acknowledgement of a message the log has taken, and what is left after a crash. *)
From S2P Require Import Prelude Clock Message Wal.
#[local] Open Scope Z_scope.

(** [isb::ReadMessage] and [wal::GcEvent]. *)
Record ProtoReadMessage := mkProtoReadMessage {
  rm_message : option ProtoMessage;
  rm_read_offset : Z;
  rm_watermark : option Timestamp
}.
Record ProtoGcEvent := mkProtoGcEvent {
  pgc_start_time : option Timestamp;
  pgc_end_time : option Timestamp;
  pgc_keys : list string
}.

(** Their prost encoders ([encode_to_vec] does not fail) and decoders. *)
Class WalCodec := {
  read_encode : ProtoReadMessage -> string;
  read_decode : string -> option ProtoReadMessage;
  read_decode_encode : forall p, read_decode (read_encode p) = Some p;
  gc_encode : ProtoGcEvent -> string;
  gc_decode : string -> option ProtoGcEvent;
  gc_decode_encode : forall p, gc_decode (gc_encode p) = Some p
}.

Section Conversions.
Context `{Chrono} `{WalCodec}.

(** [TryFrom<WalMessage> for Bytes]. *)
Definition wal_to_proto (m : Message) (o : IntOffset) : ProtoReadMessage :=
  mkProtoReadMessage
    (Some (mkProtoMessage
      (Some (mkProtoHeader
        (Some (mkProtoMessageInfo (Some (prost_timestamp_from_utc (m_event_time m))) (m_is_late m)))
        (i32_of_type (m_typ m)) (Some (id_to_proto (m_id m))) (m_keys m) (m_headers m)
        (metadata_to_proto <$> m_metadata m)))
      (Some (m_value m))))
    (io_offset o) (prost_timestamp_from_utc <$> m_watermark m).
Definition wal_to_bytes (m : Message) : Result string :=
  match m_offset m with
  | OInt o => Ok (read_encode (wal_to_proto m o))
  | OString _ => Err (EOther "Invalid offset")
  end.

(** [TryFrom<Bytes> for WalMessage]; [None] is a panic. *)
Definition wal_from_bytes (value : string) : option (Result Message) :=
  match read_decode value with
  | None => Some (Err (EOther "decode"))
  | Some rm =>
      match rm_message rm with
      | None => Some (Err (EOther "Missing inner message"))
      | Some pm =>
          match pm_header pm, pm_body pm with
          | None, _ => Some (Err (EOther "Missing header"))
          | _, None => Some (Err (EOther "Missing body"))
          | Some header, Some body =>
              let? info := ph_message_info header in
              let? et := utc_from_timestamp <$> pi_event_time info in
              Some (Ok (mkMessage (type_of_i32 (ph_kind header)) (ph_keys header) None body
                (OInt (mkIntOffset (rm_read_offset rm) 0)) et (utc_from_timestamp <$> rm_watermark rm)
                (default MessageID_default (id_of_proto <$> ph_id header)) ∅ None (pi_is_late info) None))
          end
      end
  end.

(** ** GC events *)

Record GcEventEntry := mkGcEventEntry {
  gc_start_time : DateTime;
  gc_end_time : DateTime;
  gc_keys : option (list string)
}.
(** [value.keys.into()] wraps the list, also an empty one. *)
Definition gc_of_proto (value : ProtoGcEvent) : option GcEventEntry :=
  let? s := utc_from_timestamp <$> pgc_start_time value in
  let? e := utc_from_timestamp <$> pgc_end_time value in
  Some (mkGcEventEntry s e (Some (pgc_keys value))).
Definition gc_to_proto (value : GcEventEntry) : ProtoGcEvent :=
  mkProtoGcEvent (Some (prost_timestamp_from_utc (gc_start_time value)))
    (Some (prost_timestamp_from_utc (gc_end_time value))) (default [] (gc_keys value)).

(** ** The command loop of the writer *)

Inductive SegmentWriteMessage :=
  | WriteMessage (read_message : Message)
  | WriteGcEvent (data : string)
  | RotateOn (on_size : bool).

(** [handle_message]: the command as the writer's event, and the step the handle of the message
    takes; [io] says whether the write reaches the buffer without an I/O error. [None] is the
    panic on a message that has no bytes. *)
Definition handle_message (io : bool) (msg : SegmentWriteMessage) : option (Result WEvent * list AckLabel) :=
  match msg with
  | WriteMessage m =>
      match wal_to_bytes m with
      | Err _ => None
      | Ok data => Some (if io then (Ok (Write data), [LSuccess])
                         else (Err (EOther "write"), [LFail "write" None]))
      end
  | WriteGcEvent data => Some (if io then Ok (Write data) else Err (EOther "write"), [])
  | RotateOn on_size => Some (if io then Ok (Rotate on_size) else Err (EOther "rotate"), [])
  end.

(** The commands of a channel as the events of the writer, with the handles acknowledged: the
    writer stops at the first error. *)
Fixpoint handle_messages (msgs : list (DateTime * bool * SegmentWriteMessage))
    : option (list (DateTime * WEvent) * list Message * Result unit) :=
  match msgs with
  | [] => Some ([], [], Ok tt)
  | (now, io, msg) :: msgs =>
      let? (r, _) := handle_message io msg in
      match r with
      | Err e => Some ([], [], Err e)
      | Ok ev =>
          let? (es, acked, r) := handle_messages msgs in
          Some ((now, ev) :: es, match msg with WriteMessage m => m :: acked | _ => acked end, r)
      end
  end.
End Conversions.

(** What replay makes of a message: the headers, the metadata, the tags and the partition of the
    offset are gone. *)
Definition as_replayed (m : Message) : Message :=
  mkMessage (m_typ m) (m_keys m) None (m_value m)
    (OInt (mkIntOffset (match m_offset m with OInt o => io_offset o | OString _ => 0 end) 0))
    (m_event_time m) (m_watermark m) (m_id m) ∅ None (m_is_late m) None.

(** A message whose times and id survive the encoding. *)
Definition encodable `{Chrono} (m : Message) : Prop :=
  dt_valid (m_event_time m) /\ (forall w, m_watermark m = Some w -> dt_valid w) /\
  utf8_valid (id_vertex_name (m_id m)) = true /\ utf8_valid (id_offset (m_id m)) = true.

Lemma wal_message_decode `{Chrono} `{WalCodec} m b :
  wal_to_bytes m = Ok b -> encodable m -> wal_from_bytes b = Some (Ok (as_replayed m)).
Proof.
  unfold wal_to_bytes, wal_from_bytes, as_replayed. intros Hb (Ht & Hw & Hv & Ho).
  destruct (m_offset m) as [o|o]; [|done]. injection Hb as <-. rewrite read_decode_encode. simpl.
  rewrite utc_timestamp_roundtrip by done. unfold id_of_proto, id_to_proto. simpl.
  rewrite !from_utf8_lossy_valid by done. do 3 f_equal.
  - by destruct (m_typ m).
  - destruct (m_watermark m) as [w|]; [|done]. simpl. by rewrite utc_timestamp_roundtrip by auto.
  - by destruct (m_id m).
Qed.

(** ** A life of the log, from messages to messages *)

(** The messages acknowledged are the ones whose bytes were handed to the segment, in order. *)
Lemma handle_messages_written `{Chrono} `{WalCodec} msgs es acked r :
  Forall (fun x => match x.2 with WriteGcEvent _ => False | _ => True end) msgs ->
  handle_messages msgs = Some (es, acked, r) ->
  Forall2 (fun m b => wal_to_bytes m = Ok b) acked (written es).
Proof.
  revert es acked r. induction msgs as [|[[now io] msg] msgs IH]; intros es acked r Hm Hr; cbn in Hr.
  { injection Hr as <- <- <-. constructor. }
  apply Forall_cons in Hm as [Hmsg Hm].
  destruct msg as [m|d|b]; [|done|]; cbn [handle_message] in Hr.
  - destruct (wal_to_bytes m) as [b|e] eqn:Eb; [|done]. destruct io; simpl in Hr.
    + destruct (handle_messages msgs) as [[[es' acked'] r']|]; [|done]. injection Hr as <- <- <-.
      rewrite written_cons. constructor; [done|]. by eapply IH.
    + injection Hr as <- <- <-. constructor.
  - destruct io; simpl in Hr; [|injection Hr as <- <- <-; constructor].
    destruct (handle_messages msgs) as [[[es' acked'] r']|]; [|done]. injection Hr as <- <- <-.
    rewrite written_cons. by eapply IH.
Qed.

(** The bytes written for messages, decoded. *)
Lemma acked_decode `{CH : Chrono} `{WC : WalCodec} acked bs :
  Forall2 (fun m b => wal_to_bytes m = Ok b) acked bs -> Forall encodable acked ->
  wal_from_bytes <$> bs = (fun m => Some (Ok (as_replayed m))) <$> acked.
Proof.
  induction 1 as [|m b ms bs Hb H2 IH]; [done|]. intros [He Henc]%Forall_cons.
  rewrite !fmap_cons, IH by done. f_equal. by apply wal_message_decode.
Qed.

(** Writing messages in one run and replaying them in the next. *)
Lemma written_replayed `{HO : HashOrder} `{CH : Chrono} `{WC : WalCodec} mb age t0 es acked dir (F : list (string * list string)) :
  Forall2 (fun m b => wal_to_bytes m = Ok b) acked (written es) -> Forall encodable acked ->
  frozen_log WData dir F ->
  Forall (fun f => Z.of_N (parse_segment_create_micros f) < t0 / 1000) (F.*1) ->
  0 <= t0 -> t0 / 1000 < 2 ^ 64 -> clock_ok t0 es -> Z.of_nat (length es) < 2 ^ 31 ->
  Forall good (written es) ->
  wal_from_bytes <$> omap entry_data (streaming_read WData (streaming_write WData mb age t0 es dir)).1 =
  (wal_from_bytes <$> omap entry_data (streaming_read WData dir).1) ++
    ((fun m => Some (Ok (as_replayed m))) <$> acked).
Proof.
  intros H2 Henc Hl Hnew H0 Hb Hc Hn Hg.
  destruct (wal_write_log WData mb age t0 es dir F) as (G & Hl' & E); [done..|].
  rewrite (replay_log _ _ _ Hl'), (replay_log _ _ _ Hl). simpl.
  rewrite !log_entries_data, fmap_app, concat_app, E, fmap_app. f_equal. by apply acked_decode.
Qed.

(** Messages through the log. When the writer has taken the commands of its channel without
    an error, in any interleaving with its timers, and has stopped, replay gives back what was
    there before followed by exactly the acknowledged messages, in order; each keeps its type,
    keys, payload, event time, watermark, id, late flag and offset number, and loses its
    headers, metadata, tags and the partition of its offset. *)
Theorem wal_messages_replayed (H : HashOrder) (C : Chrono) (K : WalCodec) (mb age : Z) (t0 : DateTime)
    (msgs : list (DateTime * bool * SegmentWriteMessage)) (es0 es : list (DateTime * WEvent))
    (acked : list Message) (r : Result unit) (dir : gmap string string) (F : list (string * list string)) :
  Forall (fun x => match x.2 with WriteGcEvent _ => False | _ => True end) msgs ->
  handle_messages msgs = Some (es0, acked, r) -> written es = written es0 ->
  Forall encodable acked ->
  frozen_log WData dir F ->
  Forall (fun f => Z.of_N (parse_segment_create_micros f) < t0 / 1000) (F.*1) ->
  0 <= t0 -> t0 / 1000 < 2 ^ 64 -> clock_ok t0 es -> Z.of_nat (length es) < 2 ^ 31 ->
  Forall good (written es) ->
  wal_from_bytes <$> omap entry_data (streaming_read WData (streaming_write WData mb age t0 es dir)).1 =
  (wal_from_bytes <$> omap entry_data (streaming_read WData dir).1) ++
    ((fun m => Some (Ok (as_replayed m))) <$> acked).
Proof.
  intros Hm Hh Hes Henc. pose proof (handle_messages_written _ _ _ _ Hm Hh) as H2. rewrite <- Hes in H2.
  intros. by eapply written_replayed.
Qed.

(** A codec that satisfies the laws: the binary digits of the code number. *)
#[global] Instance ProtoReadMessage_eq_dec : EqDecision ProtoReadMessage.
Proof. solve_decision. Defined.
#[global] Instance ProtoReadMessage_countable : Countable ProtoReadMessage.
Proof.
  refine (inj_countable' (fun t => (rm_message t, rm_read_offset t, rm_watermark t))
    (fun x => mkProtoReadMessage x.1.1 x.1.2 x.2) _). by intros [].
Defined.
#[global] Instance ProtoGcEvent_eq_dec : EqDecision ProtoGcEvent.
Proof. solve_decision. Defined.
#[global] Instance ProtoGcEvent_countable : Countable ProtoGcEvent.
Proof.
  refine (inj_countable' (fun t => (pgc_start_time t, pgc_end_time t, pgc_keys t))
    (fun x => mkProtoGcEvent x.1.1 x.1.2 x.2) _). by intros [].
Defined.

(** The number of a value in base 256. *)
Definition number_bytes (p : positive) : string := le_bytes (S (N.to_nat (N.size (Npos p) / 8))) (Npos p).
Definition bytes_number (s : string) : positive := match of_le s with Npos p => p | N0 => 1%positive end.

Lemma bytes_number_bytes p : bytes_number (number_bytes p) = p.
Proof.
  unfold bytes_number, number_bytes. rewrite of_le_bytes; [done|]. rewrite Nat2N.inj_succ, N2Nat.id.
  eapply N.lt_le_trans; [apply N.size_gt|]. change 256%N with (2 ^ 8)%N. rewrite <- N.pow_mul_r.
  apply N.pow_le_mono_r; [done|]. pose proof (N.div_mod (N.size (N.pos p)) 8).
  pose proof (N.mod_lt (N.size (N.pos p)) 8). lia.
Qed.

Lemma number_bytes_good p : (N.size (Npos p) < 2 ^ 60)%N -> good (number_bytes p).
Proof.
  intros Hs. split; [|done]. unfold fits, slen, number_bytes. rewrite slen_le_bytes, Nat2N.inj_succ, N2Nat.id.
  assert (N.size (N.pos p) / 8 <= N.size (N.pos p))%N by (apply N.Div0.div_le_upper_bound; lia).
  eapply N.le_lt_trans; [apply N.le_succ_l; eapply N.le_lt_trans; eassumption|done].
Qed.

Definition number_codec : WalCodec.
Proof.
  refine {| read_encode p := number_bytes (encode p); read_decode s := decode (bytes_number s);
            gc_encode p := number_bytes (encode p); gc_decode s := decode (bytes_number s) |};
    intros p; by rewrite bytes_number_bytes, decode_encode.
Defined.

Definition small_message : Message :=
  mkMessage Data [] None "p" (OInt (mkIntOffset 1 3)) 5000000 None (mkMessageID "v" "1" 0)
    ∅ None false None.

Definition small_command : DateTime * bool * SegmentWriteMessage := (3000000, true, WriteMessage small_message).
Definition small_events : list (DateTime * WEvent) :=
  [(3000000, Write (@read_encode number_codec (@wal_to_proto chrono_utc small_message (mkIntOffset 1 3))))].

Lemma wal_messages_replayed_witness :
  @handle_messages chrono_utc number_codec [small_command] = Some (small_events, [small_message], Ok tt) /\
  @wal_from_bytes chrono_utc number_codec <$>
    omap entry_data (@streaming_read canonical_order WData (streaming_write WData 1 300 2000000 small_events ∅)).1 =
  [Some (Ok (as_replayed small_message))].
Proof.
  split; [reflexivity|].
  etrans; [apply (wal_messages_replayed canonical_order chrono_utc number_codec 1 300 2000000
    [small_command] small_events small_events [small_message] (Ok tt) ∅ [])|].
  - repeat constructor.
  - reflexivity.
  - reflexivity.
  - constructor; [|constructor]. unfold encodable. split; [by vm_compute|]. split; [by intros|].
    split; vm_compute; reflexivity.
  - split; [constructor|by intros ? ? ?%elem_of_nil|]. intros f [c Hc]. by rewrite lookup_empty in Hc.
  - constructor.
  - done.
  - done.
  - repeat split; done.
  - done.
  - constructor; [|constructor]. apply number_bytes_good. vm_compute. reflexivity.
  - reflexivity.
Defined.
