(* ===== verification/Compactor.v ===== *)
(** The compactor of the write-ahead log ([reduce/wal/segment/compactor.rs]): the times below
    which data is done, the messages that are retained, the traffic between the compactor and
    the writer of the compaction log, and the gate on deleting GC segments. *)
From S2P Require Import Prelude Clock Message Wal WalMessage.
#[local] Open Scope Z_scope.

Inductive WindowKind := Aligned | Unaligned.

Definition WAL_KEY_SEPERATOR : string := ":".
Definition join_keys (keys : list string) : string := String.concat WAL_KEY_SEPERATOR keys.

(** How a task ends: a result, or a panic ([None]). *)
Abbreviation Outcome A := (option (Result A)) (only parsing).

Section Scan.
Context `{Chrono} `{WalCodec} `{HashOrder}.

(** ** The GC log *)

(** The loop over the entries of the GC log with the update of the accumulator, then the
    wait for the reader. *)
Fixpoint gc_scan {A} (update : A -> GcEventEntry -> A) (entries : list SegmentEntry) (r : Result unit)
    (acc : A) (scanned_files : list string) : Outcome (A * list string) :=
  match entries with
  | [] => match r with Ok _ => Some (Ok (acc, scanned_files)) | Err e => Some (Err e) end
  | DataEntry _ data :: entries =>
      match gc_decode data with
      | None => Some (Err (EOther "Failed to decode GC event"))
      | Some p => let? gc := gc_of_proto p in gc_scan update entries r (update acc gc) scanned_files
      end
  | CmdFileSwitch filename :: entries => gc_scan update entries r acc (scanned_files ++ [filename])
  end.

Definition aligned_update (oldest_time : DateTime) (gc : GcEventEntry) : DateTime :=
  Z.max oldest_time (gc_end_time gc).
Definition build_aligned_compaction (dir : gmap string string) : Outcome (DateTime * list string) :=
  let (es, r) := streaming_read WGc dir in gc_scan aligned_update es r 0 [].

Definition unaligned_update (m : gmap string DateTime) (gc : GcEventEntry) : gmap string DateTime :=
  match gc_keys gc with
  | Some keys =>
      let key := join_keys keys in
      match m !! key with
      | Some dt => if dt <? gc_end_time gc then <[key := gc_end_time gc]> m else m
      | None => <[key := gc_end_time gc]> m
      end
  | None => m
  end.
Definition build_unaligned_compaction (dir : gmap string string) : Outcome (gmap string DateTime * list string) :=
  let (es, r) := streaming_read WGc dir in gc_scan unaligned_update es r ∅ [].

(** ** What is retained; [None] is a panic *)

Definition proto_event_time (msg : ProtoMessage) : option DateTime :=
  let? header := pm_header msg in
  let? info := ph_message_info header in
  utc_from_timestamp <$> pi_event_time info.

Class ShouldRetain (T : Type) := should_retain_message : T -> ProtoMessage -> Outcome bool.

Record AlignedCompaction := mkAligned { oldest_time : DateTime }.
Definition aligned_should_retain (self : AlignedCompaction) (msg : ProtoMessage) : Outcome bool :=
  let? event_time := proto_event_time msg in Some (Ok (oldest_time self <=? event_time)).
#[global] Instance AlignedCompaction_retain : ShouldRetain AlignedCompaction := aligned_should_retain.

Record UnalignedCompaction := mkUnaligned { oldest_time_map : gmap string DateTime }.
Definition unaligned_should_retain (self : UnalignedCompaction) (msg : ProtoMessage) : Outcome bool :=
  let? event_time := proto_event_time msg in
  let keys := default [] (ph_keys <$> pm_header msg) in
  match oldest_time_map self !! join_keys keys with
  | Some oldest => Some (Ok (oldest <=? event_time))
  | None => Some (Ok true)
  end.
#[global] Instance UnalignedCompaction_retain : ShouldRetain UnalignedCompaction := unaligned_should_retain.

(** ** Passing over a log *)

(** What the compactor does, in program order: a command to the channel of the compaction
    writer, a message to the replay channel, the removal of a file. *)
Inductive CAction :=
  | CSend (e : WEvent)
  | CReplay (data : string)
  | CDelete (filename : string).

Fixpoint process_entries {T} `{ShouldRetain T} (should_retain : T) (replay : bool)
    (entries : list SegmentEntry) (r : Result unit) : list CAction * Outcome unit :=
  match entries with
  | [] => ([], Some r)
  | DataEntry _ data :: entries =>
      match read_decode data with
      | None => ([], Some (Err (EOther "Failed to decode message")))
      | Some rm =>
          match rm_message rm with
          | None => ([], None)
          | Some msg =>
              match should_retain_message should_retain msg with
              | None => ([], None)
              | Some (Err e) => ([], Some (Err e))
              | Some (Ok keep) =>
                  let (acts, o) := process_entries should_retain replay entries r in
                  ((if keep then CSend (Write data) :: (if replay then [CReplay data] else []) else []) ++ acts, o)
              end
          end
      end
  | CmdFileSwitch filename :: entries =>
      let (acts, o) := process_entries should_retain replay entries r in
      (CSend (Rotate false) :: CDelete filename :: acts, o)
  end.

Definition process_wal_stream {T} `{ShouldRetain T} (t : WalType) (dir : gmap string string)
    (should_retain : T) (replay : bool) : list CAction * Outcome unit :=
  let (es, r) := streaming_read t dir in process_entries should_retain replay es r.

(** ** The retention gate of GC segments *)

Definition newest_data_segment_micros (dir : gmap string string) : option N :=
  foldr (fun f acc => Some (match acc with
                            | Some m => N.max (parse_segment_create_micros f) m
                            | None => parse_segment_create_micros f
                            end)) None (list_files_with_active WData dir).

Definition successor_create_micros (sorted_gc_files : list string) (g : string) : option N :=
  let? (pos, _) := list_find (fun f => f = g) sorted_gc_files in
  parse_segment_create_micros <$> sorted_gc_files !! S pos.

Definition gc_should_delete (newest_data_micros : option N) (all_gc_sorted : list string) (g : string) : bool :=
  match newest_data_micros, successor_create_micros all_gc_sorted g with
  | Some newest, Some successor => (successor <? newest)%N
  | _, _ => false
  end.

Definition delete_gc_files (gc_files : list string) (apply_retention_gate : bool)
    (newest_data_micros : option N) (dir : gmap string string) : list CAction :=
  if apply_retention_gate then
    let all_gc_sorted := sort_filenames (list_files_with_active WGc dir) in
    CDelete <$> filter (fun g => gc_should_delete newest_data_micros all_gc_sorted g = true) gc_files
  else [].

(** ** A cycle *)

(** The directory at the points where a cycle reads it: the snapshot of the data segments, the
    listings of the GC, compaction and data logs, and the listing at the deletion. *)
Record CycleDirs := mkCycleDirs {
  d_start : gmap string string;
  d_gc : gmap string string;
  d_compact : gmap string string;
  d_data : gmap string string;
  d_end : gmap string string
}.

Definition then_pass (p : list CAction * Outcome unit) (k : list CAction * Outcome unit)
    : list CAction * Outcome unit :=
  match p with
  | (acts, Some (Ok _)) => let (acts', o) := k in (acts ++ acts', o)
  | (acts, o) => (acts, o)
  end.

Definition compact_with {T} `{ShouldRetain T} (built : Outcome (T * list string)) (replay gate : bool) (d : CycleDirs)
    : list CAction * Outcome unit :=
  let newest_data_micros := newest_data_segment_micros (d_start d) in
  match built with
  | None => ([], None)
  | Some (Err e) => ([], Some (Err e))
  | Some (Ok (compact, gc_files)) =>
      then_pass (process_wal_stream WCompact (d_compact d) compact replay)
        (then_pass (process_wal_stream WData (d_data d) compact replay)
           (delete_gc_files gc_files gate newest_data_micros (d_end d), Some (Ok tt)))
  end.

Definition map_built {A B} (f : A -> B) (o : Outcome (A * list string)) : Outcome (B * list string) :=
  match o with
  | Some (Ok (a, fs)) => Some (Ok (f a, fs))
  | Some (Err e) => Some (Err e)
  | None => None
  end.

Definition compact_aligned (replay gate : bool) (d : CycleDirs) : list CAction * Outcome unit :=
  compact_with (map_built mkAligned (build_aligned_compaction (d_gc d))) replay gate d.
Definition compact_unaligned (replay gate : bool) (d : CycleDirs) : list CAction * Outcome unit :=
  compact_with (map_built mkUnaligned (build_unaligned_compaction (d_gc d))) replay gate d.
Definition compact (kind : WindowKind) (replay gate : bool) (d : CycleDirs) : list CAction * Outcome unit :=
  match kind with
  | Aligned => compact_aligned replay gate d
  | Unaligned => compact_unaligned replay gate d
  end.
End Scan.

(** ** The compactor and the writer together *)

Record CSys := mkCSys {
  c_acts : list CAction;          (* what the compactor has still to do *)
  c_queue : list WEvent;          (* the channel to the writer *)
  c_actor : SegmentWriteActor;
  c_dir : gmap string string;
  c_replayed : list string        (* sent to the replay channel *)
}.

(** The compactor does its next action, the writer takes a command or reacts to a timer. *)
Inductive CLabel :=
  | ByCompactor
  | ByWriter (now : DateTime)
  | ByTimer (now : DateTime) (e : WEvent).

Definition is_timer (e : WEvent) : bool :=
  match e with Timeout | FlushTick | Spill _ => true | _ => false end.

Definition writer_handles (now : DateTime) (e : WEvent) (queue : list WEvent) (s : CSys) : CSys :=
  let (a, dir) := wexec now e (c_actor s) (c_dir s) in mkCSys (c_acts s) queue a dir (c_replayed s).

(** [None]: the step is not enabled. *)
Definition cstep (l : CLabel) (s : CSys) : option CSys :=
  match l with
  | ByCompactor =>
      match c_acts s with
      | [] => None
      | CSend e :: acts => Some (mkCSys acts (c_queue s ++ [e]) (c_actor s) (c_dir s) (c_replayed s))
      | CReplay d :: acts => Some (mkCSys acts (c_queue s) (c_actor s) (c_dir s) (c_replayed s ++ [d]))
      | CDelete f :: acts => Some (mkCSys acts (c_queue s) (c_actor s) (delete f (c_dir s)) (c_replayed s))
      end
  | ByWriter now =>
      match c_queue s with
      | [] => None
      | e :: queue => Some (writer_handles now e queue s)
      end
  | ByTimer now e => if is_timer e then Some (writer_handles now e (c_queue s) s) else None
  end.

Fixpoint csys_run (ls : list CLabel) (s : CSys) : option CSys :=
  match ls with
  | [] => Some s
  | l :: ls => let? s' := cstep l s in csys_run ls s'
  end.

Definition label_time (l : CLabel) : option DateTime :=
  match l with ByCompactor => None | ByWriter now | ByTimer now _ => Some now end.

Fixpoint times_ok (last : DateTime) (ts : list DateTime) : Prop :=
  match ts with [] => True | now :: ts => last <= now /\ now / 1000 < 2 ^ 64 /\ times_ok now ts end.

(** * Passing over a log *)

Definition act_data (x : CAction) : list string := match x with CSend e => event_data e | _ => [] end.
Definition act_replay (x : CAction) : list string := match x with CReplay d => [d] | _ => [] end.
Definition act_delete (x : CAction) : list string := match x with CDelete f => [f] | _ => [] end.

(** The verdict on the bytes of an entry; [None] when they are no message. *)
Definition entry_kept `{Chrono} `{WalCodec} {T} `{ShouldRetain T} (c : T) (data : string) : option bool :=
  let? rm := read_decode data in
  let? msg := rm_message rm in
  match should_retain_message c msg with Some (Ok b) => Some b | _ => None end.

Definition retained `{Chrono} `{WalCodec} {T} `{ShouldRetain T} (c : T) (ds : list string) : list string :=
  filter (fun d => entry_kept c d = Some true) ds.

Section Pass.
Context `{Chrono} `{WalCodec} {T} `{ShouldRetain T} (c : T) (replay : bool).

Definition keep_actions (d : string) : list CAction :=
  CSend (Write d) :: (if replay then [CReplay d] else []).
Definition segment_actions (p : string * list string) : list CAction :=
  concat (keep_actions <$> retained c p.2) ++ [CSend (Rotate false); CDelete p.1].
Definition log_actions (F : list (string * list string)) : list CAction := concat (segment_actions <$> F).

Lemma process_data ds entries r :
  Forall (fun d => is_Some (entry_kept c d)) ds ->
  process_entries c replay ((data_entry <$> ds) ++ entries) r =
  (concat (keep_actions <$> retained c ds) ++ (process_entries c replay entries r).1,
   (process_entries c replay entries r).2).
Proof.
  induction 1 as [|d ds [b Hb] _ IH]; [apply surjective_pairing|].
  rewrite fmap_cons. cbn [app process_entries data_entry]. rewrite IH. clear IH.
  unfold retained. rewrite filter_cons. fold (retained c ds). unfold entry_kept in Hb |- *.
  destruct (read_decode d) as [rm|]; [|done]. simpl in Hb |- *.
  destruct (rm_message rm) as [msg|]; [|done]. simpl in Hb |- *.
  destruct (should_retain_message c msg) as [[b'|]|]; [|done..]. injection Hb as ->.
  destruct b; simpl; [|done]. by destruct replay.
Qed.

Lemma process_log F :
  Forall (fun d => is_Some (entry_kept c d)) (concat (F.*2)) ->
  process_entries c replay (log_entries F) (Ok tt) = (log_actions F, Some (Ok tt)).
Proof.
  induction F as [|[f ds] F IH]; intros Hk; [done|]. simpl in Hk. apply Forall_app in Hk as [Hd Hk].
  change (log_entries ((f, ds) :: F)) with (((data_entry <$> ds) ++ [CmdFileSwitch f]) ++ log_entries F).
  rewrite <- app_assoc, process_data by done. cbn [app process_entries]. rewrite IH by done.
  change (log_actions ((f, ds) :: F)) with (segment_actions (f, ds) ++ log_actions F).
  unfold segment_actions. by rewrite <- app_assoc.
Qed.

Lemma log_actions_data F : log_actions F ≫= act_data = retained c (concat (F.*2)).
Proof.
  induction F as [|[f ds] F IH]; [done|].
  change (log_actions ((f, ds) :: F)) with (segment_actions (f, ds) ++ log_actions F).
  rewrite bind_app, IH. unfold retained. simpl. rewrite filter_app. f_equal. fold (retained c ds).
  unfold segment_actions. simpl. rewrite bind_app. simpl. rewrite app_nil_r.
  induction (retained c ds) as [|d l IHl]; [done|]. rewrite fmap_cons. simpl. rewrite bind_app, IHl.
  by destruct replay.
Qed.

Lemma log_actions_replay F :
  log_actions F ≫= act_replay = if replay then retained c (concat (F.*2)) else [].
Proof.
  induction F as [|[f ds] F IH]; [by destruct replay|].
  change (log_actions ((f, ds) :: F)) with (segment_actions (f, ds) ++ log_actions F).
  rewrite bind_app, IH. unfold retained. simpl. rewrite filter_app. fold (retained c ds).
  unfold segment_actions. simpl. rewrite bind_app. simpl. rewrite app_nil_r.
  assert (Hl : forall l, concat (keep_actions <$> l) ≫= act_replay = if replay then l else []).
  { induction l as [|d l IHl]; [by destruct replay|]. rewrite fmap_cons. simpl. rewrite bind_app, IHl. by destruct replay. }
  rewrite Hl. by destruct replay.
Qed.

Lemma log_actions_delete F : log_actions F ≫= act_delete = F.*1.
Proof.
  induction F as [|[f ds] F IH]; [done|].
  change (log_actions ((f, ds) :: F)) with (segment_actions (f, ds) ++ log_actions F).
  rewrite bind_app, IH. unfold segment_actions. simpl. rewrite bind_app. simpl.
  change (f :: F.*1) with ([f] ++ F.*1). f_equal.
  assert (Hl : forall l, concat (keep_actions <$> l) ≫= act_delete = []).
  { induction l as [|d l IHl]; [done|]. rewrite fmap_cons. simpl. rewrite bind_app, IHl. by destruct replay. }
  by rewrite Hl.
Qed.
End Pass.

(** * The compactor and the writer together *)

Lemma StronglySorted_filter {A} (R : A -> A -> Prop) (P : A -> Prop) `{forall x, Decision (P x)} (l : list A) :
  StronglySorted R l -> StronglySorted R (filter P l).
Proof.
  induction 1 as [|x l _ IH Hx]; [constructor|]. rewrite filter_cons. case_decide; [|done].
  constructor; [done|]. apply Forall_forall. intros y [_ Hy]%list_elem_of_filter.
  rewrite Forall_forall in Hx. by apply Hx.
Qed.

Definition without (D : list string) (F : list (string * list string)) : list (string * list string) :=
  filter (fun p => p.1 ∉ D) F.

Lemma without_names D F : (without D F).*1 = filter (fun f => f ∉ D) (F.*1).
Proof.
  unfold without. induction F as [|[f ds] F IH]; [done|]. rewrite fmap_cons, !filter_cons. simpl.
  case_decide; [|done]. by rewrite fmap_cons, IH.
Qed.

Lemma delete_inv t a dir F cur last k f :
  winv t a dir F cur last k -> f <> current_file_name a ->
  winv t a (delete f dir) (without [f] F) cur last k.
Proof.
  intros [? ? ? ? Ho (disk & Hd & Hc) Hfz Hon ? ?] Hf. split; try done.
  - rewrite without_names.
    apply StronglySorted_app_2; [|by apply StronglySorted_filter; apply StronglySorted_app_1_l in Ho|repeat constructor].
    intros x y [_ Hx]%list_elem_of_filter Hy. by eapply StronglySorted_app_1_elem_of.
  - exists disk. by rewrite lookup_delete_ne by congruence.
  - intros g ds [Hne Hg]%list_elem_of_filter. simpl in Hne. rewrite list_elem_of_singleton in Hne.
    rewrite lookup_delete_ne by congruence. by apply Hfz.
  - intros g [content Hg] Hl. apply lookup_delete_Some in Hg as [Hne Hg].
    rewrite without_names, list_elem_of_filter, list_elem_of_singleton. split; [congruence|]. apply Hon; eauto.
Qed.

Lemma without_id D F : (forall f, f ∈ D -> f ∉ F.*1) -> without D F = F.
Proof.
  intros Hd. unfold without. induction F as [|[f ds] F IH]; [done|]. rewrite filter_cons, decide_True.
  - f_equal. apply IH. intros g Hg Hin. eapply Hd; [done|by right].
  - intros Hin. eapply Hd; [done|by left].
Qed.

Lemma without_cons f D F : without D (without [f] F) = without (f :: D) F.
Proof.
  unfold without. rewrite list_filter_filter. apply list_filter_iff. intros [g ds]. simpl.
  rewrite !elem_of_cons, elem_of_nil. tauto.
Qed.

Lemma segment_name_prefix t a dir F cur last k :
  winv t a dir F cur last k -> starts_with (segment_prefix t) (current_file_name a) = true.
Proof. intros Hw. rewrite (wi_name _ _ _ _ _ _ _ Hw). apply starts_with_app. Qed.

(** [F]: the compaction segments of earlier cycles still on disk; [G]: those frozen in this
    one. *)
Record cinv (total all_replayed : list string) (s : CSys) (F G : list (string * list string)) (cur : list string)
    (last : DateTime) (k : N) : Prop := {
  ci_writer : winv WCompact (c_actor s) (c_dir s) (F ++ G) cur last k;
  ci_data : concat (G.*2) ++ cur ++ (c_queue s ≫= event_data) ++ (c_acts s ≫= act_data) = total;
  ci_replay : c_replayed s ++ (c_acts s ≫= act_replay) = all_replayed;
  ci_good : Forall good total;
  ci_nodup : NoDup (c_acts s ≫= act_delete);
  ci_own : forall f, f ∈ (c_acts s ≫= act_delete) -> f ∈ F.*1 \/ starts_with (segment_prefix WCompact) f = false;
  ci_all : forall f, f ∈ F.*1 -> f ∈ (c_acts s ≫= act_delete)
}.

Lemma prefix_disjoint t t' f : t <> t' -> starts_with (segment_prefix t) f = true -> outside t' f.
Proof.
  intros Hne. unfold outside. destruct f as [|c f]; [by destruct t|].
  destruct t, t'; try done; cbn [segment_prefix starts_with]; rewrite andb_true_iff, bool_decide_eq_true;
    intros [<- _]; apply andb_false_iff; left; by apply bool_decide_eq_false.
Qed.

#[local] Arguments starts_with : simpl never.
#[local] Arguments segment_prefix : simpl never.

Lemma writer_cinv total rep s F G cur last k now e queue :
  cinv total rep s F G cur last k ->
  (event_data e ++ (queue ≫= event_data) = c_queue s ≫= event_data) ->
  last <= now -> now / 1000 < 2 ^ 64 -> (k + 2 < 2 ^ 32)%N ->
  exists G' cur', cinv total rep (writer_handles now e queue s) F G' cur' now (k + 2).
Proof.
  intros [Hw Hd Hr Hg Hn Hown Hall] Hq Hl Hb Hk. rewrite <- Hq in Hd.
  assert (He : Forall good (event_data e)).
  { rewrite <- Hd in Hg. rewrite !Forall_app in Hg. tauto. }
  destruct (wexec_inv _ _ _ _ _ _ _ now e Hw Hl Hb Hk He) as (G' & cur' & Hw' & E).
  unfold writer_handles. destruct (wexec now e (c_actor s) (c_dir s)) as [a dir]. simpl in Hw'.
  exists (G ++ G'), cur'. split; simpl; try done; [by rewrite app_assoc|].
  rewrite <- Hd, fmap_app, concat_app, <- !app_assoc. f_equal.
  rewrite (app_assoc (concat G'.*2)), E. by rewrite <- !app_assoc.
Qed.

Lemma cstep_inv total rep s F G cur last k l s' :
  cinv total rep s F G cur last k -> cstep l s = Some s' ->
  (forall now, label_time l = Some now -> last <= now /\ now / 1000 < 2 ^ 64) -> (k + 2 < 2 ^ 32)%N ->
  exists F' G' cur', cinv total rep s' F' G' cur' (default last (label_time l)) (k + 2).
Proof.
  intros Hi Hs Ht Hk. destruct l as [|now|now e]; simpl in Hs.
  - assert (Hw' : winv WCompact (c_actor s) (c_dir s) (F ++ G) cur last (k + 2)).
    { eapply winv_weaken; [apply Hi|done|lia]. }
    destruct Hi as [Hw Hd Hr Hg Hn Hown Hall].
    destruct (c_acts s) as [|[e|d|f] acts]; simplify_eq; simpl in *.
    + exists F, G, cur. split; simpl; try done. rewrite bind_app. simpl. by rewrite app_nil_r, <- !app_assoc.
    + exists F, G, cur. split; simpl; try done. by rewrite <- app_assoc.
    + apply NoDup_cons in Hn as [Hf Hn]. exists (without [f] F), G, cur.
      assert (HG : f ∉ G.*1).
      { intros HfG. destruct (Hown f) as [HF|Hp]; [by left| |].
        - pose proof (wi_order _ _ _ _ _ _ _ Hw) as Ho. apply StronglySorted_app_1_l in Ho.
          rewrite fmap_app in Ho. by eapply key_lt_irrefl, StronglySorted_app_1_elem_of.
        - apply list_elem_of_fmap in HfG as ([f' ds] & Hf' & HfG). simpl in Hf'. subst f'.
          destruct (wi_frozen _ _ _ _ _ _ _ Hw f ds) as (_ & [Hpre _] & _); [by apply elem_of_app; right|].
          congruence. }
      assert (Hne : f <> current_file_name (c_actor s)).
      { intros ->. destruct (Hown (current_file_name (c_actor s))) as [HF|Hp]; [by left| |].
        - apply list_elem_of_fmap in HF as ([f' ds] & Hf' & HF). simpl in Hf'.
          eapply (current_not_frozen _ _ _ _ _ _ _ f' ds Hw); [by apply elem_of_app; left|done].
        - pose proof (segment_name_prefix _ _ _ _ _ _ _ Hw) as Hpre. congruence. }
      split; simpl; try done.
      * replace (without [f] F ++ G) with (without [f] (F ++ G)); [by apply delete_inv|].
        unfold without. rewrite filter_app. f_equal. apply without_id. by intros g ->%list_elem_of_singleton.
      * intros g Hgd. destruct (Hown g) as [HF|Hp]; [by right| |by right]. left.
        rewrite without_names. apply list_elem_of_filter. split; [|done].
        rewrite list_elem_of_singleton. by intros ->.
      * intros g. rewrite without_names, list_elem_of_filter, list_elem_of_singleton. intros [Hgf HF].
        apply Hall in HF. set_solver.
  - destruct (c_queue s) as [|e queue] eqn:Eq; simplify_eq. destruct (Ht now eq_refl) as [Hl Hb].
    exists F. eapply writer_cinv; try done. by rewrite Eq.
  - destruct (is_timer e) eqn:Et; simplify_eq. destruct (Ht now eq_refl) as [Hl Hb].
    exists F. eapply writer_cinv; try done. by destruct e.
Qed.

Lemma csys_run_inv total rep ls s F G cur last k s' :
  cinv total rep s F G cur last k -> csys_run ls s = Some s' ->
  times_ok last (omap label_time ls) -> (k + 2 * N.of_nat (length ls) < 2 ^ 32)%N ->
  exists F' G' cur' last' k', cinv total rep s' F' G' cur' last' k'.
Proof.
  revert s F G cur last k. induction ls as [|l ls IH]; intros s F G cur last k Hi Hr Ht Hk.
  { injection Hr as <-. by exists F, G, cur, last, k. }
  simpl in Hr. destruct (cstep l s) as [s1|] eqn:Es; [|done]. simpl in Hr, Hk, Ht.
  edestruct (cstep_inv _ _ _ _ _ _ _ _ _ _ Hi Es) as (F1 & G1 & c1 & Hi1); [|lia|].
  { intros now Hnow. rewrite Hnow in Ht. simpl in Ht. tauto. }
  eapply IH; [exact Hi1|done| |lia]. destruct (label_time l); [|done]. simpl in Ht |- *. tauto.
Qed.

(** Outside the compaction log, the files to delete go and no other file changes. *)
Definition others_inv (D : list string) (dir0 : gmap string string) (s : CSys) : Prop :=
  owns WCompact (c_actor s) /\
  forall f, outside WCompact f ->
    (f ∈ D -> (f ∈ (c_acts s ≫= act_delete)) \/ c_dir s !! f = None) /\
    (f ∉ D -> (f ∉ (c_acts s ≫= act_delete)) /\ c_dir s !! f = dir0 !! f).

Lemma cstep_others D dir0 l s s' : others_inv D dir0 s -> cstep l s = Some s' -> others_inv D dir0 s'.
Proof.
  intros [Ho Hf] Hs.
  assert (Hwr : forall now e queue, others_inv D dir0 (writer_handles now e queue s)).
  { intros now e queue. unfold others_inv, writer_handles.
    pose proof (wexec_other WCompact now e (c_actor s) (c_dir s)) as Hx.
    destruct (wexec now e (c_actor s) (c_dir s)) as [a dir]. simpl in *. split.
    - by apply (Hx "").
    - intros f Hout. destruct (Hx f Ho Hout) as [_ ->]. by apply Hf. }
  destruct l as [|now|now e]; simpl in Hs.
  - destruct (c_acts s) as [|[e|d|g] acts]; simplify_eq; simpl in Hf; split; simpl; try done.
    intros f Hout. destruct (Hf f Hout) as [Hin Hnin]. rewrite elem_of_cons in Hin, Hnin. split.
    + intros HD. destruct (decide (f = g)) as [->|Hne]; [right; apply lookup_delete_eq|].
      destruct (Hin HD) as [[?|?]|HN]; [done|by left|]. right. by rewrite lookup_delete_ne by congruence.
    + intros HD. destruct (Hnin HD) as [Hn Hd]. rewrite lookup_delete_ne by naive_solver. naive_solver.
  - destruct (c_queue s); simplify_eq. apply Hwr.
  - destruct (is_timer e); simplify_eq. apply Hwr.
Qed.

Lemma csys_run_others D dir0 ls s s' : others_inv D dir0 s -> csys_run ls s = Some s' -> others_inv D dir0 s'.
Proof.
  revert s. induction ls as [|l ls IH]; intros s Hi Hr; simpl in Hr; [by injection Hr as <-|].
  destruct (cstep l s) as [s1|] eqn:Es; [|done]. simpl in Hr. eapply IH; [|done]. by eapply cstep_others.
Qed.

(** * The GC log *)

Lemma gc_scan_data `{Chrono} `{WalCodec} {A} (upd : A -> GcEventEntry -> A) ds gcs entries r acc files :
  Forall2 (fun b g => gc_decode b ≫= gc_of_proto = Some g) ds gcs ->
  gc_scan upd ((data_entry <$> ds) ++ entries) r acc files = gc_scan upd entries r (foldl upd acc gcs) files.
Proof.
  intros H2. revert acc. induction H2 as [|b g ds gcs Hb _ IH]; intros acc; [done|].
  rewrite fmap_cons. cbn [app gc_scan data_entry]. destruct (gc_decode b) as [p|]; [|done].
  simpl in Hb. rewrite Hb. simpl. apply IH.
Qed.

Lemma gc_scan_log `{Chrono} `{WalCodec} {A} (upd : A -> GcEventEntry -> A) F gcs acc files :
  Forall2 (fun b g => gc_decode b ≫= gc_of_proto = Some g) (concat (F.*2)) gcs ->
  gc_scan upd (log_entries F) (Ok tt) acc files = Some (Ok (foldl upd acc gcs, files ++ F.*1)).
Proof.
  revert gcs acc files. induction F as [|[f ds] F IH]; intros gcs acc files H2.
  { inversion H2. simpl. by rewrite app_nil_r. }
  simpl in H2. apply Forall2_app_inv_l in H2 as (g1 & g2 & H2a & H2b & ->).
  change (log_entries ((f, ds) :: F)) with (((data_entry <$> ds) ++ [CmdFileSwitch f]) ++ log_entries F).
  rewrite <- app_assoc, (gc_scan_data upd ds g1) by done. cbn [app gc_scan].
  rewrite (IH g2) by done. by rewrite foldl_app, <- app_assoc.
Qed.

(** The verdict on an entry, given the GC events. *)
Definition keeps `{Chrono} `{WalCodec} (kind : WindowKind) (gcs : list GcEventEntry) (data : string) : option bool :=
  match kind with
  | Aligned => entry_kept (mkAligned (foldl aligned_update 0 gcs)) data
  | Unaligned => entry_kept (mkUnaligned (foldl unaligned_update ∅ gcs)) data
  end.

(** * A cycle *)

Section Cycle.
Context `{Chrono} `{WalCodec} `{HashOrder}.

(** The three logs as a cycle finds them, and the writer waiting with an empty segment. *)
Record cycle_start (d : CycleDirs) (a : SegmentWriteActor) (dir : gmap string string)
    (FG FC FD : list (string * list string)) (gcs : list GcEventEntry) (last : DateTime) (k : N) : Prop := {
  cs_gc : frozen_log WGc (d_gc d) FG;
  cs_compact : frozen_log WCompact (d_compact d) FC;
  cs_data : frozen_log WData (d_data d) FD;
  cs_gcs : Forall2 (fun b g => (gc_decode b ≫= gc_of_proto) = Some g) (concat (FG.*2)) gcs;
  cs_writer : winv WCompact a dir FC [] last k
}.

Lemma frozen_outside t t' dir F f : frozen_log t dir F -> t <> t' -> f ∈ F.*1 -> outside t' f.
Proof.
  intros Hl Hne ([f' ds] & -> & Hin)%list_elem_of_fmap.
  destruct (fl_frozen _ _ _ Hl f' ds Hin) as (_ & [Hp _] & _). by eapply prefix_disjoint.
Qed.

Lemma compact_with_actions {T} `{ShouldRetain T} (c : T) gc_files replay gate d FC FD :
  frozen_log WCompact (d_compact d) FC -> frozen_log WData (d_data d) FD ->
  Forall (fun b => is_Some (entry_kept c b)) (concat (FC.*2) ++ concat (FD.*2)) ->
  compact_with (Some (Ok (c, gc_files))) replay gate d =
  (log_actions c replay (FC ++ FD) ++ delete_gc_files gc_files gate (newest_data_segment_micros (d_start d)) (d_end d),
   Some (Ok tt)).
Proof.
  intros Hc Hd [Hk1 Hk2]%Forall_app. unfold compact_with, process_wal_stream.
  rewrite (replay_log _ _ _ Hc), (replay_log _ _ _ Hd), !process_log by done. simpl.
  unfold log_actions. by rewrite fmap_app, concat_app, <- app_assoc.
Qed.

Lemma delete_gc_files_spec gc_files gate newest dir :
  exists gs, delete_gc_files gc_files gate newest dir = CDelete <$> gs /\ sublist gs gc_files.
Proof.
  unfold delete_gc_files. destruct gate; [|exists []; split; [done|apply sublist_nil_l]].
  eexists. split; [done|]. apply sublist_filter.
Qed.

Lemma delete_actions gs : ((CDelete <$> gs) ≫= act_data) = [] /\ ((CDelete <$> gs) ≫= act_replay) = [] /\
  ((CDelete <$> gs) ≫= act_delete) = gs.
Proof. induction gs as [|g gs (E1 & E2 & E3)]; [done|]. by rewrite fmap_cons, !bind_cons, E1, E2, E3. Qed.

Lemma log_good t dir F : frozen_log t dir F -> Forall good (concat (F.*2)).
Proof.
  intros Hl. apply List.Forall_concat, Forall_fmap, Forall_forall. intros [f ds] Hf.
  by destruct (fl_frozen _ _ _ Hl _ _ Hf) as (_ & _ & Hgood).
Qed.

(** The files a cycle deletes are different, and only the first are compaction segments. *)
Lemma cycle_deletes d a dir FG FC FD gcs last k gs :
  cycle_start d a dir FG FC FD gcs last k -> sublist gs (FG.*1) ->
  NoDup (FC.*1 ++ FD.*1 ++ gs) /\ (forall f, f ∈ FD.*1 ++ gs -> outside WCompact f).
Proof.
  intros [Hg Hc Hd _ _] Hsub.
  assert (Hgs : forall f, f ∈ gs -> f ∈ FG.*1) by (intros f Hf; by eapply elem_of_sublist).
  assert (Hin : forall t dir F f, frozen_log t dir F -> f ∈ F.*1 -> ~ outside t f).
  { intros t dir' F f Hl Hf Hout. apply list_elem_of_fmap in Hf as ([f' ds] & -> & Hf).
    destruct (fl_frozen _ _ _ Hl f' ds Hf) as (_ & [Hp _] & _). unfold outside in Hout. simpl in Hout. congruence. }
  assert (Hout : forall f, f ∈ FD.*1 ++ gs -> outside WCompact f).
  { intros f [Hf|Hf]%elem_of_app; [by apply (frozen_outside WData _ (d_data d) FD)|].
    apply (frozen_outside WGc _ (d_gc d) FG); auto. }
  split; [|done]. apply NoDup_app. split; [by apply StronglySorted_key_NoDup, fl_order with WCompact (d_compact d)|].
  split; [intros f HfC HfD; by apply (Hin _ _ _ f Hc), Hout|].
  apply NoDup_app. split; [by apply StronglySorted_key_NoDup, fl_order with WData (d_data d)|]. split.
  - intros f HfD HfG. apply (Hin _ _ _ f Hd HfD), (frozen_outside WGc _ (d_gc d) FG); auto.
  - eapply sublist_NoDup; [|exact Hsub]. by apply StronglySorted_key_NoDup, fl_order with WGc (d_gc d).
Qed.

Lemma compact_with_refines {T} `{ShouldRetain T} (c : T) replay gate d a dir FG FC FD gcs last k ls s' :
  cycle_start d a dir FG FC FD gcs last k ->
  Forall (fun b => is_Some (entry_kept c b)) (concat (FC.*2) ++ concat (FD.*2)) ->
  times_ok last (omap label_time ls) -> (k + 2 * N.of_nat (length ls) < 2 ^ 32)%N ->
  let acts := (compact_with (Some (Ok (c, FG.*1))) replay gate d).1 in
  csys_run ls (mkCSys acts [] a dir []) = Some s' -> c_acts s' = [] -> c_queue s' = [] ->
  let kept := retained c (concat (FC.*2) ++ concat (FD.*2)) in
  (exists G, frozen_log WCompact (actor_stop (c_actor s') (c_dir s')) G /\ concat (G.*2) = kept) /\
  c_replayed s' = (if replay then kept else []) /\
  (forall f, f ∈ FD.*1 -> c_dir s' !! f = None).
Proof.
  intros Hcs Hk Ht Hn acts Hr Ha Hq kept. pose proof Hcs as [Hg Hc Hd _ Hw].
  destruct (delete_gc_files_spec (FG.*1) gate (newest_data_segment_micros (d_start d)) (d_end d)) as (gs & Egs & Hsub).
  destruct (cycle_deletes _ _ _ _ _ _ _ _ _ _ Hcs Hsub) as [Hnd Hout].
  assert (Eacts : acts = log_actions c replay (FC ++ FD) ++ (CDelete <$> gs)).
  { unfold acts. by rewrite (compact_with_actions _ _ _ _ _ FC FD), Egs. }
  destruct (delete_actions gs) as (Eg1 & Eg2 & Eg3).
  assert (Edel : (acts ≫= act_delete) = FC.*1 ++ FD.*1 ++ gs).
  { by rewrite Eacts, bind_app, log_actions_delete, Eg3, fmap_app, <- app_assoc. }
  assert (Hi : cinv kept (if replay then kept else []) (mkCSys acts [] a dir []) FC [] [] last k).
  { split; simpl; rewrite ?Edel, ?app_nil_r; try done.
    - by rewrite Eacts, bind_app, log_actions_data, Eg1, app_nil_r, fmap_app, concat_app.
    - by rewrite Eacts, bind_app, log_actions_replay, Eg2, app_nil_r, fmap_app, concat_app.
    - assert (Hall : Forall good (concat (FC.*2) ++ concat (FD.*2))) by (apply Forall_app_2; by eapply log_good).
      rewrite Forall_forall in Hall |- *. intros b [_ Hb]%list_elem_of_filter. by apply Hall.
    - intros f [Hf|Hf]%elem_of_app; [by left|right]. by apply Hout.
    - intros f Hf. apply elem_of_app. by left. }
  assert (Ho : others_inv (acts ≫= act_delete) dir (mkCSys acts [] a dir [])).
  { split; [|simpl; intros f _; split; auto]. split; [apply Hw|]. by eapply segment_name_prefix. }
  destruct (csys_run_inv _ _ _ _ _ _ _ _ _ _ Hi Hr Ht Hn) as (F' & G' & cur & last' & k' & Hi').
  pose proof (csys_run_others _ _ _ _ _ Ho Hr) as [_ Ho'].
  assert (F' = []) as ->.
  { destruct F' as [|[f ds] F']; [done|]. pose proof (ci_all _ _ _ _ _ _ _ _ Hi' f) as Hf. rewrite Ha in Hf.
    exfalso. apply (not_elem_of_nil f), Hf. by left. }
  destruct (stop_inv _ _ _ _ _ _ _ (ci_writer _ _ _ _ _ _ _ _ Hi')) as (G2 & Hl & E2).
  pose proof (ci_data _ _ _ _ _ _ _ _ Hi') as Ed. pose proof (ci_replay _ _ _ _ _ _ _ _ Hi') as Er.
  rewrite Ha, Hq in Ed. rewrite Ha in Er. simpl in Ed, Er. rewrite !app_nil_r in Ed, Er. split_and!.
  - exists (G' ++ G2). split; [done|]. by rewrite fmap_app, concat_app, E2.
  - done.
  - intros f Hf. destruct (Ho' f) as [Hdel _]; [by apply Hout, elem_of_app; left|].
    rewrite Ha in Hdel. destruct Hdel as [?%elem_of_nil|?]; [|done|done]. rewrite Edel, !elem_of_app. tauto.
Qed.
End Cycle.

(** * What is retained *)

Section Retention.
Context `{Chrono} `{WalCodec}.

Lemma foldl_aligned acc gcs x :
  foldl aligned_update acc gcs <= x <-> acc <= x /\ Forall (fun g => gc_end_time g <= x) gcs.
Proof.
  revert acc. induction gcs as [|g gcs IH]; intros acc; simpl.
  - split; [done|by intros []].
  - rewrite IH, Forall_cons. unfold aligned_update. rewrite Z.max_lub_iff. tauto.
Qed.

Definition same_key (m : Message) (g : GcEventEntry) : bool :=
  match gc_keys g with Some ks => bool_decide (join_keys ks = join_keys (m_keys m)) | None => false end.

Lemma foldl_unaligned acc gcs key x :
  (forall t, foldl unaligned_update acc gcs !! key = Some t -> t <= x) <->
  (forall t, acc !! key = Some t -> t <= x) /\
  Forall (fun g => (join_keys <$> gc_keys g) = Some key -> gc_end_time g <= x) gcs.
Proof.
  revert acc. induction gcs as [|g gcs IH]; intros acc; simpl.
  { split; [done|by intros []]. }
  rewrite IH, Forall_cons. unfold unaligned_update. clear IH.
  destruct (gc_keys g) as [ks|]; simpl; [|naive_solver].
  destruct (decide (join_keys ks = key)) as [<-|Hne].
  - destruct (acc !! join_keys ks) as [dt|] eqn:Ea; [destruct (Z.ltb_spec dt (gc_end_time g))|];
      rewrite ?lookup_insert_eq, ?Ea; (split; [intros [Hx HF]; specialize (Hx _ eq_refl)|intros (Hx & Hy & HF)]);
      (split; [intros t Ht; simplify_eq; try lia; by auto|try done]); (split; [intros _; lia|done]).
  - assert (Hl : forall v, <[join_keys ks := v]> acc !! key = acc !! key) by (intros; by apply lookup_insert_ne).
    assert (Hsame : (match acc !! join_keys ks with
      | Some dt => if dt <? gc_end_time g then <[join_keys ks := gc_end_time g]> acc else acc
      | None => <[join_keys ks := gc_end_time g]> acc end) !! key = acc !! key).
    { destruct (acc !! join_keys ks); [destruct (_ <? _)|]; by rewrite ?Hl. }
    rewrite Hsame. naive_solver.
Qed.

(** The message a stored entry stands for. *)
Lemma stored_message m b :
  wal_to_bytes m = Ok b -> dt_valid (m_event_time m) ->
  exists p, (read_decode b ≫= rm_message) = Some p /\ proto_event_time p = Some (m_event_time m) /\
    (ph_keys <$> pm_header p) = Some (m_keys m).
Proof.
  unfold wal_to_bytes. intros Hb Ht. destruct (m_offset m) as [o|]; [|done]. injection Hb as <-.
  rewrite read_decode_encode. eexists. split; [done|]. split; [|done].
  unfold proto_event_time. simpl. by rewrite utc_timestamp_roundtrip.
Qed.
End Retention.

Lemma entry_kept_message `{Chrono} `{WalCodec} {T} `{ShouldRetain T} (c : T) b p :
  (read_decode b ≫= rm_message) = Some p ->
  entry_kept c b = match should_retain_message c p with Some (Ok x) => Some x | _ => None end.
Proof.
  unfold entry_kept. destruct (read_decode b) as [rm|]; [|done]. simpl. intros Hm. by rewrite Hm.
Qed.

(** Aligned retention. Given the GC events of the GC log, compaction keeps a stored
    message exactly when its event time is not before the epoch and not before the end of any
    window a GC event reports; a message whose event time equals that end is kept. *)
Theorem aligned_retention (C : Chrono) (K : WalCodec) (gcs : list GcEventEntry) (m : Message) (b : string) :
  wal_to_bytes m = Ok b -> dt_valid (m_event_time m) ->
  exists keep, keeps Aligned gcs b = Some keep /\
    (keep = true <-> 0 <= m_event_time m /\ Forall (fun g => gc_end_time g <= m_event_time m) gcs).
Proof.
  intros Hb Ht. destruct (stored_message m b Hb Ht) as (p & Hp & Het & _). simpl.
  rewrite (entry_kept_message _ b p Hp). unfold should_retain_message, AlignedCompaction_retain, aligned_should_retain. rewrite Het. simpl.
  eexists. split; [done|]. rewrite Z.leb_le. apply foldl_aligned.
Qed.

(** Unaligned retention. Compaction keeps a stored message exactly when its event time is
    not before the end of any GC event whose keys, joined with the separator, read the same as
    the keys of the message, joined. *)
Theorem unaligned_retention (C : Chrono) (K : WalCodec) (gcs : list GcEventEntry) (m : Message) (b : string) :
  wal_to_bytes m = Ok b -> dt_valid (m_event_time m) ->
  exists keep, keeps Unaligned gcs b = Some keep /\
    (keep = true <-> Forall (fun g => same_key m g = true -> gc_end_time g <= m_event_time m) gcs).
Proof.
  intros Hb Ht. destruct (stored_message m b Hb Ht) as (p & Hp & Het & Hks). simpl.
  rewrite (entry_kept_message _ b p Hp). unfold should_retain_message, UnalignedCompaction_retain, unaligned_should_retain. rewrite Het, Hks. simpl.
  pose proof (foldl_unaligned ∅ gcs (join_keys (m_keys m)) (m_event_time m)) as Hf.
  assert (Hsame : Forall (fun g => same_key m g = true -> gc_end_time g <= m_event_time m) gcs <->
    Forall (fun g => (join_keys <$> gc_keys g) = Some (join_keys (m_keys m)) -> gc_end_time g <= m_event_time m) gcs).
  { apply Forall_iff. intros g. unfold same_key. destruct (gc_keys g) as [ks|]; simpl; [|by split; intros].
    rewrite bool_decide_eq_true. split; intros Hx Hy; apply Hx; congruence. }
  destruct (foldl unaligned_update ∅ gcs !! _) as [t|]; eexists; (split; [done|]); rewrite Hsame.
  - rewrite Z.leb_le. split.
    + intros Hle. apply Hf. by intros t' [= <-].
    + intros Hx. apply Hf; [|done]. split; [|done]. intros t'. by rewrite lookup_empty.
  - split; [|done]. intros _. by apply Hf.
Qed.

(** * A cycle as a whole *)

(** C5: a compaction cycle. From any three logs, with the writer of the compaction log waiting
    on an empty segment, the cycle ends without error; and in every interleaving of the
    compactor, the writer and the writer's timers that drains the channel, once the writer
    stops, replay of the compaction log yields exactly the entries of the compaction log
    followed by those of the data log that the GC events do not cover, in their order. The
    same entries were sent for replay when replay was asked for, and the data segments are
    gone. *)
Theorem compaction_refines_filter (C : Chrono) (K : WalCodec) (H : HashOrder) (kind : WindowKind)
    (replay gate : bool) (d : CycleDirs) (a : SegmentWriteActor) (dir : gmap string string)
    (FG FC FD : list (string * list string)) (gcs : list GcEventEntry) (last : DateTime) (k : N)
    (ls : list CLabel) (s' : CSys) :
  cycle_start d a dir FG FC FD gcs last k ->
  Forall (fun b => is_Some (keeps kind gcs b)) (concat (FC.*2) ++ concat (FD.*2)) ->
  times_ok last (omap label_time ls) -> (k + 2 * N.of_nat (length ls) < 2 ^ 32)%N ->
  csys_run ls (mkCSys (compact kind replay gate d).1 [] a dir []) = Some s' ->
  c_acts s' = [] -> c_queue s' = [] ->
  let kept := filter (fun b => keeps kind gcs b = Some true) (concat (FC.*2) ++ concat (FD.*2)) in
  let replayed := streaming_read WCompact (actor_stop (c_actor s') (c_dir s')) in
  (compact kind replay gate d).2 = Some (Ok tt) /\
  replayed.2 = Ok tt /\ omap entry_data replayed.1 = kept /\
  c_replayed s' = (if replay then kept else []) /\
  (forall f, f ∈ FD.*1 -> c_dir s' !! f = None).
Proof.
  intros Hcs Hk Ht Hn Hr Ha Hq kept replayed. pose proof Hcs as [Hg Hc Hd Hgcs _].
  assert (Hgen : forall T (S : ShouldRetain T) (c : T), (forall b, entry_kept c b = keeps kind gcs b) ->
    compact kind replay gate d = compact_with (Some (Ok (c, FG.*1))) replay gate d ->
    (compact kind replay gate d).2 = Some (Ok tt) /\
    replayed.2 = Ok tt /\ omap entry_data replayed.1 = kept /\
    c_replayed s' = (if replay then kept else []) /\ (forall f, f ∈ FD.*1 -> c_dir s' !! f = None)).
  { intros T S c Hkeep Ec. rewrite Ec in Hr |- *.
    assert (Hk' : Forall (fun b => is_Some (entry_kept c b)) (concat (FC.*2) ++ concat (FD.*2))).
    { eapply Forall_impl; [exact Hk|]. intros b. by rewrite Hkeep. }
    assert (Ekept : retained c (concat (FC.*2) ++ concat (FD.*2)) = kept).
    { apply list_filter_iff. intros b. by rewrite Hkeep. }
    destruct (compact_with_refines c replay gate d a dir FG FC FD gcs last k ls s') as ((G & Hl & E) & Hrep & Hgone); [done..|].
    rewrite (compact_with_actions c _ _ _ _ FC FD) by done. unfold replayed. rewrite (replay_log _ _ _ Hl). simpl.
    rewrite log_entries_data, E, Hrep, Ekept. done. }
  destruct kind; [apply (Hgen _ _ (mkAligned (foldl aligned_update 0 gcs)))|
    apply (Hgen _ _ (mkUnaligned (foldl unaligned_update ∅ gcs)))]; try done; simpl;
    [unfold compact_aligned, build_aligned_compaction|unfold compact_unaligned, build_unaligned_compaction];
    rewrite (replay_log _ _ _ Hg), (gc_scan_log _ FG gcs) by done; done.
Qed.

(** * The retention gate *)

Lemma newest_spec `{HashOrder} dir x :
  (exists n, newest_data_segment_micros dir = Some n /\ (x < n)%N) <->
  exists f, f ∈ list_files_with_active WData dir /\ (x < parse_segment_create_micros f)%N.
Proof.
  unfold newest_data_segment_micros. induction (list_files_with_active WData dir) as [|f fs IH]; simpl.
  - split; [by intros (? & ? & _)|by intros (f & ?%elem_of_nil & _)].
  - setoid_rewrite elem_of_cons. split.
    + intros (n & [= <-] & Hx). destruct (foldr _ None fs) as [m|]; [|by eauto].
      destruct (decide (x < parse_segment_create_micros f)%N); [by eauto|].
      destruct IH as [IH _]. destruct IH as (g & Hg & Hlt); [exists m; split; [done|lia]|by eauto].
    + intros (g & [->|Hg] & Hlt); eexists; (split; [done|]).
      * destruct (foldr _ None fs) as [m|]; lia.
      * destruct IH as [_ IH]. destruct IH as (m & -> & Hm); [by eauto|lia].
Qed.

Lemma successor_spec fs g x :
  successor_create_micros fs g = Some x <->
  exists pre g' post, fs = pre ++ g :: g' :: post /\ (g ∉ pre) /\ parse_segment_create_micros g' = x.
Proof.
  unfold successor_create_micros. split.
  - destruct (list_find (fun f => f = g) fs) as [[i g0]|] eqn:Ef; [|done]. simpl.
    apply list_find_Some in Ef as (Hi & -> & Hpre). intros Hs.
    destruct (fs !! S i) as [g'|] eqn:Eg; [|done]. simpl in Hs. injection Hs as <-.
    exists (take i fs), g', (drop (S (S i)) fs). split_and!; [|intros Hin|done].
    + rewrite <- (take_drop_middle fs i g) at 1 by done. do 2 f_equal.
      by rewrite (drop_S fs g' (S i)).
    + apply list_elem_of_lookup in Hin as (j & Hj). apply lookup_take_Some in Hj as [Hj Hlt].
      by eapply (Hpre j).
  - intros (pre & g' & post & -> & Hpre & <-).
    assert (list_find (fun f => f = g) (pre ++ g :: g' :: post) = Some (length pre, g)) as ->.
    { apply list_find_Some. split_and!; [by apply list_lookup_middle|done|].
      intros j y Hj Hlt ->. rewrite lookup_app_l in Hj by done. by apply Hpre, list_elem_of_lookup; exists j. }
    simpl. rewrite lookup_app_r by lia. replace (S (length pre) - length pre)%nat with 1%nat by lia. done.
Qed.

(** The gate on GC segments. A cycle deletes a GC segment exactly when the gate is applied
    (every cycle but the one at boot), the cycle has read the segment, a later GC segment
    follows it in the order of the log, and at the start of the cycle there was a data segment,
    open or frozen, created strictly after that follower. The newest GC segment is therefore
    never deleted. *)
Theorem gc_segment_gate (H : HashOrder) (gc_files : list string) (gate : bool)
    (dir0 dir : gmap string string) (g : string) :
  CDelete g ∈ delete_gc_files gc_files gate (newest_data_segment_micros dir0) dir <->
  gate = true /\ g ∈ gc_files /\
  exists pre g' post f, sort_filenames (list_files_with_active WGc dir) = pre ++ g :: g' :: post /\ (g ∉ pre) /\
    f ∈ list_files_with_active WData dir0 /\
    (parse_segment_create_micros g' < parse_segment_create_micros f)%N.
Proof.
  unfold delete_gc_files. destruct gate; [|split; [by intros ?%elem_of_nil|by intros []]].
  rewrite list_elem_of_fmap.
  assert (Hd : gc_should_delete (newest_data_segment_micros dir0) (sort_filenames (list_files_with_active WGc dir)) g = true <->
    exists x, successor_create_micros (sort_filenames (list_files_with_active WGc dir)) g = Some x /\
      exists n, newest_data_segment_micros dir0 = Some n /\ (x < n)%N).
  { unfold gc_should_delete. destruct (newest_data_segment_micros dir0) as [n|], (successor_create_micros _ g) as [x|];
      [rewrite N.ltb_lt|..]; naive_solver. }
  split.
  - intros (g0 & [= <-] & [Hdel Hin]%list_elem_of_filter). split_and!; try done.
    apply Hd in Hdel as (x & Hs & Hn). apply newest_spec in Hn as (f & Hf & Hlt).
    apply successor_spec in Hs as (pre & g' & post & Es & Hp & <-). exists pre, g', post, f.
    split; [exact Es|]. split; [exact Hp|]. split; [exact Hf|exact Hlt].
  - intros (_ & Hin & pre & g' & post & f & Es & Hp & Hf & Hlt). exists g. split; [done|].
    apply list_elem_of_filter. split; [|done]. apply Hd. exists (parse_segment_create_micros g'). split; [|apply newest_spec; by exists f].
    apply successor_spec. by exists pre, g', post.
Qed.

(** * Concrete runs *)

(** A codec with one-letter names for a chosen message and a chosen GC event. *)
Definition letter_m : Ascii.ascii := Ascii.Ascii true false true true false true true false.
Definition letter_n : Ascii.ascii := Ascii.Ascii false true true true false true true false.

Definition short_encode {A} `{Countable A} (a0 a : A) : string :=
  if decide (a = a0) then String letter_m "" else String letter_n (number_bytes (encode a)).
Definition short_decode {A} `{Countable A} (a0 : A) (s : string) : option A :=
  match s with
  | EmptyString => None
  | String c s => if decide (c = letter_m) then Some a0 else decode (bytes_number s)
  end.
Lemma short_decode_encode {A} `{Countable A} (a0 a : A) : short_decode a0 (short_encode a0 a) = Some a.
Proof.
  unfold short_encode. case_decide as Ha; [by subst|]. simpl. rewrite bytes_number_bytes. apply decode_encode.
Qed.

Definition short_codec (p0 : ProtoReadMessage) (g0 : ProtoGcEvent) : WalCodec :=
  {| read_encode := short_encode p0; read_decode := short_decode p0;
     read_decode_encode := short_decode_encode p0;
     gc_encode := short_encode g0; gc_decode := short_decode g0; gc_decode_encode := short_decode_encode g0 |}.

Definition keyed_message : Message :=
  mkMessage Data ["a"; "b"] None "p" (OInt (mkIntOffset 1 0)) 5000000000 None (mkMessageID "v" "1" 0)
    ∅ None false None.
Definition joined_gc : GcEventEntry := mkGcEventEntry 0 9000000000 (Some ["a:b"]).
Definition sample_codec : WalCodec :=
  short_codec (@wal_to_proto chrono_utc keyed_message (mkIntOffset 1 0)) (@gc_to_proto chrono_utc joined_gc).
#[local] Existing Instance chrono_utc.
#[local] Existing Instance sample_codec.
#[local] Existing Instance canonical_order.

Lemma aligned_retention_witness :
  wal_to_bytes keyed_message = Ok "m" /\
  exists keep, keeps Aligned [joined_gc] "m" = Some keep /\
    (keep = true <-> 0 <= m_event_time keyed_message /\
       Forall (fun g => gc_end_time g <= m_event_time keyed_message) [joined_gc]).
Proof.
  split; [vm_compute; reflexivity|].
  apply (aligned_retention chrono_utc sample_codec [joined_gc] keyed_message "m"); [vm_compute; reflexivity|by vm_compute].
Defined.

Lemma unaligned_retention_witness :
  wal_to_bytes keyed_message = Ok "m" /\
  exists keep, keeps Unaligned [joined_gc] "m" = Some keep /\
    (keep = true <-> Forall (fun g => same_key keyed_message g = true ->
       gc_end_time g <= m_event_time keyed_message) [joined_gc]).
Proof.
  split; [vm_compute; reflexivity|].
  apply (unaligned_retention chrono_utc sample_codec [joined_gc] keyed_message "m"); [vm_compute; reflexivity|by vm_compute].
Defined.

(** The joined keys of different key lists can coincide: a GC event for the one key [a:b]
    removes a message with the two keys [a] and [b]. *)
Example joined_keys_collide :
  gc_keys joined_gc <> Some (m_keys keyed_message) /\
  keeps Unaligned [joined_gc] "m" = Some false /\ keeps Unaligned [] "m" = Some true.
Proof. split; [done|]. split; vm_compute; reflexivity. Qed.

(** A data segment with one message, nothing else. *)
Definition one_dir : gmap string string := {["data_0_1.wal.frozen" := frames ["m"]]}.
Definition one_dirs : CycleDirs := mkCycleDirs one_dir one_dir one_dir one_dir one_dir.
Definition one_writer : SegmentWriteActor * gmap string string := actor_start WCompact 1 300 2000000 one_dir.

Lemma one_cycle_start :
  cycle_start one_dirs one_writer.1 one_writer.2 [] [] [("data_0_1.wal.frozen", ["m"])] [] 2000000 0.
Proof.
  assert (Hone : forall f, is_Some (one_dir !! f) -> f = "data_0_1.wal.frozen").
  { intros f [c Hc]. unfold one_dir in Hc. by apply lookup_singleton_Some in Hc as [<- _]. }
  assert (Hempty : forall t, t <> WData -> frozen_log t one_dir []).
  { intros t Ht. split; [constructor|by intros ? ? ?%elem_of_nil|].
    intros f ->%Hone [Hp _]. by destruct t. }
  split; simpl; [by apply Hempty..| |constructor|apply start_inv; [by apply Hempty|done|done|constructor]].
  split.
  - repeat constructor.
  - intros f ds [= -> ->]%list_elem_of_singleton. split; [apply lookup_singleton_eq|].
    split; [split; reflexivity|]. constructor; [|constructor]. by split.
  - intros f ->%Hone _. by left.
Qed.

Definition one_run : list CLabel :=
  [ByCompactor; ByCompactor; ByWriter 3000000; ByTimer 3000000 (Spill 4); ByCompactor; ByCompactor; ByWriter 3000001].

Lemma compaction_refines_filter_witness :
  exists s', csys_run one_run (mkCSys (compact Aligned true true one_dirs).1 [] one_writer.1 one_writer.2 []) = Some s' /\
    c_replayed s' = ["m"] /\
    omap entry_data (streaming_read WCompact (actor_stop (c_actor s') (c_dir s'))).1 = ["m"].
Proof.
  eexists. split; [vm_compute; reflexivity|]. split; [reflexivity|].
  edestruct (compaction_refines_filter chrono_utc sample_codec canonical_order Aligned true true one_dirs
    one_writer.1 one_writer.2 [] [] [("data_0_1.wal.frozen", ["m"])] [] 2000000 0 one_run)
    as (_ & _ & Hk & _).
  - exact one_cycle_start.
  - constructor; [|constructor]. eexists. vm_compute. reflexivity.
  - repeat split; done.
  - done.
  - vm_compute. reflexivity.
  - reflexivity.
  - reflexivity.
  - etrans; [exact Hk|]. vm_compute. reflexivity.
Defined.

(** The file of a segment is removed when its rotation has been sent, not when it is complete:
    if the process stops between, a retained message is in no log. *)
Example compaction_crash_window :
  exists s', csys_run [ByCompactor; ByCompactor; ByCompactor]
      (mkCSys (compact Aligned false true one_dirs).1 [] one_writer.1 one_writer.2 []) = Some s' /\
    c_queue s' = [Write "m"; Rotate false] /\
    (streaming_read WData (c_dir s')).1 = [] /\ (streaming_read WCompact (c_dir s')).1 = [].
Proof. eexists. split; [vm_compute; reflexivity|]. split_and!; vm_compute; reflexivity. Qed.
