(* ===== verification/Timeline.v ===== *)
(** Watermark bucket entries and the per-partition offset timeline
    (src/rust/numaflow-core/src/watermark/wmb.rs and
    src/rust/numaflow-core/src/watermark/processor/timeline.rs).

    [WMB] is the message a processor publishes; [OffsetTimeline] is the fixed-length
    deque of the newest ones. The abstract timeline [abs_put] keeps every accepted
    entry; the refinement lemma says that the deque is its newest [capacity] entries. *)
From S2P Require Import Prelude.

(** * WMB *)

Record WMB := mkWMB {
  idle : bool;
  offset : Z;              (* i64 *)
  watermark : Z;           (* i64, milliseconds *)
  partition : Z;           (* u16 *)
  processor_count : option Z (* u32 *)
}.

#[global] Instance WMB_eq_dec : EqDecision WMB.
Proof. solve_decision. Defined.

Definition WMB_default : WMB := mkWMB false (-1) (-1) 0 None.

(** The machine ranges of the fields. *)
Definition wmb_typed (w : WMB) : Prop :=
  in_i64 (offset w) /\ in_i64 (watermark w) /\ 0 <= partition w < 2 ^ 16 /\
  match processor_count w with Some c => 0 <= c < 2 ^ 32 | None => True end.

(** The generated protobuf message: [partition] and [processor_count] are [int32]. *)
Record ProtoWmb := mkProtoWmb {
  p_idle : bool;
  p_offset : Z;
  p_watermark : Z;
  p_partition : Z;
  p_processor_count : option Z
}.

Definition wmb_to_proto (w : WMB) : ProtoWmb :=
  mkProtoWmb (idle w) (offset w) (watermark w) (as_i32 (partition w))
    (as_i32 <$> processor_count w).

Definition wmb_of_proto (p : ProtoWmb) : WMB :=
  mkWMB (p_idle p) (p_offset p) (p_watermark p) (as_u16 (p_partition p))
    (as_u32 <$> p_processor_count p).

(** The protobuf codec (crate prost) is a parameter: encoding may fail, and what was
    encoded decodes to the same message. *)
Class WmbCodec := {
  Bytes : Type;
  wmb_encode : ProtoWmb -> option Bytes;
  wmb_decode : Bytes -> option ProtoWmb;
  wmb_decode_encode : forall p b, wmb_encode p = Some b -> wmb_decode b = Some p
}.

Definition wmb_try_into_bytes `{WmbCodec} (w : WMB) : option Bytes := wmb_encode (wmb_to_proto w).
Definition wmb_try_from_bytes `{WmbCodec} (b : Bytes) : option WMB := wmb_of_proto <$> wmb_decode b.

Lemma wmb_proto_roundtrip w : wmb_typed w -> wmb_of_proto (wmb_to_proto w) = w.
Proof.
  intros (_ & _ & Hp & Hc). destruct w as [i o wm p c]; simpl in *.
  unfold wmb_of_proto, wmb_to_proto; simpl. f_equal.
  - unfold as_u16, as_i32. rewrite (Z.mod_small (p + 2 ^ 31)) by lia.
    rewrite Z.add_simpl_r. apply Z.mod_small. lia.
  - destruct c as [c|]; simpl; [|done]. by rewrite as_u32_as_i32.
Qed.

Lemma wmb_bytes_roundtrip `{WmbCodec} w b :
  wmb_typed w -> wmb_try_into_bytes w = Some b -> wmb_try_from_bytes b = Some w.
Proof.
  unfold wmb_try_into_bytes, wmb_try_from_bytes. intros Hw Hb.
  rewrite (wmb_decode_encode _ _ Hb). simpl. by rewrite wmb_proto_roundtrip.
Qed.

(** * The offset timeline *)

(** Newest entry first. *)
Record OffsetTimeline := mkTimeline {
  watermarks : list WMB;
  capacity : nat
}.

Definition timeline_new (cap : nat) : OffsetTimeline :=
  mkTimeline (replicate cap WMB_default) cap.

Definition set_watermark (w : WMB) (wm : Z) : WMB :=
  mkWMB (idle w) (offset w) wm (partition w) (processor_count w).

(** The entries after the [match] of [put], before trimming; [None] is the panic on
    an empty timeline. *)
Definition put_entries (ws : list WMB) (node : WMB) : option (list WMB) :=
  match ws with
  | [] => None
  | element_node :: rest =>
      Some (match watermark node ?= watermark element_node, offset node ?= offset element_node with
            | Eq, Gt => node :: ws
            | Eq, _ => ws
            | Gt, Gt => node :: ws
            | Gt, Lt => ws
            | Lt, _ => ws
            | Gt, Eq => set_watermark element_node (watermark node) :: rest
            end)
  end.

(** [pop_back] when the deque is longer than its capacity. *)
Definition trim (cap : nat) (ws : list WMB) : list WMB :=
  if (cap <? length ws)%nat then take (length ws - 1) ws else ws.

Definition put (t : OffsetTimeline) (node : WMB) : option OffsetTimeline :=
  let? ws := put_entries (watermarks t) node in
  Some (mkTimeline (trim (capacity t) ws) (capacity t)).

Definition get_head_wmb (t : OffsetTimeline) : option WMB := head (watermarks t).
Definition get_head_offset (t : OffsetTimeline) : Z :=
  match get_head_wmb t with Some w => offset w | None => -1 end.
Definition get_head_watermark (t : OffsetTimeline) : Z :=
  match get_head_wmb t with Some w => watermark w | None => -1 end.

(** The watermark of the first entry, newest first, with a smaller offset. *)
Fixpoint find_event_time (ws : list WMB) (input_offset : Z) : Z :=
  match ws with
  | [] => -1
  | w :: ws' => if offset w <? input_offset then watermark w else find_event_time ws' input_offset
  end.

Definition get_event_time (t : OffsetTimeline) (input_offset : Z) : Z :=
  find_event_time (watermarks t) input_offset.

Definition entries (t : OffsetTimeline) : list WMB := watermarks t.

(** A sequence of [put]s. *)
Fixpoint puts (t : OffsetTimeline) (ws : list WMB) : option OffsetTimeline :=
  match ws with
  | [] => Some t
  | w :: ws' => let? t' := put t w in puts t' ws'
  end.

(** * Invariant *)

(** An entry further back was accepted earlier: neither coordinate exceeds a newer one. *)
Definition newer (a b : WMB) : Prop := watermark b <= watermark a /\ offset b <= offset a.

Definition timeline_wf (t : OffsetTimeline) : Prop :=
  (0 < capacity t)%nat /\ length (watermarks t) = capacity t /\
  StronglySorted newer (watermarks t) /\
  Forall (fun w => -1 <= watermark w /\ -1 <= offset w) (watermarks t).

#[global] Instance newer_trans : Transitive newer.
Proof. unfold newer. intros a b c [] []. lia. Qed.

(** Pushing a node that is not older than the head. *)
Lemma sorted_push node e rest :
  StronglySorted newer (e :: rest) -> newer node e -> StronglySorted newer (node :: e :: rest).
Proof.
  intros Hs Hn. constructor; [done|].
  constructor; [done|]. apply StronglySorted_inv in Hs as [_ Hs].
  eapply Forall_impl; [done|]. intros w Hw. by transitivity e.
Qed.

Lemma sorted_raise e rest wm :
  StronglySorted newer (e :: rest) -> watermark e <= wm ->
  StronglySorted newer (set_watermark e wm :: rest).
Proof.
  intros [Hs He]%StronglySorted_inv Hwm. constructor; [done|].
  eapply Forall_impl; [done|]. unfold newer; simpl. lia.
Qed.

Lemma put_entries_sorted ws node ws' :
  StronglySorted newer ws -> put_entries ws node = Some ws' -> StronglySorted newer ws'.
Proof.
  intros Hs. destruct ws as [|e rest]; simpl; [done|]. intros [= <-].
  repeat case_match; zify_bool; simplify_eq; try done;
    try (apply sorted_push; [done | unfold newer; lia]).
  apply sorted_raise; [done|lia].
Qed.

Lemma put_entries_bounded ws node ws' :
  Forall (fun w => -1 <= watermark w /\ -1 <= offset w) ws ->
  put_entries ws node = Some ws' ->
  Forall (fun w => -1 <= watermark w /\ -1 <= offset w) ws'.
Proof.
  intros Hb. destruct ws as [|e rest]; simpl; [done|]. intros [= <-].
  inversion Hb; subst.
  repeat case_match; zify_bool; simplify_eq; try done; repeat constructor; simpl; try done; lia.
Qed.

Lemma put_entries_length ws node ws' :
  put_entries ws node = Some ws' -> (length ws <= length ws' <= S (length ws))%nat.
Proof. destruct ws; simpl; [done|]. intros [= <-]. repeat case_match; simpl; lia. Qed.

Lemma trim_take cap ws : (length ws <= S cap)%nat -> trim cap ws = take cap ws.
Proof.
  intros Hl. unfold trim. destruct (Nat.ltb_spec cap (length ws)).
  - f_equal. lia.
  - symmetry. apply take_ge. lia.
Qed.

Lemma sorted_take (R : relation WMB) n ws : StronglySorted R ws -> StronglySorted R (take n ws).
Proof.
  intros Hs. revert n. induction Hs as [|w ws Hs IH Hw]; intros [|n]; simpl; try constructor; auto.
  by apply Forall_take.
Qed.

Lemma timeline_new_wf cap : (0 < cap)%nat -> timeline_wf (timeline_new cap).
Proof.
  intros Hc. unfold timeline_wf; simpl. rewrite length_replicate.
  split_and!; [done|done| |by apply Forall_replicate; simpl; lia].
  induction cap as [|cap IH]; simpl; [constructor|].
  destruct cap; constructor; try (apply IH; lia); simpl; [constructor|constructor|].
  apply Forall_replicate with (n := S cap). unfold newer; simpl; lia.
Qed.

(** [put] is defined on every well-formed timeline and preserves the invariant. *)
Lemma put_wf t node : timeline_wf t -> exists t', put t node = Some t' /\ timeline_wf t' /\ capacity t' = capacity t.
Proof.
  intros (Hc & Hl & Hs & Hb). unfold put.
  destruct (put_entries (watermarks t) node) as [ws|] eqn:E.
  - eexists. split; [done|]. pose proof (put_entries_length _ _ _ E).
    split; [|done]. unfold timeline_wf; simpl. rewrite trim_take by lia.
    split_and!; [done | rewrite length_take; lia | |].
    + by apply sorted_take; eapply put_entries_sorted.
    + by apply Forall_take; eapply put_entries_bounded.
  - destruct (watermarks t); simpl in *; [lia|done].
Qed.
#[export] Hint Resolve timeline_new_wf : numa.

Lemma puts_wf ws t : timeline_wf t -> exists t', puts t ws = Some t' /\ timeline_wf t' /\ capacity t' = capacity t.
Proof.
  revert t. induction ws as [|w ws IH]; intros t Ht; simpl; [eauto|].
  destruct (put_wf t w Ht) as (t' & -> & Hwf & Hcap).
  destruct (IH t' Hwf) as (t'' & ? & ? & ?). exists t''. split_and!; [done..|congruence].
Qed.

(** A node that is not older than the head becomes the head in both coordinates. *)
Lemma put_newer_head t node t' :
  timeline_wf t -> put t node = Some t' ->
  get_head_watermark t <= watermark node -> get_head_offset t <= offset node ->
  get_head_watermark t' = watermark node /\ get_head_offset t' = offset node.
Proof.
  intros (Hc & Hl & _). unfold put, get_head_watermark, get_head_offset, get_head_wmb.
  destruct (watermarks t) as [|e rest]; simpl in *; [lia|]. intros [= <-] ? ?. simpl.
  rewrite trim_take by (repeat case_match; simpl; lia).
  destruct (capacity t) as [|c]; [lia|].
  repeat case_match; zify_bool; simplify_eq/=; lia.
Qed.

(** A sequence that never goes back is accepted entry by entry: the head is always the
    last entry put. *)
Lemma puts_newer_head ws t :
  timeline_wf t -> StronglySorted (flip newer) ws ->
  Forall (fun w => get_head_watermark t <= watermark w /\ get_head_offset t <= offset w) ws ->
  exists t', puts t ws = Some t' /\ timeline_wf t' /\
    get_head_watermark t' = default (get_head_watermark t) (watermark <$> last ws) /\
    get_head_offset t' = default (get_head_offset t) (offset <$> last ws).
Proof.
  revert t. induction ws as [|w ws IH]; intros t Ht Hs Hf; simpl; [eauto|].
  apply StronglySorted_inv in Hs as [Hs Hw]. apply Forall_cons in Hf as [[H1 H2] _].
  destruct (put_wf t w Ht) as (t1 & Hp & Ht1 & _). rewrite Hp.
  destruct (put_newer_head t w t1 Ht Hp H1 H2) as [E1 E2].
  destruct (IH t1 Ht1 Hs) as (t' & Hps & Ht' & G1 & G2).
  { eapply Forall_impl; [exact Hw|]. unfold flip, newer. intros x ?. lia. }
  exists t'. rewrite last_cons. split_and!; [done|done|rewrite G1, E1|rewrite G2, E2]; by destruct (last ws).
Qed.

(** * Abstract timeline *)

(** The accepted entries without a length bound; an empty history behaves as the
    default entry. *)
Definition abs_put (h : list WMB) (node : WMB) : list WMB :=
  let head_node := default WMB_default (head h) in
  match watermark node ?= watermark head_node, offset node ?= offset head_node with
  | Eq, Gt => node :: h
  | Gt, Gt => node :: h
  | Gt, Eq => set_watermark head_node (watermark node) :: tail h
  | _, _ => h
  end.

Definition abs_puts (ws : list WMB) : list WMB := foldl abs_put [] ws.

(** The greatest watermark accepted at an offset below [o], -1 if there is none. *)
Definition spec_event_time (h : list WMB) (o : Z) : Z :=
  foldl Z.max (-1) (watermark <$> filter (fun w => offset w < o) h).

Definition abs_wf (h : list WMB) : Prop :=
  StronglySorted newer h /\ Forall (fun w => -1 <= watermark w /\ -1 <= offset w) h.

Lemma abs_put_wf h node : abs_wf h -> abs_wf (abs_put h node).
Proof.
  intros [Hs Hb]. unfold abs_put.
  assert (Hpush : newer node (default WMB_default (head h)) -> abs_wf (node :: h)).
  { destruct h as [|e rest]; simpl; unfold newer; simpl; intros [? ?].
    - split; repeat constructor; lia.
    - apply Forall_cons in Hb as [? ?]. split; [by apply sorted_push|].
      repeat constructor; try done; lia. }
  repeat case_match; zify_bool; try done; try (apply Hpush; unfold newer; lia).
  destruct h as [|e rest]; simpl in *; [split; repeat constructor; simpl in *; lia|].
  apply Forall_cons in Hb as [? ?].
  split; [apply sorted_raise; [done|lia] | repeat constructor; simpl in *; try done; lia].
Qed.

Lemma abs_puts_wf ws : abs_wf (abs_puts ws).
Proof.
  unfold abs_puts. assert (Hgen : forall h, abs_wf h -> abs_wf (foldl abs_put h ws)).
  { induction ws as [|w ws IH]; intros h Hh; simpl; [done|]. by apply IH, abs_put_wf. }
  apply Hgen. split; constructor.
Qed.

(** On a sorted history the first match is the greatest watermark. *)
Lemma find_event_time_spec h o : abs_wf h -> find_event_time h o = spec_event_time h o.
Proof.
  intros [Hs Hb]. unfold spec_event_time.
  induction h as [|w h IH]; simpl; [done|].
  apply StronglySorted_inv in Hs as [Hs Hw]. apply Forall_cons in Hb as [[Hb1 _] Hb].
  rewrite filter_cons. destruct (Z.ltb_spec (offset w) o); case_decide; try lia; [|by apply IH].
  rewrite fmap_cons. simpl. rewrite Z.max_r by lia.
  set (l := watermark <$> _). destruct (foldl_max_spec l (watermark w)) as (H1 & _ & [->|Hin]); [done|].
  apply list_elem_of_fmap in Hin as (x & Heq & [_ Hx]%list_elem_of_filter).
  eapply Forall_forall in Hw as [? _]; [|done]. lia.
Qed.

(** The deque is the newest [capacity] entries of the history, padded with defaults. *)
Definition refines (t : OffsetTimeline) (h : list WMB) : Prop :=
  (0 < capacity t)%nat /\
  watermarks t = take (capacity t) (h ++ replicate (capacity t) WMB_default).

Lemma refines_new cap : (0 < cap)%nat -> refines (timeline_new cap) [].
Proof. intros. split; [done|]. simpl. by rewrite take_ge by (rewrite length_replicate; lia). Qed.

Lemma refines_head t h : refines t h -> get_head_wmb t = Some (default WMB_default (head h)).
Proof.
  intros [Hc Hw]. unfold get_head_wmb. rewrite Hw.
  destruct (capacity t) as [|c]; [lia|]. by destruct h.
Qed.

Lemma put_refines t h node t' :
  refines t h -> put t node = Some t' -> refines t' (abs_put h node).
Proof.
  intros Hr. pose proof (refines_head _ _ Hr) as Hhd. destruct Hr as [Hc Hw].
  unfold put. destruct (put_entries (watermarks t) node) as [ws|] eqn:E; [|done].
  intros [= <-]. split; [done|]. simpl.
  assert (Hl : length (watermarks t) = capacity t).
  { rewrite Hw, length_take, length_app, length_replicate. lia. }
  pose proof (put_entries_length _ _ _ E). rewrite trim_take by lia.
  unfold get_head_wmb in Hhd. unfold abs_put.
  destruct (watermarks t) as [|e rest] eqn:Ew; simpl in *; [done|]. simplify_eq Hhd. intros <-.
  destruct (capacity t) as [|c] eqn:Ec; [done|].
  assert (Hkeep : take (S c) (e :: rest) = take (S c) (h ++ replicate (S c) WMB_default))
    by (rewrite Hw, take_take; f_equal; lia).
  assert (Hpush : take (S c) (node :: e :: rest) = take (S c) ((node :: h) ++ replicate (S c) WMB_default)).
  { rewrite <- app_comm_cons, !firstn_cons. f_equal.
    rewrite Hw, take_take. f_equal. lia. }
  injection E as <-. repeat case_match; try done.
  rewrite firstn_cons. destruct h as [|e' h']; simpl in *; injection Hw as _ ->; f_equal.
  - change (WMB_default :: replicate c WMB_default) with (replicate (S c) WMB_default).
    rewrite !take_replicate. f_equal. lia.
  - rewrite take_take. f_equal. lia.
Qed.

Lemma puts_refines ws t h t' :
  refines t h -> puts t ws = Some t' -> refines t' (foldl abs_put h ws).
Proof.
  revert t h. induction ws as [|w ws IH]; intros t h Hr; simpl; [by intros [= <-]|].
  destruct (put t w) eqn:E; [|done]. intros Hp. by eapply IH; [eapply put_refines|].
Qed.

Lemma find_event_time_defaults n o : find_event_time (replicate n WMB_default) o = -1.
Proof. induction n as [|n IH]; simpl; [done|]. by case_match. Qed.

Lemma find_event_time_app l k o :
  find_event_time (l ++ k) o =
  if existsb (fun w => offset w <? o) l then find_event_time l o else find_event_time k o.
Proof. induction l as [|w l IH]; simpl; [done|]. by destruct (offset w <? o). Qed.

(** Reading the deque is reading the retained part of the history. *)
Lemma refines_event_time t h o :
  refines t h -> get_event_time t o = find_event_time (take (capacity t) h) o.
Proof.
  intros [_ Hw]. unfold get_event_time. rewrite Hw, take_app, take_replicate, find_event_time_app.
  case_match eqn:E; [done|]. rewrite find_event_time_defaults.
  clear -E. induction (take _ h) as [|w l IH]; simpl in *; [done|].
  apply orb_false_iff in E as [-> ?]. auto.
Qed.

Lemma spec_event_time_mono h o o' : o <= o' -> spec_event_time h o <= spec_event_time h o'.
Proof.
  intros Ho. unfold spec_event_time.
  destruct (foldl_max_spec (watermark <$> filter (fun w => offset w < o) h) (-1)) as (_ & _ & H3).
  destruct (foldl_max_spec (watermark <$> filter (fun w => offset w < o') h) (-1)) as (G1 & G2 & _).
  destruct H3 as [->|(x & -> & [? ?]%list_elem_of_filter)%list_elem_of_fmap]; [done|].
  apply G2, list_elem_of_fmap. exists x. split; [done|]. apply list_elem_of_filter. split; [lia|done].
Qed.

Lemma spec_event_time_take n h o : abs_wf h -> spec_event_time (take n h) o <= spec_event_time h o.
Proof.
  intros _. unfold spec_event_time.
  destruct (foldl_max_spec (watermark <$> filter (fun w => offset w < o) (take n h)) (-1)) as (_ & _ & H3).
  destruct (foldl_max_spec (watermark <$> filter (fun w => offset w < o) h) (-1)) as (G1 & G2 & _).
  destruct H3 as [->|(x & -> & [? Hx]%list_elem_of_filter)%list_elem_of_fmap]; [done|].
  apply G2, list_elem_of_fmap. exists x. split; [done|]. apply list_elem_of_filter. split; [done|].
  by eapply elem_of_take in Hx as (? & ? & ?); eapply list_elem_of_lookup_2.
Qed.

Lemma abs_wf_take n h : abs_wf h -> abs_wf (take n h).
Proof. intros [? ?]. split; [by apply sorted_take | by apply Forall_take]. Qed.

(** Once an entry below [o] is retained, the deque answers like the whole history. *)
Lemma find_take_exact n h o :
  Exists (fun w => offset w < o) (take n h) -> find_event_time (take n h) o = find_event_time h o.
Proof.
  revert n. induction h as [|w h IH]; intros [|n]; simpl; rewrite ?Exists_nil; try done.
  rewrite Exists_cons. intros [?|?]; case_match; zify_bool; try done; [lia|auto].
Qed.

(** * Properties *)

(** C1: for every sequence of published entries the fixed-length timeline refines the
    unbounded history of accepted entries: no [put] panics, the deque stays sorted and
    exactly [capacity] long, its head is the newest accepted entry, and
    [get_event_time o] is never above the greatest watermark accepted at an offset
    below [o]; it equals it as soon as one retained entry lies below [o], and is -1
    otherwise. *)
Theorem timeline_refines_history (cap : nat) (ws : list WMB) (o : Z) :
  (0 < cap)%nat ->
  let h := abs_puts ws in
  exists t, puts (timeline_new cap) ws = Some t /\ timeline_wf t /\
    get_head_wmb t = Some (default WMB_default (head h)) /\
    get_event_time t o <= spec_event_time h o /\
    (Exists (fun w => offset w < o) (take cap h) -> get_event_time t o = spec_event_time h o) /\
    (~ Exists (fun w => offset w < o) (take cap h) -> get_event_time t o = -1).
Proof.
  intros Hc h. pose proof (abs_puts_wf ws) as Hh. fold h in Hh.
  destruct (puts_wf ws (timeline_new cap)) as (t & Hp & Hwf & Hcap); [auto with numa|].
  pose proof (puts_refines ws _ [] t (refines_new cap Hc) Hp) as Hr. fold (abs_puts ws) in Hr.
  exists t. pose proof (refines_event_time t _ o Hr) as Het. simpl in Hcap. rewrite Hcap in Het.
  split_and!; [done|done|by apply refines_head| | |].
  - rewrite Het, find_event_time_spec by by apply abs_wf_take. by apply spec_event_time_take.
  - intros He. rewrite Het, find_take_exact by done. by apply find_event_time_spec.
  - intros Hn. rewrite Het. clear -Hn. fold h in Hn |- *. induction (take cap h) as [|w l IH]; simpl; [done|].
    case_match; zify_bool; [exfalso; apply Hn; by constructor|].
    apply IH. intros ?. apply Hn. by constructor 2.
Qed.

Lemma timeline_refines_history_witness :
  let ws := [mkWMB false 1 100 0 None; mkWMB false 3 200 0 None; mkWMB true 3 250 0 None;
             mkWMB false 2 300 0 None; mkWMB false 5 300 0 None] in
  (0 < 2)%nat /\ exists t, puts (timeline_new 2) ws = Some t /\ timeline_wf t /\
    get_head_wmb t = Some (default WMB_default (head (abs_puts ws))) /\
    get_event_time t 4 <= spec_event_time (abs_puts ws) 4 /\
    (Exists (fun w => offset w < 4) (take 2 (abs_puts ws)) ->
       get_event_time t 4 = spec_event_time (abs_puts ws) 4) /\
    (~ Exists (fun w => offset w < 4) (take 2 (abs_puts ws)) -> get_event_time t 4 = -1).
Proof. intros ws. split; [lia|]. apply (timeline_refines_history 2 ws 4). lia. Defined.

(** On every well-formed timeline the event time looked up for a larger offset is
    never smaller, and a [put] never lowers the head watermark nor the head offset. *)
Theorem timeline_monotone (t : OffsetTimeline) (o o' : Z) (node : WMB) :
  timeline_wf t -> o <= o' ->
  get_event_time t o <= get_event_time t o' /\
  exists t', put t node = Some t' /\
    get_head_watermark t <= get_head_watermark t' /\ get_head_offset t <= get_head_offset t'.
Proof.
  intros Hwf Ho. split.
  - destruct Hwf as (_ & _ & Hs & Hb). unfold get_event_time.
    rewrite !find_event_time_spec by done. by apply spec_event_time_mono.
  - destruct (put_wf t node Hwf) as (t' & Hp & _ & _). exists t'. split; [done|].
    destruct Hwf as (Hc & Hl & _ & _). unfold put in Hp.
    unfold get_head_watermark, get_head_offset, get_head_wmb.
    destruct (watermarks t) as [|e rest]; simpl in *; [done|]. injection Hp as <-. simpl.
    rewrite trim_take by (repeat case_match; simpl; lia).
    destruct (capacity t) as [|c]; [lia|].
    repeat case_match; zify_bool; simplify_eq/=; lia.
Qed.

Lemma timeline_monotone_witness :
  let t := mkTimeline [mkWMB false 7 40 0 None; mkWMB false 3 20 0 None] 2 in
  let node := mkWMB true 7 45 0 None in
  get_event_time t 5 <= get_event_time t 8 /\
  exists t', put t node = Some t' /\
    get_head_watermark t <= get_head_watermark t' /\ get_head_offset t <= get_head_offset t'.
Proof.
  intros t node. apply (timeline_monotone t 5 8 node); [|lia].
  unfold timeline_wf, t; simpl.
  split_and!; [lia|done| |repeat constructor; simpl; lia].
  repeat constructor; unfold newer; simpl; lia.
Defined.

(** A WMB written to the bucket and read back is unchanged: the [as i32], [as u16]
    and [as u32] casts of the two conversions cancel on every machine-typed value, so
    with a codec that decodes what it encoded the bytes decode to the same WMB. *)
Theorem wmb_kv_roundtrip (C : WmbCodec) (w : WMB) (b : Bytes) :
  wmb_typed w -> wmb_try_into_bytes w = Some b -> wmb_try_from_bytes b = Some w.
Proof. apply wmb_bytes_roundtrip. Qed.

(** A codec that keeps the message as it is. *)
Definition identity_codec : WmbCodec.
Proof.
  refine {| Bytes := ProtoWmb; wmb_encode := Some; wmb_decode := Some |}.
  by intros p b [= ->].
Defined.

Lemma wmb_kv_roundtrip_witness :
  let w := mkWMB true 12345 (-1) 65535 (Some 4294967295) in
  exists b, @wmb_try_into_bytes identity_codec w = Some b /\
    @wmb_try_from_bytes identity_codec b = Some w.
Proof.
  intros w. exists (wmb_to_proto w). split; [reflexivity|].
  apply (wmb_kv_roundtrip identity_codec w); [|reflexivity].
  unfold wmb_typed, in_i64, i64_min, i64_max; simpl; lia.
Defined.
