(* ===== verification/Manager.v ===== *)
(** The processor manager: liveness and timelines of the upstream processors
    (src/rust/numaflow-core/src/watermark/processor/manager.rs).

    The state is the map from processor name to [Processor]. The three tasks that
    change it, the OT watcher, the refresher and the fetcher's deletions, are the
    labels of [mexec]; [prepopulate_processors] builds the initial map. [log_of] is the
    history of one processor, and [stored_as] what the map holds for it. *)
From S2P Require Import Prelude Timeline.

Inductive VertexType := Source | Sink | MapUDF | ReduceUDF.

Inductive Status := InActive | Active | Deleted.

#[global] Instance Status_eq_dec : EqDecision Status.
Proof. solve_decision. Defined.

(** [DEFAULT_PROCESSOR_REFRESH_RATE.as_millis()] *)
Definition refresh_rate_millis : Z := 5000.

Record Processor := mkProcessor {
  name : string;
  status : Status;
  timelines : gmap Z OffsetTimeline;
  last_seen_time : Z
}.

(** [OffsetTimeline::new(10)] of the constructor. *)
Definition timeline_capacity : nat := 10.

Definition processor_new (n : string) (s : Status) (partitions : list Z) (seen : Z) : Processor :=
  mkProcessor n s
    (foldl (fun m p => <[p := timeline_new timeline_capacity]> m) ∅ partitions) seen.

Definition set_status (p : Processor) (s : Status) : Processor :=
  mkProcessor (name p) s (timelines p) (last_seen_time p).
Definition update_last_seen_time (p : Processor) (seen : Z) : Processor :=
  mkProcessor (name p) (status p) (timelines p) seen.
Definition set_timelines (p : Processor) (ts : gmap Z OffsetTimeline) : Processor :=
  mkProcessor (name p) (status p) ts (last_seen_time p).
Definition is_active (p : Processor) : bool := bool_decide (status p = Active).
Definition is_deleted (p : Processor) : bool := bool_decide (status p = Deleted).

(** [if let Some(timeline) = processor.timelines.get_mut(&part) { timeline.put(wmb) }] *)
Definition put_partition (p : Processor) (part : Z) (wmb : WMB) : option Processor :=
  match timelines p !! part with
  | Some t => let? t' := put t wmb in Some (set_timelines p (<[part := t']> (timelines p)))
  | None => Some p
  end.

(** The [match vertex_type] shared by [prepopulate_processors] and [start_ot_watcher]. *)
Definition update_timeline (vt : VertexType) (replica : Z) (p : Processor) (wmb : WMB) : option Processor :=
  match vt with
  | Source | Sink | MapUDF => put_partition p (partition wmb) wmb
  | ReduceUDF => if partition wmb =? replica then put_partition p replica wmb else Some p
  end.

Section Manager.
Context `{WmbCodec} (partitions : list Z) (vertex_type : VertexType) (vertex_replica : Z).

(** What one [ot_store.get(&key)] returns: an error, no value, or a value. *)
Inductive GetResult := GetErr | GetNone | GetSome (b : Bytes).

(** The loop body of [prepopulate_processors]; [None] is a panic on bytes that are
    not a WMB. *)
Definition prepopulate_key (get : string -> GetResult) (current_time : Z)
    (ps : gmap string Processor) (ot_key : string) : option (gmap string Processor) :=
  match get ot_key with
  | GetErr | GetNone => Some ps
  | GetSome b =>
      let? wmb := wmb_try_from_bytes b in
      let p := default (processor_new ot_key Active partitions current_time) (ps !! ot_key) in
      let? p' := update_timeline vertex_type vertex_replica p wmb in
      Some (<[ot_key := p']> ps)
  end.

Fixpoint prepopulate_keys (get : string -> GetResult) (current_time : Z)
    (ps : gmap string Processor) (ot_keys : list string) : option (gmap string Processor) :=
  match ot_keys with
  | [] => Some ps
  | k :: ks => let? ps' := prepopulate_key get current_time ps k in
               prepopulate_keys get current_time ps' ks
  end.

(** [keys] is [None] when listing the bucket failed, which leaves the map empty. *)
Definition prepopulate_processors (keys : option (list string)) (get : string -> GetResult)
    (current_time : Z) : option (gmap string Processor) :=
  prepopulate_keys get current_time ∅ (default [] keys).

(** One pass of [start_refreshing_processors] at [current_time]. *)
Definition refresh_status (current_time : Z) (p : Processor) : Status :=
  let diff := wrap_i64 (current_time - last_seen_time p) in
  if 10 * refresh_rate_millis <? diff then Deleted
  else if refresh_rate_millis <? diff then InActive
  else Active.

Definition refresh_processors (current_time : Z) (ps : gmap string Processor) : gmap string Processor :=
  (fun p => set_status p (refresh_status current_time p)) <$> ps.

(** An entry of the watch stream. *)
Inductive KVWatchOp := KVPut | KVDelete | KVPurge.
Record KVEntry := mkKVEntry {
  kv_key : string;
  kv_value : Bytes;
  kv_operation : KVWatchOp;
  kv_created : Z
}.

(** What the watcher does to the processor of a [Put] before the timeline. *)
Definition touch (p : Processor) (created : Z) : Processor :=
  let p := if last_seen_time p <? created then update_last_seen_time p created else p in
  if negb (is_active p) && negb (is_deleted p) then set_status p Active else p.

(** One iteration of [start_ot_watcher]; [None] is a panic. *)
Definition ot_watch (ps : gmap string Processor) (kv : KVEntry) : option (gmap string Processor) :=
  match kv_operation kv with
  | KVPut =>
      let? wmb := wmb_try_from_bytes (kv_value kv) in
      let p := default (processor_new (kv_key kv) Active partitions (kv_created kv)) (ps !! kv_key kv) in
      let? p' := update_timeline vertex_type vertex_replica (touch p (kv_created kv)) wmb in
      Some (<[kv_key kv := p']> ps)
  | KVDelete => Some (alter (fun p => set_status p Deleted) (kv_key kv) ps)
  | KVPurge => Some ((fun p => set_status p Deleted) <$> ps)
  end.

Definition delete_processor (ps : gmap string Processor) (n : string) : gmap string Processor :=
  delete n ps.

(** * Steps *)

Inductive mlabel :=
| Watch (kv : KVEntry)
| Refresh (current_time : Z)
| Remove (n : string).

Definition mexec (ps : gmap string Processor) (l : mlabel) : option (gmap string Processor) :=
  match l with
  | Watch kv => ot_watch ps kv
  | Refresh now => Some (refresh_processors now ps)
  | Remove n => Some (delete_processor ps n)
  end.

(** * Invariant *)

Definition processor_wf (n : string) (p : Processor) : Prop :=
  name p = n /\ dom (timelines p) = list_to_set partitions /\
  map_Forall (fun _ t => timeline_wf t /\ capacity t = timeline_capacity) (timelines p).

Definition manager_wf (ps : gmap string Processor) : Prop := map_Forall processor_wf ps.

Lemma processor_new_wf n s seen : processor_wf n (processor_new n s partitions seen).
Proof.
  split; [done|]. simpl. unfold processor_new; simpl.
  assert (Hgen : forall m : gmap Z OffsetTimeline, map_Forall (fun _ t => timeline_wf t /\ capacity t = timeline_capacity) m ->
    let m' := foldl (fun m p => <[p := timeline_new timeline_capacity]> m) m partitions in
    dom m' = dom m ∪ list_to_set partitions /\
    map_Forall (fun _ t => timeline_wf t /\ capacity t = timeline_capacity) m').
  { induction partitions as [|q qs IH]; intros m Hm; simpl; [split; [set_solver|done]|].
    destruct (IH (<[q := timeline_new timeline_capacity]> m)) as [Hd Hf].
    { apply map_Forall_insert_2; [split; [apply timeline_new_wf; unfold timeline_capacity; lia|done]|done]. }
    split; [|done]. rewrite Hd, dom_insert_L. set_solver. }
  destruct (Hgen ∅) as [Hd Hf]; [apply map_Forall_empty|].
  split; [|done]. rewrite Hd. set_solver.
Qed.

Lemma set_status_wf n p s : processor_wf n p -> processor_wf n (set_status p s).
Proof. done. Qed.

Lemma touch_wf n p created : processor_wf n p -> processor_wf n (touch p created).
Proof. intros Hp. unfold touch. by repeat case_match. Qed.

Lemma put_partition_wf n p part wmb :
  processor_wf n p -> exists p', put_partition p part wmb = Some p' /\ processor_wf n p' /\
    status p' = status p /\ last_seen_time p' = last_seen_time p.
Proof.
  intros (Hn & Hd & Hf). unfold put_partition.
  destruct (timelines p !! part) as [t|] eqn:E; [|by exists p].
  destruct (Hf _ _ E) as [Ht Hc]. destruct (put_wf t wmb Ht) as (t' & -> & Ht' & Hc').
  eexists. split; [done|]. split; [|done]. split; [done|]. simpl. split.
  - rewrite dom_insert_L. assert (part ∈ dom (timelines p)) by by eapply elem_of_dom_2. set_solver.
  - apply map_Forall_insert_2; [split; [done|congruence]|done].
Qed.

Lemma update_timeline_wf n p wmb :
  processor_wf n p -> exists p', update_timeline vertex_type vertex_replica p wmb = Some p' /\
    processor_wf n p' /\ status p' = status p /\ last_seen_time p' = last_seen_time p.
Proof.
  intros Hp. unfold update_timeline.
  destruct vertex_type; try by apply put_partition_wf.
  case_match; [by apply put_partition_wf | by exists p].
Qed.

Lemma manager_wf_default ps n s seen :
  manager_wf ps -> processor_wf n (default (processor_new n s partitions seen) (ps !! n)).
Proof.
  intros Hm. destruct (ps !! n) eqn:E; simpl; [by apply Hm | apply processor_new_wf].
Qed.

(** The watch entries the manager is given decode. *)
Definition label_ok (l : mlabel) : Prop :=
  match l with
  | Watch kv => kv_operation kv = KVPut -> is_Some (wmb_try_from_bytes (kv_value kv))
  | _ => True
  end.

Lemma mexec_wf ps l :
  manager_wf ps -> label_ok l -> exists ps', mexec ps l = Some ps' /\ manager_wf ps'.
Proof.
  intros Hm Hl. destruct l as [kv|now|n]; simpl in *.
  - unfold ot_watch. destruct (kv_operation kv).
    + destruct Hl as [wmb ->]; [done|].
      set (p := default _ _).
      destruct (update_timeline_wf (kv_key kv) (touch p (kv_created kv)) wmb) as (p' & -> & Hp' & _).
      { apply touch_wf, manager_wf_default, Hm. }
      eexists. split; [done|]. by apply map_Forall_insert_2.
    + eexists. split; [done|]. intros n p. rewrite lookup_alter.
      case_decide; [|apply Hm]. subst. destruct (ps !! _) eqn:E; simpl; [|done].
      intros [= <-]. by apply set_status_wf, Hm.
    + eexists. split; [done|]. intros n p. rewrite lookup_fmap.
      destruct (ps !! n) eqn:E; simpl; [|done]. intros [= <-]. by apply set_status_wf, Hm.
  - eexists. split; [done|]. intros n p. unfold refresh_processors. rewrite lookup_fmap.
    destruct (ps !! n) eqn:E; simpl; [|done]. intros [= <-]. by apply set_status_wf, Hm.
  - eexists. split; [done|]. by apply map_Forall_delete.
Qed.
End Manager.

(** What [touch] changes. *)
Lemma touch_spec p created :
  last_seen_time (touch p created) = Z.max (last_seen_time p) created /\
  status (touch p created) = (if is_deleted p then Deleted else Active) /\
  timelines (touch p created) = timelines p.
Proof.
  unfold touch, is_active, is_deleted.
  destruct (Z.ltb_spec (last_seen_time p) created); simpl;
    repeat case_bool_decide; simpl; split_and!; try done; try lia; by destruct (status p).
Qed.

(** Whether an entry of partition [part] reaches a timeline of the vertex. *)
Definition relevant (vt : VertexType) (replica part : Z) : Prop := vt = ReduceUDF -> part = replica.

#[global] Instance relevant_dec vt replica part : Decision (relevant vt replica part).
Proof.
  unfold relevant. destruct vt; try (left; done).
  destruct (decide (part = replica)); [by left | right; naive_solver].
Defined.

Lemma put_partition_spec p part wmb p' :
  put_partition p part wmb = Some p' ->
  last_seen_time p' = last_seen_time p /\ status p' = status p /\ forall q, timelines p' !! q =
    if decide (q = part) then timelines p !! q ≫= fun t => put t wmb else timelines p !! q.
Proof.
  unfold put_partition. destruct (timelines p !! part) as [t|] eqn:Et.
  - destruct (put t wmb) as [t'|] eqn:Ep; [|done]. intros [= <-]; simpl.
    split_and!; try done. intros q. case_decide as Hq; subst.
    + by rewrite lookup_insert_eq, Et.
    + by rewrite lookup_insert_ne.
  - intros [= <-]. split_and!; try done. intros q. case_decide; subst; [by rewrite Et|done].
Qed.

Lemma update_timeline_spec vt replica p wmb p' :
  update_timeline vt replica p wmb = Some p' ->
  last_seen_time p' = last_seen_time p /\ status p' = status p /\ forall q, timelines p' !! q =
    if decide (q = partition wmb /\ relevant vt replica (partition wmb))
    then timelines p !! q ≫= fun t => put t wmb else timelines p !! q.
Proof.
  unfold update_timeline, relevant.
  assert (Hone : forall part, part = partition wmb -> (vt = ReduceUDF -> part = replica) ->
    put_partition p part wmb = Some p' -> last_seen_time p' = last_seen_time p /\ status p' = status p /\ forall q, timelines p' !! q =
      if decide (q = partition wmb /\ (vt = ReduceUDF -> partition wmb = replica))
      then timelines p !! q ≫= fun t => put t wmb else timelines p !! q).
  { intros part -> Hrel (? & ? & Hq)%put_partition_spec. split_and!; [done..|].
    intros q. rewrite Hq. repeat case_decide; naive_solver. }
  destruct vt; try by apply Hone.
  destruct (Z.eqb_spec (partition wmb) replica) as [<-|Hne]; [by apply Hone|].
  intros [= <-]. split_and!; [done..|]. intros q. case_decide; naive_solver.
Qed.

(** * History *)

(** What can happen to a processor while it is known to the manager. *)
Inductive pevent :=
| EPut (w : WMB) (created : Z)
| EDelete
| ERefresh (now : Z).

(** The status a refresh pass gives to a processor of this age. *)
Definition liveness (age : Z) : Status :=
  if age <=? 5000 then Active else if age <=? 50000 then InActive else Deleted.

Definition created_at (e : pevent) : option Z := match e with EPut _ c => Some c | _ => None end.

(** The creation time of the newest entry in a log, and the status after it (newest event first): a
    deletion marks the processor, an entry revives it unless it is marked deleted, and a refresh pass
    looks only at the age. *)
Definition seen_of (log : list pevent) : Z := default 0 (list_max (omap created_at log)).

Fixpoint status_of (log : list pevent) : Status :=
  match log with
  | [] => Active
  | EPut _ _ :: log => if decide (status_of log = Deleted) then Deleted else Active
  | EDelete :: _ => Deleted
  | ERefresh now :: log => liveness (now - seen_of log)
  end.

Section History.
Context `{WmbCodec} (partitions : list Z) (vertex_type : VertexType) (vertex_replica : Z).

(** The entries of partition [part] in a log, oldest first; a reduce vertex has only its own. *)
Fixpoint wmbs_of (part : Z) (log : list pevent) : list WMB :=
  match log with
  | [] => []
  | EPut w _ :: log =>
      wmbs_of part log ++ (if decide (part = partition w /\ relevant vertex_type vertex_replica (partition w)) then [w] else [])
  | _ :: log => wmbs_of part log
  end.

(** The log of processor [n] after a step; it starts with an entry and ends when the processor is
    removed. *)
Definition known (e : pevent) (log : list pevent) : list pevent := match log with [] => [] | _ => e :: log end.

Definition log_step (n : string) (log : list pevent) (l : mlabel) : list pevent :=
  match l with
  | Watch kv =>
      match kv_operation kv with
      | KVPut => if decide (kv_key kv = n)
                 then match wmb_try_from_bytes (kv_value kv) with Some w => EPut w (kv_created kv) :: log | None => log end
                 else log
      | KVDelete => if decide (kv_key kv = n) then known EDelete log else log
      | KVPurge => known EDelete log
      end
  | Refresh now => known (ERefresh now) log
  | Remove n' => if decide (n' = n) then [] else log
  end.

Definition log_of (n : string) (ls : list mlabel) : list pevent := foldl (log_step n) [] ls.

(** What is stored for a processor with this log. *)
Definition stored_as (n : string) (log : list pevent) (o : option Processor) : Prop :=
  match o with
  | None => log = []
  | Some p =>
      log <> [] /\ name p = n /\ status p = status_of log /\
      list_max (omap created_at log) = Some (last_seen_time p) /\
      forall part, timelines p !! part =
        if decide (part ∈ partitions) then puts (timeline_new timeline_capacity) (wmbs_of part log) else None
  end.

Fixpoint mrun (ps : gmap string Processor) (ls : list mlabel) : option (gmap string Processor) :=
  match ls with
  | [] => Some ps
  | l :: ls => let? ps' := mexec partitions vertex_type vertex_replica ps l in mrun ps' ls
  end.

(** The entries found in the bucket at the start, as if the watcher had been given them then. *)
Definition found (get : string -> GetResult) (now : Z) (k : string) : option mlabel :=
  match get k with GetSome b => Some (Watch (mkKVEntry k b KVPut now)) | _ => None end.

Definition found_all (keys : option (list string)) (get : string -> GetResult) (now : Z) : list mlabel :=
  omap (found get now) (default [] keys).

Definition in_time (t : Z) : Prop := 0 <= t <= i64_max.

Definition label_in_time (l : mlabel) : Prop :=
  match l with Watch kv => in_time (kv_created kv) | Refresh now => in_time now | Remove _ => True end.

(** ** Lemmas *)

Lemma puts_snoc t ws w : puts t (ws ++ [w]) = puts t ws ≫= fun t' => put t' w.
Proof. revert t. induction ws as [|w' ws IH]; intros t; cbn; [by destruct (put t w)|]. destruct (put t w') as [t'|]; cbn; [apply IH|done]. Qed.

Lemma processor_new_lookup n s seen part :
  timelines (processor_new n s partitions seen) !! part = if decide (part ∈ partitions) then Some (timeline_new timeline_capacity) else None.
Proof.
  unfold processor_new; cbn [timelines].
  assert (Hgen : forall m : gmap Z OffsetTimeline, foldl (fun m p => <[p := timeline_new timeline_capacity]> m) m partitions !! part =
    if decide (part ∈ partitions) then Some (timeline_new timeline_capacity) else m !! part).
  { induction partitions as [|q qs IH]; intros m; cbn [foldl]; [by case_decide as Hq; [apply elem_of_nil in Hq|]|].
    rewrite IH. destruct (decide (part ∈ qs)), (decide (part ∈ q :: qs)) as [Hin|Hin]; try done; rewrite elem_of_cons in Hin; try (exfalso; tauto).
    - destruct Hin as [->|?]; [|done]. by rewrite lookup_insert_eq.
    - rewrite lookup_insert_ne; [done|]. intros ->. tauto. }
  rewrite Hgen. by destruct (decide _).
Qed.

Lemma list_max_push c l m : list_max l = Some m -> list_max (c :: l) = Some (Z.max m c).
Proof.
  intros [Hin Hall]%list_max_Some. apply list_max_Some. split.
  - apply elem_of_cons. destruct (Z.max_spec m c) as [[_ ->]|[_ ->]]; [by left|by right].
  - intros x [->|Hx]%elem_of_cons; [lia|]. specialize (Hall x Hx). lia.
Qed.

Lemma stored_seen n log p : stored_as n log (Some p) -> seen_of log = last_seen_time p.
Proof. intros (_ & _ & _ & Hm & _). unfold seen_of. by rewrite Hm. Qed.

(** An entry, to a known processor and to a new one. *)
Lemma stored_put n log o w c p' :
  stored_as n log o ->
  update_timeline vertex_type vertex_replica (touch (default (processor_new n Active partitions c) o) c) w = Some p' ->
  name p' = n -> stored_as n (EPut w c :: log) (Some p').
Proof.
  intros Ho Hu Hn. apply update_timeline_spec in Hu as (Hl & Hs & Ht).
  destruct (touch_spec (default (processor_new n Active partitions c) o) c) as (Hl' & Hs' & Ht').
  rewrite Hl' in Hl. rewrite Hs' in Hs. rewrite Ht' in Ht.
  destruct o as [p|]; cbn [from_option] in *; unfold id in *.
  - destruct Ho as (Hne & Hnp & Hst & Hm & Htl). split; [done|]. split; [done|]. split_and!.
    + rewrite Hs. unfold is_deleted. rewrite Hst. cbn [status_of]. by case_bool_decide; case_decide.
    + rewrite Hl. by apply list_max_push.
    + intros part. rewrite Ht, Htl. cbn [wmbs_of]. destruct (decide (part ∈ partitions)), (decide (part = partition w /\ _)); try done.
      * by rewrite puts_snoc.
      * by rewrite app_nil_r.
  - cbn in Ho. subst log. split; [done|]. split; [done|]. split_and!.
    + done.
    + rewrite Hl. cbn. by rewrite Z.max_id.
    + intros part. rewrite Ht, processor_new_lookup. cbn [wmbs_of]. destruct (decide (part ∈ partitions)), (decide (part = partition w /\ _)); done.
Qed.

(** A change of status only. *)
Lemma stored_status n log p e s :
  created_at e = None -> status_of (e :: log) = s -> (forall part, wmbs_of part (e :: log) = wmbs_of part log) ->
  stored_as n log (Some p) -> stored_as n (e :: log) (Some (set_status p s)).
Proof.
  intros He Hs Hw (Hne & Hnp & Hst & Hm & Htl). split; [done|]. split; [done|]. split; [by rewrite <- Hs|].
  split; [cbn; by rewrite He|]. intros part. by rewrite Hw, Htl.
Qed.

Lemma stored_delete n log o : stored_as n log o -> stored_as n (known EDelete log) ((fun p => set_status p Deleted) <$> o).
Proof.
  destruct o as [p|]; [|by intros ->]. intros Ho. assert (known EDelete log = EDelete :: log) as ->.
  { destruct Ho as [? _]. by destruct log. }
  by apply stored_status.
Qed.

Lemma refresh_liveness now p : in_time now -> in_time (last_seen_time p) -> refresh_status now p = liveness (now - last_seen_time p).
Proof.
  unfold in_time. intros Hn Hp. unfold refresh_status, liveness, refresh_rate_millis.
  rewrite wrap_i64_id by (unfold in_i64, i64_min, i64_max in *; lia). repeat case_match; zify_bool; try done; lia.
Qed.

Lemma stored_refresh n log o now :
  stored_as n log o -> in_time now -> (forall p, o = Some p -> in_time (last_seen_time p)) ->
  stored_as n (known (ERefresh now) log) ((fun p => set_status p (refresh_status now p)) <$> o).
Proof.
  destruct o as [p|]; [|by intros ->]. intros Ho Hnow Hp. assert (known (ERefresh now) log = ERefresh now :: log) as ->.
  { destruct Ho as [? _]. by destruct log. }
  apply stored_status; try done. cbn [status_of]. rewrite (stored_seen _ _ _ Ho). symmetry. apply refresh_liveness; auto.
Qed.

Definition hist_inv (ps : gmap string Processor) (ls : list mlabel) : Prop :=
  manager_wf partitions ps /\ (forall n p, ps !! n = Some p -> in_time (last_seen_time p)) /\
  forall n, stored_as n (log_of n ls) (ps !! n).

Lemma watch_seen ps kv ps' :
  ot_watch partitions vertex_type vertex_replica ps kv = Some ps' -> in_time (kv_created kv) ->
  (forall n p, ps !! n = Some p -> in_time (last_seen_time p)) -> forall n p, ps' !! n = Some p -> in_time (last_seen_time p).
Proof.
  unfold ot_watch. intros Hw Hkv Hps n p. destruct (kv_operation kv).
  - destruct (wmb_try_from_bytes (kv_value kv)) as [w|]; [|done]. cbn [mbind option_bind] in Hw. set (q := default _ _) in Hw.
    destruct (update_timeline _ _ _ w) as [p'|] eqn:Eu; [|done]. cbn [mbind option_bind] in Hw. injection Hw as <-.
    destruct (decide (n = kv_key kv)) as [->|Hne]; [|rewrite lookup_insert_ne by done; apply Hps].
    rewrite lookup_insert_eq. intros [= <-]. apply update_timeline_spec in Eu as (-> & _). destruct (touch_spec q (kv_created kv)) as (-> & _).
    assert (in_time (last_seen_time q)) by (unfold q; destruct (ps !! kv_key kv) eqn:E; cbn; [by eapply Hps|done]).
    unfold in_time in *. lia.
  - injection Hw as <-. rewrite lookup_alter. case_decide; [|apply Hps]. subst. destruct (ps !! _) eqn:E; cbn; [|done].
    intros [= <-]. cbn. by eapply Hps.
  - injection Hw as <-. rewrite lookup_fmap. destruct (ps !! n) eqn:E; cbn; [|done]. intros [= <-]. cbn. by eapply Hps.
Qed.

Lemma watch_stored ps kv ps' n log :
  manager_wf partitions ps' -> ot_watch partitions vertex_type vertex_replica ps kv = Some ps' ->
  stored_as n log (ps !! n) -> stored_as n (log_step n log (Watch kv)) (ps' !! n).
Proof.
  intros Hwf Hw Hn. unfold ot_watch in Hw. cbn [log_step]. destruct (kv_operation kv).
  - destruct (wmb_try_from_bytes (kv_value kv)) as [w|]; [|done]. cbn [mbind option_bind] in Hw.
    destruct (update_timeline _ _ _ w) as [p'|] eqn:Eu; [|done]. cbn [mbind option_bind] in Hw. injection Hw as <-.
    case_decide as Hk; [|by rewrite lookup_insert_ne]. subst n. rewrite lookup_insert_eq. eapply stored_put; [done..|].
    destruct (Hwf (kv_key kv) p') as [? _]; [by rewrite lookup_insert_eq|done].
  - injection Hw as <-. rewrite lookup_alter. case_decide as Hk; [|done]. subst n. by apply stored_delete.
  - injection Hw as <-. rewrite lookup_fmap. by apply stored_delete.
Qed.

Lemma hist_step ps ls l :
  hist_inv ps ls -> label_ok l -> label_in_time l ->
  exists ps', mexec partitions vertex_type vertex_replica ps l = Some ps' /\ hist_inv ps' (ls ++ [l]).
Proof.
  intros (Hwf & Hseen & Hst) Hok Ht. destruct (mexec_wf partitions vertex_type vertex_replica ps l Hwf Hok) as (ps' & He & Hwf').
  exists ps'. split; [done|]. split; [done|].
  assert (Hlog : forall n, log_of n (ls ++ [l]) = log_step n (log_of n ls) l) by (intros n; unfold log_of; by rewrite foldl_app).
  destruct l as [kv|now|k]; cbn [mexec] in He.
  - split; [by eapply watch_seen|]. intros n. rewrite Hlog. by eapply watch_stored.
  - injection He as <-. unfold refresh_processors. split; intros n.
    + intros p. rewrite lookup_fmap. destruct (ps !! n) eqn:E; cbn; [|done]. intros [= <-]. cbn. by eapply Hseen.
    + rewrite Hlog, lookup_fmap. cbn [log_step]. apply stored_refresh; [done..|]. apply Hseen.
  - injection He as <-. unfold delete_processor. split; intros n.
    + intros p [_ Hp]%lookup_delete_Some. by eapply Hseen.
    + rewrite Hlog. cbn [log_step]. case_decide as Hk; [subst; by rewrite lookup_delete_eq|by rewrite lookup_delete_ne].
Qed.

Lemma hist_run ls ps before :
  hist_inv ps before -> Forall label_ok ls -> Forall label_in_time ls ->
  exists ps', mrun ps ls = Some ps' /\ hist_inv ps' (before ++ ls).
Proof.
  revert ps before. induction ls as [|l ls IH]; intros ps before Hi Hok Ht; [exists ps; by rewrite app_nil_r|].
  apply Forall_cons in Hok as [Hl Hok]. apply Forall_cons in Ht as [Htl Ht]. destruct (hist_step _ _ _ Hi Hl Htl) as (ps1 & He & Hi1).
  cbn [mrun]. rewrite He. destruct (IH ps1 (before ++ [l]) Hi1 Hok Ht) as (ps' & Hr & Hi'). exists ps'. split; [done|]. by rewrite <- app_assoc in Hi'.
Qed.

(** Prepopulation is the watcher's work on the entries found, dated at the start. *)
Definition fresh (now : Z) (ps : gmap string Processor) : Prop := map_Forall (fun _ p => status p = Active /\ last_seen_time p = now) ps.

Lemma touch_fresh p now : status p = Active -> last_seen_time p = now -> touch p now = p.
Proof. intros Hs Hl. unfold touch, is_active. rewrite Hl, Z.ltb_irrefl. by rewrite bool_decide_true. Qed.

Lemma prepopulate_found get now ks ps : fresh now ps ->
  prepopulate_keys partitions vertex_type vertex_replica get now ps ks = mrun ps (omap (found get now) ks).
Proof.
  revert ps. induction ks as [|k ks IH]; intros ps Hf; [done|]. cbn [prepopulate_keys]. unfold prepopulate_key.
  cbn [omap list_omap]. unfold found at 1. destruct (get k) as [| |b]; [by apply IH..|].
  cbn [mrun mexec]. unfold ot_watch. cbn [kv_operation kv_value kv_key kv_created].
  destruct (wmb_try_from_bytes b) as [w|]; [|done]. cbn [mbind option_bind]. set (p := default _ _).
  assert (Hp : status p = Active /\ last_seen_time p = now) by (unfold p; destruct (ps !! k) eqn:E; cbn; [by eapply Hf|done]).
  destruct Hp as [Hs Hl]. rewrite touch_fresh by done. destruct (update_timeline _ _ p w) as [p'|] eqn:Eu; [|done]. cbn [mbind option_bind].
  apply IH. apply map_Forall_insert_2; [|done]. apply update_timeline_spec in Eu as (-> & -> & _). done.
Qed.

Lemma hist_boot keys get now : Forall label_ok (found_all keys get now) -> in_time now ->
  exists ps, prepopulate_processors partitions vertex_type vertex_replica keys get now = Some ps /\ hist_inv ps (found_all keys get now).
Proof.
  intros Hok Hnow. unfold prepopulate_processors. rewrite prepopulate_found by apply map_Forall_empty.
  apply (hist_run _ ∅ []); [|done|].
  - split; [apply map_Forall_empty|]. split; [intros n p; by rewrite lookup_empty|]. intros n. rewrite lookup_empty. done.
  - unfold found_all. apply Forall_forall. intros l (k & _ & Hk)%list_elem_of_omap. unfold found in Hk. by destruct (get k); simplify_eq.
Qed.
End History.

(** * Properties *)

(** C36: when the values found in the bucket at the start and those of the watch entries decode, and
    all times are non-negative 64-bit ones, no step of the processor manager panics, and at every
    moment the map is what the history says: exactly the processors with an entry since they were
    last removed are in it, each under its own name, last seen at the newest creation time of its
    entries (the start, for an entry found then), with the status that its entries, deletions and refresh passes give
    (Active up to 5s, InActive up to 50s, then Deleted; deleted processors are not revived by an
    entry), and each configured partition has the timeline of exactly the entries of that partition,
    in their order; a reduce vertex takes only those of its own. *)
Theorem manager_refines_log (C : WmbCodec) (partitions : list Z) (vt : VertexType) (replica : Z)
    (keys : option (list string)) (get : string -> GetResult) (now : Z) (ls : list mlabel) :
  let hist := found_all keys get now ++ ls in
  Forall label_ok hist -> in_time now -> Forall label_in_time ls ->
  exists ps ps', prepopulate_processors partitions vt replica keys get now = Some ps /\
    mrun partitions vt replica ps ls = Some ps' /\
    forall n, stored_as partitions vt replica n (log_of n hist) (ps' !! n).
Proof.
  intros hist [Hf Hl]%Forall_app Hnow Ht.
  destruct (hist_boot partitions vt replica keys get now Hf Hnow) as (ps & Hp & Hi).
  destruct (hist_run partitions vt replica ls ps _ Hi Hl Ht) as (ps' & Hr & _ & _ & Hst).
  by exists ps, ps'.
Qed.

(** An entry of 1 found at the start; one pass later an entry of 2 for another processor; the first one
    is then too old, the second one is deleted and removed. *)
Lemma manager_refines_log_witness :
  let w : @Bytes identity_codec := wmb_to_proto (mkWMB false 5 100 0 None) in
  let get := fun _ : string => @GetSome identity_codec w in
  let put n t := @Watch identity_codec (mkKVEntry n w KVPut t) in
  let ls : list (@mlabel identity_codec) := [Refresh 1500; put "p2" 7000; Refresh 9000; Watch (mkKVEntry "p2" w KVDelete 0); Remove "p2"] in
  exists ps' : gmap string Processor, stored_as [0; 1] MapUDF 0 "p1" [ERefresh 9000; ERefresh 1500; EPut (mkWMB false 5 100 0 None) 1000] (ps' !! "p1") /\
    status_of [ERefresh 9000; ERefresh 1500; EPut (mkWMB false 5 100 0 None) 1000] = InActive /\
    stored_as [0; 1] MapUDF 0 "p2" [] (ps' !! "p2").
Proof.
  intros w get put ls.
  destruct (manager_refines_log identity_codec [0; 1] MapUDF 0 (Some ["p1"]) get 1000 ls) as (_ & ps' & _ & _ & Hst).
  - unfold ls, found_all, put. cbn. repeat (constructor; [cbn; try done; intros _; eexists; reflexivity|]). constructor.
  - unfold in_time, i64_max. lia.
  - unfold ls, put. repeat (constructor; [cbn; unfold in_time, i64_max; try done; lia|]). constructor.
  - exists ps'. split; [exact (Hst "p1")|]. split; [reflexivity|exact (Hst "p2")].
Defined.

(** A [Put] seen by the watcher changes only the processor it names. That
    processor is created Active if unknown, its last-seen time becomes the maximum of
    the old one and the entry's creation time, an inactive processor becomes active
    and a deleted one stays deleted, and only the timeline of the entry's own partition
    is updated, by [put]; a reduce vertex ignores entries of other partitions. *)
Theorem ot_watch_put_effect (C : WmbCodec) (partitions : list Z) (vt : VertexType) (replica : Z)
    (ps ps' : gmap string Processor) (k : string) (b : Bytes) (created : Z) (wmb : WMB) :
  wmb_try_from_bytes b = Some wmb ->
  ot_watch partitions vt replica ps (mkKVEntry k b KVPut created) = Some ps' ->
  (forall k', k' <> k -> ps' !! k' = ps !! k') /\
  let old := default (processor_new k Active partitions created) (ps !! k) in
  exists p', ps' !! k = Some p' /\
    last_seen_time p' = Z.max (last_seen_time old) created /\
    status p' = (if is_deleted old then Deleted else Active) /\
    forall part, timelines p' !! part =
      if decide (part = partition wmb /\ relevant vt replica (partition wmb))
      then timelines old !! part ≫= fun t => put t wmb else timelines old !! part.
Proof.
  intros Hb. unfold ot_watch; simpl. rewrite Hb. set (old := default _ _).
  destruct (update_timeline vt replica (touch old created) wmb) as [p'|] eqn:E; [|done].
  intros [= <-]. split; [intros k' Hk'; by rewrite lookup_insert_ne|].
  exists p'. rewrite lookup_insert_eq. split; [done|].
  destruct (touch_spec old created) as (Hl & Hs & Ht).
  apply update_timeline_spec in E as (-> & -> & Hq). rewrite Hl, Hs, <- Ht. done.
Qed.

Lemma ot_watch_put_effect_witness :
  let w := mkWMB false 5 100 1 None in
  let b : @Bytes identity_codec := wmb_to_proto w in
  let old := processor_new "p" InActive [0; 1] 50 in
  let ps' := default ∅ (@ot_watch identity_codec [0; 1] Sink 0 {["p" := old]} (mkKVEntry "p" b KVPut 70)) in
  exists p', ps' !! "p" = Some p' /\ last_seen_time p' = 70 /\ status p' = Active.
Proof.
  intros w b old ps'.
  destruct (ot_watch_put_effect identity_codec [0; 1] Sink 0 {["p" := old]} ps' "p" b 70 w)
    as [_ (p' & Hp' & Hl & Hs & _)]; [reflexivity|vm_compute; reflexivity|].
  exists p'. split; [exact Hp'|]. split; [exact Hl|exact Hs].
Defined.

(** One refresh pass keeps the set of processors and changes only their statuses:
    with times in the 64-bit range, a processor last seen at most 5s ago is Active,
    one seen more than 5s and at most 50s ago is InActive, and an older one is
    Deleted, whatever its status was. *)
Theorem refresh_classifies (ps : gmap string Processor) (now : Z) (n : string) (p : Processor) :
  ps !! n = Some p -> in_i64 (now - last_seen_time p) ->
  let age := now - last_seen_time p in
  exists p', refresh_processors now ps !! n = Some p' /\
    dom (refresh_processors now ps) = dom ps /\
    timelines p' = timelines p /\ last_seen_time p' = last_seen_time p /\
    (status p' = Active <-> age <= 5000) /\
    (status p' = InActive <-> 5000 < age <= 50000) /\
    (status p' = Deleted <-> 50000 < age).
Proof.
  intros Hn Hr age. unfold refresh_processors. rewrite lookup_fmap, Hn, dom_fmap_L. simpl.
  eexists. split; [done|]. split; [done|]. simpl. split_and!; try done.
  all: unfold refresh_status; rewrite wrap_i64_id by done; fold age; unfold refresh_rate_millis.
  all: repeat case_match; zify_bool; split; intros; try done; lia.
Qed.

Lemma refresh_classifies_witness :
  let p := processor_new "p" Deleted [0] 1000 in
  exists p', refresh_processors 4000 {["p" := p]} !! "p" = Some p' /\ status p' = Active.
Proof.
  intros p.
  destruct (refresh_classifies {["p" := p]} 4000 "p" p) as (p' & Hp & _ & _ & _ & Ha & _).
  - reflexivity.
  - unfold in_i64, i64_min, i64_max, p; simpl; lia.
  - exists p'. split; [exact Hp|]. apply Ha. simpl. lia.
Defined.

(** The deletion mark set when a processor's bucket entry is deleted does not
    survive a refresh pass: if the processor was last seen within the refresh rate,
    the next pass sets it Active again. *)
Theorem refresh_revives_deleted (C : WmbCodec) (partitions : list Z) (vt : VertexType) (replica : Z)
    (ps : gmap string Processor) (k : string) (b : Bytes) (created now : Z) (p : Processor) :
  ps !! k = Some p -> 0 <= now - last_seen_time p <= 5000 ->
  exists ps', ot_watch partitions vt replica ps (mkKVEntry k b KVDelete created) = Some ps' /\
    (status <$> ps' !! k) = Some Deleted /\
    (status <$> refresh_processors now ps' !! k) = Some Active.
Proof.
  intros Hk Hage. eexists. split; [reflexivity|]. unfold refresh_processors. simpl.
  rewrite lookup_fmap, lookup_alter_eq, Hk. simpl. split; [done|].
  unfold refresh_status, refresh_rate_millis; simpl.
  rewrite wrap_i64_id by (unfold in_i64, i64_min, i64_max; lia).
  by rewrite (proj2 (Z.ltb_ge _ _)), (proj2 (Z.ltb_ge _ _)) by lia.
Qed.

Lemma refresh_revives_deleted_witness :
  let p := processor_new "p" Active [0] 1000 in
  let b : @Bytes identity_codec := wmb_to_proto WMB_default in
  exists ps', @ot_watch identity_codec [0] Sink 0 {["p" := p]} (mkKVEntry "p" b KVDelete 0) = Some ps' /\
    (status <$> ps' !! "p") = Some Deleted /\
    (status <$> refresh_processors 3000 ps' !! "p") = Some Active.
Proof.
  intros p b. apply (refresh_revives_deleted identity_codec [0] Sink 0 {["p" := p]} "p" b 0 3000 p).
  - reflexivity.
  - unfold p; simpl; lia.
Defined.
