(* ===== verification/Publisher.v ===== *)
(** The watermark publisher of the outgoing edges
    (src/rust/numaflow-core/src/watermark/isb/wm_publisher.rs).

    [LastPublishedState] keeps the best offset and watermark of a partition; a publish
    updates it and, once the configured delay has passed, writes a WMB to the bucket of
    the target vertex. The monotonic clock readings are arguments. *)
From S2P Require Import Prelude Timeline.

(** Nanoseconds of the monotonic clock ([std::time::Instant]). *)
Abbreviation Instant := Z (only parsing).

(** [Instant::elapsed]: saturates at zero. *)
Definition elapsed (now since : Instant) : Z := Z.max 0 (now - since).

Record Stream := mkStream {
  stream_name : string;
  stream_vertex : string;
  stream_partition : Z
}.

Record BucketConfig := mkBucketConfig {
  bc_vertex : string;
  bc_partitions : list Z;
  bc_delay : option Z
}.

Record LastPublishedState := mkLPS {
  lps_offset : Z;
  lps_watermark : Z;
  last_published_time : Instant;
  lps_delay : option Z
}.

Definition lps_default (now : Instant) : LastPublishedState := mkLPS (-1) (-1) now None.

Definition delay_crossed (now : Instant) (s : LastPublishedState) : bool :=
  match lps_delay s with
  | Some d => d <=? elapsed now (last_published_time s)
  | None => true
  end.

(** Returns the offset and watermark to publish and whether the watermark regressed. *)
Definition update (s : LastPublishedState) (offset watermark : Z) : LastPublishedState * (Z * Z * bool) :=
  if lps_offset s <? offset then
    let regressed := negb (watermark =? -1) && (watermark <? lps_watermark s) in
    let s' := mkLPS offset (Z.max (lps_watermark s) watermark) (last_published_time s) (lps_delay s) in
    (s', (lps_offset s', lps_watermark s', regressed))
  else
    let s' := mkLPS (lps_offset s) (Z.max (lps_watermark s) watermark) (last_published_time s) (lps_delay s) in
    (s', (lps_offset s', lps_watermark s', false)).

Definition mark_published (now : Instant) (s : LastPublishedState) : LastPublishedState :=
  mkLPS (lps_offset s) (lps_watermark s) now (lps_delay s).

(** A write to the OT bucket of [put_store]. *)
Record KvPut `{WmbCodec} := mkKvPut {
  put_store : string;
  put_key : string;
  put_value : Bytes
}.

Record ISBWatermarkPublisher := mkPublisher {
  processor_name : string;
  last_published_wm : gmap string (gmap Z LastPublishedState);
  ot_stores : gset string;
  is_source : bool
}.

(** Partition state of one bucket config: [LastPublishedState { delay, ..default }]. *)
Definition partition_state (now : Instant) (c : BucketConfig) : gmap Z LastPublishedState :=
  foldl (fun m p => <[p := mkLPS (-1) (-1) now (bc_delay c)]> m) ∅ (bc_partitions c).

Definition publisher_new (now : Instant) (pname : string) (stores : gset string)
    (configs : list BucketConfig) (src : bool) : ISBWatermarkPublisher :=
  mkPublisher pname
    (foldl (fun m c => <[bc_vertex c := partition_state now c]> m) ∅ configs) stores src.

(** The mutable reference [get_mut(vertex).get_mut(partition)] written back. *)
Definition set_state (pub : ISBWatermarkPublisher) (v : string) (part : Z) (s : LastPublishedState)
    : ISBWatermarkPublisher :=
  mkPublisher (processor_name pub) (alter (fun m => <[part := s]> m) v (last_published_wm pub))
    (ot_stores pub) (is_source pub).

(** [publish_watermark_with_processor_count]; [t_check] and [t_mark] are the clock
    readings of [delay_crossed] and [mark_published]. The bucket write, if any, is
    returned: its failure is ignored by the code. [None] is a panic: unknown vertex or
    partition, no store for the vertex, or a WMB that does not encode. *)
Definition publish_watermark_with_processor_count `{WmbCodec} (t_check t_mark : Instant)
    (pub : ISBWatermarkPublisher) (stream : Stream) (offset watermark : Z) (idle : bool)
    (count : option Z) : option (ISBWatermarkPublisher * option KvPut) :=
  let? parts := last_published_wm pub !! stream_vertex stream in
  let? last_state := parts !! stream_partition stream in
  let '(s', (publish_offset, publish_watermark, _)) := update last_state offset watermark in
  if negb (delay_crossed t_check s') then
    Some (set_state pub (stream_vertex stream) (stream_partition stream) s', None)
  else if negb (bool_decide (stream_vertex stream ∈ ot_stores pub)) then None
  else
    let? wmb_bytes := wmb_try_into_bytes
      (mkWMB idle publish_offset publish_watermark (stream_partition stream) count) in
    Some (set_state pub (stream_vertex stream) (stream_partition stream) (mark_published t_mark s'),
          Some (mkKvPut _ (stream_vertex stream) (processor_name pub) wmb_bytes)).

Definition publish_watermark `{WmbCodec} (t_check t_mark : Instant) (pub : ISBWatermarkPublisher)
    (stream : Stream) (offset watermark : Z) (idle : bool)
    : option (ISBWatermarkPublisher * option KvPut) :=
  publish_watermark_with_processor_count t_check t_mark pub stream offset watermark idle None.

(** * Sequences of publishes *)

Record PublishCall := mkCall {
  call_check : Instant; call_mark : Instant; call_stream : Stream;
  call_offset : Z; call_watermark : Z; call_idle : bool; call_count : option Z
}.

Definition publish `{WmbCodec} (pub : ISBWatermarkPublisher) (c : PublishCall) :=
  publish_watermark_with_processor_count (call_check c) (call_mark c) pub (call_stream c)
    (call_offset c) (call_watermark c) (call_idle c) (call_count c).

(** The bucket writes of a sequence of calls, oldest first. *)
Fixpoint publishes `{WmbCodec} (pub : ISBWatermarkPublisher) (cs : list PublishCall)
    : option (ISBWatermarkPublisher * list KvPut) :=
  match cs with
  | [] => Some (pub, [])
  | c :: cs' =>
      let? (pub', w) := publish pub c in
      let? (pub'', ws) := publishes pub' cs' in
      Some (pub'', option_list w ++ ws)
  end.

(** The WMBs a reader of the bucket of [v] decodes for partition [part]. *)
Definition bucket_view `{WmbCodec} (v : string) (part : Z) (ws : list KvPut) : list WMB :=
  filter (fun w => partition w = part)
    (omap (fun k => if decide (put_store k = v) then wmb_try_from_bytes (put_value k) else None) ws).

(** * Invariants *)

Definition lps_ok (s : LastPublishedState) : Prop := -1 <= lps_offset s /\ -1 <= lps_watermark s.

Definition publisher_ok (pub : ISBWatermarkPublisher) : Prop :=
  map_Forall (fun _ parts => map_Forall (fun _ s => lps_ok s) parts) (last_published_wm pub).

(** The state a publish leaves dominates the old one and the incoming values. *)
Lemma update_spec s o w s' po pw r :
  update s o w = (s', (po, pw, r)) ->
  po = lps_offset s' /\ pw = lps_watermark s' /\
  lps_offset s' = Z.max (lps_offset s) o /\ lps_watermark s' = Z.max (lps_watermark s) w /\
  lps_delay s' = lps_delay s /\ last_published_time s' = last_published_time s.
Proof.
  unfold update. case_match; zify_bool; intros; simplify_eq/=; split_and!; try done; lia.
Qed.

(** The partition state of [v] and [part]. *)
Definition state_of (pub : ISBWatermarkPublisher) (v : string) (part : Z) : option LastPublishedState :=
  last_published_wm pub !! v ≫= fun m => m !! part.

Lemma state_of_set pub v part s v' part' :
  is_Some (last_published_wm pub !! v) ->
  state_of (set_state pub v part s) v' part' =
  if decide (v' = v /\ part' = part) then Some s else state_of pub v' part'.
Proof.
  intros [m Hm]. unfold state_of, set_state; simpl. rewrite lookup_alter.
  destruct (decide (v = v')) as [<-|Hv]; [|by rewrite decide_False by naive_solver].
  rewrite Hm; simpl. rewrite lookup_insert.
  destruct (decide (part = part')) as [->|Hp]; [by rewrite decide_True|].
  by rewrite decide_False by naive_solver.
Qed.

Definition call_typed (c : PublishCall) : Prop :=
  in_i64 (call_offset c) /\ in_i64 (call_watermark c) /\
  0 <= stream_partition (call_stream c) < 2 ^ 16 /\
  match call_count c with Some n => 0 <= n < 2 ^ 32 | None => True end.

(** Whether a call publishes to partition [part] of [v]. *)
Definition on_stream (v : string) (part : Z) (c : PublishCall) : Prop :=
  v = stream_vertex (call_stream c) /\ part = stream_partition (call_stream c).

#[global] Instance on_stream_dec v part c : Decision (on_stream v part c).
Proof. unfold on_stream. apply _. Defined.

Definition call_wmb (c : PublishCall) (s : LastPublishedState) : WMB :=
  mkWMB (call_idle c) (lps_offset s) (lps_watermark s) (stream_partition (call_stream c)) (call_count c).

Section Runs.
Context `{WmbCodec}.

(** The effect of one publish on the state and on the bucket. *)
Lemma publish_effect pub c pub' w :
  publish pub c = Some (pub', w) ->
  exists s s', state_of pub (stream_vertex (call_stream c)) (stream_partition (call_stream c)) = Some s /\
    lps_offset s' = Z.max (lps_offset s) (call_offset c) /\
    lps_watermark s' = Z.max (lps_watermark s) (call_watermark c) /\
    (forall v part, state_of pub' v part =
       if decide (on_stream v part c) then Some s' else state_of pub v part) /\
    (w = None \/ exists b, w = Some (mkKvPut _ (stream_vertex (call_stream c)) (processor_name pub) b) /\
       wmb_try_into_bytes (call_wmb c s') = Some b).
Proof.
  unfold publish, publish_watermark_with_processor_count.
  destruct (last_published_wm pub !! _) as [parts|] eqn:Hv; [|done].
  destruct (parts !! _) as [s|] eqn:Hs; [|done].
  destruct (update s (call_offset c) (call_watermark c)) as [s' [[po pw] r]] eqn:Eu.
  pose proof (update_spec _ _ _ _ _ _ _ Eu) as (-> & -> & Ho & Hw & _ & _).
  assert (Hst : state_of pub (stream_vertex (call_stream c)) (stream_partition (call_stream c)) = Some s)
    by (unfold state_of; by rewrite Hv).
  assert (Hset : forall x v part, state_of (set_state pub (stream_vertex (call_stream c))
      (stream_partition (call_stream c)) x) v part =
      if decide (on_stream v part c) then Some x else state_of pub v part)
    by (intros; apply state_of_set; eauto).
  destruct (negb (delay_crossed _ _)).
  - intros [= <- <-]. exists s, s'. split_and!; auto.
  - destruct (negb _); [done|].
    destruct (wmb_try_into_bytes _) as [b|] eqn:Eb; [|done]. intros [= <- <-].
    exists s, (mark_published (call_mark c) s'). split_and!; auto.
    right. exists b. split; [done|exact Eb].
Qed.

Definition lps_typed (s : LastPublishedState) : Prop :=
  -1 <= lps_offset s <= i64_max /\ -1 <= lps_watermark s <= i64_max.

Definition publisher_typed (pub : ISBWatermarkPublisher) : Prop :=
  forall v part s, state_of pub v part = Some s -> lps_typed s.

Lemma publish_typed pub c pub' w :
  publisher_typed pub -> call_typed c -> publish pub c = Some (pub', w) -> publisher_typed pub'.
Proof.
  intros Hp (Ho & Hw & _) (s & s' & Hs & Eo & Ew & Hst & _)%publish_effect v part x.
  rewrite Hst. case_decide; [intros [= <-]|apply Hp].
  apply Hp in Hs. unfold lps_typed, in_i64, i64_min, i64_max in *. lia.
Qed.

Lemma call_wmb_typed c s : call_typed c -> lps_typed s -> wmb_typed (call_wmb c s).
Proof.
  intros (_ & _ & Hp & Hc). unfold lps_typed, wmb_typed, in_i64, i64_min, i64_max; simpl.
  intros. split_and!; try done; lia.
Qed.

(** What a reader of partition [part] of [v] sees of the write of one call. *)
Lemma publish_view pub c w s' v part :
  (w = None \/ exists b, w = Some (mkKvPut _ (stream_vertex (call_stream c)) (processor_name pub) b) /\
     wmb_try_into_bytes (call_wmb c s') = Some b) ->
  call_typed c -> lps_typed s' ->
  bucket_view v part (option_list w) = [] \/
  on_stream v part c /\ bucket_view v part (option_list w) = [call_wmb c s'].
Proof.
  intros [->|(b & -> & Hb)] Hc Hs; [by left|]. unfold bucket_view; simpl. unfold on_stream.
  destruct (decide (stream_vertex (call_stream c) = v)) as [<-|Hv]; [|by left].
  rewrite (wmb_bytes_roundtrip _ _ (call_wmb_typed c s' Hc Hs) Hb).
  rewrite filter_cons, filter_nil. simpl. case_decide; naive_solver.
Qed.

Lemma bucket_view_app v part l k :
  bucket_view v part (l ++ k) = bucket_view v part l ++ bucket_view v part k.
Proof. unfold bucket_view. by rewrite omap_app, filter_app. Qed.

(** The entries read back never go back and dominate the tracked state. *)
Lemma publishes_view pub cs pub' ws v part s :
  publisher_typed pub -> Forall call_typed cs -> publishes pub cs = Some (pub', ws) ->
  state_of pub v part = Some s ->
  let view := bucket_view v part ws in
  StronglySorted (flip newer) view /\
  Forall (fun w => lps_watermark s <= watermark w /\ lps_offset s <= offset w) view /\
  exists s', state_of pub' v part = Some s' /\
    lps_offset s' = foldl Z.max (lps_offset s) (call_offset <$> filter (on_stream v part) cs) /\
    lps_watermark s' = foldl Z.max (lps_watermark s) (call_watermark <$> filter (on_stream v part) cs).
Proof.
  revert pub pub' ws s. induction cs as [|c cs IH]; intros pub pub' ws s Hp Hc; simpl.
  { intros [= <- <-] Hs. split_and!; [constructor..|]. by exists s. }
  apply Forall_cons in Hc as [Hc Hcs].
  destruct (publish pub c) as [[pub1 w]|] eqn:E1; [|done].
  destruct (publishes pub1 cs) as [[pub2 ws']|] eqn:E2; [|done]. intros [= <- <-] Hs.
  pose proof (publish_typed _ _ _ _ Hp Hc E1) as Hp1.
  apply publish_effect in E1 as (s0 & s1 & Hs0 & Eo & Ew & Hst & Hw).
  assert (Ht1 : lps_typed s1) by (eapply Hp1; rewrite Hst; by apply decide_True).
  pose proof (publish_view pub c w s1 v part Hw Hc Ht1) as Hv.
  rewrite filter_cons, bucket_view_app. pose proof (Hst v part) as Hst'.
  destruct (decide (on_stream v part c)) as [Hon|Hoff].
  - destruct (IH pub1 pub2 ws' s1 Hp1 Hcs E2 Hst') as (Hsort & Hdom & Hfin).
    assert (s0 = s) as -> by (destruct Hon as [-> ->]; congruence).
    rewrite !fmap_cons; simpl. rewrite <- Eo, <- Ew.
    assert (Hall : Forall (fun x => lps_watermark s <= watermark x /\ lps_offset s <= offset x)
      (bucket_view v part ws')) by (eapply Forall_impl; [exact Hdom|]; simpl; lia).
    destruct Hv as [->|[_ ->]]; split_and!; try done; simpl.
    + constructor; [done|]. eapply Forall_impl; [exact Hdom|]. unfold flip, newer; simpl. lia.
    + constructor; [simpl; lia|done].
  - rewrite Hs in Hst'. destruct Hv as [->|[? _]]; [|done]. by apply (IH pub1 pub2 ws' s).
Qed.

Lemma foldl_insert_lookup {A B} `{Countable K} (g : A -> K) (f : A -> B) (l : list A) (m : gmap K B) k x :
  foldl (fun m a => <[g a := f a]> m) m l !! k = Some x ->
  m !! k = Some x \/ exists a, a ∈ l /\ g a = k /\ x = f a.
Proof.
  revert m. induction l as [|a l IH]; intros m; simpl; [auto|]. intros [Hm|(b & ? & ? & ?)]%IH.
  - rewrite lookup_insert in Hm. case_decide; [|auto].
    simplify_eq. right. exists a. split_and!; [by left|done..].
  - right. exists b. split_and!; [by right|done..].
Qed.

(** Every partition of a new publisher starts from the sentinel. *)
Lemma publisher_new_state now pname stores configs src v part s :
  state_of (publisher_new now pname stores configs src) v part = Some s ->
  lps_offset s = -1 /\ lps_watermark s = -1.
Proof.
  unfold state_of, publisher_new; simpl.
  destruct (foldl _ _ _ !! v) as [parts|] eqn:E; [|done]. simpl. intros Hs.
  apply (foldl_insert_lookup bc_vertex (partition_state now)) in E as [?|(c & _ & _ & ->)]; [set_solver|].
  unfold partition_state in Hs.
  apply (foldl_insert_lookup id (fun _ => mkLPS (-1) (-1) now (bc_delay c))) in Hs as [?|(q & _ & _ & ->)]; [set_solver|done].
Qed.
(** What a bucket write carries: the better of the remembered and the given values. *)
Definition put_of (pub : ISBWatermarkPublisher) (st : Stream) (off wm : Z) (idle : bool) (count : option Z)
    (w : KvPut) : Prop :=
  exists ls, state_of pub (stream_vertex st) (stream_partition st) = Some ls /\
    put_store w = stream_vertex st /\ put_key w = processor_name pub /\
    wmb_try_into_bytes (mkWMB idle (Z.max (lps_offset ls) off) (Z.max (lps_watermark ls) wm)
      (stream_partition st) count) = Some (put_value w).

Lemma publish_Some tc tm pub st off wm idle count pub' w :
  publish_watermark_with_processor_count tc tm pub st off wm idle count = Some (pub', w) ->
  processor_name pub' = processor_name pub /\
  (forall x, w = Some x -> put_of pub st off wm idle count x) /\
  exists ls ls', state_of pub (stream_vertex st) (stream_partition st) = Some ls /\
    lps_offset ls' = Z.max (lps_offset ls) off /\ lps_watermark ls' = Z.max (lps_watermark ls) wm /\
    forall v part, state_of pub' v part =
      if decide (v = stream_vertex st /\ part = stream_partition st) then Some ls' else state_of pub v part.
Proof.
  intros Hp. assert (Hn : processor_name pub' = processor_name pub).
  { unfold publish_watermark_with_processor_count in Hp. by repeat (case_match || simplify_eq). }
  apply (publish_effect pub (mkCall tc tm st off wm idle count)) in Hp
    as (ls & ls' & Hs & Ho & Hw & Hst & Hput). simpl in *. split; [done|]. split.
  - intros x ->. destruct Hput as [?|(b & [= ->] & Hb)]; [done|]. exists ls. split_and!; try done.
    simpl. unfold call_wmb in Hb. simpl in Hb. by rewrite <- Ho, <- Hw.
  - exists ls, ls'. by split_and!.
Qed.
End Runs.

(** * Properties *)

(** Whatever watermarks and offsets a publisher is handed, in any order and on any
    of its streams, the WMBs it writes for one partition of one vertex never go back in
    offset or in watermark; so the timeline that a reader of the bucket builds from them
    accepts every one, without panicking, and its head is the last WMB written. The
    tracked state of the partition ends as the maximum of the offsets and of the
    watermarks handed in for it. *)
Theorem published_wmbs_monotone (C : WmbCodec) (now : Instant) (pname : string) (stores : gset string)
    (configs : list BucketConfig) (src : bool) (cs : list PublishCall)
    (pub' : ISBWatermarkPublisher) (ws : list KvPut) (v : string) (part : Z) (cap : nat) :
  (0 < cap)%nat -> Forall call_typed cs ->
  publishes (publisher_new now pname stores configs src) cs = Some (pub', ws) ->
  is_Some (state_of (publisher_new now pname stores configs src) v part) ->
  let view := bucket_view v part ws in
  StronglySorted (flip newer) view /\
  exists t, puts (timeline_new cap) view = Some t /\ timeline_wf t /\
    get_head_watermark t = default (-1) (watermark <$> last view) /\
    get_head_offset t = default (-1) (offset <$> last view) /\
  exists s', state_of pub' v part = Some s' /\
    lps_offset s' = foldl Z.max (-1) (call_offset <$> filter (on_stream v part) cs) /\
    lps_watermark s' = foldl Z.max (-1) (call_watermark <$> filter (on_stream v part) cs).
Proof.
  intros Hcap Hc Hp [s Hs] view.
  assert (Hty : publisher_typed (publisher_new now pname stores configs src)).
  { intros v' part' s' [Ho Hw]%publisher_new_state. unfold lps_typed, i64_max. lia. }
  destruct (publishes_view _ cs pub' ws v part s Hty Hc Hp Hs) as (Hsort & Hdom & s' & Hs' & Fo & Fw).
  split; [done|].
  assert (Hhd : get_head_watermark (timeline_new cap) = -1 /\ get_head_offset (timeline_new cap) = -1)
    by (destruct cap; [lia|done]).
  destruct Hhd as [Hw Ho], (publisher_new_state _ _ _ _ _ _ _ _ Hs) as [Eo Ew].
  destruct (puts_newer_head view (timeline_new cap)) as (t & ? & ? & Gw & Go);
    [auto with numa | done | rewrite Hw, Ho; eapply Forall_impl; [exact Hdom|]; simpl; lia |].
  exists t. rewrite Gw, Go, Hw, Ho. rewrite Eo in Fo. rewrite Ew in Fw. eauto 10.
Qed.

Lemma published_wmbs_monotone_witness :
  let st := mkStream "isb" "map" 0 in
  let cs := [mkCall 0 0 st 5 100 false None; mkCall 1 1 st 3 90 false None; mkCall 2 2 st 9 80 true None] in
  let pub := publisher_new 0 "in-0" {["map"]} [mkBucketConfig "map" [0; 1] None] false in
  let r := default (pub, []) (@publishes identity_codec pub cs) in
  let view := bucket_view "map" 0 (snd r) in
  StronglySorted (flip newer) view /\
  exists t, puts (timeline_new 10) view = Some t /\ timeline_wf t /\
    get_head_watermark t = default (-1) (watermark <$> last view) /\
    get_head_offset t = default (-1) (offset <$> last view) /\
  exists s', state_of (fst r) "map" 0 = Some s' /\
    lps_offset s' = foldl Z.max (-1) (call_offset <$> filter (on_stream "map" 0) cs) /\
    lps_watermark s' = foldl Z.max (-1) (call_watermark <$> filter (on_stream "map" 0) cs).
Proof.
  intros st cs pub r.
  apply (published_wmbs_monotone identity_codec 0 "in-0" {["map"]} [mkBucketConfig "map" [0; 1] None] false
           cs (fst r) (snd r) "map" 0 10).
  - lia.
  - unfold cs, call_typed, in_i64, i64_min, i64_max; repeat constructor; simpl; lia.
  - vm_compute. reflexivity.
  - eexists. vm_compute. reflexivity.
Defined.

(** A publish writes to the bucket exactly when the configured delay since the last
    write has passed (always, without a delay), and what it writes is the best offset
    and watermark seen so far including the call's own, under the publisher's name;
    when it does not write, the values are still remembered. *)
Theorem publish_gate (C : WmbCodec) (t_check t_mark : Instant) (pub pub' : ISBWatermarkPublisher)
    (st : Stream) (o wm : Z) (idle : bool) (count : option Z) (w : option KvPut) (s : LastPublishedState) :
  state_of pub (stream_vertex st) (stream_partition st) = Some s ->
  publish_watermark_with_processor_count t_check t_mark pub st o wm idle count = Some (pub', w) ->
  let o' := Z.max (lps_offset s) o in
  let wm' := Z.max (lps_watermark s) wm in
  if delay_crossed t_check s
  then (exists b, wmb_try_into_bytes (mkWMB idle o' wm' (stream_partition st) count) = Some b /\
          w = Some (mkKvPut _ (stream_vertex st) (processor_name pub) b)) /\
       state_of pub' (stream_vertex st) (stream_partition st) = Some (mkLPS o' wm' t_mark (lps_delay s))
  else w = None /\
       state_of pub' (stream_vertex st) (stream_partition st) =
         Some (mkLPS o' wm' (last_published_time s) (lps_delay s)).
Proof.
  unfold publish_watermark_with_processor_count, state_of at 1.
  destruct (last_published_wm pub !! _) as [parts|] eqn:Hv; [|done]. simpl. intros ->.
  destruct (update s o wm) as [s' [[po pw] r]] eqn:Eu.
  pose proof (update_spec _ _ _ _ _ _ _ Eu) as (-> & -> & Ho & Hw & Hd & Ht).
  assert (delay_crossed t_check s' = delay_crossed t_check s) as ->
    by (unfold delay_crossed; by rewrite Hd, Ht).
  destruct s' as [o1 w1 t1 d1]; simpl in *. subst.
  destruct (delay_crossed t_check s); simpl.
  - destruct (negb _); [done|]. destruct (wmb_try_into_bytes _) as [b|] eqn:Eb; [|done].
    intros [= <- <-]. rewrite state_of_set, decide_True by eauto. eauto.
  - intros [= <- <-]. by rewrite state_of_set, decide_True by eauto.
Qed.

Lemma publish_gate_witness :
  let st := mkStream "isb" "map" 0 in
  let pub := publisher_new 0 "in-0" {["map"]} [mkBucketConfig "map" [0] (Some 100)] false in
  let s := mkLPS (-1) (-1) 0 (Some 100) in
  let r := default (pub, None) (@publish_watermark_with_processor_count identity_codec 50 60 pub st 7 42 false None) in
  delay_crossed 50 s = false /\ snd r = None.
Proof.
  intros st pub s r. split; [reflexivity|].
  pose proof (publish_gate identity_codec 50 60 pub (fst r) st 7 42 false None (snd r) s
    ltac:(vm_compute; reflexivity) ltac:(vm_compute; reflexivity)) as G.
  destruct G as [G _]. exact G.
Defined.
