(* ===== verification/IsbIdle.v ===== *)
(** Idle detection on the outgoing streams
    (src/rust/numaflow-core/src/watermark/idle/isb.rs).

    The detector remembers per stream when a watermark was last published and, while the
    stream idles, the offset of the control message that carries the idle watermark. Clock
    readings and the answer of the ISB writer are arguments. *)
From S2P Require Import Prelude Clock Message Publisher.

Record IdleState := mkIdleState {
  is_stream : Stream;
  last_wm_published_time : DateTime;
  wmb_msg_offset : option Z
}.

Record ISBIdleDetector := mkIdleDetector {
  last_published_wm_state : gmap string (list IdleState);
  writers : gset string;                     (* the streams that have a writer *)
  idle_timeout : Duration
}.

Record ToVertexConfig := mkToVertexConfig {
  tv_name : string;
  tv_streams : list Stream
}.

(** The clock reading taken for the [i]-th partition of a vertex. *)
Abbreviation Readings := (string -> nat -> DateTime) (only parsing).

Definition idle_detector_new (now : Readings) (timeout : Duration)
    (configs : list ToVertexConfig) (ws : gset string) : ISBIdleDetector :=
  mkIdleDetector
    (foldl (fun m c => <[tv_name c := imap (fun i st => mkIdleState st (now (tv_name c) i) None) (tv_streams c)]> m)
       ∅ configs)
    ws timeout.

(** [get(vertex)] and [get(partition as usize)] of the state. *)
Definition idle_state_of (d : ISBIdleDetector) (v : string) (part : Z) : option IdleState :=
  last_published_wm_state d !! v ≫= fun states => states !! Z.to_nat part.

(** The same with [get_mut] and an update in place; [None] is the panic. *)
Definition update_idle_state (d : ISBIdleDetector) (st : Stream) (f : IdleState -> IdleState)
    : option ISBIdleDetector :=
  let? states := last_published_wm_state d !! stream_vertex st in
  let? s := states !! Z.to_nat (stream_partition st) in
  Some (mkIdleDetector
          (<[stream_vertex st := <[Z.to_nat (stream_partition st) := f s]> states]> (last_published_wm_state d))
          (writers d) (idle_timeout d)).

Definition reset_idle (now : DateTime) (d : ISBIdleDetector) (st : Stream) : option ISBIdleDetector :=
  update_idle_state d st (fun s => mkIdleState (is_stream s) now None).

Definition update_idle_metadata (now : DateTime) (d : ISBIdleDetector) (st : Stream) (off : Z)
    : option ISBIdleDetector :=
  update_idle_state d st (fun s => mkIdleState (is_stream s) now (Some off)).

(** The offset that carries the idle watermark, and the streams a control message was handed to;
    [written] is what the writer answers. *)
Definition fetch_idle_offset (d : ISBIdleDetector) (st : Stream) (written : Result Offset)
    : option (Result Z * list string) :=
  let? s := idle_state_of d (stream_vertex st) (stream_partition st) in
  match wmb_msg_offset s with
  | Some off => Some (Ok off, [])
  | None =>
      let name := stream_name (is_stream s) in
      if decide (name ∈ writers d) then
        Some (match written with
              | Ok (OInt o) => Ok (io_offset o)
              | Ok (OString _) => Err (EWatermark "idle WMB requires an Int offset; String offsets are not supported for watermarks")
              | Err _ => Err (EWatermark "write")
              end, [name])
      else Some (Err (EWatermark ("No ISB writer for stream '" +:+ name +:+ "' when publishing idle WMB")), [])
  end.

Section Due.
Context `{HashOrder} `{Chrono}.

Definition needs_publish (timeout : Duration) (now : DateTime) (s : IdleState) : bool :=
  as_millis_i64 timeout <? timestamp_millis now - timestamp_millis (last_wm_published_time s).

Definition fetch_streams_needing_publish (now : Readings) (d : ISBIdleDetector) : list Stream :=
  hm_iter (last_published_wm_state d) ≫= fun vs =>
    is_stream <$> mjoin (imap (fun i s => if needs_publish (idle_timeout d) (now vs.1 i) s then [s] else []) vs.2).
End Due.

(** * Lemmas *)

Lemma update_idle_state_Some d st f d' :
  update_idle_state d st f = Some d' ->
  0 <= stream_partition st ->
  exists s, idle_state_of d (stream_vertex st) (stream_partition st) = Some s /\
    writers d' = writers d /\ idle_timeout d' = idle_timeout d /\
    forall v part, 0 <= part -> idle_state_of d' v part =
      if decide (v = stream_vertex st /\ part = stream_partition st) then Some (f s) else idle_state_of d v part.
Proof.
  unfold update_idle_state. intros Hu Hp. unfold idle_state_of at 1.
  destruct (last_published_wm_state d !! _) as [states|] eqn:Hv; [|done]. simpl.
  destruct (states !! _) as [s|] eqn:Hs; [|done]. injection Hu as <-. exists s.
  split_and!; try done. intros v part Hpart. unfold idle_state_of; simpl. rewrite lookup_insert.
  destruct (decide (stream_vertex st = v)) as [<-|Hne]; simpl; [|by rewrite decide_False by naive_solver].
  destruct (decide (part = stream_partition st)) as [->|Hne].
  - rewrite decide_True by done. apply list_lookup_insert_eq. by eapply lookup_lt_Some.
  - rewrite decide_False by naive_solver. rewrite list_lookup_insert_ne by lia. by rewrite Hv.
Qed.
