(* ===== verification/Fetcher.v ===== *)
(** The watermark fetcher of the incoming edges
    (src/rust/numaflow-core/src/watermark/isb/wm_fetcher.rs).

    It owns one processor manager per incoming vertex and remembers, per edge and
    partition, the last watermark fetched. Every loop over a [HashMap] follows the
    order given by [HashOrder]. Watermarks are epoch milliseconds until they are
    returned as [DateTime]. *)
From S2P Require Import Prelude Clock Timeline Manager Publisher.

Section Fetcher.
Context `{HashOrder, Chrono}.

Record ISBWatermarkFetcher := mkFetcher {
  processor_managers : gmap string (gmap string Processor);
  last_processed_wm : gmap string (gmap Z Z)
}.

Definition fetcher_new (managers : gmap string (gmap string Processor))
    (configs : list BucketConfig) : ISBWatermarkFetcher :=
  mkFetcher managers
    (foldl (fun m c => <[bc_vertex c := foldl (fun m' p => <[p := -1]> m') ∅ (bc_partitions c)]> m)
       ∅ configs).

(** The event times of the timelines of [part], in iteration order. *)
Definition event_times (off part : Z) (ps : gmap string Processor) : list Z :=
  omap (fun p => (fun t => get_event_time t off) <$> timelines p !! part) (hm_values ps).

(** [t < epoch] over the processors, starting from [i64::MAX]. *)
Definition edge_epoch (off part : Z) (ps : gmap string Processor) : Z :=
  foldl Z.min i64_max (event_times off part ps).

(** The greatest head offset of a processor's timelines, -1 without timelines. *)
Definition max_head_offset (p : Processor) : Z :=
  default (-1) (list_max (get_head_offset <$> hm_values (timelines p))).

Definition stale (off : Z) (p : Processor) : bool :=
  is_deleted p && (max_head_offset p <? off).

Definition processors_to_delete (off : Z) (ps : gmap string Processor) : list string :=
  (filter (fun np => stale off (snd np) = true) (hm_iter ps)).*1.

Definition delete_all (ps : gmap string Processor) (ns : list string) : gmap string Processor :=
  foldl delete_processor ps ns.

(** [*last_processed_wm.get_mut(edge)?.get_mut(&part)? = wm]; [None] is the panic. *)
Definition set_last (last : gmap string (gmap Z Z)) (edge : string) (part wm : Z)
    : option (gmap string (gmap Z Z)) :=
  let? m := last !! edge in
  let? _ := m !! part in
  Some (<[edge := <[part := wm]> m]> last).

(** One iteration of the loop of [fetch_watermark]. *)
Definition fetch_edge (off part : Z) (f : ISBWatermarkFetcher) (edge : string)
    (ps : gmap string Processor) : option ISBWatermarkFetcher :=
  let epoch := edge_epoch off part ps in
  let ms' := <[edge := delete_all ps (processors_to_delete off ps)]> (processor_managers f) in
  if epoch =? i64_max then Some (mkFetcher ms' (last_processed_wm f))
  else let? last' := set_last (last_processed_wm f) edge part epoch in
       Some (mkFetcher ms' last').

Fixpoint fetch_edges (off part : Z) (f : ISBWatermarkFetcher)
    (edges : list (string * gmap string Processor)) : option ISBWatermarkFetcher :=
  match edges with
  | [] => Some f
  | (edge, ps) :: es => let? f' := fetch_edge off part f edge ps in fetch_edges off part f' es
  end.

(** [get_watermark]: the smallest last processed watermark, -1 if there is none. *)
Definition all_last (f : ISBWatermarkFetcher) : list Z :=
  mjoin (hm_values <$> hm_values (last_processed_wm f)).

Definition min_last (f : ISBWatermarkFetcher) : Z :=
  let min_wm := foldl Z.min i64_max (all_last f) in
  if min_wm =? i64_max then -1 else min_wm.

Definition get_watermark (f : ISBWatermarkFetcher) : option DateTime :=
  from_timestamp_millis (min_last f).

Definition fetch_watermark (f : ISBWatermarkFetcher) (off part : Z)
    : option (ISBWatermarkFetcher * DateTime) :=
  let? f' := fetch_edges off part f (hm_iter (processor_managers f)) in
  let? wm := get_watermark f' in
  Some (f', wm).

(** Head watermarks, other than -1, of the active processors' timelines of [part]. *)
Definition head_watermarks (part : Z) (ps : gmap string Processor) : list Z :=
  filter (fun wm => wm <> -1)
    (omap (fun p => if is_active p then get_head_watermark <$> timelines p !! part else None)
       (hm_values ps)).

Definition compute_processor_watermark (ps : gmap string Processor) (part : Z) : option Z :=
  let epoch := foldl Z.min i64_max (head_watermarks part ps) in
  if epoch <? i64_max then Some epoch else None.

Definition fetch_head_watermark (f : ISBWatermarkFetcher) (from_vertex : option string) (part : Z)
    : option DateTime :=
  let epoch := match from_vertex with
    | Some v => processor_managers f !! v ≫= fun ps => compute_processor_watermark ps part
    | None => list_min (omap (fun ps => compute_processor_watermark ps part)
                          (hm_values (processor_managers f)))
    end in
  from_timestamp_millis (default (-1) epoch).

(** Replace the current minimum only by a strictly smaller watermark. *)
Definition min_wmb (cur : option WMB) (w : WMB) : option WMB :=
  match cur with
  | None => Some w
  | Some c => if watermark w <? watermark c then Some w else cur
  end.

(** The inner loop over one edge's active processors; [inl tt] is [return None]. *)
Fixpoint edge_idle (part : Z) (cur : option WMB) (ps : list Processor) : unit + option WMB :=
  match ps with
  | [] => inr cur
  | p :: ps' =>
      match timelines p !! part ≫= get_head_wmb with
      | Some w => if idle w then edge_idle part (min_wmb cur w) ps' else inl tt
      | None => inl tt
      end
  end.

Definition active_processors (ps : gmap string Processor) : list Processor :=
  filter (fun p => is_active p = true) (hm_values ps).

(** The outer loop: the edges seen before an early return keep their update. *)
Fixpoint fetch_head_idle_edges (part : Z) (f : ISBWatermarkFetcher) (cur : option WMB)
    (edges : list (string * gmap string Processor)) : option (ISBWatermarkFetcher * option WMB) :=
  match edges with
  | [] => Some (f, cur)
  | (edge, ps) :: es =>
      match edge_idle part None (active_processors ps) with
      | inl _ => Some (f, None)
      | inr None => fetch_head_idle_edges part f cur es
      | inr (Some w) =>
          let? last' := set_last (last_processed_wm f) edge part (watermark w) in
          fetch_head_idle_edges part (mkFetcher (processor_managers f) last') (min_wmb cur w) es
      end
  end.

Definition fetch_head_idle_wmb (f : ISBWatermarkFetcher) (part : Z)
    : option (ISBWatermarkFetcher * option WMB) :=
  fetch_head_idle_edges part f None (hm_iter (processor_managers f)).
End Fetcher.

(** * Characterisation *)

Section FetchSpec.
Context (O : HashOrder).
Implicit Types f : ISBWatermarkFetcher.

Lemma delete_all_lookup ps ns n :
  delete_all ps ns !! n = if decide (n ∈ ns) then None else ps !! n.
Proof.
  unfold delete_all. revert ps. induction ns as [|a ns IH]; intros ps; simpl.
  { done. }
  rewrite IH. unfold delete_processor. rewrite lookup_delete.
  destruct (decide (n ∈ a :: ns)) as [Hin|Hni].
  - apply elem_of_cons in Hin as [->|?]; [by repeat case_decide|by rewrite decide_True].
  - apply not_elem_of_cons in Hni as [? ?]. rewrite decide_False, decide_False by auto. done.
Qed.

Lemma elem_of_to_delete off ps n :
  n ∈ processors_to_delete off ps <-> exists p, ps !! n = Some p /\ stale off p = true.
Proof.
  unfold processors_to_delete. rewrite list_elem_of_fmap. split.
  - intros ([m p] & -> & [Hs Hin]%list_elem_of_filter). exists p. by apply elem_of_hm_iter in Hin.
  - intros (p & Hp & Hs). exists (n, p). split; [done|]. apply list_elem_of_filter.
    split; [done|by apply elem_of_hm_iter].
Qed.

(** The processors a fetch leaves. *)
Definition survivors (off : Z) (ps : gmap string Processor) : gmap string Processor :=
  delete_all ps (processors_to_delete off ps).

Lemma survivors_lookup off ps n p :
  survivors off ps !! n = Some p <-> ps !! n = Some p /\ stale off p = false.
Proof.
  unfold survivors. rewrite delete_all_lookup. case_decide as Hd.
  - apply elem_of_to_delete in Hd as (q & Hq & Hs). split; [done|].
    intros [Hp Hst]. rewrite Hq in Hp. simplify_eq. by rewrite Hs in Hst.
  - split; [|by intros [? _]]. intros Hp. split; [done|].
    destruct (stale off p) eqn:E; [|done]. exfalso. apply Hd, elem_of_to_delete. eauto.
Qed.

Definition record (part epoch : Z) (m : gmap Z Z) : gmap Z Z :=
  if epoch =? i64_max then m else <[part := epoch]> m.

Lemma fetch_edge_Some off part f e ps f' :
  fetch_edge off part f e ps = Some f' ->
  (forall e', processor_managers f' !! e' =
     if decide (e = e') then Some (survivors off ps) else processor_managers f !! e') /\
  (forall e', last_processed_wm f' !! e' =
     if decide (e = e') then record part (edge_epoch off part ps) <$> last_processed_wm f !! e'
     else last_processed_wm f !! e').
Proof.
  unfold fetch_edge, record. destruct (edge_epoch off part ps =? i64_max).
  - intros [= <-]; simpl. split; intros e'; [by rewrite lookup_insert|].
    case_decide; [|done]. subst. by destruct (last_processed_wm f !! e').
  - unfold set_last. destruct (last_processed_wm f !! e) as [m|] eqn:E; [|done].
    destruct (m !! part); [|done]. intros [= <-]; simpl.
    split; intros e'; rewrite lookup_insert; [done|].
    case_decide; [|done]. subst. by rewrite E.
Qed.

Lemma fetch_edges_Some off part f es f' :
  NoDup es.*1 -> fetch_edges off part f es = Some f' ->
  forall e, let here := (list_to_map es : gmap string (gmap string Processor)) !! e in
    processor_managers f' !! e = match here with
      | Some ps => Some (survivors off ps) | None => processor_managers f !! e end /\
    last_processed_wm f' !! e = match here with
      | Some ps => record part (edge_epoch off part ps) <$> last_processed_wm f !! e
      | None => last_processed_wm f !! e end.
Proof.
  revert f. induction es as [|[e ps] es IH]; intros f Hnd; simpl; [by intros [= <-]|].
  apply NoDup_cons in Hnd as [Hni Hnd].
  destruct (fetch_edge off part f e ps) as [f1|] eqn:E; [|done]. intros Hf e'.
  destruct (IH f1 Hnd Hf e') as [Hm Hl]. destruct (fetch_edge_Some _ _ _ _ _ _ E) as [Gm Gl].
  rewrite Gm in Hm. rewrite Gl in Hl. rewrite lookup_insert. case_decide as He; subst.
  - assert (Hn : (list_to_map es : gmap string (gmap string Processor)) !! e' = None)
      by by apply not_elem_of_list_to_map.
    by rewrite Hn in *.
  - done.
Qed.

(** A fetch is defined exactly when every edge with an epoch has its partition slot. *)
Definition slots_ok off part f (es : list (string * gmap string Processor)) : Prop :=
  Forall (fun '(e, ps) => edge_epoch off part ps <> i64_max ->
    is_Some (last_processed_wm f !! e ≫= fun m => m !! part)) es.

Lemma fetch_edges_defined off part f es :
  NoDup es.*1 -> is_Some (fetch_edges off part f es) <-> slots_ok off part f es.
Proof.
  unfold slots_ok. revert f. induction es as [|[e ps] es IH]; intros f Hnd; simpl.
  { split; [constructor|eauto]. }
  apply NoDup_cons in Hnd as [Hni Hnd]. rewrite Forall_cons.
  destruct (fetch_edge off part f e ps) as [f1|] eqn:E.
  - rewrite (IH f1 Hnd). destruct (fetch_edge_Some _ _ _ _ _ _ E) as [_ Gl].
    assert (Hext : Forall (fun '(e', ps') => edge_epoch off part ps' <> i64_max ->
      is_Some (last_processed_wm f1 !! e' ≫= fun m => m !! part)) es <->
      Forall (fun '(e', ps') => edge_epoch off part ps' <> i64_max ->
      is_Some (last_processed_wm f !! e' ≫= fun m => m !! part)) es).
    { rewrite !Forall_forall. split; intros Hall [e' ps'] Hin Hne; specialize (Hall _ Hin Hne);
        rewrite Gl in *; rewrite decide_False in *; try done; intros <-; apply Hni;
        apply (list_elem_of_fmap_2 fst _ _ Hin). }
    rewrite Hext. split; [|by intros [_ ?]]. intros Hall. split; [|done]. intros Hne.
    unfold fetch_edge, set_last in E. rewrite (proj2 (Z.eqb_neq _ _) Hne) in E.
    destruct (last_processed_wm f !! e) as [m|]; [|done]. simpl. by destruct (m !! part).
  - split; [by intros [? ?]|]. intros [Hok _]. exfalso.
    unfold fetch_edge, set_last in E. destruct (Z.eqb_spec (edge_epoch off part ps) i64_max); [done|].
    destruct Hok as [w Hw]; [done|]. destruct (last_processed_wm f !! e) as [m|]; [|done].
    simpl in Hw. by rewrite Hw in E.
Qed.
End FetchSpec.

(** * Order independence and bounds *)

Section FetchOrder.
Lemma edge_epoch_order (O O' : HashOrder) off part ps :
  @edge_epoch O off part ps = @edge_epoch O' off part ps.
Proof. unfold edge_epoch, event_times. by rewrite !hm_values_perm. Qed.

Lemma stale_order (O O' : HashOrder) off p : @stale O off p = @stale O' off p.
Proof. unfold stale, max_head_offset. by rewrite !hm_values_perm. Qed.

Lemma survivors_order (O O' : HashOrder) off ps : @survivors O off ps = @survivors O' off ps.
Proof.
  apply map_eq. intros n. apply option_eq. intros p.
  rewrite !survivors_lookup. by rewrite (stale_order O O').
Qed.

Lemma elem_of_all_last (O : HashOrder) f x :
  x ∈ @all_last O f <-> exists e m q, last_processed_wm f !! e = Some m /\ m !! q = Some x.
Proof.
  unfold all_last. rewrite list_elem_of_join. split.
  - intros (l & Hx & (m & -> & Hm)%list_elem_of_fmap).
    apply elem_of_hm_values in Hm as [e He], Hx as [q Hq]. eauto.
  - intros (e & m & q & He & Hq). exists (hm_values m).
    split; [apply elem_of_hm_values; eauto|].
    apply list_elem_of_fmap. exists m. split; [done|]. apply elem_of_hm_values; eauto.
Qed.

Lemma min_last_order (O O' : HashOrder) f : @min_last O f = @min_last O' f.
Proof.
  unfold min_last. rewrite (foldl_min_ext _ (@all_last O f) (@all_last O' f)); [done|].
  intros x. by rewrite !elem_of_all_last.
Qed.

Lemma min_last_le (O : HashOrder) f e m q w :
  last_processed_wm f !! e = Some m -> m !! q = Some w -> w <> i64_max -> @min_last O f <= w.
Proof.
  intros He Hq Hw. unfold min_last.
  destruct (foldl_min_spec (@all_last O f) i64_max) as (H1 & H2 & _).
  assert (foldl Z.min i64_max (@all_last O f) <= w) by (apply H2, elem_of_all_last; eauto).
  destruct (Z.eqb_spec (foldl Z.min i64_max (@all_last O f)) i64_max); unfold i64_max in *; lia.
Qed.

Lemma min_last_max (O : HashOrder) f : @min_last O f <= i64_max.
Proof.
  unfold min_last. destruct (foldl_min_spec (@all_last O f) i64_max) as (H1 & _).
  case_match; unfold i64_max in *; lia.
Qed.

(** Two admissible orders give the same fetcher. *)
Lemma fetch_edges_order (O O' : HashOrder) off part f :
  @fetch_edges O off part f (@hm_iter O _ _ _ _ (processor_managers f)) =
  @fetch_edges O' off part f (@hm_iter O' _ _ _ _ (processor_managers f)).
Proof.
  pose proof (@NoDup_hm_keys O _ _ _ _ (processor_managers f)) as N.
  pose proof (@NoDup_hm_keys O' _ _ _ _ (processor_managers f)) as N'.
  assert (Hdef : is_Some (@fetch_edges O off part f (@hm_iter O _ _ _ _ (processor_managers f))) <->
                 is_Some (@fetch_edges O' off part f (@hm_iter O' _ _ _ _ (processor_managers f)))).
  { rewrite !fetch_edges_defined by done. unfold slots_ok. rewrite !Forall_forall.
    split; intros Hall [e ps] Hin Hne; rewrite elem_of_hm_iter in Hin;
      (eapply (Hall (e, ps)); [by apply elem_of_hm_iter | by rewrite (edge_epoch_order _ O')
        || by rewrite (edge_epoch_order _ O)]). }
  destruct (@fetch_edges O off part f _) as [f1|] eqn:E1, (@fetch_edges O' off part f _) as [f2|] eqn:E2;
    [|by destruct (proj1 Hdef (mk_is_Some _ _ eq_refl))|by destruct (proj2 Hdef (mk_is_Some _ _ eq_refl))|done].
  f_equal. destruct f1 as [m1 l1], f2 as [m2 l2].
  pose proof (fetch_edges_Some O _ _ _ _ _ N E1) as H1.
  pose proof (fetch_edges_Some O' _ _ _ _ _ N' E2) as H2.
  f_equal; apply map_eq; intros e; [destruct (H1 e) as [G1 _], (H2 e) as [G2 _]
                                   |destruct (H1 e) as [_ G1], (H2 e) as [_ G2]];
    simpl in *; rewrite G1, G2, !list_to_map_hm_iter; (destruct (processor_managers f !! e); [|done]).
  - by rewrite (survivors_order O O').
  - by rewrite (edge_epoch_order O O').
Qed.
(** A processor is dropped when it is deleted and all its heads are below the offset. *)
Lemma forgotten_iff (O : HashOrder) off ps n p :
  ps !! n = Some p -> -1 < off ->
  survivors O off ps !! n = None <->
  status p = Deleted /\ forall q t, timelines p !! q = Some t -> get_head_offset t < off.
Proof.
  intros Hp Hoff.
  assert (Hst : survivors O off ps !! n = None <-> stale off p = true).
  { destruct (survivors O off ps !! n) as [p'|] eqn:Es.
    - apply survivors_lookup in Es as [Hp' Hs]. assert (p' = p) as -> by congruence. by rewrite Hs.
    - split; [|done]. intros _. destruct (stale off p) eqn:Es'; [done|].
      assert (survivors O off ps !! n = Some p) by by apply survivors_lookup. congruence. }
  rewrite Hst. unfold stale, is_deleted, max_head_offset. rewrite andb_true_iff, bool_decide_eq_true.
  rewrite Z.ltb_lt. f_equiv.
  destruct (list_max (get_head_offset <$> hm_values (timelines p))) as [mx|] eqn:Emx; simpl.
  - apply list_max_Some in Emx as [Hin Hle]. split.
    + intros Hlt q t Ht. eapply Z.le_lt_trans; [|exact Hlt]. apply Hle, list_elem_of_fmap.
      exists t. split; [done|]. apply elem_of_hm_values; eauto.
    + intros Hall. apply list_elem_of_fmap in Hin as (t & -> & [q Hq]%elem_of_hm_values). eauto.
  - split; [|lia]. intros _ q t Ht. exfalso.
    assert (t ∈ hm_values (timelines p)) as Ht' by (apply elem_of_hm_values; eauto).
    destruct (hm_values (timelines p)); [by apply elem_of_nil in Ht'|done].
Qed.
End FetchOrder.

(** * Properties *)


(** Neither the watermark fetched nor the state left behind depends on the order in
    which the hash maps of edges, processors and partitions are iterated; and a processor
    is forgotten exactly when it is deleted and every one of its timelines has its head
    below the offset. *)
Theorem fetch_watermark_order (O O' : HashOrder) (C : Chrono) (f : ISBWatermarkFetcher) (off part : Z) :
  @fetch_watermark O C f off part = @fetch_watermark O' C f off part /\
  forall f' wm edge ps n p, @fetch_watermark O C f off part = Some (f', wm) ->
    processor_managers f !! edge = Some ps -> ps !! n = Some p ->
    -1 < off ->
    exists ps', processor_managers f' !! edge = Some ps' /\
      (ps' !! n = None <-> status p = Deleted /\
         forall q t, timelines p !! q = Some t -> get_head_offset t < off).
Proof.
  split.
  - unfold fetch_watermark. rewrite (fetch_edges_order O O').
    destruct (@fetch_edges O' off part f _) as [f1|]; [|done].
    unfold get_watermark. by rewrite (min_last_order O O').
  - intros f' wm edge ps n p. unfold fetch_watermark.
    destruct (@fetch_edges O off part f _) as [f1|] eqn:E; [|done].
    destruct (@get_watermark O C f1) as [t0|]; [|done]. intros [= <- _] Hps Hp Hoff.
    destruct (fetch_edges_Some O _ _ _ _ _ (NoDup_hm_keys _) E edge) as [Hm _].
    rewrite list_to_map_hm_iter, Hps in Hm. exists (survivors O off ps). split; [done|].
    by apply forgotten_iff.
Qed.

(** The inner loop of [fetch_head_idle_wmb] succeeds exactly on idle heads, and keeps
    the smallest. *)
Lemma edge_idle_inr part cur ps r :
  edge_idle part cur ps = inr r ->
  exists ws, Forall2 (fun p w => timelines p !! part ≫= get_head_wmb = Some w /\ idle w = true) ps ws /\
    r = foldl min_wmb cur ws.
Proof.
  revert cur. induction ps as [|p ps IH]; intros cur; simpl; [intros [= <-]; exists []; by split|].
  destruct (timelines p !! part ≫= get_head_wmb) as [w|] eqn:E; [|done].
  destruct (idle w) eqn:Ei; [|done]. intros (ws & Hws & ->)%IH.
  exists (w :: ws). split; [by constructor|done].
Qed.

Lemma foldl_min_wmb ws cur :
  match foldl min_wmb cur ws with
  | None => cur = None /\ ws = []
  | Some m => (cur = Some m \/ m ∈ ws) /\ (forall w, w ∈ ws -> watermark m <= watermark w) /\
              (forall c, cur = Some c -> watermark m <= watermark c)
  end.
Proof.
  revert cur. induction ws as [|w ws IH]; intros cur; simpl.
  { destruct cur; [|done]. split_and!; [by left|by intros ? ?%elem_of_nil|by intros ? [= ->]]. }
  specialize (IH (min_wmb cur w)). destruct (foldl min_wmb (min_wmb cur w) ws) as [m|].
  - destruct IH as (H1 & H2 & H3). unfold min_wmb in *.
    destruct cur as [c|]; [destruct (Z.ltb_spec (watermark w) (watermark c))|];
      specialize (H3 _ eq_refl); split_and!;
      try (intros x [->|?]%elem_of_cons; [lia|by apply H2]); try (intros ? [= <-]; lia);
      rewrite elem_of_cons; naive_solver.
  - destruct IH as [H1 ->]. unfold min_wmb in H1. destruct cur as [c|]; [destruct (_ <? _)|]; done.
Qed.

(** What the outer loop returns covers every active processor of the edges seen. *)
Lemma fetch_head_idle_edges_Some (O : HashOrder) part f cur es f' w :
  fetch_head_idle_edges part f cur es = Some (f', Some w) ->
  (forall c, cur = Some c -> watermark w <= watermark c) /\
  (forall edge ps p, (edge, ps) ∈ es -> p ∈ active_processors ps ->
     exists h, timelines p !! part ≫= get_head_wmb = Some h /\ idle h = true /\ watermark w <= watermark h) /\
  (cur = Some w \/ exists edge ps p, (edge, ps) ∈ es /\ p ∈ active_processors ps /\
     timelines p !! part ≫= get_head_wmb = Some w).
Proof.
  revert f cur. induction es as [|[edge ps] es IH]; intros f cur; simpl.
  { intros [= <- ->]. split_and!; [by intros ? [= ->]|by intros ? ? ? ?%elem_of_nil|by left]. }
  destruct (edge_idle part None (active_processors ps)) as [?|r] eqn:E; [done|].
  apply edge_idle_inr in E as (ws & Hws & ->). pose proof (foldl_min_wmb ws None) as Hm.
  assert (Hall : forall p, p ∈ active_processors ps -> exists h, h ∈ ws /\
    timelines p !! part ≫= get_head_wmb = Some h /\ idle h = true).
  { intros p Hp. eapply Forall2_elem_l in Hws as (h & ? & ? & ?); eauto. }
  destruct (foldl min_wmb None ws) as [m|].
  - destruct Hm as (Hin & Hle & _). destruct (set_last _ _ _ _) as [last'|]; [|done].
    intros (H1 & H2 & H3)%IH. unfold min_wmb in *.
    assert (Hwm : watermark w <= watermark m)
      by (destruct cur as [c|]; [destruct (Z.ltb_spec (watermark m) (watermark c))|];
          specialize (H1 _ eq_refl); lia).
    split_and!.
    + intros c ->. destruct (Z.ltb_spec (watermark m) (watermark c)); specialize (H1 _ eq_refl); lia.
    + intros e' ps' p [[= -> ->]|Hin']%elem_of_cons Hp; [|by eapply H2].
      destruct (Hall p Hp) as (h & Hh & ? & ?). exists h. split_and!; [done..|].
      specialize (Hle h Hh). lia.
    + destruct H3 as [H3|(e' & ps' & p & ? & ? & ?)];
        [|right; exists e', ps', p; split_and!; [by right|done..]].
      assert (cur = Some w \/ m = w) as [->| <-]
        by (destruct cur as [c|]; [destruct (_ <? _)|]; naive_solver); [by left|].
      right. destruct Hin as [?|Hin]; [done|].
      eapply Forall2_elem_r in Hws as (p & Hp & ? & _); [|done].
      exists edge, ps, p. split_and!; [by left|done..].
  - destruct Hm as [_ ->]. intros (H1 & H2 & H3)%IH. split_and!; [done| |].
    + intros e' ps' p [[= -> ->]|Hin']%elem_of_cons Hp; [|by eapply H2].
      destruct (Hall p Hp) as (h & ?%elem_of_nil & _). done.
    + destruct H3 as [?|(e' & ps' & p & ? & ? & ?)]; [by left|].
      right. exists e', ps', p. split_and!; [by right|done..].
Qed.

(** A two-processor edge, evaluated by the witnesses. *)
Definition example_fetcher : ISBWatermarkFetcher :=
  let tl ws := default (timeline_new 10) (puts (timeline_new 10) ws) in
  let p0 := mkProcessor "p0" Active {[0 := tl [mkWMB false 3 100 0 None; mkWMB true 8 200 0 None]]} 0 in
  let p1 := mkProcessor "p1" Deleted {[0 := tl [mkWMB true 4 150 0 None]]} 0 in
  mkFetcher {["up" := {["p0" := p0; "p1" := p1]}]} {["up" := {[0 := -1]}]}.


Lemma fetch_watermark_order_witness :
  let r := default (example_fetcher, 0) (@fetch_watermark canonical_order chrono_utc example_fetcher 6 0) in
  let ps := default ∅ (processor_managers example_fetcher !! "up") in
  let p1 := default (processor_new "" Active [] 0) (ps !! "p1") in
  exists ps', processor_managers (fst r) !! "up" = Some ps' /\
    (ps' !! "p1" = None <-> status p1 = Deleted /\
       forall q t, timelines p1 !! q = Some t -> get_head_offset t < 6).
Proof.
  intros r ps p1.
  destruct (fetch_watermark_order canonical_order canonical_order chrono_utc example_fetcher 6 0) as [_ Hd].
  apply (Hd (fst r) (snd r) "up" ps "p1" p1); [vm_compute; reflexivity .. | lia].
Defined.

(** When a head idle WMB is returned for a partition, every active processor of
    every incoming edge has an idle WMB at the head of that partition's timeline, the
    returned WMB is one of these heads, and none of them has a smaller watermark. *)
Theorem fetch_head_idle_sound (O : HashOrder) (f f' : ISBWatermarkFetcher) (part : Z) (w : WMB) :
  fetch_head_idle_wmb f part = Some (f', Some w) ->
  (forall edge ps n p, processor_managers f !! edge = Some ps -> ps !! n = Some p -> status p = Active ->
     exists t h, timelines p !! part = Some t /\ get_head_wmb t = Some h /\
       idle h = true /\ watermark w <= watermark h) /\
  (exists edge ps n p t, processor_managers f !! edge = Some ps /\ ps !! n = Some p /\
     status p = Active /\ timelines p !! part = Some t /\ get_head_wmb t = Some w).
Proof.
  intros (_ & Hall & Hex)%fetch_head_idle_edges_Some. split.
  - intros edge ps n p He Hp Ha.
    destruct (Hall edge ps p) as (h & Hh & Hi & Hle).
    { by apply elem_of_hm_iter. }
    { apply list_elem_of_filter. split; [unfold is_active; by rewrite bool_decide_true|].
      apply elem_of_hm_values; eauto. }
    destruct (timelines p !! part) as [t|] eqn:Et; [|done]. exists t, h. by split_and!.
  - destruct Hex as [?|(edge & ps & p & He & [Ha Hp]%list_elem_of_filter & Hh)]; [done|].
    apply elem_of_hm_iter in He. apply elem_of_hm_values in Hp as [n Hn].
    destruct (timelines p !! part) as [t|] eqn:Et; [|done].
    exists edge, ps, n, p, t. split_and!; try done.
    unfold is_active in Ha. by apply bool_decide_eq_true in Ha.
Qed.

Lemma fetch_head_idle_sound_witness :
  let w := mkWMB true 8 200 0 None in
  exists f', @fetch_head_idle_wmb canonical_order example_fetcher 0 = Some (f', Some w) /\
  exists edge ps n p t, processor_managers example_fetcher !! edge = Some ps /\ ps !! n = Some p /\
     status p = Active /\ timelines p !! 0 = Some t /\ get_head_wmb t = Some w.
Proof.
  intros w. exists (mkFetcher (processor_managers example_fetcher) {["up" := {[0 := 200]}]}).
  split; [vm_compute; reflexivity|].
  apply (fetch_head_idle_sound canonical_order example_fetcher
    (mkFetcher (processor_managers example_fetcher) {["up" := {[0 := 200]}]}) 0 w).
  vm_compute. reflexivity.
Defined.

(** The smallest head watermark of one manager. *)
Definition edge_head (ps : gmap string Processor) (part m : Z) : Prop :=
  exists n p t, ps !! n = Some p /\ status p = Active /\ timelines p !! part = Some t /\
    get_head_watermark t = m /\ m <> -1 /\ m < i64_max.

Lemma compute_processor_watermark_spec (O : HashOrder) ps part :
  match compute_processor_watermark ps part with
  | Some e => edge_head ps part e /\ forall m, edge_head ps part m -> e <= m
  | None => forall m, ~ edge_head ps part m
  end.
Proof.
  assert (Hin : forall m, m ∈ head_watermarks part ps /\ m < i64_max <-> edge_head ps part m).
  { intros m. unfold head_watermarks, edge_head. rewrite list_elem_of_filter, list_elem_of_omap.
    split.
    - intros [[Hm (p & [n Hn]%elem_of_hm_values & Hp)] Hlt]. unfold is_active in Hp.
      case_bool_decide; [|done]. destruct (timelines p !! part) as [t|] eqn:Et; [|done].
      injection Hp as Hp. exists n, p, t. by split_and!.
    - intros (n & p & t & Hn & Ha & Ht & Hw & Hm & Hlt). split; [split; [done|]|done]. exists p.
      split; [apply elem_of_hm_values; eauto|]. unfold is_active.
      rewrite bool_decide_true, Ht by done. simpl. by rewrite Hw. }
  unfold compute_processor_watermark.
  destruct (foldl_min_spec (head_watermarks part ps) i64_max) as (H1 & H2 & H3).
  destruct (Z.ltb_spec (foldl Z.min i64_max (head_watermarks part ps)) i64_max) as [Hlt|Hge].
  - split; [apply Hin; split; [|done]; destruct H3; [lia|done]|].
    intros m [Hm _]%Hin. by apply H2.
  - intros m [Hm Hlt]%Hin. specialize (H2 m Hm). lia.
Qed.

(** A published head watermark of the edges a query looks at. *)
Definition query_head (f : ISBWatermarkFetcher) (v : option string) (part m : Z) : Prop :=
  exists edge ps, processor_managers f !! edge = Some ps /\
    (forall v', v = Some v' -> edge = v') /\ edge_head ps part m.

Definition is_least (P : Z -> Prop) (e : option Z) : Prop :=
  match e with
  | Some e => P e /\ forall m, P m -> e <= m
  | None => forall m, ~ P m
  end.

Lemma query_head_one f v ps part m :
  processor_managers f !! v = Some ps ->
  query_head f (Some v) part m <-> edge_head ps part m.
Proof.
  intros Hv. split.
  - intros (e & ps' & He & Hq & Hm). rewrite (Hq v eq_refl) in He. by simplify_eq.
  - intros Hm. exists v, ps. split_and!; [done| |done]. by intros ? [= ->].
Qed.

Lemma head_one_least (O : HashOrder) f v part :
  is_least (query_head f (Some v) part)
    (processor_managers f !! v ≫= fun ps => compute_processor_watermark ps part).
Proof.
  destruct (processor_managers f !! v) as [ps|] eqn:Ev; simpl.
  - pose proof (compute_processor_watermark_spec O ps part) as Hs.
    destruct (compute_processor_watermark ps part) as [e|]; simpl in *.
    + destruct Hs as [Hs1 Hs2]. split; [by eapply query_head_one|].
      intros m Hm. apply Hs2. by eapply query_head_one.
    + intros m Hm. apply (Hs m). by eapply query_head_one.
  - intros m (e & ps' & He & Hv & _). rewrite (Hv v eq_refl) in He. by simplify_eq.
Qed.

Lemma head_all_least (O : HashOrder) f part :
  is_least (query_head f None part)
    (list_min (omap (fun ps => compute_processor_watermark ps part) (hm_values (processor_managers f)))).
Proof.
  set (es := omap _ _).
  assert (Hes : forall e, e ∈ es -> query_head f None part e).
  { intros e (ps & [edge He]%elem_of_hm_values & Hc)%list_elem_of_omap.
    pose proof (compute_processor_watermark_spec O ps part) as Hs. rewrite Hc in Hs.
    exists edge, ps. split_and!; [done..|apply Hs]. }
  assert (Hge : forall m, query_head f None part m -> exists e, e ∈ es /\ e <= m).
  { intros m (edge & ps & He & _ & Hm).
    pose proof (compute_processor_watermark_spec O ps part) as Hs.
    destruct (compute_processor_watermark ps part) as [e|] eqn:Hc; [|by destruct (Hs m)].
    exists e. split; [|by apply Hs]. apply list_elem_of_omap. exists ps.
    split; [apply elem_of_hm_values; eauto|done]. }
  destruct (list_min es) as [e|] eqn:El; simpl.
  - apply list_min_Some in El as [Hin Hle]. split; [by apply Hes|].
    intros m (e' & He' & ?)%Hge. specialize (Hle e' He'). lia.
  - apply list_min_None in El. intros m (e & He & _)%Hge. rewrite El in He. by apply elem_of_nil in He.
Qed.

(** The head watermark over all edges is -1 exactly when no active processor has a
    published head watermark below [i64::MAX] on the partition, and otherwise it is the
    smallest such head watermark; asking for one edge restricts the minimum to it. *)
Theorem fetch_head_watermark_min (O : HashOrder) (C : Chrono) (f : ISBWatermarkFetcher)
    (v : option string) (part : Z) (wm : DateTime) :
  fetch_head_watermark f v part = Some wm ->
  (timestamp_millis wm = -1 /\ (forall m, ~ query_head f v part m)) \/
  (query_head f v part (timestamp_millis wm) /\
   forall m, query_head f v part m -> timestamp_millis wm <= m).
Proof.
  unfold fetch_head_watermark. intros Hwm. rewrite (timestamp_from_millis _ _ Hwm). clear Hwm.
  destruct v as [v|].
  - pose proof (head_one_least O f v part) as Hl. destruct (_ ≫= _) as [e|]; simpl in *; eauto.
  - pose proof (head_all_least O f part) as Hl. destruct (list_min _) as [e|]; simpl in *; eauto.
Qed.

Lemma fetch_head_watermark_min_witness :
  let wm := default 0 (@fetch_head_watermark canonical_order chrono_utc example_fetcher None 0) in
  (@timestamp_millis chrono_utc wm = -1 /\ (forall m, ~ query_head example_fetcher None 0 m)) \/
  (query_head example_fetcher None 0 (@timestamp_millis chrono_utc wm) /\
   forall m, query_head example_fetcher None 0 m -> @timestamp_millis chrono_utc wm <= m).
Proof.
  intros wm. apply (fetch_head_watermark_min canonical_order chrono_utc example_fetcher None 0 wm).
  vm_compute. reflexivity.
Defined.
