(* ===== verification/IsbWatermark.v ===== *)
(** The watermark handle of an ISB vertex (src/rust/numaflow-core/src/watermark/isb.rs).

    [ISBWatermarkState] joins the fetcher of the incoming edges, the publisher of the outgoing
    ones, the idle detector, the tracker of in-flight messages and, in a reduce vertex, the
    window manager. Every call of the handle holds one lock, so it is one function on the whole
    state. The tracker, the windows and the processors behind the fetcher are changed by other
    components between calls. [None] is a panic. *)
From S2P Require Import Prelude Clock BTreeMap Message Tracker AlignedWindow SessionWindow AccumulatorWindow.
From S2P Require Import Timeline Manager Publisher IsbIdle Fetcher.

Inductive WindowManager :=
  | Aligned (m : AlignedWindowManager)
  | Unaligned (m : UnalignedWindowManager).

Record ISBWatermarkState := mkWmState {
  fetcher : ISBWatermarkFetcher;
  publisher : ISBWatermarkPublisher;
  idle_manager : ISBIdleDetector;
  window_manager : option WindowManager;
  latest_fetched_wm : DateTime;
  tracker : Tracker;
  from_partitions : list Z
}.

Definition with_fetcher (s : ISBWatermarkState) (f : ISBWatermarkFetcher) : ISBWatermarkState :=
  mkWmState f (publisher s) (idle_manager s) (window_manager s) (latest_fetched_wm s) (tracker s)
    (from_partitions s).
Definition with_latest (s : ISBWatermarkState) (wm : DateTime) : ISBWatermarkState :=
  mkWmState (fetcher s) (publisher s) (idle_manager s) (window_manager s) wm (tracker s)
    (from_partitions s).
Definition with_published (s : ISBWatermarkState) (p : ISBWatermarkPublisher) (d : ISBIdleDetector)
    : ISBWatermarkState :=
  mkWmState (fetcher s) p d (window_manager s) (latest_fetched_wm s) (tracker s) (from_partitions s).

(** The clock readings of one publish. *)
Record PublishEnv := mkPublishEnv {
  pe_check : Instant;
  pe_mark : Instant;
  pe_now : DateTime
}.

Section State.
Context `{HashOrder} `{Chrono} `{WmbCodec}.

(** What a call does outside the process: a control message handed to the writer of a stream,
    or a write to a bucket. *)
Inductive Effect :=
  | EWrite (stream : string)
  | EPut (w : KvPut).

Definition put_effects (w : option KvPut) : list Effect := EPut <$> option_list w.

Definition wm_state_new (f : ISBWatermarkFetcher) (p : ISBWatermarkPublisher) (d : ISBIdleDetector)
    (w : option WindowManager) (t : Tracker) (parts : list Z) : ISBWatermarkState :=
  mkWmState f p d w minus_one t parts.

Definition st_fetch_watermark (s : ISBWatermarkState) (off : IntOffset)
    : option (ISBWatermarkState * DateTime) :=
  let? (f', wm) := fetch_watermark (fetcher s) (io_offset off) (io_partition_idx off) in
  Some (with_latest (with_fetcher s f') (Z.max wm (latest_fetched_wm s)), wm).

Definition st_fetch_head_watermark (s : ISBWatermarkState) (from_vertex : option string) (part : Z)
    : option DateTime :=
  fetch_head_watermark (fetcher s) from_vertex part.

Definition st_fetch_head_idle_wmb (s : ISBWatermarkState) (part : Z)
    : option (ISBWatermarkState * option WMB) :=
  let? (f', wmb) := fetch_head_idle_wmb (fetcher s) part in
  match wmb with
  | None => Some (with_fetcher s f', None)
  | Some w =>
      let? wm := from_timestamp_millis (watermark w) in
      Some (with_latest (with_fetcher s f') (Z.max (latest_fetched_wm s) wm), Some w)
  end.

Definition wm_oldest_end (w : WindowManager) : option DateTime :=
  match w with
  | Aligned m => AlignedWindow.end_time <$> oldest_window m
  | Unaligned m => u_oldest_window_end_time m
  end.

(** The tracker's query does not fail. *)
Definition get_lowest_watermark (s : ISBWatermarkState) : option DateTime :=
  from_timestamp_millis (timestamp_millis (lowest_watermark (tracker s))).

Definition compute_min_watermark (s : ISBWatermarkState) : option DateTime :=
  match window_manager s ≫= wm_oldest_end with
  | Some et =>
      let? wm := from_timestamp_millis (timestamp_millis et - 1) in
      Some (Z.min (latest_fetched_wm s) wm)
  | None => get_lowest_watermark s
  end.

Definition st_publish_watermark (e : PublishEnv) (s : ISBWatermarkState) (stream : Stream) (off : IntOffset)
    : option (ISBWatermarkState * list Effect) :=
  let? min_wm := compute_min_watermark s in
  let? (pub', w) := publish_watermark (pe_check e) (pe_mark e) (publisher s) stream (io_offset off)
                      (timestamp_millis min_wm) false in
  let? d' := reset_idle (pe_now e) (idle_manager s) stream in
  Some (with_published s pub' d', put_effects w).

(** The loop over the partitions read from; [inl tt] is the early return of -1. *)
Fixpoint idle_partitions (f : ISBWatermarkFetcher) (idle_offsets : gmap Z (option Z)) (min_wm : Z)
    (parts : list Z) : option (ISBWatermarkFetcher * (unit + Z)) :=
  match parts with
  | [] => Some (f, inr min_wm)
  | part :: parts' =>
      match idle_offsets !! part with
      | Some (Some idle_offset) =>
          let? (f', wmb) := fetch_head_idle_wmb f part in
          match wmb with
          | None => Some (f', inl tt)
          | Some w =>
              if negb (offset w =? idle_offset) then Some (f', inl tt)
              else idle_partitions f' idle_offsets (if watermark w <? min_wm then watermark w else min_wm) parts'
          end
      | _ => Some (f, inl tt)
      end
  end.

Definition get_idle_watermark (s : ISBWatermarkState) : option (ISBWatermarkState * DateTime) :=
  let? (f', r) := idle_partitions (fetcher s) (get_idle_offset (tracker s)) i64_max (from_partitions s) in
  match r with
  | inl _ => Some (with_fetcher s f', minus_one)
  | inr min_wm =>
      let? wm := from_timestamp_millis (if min_wm =? i64_max then -1 else min_wm) in
      Some (with_fetcher s f', wm)
  end.

(** What the writer and the clocks answer in one iteration of the publish loop. *)
Record IdleEnv := mkIdleEnv {
  ie_written : Result Offset;
  ie_publish : PublishEnv
}.

Definition publish_idle_stream (e : IdleEnv) (wm : Z) (s : ISBWatermarkState) (stream : Stream)
    : option (ISBWatermarkState * list Effect) :=
  let? (r, ws) := fetch_idle_offset (idle_manager s) stream (ie_written e) in
  match r with
  | Err _ => Some (s, EWrite <$> ws)
  | Ok off =>
      let? (pub', w) := publish_watermark (pe_check (ie_publish e)) (pe_mark (ie_publish e)) (publisher s)
                          stream off wm true in
      let? d' := update_idle_metadata (pe_now (ie_publish e)) (idle_manager s) stream off in
      Some (with_published s pub' d', (EWrite <$> ws) ++ put_effects w)
  end.

Fixpoint publish_idle_streams (env : nat -> IdleEnv) (wm : Z) (s : ISBWatermarkState) (streams : list Stream)
    : option (ISBWatermarkState * list Effect) :=
  match streams with
  | [] => Some (s, [])
  | stream :: streams' =>
      let? (s1, es1) := publish_idle_stream (env 0%nat) wm s stream in
      let? (s2, es2) := publish_idle_streams (fun i => env (S i)) wm s1 streams' in
      Some (s2, es1 ++ es2)
  end.

(** The watermark of an idle publish, [None] inside when there is none to publish. *)
Definition idle_publish_watermark (s : ISBWatermarkState) : option (ISBWatermarkState * option DateTime) :=
  let? min_wm := compute_min_watermark s in
  if timestamp_millis min_wm =? -1 then
    let? (s', idle_head_wmb) := get_idle_watermark s in
    Some (s', if timestamp_millis idle_head_wmb =? -1 then None else Some idle_head_wmb)
  else Some (s, Some min_wm).

Definition st_publish_idle_watermark (now : Readings) (env : nat -> IdleEnv) (s : ISBWatermarkState)
    : option (ISBWatermarkState * list Effect) :=
  let? (s', owm) := idle_publish_watermark s in
  match owm with
  | None => Some (s', [])
  | Some wm =>
      publish_idle_streams env (timestamp_millis wm) s'
        (fetch_streams_needing_publish now (idle_manager s'))
  end.

(** ** The handle *)

Definition handle_fetch_watermark (s : ISBWatermarkState) (off : Offset)
    : option (ISBWatermarkState * DateTime) :=
  match off with
  | OInt o => st_fetch_watermark s o
  | OString _ => Some (s, minus_one)
  end.

Definition handle_publish_watermark (e : PublishEnv) (s : ISBWatermarkState) (stream : Stream) (off : Offset)
    : option (ISBWatermarkState * list Effect) :=
  match off with
  | OInt o => st_publish_watermark e s stream o
  | OString _ => Some (s, [])
  end.

(** Calls of the handle, and what the other components do in between. *)
Inductive WmOp :=
  | HFetch (off : Offset)
  | HHead (from_vertex : option string) (part : Z)
  | HHeadIdle (part : Z)
  | HPublish (e : PublishEnv) (stream : Stream) (off : Offset)
  | HPublishIdle (now : Readings) (env : nat -> IdleEnv)
  | HTracker (t : Tracker)
  | HWindows (w : option WindowManager)
  | HProcessors (ms : gmap string (gmap string Processor)).

Definition wm_exec (s : ISBWatermarkState) (o : WmOp) : option (ISBWatermarkState * list Effect) :=
  match o with
  | HFetch off => let? (s', _) := handle_fetch_watermark s off in Some (s', [])
  | HHead v part => let? _ := st_fetch_head_watermark s v part in Some (s, [])
  | HHeadIdle part => let? (s', _) := st_fetch_head_idle_wmb s part in Some (s', [])
  | HPublish e stream off => handle_publish_watermark e s stream off
  | HPublishIdle now env => st_publish_idle_watermark now env s
  | HTracker t => Some (mkWmState (fetcher s) (publisher s) (idle_manager s) (window_manager s)
                          (latest_fetched_wm s) t (from_partitions s), [])
  | HWindows w => Some (mkWmState (fetcher s) (publisher s) (idle_manager s) w
                          (latest_fetched_wm s) (tracker s) (from_partitions s), [])
  | HProcessors ms => Some (with_fetcher s (mkFetcher ms (last_processed_wm (fetcher s))), [])
  end.

Fixpoint wm_run (s : ISBWatermarkState) (os : list WmOp) : option (ISBWatermarkState * list Effect) :=
  match os with
  | [] => Some (s, [])
  | o :: os' =>
      let? (s1, es1) := wm_exec s o in
      let? (s2, es2) := wm_run s1 os' in
      Some (s2, es1 ++ es2)
  end.
End State.

(** * What the handle may publish *)

(** The ends of the windows a manager holds; for the accumulator, the pending event times. *)
Definition live_end (w : WindowManager) (et : DateTime) : Prop :=
  match w with
  | Aligned (Fixed m) =>
      exists x, (x ∈ f_closed_windows m ++ f_active_windows m) /\ et = AlignedWindow.end_time x
  | Aligned (Sliding m) =>
      exists x, (x ∈ s_closed_windows m ++ s_active_windows m) /\ et = AlignedWindow.end_time x
  | Unaligned (Session m) =>
      exists x, et = end_time x /\
        (x ∈ closed_windows m \/ exists k l, active_windows m !! k = Some l /\ x ∈ l)
  | Unaligned (Accumulator m) =>
      exists k st, (acc_active m !! k = Some st \/ acc_closed m !! k = Some st) /\ et ∈ message_timestamps st
  end.

(** The windows are kept by end, the closed ones before the active ones. *)
Definition windows_ordered (w : WindowManager) : Prop :=
  match w with
  | Aligned (Fixed m) =>
      StronglySorted (fun x y => AlignedWindow.end_time x <= AlignedWindow.end_time y)
        (f_closed_windows m ++ f_active_windows m)
  | Aligned (Sliding m) =>
      StronglySorted (fun x y => AlignedWindow.end_time x <= AlignedWindow.end_time y)
        (s_closed_windows m ++ s_active_windows m)
  | Unaligned (Session m) =>
      bt_sorted end_time (closed_windows m) /\
      (forall k l, active_windows m !! k = Some l -> bt_sorted end_time l /\
         forall x y, x ∈ closed_windows m -> y ∈ l -> end_time x <= end_time y)
  | Unaligned (Accumulator m) => acc_wf m
  end.

Lemma sorted_head_le {A} (f : A -> Z) (l : list A) x :
  StronglySorted (fun a b => f a <= f b) l -> x ∈ l -> exists h, head l = Some h /\ f h <= f x.
Proof.
  destruct l as [|h l]; [by intros _ ?%elem_of_nil|]. intros [_ Hh]%StronglySorted_inv Hx.
  exists h. split; [done|]. apply elem_of_cons in Hx as [->|Hx]; [done|].
  rewrite Forall_forall in Hh. by apply Hh.
Qed.

Lemma bt_sorted_head_le {A} (f : A -> Z) (l : list A) x :
  bt_sorted f l -> x ∈ l -> exists h, head l = Some h /\ f h <= f x.
Proof.
  destruct l as [|h l]; [by intros _ ?%elem_of_nil|]. intros Hs Hx. exists h.
  split; [done|]. by apply (bt_head_min f h l).
Qed.

Lemma list_min_below (l : list Z) y x : y ∈ l -> y <= x -> exists m, list_min l = Some m /\ m <= x.
Proof. intros Hy Hle. destruct (list_min_is_Some l y Hy) as (m & ? & ?). exists m. split; [done|lia]. Qed.

Section Oldest.
Context `{HashOrder}.

(** The oldest end a manager reports is not after any live end. *)
Lemma oldest_end_least w et :
  windows_ordered w -> live_end w et -> exists o, wm_oldest_end w = Some o /\ o <= et.
Proof.
  destruct w as [[m|m]|[m|m]]; simpl.
  - intros Hs (x & Hx & ->). destruct (sorted_head_le _ _ _ Hs Hx) as (h & Hh & Hle).
    exists (AlignedWindow.end_time h). split; [|done]. unfold fixed_oldest_window.
    destruct (f_closed_windows m); simpl in *; [by rewrite Hh|by injection Hh as ->].
  - intros Hs (x & Hx & ->). destruct (sorted_head_le _ _ _ Hs Hx) as (h & Hh & Hle).
    exists (AlignedWindow.end_time h). split; [|done]. unfold sliding_oldest_window.
    destruct (s_closed_windows m); simpl in *; [by rewrite Hh|by injection Hh as ->].
  - intros Hwf (k & st & Hst & Het).
    assert (Hok : state_ok st) by (destruct Hwf, Hst; eauto).
    destruct (bt_sorted_head_le _ _ _ (proj1 Hok) Het) as (h & Hh & Hle).
    apply (list_min_below _ h); [|done]. apply list_elem_of_omap. exists st. split.
    + apply elem_of_app. rewrite !elem_of_hm_values. naive_solver.
    + unfold oldest_timestamp. by destruct (message_timestamps st).
  - intros [Hc Ha] (x & -> & Hx). unfold oldest_window_end_time.
    destruct (closed_windows m) as [|c cs] eqn:Ec; simpl.
    + destruct Hx as [?%elem_of_nil|(k & l & Hl & Hx)]; [done|].
      destruct (bt_sorted_head_le _ _ _ (proj1 (Ha k l Hl)) Hx) as (h & Hh & Hle).
      apply (list_min_below _ (end_time h)); [|done]. apply list_elem_of_omap. exists l.
      split; [apply elem_of_hm_values; eauto|by rewrite Hh].
    + exists (end_time c). split; [done|]. destruct Hx as [Hx|(k & l & Hl & Hx)].
      * by apply (bt_head_min end_time c cs).
      * apply (proj2 (Ha k l Hl)); [by left|done].
Qed.
End Oldest.

Section Safety.
Context `{HashOrder} `{Chrono} `{WmbCodec}.

Lemma minus_one_millis : timestamp_millis minus_one = -1.
Proof.
  unfold minus_one. rewrite from_timestamp_millis_i64 by (unfold i64_min, i64_max, ns_per_ms; lia).
  simpl. rewrite timestamp_millis_spec. done.
Qed.

(** The minimum a publish starts from is before the end of every live window and not after the
    latest watermark fetched; without a live window it is the tracker's lowest watermark. *)
Lemma compute_min_watermark_le s m :
  compute_min_watermark s = Some m ->
  (forall w et, window_manager s = Some w -> windows_ordered w -> live_end w et ->
     timestamp_millis m < timestamp_millis et /\ m <= latest_fetched_wm s) /\
  ((window_manager s = None \/ exists w, window_manager s = Some w /\ wm_oldest_end w = None) ->
     timestamp_millis m = timestamp_millis (lowest_watermark (tracker s))).
Proof.
  unfold compute_min_watermark. intros Hm. split.
  - intros w et Hw Hord Hlive. destruct (oldest_end_least w et Hord Hlive) as (o & Ho & Hle).
    rewrite Hw in Hm. simpl in Hm. rewrite Ho in Hm.
    destruct (from_timestamp_millis _) as [t|] eqn:Et; [|done]. injection Hm as <-.
    apply timestamp_from_millis in Et. pose proof (timestamp_millis_mono _ _ Hle).
    pose proof (timestamp_millis_mono (Z.min (latest_fetched_wm s) t) t). lia.
  - intros Hnone. assert (window_manager s ≫= wm_oldest_end = None) as E
      by (destruct Hnone as [->|(w & -> & ?)]; done).
    rewrite E in Hm. by apply timestamp_from_millis.
Qed.

Lemma idle_heads_kept part f cur es f' r :
  fetch_head_idle_edges part f cur es = Some (f', r) -> processor_managers f' = processor_managers f.
Proof.
  revert f cur. induction es as [|[e ps] es IH]; intros f cur; simpl; [by intros [= <- <-]|].
  destruct (edge_idle _ _ _) as [?|[w|]]; [by intros [= <- <-]| |by apply IH].
  destruct (set_last _ _ _ _); [|done]. by intros ->%IH.
Qed.

(** Every active processor of every edge idles on [part], at a watermark of [wm] or more. *)
Definition all_idle (ms : gmap string (gmap string Processor)) (part wm : Z) : Prop :=
  forall edge ps n p, ms !! edge = Some ps -> ps !! n = Some p -> status p = Active ->
    exists t h, timelines p !! part = Some t /\ get_head_wmb t = Some h /\ idle h = true /\ wm <= watermark h.

Lemma idle_head_all f part f' w :
  fetch_head_idle_wmb f part = Some (f', Some w) -> all_idle (processor_managers f) part (watermark w).
Proof.
  intros (_ & Hall & _)%fetch_head_idle_edges_Some edge ps n p He Hp Ha.
  destruct (Hall edge ps p) as (h & Hh & Hi & Hle).
  { by apply elem_of_hm_iter. }
  { apply list_elem_of_filter. split; [unfold is_active; by rewrite bool_decide_true|].
    apply elem_of_hm_values; eauto. }
  destruct (timelines p !! part) as [t|] eqn:Et; [|done]. exists t, h. by split_and!.
Qed.

Lemma all_idle_le ms part wm wm' : wm' <= wm -> all_idle ms part wm -> all_idle ms part wm'.
Proof.
  intros Hle Ha edge ps n p He Hp Hs. destruct (Ha edge ps n p He Hp Hs) as (t & h & ? & ? & ? & ?).
  exists t, h. split_and!; try done. lia.
Qed.

Lemma idle_partitions_inr f idles m parts f' r :
  idle_partitions f idles m parts = Some (f', r) ->
  processor_managers f' = processor_managers f /\
  forall m', r = inr m' -> m' <= m /\ forall part, part ∈ parts ->
    all_idle (processor_managers f) part m' /\ exists o, idles !! part = Some (Some o).
Proof.
  revert f m. induction parts as [|part parts IH]; intros f m; simpl.
  { intros [= <- <-]. split; [done|]. intros m' [= <-]. split; [done|]. by intros ? ?%elem_of_nil. }
  destruct (idles !! part) as [[o|]|] eqn:Eo; [|by intros [= <- <-]..].
  destruct (fetch_head_idle_wmb f part) as [[f1 [w|]]|] eqn:Ef; [| |done].
  2:{ intros [= <- <-]. by apply idle_heads_kept in Ef. }
  pose proof (idle_heads_kept _ _ _ _ _ _ Ef) as Hk. pose proof (idle_head_all _ _ _ _ Ef) as Hall.
  destruct (negb (offset w =? o)); [by intros [= <- <-]|]. intros [Hk' Hr]%IH. rewrite Hk in *.
  split; [done|]. intros m' [Hle Hin]%Hr. split; [destruct (Z.ltb_spec (watermark w) m); lia|].
  intros p [->|Hp]%elem_of_cons; [|auto]. split; [|eauto]. eapply all_idle_le; [|done].
  destruct (Z.ltb_spec (watermark w) m); lia.
Qed.

(** The watermark of an idle publish: the minimum, or, when there is none, a watermark at
    which every partition read from idles. *)
Definition idle_justified (s : ISBWatermarkState) (ms : Z) : Prop :=
  ms <> -1 /\ exists m, compute_min_watermark s = Some m /\
    (timestamp_millis m = ms \/
     timestamp_millis m = -1 /\ forall part, part ∈ from_partitions s ->
       all_idle (processor_managers (fetcher s)) part ms /\
       exists o, idle_offset_map (tracker s) !! part = Some (Some o)).

Lemma idle_publish_watermark_Some s s' owm :
  idle_publish_watermark s = Some (s', owm) ->
  publisher s' = publisher s /\ idle_manager s' = idle_manager s /\
  forall wm, owm = Some wm -> idle_justified s (timestamp_millis wm).
Proof.
  unfold idle_publish_watermark, idle_justified. destruct (compute_min_watermark s) as [m|]; [|done].
  destruct (Z.eqb_spec (timestamp_millis m) (-1)) as [Hm|Hm].
  2:{ intros [= <- <-]. split_and!; try done. intros wm [= <-]. eauto. }
  unfold get_idle_watermark.
  destruct (idle_partitions _ _ _ _) as [[f' r]|] eqn:Ei; [|done].
  apply idle_partitions_inr in Ei as [_ Hr]. destruct r as [u|m'].
  { intros [= <- <-]. split_and!; try done. by rewrite minus_one_millis. }
  destruct (from_timestamp_millis _) as [t|] eqn:Et; [|done]. intros [= <- <-]. split_and!; try done.
  intros wm Hwm. destruct (Z.eqb_spec (timestamp_millis t) (-1)); [done|]. injection Hwm as <-.
  split; [done|]. exists m. split; [done|]. right. split; [done|]. intros part Hp.
  destruct (Hr m' eq_refl) as [_ Hall]. apply timestamp_from_millis in Et. rewrite Et.
  destruct (Z.eqb_spec m' i64_max); [lia|]. by apply Hall.
Qed.
End Safety.

Section IdleLoop.
Context `{HashOrder} `{Chrono} `{WmbCodec}.

(** A put of the idle watermark [wm] on a stream, relative to the publisher before the loop. *)
Definition idle_put (pub : ISBWatermarkPublisher) (st : Stream) (wm : Z) (w : KvPut) : Prop :=
  exists ls off, state_of pub (stream_vertex st) (stream_partition st) = Some ls /\
    put_store w = stream_vertex st /\ put_key w = processor_name pub /\
    wmb_try_into_bytes (mkWMB true off (Z.max (lps_watermark ls) wm) (stream_partition st) None)
      = Some (put_value w).

(** What the publisher remembers grows only by [wm]. *)
Definition raised_by (wm : Z) (pub pub' : ISBWatermarkPublisher) : Prop :=
  processor_name pub' = processor_name pub /\
  forall v part ls', state_of pub' v part = Some ls' -> exists ls, state_of pub v part = Some ls /\
    (lps_watermark ls' = lps_watermark ls \/ lps_watermark ls' = Z.max (lps_watermark ls) wm).

#[local] Instance raised_by_preorder wm : PreOrder (raised_by wm).
Proof.
  split.
  - intros pub. split; [done|]. eauto.
  - intros p1 p2 p3 [N1 R1] [N2 R2]. split; [congruence|]. intros v part l3 (l2 & L2 & E2)%R2.
    destruct (R1 _ _ _ L2) as (l1 & L1 & E1). exists l1. split; [done|]. lia.
Qed.

Lemma idle_put_raised wm pub pub' st w : raised_by wm pub pub' -> idle_put pub' st wm w -> idle_put pub st wm w.
Proof.
  intros [N R] (ls' & off & Hs & Hst & Hk & Hv). destruct (R _ _ _ Hs) as (ls & Hl & E).
  exists ls, off. rewrite N in Hk. split_and!; try done.
  by replace (Z.max (lps_watermark ls) wm) with (Z.max (lps_watermark ls') wm) by lia.
Qed.

Lemma publish_idle_stream_Some e wm s st s' es :
  publish_idle_stream e wm s st = Some (s', es) ->
  raised_by wm (publisher s) (publisher s') /\ forall w, EPut w ∈ es -> idle_put (publisher s) st wm w.
Proof.
  unfold publish_idle_stream. destruct (fetch_idle_offset _ _ _) as [[[off|err] ws]|] eqn:Ef; [| |done].
  2:{ intros [= <- <-]. split; [done|]. intros w (n & [=] & _)%list_elem_of_fmap. }
  destruct (publish_watermark _ _ _ _ _ _ _) as [[pub' ow]|] eqn:Ep; [|done].
  destruct (update_idle_metadata _ _ _ _) as [d'|]; [|done]. intros [= <- <-]. simpl.
  apply publish_Some in Ep as (Hn & Hput & ls & ls' & Hs & Ho & Hw & Hst). split.
  - split; [done|]. intros v part l. rewrite Hst. case_decide as Hd; [|eauto].
    intros [= <-]. destruct Hd as [-> ->]. eauto.
  - intros w [(n & [=] & _)%list_elem_of_fmap|Hin]%elem_of_app.
    apply list_elem_of_fmap in Hin as (w' & [= <-] & Hin).
    destruct ow as [w'|]; [|by apply elem_of_nil in Hin]. apply list_elem_of_singleton in Hin as ->.
    destruct (Hput w' eq_refl) as (l & Hl & ? & ? & Hv). exists l, (Z.max (lps_offset l) off). by split_and!.
Qed.

Lemma publish_idle_streams_puts env wm s sts s' es w :
  publish_idle_streams env wm s sts = Some (s', es) -> EPut w ∈ es ->
  exists st, st ∈ sts /\ idle_put (publisher s) st wm w.
Proof.
  revert env s s' es. induction sts as [|st sts IH]; intros env s s' es; simpl.
  { intros [= _ <-] ?%elem_of_nil. done. }
  destruct (publish_idle_stream _ _ _ _) as [[s1 es1]|] eqn:E1; [|done].
  apply publish_idle_stream_Some in E1 as [Hr Hp].
  destruct (publish_idle_streams _ _ s1 _) as [[s2 es2]|] eqn:E2; [|done].
  intros [= _ <-] [Hin|Hin]%elem_of_app.
  - exists st. split; [by left|by apply Hp].
  - destruct (IH _ _ _ _ E2 Hin) as (st' & ? & ?). exists st'. split; [by right|by eapply idle_put_raised].
Qed.
End IdleLoop.

(** * One control message per idle period *)

Section Period.
Context `{HashOrder} `{Chrono} `{WmbCodec}.

(** Every idle state sits at the partition of its own stream, and stream names are unique. *)
Definition detector_wf (d : ISBIdleDetector) : Prop :=
  (forall v states i x, last_published_wm_state d !! v = Some states -> states !! i = Some x ->
     stream_vertex (is_stream x) = v /\ stream_partition (is_stream x) = Z.of_nat i) /\
  (forall v p v' p' x y, 0 <= p -> 0 <= p' -> idle_state_of d v p = Some x -> idle_state_of d v' p' = Some y ->
     stream_name (is_stream x) = stream_name (is_stream y) -> v = v' /\ p = p').

(** A change of one state that keeps its stream. *)
Lemma update_idle_state_wf d st f d' :
  (forall x, is_stream (f x) = is_stream x) -> 0 <= stream_partition st ->
  update_idle_state d st f = Some d' -> detector_wf d -> detector_wf d'.
Proof.
  intros Hf Hp Hu [Hat Huniq]. pose proof (update_idle_state_Some _ _ _ _ Hu Hp) as (s & Hs & _ & _ & Hst).
  split.
  - intros v states i x Hv Hx. unfold update_idle_state in Hu.
    destruct (last_published_wm_state d !! _) as [sts|] eqn:Ev; [|done].
    destruct (sts !! _) as [y|] eqn:Ey; [|done]. injection Hu as <-. simpl in Hv.
    apply lookup_insert_Some in Hv as [[<- <-]|[? Hv]]; [|by eapply Hat].
    apply list_lookup_insert_Some in Hx as [(<- & <- & _)|[? Hx]]; [|by eapply Hat].
    rewrite Hf. by eapply Hat.
  - assert (Hback : forall v p x, 0 <= p -> idle_state_of d' v p = Some x ->
      exists x0, idle_state_of d v p = Some x0 /\ is_stream x0 = is_stream x).
    { intros v p x Hpp. rewrite Hst by done. case_decide as Hd; [|eauto].
      destruct Hd as [-> ->]. intros [= <-]. eauto. }
    intros v p v' p' x y Hp1 Hp2 Hx Hy Hn.
    destruct (Hback _ _ _ Hp1 Hx) as (x0 & Hx0 & Ex), (Hback _ _ _ Hp2 Hy) as (y0 & Hy0 & Ey).
    eapply Huniq; [exact Hp1|exact Hp2|done..|congruence].
Qed.

Lemma due_stream_partition now d st :
  detector_wf d -> st ∈ fetch_streams_needing_publish now d -> 0 <= stream_partition st.
Proof.
  intros [Hat _] ([v states] & Hst & Hv)%list_elem_of_bind.
  apply elem_of_hm_iter in Hv. apply list_elem_of_fmap in Hst as (x & -> & Hx).
  apply list_elem_of_join in Hx as (l & Hx & Hl).
  apply elem_of_lookup_imap in Hl as (i & y & -> & Hy). simpl in *.
  case_match; [|by apply elem_of_nil in Hx]. apply list_elem_of_singleton in Hx as ->.
  destruct (Hat v states i y Hv Hy) as [_ ->]. lia.
Qed.

(** The idle period of the stream named [name] on partition [part] of [v]: its control message
    is at offset [o], and what is published for it is at offset [O]. *)
Definition in_period (v : string) (part : Z) (name : string) (o O : Z) (s : ISBWatermarkState) : Prop :=
  detector_wf (idle_manager s) /\
  (exists x, idle_state_of (idle_manager s) v part = Some x /\
     stream_name (is_stream x) = name /\ wmb_msg_offset x = Some o) /\
  exists ls, state_of (publisher s) v part = Some ls /\ Z.max (lps_offset ls) o = O.

(** No control message for the stream, and only idle WMBs at [O] on it. *)
Definition period_effect (v : string) (part : Z) (name : string) (O : Z) (e : Effect) : Prop :=
  match e with
  | EWrite n => n <> name
  | EPut w => exists b, wmb_try_into_bytes b = Some (put_value w) /\
      (put_store w = v -> partition b = part -> idle b = true /\ offset b = O)
  end.

Lemma put_of_elsewhere pub st off wm idle w v part name O :
  ~ (v = stream_vertex st /\ part = stream_partition st) -> put_of pub st off wm idle None w ->
  period_effect v part name O (EPut w).
Proof.
  intros Hne (ls & _ & Hs & _ & Hb). eexists. split; [exact Hb|]. simpl. naive_solver.
Qed.

Lemma put_effects_Forall (P : Effect -> Prop) ow :
  (forall w, ow = Some w -> P (EPut w)) -> Forall P (put_effects ow).
Proof. intros Hp. unfold put_effects. destruct ow; simpl; constructor; auto. Qed.

(** A publish on another stream, with the state of its idle detector replaced. *)
Lemma publish_elsewhere tc tm s st off wm idle pub' ow f d' v part name o O :
  0 <= part -> 0 <= stream_partition st -> (forall x, is_stream (f x) = is_stream x) ->
  ~ (v = stream_vertex st /\ part = stream_partition st) ->
  publish_watermark tc tm (publisher s) st off wm idle = Some (pub', ow) ->
  update_idle_state (idle_manager s) st f = Some d' ->
  in_period v part name o O s ->
  in_period v part name o O (with_published s pub' d') /\
  Forall (period_effect v part name O) (put_effects ow).
Proof.
  intros Hp Hst Hf Hne Hpub Hupd (Hwf & (x & Hx & Hn & Hox) & ls & Hls & HO).
  apply publish_Some in Hpub as (_ & Hput & l & l' & _ & _ & _ & Hpst).
  split; [split_and!|].
  - by eapply update_idle_state_wf.
  - exists x. simpl. destruct (update_idle_state_Some _ _ _ _ Hupd Hst) as (y & _ & _ & _ & Hd).
    by rewrite Hd, decide_False.
  - exists ls. simpl. by rewrite Hpst, decide_False.
  - apply put_effects_Forall. intros w Hw. eapply put_of_elsewhere; [done|by apply Hput].
Qed.

Lemma publish_idle_stream_period e wm s st s' es v part name o O :
  0 <= part -> 0 <= stream_partition st ->
  publish_idle_stream e wm s st = Some (s', es) ->
  in_period v part name o O s -> in_period v part name o O s' /\ Forall (period_effect v part name O) es.
Proof.
  intros Hp Hst Hrun Hin. unfold publish_idle_stream in Hrun.
  destruct (fetch_idle_offset _ _ _) as [[r ws]|] eqn:Ef; [|done].
  pose proof Hin as ([Hat Huniq] & (x & Hx & Hn & Hox) & ls & Hls & HO).
  assert (Hws : Forall (period_effect v part name O) (EWrite <$> ws)).
  { unfold fetch_idle_offset in Ef. destruct (idle_state_of _ _ _) as [y|] eqn:Ey; [|done].
    destruct (wmb_msg_offset y) eqn:Eo; [injection Ef as <- <-; constructor|].
    case_decide; injection Ef as <- <-; repeat constructor. simpl. intros Heq.
    destruct (Huniq v part (stream_vertex st) (stream_partition st) x y) as [-> ->]; congruence. }
  destruct r as [off|err]; [|by injection Hrun as <- <-].
  destruct (publish_watermark _ _ _ _ _ _ _) as [[pub' ow]|] eqn:Ep; [|done].
  destruct (update_idle_metadata _ _ _ _) as [d'|] eqn:Eu; [|done]. injection Hrun as <- <-.
  destruct (decide (v = stream_vertex st /\ part = stream_partition st)) as [[-> ->]|Hne].
  - unfold fetch_idle_offset in Ef. rewrite Hx, Hox in Ef. injection Ef as <- <-.
    destruct (update_idle_state_Some _ _ _ _ Eu Hst) as (y & Hy & _ & _ & Hd).
    apply publish_Some in Ep as (_ & Hput & l & l' & Hl & Ho & _ & Hpst).
    split; [split_and!|].
    + by eapply update_idle_state_wf; [..|done|by split].
    + simpl. rewrite Hd, decide_True by done. eexists. split_and!; try done. simpl. congruence.
    + simpl. rewrite Hpst, decide_True by done. eexists. split; [done|]. rewrite Ho. simplify_eq. lia.
    + apply put_effects_Forall. intros w Hw. destruct (Hput w Hw) as (l1 & Hl1 & _ & _ & Hb).
      eexists. split; [exact Hb|]. simpl. intros _ _. split; [done|]. by simplify_eq.
  - destruct (publish_elsewhere _ _ _ _ _ _ _ _ _
      (fun x => mkIdleState (is_stream x) (pe_now (ie_publish e)) (Some off)) d' v part name o O
      Hp Hst (fun _ => eq_refl) Hne Ep Eu Hin) as [? ?]. split; [done|]. by apply Forall_app.
Qed.

Lemma publish_idle_streams_period env wm s sts s' es v part name o O :
  0 <= part -> Forall (fun st => 0 <= stream_partition st) sts ->
  publish_idle_streams env wm s sts = Some (s', es) ->
  in_period v part name o O s -> in_period v part name o O s' /\ Forall (period_effect v part name O) es.
Proof.
  intros Hp. revert env s s' es. induction sts as [|st sts IH]; intros env s s' es Hsts; simpl.
  { intros [= <- <-] Hin. by split. }
  apply Forall_cons in Hsts as [Hst Hsts].
  destruct (publish_idle_stream _ _ _ _) as [[s1 es1]|] eqn:E1; [|done].
  destruct (publish_idle_streams _ _ s1 _) as [[s2 es2]|] eqn:E2; [|done]. intros [= <- <-] Hin.
  destruct (publish_idle_stream_period _ _ _ _ _ _ _ _ _ _ _ Hp Hst E1 Hin) as [Hin1 He1].
  destruct (IH _ _ _ _ Hsts E2 Hin1) as [Hin2 He2]. split; [done|]. by apply Forall_app.
Qed.

(** The operations of an idle period: anything but a data publish on the stream. *)
Definition op_in_period (v : string) (part : Z) (o : WmOp) : Prop :=
  match o with
  | HPublish _ st _ => 0 <= stream_partition st /\ ~ (v = stream_vertex st /\ part = stream_partition st)
  | _ => True
  end.

Lemma wm_exec_period s op s' es v part name o O :
  0 <= part -> op_in_period v part op -> wm_exec s op = Some (s', es) ->
  in_period v part name o O s -> in_period v part name o O s' /\ Forall (period_effect v part name O) es.
Proof.
  intros Hp Hop Hex Hin. destruct op as [[off|off]|fv q|q|e st [off|off]|now env|t|w|ms]; simpl in *;
    try (injection Hex as <- <-; by split).
  - unfold st_fetch_watermark in Hex. destruct (fetch_watermark _ _ _) as [[f' wm]|]; [|done].
    injection Hex as <- <-. by split.
  - destruct (st_fetch_head_watermark _ _ _); [|done]. injection Hex as <- <-. by split.
  - unfold st_fetch_head_idle_wmb in Hex. destruct (fetch_head_idle_wmb _ _) as [[f' [w|]]|]; [| |done];
      [destruct (from_timestamp_millis _); [|done]|]; injection Hex as <- <-; by split.
  - unfold st_publish_watermark in Hex. destruct (compute_min_watermark s); [|done].
    destruct (publish_watermark _ _ _ _ _ _ _) as [[pub' ow]|] eqn:Ep; [|done].
    destruct (reset_idle _ _ _) as [d'|] eqn:Eu; [|done]. injection Hex as <- <-.
    by eapply (publish_elsewhere _ _ _ _ _ _ _ _ _ (fun x => mkIdleState (is_stream x) (pe_now e) None));
      [done|apply Hop|done|apply Hop|..].
  - unfold st_publish_idle_watermark in Hex.
    destruct (idle_publish_watermark s) as [[s1 owm]|] eqn:Ei; [|done].
    apply idle_publish_watermark_Some in Ei as (Epub & Eid & _).
    assert (in_period v part name o O s1) as Hin1 by (unfold in_period; by rewrite Epub, Eid).
    destruct owm as [wm|]; [|by injection Hex as <- <-].
    eapply publish_idle_streams_period; [done| |done|done].
    apply Forall_forall. intros st. apply due_stream_partition, Hin1.
Qed.

Lemma wm_run_period s os s' es v part name o O :
  0 <= part -> Forall (op_in_period v part) os -> wm_run s os = Some (s', es) ->
  in_period v part name o O s -> in_period v part name o O s' /\ Forall (period_effect v part name O) es.
Proof.
  intros Hp. revert s es. induction os as [|op os IH]; intros s es Hos; simpl.
  { intros [= <- <-] Hin. by split. }
  apply Forall_cons in Hos as [Hop Hos].
  destruct (wm_exec s op) as [[s1 es1]|] eqn:E1; [|done].
  destruct (wm_run s1 os) as [[s2 es2]|] eqn:E2; [|done]. intros [= <- <-] Hin.
  destruct (wm_exec_period _ _ _ _ _ _ _ _ _ Hp Hop E1 Hin) as [Hin1 He1].
  destruct (IH _ _ Hos E2 Hin1) as [Hin2 He2]. split; [done|]. by apply Forall_app.
Qed.
End Period.

(** * Properties *)

(** C23: a data publish never overtakes the work in progress. It writes the larger of what was
    published before on the stream, since watermarks do not go back, and the minimum of the vertex.
    With windows, kept in the order of their ends, this minimum is before the end of every live one
    and not after the latest watermark fetched; without windows, and with each partition's
    watermarks growing with its offsets, it is not after the watermark of any message in flight. So
    what is written keeps to such a bound whenever what was published before does. The stream counts
    as active again. *)
Theorem publish_safe (O : HashOrder) (C : Chrono) (K : WmbCodec) (kind : Z -> bool) (e : PublishEnv)
    (s s' : ISBWatermarkState) (st : Stream) (off : IntOffset) (es : list Effect) (a : Inflight) :
  0 <= stream_partition st ->
  trefines kind (tracker s) a -> watermarks_monotone a ->
  handle_publish_watermark e s st (OInt off) = Some (s', es) ->
  exists m before, compute_min_watermark s = Some m /\
    state_of (publisher s) (stream_vertex st) (stream_partition st) = Some before /\
    let written := Z.max (lps_watermark before) (timestamp_millis m) in
    (forall w, EPut w ∈ es -> put_store w = stream_vertex st /\ put_key w = processor_name (publisher s) /\
       wmb_try_into_bytes (mkWMB false (Z.max (lps_offset before) (io_offset off)) written (stream_partition st) None) =
         Some (put_value w)) /\
    (forall w et, window_manager s = Some w -> windows_ordered w -> live_end w et ->
       timestamp_millis m < timestamp_millis et /\ m <= latest_fetched_wm s /\
       (lps_watermark before < timestamp_millis et -> written < timestamp_millis et)) /\
    (window_manager s = None -> forall o x wm, inflight a !! o = Some x -> te_watermark x = Some wm ->
       timestamp_millis m <= timestamp_millis wm /\
       (lps_watermark before <= timestamp_millis wm -> written <= timestamp_millis wm)) /\
    wmb_msg_offset <$> idle_state_of (idle_manager s') (stream_vertex st) (stream_partition st) = Some None.
Proof.
  intros Hp Hr Hmono. simpl. unfold st_publish_watermark.
  destruct (compute_min_watermark s) as [m|] eqn:Em; [|done].
  destruct (publish_watermark _ _ _ _ _ _ _) as [[pub' ow]|] eqn:Ep; [|done].
  destruct (reset_idle _ _ _) as [d'|] eqn:Eu; [|done]. intros [= <- <-].
  destruct (compute_min_watermark_le s m Em) as [Hwin Htr].
  apply publish_Some in Ep as (_ & Hput & before & _ & Hst & _). exists m, before. split_and!; try done.
  - intros w Hin. apply list_elem_of_fmap in Hin as (w' & [= <-] & Hin).
    destruct ow as [w'|]; [|by apply elem_of_nil in Hin]. apply list_elem_of_singleton in Hin as ->.
    destruct (Hput w' eq_refl) as (ls & Hls & Hs1 & Hs2 & Hs3). rewrite Hst in Hls. injection Hls as <-. done.
  - intros w et Hw Ho Hl. destruct (Hwin w et Hw Ho Hl) as [Hlt Hle]. split_and!; [done..|]. lia.
  - intros Hnone o x wm Hx Hwm. enough (timestamp_millis m <= timestamp_millis wm) by (split; [done|]; lia).
    rewrite Htr by auto. apply timestamp_millis_mono. unfold lowest_watermark.
    destruct (first_watermark_least kind O _ _ _ _ _ Hr Hmono Hx Hwm) as (w0 & Hin & Hle).
    destruct (list_min_below _ _ _ Hin Hle) as (l & -> & ?). done.
  - destruct (update_idle_state_Some _ _ _ _ Eu Hp) as (x & _ & _ & _ & Hd). simpl.
    by rewrite Hd, decide_True.
Qed.

(** An idle publish only moves streams that were silent for longer than the timeout, writes
    only idle WMBs, and the watermark behind them is justified: it is not -1, and it is the
    minimum of the vertex or, when nothing is in flight and no window is open, a watermark that
    every active processor of every incoming edge has reached, idling, on every partition the
    vertex reads from, each of them marked idle by the reader. *)
Theorem idle_publish_sound (O : HashOrder) (C : Chrono) (K : WmbCodec) (now : Readings)
    (env : nat -> IdleEnv) (s s' : ISBWatermarkState) (es : list Effect) (w : KvPut) :
  st_publish_idle_watermark now env s = Some (s', es) -> EPut w ∈ es ->
  exists st ms, st ∈ fetch_streams_needing_publish now (idle_manager s) /\
    idle_justified s ms /\ idle_put (publisher s) st ms w.
Proof.
  unfold st_publish_idle_watermark. destruct (idle_publish_watermark s) as [[s1 owm]|] eqn:Ei; [|done].
  apply idle_publish_watermark_Some in Ei as (Epub & Eid & Hj). destruct owm as [wm|].
  - intros Hrun Hin. destruct (publish_idle_streams_puts _ _ _ _ _ _ _ Hrun Hin) as (st & Hst & Hput).
    rewrite Epub in Hput. rewrite Eid in Hst. exists st, (timestamp_millis wm). split_and!; auto.
  - intros [= _ <-] ?%elem_of_nil. done.
Qed.

(** An idle stream costs one control message. Once a stream has its control message, no
    sequence of fetches, publishes on other streams, idle ticks and changes by other components
    writes another one for it, and every WMB written for it is an idle one at one and the same
    offset, until a data publish on the stream ends the period. *)
Theorem one_control_message (O : HashOrder) (C : Chrono) (K : WmbCodec) (s s' : ISBWatermarkState)
    (os : list WmOp) (es : list Effect) (v : string) (part : Z) (x : IdleState) (o : Z)
    (ls : LastPublishedState) :
  0 <= part -> detector_wf (idle_manager s) ->
  idle_state_of (idle_manager s) v part = Some x -> wmb_msg_offset x = Some o ->
  state_of (publisher s) v part = Some ls ->
  Forall (op_in_period v part) os -> wm_run s os = Some (s', es) ->
  (EWrite (stream_name (is_stream x)) ∉ es) /\
  (forall w, EPut w ∈ es -> exists b, wmb_try_into_bytes b = Some (put_value w) /\
     (put_store w = v -> partition b = part -> idle b = true /\ offset b = Z.max (lps_offset ls) o)) /\
  wmb_msg_offset <$> idle_state_of (idle_manager s') v part = Some (Some o).
Proof.
  intros Hp Hwf Hx Ho Hls Hos Hrun.
  destruct (wm_run_period s os s' es v part (stream_name (is_stream x)) o (Z.max (lps_offset ls) o) Hp Hos Hrun)
    as [(_ & (y & Hy & _ & Hoy) & _) Hall]; [split_and!; eauto|].
  rewrite Forall_forall in Hall. split_and!.
  - intros Hin. by apply (Hall _ Hin).
  - intros w Hin. apply (Hall _ Hin).
  - by rewrite Hy; simpl; rewrite Hoy.
Qed.

(** A vertex with one outgoing stream; its upstream idles at offset 8, watermark 200. *)
Definition example_stream : Stream := mkStream "isb-0" "sink" 0.

Definition example_vertex (w : option WindowManager) (latest : DateTime) : ISBWatermarkState :=
  mkWmState example_fetcher
    (publisher_new 0 "map-0" {["sink"]} [mkBucketConfig "sink" [0] None] false)
    (idle_detector_new (fun _ _ => 0) (100 * ns_per_ms) [mkToVertexConfig "sink" [example_stream]] {["isb-0"]})
    w latest (set_idle_offset (tracker_new false) 0 (Some 8)) [0].

Definition example_windows : WindowManager :=
  Aligned (Fixed (mkFixed (60 * ns_per_ms) [AlignedWindow.mkWindow 0 (60 * ns_per_ms)] [])).

Definition example_env : PublishEnv := mkPublishEnv 5 6 (500 * ns_per_ms).

Definition example_published : ISBWatermarkState * list (@Effect identity_codec) :=
  default (example_vertex None 0, [])
    (@handle_publish_watermark canonical_order chrono_utc identity_codec example_env
       (example_vertex (Some example_windows) (90 * ns_per_ms)) example_stream (OInt (mkIntOffset 11 0))).

Lemma publish_safe_witness :
  exists m, @compute_min_watermark canonical_order chrono_utc
      (example_vertex (Some example_windows) (90 * ns_per_ms)) = Some m /\
    @timestamp_millis chrono_utc m < 60.
Proof.
  destruct (publish_safe canonical_order chrono_utc identity_codec (fun _ => true) example_env
    (example_vertex (Some example_windows) (90 * ns_per_ms)) (fst example_published) example_stream
    (mkIntOffset 11 0) (snd example_published) (mkInflight ∅ 0 []))
    as (m & before & Hm & Hb & _ & Hw & _ & _).
  - simpl. lia.
  - apply (trefines_new (fun _ => true) false).
  - intros off off' e e' He. simpl in He. by apply lookup_empty_Some in He.
  - vm_compute. reflexivity.
  - exists m. split; [exact Hm|].
    destruct (Hw example_windows (60 * ns_per_ms)) as [Hlt _]; [reflexivity| | |exact Hlt].
    + simpl. repeat constructor.
    + exists (AlignedWindow.mkWindow 0 (60 * ns_per_ms)). split; [by left|reflexivity].
Defined.

(** The readings of an idle tick at 500 ms, with a writer that answers offset 17. *)
Definition example_tick : nat -> IdleEnv := fun _ => mkIdleEnv (Ok (OInt (mkIntOffset 17 0))) example_env.

Definition example_idled : ISBWatermarkState * list (@Effect identity_codec) :=
  default (example_vertex None 0, [])
    (@st_publish_idle_watermark canonical_order chrono_utc identity_codec (fun _ _ => 500 * ns_per_ms)
       example_tick (example_vertex None (-1 * ns_per_ms))).

Lemma idle_publish_sound_witness :
  exists w, snd example_idled = [EWrite "isb-0"; EPut w] /\
  exists st ms, @idle_justified canonical_order chrono_utc (example_vertex None (-1 * ns_per_ms)) ms /\
    @idle_put identity_codec (publisher (example_vertex None (-1 * ns_per_ms))) st ms w.
Proof.
  exists (@mkKvPut identity_codec "sink" "map-0" (wmb_to_proto (mkWMB true 17 200 0 None))).
  split; [vm_compute; reflexivity|].
  destruct (idle_publish_sound canonical_order chrono_utc identity_codec (fun _ _ => 500 * ns_per_ms)
    example_tick (example_vertex None (-1 * ns_per_ms)) (fst example_idled) (snd example_idled)
    (@mkKvPut identity_codec "sink" "map-0" (wmb_to_proto (mkWMB true 17 200 0 None))))
    as (st & ms & _ & Hj & Hp).
  - vm_compute. reflexivity.
  - vm_compute. right. left.
  - exists st, ms. split; [exact Hj|exact Hp].
Defined.

Lemma example_detector_wf (o : option Z) (now : DateTime) (ws : gset string) (t : Duration) :
  detector_wf (mkIdleDetector {["sink" := [mkIdleState example_stream now o]]} ws t).
Proof.
  assert (Hone : forall v states, ({["sink" := [mkIdleState example_stream now o]]} : gmap string (list IdleState)) !! v
    = Some states -> v = "sink" /\ states = [mkIdleState example_stream now o]).
  { intros v states [<- <-]%lookup_singleton_Some. done. }
  split.
  - intros v states i x Hv Hx. apply Hone in Hv as [-> ->]. destruct i; [|done]. injection Hx as <-. done.
  - intros v p v' p' x y Hp Hp' Hx Hy _. unfold idle_state_of in Hx, Hy. simpl in Hx, Hy.
    destruct (_ !! v) as [l|] eqn:Ev; [|done]. destruct (_ !! v') as [l'|] eqn:Ev'; [|done].
    apply Hone in Ev as [-> ->], Ev' as [-> ->]. simpl in *.
    destruct (Z.to_nat p) eqn:E1; [|done]. destruct (Z.to_nat p') eqn:E2; [|done]. split; [done|lia].
Qed.

(** The same vertex a second later: a second tick of the idle period. *)
Definition example_second : ISBWatermarkState * list (@Effect identity_codec) :=
  default (example_vertex None 0, [])
    (@wm_run canonical_order chrono_utc identity_codec (fst example_idled)
       [HHeadIdle 0; HPublishIdle (fun _ _ => 1500 * ns_per_ms) example_tick]).

Lemma one_control_message_witness :
  (EWrite "isb-0" ∉ snd example_second) /\
  snd example_second = [EPut (@mkKvPut identity_codec "sink" "map-0" (wmb_to_proto (mkWMB true 17 200 0 None)))].
Proof.
  split; [|vm_compute; reflexivity].
  apply (one_control_message canonical_order chrono_utc identity_codec (fst example_idled) (fst example_second)
    [HHeadIdle 0; HPublishIdle (fun _ _ => 1500 * ns_per_ms) example_tick] (snd example_second) "sink" 0
    (mkIdleState example_stream (500 * ns_per_ms) (Some 17)) 17 (mkLPS 17 200 6 None)).
  - lia.
  - assert (Hd : idle_manager (fst example_idled) =
      mkIdleDetector {["sink" := [mkIdleState example_stream (500 * ns_per_ms) (Some 17)]]} {["isb-0"]}
        (100 * ns_per_ms)) by (vm_compute; reflexivity).
    rewrite Hd. apply example_detector_wf.
  - vm_compute. reflexivity.
  - reflexivity.
  - vm_compute. reflexivity.
  - repeat constructor.
  - vm_compute. reflexivity.
Defined.
