(* ===== verification/SourceWatermark.v ===== *)
(** Watermarks of a source vertex (src/rust/numaflow-core/src/watermark/source.rs,
    source/source_wm_fetcher.rs, source/source_wm_publisher.rs and idle/source.rs).

    Every source partition is a processor of its own: it publishes to the source's bucket under
    its own name, and the source watermark is the minimum over the active processors of that
    bucket. The same partitions publish the source watermark to the buckets of the next
    vertices. Each call holds one lock, so it is one function on the state; clock readings and
    the answers of the ISB writers are arguments. *)
From S2P Require Import Prelude Clock BTreeMap Message Tracker Timeline Manager.
From S2P Require Import Publisher IsbIdle Fetcher IsbWatermark.
From stdpp Require Import pretty.
#[local] Open Scope Z_scope.

(** * Idle detection of source partitions *)

Record IdleConfig := mkIdleConfig {
  threshold : Duration;
  step_interval : Duration;
  increment_by : Duration;
  init_source_delay : option Duration
}.

Record PartitionIdleState := mkPartitionIdle {
  p_last_published : DateTime;
  updated_ts : DateTime
}.

Record SourceIdleDetector := mkSourceIdle {
  idle_config : IdleConfig;
  partition_states : gmap Z PartitionIdleState
}.

Section SourceIdle.
Context `{HashOrder} `{Chrono}.

Definition partition_idle_new (now : DateTime) : PartitionIdleState := mkPartitionIdle minus_one now.

Definition source_idle_new (c : IdleConfig) : SourceIdleDetector := mkSourceIdle c ∅.

Definition set_states (d : SourceIdleDetector) (m : gmap Z PartitionIdleState) : SourceIdleDetector :=
  mkSourceIdle (idle_config d) m.

Definition ensure_partition (now : DateTime) (d : SourceIdleDetector) (p : Z) : SourceIdleDetector :=
  match partition_states d !! p with
  | Some _ => d
  | None => set_states d (<[p := partition_idle_new now]> (partition_states d))
  end.

Definition has_step_interval_passed (now : DateTime) (d : SourceIdleDetector) (st : PartitionIdleState) : bool :=
  (timestamp_millis (p_last_published st) =? -1) ||
  (as_millis_i64 (step_interval (idle_config d)) <? timestamp_millis now - timestamp_millis (p_last_published st)).

(** [now p] is the reading taken for partition [p]. *)
Definition partitions_needing_publish (now : Z -> DateTime) (d : SourceIdleDetector) : list Z :=
  (filter (fun ps => has_step_interval_passed (now ps.1) d ps.2 = true) (hm_iter (partition_states d))).*1.

Definition is_partition_idle (now : DateTime) (d : SourceIdleDetector) (p : Z) : bool :=
  if threshold (idle_config d) =? 0 then false
  else match partition_states d !! p with
       | Some st => as_millis_i64 (threshold (idle_config d)) <=? timestamp_millis now - timestamp_millis (updated_ts st)
       | None => false
       end.

Definition mark_partition (now : DateTime) (d : SourceIdleDetector) (p : Z) : SourceIdleDetector :=
  set_states d (alter (fun st => mkPartitionIdle now (updated_ts st)) p (partition_states d)).

Definition get_partition_idling_from_init_wm (now : DateTime) (d : SourceIdleDetector) (p : Z)
    : SourceIdleDetector * Z :=
  match init_source_delay (idle_config d), partition_states d !! p with
  | Some delay, Some st =>
      if as_millis_i64 delay <=? timestamp_millis now - timestamp_millis (updated_ts st)
      then (mark_partition now d p, timestamp_millis now)
      else (d, -1)
  | _, _ => (d, -1)
  end.

Definition source_idle_reset (t_ensure now : DateTime) (d : SourceIdleDetector) (p : Z) : SourceIdleDetector :=
  let d' := ensure_partition t_ensure d p in
  set_states d' (alter (fun _ => mkPartitionIdle minus_one now) p (partition_states d')).

Definition initialize_partitions (now : Z -> DateTime) (d : SourceIdleDetector) (ps : list Z) : SourceIdleDetector :=
  foldl (fun d p => ensure_partition (now p) d p)
    (set_states d (filter (fun kv => kv.1 ∈ ps) (partition_states d))) ps.

(** The clock readings of [compute_watermark], in program order. *)
Record ComputeEnv := mkComputeEnv {
  ce_ensure : DateTime;
  ce_idle : DateTime;
  ce_now : DateTime;
  ce_done : DateTime
}.

Definition compute_watermark (e : ComputeEnv) (d : SourceIdleDetector) (p computed_wm min_inflight : Z)
    : SourceIdleDetector * Z :=
  let d := ensure_partition (ce_ensure e) d p in
  if negb (is_partition_idle (ce_idle e) d p) then (mark_partition (ce_done e) d p, computed_wm)
  else if computed_wm =? -1 then get_partition_idling_from_init_wm (ce_now e) d p
  else
    let idle_wm := wrap_i64 (computed_wm + as_millis_i64 (increment_by (idle_config d))) in
    let now := timestamp_millis (ce_now e) in
    let idle_wm := if now <? idle_wm then now else idle_wm in
    (mark_partition (ce_done e) d p, Z.min idle_wm min_inflight).
End SourceIdle.

(** * The fetcher *)

Section SourceFetcher.
Context `{HashOrder} `{Chrono}.

(** The loop over the processors: minimum head, active count, greatest processor count. *)
Definition source_fetch_step (acc : Z * Z * option Z) (p : Processor) : Z * Z * option Z :=
  let '(min_wm, active, expected) := acc in
  if negb (is_active p) then acc
  else
    match timelines p !! 0 with
    | None => (min_wm, active + 1, expected)
    | Some t =>
        (if get_head_watermark t <? min_wm then get_head_watermark t else min_wm, active + 1,
         match get_head_wmb t ≫= processor_count with
         | Some c => Some (match expected with Some x => Z.max x c | None => c end)
         | None => expected
         end)
    end.

(** The log of the summary is left out. *)
Definition fetch_source_watermark (ps : gmap string Processor) : option DateTime :=
  let '(min_wm, active, expected) := foldl source_fetch_step (i64_max, 0, None) (hm_values ps) in
  match expected with
  | Some n => if active <? n then from_timestamp_millis (-1)
              else from_timestamp_millis (if min_wm =? i64_max then -1 else min_wm)
  | None => from_timestamp_millis (if min_wm =? i64_max then -1 else min_wm)
  end.

Definition source_fetch_head_watermark (ps : gmap string Processor) (part : Z) : option DateTime :=
  let min_wm := foldl (fun m p =>
      if negb (is_active p) then m
      else match timelines p !! part with
           | Some t => if negb (get_head_watermark t =? -1) && (get_head_watermark t <? m)
                       then get_head_watermark t else m
           | None => m
           end) i64_max (hm_values ps) in
  from_timestamp_millis (if min_wm =? i64_max then -1 else min_wm).
End SourceFetcher.

(** * The publisher *)

Record SourceWatermarkPublisher := mkSourcePublisher {
  max_delay : Duration;
  source_config : BucketConfig;
  to_vertex_configs : list BucketConfig;
  publishers : gmap string ISBWatermarkPublisher;
  sp_processor_count : option Z;
  source_ot_stores : gset string;
  isb_ot_stores : gset string
}.

Definition with_publishers (sp : SourceWatermarkPublisher) (m : gmap string ISBWatermarkPublisher)
    : SourceWatermarkPublisher :=
  mkSourcePublisher (max_delay sp) (source_config sp) (to_vertex_configs sp) m (sp_processor_count sp)
    (source_ot_stores sp) (isb_ot_stores sp).

(** [create c] is what the ISB factory answers for the bucket of [c]. *)
Fixpoint create_ot_stores (create : BucketConfig -> Result unit) (cs : list BucketConfig) (m : gset string)
    : Result (gset string) :=
  match cs with
  | [] => Ok m
  | c :: cs' => try! _ := create c in create_ot_stores create cs' ({[bc_vertex c]} ∪ m)
  end.

Definition source_publisher_new (create : BucketConfig -> Result unit) (delay : Duration)
    (src : BucketConfig) (tos : list BucketConfig) : Result SourceWatermarkPublisher :=
  try! s := create_ot_stores create [src] ∅ in
  try! i := create_ot_stores create tos ∅ in
  Ok (mkSourcePublisher delay src tos ∅ None s i).

Definition set_processor_count (sp : SourceWatermarkPublisher) (n : Z) : SourceWatermarkPublisher :=
  mkSourcePublisher (max_delay sp) (source_config sp) (to_vertex_configs sp) (publishers sp) (Some n)
    (source_ot_stores sp) (isb_ot_stores sp).

Definition source_processor_name (sp : SourceWatermarkPublisher) (p : Z) : string :=
  "source-" +:+ bc_vertex (source_config sp) +:+ "-" +:+ pretty p.
Definition isb_processor_name (sp : SourceWatermarkPublisher) (p : Z) : string :=
  bc_vertex (source_config sp) +:+ "-" +:+ pretty p.

Definition new_source_publisher (t_new : Instant) (sp : SourceWatermarkPublisher) (p : Z) : ISBWatermarkPublisher :=
  publisher_new t_new (source_processor_name sp p) (source_ot_stores sp) [source_config sp] true.
Definition new_isb_publisher (t_new : Instant) (sp : SourceWatermarkPublisher) (p : Z) : ISBWatermarkPublisher :=
  publisher_new t_new (isb_processor_name sp p) (isb_ot_stores sp) (to_vertex_configs sp) true.

(** Insert a publisher under a name that has none. *)
Definition ensure_publisher (name : string) (new : ISBWatermarkPublisher) (sp : SourceWatermarkPublisher)
    : SourceWatermarkPublisher :=
  match publishers sp !! name with
  | Some _ => sp
  | None => with_publishers sp (<[name := new]> (publishers sp))
  end.

(** The readings of one publish: creation of a publisher, delay check, mark, and wall clock. *)
Record SourceEnv := mkSourceEnv {
  se_new : Instant;
  se_check : Instant;
  se_mark : Instant;
  se_micros : Z
}.

Definition source_stream (sp : SourceWatermarkPublisher) : Stream :=
  mkStream "source" (bc_vertex (source_config sp)) 0.

Section SourcePublisher.
Context `{WmbCodec}.

(** The watermark a source publish hands on: the maximum delay is taken off live data. *)
Definition delayed (sp : SourceWatermarkPublisher) (wm : Z) (idle : bool) : Z :=
  if negb idle && negb (wm =? -1) then wrap_i64 (wm - as_millis_i64 (max_delay sp)) else wm.

Definition publish_source_watermark (e : SourceEnv) (sp : SourceWatermarkPublisher) (p wm : Z) (idle : bool)
    : option (SourceWatermarkPublisher * list Effect) :=
  let name := source_processor_name sp p in
  let sp := ensure_publisher name (new_source_publisher (se_new e) sp p) sp in
  let? pub := publishers sp !! name in
  let? (pub', w) := publish_watermark_with_processor_count (se_check e) (se_mark e) pub (source_stream sp)
                      (se_micros e) (delayed sp wm idle) idle (sp_processor_count sp) in
  Some (with_publishers sp (<[name := pub']> (publishers sp)), put_effects w).

Definition publish_isb_watermark (e : SourceEnv) (sp : SourceWatermarkPublisher) (p : Z) (stream : Stream)
    (off wm : Z) (idle : bool) : option (SourceWatermarkPublisher * list Effect) :=
  let name := isb_processor_name sp p in
  let sp := ensure_publisher name (new_isb_publisher (se_new e) sp p) sp in
  let? pub := publishers sp !! name in
  let? (pub', w) := publish_watermark (se_check e) (se_mark e) pub stream off wm idle in
  Some (with_publishers sp (<[name := pub']> (publishers sp)), put_effects w).

(** [t p] are the clock readings of the two publishers created for [p]. *)
Definition initialize_active_publishers (t : Z -> Instant * Instant) (sp : SourceWatermarkPublisher) (ps : list Z)
    : SourceWatermarkPublisher :=
  let valid := (source_processor_name sp <$> ps) ++ (isb_processor_name sp <$> ps) in
  foldl (fun sp p =>
           ensure_publisher (isb_processor_name sp p) (new_isb_publisher (t p).2 sp p)
             (ensure_publisher (source_processor_name sp p) (new_source_publisher (t p).1 sp p) sp))
    (with_publishers sp (filter (fun kv => kv.1 ∈ valid) (publishers sp))) ps.
End SourcePublisher.

(** * The state behind the handle *)

Record SourceWatermarkState := mkSourceState {
  sw_publisher : SourceWatermarkPublisher;
  sw_processors : gmap string Processor;        (* of the fetcher's processor manager *)
  isb_idle_manager : ISBIdleDetector;
  source_idle_manager : SourceIdleDetector;
  active_input_partitions : gmap Z bool;
  sw_tracker : Tracker
}.

Record SourceWatermarkEntry := mkEntryTime {
  partition_id : Z;
  event_time_ms : Z
}.

Definition with_source (s : SourceWatermarkState) (sp : SourceWatermarkPublisher) (d : SourceIdleDetector)
    (a : gmap Z bool) : SourceWatermarkState :=
  mkSourceState sp (sw_processors s) (isb_idle_manager s) d a (sw_tracker s).
Definition with_isb (s : SourceWatermarkState) (sp : SourceWatermarkPublisher) (d : ISBIdleDetector)
    : SourceWatermarkState :=
  mkSourceState sp (sw_processors s) d (source_idle_manager s) (active_input_partitions s) (sw_tracker s).

Section SourceState.
Context `{HashOrder} `{Chrono} `{WmbCodec}.

Definition entry_of_message (m : Message) : SourceWatermarkEntry :=
  mkEntryTime (partition_idx (m_offset m)) (timestamp_millis (m_event_time m)).

(** The lowest event time of each partition. *)
Definition lowest_event_times (es : list SourceWatermarkEntry) : gmap Z Z :=
  foldl (fun acc e =>
           let lowest := default (event_time_ms e) (acc !! partition_id e) in
           <[partition_id e := if event_time_ms e <? lowest then event_time_ms e else lowest]> acc) ∅ es.

(** The readings of one iteration: those of the publish, and those of the idle reset. *)
Record GenEnv := mkGenEnv {
  ge_publish : SourceEnv;
  ge_ensure : DateTime;
  ge_reset : DateTime
}.

Fixpoint publish_lowest (env : Z -> GenEnv) (s : SourceWatermarkState) (l : list (Z * Z))
    : option (SourceWatermarkState * list Effect) :=
  match l with
  | [] => Some (s, [])
  | (p, et) :: l' =>
      let? (sp', es) := publish_source_watermark (ge_publish (env p)) (sw_publisher s) p et false in
      let s' := with_source s sp'
                  (source_idle_reset (ge_ensure (env p)) (ge_reset (env p)) (source_idle_manager s) p)
                  (<[p := true]> (active_input_partitions s)) in
      let? (s'', es') := publish_lowest env s' l' in
      Some (s'', es ++ es')
  end.

Definition generate_and_publish_source_watermark (env : Z -> GenEnv) (s : SourceWatermarkState)
    (entries : list SourceWatermarkEntry) : option (SourceWatermarkState * list Effect) :=
  publish_lowest env s (hm_iter (lowest_event_times entries)).

Definition publish_source_isb_watermark (e : SourceEnv) (now : DateTime) (s : SourceWatermarkState)
    (stream : Stream) (off : IntOffset) (p : Z) : option (SourceWatermarkState * list Effect) :=
  let? wm := fetch_source_watermark (sw_processors s) in
  let? (sp', es) := publish_isb_watermark e (sw_publisher s) p stream (io_offset off) (timestamp_millis wm) false in
  let? d' := reset_idle now (isb_idle_manager s) stream in
  Some (with_isb s sp' d', es).

(** The readings of one iteration of the source idle publish. *)
Record SourceIdleEnv := mkSourceIdleEnv {
  si_check : DateTime;
  si_compute : ComputeEnv;
  si_publish : SourceEnv
}.

Fixpoint publish_source_idle (env : Z -> SourceIdleEnv) (wm inflight : Z) (s : SourceWatermarkState) (ps : list Z)
    : option (SourceWatermarkState * list Effect) :=
  match ps with
  | [] => Some (s, [])
  | p :: ps' =>
      let is_idle := is_partition_idle (si_check (env p)) (source_idle_manager s) p in
      let (d', v) := compute_watermark (si_compute (env p)) (source_idle_manager s) p wm inflight in
      let? (sp', es) := publish_source_watermark (si_publish (env p)) (sw_publisher s) p v is_idle in
      let? (s', es') := publish_source_idle env wm inflight (with_source s sp' d' (active_input_partitions s)) ps' in
      Some (s', es ++ es')
  end.

(** The least event time in flight, [i64::MAX] when the tracker reports -1. *)
Definition min_inflight (t : Tracker) : Z :=
  let ts := timestamp_millis (lowest_event_time t) in if ts =? -1 then i64_max else ts.

Definition publish_source_idle_watermark (now : Z -> DateTime) (env : Z -> SourceIdleEnv) (s : SourceWatermarkState)
    : option (SourceWatermarkState * list Effect) :=
  match partitions_needing_publish now (source_idle_manager s) with
  | [] => Some (s, [])
  | ps =>
      let? wm := fetch_source_watermark (sw_processors s) in
      publish_source_idle env (timestamp_millis wm) (min_inflight (sw_tracker s)) s ps
  end.

Fixpoint publish_isb_partitions (env : Z -> SourceEnv) (sp : SourceWatermarkPublisher) (stream : Stream) (off wm : Z)
    (ps : list Z) : option (SourceWatermarkPublisher * list Effect) :=
  match ps with
  | [] => Some (sp, [])
  | p :: ps' =>
      let? (sp1, es1) := publish_isb_watermark (env p) sp p stream off wm true in
      let? (sp2, es2) := publish_isb_partitions env sp1 stream off wm ps' in
      Some (sp2, es1 ++ es2)
  end.

(** What the writer and the clocks answer for one idle stream. *)
Record IsbIdleEnv := mkIsbIdleEnv {
  ii_written : Result Offset;
  ii_publish : Z -> SourceEnv;
  ii_now : DateTime
}.

Definition publish_isb_idle_stream (e : IsbIdleEnv) (wm : Z) (s : SourceWatermarkState) (stream : Stream)
    : option (SourceWatermarkState * list Effect) :=
  let? (r, ws) := fetch_idle_offset (isb_idle_manager s) stream (ii_written e) in
  let off := match r with Ok o => o | Err _ => -1 end in
  let? (sp', es) := publish_isb_partitions (ii_publish e) (sw_publisher s) stream off wm
                      (hm_keys (active_input_partitions s)) in
  let? d' := update_idle_metadata (ii_now e) (isb_idle_manager s) stream off in
  Some (with_isb s sp' d', (EWrite <$> ws) ++ es).

Fixpoint publish_isb_idle_streams (env : nat -> IsbIdleEnv) (wm : Z) (s : SourceWatermarkState) (sts : list Stream)
    : option (SourceWatermarkState * list Effect) :=
  match sts with
  | [] => Some (s, [])
  | st :: sts' =>
      let? (s1, es1) := publish_isb_idle_stream (env 0%nat) wm s st in
      let? (s2, es2) := publish_isb_idle_streams (fun i => env (S i)) wm s1 sts' in
      Some (s2, es1 ++ es2)
  end.

Definition publish_isb_idle_watermark (now : Readings) (env : nat -> IsbIdleEnv) (s : SourceWatermarkState)
    : option (SourceWatermarkState * list Effect) :=
  let? wm := fetch_source_watermark (sw_processors s) in
  publish_isb_idle_streams env (timestamp_millis wm) s (fetch_streams_needing_publish now (isb_idle_manager s)).

Definition publish_idle_watermarks (now : Z -> DateTime) (env : Z -> SourceIdleEnv) (now' : Readings)
    (env' : nat -> IsbIdleEnv) (s : SourceWatermarkState) : option (SourceWatermarkState * list Effect) :=
  let? (s1, es1) := publish_source_idle_watermark now env s in
  let? (s2, es2) := publish_isb_idle_watermark now' env' s1 in
  Some (s2, es1 ++ es2).

(** ** The handle *)

Definition handle_publish_source_isb_watermark (e : SourceEnv) (now : DateTime) (s : SourceWatermarkState)
    (stream : Stream) (off : Offset) (p : Z) : option (SourceWatermarkState * list Effect) :=
  match off with
  | OInt o => publish_source_isb_watermark e now s stream o p
  | OString _ => Some (s, [])
  end.

Definition initialize_active_partitions (now : Z -> DateTime) (t : Z -> Instant * Instant)
    (s : SourceWatermarkState) (ps : list Z) (total : option Z) : SourceWatermarkState :=
  let sp := match total with Some n => set_processor_count (sw_publisher s) n | None => sw_publisher s end in
  with_source s (initialize_active_publishers t sp ps) (initialize_partitions now (source_idle_manager s) ps)
    (foldl (fun m p => <[p := true]> m) (filter (fun kv => kv.1 ∈ ps) (active_input_partitions s)) ps).
End SourceState.

(** * The source watermark *)

Section SourceMin.
Context `{HashOrder} `{Chrono}.

Definition active_of (l : list Processor) : list Processor := filter (fun p => is_active p = true) l.
Definition source_timelines (l : list Processor) : list OffsetTimeline :=
  omap (fun p => timelines p !! 0) (active_of l).
Definition source_heads (l : list Processor) : list Z := get_head_watermark <$> source_timelines l.
Definition source_counts (l : list Processor) : list Z :=
  omap (fun t => get_head_wmb t ≫= processor_count) (source_timelines l).

Lemma list_max_cons_option x (e : option Z) l :
  Prelude.list_max (option_list (Some (match e with Some y => Z.max y x | None => x end)) ++ l) =
  Prelude.list_max (option_list e ++ x :: l).
Proof. by destruct e. Qed.

Lemma source_fetch_fold l m a e :
  foldl source_fetch_step (m, a, e) l =
  (foldl Z.min m (source_heads l), a + Z.of_nat (length (active_of l)),
   Prelude.list_max (option_list e ++ source_counts l)).
Proof.
  revert m a e. induction l as [|p l IH]; intros m a e.
  { simpl. rewrite app_nil_r, Z.add_0_r. by destruct e. }
  unfold source_heads, source_counts, source_timelines, active_of in *.
  rewrite filter_cons. cbn [foldl source_fetch_step].
  destruct (is_active p); cbn [negb]; [rewrite decide_True by done|rewrite decide_False by done; apply IH].
  cbn [omap list_omap]. destruct (timelines p !! 0) as [t|]; rewrite IH; cbn [length].
  - cbn [fmap list_fmap foldl list_omap omap].
    f_equal; [f_equal; [f_equal; destruct (Z.ltb_spec (get_head_watermark t) m); lia|lia]|].
    destruct (get_head_wmb t ≫= processor_count) as [c|]; [apply list_max_cons_option|done].
  - f_equal. f_equal. lia.
Qed.

Lemma active_of_perm l k : l ≡ₚ k -> length (active_of l) = length (active_of k).
Proof. unfold active_of. by intros ->. Qed.
Lemma source_heads_perm a l k : l ≡ₚ k -> foldl Z.min a (source_heads l) = foldl Z.min a (source_heads k).
Proof.
  intros Hp. apply foldl_min_perm. unfold source_heads, source_timelines, active_of. by rewrite Hp.
Qed.
Lemma source_counts_perm l k : l ≡ₚ k -> Prelude.list_max (source_counts l) = Prelude.list_max (source_counts k).
Proof.
  intros Hp. apply list_max_perm. unfold source_counts, source_timelines, active_of. by rewrite Hp.
Qed.

Lemma elem_of_source_timelines l t :
  t ∈ source_timelines l <-> exists p, p ∈ l /\ status p = Active /\ timelines p !! 0 = Some t.
Proof.
  unfold source_timelines, active_of. rewrite list_elem_of_omap.
  setoid_rewrite list_elem_of_filter. unfold is_active. setoid_rewrite bool_decide_eq_true. naive_solver.
Qed.
End SourceMin.

(** * Runs of source publishes *)

Section SourceRuns.
Context `{HashOrder} `{Chrono} `{WmbCodec}.

Lemma source_processor_name_inj sp p q : source_processor_name sp p = source_processor_name sp q -> p = q.
Proof. unfold source_processor_name. by intros ?%(inj _)%(inj _)%(inj _)%(inj pretty). Qed.

(** What does not change. *)
Definition same_source (sp sp' : SourceWatermarkPublisher) : Prop :=
  max_delay sp' = max_delay sp /\ source_config sp' = source_config sp /\
  sp_processor_count sp' = sp_processor_count sp /\ source_ot_stores sp' = source_ot_stores sp.

(** The publisher a partition of the source uses: the one it has, or a new one. *)
Definition source_publisher_of (t_new : Instant) (sp : SourceWatermarkPublisher) (p : Z) : ISBWatermarkPublisher :=
  default (new_source_publisher t_new sp p) (publishers sp !! source_processor_name sp p).

Lemma publish_source_Some e sp p wm idle sp' es :
  publish_source_watermark e sp p wm idle = Some (sp', es) ->
  same_source sp sp' /\
  (forall w, EPut w ∈ es ->
     put_of (source_publisher_of (se_new e) sp p) (source_stream sp) (se_micros e) (delayed sp wm idle) idle
       (sp_processor_count sp) w) /\
  (forall n, EWrite n ∉ es) /\
  forall q, q <> p -> publishers sp' !! source_processor_name sp' q = publishers sp !! source_processor_name sp q.
Proof.
  unfold publish_source_watermark, source_publisher_of.
  set (name := source_processor_name sp p). set (new := new_source_publisher (se_new e) sp p).
  assert (He : exists m, ensure_publisher name new sp = with_publishers sp m /\
    m !! name = Some (default new (publishers sp !! name)) /\
    forall n, n <> name -> m !! n = publishers sp !! n).
  { unfold ensure_publisher. destruct (publishers sp !! name) as [x|] eqn:E.
    - exists (publishers sp). by destruct sp.
    - exists (<[name := new]> (publishers sp)). split_and!; [done|by rewrite lookup_insert_eq|].
      intros n Hn. by rewrite lookup_insert_ne. }
  destruct He as (m & -> & Hm & Hother). simpl. rewrite Hm.
  destruct (publish_watermark_with_processor_count _ _ _ _ _ _ _ _) as [[pub' w]|] eqn:Ep; [|done].
  intros [= <- <-]. apply publish_Some in Ep as (_ & Hput & _). split_and!.
  - by split_and!.
  - intros w' (x & [= <-] & Hx)%list_elem_of_fmap.
    destruct w as [w|]; [|by apply elem_of_nil in Hx]. apply list_elem_of_singleton in Hx as ->. by apply Hput.
  - by intros n (x & [=] & _)%list_elem_of_fmap.
  - intros q Hq. assert (Hn : source_processor_name sp q <> name)
      by (intros Heq; by apply source_processor_name_inj in Heq).
    simpl. rewrite lookup_insert_ne by done. by apply Hother.
Qed.

(** ** Event times *)

(** [et] is the least event time of the entries of partition [p]. *)
Definition lowest_of (es : list SourceWatermarkEntry) (p et : Z) : Prop :=
  (exists e, e ∈ es /\ partition_id e = p /\ event_time_ms e = et) /\
  forall e, e ∈ es -> partition_id e = p -> et <= event_time_ms e.

Lemma lowest_event_times_spec es p :
  match lowest_event_times es !! p with
  | Some et => lowest_of es p et
  | None => forall e, e ∈ es -> partition_id e <> p
  end.
Proof.
  unfold lowest_event_times. induction es as [|e es IH] using rev_ind; [simpl; rewrite lookup_empty; by intros ? ?%elem_of_nil|].
  rewrite foldl_app. cbn [foldl]. set (m := foldl _ ∅ es) in *. rewrite lookup_insert.
  destruct (decide (partition_id e = p)) as [Hp|Hp].
  - rewrite Hp. unfold lowest_of in *. destruct (m !! p) as [t|]; simpl.
    + destruct IH as [(x & Hx & Hxp & Hxt) Hle].
      destruct (Z.ltb_spec (event_time_ms e) t); (split; [|intros y [Hy| ->%list_elem_of_singleton]%elem_of_app ?]);
        try (specialize (Hle y Hy)); try lia.
      * exists e. split_and!; [apply elem_of_app; right; by left|done..].
      * exists x. split_and!; [apply elem_of_app; by left|done..].
    + rewrite Z.ltb_irrefl. split; [exists e; split_and!; [apply elem_of_app; right; by left|done..]|].
      intros y [Hy| ->%list_elem_of_singleton]%elem_of_app Hyp; [by destruct (IH y Hy)|lia].
  - destruct (m !! p) as [t|].
    + destruct IH as [(x & Hx & Hxp & Hxt) Hle]. split.
      * exists x. split_and!; [apply elem_of_app; by left|done..].
      * intros y [Hy| ->%list_elem_of_singleton]%elem_of_app ?; [auto|done].
    + intros y [Hy| ->%list_elem_of_singleton]%elem_of_app; auto.
Qed.

Lemma publish_lowest_Some env s l s' es :
  NoDup l.*1 -> publish_lowest env s l = Some (s', es) ->
  (forall w, EPut w ∈ es -> exists p et, (p, et) ∈ l /\
     put_of (source_publisher_of (se_new (ge_publish (env p))) (sw_publisher s) p) (source_stream (sw_publisher s))
       (se_micros (ge_publish (env p))) (delayed (sw_publisher s) et false) false
       (sp_processor_count (sw_publisher s)) w) /\
  (forall p et, (p, et) ∈ l -> active_input_partitions s' !! p = Some true) /\
  (forall p, active_input_partitions s !! p = Some true -> active_input_partitions s' !! p = Some true).
Proof.
  revert s es. induction l as [|[p et] l IH]; intros s es Hnd; simpl.
  { intros [= <- <-]. split_and!; [by intros ? ?%elem_of_nil|by intros ? ? ?%elem_of_nil|done]. }
  apply NoDup_cons in Hnd as [Hni Hnd].
  destruct (publish_source_watermark _ _ _ _ _) as [[sp' es1]|] eqn:Ep; [|done].
  set (s1 := with_source _ _ _ _). destruct (publish_lowest env s1 l) as [[s2 es2]|] eqn:E2; [|done].
  intros [= <- <-]. destruct (publish_source_Some _ _ _ _ _ _ _ Ep) as ((Hd & Hc & Hn & Hst) & Hput & _ & Hoth).
  destruct (IH s1 es2 Hnd E2) as (Hput2 & Hin2 & Hkeep2).
  assert (Hp : active_input_partitions s1 !! p = Some true) by apply lookup_insert_eq.
  split_and!.
  - intros w [Hw|Hw]%elem_of_app; [exists p, et; split; [by left|by apply Hput]|].
    destruct (Hput2 w Hw) as (q & et' & Hq & Hpo). exists q, et'. split; [by right|].
    assert (q <> p) by (intros ->; apply Hni; by apply (list_elem_of_fmap_2 fst _ _ Hq)).
    unfold source_publisher_of, new_source_publisher, source_stream, delayed, s1 in *. simpl in Hpo.
    rewrite Hd, Hn, Hst in Hpo. rewrite Hoth in Hpo by done. unfold source_processor_name in *.
    by rewrite Hc in Hpo.
  - intros q et' [[= -> ->]|Hq]%elem_of_cons; [by apply Hkeep2|by eapply Hin2].
  - intros q Hq. apply Hkeep2. unfold s1. simpl. rewrite lookup_insert. by case_decide.
Qed.

(** ** Idle publishes *)

Definition idle_value (e : ComputeEnv) (d : SourceIdleDetector) (wm inflight v : Z) : Prop :=
  v = wm \/
  (wm <> -1 /\ v <= timestamp_millis (ce_now e) /\ v <= inflight /\
   v <= wrap_i64 (wm + as_millis_i64 (increment_by (idle_config d)))) \/
  (wm = -1 /\ (v = -1 \/ v = timestamp_millis (ce_now e) /\ is_Some (init_source_delay (idle_config d)))).

Lemma compute_watermark_value e d p wm inflight d' v :
  compute_watermark e d p wm inflight = (d', v) ->
  idle_value e d wm inflight v /\ idle_config d' = idle_config d.
Proof.
  unfold compute_watermark. set (d1 := ensure_partition (ce_ensure e) d p).
  assert (Hc : idle_config d1 = idle_config d) by (unfold d1, ensure_partition; by case_match).
  destruct (negb _); [intros [= <- <-]; split; [by left|done]|].
  destruct (Z.eqb_spec wm (-1)) as [->|Hne].
  - unfold get_partition_idling_from_init_wm, idle_value. rewrite <- Hc.
    destruct (init_source_delay (idle_config d1)) as [delay|] eqn:Ed; [|intros [= <- <-]; auto 10].
    destruct (partition_states d1 !! p); [|intros [= <- <-]; auto 10].
    destruct (_ <=? _); intros [= <- <-]; [|auto 10]. split; [|done]. right; right. split; [done|]. right. eauto.
  - intros [= <- <-]. split; [|done]. right; left. rewrite Hc. split; [done|].
    destruct (Z.ltb_spec (timestamp_millis (ce_now e)) (wrap_i64 (wm + as_millis_i64 (increment_by (idle_config d))))); lia.
Qed.

Lemma publish_source_idle_Some env wm inflight s ps s' es w :
  NoDup ps -> publish_source_idle env wm inflight s ps = Some (s', es) -> EPut w ∈ es ->
  exists p idle v, p ∈ ps /\ idle_value (si_compute (env p)) (source_idle_manager s) wm inflight v /\
    put_of (source_publisher_of (se_new (si_publish (env p))) (sw_publisher s) p) (source_stream (sw_publisher s))
      (se_micros (si_publish (env p))) (delayed (sw_publisher s) v idle) idle
      (sp_processor_count (sw_publisher s)) w.
Proof.
  revert s s' es. induction ps as [|p ps IH]; intros s s' es Hnd; simpl.
  { intros [= _ <-] ?%elem_of_nil. done. }
  apply NoDup_cons in Hnd as [Hni Hnd].
  destruct (compute_watermark _ _ _ _ _) as [d' v] eqn:Ec.
  destruct (publish_source_watermark _ _ _ _ _) as [[sp' es1]|] eqn:Ep; [|done].
  destruct (publish_source_idle _ _ _ _ ps) as [[s2 es2]|] eqn:E2; [|done]. intros [= _ <-].
  destruct (publish_source_Some _ _ _ _ _ _ _ Ep) as ((Hd & Hc & Hn & Hst) & Hput & _ & Hoth).
  apply compute_watermark_value in Ec as [Hv Hcfg].
  intros [Hw|Hw]%elem_of_app.
  - eexists p, _, v. split_and!; [by left|done|by apply Hput].
  - destruct (IH _ _ _ Hnd E2 Hw) as (q & i & v' & Hq & Hv' & Hpo). exists q, i, v'. split_and!; [by right| |].
    { unfold idle_value in *. simpl in Hv'. by rewrite Hcfg in Hv'. }
    assert (q <> p) by (by intros ->). unfold source_publisher_of, new_source_publisher, source_stream, delayed in *.
    simpl in Hpo. rewrite Hd, Hn, Hst in Hpo. rewrite Hoth in Hpo by done. unfold source_processor_name in *.
    by rewrite Hc in Hpo.
Qed.
End SourceRuns.

(** * Rebalancing *)

Section Rebalance.
Context `{HashOrder} `{Chrono}.

Lemma ensure_partition_lookup now d p q :
  partition_states (ensure_partition now d p) !! q =
  match partition_states d !! q with
  | Some st => Some st
  | None => if decide (q = p) then Some (partition_idle_new now) else None
  end.
Proof.
  unfold ensure_partition. destruct (partition_states d !! p) as [st|] eqn:E.
  - destruct (partition_states d !! q) eqn:Eq; [done|]. rewrite decide_False; [done|congruence].
  - simpl. rewrite lookup_insert. destruct (decide (p = q)) as [<-|Hne].
    + by rewrite E, decide_True.
    + rewrite decide_False by done. by destruct (partition_states d !! q).
Qed.

Lemma ensure_partitions_lookup now ps d q :
  is_Some (partition_states (foldl (fun d p => ensure_partition (now p) d p) d ps) !! q) <->
  is_Some (partition_states d !! q) \/ q ∈ ps.
Proof.
  revert d. induction ps as [|p ps IH]; intros d; simpl.
  { split; [auto|]. intros [?|?%elem_of_nil]; done. }
  rewrite IH, ensure_partition_lookup, elem_of_cons. destruct (partition_states d !! q); [naive_solver|].
  case_decide; naive_solver.
Qed.

Lemma ensure_partitions_keep now ps d q st :
  partition_states d !! q = Some st ->
  partition_states (foldl (fun d p => ensure_partition (now p) d p) d ps) !! q = Some st.
Proof.
  revert d. induction ps as [|p ps IH]; intros d Hq; simpl; [done|].
  apply IH. by rewrite ensure_partition_lookup, Hq.
Qed.

Lemma dom_insert_all (ps : list Z) (m : gmap Z bool) :
  dom (foldl (fun m p => <[p := true]> m) m ps) = list_to_set ps ∪ dom m.
Proof. revert m. induction ps as [|q ps IH]; intros m; simpl; [set_solver|]. rewrite IH. set_solver. Qed.

(** The names of the publishers of the partitions. *)
Definition publisher_names (sp : SourceWatermarkPublisher) (ps : list Z) : list string :=
  (source_processor_name sp <$> ps) ++ (isb_processor_name sp <$> ps).

Lemma ensure_publisher_lookup name new sp n :
  publishers (ensure_publisher name new sp) !! n =
  match publishers sp !! n with
  | Some x => Some x
  | None => if decide (n = name) then Some new else None
  end.
Proof.
  unfold ensure_publisher. destruct (publishers sp !! name) as [x|] eqn:E.
  - destruct (publishers sp !! n) eqn:En; [done|]. rewrite decide_False; [done|congruence].
  - simpl. rewrite lookup_insert. destruct (decide (name = n)) as [<-|Hne].
    + by rewrite E, decide_True.
    + rewrite decide_False by done. by destruct (publishers sp !! n).
Qed.

Lemma ensure_publisher_config name new sp :
  source_config (ensure_publisher name new sp) = source_config sp.
Proof. unfold ensure_publisher. by case_match. Qed.

Definition ensure_both (t : Z -> Instant * Instant) (sp : SourceWatermarkPublisher) (p : Z)
    : SourceWatermarkPublisher :=
  ensure_publisher (isb_processor_name sp p) (new_isb_publisher (t p).2 sp p)
    (ensure_publisher (source_processor_name sp p) (new_source_publisher (t p).1 sp p) sp).

Lemma ensure_both_lookup t sp p n :
  (is_Some (publishers (ensure_both t sp p) !! n) <->
   is_Some (publishers sp !! n) \/ n = source_processor_name sp p \/ n = isb_processor_name sp p) /\
  (forall x, publishers sp !! n = Some x -> publishers (ensure_both t sp p) !! n = Some x).
Proof.
  unfold ensure_both. rewrite !ensure_publisher_lookup.
  destruct (publishers sp !! n); [naive_solver|]. repeat case_decide; naive_solver.
Qed.

Lemma ensure_all_lookup t ps sp n :
  (is_Some (publishers (foldl (ensure_both t) sp ps) !! n) <->
   is_Some (publishers sp !! n) \/ n ∈ publisher_names sp ps) /\
  (forall x, publishers sp !! n = Some x -> publishers (foldl (ensure_both t) sp ps) !! n = Some x).
Proof.
  revert sp. induction ps as [|p ps IH]; intros sp; simpl.
  { split; [|done]. unfold publisher_names. simpl. rewrite elem_of_nil. naive_solver. }
  destruct (IH (ensure_both t sp p)) as [IH1 IH2]. destruct (ensure_both_lookup t sp p n) as [Hb1 Hb2].
  split; [|by intros x Hx; apply IH2, Hb2]. rewrite IH1, Hb1.
  assert (Hc : source_config (ensure_both t sp p) = source_config sp)
    by (unfold ensure_both; by rewrite !ensure_publisher_config).
  unfold publisher_names, source_processor_name, isb_processor_name. rewrite Hc.
  rewrite !fmap_cons, !elem_of_app, !elem_of_cons. naive_solver.
Qed.
End Rebalance.

(** * Properties *)

(** The source watermark is held back by every active partition. It is -1 as long as the
    greatest processor count any of them announces exceeds the number of active ones; otherwise
    it is the smallest head watermark of their timelines, or -1 when there is none. The order in
    which the processors are visited is irrelevant. *)
Theorem source_watermark_min (O O' : HashOrder) (C : Chrono) (ps : gmap string Processor) (wm : DateTime) :
  @fetch_source_watermark O C ps = Some wm ->
  @fetch_source_watermark O' C ps = Some wm /\
  (forall n p t, ps !! n = Some p -> status p = Active -> timelines p !! 0 = Some t ->
     timestamp_millis wm = -1 \/ timestamp_millis wm <= get_head_watermark t) /\
  (timestamp_millis wm = -1 \/
   exists n p t, ps !! n = Some p /\ status p = Active /\ timelines p !! 0 = Some t /\
     timestamp_millis wm = get_head_watermark t) /\
  (forall n p t h c, ps !! n = Some p -> status p = Active -> timelines p !! 0 = Some t ->
     get_head_wmb t = Some h -> processor_count h = Some c ->
     Z.of_nat (length (active_of (map_to_list ps).*2)) < c -> timestamp_millis wm = -1).
Proof.
  assert (Heq : @fetch_source_watermark O' C ps = @fetch_source_watermark O C ps).
  { unfold fetch_source_watermark. rewrite !source_fetch_fold. unfold option_list; cbn [from_option]; rewrite !app_nil_l.
    pose proof (transitivity (@hm_values_perm O _ _ _ _ ps) (symmetry (@hm_values_perm O' _ _ _ _ ps))) as Hp.
    rewrite (source_heads_perm _ _ _ Hp), (source_counts_perm _ _ Hp), (active_of_perm _ _ Hp). done. }
  rewrite Heq. unfold fetch_source_watermark. rewrite source_fetch_fold. unfold option_list; cbn [from_option]; rewrite app_nil_l.
  set (l := hm_values ps). set (m := foldl Z.min i64_max (source_heads l)). set (n := 0 + _).
  destruct (foldl_min_spec (source_heads l) i64_max) as (_ & Hle & Hin). fold m in Hle, Hin.
  assert (Hval : forall w, from_timestamp_millis (if m =? i64_max then -1 else m) = Some w ->
    timestamp_millis w = -1 \/ timestamp_millis w = m /\ m ∈ source_heads l).
  { intros w Hw%timestamp_from_millis. destruct (Z.eqb_spec m i64_max); naive_solver. }
  assert (Hheads : forall k p t, ps !! k = Some p -> status p = Active -> timelines p !! 0 = Some t ->
    t ∈ source_timelines l).
  { intros k p t Hp Ha Ht. apply elem_of_source_timelines. exists p. split_and!; [|done..].
    apply elem_of_hm_values; eauto. }
  intros Hwm. split; [done|].
  assert (Hcase : timestamp_millis wm = -1 \/ (timestamp_millis wm = m /\ m ∈ source_heads l) /\
    forall c, c ∈ source_counts l -> c <= n).
  { destruct (Prelude.list_max (source_counts l)) as [x|] eqn:Ex.
    - apply list_max_Some in Ex as [_ Hmax]. destruct (Z.ltb_spec n x) as [Hlt|Hge].
      + left. by apply timestamp_from_millis in Hwm.
      + destruct (Hval _ Hwm) as [?|[? ?]]; [by left|]. right. split; [done|].
        intros c Hc%Hmax. lia.
    - destruct (Hval _ Hwm) as [?|[? ?]]; [by left|]. right. split; [done|].
      destruct (source_counts l); [by intros c ?%elem_of_nil|done]. }
  split_and!.
  - intros k p t Hp Ha Ht. destruct Hcase as [?|[[-> _] _]]; [by left|]. right. apply Hle.
    apply list_elem_of_fmap. eauto.
  - destruct Hcase as [?|[[-> Hm] _]]; [by left|]. right.
    apply list_elem_of_fmap in Hm as (t & Ht & (p & Hp & Ha & Htl)%elem_of_source_timelines).
    apply elem_of_hm_values in Hp as [k Hk]. by exists k, p, t.
  - intros k p t h c Hp Ha Ht Hh Hc Hlt. destruct Hcase as [?|[_ Hcs]]; [done|].
    assert (c <= n); [apply Hcs; apply list_elem_of_omap; exists t; split; [by eapply Hheads|by rewrite Hh]|].
    assert (n = Z.of_nat (length (active_of (map_to_list ps).*2)))
      by (unfold n, l; rewrite Z.add_0_l; f_equal; apply active_of_perm, hm_values_perm). lia.
Qed.

(** Reading data publishes, for each partition of the batch and under the partition's own
    name, the lowest event time of its messages less the maximum delay (or what it published
    before, if that is more), not idle and with the processor count; and the partition counts as
    active. *)
Theorem source_publish_lowest (O : HashOrder) (C : Chrono) (K : WmbCodec) (env : Z -> GenEnv)
    (s s' : SourceWatermarkState) (entries : list SourceWatermarkEntry) (es : list Effect) :
  let sp := sw_publisher s in
  (forall e, e ∈ entries -> in_i64 (event_time_ms e - as_millis_i64 (max_delay sp))) ->
  generate_and_publish_source_watermark env s entries = Some (s', es) ->
  (forall w, EPut w ∈ es -> exists p et, lowest_of entries p et /\
     put_of (source_publisher_of (se_new (ge_publish (env p))) sp p) (source_stream sp)
       (se_micros (ge_publish (env p))) (if et =? -1 then -1 else et - as_millis_i64 (max_delay sp)) false
       (sp_processor_count sp) w) /\
  forall e, e ∈ entries -> active_input_partitions s' !! partition_id e = Some true.
Proof.
  intros sp Hr Hrun. unfold generate_and_publish_source_watermark in Hrun.
  destruct (publish_lowest_Some _ _ _ _ _ (NoDup_hm_keys _) Hrun) as (Hput & Hact & _). split.
  - intros w Hw. destruct (Hput w Hw) as (p & et & Hin & Hpo). exists p, et.
    apply elem_of_hm_iter in Hin. pose proof (lowest_event_times_spec entries p) as Hl. rewrite Hin in Hl.
    split; [done|]. unfold delayed in Hpo. fold sp in Hpo. cbn [negb andb] in Hpo.
    destruct Hl as [(e & He & _ & Het) _]. destruct (Z.eqb_spec et (-1)) as [Heq|Hne]; cbn [negb] in Hpo; [by rewrite Heq in Hpo|].
    rewrite wrap_i64_id in Hpo; [done|]. rewrite <- Het. by apply Hr.
  - intros e He. pose proof (lowest_event_times_spec entries (partition_id e)) as Hl.
    destruct (lowest_event_times entries !! partition_id e) as [et|] eqn:El; [|by destruct (Hl e He)].
    eapply Hact. by apply elem_of_hm_iter.
Qed.

(** An idle tick of the source moves only partitions whose step interval has passed, and what
    it publishes for one is the source watermark itself (a heartbeat), or an increment of it that
    passes neither the clock nor the event time of any message in flight, or, when there is no
    watermark yet, the clock if an initial delay is configured, else -1. *)
Theorem source_idle_bounds (O : HashOrder) (C : Chrono) (K : WmbCodec) (now : Z -> DateTime)
    (env : Z -> SourceIdleEnv) (s s' : SourceWatermarkState) (es : list Effect) (w : KvPut) :
  publish_source_idle_watermark now env s = Some (s', es) -> EPut w ∈ es ->
  exists wm p idle v, fetch_source_watermark (sw_processors s) = Some wm /\
    p ∈ partitions_needing_publish now (source_idle_manager s) /\
    (v = timestamp_millis wm \/
     (timestamp_millis wm <> -1 /\ v <= timestamp_millis (ce_now (si_compute (env p))) /\
      (forall part q x, t_entries (sw_tracker s) !! part = Some q -> x ∈ q ->
         timestamp_millis (lowest_event_time (sw_tracker s)) <> -1 ->
         v <= timestamp_millis (te_event_time x.2))) \/
     timestamp_millis wm = -1 /\ (v = -1 \/ v = timestamp_millis (ce_now (si_compute (env p))) /\
       is_Some (init_source_delay (idle_config (source_idle_manager s))))) /\
    put_of (source_publisher_of (se_new (si_publish (env p))) (sw_publisher s) p) (source_stream (sw_publisher s))
      (se_micros (si_publish (env p))) (delayed (sw_publisher s) v idle) idle
      (sp_processor_count (sw_publisher s)) w.
Proof.
  unfold publish_source_idle_watermark. intros Hrun Hw.
  assert (Hps : NoDup (partitions_needing_publish now (source_idle_manager s))).
  { unfold partitions_needing_publish. eapply sublist_NoDup; [apply (NoDup_hm_keys (partition_states (source_idle_manager s)))|].
    apply fmap_sublist, sublist_filter. }
  destruct (partitions_needing_publish now (source_idle_manager s)) as [|p0 ps0] eqn:Eps;
    [injection Hrun as _ <-; by apply elem_of_nil in Hw|]. rewrite <- Eps in *.
  destruct (fetch_source_watermark (sw_processors s)) as [wm|]; [|done].
  destruct (publish_source_idle_Some _ _ _ _ _ _ _ _ Hps Hrun Hw) as (p & idle & v & Hp & Hv & Hpo).
  exists wm, p, idle, v. split_and!; [done..| |done].
  destruct Hv as [?|[(? & ? & Hin & _)|?]]; [by left|right; left|by right; right].
  split_and!; [done..|]. intros part q x Hq Hx Hne. unfold min_inflight in Hin.
  rewrite (proj2 (Z.eqb_neq _ _) Hne) in Hin. transitivity (timestamp_millis (lowest_event_time (sw_tracker s))); [done|].
  apply timestamp_millis_mono. unfold lowest_event_time.
  assert (Hel : te_event_time x.2 ∈ tracked_event_times (sw_tracker s)).
  { apply list_elem_of_bind. exists q. split; [apply list_elem_of_fmap; eauto|apply elem_of_hm_values; eauto]. }
  destruct (list_min_is_Some _ _ Hel) as (m & -> & ?). done.
Qed.

(** After a rebalance the idle detector, the set of active partitions and the publishers are
    exactly those of the new partitions; a partition that stays keeps its idle state and its
    publishers, with all they remember. *)
Theorem rebalance_exact (O : HashOrder) (C : Chrono) (now : Z -> DateTime) (t : Z -> Instant * Instant)
    (s : SourceWatermarkState) (ps : list Z) (total : option Z) :
  let s' := initialize_active_partitions now t s ps total in
  (forall p, is_Some (partition_states (source_idle_manager s') !! p) <-> p ∈ ps) /\
  (forall p, is_Some (active_input_partitions s' !! p) <-> p ∈ ps) /\
  (forall n, is_Some (publishers (sw_publisher s') !! n) <-> n ∈ publisher_names (sw_publisher s) ps) /\
  (forall p st, p ∈ ps -> partition_states (source_idle_manager s) !! p = Some st ->
     partition_states (source_idle_manager s') !! p = Some st) /\
  (forall n x, n ∈ publisher_names (sw_publisher s) ps -> publishers (sw_publisher s) !! n = Some x ->
     publishers (sw_publisher s') !! n = Some x).
Proof.
  intros s'. unfold s', initialize_active_partitions. simpl. unfold initialize_partitions.
  set (sp := match total with Some _ => _ | None => _ end).
  assert (Hsp : publishers sp = publishers (sw_publisher s) /\ source_config sp = source_config (sw_publisher s))
    by (unfold sp; by destruct total).
  destruct Hsp as [Hpub Hcfg].
  assert (Hnames : publisher_names (sw_publisher s) ps = publisher_names sp ps)
    by (unfold publisher_names, source_processor_name, isb_processor_name; by rewrite Hcfg).
  split_and!.
  - intros p. rewrite ensure_partitions_lookup. simpl. rewrite map_lookup_filter.
    destruct (partition_states _ !! p); simpl; [case_guard; naive_solver|naive_solver].
  - intros p. rewrite <- (elem_of_dom (D := gset Z)).
    rewrite dom_insert_all, elem_of_union, elem_of_list_to_set, elem_of_dom, map_lookup_filter.
    destruct (active_input_partitions s !! p); simpl; [case_guard|]; naive_solver.
  - intros n. rewrite Hnames. unfold initialize_active_publishers.
    change (foldl _ _ ps) with (foldl (ensure_both t)
      (with_publishers sp (filter (fun kv => kv.1 ∈ publisher_names sp ps) (publishers sp))) ps).
    rewrite (proj1 (ensure_all_lookup t ps _ n)). simpl. rewrite map_lookup_filter.
    destruct (publishers sp !! n); simpl; [case_guard; naive_solver|naive_solver].
  - intros p st Hp Hst. apply ensure_partitions_keep. simpl. rewrite map_lookup_filter, Hst. simpl. by case_guard.
  - intros n x Hn Hx. rewrite Hnames in Hn. unfold initialize_active_publishers.
    change (foldl _ _ ps) with (foldl (ensure_both t)
      (with_publishers sp (filter (fun kv => kv.1 ∈ publisher_names sp ps) (publishers sp))) ps).
    apply (proj2 (ensure_all_lookup t ps _ n)). simpl. rewrite map_lookup_filter, Hpub, Hx. simpl.
    by case_guard.
Qed.

(** Two source partitions, the second behind the first, each announcing two processors. *)
Definition example_source_processors : gmap string Processor :=
  let tl wm := default (timeline_new 10) (puts (timeline_new 10) [mkWMB false 7 wm 0 (Some 2)]) in
  {["source-in-0" := mkProcessor "source-in-0" Active {[0 := tl 500]} 0;
    "source-in-1" := mkProcessor "source-in-1" Active {[0 := tl 300]} 0]}.

Lemma source_watermark_min_witness :
  @fetch_source_watermark canonical_order chrono_utc example_source_processors = Some (300 * ns_per_ms) /\
  (@timestamp_millis chrono_utc (300 * ns_per_ms) = -1 \/
   exists n p t, example_source_processors !! n = Some p /\ status p = Active /\ timelines p !! 0 = Some t /\
     @timestamp_millis chrono_utc (300 * ns_per_ms) = get_head_watermark t).
Proof.
  split; [vm_compute; reflexivity|].
  apply (source_watermark_min canonical_order canonical_order chrono_utc example_source_processors (300 * ns_per_ms)).
  vm_compute. reflexivity.
Defined.

Definition example_source (processors : gmap string Processor) : SourceWatermarkState :=
  mkSourceState
    (mkSourcePublisher (20 * ns_per_ms) (mkBucketConfig "in" [0] None) [mkBucketConfig "map" [0] None] ∅ (Some 2)
       {["in"]} {["map"]})
    processors
    (idle_detector_new (fun _ _ => 0) (100 * ns_per_ms) [mkToVertexConfig "map" [mkStream "isb-0" "map" 0]] {["isb-0"]})
    (mkSourceIdle (mkIdleConfig (1000 * ns_per_ms) (100 * ns_per_ms) (5 * ns_per_ms) None)
       {[0 := mkPartitionIdle (-1 * ns_per_ms) 0]})
    {[0 := true]} (tracker_new false).

Definition example_source_env : SourceEnv := mkSourceEnv 0 0 0 77.

Definition example_generated : SourceWatermarkState * list (@Effect identity_codec) :=
  default (example_source ∅, [])
    (@generate_and_publish_source_watermark canonical_order chrono_utc identity_codec
       (fun _ => mkGenEnv example_source_env 0 0) (example_source ∅)
       [mkEntryTime 0 900; mkEntryTime 1 800; mkEntryTime 0 600]).

Lemma source_publish_lowest_witness :
  length (snd example_generated) = 2%nat /\
  forall e, e ∈ [mkEntryTime 0 900; mkEntryTime 1 800; mkEntryTime 0 600] ->
    active_input_partitions (fst example_generated) !! partition_id e = Some true.
Proof.
  split; [vm_compute; reflexivity|].
  apply (source_publish_lowest canonical_order chrono_utc identity_codec (fun _ => mkGenEnv example_source_env 0 0)
    (example_source ∅) (fst example_generated) [mkEntryTime 0 900; mkEntryTime 1 800; mkEntryTime 0 600]
    (snd example_generated)).
  - apply Forall_forall. repeat constructor; vm_compute; intros [=].
  - vm_compute. reflexivity.
Defined.

(** A tick at two seconds: the partition is idle, and its watermark moves from 300 to 305. *)
Definition example_idle_put : KvPut (H := identity_codec) :=
  @mkKvPut identity_codec "in" "source-in-0" (wmb_to_proto (mkWMB true 77 305 0 (Some 2))).

Definition example_source_tick : Z -> SourceIdleEnv := fun _ =>
  mkSourceIdleEnv (2000 * ns_per_ms)
    (mkComputeEnv (2000 * ns_per_ms) (2000 * ns_per_ms) (2000 * ns_per_ms) (2000 * ns_per_ms)) example_source_env.

Definition example_ticked : SourceWatermarkState * list (@Effect identity_codec) :=
  default (example_source ∅, [])
    (@publish_source_idle_watermark canonical_order chrono_utc identity_codec (fun _ => 2000 * ns_per_ms)
       example_source_tick (example_source example_source_processors)).

Lemma source_idle_bounds_witness :
  snd example_ticked = [EPut example_idle_put] /\
  exists wm, @fetch_source_watermark canonical_order chrono_utc example_source_processors = Some wm.
Proof.
  split; [vm_compute; reflexivity|].
  destruct (source_idle_bounds canonical_order chrono_utc identity_codec (fun _ => 2000 * ns_per_ms)
    example_source_tick (example_source example_source_processors) (fst example_ticked) (snd example_ticked)
    example_idle_put) as (wm & _ & _ & _ & Hwm & _).
  - vm_compute. reflexivity.
  - vm_compute. left.
  - exists wm. exact Hwm.
Defined.

(** When the writer of an idle stream fails once, the offset -1 is stored as its control offset:
    later ticks do not try again, and no control message is written for the idle period. *)
Example failed_control_message_sticks :
  let now := (fun _ _ => 2000 * ns_per_ms) : Readings in
  let later := (fun _ _ => 5000 * ns_per_ms) : Readings in
  let tick r := fun _ : nat => mkIsbIdleEnv r (fun _ => example_source_env) (2000 * ns_per_ms) in
  let failing := tick (Err (EOther "isb full")) in
  let working := tick (Ok (OInt (mkIntOffset 17 0))) in
  let s := example_source example_source_processors in
  let r1 := default (s, []) (@publish_isb_idle_watermark canonical_order chrono_utc identity_codec now failing s) in
  let r2 := default (s, []) (@publish_isb_idle_watermark canonical_order chrono_utc identity_codec later working (fst r1)) in
  snd r1 = [EWrite "isb-0"; EPut (@mkKvPut identity_codec "map" "in-0" (wmb_to_proto (mkWMB true (-1) 300 0 None)))] /\
  snd r2 = [EPut (@mkKvPut identity_codec "map" "in-0" (wmb_to_proto (mkWMB true (-1) 300 0 None)))].
Proof. vm_compute. split; reflexivity. Qed.
