(* ===== verification/F32.v ===== *)
(** 32-bit floating point as the sources use it: [f32] addition, subtraction, multiplication,
    division, comparison, [min], [max], [round] and the casts from and to [usize].

    A finite number is a sign, a magnitude and an exponent, with value m * 2^e; operations are
    computed exactly and rounded once, to nearest with ties to even, at 24 bits of precision and
    exponents from -149 up. Comparison is by value, so the representation is not unique. *)
From S2P Require Import Prelude Message.
From Stdlib Require Import SpecFloat.

Inductive F32 :=
  | FNaN
  | FInf (neg : bool)
  | FFin (neg : bool) (m e : Z).

(** * Rounding *)

(** The number of bits to drop from a magnitude at exponent [e]. *)
Definition drop_bits (m e : Z) : Z := Z.max 0 (Z.max (Z.log2 m + 1 - 24) (-149 - e)).

(** [m / 2^k] rounded to nearest, ties to even. *)
Definition round_shift (m k : Z) : Z :=
  let q := m / 2 ^ k in
  let r := m mod 2 ^ k in
  if (2 ^ k <? 2 * r) || ((2 * r =? 2 ^ k) && Z.odd q) then q + 1 else q.

(** Scale two magnitudes to the smaller exponent. *)
Definition mag_le (m1 e1 m2 e2 : Z) : bool :=
  let e := Z.min e1 e2 in m1 * 2 ^ (e1 - e) <=? m2 * 2 ^ (e2 - e).

(** Magnitudes of 2^128 and above are infinite. *)
Definition round_f32 (neg : bool) (m e : Z) : F32 :=
  let k := drop_bits m e in
  let m' := if k =? 0 then m else round_shift m k in
  if mag_le (2 ^ 24) 104 m' (e + k) then FInf neg else FFin neg m' (e + k).

(** * Arithmetic *)

Definition signed (neg : bool) (m : Z) : Z := if neg then - m else m.

Definition f32_neg (x : F32) : F32 :=
  match x with FNaN => FNaN | FInf s => FInf (negb s) | FFin s m e => FFin (negb s) m e end.

Definition f32_add (x y : F32) : F32 :=
  match x, y with
  | FNaN, _ | _, FNaN => FNaN
  | FInf s, FInf s' => if Bool.eqb s s' then FInf s else FNaN
  | FInf s, _ | _, FInf s => FInf s
  | FFin s1 m1 e1, FFin s2 m2 e2 =>
      let e := Z.min e1 e2 in
      let z := signed s1 m1 * 2 ^ (e1 - e) + signed s2 m2 * 2 ^ (e2 - e) in
      if z =? 0 then FFin (s1 && s2) 0 0 else round_f32 (z <? 0) (Z.abs z) e
  end.

Definition f32_sub (x y : F32) : F32 := f32_add x (f32_neg y).

Definition is_zero (m : Z) : bool := m =? 0.

Definition f32_mul (x y : F32) : F32 :=
  match x, y with
  | FNaN, _ | _, FNaN => FNaN
  | FInf s, FInf s' => FInf (xorb s s')
  | FInf s, FFin s' m _ | FFin s' m _, FInf s => if is_zero m then FNaN else FInf (xorb s s')
  | FFin s1 m1 e1, FFin s2 m2 e2 => round_f32 (xorb s1 s2) (m1 * m2) (e1 + e2)
  end.

(** The quotient is taken with at least 26 bits, and the remainder kept as a last bit. *)
Definition f32_div (x y : F32) : F32 :=
  match x, y with
  | FNaN, _ | _, FNaN => FNaN
  | FInf _, FInf _ => FNaN
  | FInf s, FFin s' _ _ => FInf (xorb s s')
  | FFin s _ _, FInf s' => FFin (xorb s s') 0 0
  | FFin s1 m1 e1, FFin s2 m2 e2 =>
      if is_zero m2 then (if is_zero m1 then FNaN else FInf (xorb s1 s2))
      else if is_zero m1 then FFin (xorb s1 s2) 0 0
      else
        let s := Z.max 0 (26 + Z.log2 m2 - Z.log2 m1) in
        let q := m1 * 2 ^ s / m2 in
        let sticky := if m1 * 2 ^ s mod m2 =? 0 then 0 else 1 in
        round_f32 (xorb s1 s2) (2 * q + sticky) (e1 - e2 - s - 1)
  end.

(** [<=] and [<]: false with a NaN. *)
Definition f32_le (x y : F32) : bool :=
  match x, y with
  | FNaN, _ | _, FNaN => false
  | FInf true, _ | _, FInf false => true
  | FInf false, _ | _, FInf true => false
  | FFin s1 m1 e1, FFin s2 m2 e2 => mag_le (signed s1 m1) e1 (signed s2 m2) e2
  end.

Definition is_nan (x : F32) : bool := match x with FNaN => true | _ => false end.

Definition f32_lt (x y : F32) : bool := f32_le x y && negb (f32_le y x).

(** [f32::min] and [f32::max]: a NaN gives the other argument. *)
Definition f32_min (x y : F32) : F32 := if is_nan x then y else if is_nan y then x else if f32_le x y then x else y.
Definition f32_max (x y : F32) : F32 := if is_nan x then y else if is_nan y then x else if f32_le x y then y else x.

(** [f32::round]: half away from zero. *)
Definition f32_round (x : F32) : F32 :=
  match x with
  | FFin s m e => if 0 <=? e then x else FFin s ((2 * m + 2 ^ (- e)) / (2 * 2 ^ (- e))) 0
  | _ => x
  end.

(** [usize as f32], and [f32 as usize]: towards zero, saturating, NaN to 0. *)
Definition usize_max : Z := 2 ^ 64 - 1.
Definition f32_of_Z (z : Z) : F32 := round_f32 false z 0.
Definition f32_to_usize (x : F32) : Z :=
  match x with
  | FNaN | FInf true | FFin true _ _ => 0
  | FInf false => usize_max
  | FFin false m e => Z.min usize_max (if 0 <=? e then m * 2 ^ e else m / 2 ^ (- e))
  end.

(** ** Against the operations of the Standard Library's specification of IEEE 754 *)

Definition of_spec (x : spec_float) : F32 :=
  match x with
  | S754_zero s => FFin s 0 0
  | S754_infinity s => FInf s
  | S754_nan => FNaN
  | S754_finite s m e => FFin s (Zpos m) e
  end.

Definition f32_eq (x y : F32) : bool := (is_nan x && is_nan y) || (f32_le x y && f32_le y x).

Definition spec_samples : list spec_float :=
  let n z := binary_normalize 24 128 z 0 false in
  let third := SFdiv 24 128 (n 1) (n 3) in
  let tiny := S754_finite false 1 (-149) in
  [S754_zero false; S754_infinity false; S754_infinity true; S754_nan; n 1; n 3; n 10; n 100; n 16777219;
   n (2 ^ 60 + 1); n (-7); third; tiny; SFdiv 24 128 tiny (n 3); SFmul 24 128 third third;
   S754_finite false 16777215 104; S754_finite true 12345678 (-140)].

Example f32_agrees_with_spec_float :
  forallb (fun x => forallb (fun y =>
      f32_eq (f32_add (of_spec x) (of_spec y)) (of_spec (SFadd 24 128 x y)) &&
      f32_eq (f32_sub (of_spec x) (of_spec y)) (of_spec (SFsub 24 128 x y)) &&
      f32_eq (f32_mul (of_spec x) (of_spec y)) (of_spec (SFmul 24 128 x y)) &&
      f32_eq (f32_div (of_spec x) (of_spec y)) (of_spec (SFdiv 24 128 x y)) &&
      Bool.eqb (f32_le (of_spec x) (of_spec y)) (SFleb x y) &&
      Bool.eqb (f32_lt (of_spec x) (of_spec y)) (SFltb x y)) spec_samples) spec_samples = true.
Proof. vm_compute. reflexivity. Qed.

(** * Order *)

Lemma pow2_pos k : 0 < 2 ^ Z.max 0 k.
Proof. apply Z.pow_pos_nonneg; lia. Qed.

Lemma pow2_split a b : 0 <= a -> 0 <= b -> 2 ^ (a + b) = 2 ^ a * 2 ^ b.
Proof. apply Z.pow_add_r. Qed.

(** Any common exponent decides the order. *)
Lemma mag_le_base b m1 e1 m2 e2 :
  b <= e1 -> b <= e2 -> mag_le m1 e1 m2 e2 = true <-> m1 * 2 ^ (e1 - b) <= m2 * 2 ^ (e2 - b).
Proof.
  intros H1 H2. unfold mag_le. rewrite Z.leb_le. set (e := Z.min e1 e2).
  assert (He : 0 <= e - b) by lia.
  assert (Hp : forall ei, e <= ei -> 2 ^ (ei - b) = 2 ^ (ei - e) * 2 ^ (e - b))
    by (intros; rewrite <- pow2_split by lia; f_equal; lia).
  rewrite (Hp e1), (Hp e2) by lia. rewrite !Z.mul_assoc.
  assert (0 < 2 ^ (e - b)) by (apply Z.pow_pos_nonneg; lia).
  split; intros; [by apply Z.mul_le_mono_pos_r|by eapply Z.mul_le_mono_pos_r].
Qed.

Lemma mag_le_refl m e : mag_le m e m e = true.
Proof. unfold mag_le. apply Z.leb_refl. Qed.

Lemma mag_le_trans m1 e1 m2 e2 m3 e3 :
  mag_le m1 e1 m2 e2 = true -> mag_le m2 e2 m3 e3 = true -> mag_le m1 e1 m3 e3 = true.
Proof.
  set (b := Z.min e1 (Z.min e2 e3)).
  rewrite (mag_le_base b m1 e1 m2 e2), (mag_le_base b m2 e2 m3 e3), (mag_le_base b m1 e1 m3 e3) by lia. lia.
Qed.

Lemma mag_le_total m1 e1 m2 e2 : mag_le m1 e1 m2 e2 = false -> mag_le m2 e2 m1 e1 = true.
Proof.
  unfold mag_le. rewrite (Z.min_comm e2 e1). rewrite Z.leb_gt, Z.leb_le. lia.
Qed.

Lemma f32_le_refl x : is_nan x = false -> f32_le x x = true.
Proof. destruct x as [|[]|s m e]; try done. intros _. apply mag_le_refl. Qed.

Lemma f32_le_trans x y z : f32_le x y = true -> f32_le y z = true -> f32_le x z = true.
Proof.
  destruct x as [|[]|s1 m1 e1], y as [|[]|s2 m2 e2], z as [|[]|s3 m3 e3]; simpl; try done.
  apply mag_le_trans.
Qed.

Lemma f32_le_total x y : is_nan x = false -> is_nan y = false -> f32_le x y = false -> f32_le y x = true.
Proof.
  destruct x as [|[]|s1 m1 e1], y as [|[]|s2 m2 e2]; simpl; try done. intros _ _. apply mag_le_total.
Qed.

Lemma f32_min_le_r x y : is_nan y = false -> f32_le (f32_min x y) y = true.
Proof.
  intros Hy. unfold f32_min. rewrite Hy. destruct (is_nan x) eqn:Hx; [by apply f32_le_refl|].
  destruct (f32_le x y) eqn:E; [done|by apply f32_le_refl].
Qed.

(** A maximum stays below a bound of both. *)
Lemma f32_max_lub x y z : f32_le y z = true -> (is_nan x = false -> f32_le x z = true) -> f32_le (f32_max x y) z = true.
Proof.
  intros Hy Hx. unfold f32_max. destruct (is_nan x) eqn:E; [done|]. destruct (is_nan y) eqn:E'; [by apply Hx|].
  destruct (f32_le x y); [done|by apply Hx].
Qed.

(** ** Casts *)

(** The numbers a 32-bit float can hold, in some representation. *)
Definition f32_wf (x : F32) : Prop :=
  match x with FFin _ m e => 0 <= m <= 2 ^ 24 /\ -149 <= e | _ => True end.

Definition trunc (m e : Z) : Z := if 0 <=? e then m * 2 ^ e else m / 2 ^ (- e).

Lemma trunc_mono m1 e1 m2 e2 :
  0 <= m1 -> 0 <= m2 -> mag_le m1 e1 m2 e2 = true -> trunc m1 e1 <= trunc m2 e2.
Proof.
  intros H1 H2 Hle. set (b := Z.min 0 (Z.min e1 e2)).
  assert (Ht : forall m e, b <= e -> trunc m e = m * 2 ^ (e - b) / 2 ^ (- b)).
  { intros m e He. unfold trunc. destruct (Z.leb_spec 0 e).
    - replace (e - b) with (e + - b) by lia. rewrite pow2_split by lia.
      rewrite Z.mul_assoc, Z.div_mul; [done|]. apply Z.pow_nonzero; lia.
    - replace (- b) with ((e - b) + - e) by lia. rewrite pow2_split by lia.
      rewrite (Z.mul_comm (2 ^ (e - b)) (2 ^ (- e))).
      rewrite Z.div_mul_cancel_r; [done|apply Z.pow_nonzero; lia..]. }
  rewrite !Ht by lia. apply Z.div_le_mono; [apply Z.pow_pos_nonneg; lia|].
  by apply mag_le_base; [lia..|].
Qed.

Lemma trunc_nonneg m e : 0 <= m -> 0 <= trunc m e.
Proof.
  intros. unfold trunc. destruct (Z.leb_spec 0 e).
  - assert (0 < 2 ^ e) by (apply Z.pow_pos_nonneg; lia). nia.
  - apply Z.div_pos; [done|]. apply Z.pow_pos_nonneg; lia.
Qed.

Lemma f32_to_usize_nonneg x : f32_wf x -> 0 <= f32_to_usize x <= usize_max.
Proof.
  intros Hx. assert (0 <= usize_max) by done. destruct x as [|[]|[] m e]; simpl; try lia.
  change (if 0 <=? e then _ else _) with (trunc m e). pose proof (trunc_nonneg m e (proj1 (proj1 Hx))). lia.
Qed.

Lemma f32_to_usize_mono x y : f32_wf x -> f32_wf y -> f32_le x y = true -> f32_to_usize x <= f32_to_usize y.
Proof.
  intros Hx Hy. pose proof (f32_to_usize_nonneg x Hx). pose proof (f32_to_usize_nonneg y Hy).
  destruct x as [|[]|[] m1 e1], y as [|[]|[] m2 e2]; simpl in *; try done; try lia.
  - destruct Hx as [Hx _], Hy as [Hy _]. unfold mag_le. rewrite Z.leb_le. intros Hle.
    assert (0 < 2 ^ (e1 - Z.min e1 e2) /\ 0 < 2 ^ (e2 - Z.min e1 e2)) as [? ?]
      by (split; apply Z.pow_pos_nonneg; lia).
    assert (m1 = 0) as -> by nia. change (Z.min usize_max (trunc 0 e1) <= 0). unfold trunc.
    rewrite Z.mul_0_l, Zdiv_0_l. destruct (0 <=? e1); unfold usize_max; lia.
  - intros Hle. apply (trunc_mono m1 e1 m2 e2) in Hle; [|lia..]. unfold trunc in Hle. lia.
Qed.

Lemma f32_of_Z_exact z : 0 <= z < 2 ^ 24 -> f32_of_Z z = FFin false z 0.
Proof.
  intros Hz. unfold f32_of_Z, round_f32. assert (Hk : drop_bits z 0 = 0).
  { unfold drop_bits. assert (Z.log2 z <= 23); [|lia].
    destruct (decide (z = 0)) as [->|]; [done|].
    pose proof (proj1 (Z.log2_lt_pow2 z 24 ltac:(lia)) ltac:(lia)). lia. }
  rewrite Hk. change (0 =? 0) with true. change (0 + 0) with 0. cbv iota. destruct (mag_le (2 ^ 24) 104 z 0) eqn:E; [|done]. exfalso.
  apply (mag_le_base 0) in E; [|lia..]. change (104 - 0) with 104 in E. change (2 ^ (0 - 0)) with 1 in E.
  assert (0 < 2 ^ 104) by (by apply Z.pow_pos_nonneg). nia.
Qed.

Lemma f32_to_usize_of_Z z : 0 <= z < 2 ^ 24 -> f32_to_usize (f32_of_Z z) = z.
Proof.
  intros Hz. rewrite f32_of_Z_exact by done. simpl. change (2 ^ 0) with 1. unfold usize_max. lia.
Qed.

(** * Rounding stays below a representable bound *)

Lemma round_shift_ceil m k b :
  0 <= m -> 0 < k -> m <= b * 2 ^ k -> round_shift m k <= b.
Proof.
  intros Hm Hk Hb. unfold round_shift. assert (Hp : 0 < 2 ^ k) by (apply Z.pow_pos_nonneg; lia).
  pose proof (Z.div_mod m (2 ^ k)) as Hdm. pose proof (Z.mod_pos_bound m (2 ^ k) Hp) as Hr.
  assert (Hq : m / 2 ^ k <= b) by (apply Z.div_le_upper_bound; lia).
  case_match eqn:E; [|done]. assert (0 < m mod 2 ^ k).
  { destruct (Z.eq_dec (m mod 2 ^ k) 0) as [E0|]; [|lia]. rewrite E0, Z.mul_0_r in E.
    destruct (Z.ltb_spec (2 ^ k) 0), (Z.eqb_spec 0 (2 ^ k)); try lia; done. }
  nia.
Qed.

Lemma round_shift_floor m k : 0 <= m -> 0 < k -> m / 2 ^ k <= round_shift m k.
Proof. intros. unfold round_shift. case_match; lia. Qed.

Lemma drop_bits_bounds m e :
  0 <= m -> 0 <= drop_bits m e /\ -149 <= e + drop_bits m e /\ m < 2 ^ (24 + drop_bits m e).
Proof.
  intros Hm. unfold drop_bits. split_and!; [lia..|].
  destruct (decide (m = 0)) as [->|]; [apply Z.pow_pos_nonneg; lia|].
  pose proof (Z.log2_spec m ltac:(lia)) as [_ Hl].
  eapply Z.lt_le_trans; [exact Hl|]. apply Z.pow_le_mono_r; lia.
Qed.

(** The rounded magnitude. *)
Definition rounded (m e : Z) : Z := if drop_bits m e =? 0 then m else round_shift m (drop_bits m e).

Lemma rounded_bounds m e : 0 <= m -> 0 <= rounded m e <= 2 ^ 24.
Proof.
  intros Hm. destruct (drop_bits_bounds m e Hm) as (Hk & _ & Hlt). unfold rounded.
  destruct (Z.eqb_spec (drop_bits m e) 0) as [E|E]; [rewrite E in Hlt; change (24 + 0) with 24 in Hlt; lia|].
  rewrite pow2_split in Hlt by lia. split.
  - etransitivity; [|apply round_shift_floor; lia]. apply Z.div_pos; [done|]. apply Z.pow_pos_nonneg; lia.
  - apply round_shift_ceil; lia.
Qed.

(** A representable bound of the exact value bounds the rounded one. *)
Lemma rounded_le m e mb eb :
  0 <= m -> 0 <= mb <= 2 ^ 24 -> -149 <= eb ->
  mag_le m e mb eb = true -> mag_le (rounded m e) (e + drop_bits m e) mb eb = true.
Proof.
  intros Hm Hmb Heb Hle. destruct (drop_bits_bounds m e Hm) as (Hk & _ & Hlt). unfold rounded.
  destruct (Z.eqb_spec (drop_bits m e) 0) as [E|E]; [by rewrite E, Z.add_0_r|].
  set (k := drop_bits m e) in *.
  destruct (Z.le_gt_cases (e + k) eb) as [Hge|Hgt].
  - assert (Hb : m <= mb * 2 ^ (eb - (e + k)) * 2 ^ k).
    { apply (mag_le_base e) in Hle; [|lia..]. rewrite Z.sub_diag in Hle. change (2 ^ 0) with 1 in Hle.
      rewrite <- Z.mul_assoc, <- pow2_split by lia. replace (eb - (e + k) + k) with (eb - e) by lia. lia. }
    apply round_shift_ceil in Hb; [|lia..]. apply (mag_le_base (e + k)); [lia..|].
    rewrite Z.sub_diag. change (2 ^ 0) with 1. lia.
  - assert (Hk' : k = Z.log2 m + 1 - 24) by (unfold k, drop_bits in *; lia).
    assert (Hm0 : 0 < m) by (destruct (decide (m = 0)) as [->|]; [unfold k, drop_bits in *; simpl in *; lia|lia]).
    pose proof (Z.log2_spec m Hm0) as [Hlow _]. replace (Z.log2 m) with (23 + k) in Hlow by lia.
    set (b := Z.min e eb).
    assert (Hpow : forall a, b <= a -> 0 < 2 ^ (a - b)) by (intros; apply Z.pow_pos_nonneg; lia).
    assert (Hbig : mb * 2 ^ (eb - b) <= 2 ^ 23 * 2 ^ (e + k - b)).
    { transitivity (2 ^ 24 * 2 ^ (eb - b)); [apply Z.mul_le_mono_nonneg_r; [specialize (Hpow eb); lia|lia]|].
      rewrite <- !pow2_split by lia. apply Z.pow_le_mono_r; lia. }
    assert (Hsmall : 2 ^ 23 * 2 ^ (e + k - b) <= m * 2 ^ (e - b)).
    { replace (e + k - b) with (k + (e - b)) by lia. rewrite pow2_split, Z.mul_assoc, <- pow2_split by lia.
      apply Z.mul_le_mono_nonneg_r; [specialize (Hpow e); lia|lia]. }
    apply (mag_le_base b) in Hle; [|lia..].
    assert (Hr : round_shift m k <= 2 ^ 23).
    { apply round_shift_ceil; [lia..|]. apply (Z.mul_le_mono_pos_r _ _ (2 ^ (e - b))); [by apply Hpow; lia|].
      rewrite <- Z.mul_assoc, <- (pow2_split k) by lia. replace (k + (e - b)) with (e + k - b) by lia. lia. }
    apply (mag_le_base b); [lia..|].
    assert (round_shift m k * 2 ^ (e + k - b) <= 2 ^ 23 * 2 ^ (e + k - b))
      by (apply Z.mul_le_mono_nonneg_r; [specialize (Hpow (e + k)); lia|done]). lia.
Qed.

Lemma round_f32_wf s m e : 0 <= m -> f32_wf (round_f32 s m e).
Proof.
  intros Hm. unfold round_f32. change (if drop_bits m e =? 0 then _ else _) with (rounded m e).
  case_match; [done|]. split; [by apply rounded_bounds|]. by apply drop_bits_bounds.
Qed.


(** ** Bounds by a whole number *)

(** [x] is at most the whole number [b]. *)
Definition below (b : Z) (x : F32) : Prop := f32_le x (FFin false b 0) = true.

Lemma signed_neg s m : signed (negb s) m = - signed s m.
Proof. destruct s; simpl; lia. Qed.

Lemma below_not_inf b m e : 0 <= b < 2 ^ 24 -> mag_le m e b 0 = true -> mag_le (2 ^ 24) 104 m e = false.
Proof.
  intros Hb Hle. destruct (mag_le (2 ^ 24) 104 m e) eqn:E; [|done]. exfalso.
  pose proof (mag_le_trans _ _ _ _ _ _ E Hle) as H. apply (mag_le_base 0) in H; [|lia..].
  change (104 - 0) with 104 in H. change (2 ^ (0 - 0)) with 1 in H.
  assert (0 < 2 ^ 104) by (by apply Z.pow_pos_nonneg). nia.
Qed.

(** Rounding a number below [b] stays below [b]. *)
Lemma round_below s b m e :
  0 <= b < 2 ^ 24 -> 0 <= m -> (s = false -> mag_le m e b 0 = true) -> below b (round_f32 s m e).
Proof.
  intros Hb Hm Hle. unfold below, round_f32. change (if drop_bits m e =? 0 then _ else _) with (rounded m e).
  pose proof (rounded_bounds m e Hm) as Hr. destruct s; simpl.
  - case_match; [done|]. simpl. set (e' := e + drop_bits m e). unfold mag_le. apply Z.leb_le.
    assert (0 < 2 ^ (e' - Z.min e' 0) /\ 0 < 2 ^ (0 - Z.min e' 0)) as [? ?] by (split; apply Z.pow_pos_nonneg; lia).
    nia.
  - pose proof (rounded_le m e b 0 Hm ltac:(lia) ltac:(lia) (Hle eq_refl)) as Hrl.
    rewrite (below_not_inf b _ _ Hb Hrl). exact Hrl.
Qed.

Definition nonneg (y : F32) : Prop :=
  match y with FNaN => False | FInf s => s = false | FFin s m _ => 0 <= signed s m end.

Lemma f32_sub_below b x y :
  0 <= b < 2 ^ 24 -> f32_wf x -> below b x -> nonneg y -> below b (f32_sub x y).
Proof.
  intros Hb Hwf Hx Hy. unfold f32_sub. destruct y as [|sy|sy my ey]; simpl in Hy; [done| |].
  { subst. destruct x as [|[]|s m e]; try done. }
  destruct x as [|[]|s m e]; try done. simpl. set (e0 := Z.min e ey).
  assert (Hpe : 0 < 2 ^ (e - e0) /\ 0 < 2 ^ (ey - e0)) by (split; apply Z.pow_pos_nonneg; lia).
  rewrite signed_neg. set (z := signed s m * 2 ^ (e - e0) + _ * 2 ^ (ey - e0)).
  assert (Hz : mag_le z e0 b 0 = true).
  { eapply mag_le_trans; [|exact Hx]. simpl. apply (mag_le_base e0); [lia..|].
    rewrite Z.sub_diag. change (2 ^ 0) with 1. unfold z. nia. }
  destruct (Z.eqb_spec z 0) as [Ez|Ez].
  - unfold below. simpl. unfold mag_le. simpl. apply Z.leb_le. destruct (s && negb sy); simpl; lia.
  - apply round_below; [done|lia|]. intros Hs. apply Z.ltb_ge in Hs. by rewrite Z.abs_eq.
Qed.

Lemma f32_add_wf x y : f32_wf x -> f32_wf y -> f32_wf (f32_add x y).
Proof.
  intros Hx Hy. destruct x as [|[]|s m e], y as [|[]|s' m' e']; simpl; try done.
  case_match; [simpl; lia|]. apply round_f32_wf. lia.
Qed.

Lemma f32_neg_wf x : f32_wf x -> f32_wf (f32_neg x).
Proof. by destruct x. Qed.

Lemma f32_min_wf x y : f32_wf x -> f32_wf y -> f32_wf (f32_min x y).
Proof. intros. unfold f32_min. by repeat case_match. Qed.
Lemma f32_max_wf x y : f32_wf x -> f32_wf y -> f32_wf (f32_max x y).
Proof. intros. unfold f32_max. by repeat case_match. Qed.

Lemma f32_mul_wf x y : f32_wf x -> f32_wf y -> f32_wf (f32_mul x y).
Proof.
  intros Hx Hy. destruct x as [|[]|s m e], y as [|[]|s' m' e']; simpl in *; try done; try (by case_match).
  apply round_f32_wf. nia.
Qed.

Lemma f32_of_Z_wf z : 0 <= z -> f32_wf (f32_of_Z z).
Proof. by apply round_f32_wf. Qed.

Lemma below_to_usize b x : 0 <= b < 2 ^ 24 -> f32_wf x -> below b x -> f32_to_usize x <= b.
Proof.
  intros Hb Hx Hle. pose proof (f32_to_usize_of_Z b Hb) as Hof. rewrite f32_of_Z_exact in Hof by done.
  rewrite <- Hof. apply f32_to_usize_mono; [done| |done]. simpl. lia.
Qed.

#[export] Hint Resolve f32_add_wf f32_neg_wf f32_min_wf f32_max_wf f32_mul_wf f32_of_Z_wf : numa.
