(* ===== verification/Throttle.v ===== *)
(** Rate limiting (src/rust/numaflow-throttling/src/lib.rs).

    A limiter holds a pool of tokens for the current second (the epoch). The first request of a
    new epoch recomputes the pool from the ramp-up mode; later requests take from it. The
    operations are given twice: as whole functions, for one caller, and as the atomic steps that
    concurrent callers interleave. Epochs are seconds read from the clock and are arguments. *)
From S2P Require Import Prelude Message F32.

Record GoBackNConfig := mkGoBackN {
  cool_down_period : Z;
  ramp_down_percentage : Z;
  utilization_threshold : Z
}.

Inductive Mode :=
  | Scheduled
  | Relaxed
  | OnlyIfUsed (threshold : Z)
  | GoBackN (c : GoBackNConfig).

Record TokenCalcBounds := mkBounds {
  slope : F32;
  b_max : Z;
  b_min : Z;
  b_mode : Mode
}.

Definition bounds_default : TokenCalcBounds := mkBounds (f32_of_Z 1) 1 1 Relaxed.

(** [Duration::as_secs_f32] of a duration in nanoseconds. *)
Definition as_secs_f32 (d : Z) : F32 :=
  f32_add (f32_of_Z (d / 10 ^ 9)) (f32_div (f32_of_Z (d mod 10 ^ 9)) (f32_of_Z (10 ^ 9))).

Definition bounds_new (mx mn duration : Z) (m : Mode) : TokenCalcBounds :=
  mkBounds (f32_div (f32_of_Z (usize (mx - mn))) (as_secs_f32 duration)) mx mn m.

Record RateLimit := mkRateLimit {
  token_calc_bounds : TokenCalcBounds;
  token : Z;                       (* AtomicUsize *)
  max_ever_filled : F32;
  last_queried_epoch : Z           (* AtomicU64 *)
}.

Inductive TokenAvailability :=
  | Available (n : Z)
  | Exhausted
  | Recompute.

(** * The refill *)

Definition clamp (lo hi x : Z) : Z := if x <? lo then lo else if hi <? x then hi else x.

(** The functions below return the new [max_ever_filled] and the tokens. *)
Definition relaxed_slope_increase (b : TokenCalcBounds) (mef : F32) : F32 * Z :=
  if f32_le (f32_of_Z (b_max b)) mef then (mef, b_max b)
  else
    let refill := f32_add mef (slope b) in
    let capped := f32_min refill (f32_of_Z (b_max b)) in
    (capped, f32_to_usize capped).

Definition scheduled_slope_increase (b : TokenCalcBounds) (prev cur : Z) (mef : F32) : F32 * Z :=
  if f32_le (f32_of_Z (b_max b)) mef then (mef, b_max b)
  else
    let time_diff := f32_of_Z (Z.max 0 (cur - prev)) in
    let refill := f32_add mef (f32_mul (slope b) time_diff) in
    let capped := f32_min refill (f32_of_Z (b_max b)) in
    (capped, f32_to_usize capped).

Definition only_if_used_slope_increase (b : TokenCalcBounds) (mef : F32) (used threshold : Z) : F32 * Z :=
  if threshold <=? used then relaxed_slope_increase b mef else (mef, f32_to_usize mef).

Definition go_back_n_slope_increase (b : TokenCalcBounds) (mef : F32) (used : Z) (c : GoBackNConfig)
    (prev cur : Z) : F32 * Z :=
  let time_diff := f32_of_Z (Z.max 0 (cur - prev)) in
  if f32_lt (f32_of_Z (cool_down_period c)) time_diff then
    let reduced := f32_sub mef
      (f32_mul (f32_mul (f32_div (f32_of_Z (ramp_down_percentage c)) (f32_of_Z 100)) (slope b))
               (f32_sub time_diff (f32_of_Z 1))) in
    let capped := f32_min (f32_max reduced (f32_of_Z (b_min b))) (f32_of_Z (b_max b)) in
    (capped, f32_to_usize capped)
  else if utilization_threshold c <=? used then relaxed_slope_increase b mef
  else
    let mef' := f32_max (f32_sub mef (slope b)) (f32_of_Z (b_min b)) in
    (mef', f32_to_usize mef').

Definition used_percentage (b : TokenCalcBounds) (tokens : Z) (mef : F32) : Z :=
  let unused := f32_of_Z tokens in
  let used := f32_to_usize (f32_round (f32_mul (f32_sub (f32_of_Z 1) (f32_div unused mef)) (f32_of_Z 100))) in
  let floor_normalization := f32_to_usize (f32_round (f32_mul (f32_div (slope b) mef) (f32_of_Z 100))) in
  clamp 0 100 (usize (used + floor_normalization)).

Definition compute_refill (s : RateLimit) (cur : Z) : F32 * Z :=
  let b := token_calc_bounds s in
  let mef := max_ever_filled s in
  let used := used_percentage b (token s) mef in
  match b_mode b with
  | Relaxed => relaxed_slope_increase b mef
  | Scheduled => scheduled_slope_increase b (last_queried_epoch s) cur mef
  | OnlyIfUsed threshold => only_if_used_slope_increase b mef used (clamp 0 100 threshold)
  | GoBackN c => go_back_n_slope_increase b mef used c (last_queried_epoch s) cur
  end.

(** * Taking and returning tokens *)

Definition rate_limit_new (b : TokenCalcBounds) : RateLimit :=
  mkRateLimit b (b_min b) (f32_of_Z (b_min b)) 0.

(** With a distributed state; [prev_max_filled] is what the store remembers. [None] is the panic
    of [clamp] on an empty range. *)
Definition rate_limit_resume (b : TokenCalcBounds) (prev_max_filled : F32) (resume_ramp_up : bool)
    : option RateLimit :=
  let limit burst := mkRateLimit b burst (f32_of_Z burst) 0 in
  if resume_ramp_up then
    if b_max b <? b_min b then None
    else Some (limit (clamp (b_min b) (b_max b) (f32_to_usize prev_max_filled)))
  else Some (limit (b_min b)).

Definition set_token (s : RateLimit) (t : Z) : RateLimit :=
  mkRateLimit (token_calc_bounds s) t (max_ever_filled s) (last_queried_epoch s).
Definition set_filled (s : RateLimit) (m : F32) : RateLimit :=
  mkRateLimit (token_calc_bounds s) (token s) m (last_queried_epoch s).
Definition set_epoch (s : RateLimit) (e : Z) : RateLimit :=
  mkRateLimit (token_calc_bounds s) (token s) (max_ever_filled s) e.

(** The atomic [try_update] of [get_tokens]: the new token count, or [None] for no update. *)
Definition take_update (n : option Z) (current : Z) : option Z :=
  if current =? 0 then None
  else Some (match n with
             | None => 0
             | Some requested => if requested <=? current then current - requested else 0
             end).

Definition take (n : option Z) (s : RateLimit) : RateLimit * TokenAvailability :=
  match take_update n (token s) with
  | Some t => (set_token s t, Available (match n with None => token s | Some r => Z.min (token s) r end))
  | None => (s, Exhausted)
  end.

Definition get_tokens (s : RateLimit) (n : option Z) (cur : Z) : RateLimit * TokenAvailability :=
  if last_queried_epoch s <? cur then (s, Recompute) else take n s.

(** The same when the tokens are shared by [known_pool_size] processors. *)
Definition pool_take_update (pool : Z) (n : option Z) (current : Z) : option Z :=
  if current =? 0 then None
  else
    let processor_tokens := current / pool in
    if processor_tokens =? 0 then None
    else
      let tokens_to_acquire := match n with None => processor_tokens | Some r => Z.min processor_tokens r end in
      if tokens_to_acquire * pool <=? current then Some (current - tokens_to_acquire * pool) else None.

Definition pool_take (pool : Z) (n : option Z) (s : RateLimit) : RateLimit * TokenAvailability :=
  match pool_take_update pool n (token s) with
  | Some t =>
      let available := token s / pool in
      (set_token s t, Available (match n with None => available | Some r => Z.min available r end))
  | None => (s, Exhausted)
  end.

Definition pool_get_tokens (known_pool_size : Z) (s : RateLimit) (n : option Z) (cur : Z)
    : RateLimit * TokenAvailability :=
  let pool := Z.max known_pool_size 1 in
  if last_queried_epoch s <? cur then (s, Recompute) else pool_take pool n s.

(** The refill of a new epoch: compute, store the tokens, store the epoch. *)
Definition refill (s : RateLimit) (cur : Z) : RateLimit :=
  let (mef, n) := compute_refill s cur in
  set_epoch (set_token (set_filled s mef) n) cur.

Definition attempt_acquire_n (s : RateLimit) (n : option Z) (cur : Z) : RateLimit * Z :=
  match get_tokens s n cur with
  | (s', Available t) => (s', t)
  | (s', Exhausted) => (s', 0)
  | (s', Recompute) =>
      match get_tokens (refill s' cur) n cur with
      | (s'', Available t) => (s'', t)
      | (s'', _) => (s'', 0)
      end
  end.

Definition pool_attempt_acquire_n (known_pool_size : Z) (s : RateLimit) (n : option Z) (cur : Z) : RateLimit * Z :=
  match pool_get_tokens known_pool_size s n cur with
  | (s', Available t) => (s', t)
  | (s', Exhausted) => (s', 0)
  | (s', Recompute) =>
      match pool_get_tokens known_pool_size (refill s' cur) n cur with
      | (s'', Available t) => (s'', t)
      | (s'', _) => (s'', 0)
      end
  end.

Definition attempt_deposit_unused (s : RateLimit) (n cur : Z) : RateLimit :=
  if negb (cur =? last_queried_epoch s) then s else set_token s (usize (token s + n)).

Definition pool_attempt_deposit_unused (known_pool_size : Z) (s : RateLimit) (n cur : Z) : RateLimit :=
  if negb (cur =? last_queried_epoch s) then s
  else set_token s (usize (token s + usize (n * known_pool_size))).

(** The acquisition loop; [wakeups] are the epochs at which it wakes up before its deadline. *)
Fixpoint acquire_loop (attempt : RateLimit -> option Z -> Z -> RateLimit * Z) (s : RateLimit) (n : option Z)
    (wakeups : list Z) : RateLimit * Z :=
  match wakeups with
  | [] => (s, 0)
  | e :: wakeups' =>
      let (s', t) := attempt s n e in
      if 0 <? t then (s', t) else acquire_loop attempt s' n wakeups'
  end.

(** [timeout] is [None] for no timeout, else the wake-ups before it. *)
Definition acquire_n (attempt : RateLimit -> option Z -> Z -> RateLimit * Z) (s : RateLimit) (n : option Z)
    (cur : Z) (timeout : option (list Z)) : RateLimit * Z :=
  let (s', t) := attempt s n cur in
  if 0 <? t then (s', t)
  else match timeout with
       | None => (s', 0)
       | Some wakeups => acquire_loop attempt s' n wakeups
       end.

Definition rate_acquire_n : RateLimit -> option Z -> Z -> option (list Z) -> RateLimit * Z :=
  acquire_n attempt_acquire_n.
Definition pool_acquire_n (known_pool_size : Z) : RateLimit -> option Z -> Z -> option (list Z) -> RateLimit * Z :=
  acquire_n (pool_attempt_acquire_n known_pool_size).

Definition noop_acquire_n (n : option Z) : Z := default usize_max n.

(** * The refill is bounded *)

Definition bounds_ok (b : TokenCalcBounds) : Prop :=
  0 <= b_min b <= b_max b /\ b_max b < 2 ^ 24 /\ f32_wf (slope b) /\ nonneg (slope b).

Definition limiter_ok (s : RateLimit) : Prop :=
  bounds_ok (token_calc_bounds s) /\ f32_wf (max_ever_filled s) /\ below (b_max (token_calc_bounds s)) (max_ever_filled s) /\
  0 <= token s <= usize_max.

(** What a refill function may return under the bounds. *)
Definition refill_ok (b : TokenCalcBounds) (r : F32 * Z) : Prop :=
  f32_wf r.1 /\ below (b_max b) r.1 /\ 0 <= r.2 <= b_max b.

Lemma below_of_Z b z : 0 <= z <= b -> b < 2 ^ 24 -> below b (f32_of_Z z).
Proof.
  intros Hz Hb. rewrite f32_of_Z_exact by lia. unfold below. simpl.
  apply (mag_le_base 0); [lia..|]. change (2 ^ (0 - 0)) with 1. lia.
Qed.

(** A representable number below the bound, and the tokens it stands for. *)
Lemma refill_ok_cast b x :
  bounds_ok b -> f32_wf x -> below (b_max b) x -> refill_ok b (x, f32_to_usize x).
Proof.
  intros (Hb & Hm & _) Hx Hle. split_and!; try done; simpl.
  - by apply f32_to_usize_nonneg.
  - apply below_to_usize; [lia|done..].
Qed.

Lemma below_min_max b x : bounds_ok b -> below (b_max b) (f32_min x (f32_of_Z (b_max b))).
Proof.
  intros (Hb & Hm & _). unfold below. rewrite <- f32_of_Z_exact by lia. apply f32_min_le_r.
  by rewrite f32_of_Z_exact by lia.
Qed.

Lemma relaxed_ok b mef :
  bounds_ok b -> f32_wf mef -> below (b_max b) mef -> refill_ok b (relaxed_slope_increase b mef).
Proof.
  intros Hb Hm Hle. pose proof Hb as (Hr & _ & Hs & _). unfold relaxed_slope_increase. case_match.
  - split_and!; try done; simpl; lia.
  - apply refill_ok_cast; [done| |by apply below_min_max]. apply f32_min_wf; [by apply f32_add_wf|].
    apply f32_of_Z_wf. lia.
Qed.

Lemma f32_div_wf x y : f32_wf x -> f32_wf y -> f32_wf (f32_div x y).
Proof.
  intros Hx Hy. destruct x as [|[]|s m e], y as [|[]|s' m' e']; simpl in *; try done; try lia.
  destruct (is_zero m') eqn:Em'; [by case_match|]. case_match; [simpl; lia|]. apply round_f32_wf.
  assert (0 < m') by (unfold is_zero in Em'; apply Z.eqb_neq in Em'; lia).
  assert (0 <= m * 2 ^ Z.max 0 (26 + Z.log2 m' - Z.log2 m) / m')
    by (apply Z.div_pos; [|done]; pose proof (pow2_pos (26 + Z.log2 m' - Z.log2 m)); nia).
  case_match; lia.
Qed.

Lemma f32_sub_wf x y : f32_wf x -> f32_wf y -> f32_wf (f32_sub x y).
Proof. intros. unfold f32_sub. auto with numa. Qed.

#[local] Hint Resolve f32_div_wf f32_sub_wf : numa.

Lemma go_back_n_ok b mef used c prev cur :
  bounds_ok b -> f32_wf mef -> below (b_max b) mef -> 0 <= cool_down_period c -> 0 <= ramp_down_percentage c ->
  refill_ok b (go_back_n_slope_increase b mef used c prev cur).
Proof.
  intros Hb Hm Hle Hc Hr. pose proof Hb as (Hmm & Hmax & Hs & Hn). unfold go_back_n_slope_increase.
  assert (Hmin : f32_wf (f32_of_Z (b_min b)) /\ f32_wf (f32_of_Z (b_max b)))
    by (split; apply f32_of_Z_wf; lia). destruct Hmin as [Hmin Hmx].
  assert (Htd : f32_wf (f32_of_Z (Z.max 0 (cur - prev)))) by (apply f32_of_Z_wf; lia).
  case_match; [|case_match].
  - apply refill_ok_cast; [done| |by apply below_min_max]. apply f32_min_wf; [|done].
    apply f32_max_wf; [|done]. apply f32_sub_wf; [done|]. apply f32_mul_wf; [apply f32_mul_wf|]; auto.
    + apply f32_div_wf; apply f32_of_Z_wf; lia.
    + apply f32_sub_wf; [done|]. by apply f32_of_Z_wf.
  - by apply relaxed_ok.
  - apply refill_ok_cast; [done|by apply f32_max_wf; [apply f32_sub_wf|]|].
    apply f32_max_lub; [by apply below_of_Z; lia|]. intros _. by apply f32_sub_below; [lia|..].
Qed.

Definition mode_ok (m : Mode) : Prop :=
  match m with GoBackN c => 0 <= cool_down_period c /\ 0 <= ramp_down_percentage c | _ => True end.

Lemma compute_refill_ok s cur :
  limiter_ok s -> mode_ok (b_mode (token_calc_bounds s)) ->
  refill_ok (token_calc_bounds s) (compute_refill s cur).
Proof.
  intros (Hb & Hm & Hle & _) Hmode. unfold compute_refill. destruct (b_mode _) as [| |t|c].
  - unfold scheduled_slope_increase. pose proof Hb as (Hmm & Hmax & Hs & Hn). case_match.
    + split_and!; try done; simpl; lia.
    + apply refill_ok_cast; [done| |by apply below_min_max].
      apply f32_min_wf; [|apply f32_of_Z_wf; lia]. apply f32_add_wf; [done|]. apply f32_mul_wf; [done|].
      apply f32_of_Z_wf. lia.
  - by apply relaxed_ok.
  - unfold only_if_used_slope_increase. case_match; [by apply relaxed_ok|]. by apply refill_ok_cast.
  - destruct Hmode. by apply go_back_n_ok.
Qed.

(** * The budget of an epoch *)

(** Both kinds of limiter: without a state, or in a pool of known size. *)
Definition attempt (pool : option Z) : RateLimit -> option Z -> Z -> RateLimit * Z :=
  match pool with None => attempt_acquire_n | Some k => pool_attempt_acquire_n k end.
Definition deposit (pool : option Z) : RateLimit -> Z -> Z -> RateLimit :=
  match pool with None => attempt_deposit_unused | Some k => pool_attempt_deposit_unused k end.
Definition share (pool : option Z) : Z := default 1 pool.

Inductive LOp :=
  | LAcquire (n : option Z)
  | LDeposit (n : Z).

Definition op_ok (o : LOp) : Prop :=
  match o with LAcquire (Some n) | LDeposit n => 0 <= n | LAcquire None => True end.
Definition deposited (o : LOp) : Z := match o with LDeposit n => n | LAcquire _ => 0 end.
Definition total (l : list Z) : Z := foldr Z.add 0 l.

Definition lexec (pool : option Z) (e : Z) (s : RateLimit) (o : LOp) : RateLimit * Z :=
  match o with
  | LAcquire n => attempt pool s n e
  | LDeposit n => (deposit pool s n e, 0)
  end.

Fixpoint lrun (pool : option Z) (e : Z) (s : RateLimit) (os : list LOp) : RateLimit * list Z :=
  match os with
  | [] => (s, [])
  | o :: os' =>
      let (s1, a) := lexec pool e s o in
      let (s2, l) := lrun pool e s1 os' in (s2, a :: l)
  end.

(** A limiter of its own is a pool of one. *)
Lemma take_is_pool_take n s : 0 <= token s -> match n with Some r => 0 <= r | None => True end ->
  take n s = pool_take 1 n s.
Proof.
  intros Ht Hn. unfold take, pool_take, take_update, pool_take_update. rewrite Z.div_1_r.
  destruct (Z.eqb_spec (token s) 0); [done|]. destruct n as [r|].
  - rewrite Z.mul_1_r. rewrite (proj2 (Z.leb_le (Z.min (token s) r) (token s))) by lia.
    destruct (Z.leb_spec r (token s)); (f_equal; f_equal; lia).
  - rewrite Z.mul_1_r, Z.leb_refl. f_equal. f_equal. lia.
Qed.

Lemma pool_take_spec pool n s s' r :
  1 <= pool -> 0 <= token s -> match n with Some x => 0 <= x | None => True end ->
  pool_take pool n s = (s', r) ->
  exists a, 0 <= a /\ s' = set_token s (token s - a * pool) /\ 0 <= token s' /\
    match r with Available t => t = a | Exhausted => a = 0 | Recompute => False end.
Proof.
  intros Hp Ht Hn. unfold pool_take, pool_take_update.
  assert (Hz : exists a, 0 <= a /\ s = set_token s (token s - a * pool) /\ 0 <= token s /\ a = 0)
    by (exists 0; rewrite Z.mul_0_l, Z.sub_0_r; by destruct s).
  destruct (Z.eqb_spec (token s) 0); [intros [= <- <-]; done|].
  pose proof (Z.div_pos (token s) pool Ht ltac:(lia)).
  pose proof (Z.mul_div_le (token s) pool ltac:(lia)).
  destruct (Z.eqb_spec (token s / pool) 0); [intros [= <- <-]; done|].
  set (a := match n with None => _ | Some x => Z.min _ x end).
  assert (Ha : 0 <= a <= token s / pool) by (unfold a; destruct n; lia).
  rewrite (proj2 (Z.leb_le (a * pool) (token s))) by nia. intros [= <- <-].
  exists a. split_and!; try done; simpl; nia.
Qed.

Lemma take_not_recompute n s : (take n s).2 <> Recompute.
Proof. unfold take. by case_match. Qed.
Lemma pool_take_not_recompute pool n s : (pool_take pool n s).2 <> Recompute.
Proof. unfold pool_take. by case_match. Qed.

(** What an attempt does in a current epoch: one take. *)
Lemma attempt_current pool s n e s' a :
  1 <= share pool -> 0 <= token s -> match n with Some x => 0 <= x | None => True end ->
  last_queried_epoch s = e -> attempt pool s n e = (s', a) ->
  0 <= a /\ s' = set_token s (token s - a * share pool) /\ 0 <= token s'.
Proof.
  intros Hp Ht Hn He. assert (Hlt : (last_queried_epoch s <? e) = false) by (apply Z.ltb_ge; lia).
  assert (Htake : forall s1 r, pool_take (share pool) n s = (s1, r) ->
    (match r with Available t => (s1, t) | _ => (s1, 0) end) = (s', a) ->
    0 <= a /\ s' = set_token s (token s - a * share pool) /\ 0 <= token s').
  { intros s1 r (x & ? & ? & ? & Hr)%pool_take_spec Heq; [|done..].
    destruct r; simplify_eq; by split_and!. }
  destruct pool as [k|]; simpl in *; unfold attempt_acquire_n, pool_attempt_acquire_n, get_tokens, pool_get_tokens;
    rewrite Hlt.
  - rewrite Z.max_l by lia. destruct (pool_take k n s) as [s1 []] eqn:E; eauto.
    apply pool_take_spec in E as (? & _ & _ & _ & []); done.
  - rewrite take_is_pool_take by done. destruct (pool_take 1 n s) as [s1 []] eqn:E; eauto.
    apply pool_take_spec in E as (? & _ & _ & _ & []); done.
Qed.

(** A new epoch is a refill followed by a current-epoch attempt. *)
Lemma attempt_new_epoch pool s n e :
  last_queried_epoch s < e -> attempt pool s n e = attempt pool (refill s e) n e.
Proof.
  intros Hlt. assert (H1 : (last_queried_epoch s <? e) = true) by (by apply Z.ltb_lt).
  assert (H2 : (last_queried_epoch (refill s e) <? e) = false).
  { unfold refill. destruct (compute_refill s e). simpl. apply Z.ltb_irrefl. }
  destruct pool as [k|]; simpl; unfold attempt_acquire_n, pool_attempt_acquire_n, get_tokens, pool_get_tokens;
    rewrite H1, H2.
  - pose proof (pool_take_not_recompute (Z.max k 1) n (refill s e)).
    by destruct (pool_take _ _ (refill s e)) as [s1 []].
  - pose proof (take_not_recompute n (refill s e)). by destruct (take _ (refill s e)) as [s1 []].
Qed.

Lemma usize_small z : 0 <= z <= usize_max -> usize z = z.
Proof. intros Hz. unfold usize, usize_max in *. apply Z.mod_small. lia. Qed.

Lemma total_deposited_nonneg os : Forall op_ok os -> 0 <= total (deposited <$> os).
Proof.
  induction 1 as [|o os Ho Hos IH]; [done|]. rewrite fmap_cons. cbn [total foldr].
  fold (total (deposited <$> os)). destruct o as [[n|]|n]; simpl in *; lia.
Qed.

Lemma lrun_current pool e s os s' acq :
  1 <= share pool -> 0 <= token s -> last_queried_epoch s = e -> Forall op_ok os ->
  token s + total (deposited <$> os) * share pool <= usize_max ->
  lrun pool e s os = (s', acq) ->
  Forall (fun a => 0 <= a) acq /\
  total acq * share pool + token s' = token s + total (deposited <$> os) * share pool /\
  0 <= token s' /\ s' = set_token s (token s').
Proof.
  intros Hp. revert s acq. induction os as [|o os IH]; intros s acq Ht He Hok Hmax; cbn [lrun].
  { intros [= <- <-]. split_and!; [constructor|simpl; lia|done|by destruct s]. }
  apply Forall_cons in Hok as [Ho Hok]. rewrite fmap_cons in *. cbn [total foldr] in *.
  fold (total (deposited <$> os)) in *.
  pose proof (total_deposited_nonneg os Hok) as Hdep.
  assert (Hd : 0 <= deposited o) by (destruct o as [[n|]|n]; simpl in *; lia).
  assert (Hstep : forall s1 a, lexec pool e s o = (s1, a) -> 0 <= a /\ 0 <= token s1 /\
    last_queried_epoch s1 = e /\ s1 = set_token s (token s1) /\
    a * share pool + token s1 = token s + deposited o * share pool).
  { intros s1 a Hx. destruct o as [n|n]; simpl in Hx.
    - apply attempt_current in Hx as (? & -> & ?); [|done..|by destruct n|done]. simpl in *.
      split_and!; try done. lia.
    - injection Hx as <- <-. assert (Hsum : token s + n * share pool <= usize_max) by (simpl in *; nia).
      assert (Hn : 0 <= n * share pool) by (simpl in Hd; nia).
      assert (Heq : deposit pool s n e = set_token s (token s + n * share pool)).
      { destruct pool as [k|]; [change (share (Some k)) with k in *|change (share None) with 1 in *];
          cbn [deposit]; unfold attempt_deposit_unused, pool_attempt_deposit_unused;
          rewrite (proj2 (Z.eqb_eq e (last_queried_epoch s))) by done; cbn [negb].
        - rewrite (usize_small (n * k)), usize_small by lia. done.
        - rewrite usize_small by lia. f_equal. lia. }
      rewrite Heq. simpl. split_and!; try done; lia. }
  destruct (lexec pool e s o) as [s1 a]. destruct (Hstep s1 a eq_refl) as (Ha & Ht1 & He1 & Hs1 & Hsum).
  destruct (lrun pool e s1 os) as [s2 l] eqn:E2. intros [= <- <-].
  destruct (IH s1 l Ht1 He1 Hok ltac:(nia) E2) as (Hl & Htot & Ht2 & Hs2).
  change (total (a :: l)) with (a + total l). split_and!; [by constructor|nia|done|]. rewrite Hs2, Hs1. done.
Qed.

(** * Concurrent callers

    The limiter is shared: an attempt is a sequence of atomic steps, and the steps of several
    attempts interleave. *)

Inductive Pc :=
  | PStart                (* before the epoch is loaded *)
  | PTake                 (* the epoch was current *)
  | PCompute              (* a new epoch was seen *)
  | PStore (n : Z)        (* the refill is computed *)
  | PEpoch                (* the tokens are stored *)
  | PCheck                (* the epoch is stored *)
  | PRetake
  | PDone (a : Z).

Record Task := mkTask {
  t_request : option Z;
  t_epoch : Z;
  t_pc : Pc
}.

Definition availability (r : TokenAvailability) : Z := match r with Available a => a | _ => 0 end.

Definition tstep (s : RateLimit) (t : Task) : RateLimit * Task :=
  let go pc := mkTask (t_request t) (t_epoch t) pc in
  match t_pc t with
  | PStart => (s, go (if last_queried_epoch s <? t_epoch t then PCompute else PTake))
  | PTake => let (s', r) := take (t_request t) s in (s', go (PDone (availability r)))
  | PCompute => let (mef, n) := compute_refill s (t_epoch t) in (set_filled s mef, go (PStore n))
  | PStore n => (set_token s n, go PEpoch)
  | PEpoch => (set_epoch s (t_epoch t), go PCheck)
  | PCheck => (s, go (if last_queried_epoch s <? t_epoch t then PDone 0 else PRetake))
  | PRetake => let (s', r) := take (t_request t) s in (s', go (PDone (availability r)))
  | PDone _ => (s, t)
  end.

(** One step of the task with the given index. *)
Definition cstep (st : RateLimit * list Task) (i : nat) : RateLimit * list Task :=
  match st.2 !! i with
  | Some t => let (s', t') := tstep st.1 t in (s', <[i := t']> st.2)
  | None => st
  end.

Definition crun (st : RateLimit * list Task) (schedule : list nat) : RateLimit * list Task :=
  foldl cstep st schedule.

Fixpoint alone (fuel : nat) (s : RateLimit) (t : Task) : RateLimit * Task :=
  match fuel with
  | O => (s, t)
  | S fuel => let (s', t') := tstep s t in alone fuel s' t'
  end.

(** The tokens a task holds. *)
Definition held (t : Task) : Z := match t_pc t with PDone a => a | _ => 0 end.

(** How many refills a task can still store. *)
Definition may_store (t : Task) : Z :=
  match t_pc t with PStart | PCompute | PStore _ => 1 | _ => 0 end.

(** A computed refill is within the bounds. *)
Definition pc_ok (b : TokenCalcBounds) (t : Task) : Prop :=
  match t_pc t with PStore n => 0 <= n <= b_max b | PDone a => 0 <= a | _ => True end /\
  match t_request t with Some r => 0 <= r | None => True end.

Lemma take_sum n s s' r :
  0 <= token s -> match n with Some x => 0 <= x | None => True end -> take n s = (s', r) ->
  0 <= availability r /\ availability r + token s' = token s /\ 0 <= token s' /\ s' = set_token s (token s').
Proof.
  intros Ht Hn Htk. rewrite take_is_pool_take in Htk by done.
  apply pool_take_spec in Htk as (a & Ha & -> & Ht' & Hr); [|lia|done..]. simpl in *.
  destruct r; simpl in *; [subst|subst|done]; split_and!; try done; lia.
Qed.

Lemma limiter_ok_set_token s t : limiter_ok s -> 0 <= t <= usize_max -> limiter_ok (set_token s t).
Proof. intros (? & ? & ? & _) [? ?]. by split_and!. Qed.

(** One step neither creates tokens nor leaves the bounds; a store may replace the pool. *)
Lemma tstep_budget s t s' t' :
  limiter_ok s -> mode_ok (b_mode (token_calc_bounds s)) -> pc_ok (token_calc_bounds s) t ->
  tstep s t = (s', t') ->
  limiter_ok s' /\ token_calc_bounds s' = token_calc_bounds s /\ pc_ok (token_calc_bounds s) t' /\
  held t' + token s' + may_store t' * b_max (token_calc_bounds s) <=
  held t + token s + may_store t * b_max (token_calc_bounds s).
Proof.
  intros Hok Hmode [Hpc Hreq] Hstep. pose proof Hok as ((Hb1 & Hb2 & _) & _ & _ & Htok).
  assert (Hmax : b_max (token_calc_bounds s) <= usize_max) by (unfold usize_max; lia).
  assert (Htake : forall s1 r, take (t_request t) s = (s1, r) ->
    limiter_ok s1 /\ token_calc_bounds s1 = token_calc_bounds s /\ 0 <= availability r /\
    availability r + token s1 = token s).
  { intros s1 r (Hr & Hsum & Ht & Hs1)%take_sum; [|lia|done]. rewrite Hs1 at 1 2. split_and!; try done.
    apply limiter_ok_set_token; [done|lia]. }
  unfold tstep, held, may_store, pc_ok in *. destruct t as [n e pc]. cbn [t_request t_epoch t_pc] in *.
  destruct pc as [| | |k| | | |a].
  - injection Hstep as <- <-. destruct (_ <? _); simpl; split_and!; try done; lia.
  - destruct (take n s) as [s1 r]. destruct (Htake _ _ eq_refl) as (? & ? & ? & ?).
    injection Hstep as <- <-. simpl. split_and!; try done; lia.
  - pose proof (compute_refill_ok s e Hok Hmode) as (Hw & Hb & Hn). destruct (compute_refill s e) as [mef k].
    injection Hstep as <- <-. simpl in *. split_and!; try done; [|lia..].
    destruct Hok as (? & ? & ? & [? ?]). by split_and!.
  - injection Hstep as <- <-. simpl. split_and!; try done; [|lia]. apply limiter_ok_set_token; [done|lia].
  - injection Hstep as <- <-. simpl. split_and!; try done; lia.
  - injection Hstep as <- <-. destruct (_ <? _); simpl; split_and!; try done; lia.
  - destruct (take n s) as [s1 r]. destruct (Htake _ _ eq_refl) as (? & ? & ? & ?).
    injection Hstep as <- <-. simpl. split_and!; try done; lia.
  - injection Hstep as <- <-. simpl. split_and!; try done; lia.
Qed.

Lemma total_cons a l : total (a :: l) = a + total l.
Proof. done. Qed.

Lemma total_insert (f : Task -> Z) ts i t t' :
  ts !! i = Some t -> total (f <$> <[i := t']> ts) = total (f <$> ts) - f t + f t'.
Proof.
  revert i. induction ts as [|x ts IH]; intros [|i] Hi; try done.
  - injection Hi as ->. change (<[0%nat := t']> (t :: ts)) with (t' :: ts). rewrite !fmap_cons, !total_cons. lia.
  - change (<[S i := t']> (x :: ts)) with (x :: <[i := t']> ts). rewrite !fmap_cons, !total_cons, (IH i Hi). lia.
Qed.

Lemma crun_budget schedule s ts :
  limiter_ok s -> mode_ok (b_mode (token_calc_bounds s)) -> Forall (pc_ok (token_calc_bounds s)) ts ->
  let r := crun (s, ts) schedule in
  limiter_ok r.1 /\ token_calc_bounds r.1 = token_calc_bounds s /\ Forall (pc_ok (token_calc_bounds s)) r.2 /\
  length r.2 = length ts /\
  total (held <$> r.2) + token r.1 + total (may_store <$> r.2) * b_max (token_calc_bounds s) <=
  total (held <$> ts) + token s + total (may_store <$> ts) * b_max (token_calc_bounds s).
Proof.
  revert s ts. induction schedule as [|i schedule IH]; intros s ts Hok Hmode Hts.
  { by split_and!. }
  change (crun (s, ts) (i :: schedule)) with (crun (cstep (s, ts) i) schedule).
  destruct (ts !! i) as [t|] eqn:Ei.
  2:{ replace (cstep (s, ts) i) with (s, ts) by (unfold cstep; simpl; by rewrite Ei). by apply IH. }
  destruct (tstep s t) as [s' t'] eqn:Es.
  replace (cstep (s, ts) i) with (s', <[i := t']> ts) by (unfold cstep; simpl; by rewrite Ei, Es).
  assert (Ht : pc_ok (token_calc_bounds s) t) by (eapply Forall_lookup_1; done).
  destruct (tstep_budget _ _ _ _ Hok Hmode Ht Es) as (Hok' & Hb & Ht' & Hle).
  destruct (IH s' (<[i := t']> ts)) as (H1 & H2 & H3 & H4 & H5).
  - done.
  - by rewrite Hb.
  - rewrite Hb. by apply Forall_insert.
  - rewrite Hb in *. split_and!; try done; [by rewrite H4, length_insert|].
    rewrite !(total_insert _ _ _ _ _ Ei) in H5. lia.
Qed.

Lemma total_bound (f : Task -> Z) ts : (forall t, 0 <= f t <= 1) -> 0 <= total (f <$> ts) <= Z.of_nat (length ts).
Proof.
  intros Hf. induction ts as [|t ts IH]; [done|]. rewrite fmap_cons, total_cons. specialize (Hf t). simpl. lia.
Qed.

Lemma total_nonneg l : Forall (fun a => 0 <= a) l -> 0 <= total l.
Proof. induction 1; [done|]. rewrite total_cons. lia. Qed.

(** * Properties *)

Definition example_limiter : RateLimit := rate_limit_new (bounds_new 20 10 (10 ^ 10) (GoBackN (mkGoBackN 5 50 80))).

Lemma example_limiter_ok : limiter_ok example_limiter.
Proof. split_and!; vm_compute; done. Qed.

(** With concurrent callers of one epoch the pool can be refilled more than once, but each
    caller stores at most one refill: under every interleaving of their atomic steps the tokens
    handed out, together with those left, stay within the tokens at the start plus one maximum
    per caller. A caller that runs alone finishes within six steps with exactly the result of the
    whole function. *)
Theorem concurrent_budget (s : RateLimit) (ts : list Task) (schedule : list nat) :
  limiter_ok s -> mode_ok (b_mode (token_calc_bounds s)) ->
  Forall (fun t => t_pc t = PStart /\ match t_request t with Some r => 0 <= r | None => True end) ts ->
  let r := crun (s, ts) schedule in
  total (held <$> r.2) + token r.1 <= token s + Z.of_nat (length ts) * b_max (token_calc_bounds s) /\
  limiter_ok r.1 /\
  forall t, t ∈ ts -> alone 6 s t =
    let (s', a) := attempt_acquire_n s (t_request t) (t_epoch t) in (s', mkTask (t_request t) (t_epoch t) (PDone a)).
Proof.
  intros Hok Hmode Hts r.
  assert (Hpc : Forall (pc_ok (token_calc_bounds s)) ts).
  { eapply Forall_impl; [exact Hts|]. intros t [Hs Hr]. split; [by rewrite Hs|done]. }
  destruct (crun_budget schedule s ts Hok Hmode Hpc) as (Hok' & _ & Hpc' & Hlen & Hsum). fold r in Hok', Hpc', Hlen, Hsum.
  pose proof Hok as ((Hb & _) & _).
  assert (Hm1 : 0 <= total (may_store <$> r.2)) by (apply total_bound; unfold may_store; intros; case_match; lia).
  assert (Hm2 : total (may_store <$> ts) <= Z.of_nat (length ts))
    by (apply total_bound; unfold may_store; intros; case_match; lia).
  assert (Hh : total (held <$> ts) = 0).
  { clear -Hts. induction Hts as [|t ts [Ht _] _ IH]; [done|]. rewrite fmap_cons, total_cons, IH. unfold held.
    by rewrite Ht. }
  split_and!; [nia|done|]. intros t Ht. rewrite Forall_forall in Hts. destruct (Hts t Ht) as [Hpct _].
  destruct t as [n e pc]. simpl in Hpct. subst pc. unfold attempt_acquire_n, get_tokens.
  cbn [t_request t_epoch]. cbn [alone tstep t_pc t_epoch t_request].
  destruct (last_queried_epoch s <? e) eqn:Hlt; cbn [alone tstep t_pc t_epoch t_request].
  - unfold refill. destruct (compute_refill s e) as [mef k].
    cbn [alone tstep t_pc t_epoch t_request set_epoch set_token set_filled last_queried_epoch].
    rewrite Z.ltb_irrefl. cbn [alone tstep t_pc t_epoch t_request].
    pose proof (take_not_recompute n (mkRateLimit (token_calc_bounds s) k mef e)) as Hnr.
    unfold set_epoch, set_token, set_filled. cbn. cbn in Hnr. destruct (take n _) as [s1 []]; done.
  - pose proof (take_not_recompute n s). destruct (take n s) as [s1 []]; done.
Qed.

(** C29: the budget of an epoch. From the first request of a new epoch on, when the calls of the epoch
    follow one another and the size of the pool stays the same, tokens are conserved whatever is
    acquired and returned: what was handed out (times the number of processors that share the pool)
    plus what is left is the refill plus what was returned. The refill never exceeds the
    configured maximum, in every ramp-up mode and in exact 32-bit arithmetic, for maxima below 2^24;
    and the limiter stays within its bounds. When the calls of tasks that share a limiter without a pool
    overlap, in any interleaving of their atomic steps, each may refill once: what they hold
    plus what is left is at most the tokens at the start and one maximum per task. *)
Theorem epoch_budget (pool : option Z) (s s' : RateLimit) (e : Z) (n : option Z) (os : list LOp) (acq : list Z) :
  limiter_ok s -> mode_ok (b_mode (token_calc_bounds s)) -> 1 <= share pool ->
  last_queried_epoch s < e -> Forall op_ok (LAcquire n :: os) ->
  b_max (token_calc_bounds s) + total (deposited <$> os) * share pool <= usize_max ->
  lrun pool e s (LAcquire n :: os) = (s', acq) ->
  let granted := (compute_refill s e).2 in
  total acq * share pool + token s' = granted + total (deposited <$> os) * share pool /\
  0 <= granted <= b_max (token_calc_bounds s) /\ Forall (fun a => 0 <= a) acq /\ limiter_ok s' /\
  (forall ts schedule, Forall (fun t => t_pc t = PStart /\ match t_request t with Some r => 0 <= r | None => True end) ts ->
     let r := crun (s, ts) schedule in
     total (held <$> r.2) + token r.1 <= token s + Z.of_nat (length ts) * b_max (token_calc_bounds s) /\ limiter_ok r.1).
Proof.
  intros Hok Hmode Hp He Hops Hmax Hrun granted.
  pose proof (compute_refill_ok s e Hok Hmode) as (Hw & Hb & Hn). fold granted in Hn.
  assert (Hr : token (refill s e) = granted /\ last_queried_epoch (refill s e) = e /\
    token_calc_bounds (refill s e) = token_calc_bounds s /\ max_ever_filled (refill s e) = (compute_refill s e).1).
  { unfold refill, granted. by destruct (compute_refill s e). }
  destruct Hr as (Ht & Hle & Hbs & Hmf).
  cbn [lrun lexec] in Hrun. rewrite attempt_new_epoch in Hrun by done.
  change (lrun pool e (refill s e) (LAcquire n :: os) = (s', acq)) in Hrun.
  destruct (lrun_current pool e (refill s e) (LAcquire n :: os) s' acq) as (Hacq & Hsum & Ht' & Hs'); try done.
  - lia.
  - rewrite fmap_cons, total_cons, Ht. simpl. nia.
  - rewrite fmap_cons, total_cons, Ht in Hsum. cbn [deposited] in Hsum. split_and!; try done; [lia..| |intros ts schedule Hts; destruct (concurrent_budget s ts schedule Hok Hmode Hts) as (? & ? & _); done].
    rewrite Hs'. apply limiter_ok_set_token; [|split; [done|]].
    + destruct Hok as (Hbo & _). pose proof Hbo as (? & ? & _). unfold limiter_ok. rewrite Hbs, Hmf, Ht.
      split_and!; try done; unfold usize_max; lia.
    + pose proof (total_nonneg _ Hacq). nia.
Qed.

Lemma epoch_budget_witness :
  let os := [LAcquire None; LDeposit 3; LAcquire (Some 2)] in
  let r := lrun (Some 2) 100 example_limiter (LAcquire (Some 4) :: os) in
  total (snd r) * share (Some 2) + token (fst r) =
    (compute_refill example_limiter 100).2 + total (deposited <$> os) * share (Some 2).
Proof.
  intros os r. unfold r. clear r.
  destruct (lrun (Some 2) 100 example_limiter (LAcquire (Some 4) :: os)) as [s' acq] eqn:E. cbn [fst snd].
  refine (proj1 (epoch_budget (Some 2) example_limiter s' 100 (Some 4) os acq example_limiter_ok _ _ _ _ _ E)).
  - vm_compute. split; intros [=].
  - vm_compute. intros [=].
  - vm_compute. reflexivity.
  - unfold os. repeat constructor; vm_compute; intros [=].
  - vm_compute. intros [=].
Defined.

Definition example_tasks : list Task := [mkTask None 100 PStart; mkTask None 100 PStart].

Lemma concurrent_budget_witness :
  let r := crun (example_limiter, example_tasks) [0%nat; 1%nat; 0%nat; 1%nat] in
  total (held <$> r.2) + token r.1 <=
    token example_limiter + Z.of_nat (length example_tasks) * b_max (token_calc_bounds example_limiter).
Proof.
  refine (proj1 (concurrent_budget example_limiter example_tasks [0%nat; 1%nat; 0%nat; 1%nat] example_limiter_ok _ _)).
  - vm_compute. split; intros [=].
  - repeat constructor.
Defined.

(** Two callers that both see the new epoch before either has stored it: each takes a whole
    refill, twice the maximum rate within one second. *)
Example double_refill :
  let s := rate_limit_new (bounds_new 10 10 (10 ^ 9) Relaxed) in
  let r := crun (s, example_tasks)
    [0; 1; 0; 0; 0; 0; 0; 1; 1; 1; 1; 1]%nat in
  held <$> r.2 = [10; 10].
Proof. vm_compute. reflexivity. Qed.

(** From 2^24 on the maximum itself is not representable: the refill rounds above it. *)
Example refill_above_max :
  let s := rate_limit_new (bounds_new 16777219 16777218 (10 ^ 9) Relaxed) in
  (compute_refill s 1).2 = 16777220.
Proof. vm_compute. reflexivity. Qed.
