(* ===== verification/ThrottleStore.v ===== *)
(** The pool size of a distributed rate limiter
    (src/rust/numaflow-throttling/src/state.rs and state/store/in_memory_store.rs).

    Processors that share a rate register in a store and report the pool size they believe in;
    the store answers whether all agree. [RateLimiterState] is the side of one processor, the
    class [Store] what it relies on, and [InMemoryStore] the implementation in the sources.
    Readings of the monotonic clock are arguments; a lock is held for each store operation. *)
From S2P Require Import Prelude Message Publisher F32 Throttle.

Inductive Consensus :=
  | Agree (pool_size : Z)
  | Disagree (pool_size : Z).

(** * The processor's side *)

Record RateLimiterState := mkLimiterState {
  valid_till_epoch : Z;
  known_pool_size : Z;
  desired_pool_size : Z;
  prev_max_filled : F32
}.

Record OptimisticValidityUpdateSecs := mkValidity {
  on_agree : Z;
  on_disagree : Z
}.

Definition validity_default : OptimisticValidityUpdateSecs := mkValidity 10 2.

(** [now] is the clock in seconds. *)
Definition update_state (now : Z) (s : RateLimiterState) (runway : OptimisticValidityUpdateSecs) (c : Consensus)
    : RateLimiterState :=
  match c with
  | Agree n => mkLimiterState (now + on_agree runway) n n (prev_max_filled s)
  | Disagree n => mkLimiterState (now + on_disagree runway) (known_pool_size s) n (prev_max_filled s)
  end.

(** What a store offers; [T] is its state and [E] what one call reads from its environment. *)
Class Store (T E : Type) := {
  register : E -> T -> string -> T * Result (Z * F32);
  deregister : E -> T -> string -> F32 -> T * Result unit;
  sync_pool_size : E -> T -> string -> Z -> bool -> T * Result Consensus
}.

Section Client.
Context {T E : Type} `{!Store T E}.

(** The start-up loop; [envs] are the environments of the calls made so far, and running out of
    them is a loop that has not returned yet. *)
Fixpoint wait_for_consensus (envs : list E) (t : T) (id : string) (desired : Z) (cancelled : bool)
    : option (T * Result Z) :=
  match envs with
  | [] => None
  | e :: envs' =>
      match sync_pool_size e t id desired cancelled with
      | (t', Err err) => Some (t', Err err)
      | (t', Ok (Agree n)) => Some (t', Ok n)
      | (t', Ok (Disagree n)) => wait_for_consensus envs' t' id n cancelled
      end
  end.

Definition limiter_state_new (e : E) (envs : list E) (now : Z) (t : T) (id : string) (cancelled : bool)
    (runway : OptimisticValidityUpdateSecs) : option (T * Result RateLimiterState) :=
  match register e t id with
  | (t', Err err) => Some (t', Err err)
  | (t', Ok (initial, filled)) =>
      match wait_for_consensus envs t' id initial cancelled with
      | None => None
      | Some (t'', Err err) => Some (t'', Err err)
      | Some (t'', Ok n) => Some (t'', Ok (mkLimiterState (now + on_agree runway) n n filled))
      end
  end.

(** One tick of the background task; an error is only logged. *)
Definition refresh (e : E) (now : Z) (runway : OptimisticValidityUpdateSecs) (t : T) (id : string)
    (s : RateLimiterState) (cancelled : bool) : T * RateLimiterState :=
  match sync_pool_size e t id (desired_pool_size s) cancelled with
  | (t', Ok c) => (t', update_state now s runway c)
  | (t', Err _) => (t', s)
  end.

Definition limiter_shutdown (e : E) (t : T) (id : string) (filled : F32) : T * Result unit :=
  deregister e t id filled.
End Client.

(** * The in-memory store *)

Record ProcessorsTimeline := mkTimeline {
  heartbeats : gmap string Instant;
  reported_pool : gmap string Z;
  filled : gmap string (Instant * F32)
}.

Record InMemoryStore := mkStore {
  inner : ProcessorsTimeline;
  stale_age : Z
}.

Definition with_ttl (ttl : Z) : InMemoryStore := mkStore (mkTimeline ∅ ∅ ∅) ttl.

(** The readings of one call: the two prunes and the heartbeat. *)
Record StoreEnv := mkStoreEnv {
  t_prune : Instant;
  t_prune_filled : Instant;
  t_beat : Instant
}.

Definition prune_stale (now : Instant) (ttl : Z) (t : ProcessorsTimeline) : ProcessorsTimeline :=
  let stale := filter (fun kv => ttl < elapsed now kv.2) (heartbeats t) in
  mkTimeline (heartbeats t ∖ stale) (filter (fun kv => stale !! kv.1 = None) (reported_pool t)) (filled t).

Definition prune_stale_prev_max_filled (now : Instant) (ttl : Z) (t : ProcessorsTimeline) : ProcessorsTimeline :=
  mkTimeline (heartbeats t) (reported_pool t) (filter (fun kv => elapsed now kv.2.1 <= ttl) (filled t)).

Section InMemory.
Context `{HashOrder}.

(** The loop over the active processors: count, minimum and maximum of the reports. *)
Definition consensus_step (t : ProcessorsTimeline) (acc : Z * Z * Z) (id : string) : Z * Z * Z :=
  let '(count, lo, hi) := acc in
  match reported_pool t !! id with
  | Some n => (count + 1, Z.min lo n, Z.max hi n)
  | None => acc
  end.

Definition compute_consensus (t : ProcessorsTimeline) : Consensus :=
  let active_count := Z.of_nat (size (heartbeats t)) in
  if active_count =? 0 then Disagree 0
  else
    let '(count, lo, hi) := foldl (consensus_step t) (0, usize_max, 0) (hm_keys (heartbeats t)) in
    if negb (count =? active_count) then Disagree hi
    else if lo =? hi then Agree hi else Disagree hi.

Definition pruned (e : StoreEnv) (s : InMemoryStore) : ProcessorsTimeline :=
  prune_stale_prev_max_filled (t_prune_filled e) (stale_age s) (prune_stale (t_prune e) (stale_age s) (inner s)).

Definition mem_register (e : StoreEnv) (s : InMemoryStore) (id : string) : InMemoryStore * Result (Z * F32) :=
  let t := pruned e s in
  let beats := <[id := t_beat e]> (heartbeats t) in
  let reported := match reported_pool t !! id with
                  | Some n => <[id := usize (n + 1)]> (reported_pool t)
                  | None => <[id := 1]> (reported_pool t)
                  end in
  (mkStore (mkTimeline beats reported (filled t)) (stale_age s),
   Ok (Z.of_nat (size beats), match filled t !! id with Some (_, x) => x | None => f32_of_Z 0 end)).

Definition mem_deregister (e : StoreEnv) (s : InMemoryStore) (id : string) (x : F32) : InMemoryStore * Result unit :=
  let t := inner s in
  (mkStore (mkTimeline (delete id (heartbeats t)) (delete id (reported_pool t)) (<[id := (t_beat e, x)]> (filled t)))
     (stale_age s), Ok tt).

Definition mem_sync_pool_size (e : StoreEnv) (s : InMemoryStore) (id : string) (n : Z) (cancelled : bool)
    : InMemoryStore * Result Consensus :=
  if cancelled then (s, Err (EOther "Operation cancelled"))
  else
    let t := pruned e s in
    let t' := mkTimeline (<[id := t_beat e]> (heartbeats t)) (<[id := n]> (reported_pool t)) (filled t) in
    (mkStore t' (stale_age s), Ok (compute_consensus t')).

#[global] Instance in_memory_store : Store InMemoryStore StoreEnv := {
  register := mem_register;
  deregister := mem_deregister;
  sync_pool_size := mem_sync_pool_size
}.
End InMemory.

(** * What the store answers *)

Section Answers.
Context `{HashOrder}.

(** [v] is the greatest pool size reported by an active processor. *)
Definition greatest (t : ProcessorsTimeline) (v : Z) : Prop :=
  (exists id, is_Some (heartbeats t !! id) /\ reported_pool t !! id = Some v) /\
  forall id n, is_Some (heartbeats t !! id) -> reported_pool t !! id = Some n -> n <= v.

(** Every active processor reports [v]. *)
Definition unanimous (t : ProcessorsTimeline) (v : Z) : Prop :=
  forall id, is_Some (heartbeats t !! id) -> reported_pool t !! id = Some v.

Lemma consensus_fold t ids count lo hi :
  (forall id, id ∈ ids -> is_Some (reported_pool t !! id)) ->
  exists rs, foldl (consensus_step t) (count, lo, hi) ids =
    (count + Z.of_nat (length ids), foldl Z.min lo rs, foldl Z.max hi rs) /\
    (forall n, n ∈ rs <-> exists id, id ∈ ids /\ reported_pool t !! id = Some n).
Proof.
  revert count lo hi. induction ids as [|id ids IH]; intros count lo hi Hall; simpl.
  { exists []. split; [simpl; f_equal; f_equal; lia|]. intros n. rewrite elem_of_nil.
    split; [done|]. intros (? & ?%elem_of_nil & _). done. }
  destruct (Hall id) as [n Hn]; [by left|]. rewrite Hn.
  destruct (IH (count + 1) (Z.min lo n) (Z.max hi n)) as (rs & Hf & Hrs); [intros; apply Hall; by right|].
  exists (n :: rs). rewrite Hf. split; [simpl; f_equal; f_equal; lia|].
  intros k. rewrite elem_of_cons, Hrs. setoid_rewrite elem_of_cons. split.
  - intros [->|(j & ? & ?)]; eauto.
  - intros (j & [->|Hj] & Hk); [left; congruence|eauto].
Qed.

(** With a report from every active processor: agreement exactly when all reports are equal, and
    the answer is the greatest report. *)
Lemma compute_consensus_spec t :
  heartbeats t <> ∅ ->
  (forall id, is_Some (heartbeats t !! id) -> exists n, reported_pool t !! id = Some n /\ 0 <= n <= usize_max) ->
  exists v, greatest t v /\
    (compute_consensus t = Agree v /\ unanimous t v \/ compute_consensus t = Disagree v /\ ~ unanimous t v).
Proof.
  intros Hne Hall. unfold compute_consensus.
  assert (Hsz : size (heartbeats t) <> 0%nat) by (intros Hz; by apply map_size_empty_inv in Hz).
  destruct (Z.eqb_spec (Z.of_nat (size (heartbeats t))) 0); [lia|].
  destruct (consensus_fold t (hm_keys (heartbeats t)) 0 usize_max 0) as (rs & -> & Hrs).
  { intros id Hid%elem_of_hm_keys. destruct (Hall id Hid) as (k & -> & _). eauto. }
  setoid_rewrite elem_of_hm_keys in Hrs.
  assert (Hlen : Z.of_nat (length (hm_keys (heartbeats t))) = Z.of_nat (size (heartbeats t))).
  { unfold hm_keys. rewrite length_fmap, hm_iter_perm. by rewrite length_map_to_list. }
  rewrite Z.add_0_l, Hlen, Z.eqb_refl. cbn [negb].
  destruct (foldl_max_spec rs 0) as (H1 & H2 & H3), (foldl_min_spec rs usize_max) as (G1 & G2 & G3).
  set (hi := foldl Z.max 0 rs) in *. set (lo := foldl Z.min usize_max rs) in *.
  assert (Hb : forall n, n ∈ rs -> 0 <= n <= usize_max).
  { intros k (id & Hid & Hk)%Hrs. destruct (Hall id Hid) as (k' & Hk' & ?). by simplify_eq. }
  assert (Hex : exists k, k ∈ rs).
  { apply map_choose in Hne as (id & x & Hx). destruct (Hall id) as (k & Hk & _); [eauto|].
    exists k. apply Hrs. eauto. }
  destruct Hex as [k Hk]. pose proof (H2 k Hk). pose proof (G2 k Hk). pose proof (Hb k Hk).
  assert (Hhi : hi ∈ rs) by (destruct H3 as [E|]; [assert (k = hi) as <- by lia|]; done).
  assert (Hlo : lo ∈ rs) by (destruct G3 as [E|]; [assert (k = lo) as <- by lia|]; done).
  exists hi. split.
  { split; [apply Hrs in Hhi as (id & ? & ?); eauto|]. intros id j Hid Hj. apply H2, Hrs. eauto. }
  destruct (Z.eqb_spec lo hi) as [E|E]; [left|right]; (split; [done|]).
  - intros id Hid. destruct (Hall id Hid) as (j & Hj & _). assert (j ∈ rs) by (apply Hrs; eauto).
    pose proof (H2 j). pose proof (G2 j). rewrite Hj. f_equal. specialize (H2 j). specialize (G2 j). naive_solver lia.
  - intros Hu. apply E. apply Hrs in Hlo as (id & Hid & Hl), Hhi as (id' & Hid' & Hh).
    specialize (Hu id Hid). congruence.
Qed.

Lemma prune_stale_fresh now ttl t :
  (forall id last, heartbeats t !! id = Some last -> elapsed now last <= ttl) -> prune_stale now ttl t = t.
Proof.
  intros Hf. unfold prune_stale.
  assert (filter (fun kv => ttl < elapsed now kv.2) (heartbeats t) = ∅) as ->.
  { apply map_empty_filter. intros id last Hl ?. specialize (Hf id last Hl). simpl in *. lia. }
  destruct t as [b r f]. simpl in *. f_equal; [by apply map_difference_empty|].
  apply map_filter_id. intros id n _. apply lookup_empty.
Qed.
End Answers.

(** * Convergence *)

Section Convergence.
Context `{HashOrder} (runway : OptimisticValidityUpdateSecs).

(** The store and the state of every processor; a tick is one refresh of one of them. *)
Abbreviation System := (InMemoryStore * gmap string RateLimiterState)%type (only parsing).

Record Tick := mkTick { tick_id : string; tick_env : StoreEnv; tick_now : Z }.

Definition sys_tick (sys : System) (k : Tick) : System :=
  match snd sys !! tick_id k with
  | Some s => let (t', s') := refresh (tick_env k) (tick_now k) runway (fst sys) (tick_id k) s false in
              (t', <[tick_id k := s']> (snd sys))
  | None => sys
  end.

Definition sys_run (sys : System) (ks : list Tick) : System := foldl sys_tick sys ks.

(** All that happens does so within the time a heartbeat stays fresh. *)
Context (lo hi : Instant).

Definition in_time (x : Instant) : Prop := lo <= x <= hi.
Definition tick_ok (k : Tick) : Prop :=
  in_time (t_prune (tick_env k)) /\ in_time (t_prune_filled (tick_env k)) /\ in_time (t_beat (tick_env k)).

(** The active processors are the ones with a state; none reports or wants more than [M]. *)
Definition stage (M : Z) (sys : System) : Prop :=
  hi - lo <= stale_age (fst sys) /\ 0 <= stale_age (fst sys) /\ 0 <= M <= usize_max /\
  dom (heartbeats (inner (fst sys))) = dom (snd sys) /\
  map_Forall (fun _ last => in_time last) (heartbeats (inner (fst sys))) /\
  forall id s, snd sys !! id = Some s -> exists r, reported_pool (inner (fst sys)) !! id = Some r /\
    0 <= r <= M /\ 0 <= desired_pool_size s <= M.

Definition wants (sys : System) (id : string) (n : Z) : Prop :=
  desired_pool_size <$> snd sys !! id = Some n.
Definition reports (sys : System) (id : string) (n : Z) : Prop :=
  reported_pool (inner (fst sys)) !! id = Some n.

Lemma sys_tick_spec M sys k s :
  stage M sys -> tick_ok k -> snd sys !! tick_id k = Some s ->
  let sys' := sys_tick sys k in
  stage M sys' /\ dom (snd sys') = dom (snd sys) /\
  (forall id n, id <> tick_id k -> (wants sys' id n <-> wants sys id n) /\ (reports sys' id n <-> reports sys id n)) /\
  reports sys' (tick_id k) (desired_pool_size s) /\
  exists v, wants sys' (tick_id k) v /\ greatest (inner (fst sys')) v /\
    (unanimous (inner (fst sys')) v -> known_pool_size <$> snd sys' !! tick_id k = Some v).
Proof.
  intros (Hage & Hage0 & HM & Hdom & Hfresh & Hst) (Hk1 & Hk2 & Hk3) Hs sys'.
  set (id := tick_id k) in *. destruct sys as [st m]. simpl in *.
  assert (Hpr : prune_stale (t_prune (tick_env k)) (stale_age st) (inner st) = inner st).
  { apply prune_stale_fresh. intros id' last Hl. specialize (Hfresh id' last Hl).
    unfold in_time, elapsed in *. simpl in *. lia. }
  set (t' := mkTimeline (<[id := t_beat (tick_env k)]> (heartbeats (inner st)))
    (<[id := desired_pool_size s]> (reported_pool (inner st)))
    (filter (fun kv => elapsed (t_prune_filled (tick_env k)) kv.2.1 <= stale_age st) (filled (inner st)))).
  assert (Hsys : sys' = (mkStore t' (stale_age st),
    <[id := update_state (tick_now k) s runway (compute_consensus t')]> m)).
  { unfold sys', sys_tick, refresh. cbn [fst snd]. fold id. rewrite Hs. cbn [sync_pool_size in_memory_store].
    unfold mem_sync_pool_size, pruned. by rewrite Hpr. }
  assert (Hact : forall j, is_Some (heartbeats t' !! j) <-> is_Some (m !! j)).
  { intros j. simpl. rewrite <- !(elem_of_dom (D := gset string)). rewrite dom_insert_L, Hdom.
    rewrite elem_of_union, elem_of_singleton. split; [|auto]. intros [->|?]; [|done]. apply elem_of_dom. eauto. }
  destruct (Hst id s Hs) as (r0 & Hr0 & Hle0 & HleM).
  assert (Hrep : forall j, is_Some (heartbeats t' !! j) -> exists n, reported_pool t' !! j = Some n /\ 0 <= n <= M).
  { intros j Hj. simpl. rewrite lookup_insert. case_decide; [eexists; split; [done|lia]|].
    apply Hact in Hj as [sj Hj]. destruct (Hst j sj Hj) as (r & ? & ? & ?). exists r. split; [done|lia]. }
  destruct (compute_consensus_spec t') as (v & Hg & Hc).
  { intros He. assert (is_Some (heartbeats t' !! id)) as [? Hx] by (apply Hact; eauto).
    rewrite He in Hx. by apply lookup_empty_Some in Hx. }
  { intros j Hj. destruct (Hrep j Hj) as (n & ? & ?). exists n. split; [done|lia]. }
  assert (Hv : desired_pool_size s <= v <= M).
  { destruct Hg as [(j & Hj & Hjv) Hub]. destruct (Hrep j Hj) as (n & Hn & ?).
    rewrite Hjv in Hn. injection Hn as <-. split; [|lia]. apply (Hub id); [apply Hact; eauto|].
    simpl. by rewrite lookup_insert_eq. }
  assert (Hdes : desired_pool_size (update_state (tick_now k) s runway (compute_consensus t')) = v)
    by (destruct Hc as [[-> _]|[-> _]]; done).
  rewrite Hsys. split; [split_and!; simpl; try done|split_and!; simpl].
  - lia.
  - lia.
  - by rewrite !dom_insert_L, Hdom.
  - by apply map_Forall_insert_2.
  - intros j sj. rewrite !lookup_insert. case_decide as Hj.
    + intros [= <-]. rewrite Hdes. eexists. split; [done|]. lia.
    + intros Hm. by apply Hst.
  - rewrite dom_insert_L. apply elem_of_dom_2 in Hs. set_solver.
  - intros j n Hj. unfold wants, reports. simpl. by rewrite !lookup_insert_ne by done.
  - unfold reports. simpl. by rewrite lookup_insert_eq.
  - exists v. split_and!; [unfold wants; simpl; rewrite lookup_insert_eq; simpl; by rewrite Hdes|done|].
    intros Hu. rewrite lookup_insert_eq. simpl. by destruct Hc as [[-> _]|[_ Hnu]].
Qed.

Definition knows (sys : System) (id : string) (n : Z) : Prop := known_pool_size <$> snd sys !! id = Some n.

(** A property of one processor that every tick keeps, and the tick of that processor makes. *)
Lemma sys_run_gain M (I : System -> Prop) (P : System -> string -> Prop) ks sys :
  (forall sys k, stage M sys -> tick_ok k -> I sys -> I (sys_tick sys k)) ->
  (forall sys k id, stage M sys -> tick_ok k -> I sys -> P sys id -> P (sys_tick sys k) id) ->
  (forall sys k s, stage M sys -> tick_ok k -> I sys -> snd sys !! tick_id k = Some s -> P (sys_tick sys k) (tick_id k)) ->
  stage M sys -> Forall tick_ok ks -> I sys ->
  let sys' := sys_run sys ks in
  stage M sys' /\ dom (snd sys') = dom (snd sys) /\ I sys' /\
  forall id, id ∈ dom (snd sys) -> P sys id \/ id ∈ tick_id <$> ks -> P sys' id.
Proof.
  intros HI HP Hgain. revert sys. induction ks as [|k ks IH]; intros sys Hst Hks Hi.
  { split_and!; try done. intros id _ [?|?%elem_of_nil]; done. }
  apply Forall_cons in Hks as [Hk Hks].
  change (sys_run sys (k :: ks)) with (sys_run (sys_tick sys k) ks).
  assert (Hst1 : stage M (sys_tick sys k) /\ dom (snd (sys_tick sys k)) = dom (snd sys)).
  { destruct (snd sys !! tick_id k) as [s|] eqn:Es.
    - by destruct (sys_tick_spec M sys k s Hst Hk Es) as (? & ? & _).
    - unfold sys_tick. by rewrite Es. }
  destruct Hst1 as [Hst1 Hd1]. destruct (IH _ Hst1 Hks (HI _ _ Hst Hk Hi)) as (H1 & H2 & H3 & H4).
  split_and!; [done|by rewrite H2|done|]. intros id Hid Hor. apply H4; [by rewrite Hd1|].
  rewrite fmap_cons, elem_of_cons in Hor. destruct Hor as [Hp|[->|?]]; [left; by apply HP| |by right].
  left. apply elem_of_dom in Hid as [s Hs]. by eapply Hgain.
Qed.

Lemma wants_le M sys id n : stage M sys -> wants sys id n -> n <= M.
Proof.
  intros (_ & _ & _ & _ & _ & Hst) Hw. unfold wants in Hw. destruct (snd sys !! id) as [s|] eqn:E; [|done].
  injection Hw as <-. by destruct (Hst id s E) as (? & _ & _ & _ & ?).
Qed.

Lemma tick_other sys k : snd sys !! tick_id k = None -> sys_tick sys k = sys.
Proof. intros E. unfold sys_tick. by rewrite E. Qed.

(** Who wants the maximum keeps wanting it, and reports it at its next tick. *)
Lemma keep_wants M sys k id : stage M sys -> tick_ok k -> wants sys id M -> wants (sys_tick sys k) id M.
Proof.
  intros Hst Hk Hw. destruct (snd sys !! tick_id k) as [s|] eqn:Es; [|by rewrite tick_other].
  destruct (sys_tick_spec M sys k s Hst Hk Es) as (Hst' & Hd & Hoth & Hrep & v & Hv & Hg & _).
  destruct (decide (id = tick_id k)) as [->|Hne]; [|by apply Hoth].
  unfold wants in Hw. rewrite Es in Hw. injection Hw as Hw. rewrite Hw in Hrep.
  assert (M <= v).
  { apply (proj2 Hg (tick_id k)); [|exact Hrep]. apply elem_of_dom. destruct Hst' as (_ & _ & _ & Hdom & _).
    rewrite Hdom, Hd. apply elem_of_dom. eauto. }
  pose proof (wants_le _ _ _ _ Hst' Hv). by assert (v = M) as -> by lia.
Qed.

Lemma report_wanted M sys k s :
  stage M sys -> tick_ok k -> snd sys !! tick_id k = Some s -> wants sys (tick_id k) M ->
  reports (sys_tick sys k) (tick_id k) M.
Proof.
  intros Hst Hk Es Hw. destruct (sys_tick_spec M sys k s Hst Hk Es) as (_ & _ & _ & Hrep & _).
  unfold wants in Hw. rewrite Es in Hw. injection Hw as Hw. by rewrite Hw in Hrep.
Qed.

Definition both (M : Z) (sys : System) (id : string) : Prop := wants sys id M /\ reports sys id M.

Lemma keep_both M sys k id : stage M sys -> tick_ok k -> both M sys id -> both M (sys_tick sys k) id.
Proof.
  intros Hst Hk [Hw Hr]. split; [by apply keep_wants|].
  destruct (snd sys !! tick_id k) as [s|] eqn:Es; [|by rewrite tick_other].
  destruct (decide (id = tick_id k)) as [->|Hne]; [by eapply report_wanted|].
  destruct (sys_tick_spec M sys k s Hst Hk Es) as (_ & _ & Hoth & _). by apply Hoth.
Qed.

(** Next to a processor that reports the maximum, a tick learns it. *)
Lemma learn_wants M sys k s h :
  stage M sys -> tick_ok k -> snd sys !! tick_id k = Some s -> both M sys h -> wants (sys_tick sys k) (tick_id k) M.
Proof.
  intros Hst Hk Es Hb. pose proof (keep_both M sys k h Hst Hk Hb) as [Hw' Hr'].
  destruct (sys_tick_spec M sys k s Hst Hk Es) as (Hst' & Hd & _ & _ & v & Hv & Hg & _).
  assert (M <= v).
  { apply (proj2 Hg h); [|exact Hr']. apply elem_of_dom. pose proof Hst' as (_ & _ & _ & Hdom & _).
    rewrite Hdom. apply elem_of_dom. unfold wants in Hw'. destruct (snd (sys_tick sys k) !! h); [eauto|done]. }
  pose proof (wants_le _ _ _ _ Hst' Hv). by assert (v = M) as -> by lia.
Qed.

Definition all_both (M : Z) (sys : System) : Prop := forall id, id ∈ dom (snd sys) -> both M sys id.

Lemma sys_tick_dom M sys k : stage M sys -> tick_ok k -> dom (snd (sys_tick sys k)) = dom (snd sys).
Proof.
  intros Hst Hk. destruct (snd sys !! tick_id k) as [s|] eqn:Es; [|by rewrite tick_other].
  by destruct (sys_tick_spec M sys k s Hst Hk Es) as (_ & ? & _).
Qed.

Lemma keep_all_both M sys k : stage M sys -> tick_ok k -> all_both M sys -> all_both M (sys_tick sys k).
Proof. intros Hst Hk Ha id Hid. rewrite (sys_tick_dom M) in Hid by done. by apply keep_both, Ha. Qed.

(** When all report the maximum, a tick is answered with agreement on it. *)
Lemma learn_knows M sys k s :
  stage M sys -> tick_ok k -> all_both M sys -> snd sys !! tick_id k = Some s -> knows (sys_tick sys k) (tick_id k) M.
Proof.
  intros Hst Hk Ha Es. pose proof (keep_all_both M sys k Hst Hk Ha) as Ha'.
  destruct (sys_tick_spec M sys k s Hst Hk Es) as (Hst' & Hd & _ & _ & v & Hv & Hg & Hu).
  assert (Hun : unanimous (inner (fst (sys_tick sys k))) M).
  { intros id Hid. apply (Ha' id). apply elem_of_dom in Hid. by destruct Hst' as (_ & _ & _ & <- & _). }
  assert (v = M) as ->; [|by apply Hu].
  destruct Hg as [(id & Hid & Hv') _]. specialize (Hun id Hid). congruence.
Qed.

Lemma keep_knows M sys k id :
  stage M sys -> tick_ok k -> all_both M sys -> knows sys id M -> knows (sys_tick sys k) id M.
Proof.
  intros Hst Hk Ha Hn. destruct (snd sys !! tick_id k) as [s|] eqn:Es; [|by rewrite tick_other].
  destruct (decide (id = tick_id k)) as [->|Hne]; [by eapply learn_knows|].
  unfold knows, sys_tick in *. rewrite Es. destruct (refresh _ _ _ _ _ _ _) as [t' s'].
  simpl. by rewrite lookup_insert_ne.
Qed.
End Convergence.

(** * Properties *)

(** The processors come to use the greatest size wanted, whatever the number of active processors is;
    the documentation of the store says that they agree only on that number. *)
Theorem pool_agrees_any_size (O : HashOrder) (runway : OptimisticValidityUpdateSecs) (lo hi : Instant) (M : Z)
    (sys : InMemoryStore * gmap string RateLimiterState) (h : string) (ks1 ks2 ks3 ks4 : list Tick) :
  stage lo hi M sys -> wants sys h M ->
  Forall (fun ks => Forall (tick_ok lo hi) ks /\ forall id, id ∈ dom (snd sys) -> id ∈ tick_id <$> ks)
    [ks1; ks2; ks3; ks4] ->
  let sys' := sys_run runway sys (ks1 ++ ks2 ++ ks3 ++ ks4) in
  dom (snd sys') = dom (snd sys) /\
  forall id s, snd sys' !! id = Some s -> known_pool_size s = M /\ desired_pool_size s = M.
Proof.
  intros Hst Hw Hks. apply Forall_cons in Hks as [[Ht1 Hc1] [[Ht2 Hc2] [[Ht3 Hc3] [[Ht4 Hc4] _]%Forall_cons]%Forall_cons]%Forall_cons].
  assert (Hh : h ∈ dom (snd sys)).
  { unfold wants in Hw. destruct (snd sys !! h) eqn:E; [|done]. by apply elem_of_dom_2 in E. }
  unfold sys_run. rewrite !foldl_app. fold (sys_run runway sys ks1). set (s1 := sys_run runway sys ks1).
  destruct (sys_run_gain runway lo hi M (fun sys => wants sys h M) (fun sys id => id = h -> both M sys id) ks1 sys)
    as (Hst1 & Hd1 & _ & Hb1); try done.
  { intros. by eapply keep_wants. }
  { intros s k id ? ? ? Hb Heq. eapply keep_both; [done..|]. by apply Hb. }
  { intros s k x ? ? Hws Hx Heq. rewrite Heq in *. split; [by eapply keep_wants|].
    rewrite <- Heq in *. by eapply report_wanted. }
  fold s1 in Hst1, Hd1, Hb1. specialize (Hb1 h Hh (or_intror (Hc1 h Hh)) eq_refl).
  fold (sys_run runway s1 ks2). set (s2 := sys_run runway s1 ks2).
  destruct (sys_run_gain runway lo hi M (fun sys => both M sys h) (fun sys id => wants sys id M) ks2 s1)
    as (Hst2 & Hd2 & _ & Hb2); try done.
  { intros. by eapply keep_both. }
  { intros. by eapply keep_wants. }
  { intros. by eapply learn_wants. }
  fold s2 in Hst2, Hd2, Hb2. rewrite Hd1 in Hd2, Hb2.
  assert (Hall2 : forall id, id ∈ dom (snd sys) -> wants s2 id M) by (intros; apply Hb2; auto).
  fold (sys_run runway s2 ks3). set (s3 := sys_run runway s2 ks3).
  destruct (sys_run_gain runway lo hi M (fun s => forall id, id ∈ dom (snd sys) -> wants s id M)
    (fun s id => id ∈ dom (snd sys) -> both M s id) ks3 s2) as (Hst3 & Hd3 & _ & Hb3); try done.
  { intros s k ? ? Hs id Hid. eapply keep_wants; [done..|by apply Hs]. }
  { intros s k id ? ? ? Hs Hid. eapply keep_both; [done..|by apply Hs]. }
  { intros s k x ? ? Hs Hx Hid. split; [eapply keep_wants; [done..|by apply Hs]|].
    eapply report_wanted; [done..|]. by apply Hs. }
  fold s3 in Hst3, Hd3, Hb3. rewrite Hd2 in Hd3, Hb3.
  assert (Hall3 : all_both M s3) by (intros id Hid; rewrite Hd3 in Hid; apply Hb3; auto).
  fold (sys_run runway s3 ks4). set (s4 := sys_run runway s3 ks4).
  destruct (sys_run_gain runway lo hi M (all_both M) (fun sys id => knows sys id M) ks4 s3)
    as (Hst4 & Hd4 & Hall4 & Hb4); try done.
  { intros. by eapply keep_all_both. }
  { intros. by eapply keep_knows. }
  { intros. by eapply learn_knows. }
  fold s4 in Hst4, Hd4, Hall4, Hb4. rewrite Hd3 in Hd4, Hb4. split; [done|]. intros id s Hs.
  assert (Hid : id ∈ dom (snd sys)) by (rewrite <- Hd4; by eapply elem_of_dom_2).
  specialize (Hb4 id Hid (or_intror (Hc4 id Hid))). unfold knows in Hb4. rewrite Hs in Hb4.
  destruct (Hall4 id) as [Hw4 _]; [by rewrite Hd4|]. unfold wants in Hw4. rewrite Hs in Hw4.
  simpl in *. split; congruence.
Qed.

(** C34: the processors of a pool come to the same size. As long as all heartbeats stay fresh and
    nobody joins or leaves, and no size was reported above the greatest that a processor wants, after
    any four rounds of refreshes (in each, every processor refreshes at least once, in any order) every
    processor wants this greatest size; and every processor uses it, if it is the number of active
    processors. (That number is what the documentation of the store requires for an agreement; the
    code does not: see [pool_agrees_any_size].) *)
Theorem pool_converges (O : HashOrder) (runway : OptimisticValidityUpdateSecs) (lo hi : Instant) (M : Z)
    (sys : InMemoryStore * gmap string RateLimiterState) (h : string) (ks1 ks2 ks3 ks4 : list Tick) :
  stage lo hi M sys -> wants sys h M ->
  Forall (fun ks => Forall (tick_ok lo hi) ks /\ forall id, id ∈ dom (snd sys) -> id ∈ tick_id <$> ks)
    [ks1; ks2; ks3; ks4] ->
  let sys' := sys_run runway sys (ks1 ++ ks2 ++ ks3 ++ ks4) in
  dom (snd sys') = dom (snd sys) /\
  forall id s, snd sys' !! id = Some s ->
    desired_pool_size s = M /\ (M = Z.of_nat (size (snd sys)) -> known_pool_size s = M).
Proof.
  intros Hst Hw Hks. destruct (pool_agrees_any_size O runway lo hi M sys h ks1 ks2 ks3 ks4 Hst Hw Hks) as [Hd Hs].
  split; [done|]. intros id s Hid. by destruct (Hs id s Hid).
Qed.

(** Three processors that registered one after the other and want 1, 2 and 3. *)
Definition example_env (t : Instant) : StoreEnv := mkStoreEnv t t t.

Definition register_all (ids : list string) (st : InMemoryStore) : InMemoryStore * gmap string RateLimiterState :=
  foldl (fun sys id =>
    match mem_register (example_env 0) (fst sys) id with
    | (st', Ok (n, x)) => (st', <[id := mkLimiterState 0 0 n x]> (snd sys))
    | (st', Err _) => (st', snd sys)
    end) (st, ∅) ids.

Definition example_pool : InMemoryStore * gmap string RateLimiterState :=
  register_all ["a"; "b"; "c"] (with_ttl 100).

Definition example_round : list Tick :=
  [mkTick "c" (example_env 5) 0; mkTick "a" (example_env 6) 0; mkTick "b" (example_env 7) 0].

Lemma example_pool_stage : stage 0 10 3 example_pool.
Proof.
  split_and!; try (vm_compute; (reflexivity || (intros [=]; fail))); try done.
  - apply map_Forall_to_list. vm_compute. repeat constructor; intros [=].
  - intros id s Hs. assert (Hin : (id, s) ∈ map_to_list (snd example_pool)) by (by apply elem_of_map_to_list).
    revert Hin. generalize id s. clear id s Hs.
    assert (Hall : Forall (fun kv => exists r, reported_pool (inner (fst example_pool)) !! kv.1 = Some r /\
      0 <= r <= 3 /\ 0 <= desired_pool_size kv.2 <= 3) (map_to_list (snd example_pool))).
    { set (l := map_to_list (snd example_pool)). vm_compute in l. unfold l.
      repeat constructor; eexists; (split; [vm_compute; reflexivity|vm_compute; repeat split; intros [=]]). }
    rewrite Forall_forall in Hall. intros id s Hin. exact (Hall (id, s) Hin).
Qed.

Lemma pool_converges_witness :
  let sys' := @sys_run canonical_order validity_default example_pool
    (example_round ++ example_round ++ example_round ++ example_round) in
  dom (snd sys') = dom (snd example_pool) /\
  size (snd example_pool) = 3%nat /\
  forall id s, snd sys' !! id = Some s -> desired_pool_size s = 3 /\ known_pool_size s = 3.
Proof.
  intros sys'. assert (Hsz : size (snd example_pool) = 3%nat) by (vm_compute; reflexivity).
  destruct (pool_converges canonical_order validity_default 0 10 3 example_pool "c"
    example_round example_round example_round example_round example_pool_stage) as [Hd Hs].
  - vm_compute. reflexivity.
  - assert (Hr : Forall (tick_ok 0 10) example_round /\
      forall id, id ∈ dom (snd example_pool) -> id ∈ tick_id <$> example_round).
    { split; [repeat constructor; vm_compute; intros [=]|].
      assert (Hd : dom (snd example_pool) = {["a"; "b"; "c"]}) by (vm_compute; reflexivity).
      rewrite Hd. intros id Hid. vm_compute (tick_id <$> example_round). set_solver. }
    repeat (apply Forall_cons; split; [exact Hr|]). apply Forall_nil. exact I.
  - split; [exact Hd|]. split; [exact Hsz|]. intros id s Hid. destruct (Hs id s Hid) as [Hw Hk].
    split; [exact Hw|]. apply Hk. rewrite Hsz. reflexivity.
Defined.

(** A pool does not shrink: two of three processors that agree on three go on agreeing on three
    after the third has left, and a third of the rate is given to nobody. *)
Example pool_keeps_left_processor :
  let round := [mkTick "a" (example_env 6) 0; mkTick "b" (example_env 7) 0] in
  let sys := @sys_run canonical_order validity_default example_pool
    (example_round ++ example_round ++ example_round ++ example_round) in
  let st := fst (mem_deregister (example_env 8) (fst sys) "c" (f32_of_Z 0)) in
  let sys' := @sys_run canonical_order validity_default (st, delete "c" (snd sys)) (round ++ round ++ round ++ round) in
  @compute_consensus canonical_order (inner (fst sys')) = Agree 3 /\
  known_pool_size <$> snd sys' !! "a" = Some 3 /\ size (heartbeats (inner (fst sys'))) = 2%nat.
Proof. vm_compute. split_and!; reflexivity. Qed.
