(* ===== verification/Forward.v ===== *)
(** Conditional forwarding (src/rust/numaflow-core/src/shared/forward.rs): whether an edge takes
    a message, and the partition it is written to. The hash of the standard library is an
    argument: its algorithm is unspecified. *)
From S2P Require Import Prelude.

Record TagConditions := mkTagConditions {
  tc_operator : option string;
  tc_values : list string
}.

Record ForwardConditions := mkForwardConditions { fc_tags : TagConditions }.

Definition contains (x : string) (l : list string) : bool := bool_decide (x ∈ l).

Definition check_operator_condition (op : string) (edge_tags message_tags : list string) : bool :=
  if bool_decide (op = "and") then forallb (fun v => contains v message_tags) edge_tags
  else if bool_decide (op = "or") then existsb (fun v => contains v message_tags) edge_tags
  else if bool_decide (op = "not") then negb (existsb (fun v => contains v message_tags) edge_tags)
  else false.

Definition should_forward (tags : option (list string)) (conditions : option ForwardConditions) : bool :=
  match conditions with
  | None => true
  | Some c =>
      match tc_values (fc_tags c) with
      | [] => true
      | values => check_operator_condition (default "or" (tc_operator (fc_tags c))) values (default [] tags)
      end
  end.

(** [None] is the panic of a remainder by zero. *)
Definition determine_partition (hash : string -> Z) (shuffle_key : string) (partitions_count : Z) : option Z :=
  if partitions_count =? 1 then Some 0
  else if partitions_count =? 0 then None
  else Some (as_u16 (hash shuffle_key mod partitions_count)).

(** * Lemmas *)

Lemma contains_spec x l : contains x l = true <-> x ∈ l.
Proof. apply bool_decide_eq_true. Qed.

Lemma forallb_contains l k : forallb (fun v => contains v k) l = true <-> forall v, v ∈ l -> v ∈ k.
Proof. rewrite forallb_forall. setoid_rewrite contains_spec. by setoid_rewrite <- list_elem_of_In. Qed.

Lemma existsb_contains l k : existsb (fun v => contains v k) l = true <-> exists v, v ∈ l /\ v ∈ k.
Proof. rewrite existsb_exists. setoid_rewrite contains_spec. by setoid_rewrite <- list_elem_of_In. Qed.

(** What each operator asks of the tags. *)
Definition operator_holds (op : string) (values tags : list string) : Prop :=
  op = "and" /\ (forall v, v ∈ values -> v ∈ tags) \/
  op = "or" /\ (exists v, v ∈ values /\ v ∈ tags) \/
  op = "not" /\ (forall v, v ∈ values -> v ∉ tags).

Lemma check_operator_condition_spec op values tags :
  check_operator_condition op values tags = true <-> operator_holds op values tags.
Proof.
  unfold check_operator_condition, operator_holds.
  destruct (decide (op = "and")) as [->|H1]; [rewrite bool_decide_true by done|rewrite bool_decide_false by done].
  { rewrite forallb_contains. naive_solver. }
  destruct (decide (op = "or")) as [->|H2]; [rewrite bool_decide_true by done|rewrite bool_decide_false by done].
  { rewrite existsb_contains. naive_solver. }
  destruct (decide (op = "not")) as [->|H3]; [rewrite bool_decide_true by done|rewrite bool_decide_false by done].
  { rewrite negb_true_iff, <- not_true_iff_false, existsb_contains. naive_solver. }
  naive_solver.
Qed.

(** * Properties *)

(** An edge takes a message exactly when it has no condition or no tag values, or its operator
    ("or" when none is given; an unknown one takes nothing) holds of the message's tags, absent
    tags counting as none; and the partition chosen for a key exists, is 0 for a single
    partition, and depends on the key only. *)
Theorem forward_rule (hash : string -> Z) (tags : option (list string)) (c : option ForwardConditions)
    (key : string) (n : Z) :
  (should_forward tags c = true <->
   c = None \/ exists t, c = Some (mkForwardConditions t) /\
     (tc_values t = [] \/ operator_holds (default "or" (tc_operator t)) (tc_values t) (default [] tags))) /\
  (0 < n < 2 ^ 16 -> exists p, determine_partition hash key n = Some p /\ 0 <= p < n /\
     (n = 1 -> p = 0) /\ (n <> 1 -> p = hash key mod n)).
Proof.
  split.
  - unfold should_forward. destruct c as [[[op vs]]|]; [|naive_solver]. simpl. destruct vs as [|v vs]; [naive_solver|].
    rewrite check_operator_condition_spec. split.
    + intros Ho. right. exists (mkTagConditions op (v :: vs)). auto.
    + intros [?|(t & [= <-] & [?|?])]; done.
  - intros Hn. unfold determine_partition. destruct (Z.eqb_spec n 1) as [->|Hn1]; [exists 0; split_and!; done || lia|].
    rewrite (proj2 (Z.eqb_neq n 0)) by lia. pose proof (Z.mod_pos_bound (hash key) n ltac:(lia)).
    rewrite as_u16_small by lia. eexists. split_and!; try done; lia.
Qed.

Lemma forward_rule_witness :
  exists p, determine_partition (fun _ => 7) "key" 3 = Some p /\ 0 <= p < 3 /\
    (3 = 1 -> p = 0) /\ (3 <> 1 -> p = 7 mod 3).
Proof. refine (proj2 (forward_rule (fun _ => 7) None None "key" 3) _). lia. Defined.
