(* ===== verification/ServingGraph.v ===== *)
(** The request tracker of the serving component (src/rust/serving/src/app/tracker.rs).

    From the callbacks received for a request, [MessageGraph] decides whether every vertex the
    message was forwarded to has answered, and returns the edges it took. The search recurses
    over the pipeline graph and marks callbacks as visited; [fuel] bounds its depth. *)
From S2P Require Import Prelude Message Forward.

Inductive OperatorType := And | Or | Not.
#[global] Instance OperatorType_eq_dec : EqDecision OperatorType.
Proof. solve_decision. Defined.

Record Tag := mkTag {
  operator : option OperatorType;
  values : list string
}.

Record Edge := mkEdge {
  e_from : string;
  e_to : string;
  conditions : option (option Tag)           (* Conditions { tags } *)
}.

Record Callback := mkCallback {
  c_id : string;
  c_vertex : string;
  c_cb_time : Z;
  c_from_vertex : string;
  c_responses : list (option (list string))  (* the tags of each Response *)
}.
#[global] Instance Callback_eq_dec : EqDecision Callback.
Proof. solve_decision. Defined.

Record EdgeCallback := mkEdgeCallback {
  ec_from : string;
  ec_to : string;
  ec_cb_time : Z
}.

Record Subgraph := mkSubgraph {
  sg_id : string;
  edge_callbacks : list EdgeCallback
}.

Abbreviation Graph := (gmap string (list Edge)) (only parsing).
Abbreviation CallbackMap := (gmap string (list (Callback * bool))) (only parsing).

Definition DROP : string := "U+005C__DROP__".

Definition compare_slice (op : OperatorType) (a b : list string) : bool :=
  match op with
  | And => forallb (fun v => contains v b) a
  | Or => existsb (fun v => contains v b) a
  | Not => negb (existsb (fun v => contains v b) a)
  end.

Definition will_continue_the_path (response : option (list string)) (e : Edge) : bool :=
  match conditions e with
  | Some (Some tags) =>
      match response with
      | None => bool_decide (operator tags = Some Not)
      | Some callback_tags =>
          match operator tags with
          | Some op => compare_slice op callback_tags (values tags)
          | None => false
          end
      end
  | _ => true
  end.

Definition from_pipeline (edges : list Edge) : Graph :=
  foldl (fun g e => <[e_from e := default [] (g !! e_from e) ++ [e]]> g) ∅ edges.

Definition is_monovertex (dag : Graph) : bool := bool_decide (dag = ∅).

Definition edge_of (cb : Callback) : EdgeCallback := mkEdgeCallback (c_from_vertex cb) (c_vertex cb) (c_cb_time cb).

(** Nothing goes on from this callback. *)
Definition ends_here (cb : Callback) : bool :=
  match c_responses cb with
  | [] => true
  | rs => existsb (fun r => match r with Some tags => contains DROP tags | None => false end) rs
  end.

Definition matches (from : string) (w : Callback * bool) : bool :=
  (bool_decide (c_from_vertex w.1 = "") || bool_decide (c_from_vertex w.1 = from)) && negb w.2.

(** The first matching callback, and the list with it marked. *)
Fixpoint visit (from : string) (l : list (Callback * bool)) : option (Callback * list (Callback * bool)) :=
  match l with
  | [] => None
  | w :: l' =>
      if matches from w then Some (w.1, (w.1, true) :: l')
      else let? (cb, l'') := visit from l' in Some (cb, w :: l'')
  end.

(** The vertices the responses of a callback are forwarded to, in the order of the loops. *)
Definition next_vertices (dag : Graph) (current : string) (cb : Callback) : list string :=
  c_responses cb ≫= fun r =>
    e_to <$> filter (fun e => will_continue_the_path r e = true) (default [] (dag !! current)).

(** The loop over the vertices to go on to: the first failure ends it. *)
Fixpoint visit_all (search : string -> CallbackMap -> list EdgeCallback -> option (bool * CallbackMap * list EdgeCallback))
    (ts : list string) (m : CallbackMap) (out : list EdgeCallback) : option (bool * CallbackMap * list EdgeCallback) :=
  match ts with
  | [] => Some (true, m, out)
  | t :: ts' =>
      match search t m out with
      | Some (true, m1, out1) => visit_all search ts' m1 out1
      | r => r
      end
  end.

Fixpoint generate_subgraph (fuel : nat) (dag : Graph) (current from : string) (m : CallbackMap)
    (out : list EdgeCallback) {struct fuel} : option (bool * CallbackMap * list EdgeCallback) :=
  match fuel with
  | O => None
  | S fuel =>
      match m !! current with
      | None => Some (false, m, out)
      | Some callbacks =>
          match visit from callbacks with
          | None => Some (false, m, out)
          | Some (cb, callbacks') =>
              let m' := <[current := callbacks']> m in
              let out' := out ++ [edge_of cb] in
              if ends_here cb then Some (true, m', out')
              else visit_all (fun t => generate_subgraph fuel dag t current) (next_vertices dag current cb) m' out'
          end
      end
  end.

(** The callbacks by vertex, and the last one that looks like the source's. *)
Definition callback_map_of (cbs : list Callback) : CallbackMap :=
  foldl (fun m cb => <[c_vertex cb := default [] (m !! c_vertex cb) ++ [(cb, false)]]> m) ∅ cbs.

Definition callback_is_source (cb : Callback) : bool :=
  bool_decide (c_vertex cb = c_from_vertex cb) || bool_decide (c_from_vertex cb = "").

Definition source_vertex (cbs : list Callback) : option string :=
  foldl (fun acc cb => if callback_is_source cb then Some (c_vertex cb) else acc) None cbs.

(** [to_json] is the serializer; [None] is a search that ran out of fuel. *)
Definition generate_subgraph_from_callbacks (to_json : Subgraph -> Result string) (dag : Graph) (id : string)
    (cbs : list Callback) : option (Result (option string)) :=
  let answer sg := match to_json sg with Ok j => Ok (Some j) | Err e => Err e end in
  if is_monovertex dag && (length cbs =? 1)%nat then
    Some (answer (mkSubgraph id (edge_of <$> option_list (head cbs))))
  else
    match source_vertex cbs with
    | None => Some (Ok None)
    | Some src =>
        let? (ok, _, out) := generate_subgraph (S (length cbs)) dag src src (callback_map_of cbs) [] in
        Some (if ok then answer (mkSubgraph id out) else Ok None)
    end.

(** * What a complete answer is

    [trace v from l]: the callbacks [l] follow one message that [v] received from [from], through
    every vertex it was forwarded to, in the order of the search. *)

Inductive trace (dag : Graph) : string -> string -> list Callback -> Prop :=
  | trace_drop v from cb :
      c_vertex cb = v -> c_from_vertex cb = "" \/ c_from_vertex cb = from -> ends_here cb = true ->
      trace dag v from [cb]
  | trace_node v from cb l :
      c_vertex cb = v -> c_from_vertex cb = "" \/ c_from_vertex cb = from -> ends_here cb = false ->
      traces dag v (next_vertices dag v cb) l -> trace dag v from (cb :: l)
with traces (dag : Graph) : string -> list string -> list Callback -> Prop :=
  | traces_nil v : traces dag v [] []
  | traces_cons v t ts l1 l2 : trace dag t v l1 -> traces dag v ts l2 -> traces dag v (t :: ts) (l1 ++ l2).

Scheme trace_mind := Induction for trace Sort Prop
  with traces_mind := Induction for traces Sort Prop.
Combined Scheme trace_traces_ind from trace_mind, traces_mind.

(** * The callbacks not visited yet *)

Definition unvisited (l : list (Callback * bool)) : list Callback := (filter (fun w => w.2 = false) l).*1.
Definition avail (m : CallbackMap) : list Callback := (map_to_list m).*2 ≫= unvisited.

Definition keyed (m : CallbackMap) : Prop :=
  forall k l w, m !! k = Some l -> w ∈ l -> c_vertex w.1 = k.

Lemma unvisited_cons w l : unvisited (w :: l) = if w.2 then unvisited l else w.1 :: unvisited l.
Proof. unfold unvisited. rewrite filter_cons. by destruct w as [c []]. Qed.

Lemma avail_insert m k l : avail (<[k := l]> m) ≡ₚ unvisited l ++ avail (delete k m).
Proof.
  unfold avail. rewrite <- insert_delete_eq. rewrite map_to_list_insert by apply lookup_delete_eq. done.
Qed.

Lemma avail_lookup m k l : m !! k = Some l -> avail m ≡ₚ unvisited l ++ avail (delete k m).
Proof. intros Hk. rewrite <- (insert_id m k l Hk) at 1. apply avail_insert. Qed.

Lemma elem_of_avail m cb : cb ∈ avail m <-> exists k l, m !! k = Some l /\ (cb, false) ∈ l.
Proof.
  unfold avail. rewrite list_elem_of_bind. split.
  - intros (l & Hcb & ([k l'] & -> & Hk)%list_elem_of_fmap). apply elem_of_map_to_list in Hk.
    apply list_elem_of_fmap in Hcb as ([c b] & -> & [Hb Hin]%list_elem_of_filter). simpl in *. subst. eauto.
  - intros (k & l & Hk & Hin). exists l. split.
    + apply list_elem_of_fmap. exists (cb, false). split; [done|]. by apply list_elem_of_filter.
    + apply list_elem_of_fmap. exists (k, l). split; [done|]. by apply elem_of_map_to_list.
Qed.

Lemma visit_Some from l cb l' :
  visit from l = Some (cb, l') ->
  unvisited l ≡ₚ cb :: unvisited l' /\ (c_from_vertex cb = "" \/ c_from_vertex cb = from) /\ (cb, false) ∈ l /\
  l'.*1 = l.*1.
Proof.
  revert l'. induction l as [|[c b] l IH]; intros l'; simpl; [done|].
  destruct (matches from (c, b)) eqn:E.
  - intros [= <- <-]. unfold matches in E. apply andb_prop in E as [Em Eb]. simpl in *.
    destruct b; [done|]. rewrite !unvisited_cons. split_and!; try done; [|by left].
    apply orb_prop in Em as [?%bool_decide_eq_true|?%bool_decide_eq_true]; auto.
  - destruct (visit from l) as [[cb1 l1]|]; [|done]. intros [= <- <-].
    destruct (IH l1 eq_refl) as (Hp & Hf & Hin & Hl). split_and!; try done; [|by right|by rewrite !fmap_cons, Hl].
    rewrite !unvisited_cons. simpl. destruct b; [done|]. rewrite Hp. apply Permutation_swap.
Qed.

Lemma visit_None from l cb :
  visit from l = None -> (cb, false) ∈ l -> c_from_vertex cb <> from.
Proof.
  induction l as [|[c b] l IH]; simpl; [by intros _ ?%elem_of_nil|].
  destruct (matches from (c, b)) eqn:E; [done|]. destruct (visit from l) as [[? ?]|]; [done|]. intros _.
  intros [[= <- <-]|Hin]%elem_of_cons; [|by apply IH]. unfold matches in E. simpl in E.
  rewrite andb_true_r in E. apply orb_false_iff in E as [_ E]. by apply bool_decide_eq_false in E.
Qed.

(** Marking a callback takes it out of the available ones. *)
Lemma mark_avail m k l from cb l' :
  keyed m -> m !! k = Some l -> visit from l = Some (cb, l') ->
  avail m ≡ₚ cb :: avail (<[k := l']> m) /\ keyed (<[k := l']> m) /\ c_vertex cb = k /\
  (c_from_vertex cb = "" \/ c_from_vertex cb = from).
Proof.
  intros Hkey Hk (Hp & Hf & Hin & Hl)%visit_Some. split_and!; [| |by apply (Hkey k l _ Hk Hin)|done].
  - rewrite (avail_lookup _ _ _ Hk), avail_insert, Hp. done.
  - intros j lj w Hj Hw. apply lookup_insert_Some in Hj as [[<- <-]|[_ Hj]]; [|by eapply Hkey].
    assert (Hw1 : w.1 ∈ l'.*1) by (by apply list_elem_of_fmap_2). rewrite Hl in Hw1.
    apply list_elem_of_fmap in Hw1 as (w0 & -> & Hw0). by eapply Hkey.
Qed.

Lemma callback_map_of_spec cbs : avail (callback_map_of cbs) ≡ₚ cbs /\ keyed (callback_map_of cbs).
Proof.
  unfold callback_map_of. induction cbs as [|cb cbs [IHp IHk]] using rev_ind.
  { split; [done|]. intros k l w Hk. simpl in Hk. by apply lookup_empty_Some in Hk. }
  rewrite foldl_app. cbn [foldl]. set (m := foldl _ ∅ cbs) in *. set (k := c_vertex cb).
  assert (Hun : unvisited (default [] (m !! k) ++ [(cb, false)]) = unvisited (default [] (m !! k)) ++ [cb]).
  { unfold unvisited. by rewrite filter_app, fmap_app. }
  split.
  - rewrite avail_insert, Hun, <- IHp. destruct (m !! k) as [l|] eqn:E; simpl.
    + rewrite (avail_lookup _ _ _ E). rewrite <- !app_assoc. f_equiv. apply Permutation_app_comm.
    + rewrite delete_id by done. by rewrite Permutation_cons_append.
  - intros j l w Hj Hw. apply lookup_insert_Some in Hj as [[<- <-]|[_ Hj]]; [|by eapply IHk].
    apply elem_of_app in Hw as [Hw| ->%list_elem_of_singleton]; [|done].
    destruct (m !! k) as [l|] eqn:E; [by eapply IHk|by apply elem_of_nil in Hw].
Qed.

(** * The search terminates and is sound *)

Section Search.
Context (dag : Graph).

(** What a search that returns has done: it visited [tr], in order. *)
Definition searched (m : CallbackMap) (out : list EdgeCallback) (r : option (bool * CallbackMap * list EdgeCallback))
    (P : list Callback -> Prop) : Prop :=
  exists ok m' tr, r = Some (ok, m', out ++ (edge_of <$> tr)) /\ avail m ≡ₚ tr ++ avail m' /\ keyed m' /\
    (ok = true -> P tr).

Lemma visit_all_searched search v ts m out n :
  (forall t m out, (length (avail m) < n)%nat -> keyed m -> searched m out (search t m out) (trace dag t v)) ->
  (length (avail m) < n)%nat -> keyed m ->
  searched m out (visit_all search ts m out) (traces dag v ts).
Proof.
  intros Hs. revert m out. induction ts as [|t ts IH]; intros m out Hlen Hkey; simpl.
  { exists true, m, []. rewrite app_nil_r. split_and!; try done. constructor. }
  destruct (Hs t m out Hlen Hkey) as (ok & m1 & tr1 & -> & Hp1 & Hk1 & Ht1). destruct ok.
  - assert (Hlen1 : (length (avail m1) < n)%nat).
    { apply Permutation_length in Hp1. rewrite length_app in Hp1. lia. }
    destruct (IH m1 (out ++ (edge_of <$> tr1)) Hlen1 Hk1) as (ok & m2 & tr2 & -> & Hp2 & Hk2 & Ht2).
    exists ok, m2, (tr1 ++ tr2). rewrite fmap_app, app_assoc. split_and!; try done.
    + by rewrite Hp1, Hp2, app_assoc.
    + intros ->. constructor; auto.
  - exists false, m1, tr1. by split_and!.
Qed.

Lemma generate_searched fuel current from m out :
  (length (avail m) < fuel)%nat -> keyed m ->
  searched m out (generate_subgraph fuel dag current from m out) (trace dag current from).
Proof.
  revert current from m out. induction fuel as [|fuel IH]; intros current from m out Hlen Hkey; [lia|]. simpl.
  assert (Hstop : searched m out (Some (false, m, out)) (trace dag current from)).
  { exists false, m, []. rewrite app_nil_r. by split_and!. }
  destruct (m !! current) as [l|] eqn:El; [|done]. destruct (visit from l) as [[cb l']|] eqn:Ev; [|done].
  destruct (mark_avail m current l from cb l' Hkey El Ev) as (Hp & Hk' & Hv & Hf).
  set (m' := <[current := l']> m) in *. destruct (ends_here cb) eqn:Ed.
  { exists true, m', [cb]. split_and!; try done. intros _. by apply trace_drop. }
  destruct (visit_all_searched (fun t => generate_subgraph fuel dag t current) current
    (next_vertices dag current cb) m' (out ++ [edge_of cb]) fuel) as (ok & m2 & tr & -> & Hp2 & Hk2 & Ht2).
  - intros t m1 out1 Hl1 Hk1. by apply IH.
  - apply Permutation_length in Hp. simpl in Hp. lia.
  - done.
  - exists ok, m2, (cb :: tr). rewrite fmap_cons, <- app_assoc. split_and!; try done.
    + by rewrite Hp, Hp2.
    + intros Hok. apply trace_node; auto.
Qed.

(** * A complete set of callbacks is recognised

    Supply and demand per vertex and sender: every callback not visited yet is wanted by a
    pending search or by one to come, and the other way round. *)

Lemma sum_cons {A} (f : A -> nat) x l : sum_list_with f (x :: l) = (f x + sum_list_with f l)%nat.
Proof. done. Qed.

Lemma sum_nil {A} (f : A -> nat) : sum_list_with f [] = 0%nat.
Proof. done. Qed.

Definition one (P : Prop) `{Decision P} : nat := if decide P then 1%nat else 0%nat.
Definition supplies (w g : string) (cb : Callback) : nat := one (c_vertex cb = w /\ c_from_vertex cb = g).
Definition occurs (w : string) (l : list string) : nat := sum_list_with (fun t => one (t = w)) l.
Definition wants_next (w g : string) (cb : Callback) : nat :=
  if ends_here cb then 0%nat else if decide (c_vertex cb = g) then occurs w (next_vertices dag g cb) else 0%nat.

Definition balanced (pending : list (string * string)) (cbs : list Callback) : Prop :=
  forall w g, sum_list_with (supplies w g) cbs =
    (sum_list_with (fun p => one (p = (w, g))) pending + sum_list_with (wants_next w g) cbs)%nat.

Lemma occurs_pairs (w g v : string) (ts : list string) :
  sum_list_with (fun p => one (p = (w, g))) ((fun t => (t, v)) <$> ts) =
  if decide (v = g) then occurs w ts else 0%nat.
Proof.
  unfold occurs. induction ts as [|t ts IH]; [by case_decide|]. rewrite fmap_cons, !sum_cons, IH. unfold one.
  repeat case_decide; simplify_eq; try done; naive_solver.
Qed.

Definition named (cbs : list Callback) : Prop := forall cb, cb ∈ cbs -> c_from_vertex cb <> "".

Lemma trace_balanced :
  (forall v f l, trace dag v f l -> named l -> balanced [(v, f)] l) /\
  (forall v ts l, traces dag v ts l -> named l -> balanced ((fun t => (t, v)) <$> ts) l).
Proof.
  apply trace_traces_ind.
  - intros v f cb Hv Hf Hd Hn w g. rewrite !sum_cons. simpl. unfold supplies, wants_next, one. rewrite Hd.
    assert (c_from_vertex cb = f) as Hff by (destruct Hf; [by destruct (Hn cb ltac:(by left))|done]).
    rewrite Hv, Hff. repeat case_decide; naive_solver.
  - intros v f cb l Hv Hf Hd Ht IH Hn w g. rewrite !sum_cons.
    assert (c_from_vertex cb = f) as Hff by (destruct Hf; [by destruct (Hn cb ltac:(by left))|done]).
    rewrite (IH (fun c Hc => Hn c (list_elem_of_further _ _ _ Hc)) w g), occurs_pairs.
    unfold supplies, wants_next, one. rewrite Hd, Hv, Hff, sum_nil. set (n := sum_list_with _ l).
    clearbody n. clear IH Ht Hn. repeat case_decide; simplify_eq; try lia; exfalso; first [destruct_and!; congruence | match goal with Hno : ~ (_ /\ _) |- _ => apply Hno; split; congruence end].
  - done.
  - intros v t ts l1 l2 H1 IH1 H2 IH2 Hn w g. rewrite fmap_cons, sum_cons.
    rewrite !sum_list_with_app, IH1, IH2 by (intros c Hc; apply Hn, elem_of_app; auto).
    rewrite sum_cons. simpl. lia.
Qed.

Lemma balanced_perm pending l k : l ≡ₚ k -> balanced pending l -> balanced pending k.
Proof. intros Hp Hb w g. specialize (Hb w g). by rewrite Hp in Hb. Qed.

Lemma named_perm l k : l ≡ₚ k -> named l -> named k.
Proof. intros Hp Hn cb. rewrite <- Hp. apply Hn. Qed.

(** Serving one pending search with any matching callback keeps the balance. *)
Lemma balanced_serve v f pending cb l :
  c_vertex cb = v -> c_from_vertex cb = f -> balanced ((v, f) :: pending) (cb :: l) ->
  balanced ((if ends_here cb then [] else (fun t => (t, v)) <$> next_vertices dag v cb) ++ pending) l.
Proof.
  intros Hv Hf Hb w g. specialize (Hb w g). rewrite !sum_cons in Hb. rewrite sum_list_with_app.
  assert (Hs : supplies w g cb = one ((v, f) = (w, g))).
  { unfold supplies, one. rewrite Hv, Hf. apply decide_ext. naive_solver. }
  rewrite Hs in Hb. unfold wants_next at 1 in Hb. destruct (ends_here cb); [rewrite sum_nil; lia|].
  rewrite occurs_pairs. rewrite Hv in Hb. case_decide; [subst g|]; lia.
Qed.

Definition served (m : CallbackMap) (pending : list (string * string))
    (r : option (bool * CallbackMap * list EdgeCallback)) : Prop :=
  exists m' out, r = Some (true, m', out) /\ keyed m' /\ named (avail m') /\ balanced pending (avail m') /\
    (length (avail m') <= length (avail m))%nat.

Lemma visit_all_served search v ts pending m out n :
  (forall t pending m out, (length (avail m) < n)%nat -> keyed m -> named (avail m) ->
     balanced ((t, v) :: pending) (avail m) -> served m pending (search t m out)) ->
  (length (avail m) < n)%nat -> keyed m -> named (avail m) ->
  balanced (((fun t => (t, v)) <$> ts) ++ pending) (avail m) ->
  served m pending (visit_all search ts m out).
Proof.
  intros Hs. revert m out. induction ts as [|t ts IH]; intros m out Hlen Hkey Hn Hb.
  { exists m, out. by split_and!. }
  rewrite fmap_cons in Hb. destruct (Hs t (((fun t => (t, v)) <$> ts) ++ pending) m out Hlen Hkey Hn Hb)
    as (m1 & out1 & E & Hk1 & Hn1 & Hb1 & Hl1). cbn [visit_all]. rewrite E.
  destruct (IH m1 out1) as (m2 & out2 & -> & ? & ? & ? & ?); [lia|done..|].
  exists m2, out2. split_and!; try done. lia.
Qed.

Lemma supply_pos v f l :
  (0 < sum_list_with (supplies v f) l)%nat -> exists cb, cb ∈ l /\ c_vertex cb = v /\ c_from_vertex cb = f.
Proof.
  induction l as [|cb l IH]; [rewrite sum_nil; lia|]. rewrite sum_cons.
  destruct (decide (c_vertex cb = v /\ c_from_vertex cb = f)) as [[? ?]|Hno].
  { intros _. exists cb. split_and!; [by left|done..]. }
  assert (supplies v f cb = 0%nat) as -> by (unfold supplies, one; by rewrite decide_False).
  intros (c & ? & ?)%IH. exists c. split; [by right|done].
Qed.

Lemma generate_served fuel current from pending m out :
  (length (avail m) < fuel)%nat -> keyed m -> named (avail m) ->
  balanced ((current, from) :: pending) (avail m) ->
  served m pending (generate_subgraph fuel dag current from m out).
Proof.
  revert current from pending m out.
  induction fuel as [|fuel IH]; intros current from pending m out Hlen Hkey Hn Hb; [lia|].
  assert (Hex : exists cb l, m !! current = Some l /\ (cb, false) ∈ l /\ c_from_vertex cb = from).
  { pose proof (Hb current from) as Hs. rewrite sum_cons in Hs. unfold one at 1 in Hs. rewrite decide_True in Hs by done.
    pose proof (supply_pos current from (avail m) ltac:(lia)) as Hpos.
    destruct Hpos as (cb & (k & l & Hk & Hin)%elem_of_avail & Hv & Hf). exists cb, l.
    pose proof (Hkey k l (cb, false) Hk Hin) as Hkk. simpl in Hkk. subst. by split_and!. }
  destruct Hex as (cb0 & l & El & Hin0 & Hf0). cbn [generate_subgraph]. rewrite El.
  destruct (visit from l) as [[cb l']|] eqn:Ev; [|by destruct (visit_None from l cb0 Ev Hin0)].
  destruct (mark_avail m current l from cb l' Hkey El Ev) as (Hp & Hk' & Hv & Hf).
  set (m' := <[current := l']> m) in *.
  assert (Hff : c_from_vertex cb = from) by (destruct Hf; [by destruct (Hn cb); [rewrite Hp; left|]|done]).
  pose proof (balanced_serve _ _ _ _ _ Hv Hff (balanced_perm _ _ _ Hp Hb)) as Hb'.
  assert (Hn' : named (avail m')) by (intros c Hc; apply Hn; rewrite Hp; by right).
  assert (Hl' : (S (length (avail m')) = length (avail m))%nat) by (apply Permutation_length in Hp; by rewrite Hp).
  destruct (ends_here cb).
  - eexists m', _. split_and!; try done. lia.
  - destruct (visit_all_served (fun t => generate_subgraph fuel dag t current) current
      (next_vertices dag current cb) pending m' (out ++ [edge_of cb]) fuel) as (m2 & out2 & -> & ? & ? & ? & ?);
      [intros t pd m1 out1 ? ? ? ?; by apply IH|lia|done..|].
    exists m2, out2. split_and!; try done. lia.
Qed.
End Search.

(** * The edge rule of the data plane *)

(** [None] is the panic on any other name. *)
Definition operator_of (op : string) : option OperatorType :=
  if bool_decide (op = "and") then Some And
  else if bool_decide (op = "or") then Some Or
  else if bool_decide (op = "not") then Some Not else None.

(** The edge the serving component reads from the same pipeline definition, for a known operator. *)
Definition serving_edge (from to : string) (c : option ForwardConditions) : Edge :=
  mkEdge from to
    ((fun c => Some (mkTag (tc_operator (fc_tags c) ≫= operator_of) (tc_values (fc_tags c)))) <$> c).

Lemma existsb_contains_comm l k :
  existsb (fun v => contains v k) l = existsb (fun v => contains v l) k.
Proof. apply eq_true_iff_eq. rewrite !existsb_contains. naive_solver. Qed.

Lemma answer_inv {A} (r : Result A) j :
  match r with Ok x => Ok (Some x) | Err e => Err e end = Ok (Some j) -> r = Ok j.
Proof. destruct r; [by intros [= ->]|done]. Qed.

(** The search for the path of a request always ends, even when the graph has cycles, since every call
    visits a callback; an answer follows, in order, a complete trace of the message, each step accounted
    for by a callback of its own. *)
Lemma search_sound (to_json : Subgraph -> Result string) (dag : gmap string (list Edge)) (id : string)
    (cbs : list Callback) :
  exists r, generate_subgraph_from_callbacks to_json dag id cbs = Some r /\
  forall j, r = Ok (Some j) ->
    (is_monovertex dag = true /\ exists cb, cbs = [cb] /\ to_json (mkSubgraph id [edge_of cb]) = Ok j) \/
    exists src tr, source_vertex cbs = Some src /\ trace dag src src tr /\ tr ⊆+ cbs /\
      to_json (mkSubgraph id (edge_of <$> tr)) = Ok j.
Proof.
  unfold generate_subgraph_from_callbacks.
  destruct (is_monovertex dag && (length cbs =? 1)%nat) eqn:Em.
  - apply andb_prop in Em as [Hm Hl]. apply Nat.eqb_eq in Hl. destruct cbs as [|cb [|]]; try done.
    eexists. split; [done|]. intros j Hj. left. split; [done|]. exists cb. split; [done|].
    by apply answer_inv in Hj.
  - destruct (source_vertex cbs) as [src|]; [|by eexists; split].
    destruct (callback_map_of_spec cbs) as [Hp Hk].
    destruct (generate_searched dag (S (length cbs)) src src (callback_map_of cbs) []) as (ok & m' & tr & -> & Hp2 & _ & Ht).
    + rewrite (Permutation_length Hp). lia.
    + done.
    + eexists. split; [done|]. intros j Hj. right. destruct ok; [|done]. exists src, tr. split_and!; auto.
      * rewrite <- Hp, Hp2. by apply submseteq_inserts_r.
      * by apply answer_inv in Hj.
Qed.

(** A request whose callbacks are all there is recognised: when the callbacks, in whatever order
    they arrived, are exactly those of a complete trace of the message, the search succeeds and
    returns the edges of such a trace. *)
Lemma search_complete (to_json : Subgraph -> Result string) (dag : gmap string (list Edge)) (id src : string)
    (cbs tr : list Callback) :
  trace dag src src tr -> cbs ≡ₚ tr -> named cbs -> source_vertex cbs = Some src -> is_monovertex dag = false ->
  exists tr', trace dag src src tr' /\ tr' ⊆+ cbs /\
    generate_subgraph_from_callbacks to_json dag id cbs =
      Some (match to_json (mkSubgraph id (edge_of <$> tr')) with Ok j => Ok (Some j) | Err e => Err e end).
Proof.
  intros Ht Hperm Hn Hsrc Hmono. unfold generate_subgraph_from_callbacks. rewrite Hmono, Hsrc. simpl andb.
  destruct (callback_map_of_spec cbs) as [Hp Hk].
  assert (Hl : (length (avail (callback_map_of cbs)) < S (length cbs))%nat) by (rewrite (Permutation_length Hp); lia).
  destruct (generate_searched dag _ src src (callback_map_of cbs) [] Hl Hk) as (ok & m1 & tr' & E1 & Hp1 & _ & Ht1).
  destruct (generate_served dag (S (length cbs)) src src [] (callback_map_of cbs) []) as (m' & out & E2 & _); [done..| | |].
  - eapply named_perm; [|exact Hn]. by rewrite Hp.
  - apply (balanced_perm dag _ tr); [by rewrite Hp, Hperm|].
    apply trace_balanced; [done|]. by eapply named_perm.
  - rewrite E1 in E2 |- *. simplify_eq. exists tr'. split_and!; auto.
    rewrite <- Hp, Hp1. by apply submseteq_inserts_r.
Qed.

(** * Properties *)

(** For edges with tag values and the operator "or" or "not", the serving component follows a
    response to exactly the vertices to which the data plane forwards the message. *)
Theorem edge_rules_agree (from to op : string) (vs : list string) (tags : option (list string)) :
  op = "or" \/ op = "not" -> vs <> [] ->
  let c := Some (mkForwardConditions (mkTagConditions (Some op) vs)) in
  will_continue_the_path tags (serving_edge from to c) = should_forward tags c.
Proof.
  intros Hop Hvs c. unfold c, will_continue_the_path, should_forward. simpl. destruct vs as [|v vs]; [done|].
  destruct Hop as [-> | ->]; destruct tags as [tags|]; simpl.
  - change (existsb (fun x => contains x (v :: vs)) tags = existsb (fun x => contains x tags) (v :: vs)).
    apply existsb_contains_comm.
  - change (false = existsb (fun x => contains x []) (v :: vs)). symmetry. apply not_true_is_false.
    rewrite existsb_contains. by intros (? & _ & ?%elem_of_nil).
  - change (negb (existsb (fun x => contains x (v :: vs)) tags) = negb (existsb (fun x => contains x tags) (v :: vs))).
    f_equal. apply existsb_contains_comm.
  - change (true = negb (existsb (fun x => contains x []) (v :: vs))). symmetry. apply negb_true_iff, not_true_is_false.
    rewrite existsb_contains. by intros (? & _ & ?%elem_of_nil).
Qed.

(** * Witnesses *)

(** A flat map: the source emits two messages, one of them to both successors. *)
Definition ex_dag : Graph :=
  from_pipeline [mkEdge "in" "even" (Some (Some (mkTag (Some Or) ["even"; "all"])));
    mkEdge "in" "odd" (Some (Some (mkTag (Some Not) ["even"]))); mkEdge "even" "out" None].
Definition ex_in : Callback := mkCallback "m" "in" 1 "in" [Some ["even"]; Some ["all"]].
Definition ex_even1 : Callback := mkCallback "m" "even" 2 "in" [None].
Definition ex_even2 : Callback := mkCallback "m" "even" 3 "in" [Some [DROP]].
Definition ex_odd : Callback := mkCallback "m" "odd" 4 "in" [].
Definition ex_out : Callback := mkCallback "m" "out" 5 "even" [None].
Definition ex_trace : list Callback := [ex_in; ex_even1; ex_out; ex_even2; ex_odd].
Definition ex_cbs : list Callback := [ex_odd; ex_out; ex_even2; ex_in; ex_even1].

Lemma ex_trace_ok : trace ex_dag "in" "in" ex_trace.
Proof.
  apply trace_node; [done|by right|done|]. change (next_vertices _ _ _) with ["even"; "even"; "odd"].
  apply (traces_cons _ _ _ _ [ex_even1; ex_out]).
  { apply trace_node; [done|by right|done|]. change (next_vertices _ _ _) with ["out"].
    apply (traces_cons _ _ _ _ [ex_out] []); [|constructor].
    apply trace_node; [done|by right|done|]. change (next_vertices _ _ _) with (@nil string). constructor. }
  apply (traces_cons _ _ _ _ [ex_even2]); [apply trace_drop; auto|].
  apply (traces_cons _ _ _ _ [ex_odd] []); [apply trace_drop; auto|constructor].
Qed.

Lemma ex_perm : ex_cbs ≡ₚ ex_trace.
Proof. apply (bool_decide_unpack _). vm_compute. exact I. Qed.

Lemma ex_named : named ex_cbs.
Proof. intros cb Hcb. repeat (apply elem_of_cons in Hcb as [->|Hcb]; [done|]). by apply elem_of_nil in Hcb. Qed.

(** With one callback missing the request is not complete yet. *)
Example subgraph_incomplete :
  generate_subgraph_from_callbacks (fun _ => Ok "json") ex_dag "m" [ex_odd; ex_out; ex_in; ex_even1] = Some (Ok None).
Proof. vm_compute. reflexivity. Qed.

Lemma edge_rules_agree_witness :
  will_continue_the_path (Some ["a"])
    (serving_edge "in" "out" (Some (mkForwardConditions (mkTagConditions (Some "or") ["b"; "a"])))) =
  should_forward (Some ["a"]) (Some (mkForwardConditions (mkTagConditions (Some "or") ["b"; "a"]))).
Proof. apply (edge_rules_agree "in" "out" "or" ["b"; "a"] (Some ["a"])); [by left|done]. Defined.

(** For "and" the data plane asks for every value of the edge among the tags of the message, the
    serving component for every tag of the message among the values of the edge; for an edge
    without operator the first takes "or", the second takes nothing; an edge without values takes
    every message in the first. *)
Example edge_rules_differ :
  let c op vs := Some (mkForwardConditions (mkTagConditions op vs)) in
  let serving tags c := will_continue_the_path (Some tags) (serving_edge "in" "out" c) in
  (should_forward (Some ["a"; "b"]) (c (Some "and") ["a"]) = true /\ serving ["a"; "b"] (c (Some "and") ["a"]) = false) /\
  (should_forward (Some ["a"]) (c (Some "and") ["a"; "b"]) = false /\ serving ["a"] (c (Some "and") ["a"; "b"]) = true) /\
  (should_forward (Some ["a"]) (c None ["a"]) = true /\ serving ["a"] (c None ["a"]) = false) /\
  (should_forward (Some ["a"]) (c (Some "or") []) = true /\ serving ["a"] (c (Some "or") []) = false).
Proof. vm_compute. auto. Qed.
