(* ===== verification/Backoff.v ===== *)
(** Retries with backoff (src/rust/backoff): the delay strategies, and the future that runs an
    operation again until it succeeds, fails for good, or the delays run out.

    Durations and instants are nanoseconds. [f64] arithmetic is exact ([SpecFloat] at precision
    53); [powi] is an argument, since its precision is unspecified, and so are the random draws. *)
From Stdlib Require Import ZArith SpecFloat.
From S2P Require Import Prelude Clock.
Open Scope Z_scope.

(** * 64-bit floats *)

Abbreviation F64 := spec_float (only parsing).
Definition f64_of_Z (z : Z) : F64 := binary_normalize 53 1024 z 0 false.
Definition f64_mul : F64 -> F64 -> F64 := SFmul 53 1024.

(** The cast [as u64]: towards zero, saturating; not-a-number gives 0. *)
Definition f64_to_u64 (x : F64) : Z :=
  match x with
  | S754_finite false m e => Z.min (2 ^ 64 - 1) (if 0 <=? e then Z.pos m * 2 ^ e else Z.pos m / 2 ^ (- e))
  | S754_infinity false => (2 ^ 64 - 1)
  | _ => 0
  end.

(** * Strategies *)

(** [Iterator<Item = Duration>]. *)
Class Iterator (I : Type) := next : I -> option Duration * I.

Definition from_millis (ms : Z) : Duration := ms * ns_per_ms.

Record Interval := mkInterval { interval : Duration }.
Definition interval_from_millis (millis : Z) : Interval := mkInterval (from_millis millis).
Definition interval_next (i : Interval) : option Duration * Interval := (Some (interval i), i).

Record Exponential := mkExponential {
  base_interval : Duration;
  max_interval : Duration;
  factor : F64;
  jitter : F64;
  max_attempts : option Z;      (* Option<u16> *)
  current_attempt : Z           (* u16 *)
}.

Definition exponential_new (base mx : Duration) (f j : F64) (attempts : option Z) : Exponential :=
  mkExponential base mx f j attempts 0.
Definition exponential_from_millis (base mx : Z) (f j : F64) (attempts : option Z) : Exponential :=
  exponential_new (from_millis base) (from_millis mx) f j attempts.
Definition set_attempt (e : Exponential) (n : Z) : Exponential :=
  mkExponential (base_interval e) (max_interval e) (factor e) (jitter e) (max_attempts e) n.
Definition reset (e : Exponential) : Exponential := set_attempt e 0.

Section Strategies.
Context (powi : F64 -> Z -> F64).       (* f64::powi *)
Context (random_factor : Z -> F64).     (* the draw made for an attempt *)

Definition calculate_delay (e : Exponential) (attempt : Z) : Duration :=
  let safe_attempt := Z.max attempt 1 in
  let base_delay_ms := f64_mul (f64_of_Z (base_interval e / ns_per_ms)) (powi (factor e) (safe_attempt - 1)) in
  if SFeqb (jitter e) (S754_zero false) then Z.min (from_millis (f64_to_u64 base_delay_ms)) (max_interval e)
  else
    let delay_ms := f64_mul base_delay_ms (random_factor attempt) in
    Z.min (from_millis (f64_to_u64 delay_ms)) (max_interval e).

(** The counter wraps around, as in a build without overflow checks. *)
Definition exponential_next (e : Exponential) : option Duration * Exponential :=
  if match max_attempts e with Some m => m <=? current_attempt e | None => false end then (None, e)
  else
    let e' := set_attempt e (as_u16 (current_attempt e + 1)) in
    (Some (calculate_delay e' (current_attempt e')), e').
End Strategies.

#[global] Instance interval_iterator : Iterator Interval := interval_next.

(** * The retry future *)

Section Retry.
Context {T E I : Type} `{Iterator I}.

(** A future: how often its poll is pending, and its output. *)
Record Future := mkFuture { pendings : nat; output : T + E }.

Context (operation : nat -> Future).     (* what the n-th call of the operation returns *)
Context (can_retry : E -> bool).
Context (clock : nat -> Z).              (* successive readings of the clock *)

Inductive RetryState := Running (f : Future) | Sleeping (till : Z).

Record Retry := mkRetry {
  retry_state : RetryState;
  backoff : I;
  runs : nat;        (* calls of the operation so far *)
  reads : nat        (* readings of the clock so far *)
}.

Definition retry_new (b : I) (r : nat) : Retry := mkRetry (Running (operation 0)) b 1 r.

Definition cool_off (s : Retry) (err : E) : E + Retry :=
  match next (backoff s) with
  | (None, _) => inl err
  | (Some duration, b) => inr (mkRetry (Sleeping (clock (reads s) + duration)) b (runs s) (S (reads s)))
  end.

Definition reattempt (s : Retry) : Retry :=
  mkRetry (Running (operation (runs s))) (backoff s) (S (runs s)) (reads s).

(** One pass of [poll]: it returns, or polls again ([Again]). *)
Inductive Polled := Ready (r : T + E) | Pending | Again.

Definition poll_once (s : Retry) : Polled * Retry :=
  match retry_state s with
  | Running (mkFuture 0 (inl item)) => (Ready (inl item), s)
  | Running (mkFuture 0 (inr e)) =>
      if can_retry e then
        match cool_off s e with inr s' => (Again, s') | inl e => (Ready (inr e), s) end
      else (Ready (inr e), s)
  | Running (mkFuture (S n) out) =>
      (Pending, mkRetry (Running (mkFuture n out)) (backoff s) (runs s) (reads s))
  | Sleeping till =>
      let s' := mkRetry (Sleeping till) (backoff s) (runs s) (S (reads s)) in
      if till <=? clock (reads s) then (Again, reattempt s') else (Pending, s')
  end.

(** The executor: it polls until the future is ready. *)
Fixpoint drive (n : nat) (s : Retry) : option (T + E) * Retry :=
  match n with
  | O => (None, s)
  | S n => match poll_once s with
           | (Ready r, s') => (Some r, s')
           | (_, s') => drive n s'
           end
  end.

(** What the future computes, for the delays the strategy yields: the output, the calls made of
    the operation, and the time waited for. *)
Fixpoint retried (i : nat) (delays : list Duration) : (T + E) * nat * Z :=
  match output (operation i) with
  | inl item => (inl item, S i, 0)
  | inr e =>
      if can_retry e then
        match delays with
        | [] => (inr e, S i, 0)
        | d :: delays' => let '(r, n, w) := retried (S i) delays' in (r, n, d + w)
        end
      else (inr e, S i, 0)
  end.

(** The delays an iterator yields before it ends. *)
Inductive yields : I -> list Duration -> Prop :=
  | yields_end b b' : next b = (None, b') -> yields b []
  | yields_next b b' d ds : next b = (Some d, b') -> yields b' ds -> yields b (d :: ds).

(** The future completes as specified, not before [lo] and the time waited. *)
Definition completes (lo : Z) (s : Retry) (spec : (T + E) * nat * Z) : Prop :=
  exists n s', drive n s = (Some spec.1.1, s') /\ runs s' = spec.1.2 /\ lo + spec.2 <= clock (reads s').

Context (clock_mono : forall i j, (i <= j)%nat -> clock i <= clock j).
Context (clock_unbounded : forall t, exists i, t <= clock i).

Lemma completes_step lo p s s' spec :
  poll_once s = (p, s') -> (forall x, p <> Ready x) -> completes lo s' spec -> completes lo s spec.
Proof.
  intros Hp Hr (k & s2 & Hd & ?). exists (S k), s2. split; [|done]. simpl. rewrite Hp.
  by destruct p; [destruct (Hr r)|..].
Qed.

Lemma completes_now lo s s' r n :
  poll_once s = (Ready r, s') -> runs s' = n -> lo <= clock (reads s') -> completes lo s (r, n, 0).
Proof. intros Hp Hn Hlo. exists 1%nat, s'. simpl. rewrite Hp. split_and!; [done..|lia]. Qed.

Lemma completes_mono lo lo' s spec : lo' <= lo -> completes lo s spec -> completes lo' s spec.
Proof. intros ? (n & s' & ? & ? & ?). exists n, s'. split_and!; [done..|lia]. Qed.

Lemma sleeping_completes till b i r spec :
  (forall r', till <= clock r' -> completes (clock r') (mkRetry (Running (operation i)) b (S i) r') spec) ->
  completes till (mkRetry (Sleeping till) b i r) spec.
Proof.
  intros Hwake. destruct (clock_unbounded till) as [k Hk].
  remember (k - r)%nat as m eqn:Hm. revert r Hm.
  induction m as [|m IH]; intros r Hm.
  all: destruct (Z.leb_spec till (clock r)) as [Hle|Hgt].
  1, 3: eapply completes_step; [unfold poll_once; simpl; by rewrite (proj2 (Z.leb_le _ _) Hle)|done|].
  1, 2: pose proof (clock_mono r (S r) ltac:(lia)); apply (completes_mono (clock (S r))); [lia|]; apply Hwake; lia.
  - pose proof (clock_mono k r ltac:(lia)). lia.
  - eapply completes_step; [unfold poll_once; simpl; by rewrite (proj2 (Z.leb_gt _ _) Hgt)|done|].
    apply IH. lia.
Qed.

Lemma running_completes b ds : yields b ds -> forall i k r,
  completes (clock r) (mkRetry (Running (mkFuture k (output (operation i)))) b (S i) r) (retried i ds).
Proof.
  induction 1 as [b b' Hb|b b' d ds Hb Hy IH]; intros i k r; induction k as [|k IHk].
  2, 4: by (eapply completes_step; [done|done|]).
  all: cbn [retried]; destruct (output (operation i)) as [item|e] eqn:Eo.
  1, 3: by eapply completes_now; [done|..].
  all: destruct (can_retry e) eqn:Ec; [|eapply completes_now; [unfold poll_once; simpl; by rewrite Ec|done..]].
  - eapply completes_now; [unfold poll_once, cool_off; simpl; by rewrite Ec, Hb|done..].
  - eapply completes_step; [unfold poll_once, cool_off; simpl; by rewrite Ec, Hb|done|].
    specialize (IH (S i) (pendings (operation (S i)))). destruct (retried (S i) ds) as [[res n] w]. simpl.
    assert (Hs : completes (clock r + d) (mkRetry (Sleeping (clock r + d)) b' (S i) (S r)) (res, n, w)).
    { apply sleeping_completes. intros r' _. specialize (IH r'). by destruct (operation (S i)). }
    destruct Hs as (m & s' & ? & ? & ?). exists m, s'. simpl in *. split_and!; [done..|lia].
Qed.
End Retry.

Arguments Future : clear implicits.
Arguments Retry : clear implicits.

(** * The delays of a bounded strategy *)

Section Delays.
Context (powi : F64 -> Z -> F64) (random_factor : Z -> F64).
#[local] Instance exponential_iterator : Iterator Exponential := exponential_next powi random_factor.

Lemma f64_to_u64_bound x : 0 <= f64_to_u64 x < 2 ^ 64.
Proof.
  destruct x as [| [] | |[] m e]; simpl; try lia. destruct (Z.leb_spec 0 e).
  - pose proof (Z.pow_nonneg 2 e). nia.
  - pose proof (Z.div_pos (Z.pos m) (2 ^ (- e)) ltac:(lia)). pose proof (Z.pow_pos_nonneg 2 (- e)). lia.
Qed.

Lemma calculate_delay_bound e n :
  0 <= max_interval e -> 0 <= calculate_delay powi random_factor e n <= max_interval e.
Proof.
  intros. unfold calculate_delay, from_millis, ns_per_ms. destruct (SFeqb _ _);
    match goal with |- context [f64_to_u64 ?x] => pose proof (f64_to_u64_bound x) end; lia.
Qed.

Lemma exponential_yields e m k :
  max_attempts e = Some m -> m < 2 ^ 16 -> 0 <= current_attempt e -> m = current_attempt e + Z.of_nat k ->
  0 <= max_interval e ->
  exists ds, yields e ds /\ length ds = k /\ Forall (fun d => 0 <= d <= max_interval e) ds.
Proof.
  revert e. induction k as [|k IH]; intros e Hm H16 Hc Hk Hmax.
  - exists []. split_and!; [|done..]. eapply yields_end. unfold next, exponential_iterator, exponential_next.
    rewrite Hm, (proj2 (Z.leb_le _ _)) by lia. done.
  - destruct (IH (set_attempt e (current_attempt e + 1))) as (ds & Hy & Hl & Hd); simpl; try done; try lia.
    exists (calculate_delay powi random_factor (set_attempt e (current_attempt e + 1)) (current_attempt e + 1) :: ds).
    split_and!; [| simpl; lia |constructor; [by apply (calculate_delay_bound (set_attempt e _))|done]].
    eapply yields_next; [|exact Hy]. unfold next, exponential_iterator, exponential_next.
    rewrite Hm, (proj2 (Z.leb_gt _ _)) by lia. rewrite as_u16_small by lia. done.
Qed.
End Delays.

Lemma retried_runs {T E} (operation : nat -> Future T E) (can_retry : E -> bool) ds i :
  ((retried operation can_retry i ds).1.2 <= i + S (length ds))%nat.
Proof.
  revert i. induction ds as [|d ds IH]; intros i; cbn [retried]; destruct (output (operation i)); simpl; try lia;
    destruct (can_retry e); simpl; try lia.
  specialize (IH (S i)). destruct (retried operation can_retry (S i) ds) as [[? ?] ?]. simpl in *. lia.
Qed.

(** * Properties *)

(** A retried operation terminates: with a strategy that yields finitely many delays, and a clock
    that does not go back and passes every instant, polling the future ends, after at most one
    call of the operation more than there are delays, with the first success, the first error
    that must not be retried, or the last error; and not before the delays have passed. *)
Theorem retry_completes {T E I : Type} `{Iterator I} (operation : nat -> Future T E) (can_retry : E -> bool)
    (clock : nat -> Z) (b : I) (ds : list Duration) (r : nat) :
  (forall i j, (i <= j)%nat -> clock i <= clock j) -> (forall t, exists i, t <= clock i) -> yields b ds ->
  let '(result, calls, waited) := retried operation can_retry 0 ds in
  (calls <= S (length ds))%nat /\
  exists n s', drive operation can_retry clock n (retry_new operation b r) = (Some result, s') /\
    runs s' = calls /\ clock r + waited <= clock (reads s').
Proof.
  intros Hm Hu Hy. pose proof (retried_runs operation can_retry ds 0) as Hr.
  pose proof (running_completes operation can_retry clock Hm Hu b ds Hy 0 (pendings (operation 0%nat)) r) as Hc.
  destruct (retried operation can_retry 0 ds) as [[result calls] waited]. split; [simpl in Hr; lia|].
  unfold retry_new. by destruct (operation 0%nat).
Qed.

(** An exponential strategy with a maximum of attempts yields exactly the attempts that are
    left, and all of them after a reset; no delay is negative or above the maximum interval,
    whatever the factor, the jitter and the draws. *)
Theorem exponential_delays (powi : F64 -> Z -> F64) (random_factor : Z -> F64) (e : Exponential) (m : Z) :
  max_attempts e = Some m -> 0 <= current_attempt e <= m -> m < 2 ^ 16 -> 0 <= max_interval e ->
  let has_delays e' n := exists ds, @yields _ (exponential_next powi random_factor) e' ds /\ Z.of_nat (length ds) = n /\
    Forall (fun d => 0 <= d <= max_interval e) ds in
  has_delays e (m - current_attempt e) /\ has_delays (reset e) m.
Proof.
  intros Hm Hc H16 Hmax has. split.
  - destruct (exponential_yields powi random_factor e m (Z.to_nat (m - current_attempt e))) as (ds & ? & ? & ?);
      try done; [lia..|]. exists ds. split_and!; [done|lia|done].
  - destruct (exponential_yields powi random_factor (reset e) m (Z.to_nat m)) as (ds & ? & ? & ?);
      simpl; try done; [lia|]. exists ds. split_and!; [done|lia|done].
Qed.

(** * Witnesses *)

(** Two delays, an operation that is pending once and fails twice, then succeeds. *)
#[local] Instance list_iterator : Iterator (list Duration) := fun l => (head l, tail l).
Definition ex_operation (n : nat) : Future string Z := mkFuture 1 (if (n <? 2)%nat then inr 7 else inl "done").

Lemma retry_completes_witness :
  retried ex_operation (fun _ => true) 0 [5; 10] = (inl "done", 3%nat, 15) /\
  (3 <= 3)%nat /\
  exists n s', drive ex_operation (fun _ => true) Z.of_nat n (retry_new ex_operation [5; 10] 2) = (Some (inl "done"), s') /\
    runs s' = 3%nat /\ Z.of_nat 2 + 15 <= Z.of_nat (reads s').
Proof.
  split; [reflexivity|].
  refine (retry_completes ex_operation (fun _ => true) Z.of_nat [5; 10] [5; 10] 2 _ _ _).
  - intros. lia.
  - intros t. exists (Z.to_nat t). lia.
  - repeat (eapply yields_next; [reflexivity|]). eapply yields_end. reflexivity.
Defined.

Definition powi_iter (f : F64) (n : Z) : F64 := Nat.iter (Z.to_nat n) (f64_mul f) (f64_of_Z 1).
Definition ex_exponential : Exponential := exponential_from_millis 100 1000 (f64_of_Z 2) (S754_zero false) (Some 5).

Lemma exponential_delays_witness :
  let has_delays e' n := exists ds, @yields _ (exponential_next powi_iter f64_of_Z) e' ds /\ Z.of_nat (length ds) = n /\
    Forall (fun d => 0 <= d <= max_interval ex_exponential) ds in
  has_delays ex_exponential 5 /\ has_delays (reset ex_exponential) 5.
Proof.
  refine (exponential_delays powi_iter f64_of_Z ex_exponential 5 eq_refl _ _ _); vm_compute; intuition discriminate.
Defined.

(** The delays double up to the cap. *)
Example exponential_doubles :
  let step '(ds, e) := let (d, e') := exponential_next powi_iter f64_of_Z e in (ds ++ [d], e') in
  (Nat.iter 6 step ([], ex_exponential)).1 =
  map (option_map from_millis) [Some 100; Some 200; Some 400; Some 800; Some 1000; None].
Proof. vm_compute. reflexivity. Qed.

(** Without a maximum of attempts the 16-bit counter wraps around: the 65536th delay is the first
    one again. *)
Example attempt_wraps :
  let e := exponential_from_millis 100 1000 (f64_of_Z 2) (S754_zero false) None in
  exponential_next powi_iter f64_of_Z (set_attempt e (2 ^ 16 - 1)) = (Some (from_millis 100), e).
Proof. vm_compute. reflexivity. Qed.
