(* ===== verification/SinkActor.v ===== *)
(** The sink actor (src/rust/numaflow-core/src/sinker/actor.rs) with its retry configuration
    (config/components/sink.rs): it writes a batch, sorts the messages by the answers of the
    sink, and writes the failed ones again until the backoff ends.

    A sink is an arbitrary function of the calls made of it so far and the batch: external code
    with any internal state. The sleep between two rounds has no other effect and is left out. *)
From Stdlib Require Import ZArith SpecFloat.
From S2P Require Import Prelude Clock Message Backoff.
Open Scope Z_scope.

(** * Configuration *)

Inductive OnFailureStrategy := OFRetry | OFFallback | OFDrop.
#[global] Instance OnFailureStrategy_eq_dec : EqDecision OnFailureStrategy.
Proof. solve_decision. Defined.

Definition DEFAULT_SINK_RETRY_ON_FAIL_STRATEGY : OnFailureStrategy := OFRetry.
Definition DEFAULT_MAX_SINK_RETRY_ATTEMPTS : Z := 2 ^ 16 - 1.

(** [lower] is [str::to_lowercase]. *)
Definition strategy_from_str (lower : string -> string) (s : string) : OnFailureStrategy :=
  let l := lower s in
  if bool_decide (l = "retry") then OFRetry
  else if bool_decide (l = "fallback") then OFFallback
  else if bool_decide (l = "drop") then OFDrop
  else DEFAULT_SINK_RETRY_ON_FAIL_STRATEGY.

Record RetryConfig := mkRetryConfig {
  sink_max_retry_attempts : Z;               (* u16 *)
  sink_initial_retry_interval_in_ms : Z;     (* u32 *)
  sink_retry_factor : F64;
  sink_retry_jitter : F64;
  sink_max_retry_interval_in_ms : Z;         (* u32 *)
  sink_retry_on_fail_strategy : OnFailureStrategy
}.

Definition retry_config_default : RetryConfig :=
  mkRetryConfig DEFAULT_MAX_SINK_RETRY_ATTEMPTS 1 (f64_of_Z 1) (S754_zero false) (2 ^ 32 - 1)
    DEFAULT_SINK_RETRY_ON_FAIL_STRATEGY.

(** The pipeline specification; durations are nanoseconds. *)
Record BackoffSpec := mkBackoffSpec {
  bk_cap : option Duration;
  bk_factor : option F64;
  bk_interval : option Duration;
  bk_jitter : option F64;
  bk_steps : option Z                        (* i64 *)
}.
Record RetryStrategy := mkRetryStrategy { rs_backoff : option BackoffSpec; rs_on_failure : option string }.

Definition retry_config_from (lower : string -> string) (retry : RetryStrategy) : RetryConfig :=
  let d := retry_config_default in
  let strategy := match rs_on_failure retry with
                  | Some s => strategy_from_str lower s
                  | None => sink_retry_on_fail_strategy d end in
  let set {A B} (field : BackoffSpec -> option A) (f : A -> B) (dflt : B) : B :=
    match rs_backoff retry ≫= field with Some x => f x | None => dflt end in
  let steps := set bk_steps as_u16 (sink_max_retry_attempts d) in
  mkRetryConfig
    (if bool_decide (strategy = OFRetry) then DEFAULT_MAX_SINK_RETRY_ATTEMPTS else steps)
    (set bk_interval (fun i => as_u32 (i / ns_per_ms)) (sink_initial_retry_interval_in_ms d))
    (set bk_factor (fun f => f) (sink_retry_factor d))
    (set bk_jitter (fun j => j) (sink_retry_jitter d))
    (set bk_cap (fun c => as_u32 (c / ns_per_ms)) (sink_max_retry_interval_in_ms d))
    strategy.

(** * Answers of a sink *)

Record OnSuccessMessage := mkOnSuccessMessage {
  os_value : string;
  os_keys : list string;
  os_metadata : option ProtoMetadata
}.

Inductive ResponseStatusFromSink :=
  | SSuccess
  | SFailed (err_msg : string)
  | SFallback
  | SServe (serve_response : option string)
  | SOnSuccess (on_success_msg : option OnSuccessMessage)
  | SNack (options : option NackOptions).

Record ResponseFromSink := mkResponse { resp_id : string; resp_status : ResponseStatusFromSink }.

(** The calls made of a sink, and a sink. *)
Abbreviation History := (list (list Message * Result (list ResponseFromSink))) (only parsing).
Abbreviation Sink := (History -> list Message -> Result (list ResponseFromSink)) (only parsing).

Record SinkActorResponse := mkSinkActorResponse {
  r_failed : list Message;
  r_fallback : list Message;
  r_serving : list Message;
  r_dropped : list Message;
  r_on_success : list Message;
  r_nacked : list Message
}.
Definition response_default : SinkActorResponse := mkSinkActorResponse [] [] [] [] [] [].

Definition set_value (m : Message) (v : string) : Message :=
  mkMessage (m_typ m) (m_keys m) (m_tags m) v (m_offset m) (m_event_time m) (m_watermark m) (m_id m)
    (m_headers m) (m_metadata m) (m_is_late m) (m_nack_options m).
Definition set_nack_options (m : Message) (o : option NackOptions) : Message :=
  mkMessage (m_typ m) (m_keys m) (m_tags m) (m_value m) (m_offset m) (m_event_time m) (m_watermark m) (m_id m)
    (m_headers m) (m_metadata m) (m_is_late m) o.

(** The message for the on-success sink. *)
Definition on_success_message (m : Message) (o : OnSuccessMessage) : Message :=
  let md := metadata_of_proto <$> os_metadata o in
  let new_md := match m_metadata m with
    | Some prev => mkMetadata (previous_vertex prev) (sys_metadata prev)
                     (match md with Some md => user_metadata md | None => user_metadata prev end)
    | None => mkMetadata "" ∅ (match md with Some md => user_metadata md | None => ∅ end)
    end in
  mkMessage (m_typ m) (os_keys o) (m_tags m) (os_value o) (m_offset m) (m_event_time m) (m_watermark m) (m_id m)
    (m_headers m) (Some new_md) (m_is_late m) (m_nack_options m).

(** * The actor *)

Definition classify_one (m : Message) (st : ResponseStatusFromSink) (a : SinkActorResponse) : SinkActorResponse :=
  let '(mkSinkActorResponse failed fallback serving dropped on_success nacked) := a in
  match st with
  | SSuccess => a
  | SFailed _ => mkSinkActorResponse (failed ++ [m]) fallback serving dropped on_success nacked
  | SFallback => mkSinkActorResponse failed (fallback ++ [m]) serving dropped on_success nacked
  | SServe v =>
      let m' := match v with Some v => set_value m v | None => m end in
      mkSinkActorResponse failed fallback (serving ++ [m']) dropped on_success nacked
  | SOnSuccess o =>
      let m' := match o with Some o => on_success_message m o | None => m end in
      mkSinkActorResponse failed fallback serving dropped (on_success ++ [m']) nacked
  | SNack o => mkSinkActorResponse failed fallback serving dropped on_success (nacked ++ [set_nack_options m o])
  end.

(** The answers by message id; a duplicate is an error. *)
Fixpoint result_map_of (rs : list ResponseFromSink) (rm : gmap string ResponseStatusFromSink) :
    Result (gmap string ResponseStatusFromSink) :=
  match rs with
  | [] => Ok rm
  | r :: rs' =>
      match rm !! resp_id r with
      | Some _ => Err (ESink "duplicate response id from sink")
      | None => result_map_of rs' (<[resp_id r := resp_status r]> rm)
      end
  end.

Fixpoint classify (rm : gmap string ResponseStatusFromSink) (ms : list Message) (a : SinkActorResponse) :
    Result (gmap string ResponseStatusFromSink * SinkActorResponse) :=
  match ms with
  | [] => Ok (rm, a)
  | m :: ms' =>
      match message_id_to_string (m_id m) with
      | None => Err (EActorPatternRecv "the actor panicked")
      | Some id =>
          match rm !! id with
          | None => Err (ESink "missing response from sink for message id")
          | Some st => classify (delete id rm) ms' (classify_one m st a)
          end
      end
  end.

Definition take_failed (a : SinkActorResponse) : SinkActorResponse :=
  mkSinkActorResponse [] (r_fallback a) (r_serving a) (r_dropped a) (r_on_success a) (r_nacked a).

(** One round: the messages to retry, stamped with the attempt, are written and sorted. *)
Definition sink_round (sink : Sink) (h : History) (attempt : N) (a : SinkActorResponse) :
    Result SinkActorResponse * History :=
  let batch := (fun m => message_set_sink_retry_count m attempt) <$> r_failed a in
  let answer := sink h batch in
  (try! rs := answer in
   try! rm := result_map_of rs ∅ in
   try! (rm', a') := classify rm batch (take_failed a) in
   if decide (rm' = ∅) then Ok a' else Err (ESink "received responses for unknown message ids from sink"),
   h ++ [(batch, answer)]).

Definition exhausted (strategy : OnFailureStrategy) (a : SinkActorResponse) : SinkActorResponse :=
  match strategy with
  | OFFallback => mkSinkActorResponse [] (r_fallback a ++ r_failed a) (r_serving a) (r_dropped a) (r_on_success a) (r_nacked a)
  | OFDrop => mkSinkActorResponse [] (r_fallback a) (r_serving a) (r_dropped a ++ r_failed a) (r_on_success a) (r_nacked a)
  | OFRetry => a
  end.

Section Actor.
Context (powi : F64 -> Z -> F64) (random_factor : Z -> F64).
Context (cancelled : History -> bool).     (* the token, read after a round *)
Context (sink : Sink) (cfg : RetryConfig).

(** The retry loop; [None] is fuel that ran out. *)
Fixpoint write_loop (fuel : nat) (b : Exponential) (attempt : N) (a : SinkActorResponse) (h : History) :
    option (Result SinkActorResponse * History) :=
  match fuel with
  | O => None
  | S fuel =>
      match sink_round sink h attempt a with
      | (Err e, h') => Some (Err e, h')
      | (Ok a', h') =>
          match r_failed a' with
          | [] => Some (Ok a', h')
          | _ =>
              if cancelled h' then Some (Ok a', h')
              else match exponential_next powi random_factor b with
                   | (Some _, b') => write_loop fuel b' (attempt + 1) a' h'
                   | (None, _) => Some (Ok (exhausted (sink_retry_on_fail_strategy cfg) a'), h')
                   end
          end
      end
  end.

Definition actor_backoff : Exponential :=
  exponential_from_millis (sink_initial_retry_interval_in_ms cfg) (sink_max_retry_interval_in_ms cfg)
    (sink_retry_factor cfg) (sink_retry_jitter cfg) (Some (sink_max_retry_attempts cfg)).

Definition write_messages_with_retry (ms : list Message) (h : History) : option (Result SinkActorResponse * History) :=
  match ms with
  | [] => Some (Ok response_default, h)
  | _ => write_loop (S (Z.to_nat (sink_max_retry_attempts cfg))) actor_backoff 0
           (mkSinkActorResponse ms [] [] [] [] []) h
  end.
End Actor.

(** * Accounting *)

Definition kept (a : SinkActorResponse) : list Message :=
  r_failed a ++ r_fallback a ++ r_serving a ++ r_dropped a ++ r_on_success a ++ r_nacked a.

(** [told h i st]: in one of the calls the sink answered [st] for the message [i]. *)
Definition told (h : History) (i : MessageID) (st : ResponseStatusFromSink) : Prop :=
  exists s batch rs, message_id_to_string i = Some s /\ (batch, Ok rs) ∈ h /\ mkResponse s st ∈ rs.

(** Every message is where the answers put it. *)
Definition justified (P : MessageID -> ResponseStatusFromSink -> Prop) (strategy : OnFailureStrategy)
    (a : SinkActorResponse) : Prop :=
  Forall (fun m => P (m_id m) SFallback \/ strategy = OFFallback /\ exists e, P (m_id m) (SFailed e)) (r_fallback a) /\
  Forall (fun m => exists v, P (m_id m) (SServe v)) (r_serving a) /\
  Forall (fun m => exists o, P (m_id m) (SOnSuccess o)) (r_on_success a) /\
  Forall (fun m => P (m_id m) (SNack (m_nack_options m))) (r_nacked a) /\
  Forall (fun m => strategy = OFDrop /\ exists e, P (m_id m) (SFailed e)) (r_dropped a).

Definition failures (P : MessageID -> ResponseStatusFromSink -> Prop) (a : SinkActorResponse) : Prop :=
  Forall (fun m => exists e, P (m_id m) (SFailed e)) (r_failed a).

Lemma told_app h h' i st : told h i st -> told (h ++ h') i st.
Proof. intros (s & b & rs & ? & ? & ?). exists s, b, rs. rewrite elem_of_app. auto. Qed.

Lemma justified_mono (P Q : MessageID -> ResponseStatusFromSink -> Prop) strategy a :
  (forall i st, P i st -> Q i st) -> justified P strategy a -> justified Q strategy a.
Proof.
  intros HPQ (H1 & H2 & H3 & H4 & H5). split_and!; eapply Forall_impl; try done; naive_solver.
Qed.

Lemma classify_one_kept m st a :
  (st = SSuccess /\ classify_one m st a = a) \/
  exists m', m_id m' = m_id m /\ kept (classify_one m st a) ≡ₚ m' :: kept a.
Proof.
  destruct a. unfold kept. destruct st as [| | |v|o|]; simpl; [by left|right..];
    eexists; (split; cycle 1; [rewrite <- ?app_assoc; simpl; rewrite <- ?Permutation_middle, ?app_nil_r; reflexivity|]); by repeat case_match.
Qed.

Lemma classify_one_justified P strategy m st a :
  justified P strategy a /\ failures P a -> P (m_id m) st ->
  justified P strategy (classify_one m st a) /\ failures P (classify_one m st a).
Proof.
  intros [(H1 & H2 & H3 & H4 & H5) H6] HP. destruct a. unfold justified, failures in *. simpl in *.
  destruct st as [| | |[]|[]|]; split_and!; simpl; try done; apply Forall_app; split; try done;
    repeat constructor; simpl; eauto.
Qed.

Lemma result_map_of_Ok rs rm rm' s st :
  result_map_of rs rm = Ok rm' -> rm' !! s = Some st -> rm !! s = Some st \/ mkResponse s st ∈ rs.
Proof.
  revert rm. induction rs as [|[i t] rs IH]; intros rm; simpl; [intros [= ->]; auto|].
  destruct (rm !! i) as [?|] eqn:E; [done|]. intros Hr Hs. destruct (IH _ Hr Hs) as [Hl|Hin]; [|by right; right].
  apply lookup_insert_Some in Hl as [[<- <-]|[_ ?]]; [right; by left|by left].
Qed.

Lemma classify_Ok (P : MessageID -> ResponseStatusFromSink -> Prop) strategy rm ms a rm' a' :
  (forall i s st, message_id_to_string i = Some s -> rm !! s = Some st -> P i st) ->
  classify rm ms a = Ok (rm', a') ->
  exists done, Forall (fun i => P i SSuccess) done /\
    done ++ (m_id <$> kept a') ≡ₚ (m_id <$> ms) ++ (m_id <$> kept a) /\
    (justified P strategy a /\ failures P a -> justified P strategy a' /\ failures P a').
Proof.
  revert rm a. induction ms as [|m ms IH]; intros rm a HP; cbn [classify]; [by intros [= _ <-]; exists []|].
  destruct (message_id_to_string (m_id m)) as [s|] eqn:Es; [|done]. destruct (rm !! s) as [st|] eqn:Est; [|done].
  intros Hc. assert (Hst : P (m_id m) st) by by eapply HP.
  destruct (IH _ _ (fun i s' st' Hi Hs => HP i s' st' Hi (proj2 (proj1 (lookup_delete_Some _ _ _ _) Hs))) Hc)
    as (dn & Hd & Hp & Hj). rewrite fmap_cons.
  destruct (classify_one_kept m st a) as [[-> Heq]|(m' & Hm' & Hk)].
  - exists (m_id m :: dn). rewrite Heq in *. split_and!; [by constructor| |done].
    cbn. by rewrite Hp.
  - exists dn. split_and!; [done| |intros Hja; by apply Hj, classify_one_justified].
    rewrite Hp, Hk, fmap_cons, Hm'. cbn. by rewrite <- Permutation_middle.
Qed.

Lemma kept_split a : kept a = r_failed a ++ kept (take_failed a).
Proof. done. Qed.

Lemma stamp_ids n (l : list Message) : m_id <$> ((fun m => message_set_sink_retry_count m n) <$> l) = m_id <$> l.
Proof. rewrite <- list_fmap_compose. by apply list_fmap_ext. Qed.

(** What is known of the messages [ids] after some calls: the ones settled, and the rest. *)
Definition accounted (strategy : OnFailureStrategy) (ids : list MessageID) (h : History) (a : SinkActorResponse) : Prop :=
  exists done, Forall (fun i => told h i SSuccess) done /\ done ++ (m_id <$> kept a) ≡ₚ ids /\
    justified (told h) strategy a.

Lemma sink_round_accounted sink strategy ids h n a a' h' :
  sink_round sink h n a = (Ok a', h') -> accounted strategy ids h a ->
  accounted strategy ids h' a' /\ failures (told h') a'.
Proof.
  unfold sink_round. intros Hr (dn & Hd & Hp & Hj). set (batch := _ <$> r_failed a) in *.
  injection Hr as Hok Hh. destruct (sink h batch) as [rs|] eqn:Es; [|done].
  destruct (result_map_of rs ∅) as [rm|] eqn:Erm; [|done]. destruct (classify rm batch _) as [[rm' a1]|] eqn:Ec; [|done].
  case_decide; [|done]. injection Hok as ->.
  assert (Htold : forall i s st, message_id_to_string i = Some s -> rm !! s = Some st -> told h' i st).
  { intros i s st Hi Hs. destruct (result_map_of_Ok _ _ _ _ _ Erm Hs) as [?|Hin]; [done|].
    exists s, batch, rs. subst h'. split_and!; [done| |done]. apply elem_of_app. right. by left. }
  destruct (classify_Ok (told h') strategy _ _ _ _ _ Htold Ec) as (dn2 & Hd2 & Hp2 & Hj2).
  assert (Hmono : forall i st, told h i st -> told h' i st) by (intros; subst h'; by apply told_app).
  destruct Hj2 as [Hj2 Hf2].
  { split; [|by constructor]. eapply justified_mono; [done|]. destruct Hj as (? & ? & ? & ? & ?). by split_and!. }
  split; [|done]. exists (dn ++ dn2). split_and!; [| |done].
  - apply Forall_app. split; [|done]. eapply Forall_impl; [done|]. naive_solver.
  - rewrite <- app_assoc, Hp2. unfold batch. rewrite stamp_ids, <- Hp, (kept_split a), fmap_app. done.
Qed.

Lemma exhausted_accounted strategy ids h a :
  accounted strategy ids h a -> failures (told h) a -> accounted strategy ids h (exhausted strategy a).
Proof.
  intros (dn & Hd & Hp & H1 & H2 & H3 & H4 & H5) Hf. exists dn. split_and!; [done| |].
  - rewrite <- Hp. f_equiv. apply fmap_Permutation. destruct strategy; simpl; [done|..]; unfold kept; simpl.
    + by rewrite (Permutation_app_comm (r_fallback a)), <- app_assoc.
    + rewrite (Permutation_app_comm (r_dropped a)), <- app_assoc.
      by rewrite (Permutation_app_swap_app (r_serving a)), (Permutation_app_swap_app (r_fallback a)).
  - destruct strategy; simpl; split_and!; simpl; try done; apply Forall_app; split; try done;
      eapply Forall_impl; try exact Hf; naive_solver.
Qed.

Lemma sink_round_history sink h n a r h' : sink_round sink h n a = (r, h') -> exists c, h' = h ++ [c].
Proof. intros [= _ <-]. eauto. Qed.

(** ** What is served

    The message for the serving store is the one of the batch, with the value the sink gave for it. *)
Definition served (ms : list Message) (h : History) (m' : Message) : Prop :=
  exists m v, m ∈ ms /\ m_id m' = m_id m /\ m_headers m' = m_headers m /\ m_value m' = default (m_value m) v /\ told h (m_id m) (SServe v).
Definition copy_of (ms : list Message) (m' : Message) : Prop :=
  exists m, m ∈ ms /\ m_id m' = m_id m /\ m_headers m' = m_headers m /\ m_value m' = m_value m.
Definition serving_from (ms : list Message) (h : History) (a : SinkActorResponse) : Prop :=
  Forall (served ms h) (r_serving a) /\ Forall (copy_of ms) (r_failed a).

Lemma served_app ms h h' m : served ms h m -> served ms (h ++ h') m.
Proof. intros (m0 & v & ? & ? & ? & ? & ?). exists m0, v. split_and!; try done. by apply told_app. Qed.

Lemma classify_one_serving ms h m st a :
  copy_of ms m -> told h (m_id m) st -> serving_from ms h a -> serving_from ms h (classify_one m st a).
Proof.
  intros Hc Ht [Hs Hf]. destruct a as [fa fb se dr os na]. unfold serving_from in *. simpl in *.
  destruct st as [| | |v|o|]; simpl; split; try done; apply Forall_app; (split; [done|]); repeat constructor; [done|].
  destruct Hc as (m0 & ? & Hi & ? & ?). exists m0, v. rewrite Hi in Ht. by destruct v.
Qed.
Lemma classify_serving ms h rm batch a rm' a' :
  (forall i s st, message_id_to_string i = Some s -> rm !! s = Some st -> told h i st) ->
  classify rm batch a = Ok (rm', a') -> Forall (copy_of ms) batch -> serving_from ms h a -> serving_from ms h a'.
Proof.
  revert rm a. induction batch as [|m batch IH]; intros rm a HP; cbn [classify]; [by intros [= _ <-]|].
  destruct (message_id_to_string (m_id m)) as [s|] eqn:Es; [|done]. destruct (rm !! s) as [st|] eqn:Est; [|done].
  intros Hc [Hm Hb]%Forall_cons Hs. refine (IH _ _ (fun i s' st' Hi Hl => HP i s' st' Hi (proj2 (proj1 (lookup_delete_Some _ _ _ _) Hl))) Hc Hb _).
  apply classify_one_serving; [done| |done]. by eapply HP.
Qed.
Lemma sink_round_serving sink ms h n a a' h' :
  sink_round sink h n a = (Ok a', h') -> serving_from ms h a -> serving_from ms h' a'.
Proof.
  unfold sink_round. intros Hr [Hs Hf]. set (batch := _ <$> r_failed a) in *.
  injection Hr as Hok Hh. destruct (sink h batch) as [rs|] eqn:Es; [|done].
  destruct (result_map_of rs ∅) as [rm|] eqn:Erm; [|done]. destruct (classify rm batch _) as [[rm' a1]|] eqn:Ec; [|done].
  case_decide; [|done]. injection Hok as ->. refine (classify_serving ms h' rm batch _ _ _ _ Ec _ _).
  - intros i s st Hi Hl. destruct (result_map_of_Ok _ _ _ _ _ Erm Hl) as [?|Hin]; [done|].
    exists s, batch, rs. subst h'. split_and!; [done| |done]. apply elem_of_app. right. by left.
  - apply Forall_fmap. eapply Forall_impl; [exact Hf|]. done.
  - split; [|by constructor]. eapply Forall_impl; [exact Hs|]. intros m Hm. subst h'. by apply served_app.
Qed.

Section ServingLoop.
Context (powi : F64 -> Z -> F64) (random_factor : Z -> F64) (cancelled : History -> bool).
Context (sink : Sink) (cfg : RetryConfig).

Lemma write_loop_serving ms fuel b n a h a' h' :
  write_loop powi random_factor cancelled sink cfg fuel b n a h = Some (Ok a', h') -> serving_from ms h a -> serving_from ms h' a'.
Proof.
  revert b n a h. induction fuel as [|fuel IH]; intros b n a h; cbn [write_loop]; [done|].
  destruct (sink_round sink h n a) as [[a1|e] h1] eqn:Er; [|done]. intros Hw Hs. pose proof (sink_round_serving _ ms _ _ _ _ _ Er Hs) as H1.
  destruct (r_failed a1) eqn:Ef; [by injection Hw as <- <-|]. destruct (cancelled h1); [by injection Hw as <- <-|].
  destruct (exponential_next powi random_factor b) as [[d|] b']; [by apply (IH _ _ _ _ Hw)|]. injection Hw as <- <-.
  destruct H1 as [? ?]. destruct (sink_retry_on_fail_strategy cfg); split; simpl; try done; by constructor.
Qed.
Lemma write_messages_serving ms h a h' :
  write_messages_with_retry powi random_factor cancelled sink cfg ms h = Some (Ok a, h') -> serving_from ms h' a.
Proof.
  unfold write_messages_with_retry. destruct ms as [|m ms]; [intros [= <- <-]; split; constructor|]. intros Hw.
  apply (write_loop_serving _ _ _ _ _ _ _ _ Hw). split; [constructor|]. apply Forall_forall. intros m' Hm'. by exists m'.
Qed.
End ServingLoop.

Section Loop.
Context (powi : F64 -> Z -> F64) (random_factor : Z -> F64) (cancelled : History -> bool).
Context (sink : Sink) (cfg : RetryConfig).
#[local] Abbreviation strategy := (sink_retry_on_fail_strategy cfg) (only parsing).

(** What a call of the actor has done when it returns. *)
Definition actor_done (ids : list MessageID) (h : History) (calls : nat) (r : Result SinkActorResponse) (h' : History) : Prop :=
  h `prefix_of` h' /\ (length h' <= length h + calls)%nat /\
  forall a, r = Ok a -> accounted strategy ids h' a /\ (r_failed a <> [] -> strategy = OFRetry \/ cancelled h' = true).

Lemma actor_done_step ids h c calls r h' :
  actor_done ids (h ++ [c]) calls r h' -> actor_done ids h (S calls) r h'.
Proof.
  intros (Hp & Hl & Ha). split_and!; [|rewrite length_app in Hl; simpl in Hl; lia|done].
  etrans; [|done]. by apply prefix_app_r.
Qed.

Lemma actor_done_now ids h c calls r :
  (forall a, r = Ok a -> accounted strategy ids (h ++ [c]) a /\ (r_failed a <> [] -> strategy = OFRetry \/ cancelled (h ++ [c]) = true)) ->
  actor_done ids h (S calls) r (h ++ [c]).
Proof. intros Ha. split_and!; [by apply prefix_app_r|rewrite length_app; simpl; lia|done]. Qed.

Lemma write_loop_done ids k fuel b n a h :
  (k < fuel)%nat -> max_attempts b = Some (current_attempt b + Z.of_nat k) -> 0 <= current_attempt b ->
  current_attempt b + Z.of_nat k < 2 ^ 16 -> accounted strategy ids h a ->
  exists r h', write_loop powi random_factor cancelled sink cfg fuel b n a h = Some (r, h') /\ actor_done ids h (S k) r h'.
Proof.
  revert fuel b n a h. induction k as [|k IH]; intros fuel b n a h Hf Hm H0 H16 Hacc; (destruct fuel as [|fuel]; [lia|]).
  all: cbn [write_loop]; destruct (sink_round sink h n a) as [[a'|e] h'] eqn:Er;
    destruct (sink_round_history _ _ _ _ _ _ Er) as [c ->].
  2, 4: eexists _, _; split; [done|]; by apply actor_done_now.
  all: apply (sink_round_accounted _ (sink_retry_on_fail_strategy cfg) ids) in Er as [Er Hfail]; [|done].
  all: destruct (r_failed a') as [|m l] eqn:Ef; [eexists _, _; split; [done|]; apply actor_done_now; intros ? [= <-]; by rewrite Ef|].
  all: destruct (cancelled (h ++ [c])) eqn:Ecan; [eexists _, _; split; [done|]; apply actor_done_now; intros ? [= <-]; auto|].
  all: unfold exponential_next; rewrite Hm.
  - rewrite (proj2 (Z.leb_le _ _)) by lia. eexists _, _; split; [done|]. apply actor_done_now. intros ? [= <-].
    split; [by apply exhausted_accounted|]. destruct strategy; simpl; auto.
  - rewrite (proj2 (Z.leb_gt _ _)) by lia. rewrite as_u16_small by lia.
    destruct (IH fuel (set_attempt b (current_attempt b + 1)) (n + 1)%N a' (h ++ [c])) as (r & h2 & Hw & Hd);
      simpl; [lia|rewrite Hm; f_equal; lia|lia|lia|done|].
    exists r, h2. split; [exact Hw|]. by eapply actor_done_step.
Qed.

Lemma write_messages_done ms h :
  0 <= sink_max_retry_attempts cfg < 2 ^ 16 ->
  exists r h', write_messages_with_retry powi random_factor cancelled sink cfg ms h = Some (r, h') /\
    actor_done (m_id <$> ms) h (S (Z.to_nat (sink_max_retry_attempts cfg))) r h'.
Proof.
  intros Hm. unfold write_messages_with_retry. destruct ms as [|m ms].
  - eexists _, _. split; [done|]. split_and!; [done|lia|]. intros ? [= <-]. split; [|done].
    exists []. split_and!; try done; constructor.
  - apply write_loop_done; simpl; [lia|f_equal; lia|lia|lia|].
    exists []. split_and!; [done| |split_and!; try done; constructor]. unfold kept. simpl. by rewrite app_nil_r.
Qed.
End Loop.

(** * Properties *)

(** The sink actor always answers, after at most one call of the sink more than the configured
    attempts. When it answers with the sorted messages, every message of the batch is accounted
    for exactly once: written (the sink said so), or in the one list that the sink's answer puts
    it in; messages are still failed only when the strategy is to retry or the token was
    cancelled, and dropped or sent to the fallback without being asked only after a failure, when the strategy
    says so. *)
Theorem sink_accounting (powi : F64 -> Z -> F64) (random_factor : Z -> F64) (cancelled : History -> bool)
    (sink : Sink) (cfg : RetryConfig) (ms : list Message) (h : History) :
  0 <= sink_max_retry_attempts cfg < 2 ^ 16 ->
  exists r h', write_messages_with_retry powi random_factor cancelled sink cfg ms h = Some (r, h') /\
    h `prefix_of` h' /\ Z.of_nat (length h') <= Z.of_nat (length h) + sink_max_retry_attempts cfg + 1 /\
    forall a, r = Ok a ->
      (exists written, Forall (fun i => told h' i SSuccess) written /\ written ++ (m_id <$> kept a) ≡ₚ m_id <$> ms) /\
      justified (told h') (sink_retry_on_fail_strategy cfg) a /\
      (r_failed a <> [] -> sink_retry_on_fail_strategy cfg = OFRetry \/ cancelled h' = true).
Proof.
  intros Hm. destruct (write_messages_done powi random_factor cancelled sink cfg ms h Hm) as (r & h' & Hw & Hp & Hl & Ha).
  exists r, h'. split_and!; [done|done|lia|]. intros a Hr. destruct (Ha a Hr) as [(dn & ? & ? & ?) ?].
  split_and!; [by exists dn|done|done].
Qed.

(** * Witness *)

(** The sink fails the second message once, then accepts it. *)
Definition ex_message (n : Z) : Message :=
  mkMessage Data [] None "payload" (OInt (mkIntOffset n 0)) 0 None (mkMessageID "v" "o" n) ∅ None false None.
Definition ex_sink (h : History) (ms : list Message) : Result (list ResponseFromSink) :=
  Ok (match h with
      | [] => [mkResponse "v-o-2" (SFailed "busy"); mkResponse "v-o-1" SSuccess; mkResponse "v-o-3" SFallback]
      | _ => [mkResponse "v-o-2" SSuccess]
      end).
Definition ex_config : RetryConfig :=
  mkRetryConfig 3 1 (f64_of_Z 2) (S754_zero false) 1000 OFDrop.
Definition ex_run : option (Result SinkActorResponse * History) :=
  write_messages_with_retry powi_iter f64_of_Z (fun _ => false) ex_sink ex_config (ex_message <$> [1; 2; 3]) [].

Lemma sink_accounting_witness :
  exists r h', ex_run = Some (r, h') /\ [] `prefix_of` h' /\ Z.of_nat (length h') <= 0 + 3 + 1 /\
    forall a, r = Ok a ->
      (exists written, Forall (fun i => told h' i SSuccess) written /\
        written ++ (m_id <$> kept a) ≡ₚ m_id <$> (ex_message <$> [1; 2; 3])) /\
      justified (told h') OFDrop a /\ (r_failed a <> [] -> OFDrop = OFRetry \/ false = true).
Proof.
  refine (sink_accounting powi_iter f64_of_Z (fun _ => false) ex_sink ex_config (ex_message <$> [1; 2; 3]) [] _).
  simpl. lia.
Defined.

Example ex_run_result :
  (fun r => match r with
            | (Ok a, h) => (m_id <$> r_fallback a, m_id <$> r_failed a, length h)
            | _ => ([], [], 0%nat)
            end) <$> ex_run = Some ([mkMessageID "v" "o" 3], [], 2%nat).
Proof. vm_compute. reflexivity. Qed.

(** The number of attempts is truncated to 16 bits: 65536 configured steps are none. *)
Example steps_truncated :
  sink_max_retry_attempts (retry_config_from (fun s => s)
    (mkRetryStrategy (Some (mkBackoffSpec None None None None (Some 65536))) (Some "drop"))) = 0.
Proof. vm_compute. reflexivity. Qed.
