(* ===== verification/SinkWriter.v ===== *)
(** The sink writer (src/rust/numaflow-core/src/sinker/sink.rs) and the bypass router of a
    MonoVertex (monovertex/bypass_router.rs): from batches of message handles to the three sinks
    and the serving store, and back to the verdict on each handle.

    The calls of the sinks and of the store are recorded in the [World]. Tracing spans and
    metrics are left out. A verdict is a step of the acknowledgement handle ([AckLabel]). *)
From Stdlib Require Import ZArith SpecFloat.
From S2P Require Import Prelude Clock Message Forward Backoff SinkActor.
Open Scope Z_scope.

Definition DEFAULT_ID_HEADER : string := "X-Numaflow-Id".
Definition DEFAULT_POD_HASH_KEY : string := "X-Numaflow-Pod-Hash".
Definition TRACING_UDF_METADATA_KEY : string := "tracing_udf".

Record StoreEntry := mkStoreEntry { pod_hash : string; entry_id : string; entry_value : string }.

Record BypassConditions := mkBypassConditions {
  bc_sink : option ForwardConditions;
  bc_fallback : option ForwardConditions;
  bc_on_success : option ForwardConditions
}.

Record ProcessedSinkBatch := mkProcessed { p_nacked : list Message }.
Definition processed_new : ProcessedSinkBatch := mkProcessed [].
Definition with_nacked (p : ProcessedSinkBatch) (l : list Message) : ProcessedSinkBatch := mkProcessed (p_nacked p ++ l).
Definition merge_with (p other : ProcessedSinkBatch) : ProcessedSinkBatch := mkProcessed (p_nacked p ++ p_nacked other).
Definition processed_from (r : SinkActorResponse) : ProcessedSinkBatch := with_nacked processed_new (r_nacked r).

Record MessageHandle := mkHandle { h_key : nat; h_message : Message }.

Record SinkWriter := mkSinkWriter {
  sink_handle : Sink;
  fb_sink_handle : option Sink;
  on_success_sink_handle : option Sink;
  serving_store : option (list (list StoreEntry * Result unit) -> list StoreEntry -> Result unit);
  bypass_conditions : option BypassConditions;
  retry_config : RetryConfig              (* of each of the three actors *)
}.

(** The calls made so far. *)
Record World := mkWorld {
  w_primary : History;
  w_fb : History;
  w_os : History;
  w_store : list (list StoreEntry * Result unit)
}.

(** [Message::strip_tracing_udf]. *)
Definition strip_tracing_udf (m : Message) : Message :=
  with_metadata m ((fun md => mkMetadata (previous_vertex md) (delete TRACING_UDF_METADATA_KEY (sys_metadata md))
    (user_metadata md)) <$> m_metadata m).

Abbreviation Verdicts := (list (nat * AckLabel)) (only parsing).

Section Writer.
Context (powi : F64 -> Z -> F64) (random_factor : Z -> F64) (cancelled : History -> bool).
Context (wr : SinkWriter).

(** State and error passing. *)
Definition M (A : Type) : Type := World -> Result A * World.
Definition ret {A} (x : A) : M A := fun w => (Ok x, w).
Definition fail {A} (e : Error) : M A := fun w => (Err e, w).
Definition bind {A B} (m : M A) (k : A -> M B) : M B :=
  fun w => match m w with (Ok x, w') => k x w' | (Err e, w') => (Err e, w') end.
#[local] Notation "'do!' x := m 'in' k" := (bind m (fun x => k)) (at level 10, x name, m at level 200, k at level 200).

Definition run_actor (s : Sink) (ms : list Message) (h : History) : Result SinkActorResponse * History :=
  default (Err (EOther "out of fuel"), h)
    (write_messages_with_retry powi random_factor cancelled s (retry_config wr) ms h).

Definition write_to_primary_sink (ms : list Message) : M SinkActorResponse := fun w =>
  let (r, h) := run_actor (sink_handle wr) ms (w_primary w) in (r, mkWorld h (w_fb w) (w_os w) (w_store w)).

Definition write_to_fb_sink (ms : list Message) : M SinkActorResponse := fun w =>
  match fb_sink_handle wr with
  | None => (Err (EFbSink "no fallback sink is configured"), w)
  | Some s => let (r, h) := run_actor s ms (w_fb w) in (r, mkWorld (w_primary w) h (w_os w) (w_store w))
  end.

Definition write_to_on_success_sink (ms : list Message) : M SinkActorResponse := fun w =>
  match on_success_sink_handle wr with
  | None => (Err (EOsSink "no OnSuccess sink is configured"), w)
  | Some s => let (r, h) := run_actor s ms (w_os w) in (r, mkWorld (w_primary w) (w_fb w) h (w_store w))
  end.

Definition nonempty {A} (l : list A) : bool := match l with [] => false | _ => true end.

(** Shared by the two secondary sinks; [wrong] and [lost] are their errors. *)
Definition check_secondary (wrong_fallback wrong_serving lost : Error) (r : SinkActorResponse) : M ProcessedSinkBatch :=
  if nonempty (r_fallback r) then fail wrong_fallback
  else if nonempty (r_serving r) then fail wrong_serving
  else if nonempty (r_failed r) then fail lost
  else ret (processed_from r).

Definition write_to_on_success (ms : list Message) : M ProcessedSinkBatch :=
  match ms with
  | [] => ret processed_new
  | _ => do! r := write_to_on_success_sink ms in
         check_secondary (EFbSink "OnSuccess response contains fallback messages")
           (EFbSink "OnSuccess response contains serving messages")
           (EOsSink "Failed to write messages to on_success sink after retries") r
  end.

Definition write_to_fallback (ms : list Message) : M ProcessedSinkBatch :=
  match ms with
  | [] => ret processed_new
  | _ => do! r := write_to_fb_sink ms in
         check_secondary (EFbSink "Response in fallback sink contains fallback messages")
           (EFbSink "Response in fallback sink contains serving messages")
           (EFbSink "Failed to write messages to fallback sink after retries") r
  end.

Definition store_entry (m : Message) : Result StoreEntry :=
  try! id := ok_or (m_headers m !! DEFAULT_ID_HEADER) (ESink "Missing numaflow id header") in
  try! hash := ok_or (m_headers m !! DEFAULT_POD_HASH_KEY) (ESink "Missing pod replica header") in
  Ok (mkStoreEntry hash id (m_value m)).

Fixpoint store_entries (ms : list Message) : Result (list StoreEntry) :=
  match ms with
  | [] => Ok []
  | m :: ms' => try! e := store_entry m in try! es := store_entries ms' in Ok (e :: es)
  end.

Definition write_to_serving_store (ms : list Message) : M ProcessedSinkBatch := fun w =>
  match serving_store wr with
  | None => (Err (ESink "no serving store is configured"), w)
  | Some put =>
      match store_entries ms with
      | Err e => (Err e, w)
      | Ok payloads =>
          let r := put (w_store w) payloads in
          (try! _ := r in Ok processed_new,
           mkWorld (w_primary w) (w_fb w) (w_os w) (w_store w ++ [(payloads, r)]))
      end
  end.

(** A write that happens only for a non-empty list. *)
Definition if_any (write : list Message -> M ProcessedSinkBatch) (ms : list Message) : M (option ProcessedSinkBatch) :=
  match ms with [] => ret None | _ => do! p := write ms in ret (Some p) end.

Definition write_to_sink (ms : list Message) : M ProcessedSinkBatch :=
  match ms with
  | [] => ret processed_new
  | _ =>
      do! r := write_to_primary_sink ms in
      let fallback := strip_tracing_udf <$> r_fallback r in
      let on_success := strip_tracing_udf <$> r_on_success r in
      let serving := strip_tracing_udf <$> r_serving r in
      if nonempty (r_failed r) then fail (ESink "Failed to write messages after retries")
      else
        do! pf := if_any write_to_fallback fallback in
        do! po := if_any write_to_on_success on_success in
        do! ps := if_any write_to_serving_store serving in
        ret (foldl merge_with (with_nacked processed_new (r_nacked r))
               (option_list pf ++ option_list po ++ option_list ps))
  end.

Definition bypassed : bool :=
  match bypass_conditions wr with
  | Some c => match bc_sink c with Some _ => true | None => false end
  | None => false
  end.

Definition process_batch (ms : list Message) : M ProcessedSinkBatch :=
  let nacks := filter (fun m => nacked m = true) ms in
  let to_process := filter (fun m => nacked m = false) ms in
  if bypassed then ret (with_nacked processed_new nacks)
  else
    match filter (fun m => dropped m = false) to_process with
    | [] => ret (with_nacked processed_new nacks)
    | rest => do! p := write_to_sink rest in ret (with_nacked p nacks)
    end.

(** * Handles *)

(** The map by id; a handle that another one replaces goes out of scope. *)
Definition read_map_of (batch : list MessageHandle) : gmap MessageID MessageHandle * list MessageHandle :=
  foldl (fun acc hd =>
    (<[m_id (h_message hd) := hd]> acc.1, acc.2 ++ option_list (acc.1 !! m_id (h_message hd)))) (∅, []) batch.

(** [None] is the panic of [expect]. *)
Fixpoint take_nacked (nacks : list Message) (rm : gmap MessageID MessageHandle) :
    option (gmap MessageID MessageHandle * list MessageHandle) :=
  match nacks with
  | [] => Some (rm, [])
  | m :: nacks' =>
      let? hd := rm !! m_id m in
      let? (rm', hds) := take_nacked nacks' (delete (m_id m) rm) in
      Some (rm', mkHandle (h_key hd) (set_nack_options (h_message hd) (m_nack_options m)) :: hds)
  end.

(** The acked handles, the nacked ones, and the ones replaced in the map. *)
Definition split_batch_handles (batch : list MessageHandle) (p : ProcessedSinkBatch) :
    option (list MessageHandle * list MessageHandle * list MessageHandle) :=
  let (rm, lost) := read_map_of batch in
  let? (rm', nacked_handles) := take_nacked (p_nacked p) rm in
  Some ((map_to_list rm').*2, nacked_handles, lost).

Definition mark (l : MessageHandle -> AckLabel) (batch : list MessageHandle) : Verdicts :=
  (fun hd => (h_key hd, l hd)) <$> batch.

(** The verdicts on a batch that was processed. A panic ends the task: the handles are dropped. *)
Definition batch_verdicts (batch : list MessageHandle) (p : ProcessedSinkBatch) : option Verdicts :=
  let? (acked, nacked_handles, lost) := split_batch_handles batch p in
  Some (mark (fun _ => LDrop) lost ++
        mark (fun hd => LFail "message nacked" (m_nack_options (h_message hd))) nacked_handles ++
        mark (fun _ => LSuccess) acked).

(** The error, as text, is the reason of the failure. *)
Context (error_text : Error -> string).

Fixpoint streaming_write (batches : list (list MessageHandle)) (final_result : Result unit) (w : World) :
    Verdicts * Result unit * World :=
  match batches with
  | [] => ([], final_result, w)
  | batch :: rest =>
      match final_result with
      | Err e =>
          let '(v, f, w') := streaming_write rest final_result w in
          (mark (fun _ => LFail (error_text e) None) batch ++ v, f, w')
      | Ok _ =>
          match process_batch (h_message <$> batch) w with
          | (Ok p, w1) =>
              match batch_verdicts batch p with
              | Some v1 => let '(v, f, w') := streaming_write rest final_result w1 in (v1 ++ v, f, w')
              | None => (mark (fun _ => LDrop) (concat (batch :: rest)), Err (EOther "panic"), w1)
              end
          | (Err e, w1) =>
              let '(v, f, w') := streaming_write rest (Err e) w1 in
              (mark (fun _ => LFail (error_text e) None) batch ++ v, f, w')
          end
      end
  end.
End Writer.

(** * Permutations of ids, by counting *)

Lemma perm_count (l k : list MessageID) : l ≡ₚ k <-> forall x, count_occ MessageID_eq_dec l x = count_occ MessageID_eq_dec k x.
Proof. apply (Permutation_count_occ MessageID_eq_dec). Qed.

Ltac perm_solve :=
  apply perm_count; let x := fresh "x" in intros x;
  repeat match goal with Hp : ?l ≡ₚ ?k |- _ =>
    let Hc := fresh "Hc" in pose proof (proj1 (perm_count l k) Hp x) as Hc; clear Hp end;
  rewrite ?fmap_app, ?count_occ_app in *; lia.

(** * What an acknowledgement means *)

Section Settled.
Context (strategy : OnFailureStrategy).

(** The strategy gave the message up after a failure. *)
Definition given_up (h : History) (i : MessageID) : Prop := strategy = OFDrop /\ exists e, told h i (SFailed e).

Definition settled_by (h : History) (i : MessageID) : Prop :=
  told h i SSuccess \/ (exists o, told h i (SOnSuccess o)) \/ given_up h i.

(** The primary sink asked for the message to be served, and the store took the entry of this very message: its own
    id and pod headers, and the value the sink gave, or its own. *)
Definition stored (w : World) (m : Message) : Prop :=
  exists v e es, told (w_primary w) (m_id m) (SServe v) /\
    store_entry (set_value m (default (m_value m) v)) = Ok e /\ e ∈ es /\ (es, Ok tt) ∈ w_store w.

(** The message has reached its destination: the primary sink took it or it was given up there, a
    secondary sink took it, or the serving store did. *)
Definition settled (w : World) (m : Message) : Prop :=
  told (w_primary w) (m_id m) SSuccess \/ given_up (w_primary w) (m_id m) \/ settled_by (w_fb w) (m_id m) \/
  settled_by (w_os w) (m_id m) \/ stored w m.

Definition grows (w w' : World) : Prop :=
  w_primary w `prefix_of` w_primary w' /\ w_fb w `prefix_of` w_fb w' /\ w_os w `prefix_of` w_os w' /\
  w_store w `prefix_of` w_store w'.

#[global] Instance grows_preorder : PreOrder grows.
Proof.
  split; [done|]. intros w1 w2 w3 (? & ? & ? & ?) (? & ? & ? & ?). split_and!; by etrans.
Qed.

Lemma told_mono h h' i st : h `prefix_of` h' -> told h i st -> told h' i st.
Proof. intros [k ->]. apply told_app. Qed.

Lemma settled_by_mono h h' i : h `prefix_of` h' -> settled_by h i -> settled_by h' i.
Proof. intros Hp. unfold settled_by, given_up. pose proof (told_mono h h' i). naive_solver. Qed.

Lemma stored_mono w w' m : grows w w' -> stored w m -> stored w' m.
Proof.
  intros (H1 & _ & _ & [k H4]) (v & e & es & Ht & ? & ? & ?). exists v, e, es. rewrite H4, elem_of_app. split_and!; auto. by eapply told_mono.
Qed.
Lemma settled_mono w w' m : grows w w' -> settled w m -> settled w' m.
Proof.
  intros Hg. pose proof Hg as (H1 & H2 & H3 & _). unfold settled.
  intros [?|[(? & e & ?)|[?|[?|Hs]]]]; [left; by eapply told_mono|right; left; split; [done|exists e; by eapply told_mono]| | |].
  - right; right; left. by eapply settled_by_mono.
  - right; right; right; left. by eapply settled_by_mono.
  - do 4 right. by eapply stored_mono.
Qed.

(** A sink asked for the message to be nacked, with its options. *)
Definition nack_told (w : World) (m : Message) : Prop :=
  let asked h := told h (m_id m) (SNack (m_nack_options m)) in asked (w_primary w) \/ asked (w_fb w) \/ asked (w_os w).

Lemma nack_told_mono w w' m : grows w w' -> nack_told w m -> nack_told w' m.
Proof. intros (H1 & H2 & H3 & _) [?|[?|?]]; [left|right; left|right; right]; by eapply told_mono. Qed.

(** The outcome for the messages [ids]: settled, in the sense of [Q], or to be nacked. *)
Definition split_outcome (Q : World -> MessageID -> Prop) (w : World) (ids : list MessageID) (nacks : list Message) : Prop :=
  Forall (nack_told w) nacks /\ exists done, Forall (Q w) done /\ done ++ (m_id <$> nacks) ≡ₚ ids.

(** The operation settles or hands back every one of the messages. *)
Definition settles (Q : World -> MessageID -> Prop) (m : M ProcessedSinkBatch) (ids : list MessageID) : Prop :=
  forall w r w', m w = (r, w') -> grows w w' /\ forall p, r = Ok p -> split_outcome Q w' ids (p_nacked p).

(** One of the messages [ms] has this id and is settled. *)
Definition settled_among (ms : list Message) (w : World) (i : MessageID) : Prop := exists m, m ∈ ms /\ m_id m = i /\ settled w m.
Definition settled_in (hist : World -> History) (w : World) (i : MessageID) : Prop := settled_by (hist w) i.
End Settled.

Section Lemmas.
Context (powi : F64 -> Z -> F64) (random_factor : Z -> F64) (cancelled : History -> bool) (wr : SinkWriter).
Context (Hattempts : 0 <= sink_max_retry_attempts (retry_config wr) < 2 ^ 16).
#[local] Abbreviation strategy := (sink_retry_on_fail_strategy (retry_config wr)) (only parsing).

Lemma run_actor_Ok s ms h r h' :
  run_actor powi random_factor cancelled wr s ms h = (r, h') ->
  h `prefix_of` h' /\ forall a, r = Ok a -> accounted strategy (m_id <$> ms) h' a.
Proof.
  unfold run_actor. destruct (write_messages_done powi random_factor cancelled s (retry_config wr) ms h Hattempts)
    as (r0 & h0 & -> & Hp & _ & Ha). intros [= <- <-]. split; [done|]. intros a Hr. by apply Ha.
Qed.

Lemma given_up_all h l :
  Forall (fun m => strategy = OFDrop /\ exists e, told h (m_id m) (SFailed e)) l ->
  Forall (given_up strategy h) (m_id <$> l).
Proof. intros Hl. by apply Forall_fmap. Qed.

(** What a secondary sink does with a response without wrong statuses. *)
Lemma secondary_settled h ids e1 e2 e3 a p w w' :
  accounted strategy ids h a -> check_secondary e1 e2 e3 a w = (Ok p, w') ->
  Forall (fun m => told h (m_id m) (SNack (m_nack_options m))) (p_nacked p) /\
  exists done, Forall (settled_by strategy h) done /\ done ++ (m_id <$> p_nacked p) ≡ₚ ids.
Proof.
  intros (dn & Hd & Hp & _ & _ & Hos & Hn & Hdr). unfold check_secondary, ret, fail. destruct a as [fa fb se dr os na].
  destruct fb, se, fa; try done. cbn. intros [= <- <-]. split; [done|].
  exists (dn ++ (m_id <$> dr) ++ (m_id <$> os)). split.
  - apply Forall_app. split; [eapply Forall_impl; [done|]; by left|]. apply Forall_app. split.
    + eapply Forall_impl; [by apply given_up_all|]. intros i ?. by right; right.
    + apply Forall_fmap. eapply Forall_impl; [done|]. intros m ?. by right; left.
  - cbn [p_nacked processed_from with_nacked processed_new app r_nacked].
    unfold kept in Hp. cbn [r_failed r_fallback r_serving r_dropped r_on_success r_nacked app] in Hp. perm_solve.
Qed.

Lemma check_secondary_world e1 e2 e3 a w : (check_secondary e1 e2 e3 a w).2 = w.
Proof. unfold check_secondary, ret, fail. by repeat case_match. Qed.

Lemma settles_nil Q : settles Q (ret processed_new) [].
Proof. intros w r w' [= <- <-]. split; [done|]. intros p [= <-]. split; [constructor|by exists []]. Qed.

(** An actor call that a history accounts for. *)
Definition calls_actor (hist : World -> History) (m : M SinkActorResponse) (ids : list MessageID) : Prop :=
  forall w r w', m w = (r, w') -> grows w w' /\ forall a, r = Ok a -> accounted strategy ids (hist w') a.

Lemma calls_actor_intro (s : Sink) (set : World -> History -> World) (hist : World -> History) ms :
  (forall w h, hist w `prefix_of` h -> grows w (set w h)) -> (forall w h, hist (set w h) = h) ->
  calls_actor hist (fun w => let (r, h) := run_actor powi random_factor cancelled wr s ms (hist w) in (r, set w h)) (m_id <$> ms).
Proof.
  intros Hg Hs w r w'. destruct (run_actor _ _ _ _ s ms (hist w)) as [ra h] eqn:Ea.
  apply run_actor_Ok in Ea as [Hpre Ha]. intros [= <- <-]. split; [by apply Hg|]. intros a Hr. rewrite Hs. by apply Ha.
Qed.

Lemma calls_actor_fail hist e ids : calls_actor hist (fail e) ids.
Proof. by intros w r w' [= <- <-]. Qed.

Lemma secondary_settles hist m ids e1 e2 e3 :
  calls_actor hist m ids ->
  (forall w m, told (hist w) (m_id m) (SNack (m_nack_options m)) -> nack_told w m) ->
  settles (settled_in strategy hist) (bind m (check_secondary e1 e2 e3)) ids.
Proof.
  intros Hm Hin w r w'. unfold bind. destruct (m w) as [ra w1] eqn:Ea. destruct (Hm _ _ _ Ea) as [Hg Ha].
  destruct ra as [a|]; [|by intros [= <- <-]]. intros Hc. pose proof (check_secondary_world e1 e2 e3 a w1) as Hw.
  rewrite Hc in Hw. simpl in Hw. subst w'. split; [done|]. intros p ->.
  destruct (secondary_settled _ _ _ _ _ _ _ _ _ (Ha a eq_refl) Hc) as (Hn & dn & Hd & Hp).
  split; [eapply Forall_impl; [done|]; auto|]. by exists dn.
Qed.

Lemma write_to_fallback_settles ms : settles (settled_in strategy w_fb) (write_to_fallback powi random_factor cancelled wr ms) (m_id <$> ms).
Proof.
  destruct ms as [|m ms]; [apply settles_nil|]. apply (secondary_settles w_fb).
  - unfold write_to_fb_sink. destruct (fb_sink_handle wr) as [s|]; [|apply calls_actor_fail].
    apply (calls_actor_intro s (fun w h => mkWorld (w_primary w) h (w_os w) (w_store w)) w_fb); [|done].
    intros w h ?. by split_and!.
  - intros w m' ?. right; by left.
Qed.

Lemma write_to_on_success_settles ms : settles (settled_in strategy w_os) (write_to_on_success powi random_factor cancelled wr ms) (m_id <$> ms).
Proof.
  destruct ms as [|m ms]; [apply settles_nil|]. apply (secondary_settles w_os).
  - unfold write_to_on_success_sink. destruct (on_success_sink_handle wr) as [s|]; [|apply calls_actor_fail].
    apply (calls_actor_intro s (fun w h => mkWorld (w_primary w) (w_fb w) h (w_store w)) w_os); [|done].
    intros w h ?. by split_and!.
  - intros w m' ?. by right; right.
Qed.

Lemma store_entries_elem ms es m :
  store_entries ms = Ok es -> m ∈ ms -> exists e, store_entry m = Ok e /\ e ∈ es.
Proof.
  revert es. induction ms as [|m0 ms IH]; intros es; [by intros _ ?%elem_of_nil|]. cbn [store_entries].
  destruct (store_entry m0) as [e|] eqn:Ee; [|done]. destruct (store_entries ms) as [es0|]; [|done].
  intros [= <-] [->|Hin]%elem_of_cons; [exists e; split; [done|by left]|].
  destruct (IH es0 eq_refl Hin) as (e' & ? & ?). exists e'. split; [done|by right].
Qed.

(** The store gets the entries of the messages of the batch. *)
Lemma write_to_serving_store_settles ms0 ms w r w' :
  Forall (served ms0 (w_primary w)) ms -> write_to_serving_store wr ms w = (r, w') ->
  grows w w' /\ forall p, r = Ok p -> split_outcome (settled_among strategy ms0) w' (m_id <$> ms) (p_nacked p).
Proof.
  intros Hfrom. unfold write_to_serving_store. destruct (serving_store wr) as [put|]; [|by intros [= <- <-]].
  destruct (store_entries ms) as [es|] eqn:Ees; [|by intros [= <- <-]]. intros [= <- <-].
  split; [split_and!; simpl; try done; by apply prefix_app_r|].
  intros p Hp. destruct (put (w_store w) es) as [[]|] eqn:Eput; [|done]. injection Hp as <-.
  split; [constructor|]. exists (m_id <$> ms). split; [|by rewrite app_nil_r]. apply Forall_fmap, Forall_forall. intros m' Hm'.
  destruct (store_entries_elem _ _ _ Ees Hm') as (e & He & Hin). rewrite Forall_forall in Hfrom.
  destruct (Hfrom m' Hm') as (m & v & Hm & Hi & Hh & Hv & Ht). exists m. split_and!; [done|done|]. do 4 right. exists v, e, es. split_and!; try done.
  - unfold store_entry in *. cbn [set_value m_headers m_value]. by rewrite <- Hh, <- Hv.
  - simpl. apply elem_of_app. right. by left.
Qed.

Definition nacks_of (p : option ProcessedSinkBatch) : list Message := match p with Some p => p_nacked p | None => [] end.

Lemma if_any_settles Q write ms w r w' :
  (forall r w', write ms w = (r, w') -> grows w w' /\ forall p, r = Ok p -> split_outcome Q w' (m_id <$> ms) (p_nacked p)) -> if_any write ms w = (r, w') ->
  grows w w' /\ forall p, r = Ok p -> split_outcome Q w' (m_id <$> ms) (nacks_of p).
Proof.
  intros Hs. unfold if_any. destruct ms as [|m ms];
    [intros [= <- <-]; split; [done|]; intros p [= <-]; split; [constructor|by exists []]|].
  unfold bind, ret. destruct (write (m :: ms) w) as [[p|e] w1] eqn:Ew; intros [= <- <-];
    destruct (Hs _ _ eq_refl) as [Hg Hp]; (split; [done|]); [|done]. intros ? [= <-]. by apply Hp.
Qed.

Lemma merge_nacks p pf po ps :
  p_nacked (foldl merge_with p (option_list pf ++ option_list po ++ option_list ps)) =
  p_nacked p ++ nacks_of pf ++ nacks_of po ++ nacks_of ps.
Proof. destruct pf, po, ps; simpl; rewrite <- ?app_assoc, ?app_nil_r; done. Qed.

Lemma strip_ids (l : list Message) : m_id <$> (strip_tracing_udf <$> l) = m_id <$> l.
Proof. rewrite <- list_fmap_compose. by apply list_fmap_ext. Qed.

Lemma settled_among_of ms w i Q :
  (forall w m, Q w (m_id m) -> settled strategy w m) -> Q w i -> i ∈ m_id <$> ms -> settled_among strategy ms w i.
Proof. intros HQ Hi (m & -> & Hm)%list_elem_of_fmap. exists m. auto. Qed.

Lemma primary_serving ms w a w1 :
  write_to_primary_sink powi random_factor cancelled wr ms w = (Ok a, w1) -> Forall (served ms (w_primary w1)) (r_serving a).
Proof.
  unfold write_to_primary_sink, run_actor.
  destruct (write_messages_with_retry _ _ _ (sink_handle wr) _ ms (w_primary w)) as [[r h]|] eqn:E; [|done].
  intros [= -> <-]. by apply write_messages_serving in E as [? _].
Qed.
Lemma served_strip ms h l : Forall (served ms h) l -> Forall (served ms h) (strip_tracing_udf <$> l).
Proof. intros Hl. by apply Forall_fmap. Qed.

Lemma write_to_sink_settles ms : settles (settled_among strategy ms) (write_to_sink powi random_factor cancelled wr ms) (m_id <$> ms).
Proof.
  destruct ms as [|m ms]; [apply settles_nil|]. unfold write_to_sink. generalize (m :: ms). clear m ms. intros ms.
  assert (Hprim : calls_actor w_primary (write_to_primary_sink powi random_factor cancelled wr ms) (m_id <$> ms)).
  { apply (calls_actor_intro (sink_handle wr) (fun w h => mkWorld h (w_fb w) (w_os w) (w_store w)) w_primary); [|done].
    intros w h ?. by split_and!. }
  intros w r w'. unfold bind. destruct (write_to_primary_sink _ _ _ wr ms w) as [ra w1] eqn:E1.
  destruct (Hprim _ _ _ E1) as [Hg1 Ha]. destruct ra as [a|]; [|by intros [= <- <-]]. apply primary_serving in E1 as Hsv.
  destruct (Ha a eq_refl) as (dn & Hd & Hp & _ & _ & _ & Hna & Hdr). destruct a as [fa fb se dr os na]. simpl in *.
  destruct fa; [|by intros [= <- <-]]. simpl.
  destruct (if_any (write_to_fallback _ _ _ wr) _ w1) as [rf w2] eqn:E2.
  destruct (if_any_settles _ _ _ _ _ _ (write_to_fallback_settles _ _) E2) as [Hg2 Hf]. destruct rf as [pf|]; [|intros [= <- <-]; split; [by etrans|done]].
  destruct (if_any (write_to_on_success _ _ _ wr) _ w2) as [ro w3] eqn:E3.
  destruct (if_any_settles _ _ _ _ _ _ (write_to_on_success_settles _ _) E3) as [Hg3 Ho]. destruct ro as [po|]; [|intros [= <- <-]; split; [by do 2 (etrans; [done|])|done]].
  destruct (if_any (write_to_serving_store wr) _ w3) as [rs w4] eqn:E4.
  assert (Hsv3 : Forall (served ms (w_primary w3)) (strip_tracing_udf <$> se)).
  { apply served_strip. eapply Forall_impl; [exact Hsv|]. intros m' (m0 & v & ? & ? & ? & ? & Ht). exists m0, v. split_and!; try done.
    assert (grows w1 w3) as (? & _) by (by etrans). by eapply told_mono. }
  destruct (if_any_settles _ _ _ _ _ _ (fun r w' => write_to_serving_store_settles ms _ w3 r w' Hsv3) E4) as [Hg4 Hs].
  assert (Hg14 : grows w1 w4) by (by do 2 (etrans; [done|])).
  destruct rs as [ps|]; intros [= <- <-]; (split; [by etrans|]); [|done]. intros p [= <-].
  destruct (Hf pf eq_refl) as (Hnf & df & Hdf & Hpf). destruct (Ho po eq_refl) as (Hno & do & Hdo & Hpo).
  destruct (Hs ps eq_refl) as (Hns & ds & Hds & Hps). rewrite strip_ids in Hpf, Hpo, Hps.
  assert (Hg24 : grows w2 w4) by (by etrans).
  assert (Hids : dn ++ (m_id <$> dr) ++ df ++ do ++ ds ++ (m_id <$> (na ++ nacks_of pf ++ nacks_of po ++ nacks_of ps)) ≡ₚ m_id <$> ms).
  { unfold kept in Hp. cbn [r_failed r_fallback r_serving r_dropped r_on_success r_nacked app] in Hp. perm_solve. }
  split.
  { rewrite merge_nacks. cbn [p_nacked with_nacked processed_new app].
    assert (Hmono : forall w0 l, grows w0 w4 -> Forall (nack_told w0) l -> Forall (nack_told w4) l).
    { intros w0 l Hg Hl. eapply Forall_impl; [exact Hl|]. intros m. by apply nack_told_mono. }
    repeat (apply Forall_app; split); [apply (Hmono w1); [done|]|by apply (Hmono w2)|by apply (Hmono w3)|done].
    eapply Forall_impl; [exact Hna|]. by left. }
  exists (dn ++ (m_id <$> dr) ++ df ++ do ++ ds). split.
  - assert (Hby : forall (Q : MessageID -> Prop) l, l ⊆ m_id <$> ms -> (forall m, Q (m_id m) -> settled strategy w4 m) -> Forall Q l -> Forall (settled_among strategy ms w4) l).
    { intros Q l Hl HQ HF. apply Forall_forall. intros i Hi. rewrite Forall_forall in HF. specialize (HF i Hi).
      apply Hl, list_elem_of_fmap in Hi as (m & -> & Hm). exists m. auto. }
    assert (Hsub : forall l l1 l2, l1 ++ l ++ l2 ≡ₚ m_id <$> ms -> l ⊆ m_id <$> ms).
    { intros l l1 l2 E i Hi. rewrite <- E, !elem_of_app. auto. }
    assert (H1 : w_primary w1 `prefix_of` w_primary w4) by apply Hg14.
    repeat (apply Forall_app; split).
    + apply (Hby (fun i => told (w_primary w1) i SSuccess)); [by apply (Hsub _ [] _ Hids)| |done]. intros m ?. left. by eapply told_mono.
    + apply (Hby (given_up strategy (w_primary w1))); [by apply (Hsub _ dn _ Hids)| |by apply given_up_all]. intros m (? & e & ?). right; left.
      split; [done|]. exists e. by eapply told_mono.
    + apply (Hby (settled_by strategy (w_fb w2))); [eapply (Hsub _ (dn ++ (m_id <$> dr))); rewrite <- app_assoc; exact Hids| |done].
      intros m ?. right; right; left. eapply settled_by_mono; [|done]. apply Hg24.
    + apply (Hby (settled_by strategy (w_os w3))); [eapply (Hsub _ (dn ++ (m_id <$> dr) ++ df)); rewrite <- !app_assoc; exact Hids| |done].
      intros m ?. right; right; right; left. eapply settled_by_mono; [|done]. apply Hg4.
    + done.
  - rewrite merge_nacks. cbn [p_nacked with_nacked processed_new app]. rewrite <- !app_assoc. exact Hids.
Qed.

(** * Batches *)

Lemma filter_bool_perm {A} (f : A -> bool) (l : list A) :
  l ≡ₚ filter (fun x => f x = true) l ++ filter (fun x => f x = false) l.
Proof.
  induction l as [|x l IH]; [done|]. rewrite !filter_cons. destruct (f x) eqn:E; simpl.
  - by rewrite <- IH.
  - by rewrite <- Permutation_middle, <- IH.
Qed.

(** Why a message of the batch [ms] may be acknowledged. *)
Definition may_ack (w : World) (m : Message) : Prop :=
  settled strategy w m \/ bypassed wr = true \/ dropped m = true.

Lemma process_batch_Ok ms w r w' :
  process_batch powi random_factor cancelled wr ms w = (r, w') ->
  grows w w' /\ forall p, r = Ok p ->
    exists done, done ++ (m_id <$> p_nacked p) ≡ₚ m_id <$> ms /\
      (forall i, i ∈ done -> exists m, m ∈ ms /\ m_id m = i /\ may_ack w' m) /\
      (forall m, m ∈ ms -> nacked m = true -> m ∈ p_nacked p) /\
      Forall (fun m => nack_told w' m \/ m ∈ ms /\ nacked m = true) (p_nacked p).
Proof.
  unfold process_batch. set (na := filter (fun m => nacked m = true) ms). set (tp := filter (fun m => nacked m = false) ms).
  pose proof (fmap_Permutation m_id _ _ (filter_bool_perm nacked ms)) as Hms. fold na tp in Hms. rewrite fmap_app in Hms.
  assert (Hna : forall m, m ∈ ms -> nacked m = true -> m ∈ na) by (intros; by apply list_elem_of_filter).
  assert (Hnap : Forall (fun m => nack_told w' m \/ m ∈ ms /\ nacked m = true) na).
  { apply Forall_forall. intros m [? ?]%list_elem_of_filter. by right. }
  assert (Htp : forall m, m ∈ tp -> m ∈ ms) by (intros m [_ ?]%list_elem_of_filter; done).
  destruct (bypassed wr) eqn:Eb.
  { intros [= <- <-]. split; [done|]. intros p [= <-]. exists (m_id <$> tp). split_and!; [|..].
    - cbn [p_nacked with_nacked processed_new app]. perm_solve.
    - intros i (m & -> & Hm)%list_elem_of_fmap. exists m. split_and!; auto. by right; left.
    - done.
    - done. }
  pose proof (fmap_Permutation m_id _ _ (filter_bool_perm dropped tp)) as Htpp. rewrite fmap_app in Htpp.
  set (dr := filter (fun m => dropped m = true) tp) in *. set (rest := filter (fun m => dropped m = false) tp) in *.
  assert (Hdr : forall i, i ∈ m_id <$> dr -> exists m, m ∈ ms /\ m_id m = i /\ may_ack w' m).
  { intros i (m & -> & [? ?]%list_elem_of_filter)%list_elem_of_fmap. exists m. split_and!; auto. by right; right. }
  assert (Hrest : forall m, m ∈ rest -> m ∈ ms) by (intros m [_ ?]%list_elem_of_filter; auto).
  destruct rest as [|m0 l0] eqn:Er.
  { intros [= <- <-]. split; [done|]. intros p [= <-]. exists (m_id <$> dr). split_and!; [|done..].
    cbn [p_nacked with_nacked processed_new app]. change (m_id <$> []) with (@nil MessageID) in Htpp.
    rewrite app_nil_r in Htpp. perm_solve. }
  rewrite <- Er in *. unfold bind, ret. destruct (write_to_sink _ _ _ wr rest w) as [[p|e] w1] eqn:Ew; intros [= <- <-];
    destruct (write_to_sink_settles _ _ _ _ Ew) as [Hg Hs]; (split; [done|]); [|done]. intros ? [= <-].
  destruct (Hs p eq_refl) as (Hn & dn & Hd & Hp). exists (dn ++ (m_id <$> dr)). split_and!.
  - cbn [p_nacked with_nacked]. perm_solve.
  - intros i [Hi|Hi]%elem_of_app; [|by apply Hdr].
    rewrite Forall_forall in Hd. destruct (Hd i Hi) as (m & Hm & Hid & Hset). exists m. split_and!; auto. by left.
  - intros m ? ?. cbn [p_nacked with_nacked]. apply elem_of_app. right. auto.
  - cbn [p_nacked with_nacked]. apply Forall_app. split; [|done]. eapply Forall_impl; [exact Hn|]. by left.
Qed.
End Lemmas.

(** * Handles of a batch *)

Lemma NoDup_fmap_inj {A B} (f : A -> B) (l : list A) x y :
  NoDup (f <$> l) -> x ∈ l -> y ∈ l -> f x = f y -> x = y.
Proof.
  induction l as [|z l IH]; [by intros _ ?%elem_of_nil|]. rewrite fmap_cons, NoDup_cons.
  intros [Hz Hnd] [->|Hx]%elem_of_cons [->|Hy]%elem_of_cons Hf; try done; [| |by apply IH].
  - destruct Hz. rewrite Hf. by apply list_elem_of_fmap_2.
  - destruct Hz. rewrite <- Hf. by apply list_elem_of_fmap_2.
Qed.

Definition hd_id (hd : MessageHandle) : MessageID := m_id (h_message hd).

Lemma read_map_of_NoDup batch :
  NoDup (hd_id <$> batch) ->
  exists rm, read_map_of batch = (rm, []) /\ (map_to_list rm).*2 ≡ₚ batch /\
    (forall i hd, rm !! i = Some hd <-> hd ∈ batch /\ hd_id hd = i).
Proof.
  unfold read_map_of. induction batch as [|hd batch IH] using rev_ind; intros Hnd.
  { exists ∅. split_and!; [done|done|]. intros i hd. rewrite lookup_empty. split; [done|]. by intros [?%elem_of_nil _]. }
  rewrite fmap_app, NoDup_app in Hnd. destruct Hnd as (Hnd & Hni & _).
  destruct (IH Hnd) as (rm & Hr & Hp & Hl). rewrite foldl_app, Hr. cbn [foldl fst snd].
  assert (Hnone : rm !! hd_id hd = None).
  { destruct (rm !! hd_id hd) as [hd'|] eqn:E; [|done]. apply Hl in E as [Hin Hid]. exfalso.
    apply (Hni (hd_id hd)); [rewrite <- Hid; by apply list_elem_of_fmap_2|by left]. }
  change (m_id (h_message hd)) with (hd_id hd). rewrite Hnone. eexists. split_and!; [done|..].
  - rewrite map_to_list_insert by done. simpl. by rewrite Hp, Permutation_app_comm.
  - intros i hd'. rewrite lookup_insert_Some, Hl, elem_of_app, list_elem_of_singleton. split.
    + intros [[<- <-]|[? [? ?]]]; auto.
    + intros [[Hin| ->] Hi]; [right|left; auto]. split; [|done]. intros Heq. apply (Hni (hd_id hd)); [|by left].
      rewrite Heq, <- Hi. by apply list_elem_of_fmap_2.
Qed.

Lemma take_nacked_Some nacks rm :
  NoDup (m_id <$> nacks) -> (forall m, m ∈ nacks -> is_Some (rm !! m_id m)) ->
  exists rm' hds, take_nacked nacks rm = Some (rm', hds) /\
    (h_key <$> hds) ++ (h_key <$> (map_to_list rm').*2) ≡ₚ h_key <$> (map_to_list rm).*2 /\
    (forall i hd, rm' !! i = Some hd -> rm !! i = Some hd /\ i ∉ m_id <$> nacks).
Proof.
  revert rm. induction nacks as [|m nacks IH]; intros rm Hnd Hdom; cbn [take_nacked].
  { eexists _, _. split_and!; [done|done|]. intros i hd ?. split; [done|]. by intros ?%elem_of_nil. }
  rewrite fmap_cons, NoDup_cons in Hnd. destruct Hnd as [Hni Hnd].
  destruct (Hdom m ltac:(by left)) as [hd Hhd]. rewrite Hhd.
  destruct (IH (delete (m_id m) rm) Hnd) as (rm' & hds & Htk & Hp & Hl).
  { intros m' Hm'. rewrite lookup_delete_ne; [apply Hdom; by right|]. intros Heq. apply Hni. rewrite Heq.
    by apply list_elem_of_fmap_2. }
  rewrite Htk. eexists _, _. split_and!; [done|..].
  - rewrite fmap_cons. cbn [app h_key]. rewrite Hp. by rewrite <- (map_to_list_delete _ _ _ Hhd).
  - intros i hd' [[? ?]%lookup_delete_Some ?]%Hl. split; [done|]. rewrite fmap_cons. by intros [?|?]%elem_of_cons.
Qed.

Lemma mark_keys l batch : (mark l batch).*1 = h_key <$> batch.
Proof. unfold mark. rewrite <- list_fmap_compose. by apply list_fmap_ext. Qed.

Lemma elem_of_mark k v l batch : (k, v) ∈ mark l batch <-> exists hd, hd ∈ batch /\ h_key hd = k /\ l hd = v.
Proof.
  unfold mark. rewrite list_elem_of_fmap. split.
  - intros (hd & [= -> ->] & ?). eauto.
  - intros (hd & ? & <- & <-). eauto.
Qed.

Lemma batch_verdicts_Some batch p dn :
  NoDup (hd_id <$> batch) -> dn ++ (m_id <$> p_nacked p) ≡ₚ hd_id <$> batch ->
  exists v, batch_verdicts batch p = Some v /\ v.*1 ≡ₚ h_key <$> batch /\
    (forall k, (k, LDrop) ∉ v) /\
    (forall k, (k, LSuccess) ∈ v -> exists hd, hd ∈ batch /\ h_key hd = k /\ hd_id hd ∉ m_id <$> p_nacked p).
Proof.
  intros Hnd Hp. destruct (read_map_of_NoDup batch Hnd) as (rm & Hr & Hperm & Hl).
  assert (Hnn : NoDup (m_id <$> p_nacked p)) by (rewrite <- Hp in Hnd; by apply NoDup_app in Hnd as (_ & _ & ?)).
  destruct (take_nacked_Some (p_nacked p) rm Hnn) as (rm' & hds & Htk & Hk & Hl').
  { intros m Hm. assert (Hin : m_id m ∈ hd_id <$> batch) by (rewrite <- Hp; apply elem_of_app; right; by apply list_elem_of_fmap_2).
    apply list_elem_of_fmap in Hin as (hd & Heq & Hin). exists hd. by apply Hl. }
  unfold batch_verdicts, split_batch_handles. rewrite Hr, Htk. eexists. split_and!; [done|..].
  - rewrite !fmap_app, !mark_keys. by rewrite <- Hperm, <- Hk.
  - intros k. rewrite !elem_of_app, !elem_of_mark. intros [(? & []%elem_of_nil & _)|[(? & _ & _ & ?)|(? & _ & _ & ?)]]; done.
  - intros k. rewrite !elem_of_app, !elem_of_mark. intros [(? & _ & _ & ?)|[(? & _ & _ & ?)|(hd & Hin & <- & _)]]; try done.
    apply list_elem_of_fmap in Hin as ([i hd'] & -> & [[Hb Hi]%Hl Hni]%elem_of_map_to_list%Hl'). exists hd'. subst i. done.
Qed.

(** * Properties *)

Section Stream.
Context (powi : F64 -> Z -> F64) (random_factor : Z -> F64) (cancelled : History -> bool) (wr : SinkWriter).
Context (error_text : Error -> string).
#[local] Abbreviation stream := (streaming_write powi random_factor cancelled wr error_text) (only parsing).

Lemma stream_draining batches e w :
  stream batches (Err e) w = (mark (fun _ => LFail (error_text e) None) (concat batches), Err e, w).
Proof.
  induction batches as [|b batches IH]; [done|]. cbn [streaming_write concat]. rewrite IH. unfold mark. by rewrite fmap_app.
Qed.

(** The verdicts [v] on the handles [l] are complete and justified in the world [w]. *)
Definition justified_verdicts (w : World) (l : list MessageHandle) (v : Verdicts) : Prop :=
  v.*1 ≡ₚ h_key <$> l /\ (forall k, (k, LDrop) ∉ v) /\
  (forall k, (k, LSuccess) ∈ v -> exists hd, hd ∈ l /\ h_key hd = k /\ nacked (h_message hd) = false /\
     may_ack wr w (h_message hd)).

Lemma may_ack_mono w w' m : grows w w' -> may_ack wr w m -> may_ack wr w' m.
Proof. intros Hg [?|?]; [left; by eapply settled_mono|by right]. Qed.

Lemma justified_verdicts_app w w' l1 l2 v1 v2 :
  grows w w' -> justified_verdicts w l1 v1 -> justified_verdicts w' l2 v2 -> justified_verdicts w' (l1 ++ l2) (v1 ++ v2).
Proof.
  intros Hg (Hk1 & Hd1 & Ha1) (Hk2 & Hd2 & Ha2). split_and!.
  - by rewrite !fmap_app, Hk1, Hk2.
  - intros k. rewrite elem_of_app. naive_solver.
  - intros k [Hin|Hin]%elem_of_app.
    + destruct (Ha1 k Hin) as (hd & ? & ? & ? & ?). exists hd. rewrite elem_of_app. split_and!; auto. by eapply may_ack_mono.
    + destruct (Ha2 k Hin) as (hd & ? & ? & ? & ?). exists hd. rewrite elem_of_app. split_and!; auto.
Qed.

Lemma justified_failed w l reason : justified_verdicts w l (mark (fun _ => LFail reason None) l).
Proof.
  split_and!; [by rewrite mark_keys|..]; intros k; rewrite elem_of_mark; by intros (? & _ & _ & ?).
Qed.

Lemma batch_justified batch p w dn :
  NoDup (hd_id <$> batch) -> dn ++ (m_id <$> p_nacked p) ≡ₚ m_id <$> (h_message <$> batch) ->
  (forall i, i ∈ dn -> exists m, m ∈ h_message <$> batch /\ m_id m = i /\ may_ack wr w m) ->
  (forall m, m ∈ h_message <$> batch -> nacked m = true -> m ∈ p_nacked p) ->
  exists v, batch_verdicts batch p = Some v /\ justified_verdicts w batch v.
Proof.
  intros Hnd Hp Hdn Hna. rewrite <- list_fmap_compose in Hp. change (m_id ∘ h_message) with hd_id in Hp.
  destruct (batch_verdicts_Some batch p dn Hnd Hp) as (v & Hv & Hk & Hd & Ha). exists v. split_and!; [done|].
  split_and!; [done|done|]. intros k Hin. destruct (Ha k Hin) as (hd & Hhd & Hkey & Hni). exists hd. split_and!; try done.
  - apply not_true_is_false. intros Hn. apply Hni. apply (list_elem_of_fmap_2 m_id _ (h_message hd)), Hna; [by apply list_elem_of_fmap_2|done].
  - assert (Hi : hd_id hd ∈ dn ++ (m_id <$> p_nacked p)) by (rewrite Hp; by apply list_elem_of_fmap_2).
    apply elem_of_app in Hi as [Hi|Hi]; [|done]. destruct (Hdn _ Hi) as (m & Hm & Hid & Hack).
    apply list_elem_of_fmap in Hm as (hd' & -> & Hhd'). by rewrite (NoDup_fmap_inj hd_id batch hd hd').
Qed.
End Stream.


(** * Witness *)

Definition ex_writer : SinkWriter := mkSinkWriter ex_sink (Some (fun _ _ => Ok [mkResponse "v-o-3" SSuccess])) None None None ex_config.
Definition ex_handles : list MessageHandle := [mkHandle 7 (ex_message 1); mkHandle 8 (ex_message 2); mkHandle 9 (ex_message 3)].
Definition ex_stream : Verdicts * Result unit * World :=
  streaming_write powi_iter f64_of_Z (fun _ => false) ex_writer (fun _ => "error") [ex_handles] (Ok tt) (mkWorld [] [] [] []).

Lemma ex_handles_NoDup : Forall (fun batch => NoDup (hd_id <$> batch)) [ex_handles].
Proof. repeat constructor; apply (bool_decide_unpack _); vm_compute; exact I. Qed.


Example ex_stream_result : (ex_stream.1.1).*1 ≡ₚ [7; 8; 9]%nat /\ (ex_stream.1.1).*2 = [LSuccess; LSuccess; LSuccess].
Proof. split; [apply (bool_decide_unpack _); vm_compute; exact I|vm_compute; reflexivity]. Qed.

(** A fallback sink may answer that a message goes to the on-success sink: it does not. *)
Example fallback_on_success_lost :
  let fb : Sink := fun _ _ => Ok [mkResponse "v-o-3" (SOnSuccess None)] in
  let wr := mkSinkWriter (fun _ _ => Ok [mkResponse "v-o-3" SFallback]) (Some fb) (Some (fun _ _ => Ok [mkResponse "v-o-3" SSuccess]))
    None None ex_config in
  let '(v, result, w) := streaming_write powi_iter f64_of_Z (fun _ => false) wr (fun _ => "error") [[mkHandle 9 (ex_message 3)]] (Ok tt)
    (mkWorld [] [] [] []) in
  v = [(9%nat, LSuccess)] /\ w_os w = [].
Proof. vm_compute. auto. Qed.
