(* ===== verification/BypassRouter.v ===== *)
(** The bypass router of a MonoVertex (src/rust/numaflow-core/src/monovertex/bypass_router.rs):
    messages that meet a bypass condition leave the source or the map for one of the sinks. *)
From Stdlib Require Import ZArith SpecFloat.
From S2P Require Import Prelude Clock Message Forward Backoff SinkActor SinkWriter.
Open Scope Z_scope.

Inductive MessageToSink := ToPrimary (h : MessageHandle) | ToFallback (h : MessageHandle) | ToOnSuccess (h : MessageHandle).

Definition handle_of (m : MessageToSink) : MessageHandle :=
  match m with ToPrimary h | ToFallback h | ToOnSuccess h => h end.
Definition inner (m : MessageToSink) : Message := h_message (handle_of m).

Inductive BypassConditionState :=
  | BCSink (c : ForwardConditions)
  | BCFallback (c : ForwardConditions)
  | BCOnSuccess (c : ForwardConditions).

Definition create_bypass_condition_state (c : BypassConditions) : list BypassConditionState :=
  (BCSink <$> option_list (bc_sink c)) ++ (BCFallback <$> option_list (bc_fallback c)) ++
  (BCOnSuccess <$> option_list (bc_on_success c)).

(** [sent] is what the channel does with a message: it fails when the receiver is gone. *)
Definition route (sent : MessageToSink -> bool) (m : MessageToSink) : Result unit :=
  if sent m then Ok tt else Err (EBypassRouter "Failed to send message through bypass router").

(** The result, and the message put on the channel. *)
Fixpoint try_bypass (conditions : list BypassConditionState) (sent : MessageToSink -> bool) (h : MessageHandle) :
    Result (option MessageHandle) * option MessageToSink :=
  let go m := (try! _ := route sent m in Ok None, if sent m then Some m else None) in
  let tags := m_tags (h_message h) in
  match conditions with
  | [] => (Ok (Some h), None)
  | BCSink c :: rest => if should_forward tags (Some c) then go (ToPrimary h) else try_bypass rest sent h
  | BCFallback c :: rest => if should_forward tags (Some c) then go (ToFallback h) else try_bypass rest sent h
  | BCOnSuccess c :: rest => if should_forward tags (Some c) then go (ToOnSuccess h) else try_bypass rest sent h
  end.

Section Receiver.
Context (powi : F64 -> Z -> F64) (random_factor : Z -> F64) (cancelled : History -> bool) (wr : SinkWriter).
Context (error_text : Error -> string).

Definition perform_write (primary fallback on_success : list Message) : M unit :=
  bind (write_to_sink powi random_factor cancelled wr primary) (fun _ =>
  bind (write_to_fallback powi random_factor cancelled wr fallback) (fun _ =>
  bind (write_to_on_success powi random_factor cancelled wr on_success) (fun _ => ret tt))).

(** The three lists of messages of a batch. *)
Definition primary_of (batch : list MessageToSink) : list Message :=
  h_message <$> omap (fun m => match m with ToPrimary h => Some h | _ => None end) batch.
Definition fallback_of (batch : list MessageToSink) : list Message :=
  h_message <$> omap (fun m => match m with ToFallback h => Some h | _ => None end) batch.
Definition on_success_of (batch : list MessageToSink) : list Message :=
  h_message <$> omap (fun m => match m with ToOnSuccess h => Some h | _ => None end) batch.

Fixpoint streaming_bypass_write (batches : list (list MessageToSink)) (final_result : Result unit) (w : World) :
    Verdicts * Result unit * World :=
  match batches with
  | [] => ([], final_result, w)
  | batch :: rest =>
      match final_result with
      | Err e =>
          let '(v, f, w') := streaming_bypass_write rest final_result w in
          (mark (fun _ => LFail (error_text e) None) (handle_of <$> batch) ++ v, f, w')
      | Ok _ =>
          let to_drop := filter (fun m => dropped (inner m) = true) batch in
          let batch := filter (fun m => dropped (inner m) = false) batch in
          let v0 := mark (fun _ => LSuccess) (handle_of <$> to_drop) in
          match batch with
          | [] => let '(v, f, w') := streaming_bypass_write rest final_result w in (v0 ++ v, f, w')
          | _ =>
              match perform_write (primary_of batch) (fallback_of batch) (on_success_of batch) w with
              | (Ok _, w1) =>
                  let '(v, f, w') := streaming_bypass_write rest final_result w1 in
                  (v0 ++ mark (fun _ => LSuccess) (handle_of <$> batch) ++ v, f, w')
              | (Err e, w1) =>
                  let '(v, f, w') := streaming_bypass_write rest (Err e) w1 in
                  (v0 ++ mark (fun _ => LFail (error_text e) None) (handle_of <$> batch) ++ v, f, w')
              end
          end
      end
  end.

(** * Lemmas *)

Context (Hattempts : 0 <= sink_max_retry_attempts (retry_config wr) < 2 ^ 16).
#[local] Abbreviation strategy := (sink_retry_on_fail_strategy (retry_config wr)) (only parsing).

(** One of the messages [ms] with this id is settled, or a sink asked for it to be nacked. *)
Definition answered_for (ms : list Message) (w : World) (i : MessageID) : Prop :=
  settled_among strategy ms w i \/ exists m, m_id m = i /\ nack_told w m.

Lemma answered_for_mono ms ms' w w' i : ms ⊆ ms' -> grows w w' -> answered_for ms w i -> answered_for ms' w' i.
Proof.
  intros Hms Hg [(m & ? & ? & ?)|(m & ? & ?)]; [left|right]; exists m; (split_and!; auto); [by eapply settled_mono|by eapply nack_told_mono].
Qed.

Lemma split_outcome_answered Q ms w nacks i :
  split_outcome Q w (m_id <$> ms) nacks -> (forall i, Q w i -> i ∈ m_id <$> ms -> settled_among strategy ms w i) -> i ∈ m_id <$> ms -> answered_for ms w i.
Proof.
  intros (Hn & dn & Hd & Hp) HQ. intros Hin. pose proof Hin as Hi. rewrite <- Hp in Hi. apply elem_of_app in Hi as [Hi|Hi].
  - left. rewrite Forall_forall in Hd. by apply HQ; [apply Hd|].
  - apply list_elem_of_fmap in Hi as (m & -> & Hm). right. exists m. split; [done|]. rewrite Forall_forall in Hn. by apply Hn.
Qed.

Lemma perform_write_grows p f o w r w' : perform_write p f o w = (r, w') -> grows w w' /\
  (r = Ok tt -> forall i, i ∈ m_id <$> (p ++ f ++ o) -> answered_for (p ++ f ++ o) w' i).
Proof.
  unfold perform_write, bind, ret. destruct (write_to_sink _ _ _ wr p w) as [r1 w1] eqn:E1.
  destruct (write_to_sink_settles _ _ _ _ Hattempts p _ _ _ E1) as [Hg1 Hs1]. destruct r1 as [p1|]; [|by intros [= <- <-]].
  destruct (write_to_fallback _ _ _ wr f w1) as [r2 w2] eqn:E2.
  destruct (write_to_fallback_settles _ _ _ _ Hattempts f _ _ _ E2) as [Hg2 Hs2].
  destruct r2 as [p2|]; [|intros [= <- <-]; split; [by etrans|done]].
  destruct (write_to_on_success _ _ _ wr o w2) as [r3 w3] eqn:E3.
  destruct (write_to_on_success_settles _ _ _ _ Hattempts o _ _ _ E3) as [Hg3 Hs3].
  assert (Hg13 : grows w1 w3) by by etrans.
  destruct r3 as [p3|]; intros [= <- <-]; (split; [by etrans|]); [|done]. intros _ i. rewrite !fmap_app, !elem_of_app.
  intros [Hi|[Hi|Hi]].
  - eapply answered_for_mono; [by apply list_subseteq_app_l|exact Hg13|]. by eapply split_outcome_answered; [apply Hs1|..].
  - eapply (answered_for_mono f); [by apply list_subseteq_app_r, list_subseteq_app_l|exact Hg3|]. eapply split_outcome_answered; [by apply Hs2| |done].
    intros j Hj (m & -> & Hm)%list_elem_of_fmap. exists m. split_and!; [done..|]. right; right; by left.
  - eapply (answered_for_mono o); [by do 2 apply list_subseteq_app_r|reflexivity|]. eapply split_outcome_answered; [by apply Hs3| |done].
    intros j Hj (m & -> & Hm)%list_elem_of_fmap. exists m. split_and!; [done..|]. right; right; right; by left.
Qed.

Lemma batch_lists batch h : h ∈ handle_of <$> batch ->
  h_message h ∈ primary_of batch ++ fallback_of batch ++ on_success_of batch.
Proof.
  intros (m & -> & Hm)%list_elem_of_fmap. unfold primary_of, fallback_of, on_success_of. rewrite !elem_of_app.
  destruct m as [h|h|h]; [left|right; left|right; right]; apply list_elem_of_fmap_2, list_elem_of_omap; eauto.
Qed.

Lemma batch_lists_sub batch : primary_of batch ++ fallback_of batch ++ on_success_of batch ⊆ h_message <$> (handle_of <$> batch).
Proof.
  intros m. unfold primary_of, fallback_of, on_success_of. rewrite !elem_of_app.
  intros [Hm|[Hm|Hm]]; apply list_elem_of_fmap in Hm as (h & -> & (x & Hx & Ex)%list_elem_of_omap); apply list_elem_of_fmap_2, list_elem_of_fmap;
    exists x; (split; [|done]); destruct x; by simplify_eq/=.
Qed.

Definition bypass_justified (w : World) (l : list MessageHandle) (v : Verdicts) : Prop :=
  v.*1 ≡ₚ h_key <$> l /\ (forall k, (k, LDrop) ∉ v) /\
  (forall k, (k, LSuccess) ∈ v -> exists h, h ∈ l /\ h_key h = k /\
     (dropped (h_message h) = true \/ answered_for (h_message <$> l) w (m_id (h_message h)))).

Lemma bypass_justified_app w w' l1 l2 v1 v2 :
  grows w w' -> bypass_justified w l1 v1 -> bypass_justified w' l2 v2 -> bypass_justified w' (l1 ++ l2) (v1 ++ v2).
Proof.
  intros Hg (Hk1 & Hd1 & Ha1) (Hk2 & Hd2 & Ha2). split_and!.
  - by rewrite !fmap_app, Hk1, Hk2.
  - intros k. rewrite elem_of_app. naive_solver.
  - intros k [Hin|Hin]%elem_of_app.
    + destruct (Ha1 k Hin) as (h & ? & ? & [?|?]); exists h; rewrite elem_of_app; (split_and!; auto).
      right. rewrite fmap_app. eapply (answered_for_mono (h_message <$> l1) _ w); [by apply list_subseteq_app_l|done|done].
    + destruct (Ha2 k Hin) as (h & ? & ? & [?|?]); exists h; rewrite elem_of_app; (split_and!; auto).
      right. rewrite fmap_app. eapply (answered_for_mono (h_message <$> l2) _ w'); [by apply list_subseteq_app_r|done|done].
Qed.

Lemma bypass_justified_mark w l lab :
  (forall h, h ∈ l -> lab h <> LDrop /\
     (lab h = LSuccess -> dropped (h_message h) = true \/ answered_for (h_message <$> l) w (m_id (h_message h)))) ->
  bypass_justified w l (mark lab l).
Proof.
  intros Hl. split_and!; [by rewrite mark_keys|..]; intros k; rewrite elem_of_mark.
  - intros (h & Hh & _ & ?). by destruct (Hl h Hh).
  - intros (h & Hh & <- & ?). destruct (Hl h Hh) as [_ ?]. eauto.
Qed.

Lemma bypass_justified_perm w l l' v : l ≡ₚ l' -> bypass_justified w l v -> bypass_justified w l' v.
Proof.
  intros Hp (Hk & Hd & Ha). split_and!; [by rewrite Hk, Hp|done|]. intros k Hin.
  destruct (Ha k Hin) as (h & Hh & Hk' & [Hd'|Hd']); exists h; (split_and!; [by rewrite <- Hp|done|]); [by left|right].
  eapply (answered_for_mono _ _ w); [|done|done]. intros m. by rewrite Hp.
Qed.

Lemma bypass_draining batches e w :
  streaming_bypass_write batches (Err e) w =
  (mark (fun _ => LFail (error_text e) None) (handle_of <$> concat batches), Err e, w).
Proof.
  induction batches as [|b batches IH]; [done|]. cbn [streaming_bypass_write concat]. rewrite IH. unfold mark. by rewrite !fmap_app.
Qed.

Lemma bypass_stream_justified batches w :
  let '(v, result, w') := streaming_bypass_write batches (Ok tt) w in
  grows w w' /\ bypass_justified w' (handle_of <$> concat batches) v.
Proof.
  revert w. induction batches as [|batch batches IH]; intros w; [split; [done|]; split_and!; [done|..]; by intros k ?%elem_of_nil|].
  cbn [streaming_bypass_write concat]. rewrite fmap_app.
  pose proof (fmap_Permutation handle_of _ _ (filter_bool_perm (fun m => dropped (inner m)) batch)) as Hp. rewrite fmap_app in Hp.
  set (dr := filter (fun m => dropped (inner m) = true) batch) in *. set (rest := filter (fun m => dropped (inner m) = false) batch) in *.
  assert (Hdr : forall w, bypass_justified w (handle_of <$> dr) (mark (fun _ => LSuccess) (handle_of <$> dr))).
  { intros w0. apply bypass_justified_mark. intros h (m & -> & [? _]%list_elem_of_filter)%list_elem_of_fmap. split; [done|]. by left. }
  clearbody dr rest. destruct rest as [|m0 l0]; [|remember (m0 :: l0) as rest eqn:Hrest; clear Hrest m0 l0].
  - change (handle_of <$> []) with (@nil MessageHandle) in Hp. rewrite app_nil_r in Hp.
    specialize (IH w). destruct (streaming_bypass_write batches (Ok tt) w) as [[v f] w']. destruct IH as [Hg Hv].
    split; [done|]. eapply bypass_justified_perm; [by rewrite Hp|]. by eapply bypass_justified_app.
  - destruct (perform_write _ _ _ w) as [rw w1] eqn:Ew. destruct (perform_write_grows _ _ _ _ _ _ Ew) as [Hg Hans].
    destruct rw as [[]|e].
    + specialize (IH w1). destruct (streaming_bypass_write batches (Ok tt) w1) as [[v f] w']. destruct IH as [Hg' Hv].
      split; [by etrans|]. eapply bypass_justified_perm; [by rewrite Hp, <- app_assoc|].
      eapply bypass_justified_app; [done|apply Hdr|]. eapply bypass_justified_app; [exact Hg'| |done].
      apply bypass_justified_mark. intros h Hh. split; [done|]. intros _. right.
      eapply answered_for_mono; [apply batch_lists_sub|reflexivity|]. apply Hans; [done|]. by apply list_elem_of_fmap_2, batch_lists.
    + rewrite bypass_draining. split; [done|]. eapply bypass_justified_perm; [by rewrite Hp, <- app_assoc|].
      eapply bypass_justified_app; [done|apply Hdr|]. eapply bypass_justified_app; [done| |]; by apply bypass_justified_mark.
Qed.
End Receiver.

(** * Properties *)

(** The bypass router sends a message to the first of the primary, the fallback and the
    on-success sink whose condition its tags meet, and to none otherwise; and every message it
    was sent gets exactly one verdict. It acknowledges a message only if it was marked to be
    dropped, it reached a sink or the store, or a sink asked for it to be nacked; after an error
    everything is nacked. *)
Theorem bypass_verdicts (powi : F64 -> Z -> F64) (random_factor : Z -> F64) (cancelled : History -> bool)
    (wr : SinkWriter) (error_text : Error -> string) (batches : list (list MessageToSink)) (w : World)
    (c : BypassConditions) (h : MessageHandle) :
  0 <= sink_max_retry_attempts (retry_config wr) < 2 ^ 16 ->
  let meets o := match o with Some _ => should_forward (m_tags (h_message h)) o | None => false end in
  try_bypass (create_bypass_condition_state c) (fun _ => true) h =
    (if meets (bc_sink c) then (Ok None, Some (ToPrimary h))
     else if meets (bc_fallback c) then (Ok None, Some (ToFallback h))
     else if meets (bc_on_success c) then (Ok None, Some (ToOnSuccess h))
     else (Ok (Some h), None)) /\
  (let '(v, result, w') := streaming_bypass_write powi random_factor cancelled wr error_text batches (Ok tt) w in
   grows w w' /\ bypass_justified wr w' (handle_of <$> concat batches) v) /\
  (forall e, streaming_bypass_write powi random_factor cancelled wr error_text batches (Err e) w =
     (mark (fun _ => LFail (error_text e) None) (handle_of <$> concat batches), Err e, w)).
Proof.
  intros Hatt meets. split_and!; [|by apply bypass_stream_justified|by intros; apply bypass_draining].
  unfold meets, create_bypass_condition_state. destruct c as [[cs|] [cf|] [co|]]; simpl; by repeat case_match.
Qed.

(** * Witness *)

Lemma bypass_verdicts_witness :
  let c := mkBypassConditions None (Some (mkForwardConditions (mkTagConditions None ["late"]))) None in
  let wr := mkSinkWriter ex_sink None None None (Some c) ex_config in
  let '(v, result, w') := streaming_bypass_write powi_iter f64_of_Z (fun _ => false) wr (fun _ => "error")
    [ToPrimary <$> ex_handles] (Ok tt) (mkWorld [] [] [] []) in
  grows (mkWorld [] [] [] []) w' /\ bypass_justified wr w' (handle_of <$> concat [ToPrimary <$> ex_handles]) v.
Proof.
  intros c wr.
  refine (proj1 (proj2 (bypass_verdicts powi_iter f64_of_Z (fun _ => false) wr (fun _ => "error") [ToPrimary <$> ex_handles]
    (mkWorld [] [] [] []) c (mkHandle 7 (ex_message 1)) _))).
  simpl. lia.
Defined.

(** The router forgets which messages the sink asked to nack: it acknowledges them. *)
Example bypass_acks_nacked :
  let sink : Sink := fun _ _ => Ok [mkResponse "v-o-1" (SNack None)] in
  let wr := mkSinkWriter sink None None None None ex_config in
  let h := mkHandle 7 (ex_message 1) in
  (streaming_bypass_write powi_iter f64_of_Z (fun _ => false) wr (fun _ => "error") [[ToPrimary h]] (Ok tt)
     (mkWorld [] [] [] [])).1.1 = [(7%nat, LSuccess)] /\
  (streaming_write powi_iter f64_of_Z (fun _ => false) wr (fun _ => "error") [[h]] (Ok tt) (mkWorld [] [] [] [])).1.1 =
    [(7%nat, LFail "message nacked" None)].
Proof. vm_compute. auto. Qed.
