(* ===== verification/InMemoryIsb.v ===== *)
(** The in-memory inter-step buffer (src/rust/numaflow-core/src/pipeline/isb/inmemory: buffer.rs,
    writer.rs, reader.rs, and the conversions of adapter.rs).

    The operations hold the lock of the buffer and are atomic. A fetch that finds nothing polls
    again until its timeout without changing the buffer; it is one step that returns nothing.
    Error injection, for tests, is left out. The sequence numbers are unbounded. *)
From Stdlib Require Import ZArith SpecFloat.
From S2P Require Import Prelude Clock Message Backoff.
Open Scope Z_scope.

(** * The buffer *)

Record SimpleOffset := mkSimpleOffset { so_sequence : Z; so_partition : Z }.
#[global] Instance SimpleOffset_eq_dec : EqDecision SimpleOffset.
Proof. solve_decision. Defined.
#[global] Instance SimpleOffset_countable : Countable SimpleOffset.
Proof.
  refine (inj_countable' (fun o => (so_sequence o, so_partition o)) (fun x => mkSimpleOffset x.1 x.2) _).
  by intros [].
Defined.

Inductive MessageState := Pending | InFlight | Acked.
#[global] Instance MessageState_eq_dec : EqDecision MessageState.
Proof. solve_decision. Defined.

Record ReadMessage := mkReadMessage {
  rm_payload : string;
  rm_headers : gmap string string;
  rm_offset : SimpleOffset
}.

Record BufferSlot := mkSlot {
  s_payload : string;
  s_headers : gmap string string;
  s_id : string;
  s_offset : SimpleOffset;
  s_state : MessageState;
  s_sequence : Z;
  s_fetched_at : option Z
}.

Record BufferState := mkBuffer {
  slots : list BufferSlot;
  capacity : Z;
  next_sequence : Z;
  offset_to_index : gmap SimpleOffset nat;
  dedup_window : gmap string Z;
  usage_limit : F64
}.

Definition buffer_new (cap : Z) (limit : F64) : BufferState := mkBuffer [] cap 1 ∅ ∅ limit.

Definition count_state (P : MessageState -> bool) (s : BufferState) : Z :=
  Z.of_nat (length (filter (fun sl => P (s_state sl) = true) (slots s))).

Definition usage (s : BufferState) : F64 :=
  SFdiv 53 1024 (f64_of_Z (count_state (fun st => negb (bool_decide (st = Acked))) s)) (f64_of_Z (capacity s)).
Definition is_full (s : BufferState) : bool := SFleb (usage_limit s) (usage s).
Definition pending_count (s : BufferState) : Z := count_state (fun st => bool_decide (st = Pending)) s.
Definition in_flight_count (s : BufferState) : Z := count_state (fun st => bool_decide (st = InFlight)) s.

Fixpoint reclaim (sl : list BufferSlot) (oi : gmap SimpleOffset nat) (dw : gmap string Z) :
    list BufferSlot * gmap SimpleOffset nat * gmap string Z :=
  match sl with
  | front :: rest =>
      if decide (s_state front = Acked)
      then reclaim rest (Nat.pred <$> delete (s_offset front) oi) (delete (s_id front) dw)
      else (sl, oi, dw)
  | [] => (sl, oi, dw)
  end.
Definition reclaim_acked (s : BufferState) : BufferState :=
  let '(sl, oi, dw) := reclaim (slots s) (offset_to_index s) (dedup_window s) in
  mkBuffer sl (capacity s) (next_sequence s) oi dw (usage_limit s).

Definition find_slot (s : BufferState) (off : SimpleOffset) : option (nat * BufferSlot) :=
  let? idx := offset_to_index s !! off in let? sl := slots s !! idx in Some (idx, sl).

Definition set_slots (s : BufferState) (sl : list BufferSlot) : BufferState :=
  mkBuffer sl (capacity s) (next_sequence s) (offset_to_index s) (dedup_window s) (usage_limit s).
Definition set_slot_state (sl : BufferSlot) (st : MessageState) (t : option Z) : BufferSlot :=
  mkSlot (s_payload sl) (s_headers sl) (s_id sl) (s_offset sl) st (s_sequence sl) t.

(** * The writer *)

Inductive WriteOutcome := Written (off : SimpleOffset) (is_duplicate : bool) | BufferFull.

Definition async_write (partition_idx : Z) (id payload : string) (headers : gmap string string) (s : BufferState) :
    WriteOutcome * BufferState :=
  if is_full s then (BufferFull, s)
  else match dedup_window s !! id with
       | Some existing_seq => (Written (mkSimpleOffset existing_seq partition_idx) true, s)
       | None =>
           let s := reclaim_acked s in
           if capacity s <=? Z.of_nat (length (slots s)) then (BufferFull, s)
           else
             let sequence := next_sequence s in
             let off := mkSimpleOffset sequence partition_idx in
             (Written off false,
              mkBuffer (slots s ++ [mkSlot payload headers id off Pending sequence None]) (capacity s) (sequence + 1)
                (<[off := length (slots s)]> (offset_to_index s)) (<[id := sequence]> (dedup_window s)) (usage_limit s))
       end.

(** * The reader *)

(** The messages marked as fetched, until [max] are. *)
Fixpoint fetch_slots (max : nat) (now : Z) (sl : list BufferSlot) : list ReadMessage * list BufferSlot :=
  match sl with
  | [] => ([], [])
  | slot :: rest =>
      if decide (s_state slot = Pending) then
        let m := mkReadMessage (s_payload slot) (s_headers slot) (s_offset slot) in
        let slot' := set_slot_state slot InFlight (Some now) in
        match max with
        | O | S O => ([m], slot' :: rest)
        | S max' => let (ms, rest') := fetch_slots max' now rest in (m :: ms, slot' :: rest')
        end
      else let (ms, rest') := fetch_slots max now rest in (ms, slot :: rest')
  end.
Definition fetch (max : nat) (now : Z) (s : BufferState) : list ReadMessage * BufferState :=
  let (ms, sl) := fetch_slots max now (slots s) in (ms, set_slots s sl).

Inductive SimpleBufferError := OffsetNotFound (off : SimpleOffset) | NotInFlight (st : MessageState).

(** The common part of [ack], [nack] and [mark_wip]. *)
Definition on_in_flight (off : SimpleOffset) (st : MessageState) (t : option Z) (s : BufferState) :
    option SimpleBufferError * BufferState :=
  match find_slot s off with
  | None => (Some (OffsetNotFound off), s)
  | Some (idx, sl) =>
      if decide (s_state sl = InFlight) then (None, set_slots s (<[idx := set_slot_state sl st t]> (slots s)))
      else (Some (NotInFlight (s_state sl)), s)
  end.
Definition ack (off : SimpleOffset) : BufferState -> option SimpleBufferError * BufferState := on_in_flight off Acked None.
Definition nack (off : SimpleOffset) : BufferState -> option SimpleBufferError * BufferState := on_in_flight off Pending None.
Definition mark_wip (off : SimpleOffset) (now : Z) : BufferState -> option SimpleBufferError * BufferState :=
  on_in_flight off InFlight (Some now).

(** * Runs *)

Inductive Op :=
  | OWrite (id payload : string) (headers : gmap string string)
  | OFetch (max : nat) (now : Z)
  | OAck (off : SimpleOffset)
  | ONack (off : SimpleOffset)
  | OWip (off : SimpleOffset) (now : Z).
Inductive Out :=
  | RWrite (o : WriteOutcome)
  | RFetch (ms : list ReadMessage)
  | RDone (e : option SimpleBufferError).

Definition exec (partition_idx : Z) (op : Op) (s : BufferState) : Out * BufferState :=
  match op with
  | OWrite id payload headers => let (o, s') := async_write partition_idx id payload headers s in (RWrite o, s')
  | OFetch max now => let (ms, s') := fetch max now s in (RFetch ms, s')
  | OAck off => let (e, s') := ack off s in (RDone e, s')
  | ONack off => let (e, s') := nack off s in (RDone e, s')
  | OWip off now => let (e, s') := mark_wip off now s in (RDone e, s')
  end.

(** * The queue it implements

    The abstract state is the log of everything ever written; the message with sequence number
    [n] is at position [n - 1]. *)

Record Entry := mkEntry { e_id : string; e_payload : string; e_headers : gmap string string; e_state : MessageState }.
Definition entry_set (e : Entry) (st : MessageState) : Entry := mkEntry (e_id e) (e_payload e) (e_headers e) st.

Definition message_at (p : Z) (i : nat) (e : Entry) : ReadMessage :=
  mkReadMessage (e_payload e) (e_headers e) (mkSimpleOffset (Z.of_nat i + 1) p).

(** The first [max] pending messages (at least one), in the order of the log from position [i]. *)
Fixpoint deliver (p : Z) (max : nat) (i : nat) (l : list Entry) : list ReadMessage * list Entry :=
  match l with
  | [] => ([], [])
  | e :: l' =>
      if decide (e_state e = Pending) then
        match max with
        | O | S O => ([message_at p i e], entry_set e InFlight :: l')
        | S max' => let (ms, r) := deliver p max' (S i) l' in (message_at p i e :: ms, entry_set e InFlight :: r)
        end
      else let (ms, r) := deliver p max (S i) l' in (ms, e :: r)
  end.

(** [off] is the offset of the entry [e] of the log. *)
Definition entry_at (p : Z) (l : list Entry) (off : SimpleOffset) (i : nat) (e : Entry) : Prop :=
  l !! i = Some e /\ off = mkSimpleOffset (Z.of_nat i + 1) p.

Definition goal_state (op : Op) : option (SimpleOffset * MessageState) :=
  match op with
  | OAck off => Some (off, Acked)
  | ONack off => Some (off, Pending)
  | OWip off _ => Some (off, InFlight)
  | _ => None
  end.

(** The entries from the first one on that is not acked. *)
Fixpoint open_span (l : list Entry) : list Entry :=
  match l with
  | e :: l' => if decide (e_state e = Acked) then open_span l' else l
  | [] => []
  end.

(** The number of entries in some states. *)
Definition log_count (P : MessageState -> bool) (l : list Entry) : Z :=
  Z.of_nat (length (filter (fun e => P (e_state e) = true) l)).
Definition queue_count (st : MessageState) : list Entry -> Z := log_count (fun x => bool_decide (x = st)).

(** The queue may refuse a write: the share of messages not acked has reached the limit, or the
    messages since the oldest one not acked take the whole capacity. *)
Definition may_refuse (cap : Z) (limit : F64) (l : list Entry) : Prop :=
  SFleb limit (SFdiv 53 1024 (f64_of_Z (log_count (fun st => negb (bool_decide (st = Acked))) l)) (f64_of_Z cap)) = true \/
  cap <= Z.of_nat (length (open_span l)).

Inductive queue_step (p cap : Z) (limit : F64) : list Entry -> Op -> Out -> list Entry -> Prop :=
  | q_write l id payload headers :       (* no message that is not acked has this id *)
      (forall e, e ∈ l -> e_state e <> Acked -> e_id e <> id) ->
      queue_step p cap limit l (OWrite id payload headers) (RWrite (Written (mkSimpleOffset (Z.of_nat (length l) + 1) p) false))
        (l ++ [mkEntry id payload headers Pending])
  | q_duplicate l id payload headers off i e :
      entry_at p l off i e -> e_id e = id ->
      queue_step p cap limit l (OWrite id payload headers) (RWrite (Written off true)) l
  | q_full l id payload headers : may_refuse cap limit l -> queue_step p cap limit l (OWrite id payload headers) (RWrite BufferFull) l
  | q_fetch l max now :
      queue_step p cap limit l (OFetch max now) (RFetch (deliver p max 0 l).1) (deliver p max 0 l).2
  | q_done l op off st i e :
      goal_state op = Some (off, st) -> entry_at p l off i e -> e_state e = InFlight ->
      queue_step p cap limit l op (RDone None) (<[i := entry_set e st]> l)
  | q_refused l op off st err :
      goal_state op = Some (off, st) -> (forall i e, entry_at p l off i e -> e_state e <> InFlight) ->
      queue_step p cap limit l op (RDone (Some err)) l.

(** * The refinement relation *)

Definition entry_of (sl : BufferSlot) : Entry := mkEntry (s_id sl) (s_payload sl) (s_headers sl) (s_state sl).
Definition off_at (p : Z) (i : nat) : SimpleOffset := mkSimpleOffset (Z.of_nat i + 1) p.

(** What never changes of a slot. *)
Definition tag (sl : BufferSlot) : string * SimpleOffset * Z := (s_id sl, s_offset sl, s_sequence sl).

(** The slots are the log from position [k] on, and the two maps index them. *)
Definition indexed (k : nat) (p : Z) (tags : list (string * SimpleOffset * Z)) (oi : gmap SimpleOffset nat)
    (dw : gmap string Z) : Prop :=
  (forall i t, tags !! i = Some t -> t.1.2 = off_at p (k + i) /\ t.2 = Z.of_nat (k + i) + 1) /\
  (forall off i, oi !! off = Some i <-> (i < length tags)%nat /\ off = off_at p (k + i)) /\
  (forall id q, dw !! id = Some q <-> exists i t, tags !! i = Some t /\ t.1.1 = id /\ q = Z.of_nat (k + i) + 1).

Definition implements_at (k : nat) (p : Z) (s : BufferState) (l : list Entry) : Prop :=
  (k <= length l)%nat /\ entry_of <$> slots s = drop k l /\ Forall (fun e => e_state e = Acked) (take k l) /\
  indexed k p (tag <$> slots s) (offset_to_index s) (dedup_window s) /\
  next_sequence s = Z.of_nat (length l) + 1.
Definition implements (p : Z) (s : BufferState) (l : list Entry) : Prop := exists k, implements_at k p s l.

Lemma off_at_inj p i j : off_at p i = off_at p j -> i = j.
Proof. intros [= ?]. lia. Qed.

Lemma indexed_id_inj k p tags oi dw i j t u :
  indexed k p tags oi dw -> tags !! i = Some t -> tags !! j = Some u -> t.1.1 = u.1.1 -> i = j.
Proof.
  intros (_ & _ & Hd) Hi Hj Heq.
  pose proof (proj2 (Hd (t.1.1) _) (ex_intro _ i (ex_intro _ t (conj Hi (conj eq_refl eq_refl))))) as H1.
  pose proof (proj2 (Hd (t.1.1) _) (ex_intro _ j (ex_intro _ u (conj Hj (conj (eq_sym Heq) eq_refl))))) as H2.
  rewrite H1 in H2. injection H2. lia.
Qed.

Lemma indexed_pop k p t tags oi dw :
  indexed k p (t :: tags) oi dw -> indexed (S k) p tags (Nat.pred <$> delete t.1.2 oi) (delete t.1.1 dw).
Proof.
  intros Hind. pose proof Hind as (Ht & Ho & Hd). destruct (Ht 0%nat t eq_refl) as [Hoff Hseq]. rewrite Nat.add_0_r in Hoff.
  split_and!.
  - intros i u Hi. specialize (Ht (S i) u Hi). by replace (S k + i)%nat with (k + S i)%nat by lia.
  - intros off i. rewrite lookup_fmap_Some. setoid_rewrite lookup_delete_Some. setoid_rewrite Ho. rewrite Hoff. split.
    + intros (j & <- & Hne & Hj & ->). destruct j as [|j]; [by rewrite Nat.add_0_r in Hne|]. simpl in *. split; [lia|].
      f_equal. lia.
    + intros [Hi ->]. exists (S i). simpl. split_and!; [done| |lia|f_equal; lia]. intros Heq%off_at_inj. lia.
  - intros id q. rewrite lookup_delete_Some, Hd. split.
    + intros (Hne & j & u & Hj & <- & ->). destruct j as [|j]; [by injection Hj as <-|].
      exists j, u. split_and!; [done|done|lia].
    + intros (j & u & Hj & <- & ->). split; [|exists (S j), u; split_and!; [done|done|lia]].
      intros Heq. by pose proof (indexed_id_inj _ _ _ _ _ 0 (S j) t u Hind eq_refl Hj Heq).
Qed.

Lemma reclaim_implements k p l sl oi dw :
  (k <= length l)%nat -> entry_of <$> sl = drop k l -> Forall (fun e => e_state e = Acked) (take k l) ->
  indexed k p (tag <$> sl) oi dw ->
  exists k' sl' oi' dw', reclaim sl oi dw = (sl', oi', dw') /\ (k' <= length l)%nat /\ entry_of <$> sl' = drop k' l /\
    Forall (fun e => e_state e = Acked) (take k' l) /\ indexed k' p (tag <$> sl') oi' dw'.
Proof.
  revert k oi dw. induction sl as [|s sl IH]; intros k oi dw Hk Hv Ha Hi; cbn [reclaim]; [by eexists k, _, _, _; split_and!|].
  case_decide as Hs; [|by eexists k, _, _, _; split_and!].
  change (indexed k p (tag s :: (tag <$> sl)) oi dw) in Hi. rewrite fmap_cons in Hv. assert (Hlk : l !! k = Some (entry_of s)).
  { replace k with (k + 0)%nat by lia. rewrite <- lookup_drop, <- Hv. done. }
  apply (IH (S k)).
  - apply lookup_lt_Some in Hlk. lia.
  - rewrite (drop_S _ _ _ Hlk) in Hv. by injection Hv.
  - rewrite (take_S_r _ _ _ Hlk). apply Forall_app. split; [done|]. by constructor.
  - by apply indexed_pop in Hi.
Qed.

Lemma implements_reclaim p s l : implements p s l -> implements p (reclaim_acked s) l.
Proof.
  intros (k & Hk & Hv & Ha & Hi & Hn). unfold reclaim_acked.
  destruct (reclaim_implements k p l _ _ _ Hk Hv Ha Hi) as (k' & sl' & oi' & dw' & -> & ? & ? & ? & ?).
  exists k'. by split_and!.
Qed.

Lemma indexed_push k p tags oi dw id :
  indexed k p tags oi dw -> dw !! id = None ->
  indexed k p (tags ++ [(id, off_at p (k + length tags), Z.of_nat (k + length tags) + 1)])
    (<[off_at p (k + length tags) := length tags]> oi) (<[id := Z.of_nat (k + length tags) + 1]> dw).
Proof.
  intros (Ht & Ho & Hd) Hid. split_and!.
  - intros i t [Hi|[Hlen Hi]]%lookup_app_Some; [by apply Ht|]. apply list_lookup_singleton_Some in Hi as [Hi <-].
    replace i with (length tags) by lia. done.
  - intros off i. rewrite length_app. simpl. rewrite lookup_insert_Some, Ho. split.
    + intros [[<- <-]|[Hne [Hi ->]]]; split; auto; lia.
    + intros [Hi ->]. destruct (decide (i = length tags)) as [->|]; [by left|right]. split; [|split; [lia|done]].
      intros Heq%off_at_inj. lia.
  - intros id' q. rewrite lookup_insert_Some, Hd. split.
    + intros [[<- <-]|[Hne (i & t & Hi & <- & ->)]].
      * eexists (length tags), _. split_and!; [rewrite lookup_app_r, Nat.sub_diag by lia; done|done|done].
      * exists i, t. split_and!; try done. by apply lookup_app_l_Some.
    + intros (i & t & [Hi|[Hlen Hi]]%lookup_app_Some & <- & ->).
      * right. split; [|eauto]. intros ->. assert (dw !! t.1.1 = Some (Z.of_nat (k + i) + 1)) by (apply Hd; eauto). congruence.
      * apply list_lookup_singleton_Some in Hi as [Hi <-]. left. replace i with (length tags) by lia. done.
Qed.

Lemma implements_lookup k p s l i sl :
  implements_at k p s l -> slots s !! i = Some sl -> entry_at p l (off_at p (k + i)) (k + i) (entry_of sl).
Proof.
  intros (_ & Hv & _) Hi. split; [|done]. by rewrite <- lookup_drop, <- Hv, list_lookup_fmap, Hi.
Qed.

Lemma reclaim_dedup sl oi dw id :
  dw !! id = None -> (reclaim sl oi dw).2 !! id = None.
Proof.
  revert oi dw. induction sl as [|s sl IH]; intros oi dw Hd; cbn [reclaim]; [done|]. case_decide; [|done].
  apply IH. rewrite lookup_delete_None. auto.
Qed.

(** A message of the log that is not acked is in a slot. *)
Lemma unacked_slot k p s l j e :
  implements_at k p s l -> l !! j = Some e -> e_state e <> Acked ->
  exists i sl, j = (k + i)%nat /\ slots s !! i = Some sl /\ e = entry_of sl.
Proof.
  intros (Hk & Hv & Ha & _) Hj He. destruct (decide (j < k)%nat) as [Hlt|Hge].
  - destruct He. rewrite Forall_forall in Ha. apply Ha. apply (list_elem_of_lookup_2 _ j). by rewrite lookup_take_lt.
  - exists (j - k)%nat. assert (Hd : drop k l !! (j - k)%nat = Some e) by (rewrite lookup_drop; by replace (k + (j - k))%nat with j by lia).
    rewrite <- Hv, list_lookup_fmap in Hd. destruct (slots s !! (j - k)%nat) as [sl|]; [|done]. injection Hd as <-.
    exists sl. split_and!; [lia|done|done].
Qed.

Lemma tag_lookup s i sl : slots s !! i = Some sl -> (tag <$> slots s) !! i = Some (tag sl).
Proof. intros Hi. by rewrite list_lookup_fmap, Hi. Qed.

Lemma implements_count p s l P : implements p s l -> P Acked = false -> count_state P s = log_count P l.
Proof.
  intros (k & _ & Hv & Ha & _) HP. unfold count_state, log_count. rewrite <- (take_drop k l) at 1.
  rewrite filter_app, <- Hv, length_app.
  assert (Hz : filter (fun e => P (e_state e) = true) (take k l) = []).
  { clear -Ha HP. induction Ha as [|e l' He _ IH]; [done|]. rewrite filter_cons_False by (by rewrite He, HP). done. }
  rewrite Hz. clear. generalize (slots s). intros sls. simpl. f_equal. induction sls as [|sl sls IH]; [done|].
  rewrite fmap_cons, !filter_cons. change (e_state (entry_of sl)) with (s_state sl). case_decide; simpl; by rewrite IH.
Qed.

Lemma reclaim_front sl oi dw sl' oi' dw' s0 rest :
  reclaim sl oi dw = (sl', oi', dw') -> sl' = s0 :: rest -> s_state s0 <> Acked.
Proof.
  revert oi dw. induction sl as [|s sl IH]; intros oi dw; cbn [reclaim]; [by intros [= <- _ _]|].
  case_decide; [apply IH|]. by intros [= <- _ _] [= <- <-].
Qed.

Lemma open_span_skip l1 l2 : Forall (fun e => e_state e = Acked) l1 -> open_span (l1 ++ l2) = open_span l2.
Proof. induction 1 as [|e l1 He _ IH]; [done|]. simpl. by rewrite decide_True. Qed.

(** After reclaiming, the slots are the open span of the log. *)
Lemma reclaimed_span p s l : implements p (reclaim_acked s) l -> entry_of <$> slots (reclaim_acked s) = open_span l.
Proof.
  intros (k & _ & Hv & Ha & _). rewrite <- (take_drop k l), open_span_skip, <- Hv by done. unfold reclaim_acked in *.
  destruct (reclaim (slots s) (offset_to_index s) (dedup_window s)) as [[sl' oi'] dw'] eqn:E. simpl.
  destruct sl' as [|s0 rest]; [done|]. rewrite fmap_cons. simpl. rewrite decide_False; [done|].
  by eapply reclaim_front.
Qed.

Section Refines.
Context (cap : Z) (limit : F64).

(** The configuration of a buffer. *)
Definition configured (s : BufferState) : Prop := capacity s = cap /\ usage_limit s = limit.

Lemma write_refines p id payload headers s l out s' :
  configured s -> implements p s l -> async_write p id payload headers s = (out, s') ->
  exists l', queue_step p cap limit l (OWrite id payload headers) (RWrite out) l' /\ implements p s' l'.
Proof.
  intros [Hcap Hlim] Himp. unfold async_write. destruct (is_full s) eqn:Ef.
  { intros [= <- <-]. exists l. split; [|done]. apply q_full. left. unfold is_full, usage in Ef.
    by rewrite (implements_count p s l), Hcap, Hlim in Ef. }
  destruct (dedup_window s !! id) as [q|] eqn:Ed.
  { intros [= <- <-]. exists l. split; [|done]. destruct Himp as (k & Himp). pose proof Himp as (_ & _ & _ & (_ & _ & Hd) & _).
    apply Hd in Ed as (i & t & Hi & <- & ->). rewrite list_lookup_fmap in Hi.
    destruct (slots s !! i) as [sl|] eqn:Ei; [|done]. injection Hi as <-.
    eapply q_duplicate; [by eapply implements_lookup|done]. }
  pose proof (implements_reclaim _ _ _ Himp) as Hrec.
  assert (Ed' : dedup_window (reclaim_acked s) !! id = None).
  { pose proof (reclaim_dedup (slots s) (offset_to_index s) _ _ Ed) as Hr. unfold reclaim_acked.
    by destruct (reclaim _ _ _) as [[? ?] ?]. }
  pose proof (reclaimed_span _ _ _ Hrec) as Hspan.
  assert (Hc : capacity (reclaim_acked s) = cap) by (unfold reclaim_acked; by destruct (reclaim _ _ _) as [[? ?] ?]).
  revert Hrec Ed' Hspan Hc. generalize (reclaim_acked s). clear s Hcap Hlim Himp Ed Ef. intros s (k & Himp) Ed Hspan Hc.
  destruct (Z.leb_spec (capacity s) (Z.of_nat (length (slots s)))) as [Hle|_]; intros [= <- <-].
  { exists l. split; [|by exists k]. apply q_full. right. by rewrite <- Hspan, length_fmap, <- Hc. }
  pose proof Himp as (Hk & Hv & Ha & Hi & Hn).
  assert (Hlen : (k + length (slots s) = length l)%nat).
  { apply (f_equal length) in Hv. rewrite length_fmap, length_drop in Hv. lia. }
  exists (l ++ [mkEntry id payload headers Pending]). rewrite Hn. split.
  - apply q_write. intros e (j & Hj)%list_elem_of_lookup Hna Hid.
    destruct (unacked_slot _ _ _ _ _ _ Himp Hj Hna) as (i & sl & -> & Hsl & ->). destruct Hi as (_ & _ & Hd).
    assert (Hq : dedup_window s !! id = Some (Z.of_nat (k + i) + 1)).
    { apply Hd. exists i, (tag sl). split_and!; [by apply tag_lookup|done|done]. }
    congruence.
  - exists k. split_and!; simpl.
    + rewrite length_app. lia.
    + rewrite fmap_app, Hv, drop_app_le by lia. done.
    + by rewrite take_app_le by lia.
    + apply (indexed_push _ _ _ _ _ id) in Hi; [|done]. rewrite length_fmap, Hlen in Hi. by rewrite fmap_app.
    + rewrite length_app. simpl. lia.
Qed.

Lemma in_flight_refines p off op st t s l err s' :
  goal_state op = Some (off, st) -> implements p s l -> on_in_flight off st t s = (err, s') ->
  exists l', queue_step p cap limit l op (RDone err) l' /\ implements p s' l'.
Proof.
  intros Hop (k & Himp). pose proof Himp as (Hk & Hv & Ha & Hi & Hn). pose proof Hi as (_ & Ho & _).
  unfold on_in_flight, find_slot. destruct (offset_to_index s !! off) as [idx|] eqn:Eo.
  - apply Ho in Eo as [Hlt ->]. rewrite length_fmap in Hlt. apply lookup_lt_is_Some_2 in Hlt as [sl Hsl]. rewrite Hsl.
    pose proof (implements_lookup _ _ _ _ _ _ Himp Hsl) as [Hl _]. case_decide as Hst; intros [= <- <-].
    + exists (<[(k + idx)%nat := entry_set (entry_of sl) st]> l). split; [by eapply q_done|]. exists k. split_and!; simpl.
      * by rewrite length_insert.
      * rewrite list_fmap_insert, Hv, drop_insert_ge by lia. by replace (k + idx - k)%nat with idx by lia.
      * rewrite take_insert_ge by lia. done.
      * rewrite list_fmap_insert, list_insert_id; [done|]. exact (tag_lookup _ _ _ Hsl).
      * by rewrite length_insert.
    + exists l. split; [|by exists k]. eapply q_refused; [done|]. intros i e [Hie Hoff%off_at_inj]. subst i.
      rewrite Hl in Hie. by injection Hie as <-.
  - intros [= <- <-]. exists l. split; [|by exists k]. eapply q_refused; [done|]. intros i e [Hie ->] He.
    destruct (unacked_slot _ _ _ _ _ _ Himp Hie) as (j & sl & -> & Hsl & ->); [by rewrite He|].
    apply (eq_None_not_Some (offset_to_index s !! off_at p (k + j))) in Eo. apply Eo. exists j. apply Ho.
    rewrite length_fmap. split; [by eapply lookup_lt_Some|done].
Qed.

Lemma deliver_skip p max i l1 l2 :
  Forall (fun e => e_state e = Acked) l1 ->
  deliver p max i (l1 ++ l2) = ((deliver p max (i + length l1) l2).1, l1 ++ (deliver p max (i + length l1) l2).2).
Proof.
  revert i. induction l1 as [|e l1 IH]; intros i; simpl; [intros _; rewrite Nat.add_0_r; by destruct (deliver _ _ _ _)|].
  intros [He Hl]%Forall_cons. rewrite decide_False by (by rewrite He). rewrite IH by done.
  by replace (S i + length l1)%nat with (i + S (length l1))%nat by lia.
Qed.

Lemma fetch_slots_deliver p max now k sl :
  (forall i s, sl !! i = Some s -> s_offset s = off_at p (k + i)) ->
  let (ms, sl') := fetch_slots max now sl in
  deliver p max k (entry_of <$> sl) = (ms, entry_of <$> sl') /\ tag <$> sl' = tag <$> sl.
Proof.
  revert max k. induction sl as [|s sl IH]; intros max k Hoff; [done|]. cbn [fetch_slots].
  pose proof (Hoff 0%nat s eq_refl) as H0. rewrite Nat.add_0_r in H0.
  assert (Hoff' : forall i s, sl !! i = Some s -> s_offset s = off_at p (S k + i)).
  { intros i s' Hi. rewrite (Hoff (S i) s' Hi). f_equal. lia. }
  rewrite fmap_cons. cbn [deliver]. change (e_state (entry_of s)) with (s_state s). unfold message_at. cbn [entry_of e_payload e_headers].
  change (mkSimpleOffset (Z.of_nat k + 1) p) with (off_at p k). rewrite <- H0.
  case_decide; [destruct max as [|[|max]]; [done|done|]; specialize (IH (S max) (S k) Hoff')|specialize (IH max (S k) Hoff')].
  all: destruct (fetch_slots _ _ sl) as [ms sl']; destruct IH as [-> Ht]; split; [done|]; rewrite !fmap_cons, Ht; done.
Qed.

Lemma fetch_refines p max now s l ms s' :
  implements p s l -> fetch max now s = (ms, s') ->
  exists l', queue_step p cap limit l (OFetch max now) (RFetch ms) l' /\ implements p s' l'.
Proof.
  intros (k & Hk & Hv & Ha & Hi & Hn). unfold fetch.
  pose proof (fetch_slots_deliver p max now k (slots s)) as Hd.
  destruct (fetch_slots max now (slots s)) as [ms' sl'] eqn:Ef. intros [= <- <-]. destruct Hd as [Hd Ht].
  { intros i sl Hsl. destruct Hi as (Ht & _). by destruct (Ht i (tag sl) (tag_lookup _ _ _ Hsl)). }
  pose proof (deliver_skip p max 0 (take k l) (drop k l) Ha) as Hs. rewrite take_drop, length_take, Nat.min_l in Hs by done.
  simpl in Hs. rewrite <- Hv, Hd in Hs. cbn [fst snd] in Hs.
  exists (deliver p max 0 l).2. split; [replace ms' with (deliver p max 0 l).1 by (by rewrite Hs); constructor|].
  rewrite Hs. cbn [snd]. exists k. pose proof (f_equal length Hv) as Hlen. rewrite length_fmap, length_drop in Hlen.
  pose proof (f_equal length Ht) as Hlen'. rewrite !length_fmap in Hlen'.
  assert (Htk : length (take k l) = k) by (rewrite length_take; lia).
  split_and!; cbn [slots set_slots offset_to_index dedup_window next_sequence].
  - rewrite length_app. lia.
  - by rewrite drop_app_length'.
  - by rewrite take_app_length'.
  - by rewrite Ht.
  - rewrite length_app, length_fmap, Htk, Hn. lia.
Qed.

Lemma exec_refines p op s l out s' :
  configured s -> implements p s l -> exec p op s = (out, s') -> exists l', queue_step p cap limit l op out l' /\ implements p s' l'.
Proof.
  intros Hcfg Himp. destruct op; cbn [exec].
  - destruct (async_write _ _ _ _ _) eqn:E. intros [= <- <-]. by eapply write_refines.
  - destruct (fetch _ _ _) eqn:E. intros [= <- <-]. by eapply fetch_refines.
  - destruct (ack _ _) eqn:E. intros [= <- <-]. by eapply in_flight_refines.
  - destruct (nack _ _) eqn:E. intros [= <- <-]. by eapply in_flight_refines.
  - destruct (mark_wip _ _ _) eqn:E. intros [= <- <-]. by eapply in_flight_refines.
Qed.

(** * Runs of the buffer and of the queue *)

Fixpoint exec_all (p : Z) (ops : list Op) (s : BufferState) : list Out * BufferState :=
  match ops with
  | [] => ([], s)
  | op :: ops' =>
      let (out, s1) := exec p op s in
      let (outs, s2) := exec_all p ops' s1 in (out :: outs, s2)
  end.

Inductive queue_run (p cap : Z) (limit : F64) : list Entry -> list Op -> list Out -> list Entry -> Prop :=
  | queue_nil l : queue_run p cap limit l [] [] l
  | queue_cons l1 l2 l3 op ops out outs :
      queue_step p cap limit l1 op out l2 -> queue_run p cap limit l2 ops outs l3 -> queue_run p cap limit l1 (op :: ops) (out :: outs) l3.

Lemma exec_configured p op s out s' : configured s -> exec p op s = (out, s') -> configured s'.
Proof.
  destruct op; cbn [exec]; unfold async_write, fetch, ack, nack, mark_wip, on_in_flight, find_slot, reclaim_acked;
    repeat case_match; intros; by simplify_eq/=.
Qed.

Lemma exec_all_refines p ops s l outs s' :
  configured s -> implements p s l -> exec_all p ops s = (outs, s') -> exists l', queue_run p cap limit l ops outs l' /\ implements p s' l'.
Proof.
  revert s l outs. induction ops as [|op ops IH]; intros s l outs Hcfg Himp; cbn [exec_all].
  { intros [= <- <-]. exists l. split; [constructor|done]. }
  destruct (exec p op s) as [out s1] eqn:E1. destruct (exec_all p ops s1) as [outs1 s2] eqn:E2. intros [= <- <-].
  destruct (exec_refines _ _ _ _ _ _ Hcfg Himp E1) as (l1 & Hq & Himp1).
  destruct (IH _ _ _ (exec_configured _ _ _ _ _ Hcfg E1) Himp1 E2) as (l2 & Hr & Himp2). exists l2. split; [by econstructor|done].
Qed.

Lemma implements_new p : implements p (buffer_new cap limit) [].
Proof.
  exists 0%nat. split_and!; simpl; try done. unfold indexed. split_and!; [done|..].
  - intros off i. rewrite lookup_empty. split; [done|]. simpl. intros [? _]. lia.
  - intros id q. rewrite lookup_empty. split; [done|]. by intros (i & t & ? & _).
Qed.

(** The slots never exceed the capacity. *)
Definition within (s : BufferState) : Prop := Z.of_nat (length (slots s)) <= Z.max 0 (capacity s).

Lemma reclaim_length sl oi dw : (length (reclaim sl oi dw).1.1 <= length sl)%nat.
Proof.
  revert oi dw. induction sl as [|s sl IH]; intros oi dw; cbn [reclaim]; [done|]. case_decide; [|done].
  specialize (IH (Nat.pred <$> delete (s_offset s) oi) (delete (s_id s) dw)). simpl. lia.
Qed.

Lemma fetch_slots_length max now sl : length (fetch_slots max now sl).2 = length sl.
Proof.
  revert max. induction sl as [|s sl IH]; intros max; cbn [fetch_slots]; [done|].
  case_decide; [destruct max as [|[|max]]; [done|done|]; specialize (IH (S max))|specialize (IH max)];
    destruct (fetch_slots _ _ sl); simpl in *; by rewrite IH.
Qed.

Lemma exec_within p op s out s' : within s -> exec p op s = (out, s') -> within s' /\ capacity s' = capacity s.
Proof.
  unfold within. intros Hw. destruct op as [id payload headers|max now|off|off|off now]; cbn [exec].
  - unfold async_write. destruct (is_full s); [by intros [= <- <-]|]. destruct (dedup_window s !! id); [by intros [= <- <-]|].
    pose proof (reclaim_length (slots s) (offset_to_index s) (dedup_window s)) as Hl. unfold reclaim_acked.
    destruct (reclaim _ _ _) as [[sl oi] dw]. simpl in *. destruct (Z.leb_spec (capacity s) (Z.of_nat (length sl)));
      intros [= <- <-]; simpl; [split; [lia|done]|]. rewrite length_app. simpl. split; [lia|done].
  - unfold fetch. pose proof (fetch_slots_length max now (slots s)) as Hl. destruct (fetch_slots _ _ _) as [ms sl].
    intros [= <- <-]. simpl in *. split; [lia|done].
  - unfold ack, on_in_flight. repeat case_match; intros; simplify_eq; simpl; rewrite ?length_insert; done.
  - unfold nack, on_in_flight. repeat case_match; intros; simplify_eq; simpl; rewrite ?length_insert; done.
  - unfold mark_wip, on_in_flight. repeat case_match; intros; simplify_eq; simpl; rewrite ?length_insert; done.
Qed.

Lemma exec_all_within p ops s outs s' : within s -> exec_all p ops s = (outs, s') -> within s' /\ capacity s' = capacity s.
Proof.
  revert s outs. induction ops as [|op ops IH]; intros s outs Hw; cbn [exec_all]; [by intros [= <- <-]|].
  destruct (exec p op s) as [out s1] eqn:E1. destruct (exec_all p ops s1) as [outs1 s2] eqn:E2. intros [= <- <-].
  destruct (exec_within _ _ _ _ _ Hw E1) as [Hw1 Hc1]. destruct (IH _ _ Hw1 E2) as [? Hc2]. split; [done|congruence].
Qed.

(** * What is delivered *)

Lemma deliver_ge p max j l m : m ∈ (deliver p max j l).1 -> exists i, (j <= i)%nat /\ rm_offset m = off_at p i.
Proof.
  revert max j. induction l as [|e l IH]; intros max j; cbn [deliver]; [by intros ?%elem_of_nil|].
  assert (Hrec : forall n, m ∈ (deliver p n (S j) l).1 -> exists i, (j <= i)%nat /\ rm_offset m = off_at p i).
  { intros n Hm. destruct (IH _ _ Hm) as (i & ? & ?). exists i. split; [lia|done]. }
  assert (H0 : m = message_at p j e -> exists i, (j <= i)%nat /\ rm_offset m = off_at p i) by (intros ->; by exists j).
  case_decide; [|specialize (Hrec max); destruct (deliver _ _ _ _); auto].
  destruct max as [|[|max]]; [simpl; intros ?%list_elem_of_singleton; auto..|].
  specialize (Hrec (S max)). destruct (deliver _ _ _ _). simpl. intros [?|?]%elem_of_cons; auto.
Qed.

Lemma deliver_acked p max j l i e :
  l !! i = Some e -> e_state e = Acked ->
  (deliver p max j l).2 !! i = Some e /\ off_at p (j + i) ∉ rm_offset <$> (deliver p max j l).1.
Proof.
  intros Hi He. revert max j i Hi. induction l as [|e0 l IH]; intros max j i Hi; [done|]. cbn [deliver]. destruct i as [|i].
  - injection Hi as ->. rewrite decide_False by (by rewrite He). pose proof (deliver_ge p max (S j) l) as Hge.
    destruct (deliver p max (S j) l) as [ms r]. simpl in *. split; [done|].
    intros (m & Hm & Hin)%list_elem_of_fmap. destruct (Hge m Hin) as (i & Hle & Ho). rewrite Ho in Hm.
    apply off_at_inj in Hm. lia.
  - simpl in Hi. assert (Hrec : forall n, (deliver p n (S j) l).2 !! i = Some e /\
      off_at p (j + S i) ∉ rm_offset <$> (deliver p n (S j) l).1).
    { intros n. specialize (IH n (S j) i Hi). by replace (S j + i)%nat with (j + S i)%nat in IH by lia. }
    assert (Hne : off_at p (j + S i) <> off_at p j) by (intros Heq%off_at_inj; lia).
    case_decide; [|specialize (Hrec max); by destruct (deliver _ _ _ _)].
    destruct max as [|[|max]]; [split; [done|]; by intros ?%list_elem_of_singleton..|].
    specialize (Hrec (S max)). destruct (deliver _ _ _ _). simpl in *. destruct Hrec as [? Hni]. split; [done|].
    intros [?|?]%elem_of_cons; done.
Qed.

Definition delivered (out : Out) : list SimpleOffset :=
  match out with RFetch ms => rm_offset <$> ms | _ => [] end.

Lemma queue_step_acked p l op out l' i e :
  queue_step p cap limit l op out l' -> l !! i = Some e -> e_state e = Acked ->
  l' !! i = Some e /\ off_at p i ∉ delivered out.
Proof.
  intros Hq Hi He. destruct Hq; simpl; try (split; [done|by intros ?%elem_of_nil]).
  - split; [by apply lookup_app_l_Some|by intros ?%elem_of_nil].
  - by apply (deliver_acked p max 0).
  - split; [|by intros ?%elem_of_nil]. destruct (decide (i = i0)) as [->|Hne]; [|by rewrite list_lookup_insert_ne].
    destruct H0 as [Hl _]. rewrite Hi in Hl. injection Hl as <-. congruence.
Qed.

Lemma queue_run_acked p l ops outs l' i e :
  queue_run p cap limit l ops outs l' -> l !! i = Some e -> e_state e = Acked ->
  l' !! i = Some e /\ Forall (fun out => off_at p i ∉ delivered out) outs.
Proof.
  induction 1 as [|l1 l2 l3 op ops out outs Hs _ IH]; intros Hi He; [done|].
  destruct (queue_step_acked _ _ _ _ _ _ _ Hs Hi He) as [Hi2 Ho]. destruct (IH Hi2 He) as [? ?]. split; [done|by constructor].
Qed.

Lemma queue_run_app p l ops1 ops2 outs l' :
  queue_run p cap limit l (ops1 ++ ops2) outs l' ->
  exists outs1 outs2 l1, outs = outs1 ++ outs2 /\ length outs1 = length ops1 /\ queue_run p cap limit l ops1 outs1 l1 /\
    queue_run p cap limit l1 ops2 outs2 l'.
Proof.
  revert l outs. induction ops1 as [|op ops1 IH]; intros l outs; simpl; [intros Hr; exists [], outs, l; split_and!; [done..|constructor|done]|].
  inversion 1 as [|? l2 ? ? ? out outs' Hs Hr]; subst. destruct (IH _ _ Hr) as (o1 & o2 & l1 & -> & ? & ? & ?).
  exists (out :: o1), o2, l1. split_and!; [done|simpl; lia|by econstructor|done].
Qed.

End Refines.

(** * Properties *)


(** A message that was acknowledged is never delivered again, whatever follows. *)
Theorem acked_not_redelivered (p cap : Z) (limit : F64) (ops1 ops2 : list Op) (off : SimpleOffset) (outs1 outs2 : list Out)
    (s : BufferState) :
  exec_all p (ops1 ++ OAck off :: ops2) (buffer_new cap limit) = (outs1 ++ RDone None :: outs2, s) ->
  length outs1 = length ops1 ->
  Forall (fun out => off ∉ delivered out) outs2.
Proof.
  intros E Hlen. destruct (exec_all_refines cap limit _ _ (buffer_new cap limit) _ _ _ (conj eq_refl eq_refl) (implements_new cap limit p) E) as (l & Hr & _).
  apply queue_run_app in Hr as (o1 & o2 & l1 & Heq & Hl & _ & Hr). apply app_inj_1 in Heq as [<- <-]; [|lia].
  inversion Hr as [|? l2 ? ? ? ? ? Hs Hr2]; subst. inversion Hs as [| | | |? ? off' st i e Hg [Hi Hoff] He|]; subst.
  injection Hg as -> <-. destruct (queue_run_acked _ _ p _ _ _ _ i (entry_set e Acked) Hr2) as [_ Hf]; [|done|done].
  apply list_lookup_insert_eq. by eapply lookup_lt_Some.
Qed.

(** * Witness *)

Definition ex_ops : list Op :=
  [OWrite "a" "x" ∅; OWrite "b" "y" ∅; OWrite "a" "x" ∅; OFetch 1 0; OAck (mkSimpleOffset 1 0); OFetch 5 1; ONack (mkSimpleOffset 2 0);
   OWrite "c" "z" ∅; OFetch 5 2].
Definition ex_buffer_outs : list Out := (exec_all 0 ex_ops (buffer_new 3 (f64_of_Z 1))).1.

Example ex_buffer_delivered :
  delivered <$> ex_buffer_outs = [[]; []; []; [mkSimpleOffset 1 0]; []; [mkSimpleOffset 2 0]; []; [];
    [mkSimpleOffset 2 0; mkSimpleOffset 3 0]].
Proof. vm_compute. reflexivity. Qed.

Lemma acked_not_redelivered_witness : Forall (fun out => mkSimpleOffset 1 0 ∉ delivered out) (drop 5 ex_buffer_outs).
Proof.
  refine (acked_not_redelivered 0 3 (f64_of_Z 1) (take 4 ex_ops) (drop 5 ex_ops) (mkSimpleOffset 1 0) (take 4 ex_buffer_outs)
    (drop 5 ex_buffer_outs) (exec_all 0 ex_ops (buffer_new 3 (f64_of_Z 1))).2 _ _); vm_compute; reflexivity.
Defined.
