(* ===== verification/IsbWriter.v ===== *)
(** The ISB writer (src/rust/numaflow-core/src/pipeline/isb/writer.rs): a message is written to
    the stream of every vertex it is forwarded to, with retries, then its watermark is published
    and its handle gets a verdict.

    The writers of the streams and the cancellation token are external: [Env] answers each call
    as any function of what happened before, so the interleaving with other tasks is part of it.
    The retry loops have no bound in the code; [fuel] bounds their rounds. *)
From S2P Require Import Prelude Clock Message Forward Manager Publisher.
Open Scope Z_scope.

Inductive BufferFullStrategy := RetryUntilSuccess | DiscardLatest.
#[global] Instance BufferFullStrategy_eq_dec : EqDecision BufferFullStrategy.
Proof. solve_decision. Defined.

Record BufferWriterConfig := mkBufferWriterConfig {
  streams : list Stream;
  buffer_full_strategy : BufferFullStrategy
}.

Record ToVertexConfig := mkToVertexConfig {
  to_name : string;
  partitions : Z;                             (* u16 *)
  writer_config : BufferWriterConfig;
  to_conditions : option ForwardConditions;
  to_vertex_type : VertexType;
  ordered_processing_enabled : bool
}.

Inductive WriteError := WEBufferFull | WEWriteFailed (e : string).
Record WriteResult := mkWriteResult { wr_offset : Offset; is_duplicate : bool }.

(** What happens in the life of a task. *)
Inductive Event :=
  | EAsync (s : Stream) (refused : option WriteError)     (* async_write; [None]: a pending write *)
  | EResolve (s : Stream) (r : WriteResult + WriteError)  (* the pending write is awaited *)
  | EWrite (s : Stream) (r : WriteResult + WriteError)    (* write *)
  | EPublish (s : Stream) (off : Offset).                 (* the watermark is published *)

Record Env := mkEnv {
  env_async : list Event -> Stream -> Message -> option WriteError;
  env_resolve : list Event -> Stream -> Message -> WriteResult + WriteError;
  env_write : list Event -> Stream -> Message -> WriteResult + WriteError;
  env_cancelled : list Event -> bool
}.

Record ISBWriterOrchestrator := mkOrchestrator {
  config : list ToVertexConfig;
  writers : gset string;                      (* the streams that have a writer *)
  has_watermark_handle : bool
}.

Definition shuffle_key_of (keys : list string) : string := String.concat ":" keys.

Section Writer.
Context (hash : string -> Z) (env : Env) (w : ISBWriterOrchestrator).

(** [None] is a panic: no such stream, or no partition. *)
Definition determine_target_stream (m : Message) (v : ToVertexConfig) : option Stream :=
  let shuffle_key :=
    match to_vertex_type v with
    | ReduceUDF => shuffle_key_of (m_keys m)
    | _ => if ordered_processing_enabled v then shuffle_key_of (m_keys m) else from_utf8_lossy (id_offset (m_id m))
    end in
  let? partition := determine_partition hash shuffle_key (partitions v) in
  streams (writer_config v) !! Z.to_nat partition.

Inductive WriteOutcome := Success (s : Stream) | Dropped | Cancelled.

(** The results below are [None] when the fuel runs out. *)
Fixpoint write_to_stream (fuel : nat) (m : Message) (s : Stream) (strategy : BufferFullStrategy) (log : list Event) :
    option (WriteOutcome * list Event) :=
  match fuel with
  | O => None
  | S fuel =>
      let r := env_async env log s m in
      let log := log ++ [EAsync s r] in
      match r with
      | None => Some (Success s, log)
      | Some e =>
          if match e with WEBufferFull => bool_decide (strategy = DiscardLatest) | _ => false end then Some (Dropped, log)
          else if env_cancelled env log then Some (Cancelled, log)
          else write_to_stream fuel m s strategy log
      end
  end.

(** A panic ends the task: [inl tt]. *)
Fixpoint route_and_write_message (fuel : nat) (m : Message) (vs : list ToVertexConfig) (log : list Event) :
    option ((unit + list WriteOutcome) * list Event) :=
  match vs with
  | [] => Some (inr [], log)
  | v :: vs' =>
      if should_forward (m_tags m) (to_conditions v) then
        match determine_target_stream m v with
        | None => Some (inl tt, log)
        | Some s =>
            if decide (stream_name s ∈ writers w) then
              let? (o, log1) := write_to_stream fuel m s (buffer_full_strategy (writer_config v)) log in
              let? (r, log2) := route_and_write_message fuel m vs' log1 in
              Some (match r with inr os => inr (o :: os) | inl _ => inl tt end, log2)
            else Some (inl tt, log)
        end
      else route_and_write_message fuel m vs' log
  end.

Fixpoint write_with_retry (fuel : nat) (m : Message) (s : Stream) (log : list Event) :
    option ((WriteResult + WriteError) * list Event) :=
  match fuel with
  | O => None
  | S fuel =>
      let r := env_write env log s m in
      let log := log ++ [EWrite s r] in
      match r with
      | inl wr => Some (inl wr, log)
      | inr _ => if env_cancelled env log then Some (inr (WEWriteFailed "Cancelled"), log)
                 else write_with_retry fuel m s log
      end
  end.

Definition handle_paf_result (r : WriteResult + WriteError) : option Offset :=
  match r with inl wr => Some (wr_offset wr) | inr _ => None end.

Fixpoint resolve_all_pafs (fuel : nat) (m : Message) (ss : list Stream) (log : list Event) :
    option (list (Stream * Offset) * list Event) :=
  match ss with
  | [] => Some ([], log)
  | s :: ss' =>
      let r := env_resolve env log s m in
      let log := log ++ [EResolve s r] in
      let? (r, log1) := match r with
                        | inl wr => Some (inl wr, log)
                        | inr _ => write_with_retry fuel m s log
                        end in
      let? (offs, log2) := resolve_all_pafs fuel m ss' log1 in
      Some (match handle_paf_result r with Some off => (s, off) :: offs | None => offs end, log2)
  end.

Definition publish_watermarks_for_offsets (offs : list (Stream * Offset)) (log : list Event) : list Event :=
  if has_watermark_handle w then log ++ ((fun so => EPublish so.1 so.2) <$> offs) else log.

Definition successes (os : list WriteOutcome) : list Stream :=
  omap (fun o => match o with Success s => Some s | _ => None end) os.
Definition cancelled_count (os : list WriteOutcome) : nat :=
  length (omap (fun o => match o with Cancelled => Some tt | _ => None end) os).

(** The verdict on the handle, and what happened. *)
Definition execute (fuel : nat) (m : Message) (log : list Event) : option (AckLabel * list Event) :=
  if dropped m then Some (LSuccess, log)
  else if nacked m then Some (LFail "message nacked" (m_nack_options m), log)
  else
    let? (r, log1) := route_and_write_message fuel m (config w) log in
    match r with
    | inl _ => Some (LDrop, log1)
    | inr os =>
        if (0 <? cancelled_count os)%nat then Some (LFail "Token cancelled during ISB write" None, log1)
        else
          let? (offs, log2) := resolve_all_pafs fuel m (successes os) log1 in
          if negb (length offs =? length (successes os))%nat then Some (LFail "PAF resolution failed" None, log2)
          else Some (LSuccess, publish_watermarks_for_offsets offs log2)
    end.
End Writer.

(** * What a verdict says *)

(** The message was stored in the stream [s] at [off]. *)
Definition landed (log : list Event) (s : Stream) (off : Offset) : Prop :=
  exists wr, wr_offset wr = off /\ (EResolve s (inl wr) ∈ log \/ EWrite s (inl wr) ∈ log).

(** The stream refused the message because it is full, and the vertex discards in that case. *)
Definition discarded (log : list Event) (v : ToVertexConfig) (s : Stream) : Prop :=
  buffer_full_strategy (writer_config v) = DiscardLatest /\ EAsync s (Some WEBufferFull) ∈ log.

Definition unpublished (log : list Event) : Prop := forall s off, EPublish s off ∉ log.

Section Facts.
Context (hash : string -> Z) (env : Env) (w : ISBWriterOrchestrator).

Lemma landed_prefix log log' s off : log `prefix_of` log' -> landed log s off -> landed log' s off.
Proof. intros [k ->] (wr & ? & Hin). exists wr. rewrite !elem_of_app. naive_solver. Qed.

Lemma unpublished_app log e : unpublished log -> (forall s off, e <> EPublish s off) -> unpublished (log ++ [e]).
Proof. intros Hu He s off [?|?%list_elem_of_singleton]%elem_of_app; [by destruct (Hu s off)|by destruct (He s off)]. Qed.

Lemma write_to_stream_spec fuel m s strategy log o log' :
  write_to_stream env fuel m s strategy log = Some (o, log') -> unpublished log ->
  log `prefix_of` log' /\ unpublished log' /\
  match o with
  | Success s' => s' = s
  | Dropped => strategy = DiscardLatest /\ EAsync s (Some WEBufferFull) ∈ log'
  | Cancelled => True
  end.
Proof.
  revert log. induction fuel as [|fuel IH]; intros log; cbn [write_to_stream]; [done|]. intros Hw Hu.
  set (r := env_async env log s m) in *.
  assert (Hpre : log `prefix_of` log ++ [EAsync s r]) by (by apply prefix_app_r).
  assert (Hu' : unpublished (log ++ [EAsync s r])) by (by apply unpublished_app).
  destruct r as [e|]; [|by injection Hw as <- <-].
  destruct e as [|e]; cbn -[app] in Hw; [case_bool_decide; [injection Hw as <- <-; split_and!; [done..|]; apply elem_of_app; right; by left|]|].
  all: destruct (env_cancelled env _); [by injection Hw as <- <-|].
  all: destruct (IH _ Hw Hu') as (? & ? & ?); split_and!; [by etrans|done|done].
Qed.

(** The vertices the message is forwarded to, with the stream chosen and the outcome. *)
Inductive routed (m : Message) (log : list Event) : list ToVertexConfig -> list WriteOutcome -> Prop :=
  | routed_nil : routed m log [] []
  | routed_skip v vs os : should_forward (m_tags m) (to_conditions v) = false -> routed m log vs os -> routed m log (v :: vs) os
  | routed_to v vs os s o :
      should_forward (m_tags m) (to_conditions v) = true -> determine_target_stream hash m v = Some s ->
      (o = Success s \/ o = Dropped /\ discarded log v s \/ o = Cancelled) ->
      routed m log vs os -> routed m log (v :: vs) (o :: os).

Definition misconfigured (m : Message) : Prop :=
  exists v, v ∈ config w /\ should_forward (m_tags m) (to_conditions v) = true /\
    forall s, determine_target_stream hash m v = Some s -> stream_name s ∉ writers w.

Lemma routed_prefix m log log' vs os : log `prefix_of` log' -> routed m log vs os -> routed m log' vs os.
Proof.
  intros [k ->]. induction 1 as [|v vs os Hs Hr IH|v vs os s o Hs Ht Ho Hr IH]; [constructor|by constructor|].
  econstructor; [done..| |done]. unfold discarded in *. rewrite elem_of_app. naive_solver.
Qed.

Lemma route_and_write_spec fuel m vs log r log' :
  route_and_write_message hash env w fuel m vs log = Some (r, log') -> unpublished log -> (forall v, v ∈ vs -> v ∈ config w) ->
  log `prefix_of` log' /\ unpublished log' /\
  match r with inr os => routed m log' vs os | inl _ => misconfigured m end.
Proof.
  revert log r. induction vs as [|v vs IH]; intros log r; cbn [route_and_write_message].
  { intros [= <- <-] Hu _. split_and!; [done..|constructor]. }
  intros Hr Hu Hin. assert (Hv : v ∈ config w) by (apply Hin; by left). assert (Hvs : forall v, v ∈ vs -> v ∈ config w) by (intros; apply Hin; by right).
  destruct (should_forward _ _) eqn:Ef.
  - destruct (determine_target_stream hash m v) as [s|] eqn:Es;
      [|injection Hr as <- <-; split_and!; [done..|]; exists v; split_and!; [done..|]; by rewrite Es].
    case_decide as Hw; [|injection Hr as <- <-; split_and!; [done..|]; exists v; split_and!; [done..|]; rewrite Es; by intros ? [= <-]].
    destruct (write_to_stream _ _ _ _ _ _) as [[o log1]|] eqn:E1; [|done].
    destruct (write_to_stream_spec _ _ _ _ _ _ _ E1 Hu) as (Hp1 & Hu1 & Ho).
    destruct (route_and_write_message _ _ _ _ _ _ _) as [[r2 log2]|] eqn:E2; [|done]. injection Hr as <- <-.
    destruct (IH _ _ E2 Hu1 Hvs) as (Hp2 & Hu2 & Hrest). split_and!; [by etrans|done|].
    destruct r2 as [|os]; [done|]. econstructor; [done..| |done]. destruct Hp2 as [k ->].
    destruct o; [left; by subst|right; left|auto]. split; [done|]. destruct Ho as [? ?]. split; [done|]. apply elem_of_app. by left.
  - destruct (IH _ _ Hr Hu Hvs) as (? & ? & Hrest). split_and!; [done..|]. destruct r; [done|]. by constructor.
Qed.

Lemma write_with_retry_spec fuel m s log r log' :
  write_with_retry env fuel m s log = Some (r, log') -> unpublished log ->
  log `prefix_of` log' /\ unpublished log' /\ forall wr, r = inl wr -> landed log' s (wr_offset wr).
Proof.
  revert log. induction fuel as [|fuel IH]; intros log; cbn [write_with_retry]; [done|]. intros Hw Hu.
  set (a := env_write env log s m) in *.
  assert (Hpre : log `prefix_of` log ++ [EWrite s a]) by (by apply prefix_app_r).
  assert (Hu' : unpublished (log ++ [EWrite s a])) by (by apply unpublished_app).
  destruct a as [wr|e].
  - injection Hw as <- <-. split_and!; [done..|]. intros ? [= <-]. exists wr. split; [done|]. right. apply elem_of_app. right. by left.
  - destruct (env_cancelled env _); [by injection Hw as <- <-|].
    destruct (IH _ Hw Hu') as (? & ? & ?); split_and!; [by etrans|done|done].
Qed.

Lemma resolve_all_pafs_spec fuel m ss log offs log' :
  resolve_all_pafs env fuel m ss log = Some (offs, log') -> unpublished log ->
  log `prefix_of` log' /\ unpublished log' /\ (length offs <= length ss)%nat /\
  (forall s off, (s, off) ∈ offs -> landed log' s off) /\ (length offs = length ss -> offs.*1 = ss).
Proof.
  revert log offs. induction ss as [|s ss IH]; intros log offs; cbn [resolve_all_pafs].
  { intros [= <- <-] Hu. split_and!; [done..| |done]. by intros ? ? ?%elem_of_nil. }
  intros Hr Hu. set (a := env_resolve env log s m) in *. set (log0 := log ++ [EResolve s a]) in *.
  assert (Hpre : log `prefix_of` log0) by (by apply prefix_app_r).
  assert (Hu0 : unpublished log0) by (by apply unpublished_app).
  assert (Hstep : exists r1 log1, match a with inl wr => Some (inl wr, log0) | inr _ => write_with_retry env fuel m s log0 end = Some (r1, log1) /\
    log0 `prefix_of` log1 /\ unpublished log1 /\ forall wr, r1 = inl wr -> landed log1 s (wr_offset wr)).
  { destruct a as [wr|e] eqn:Ea.
    - eexists _, _. split_and!; [done..|]. intros ? [= <-]. exists wr. split; [done|]. left. apply elem_of_app. right. by left.
    - destruct (write_with_retry env fuel m s log0) as [[r1 log1]|] eqn:E1; [|done]. eexists _, _. split; [done|].
      by eapply write_with_retry_spec. }
  destruct Hstep as (r1 & log1 & E1 & Hp1 & Hu1 & Hl1). rewrite E1 in Hr.
  destruct (resolve_all_pafs env fuel m ss log1) as [[offs1 log2]|] eqn:E2; [|done]. injection Hr as <- <-.
  destruct (IH _ _ E2 Hu1) as (Hp2 & Hu2 & Hlen & Hland & Hall).
  split_and!; [by do 2 (etrans; [done|])|done|..].
  - destruct (handle_paf_result r1); simpl; lia.
  - intros s' off. destruct r1 as [wr|e]; simpl; [|apply Hland].
    intros [[= -> ->]|Hin]%elem_of_cons; [|by apply Hland]. eapply landed_prefix; [done|]. by apply Hl1.
  - destruct r1 as [wr|e]; simpl; [|lia]. intros [= Heq]. f_equal. by apply Hall.
Qed.

(** Every vertex the message is forwarded to: a success, or a discard. *)
Lemma routed_elem m log vs os v :
  routed m log vs os -> (cancelled_count os = 0)%nat -> v ∈ vs -> should_forward (m_tags m) (to_conditions v) = true ->
  exists s, determine_target_stream hash m v = Some s /\ (s ∈ successes os \/ discarded log v s).
Proof.
  induction 1 as [|v0 vs os Hs Hr IH|v0 vs os s o Hs Ht Ho Hr IH]; intros Hc Hin Hf; [by apply elem_of_nil in Hin|..].
  - apply elem_of_cons in Hin as [->|Hin]; [congruence|]. by apply IH.
  - assert (Hc' : cancelled_count os = 0%nat) by (destruct o; [done..|]; cbn in Hc; lia).
    apply elem_of_cons in Hin as [->|Hin].
    + exists s. split; [done|]. destruct Ho as [->|[[-> ?]| ->]]; [left; by left|by right|done].
    + destruct (IH Hc' Hin Hf) as (s' & ? & [Hs'|?]); exists s'; (split; [done|]); [left|by right].
      destruct o; [by right|done..].
Qed.
End Facts.

(** * Termination *)

Section Termination.
Context (hash : string -> Z) (env : Env) (w : ISBWriterOrchestrator) (B : nat).

(** After [B] events the token is cancelled or the streams accept. *)
Definition settles_down : Prop :=
  forall log, (B <= length log)%nat ->
    env_cancelled env log = true \/
    (forall s m, env_async env log s m = None /\ exists wr, env_write env log s m = inl wr).
Context (Hsettle : settles_down).

Lemma write_to_stream_ends fuel m s strategy log :
  (B + 1 < fuel + length log)%nat -> (0 < fuel)%nat ->
  (fuel = 1%nat -> env_async env log s m = None) ->
  exists r, write_to_stream env fuel m s strategy log = Some r.
Proof.
  revert log. induction fuel as [|fuel IH]; intros log Hf H0 H1; [lia|]. cbn [write_to_stream].
  destruct (env_async env log s m) as [e|] eqn:Ea; [|eauto]. destruct (match e with WEBufferFull => _ | _ => _ end); [eauto|].
  destruct (env_cancelled env (log ++ [EAsync s (Some e)])) eqn:Ec; [eauto|].
  assert (fuel <> 0%nat) by (intros ->; by specialize (H1 eq_refl)).
  apply IH; [rewrite length_app; simpl; lia|lia|]. intros ->.
  destruct (Hsettle (log ++ [EAsync s (Some e)])) as [?|Ha]; [rewrite length_app; simpl; lia|congruence|apply Ha].
Qed.

Lemma write_with_retry_ends fuel m s log :
  (B + 1 < fuel + length log)%nat -> (0 < fuel)%nat ->
  (fuel = 1%nat -> exists wr, env_write env log s m = inl wr) ->
  exists r, write_with_retry env fuel m s log = Some r.
Proof.
  revert log. induction fuel as [|fuel IH]; intros log Hf H0 H1; [lia|]. cbn [write_with_retry].
  destruct (env_write env log s m) as [wr|e] eqn:Ea; [eauto|].
  destruct (env_cancelled env (log ++ [EWrite s (inr e)])) eqn:Ec; [eauto|].
  assert (fuel <> 0%nat) by (intros ->; by destruct (H1 eq_refl)).
  apply IH; [rewrite length_app; simpl; lia|lia|]. intros ->.
  destruct (Hsettle (log ++ [EWrite s (inr e)])) as [?|Ha]; [rewrite length_app; simpl; lia|congruence|apply Ha].
Qed.

Lemma route_and_write_ends fuel m vs log :
  (B + 1 < fuel)%nat -> exists r, route_and_write_message hash env w fuel m vs log = Some r.
Proof.
  intros Hf. revert log. induction vs as [|v vs IH]; intros log; cbn [route_and_write_message]; [eauto|].
  destruct (should_forward _ _); [|apply IH]. destruct (determine_target_stream _ _ _) as [s|]; [|eauto].
  case_decide; [|eauto].
  destruct (write_to_stream_ends fuel m s (buffer_full_strategy (writer_config v)) log) as [[o log1] ->]; [lia..|].
  destruct (IH log1) as [[r log2] ->]. eauto.
Qed.

Lemma resolve_all_ends fuel m ss log :
  (B + 1 < fuel)%nat -> exists r, resolve_all_pafs env fuel m ss log = Some r.
Proof.
  intros Hf. revert log. induction ss as [|s ss IH]; intros log; cbn [resolve_all_pafs]; [eauto|].
  set (a := env_resolve env log s m). set (log0 := log ++ [EResolve s a]).
  assert (Hstep : exists r, match a with inl wr => Some (inl wr, log0) | inr _ => write_with_retry env fuel m s log0 end = Some r).
  { destruct a; [eauto|]. apply write_with_retry_ends; lia. }
  destruct Hstep as [[r1 log1] ->]. destruct (IH log1) as [[offs log2] ->]. eauto.
Qed.
End Termination.

(** * Properties *)

(** C7: a message of the ISB writer is acknowledged only if it is marked to be dropped, or every
    vertex it is forwarded to has stored it in the stream its key selects, or has discarded it
    because that stream was full and the vertex is so configured. Watermarks are published for
    exactly the offsets stored, and only after all the writes of the message have succeeded.
    The task panics only if a stream or its writer is missing in the configuration. *)
Theorem isb_write_verdict (hash : string -> Z) (env : Env) (w : ISBWriterOrchestrator) (fuel : nat) (m : Message)
    (label : AckLabel) (log : list Event) :
  execute hash env w fuel m [] = Some (label, log) ->
  (label = LSuccess -> dropped m = true \/ nacked m = false /\
     forall v, v ∈ config w -> should_forward (m_tags m) (to_conditions v) = true ->
       exists s, determine_target_stream hash m v = Some s /\
         ((exists off, landed log s off /\ (has_watermark_handle w = true -> EPublish s off ∈ log)) \/ discarded log v s)) /\
  (forall s off, EPublish s off ∈ log -> label = LSuccess /\ landed log s off) /\
  (label = LDrop -> misconfigured hash w m).
Proof.
  unfold execute. destruct (dropped m) eqn:Ed; [intros [= <- <-]; split_and!; [auto|by intros ? ? ?%elem_of_nil|done]|].
  destruct (nacked m) eqn:En; [intros [= <- <-]; split_and!; [done|by intros ? ? ?%elem_of_nil|done]|].
  assert (Hu0 : unpublished []) by (by intros ? ? ?%elem_of_nil).
  destruct (route_and_write_message hash env w fuel m (config w) []) as [[r log1]|] eqn:E1; [|done].
  destruct (route_and_write_spec hash env w _ _ _ _ _ _ E1 Hu0 ltac:(done)) as (_ & Hu1 & Hr).
  assert (Hnone : forall l label, unpublished l -> forall s off, EPublish s off ∈ l -> label = LSuccess /\ landed l s off)
    by (intros l ? Hu s off ?; by destruct (Hu s off)).
  destruct r as [[]|os]; [intros [= <- <-]; split_and!; [done|auto|done]|].
  destruct (Nat.ltb_spec 0 (cancelled_count os)) as [?|Hc]; [intros [= <- <-]; split_and!; [done|auto|done]|].
  destruct (resolve_all_pafs env fuel m (successes os) log1) as [[offs log2]|] eqn:E2; [|done].
  destruct (resolve_all_pafs_spec env _ _ _ _ _ _ E2 Hu1) as (Hp2 & Hu2 & _ & Hland & Hall).
  destruct (Nat.eqb_spec (length offs) (length (successes os))) as [Heq|_]; simpl; intros [= <- <-]; [|split_and!; [done|auto|done]].
  assert (Hpre : log2 `prefix_of` publish_watermarks_for_offsets w offs log2)
    by (unfold publish_watermarks_for_offsets; case_match; [by apply prefix_app_r|done]).
  split_and!; [|..|done].
  - intros _. right. split; [done|]. intros v Hv Hf.
    destruct (routed_elem hash _ _ _ _ _ Hr ltac:(lia) Hv Hf) as (s & Hs & [Hin|[? Hd]]); exists s; (split; [done|]).
    + left. rewrite <- (Hall Heq) in Hin. apply list_elem_of_fmap in Hin as ([s' off] & -> & Hin). exists off.
      split; [by eapply landed_prefix, Hland|]. intros Hw. unfold publish_watermarks_for_offsets. rewrite Hw.
      apply elem_of_app. right. by apply (list_elem_of_fmap_2 (fun so => EPublish so.1 so.2)) in Hin.
    + right. split; [done|]. destruct Hpre as [k ->], Hp2 as [k2 ->]. rewrite !elem_of_app. auto.
  - intros s off Hin. split; [done|]. eapply landed_prefix; [done|]. unfold publish_watermarks_for_offsets in Hin.
    case_match; [|by destruct (Hu2 s off)]. apply elem_of_app in Hin as [?|Hin]; [by destruct (Hu2 s off)|].
    apply list_elem_of_fmap in Hin as ([s' off'] & [= -> ->] & Hin). by apply Hland.
Qed.

(** The task of a message terminates if from some point on the token is cancelled or the streams
    accept writes; the retries themselves have no bound. *)
Theorem isb_write_terminates (hash : string -> Z) (env : Env) (w : ISBWriterOrchestrator) (m : Message) (B : nat) :
  settles_down env B -> exists r, execute hash env w (S (S B)) m [] = Some r.
Proof.
  intros Hs. unfold execute. destruct (dropped m); [eauto|]. destruct (nacked m); [eauto|].
  destruct (route_and_write_ends hash env w B Hs (S (S B)) m (config w) [] ltac:(lia)) as [[r log] ->].
  destruct r as [|os]; [eauto|]. destruct (_ <? _)%nat; [eauto|].
  destruct (resolve_all_ends env B Hs (S (S B)) m (successes os) log ltac:(lia)) as [[offs log2] ->].
  destruct (negb _); eauto.
Qed.

(** * Witnesses *)

(** The first write is refused, the pending write of the second fails and is retried. *)
Definition ex_env : Env := mkEnv
  (fun log _ _ => if (length log =? 0)%nat then Some WEBufferFull else None)
  (fun log _ _ => inr (WEWriteFailed "lost"))
  (fun log _ _ => inl (mkWriteResult (OInt (mkIntOffset (Z.of_nat (length log)) 0)) false))
  (fun _ => false).
Definition ex_vertex (strategy : BufferFullStrategy) (c : option ForwardConditions) : ToVertexConfig :=
  mkToVertexConfig "out" 2 (mkBufferWriterConfig [mkStream "out-0" "out" 0; mkStream "out-1" "out" 1] strategy) c MapUDF false.
Definition ex_orchestrator : ISBWriterOrchestrator :=
  mkOrchestrator [ex_vertex RetryUntilSuccess None; ex_vertex DiscardLatest (Some (mkForwardConditions (mkTagConditions None ["x"])))]
    {["out-0"; "out-1"]} true.
Definition ex_msg : Message :=
  mkMessage Data ["k"] None "payload" (OInt (mkIntOffset 4 0)) 0 None (mkMessageID "v" "4-0" 0) ∅ None false None.
Definition ex_result : AckLabel * list Event :=
  default (LDrop, []) (execute (fun s => Z.of_nat (String.length s)) ex_env ex_orchestrator 5 ex_msg []).

Example ex_result_ok :
  ex_result = (LSuccess, let s := mkStream "out-1" "out" 1 in let off := OInt (mkIntOffset 3 0) in
    [EAsync s (Some WEBufferFull); EAsync s None; EResolve s (inr (WEWriteFailed "lost")); EWrite s (inl (mkWriteResult off false));
     EPublish s off]).
Proof. vm_compute. reflexivity. Qed.

Lemma isb_write_verdict_witness :
  let hash s := Z.of_nat (String.length s) in
  let (label, log) := ex_result in
  (label = LSuccess -> dropped ex_msg = true \/ nacked ex_msg = false /\
     forall v, v ∈ config ex_orchestrator -> should_forward (m_tags ex_msg) (to_conditions v) = true ->
       exists s, determine_target_stream hash ex_msg v = Some s /\
         ((exists off, landed log s off /\ (has_watermark_handle ex_orchestrator = true -> EPublish s off ∈ log)) \/ discarded log v s)) /\
  (forall s off, EPublish s off ∈ log -> label = LSuccess /\ landed log s off) /\
  (label = LDrop -> misconfigured hash ex_orchestrator ex_msg).
Proof.
  refine (isb_write_verdict (fun s => Z.of_nat (String.length s)) ex_env ex_orchestrator 5 ex_msg ex_result.1 ex_result.2 _).
  vm_compute. reflexivity.
Defined.

Lemma isb_write_terminates_witness :
  exists r, execute (fun s => Z.of_nat (String.length s)) ex_env ex_orchestrator 3 ex_msg [] = Some r.
Proof.
  apply (isb_write_terminates (fun s => Z.of_nat (String.length s)) ex_env ex_orchestrator ex_msg 1).
  intros log Hlog. right. intros s m. simpl. destruct log as [|e log]; [simpl in Hlog; lia|]. split; [done|eauto].
Defined.
