(* ===== verification/IsbReader.v ===== *)
(** The ISB reader (src/rust/numaflow-core/src/pipeline/isb/reader.rs): it fetches batches under a
    rate limit, tracks every message, hands it downstream, and a task per message waits for the
    verdict and passes it to the broker.

    The reader is a transition system: the loop fetches a batch, handles it a message at a time,
    and the ends of the tasks, the calls of the stages downstream and the readers of the other
    partitions on the shared tracker come in between in any order. The broker, the channel
    downstream and the watermark handle are external: their answers are arguments. Metrics,
    tracing and the marks of work in progress are left out. *)
From stdpp Require Import pretty.
From S2P Require Import Prelude Clock Message Tracker F32 Throttle.
Open Scope Z_scope.

Record ReaderConfig := mkReaderConfig {
  rd_reduce : bool;               (* the vertex is a reduce vertex *)
  rd_partition : Z;
  rd_batch_size : nat;
  rd_max_ack_pending : nat;
  rd_vertex_name : string
}.

(** The size of a batch, and the permits taken for it. *)
Definition read_batch_size (c : ReaderConfig) : nat := Nat.min (rd_batch_size c) (rd_max_ack_pending c).

Inductive BrokerCall := BAck (off : Offset) | BNack (off : Offset) (o : option NackOptions).
Inductive BrokerError := BOffsetNotFound | BOther.
#[global] Instance BrokerError_eq_dec : EqDecision BrokerError.
Proof. solve_decision. Defined.

(** Where the loop of [streaming_read] is. *)
Inductive Loop :=
  | Running                                            (* about to read *)
  | Processing (batch : list Message) (permits : nat)  (* in [process_message_batch] *)
  | Draining                                           (* in [cleanup_on_shutdown] *)
  | Finished (r : Result unit)
  | Panicked.

Record ReaderState := mkReaderState {
  rd_loop : Loop;
  rd_limiter : option RateLimit;
  rd_tracker : Tracker;
  rd_tasks : list Offset;         (* the tasks whose offset is tracked; each holds a permit *)
  rd_called : list Offset;        (* those that have passed their verdict to the broker *)
  rd_leaving : nat;               (* the tasks that have deleted their offset and still hold a permit *)
  rd_sent : list Message;         (* put on the channel *)
  rd_calls : list BrokerCall
}.

Definition at_loop (st : ReaderState) (l : Loop) : ReaderState :=
  mkReaderState l (rd_limiter st) (rd_tracker st) (rd_tasks st) (rd_called st) (rd_leaving st) (rd_sent st) (rd_calls st).
Definition with_limiter (st : ReaderState) (rl : option RateLimit) : ReaderState :=
  mkReaderState (rd_loop st) rl (rd_tracker st) (rd_tasks st) (rd_called st) (rd_leaving st) (rd_sent st) (rd_calls st).
Definition with_tracker (st : ReaderState) (t : Tracker) : ReaderState :=
  mkReaderState (rd_loop st) (rd_limiter st) t (rd_tasks st) (rd_called st) (rd_leaving st) (rd_sent st) (rd_calls st).
Definition with_task (st : ReaderState) (off : Offset) : ReaderState :=
  mkReaderState (rd_loop st) (rd_limiter st) (rd_tracker st) (rd_tasks st ++ [off]) (rd_called st) (rd_leaving st)
    (rd_sent st) (rd_calls st).
Definition with_sent (st : ReaderState) (m : Message) : ReaderState :=
  mkReaderState (rd_loop st) (rd_limiter st) (rd_tracker st) (rd_tasks st) (rd_called st) (rd_leaving st) (rd_sent st ++ [m]) (rd_calls st).
Definition with_calls (st : ReaderState) (l : list BrokerCall) : ReaderState :=
  mkReaderState (rd_loop st) (rd_limiter st) (rd_tracker st) (rd_tasks st) (rd_called st) (rd_leaving st) (rd_sent st)
    (rd_calls st ++ l).

(** * Rate limiting *)

(** [cur] and [later] are the epochs at which tokens are taken and put back, [wakeups] those of
    the wait for tokens; [fetched n] is what the broker returns for at most [n] messages, [None]
    an error. *)
Definition apply_rate_limiting_and_fetch (limiter : option RateLimit) (cur later : Z) (wakeups : list Z) (batch_size : nat)
    (fetched : nat -> option (list Message)) : option RateLimit * list Message :=
  let acquired := match limiter with
    | Some rl => let (rl', n) := rate_acquire_n rl (Some (Z.of_nat batch_size)) cur (Some wakeups) in
                 (Some rl', Nat.min (Z.to_nat n) batch_size)
    | None => (None, batch_size)
    end in
  let effective_batch_size := acquired.2 in
  let batch := if (effective_batch_size =? 0)%nat then [] else default [] (fetched effective_batch_size) in
  ((fun rl => attempt_deposit_unused rl (Z.of_nat (batch_size - length batch)) later) <$> acquired.1, batch).

(** * Reading *)

(** What the rest of the system answers while a batch is handled. *)
Record TurnEnv := mkTurnEnv {
  te_fetch_watermark : option (Offset -> DateTime);    (* the watermark handle, if any *)
  te_idle_wmb : option (Z * Z);                        (* its idle entry: offset and watermark *)
  te_ack : Offset -> option Error;                     (* the acknowledgement of a control message *)
  te_send : Message -> bool                            (* the channel takes the message *)
}.

Section Turn.
Context `{Chrono} (c : ReaderConfig) (e : TurnEnv).

(** The result [None] is a panic. *)
Definition create_and_write_wmb_message_for_reduce (offset watermark : Z) (st : ReaderState) : option (Result unit) * ReaderState :=
  if rd_reduce c then
    match from_timestamp_millis watermark with
    | None => (None, st)
    | Some wm =>
        let msg := mkMessage MWMB [] None "" (OInt (mkIntOffset offset (rd_partition c))) wm (Some wm)
          (mkMessageID (rd_vertex_name c) (pretty offset) 0) ∅ None false None in
        if te_send e msg then (Some (Ok tt), with_sent st msg)
        else (Some (Err (EOther "Failed to send wmb message to channel")), st)
    end
  else (Some (Ok tt), st).

Definition handle_idle_watermarks (batch_is_empty : bool) (st : ReaderState) : option (Result unit) * ReaderState :=
  let idle o := with_tracker st (set_idle_offset (rd_tracker st) (rd_partition c) o) in
  if batch_is_empty then
    match te_fetch_watermark e with
    | None => (Some (Ok tt), st)
    | Some _ =>
        match te_idle_wmb e with
        | Some (offset, watermark) => create_and_write_wmb_message_for_reduce offset watermark (idle (Some offset))
        | None => (Some (Ok tt), idle None)
        end
    end
  else (Some (Ok tt), idle None).

Definition set_watermark_of (m : Message) : Message :=
  match te_fetch_watermark e with
  | None => m
  | Some fetch =>
      mkMessage (m_typ m) (m_keys m) (m_tags m) (m_value m) (m_offset m) (m_event_time m) (Some (fetch (m_offset m))) (m_id m)
        (m_headers m) (m_metadata m) (m_is_late m) (m_nack_options m)
  end.

(** How an iteration of the loop over the batch ends. *)
Inductive Flow := Continue | Break | Return (err : Error).

(** An iteration of the loop of [process_message_batch]; [permits] are those not yet given to a
    task, [None] is a panic. *)
Definition process_message (m : Message) (permits : nat) (st : ReaderState) : option (Flow * nat * ReaderState) :=
  match m_typ m with
  | MWMB =>
      let st := with_calls st [BAck (m_offset m)] in
      match te_ack e (m_offset m) with
      | Some err => Some (Return err, permits, st)
      | None => Some (Continue, permits, st)
      end
  | Data =>
      let m := set_watermark_of m in
      let? (t, r) := tracker_insert (rd_tracker st) m in
      let st := with_tracker st t in
      match r with
      | Err (EDuplicateInflight _) => Some (Continue, permits, st)
      | Err err => Some (Return err, permits, st)
      | Ok _ =>
          match permits with
          | O => None
          | S permits =>
              let st := with_task st (m_offset m) in
              if te_send e m then Some (Continue, permits, with_sent st m) else Some (Break, permits, st)
          end
      end
  end.
End Turn.

(** The loop after an iteration; the permits left are released at the end of the batch. *)
Definition next_loop (f : Flow) (rest : list Message) (permits : nat) : Loop :=
  match f, rest with
  | Return err, _ => Finished (Err err)
  | Break, _ | Continue, [] => Running
  | Continue, _ => Processing rest permits
  end.

(** * The end of a task *)

(** Also [nak_with_retry], which has the same loop. Call the broker until it succeeds, the offset is unknown, or the token is cancelled: the
    error, if any, and the number of calls. *)
Fixpoint ack_with_retry (fuel : nat) (broker : nat -> option BrokerError) (cancelled : nat -> bool) (i : nat) :
    option (option BrokerError * nat) :=
  match fuel with
  | O => None
  | S fuel =>
      match broker i with
      | None => Some (None, S i)
      | Some err =>
          if cancelled i then Some (Some err, S i)
          else match err with
               | BOffsetNotFound => Some (Some err, S i)
               | BOther => ack_with_retry fuel broker cancelled (S i)
               end
      end
  end.

Definition call_of (off : Offset) (v : ReadAck) : BrokerCall :=
  match v with Ack => BAck off | Nak o => BNack off o end.

(** The branch of [wip_loop] on the verdict, in the steps others can see. First the verdict goes to
    the broker: [calls] is the number of calls made. *)
Definition wip_call (off : Offset) (v : ReadAck) (calls : nat) (st : ReaderState) : ReaderState :=
  mkReaderState (rd_loop st) (rd_limiter st) (rd_tracker st) (rd_tasks st) (off :: rd_called st) (rd_leaving st)
    (rd_sent st) (rd_calls st ++ repeat (call_of off v) calls).
(** Then the offset leaves the tracker, whatever the broker said. *)
Definition wip_end (off : Offset) (st : ReaderState) : ReaderState :=
  mkReaderState (rd_loop st) (rd_limiter st) (tracker_delete (rd_tracker st) off) (list_difference (rd_tasks st) [off])
    (list_difference (rd_called st) [off]) (S (rd_leaving st)) (rd_sent st) (rd_calls st).
(** The permit goes with the parameters of the task. *)
Definition wip_release (st : ReaderState) : ReaderState :=
  mkReaderState (rd_loop st) (rd_limiter st) (rd_tracker st) (rd_tasks st) (rd_called st) (pred (rd_leaving st))
    (rd_sent st) (rd_calls st).

(** The result of the clean-up once every permit is free; [shutdown] says whether the limiter
    shut down. *)
Definition cleanup_on_shutdown (limiter : option RateLimit) (shutdown : bool) : Result unit :=
  match limiter with
  | Some _ => if shutdown then Ok tt else Err (EOther "Failed to shutdown rate limiter")
  | None => Ok tt
  end.

(** * Runs *)

(** The offsets of this reader. *)
Definition mine (c : ReaderConfig) (off : Offset) : Prop := is_int off = true /\ partition_idx off = rd_partition c.

(** What others do to the tracker: the stages downstream record responses, the readers of the
    other partitions insert and delete there. *)
Definition others (c : ReaderConfig) (o : TOp) : Prop :=
  match o with
  | TInsert m => is_int (m_offset m) = true /\ partition_idx (m_offset m) <> rd_partition c
  | TDelete off => is_int off = true /\ partition_idx off <> rd_partition c
  | TUpdate off _ | TRefresh off | TAppend off _ => is_int off = true
  | TIdle _ _ => True
  end.

(** The broker returns at most the messages asked for, of the reader's partition. *)
Definition broker_ok (c : ReaderConfig) (fetched : nat -> option (list Message)) : Prop :=
  forall n batch, fetched n = Some batch -> (length batch <= n)%nat /\ Forall (fun m => mine c (m_offset m)) batch.

(** The permits in use. *)
Definition permits_held (st : ReaderState) : nat :=
  length (rd_tasks st) + rd_leaving st + match rd_loop st with Processing _ permits => permits | _ => 0%nat end.

(** Where the loop is after the handling of the idle state. *)
Definition after_idle (c : ReaderConfig) (r : option (Result unit)) (batch : list Message) : Loop :=
  match r with
  | None => Panicked
  | Some (Err err) => Finished (Err err)
  | Some (Ok _) => next_loop Continue batch (read_batch_size c)
  end.

Inductive rstep `{Chrono} (c : ReaderConfig) : ReaderState -> ReaderState -> Prop :=
  | rs_fetch st e cur later wakeups fetched rl batch r st' :
      rd_loop st = Running -> (permits_held st + read_batch_size c <= rd_max_ack_pending c)%nat ->
      broker_ok c fetched ->
      apply_rate_limiting_and_fetch (rd_limiter st) cur later wakeups (read_batch_size c) fetched = (rl, batch) ->
      handle_idle_watermarks c e (match batch with [] => true | _ => false end) (with_limiter st rl) = (r, st') ->
      rstep c st (at_loop st' (after_idle c r batch))
  | rs_message st e m rest permits f permits' st' :
      rd_loop st = Processing (m :: rest) permits ->
      process_message e m permits st = Some (f, permits', st') ->
      rstep c st (at_loop st' (next_loop f rest permits'))
  | rs_message_panics st e m rest permits :
      rd_loop st = Processing (m :: rest) permits -> process_message e m permits st = None ->
      rstep c st (at_loop st Panicked)
  | rs_call st off v fuel broker cancelled res calls :
      off ∈ rd_tasks st -> off ∉ rd_called st -> ack_with_retry fuel broker cancelled 0 = Some (res, calls) ->
      rstep c st (wip_call off v calls st)
  | rs_end st off : off ∈ rd_called st -> rstep c st (wip_end off st)
  | rs_release st : (0 < rd_leaving st)%nat -> rstep c st (wip_release st)
  | rs_others st o t r :
      others c o -> texec (rd_tracker st) o = Some (t, r) -> rstep c st (with_tracker st t)
  | rs_cancel st : rd_loop st = Running -> rstep c st (at_loop st Draining)
  | rs_drained st shutdown :
      rd_loop st = Draining -> permits_held st = 0%nat ->
      rstep c st (at_loop st (Finished (cleanup_on_shutdown (rd_limiter st) shutdown))).

Definition reader_new (limiter : option RateLimit) (handler : bool) : ReaderState :=
  mkReaderState Running limiter (tracker_new handler) [] [] 0 [] [].
Definition reader_reachable `{Chrono} (c : ReaderConfig) (limiter : option RateLimit) (handler : bool) (st : ReaderState) : Prop :=
  rtc (rstep c) (reader_new limiter handler) st.

(** * The invariant *)

Definition int_only : Z -> bool := fun _ => true.

(** The offsets of the reader's partition in the tracker are those of its tasks. *)
Definition tracks (c : ReaderConfig) (t : Tracker) (tasks : list Offset) : Prop :=
  (exists a, trefines int_only t a /\ forall off, mine c off -> is_Some (inflight a !! off) <-> off ∈ tasks) /\
  Forall (mine c) tasks /\ NoDup tasks.

Lemma tracks_tlookup c t tasks off : tracks c t tasks -> mine c off -> is_Some (tlookup t off) <-> off ∈ tasks.
Proof.
  intros ((a & (_ & Hl & _) & Ha) & _) Hm. rewrite <- (Ha off Hm). by rewrite (Hl off (proj1 Hm)).
Qed.

Lemma tracks_insert c t tasks m :
  tracks c t tasks -> mine c (m_offset m) ->
  exists t' r, tracker_insert t m = Some (t', r) /\
    match r with
    | Ok _ => tracks c t' (tasks ++ [m_offset m]) /\ m_offset m ∉ tasks
    | Err _ => tracks c t' tasks
    end.
Proof.
  intros ((a & Hr & Ha) & Hf & Hd) Hm.
  pose proof (trefines_insert int_only t a m Hr (proj1 Hm)) as Hi. cbn [spec_exec] in Hi.
  destruct (spec_entry (serving_callback_handler t) m) as [en|err].
  - destruct (inflight a !! m_offset m) eqn:El.
    + destruct (m_offset m) as [io|] eqn:Eo; [|by destruct Hm]. destruct (offset_to_string _) eqn:Es; [|by destruct io].
      destruct (tracker_insert t m) as [[t' r]|]; [|done]. destruct Hi as (Hi & -> & _).
      eexists _, _. split; [done|]. by split; [exists a|].
    + destruct (tracker_insert t m) as [[t' r]|]; [|done]. destruct Hi as (Hi & -> & _).
      eexists _, _. split; [done|]. assert (Hni : m_offset m ∉ tasks).
      { rewrite <- (Ha _ Hm), El. by intros [? [=]]. }
      split; [|done]. split; [|split].
      * eexists. split; [exact Hi|]. cbn [inflight]. intros off Ho. rewrite elem_of_app, list_elem_of_singleton.
        destruct (decide (off = m_offset m)) as [->|Hne]; [rewrite lookup_insert_eq; naive_solver|].
        rewrite lookup_insert_ne by done. rewrite (Ha off Ho). naive_solver.
      * apply Forall_app. split; [done|]. by apply Forall_singleton.
      * apply NoDup_app. split; [done|]. split; [|apply NoDup_singleton].
        intros x Hx ->%list_elem_of_singleton. done.
  - destruct (tracker_insert t m) as [[t' r]|]; [|done]. destruct Hi as (Hi & -> & _).
    eexists _, _. split; [done|]. by split; [exists a|].
Qed.

Lemma tracks_delete c t tasks off :
  tracks c t tasks -> off ∈ tasks -> tracks c (tracker_delete t off) (list_difference tasks [off]).
Proof.
  intros ((a & Hr & Ha) & Hf & Hd) Hin. assert (Hm : mine c off) by by apply (proj1 (Forall_forall _ _) Hf).
  pose proof (trefines_delete int_only t a off Hr (proj1 Hm)) as Hdel. cbn [spec_exec] in Hdel.
  destruct (proj2 (Ha off Hm) Hin) as [en El]. rewrite El in Hdel. split; [|split].
  - eexists. split; [exact Hdel|]. cbn [inflight]. intros x Hx. rewrite list_elem_of_difference, list_elem_of_singleton.
    destruct (decide (x = off)) as [->|Hne].
    + rewrite lookup_delete_eq. split; [by intros [? [=]]|naive_solver].
    + rewrite lookup_delete_ne by done. rewrite (Ha x Hx). naive_solver.
  - apply Forall_forall. intros x [Hx _]%list_elem_of_difference. by apply (proj1 (Forall_forall _ _) Hf).
  - by apply NoDup_list_difference.
Qed.

(** The entries of the reader's partition stay as they are, up to their responses. *)
Lemma spec_exec_others c h a o a' r off :
  others c o -> mine c off -> spec_exec h a o = Some (a', r) ->
  is_Some (inflight a' !! off) <-> is_Some (inflight a !! off).
Proof.
  intros Ho [_ Hp]. destruct o as [m|x rs|x|x tags|x|part i]; simpl in Ho |- *; [|intros [= <- <-]; try apply spec_respond_dom; try done..].
  - destruct Ho as [_ Ho]. repeat case_match; try done; intros [= <- <-]; try done. cbn [inflight].
    rewrite lookup_insert_ne by congruence. done.
  - destruct Ho as [_ Ho]. case_match; [|done]. cbn [inflight]. rewrite lookup_delete_ne by congruence. done.
Qed.

Lemma tracks_others c t tasks o t' r :
  tracks c t tasks -> others c o -> texec t o = Some (t', r) -> tracks c t' tasks.
Proof.
  intros ((a & Hr & Ha) & Hf & Hd) Ho Ht.
  assert (Hok : Tracker.op_ok int_only o) by (destruct o; naive_solver).
  pose proof (texec_refines int_only t a o Hr Hok) as Hs. unfold step_sim in Hs. rewrite Ht in Hs.
  destruct (spec_exec _ a o) as [[a' r']|] eqn:Es; [|done]. destruct Hs as (Hr' & _ & _).
  split; [|done]. exists a'. split; [done|]. intros off Hm. rewrite <- (Ha off Hm). by eapply spec_exec_others.
Qed.

Lemma tracks_idle c t tasks part o : tracks c t tasks -> tracks c (set_idle_offset t part o) tasks.
Proof. intros Ht. by eapply (tracks_others c t tasks (TIdle part o)). Qed.

(** The copies of the message at [off] sent downstream, and the calls on it. *)
Definition is_data (off : Offset) (m : Message) : bool :=
  match m_typ m with Data => bool_decide (m_offset m = off) | MWMB => false end.
Definition sends (off : Offset) (l : list Message) : nat := length (filter (fun m => is_data off m = true) l).
Definition is_call (off : Offset) (b : BrokerCall) : bool :=
  match b with BAck o | BNack o _ => bool_decide (o = off) end.
Definition calls_on (off : Offset) (l : list BrokerCall) : nat := length (filter (fun b => is_call off b = true) l).

Lemma sends_app off l l' : sends off (l ++ l') = (sends off l + sends off l')%nat.
Proof. unfold sends. by rewrite filter_app, length_app. Qed.
Lemma calls_on_app off l l' : calls_on off (l ++ l') = (calls_on off l + calls_on off l')%nat.
Proof. unfold calls_on. by rewrite filter_app, length_app. Qed.
Lemma sends_one off m : sends off [m] = if is_data off m then 1%nat else 0%nat.
Proof. unfold sends. rewrite filter_cons. by destruct (is_data off m). Qed.
Lemma calls_on_repeat off x v n : (0 < n)%nat -> x = off -> (0 < calls_on off (repeat (call_of x v) n))%nat.
Proof.
  intros Hn ->. destruct n as [|n]; [lia|]. unfold calls_on. cbn [repeat]. rewrite filter_cons.
  destruct v; cbn [call_of is_call]; rewrite bool_decide_true by done; simpl; lia.
Qed.

Lemma ack_with_retry_calls fuel broker cancelled i r n :
  ack_with_retry fuel broker cancelled i = Some (r, n) -> (i < n)%nat.
Proof.
  revert i. induction fuel as [|fuel IH]; intros i; cbn [ack_with_retry]; [done|].
  repeat case_match; intros Hn; simplify_eq; try lia. apply IH in Hn. lia.
Qed.

(** The task of the offset has not called the broker yet: one, or none. *)
Definition uncalled (off : Offset) (tasks called : list Offset) : nat :=
  if decide (off ∈ tasks /\ off ∉ called) then 1%nat else 0%nat.

Record reader_inv (c : ReaderConfig) (st : ReaderState) : Prop := mkReaderInv {
  ri_tracks : tracks c (rd_tracker st) (rd_tasks st);
  ri_permits : (permits_held st <= rd_max_ack_pending c)%nat;
  ri_batch : match rd_loop st with
             | Processing batch permits => (length batch <= permits)%nat /\ Forall (fun m => mine c (m_offset m)) batch
             | _ => True
             end;
  ri_called : rd_called st ⊆ rd_tasks st;
  ri_sends : forall off, (sends off (rd_sent st) <= calls_on off (rd_calls st) + uncalled off (rd_tasks st) (rd_called st))%nat;
  ri_finished : rd_loop st = Finished (Ok tt) -> rd_tasks st = []
}.

Lemma fetch_length c limiter cur later wakeups fetched rl batch :
  broker_ok c fetched ->
  apply_rate_limiting_and_fetch limiter cur later wakeups (read_batch_size c) fetched = (rl, batch) ->
  (length batch <= read_batch_size c)%nat /\ Forall (fun m => mine c (m_offset m)) batch.
Proof.
  intros Hb. unfold apply_rate_limiting_and_fetch. set (acq := match limiter with Some _ => _ | None => _ end).
  assert (Hacq : (acq.2 <= read_batch_size c)%nat).
  { unfold acq. destruct limiter as [s|]; [|done]. destruct (rate_acquire_n _ _ _ _). simpl. lia. }
  intros [= _ <-]. destruct (_ =? 0)%nat; [by split; [simpl; lia|constructor]|].
  destruct (fetched acq.2) as [l|] eqn:Ef; [|by split; [simpl; lia|constructor]].
  apply Hb in Ef as [Hl Hf]. simpl. split; [lia|done].
Qed.

(** The fields of an updated state. *)
Ltac reader_simpl :=
  cbn [at_loop with_limiter with_tracker with_task with_sent with_calls wip_call wip_end wip_release
       rd_loop rd_limiter rd_tracker rd_tasks rd_called rd_leaving rd_sent rd_calls].

Section Steps.
Context `{Chrono} (c : ReaderConfig).

Lemma set_watermark_offset e m : m_offset (set_watermark_of e m) = m_offset m.
Proof. unfold set_watermark_of. by destruct (te_fetch_watermark e). Qed.

Lemma set_watermark_typ e m : m_typ (set_watermark_of e m) = m_typ m.
Proof. unfold set_watermark_of. by destruct (te_fetch_watermark e). Qed.

(** Handling the idle state of the partition changes neither tasks nor calls, and sends control
    messages only. *)
Lemma handle_idle_inv e b st r st' :
  handle_idle_watermarks c e b st = (r, st') -> tracks c (rd_tracker st) (rd_tasks st) ->
  tracks c (rd_tracker st') (rd_tasks st') /\ rd_tasks st' = rd_tasks st /\ rd_called st' = rd_called st /\
  rd_leaving st' = rd_leaving st /\ rd_calls st' = rd_calls st /\
  forall off, sends off (rd_sent st') = sends off (rd_sent st).
Proof.
  unfold handle_idle_watermarks, create_and_write_wmb_message_for_reduce. intros Hh Ht.
  repeat case_match; simplify_eq; reader_simpl; split_and!; try done; try by apply tracks_idle.
  all: intros off; by rewrite sends_app, sends_one, Nat.add_0_r.
Qed.

(** It panics exactly on an empty batch of a reduce vertex whose idle watermark is no time. *)
Lemma handle_idle_panics e b st :
  fst (handle_idle_watermarks c e b st) = None <->
  b = true /\ rd_reduce c = true /\ is_Some (te_fetch_watermark e) /\
  exists offset watermark, te_idle_wmb e = Some (offset, watermark) /\ from_timestamp_millis watermark = None.
Proof.
  unfold handle_idle_watermarks, create_and_write_wmb_message_for_reduce.
  destruct b, (te_fetch_watermark e) as [fw|], (te_idle_wmb e) as [[o w]|]; cbn [fst]; try naive_solver.
  destruct (rd_reduce c), (from_timestamp_millis w) as [t|] eqn:Ew; try (destruct (te_send e _)); naive_solver.
Qed.

Lemma permits_held_at l tasks st :
  rd_tasks st = tasks ->
  permits_held (at_loop st l) = (length tasks + rd_leaving st + match l with Processing _ permits => permits | _ => 0 end)%nat.
Proof. by intros <-. Qed.

(** An iteration never panics and keeps the invariant. *)
Lemma process_message_inv e m rest permits st :
  reader_inv c st -> rd_loop st = Processing (m :: rest) permits ->
  exists f permits' st', process_message e m permits st = Some (f, permits', st') /\
    reader_inv c (at_loop st' (next_loop f rest permits')).
Proof.
  intros [Ht Hp Hb Hc Hs Hf] El. rewrite El in Hb. destruct Hb as [Hlen [Hm Hrest]%Forall_cons].
  unfold permits_held in Hp. rewrite El in Hp. cbn [length] in Hlen.
  assert (Hmk : forall f n st', (f = Continue -> length rest <= n)%nat -> tracks c (rd_tracker st') (rd_tasks st') ->
    (length (rd_tasks st') + rd_leaving st' + n <= rd_max_ack_pending c)%nat -> rd_called st' ⊆ rd_tasks st' ->
    (forall off, sends off (rd_sent st') <= calls_on off (rd_calls st') + uncalled off (rd_tasks st') (rd_called st'))%nat ->
    reader_inv c (at_loop st' (next_loop f rest n))).
  { intros f n st' Hn Ht' Hp' Hc' Hs'. split; [done| |destruct f, rest; naive_solver|done|done|by destruct f, rest].
    rewrite (permits_held_at _ (rd_tasks st')) by done. destruct f, rest; cbn; lia. }
  unfold process_message. destruct (m_typ m) eqn:Etyp.
  - destruct (tracks_insert c (rd_tracker st) (rd_tasks st) (set_watermark_of e m) Ht) as (t & r & -> & Hr).
    { by rewrite set_watermark_offset. }
    rewrite !set_watermark_offset in Hr. cbn [mbind option_bind]. destruct r as [[]|err].
    + destruct permits as [|permits]; [lia|]. destruct Hr as [Ht' Hni]. rewrite set_watermark_offset.
      assert (Htasks : forall off, uncalled off (rd_tasks st ++ [m_offset m]) (rd_called st) =
        (uncalled off (rd_tasks st) (rd_called st) + if decide (off = m_offset m) then 1 else 0)%nat).
      { intros off. unfold uncalled. repeat case_decide; try lia; subst; set_solver. }
      assert (Hc' : rd_called st ⊆ rd_tasks st ++ [m_offset m]) by set_solver.
      destruct (te_send e _); eexists _, _, _; (split; [done|]); apply Hmk; reader_simpl; try done; try lia;
        try (rewrite length_app; cbn; lia).
      * intros off. rewrite sends_app, sends_one, Htasks. unfold is_data.
        rewrite set_watermark_offset, set_watermark_typ, Etyp. specialize (Hs off).
        case_bool_decide; case_decide; try lia; congruence.
      * intros off. rewrite Htasks. specialize (Hs off). lia.
    + destruct err; eexists _, _, _; (split; [done|]); apply Hmk; reader_simpl; try done; try lia.
  - destruct (te_ack e _); eexists _, _, _; (split; [done|]); apply Hmk; reader_simpl; try done; try lia.
    all: intros off; rewrite calls_on_app; specialize (Hs off); lia.
Qed.

Lemma wip_call_inv st off v n :
  reader_inv c st -> off ∈ rd_tasks st -> (0 < n)%nat -> reader_inv c (wip_call off v n st).
Proof.
  intros [Ht Hp Hb Hc Hs Hf] Hin Hn. split; reader_simpl; try done; [set_solver|].
  intros x. rewrite calls_on_app. specialize (Hs x). pose proof (calls_on_repeat x off v n Hn) as Hx.
  unfold uncalled in *. destruct (decide (x = off)) as [->|Hne]; [specialize (Hx eq_refl); repeat case_decide; lia|].
  repeat case_decide; try lia. set_solver.
Qed.

Lemma wip_end_inv st off : reader_inv c st -> off ∈ rd_called st -> reader_inv c (wip_end off st).
Proof.
  intros [Ht Hp Hb Hc Hs Hf] Hin. assert (Hint : off ∈ rd_tasks st) by by apply Hc.
  assert (Hle : (S (length (list_difference (rd_tasks st) [off])) <= length (rd_tasks st))%nat).
  { apply (submseteq_length (off :: list_difference (rd_tasks st) [off])), NoDup_submseteq.
    - constructor; [|by apply NoDup_list_difference, Ht]. rewrite list_elem_of_difference, list_elem_of_singleton. naive_solver.
    - intros x. rewrite elem_of_cons, list_elem_of_difference. naive_solver. }
  split; reader_simpl.
  - by apply tracks_delete.
  - unfold permits_held in *. reader_simpl. lia.
  - done.
  - intros x. rewrite !list_elem_of_difference. naive_solver.
  - intros x. specialize (Hs x). unfold uncalled in *.
    case_decide as H1; case_decide as H2; try lia. exfalso. apply H2. rewrite !list_elem_of_difference, list_elem_of_singleton. naive_solver.
  - intros Hl. rewrite (Hf Hl) in Hint. by apply not_elem_of_nil in Hint.
Qed.

Lemma rstep_inv st st' : rstep c st st' -> reader_inv c st -> reader_inv c st'.
Proof.
  intros Hstep Hi. destruct Hstep as [st e cur later wakeups fetched rl batch r st' El Hp Hb Hfetch Hidle
    |st e m rest permits f permits' st' El Hm|st e m rest permits El Hm|st off v fuel broker cancelled res n Hin Hnc Hack
    |st off Hin|st Hl|st o t r Ho Ht|st El|st sd El Hp].
  - destruct Hi as [Ht Hp' Hb' Hc Hs Hf]. destruct (fetch_length _ _ _ _ _ _ _ _ Hb Hfetch) as [Hlen Hmine].
    apply handle_idle_inv in Hidle as (Ht' & Etasks & Ecalled & Eleaving & Ecalls & Esent); [|done].
    revert Etasks Ecalled Eleaving Ecalls Esent. reader_simpl. intros Etasks Ecalled Eleaving Ecalls Esent.
    unfold permits_held in Hp. rewrite El in Hp. split.
    + done.
    + rewrite (permits_held_at _ _ _ Etasks), Eleaving. destruct r as [[]|], batch; cbn; lia.
    + destruct r as [[]|], batch; reader_simpl; cbn [after_idle next_loop]; done.
    + reader_simpl. by rewrite Ecalled, Etasks.
    + intros off. reader_simpl. by rewrite Esent, Ecalls, Etasks, Ecalled.
    + by destruct r as [[]|], batch.
  - destruct (process_message_inv e m rest permits st Hi El) as (f1 & p1 & st1 & Hpm & Hinv). by simplify_eq.
  - destruct (process_message_inv e m rest permits st Hi El) as (f1 & p1 & st1 & Hpm & Hinv). by simplify_eq.
  - apply wip_call_inv; try done. by apply ack_with_retry_calls in Hack.
  - by apply wip_end_inv.
  - destruct Hi as [? Hp ? ? ? ?]. split; try done. unfold permits_held in *. reader_simpl. lia.
  - destruct Hi as [Hi ? ? ? ? ?]. split; try done. reader_simpl. by eapply tracks_others.
  - destruct Hi as [? Hp ? ? ? ?]. split; try done. unfold permits_held in *. reader_simpl. rewrite El in Hp. lia.
  - destruct Hi as [? Hp' ? ? ? ?]. unfold permits_held in Hp. rewrite El in Hp.
    split; try done; [unfold permits_held in *; reader_simpl; lia|].
    intros _. apply nil_length_inv. reader_simpl. lia.
Qed.

Lemma reader_new_inv limiter handler : reader_inv c (reader_new limiter handler).
Proof.
  split; try done.
  - split; [|by split; constructor]. eexists. split; [apply trefines_new|]. intros off _. cbn [inflight].
    rewrite lookup_empty. split; [by intros [? [=]]|by intros ?%not_elem_of_nil].
  - unfold permits_held. cbn. lia.
Qed.

Lemma reader_reachable_inv limiter handler st : reader_reachable c limiter handler st -> reader_inv c st.
Proof.
  intros Hr. pose proof (reader_new_inv limiter handler) as Hi. unfold reader_reachable in Hr.
  induction Hr as [|? ? ? Hs _ IH]; [done|]. by apply IH, (rstep_inv _ _ Hs).
Qed.

End Steps.

(** The retry ends no later than the call that succeeds, finds the offset unknown or sees the
    token cancelled; every call before the last one failed. *)
Lemma ack_with_retry_ends fuel broker cancelled i k :
  (i <= k < i + fuel)%nat -> broker k <> Some BOther \/ cancelled k = true ->
  exists n, ack_with_retry fuel broker cancelled i = Some (broker n, S n) /\ (i <= n <= k)%nat /\
    (forall j, (i <= j < n)%nat -> broker j = Some BOther /\ cancelled j = false) /\
    (broker n <> Some BOther \/ cancelled n = true).
Proof.
  revert i. induction fuel as [|fuel IH]; intros i Hk Hstop; [lia|]. cbn [ack_with_retry].
  destruct (decide (broker i = Some BOther /\ cancelled i = false)) as [[Eb Ec]|Hno].
  - rewrite Eb, Ec. assert (i <> k) by (intros ->; destruct Hstop; congruence).
    destruct (IH (S i) ltac:(lia) Hstop) as (n & -> & Hn & Hj & Hend). exists n. split_and!; [done|lia..| |done].
    intros j Hj'. destruct (decide (j = i)) as [->|]; [done|]. apply Hj. lia.
  - exists i. split_and!; try lia.
    + destruct (broker i) as [[]|], (cancelled i); try done. by destruct Hno.
    + destruct (cancelled i); [by right|]. left. by intros ?; apply Hno.
Qed.

(** C8: in every state a reader reaches, whatever the broker, the channel, the stages downstream
    and the readers of the other partitions do in between: an offset of its partition is in the
    shared tracker exactly while one task of it runs; tasks and permits held never exceed
    [max_ack_pending]; a message is sent downstream a second time only after the task of the first
    copy has called the broker, so a redelivery in flight is dropped; and a reader that has shut
    down cleanly leaves none of its offsets in the tracker. Handling a message never panics; the
    handling of the idle state before it does in one case, the conversion of the idle watermark:
    exactly when the batch is empty, the vertex is a reduce vertex and the watermark of the idle
    entry is outside the range of a date. *)
Theorem reader_inflight (C : Chrono) (c : ReaderConfig) (limiter : option RateLimit) (handler : bool) (st : ReaderState) :
  reader_reachable c limiter handler st ->
  (forall off, mine c off -> is_Some (tlookup (rd_tracker st) off) <-> off ∈ rd_tasks st) /\
  NoDup (rd_tasks st) /\ (permits_held st <= rd_max_ack_pending c)%nat /\
  (forall off, sends off (rd_sent st) <= calls_on off (rd_calls st) + uncalled off (rd_tasks st) (rd_called st))%nat /\
  (forall e m rest permits, rd_loop st = Processing (m :: rest) permits -> is_Some (process_message e m permits st)) /\
  (forall e b, fst (handle_idle_watermarks c e b st) = None <->
     b = true /\ rd_reduce c = true /\ is_Some (te_fetch_watermark e) /\
     exists offset watermark, te_idle_wmb e = Some (offset, watermark) /\ from_timestamp_millis watermark = None) /\
  (rd_loop st = Finished (Ok tt) -> forall off, mine c off -> tlookup (rd_tracker st) off = None).
Proof.
  intros Hi%reader_reachable_inv. destruct (Hi) as [Ht Hp _ _ Hs Hf]. split_and!; try done.
  - intros off. by apply tracks_tlookup.
  - by destruct Ht as (_ & _ & ?).
  - intros e m rest permits El. destruct (process_message_inv c e m rest permits st Hi El) as (? & ? & ? & -> & _). done.
  - intros e b. apply handle_idle_panics.
  - intros El off Hm. pose proof (tracks_tlookup c _ _ off Ht Hm) as Hl. rewrite (Hf El) in Hl.
    apply eq_None_not_Some. rewrite Hl. apply not_elem_of_nil.
Qed.

(** ** A run *)

Definition ex_reader : ReaderConfig := mkReaderConfig false 0 10 2 "out".
Definition ex_turn : TurnEnv := mkTurnEnv (Some (fun _ => 70)) None (fun _ => None) (fun _ => true).
Definition ex_message : Message := example_inflight_message 5 0 700 100.
Definition ex_fetched (n : nat) : option (list Message) := Some (firstn n [ex_message; ex_message; ex_message]).
(** The broker fails once. *)
Definition ex_broker (i : nat) : option BrokerError := if (i =? 0)%nat then Some BOther else None.

Definition ex_trace : list ReaderState :=
  let st0 := reader_new None true in
  let st1 := at_loop (with_tracker st0 (set_idle_offset (rd_tracker st0) 0 None)) (Processing [ex_message; ex_message] 2) in
  let handle m permits l st := match process_message ex_turn m permits st with Some (_, _, st') => at_loop st' l | None => st end in
  let st2 := handle ex_message 2%nat (Processing [ex_message] 1) st1 in
  let st3 := handle ex_message 1%nat Running st2 in
  let st4 := at_loop st3 Draining in
  let st5 := wip_call (m_offset ex_message) Ack 2 st4 in
  let st6 := wip_end (m_offset ex_message) st5 in
  let st7 := wip_release st6 in
  [st0; st1; st2; st3; st4; st5; st6; st7; at_loop st7 (Finished (Ok tt))].
Definition ex_at (i : nat) : ReaderState := default (reader_new None true) (ex_trace !! i).

(** The messages sent, the calls and the tasks left: the redelivery is dropped, and the failed
    acknowledgement is repeated. *)
Example ex_trace_log : forall i, (i = 3 \/ i = 8)%nat ->
  length (rd_sent (ex_at i)) = 1%nat /\ length (rd_tasks (ex_at i)) = (if (i =? 3)%nat then 1 else 0)%nat /\
  rd_calls (ex_at i) = if (i =? 3)%nat then [] else [BAck (m_offset ex_message); BAck (m_offset ex_message)].
Proof. intros i [-> | ->]; vm_compute; done. Qed.

(** Make a step of the run. *)
Lemma ex_step i j st' :
  rstep (H := chrono_utc) ex_reader (ex_at i) st' -> st' = ex_at j -> rstep (H := chrono_utc) ex_reader (ex_at i) (ex_at j).
Proof. by intros ? <-. Qed.

Lemma ex_trace_reachable : reader_reachable (H := chrono_utc) ex_reader None true (ex_at 8).
Proof.
  unfold reader_reachable. apply (rtc_l _ _ (ex_at 1)).
  { eapply (ex_step 0).
    - apply (rs_fetch (H := chrono_utc) ex_reader (ex_at 0) ex_turn 0 0 [] ex_fetched None [ex_message; ex_message] (Some (Ok tt))
        (at_loop (ex_at 1) Running)); try (vm_compute; reflexivity).
      intros n batch [= <-]. split; [rewrite length_take; lia|]. apply Forall_take. repeat constructor.
    - vm_compute. reflexivity. }
  apply (rtc_l _ _ (ex_at 2)).
  { eapply (ex_step 1); [|vm_compute; reflexivity].
    by apply (rs_message (H := chrono_utc) ex_reader (ex_at 1) ex_turn ex_message [ex_message] 2 Continue 1
      (at_loop (ex_at 2) (rd_loop (ex_at 1)))); vm_compute. }
  apply (rtc_l _ _ (ex_at 3)).
  { eapply (ex_step 2); [|vm_compute; reflexivity].
    by apply (rs_message (H := chrono_utc) ex_reader (ex_at 2) ex_turn ex_message [] 1 Continue 1
      (at_loop (ex_at 3) (rd_loop (ex_at 2)))); vm_compute. }
  apply (rtc_l _ _ (ex_at 4)); [by eapply (ex_step 3); [apply rs_cancel|]; vm_compute|].
  apply (rtc_l _ _ (ex_at 5)).
  { eapply (ex_step 4); [|vm_compute; reflexivity].
    apply (rs_call (H := chrono_utc) ex_reader (ex_at 4) (m_offset ex_message) Ack 5 ex_broker (fun _ => false) None 2);
      [vm_compute; left|apply not_elem_of_nil|done]. }
  apply (rtc_l _ _ (ex_at 6)); [by eapply (ex_step 5); [apply (rs_end _ _ (m_offset ex_message)); vm_compute; left|vm_compute]|].
  apply (rtc_l _ _ (ex_at 7)); [by eapply (ex_step 6); [apply rs_release; vm_compute; lia|vm_compute]|].
  apply rtc_once. by eapply (ex_step 7); [apply (rs_drained _ _ true)|]; vm_compute.
Qed.

Lemma reader_inflight_witness :
  mine ex_reader (m_offset ex_message) /\ tlookup (rd_tracker (ex_at 8)) (m_offset ex_message) = None.
Proof.
  split; [done|].
  refine (proj2 (proj2 (proj2 (proj2 (proj2 (proj2 (reader_inflight chrono_utc ex_reader None true (ex_at 8) ex_trace_reachable))))))
    eq_refl _ _).
  done.
Defined.

(** ** The rate limit

    The reader puts back what it did not fetch of the whole batch, not of the tokens it was
    given: with a maximum below the batch size every round of one epoch gets the maximum again. *)

Fixpoint ex_rounds (n : nat) (rl : option RateLimit) : list nat :=
  match n with
  | O => []
  | S n =>
      let (rl', batch) := apply_rate_limiting_and_fetch rl 7 7 [] 10 (fun k => Some (repeat ex_message k)) in
      length batch :: ex_rounds n rl'
  end.

Example rate_limit_defeated : ex_rounds 4 (Some (rate_limit_new (bounds_new 5 5 (10 ^ 9) Relaxed))) = [5; 5; 5; 5]%nat.
Proof. vm_compute. reflexivity. Qed.
