(* ===== verification/UnalignedUdf.v ===== *)
(** The messages between an unaligned reducer and its user-defined function
    (src/rust/numaflow-core/src/reduce/reducer/unaligned/user_defined/session.rs and
    accumulator.rs, the conversions of windower.rs): requests, responses, and the identifiers
    given to the results of a session, by which the next buffer drops duplicates. *)
From stdpp Require Import pretty.
From S2P Require Import Prelude Clock Message AlignedWindow SessionWindow AccumulatorWindow WalMessage.
Open Scope Z_scope.

(** * Windows *)

(** [sessionreduce::KeyedWindow] and [accumulator::KeyedWindow]. *)
Record KeyedWindow := mkKeyedWindow {
  kw_start : option Timestamp;
  kw_end : option Timestamp;
  kw_slot : string;
  kw_keys : list string
}.
Definition kw_default : KeyedWindow := mkKeyedWindow None None "" [].

Section Conversions.
Context `{Chrono}.

Definition keyed_window_of (w : Window) : KeyedWindow :=
  mkKeyedWindow (Some (prost_timestamp_from_utc (start_time w))) (Some (prost_timestamp_from_utc (end_time w)))
    "0" (keys w).

(** [None] is a panic. *)
Definition window_of_keyed (value : KeyedWindow) : option Window :=
  let? s := utc_from_timestamp <$> kw_start value in
  let? e := utc_from_timestamp <$> kw_end value in
  Some (mkWindow s e (kw_keys value)).

Definition window_to_gc (w : Window) : ProtoGcEvent :=
  mkProtoGcEvent (Some (prost_timestamp_from_utc (start_time w))) (Some (prost_timestamp_from_utc (end_time w)))
    (keys w).

(** * Requests *)

Inductive Event := EvOpen | EvClose | EvAppend | EvMerge | EvExpand.

Record Payload := mkPayload {
  py_keys : list string;
  py_value : string;
  py_event_time : option Timestamp;
  py_watermark : option Timestamp;
  py_id : string;                          (* of the accumulator only *)
  py_headers : gmap string string;
  py_metadata : option ProtoMetadata
}.
Definition py_default : Payload := mkPayload [] "" None None "" ∅ None.

(** [id] is [MessageID::to_string] for the accumulator and absent for a session. *)
Definition payload_of (id : string) (msg : Message) : Payload :=
  mkPayload (m_keys msg) (m_value msg) (Some (prost_timestamp_from_utc (m_event_time msg)))
    (prost_timestamp_from_utc <$> m_watermark msg) id (m_headers msg) (metadata_to_proto <$> m_metadata msg).
Definition session_payload : Message -> Payload := payload_of "".

(** [to_string] of an id that is not UTF-8 is a panic. *)
Definition accumulator_payload (msg : Message) : option Payload :=
  let? id := message_id_to_string (m_id msg) in Some (payload_of id msg).

Record ReduceRequest := mkReduceRequest {
  rq_payload : option Payload;
  rq_event : Event;
  rq_keyed_windows : list KeyedWindow      (* the one window of an accumulator request *)
}.

Definition session_request (value : UnalignedWindowMessage) : ReduceRequest :=
  match operation value with
  | Open message window => mkReduceRequest (Some (session_payload message)) EvOpen [keyed_window_of window]
  | Close window => mkReduceRequest None EvClose [keyed_window_of window]
  | Append message window => mkReduceRequest (Some (session_payload message)) EvAppend [keyed_window_of window]
  | Merge windows => mkReduceRequest None EvMerge (keyed_window_of <$> windows)
  | Expand message windows => mkReduceRequest (Some (session_payload message)) EvExpand (keyed_window_of <$> windows)
  end.

(** [None] is a panic. *)
Definition accumulator_request (value : UnalignedWindowMessage) : option ReduceRequest :=
  match operation value with
  | Open message window =>
      let? p := accumulator_payload message in Some (mkReduceRequest (Some p) EvOpen [keyed_window_of window])
  | Close window => Some (mkReduceRequest None EvClose [keyed_window_of window])
  | Append message window =>
      let? p := accumulator_payload message in Some (mkReduceRequest (Some p) EvAppend [keyed_window_of window])
  | Merge _ | Expand _ _ => None
  end.

(** * Responses *)

Record SessionResult := mkSessionResult { sr_keys : list string; sr_tags : list string; sr_value : string }.
Record SessionResponse := mkSessionResponse {
  s_result : option SessionResult;
  s_keyed_window : option KeyedWindow;
  s_eof : bool
}.

Record AccumulatorResponse := mkAccumulatorResponse {
  a_payload : option Payload;
  a_window : option KeyedWindow;
  a_tags : list string;
  a_eof : bool
}.

Definition tags_of (tags : list string) : option (list string) :=
  match tags with [] => None | _ => Some tags end.

Definition one_ms : Duration := ns_per_ms.

(** The offset string of the id of a session's result. *)
Definition session_offset (w : Window) : string :=
  (pretty (timestamp_millis (start_time w)) +:+ "-" +:+ pretty (timestamp_millis (end_time w)) +:+ "-" +:+
   String.concat ":" (keys w))%string.

(** [vertex] is the name and replica of the vertex; [None] is a panic. *)
Definition message_of_session (vertex : string) (index : Z) (response : SessionResponse) : option Message :=
  let result := default (mkSessionResult [] [] "") (s_result response) in
  let window := default kw_default (s_keyed_window response) in
  let? w := window_of_keyed window in
  let? t := dt_add (end_time w) (- one_ms) in
  Some (mkMessage Data (sr_keys result) (tags_of (sr_tags result)) (sr_value result) (OInt (mkIntOffset 0 0)) t (Some t)
          (mkMessageID vertex (session_offset w) (as_i32 index)) ∅ None false None).

Definition message_of_accumulator (vertex : string) (response : AccumulatorResponse) : option Message :=
  let result := default py_default (a_payload response) in
  let? et := utc_from_timestamp <$> py_event_time result in
  Some (mkMessage Data (py_keys result) (tags_of (a_tags response)) (py_value result) (OInt (mkIntOffset 0 0)) et
          (utc_from_timestamp <$> py_watermark result) (mkMessageID vertex (py_id result) 0) (py_headers result) None false None).
End Conversions.

(** * The index of a session's result *)

(** The map of the next index per keys, kept by the response loop of [session_reduce_fn]; the
    index is a [u32] in the loop and an [i32] in the id. *)
Definition response_index (ix : gmap (list string) Z) (response : SessionResponse) : gmap (list string) Z * Z :=
  let window_keys := default [] (kw_keys <$> s_keyed_window response) in
  if s_eof response then (delete window_keys ix, 0)
  else let i := default 0 (ix !! window_keys) in (<[window_keys := i + 1]> ix, i).

Fixpoint response_indices (ix : gmap (list string) Z) (rs : list SessionResponse) : list (SessionResponse * Z) :=
  match rs with
  | [] => []
  | r :: rs => let (ix', i) := response_index ix r in (r, i) :: response_indices ix' rs
  end.

(** * Properties *)

Lemma session_offset_inj `{Chrono} w w' :
  session_offset w = session_offset w' ->
  timestamp_millis (start_time w) = timestamp_millis (start_time w') /\
  timestamp_millis (end_time w) = timestamp_millis (end_time w') /\ combine_keys (keys w) = combine_keys (keys w').
Proof. intros [E1 [E2 E3]%pretty_prefix_inj]%pretty_prefix_inj. by split_and!. Qed.

Definition response_keys (r : SessionResponse) : list string := default [] (kw_keys <$> s_keyed_window r).
Definition next_index (ix : gmap (list string) Z) (k : list string) : Z := default 0 (ix !! k).

(** As long as no end of a session of the keys comes, their indices grow, by one at most. *)
Lemma response_indices_from rs ix q r i :
  response_indices ix rs !! q = Some (r, i) -> s_eof r = false ->
  (forall m e, (m < q)%nat -> rs !! m = Some e -> s_eof e = true -> response_keys e <> response_keys r) ->
  next_index ix (response_keys r) <= i <= next_index ix (response_keys r) + Z.of_nat q.
Proof.
  revert ix q. induction rs as [|r0 rs IH]; intros ix q; [done|]. cbn [response_indices].
  destruct (response_index ix r0) as [ix' i0] eqn:E. unfold response_index in E. fold (response_keys r0) in E.
  destruct q as [|q]; simpl; intros Hq He Hno.
  - injection Hq as -> ->. rewrite He in E. injection E as _ <-. unfold next_index. lia.
  - assert (Hno0 : s_eof r0 = true -> response_keys r0 <> response_keys r) by (intros ?; by apply (Hno 0%nat); [lia|..]).
    specialize (IH ix' q Hq He (fun m e Hm => Hno (S m) e ltac:(lia))).
    assert (Hix : next_index ix (response_keys r) <= next_index ix' (response_keys r) <= next_index ix (response_keys r) + 1).
    { unfold next_index. destruct (s_eof r0); injection E as <- _.
      - rewrite lookup_delete_ne by auto. lia.
      - destruct (decide (response_keys r0 = response_keys r)) as [->|Hne];
          [rewrite lookup_insert_eq; simpl; lia|rewrite lookup_insert_ne by done; lia]. }
    lia.
Qed.

(** Two results of the same keys without an end in between have different indices. *)
Lemma response_indices_lt rs ix p q r i r' i' :
  (p < q)%nat -> response_indices ix rs !! p = Some (r, i) -> response_indices ix rs !! q = Some (r', i') ->
  s_eof r = false -> s_eof r' = false -> response_keys r = response_keys r' ->
  (forall m e, (p < m < q)%nat -> rs !! m = Some e -> s_eof e = true -> response_keys e <> response_keys r') ->
  i < i'.
Proof.
  revert ix p q. induction rs as [|r0 rs IH]; intros ix p q Hpq; [done|]. cbn [response_indices].
  destruct (response_index ix r0) as [ix' i0] eqn:E. destruct q as [|q]; [lia|]. intros Hp Hq He He' Hk Hno.
  destruct p as [|p]; simpl in Hp, Hq.
  - injection Hp as -> ->. unfold response_index in E. fold (response_keys r) in E. rewrite He in E.
    injection E as <- <-. apply response_indices_from in Hq as [Hq _]; [|done|intros m e Hm; apply (Hno (S m)); lia].
    unfold next_index in Hq. rewrite <- Hk, lookup_insert_eq in Hq. simpl in Hq. lia.
  - eapply (IH ix' p q); try done; [lia|]. intros m e Hm. apply (Hno (S m)). lia.
Qed.

Lemma response_indices_bound rs q r i :
  response_indices ∅ rs !! q = Some (r, i) -> s_eof r = false -> 0 <= i <= Z.of_nat q.
Proof.
  enough (Hgen : forall ix j, (forall k, 0 <= next_index ix k <= Z.of_nat j) ->
    response_indices ix rs !! q = Some (r, i) -> s_eof r = false -> 0 <= i <= Z.of_nat (j + q)).
  { apply (Hgen ∅ 0%nat). intros k. unfold next_index. rewrite lookup_empty. simpl. lia. }
  revert q. induction rs as [|r0 rs IH]; intros q ix j Hix; [done|]. cbn [response_indices].
  destruct (response_index ix r0) as [ix' i0] eqn:E. unfold response_index in E. fold (response_keys r0) in E.
  destruct q as [|q]; simpl; intros Hq He.
  - injection Hq as -> ->. rewrite He in E. injection E as _ <-. specialize (Hix (response_keys r)). unfold next_index in Hix. lia.
  - replace (j + S q)%nat with (S j + q)%nat by lia. apply (IH q ix'); [|done|done].
    intros k. pose proof (Hix k). pose proof (Hix (response_keys r0)). unfold next_index in *.
    destruct (s_eof r0); injection E as <- _;
      (destruct (decide (response_keys r0 = k)) as [->|Hne];
       [rewrite ?lookup_insert_eq, ?lookup_delete_eq|rewrite ?lookup_insert_ne, ?lookup_delete_ne by done]); simpl; lia.
Qed.

Lemma response_indices_length rs ix : length (response_indices ix rs) = length rs.
Proof.
  revert ix. induction rs as [|r rs IH]; intros ix; cbn [response_indices]; [done|].
  destruct (response_index ix r). simpl. by rewrite IH.
Qed.

(** The messages made of the results of a run of responses, in order; [None] is a panic. *)
Definition session_message `{Chrono} (vertex : string) (x : SessionResponse * Z) : option (option Message) :=
  if s_eof x.1 then Some None else let? m := message_of_session vertex x.2 x.1 in Some (Some m).

(** The results of sessions carry different identifiers, so none is dropped as a duplicate
    downstream, if no session of some keys ends between two results of one window of these keys,
    different keys in use read differently when joined, and there are fewer than 2^31
    responses. *)
Theorem session_ids_unique (C : Chrono) (vertex : string) (rs : list SessionResponse) (p q : nat) (r r' : SessionResponse)
    (i i' : Z) (m m' : Message) :
  (p < q)%nat -> Z.of_nat (length rs) <= 2 ^ 31 ->
  response_indices ∅ rs !! p = Some (r, i) -> response_indices ∅ rs !! q = Some (r', i') ->
  session_message vertex (r, i) = Some (Some m) -> session_message vertex (r', i') = Some (Some m') ->
  (combine_keys (response_keys r) = combine_keys (response_keys r') -> response_keys r = response_keys r') ->
  (forall j e, (p < j < q)%nat -> rs !! j = Some e -> s_eof e = true -> response_keys e <> response_keys r) ->
  m_id m <> m_id m'.
Proof.
  intros Hpq Hlen Hp Hq Hm Hm' Hkeys Hno. unfold session_message in Hm, Hm'. cbn [fst snd] in Hm, Hm'.
  destruct (s_eof r) eqn:He; [done|]. destruct (s_eof r') eqn:He'; [done|].
  pose proof (response_indices_bound rs p r i Hp He). pose proof (response_indices_bound rs q r' i' Hq He').
  assert (Hq' : (q < length rs)%nat) by (apply lookup_lt_Some in Hq; by rewrite response_indices_length in Hq).
  unfold message_of_session in Hm, Hm'.
  destruct (window_of_keyed _) as [w|] eqn:Ew in Hm; [|done]. destruct (window_of_keyed _) as [w'|] eqn:Ew' in Hm'; [|done].
  cbn in Hm, Hm'. destruct (dt_add (end_time w) _); [|done]. destruct (dt_add (end_time w') _); [|done].
  injection Hm as <-. injection Hm' as <-. cbn [m_id]. intros [= Hoff Hix].
  apply session_offset_inj in Hoff as (_ & _ & Hk).
  assert (Hkw : forall x y, window_of_keyed (default kw_default (s_keyed_window x)) = Some y -> keys y = response_keys x).
  { intros x y. unfold window_of_keyed, response_keys. destruct (s_keyed_window x) as [kw|]; [|done]. simpl.
    repeat case_match; try done. by intros [= <-]. }
  rewrite (Hkw r w Ew), (Hkw r' w' Ew') in Hk.
  assert (i < i'). { eapply (response_indices_lt rs ∅ p q); try done; [by apply Hkeys|]. rewrite <- (Hkeys Hk). done. }
  unfold as_i32 in Hix. rewrite !Z.mod_small in Hix by lia. lia.
Qed.

(** ** Runs *)

Definition ex_kw (s e : Z) (ks : list string) : KeyedWindow := keyed_window_of (H := chrono_utc) (ms_window s e ks).
Definition ex_result (s e : Z) (v : string) : SessionResponse :=
  mkSessionResponse (Some (mkSessionResult ["k"] [] v)) (Some (ex_kw s e ["k"])) false.
Definition ex_end (s e : Z) : SessionResponse := mkSessionResponse None (Some (ex_kw s e ["k"])) true.
Definition ex_ids (rs : list SessionResponse) : list (option MessageID) :=
  (fun x => match session_message (H := chrono_utc) "v-0" x with Some (Some m) => Some (m_id m) | _ => None end) <$>
  response_indices ∅ rs.

Lemma session_ids_unique_witness :
  let rs := [ex_result 0 10 "a"; ex_result 0 10 "b"; ex_end 0 10] in
  exists m m', session_message (H := chrono_utc) "v-0" (ex_result 0 10 "a", 0) = Some (Some m) /\
    session_message (H := chrono_utc) "v-0" (ex_result 0 10 "b", 1) = Some (Some m') /\ m_id m <> m_id m'.
Proof.
  intros rs. eexists _, _. split; [vm_compute; reflexivity|]. split; [vm_compute; reflexivity|].
  refine (session_ids_unique chrono_utc "v-0" rs 0 1 (ex_result 0 10 "a") (ex_result 0 10 "b") 0 1 _ _ _ _ _ _ _ _ _ _).
  - lia.
  - vm_compute. discriminate.
  - vm_compute. reflexivity.
  - vm_compute. reflexivity.
  - vm_compute. reflexivity.
  - vm_compute. reflexivity.
  - intros _. reflexivity.
  - intros j e Hj. lia.
Defined.

(** The map of indices is keyed by the keys only: the end of another session of the keys resets
    the index, and the next result of the first session repeats an identifier. *)
Example session_ids_collide :
  ex_ids [ex_result 0 30 "a"; ex_end 40 50; ex_result 0 30 "b"] =
    [Some (mkMessageID "v-0" "0-30-k" 0); None; Some (mkMessageID "v-0" "0-30-k" 0)].
Proof. vm_compute. reflexivity. Qed.
