(* ===== verification/UnalignedReducer.v ===== *)
(** The unaligned reducer (src/rust/numaflow-core/src/reduce/reducer/unaligned/reducer.rs): the
    main task that admits messages, advances the watermark and closes and assigns windows; the
    actor that passes the window messages on; and the reduce task of a slot, which sends the
    responses of the user-defined function to a writer and, once a batch is written, writes GC
    events and deletes the windows that are done.

    The three share the window manager and are joined by channels: their steps are the labels of
    a run and interleave freely. The user-defined function and the writer are external, their
    answers are part of the labels. [None] is a panic. *)
From S2P Require Import Prelude Clock Message Wal WalMessage Compactor SessionWindow AccumulatorWindow UnalignedUdf.
Open Scope Z_scope.

Definition DEFAULT_KEY_FOR_NON_KEYED_STREAM : string := "NON_KEYED_STREAM".

(** * The reduce task *)

(** A response of the user-defined function. *)
Inductive UdfResponse :=
  | RAccumulator (r : AccumulatorResponse)
  | RSession (index : Z) (r : SessionResponse).

(** How the task of a writer ends: it panics, or returns a result. *)
Inductive WriterEnd := WJoinFailed | WReturned (r : Result unit).

Record ReduceTask := mkReduceTask {
  tracked_windows : gmap (list string) Window;
  batch : list Message                       (* sent to the current writer *)
}.
Definition task_new : ReduceTask := mkReduceTask ∅ [].

Section Task.
Context `{Chrono} `{HashOrder} (vertex : string).

(** One response, in the loop of [accumulator_reduce] and of [session_reduce]. *)
Definition on_response (t : ReduceTask) (r : UdfResponse) : option ReduceTask :=
  match r with
  | RAccumulator response =>
      let? kw := a_window response in
      let? window := window_of_keyed kw in
      let tracked := <[keys window := window]> (tracked_windows t) in
      if a_eof response then Some (mkReduceTask tracked (batch t))
      else let? m := message_of_accumulator vertex response in Some (mkReduceTask tracked (batch t ++ [m]))
  | RSession index response =>
      if s_eof response then
        let? kw := s_keyed_window response in
        let? session_window := window_of_keyed kw in
        Some (mkReduceTask (<[keys session_window := session_window]> (tracked_windows t)) (batch t))
      else let? m := message_of_session vertex index response in
           Some (mkReduceTask (tracked_windows t) (batch t ++ [m]))
  end.

Definition write_gc_events (gc_wal : bool) (t : ReduceTask) : list ProtoGcEvent :=
  if gc_wal then (fun kw => window_to_gc kw.2) <$> hm_iter (tracked_windows t) else [].

Definition delete_tracked_windows (mgr : UnalignedWindowManager) (t : ReduceTask) : UnalignedWindowManager :=
  foldl (fun mgr kw => u_delete_window mgr kw.2) mgr (hm_iter (tracked_windows t)).

(** The wait for the writer, at a tick of the timer and at the end of the responses: only a
    panic of the writer's task is an error. The batch is given up to the writer, the GC events
    and the manager without the tracked windows are returned. *)
Definition flush_windows (gc_wal : bool) (mgr : UnalignedWindowManager) (t : ReduceTask) (w : WriterEnd)
    : Result (UnalignedWindowManager * list ProtoGcEvent) :=
  match w with
  | WJoinFailed => Err (EReduce "Writer task failed")
  | WReturned _ => Ok (delete_tracked_windows mgr t, write_gc_events gc_wal t)
  end.
End Task.

(** * The main task *)

Record UnalignedReducer := mkUReducer {
  u_manager : UnalignedWindowManager;
  u_lateness : Duration;
  u_watermark : DateTime;
  u_keyed : bool;
  u_final_result : Result unit;
  u_shutting_down : bool
}.

(** Why a message is dropped, or that it is accepted. *)
Inductive Admission := Accept | DropNoWatermark | DropLate | DropOld.

Section Main.
Context `{Chrono} `{HashOrder}.

Definition u_reducer_new (mgr : UnalignedWindowManager) (lateness : Duration) (keyed : bool) : option UnalignedReducer :=
  let? wm := from_timestamp_millis (-1) in Some (mkUReducer mgr lateness wm keyed (Ok tt) false).

Definition with_manager (r : UnalignedReducer) (mgr : UnalignedWindowManager) : UnalignedReducer :=
  mkUReducer mgr (u_lateness r) (u_watermark r) (u_keyed r) (u_final_result r) (u_shutting_down r).
Definition with_watermark (r : UnalignedReducer) (wm : DateTime) : UnalignedReducer :=
  mkUReducer (u_manager r) (u_lateness r) wm (u_keyed r) (u_final_result r) (u_shutting_down r).

(** The reducer, and whether the token is cancelled. *)
Definition u_handle_error (r : UnalignedReducer) (error : Error) : UnalignedReducer * bool :=
  match u_final_result r with
  | Ok _ => (mkUReducer (u_manager r) (u_lateness r) (u_watermark r) (u_keyed r) (Err error) true, true)
  | Err _ => (r, false)
  end.

Definition close_windows_by_wm (r : UnalignedReducer) (watermark : DateTime)
    : option (UnalignedReducer * list UnalignedWindowMessage) :=
  let? t := dt_add watermark (- u_lateness r) in
  let? (mgr, out) := u_close_windows (u_manager r) t in
  Some (with_manager r mgr, out).

Definition u_admit_message (r : UnalignedReducer) (m : Message) : option Admission :=
  let? late := (if m_is_late m then
      if timestamp_millis (u_watermark r) =? -1 then Some (Some DropNoWatermark)
      else let? t := dt_add (u_watermark r) (- u_lateness r) in
           Some (if m_event_time m <? t then Some DropLate else None)
    else Some None) in
  match late with
  | Some d => Some d
  | None => Some (if m_event_time m <? u_watermark r then DropOld else Accept)
  end.

Definition u_assign_and_close_windows (r : UnalignedReducer) (m : Message)
    : option (UnalignedReducer * list UnalignedWindowMessage) :=
  let? default_wm := from_timestamp_millis (-1) in
  let r1 := with_watermark r (Z.max (u_watermark r) (default default_wm (m_watermark m))) in
  let? a := u_admit_message r1 m in
  match a with
  | Accept =>
      let? (r2, closes) := close_windows_by_wm r1 (u_watermark r1) in
      let? (mgr, out) := u_assign_windows (u_manager r2) m in
      Some (with_manager r2 mgr, closes ++ out)
  | _ => Some (r1, [])
  end.

Definition u_set_keys (m : Message) (ks : list string) : Message :=
  mkMessage (m_typ m) ks (m_tags m) (m_value m) (m_offset m) (m_event_time m) (m_watermark m) (m_id m)
    (m_headers m) (m_metadata m) (m_is_late m) (m_nack_options m).

(** One message of the input stream. *)
Definition u_handle (r : UnalignedReducer) (m : Message) : option (UnalignedReducer * list UnalignedWindowMessage) :=
  if u_shutting_down r then Some (r, [])
  else match m_typ m with
  | MWMB => match m_watermark m with
      | Some idle => if u_watermark r <? idle then close_windows_by_wm (with_watermark r idle) idle else Some (r, [])
      | None => Some (r, [])
      end
  | Data => u_assign_and_close_windows r
              (if u_keyed r then m else u_set_keys m [DEFAULT_KEY_FOR_NON_KEYED_STREAM])
  end.
End Main.

(** * The system *)

(** A reduce task runs or has returned; a channel to one that has returned is closed. *)
Inductive TaskState := TaskRunning (t : ReduceTask) | TaskEnded.

Record ActiveStream := mkActiveStream {
  as_messages : list UnalignedWindowMessage;   (* received, oldest first *)
  as_task : TaskState
}.

Record USystem := mkUSystem {
  us_reducer : UnalignedReducer;
  us_channel : list UnalignedWindowMessage;    (* sent to the actor, not yet taken *)
  us_streams : gmap string ActiveStream;
  us_gc_wal : bool;
  us_gc_events : list ProtoGcEvent;            (* written, oldest first *)
  us_written : list (list Message);            (* the batches given to a writer that has ended *)
  us_errors : list Error;                      (* sent to the main task, not yet taken *)
  us_cancelled : bool
}.

(** How the task of the client ends. *)
Inductive HandleEnd := HOk | HCancelled | HErr (e : Error).

Inductive ULabel :=
  | UInput (m : Message)                                  (* the main task handles a message *)
  | UError                                                (* the main task takes an error *)
  | UActor                                                (* the actor takes a window message *)
  | UResponse (slot : string) (r : UdfResponse)           (* a task takes a response *)
  | UTick (slot : string) (w : WriterEnd)                 (* the batch timer of a task *)
  | UEnd (slot : string) (w : WriterEnd) (h : HandleEnd). (* the responses of a task end *)

Section System.
Context `{Chrono} `{HashOrder} (vertex : string).

Definition with_streams (s : USystem) (st : gmap string ActiveStream) : USystem :=
  mkUSystem (us_reducer s) (us_channel s) st (us_gc_wal s) (us_gc_events s) (us_written s) (us_errors s) (us_cancelled s).
Definition with_error (s : USystem) (e : Error) : USystem :=
  mkUSystem (us_reducer s) (us_channel s) (us_streams s) (us_gc_wal s) (us_gc_events s) (us_written s)
    (us_errors s ++ [e]) (us_cancelled s).

(** [handle_window_message] and [create_active_stream]; a task that has returned does not get
    the message. *)
Definition u_handle_window_message (s : USystem) (msg : UnalignedWindowMessage) : USystem :=
  let slot := pnf_slot msg in
  match us_streams s !! slot with
  | Some (mkActiveStream ms (TaskRunning t)) => with_streams s (<[slot := mkActiveStream (ms ++ [msg]) (TaskRunning t)]> (us_streams s))
  | Some (mkActiveStream _ TaskEnded) => s
  | None => with_streams s (<[slot := mkActiveStream [msg] (TaskRunning task_new)]> (us_streams s))
  end.

(** A running task is replaced by what [f] makes of it. *)
Definition on_task (s : USystem) (slot : string)
    (f : ReduceTask -> option (USystem * TaskState)) : option USystem :=
  match us_streams s !! slot with
  | Some (mkActiveStream ms (TaskRunning t)) =>
      let? (s', st) := f t in
      Some (with_streams s' (<[slot := mkActiveStream ms st]> (us_streams s')))
  | _ => Some s
  end.

(** The wait for the writer within the system: the error, if any. *)
Definition flush_task (s : USystem) (t : ReduceTask) (w : WriterEnd) : USystem * option Error :=
  match flush_windows (us_gc_wal s) (u_manager (us_reducer s)) t w with
  | Err e => (s, Some e)
  | Ok (mgr, gcs) =>
      (mkUSystem (with_manager (us_reducer s) mgr) (us_channel s) (us_streams s) (us_gc_wal s) (us_gc_events s ++ gcs)
         (us_written s ++ [batch t]) (us_errors s) (us_cancelled s), None)
  end.

Definition uexec (s : USystem) (l : ULabel) : option (USystem * list UnalignedWindowMessage) :=
  match l with
  | UInput m =>
      let? (r, out) := u_handle (us_reducer s) m in
      Some (mkUSystem r (us_channel s ++ out) (us_streams s) (us_gc_wal s) (us_gc_events s) (us_written s) (us_errors s)
              (us_cancelled s), out)
  | UError =>
      match us_errors s with
      | [] => Some (s, [])
      | e :: es =>
          let (r, cancel) := u_handle_error (us_reducer s) e in
          Some (mkUSystem r (us_channel s) (us_streams s) (us_gc_wal s) (us_gc_events s) (us_written s) es
                  (us_cancelled s || cancel), [])
      end
  | UActor =>
      match us_channel s with
      | [] => Some (s, [])
      | msg :: rest =>
          Some (u_handle_window_message (mkUSystem (us_reducer s) rest (us_streams s) (us_gc_wal s) (us_gc_events s)
                  (us_written s) (us_errors s) (us_cancelled s)) msg, [])
      end
  | UResponse slot r =>
      let? s' := on_task s slot (fun t => let? t' := on_response vertex t r in Some (s, TaskRunning t')) in Some (s', [])
  | UTick slot w =>
      let? s' := on_task s slot (fun t =>
        match flush_task s t w with
        | (s', None) => Some (s', TaskRunning task_new)
        | (s', Some e) => Some (with_error s' e, TaskEnded)
        end) in Some (s', [])
  | UEnd slot w h =>
      let? s' := on_task s slot (fun t =>
        match flush_task s t w with
        | (s', None) => Some (match h with HErr e => with_error s' e | _ => s' end, TaskEnded)
        | (s', Some e) => Some (with_error s' e, TaskEnded)
        end) in Some (s', [])
  end.

(** A run returns the final state and everything sent to the actor. *)
Fixpoint urun (s : USystem) (ls : list ULabel) : option (USystem * list UnalignedWindowMessage) :=
  match ls with
  | [] => Some (s, [])
  | l :: ls =>
      let? (s1, out) := uexec s l in
      let? (s2, out') := urun s1 ls in
      Some (s2, out ++ out')
  end.

Definition usystem_new (mgr : UnalignedWindowManager) (lateness : Duration) (keyed gc : bool) : option USystem :=
  let? r := u_reducer_new mgr lateness keyed in Some (mkUSystem r [] ∅ gc [] [] [] false).
End System.

(** * Sessions *)

Section Sessions.
Context `{Chrono} `{HashOrder}.

(** Rounded down to the millisecond. *)
Definition floor_ms (t : DateTime) : DateTime := t / ns_per_ms * ns_per_ms.

Lemma floor_ms_le t t' : t <= t' -> floor_ms t <= floor_ms t'.
Proof. unfold floor_ms, ns_per_ms. intros. apply Z.mul_le_mono_nonneg_r; [lia|]. apply Z.div_le_mono; lia. Qed.
Lemma floor_ms_below t : floor_ms t <= t.
Proof. unfold floor_ms, ns_per_ms. pose proof (Z.mul_div_le t 1000000). lia. Qed.
Lemma floor_ms_aligned e t : (ns_per_ms | e) -> e <= t -> e <= floor_ms t.
Proof.
  intros [q ->] Hle. unfold floor_ms. apply Z.mul_le_mono_nonneg_r; [unfold ns_per_ms; lia|].
  apply Z.div_le_lower_bound; unfold ns_per_ms in *; lia.
Qed.

(** The range of an active window. *)
Definition win_in (w : Window) : Prop := dt_min <= start_time w /\ end_time w <= dt_max /\ (ns_per_ms | end_time w).

(** A window that was closed for some keys: it ended by the watermark, and the windows of the
    keys that are active start after it. *)
Definition closed_ok (mgr : SessionWindowManager) (wm : DateTime) (c : Window) : Prop :=
  win_ok c /\ dt_min <= start_time c /\ end_time c <= dt_max /\ end_time c <= floor_ms wm /\
  from (end_time c) (windows_of mgr (combine_keys (keys c))).

Record sessions_ok (mgr : SessionWindowManager) (wm : DateTime) (cs : list Window) : Prop := {
  ss_wf : session_wf mgr;
  ss_in : forall k w, w ∈ windows_of mgr k -> win_in w;
  ss_closed : forall c, c ∈ cs -> closed_ok mgr wm c
}.

Lemma elem_remaining wm w s : w ∈ remaining wm s -> w ∈ s.
Proof. by intros [_ ?]%list_elem_of_filter. Qed.
Lemma elem_expired wm w s : w ∈ expired wm s -> w ∈ s /\ end_time w <= wm.
Proof. by intros [? ?]%list_elem_of_filter. Qed.

Lemma sessions_advance mgr wm wm' cs : wm <= wm' -> sessions_ok mgr wm cs -> sessions_ok mgr wm' cs.
Proof.
  intros Hle [Hw Hi Hc]. split; try done. intros c Hx. destruct (Hc c Hx) as (? & ? & ? & He & ?).
  split_and!; try done. pose proof (floor_ms_le wm wm' Hle). lia.
Qed.

Lemma sessions_close mgr wm t cs mgr' ms :
  t <= wm -> sessions_ok mgr wm cs -> close_windows mgr t = (mgr', ms) ->
  sessions_ok mgr' wm (cs ++ closes ms) /\ timeout mgr' = timeout mgr.
Proof.
  intros Ht [Hw Hi Hc] Hcl. destruct (session_close_spec mgr mgr' t ms Hw Hcl) as (Hw' & K & _ & Hto).
  assert (Hfrom : forall L k, from L (windows_of mgr k) -> from L (windows_of mgr' k) /\ from L (of_key k (closes ms))).
  { intros L k HL. destruct (ck_from _ _ _ _ _ _ (K k) L) as [H1 H2].
    - intros w [Hx _]%elem_expired. by apply HL.
    - split; [|done]. apply H2. intros w Hx%elem_remaining. by apply HL. }
  split; [|done]. split; [done|..].
  - intros k w Hx. destruct (ck_ends _ _ _ _ _ _ (K k) w Hx) as (w0 & Hw0%elem_remaining & E).
    destruct (Hi k w0 Hw0) as (_ & ? & ?). unfold win_in. rewrite <- E. split_and!; try done.
    apply (proj1 (Hfrom dt_min k ltac:(intros y Hy; by apply (Hi k))) w Hx).
  - intros c [Hx|Hx]%elem_of_app.
    + destruct (Hc c Hx) as (? & ? & ? & ? & Hfr). split_and!; try done. by apply Hfrom.
    + set (k := combine_keys (keys c)). assert (Hk : c ∈ of_key k (closes ms)) by (by apply list_elem_of_filter).
      destruct (ck_closes _ _ _ _ _ _ (K k) c Hk) as (Hok & _ & _ & Hfr). split_and!; try done.
      * by apply (Hfrom dt_min k ltac:(intros y Hy; by apply (Hi k))).
      * apply (ck_until _ _ _ _ _ _ (K k) dt_max); [|done]. intros y [Hy _]%elem_expired. by apply (Hi k).
      * apply (ck_until _ _ _ _ _ _ (K k) (floor_ms wm)); [|done]. intros y [Hy He]%elem_expired.
        apply floor_ms_aligned; [by apply (Hi k)|lia].
Qed.

(** A window after an assignment is an old one, the window of the message, or their hull. *)
Lemma session_assign_elem mgr msg mgr' ms nw k w :
  session_wf mgr -> session_window_of (timeout mgr) msg = Some nw -> assign_windows mgr msg = Some (mgr', ms) ->
  w ∈ windows_of mgr' k ->
  w ∈ windows_of mgr k \/
  k = combine_keys (m_keys msg) /\ (w = nw \/ exists ex, ex ∈ windows_of mgr k /\
    start_time w = Z.min (start_time nw) (start_time ex) /\ end_time w = Z.max (end_time nw) (end_time ex)).
Proof.
  intros Hw Enw Ha. unfold assign_windows in Ha. rewrite Enw in Ha. cbn in Ha. fold (windows_of mgr (combine_keys (m_keys msg))) in Ha.
  set (key := combine_keys (m_keys msg)) in *. injection Ha as Ha.
  assert (Hset : forall s, (forall x, x ∈ s -> x ∈ windows_of mgr key \/ x = nw \/ exists ex, ex ∈ windows_of mgr key /\
      start_time x = Z.min (start_time nw) (start_time ex) /\ end_time x = Z.max (end_time nw) (end_time ex)) ->
    w ∈ windows_of (set_windows mgr key s) k -> w ∈ windows_of mgr k \/ k = key /\ (w = nw \/ exists ex,
      ex ∈ windows_of mgr k /\ start_time w = Z.min (start_time nw) (start_time ex) /\ end_time w = Z.max (end_time nw) (end_time ex))).
  { intros s Hs. unfold windows_of at 1, set_windows. cbn [active_windows]. destruct (decide (k = key)) as [->|Hne].
    - rewrite lookup_insert_eq. intros Hx. destruct (Hs w Hx) as [?|?]; [by left|by right].
    - rewrite lookup_insert_ne by done. by left. }
  pose proof (find_window_spec (windows_of mgr key) nw) as Hf. destruct (find_window_to_merge _ nw) as [ex|].
  - destruct Hf as [Hex Hov]. unfold expand_window_if_needed in Ha. rewrite Hov in Ha. cbn [negb] in Ha.
    destruct (_ && _); injection Ha as <- _; apply Hset; [by left|].
    intros x [->|Hx]%bt_insert_elem_inv; [right; right; by exists ex|].
    apply bt_remove_elem in Hx as [Hx _]; [by left|apply windows_of_wf; done].
  - injection Ha as <- _. apply Hset. intros x [->|Hx]%bt_insert_elem_inv; [by right; left|by left].
Qed.

Lemma assign_closes mgr msg mgr' ms : assign_windows mgr msg = Some (mgr', ms) -> closes ms = [].
Proof. unfold assign_windows. intros Ha. repeat case_match; simplify_eq; done. Qed.

Lemma sessions_assign mgr wm cs msg mgr' ms :
  sessions_ok mgr wm cs -> wm <= m_event_time msg -> 0 < as_millis_i64 (timeout mgr) ->
  in_i64 (timestamp_millis (m_event_time msg) + as_millis_i64 (timeout mgr)) ->
  assign_windows mgr msg = Some (mgr', ms) ->
  sessions_ok mgr' wm cs /\ timeout mgr' = timeout mgr.
Proof.
  intros [Hw Hi Hc] Hwm Ht Hr Ha. destruct (session_assign_effect _ mgr mgr' msg ms Hw Ht Hr Ha) as (Hw' & _).
  assert (exists nw, session_window_of (timeout mgr) msg = Some nw) as [nw Enw].
  { unfold assign_windows in Ha. destruct (session_window_of _ _); [eauto|done]. }
  destruct (session_window_spec _ _ _ Enw Ht Hr) as (Hst & Hen & Hks & Hok).
  assert (Hnw : win_in nw).
  { unfold session_window_of in Enw. rewrite wrap_i64_id in Enw by done.
    destruct (from_timestamp_millis (timestamp_millis _)) as [a|] eqn:Ea; [|done]. cbn in Enw.
    destruct (from_timestamp_millis (timestamp_millis _ + _)) as [b|] eqn:Eb; [|done]. cbn in Enw. injection Enw as <-.
    rewrite from_timestamp_millis_spec in Ea, Eb. case_decide; [|done]. case_decide; [|done]. injection Ea as <-. injection Eb as <-.
    unfold win_in. cbn [start_time end_time]. split_and!; [lia|lia|apply Z.divide_factor_r]. }
  split; [|unfold assign_windows in Ha; repeat case_match; by simplify_eq]. split; [done|..].
  - intros k w Hx. apply (session_assign_elem mgr msg mgr' ms nw k w Hw Enw Ha) in Hx
      as [Hx|(-> & [->|(ex & Hex & E1 & E2)])]; [by apply (Hi k)|done|].
    destruct Hnw as (? & ? & ?), (Hi _ ex Hex) as (? & ? & ?). unfold win_in. rewrite E1, E2.
    split_and!; [lia|lia|]. by destruct (Z.max_spec (end_time nw) (end_time ex)) as [[_ ->]|[_ ->]].
  - intros c Hx. destruct (Hc c Hx) as (? & ? & ? & He & Hfr). split_and!; try done.
    assert (Hcn : end_time c <= start_time nw).
    { rewrite Hst, timestamp_millis_spec. change (_ / _ * _) with (floor_ms (m_event_time msg)).
      pose proof (floor_ms_le wm (m_event_time msg) Hwm). lia. }
    intros w Hy. apply (session_assign_elem mgr msg mgr' ms nw _ w Hw Enw Ha) in Hy
      as [Hy|(_ & [->|(ex & Hex & E1 & E2)])]; [by apply Hfr|done|].
    specialize (Hfr ex Hex). lia.
Qed.

Lemma sessions_delete mgr wm cs w : sessions_ok mgr wm cs -> sessions_ok (delete_window mgr w) wm cs.
Proof. intros [[Ha Hcl] Hi Hc]. split; [|done..]. split; [done|]. by apply bt_remove_sorted. Qed.
End Sessions.

(** ** The system over sessions *)

Section SessionSystem.
Context `{Chrono} `{HashOrder} (vertex : string) (to : Duration).

(** What the user-defined function of a session vertex promises, given what was sent so far: it
    reports the end of a window only after it was told to close it. Event times are in range. *)
Definition label_ok (outs : list UnalignedWindowMessage) (l : ULabel) : Prop :=
  match l with
  | UInput m => in_i64 (timestamp_millis (m_event_time m) + as_millis_i64 to)
  | UResponse _ (RSession _ r) =>
      s_eof r = true -> forall w, (s_keyed_window r ≫= window_of_keyed) = Some w -> w ∈ closes outs
  | UResponse _ (RAccumulator _) => False
  | _ => True
  end.

Fixpoint labels_ok (outs : list UnalignedWindowMessage) (s : USystem) (ls : list ULabel) : Prop :=
  match ls with
  | [] => True
  | l :: ls => label_ok outs l /\
      match uexec vertex s l with Some (s', out) => labels_ok (outs ++ out) s' ls | None => True end
  end.

Definition tracked_ok (cs : list Window) (a : ActiveStream) : Prop :=
  match as_task a with
  | TaskRunning t => map_Forall (fun _ w => w ∈ cs) (tracked_windows t)
  | TaskEnded => True
  end.

(** The part of the invariant that the reducer alone keeps. *)
Definition reducer_ok (r : UnalignedReducer) (cs : list Window) : Prop :=
  exists mgr, u_manager r = Session mgr /\ timeout mgr = to /\ sessions_ok mgr (u_watermark r) cs.

Record usystem_ok (s : USystem) (outs : list UnalignedWindowMessage) : Prop := mkUSystemOk {
  uo_reducer : reducer_ok (us_reducer s) (closes outs);
  uo_lateness : 0 <= u_lateness (us_reducer s);
  uo_streams : map_Forall (fun _ a => tracked_ok (closes outs) a) (us_streams s);
  uo_gc : forall g, g ∈ us_gc_events s -> exists c, c ∈ closes outs /\ g = window_to_gc c
}.

Lemma close_by_wm_ok r wm cs r' out :
  reducer_ok r cs -> 0 <= u_lateness r -> wm <= u_watermark r -> close_windows_by_wm r wm = Some (r', out) ->
  reducer_ok r' (cs ++ closes out) /\ u_lateness r' = u_lateness r /\ u_watermark r' = u_watermark r.
Proof.
  intros (mgr & Em & Et & Hs) Hl Hwm. unfold close_windows_by_wm. rewrite dt_add_spec. case_decide; [|done]. rewrite Em. cbn [u_close_windows].
  destruct (close_windows mgr _) as [mgr' ms] eqn:Ec. intros [= <- <-].
  apply (sessions_close mgr (u_watermark r) _ cs) in Ec as [Hs' Ht']; [|lia|done].
  split; [|done]. exists mgr'. split_and!; [done|congruence|done].
Qed.

Lemma reducer_advance r wm cs : u_watermark r <= wm -> reducer_ok r cs -> reducer_ok (with_watermark r wm) cs.
Proof.
  intros Hle (mgr & Em & Et & Hs). exists mgr. split_and!; try done. by eapply sessions_advance.
Qed.

Lemma admit_accept r m : u_admit_message r m = Some Accept -> u_watermark r <= m_event_time m.
Proof. unfold u_admit_message. repeat case_match; try done; intros; simplify_eq; zify_bool; lia. Qed.

Lemma assign_and_close_ok r cs m r' out :
  reducer_ok r cs -> 0 <= u_lateness r -> 0 < as_millis_i64 to ->
  in_i64 (timestamp_millis (m_event_time m) + as_millis_i64 to) ->
  u_assign_and_close_windows r m = Some (r', out) ->
  reducer_ok r' (cs ++ closes out) /\ u_lateness r' = u_lateness r.
Proof.
  intros Hr Hl Hto Hin. unfold u_assign_and_close_windows.
  destruct (from_timestamp_millis (-1)) as [d|]; [|done]. set (r1 := with_watermark r _).
  assert (Hr1 : reducer_ok r1 cs) by (apply reducer_advance; [apply Z.le_max_l|done]).
  destruct (u_admit_message r1 m) as [a|] eqn:Ea; [|done].
  destruct a; try (intros [= <- <-]; rewrite app_nil_r; by split).
  destruct (close_windows_by_wm r1 (u_watermark r1)) as [[r2 cl]|] eqn:Ec; [|done].
  destruct (close_by_wm_ok r1 _ cs r2 cl Hr1 Hl (Z.le_refl _) Ec) as ((mgr & Em & Et & Hs) & Hl2 & Hw2). rewrite Em. cbn [u_assign_windows].
  destruct (assign_windows mgr m) as [[mgr' ms]|] eqn:Eas; [|done]. intros [= <- <-].
  rewrite session_closes_app, (assign_closes _ _ _ _ Eas), app_nil_r. rewrite <- Et in Hto, Hin.
  destruct (sessions_assign mgr (u_watermark r2) (cs ++ closes cl) m mgr' ms Hs) as [Hs' Et'];
    [rewrite Hw2; by apply admit_accept|done..|].
  split; [|done]. exists mgr'. by rewrite Et', Et.
Qed.

Lemma u_handle_ok r cs m r' out :
  reducer_ok r cs -> 0 <= u_lateness r -> 0 < as_millis_i64 to ->
  in_i64 (timestamp_millis (m_event_time m) + as_millis_i64 to) ->
  u_handle r m = Some (r', out) -> reducer_ok r' (cs ++ closes out) /\ u_lateness r' = u_lateness r.
Proof.
  intros Hr Hl Hto Hin. unfold u_handle. destruct (u_shutting_down r); [intros [= <- <-]; rewrite app_nil_r; by split|].
  destruct (m_typ m).
  - destruct (u_keyed r); by apply assign_and_close_ok.
  - destruct (m_watermark m) as [idle|]; [|intros [= <- <-]; rewrite app_nil_r; by split].
    destruct (u_watermark r <? idle) eqn:E; [|intros [= <- <-]; rewrite app_nil_r; by split].
    zify_bool. intros Hc. apply (close_by_wm_ok _ idle cs) in Hc as (? & ? & _); [by split| |done|done].
    apply reducer_advance; [lia|done].
Qed.

Lemma tracked_ok_app cs cs' a : tracked_ok cs a -> tracked_ok (cs ++ cs') a.
Proof.
  unfold tracked_ok. destruct (as_task a); [|done]. intros Ht k w Hk. apply elem_of_app. left. by apply (Ht k).
Qed.

Lemma delete_all_ok mgr wm cs (l : list (list string * Window)) :
  timeout mgr = to -> sessions_ok mgr wm cs ->
  exists mgr', foldl (fun mgr kw => u_delete_window mgr kw.2) (Session mgr) l = Session mgr' /\
    timeout mgr' = to /\ sessions_ok mgr' wm cs.
Proof.
  revert mgr. induction l as [|kw l IH]; intros mgr Ht Hs; cbn [foldl u_delete_window]; [by exists mgr|].
  apply IH; [done|by apply sessions_delete].
Qed.

(** A flush keeps the invariant, whatever becomes of the stream of the task. *)
Lemma flush_task_ok s outs slot a t w s' e :
  usystem_ok s outs -> us_streams s !! slot = Some a -> as_task a = TaskRunning t ->
  flush_task s t w = (s', e) -> usystem_ok s' outs /\ us_streams s' = us_streams s.
Proof.
  intros [(mgr & Em & Et & Hs) Hl Hst Hgc] Ha Et' Hf. pose proof (Hst slot a Ha) as Ht. unfold tracked_ok in Ht. rewrite Et' in Ht.
  unfold flush_task, flush_windows in Hf. destruct w; injection Hf as <- <-; [by split; [split; [exists mgr|..]|]|].
  split; [|done]. split; try done; cbn [us_reducer us_gc_events].
  - unfold delete_tracked_windows. rewrite Em.
    destruct (delete_all_ok mgr (u_watermark (us_reducer s)) (closes outs) (hm_iter (tracked_windows t)) Et Hs) as (mgr' & E & ? & ?).
    rewrite E. by exists mgr'.
  - intros g [Hg|Hg]%elem_of_app; [by apply Hgc|]. unfold write_gc_events in Hg.
    destruct (us_gc_wal s); [|by apply elem_of_nil in Hg].
    apply list_elem_of_fmap in Hg as ([k x] & -> & Hk%elem_of_hm_iter). exists x. split; [by apply (Ht k)|done].
Qed.

Lemma usystem_insert s outs slot a : usystem_ok s outs -> tracked_ok (closes outs) a ->
  usystem_ok (with_streams s (<[slot := a]> (us_streams s))) outs.
Proof. intros [? ? ? ?] Ha. split; try done. by apply map_Forall_insert_2. Qed.

Lemma usystem_error s outs e : usystem_ok s outs -> usystem_ok (with_error s e) outs.
Proof. by intros [? ? ? ?]. Qed.

(** A step of a task keeps the invariant if what it does to the system and to the task does. *)
Lemma on_task_ok s outs slot f s' :
  usystem_ok s outs ->
  (forall a t s1 st, us_streams s !! slot = Some a -> as_task a = TaskRunning t -> f t = Some (s1, st) ->
    usystem_ok s1 outs /\ tracked_ok (closes outs) (mkActiveStream [] st)) ->
  on_task s slot f = Some s' -> usystem_ok s' outs.
Proof.
  intros Hs Hf. unfold on_task. destruct (us_streams s !! slot) as [[ms [t|]]|] eqn:Ea; try by intros [= <-].
  destruct (f t) as [[s1 st]|] eqn:Ef; [|done]. intros [= <-].
  destruct (Hf _ t s1 st eq_refl eq_refl Ef) as [H1 H2]. by apply usystem_insert.
Qed.

Lemma on_response_ok outs slot r t t' :
  label_ok outs (UResponse slot r) -> map_Forall (fun _ w => w ∈ closes outs) (tracked_windows t) ->
  on_response vertex t r = Some t' -> map_Forall (fun _ w => w ∈ closes outs) (tracked_windows t').
Proof.
  intros Hok Ht. destruct r as [r|i r]; [done|]. simpl in Hok. unfold on_response.
  destruct (s_eof r) eqn:Ee; [|by destruct (message_of_session _ _ _); [intros [= <-]|]].
  destruct (s_keyed_window r) as [kw|]; [|done]. destruct (window_of_keyed kw) as [w|] eqn:Ew; [|done].
  intros [= <-]. apply map_Forall_insert_2; [|done]. by apply Hok.
Qed.

Lemma uexec_ok s outs l s' out :
  0 < as_millis_i64 to -> usystem_ok s outs -> label_ok outs l -> uexec vertex s l = Some (s', out) ->
  usystem_ok s' (outs ++ out).
Proof.
  intros Hto Hs Hok He. destruct l as [m| | |slot r|slot w|slot w h]; cbn [uexec] in He.
  - destruct (u_handle (us_reducer s) m) as [[r' o]|] eqn:Eh; [|done]. injection He as <- <-.
    destruct Hs as [Hr Hl Hst Hgc]. destruct (u_handle_ok _ _ _ _ _ Hr Hl Hto Hok Eh) as [Hr' Hl'].
    split; cbn [us_reducer us_streams us_gc_events]; rewrite ?session_closes_app; [done|lia|..].
    + intros k a Hk. by apply tracked_ok_app, (Hst k).
    + intros g Hg. destruct (Hgc g Hg) as (c & Hc & ->). exists c. split; [apply elem_of_app; by left|done].
  - assert (usystem_ok s' outs /\ out = []) as [? ->]; [|by rewrite app_nil_r].
    destruct (us_errors s) as [|e es]; [by injection He as <- <-|]. unfold u_handle_error in He.
    destruct Hs as [Hr Hl Hst Hgc]. destruct (u_final_result (us_reducer s)); injection He as <- <-; by split.
  - assert (usystem_ok s' outs /\ out = []) as [? ->]; [|by rewrite app_nil_r].
    destruct (us_channel s) as [|msg rest]; injection He as <- <-; [done|]. split; [|done].
    destruct Hs as [Hr Hl Hst Hgc]. set (s0 := mkUSystem _ _ _ _ _ _ _ _).
    assert (Hs0 : usystem_ok s0 outs) by (by split). unfold u_handle_window_message.
    destruct (us_streams s0 !! pnf_slot msg) as [[ms [t|]]|] eqn:Ea; [..|done|]; apply usystem_insert; try done.
    by apply (Hst _ _ Ea).
  - destruct (on_task s slot _) as [s1|] eqn:Eo; [|done]. injection He as <- <-. rewrite app_nil_r.
    eapply on_task_ok; [exact Hs| |exact Eo]. intros a t s2 st Ha Et Hf. cbv beta in Hf.
    destruct (on_response vertex t r) as [t'|] eqn:Er; [|done]. injection Hf as <- <-. split; [done|].
    eapply on_response_ok; [exact Hok| |exact Er]. pose proof (uo_streams _ _ Hs slot a Ha) as Hx. unfold tracked_ok in Hx. by rewrite Et in Hx.
  - destruct (on_task s slot _) as [s1|] eqn:Eo; [|done]. injection He as <- <-. rewrite app_nil_r.
    eapply on_task_ok; [exact Hs| |exact Eo]. intros a t s2 st Ha Et Hf. cbv beta in Hf.
    destruct (flush_task s t w) as [s3 e] eqn:Ef. destruct (flush_task_ok s outs slot a t w s3 e Hs Ha Et Ef) as [H3 _].
    destruct e; injection Hf as <- <-; (split; [by try apply usystem_error|]); [done|by apply map_Forall_empty].
  - destruct (on_task s slot _) as [s1|] eqn:Eo; [|done]. injection He as <- <-. rewrite app_nil_r.
    eapply on_task_ok; [exact Hs| |exact Eo]. intros a t s2 st Ha Et Hf. cbv beta in Hf.
    destruct (flush_task s t w) as [s3 e] eqn:Ef. destruct (flush_task_ok s outs slot a t w s3 e Hs Ha Et Ef) as [H3 _].
    destruct e; injection Hf as <- <-; (split; [|done]); [by apply usystem_error|]. destruct h; by try apply usystem_error.
Qed.

Lemma urun_ok ls : 0 < as_millis_i64 to -> forall s outs s' out,
  usystem_ok s outs -> labels_ok outs s ls -> urun vertex s ls = Some (s', out) -> usystem_ok s' (outs ++ out).
Proof.
  intros Hto. induction ls as [|l ls IH]; intros s outs s' out Hs Hok Hr; simpl in Hr.
  { injection Hr as <- <-. by rewrite app_nil_r. }
  destruct (uexec vertex s l) as [[s1 o1]|] eqn:E1; [|done]. destruct (urun vertex s1 ls) as [[s2 o2]|] eqn:E2; [|done].
  injection Hr as <- <-. destruct Hok as [Hl Hok]. rewrite E1 in Hok. rewrite app_assoc.
  eapply IH; [by eapply uexec_ok|done|done].
Qed.

Lemma usystem_new_ok lateness keyed gc s :
  0 <= lateness -> usystem_new (Session (session_new to)) lateness keyed gc = Some s -> usystem_ok s [].
Proof.
  unfold usystem_new, u_reducer_new. intros Hl. destruct (from_timestamp_millis (-1)) as [wm|]; [|done]. intros [= <-].
  split; try done; [|by intros g ?%elem_of_nil]. exists (session_new to). split_and!; try done.
  assert (He : forall k w, w ∉ windows_of (session_new to) k) by (intros k w; apply not_elem_of_nil).
  split.
  - split; [|constructor]. intros k s0. cbn [active_windows session_new]. by rewrite lookup_empty.
  - intros k w Hw. by apply He in Hw.
  - by intros c ?%elem_of_nil.
Qed.
End SessionSystem.

(** C19: garbage collection of sessions. In every interleaving of the main task, the actor and the
    reduce tasks, if the user-defined function reports only windows it was told to close, every
    GC event written is of a window that was closed, and compaction of the write-ahead log with
    all the GC events keeps every message of a session that is still active. *)
Theorem session_gc_safe (C : Chrono) (O : HashOrder) (K : WalCodec) (vertex : string) (to lateness : Duration)
    (keyed gc : bool) (ls : list ULabel) (s0 s : USystem) (outs : list UnalignedWindowMessage)
    (mgr : SessionWindowManager) (gcs : list GcEventEntry) :
  0 <= lateness -> 0 < as_millis_i64 to ->
  usystem_new (Session (session_new to)) lateness keyed gc = Some s0 ->
  labels_ok vertex to [] s0 ls -> urun vertex s0 ls = Some (s, outs) ->
  u_manager (us_reducer s) = Session mgr -> (gc_of_proto <$> us_gc_events s) = (Some <$> gcs) ->
  (forall g, g ∈ gcs -> exists c, c ∈ closes outs /\ gc_end_time g = end_time c /\ gc_keys g = Some (keys c)) /\
  (forall m b x, wal_to_bytes m = Ok b -> dt_valid (m_event_time m) ->
    x ∈ windows_of mgr (combine_keys (m_keys m)) -> start_time x <= m_event_time m ->
    keeps Unaligned gcs b = Some true).
Proof.
  intros Hl Hto Hnew Hlab Hrun Hmgr Hgcs.
  pose proof (usystem_new_ok to lateness keyed gc s0 Hl Hnew) as H0.
  pose proof (urun_ok vertex to ls Hto s0 [] s outs H0 Hlab Hrun) as [(mgr' & Em & _ & Hs) _ _ Hg]. simpl in Hs, Hg.
  rewrite Hmgr in Em. injection Em as <-.
  assert (Hall : forall g, g ∈ gcs -> exists c, c ∈ closes outs /\ gc_end_time g = end_time c /\ gc_keys g = Some (keys c)).
  { intros g Hin. assert (Some g ∈ (gc_of_proto <$> us_gc_events s)) as (p & Ep & Hp)%list_elem_of_fmap.
    { rewrite Hgcs. by apply list_elem_of_fmap_2. }
    destruct (Hg p Hp) as (c & Hc & ->). exists c. split; [done|].
    destruct (ss_closed _ _ _ Hs c Hc) as (Hok & Hmin & Hmax & _ & _). unfold win_ok in Hok.
    cbn in Ep. rewrite !utc_timestamp_roundtrip in Ep by (unfold dt_valid; lia). by injection Ep as ->. }
  split; [exact Hall|]. intros m b x Hb Hv Hx Hst.
  destruct (unaligned_retention C K gcs m b Hb Hv) as (keep & -> & Hkeep). f_equal. apply Hkeep, Forall_forall.
  intros g Hin Hk. destruct (Hall g Hin) as (c & Hc & -> & Hks). unfold same_key in Hk. rewrite Hks in Hk.
  apply bool_decide_eq_true in Hk. destruct (ss_closed _ _ _ Hs c Hc) as (_ & _ & _ & _ & Hfr).
  change (join_keys (keys c)) with (combine_keys (keys c)) in Hk. change (join_keys (m_keys m)) with (combine_keys (m_keys m)) in Hk.
  rewrite Hk in Hfr. specialize (Hfr x Hx). lia.
Qed.

(** * Accumulators

    Only the last window of some keys is tracked between two flushes. Deleting it deletes all,
    since the ends of the windows of responses do not decrease. *)

(** [t] is not before the end of any window of the key. *)
Definition after_all (l : list Window) (k : string) (t : DateTime) : Prop :=
  Forall (fun w => combine_keys (keys w) = k -> end_time w <= t) l.
#[global] Instance after_all_dec l k t : Decision (after_all l k t).
Proof. unfold after_all. apply _. Defined.
Definition has_key (l : list Window) (k : string) : bool := existsb (fun w => bool_decide (combine_keys (keys w) = k)) l.

Definition cut_state (l : list Window) (k : string) (st : WindowState) : WindowState :=
  mkState (ws_window st) (filter (after_all l k) (message_timestamps st)) (max_event_time st).
Definition cut_closed (l : list Window) (k : string) (st : WindowState) : option WindowState :=
  match message_timestamps (cut_state l k st) with
  | [] => if has_key l k then None else Some (cut_state l k st)
  | _ => Some (cut_state l k st)
  end.

Lemma cut_state_nil k st : cut_state [] k st = st.
Proof.
  destruct st as [w ts mx]. unfold cut_state. cbn. f_equal. induction ts as [|t ts IH]; [done|].
  rewrite filter_cons, decide_True by constructor. by f_equal.
Qed.

Lemma after_all_snoc l w k t :
  after_all (l ++ [w]) k t <-> after_all l k t /\ (combine_keys (keys w) = k -> end_time w <= t).
Proof. unfold after_all. by rewrite Forall_app, Forall_singleton. Qed.

Lemma cut_state_snoc l w st :
  (delete_timestamps_before (cut_state l (combine_keys (keys w)) st) (end_time w)).1 = cut_state (l ++ [w]) (combine_keys (keys w)) st.
Proof.
  unfold delete_timestamps_before, cut_state. cbn. f_equal. rewrite list_filter_filter. apply list_filter_iff.
  intros t. rewrite after_all_snoc. naive_solver.
Qed.
Lemma cut_state_other l w k st : combine_keys (keys w) <> k -> cut_state (l ++ [w]) k st = cut_state l k st.
Proof.
  intros Hne. unfold cut_state. f_equal. apply list_filter_iff. intros t. rewrite after_all_snoc. naive_solver.
Qed.
Lemma has_key_snoc l w k : has_key (l ++ [w]) k = has_key l k || bool_decide (combine_keys (keys w) = k).
Proof. unfold has_key. rewrite existsb_app. cbn. by rewrite orb_false_r. Qed.

(** One more deletion from a closed window. *)
Definition drain (st : WindowState) (e : DateTime) : option WindowState :=
  let (st', drained) := delete_timestamps_before st e in if drained then None else Some st'.

Lemma cut_closed_snoc l w st :
  cut_closed l (combine_keys (keys w)) st ≫= (fun st => drain st (end_time w)) = cut_closed (l ++ [w]) (combine_keys (keys w)) st.
Proof.
  set (k := combine_keys (keys w)).
  assert (Hd : drain (cut_state l k st) (end_time w) = cut_closed (l ++ [w]) k st).
  { unfold cut_closed, drain. rewrite <- cut_state_snoc, has_key_snoc, bool_decide_true, orb_true_r by done. fold k.
    destruct (delete_timestamps_before (cut_state l k st) (end_time w)) as [st' d] eqn:E.
    assert (d = match message_timestamps st' with [] => true | _ => false end) as ->.
    { unfold delete_timestamps_before in E. by injection E as <- <-. }
    cbn [fst]. by destruct (message_timestamps st'). }
  rewrite <- Hd. unfold cut_closed. destruct (message_timestamps (cut_state l k st)) as [|t ts] eqn:Et; [|done].
  destruct (has_key l k); [|done]. cbn [mbind option_bind]. unfold drain, delete_timestamps_before. by rewrite Et.
Qed.

(** What deleting a list of windows does to a key. *)
Lemma acc_delete_all mgr l k :
  let mgr' := foldl acc_delete_window mgr l in
  acc_active mgr' !! k = cut_state l k <$> acc_active mgr !! k /\
  acc_closed mgr' !! k = acc_closed mgr !! k ≫= cut_closed l k /\ acc_timeout mgr' = acc_timeout mgr.
Proof.
  induction l as [|w l IH] using rev_ind; cbn zeta.
  { cbn [foldl]. split_and!; [..|done].
    - destruct (acc_active mgr !! k); cbn; by rewrite ?cut_state_nil.
    - destruct (acc_closed mgr !! k) as [st|]; [|done]. cbn. unfold cut_closed. rewrite cut_state_nil. cbn. by case_match. }
  rewrite foldl_app. cbn [foldl]. set (m1 := foldl acc_delete_window mgr l) in *. destruct IH as (Ha & Hc & Ht).
  set (kw := combine_keys (keys w)) in *. unfold acc_delete_window. fold kw. cbn [acc_active acc_closed acc_timeout].
  split_and!; [..|done].
  - destruct (decide (kw = k)) as [<-|Hne].
    + rewrite Ha. destruct (acc_active mgr !! kw) as [st|]; cbn [fmap option_fmap option_map].
      * rewrite lookup_insert_eq. f_equal. apply cut_state_snoc.
      * by rewrite Ha.
    + transitivity (acc_active m1 !! k); [destruct (acc_active m1 !! kw); by rewrite ?lookup_insert_ne|].
      rewrite Ha. destruct (acc_active mgr !! k); cbn; by rewrite ?cut_state_other.
  - destruct (decide (kw = k)) as [<-|Hne].
    + transitivity (acc_closed m1 !! kw ≫= fun st => drain st (end_time w)).
      { destruct (acc_closed m1 !! kw) as [st|] eqn:E; [|done]. cbn [mbind option_bind]. unfold drain.
        destruct (delete_timestamps_before st _) as [st' []]; by rewrite ?lookup_delete_eq, ?lookup_insert_eq. }
      rewrite Hc. destruct (acc_closed mgr !! kw) as [st|]; [|done]. apply cut_closed_snoc.
    + transitivity (acc_closed m1 !! k).
      { destruct (acc_closed m1 !! kw) as [st|]; [|done]. destruct (delete_timestamps_before st _) as [st' []]; by rewrite ?lookup_delete_ne, ?lookup_insert_ne. }
      rewrite Hc. destruct (acc_closed mgr !! k) as [st|]; cbn; [|done].
      unfold cut_closed. by rewrite cut_state_other, has_key_snoc, bool_decide_false, orb_false_r.
Qed.

(** The windows tracked after some responses: the last one of each keys. *)
Definition track_all (ws : list Window) : gmap (list string) Window :=
  foldl (fun m w => <[keys w := w]> m) ∅ ws.

(** The ends of the windows of the same keys do not decrease. *)
Definition ends_up (ws : list Window) : Prop :=
  forall i j w w', (i <= j)%nat -> ws !! i = Some w -> ws !! j = Some w' -> keys w = keys w' -> end_time w <= end_time w'.

Lemma track_all_spec ws :
  (forall k w, track_all ws !! k = Some w -> w ∈ ws /\ keys w = k) /\
  (ends_up ws -> forall w, w ∈ ws -> exists w', track_all ws !! keys w = Some w' /\ end_time w <= end_time w').
Proof.
  induction ws as [|x ws [IH1 IH2]] using rev_ind; unfold track_all.
  { split; [|by intros _ w ?%elem_of_nil]. intros k w. cbn [foldl]. by rewrite lookup_empty. }
  rewrite foldl_app. cbn [foldl]. fold (track_all ws). split.
  - intros k w [[<- <-]|[Hne Hw]]%lookup_insert_Some; [split; [apply elem_of_app; right; by left|done]|].
    destruct (IH1 k w Hw). split; [apply elem_of_app; by left|done].
  - intros Hup w Hw. destruct (decide (keys w = keys x)) as [E|Hne].
    + rewrite E, lookup_insert_eq. exists x. split; [done|]. apply list_elem_of_lookup in Hw as [i Hi].
      assert (Hl : (ws ++ [x]) !! length ws = Some x) by (by rewrite lookup_app_r, Nat.sub_diag).
      apply (Hup i (length ws)); try done. apply lookup_lt_Some in Hi. rewrite length_app in Hi. cbn in Hi. lia.
    + rewrite lookup_insert_ne by done. apply IH2.
      * intros i j a b Hij Ha Hb. apply (Hup i j); try done; rewrite lookup_app_l; try done; by eapply lookup_lt_Some.
      * apply elem_of_app in Hw as [?|Hw%list_elem_of_singleton]; [done|by subst].
Qed.

Lemma cut_ext l l' k :
  (forall t, after_all l k t <-> after_all l' k t) -> has_key l k = has_key l' k ->
  (forall st, cut_state l k st = cut_state l' k st) /\ (forall st, cut_closed l k st = cut_closed l' k st).
Proof.
  intros Ha Hh. assert (Hc : forall st, cut_state l k st = cut_state l' k st).
  { intros st. unfold cut_state. f_equal. by apply list_filter_iff. }
  split; [done|]. intros st. unfold cut_closed. by rewrite Hc, Hh.
Qed.

Lemma delete_tracked_all `{HashOrder} (mgr : AccumulatorWindowManager) (ws : list Window) (t : ReduceTask) :
  ends_up ws -> tracked_windows t = track_all ws ->
  delete_tracked_windows (Accumulator mgr) t = Accumulator (foldl acc_delete_window mgr ws).
Proof.
  intros Hup Et. unfold delete_tracked_windows. rewrite Et. set (l := (hm_iter (track_all ws)).*2).
  assert (Hl : forall w, w ∈ l <-> track_all ws !! keys w = Some w).
  { intros w. unfold l. rewrite list_elem_of_fmap. split.
    - intros ([k x] & -> & Hx%elem_of_hm_iter). cbn. by destruct (proj1 (track_all_spec ws) k x Hx) as [_ ->].
    - intros Hw. exists (keys w, w). split; [done|]. by apply elem_of_hm_iter. }
  assert (Hfold : forall kws : list (list string * Window), foldl (fun m kw => u_delete_window m kw.2) (Accumulator mgr) kws =
    Accumulator (foldl acc_delete_window mgr kws.*2)).
  { intros kws. generalize mgr. induction kws as [|[k w] kws IH]; intros m; [done|]. cbn [foldl u_delete_window]. apply IH. }
  rewrite Hfold. fold l. destruct (track_all_spec ws) as [T1 T2].
  assert (Hdom : forall w, w ∈ ws -> exists w', w' ∈ l /\ keys w' = keys w /\ end_time w <= end_time w').
  { intros w Hw. destruct (T2 Hup w Hw) as (w' & Hw' & He). destruct (T1 _ _ Hw') as [_ Ek].
    exists w'. split_and!; [|done|done]. apply Hl. by rewrite Ek. }
  assert (Hsub : forall w, w ∈ l -> w ∈ ws) by (intros w Hw%Hl; by apply (T1 (keys w))).
  assert (Hext : forall k, (forall st, cut_state l k st = cut_state ws k st) /\ (forall st, cut_closed l k st = cut_closed ws k st)).
  { intros k. apply cut_ext.
    - intros u. unfold after_all. rewrite !Forall_forall. split; [|by auto]. intros Hx w Hw Hk.
      destruct (Hdom w Hw) as (w' & Hw' & Ek & He). specialize (Hx w' Hw'). rewrite Ek in Hx. specialize (Hx Hk). lia.
    - apply eq_bool_prop_intro. unfold has_key. rewrite !existb_True, !Exists_exists. split.
      + intros (w & Hw & Hk). exists w. split; [by apply Hsub|done].
      + intros (w & Hw & Hk). destruct (Hdom w Hw) as (w' & Hw' & Ek & _). exists w'. by rewrite Ek. }
  f_equal. destruct (foldl acc_delete_window mgr l) as [t1 a1 c1] eqn:E1, (foldl acc_delete_window mgr ws) as [t2 a2 c2] eqn:E2.
  assert (Hk : forall k, a1 !! k = a2 !! k /\ c1 !! k = c2 !! k /\ t1 = t2).
  { intros k. pose proof (acc_delete_all mgr l k) as (A1 & B1 & D1). pose proof (acc_delete_all mgr ws k) as (A2 & B2 & D2).
    rewrite E1 in A1, B1, D1. rewrite E2 in A2, B2, D2. cbn in *. destruct (Hext k) as [X1 X2]. rewrite A1, A2, B1, B2, D1, D2.
    split_and!; [| |done].
    - destruct (acc_active mgr !! k); [|done]. cbn. by rewrite X1.
    - destruct (acc_closed mgr !! k); [|done]. cbn. by rewrite X2. }
  destruct (Hk "") as (_ & _ & ->). f_equal; apply map_eq; intros k; apply Hk.
Qed.

(** The responses of an accumulator between two flushes. *)
Fixpoint on_responses `{Chrono} (vertex : string) (t : ReduceTask) (rs : list AccumulatorResponse) : option ReduceTask :=
  match rs with
  | [] => Some t
  | r :: rs => let? t' := on_response vertex t (RAccumulator r) in on_responses vertex t' rs
  end.
Definition response_window `{Chrono} (r : AccumulatorResponse) : option Window := a_window r ≫= window_of_keyed.

Lemma on_responses_tracked `{Chrono} vertex rs t t' :
  on_responses vertex t rs = Some t' ->
  exists ws, mapM response_window rs = Some ws /\
    tracked_windows t' = foldl (fun m w => <[keys w := w]> m) (tracked_windows t) ws.
Proof.
  revert t. induction rs as [|r rs IH]; intros t; cbn [on_responses]; [intros [= <-]; by exists []|].
  destruct (on_response vertex t (RAccumulator r)) as [t1|] eqn:E; [|done]. intros (ws & Hws & Ht)%IH.
  cbn [on_response] in E. destruct (a_window r) as [kw|] eqn:Ekw; [|done]. destruct (window_of_keyed kw) as [w|] eqn:Ew; [|done].
  assert (Et : tracked_windows t1 = <[keys w := w]> (tracked_windows t)).
  { destruct (a_eof r); [by injection E as <-|]. destruct (message_of_accumulator vertex r); [|done]. by injection E as <-. }
  assert (Hw : response_window r = Some w) by (unfold response_window; by rewrite Ekw).
  exists (w :: ws). split; [|by rewrite Ht, Et]. simpl. by rewrite Hw, Hws.
Qed.

(** The tracked windows of an accumulator. Keeping only the last window per keys between two
    writes, and deleting these in any order, leaves the window manager as deleting the window
    of every response does, if the ends of the windows of the same keys do not decrease. *)
Theorem accumulator_tracking (C : Chrono) (O : HashOrder) (vertex : string) (mgr : AccumulatorWindowManager)
    (rs : list AccumulatorResponse) (t : ReduceTask) (ws : list Window) :
  on_responses vertex task_new rs = Some t -> mapM response_window rs = Some ws -> ends_up ws ->
  delete_tracked_windows (Accumulator mgr) t = Accumulator (foldl acc_delete_window mgr ws).
Proof.
  intros Hr Hws Hup. apply on_responses_tracked in Hr as (ws' & Hws' & Ht). rewrite Hws in Hws'. injection Hws' as <-.
  by apply delete_tracked_all.
Qed.

(** * Runs *)

Definition ex_idle (ms : Z) : Message :=
  mkMessage MWMB [] None "" (OInt (mkIntOffset 9 0)) (ms * ns_per_ms) (Some (ms * ns_per_ms)) MessageID_default ∅ None false None.
Definition ex_eof (s e : Z) (ks : list string) : UdfResponse :=
  RSession 0 (mkSessionResponse None (Some (ex_kw s e ks)) true).

Definition ex_urun (ls : list ULabel) : option (USystem * list UnalignedWindowMessage) :=
  let? s := usystem_new (H := chrono_utc) (Session (session_new (10 * ns_per_ms))) 0 true true in
  urun (H := chrono_utc) (H0 := canonical_order) "v-0" s ls.

(** What a run leaves: the ends of the GC events, in seconds and nanoseconds, and the number of
    closed windows not collected. *)
Definition ex_left (ls : list ULabel) : option (list (option Timestamp) * nat) :=
  let? (s, _) := ex_urun ls in
  match u_manager (us_reducer s) with
  | Session mgr => Some (pgc_end_time <$> us_gc_events s, closed_window_count mgr)
  | Accumulator _ => None
  end.

Definition ex_two_sessions (k1 k2 : string) : list ULabel :=
  [UInput (session_event [k1] 0); UInput (session_event [k2] 100); UInput (ex_idle 1000); UActor; UActor; UActor; UActor;
   UResponse SHARED_PNF_SLOT (ex_eof 0 10 [k1]); UResponse SHARED_PNF_SLOT (ex_eof 100 110 [k2])].

(** Two sessions of one key that end between two flushes: only the last is tracked. The first is
    not collected and holds the watermark of the vertex back for good. *)
Example session_same_keys_leak :
  ex_left (ex_two_sessions "a" "b" ++ [UTick SHARED_PNF_SLOT (WReturned (Ok tt))]) =
    Some ([Some (mkTimestamp 0 110000000); Some (mkTimestamp 0 10000000)], 0%nat) /\
  ex_left (ex_two_sessions "a" "a" ++ [UTick SHARED_PNF_SLOT (WReturned (Ok tt))]) =
    Some ([Some (mkTimestamp 0 110000000)], 1%nat).
Proof. split; vm_compute; reflexivity. Qed.

(** A writer that returns an error is taken for one that has written: the windows are collected. *)
Example gc_after_failed_write :
  ex_left (ex_two_sessions "a" "b" ++ [UTick SHARED_PNF_SLOT (WReturned (Err (EOther "write")))]) =
    Some ([Some (mkTimestamp 0 110000000); Some (mkTimestamp 0 10000000)], 0%nat).
Proof. vm_compute. reflexivity. Qed.

Definition ex_codec : WalCodec :=
  short_codec (wal_to_proto (H := chrono_utc) (session_event ["a"] 100) (mkIntOffset 0 0))
    (window_to_gc (H := chrono_utc) (ms_window 0 10 ["a"])).
Definition ex_labels : list ULabel :=
  [UInput (session_event ["a"] 0); UInput (session_event ["a"] 100); UInput (ex_idle 50); UActor; UActor; UActor;
   UResponse SHARED_PNF_SLOT (ex_eof 0 10 ["a"]); UTick SHARED_PNF_SLOT (WReturned (Ok tt))].
Definition ex_new : USystem :=
  mkUSystem (mkUReducer (Session (session_new (10 * ns_per_ms))) 0 (- ns_per_ms) true (Ok tt) false) [] ∅ true [] [] [] false.
Definition ex_system : USystem := match ex_urun ex_labels with Some (s, _) => s | None => ex_new end.
Definition ex_manager : SessionWindowManager :=
  match u_manager (us_reducer ex_system) with Session mgr => mgr | Accumulator _ => session_new 0 end.

Lemma ex_labels_ok : labels_ok (H := chrono_utc) (H0 := canonical_order) "v-0" (10 * ns_per_ms) [] ex_new ex_labels.
Proof.
  vm_compute. split_and!; try done. intros _ w [= <-]. left.
Defined.

Lemma session_gc_safe_witness :
  us_gc_events ex_system = [window_to_gc (H := chrono_utc) (ms_window 0 10 ["a"])] /\
  keeps (H := chrono_utc) (H0 := ex_codec) Unaligned [mkGcEventEntry 0 (10 * ns_per_ms) (Some ["a"])] "m" = Some true.
Proof.
  split; [vm_compute; reflexivity|].
  refine (proj2 (session_gc_safe chrono_utc canonical_order ex_codec "v-0" (10 * ns_per_ms) 0 true true ex_labels ex_new ex_system
    (match ex_urun ex_labels with Some (_, out) => out | None => [] end) ex_manager
    [mkGcEventEntry 0 (10 * ns_per_ms) (Some ["a"])] _ _ _ ex_labels_ok _ _ _) (session_event ["a"] 100) "m"
    (ms_window 100 110 ["a"]) _ _ _ _).
  - lia.
  - vm_compute. reflexivity.
  - vm_compute. reflexivity.
  - vm_compute. reflexivity.
  - vm_compute. reflexivity.
  - vm_compute. reflexivity.
  - vm_compute. reflexivity.
  - vm_compute. split; discriminate.
  - vm_compute. left.
  - vm_compute. discriminate.
Defined.

Definition ex_acc_response (e : Z) (ks : list string) (eof : bool) : AccumulatorResponse :=
  mkAccumulatorResponse (Some (payload_of (H := chrono_utc) "id" (session_event ks 5))) (Some (ex_kw 0 e ks)) [] eof.
Definition ex_responses : list AccumulatorResponse :=
  [ex_acc_response 5 ["a"] false; ex_acc_response 7 ["b"] false; ex_acc_response 9 ["a"] true].
Definition ex_task : ReduceTask := default task_new (on_responses (H := chrono_utc) "v-0" task_new ex_responses).
Definition ex_accumulator : AccumulatorWindowManager :=
  mkAccumulator 10 {["a" := mkState (ms_window 0 5 ["a"]) [3 * ns_per_ms; 8 * ns_per_ms; 9 * ns_per_ms] (9 * ns_per_ms)]} ∅.

Lemma accumulator_tracking_witness :
  size (tracked_windows ex_task) = 2%nat /\
  delete_tracked_windows (H0 := canonical_order) (Accumulator ex_accumulator) ex_task =
  Accumulator (foldl acc_delete_window ex_accumulator [ms_window 0 5 ["a"]; ms_window 0 7 ["b"]; ms_window 0 9 ["a"]]).
Proof.
  split; [vm_compute; reflexivity|].
  refine (accumulator_tracking chrono_utc canonical_order "v-0" ex_accumulator ex_responses ex_task _ _ _ _).
  - vm_compute. reflexivity.
  - vm_compute. reflexivity.
  - intros i j w w' Hij Hi Hj. destruct i as [|[|[|i]]], j as [|[|[|j]]]; try done; cbn in Hi, Hj; simplify_eq; try lia;
      intros Hk; try (by vm_compute in Hk); vm_compute; done.
Defined.
