(* ===== verification/Source.v ===== *)
(** The source (src/rust/numaflow-core/src/source.rs): the loop that reads batches, tracks their
    messages, transforms, stamps and dispatches them, and the background tasks that pass the
    verdicts to the source, per batch or, in streaming mode, per message.

    The loop and the tasks are the steps of a relation and interleave freely. The source itself,
    the transformer, the watermark handle and the channels are external: their answers are
    arguments. The actor that serialises the calls, metrics and tracing are left out. *)
From S2P Require Import Prelude Clock Message Tracker F32 Throttle.
Open Scope Z_scope.

Definition NACK_RETRY_ATTEMPTS : nat := 1200.

Record SourceConfig := mkSourceConfig {
  sc_read_batch_size : nat;
  sc_concurrency : nat;
  sc_read_ahead : bool;
  sc_streaming : bool
}.

(** The ack tasks allowed at once: one per batch, or one per message in streaming mode. *)
Definition max_ack_tasks (c : SourceConfig) : nat :=
  if sc_streaming c then sc_concurrency c
  else if sc_read_ahead c then Nat.max 1 (sc_concurrency c / Nat.max (sc_read_batch_size c) 1) else 1.

(** * Calls of the source *)

Inductive SourceCall :=
  | CAck (offsets : list Offset)
  | CNack (offsets : list (Offset * option NackOptions)).

(** [answers i] is the answer to the [i]-th call, [cancelled i] whether the token is cancelled
    when it is judged. The result, and the number of calls. *)
Fixpoint source_retry (attempts : nat) (answers : nat -> option Error) (cancelled : nat -> bool) (i : nat) : option Error * nat :=
  match answers i with
  | None => (None, S i)
  | Some e =>
      match attempts with
      | O => (Some e, S i)
      | S attempts =>
          match e with
          | ENonRetryable _ => (Some e, S i)
          | _ => if cancelled i then (Some e, S i) else source_retry attempts answers cancelled (S i)
          end
      end
  end.

(** [ACK_RETRY_ATTEMPTS] is [usize::MAX]: [fuel] bounds the calls made. *)
Fixpoint source_ack_with_retry (fuel : nat) (answers : nat -> option Error) (cancelled : nat -> bool) (i : nat)
    : option (option Error * nat) :=
  match fuel with
  | O => None
  | S fuel =>
      match answers i with
      | None => Some (None, S i)
      | Some e =>
          match e with
          | ENonRetryable _ => Some (Some e, S i)
          | _ => if cancelled i then Some (Some e, S i) else source_ack_with_retry fuel answers cancelled (S i)
          end
      end
  end.

(** The nack is tried a bounded number of times and its failure is ignored: the number of calls. *)
Definition source_nack_with_retry (answers : nat -> option Error) (cancelled : nat -> bool) : nat :=
  (source_retry NACK_RETRY_ATTEMPTS answers cancelled 0).2.

(** * The ack task *)

Record AckTask := mkAckTask {
  at_pending : list Offset;                            (* verdict not yet received *)
  at_ack : list Offset;
  at_nack : list (Offset * option NackOptions)
}.
Definition ack_task_new (offsets : list Offset) : AckTask := mkAckTask offsets [] [].

(** The next verdict; [None] is a sender dropped without one. *)
Definition take_verdict (t : AckTask) (v : option ReadAck) : AckTask :=
  match at_pending t with
  | [] => t
  | off :: pending =>
      match v with
      | Some Ack => mkAckTask pending (at_ack t ++ [off]) (at_nack t)
      | Some (Nak o) => mkAckTask pending (at_ack t) (at_nack t ++ [(off, o)])
      | None => mkAckTask pending (at_ack t) (at_nack t)
      end
  end.

Definition nonempty {A} (l : list A) : bool := match l with [] => false | _ => true end.

(** The end of [invoke_ack]; [fuel] bounds the calls of the ack. The calls made, and the error. *)
Definition invoke_ack_end (fuel : nat) (t : AckTask) (ack_answers nack_answers : nat -> option Error) (cancelled : nat -> bool)
    : option (list SourceCall * option Error) :=
  let nack := if nonempty (at_nack t) then repeat (CNack (at_nack t)) (source_nack_with_retry nack_answers cancelled) else [] in
  if nonempty (at_ack t) then
    let? (r, n) := source_ack_with_retry fuel ack_answers cancelled 0 in
    let acks := repeat (CAck (at_ack t)) n in
    match r with
    | Some e => Some (acks, Some e)
    | None => Some (acks ++ nack, None)
    end
  else Some (nack, None).

(** * Reading and dispatching *)

(** The loop over a batch: the tracker, the messages taken in, and an error that ends the
    reading. [None] is a panic. *)
Fixpoint insert_batch (t : Tracker) (ms : list Message) : option (Tracker * list Message * Result unit) :=
  match ms with
  | [] => Some (t, [], Ok tt)
  | m :: ms =>
      let? (t', r) := tracker_insert t m in
      match r with
      | Ok _ => let? (t'', taken, r) := insert_batch t' ms in Some (t'', m :: taken, r)
      | Err (EDuplicateInflight _) => insert_batch t' ms
      | Err e => Some (t', [], Err e)
      end
  end.

Record DispatchEnv := mkDispatchEnv {
  de_transform : option (list Message -> Result (list Message));
  de_watermark : option DateTime;          (* fetched after the batch was published *)
  de_bypass : option (Message -> bool)     (* the router takes the message *)
}.

Definition set_is_late (m : Message) : Message :=
  mkMessage (m_typ m) (m_keys m) (m_tags m) (m_value m) (m_offset m) (m_event_time m) (m_watermark m) (m_id m)
    (m_headers m) (m_metadata m) true (m_nack_options m).

Definition mark_late (wm : option DateTime) (m : Message) : Message :=
  match wm with
  | Some wm => if m_event_time m <? wm then set_is_late m else m
  | None => m
  end.

(** The messages that go to the router and those that are sent downstream. *)
Definition dispatch (e : DispatchEnv) (ms : list Message) : Result (list Message * list Message) :=
  try! ms := (match de_transform e with None => Ok ms | Some f => f ms end) in
  let ms := mark_late (de_watermark e) <$> ms in
  Ok (match de_bypass e with
      | None => ([], ms)
      | Some b => (filter (fun m => b m = true) ms, filter (fun m => b m <> true) ms)
      end).

(** * Runs *)

Inductive SLoop :=
  | SRun                                                 (* at the head of the loop *)
  | SStream (rest : list Message)                        (* streaming: the messages not yet taken *)
  | SDispatch (ms : list Message) (rest : list Message)  (* taken, not yet dispatched *)
  | SDrain (r : Result unit)                             (* waits for the ack tasks *)
  | SDone (r : Result unit).

Record SourceState := mkSourceState {
  ss_loop : SLoop;
  ss_limiter : option RateLimit;
  ss_tracker : Tracker;
  ss_tasks : list AckTask;                (* each holds a permit *)
  ss_sent : list Message;                 (* to the router or downstream *)
  ss_verdicts : list (Offset * option ReadAck);
  ss_calls : list SourceCall;
  ss_cancelled : bool
}.

Definition s_loop (st : SourceState) (l : SLoop) : SourceState :=
  mkSourceState l (ss_limiter st) (ss_tracker st) (ss_tasks st) (ss_sent st) (ss_verdicts st) (ss_calls st) (ss_cancelled st).
Definition s_limiter (st : SourceState) (rl : option RateLimit) : SourceState :=
  mkSourceState (ss_loop st) rl (ss_tracker st) (ss_tasks st) (ss_sent st) (ss_verdicts st) (ss_calls st) (ss_cancelled st).
Definition s_tracker (st : SourceState) (t : Tracker) : SourceState :=
  mkSourceState (ss_loop st) (ss_limiter st) t (ss_tasks st) (ss_sent st) (ss_verdicts st) (ss_calls st) (ss_cancelled st).
Definition s_tasks (st : SourceState) (ts : list AckTask) : SourceState :=
  mkSourceState (ss_loop st) (ss_limiter st) (ss_tracker st) ts (ss_sent st) (ss_verdicts st) (ss_calls st) (ss_cancelled st).
Definition s_sent (st : SourceState) (ms : list Message) : SourceState :=
  mkSourceState (ss_loop st) (ss_limiter st) (ss_tracker st) (ss_tasks st) (ss_sent st ++ ms) (ss_verdicts st) (ss_calls st) (ss_cancelled st).

(** Rate limiting: one token per read. *)
Definition rate_token (limiter : option RateLimit) (cur : Z) (wakeups : list Z) : option RateLimit * bool :=
  match limiter with
  | None => (None, true)
  | Some rl => let (rl', n) := rate_acquire_n rl (Some 1) cur (Some wakeups) in (Some rl', negb (n =? 0))
  end.

(** What a read of the source leads to. *)
Definition on_read (c : SourceConfig) (st : SourceState) (answer : option (Result (list Message))) : option SourceState :=
  match answer with
  | None => Some (s_loop st (SDrain (Ok tt)))
  | Some (Err e) => Some (s_loop st (SDrain (Err e)))
  | Some (Ok ms) =>
      if sc_streaming c then Some (s_loop st (SStream ms))
      else
        let? (t, taken, r) := insert_batch (ss_tracker st) ms in
        let st := s_tracker st t in
        match r with
        | Err e => Some (s_loop st (SDone (Err e)))
        | Ok _ => Some (s_loop (s_tasks st (ss_tasks st ++ [ack_task_new (m_offset <$> taken)])) (SDispatch taken []))
        end
  end.

(** Streaming: one message, with a permit. *)
Definition on_stream (st : SourceState) (m : Message) (rest : list Message) : option SourceState :=
  let? (t, r) := tracker_insert (ss_tracker st) m in
  let st := s_tracker st t in
  match r with
  | Ok _ => Some (s_loop (s_tasks st (ss_tasks st ++ [ack_task_new [m_offset m]])) (SDispatch [m] rest))
  | Err (EDuplicateInflight _) => Some (s_loop st (SStream rest))
  | Err e => Some (s_loop st (SDrain (Err e)))
  end.

Definition on_dispatch (c : SourceConfig) (st : SourceState) (e : DispatchEnv) (ms rest : list Message) : SourceState :=
  match dispatch e ms with
  | Err err => s_loop st (SDrain (Err err))
  | Ok (bypassed, sent) => s_loop (s_sent st (bypassed ++ sent)) (if sc_streaming c then SStream rest else SRun)
  end.

(** A verdict reaches a task: the offset leaves the tracker. *)
Definition on_verdict (st : SourceState) (i : nat) (t : AckTask) (off : Offset) (v : option ReadAck) : SourceState :=
  mkSourceState (ss_loop st) (ss_limiter st) (tracker_delete (ss_tracker st) off) (<[i := take_verdict t v]> (ss_tasks st))
    (ss_sent st) (ss_verdicts st ++ [(off, v)]) (ss_calls st) (ss_cancelled st).

(** A task ends; an error cancels the token. *)
Definition on_task_end (st : SourceState) (i : nat) (calls : list SourceCall) (err : option Error) : SourceState :=
  mkSourceState (ss_loop st) (ss_limiter st) (ss_tracker st) (base.delete i (ss_tasks st)) (ss_sent st) (ss_verdicts st)
    (ss_calls st ++ calls) (ss_cancelled st || match err with Some _ => true | None => false end).

Definition on_cancel (st : SourceState) : SourceState :=
  mkSourceState (ss_loop st) (ss_limiter st) (ss_tracker st) (ss_tasks st) (ss_sent st) (ss_verdicts st) (ss_calls st) true.

(** The end of [streaming_read]: the limiter is shut down, if there is one. *)
Definition on_drained (limiter : option RateLimit) (shutdown : bool) (r : Result unit) : Result unit :=
  match limiter with
  | Some _ => if shutdown then r else Err (ESource "Failed to shutdown rate limiter")
  | None => r
  end.

Section Steps.
Context (c : SourceConfig) (kind : Z -> bool).

(** The source returns at most the messages asked for, their offsets of the kind of their
    partition and printable. *)
Definition offset_ok (off : Offset) : Prop := well_kinded kind off /\ is_Some (offset_to_string off).
Definition answer_ok (answer : option (Result (list Message))) : Prop :=
  match answer with
  | Some (Ok ms) => (length ms <= sc_read_batch_size c)%nat /\ Forall (fun m => offset_ok (m_offset m)) ms
  | _ => True
  end.

(** Calls of the stages downstream on the tracker. *)
Definition downstream (o : TOp) : Prop :=
  match o with TUpdate off _ | TRefresh off | TAppend off _ => well_kinded kind off | TIdle _ _ => True | _ => False end.

Inductive sstep : SourceState -> SourceState -> Prop :=
  | st_throttled st cur wakeups rl :
      ss_loop st = SRun -> (if sc_streaming c then True else (length (ss_tasks st) < max_ack_tasks c)%nat) ->
      rate_token (ss_limiter st) cur wakeups = (rl, false) -> sstep st (s_limiter st rl)
  | st_read st cur wakeups rl answer st' :
      ss_loop st = SRun -> (if sc_streaming c then True else (length (ss_tasks st) < max_ack_tasks c)%nat) ->
      rate_token (ss_limiter st) cur wakeups = (rl, true) -> answer_ok answer ->
      on_read c (s_limiter st rl) answer = Some st' -> sstep st st'
  | st_stream st m rest st' :
      ss_loop st = SStream (m :: rest) -> (length (ss_tasks st) < max_ack_tasks c)%nat ->
      on_stream st m rest = Some st' -> sstep st st'
  | st_stream_end st : ss_loop st = SStream [] -> sstep st (s_loop st SRun)
  | st_stream_cancelled st rest : ss_loop st = SStream rest -> ss_cancelled st = true -> sstep st (s_loop st (SDrain (Ok tt)))
  | st_dispatch st e ms rest : ss_loop st = SDispatch ms rest -> sstep st (on_dispatch c st e ms rest)
  | st_stop st : ss_loop st = SRun -> ss_cancelled st = true -> sstep st (s_loop st (SDrain (Ok tt)))
  | st_verdict st i t off pending v :
      ss_tasks st !! i = Some t -> at_pending t = off :: pending -> sstep st (on_verdict st i t off v)
  | st_task_end st i t fuel ack_answers nack_answers cancelled calls err :
      ss_tasks st !! i = Some t -> at_pending t = [] ->
      invoke_ack_end fuel t ack_answers nack_answers cancelled = Some (calls, err) -> sstep st (on_task_end st i calls err)
  | st_downstream st o t r : downstream o -> texec (ss_tracker st) o = Some (t, r) -> sstep st (s_tracker st t)
  | st_cancel st : sstep st (on_cancel st)
  | st_drained st shutdown r :
      ss_loop st = SDrain r -> ss_tasks st = [] -> sstep st (s_loop st (SDone (on_drained (ss_limiter st) shutdown r))).
End Steps.

Definition source_new (limiter : option RateLimit) (handler : bool) : SourceState :=
  mkSourceState SRun limiter (tracker_new handler) [] [] [] [] false.
Definition source_reachable (c : SourceConfig) (kind : Z -> bool) (limiter : option RateLimit) (handler : bool) (st : SourceState) : Prop :=
  rtc (sstep c kind) (source_new limiter handler) st.

(** * The invariant *)

Definition pendings (ts : list AckTask) : list Offset := concat (at_pending <$> ts).
Definition acks (ts : list AckTask) : list Offset := concat (at_ack <$> ts).
Definition nacks (ts : list AckTask) : list (Offset * option NackOptions) := concat (at_nack <$> ts).

(** The pending offsets a task may have. *)
Definition task_size (c : SourceConfig) : nat := if sc_streaming c then 1%nat else sc_read_batch_size c.

(** Exactly the offsets of [l] are in the tracker. *)
Definition tracked_are (kind : Z -> bool) (t : Tracker) (l : list Offset) : Prop :=
  exists a, trefines kind t a /\ forall off, is_Some (inflight a !! off) <-> off ∈ l.

Section Invariant.
Context (c : SourceConfig) (kind : Z -> bool).

Lemma tracked_insert t l m :
  tracked_are kind t l -> offset_ok kind (m_offset m) ->
  exists t' r, tracker_insert t m = Some (t', r) /\
    match r with
    | Ok _ => tracked_are kind t' (m_offset m :: l) /\ m_offset m ∉ l
    | Err _ => tracked_are kind t' l
    end.
Proof.
  intros (a & Hr & Ha) [Hk [str Hstr]].
  pose proof (trefines_insert kind t a m Hr Hk) as Hi. cbn [spec_exec] in Hi.
  destruct (spec_entry (serving_callback_handler t) m) as [en|err].
  - destruct (inflight a !! m_offset m) eqn:El.
    + rewrite Hstr in Hi. destruct (tracker_insert t m) as [[t' r]|]; [|done]. destruct Hi as (Hi & -> & _).
      eexists _, _. split; [done|]. by exists a.
    + destruct (tracker_insert t m) as [[t' r]|]; [|done]. destruct Hi as (Hi & -> & _).
      eexists _, _. split; [done|]. split; [|rewrite <- Ha, El; by intros [? [=]]].
      eexists. split; [exact Hi|]. cbn [inflight]. intros off. rewrite elem_of_cons, <- Ha.
      destruct (decide (off = m_offset m)) as [->|Hne]; [rewrite lookup_insert_eq; naive_solver|].
      rewrite lookup_insert_ne by done. naive_solver.
  - destruct (tracker_insert t m) as [[t' r]|]; [|done]. destruct Hi as (Hi & -> & _).
    eexists _, _. split; [done|]. by exists a.
Qed.

Lemma tracked_delete t l off :
  tracked_are kind t (off :: l) -> off ∉ l -> tracked_are kind (tracker_delete t off) l.
Proof.
  intros (a & Hr & Ha) Hni. destruct (proj2 (Ha off) ltac:(by left)) as [en El].
  assert (Hk : well_kinded kind off) by (destruct Hr as (_ & _ & Hk & _); by apply Hk).
  pose proof (trefines_delete kind t a off Hr Hk) as Hd. cbn [spec_exec] in Hd. rewrite El in Hd.
  eexists. split; [exact Hd|]. cbn [inflight]. intros x. destruct (decide (x = off)) as [->|Hne].
  - rewrite lookup_delete_eq. split; [by intros [? [=]]|done].
  - rewrite lookup_delete_ne by done. rewrite Ha, elem_of_cons. naive_solver.
Qed.

Lemma tracked_ext t l l' : (forall x, x ∈ l <-> x ∈ l') -> tracked_are kind t l -> tracked_are kind t l'.
Proof. intros Hx (a & Hr & Ha). exists a. split; [done|]. intros off. by rewrite Ha. Qed.

Lemma tracked_downstream t l o t' r :
  tracked_are kind t l -> downstream kind o -> texec t o = Some (t', r) -> tracked_are kind t' l.
Proof.
  intros (a & Hr & Ha) Ho Ht. assert (Hok : Tracker.op_ok kind o) by (destruct o; done).
  pose proof (texec_refines kind t a o Hr Hok) as Hs. unfold step_sim in Hs. rewrite Ht in Hs.
  destruct (spec_exec _ a o) as [[a' r']|] eqn:Es; [|done]. destruct Hs as (Hr' & _ & _). exists a'. split; [done|].
  intros off. rewrite <- Ha.
  destruct o as [m|x rs|x|x tags|x|part i]; simpl in Ho; try done; simpl in Es; injection Es as <- <-; try apply spec_respond_dom; done.
Qed.

Lemma insert_batch_spec t l ms :
  tracked_are kind t l -> Forall (fun m => offset_ok kind (m_offset m)) ms ->
  exists t' taken r, insert_batch t ms = Some (t', taken, r) /\ sublist taken ms /\
    tracked_are kind t' (l ++ (m_offset <$> taken)) /\ NoDup (m_offset <$> taken) /\
    (forall off, off ∈ (m_offset <$> taken) -> off ∉ l).
Proof.
  revert t l. induction ms as [|m ms IH]; intros t l Ht Hok; cbn [insert_batch].
  { exists t, [], (Ok tt). rewrite fmap_nil, app_nil_r. split_and!; try done; [constructor|]. by intros ? ?%elem_of_nil. }
  apply Forall_cons in Hok as [Hm Hok]. destruct (tracked_insert t l m Ht Hm) as (t1 & r1 & -> & Hr).
  destruct r1 as [[]|e].
  - destruct Hr as [Ht1 Hni]. destruct (IH t1 (m_offset m :: l) Ht1 Hok) as (t2 & taken & r & -> & Hsub & Ht2 & Hnd & Hnl).
    exists t2, (m :: taken), r. rewrite fmap_cons. split_and!; [done|by constructor| | |].
    + eapply tracked_ext; [|exact Ht2]. intros x. set_solver.
    + constructor; [|done]. intros Hin. apply Hnl in Hin. set_solver.
    + intros off [->|Hin]%elem_of_cons; [done|]. specialize (Hnl off Hin). set_solver.
  - assert (Hskip : exists t' taken r, insert_batch t1 ms = Some (t', taken, r) /\ sublist taken (m :: ms) /\
      tracked_are kind t' (l ++ (m_offset <$> taken)) /\ NoDup (m_offset <$> taken) /\
      (forall off, off ∈ (m_offset <$> taken) -> off ∉ l)).
    { destruct (IH t1 l Hr Hok) as (t2 & taken & r & ? & ? & ?). exists t2, taken, r. split_and!; try done; [by constructor|naive_solver..]. }
    assert (Hstop : forall e, exists t' taken r, Some (t1, @nil Message, @Err unit e) = Some (t', taken, r) /\ sublist taken (m :: ms) /\
      tracked_are kind t' (l ++ (m_offset <$> taken)) /\ NoDup (m_offset <$> taken) /\
      (forall off, off ∈ (m_offset <$> taken) -> off ∉ l)).
    { intros e'. exists t1, [], (Err e'). rewrite fmap_nil, app_nil_r. split_and!; try done; [apply sublist_nil_l|constructor|].
      by intros ? ?%elem_of_nil. }
    destruct e; try apply Hstop. done.
Qed.
End Invariant.

(** ** Lists of tasks *)

Lemma insert_middle {A} (l1 l2 : list A) x y : <[length l1 := y]> (l1 ++ x :: l2) = l1 ++ y :: l2.
Proof. induction l1; simpl; [done|]. by f_equal. Qed.

Lemma pendings_app ts ts' : pendings (ts ++ ts') = pendings ts ++ pendings ts'.
Proof. unfold pendings. by rewrite fmap_app, concat_app. Qed.
Lemma acks_app ts ts' : acks (ts ++ ts') = acks ts ++ acks ts'.
Proof. unfold acks. by rewrite fmap_app, concat_app. Qed.
Lemma nacks_app ts ts' : nacks (ts ++ ts') = nacks ts ++ nacks ts'.
Proof. unfold nacks. by rewrite fmap_app, concat_app. Qed.
Lemma pendings_cons t ts : pendings (t :: ts) = at_pending t ++ pendings ts.
Proof. done. Qed.
Lemma acks_cons t ts : acks (t :: ts) = at_ack t ++ acks ts.
Proof. done. Qed.
Lemma nacks_cons t ts : nacks (t :: ts) = at_nack t ++ nacks ts.
Proof. done. Qed.
(** Membership in the lists of several tasks. *)
Ltac task_lists :=
  repeat progress (rewrite ?pendings_app, ?acks_app, ?nacks_app, ?pendings_cons, ?acks_cons, ?nacks_cons, ?elem_of_app in *;
                   cbn [at_ack at_nack at_pending] in *).

(** What the calls made and the open tasks say of the verdicts received. *)
Record verdicts_ok (ts : list AckTask) (vs : list (Offset * option ReadAck)) (calls : list SourceCall) (cancelled : bool) : Prop := {
  vo_acked : forall off, off ∈ acks ts \/ (exists l, CAck l ∈ calls /\ off ∈ l) -> (off, Some Ack) ∈ vs;
  vo_nacked : forall off o, (off, o) ∈ nacks ts \/ (exists l, CNack l ∈ calls /\ (off, o) ∈ l) -> (off, Some (Nak o)) ∈ vs;
  vo_acks : forall off, (off, Some Ack) ∈ vs -> off ∈ acks ts \/ (exists l, CAck l ∈ calls /\ off ∈ l);
  vo_nacks : forall off o, (off, Some (Nak o)) ∈ vs ->
    (off, o) ∈ nacks ts \/ (exists l, CNack l ∈ calls /\ (off, o) ∈ l) \/ cancelled = true
}.

Definition loop_ok (c : SourceConfig) (kind : Z -> bool) (ts : list AckTask) (l : SLoop) : Prop :=
  match l with
  | SStream rest => sc_streaming c = true /\ Forall (fun m => offset_ok kind (m_offset m)) rest
  | SDispatch _ rest => Forall (fun m => offset_ok kind (m_offset m)) rest
  | SDone (Ok _) => ts = []
  | _ => True
  end.

Record source_inv (c : SourceConfig) (kind : Z -> bool) (st : SourceState) : Prop := mkSourceInv {
  si_tracked : exists leaked, tracked_are kind (ss_tracker st) (pendings (ss_tasks st) ++ leaked) /\
    (forall off, off ∈ pendings (ss_tasks st) -> off ∉ leaked) /\
    match ss_loop st with SDone (Err _) => True | _ => leaked = [] end;
  si_nodup : NoDup (pendings (ss_tasks st));
  si_tasks : (length (ss_tasks st) <= max_ack_tasks c)%nat;
  si_size : Forall (fun t => (length (at_pending t) <= task_size c)%nat) (ss_tasks st);
  si_loop : loop_ok c kind (ss_tasks st) (ss_loop st);
  si_verdicts : verdicts_ok (ss_tasks st) (ss_verdicts st) (ss_calls st) (ss_cancelled st)
}.

(** A new task has given no verdict. *)
Lemma verdicts_spawn ts offs vs calls cancelled :
  verdicts_ok ts vs calls cancelled -> verdicts_ok (ts ++ [ack_task_new offs]) vs calls cancelled.
Proof.
  assert (Ha : acks (ts ++ [ack_task_new offs]) = acks ts) by (rewrite acks_app; apply app_nil_r).
  assert (Hn : nacks (ts ++ [ack_task_new offs]) = nacks ts) by (rewrite nacks_app; apply app_nil_r).
  intros [? ? ? ?]. split; rewrite ?Ha, ?Hn; done.
Qed.

Lemma verdicts_take ts1 ts2 t off pending v vs calls cancelled :
  at_pending t = off :: pending -> verdicts_ok (ts1 ++ t :: ts2) vs calls cancelled ->
  verdicts_ok (ts1 ++ take_verdict t v :: ts2) (vs ++ [(off, v)]) calls cancelled.
Proof.
  intros Ep [H1 H2 H3 H4]. unfold take_verdict. rewrite Ep.
  destruct v as [[|o]|]; (split; [intros x|intros x x'|intros x|intros x x']);
    try specialize (H1 x); try specialize (H2 x x'); try specialize (H3 x); try specialize (H4 x x');
    task_lists; rewrite ?list_elem_of_singleton in *; naive_solver.
Qed.

Lemma elem_of_repeat {A} (x y : A) n : x ∈ repeat y n -> x = y.
Proof. induction n; simpl; [by intros ?%elem_of_nil|]. intros [->|?]%elem_of_cons; auto. Qed.
Lemma repeat_elem {A} (x : A) n : (0 < n)%nat -> x ∈ repeat x n.
Proof. destruct n; [lia|]. intros _. by left. Qed.

Lemma source_ack_calls fuel answers cancelled i r n :
  source_ack_with_retry fuel answers cancelled i = Some (r, n) -> (i < n)%nat.
Proof.
  revert i. induction fuel as [|fuel IH]; intros i; cbn [source_ack_with_retry]; [done|].
  repeat case_match; intros Hn; simplify_eq; try lia; apply IH in Hn; lia.
Qed.
Lemma source_retry_calls attempts answers cancelled i : (i < (source_retry attempts answers cancelled i).2 <= S (i + attempts))%nat.
Proof.
  revert i. induction attempts as [|attempts IH]; intros i; cbn [source_retry]; destruct (answers i) as [e|]; try (cbn; lia).
  destruct e; try (destruct (cancelled i)); cbn; try lia; specialize (IH (S i)); lia.
Qed.

(** The acknowledgement is retried until the source takes it, and no longer: it ends with the
    first call that succeeds, with the first that cannot be retried, or with the first that fails
    after the cancellation. *)
Definition ack_ends (answers : nat -> option Error) (cancelled : nat -> bool) (n : nat) : Prop :=
  match answers n with None => True | Some (ENonRetryable _) => True | Some _ => cancelled n = true end.

Lemma source_ack_terminates answers cancelled i n :
  ack_ends answers cancelled (i + n) -> (forall j, (j < n)%nat -> ~ ack_ends answers cancelled (i + j)) ->
  source_ack_with_retry (S n) answers cancelled i = Some (answers (i + n)%nat, S (i + n)).
Proof.
  revert i. induction n as [|n IH]; intros i He Hbefore.
  - rewrite Nat.add_0_r in *. cbn [source_ack_with_retry]. unfold ack_ends in He.
    destruct (answers i) as [[]|]; try rewrite He; done.
  - assert (H0 : ~ ack_ends answers cancelled i) by (specialize (Hbefore 0%nat); rewrite Nat.add_0_r in Hbefore; apply Hbefore; lia).
    rewrite Nat.add_succ_r, <- Nat.add_succ_l in *.
    assert (IH' : source_ack_with_retry (S n) answers cancelled (S i) = Some (answers (S i + n)%nat, S (S i + n))).
    { apply IH; [done|]. intros j Hj. specialize (Hbefore (S j) ltac:(lia)). by rewrite Nat.add_succ_r, <- Nat.add_succ_l in Hbefore. }
    remember (S n) as k. cbn [source_ack_with_retry]. unfold ack_ends in H0.
    destruct (answers i) as [[]|]; try destruct (cancelled i); done.
Qed.

(** The calls at the end of a task: what was to be acknowledged is, what was to be nacked is,
    unless the acknowledgement failed. *)
Lemma invoke_ack_end_spec fuel t aa na cancelled calls err :
  invoke_ack_end fuel t aa na cancelled = Some (calls, err) ->
  (forall l, CAck l ∈ calls -> l = at_ack t) /\ (forall l, CNack l ∈ calls -> l = at_nack t) /\
  (at_ack t <> [] -> CAck (at_ack t) ∈ calls) /\ (at_nack t <> [] -> err = None -> CNack (at_nack t) ∈ calls).
Proof.
  unfold invoke_ack_end. set (nk := if nonempty (at_nack t) then _ else _).
  assert (Hnk : (forall x, x ∈ nk -> x = CNack (at_nack t)) /\ (at_nack t <> [] -> CNack (at_nack t) ∈ nk)).
  { unfold nk. destruct (at_nack t) as [|x l]; cbn [nonempty].
    - split; [by intros ? ?%elem_of_nil|done].
    - split; [intros y; apply elem_of_repeat|]. intros _. apply repeat_elem. unfold source_nack_with_retry.
      pose proof (source_retry_calls NACK_RETRY_ATTEMPTS na cancelled 0). lia. }
  destruct Hnk as [Hn1 Hn2]. destruct (nonempty (at_ack t)) eqn:Ea.
  - destruct (source_ack_with_retry fuel aa cancelled 0) as [[r n]|] eqn:Er; [|done].
    apply source_ack_calls in Er. pose proof (repeat_elem (CAck (at_ack t)) n Er) as Hin.
    assert (Hrep : forall x, x ∈ repeat (CAck (at_ack t)) n -> x = CAck (at_ack t)) by (intros x; apply elem_of_repeat).
    destruct r as [e|]; intros [= <- <-].
    + split_and!; try done; [intros l Hl; apply Hrep in Hl; by injection Hl|intros l Hl; by apply Hrep in Hl].
    + split_and!.
      * intros l [Hl|Hl]%elem_of_app; [apply Hrep in Hl; by injection Hl|by apply Hn1 in Hl].
      * intros l [Hl|Hl]%elem_of_app; [by apply Hrep in Hl|apply Hn1 in Hl; by injection Hl].
      * intros _. apply elem_of_app. by left.
      * intros Hx _. apply elem_of_app. right. by apply Hn2.
  - intros [= <- <-]. destruct (at_ack t); [|done]. split_and!; try done.
    + intros l Hl. by apply Hn1 in Hl.
    + intros l Hl. apply Hn1 in Hl. by injection Hl.
    + intros Hx _. by apply Hn2.
Qed.

Lemma verdicts_end ts1 ts2 t fuel aa na cancelled calls err vs all cn :
  invoke_ack_end fuel t aa na cancelled = Some (calls, err) -> verdicts_ok (ts1 ++ t :: ts2) vs all cn ->
  verdicts_ok (ts1 ++ ts2) vs (all ++ calls) (cn || match err with Some _ => true | None => false end).
Proof.
  intros (A & B & D & E)%invoke_ack_end_spec [H1 H2 H3 H4].
  assert (Hcall : forall x, x ∈ (all ++ calls) <-> x ∈ all \/ x ∈ calls) by (intros; apply elem_of_app).
  split.
  - intros off Hx. apply H1. task_lists. destruct Hx as [[?|?]|(l & Hl & Ho)]; [by left; left|by left; right; right|].
    apply Hcall in Hl as [Hl|Hl]; [by right; exists l|]. apply A in Hl as ->. by left; right; left.
  - intros off o Hx. apply H2. task_lists. destruct Hx as [[?|?]|(l & Hl & Ho)]; [by left; left|by left; right; right|].
    apply Hcall in Hl as [Hl|Hl]; [by right; exists l|]. apply B in Hl as ->. by left; right; left.
  - intros off Hv. specialize (H3 off Hv). task_lists. destruct H3 as [[?|[Ht|?]]|(l & Hl & Ho)];
      [by left; left| |by left; right|right; exists l; rewrite Hcall; by split; [left|]].
    right. exists (at_ack t). rewrite Hcall. split; [right; apply D|done]. intros Eq. rewrite Eq in Ht. by apply elem_of_nil in Ht.
  - intros off o Hv. specialize (H4 off o Hv). task_lists. destruct H4 as [[?|[Ht|?]]|[(l & Hl & Ho)|Hc]];
      [by left; left| |by left; right|right; left; exists l; rewrite Hcall; by split; [left|]|right; right; by rewrite Hc].
    right. destruct err as [e|]; [right; by rewrite orb_true_r|]. left. exists (at_nack t). rewrite Hcall.
    split; [right; apply E|done]; [|done]. intros Eq. rewrite Eq in Ht. by apply elem_of_nil in Ht.
Qed.

Lemma verdicts_cancel ts vs calls cn : verdicts_ok ts vs calls cn -> verdicts_ok ts vs calls true.
Proof. intros [? ? ? Hn]. split; try done. intros off o Hv. destruct (Hn off o Hv) as [?|[?|?]]; auto. Qed.

Definition running (l : SLoop) : Prop := match l with SDone _ => False | _ => True end.

Section StepInv.
Context (c : SourceConfig) (kind : Z -> bool).

Lemma source_loop st l : source_inv c kind st -> running (ss_loop st) -> loop_ok c kind (ss_tasks st) l -> source_inv c kind (s_loop st l).
Proof.
  intros [(lk & Ht & Hd & Hl) Hn Hts Hsz _ Hv] Hrun Hok. assert (lk = []) as -> by (by destruct (ss_loop st)).
  split; try done. exists []. split_and!; try done. cbn. by destruct l as [| | | |[]].
Qed.

Lemma running_tracked st : source_inv c kind st -> running (ss_loop st) -> tracked_are kind (ss_tracker st) (pendings (ss_tasks st)).
Proof.
  intros [(lk & Ht & _ & Hl) _ _ _ _ _] Hrun. assert (lk = []) as -> by (by destruct (ss_loop st)). by rewrite app_nil_r in Ht.
Qed.

(** A batch, or a message, is taken in and gets a task. *)
Lemma source_spawn st t taken l :
  source_inv c kind st -> running (ss_loop st) -> running l -> loop_ok c kind (ss_tasks st) l ->
  tracked_are kind t (pendings (ss_tasks st) ++ (m_offset <$> taken)) -> NoDup (m_offset <$> taken) ->
  (forall off, off ∈ (m_offset <$> taken) -> off ∉ pendings (ss_tasks st)) ->
  (length taken <= task_size c)%nat -> (length (ss_tasks st) < max_ack_tasks c)%nat ->
  source_inv c kind (s_loop (s_tasks (s_tracker st t) (ss_tasks st ++ [ack_task_new (m_offset <$> taken)])) l).
Proof.
  intros [_ Hn Hts Hsz _ Hv] Hrun Hrl Hok Ht Hnd Hnew Hlen Hp.
  assert (Epend : pendings (ss_tasks st ++ [ack_task_new (m_offset <$> taken)]) = pendings (ss_tasks st) ++ (m_offset <$> taken)).
  { rewrite pendings_app, pendings_cons. cbn. by rewrite app_nil_r. }
  split; cbn [s_loop s_tasks s_tracker ss_tracker ss_tasks ss_loop ss_verdicts ss_calls ss_cancelled].
  - exists []. rewrite Epend, app_nil_r. split_and!; [done|by intros ? _ ?%elem_of_nil|by destruct l].
  - rewrite Epend. apply NoDup_app. split_and!; try done. intros off H1 H2. by apply (Hnew off).
  - rewrite length_app. cbn. lia.
  - apply Forall_app. split; [done|]. apply Forall_singleton. cbn. by rewrite length_fmap.
  - by destruct l.
  - by apply verdicts_spawn.
Qed.

Lemma source_tracker st t :
  source_inv c kind st -> running (ss_loop st) -> tracked_are kind t (pendings (ss_tasks st)) -> source_inv c kind (s_tracker st t).
Proof.
  intros [_ Hn Hts Hsz Hl Hv] Hrun Ht. split; try done. exists []. rewrite app_nil_r. split_and!; try done.
  - by intros ? _ ?%elem_of_nil.
  - cbn. by destruct (ss_loop st).
Qed.

Lemma on_read_inv st answer st' :
  source_inv c kind st -> ss_loop st = SRun -> answer_ok c kind answer ->
  (if sc_streaming c then True else (length (ss_tasks st) < max_ack_tasks c)%nat) ->
  on_read c st answer = Some st' -> source_inv c kind st'.
Proof.
  intros Hi El Ha Hp. assert (Hrun : running (ss_loop st)) by (by rewrite El).
  destruct answer as [[ms|e]|]; cbn [on_read]; [|intros [= <-]; by apply source_loop..].
  destruct Ha as [Hlen Hok]. destruct (sc_streaming c) eqn:Es; [intros [= <-]; by apply source_loop|].
  destruct (insert_batch_spec kind (ss_tracker st) (pendings (ss_tasks st)) ms (running_tracked st Hi Hrun) Hok)
    as (t & taken & r & -> & Hsub & Ht & Hnd & Hnew).
  destruct r as [[]|e]; intros [= <-].
  - apply source_spawn; try done; [by constructor|]. unfold task_size. rewrite Es. apply sublist_length in Hsub. lia.
  - destruct Hi as [_ Hn Hts Hsz _ Hv]. split; try done. exists (m_offset <$> taken). split_and!; try done.
    intros off H1 H2. by apply (Hnew off).
Qed.

Lemma on_stream_inv st m rest st' :
  source_inv c kind st -> ss_loop st = SStream (m :: rest) -> (length (ss_tasks st) < max_ack_tasks c)%nat ->
  on_stream st m rest = Some st' -> source_inv c kind st'.
Proof.
  intros Hi El Hp. assert (Hrun : running (ss_loop st)) by (by rewrite El).
  assert (Hl : loop_ok c kind (ss_tasks st) (SStream (m :: rest))) by (destruct Hi as [_ _ _ _ Hl _]; by rewrite El in Hl).
  destruct Hl as [Hstr [Hm Hrest]%Forall_cons]. unfold on_stream.
  destruct (tracked_insert kind (ss_tracker st) _ m (running_tracked st Hi Hrun) Hm) as (t & r & -> & Hr).
  destruct r as [[]|e].
  - destruct Hr as [Ht Hni]. intros [= <-]. apply (source_spawn st t [m]); try done.
    + eapply tracked_ext; [|exact Ht]. intros x. set_solver.
    + apply NoDup_singleton.
    + by intros off ->%list_elem_of_singleton.
    + unfold task_size. by rewrite Hstr.
  - assert (Hi' : source_inv c kind (s_tracker st t)) by (by apply source_tracker).
    destruct e; intros [= <-]; by apply source_loop.
Qed.

Lemma on_verdict_inv st i t off pending v :
  source_inv c kind st -> ss_tasks st !! i = Some t -> at_pending t = off :: pending -> source_inv c kind (on_verdict st i t off v).
Proof.
  intros [(lk & Ht & Hd & Hl) Hn Hts Hsz Hlo Hv] Hi Ep.
  destruct (list_elem_of_split_length _ _ _ Hi) as (ts1 & ts2 & Ets & ->). 
  assert (Epv : at_pending (take_verdict t v) = pending) by (unfold take_verdict; rewrite Ep; by destruct v as [[]|]).
  unfold on_verdict. rewrite Ets in *. rewrite insert_middle.
  assert (Hperm : pendings (ts1 ++ t :: ts2) ≡ₚ off :: pendings (ts1 ++ take_verdict t v :: ts2)).
  { rewrite !pendings_app, !pendings_cons, Ep, Epv. solve_Permutation. }
  assert (Hnd : NoDup (off :: pendings (ts1 ++ take_verdict t v :: ts2))) by (by rewrite <- Hperm).
  apply NoDup_cons in Hnd as [Hni Hnd].
  split; cbn [ss_tracker ss_tasks ss_loop ss_verdicts ss_calls ss_cancelled]; try done.
  - exists lk. split_and!; [|intros x Hx; apply Hd; rewrite Hperm; by right|done].
    apply tracked_delete; [|].
    + eapply tracked_ext; [|exact Ht]. intros x. rewrite !elem_of_app, Hperm, !elem_of_cons, elem_of_app. tauto.
    + rewrite elem_of_app. intros [Hx|Hx]; [done|]. apply (Hd off); [rewrite Hperm; by left|done].
  - by rewrite length_app in *.
  - rewrite !Forall_app, !Forall_cons in *. destruct Hsz as (? & Hs & ?). split_and!; try done. rewrite Epv. rewrite Ep in Hs. cbn in Hs. lia.
  - destruct (ss_loop st) as [| | | |[]]; try done. by destruct ts1.
  - by eapply verdicts_take.
Qed.

Lemma on_task_end_inv st i t fuel aa na cancelled calls err :
  source_inv c kind st -> ss_tasks st !! i = Some t -> at_pending t = [] ->
  invoke_ack_end fuel t aa na cancelled = Some (calls, err) -> source_inv c kind (on_task_end st i calls err).
Proof.
  intros [(lk & Ht & Hd & Hl) Hn Hts Hsz Hlo Hv] Hi Ep He.
  destruct (list_elem_of_split_length _ _ _ Hi) as (ts1 & ts2 & Ets & ->).
  unfold on_task_end. rewrite Ets in *. rewrite delete_middle.
  assert (Epend : pendings (ts1 ++ t :: ts2) = pendings (ts1 ++ ts2)).
  { rewrite !pendings_app, pendings_cons, Ep. done. }
  rewrite Epend in *. split; cbn [ss_tracker ss_tasks ss_loop ss_verdicts ss_calls ss_cancelled]; try done.
  - by exists lk.
  - rewrite !length_app in *. cbn in Hts. lia.
  - rewrite !Forall_app, ?Forall_cons in *. tauto.
  - destruct (ss_loop st) as [| | | |[]]; try done. by destruct ts1.
  - by eapply verdicts_end.
Qed.

Lemma on_dispatch_inv st e ms rest :
  source_inv c kind st -> ss_loop st = SDispatch ms rest -> source_inv c kind (on_dispatch c st e ms rest).
Proof.
  intros Hi El. assert (Hrun : running (ss_loop st)) by (by rewrite El). unfold on_dispatch.
  destruct (dispatch e ms) as [[byp sent]|err]; [|by apply source_loop].
  assert (Hi' : source_inv c kind (s_sent st (byp ++ sent))) by (by destruct Hi).
  apply source_loop; try done. destruct Hi as [_ _ _ _ Hl _]. rewrite El in Hl. by destruct (sc_streaming c) eqn:Es.
Qed.

Lemma sstep_inv st st' : sstep c kind st st' -> source_inv c kind st -> source_inv c kind st'.
Proof.
  intros Hs Hi. destruct Hs as [st cur wk rl El Hp Hr|st cur wk rl answer st' El Hp Hr Ha Hon|st m rest st' El Hp Hon|st El|
    st rest El Hc|st e ms rest El|st El Hc|st i t off pending v Ht Ep|st i t fuel aa na cn calls err Ht Ep He|st o t r Ho Ht|st|
    st sd r El Hts].
  - by destruct Hi.
  - eapply (on_read_inv (s_limiter st rl)); [by destruct Hi|done..].
  - by eapply on_stream_inv.
  - apply source_loop; try done. by rewrite El.
  - apply source_loop; try done. by rewrite El.
  - by apply on_dispatch_inv.
  - apply source_loop; try done. by rewrite El.
  - by eapply on_verdict_inv.
  - by eapply on_task_end_inv.
  - destruct Hi as [(lk & Htr & Hd & Hl) ? ? ? ? ?]. split; try done. exists lk. split_and!; try done.
    by eapply tracked_downstream.
  - destruct Hi as [? ? ? ? ? Hv]. split; try done. by eapply verdicts_cancel.
  - apply source_loop; try done; [by rewrite El|]. cbn. by destruct (on_drained _ _ _).
Qed.

Lemma source_reachable_inv limiter handler st : source_reachable c kind limiter handler st -> source_inv c kind st.
Proof.
  intros Hr. assert (Hi : source_inv c kind (source_new limiter handler)).
  { split; cbn [source_new ss_tracker ss_tasks ss_loop ss_verdicts ss_calls ss_cancelled pendings fmap list_fmap concat].
    - exists []. split_and!; [|by intros ? ?%elem_of_nil|done]. eexists. split; [apply trefines_new|]. intros off. cbn [inflight app].
      rewrite lookup_empty. split; [by intros [? [=]]|by intros ?%elem_of_nil].
    - constructor.
    - cbn. lia.
    - constructor.
    - done.
    - split.
      + intros off [Hx%elem_of_nil|(l & Hx%elem_of_nil & _)]; done.
      + intros off o [Hx%elem_of_nil|(l & Hx%elem_of_nil & _)]; done.
      + by intros off Hx%elem_of_nil.
      + by intros off o Hx%elem_of_nil. }
  unfold source_reachable in Hr. induction Hr as [|? ? ? Hs _ IH]; [done|]. by apply IH, (sstep_inv _ _ Hs).
Qed.
End StepInv.

Lemma pendings_length n ts : Forall (fun t => (length (at_pending t) <= n)%nat) ts -> (length (pendings ts) <= length ts * n)%nat.
Proof.
  induction 1 as [|t ts Ht _ IH]; [done|]. rewrite pendings_cons, length_app. cbn [length]. lia.
Qed.

(** The messages that may be in flight: [concurrency] in streaming mode; one batch, or, reading
    ahead, as many whole batches as [concurrency] holds and at least one. *)
Definition inflight_limit (c : SourceConfig) : nat :=
  if sc_streaming c then sc_concurrency c
  else if sc_read_ahead c then Nat.max (sc_concurrency c) (sc_read_batch_size c)
  else sc_read_batch_size c.

Lemma inflight_bound c : (max_ack_tasks c * task_size c <= inflight_limit c)%nat.
Proof.
  unfold max_ack_tasks, task_size, inflight_limit. destruct (sc_streaming c); [lia|]. destruct (sc_read_ahead c); [|lia].
  destruct (sc_read_batch_size c) as [|b]; [lia|]. replace (Nat.max (S b) 1) with (S b) by lia.
  pose proof (Nat.Div0.mul_div_le (sc_concurrency c) (S b)). set (q := (sc_concurrency c / S b)%nat) in *. nia.
Qed.

(** C10: in every state a source reaches, whatever the source, the transformer, the stages
    downstream and the verdicts do: no offset is in flight twice; an offset that awaits a verdict
    is in the tracker, and, unless the loop stopped with an error, no other is; at most
    [concurrency] messages are in flight in streaming mode whatever the batch size, one batch
    without reading ahead, and with it [concurrency] or one batch if that is more; the source is told to
    acknowledge an offset exactly if its verdict was an acknowledgement and its task has ended,
    and to nack one only if its verdict said so, with its options; a nack is skipped only after
    a cancellation; a source that stopped cleanly has nothing left in flight. *)
Theorem source_inflight (c : SourceConfig) (kind : Z -> bool) (limiter : option RateLimit) (handler : bool) (st : SourceState) :
  source_reachable c kind limiter handler st ->
  NoDup (pendings (ss_tasks st)) /\
  (forall off, off ∈ pendings (ss_tasks st) -> is_Some (tlookup (ss_tracker st) off)) /\
  (forall off, well_kinded kind off -> is_Some (tlookup (ss_tracker st) off) ->
     off ∈ pendings (ss_tasks st) \/ exists e, ss_loop st = SDone (Err e)) /\
  (length (pendings (ss_tasks st)) <= inflight_limit c)%nat /\
  (forall off, (off, Some Ack) ∈ ss_verdicts st <-> off ∈ acks (ss_tasks st) \/ exists l, CAck l ∈ ss_calls st /\ off ∈ l) /\
  (forall off o, (exists l, CNack l ∈ ss_calls st /\ (off, o) ∈ l) -> (off, Some (Nak o)) ∈ ss_verdicts st) /\
  (forall off o, (off, Some (Nak o)) ∈ ss_verdicts st -> ss_cancelled st = false ->
     (off, o) ∈ nacks (ss_tasks st) \/ exists l, CNack l ∈ ss_calls st /\ (off, o) ∈ l) /\
  (ss_loop st = SDone (Ok tt) -> pendings (ss_tasks st) = []).
Proof.
  intros Hi%source_reachable_inv. destruct Hi as [(lk & (a & Hr & Ha) & Hd & Hl) Hn Hts Hsz Hlo [V1 V2 V3 V4]].
  assert (Hlook : forall off, well_kinded kind off -> is_Some (tlookup (ss_tracker st) off) <-> off ∈ pendings (ss_tasks st) ++ lk).
  { intros off Hk. destruct Hr as (_ & Hlk & _). by rewrite <- Hlk, Ha. }
  split_and!; try done.
  - intros off Hin. apply Hlook; [|apply elem_of_app; by left]. destruct Hr as (_ & _ & Hk & _). apply Hk, Ha, elem_of_app. by left.
  - intros off Hk [?|Hin]%(Hlook off Hk)%elem_of_app; [by left|]. right.
    destruct (ss_loop st) as [| | | |[[]|e]]; try (subst lk; by apply elem_of_nil in Hin). by exists e.
  - pose proof (pendings_length _ _ Hsz). pose proof (inflight_bound c). nia.
  - intros off. split; [apply V3|apply V1].
  - intros off o Hx. apply V2. by right.
  - intros off o Hx Hc. destruct (V4 off o Hx) as [?|[?|?]]; [by left|by right|congruence].
  - intros El. rewrite El in Hlo. cbn in Hlo. by rewrite Hlo.
Qed.

(** ** Runs on concrete inputs *)

Definition ex_config : SourceConfig := mkSourceConfig 3 6 true false.
Definition ex_m5 : Message := example_inflight_message 5 0 700 100.
Definition ex_m6 : Message := example_inflight_message 6 0 800 100.
Definition ex_kind (_ : Z) : bool := true.
Definition ex_env : DispatchEnv := mkDispatchEnv None (Some 750) None.
(** The source fails once and recovers. *)
Definition ex_answers (i : nat) : option Error := if (i =? 0)%nat then Some (ESource "down") else None.

(** A batch with a duplicate delivery is read and dispatched; one message is acknowledged, the
    other nacked; the source stops. *)
Definition ex_trace : list SourceState :=
  let st0 := source_new None false in
  let st1 := default st0 (on_read ex_config st0 (Some (Ok [ex_m5; ex_m5; ex_m6]))) in
  let st2 := on_dispatch ex_config st1 ex_env [ex_m5; ex_m6] [] in
  let t2 := ack_task_new [m_offset ex_m5; m_offset ex_m6] in
  let st3 := on_verdict st2 0 t2 (m_offset ex_m5) (Some Ack) in
  let t3 := take_verdict t2 (Some Ack) in
  let st4 := on_verdict st3 0 t3 (m_offset ex_m6) (Some (Nak None)) in
  let t4 := take_verdict t3 (Some (Nak None)) in
  let st5 := match invoke_ack_end 5 t4 ex_answers (fun _ => None) (fun _ => false) with
             | Some (calls, err) => on_task_end st4 0 calls err | None => st4 end in
  let st6 := on_cancel st5 in
  let st7 := s_loop st6 (SDrain (Ok tt)) in
  [st0; st1; st2; st3; st4; st5; st6; st7; s_loop st7 (SDone (Ok tt))].
Definition ex_at (i : nat) : SourceState := nth i ex_trace (source_new None false).

Lemma ex_source_step i j st' : sstep ex_config ex_kind (ex_at i) st' -> st' = ex_at j -> sstep ex_config ex_kind (ex_at i) (ex_at j).
Proof. by intros ? <-. Qed.

Lemma ex_source_reachable : source_reachable ex_config ex_kind None false (ex_at 8).
Proof.
  unfold source_reachable. apply (rtc_l _ _ (ex_at 1)).
  { eapply (ex_source_step 0); [|reflexivity]. apply (st_read _ _ _ 0 [] None (Some (Ok [ex_m5; ex_m5; ex_m6]))); try (vm_compute; reflexivity).
    - cbn. lia.
    - split; [cbn; lia|]. repeat constructor; vm_compute; eauto. }
  apply (rtc_l _ _ (ex_at 2)); [eapply (ex_source_step 1); [apply (st_dispatch _ _ _ ex_env [ex_m5; ex_m6] [])|]; vm_compute; reflexivity|].
  apply (rtc_l _ _ (ex_at 3)); [by eapply (ex_source_step 2); [apply (st_verdict _ _ (ex_at 2) 0 (ack_task_new [m_offset ex_m5; m_offset ex_m6]) (m_offset ex_m5) [m_offset ex_m6] (Some Ack))|]; vm_compute|].
  apply (rtc_l _ _ (ex_at 4)); [by eapply (ex_source_step 3); [apply (st_verdict _ _ (ex_at 3) 0 (mkAckTask [m_offset ex_m6] [m_offset ex_m5] []) (m_offset ex_m6) [] (Some (Nak None)))|]; vm_compute|].
  apply (rtc_l _ _ (ex_at 5)).
  { by eapply (ex_source_step 4); [apply (st_task_end _ _ (ex_at 4) 0 (mkAckTask [] [m_offset ex_m5] [(m_offset ex_m6, None)]) 5 ex_answers (fun _ => None) (fun _ => false)
      [CAck [m_offset ex_m5]; CAck [m_offset ex_m5]; CNack [(m_offset ex_m6, None)]] None)|]; vm_compute. }
  apply (rtc_l _ _ (ex_at 6)); [by eapply (ex_source_step 5); [apply st_cancel|]; vm_compute|].
  apply (rtc_l _ _ (ex_at 7)); [by eapply (ex_source_step 6); [apply st_stop|]; vm_compute|].
  apply rtc_once. by eapply (ex_source_step 7); [apply (st_drained _ _ (ex_at 7) true (Ok tt))|]; vm_compute.
Qed.

(** Streaming with a concurrency below the batch size: of a batch of two, the second message waits
    for the end of the first one's task. *)
Definition ex_streaming : SourceConfig := mkSourceConfig 10 1 false true.
Definition ex_streamed : SourceState :=
  default (source_new None false)
    (let? st := on_read ex_streaming (source_new None false) (Some (Ok [ex_m5; ex_m6])) in on_stream st ex_m5 [ex_m6]).
Example streaming_waits st' :
  let st := on_dispatch ex_streaming ex_streamed ex_env [ex_m5] [ex_m6] in
  ss_loop st = SStream [ex_m6] /\ length (pendings (ss_tasks st)) = inflight_limit ex_streaming /\
  ~ (length (ss_tasks st) < max_ack_tasks ex_streaming /\ on_stream st ex_m6 [] = Some st')%nat.
Proof. vm_compute. split_and!; try done. intros [H _]. lia. Qed.

Lemma source_inflight_witness :
  ss_calls (ex_at 8) = [CAck [m_offset ex_m5]; CAck [m_offset ex_m5]; CNack [(m_offset ex_m6, None)]] /\ pendings (ss_tasks (ex_at 8)) = [].
Proof.
  split; [vm_compute; reflexivity|].
  refine (proj2 (proj2 (proj2 (proj2 (proj2 (proj2 (proj2 (source_inflight ex_config ex_kind None false (ex_at 8) ex_source_reachable))))))) _).
  vm_compute. reflexivity.
Defined.

(** If the acknowledgement of a batch fails, its nacks are not sent. *)
Example ack_failure_skips_nacks :
  invoke_ack_end 5 (mkAckTask [] [m_offset ex_m5] [(m_offset ex_m6, None)]) (fun _ => Some (ENonRetryable "gone")) (fun _ => None) (fun _ => false) =
  Some ([CAck [m_offset ex_m5]], Some (ENonRetryable "gone")).
Proof. reflexivity. Qed.

(** A message the tracker refuses ends a batch read at once: the messages of the batch taken
    before it stay in the tracker with no task to remove them. *)
Definition ex_bad : Message :=
  mkMessage Data [] None "v" (OInt (mkIntOffset 6 0)) 800 (Some 100) MessageID_default ∅ None false None.
Example tracker_error_leaks :
  match on_read ex_config (source_new None true) (Some (Ok [ex_m5; ex_bad])) with
  | Some st => (match ss_loop st with SDone (Err _) => True | _ => False end) /\ ss_tasks st = [] /\ is_Some (tlookup (ss_tracker st) (m_offset ex_m5))
  | None => False
  end.
Proof. vm_compute. split_and!; eauto. Qed.
