(* ===== verification/UdfRetry.v ===== *)
(** The retries of a user-defined function that fails a message with the FAIL tag
    (src/rust/numaflow-core/src/shared/retry.rs), shared by the transformer and the mappers. *)
From Stdlib Require Import ZArith SpecFloat.
From S2P Require Import Prelude Clock Message Backoff SinkActor.
Open Scope Z_scope.

Inductive RetryStep := RAgain | RCancelled | RDrop | RNack.

Record RetryController := mkRetryController {
  rc_strategy : option OnFailureStrategy;
  rc_backoff : option Exponential;
  rc_attempt : Z                             (* u64 *)
}.

Definition retry_controller_new (retry_config : option RetryConfig) : RetryController :=
  mkRetryController (sink_retry_on_fail_strategy <$> retry_config)
    ((fun rc => exponential_from_millis (sink_initial_retry_interval_in_ms rc) (sink_max_retry_interval_in_ms rc)
                  (sink_retry_factor rc) (sink_retry_jitter rc) (Some (sink_max_retry_attempts rc))) <$> retry_config) 0.

Section Controller.
Context (powi : F64 -> Z -> F64) (random_factor : Z -> F64).

(** [cancelled] says that the token wins against the sleep; [None] is a panic. *)
Definition next_step (rc : RetryController) (cancelled : bool) : option (RetryStep * RetryController) :=
  match rc_backoff rc with
  | None => Some (RAgain, rc)
  | Some backoff =>
      match exponential_next powi random_factor backoff with
      | (Some _, backoff') =>
          Some (if cancelled then RCancelled else RAgain, mkRetryController (rc_strategy rc) (Some backoff') (rc_attempt rc + 1))
      | (None, backoff') =>
          let rc' := mkRetryController (rc_strategy rc) (Some backoff') (rc_attempt rc) in
          match rc_strategy rc with
          | None | Some OFFallback => None
          | Some OFDrop => Some (RDrop, rc')
          | Some OFRetry => Some (RNack, rc')
          end
      end
  end.

(** * Lemmas *)

(** The attempts a controller has left; [None] if it never gives up. *)
Definition attempts_left (rc : RetryController) : option nat :=
  let? b := rc_backoff rc in let? m := max_attempts b in Some (Z.to_nat (m - current_attempt b)).

(** A controller of a valid configuration: the fallback strategy is refused for these components. *)
Definition controller_ok (rc : RetryController) : Prop :=
  match rc_backoff rc with
  | None => True
  | Some b => (rc_strategy rc = Some OFDrop \/ rc_strategy rc = Some OFRetry) /\
      exists m, max_attempts b = Some m /\ 0 <= current_attempt b <= m /\ m < 2 ^ 16
  end.

Definition config_ok (retry_config : option RetryConfig) : Prop :=
  match retry_config with
  | None => True
  | Some rc => sink_retry_on_fail_strategy rc <> OFFallback /\ 0 <= sink_max_retry_attempts rc < 2 ^ 16
  end.

Lemma controller_new_ok cfg : config_ok cfg -> controller_ok (retry_controller_new cfg).
Proof.
  destruct cfg as [rc|]; [|done]. cbn. intros [Hs Hm]. split.
  - destruct (sink_retry_on_fail_strategy rc); auto. done.
  - eexists. split; [done|]. lia.
Qed.

(** The step of a controller, by the attempts it has left. *)
Lemma next_step_ok rc cancelled : controller_ok rc ->
  exists s rc', next_step rc cancelled = Some (s, rc') /\ controller_ok rc' /\ rc_strategy rc' = rc_strategy rc /\
    match attempts_left rc with
    | None => s = RAgain /\ rc' = rc
    | Some O => s = match rc_strategy rc with Some OFDrop => RDrop | _ => RNack end
    | Some (S n) => s = (if cancelled then RCancelled else RAgain) /\ attempts_left rc' = Some n
    end.
Proof.
  unfold controller_ok, next_step, attempts_left. destruct rc as [st [b|] at_]; cbn; [|by intros _; eexists _, _].
  intros [Hst (m & Hm & Hc & H16)]. unfold exponential_next. rewrite Hm. cbn. destruct (Z.leb_spec m (current_attempt b)).
  - replace (Z.to_nat (m - current_attempt b)) with 0%nat by lia. destruct Hst as [-> | ->]; eexists _, _; (split; [done|]); cbn;
      split_and!; try done; try (by auto); exists m; split_and!; (done || lia).
  - eexists _, _. split; [done|]. cbn. rewrite as_u16_small by lia. split_and!; [done|exists m; split_and!; [done|lia..]|done|].
    rewrite Hm. cbn. destruct (Z.to_nat (m - current_attempt b)) eqn:E; [lia|]. split; [done|]. f_equal. lia.
Qed.

Lemma attempts_left_new rc : attempts_left (retry_controller_new (Some rc)) = Some (Z.to_nat (sink_max_retry_attempts rc)).
Proof. unfold attempts_left. cbn. by rewrite Z.sub_0_r. Qed.
End Controller.
