(* ===== verification/MapUdf.v ===== *)
(** The messages between a mapper and its user-defined function
    (src/rust/numaflow-core/src/mapper/map.rs): requests, the messages made of the results, and
    their identifiers, by which the next buffer drops duplicates. *)
From stdpp Require Import pretty.
From S2P Require Import Prelude Clock Message AlignedWindow.
Open Scope Z_scope.

(** * Requests *)

Record MapRequest := mkMapRequest {
  mq_keys : list string;
  mq_value : string;
  mq_event_time : option Timestamp;
  mq_watermark : option Timestamp;
  mq_headers : gmap string string;
  mq_metadata : option ProtoMetadata;
  mq_id : string
}.

Record MapResult := mkMapResult {
  mr_keys : list string;
  mr_tags : list string;
  mr_value : string;
  mr_metadata : option ProtoMetadata;
  mr_nack_options : option NackOptions
}.

Record ParentMessageInfo := mkParentMessageInfo {
  pi_offset : Offset;
  pi_event_time : DateTime;
  pi_is_late : bool;
  pi_headers : gmap string string;
  pi_current_index : Z;                (* i32 *)
  pi_metadata : option Metadata
}.
Definition parent_info (m : Message) : ParentMessageInfo :=
  mkParentMessageInfo (m_offset m) (m_event_time m) (m_is_late m) (m_headers m) (id_index (m_id m)) (m_metadata m).
Definition set_current_index (p : ParentMessageInfo) (i : Z) : ParentMessageInfo :=
  mkParentMessageInfo (pi_offset p) (pi_event_time p) (pi_is_late p) (pi_headers p) i (pi_metadata p).

(** The metadata of a result: system metadata of the parent, user metadata of the response. *)
Definition result_metadata (parent : option Metadata) (response : option ProtoMetadata) : Metadata :=
  mkMetadata "" (match parent with Some p => sys_metadata p | None => ∅ end)
    (match response with Some r => user_metadata (metadata_of_proto r) | None => ∅ end).

Section Conversions.
Context `{Chrono} (vertex_name : string).

(** [None] is the panic of an id that is not UTF-8. *)
Definition map_request (m : Message) : option MapRequest :=
  let? id := message_id_to_string (m_id m) in
  Some (mkMapRequest (m_keys m) (m_value m) (Some (prost_timestamp_from_utc (m_event_time m)))
          (prost_timestamp_from_utc <$> m_watermark m) (m_headers m) (metadata_to_proto <$> m_metadata m) id).

(** The offset in the id of a result: that of the parent, and its index. *)
Definition result_offset (p : ParentMessageInfo) : option string :=
  let? o := offset_to_string (pi_offset p) in Some (o +:+ "-" +:+ pretty (pi_current_index p))%string.

(** [UserDefinedMessage]; [None] is the panic of an offset that is not UTF-8. *)
Definition user_defined_message (r : MapResult) (p : ParentMessageInfo) (index : Z) : option Message :=
  let? o := result_offset p in
  Some (mkMessage Data (mr_keys r) (Some (mr_tags r)) (mr_value r) (pi_offset p) (pi_event_time p) None
          (mkMessageID vertex_name o index) (pi_headers p) (Some (result_metadata (pi_metadata p) (mr_metadata r)))
          (pi_is_late p) (mr_nack_options r)).

(** The messages of a unary or a batch response: numbered from 0. *)
Fixpoint mapped_from (p : ParentMessageInfo) (i : Z) (rs : list MapResult) : option (list Message) :=
  match rs with
  | [] => Some []
  | r :: rs =>
      let? m := user_defined_message r p (as_i32 i) in let? ms := mapped_from p (i + 1) rs in Some (m :: ms)
  end.
Definition mapped_messages (p : ParentMessageInfo) (rs : list MapResult) : option (list Message) := mapped_from p 0 rs.

(** The messages of a streamed response: numbered from the index of the parent, which goes into
    the offset too. *)
Fixpoint streamed_messages (p : ParentMessageInfo) (rs : list MapResult) : option (list Message) :=
  match rs with
  | [] => Some []
  | r :: rs =>
      let? m := user_defined_message r p (pi_current_index p) in
      let? ms := streamed_messages (set_current_index p (as_i32 (pi_current_index p + 1))) rs in Some (m :: ms)
  end.
End Conversions.

(** * The handshake *)

(** [sent]: the request was queued; [stream]: the answer of [map_fn]; [first]: the first message
    of the stream, with its handshake field. *)
Definition create_response_stream (sent : Result unit) (stream : Result unit) (first : Result (option (option bool))) : Result unit :=
  match sent with
  | Err _ => Err (EMapper "failed to send handshake request")
  | Ok _ =>
      try! _ := stream in
      try! first := first in
      match first with
      | None => Err (EMapper "failed to receive handshake response")
      | Some (Some true) => Ok tt
      | Some _ => Err (EMapper "invalid handshake response")
      end
  end.

(** * Identifiers *)

Lemma as_i32_small z : - 2 ^ 31 <= z < 2 ^ 31 -> as_i32 z = z.
Proof. intros. unfold as_i32. rewrite Z.mod_small; lia. Qed.

Lemma no_dash_app s d : ~ no_dash (s +:+ String dash d).
Proof. induction s as [|a s IH]; simpl; naive_solver. Qed.

Lemma dash_suffix_split s s' d d' :
  no_dash d -> no_dash d' -> s +:+ String dash d = s' +:+ String dash d' -> s = s' /\ d = d'.
Proof.
  intros Hd Hd'. revert s'. induction s as [|a s IH]; intros [|a' s'] Heq; simpl in *.
  - by injection Heq as ->.
  - injection Heq as _ ->. by apply no_dash_app in Hd.
  - injection Heq as _ <-. by apply no_dash_app in Hd'.
  - injection Heq as -> Heq. by destruct (IH _ Heq) as [-> ->].
Qed.

(** A printed natural number at the end of a string can be read back. *)
Lemma pretty_suffix_inj (s s' : string) (a a' : Z) : 0 <= a -> 0 <= a' ->
  s +:+ "-" +:+ pretty a = s' +:+ "-" +:+ pretty a' -> s = s' /\ a = a'.
Proof.
  intros Ha Ha'. destruct (pretty_Z_digits a) as (d & _ & Hn & E), (pretty_Z_digits a') as (d' & _ & Hn' & E').
  rewrite (proj2 (Z.ltb_ge _ _)) in E by lia. rewrite (proj2 (Z.ltb_ge _ _)) in E' by lia. rewrite E, E'. intros [-> Hd]%dash_suffix_split; try done.
  split; [done|]. apply (inj pretty). by rewrite E, E', Hd.
Qed.

(** The offsets of a vertex are all of one kind. *)
Definition parent_ok (ints : bool) (m : Message) : Prop :=
  (match m_offset m with OInt _ => ints = true | OString _ => ints = false end) /\
  0 <= partition_idx (m_offset m) /\ 0 <= id_index (m_id m).

Lemma offset_to_string_inj ints m m' s :
  parent_ok ints m -> parent_ok ints m' -> offset_to_string (m_offset m) = Some s -> offset_to_string (m_offset m') = Some s ->
  m_offset m = m_offset m'.
Proof.
  intros (Hk & Hp & _) (Hk' & Hp' & _). destruct (m_offset m) as [[o p]|[o p]], (m_offset m') as [[o' p']|[o' p']]; simpl in *; try congruence.
  - intros [= <-] [= E]. apply pretty_pair_inj in E as [-> ->]. done.
  - destruct (utf8_valid o), (utf8_valid o'); try done. intros [= <-] [= E].
    apply pretty_suffix_inj in E as [-> ->]; done.
Qed.

(** Lists of messages whose ids tell which parent they come from. *)
Lemma nodup_by_parent {B K} (key : B -> K) (of_parent : B -> MessageID -> Prop) (makes : B -> list Message -> Prop)
    (parents : list B) (outs : list (list Message)) :
  Forall2 makes parents outs ->
  (forall b ms, b ∈ parents -> makes b ms -> NoDup (m_id <$> ms) /\ forall m, m ∈ ms -> of_parent b (m_id m)) ->
  (forall b b' i, b ∈ parents -> b' ∈ parents -> of_parent b i -> of_parent b' i -> key b = key b') ->
  NoDup (key <$> parents) -> NoDup (m_id <$> concat outs).
Proof.
  induction 1 as [|b ms parents outs Hmk Hall IH]; intros Hmakes Hkey Hk; [constructor|].
  destruct (Hmakes b ms ltac:(by left) Hmk) as [Hnd Hof]. cbn [concat]. rewrite fmap_app. apply NoDup_cons in Hk as [Hni Hk]. apply NoDup_app. split_and!; [done| |].
  - intros i (m & -> & Hm)%list_elem_of_fmap (m' & E & Hm')%list_elem_of_fmap. apply Hni.
    apply list_elem_of_In, in_concat in Hm' as (ms' & Hms' & Hm'). apply list_elem_of_In in Hms', Hm'.
    apply list_elem_of_lookup in Hms' as [j Hj]. destruct (Forall2_lookup_r _ _ _ _ _ Hall Hj) as (b' & Hb' & Hmk').
    apply list_elem_of_lookup_2 in Hb'. destruct (Hmakes b' ms' ltac:(by right) Hmk') as [_ Hof']. apply list_elem_of_fmap. exists b'. split; [|done].
    eapply (Hkey b b' (m_id m)); [by left|by right|by apply Hof|]. rewrite E. by apply Hof'.
  - apply IH; [| |done]; [intros b1 ms1 H1; apply Hmakes; by right|]. intros b1 b2 i H1 H2. apply Hkey; by right.
Qed.

Section Ids.
Context (vertex_name : string).

Lemma mapped_from_ids p i rs ms : mapped_from vertex_name p i rs = Some ms ->
  0 <= i -> i + Z.of_nat (length rs) <= 2 ^ 31 ->
  NoDup (m_id <$> ms) /\ forall m, m ∈ ms -> exists o, result_offset p = Some o /\ id_offset (m_id m) = o /\ i <= id_index (m_id m).
Proof.
  revert i ms. induction rs as [|r rs IH]; intros i ms; cbn [mapped_from length].
  { intros [= <-] _ _. split; [constructor|by intros m Hm%elem_of_nil]. }
  unfold user_defined_message. destruct (result_offset p) as [o|] eqn:Eo; [|done].
  destruct (mapped_from vertex_name p (i + 1) rs) as [ms'|] eqn:E; [|done]. intros [= <-] Hi Hlen.
  destruct (IH _ _ E ltac:(lia) ltac:(lia)) as [Hnd Hof]. rewrite as_i32_small by lia. split.
  - rewrite fmap_cons. constructor; [|done]. intros (m & Hm & Hin)%list_elem_of_fmap. destruct (Hof m Hin) as (? & _ & _ & Hx).
    rewrite <- Hm in Hx. cbn in Hx. lia.
  - intros m [->|Hin]%elem_of_cons; [exists o; split_and!; try done; cbn; lia|].
    destruct (Hof m Hin) as (o' & Ho & Hid & Hx). exists o'. split_and!; [congruence|done|lia].
Qed.

Lemma streamed_ids p rs ms : streamed_messages vertex_name p rs = Some ms ->
  0 <= pi_current_index p -> pi_current_index p + Z.of_nat (length rs) < 2 ^ 31 ->
  NoDup (m_id <$> ms) /\ forall m, m ∈ ms -> exists o, offset_to_string (pi_offset p) = Some o /\ pi_current_index p <= id_index (m_id m) /\
    id_offset (m_id m) = (o +:+ "-" +:+ pretty (id_index (m_id m)))%string.
Proof.
  revert p ms. induction rs as [|r rs IH]; intros p ms; cbn [streamed_messages length].
  { intros [= <-] _ _. split; [constructor|by intros m Hm%elem_of_nil]. }
  unfold user_defined_message, result_offset. destruct (offset_to_string (pi_offset p)) as [o|] eqn:Eo; [|done]. cbn [mbind option_bind].
  set (p' := set_current_index p _). destruct (streamed_messages vertex_name p' rs) as [ms'|] eqn:E; [|done]. intros [= <-] Hi Hlen.
  assert (Hp' : pi_current_index p' = pi_current_index p + 1) by (cbn; rewrite as_i32_small; lia).
  destruct (IH _ _ E ltac:(lia) ltac:(lia)) as [Hnd Hof]. split.
  - rewrite fmap_cons. constructor; [|done]. intros (m & Hm & Hin)%list_elem_of_fmap. destruct (Hof m Hin) as (? & _ & Hx & _).
    rewrite <- Hm in Hx. cbn in Hx. cbn in Hp'. lia.
  - intros m [->|Hin]%elem_of_cons; [exists o; split_and!; try done; cbn; lia|].
    destruct (Hof m Hin) as (o' & Ho & Hx & Hid). exists o'. split_and!; [cbn in Ho; congruence|lia|done].
Qed.
End Ids.

(** The messages a unary or a batch mapper makes of its results have different ids, if the
    messages it mapped differ in their offset or in their index (a transformer gives the messages
    it makes of one the same offset); those of a streaming mapper if they differ in their offset. *)
Theorem map_ids_unique (vertex_name : string) (ints : bool) (parents : list (Message * list MapResult)) (outs : list (list Message)) :
  Forall (fun p => parent_ok ints p.1 /\ id_index (m_id p.1) + Z.of_nat (length p.2) < 2 ^ 31) parents ->
  (Forall2 (fun p ms => mapped_messages vertex_name (parent_info p.1) p.2 = Some ms) parents outs ->
   NoDup ((fun p => (m_offset p.1, id_index (m_id p.1))) <$> parents) -> NoDup (m_id <$> concat outs)) /\
  (Forall2 (fun p ms => streamed_messages vertex_name (parent_info p.1) p.2 = Some ms) parents outs ->
   NoDup ((fun p => m_offset p.1) <$> parents) -> NoDup (m_id <$> concat outs)).
Proof.
  intros Hok. assert (Hp : forall p, p ∈ parents -> parent_ok ints p.1 /\ id_index (m_id p.1) + Z.of_nat (length p.2) < 2 ^ 31)
    by (by rewrite Forall_forall in Hok).
  split; intros Hall Hk.
  - eapply (nodup_by_parent _ (fun p i => result_offset (parent_info p.1) = Some (id_offset i))); [exact Hall| | |exact Hk].
    + intros b ms Hb Hm. destruct (Hp b Hb) as [(_ & _ & Hi) Hlen]. destruct (mapped_from_ids _ _ _ _ _ Hm ltac:(lia) ltac:(lia)) as [Hnd Hof].
      split; [done|]. intros m Hin. destruct (Hof m Hin) as (o & Ho & <- & _). done.
    + intros b b' i Hb Hb' E E'. destruct (Hp b Hb) as [Ho _], (Hp b' Hb') as [Ho' _]. unfold result_offset in E, E'. cbn in E, E'.
      destruct (offset_to_string (m_offset b.1)) as [o|] eqn:Eo; [|done]. destruct (offset_to_string (m_offset b'.1)) as [o'|] eqn:Eo'; [|done].
      cbn in E, E'. injection E as E. injection E' as E'. rewrite <- E' in E.
      apply pretty_suffix_inj in E as [-> Ei]; [|apply Ho|apply Ho']. rewrite Ei. f_equal. by eapply offset_to_string_inj.
  - eapply (nodup_by_parent _ (fun p i => exists o, offset_to_string (m_offset p.1) = Some o /\ 0 <= id_index i /\
      id_offset i = (o +:+ "-" +:+ pretty (id_index i))%string)); [exact Hall| | |exact Hk].
    + intros b ms Hb Hm. destruct (Hp b Hb) as [(_ & _ & Hi) Hlen]. destruct (streamed_ids _ _ _ _ Hm Hi Hlen) as [Hnd Hof].
      split; [done|]. intros m Hin. destruct (Hof m Hin) as (o & Ho & Hx & Hid). exists o. split_and!; try done. cbn in Hx. lia.
    + intros b b' i Hb Hb' (o & Eo & Hi & E) (o' & Eo' & _ & E'). destruct (Hp b Hb) as [Ho _], (Hp b' Hb') as [Ho' _].
      rewrite E in E'. apply pretty_suffix_inj in E' as [-> _]; [|done..]. by eapply offset_to_string_inj.
Qed.

Definition ex_parent (index : Z) : Message :=
  mkMessage Data [] None "v" (OInt (mkIntOffset 7 0)) 700 None (mkMessageID "in" "7-0" index) ∅ None false None.
Definition ex_result (v : string) : MapResult := mkMapResult [] [] v None None.
(** Two messages a transformer made of one, mapped to two and to one. *)
Definition ex_parents : list (Message * list MapResult) :=
  [(ex_parent 0, [ex_result "a"; ex_result "b"]); (ex_parent 1, [ex_result "c"])].

Lemma map_ids_unique_witness :
  exists outs, omap (fun p => mapped_messages "map" (parent_info p.1) p.2) ex_parents = outs /\ NoDup (m_id <$> concat outs).
Proof.
  eexists. split; [reflexivity|]. refine (proj1 (map_ids_unique "map" true ex_parents _ _) _ _).
  - by repeat constructor.
  - repeat constructor.
  - apply (bool_decide_unpack _). vm_compute. exact I.
Defined.

(** A streaming mapper gives the second result of the first of these messages the id of the result
    of the second. *)
Example streamed_ids_collide :
  match omap (fun p => streamed_messages "map" (parent_info p.1) p.2) ex_parents with
  | [[_; b]; [c]] => m_id b = m_id c /\ m_value b <> m_value c
  | _ => False
  end.
Proof. vm_compute. by split. Qed.
