(* ===== verification/MapClient.v ===== *)
(** The clients of a map function (src/rust/numaflow-core/src/mapper/map/unary.rs, batch.rs and
    stream.rs): the table that routes the responses of one bidirectional stream to the calls
    waiting for them, by the id of the message.

    A call has a channel, of which the table holds the sender. Calls and the task that receives
    the responses interleave freely; the steps are those done under the lock of the table or
    between two awaits. Metrics and logging are left out. *)
From S2P Require Import Prelude Message MapUdf.
Open Scope Z_scope.

(** * Calls and the table of senders *)

Section Table.
Context {R D : Type}.

(** [c_open]: the sender of the channel exists; [c_done]: the receiver is gone, with the outcome
    of the call. *)
Record Call := mkCall {
  c_id : string;
  c_queued : bool;                    (* the request went to the stream *)
  c_items : list (Result R);          (* sent and not received *)
  c_open : bool;
  c_done : option D
}.
Record Table := mkTable { t_senders : gmap string nat; t_calls : list Call }.

Definition with_items (c : Call) (items : list (Result R)) : Call := mkCall (c_id c) (c_queued c) items (c_open c) (c_done c).
Definition set_queued (c : Call) : Call := mkCall (c_id c) true (c_items c) (c_open c) (c_done c).
Definition set_done (d : D) (c : Call) : Call := mkCall (c_id c) (c_queued c) (c_items c) (c_open c) (Some d).
Definition shut (c : Call) : Call := mkCall (c_id c) (c_queued c) (c_items c) false (c_done c).
(** A send on the channel; it fails when the receiver is gone. *)
Definition chan_put (r : Result R) (c : Call) : Call :=
  match c_open c, c_done c with true, None => with_items c (c_items c ++ [r]) | _, _ => c end.

Definition on_call (t : Table) (k : nat) (f : Call -> Call) : Table := mkTable (t_senders t) (alter f k (t_calls t)).

(** [map.insert]: the sender it replaces is dropped. *)
Definition insert_sender (t : Table) (id : string) (k : nat) : Table :=
  mkTable (<[id := k]> (t_senders t))
    (match t_senders t !! id with Some k' => alter shut k' (t_calls t) | None => t_calls t end).
(** [map.remove], with what is done with the sender before it is dropped. *)
Definition remove_sender (t : Table) (id : string) (f : Call -> Call) : Table :=
  mkTable (delete id (t_senders t))
    (match t_senders t !! id with Some k => alter (fun c => shut (f c)) k (t_calls t) | None => t_calls t end).
(** [mem::take], and an error to every sender. *)
Definition drain_senders (t : Table) (e : Error) : Table :=
  mkTable ∅ (foldr (fun k calls => alter (fun c => shut (chan_put (Err e) c)) k calls) (t_calls t) (map_to_list (t_senders t)).*2).

Definition add_call (t : Table) (c : Call) : Table := mkTable (t_senders t) (t_calls t ++ [c]).

Lemma chan_put_id r c : c_id (chan_put r c) = c_id c.
Proof. unfold chan_put. by destruct (c_open c), (c_done c). Qed.

(** ** The senders in the table are those of the open channels *)

Definition table_ok (t : Table) : Prop :=
  forall id k, t_senders t !! id = Some k <-> exists c, t_calls t !! k = Some c /\ c_id c = id /\ c_open c = true.

Lemma table_new_ok : table_ok (mkTable ∅ []).
Proof. intros id k. cbn. rewrite lookup_empty. split; [done|]. by intros (c & ? & _). Qed.

Lemma table_on_call t k f : (forall c, c_id (f c) = c_id c) -> (forall c, c_open (f c) = c_open c) -> table_ok t -> table_ok (on_call t k f).
Proof.
  intros Hid Hop Ht id k'. cbn. rewrite (Ht _ _). destruct (decide (k = k')) as [->|Hne].
  - rewrite list_lookup_alter_eq. split.
    + intros (c & -> & ? & ?). exists (f c). by rewrite Hid, Hop.
    + intros (c & (c0 & Hc & ->)%fmap_Some & ? & ?). rewrite Hid, Hop in *. by exists c0.
  - by rewrite list_lookup_alter_ne.
Qed.

Lemma table_owner t id k c : table_ok t -> t_senders t !! id = Some k -> t_calls t !! k = Some c -> c_id c = id /\ c_open c = true.
Proof. intros Ht (c' & Hc & ? & ?)%Ht Hc'. by simplify_eq. Qed.

Lemma table_remove t id f : (forall c, c_id (f c) = c_id c) -> table_ok t -> table_ok (remove_sender t id f).
Proof.
  intros Hid Ht id' k'. cbn. rewrite lookup_delete_Some, (Ht _ _). destruct (t_senders t !! id) as [k|] eqn:El.
  - destruct (decide (k = k')) as [->|Hne].
    + rewrite list_lookup_alter_eq. split.
      * intros (Hne & c & Hc & <- & _). by destruct (table_owner _ _ _ _ Ht El Hc) as [<- _].
      * intros (c & (c0 & _ & ->)%fmap_Some & _ & ?). done.
    + rewrite list_lookup_alter_ne by done. split; [tauto|]. intros (c & Hc & <- & Ho). split; [|eauto].
      intros ->. assert (t_senders t !! c_id c = Some k') by (apply Ht; eauto). congruence.
  - split; [tauto|]. intros (c & Hc & <- & Ho). split; [|eauto]. intros ->.
    assert (t_senders t !! c_id c = Some k') by (apply Ht; eauto). congruence.
Qed.

Lemma table_add_closed t c : c_open c = false -> table_ok t -> table_ok (add_call t c).
Proof.
  intros Hc Ht id k. rewrite (Ht _ _). cbn. split.
  - intros (c0 & Hk & ?). exists c0. split; [|done]. by apply lookup_app_l_Some.
  - intros (c0 & [Hk|[_ Hk]]%lookup_app_Some & Hid & Ho); [by exists c0|]. apply list_lookup_singleton_Some in Hk as [_ <-]. congruence.
Qed.

Lemma table_insert t c : c_open c = true -> table_ok t ->
  table_ok (insert_sender (add_call t c) (c_id c) (length (t_calls t))).
Proof.
  intros Hc Ht id k. cbn. set (n := length (t_calls t)). destruct (decide (k = n)) as [->|Hkn].
  - assert (Hk : (match t_senders t !! c_id c with Some k' => alter shut k' (t_calls t ++ [c]) | None => t_calls t ++ [c] end) !! n = Some c).
    { assert (Hl : (t_calls t ++ [c]) !! n = Some c) by (rewrite lookup_app_r by done; unfold n; by rewrite Nat.sub_diag).
      destruct (t_senders t !! c_id c) as [k'|] eqn:El; [|done]. apply Ht in El as (c' & Hc' & _).
      apply lookup_lt_Some in Hc'. rewrite list_lookup_alter_ne by (unfold n; lia). done. }
    rewrite Hk. split.
    + intros [[<- _]|[_ (c' & Hc' & _)%Ht]]%lookup_insert_Some; [by exists c|]. apply lookup_lt_Some in Hc'. unfold n in *. lia.
    + intros (c' & [= <-] & <- & _). apply lookup_insert_eq.
  - assert (Hk : forall c', (match t_senders t !! c_id c with Some k' => alter shut k' (t_calls t ++ [c]) | None => t_calls t ++ [c] end) !! k = Some c' /\
      c_open c' = true <-> t_calls t !! k = Some c' /\ c_open c' = true /\ c_id c' <> c_id c).
    { intros c'. assert (Hl : forall c', (t_calls t ++ [c]) !! k = Some c' <-> t_calls t !! k = Some c').
      { intros x. rewrite lookup_app_Some. split; [|by left]. intros [?|[? Hx%list_lookup_singleton_Some]]; [done|]. fold n in H. lia. }
      destruct (t_senders t !! c_id c) as [k'|] eqn:El.
      - destruct (decide (k' = k)) as [->|Hne].
        + rewrite list_lookup_alter_eq. split; [by intros [(x & _ & ->)%fmap_Some ?]|]. intros (Hx & Ho & Hne).
          by destruct (table_owner _ _ _ _ Ht El Hx) as [? _].
        + rewrite list_lookup_alter_ne, Hl by done. split; [|tauto]. intros [Hx Ho]. split_and!; try done. intros Hid.
          assert (t_senders t !! c_id c' = Some k) by (apply Ht; eauto). congruence.
      - rewrite Hl. split; [|tauto]. intros [Hx Ho]. split_and!; try done. intros Hid.
        assert (t_senders t !! c_id c' = Some k) by (apply Ht; eauto). congruence. }
    rewrite lookup_insert_Some, (Ht _ _). split.
    + intros [[_ ?]|(Hne & c' & Hx & <- & Ho)]; [by unfold n in *|]. exists c'.
      assert (Hand : t_calls t !! k = Some c' /\ c_open c' = true /\ c_id c' <> c_id c) by done. apply Hk in Hand as [? ?]. done.
    + intros (c' & Hx & <- & Ho). right. destruct (proj1 (Hk c') (conj Hx Ho)) as (? & _ & ?). split; [done|]. by exists c'.
Qed.

Lemma drain_lookup t e k c : table_ok t -> t_calls t !! k = Some c ->
  t_calls (drain_senders t e) !! k = Some (if c_open c then shut (chan_put (Err e) c) else c).
Proof.
  intros Ht Hc. cbn. set (ks := (map_to_list (t_senders t)).*2).
  assert (Hks : k ∈ ks <-> c_open c = true).
  { unfold ks. rewrite list_elem_of_fmap. split.
    - intros ([id k'] & -> & Hin%elem_of_map_to_list). by destruct (table_owner _ _ _ _ Ht Hin Hc).
    - intros Ho. exists (c_id c, k). split; [done|]. apply elem_of_map_to_list, Ht. by exists c. }
  assert (Hgen : forall ks, foldr (fun k calls => alter (fun c => shut (chan_put (Err e) c)) k calls) (t_calls t) ks !! k =
    Some (if decide (k ∈ ks) then shut (chan_put (Err e) c) else c)).
  { clear Hks ks. induction ks as [|k' ks IH]; cbn [foldr]; [by rewrite decide_False by apply not_elem_of_nil|].
    destruct (decide (k' = k)) as [->|Hne].
    - rewrite list_lookup_alter_eq, IH, (decide_True (P := k ∈ k :: ks)) by (by left). cbn. f_equal. by case_decide.
    - rewrite list_lookup_alter_ne, IH by done. f_equal. repeat case_decide; try done; set_solver. }
  rewrite Hgen. f_equal. destruct (c_open c) eqn:Ho; case_decide; naive_solver.
Qed.

Lemma drain_length t e : length (t_calls (drain_senders t e)) = length (t_calls t).
Proof. cbn. induction (map_to_list (t_senders t)).*2 as [|k ks IH]; [done|]. cbn. by rewrite length_alter. Qed.

Lemma drain_lookup_inv t e k c' : table_ok t -> t_calls (drain_senders t e) !! k = Some c' ->
  exists c, t_calls t !! k = Some c /\ c' = (if c_open c then shut (chan_put (Err e) c) else c).
Proof.
  intros Ht Hc. assert (is_Some (t_calls t !! k)) as [c Hk] by (apply lookup_lt_is_Some; rewrite <- (drain_length t e); by eapply lookup_lt_Some).
  exists c. split; [done|]. rewrite (drain_lookup _ _ _ _ Ht Hk) in Hc. by injection Hc.
Qed.

Lemma drain_closed t e k c : table_ok t -> t_calls (drain_senders t e) !! k = Some c -> c_open c = false.
Proof. intros Ht Hc. destruct (drain_lookup_inv _ _ _ _ Ht Hc) as (c0 & _ & ->). by destruct (c_open c0) eqn:?. Qed.

Lemma table_drain t e : table_ok t -> table_ok (drain_senders t e).
Proof.
  intros Ht id k. split; [cbn; by rewrite lookup_empty|]. intros (c & Hc & _ & Ho). by rewrite (drain_closed _ _ _ _ Ht Hc) in Ho.
Qed.
End Table.
Arguments Call : clear implicits.
Arguments Table : clear implicits.

Lemma Forall_alter_at {A} (P : A -> Prop) f l k :
  (forall x, l !! k = Some x -> P x -> P (f x)) -> Forall P l -> Forall P (alter f k l).
Proof.
  intros Hf Hl. apply Forall_lookup. intros i x Hi. rewrite Forall_lookup in Hl. destruct (decide (k = i)) as [->|].
  - rewrite list_lookup_alter_eq in Hi. apply fmap_Some in Hi as (y & Hy & ->). eauto.
  - rewrite list_lookup_alter_ne in Hi by done. eauto.
Qed.

Lemma alter_alter {A} (f g : A -> A) (i : nat) (l : list A) : alter f i (alter g i l) = alter (fun x => f (g x)) i l.
Proof. revert i. induction l; intros [|i]; f_equal/=; auto. Qed.

(** * The unary client *)

Module Unary.
Section Unary.
Context {R : Type}.
#[local] Abbreviation UTable := (Table R (Result R)).

(** [us_receiving]: the task that receives the responses runs. *)
Record UnarySenderMapState := mkUnary { us_table : UTable; us_closed : bool; us_receiving : bool }.
Definition unary_new : UnarySenderMapState := mkUnary (mkTable ∅ []) false true.

Definition unary_broadcast_error (st : UnarySenderMapState) (e : Error) : UnarySenderMapState :=
  mkUnary (drain_senders (us_table st) e) true (us_receiving st).

(** The sender is removed and gets the results; whether its receiver took them. *)
Definition process_unary_response (st : UnarySenderMapState) (id : string) (results : R) : UnarySenderMapState * Result unit :=
  let t := us_table st in
  (mkUnary (remove_sender t id (chan_put (Ok results))) (us_closed st) (us_receiving st),
   match t_senders t !! id with
   | None => Err (EMapper "No such req/resp ID found in unary ResponseSenderMap")
   | Some k =>
       match c_done <$> t_calls t !! k with
       | Some None => Ok tt
       | _ => Err (EMapper "Failed to send server response from receiver to unary task")
       end
   end).

(** The first part of [unary]: a channel, and its sender in the table. *)
Definition unary_call (st : UnarySenderMapState) (id : string) : UnarySenderMapState :=
  let t := us_table st in
  if us_closed st then mkUnary (add_call t (mkCall id true [] false (Some (Err (EGrpc "unary map stream closed"))))) true (us_receiving st)
  else mkUnary (insert_sender (add_call t (mkCall id false [] true None)) id (length (t_calls t))) false (us_receiving st).

Definition unary_fail (st : UnarySenderMapState) (k : nat) (id : string) (e : Error) : UnarySenderMapState :=
  mkUnary (on_call (remove_sender (us_table st) id (fun c => c)) k (set_done (Err e))) (us_closed st) (us_receiving st).

Inductive UEvent :=
  | UCall (id : string)
  | UQueue (k : nat) (ok : bool)                (* the outcome of [read_tx.send] *)
  | UAwait (k : nat)                            (* the channel wins the select *)
  | UCancel (k : nat)                           (* the token does *)
  | UResponse (id : string) (results : R)
  | UStreamError (e : Error)
  | UStreamEnd.

(** [None]: the step is not possible. *)
Definition unary_exec (st : UnarySenderMapState) (ev : UEvent) : option UnarySenderMapState :=
  let t := us_table st in
  let with_table t := mkUnary t (us_closed st) (us_receiving st) in
  match ev with
  | UCall id => Some (unary_call st id)
  | UQueue k ok =>
      let? c := t_calls t !! k in
      match c_done c, c_queued c with
      | None, false =>
          Some (if ok then with_table (on_call t k set_queued)
                else unary_fail st k (c_id c) (EGrpc "failed to send message to unary map server"))
      | _, _ => None
      end
  | UAwait k =>
      let? c := t_calls t !! k in
      match c_done c, c_queued c, c_items c, c_open c with
      | None, true, r :: _, _ => Some (with_table (on_call t k (set_done r)))
      | None, true, [], false => Some (with_table (on_call t k (set_done (Err (EActorPatternRecv "channel closed")))))
      | _, _, _, _ => None
      end
  | UCancel k =>
      let? c := t_calls t !! k in
      match c_done c, c_queued c with
      | None, true => Some (unary_fail st k (c_id c) (EMapper "unary map operation cancelled"))
      | _, _ => None
      end
  | UResponse id results => if us_receiving st then Some (process_unary_response st id results).1 else None
  | UStreamError e => if us_receiving st then Some (unary_broadcast_error st e) else None
  | UStreamEnd =>
      if us_receiving st then
        let st := unary_broadcast_error st (EGrpc "receiver stream dropped") in Some (mkUnary (us_table st) (us_closed st) false)
      else None
  end.

Fixpoint unary_run (st : UnarySenderMapState) (evs : list UEvent) : option UnarySenderMapState :=
  match evs with [] => Some st | ev :: evs => let? st' := unary_exec st ev in unary_run st' evs end.

(** ** The invariant *)

(** What a call was sent, or ended with, it was sent for a response with its id. *)
Definition call_ok (past : list UEvent) (c : Call R (Result R)) : Prop :=
  forall rs, Ok rs ∈ c_items c \/ c_done c = Some (Ok rs) -> UResponse (c_id c) rs ∈ past.

Definition unary_inv (past : list UEvent) (st : UnarySenderMapState) : Prop :=
  table_ok (us_table st) /\ Forall (call_ok past) (t_calls (us_table st)) /\
  (us_closed st = true -> t_senders (us_table st) = ∅) /\ (us_receiving st = false -> us_closed st = true).

Lemma call_ok_mono past ev c : call_ok past c -> call_ok (past ++ [ev]) c.
Proof. intros Hc rs Hr. apply elem_of_app. left. by apply Hc. Qed.
Lemma calls_ok_mono past ev cs : Forall (call_ok past) cs -> Forall (call_ok (past ++ [ev])) cs.
Proof. intros Hcs. eapply Forall_impl; [exact Hcs|]. intros c. apply call_ok_mono. Qed.

Lemma call_ok_put past r c : (forall rs, r = Ok rs -> UResponse (c_id c) rs ∈ past) -> call_ok past c -> call_ok past (chan_put r c).
Proof.
  intros Hr Hc. unfold chan_put. destruct (c_open c), (c_done c) as [d|] eqn:Ed; try done. intros rs [Hin|Hd]; cbn in *.
  - apply elem_of_app in Hin as [?|Hin%list_elem_of_singleton]; [apply Hc; by left|by apply Hr].
  - congruence.
Qed.

Lemma call_ok_ext past c c' :
  c_id c' = c_id c -> c_items c' = c_items c -> (forall rs, c_done c' = Some (Ok rs) -> c_done c = Some (Ok rs)) -> call_ok past c -> call_ok past c'.
Proof. intros Hid Hit Hd Hc rs. rewrite Hid, Hit. intros [?|?%Hd]; apply Hc; auto. Qed.

Lemma fail_inv past st k id e : unary_inv past st -> unary_inv past (unary_fail st k id e).
Proof.
  intros (Ht & Hc & Hcl & Hr). split_and!; cbn; try done.
  - apply table_on_call; try done. by apply table_remove.
  - apply Forall_alter_at; [intros c _; by apply call_ok_ext|]. destruct (t_senders (us_table st) !! id); [|done].
    apply Forall_alter_at; [intros c _; by apply call_ok_ext|done].
  - intros Hx%Hcl. by rewrite Hx, delete_empty.
Qed.

Lemma broadcast_inv past st e : unary_inv past st -> unary_inv past (unary_broadcast_error st e) /\ us_closed (unary_broadcast_error st e) = true.
Proof.
  intros (Ht & Hc & Hcl & Hr). split; [|done]. split_and!; try done; [by apply table_drain|].
  apply Forall_lookup. intros k c' Hk. destruct (drain_lookup_inv _ _ _ _ Ht Hk) as (c & Hl & ->).
  rewrite Forall_lookup in Hc. specialize (Hc k c Hl). destruct (c_open c); [|done].
  eapply (call_ok_ext past (chan_put (Err e) c)); try done. by apply call_ok_put.
Qed.

Lemma exec_inv past st ev st' : unary_inv past st -> unary_exec st ev = Some st' -> unary_inv (past ++ [ev]) st'.
Proof.
  intros (Ht & Hc & Hcl & Hr). assert (Hi : unary_inv (past ++ [ev]) st) by (split_and!; try done; by apply calls_ok_mono).
  destruct ev as [id|k ok|k|k|id rs|e|]; cbn [unary_exec].
  - intros [= <-]. unfold unary_call. destruct Hi as (_ & Hc' & _ & _). destruct (us_closed st) eqn:Ec.
    + split_and!; cbn; try done; [by apply table_add_closed|]. apply Forall_app. split; [done|]. apply Forall_singleton.
      intros rs. cbn. intros [?%elem_of_nil|[=]]. done.
    + assert (Hx : Forall (call_ok (past ++ [UCall id])) (t_calls (us_table st) ++ [mkCall id false [] true None])).
      { apply Forall_app. split; [done|]. apply Forall_singleton. intros rs. cbn. by intros [?%elem_of_nil|[=]]. }
      split_and!; cbn; try done; [by apply (table_insert (us_table st) (mkCall id false [] true None))|].
      destruct (t_senders (us_table st) !! id); [|done]. apply Forall_alter_at; [|done]. intros c _. by apply call_ok_ext.
  - destruct (t_calls (us_table st) !! k) as [c|] eqn:El; [|done]. cbn. destruct (c_done c), (c_queued c); try done. intros [= <-].
    destruct ok; [|by apply fail_inv]. destruct Hi as (_ & Hc' & _ & _). split_and!; cbn; try done; [by apply table_on_call|].
    apply Forall_alter_at; [|done]. intros c' _. by apply call_ok_ext.
  - destruct (t_calls (us_table st) !! k) as [c|] eqn:El; [|done]. cbn. destruct Hi as (_ & Hc' & _ & _).
    destruct (c_done c) as [d0|] eqn:Ed, (c_queued c), (c_items c) as [|r items] eqn:Ei, (c_open c) eqn:Eo; try done; intros [= <-];
      (split_and!; cbn; try done; [by apply table_on_call|]; apply Forall_alter_at; [|done]; intros c' Hl Hok).
    1: by eapply call_ok_ext; [..|exact Hok].
    all: rewrite El in Hl; injection Hl as <-; intros rs [Hin|[= ->]]; cbn in *; apply Hok; left; [done|]; rewrite Ei; by left.
  - destruct (t_calls (us_table st) !! k) as [c|] eqn:El; [|done]. cbn. destruct (c_done c), (c_queued c); try done. intros [= <-].
    by apply fail_inv.
  - destruct (us_receiving st) eqn:Er; [|done]. intros [= <-]. destruct Hi as (_ & Hc' & _ & _). unfold process_unary_response. split_and!; cbn; try done.
    + apply table_remove; [apply chan_put_id|done].
    + destruct (t_senders (us_table st) !! id) as [k|] eqn:El; [|done]. apply Forall_alter_at; [|done]. intros c Hk Hok.
      eapply (call_ok_ext _ (chan_put (Ok rs) c)); try done. apply call_ok_put; [|done]. intros rs' [= <-].
      destruct (table_owner _ _ _ _ Ht El Hk) as [-> _]. apply elem_of_app. right. by left.
    + intros Hx%Hcl. by rewrite Hx, delete_empty.
    + congruence.
  - destruct (us_receiving st) eqn:Er; [|done]. intros [= <-]. by apply broadcast_inv.
  - destruct (us_receiving st) eqn:Er; [|done]. intros [= <-].
    destruct (broadcast_inv _ _ (EGrpc "receiver stream dropped") Hi) as [(? & ? & ? & ?) ?]. by split_and!.
Qed.

Lemma run_inv past st evs st' : unary_inv past st -> unary_run st evs = Some st' -> unary_inv (past ++ evs) st'.
Proof.
  revert past st. induction evs as [|ev evs IH]; intros past st Hi; cbn.
  - intros [= <-]. by rewrite app_nil_r.
  - destruct (unary_exec st ev) as [st1|] eqn:E; [|done]. cbn. intros Hrun. rewrite cons_middle, app_assoc. eapply IH; [|exact Hrun].
    by eapply exec_inv.
Qed.

Lemma unary_new_inv : unary_inv [] unary_new.
Proof. split_and!; [apply table_new_ok|constructor|done|done]. Qed.

(** A call in flight whose channel holds nothing is answered by the next response with its id. *)
Lemma response_answers past st k c rs :
  unary_inv past st -> t_calls (us_table st) !! k = Some c -> c_open c = true -> c_done c = None ->
  t_calls (us_table (process_unary_response st (c_id c) rs).1) !! k = Some (shut (chan_put (Ok rs) c)) /\ (process_unary_response st (c_id c) rs).2 = Ok tt.
Proof.
  intros (Ht & _ & _ & _) Hk Ho Hd. assert (Hs : t_senders (us_table st) !! c_id c = Some k) by (apply Ht; by exists c).
  cbn. rewrite Hs, list_lookup_alter_eq, Hk. cbn. by rewrite Hd.
Qed.

(** The calls of a unary map function, in every interleaving of calls, cancellations and
    responses: a call that returns results returns those of a response with its id; while the
    stream is open a call that waits is answered by the next response with its id; and once the
    stream is closed no call waits any longer, each has an answer or an error to return. *)
Theorem unary_calls_answered (evs : list UEvent) (st : UnarySenderMapState) :
  unary_run unary_new evs = Some st ->
  (forall k c rs, t_calls (us_table st) !! k = Some c -> c_done c = Some (Ok rs) -> UResponse (c_id c) rs ∈ evs) /\
  (forall k c, t_calls (us_table st) !! k = Some c -> c_done c = None -> c_queued c = true ->
     is_Some (unary_exec st (UAwait k)) \/
     us_closed st = false /\ us_receiving st = true /\
     forall rs, exists st', unary_exec st (UResponse (c_id c) rs) = Some st' /\ unary_exec st' (UAwait k) =
       Some (mkUnary (on_call (us_table st') k (set_done (Ok rs))) (us_closed st') (us_receiving st'))).
Proof.
  intros Hrun. pose proof (run_inv [] _ _ _ unary_new_inv Hrun) as Hi.
  pose proof Hi as (Ht & Hc & Hcl & Hr). cbn in Hc. split.
  - intros k c rs Hk Hd. rewrite Forall_lookup in Hc. apply (Hc k c Hk rs). by right.
  - intros k c Hk Hd Hq. cbn [unary_exec]. rewrite Hk, Hd, Hq. destruct (c_items c) as [|r items] eqn:Eit; [|by left; eauto].
    destruct (c_open c) eqn:Eo; [|left; eauto]. right.
    assert (Hs : t_senders (us_table st) !! c_id c = Some k) by (apply Ht; by exists c).
    assert (Hcf : us_closed st = false).
    { destruct (us_closed st) eqn:Ec; [|done]. rewrite Hcl in Hs by done. by rewrite lookup_empty in Hs. }
    assert (Hrt : us_receiving st = true) by (destruct (us_receiving st); [done|]; rewrite Hr in Hcf; done).
    split_and!; try done. intros rs. rewrite Hrt. exists (process_unary_response st (c_id c) rs).1. split; [done|].
    destruct (response_answers _ _ k c rs Hi Hk Eo Hd) as [Hk' _]. rewrite Hk'. unfold chan_put. rewrite Eo, Hd. cbn. rewrite Hd, Hq, Eit. done.
Qed.
End Unary.
End Unary.

(** * The batch client *)

Module Batch.
Section Batch.
Context {R : Type}.
#[local] Abbreviation BTable := (Table R unit).

(** The channel that tells a batch of the end of transmission, as its receiver sees it. *)
Inductive EotState := EotWait | EotSent | EotDropped.

(** Where [batch] is. *)
Inductive BatchPhase :=
  | BIdle
  | BRegister (todo : list string)                  (* at the head of the loop over the requests *)
  | BQueue (id : string) (todo : list string)       (* [id] is in the table, not yet queued *)
  | BEot                                            (* all queued *)
  | BRecv (ks : list nat) (results : list R)        (* waits for the answers in their order *)
  | BEotWait (results : list R)
  | BReturned (r : list (Result R)).

Record BatchSenderMapState := mkBatch {
  bs_table : BTable;
  bs_eot : bool;                  (* a notifier is in the state *)
  bs_closed : bool;
  bs_receiving : bool;
  b_phase : BatchPhase;
  b_first : nat;                  (* the first call of the batch *)
  b_eot : EotState                (* the channel of the batch *)
}.
Definition batch_new : BatchSenderMapState := mkBatch (mkTable ∅ []) false false true BIdle 0 EotDropped.

(** The notifier is dropped, or used. *)
Definition eot_to (st : BatchSenderMapState) (e : EotState) : EotState := if bs_eot st then e else b_eot st.

Definition batch_broadcast_error (st : BatchSenderMapState) (e : Error) : BatchSenderMapState :=
  mkBatch (drain_senders (bs_table st) e) false true (bs_receiving st) (b_phase st) (b_first st) (eot_to st EotDropped).

(** [drain_senders] of the client does the same. *)
Definition batch_drain (st : BatchSenderMapState) (e : Error) : BatchSenderMapState := batch_broadcast_error st e.

Definition b_with (st : BatchSenderMapState) (t : BTable) (p : BatchPhase) : BatchSenderMapState :=
  mkBatch t (bs_eot st) (bs_closed st) (bs_receiving st) p (b_first st) (b_eot st).

(** A return drops the receivers of the batch. *)
Definition b_return (st : BatchSenderMapState) (r : list (Result R)) : BatchSenderMapState :=
  b_with st (mkTable (t_senders (bs_table st))
    (imap (fun k c => if bool_decide (b_first st <= k)%nat then set_done tt c else c) (t_calls (bs_table st)))) (BReturned r).

Definition batch_process_response (st : BatchSenderMapState) (id : string) (results : R) : BatchSenderMapState * Result unit :=
  let t := bs_table st in
  (b_with st (remove_sender t id (chan_put (Ok results))) (b_phase st),
   match t_senders t !! id with
   | None => Err (EMapper "No such req/resp ID found in batch ResponseSenderMap")
   | Some k =>
       match c_done <$> t_calls t !! k with
       | Some None => Ok tt
       | _ => Err (EMapper "Failed to send server response from receiver to batch task")
       end
   end).

(** The end of transmission: too early, and the receiving task stops; or the batch is told. *)
Definition receive_eot (st : BatchSenderMapState) : BatchSenderMapState :=
  let st' := mkBatch (bs_table st) false (bs_closed st) (bs_receiving st) (b_phase st) (b_first st) (eot_to st EotDropped) in
  if bool_decide (t_senders (bs_table st) = ∅)
  then mkBatch (bs_table st) false (bs_closed st) (bs_receiving st) (b_phase st) (b_first st) (eot_to st EotSent)
  else
    let st'' := batch_broadcast_error st' (EGrpc "UDF_PARTIAL_RESPONSE(batch_map)") in
    mkBatch (bs_table st'') (bs_eot st'') (bs_closed st'') false (b_phase st'') (b_first st'') (b_eot st'').

(** After the requests; after the answers. *)
Definition after_queue (todo : list string) : BatchPhase := match todo with [] => BEot | _ => BRegister todo end.
Definition after_recv (ks : list nat) (results : list R) : BatchPhase :=
  match ks with [] => BEotWait results | _ => BRecv ks results end.

Definition batch_start (st : BatchSenderMapState) (ids : list string) : BatchSenderMapState :=
  mkBatch (bs_table st) true (bs_closed st) (bs_receiving st) (after_queue ids) (length (t_calls (bs_table st))) EotWait.

Definition batch_register (st : BatchSenderMapState) (id : string) (todo : list string) : BatchSenderMapState :=
  let t := bs_table st in
  if bs_closed st then b_return st [Err (EGrpc "batch map stream closed")]
  else b_with st (insert_sender (add_call t (mkCall id true [] true None)) id (length (t_calls t))) (BQueue id todo).

Definition batch_queue (st : BatchSenderMapState) (id : string) (todo : list string) (ok : bool) : BatchSenderMapState :=
  if ok then b_with st (bs_table st) (after_queue todo)
  else
    let e := EGrpc "failed to send message to batch map server" in
    let st := b_with st (remove_sender (bs_table st) id (chan_put (Err e))) (b_phase st) in
    b_return (batch_drain st e) [Err e].

Definition batch_queue_eot (st : BatchSenderMapState) (ok : bool) : BatchSenderMapState :=
  if ok then b_with st (bs_table st) (after_recv (seq (b_first st) (length (t_calls (bs_table st)) - b_first st)) [])
  else let e := EGrpc "failed to send eot request to batch map server" in b_return (batch_drain st e) [Err e].

Inductive BEvent :=
  | EvStart (ids : list string)
  | EvRegister
  | EvQueue (ok : bool)
  | EvQueueEot (ok : bool)
  | EvAwait
  | EvAwaitEot
  | EvCancel
  | EvResponse (id : string) (results : R)
  | EvEot
  | EvStreamError (e : Error)
  | EvStreamEnd.

Definition batch_exec (st : BatchSenderMapState) (ev : BEvent) : option BatchSenderMapState :=
  match ev, b_phase st with
  | EvStart ids, (BIdle | BReturned _) => Some (batch_start st ids)
  | EvRegister, BRegister (id :: todo) => Some (batch_register st id todo)
  | EvQueue ok, BQueue id todo => Some (batch_queue st id todo ok)
  | EvQueueEot ok, BEot => Some (batch_queue_eot st ok)
  | EvAwait, BRecv (k :: ks) results =>
      let? c := t_calls (bs_table st) !! k in
      match c_items c, c_open c with
      | Ok r :: _, _ => Some (b_with st (bs_table st) (after_recv ks (results ++ [r])))
      | Err e :: _, _ => Some (b_return st [Err e])
      | [], false => Some (b_return st [Err (EActorPatternRecv "channel closed")])
      | [], true => None
      end
  | EvAwaitEot, BEotWait results =>
      match b_eot st with
      | EotSent => Some (b_return st (Ok <$> results))
      | EotDropped => Some (b_return st [Err (EGrpc "batch map stream ended before EOT")])
      | EotWait => None
      end
  | EvCancel, (BRecv (_ :: _) _ | BEotWait _) => Some (b_return st [Err (EMapper "batch map operation cancelled")])
  | EvResponse id results, _ => if bs_receiving st then Some (batch_process_response st id results).1 else None
  | EvEot, _ => if bs_receiving st then Some (receive_eot st) else None
  | EvStreamError e, _ => if bs_receiving st then Some (batch_broadcast_error st e) else None
  | EvStreamEnd, _ =>
      if bs_receiving st then
        let st := batch_broadcast_error st (EGrpc "receiver stream dropped") in
        Some (mkBatch (bs_table st) (bs_eot st) (bs_closed st) false (b_phase st) (b_first st) (b_eot st))
      else None
  | _, _ => None
  end.

Fixpoint batch_run (st : BatchSenderMapState) (evs : list BEvent) : option BatchSenderMapState :=
  match evs with [] => Some st | ev :: evs => let? st' := batch_exec st ev in batch_run st' evs end.

(** ** The invariant of a batch, from its start *)

Section Invariant.
Context (ids : list string).

Definition answered (past : list BEvent) (id : string) (r : R) : Prop := EvResponse id r ∈ past.

Definition phase_ok (past : list BEvent) (first n : nat) (ph : BatchPhase) : Prop :=
  match ph with
  | BIdle => False
  | BRegister todo => todo <> [] /\ exists dn, ids = dn ++ todo /\ n = length dn
  | BQueue id todo => exists dn, ids = dn ++ id :: todo /\ n = S (length dn)
  | BEot => n = length ids
  | BRecv ks results =>
      n = length ids /\ ks <> [] /\ ks = seq (first + length results) (n - length results) /\
      Forall2 (answered past) (firstn (length results) ids) results
  | BEotWait results => n = length ids /\ Forall2 (answered past) ids results
  | BReturned r => (exists e, r = [Err e]) \/ exists results, r = Ok <$> results /\ Forall2 (answered past) ids results
  end.

Definition active (ph : BatchPhase) : Prop := match ph with BIdle | BReturned _ => False | _ => True end.

(** The calls of the batch: their ids, and what was sent to them. *)
Definition calls_ok (past : list BEvent) (first : nat) (ph : BatchPhase) (calls : list (Call R unit)) : Prop :=
  forall k c, calls !! (first + k)%nat = Some c ->
    ids !! k = Some (c_id c) /\ (forall rs, Ok rs ∈ c_items c -> answered past (c_id c) rs) /\ (active ph -> c_done c = None).

Record batch_inv (past : list BEvent) (st : BatchSenderMapState) (n : nat) : Prop := mkBatchInv {
  bi_table : table_ok (bs_table st);
  bi_closed : bs_closed st = true -> t_senders (bs_table st) = ∅;
  bi_receiving : bs_receiving st = false -> bs_closed st = true;
  bi_length : length (t_calls (bs_table st)) = (b_first st + n)%nat;
  bi_calls : calls_ok past (b_first st) (b_phase st) (t_calls (bs_table st));
  bi_eot : b_eot st = EotWait -> bs_eot st = true /\ (n <> 0%nat -> bs_closed st = false);
  bi_phase : phase_ok past (b_first st) n (b_phase st)
}.

Lemma answered_mono past ev id r : answered past id r -> answered (past ++ [ev]) id r.
Proof. intros H. apply elem_of_app. by left. Qed.

Lemma batch_inv_mono past ev st n : batch_inv past st n -> batch_inv (past ++ [ev]) st n.
Proof.
  assert (Hf2 : forall l rs, Forall2 (answered past) l rs -> Forall2 (answered (past ++ [ev])) l rs).
  { intros l rs H. eapply Forall2_impl; [exact H|]. intros ? ?. apply answered_mono. }
  intros [? ? ? ? Hc ? Hp]. split; try done.
  - intros k c Hk. destruct (Hc k c Hk) as (? & Hit & ?). split_and!; try done. intros rs Hr. by apply answered_mono, Hit.
  - destruct (b_phase st); cbn in *; naive_solver.
Qed.

Lemma batch_return past st n r : batch_inv past st n -> phase_ok past (b_first st) n (BReturned r) -> batch_inv past (b_return st r) n.
Proof.
  intros [Ht ? ? Hl Hc ? _] Hp. assert (Hlk : forall k c', t_calls (bs_table (b_return st r)) !! k = Some c' ->
    exists c, t_calls (bs_table st) !! k = Some c /\ c_id c' = c_id c /\ c_open c' = c_open c /\ c_items c' = c_items c).
  { intros k c'. cbn. rewrite list_lookup_imap. intros (c & Hk & ->)%fmap_Some. exists c. case_bool_decide; done. }
  split; try done.
  - intros id k. cbn. rewrite (Ht id k), list_lookup_imap. split.
    + intros (c & -> & ? & ?). eexists. split; [done|]. case_bool_decide; done.
    + intros (c & (c0 & Hk & ->)%fmap_Some & Hid & Ho). exists c0. case_bool_decide; done.
  - cbn. by rewrite length_imap.
  - intros k c' Hk. destruct (Hlk _ _ Hk) as (c & Hk0 & -> & _ & ->). by destruct (Hc k c Hk0) as (? & ? & ?).
Qed.

(** A step of the receiving task on a call of the table. *)
Lemma batch_drained past st n e : batch_inv past st n -> batch_inv past (batch_broadcast_error st e) n.
Proof.
  intros [Ht Hcl Hr Hl Hc He Hp]. split; try done.
  - by apply table_drain.
  - cbn [batch_broadcast_error bs_table]. by rewrite drain_length.
  - intros k c' Hk. destruct (drain_lookup_inv _ _ _ _ Ht Hk) as (c & Hk0 & ->). destruct (Hc k c Hk0) as (? & Hit & ?).
    destruct (c_open c) eqn:Eo; [|done]. unfold chan_put. rewrite Eo. destruct (c_done c) as [d|] eqn:Ed; cbn; [by rewrite Ed|].
    split_and!; try done. intros rs [?|Hx%list_elem_of_singleton]%elem_of_app; [auto|done].
  - cbn. unfold eot_to. destruct (bs_eot st) eqn:Ee; [done|]. intros Hx. destruct (He Hx). congruence.
Qed.

Lemma batch_removed past st n id r :
  batch_inv past st n -> (forall rs, r = Ok rs -> answered past id rs) ->
  batch_inv past (b_with st (remove_sender (bs_table st) id (chan_put r)) (b_phase st)) n.
Proof.
  intros [Ht Hcl Hr Hl Hc He Hp] Hans. split; try done.
  - apply table_remove; [apply chan_put_id|done].
  - cbn. intros Hx%Hcl. by rewrite Hx, delete_empty.
  - cbn. destruct (t_senders (bs_table st) !! id); [by rewrite length_alter|done].
  - intros k c'. cbn. destruct (t_senders (bs_table st) !! id) as [k'|] eqn:El; [|apply Hc].
    destruct (decide (k' = b_first st + k)%nat) as [->|Hne]; [|rewrite list_lookup_alter_ne by done; apply Hc].
    rewrite list_lookup_alter_eq. intros (c & Hk & ->)%fmap_Some. destruct (Hc k c Hk) as (Hid & Hit & Hd).
    destruct (table_owner _ _ _ _ Ht El Hk) as [<- Ho]. unfold chan_put. rewrite Ho. destruct (c_done c) as [d|] eqn:Ed; cbn; [by rewrite Ed|].
    split_and!; try done. intros rs [?|Hx%list_elem_of_singleton]%elem_of_app; [auto|by apply Hans].
Qed.

Lemma batch_phase past st n ph : batch_inv past st n -> active (b_phase st) -> phase_ok past (b_first st) n ph ->
  batch_inv past (b_with st (bs_table st) ph) n.
Proof.
  intros [Ht Hcl Hr Hl Hc He Hp] Ha Hph. split; try done. intros k c Hk. destruct (Hc k c Hk) as (? & ? & Hd). by split_and!; auto.
Qed.

Lemma batch_registered past st dn id todo :
  batch_inv past st (length dn) -> ids = dn ++ id :: todo -> bs_closed st = false -> b_phase st = BRegister (id :: todo) ->
  batch_inv past (batch_register st id todo) (S (length dn)).
Proof.
  intros [Ht Hcl Hr Hl Hc He Hp] Hids Hcf Hph. unfold batch_register. rewrite Hcf. split; try done.
  - by apply (table_insert (bs_table st) (mkCall id true [] true None)).
  - cbn. congruence.
  - cbn. destruct (t_senders (bs_table st) !! id); rewrite ?length_alter, length_app; cbn; lia.
  - intros k c' Hk. cbn in Hk.
    assert (Hx : exists c, (t_calls (bs_table st) ++ [mkCall id true [] true None]) !! (b_first st + k)%nat = Some c /\
      c_id c' = c_id c /\ c_items c' = c_items c /\ c_done c' = c_done c).
    { destruct (t_senders (bs_table st) !! id) as [k'|]; [|by exists c'].
      destruct (decide (k' = b_first st + k)%nat) as [->|Hne]; [|rewrite list_lookup_alter_ne in Hk by done; by exists c'].
      rewrite list_lookup_alter_eq in Hk. apply fmap_Some in Hk as (c & Hk & ->). by exists c. }
    destruct Hx as (c & [Hk0|[Hge Hk0]]%lookup_app_Some & -> & -> & ->).
    + destruct (Hc k c Hk0) as (? & ? & Hd). split_and!; try done. intros _. apply Hd. by rewrite Hph.
    + apply list_lookup_singleton_Some in Hk0 as [Hk0 <-]. replace k with (length dn) by lia. cbn. split_and!; try done.
      * by rewrite Hids, lookup_app_r, Nat.sub_diag by done.
      * by intros rs ?%elem_of_nil.
  - cbn. intros Hx. split; [by apply He|done].
  - cbn. by exists dn.
Qed.

Lemma phase_after_queue past first dn todo : ids = dn ++ todo -> phase_ok past first (length dn) (after_queue todo).
Proof.
  intros Hids. destruct todo as [|id todo]; cbn; [by rewrite Hids, app_nil_r|]. split; [done|]. by exists dn.
Qed.

Lemma phase_after_recv past first results :
  Forall2 (answered past) (firstn (length results) ids) results -> (length results <= length ids)%nat ->
  phase_ok past first (length ids) (after_recv (seq (first + length results) (length ids - length results)) results).
Proof.
  intros Hf Hle. unfold after_recv. destruct (seq (first + length results) (length ids - length results)) as [|k ks] eqn:E.
  - assert (length ids = length results) as El.
    { apply (f_equal length) in E. rewrite length_seq in E. cbn in E. lia. }
    cbn. split; [done|]. by rewrite <- El, firstn_all in Hf.
  - rewrite <- E. cbn. split_and!; try done. by rewrite E.
Qed.

Lemma batch_exec_inv past st n ev st' :
  batch_inv past st n -> (forall ids', ev <> EvStart ids') -> batch_exec st ev = Some st' ->
  exists n', batch_inv (past ++ [ev]) st' n'.
Proof.
  intros Hi Hns Hex. assert (Hi' : batch_inv (past ++ [ev]) st n) by (by apply batch_inv_mono).
  assert (Hfail : forall st0 e, batch_inv (past ++ [ev]) st0 n -> batch_inv (past ++ [ev]) (b_return st0 [Err e]) n).
  { intros st0 e H0. apply batch_return; [done|]. left. by exists e. }
  pose proof (bi_phase _ _ _ Hi) as Hp. pose proof (bi_phase _ _ _ Hi') as Hp'.
  destruct ev as [ids'| |ok|ok| | | |id rs| |e|]; [by destruct (Hns ids')|cbn [batch_exec] in Hex..].
  - destruct (b_phase st) as [|[|id todo]| | | | |] eqn:Eph; try done. injection Hex as <-. destruct Hp' as [_ (dn & Hids & ->)].
    destruct (bs_closed st) eqn:Ec; [|by eexists; eapply batch_registered]. exists (length dn). unfold batch_register. rewrite Ec. by apply Hfail.
  - destruct (b_phase st) as [| |id todo| | | |] eqn:Eph; try done. injection Hex as <-. destruct Hp' as (dn & Hids & ->).
    unfold batch_queue. exists (S (length dn)). destruct ok.
    + apply batch_phase; [done|by rewrite Eph|]. replace (S (length dn)) with (length (dn ++ [id])) by (rewrite length_app; cbn; lia).
      apply phase_after_queue. by rewrite <- app_assoc.
    + apply Hfail, batch_drained. rewrite Eph. rewrite <- Eph. by apply batch_removed.
  - destruct (b_phase st) eqn:Eph; try done. injection Hex as <-. cbn in Hp'. exists n. unfold batch_queue_eot. destruct ok.
    + apply batch_phase; [done|by rewrite Eph|]. destruct Hi' as [_ _ _ -> _ _ _]. rewrite Hp', Nat.add_sub'.
      pose proof (phase_after_recv (past ++ [EvQueueEot true]) (b_first st) []) as Hx. cbn [length] in Hx.
      rewrite Nat.add_0_r, Nat.sub_0_r in Hx. apply Hx; [constructor|lia].
    + by apply Hfail, batch_drained.
  - destruct (b_phase st) as [| | | |[|k ks] results| |] eqn:Eph; try done. destruct Hp' as (-> & _ & Hks & Hf).
    exists (length ids). destruct (t_calls (bs_table st) !! k) as [c|] eqn:Ek; [|done].
    destruct (c_items c) as [|[r|e] items] eqn:Eit, (c_open c) eqn:Eo; try done; injection Hex as <-; try (by apply Hfail).
    all: apply batch_phase; [done|by rewrite Eph|]; destruct (length ids - length results)%nat as [|d] eqn:Ed; [done|]; cbn in Hks;
      injection Hks as -> ->; destruct (bi_calls _ _ _ Hi' _ _ Ek) as (Hid & Hit & _).
    all: replace (S (b_first st + length results)) with (b_first st + length (results ++ [r]))%nat by (rewrite length_app; cbn; lia);
      replace d with (length ids - length (results ++ [r]))%nat by (rewrite length_app; cbn; lia);
      apply phase_after_recv; [|rewrite length_app; cbn; lia];
      rewrite length_app; cbn [length]; rewrite Nat.add_1_r, (take_S_r _ _ _ Hid); apply Forall2_app; [done|];
      constructor; [|constructor]; apply Hit; rewrite Eit; by left.
  - destruct (b_phase st) as [| | | | |results|] eqn:Eph; try done. exists n.
    destruct (b_eot st); try done; injection Hex as <-; [|by apply Hfail]. apply batch_return; [done|]. right. exists results.
    split; [done|]. by destruct Hp'.
  - destruct (b_phase st) as [| | | |[|k ks] results|results|] eqn:Eph; try done; injection Hex as <-; exists n; by apply Hfail.
  - destruct (bs_receiving st); [|done]. injection Hex as <-. exists n. apply batch_removed; [done|]. intros rs' [= <-].
    apply elem_of_app. right. by left.
  - destruct (bs_receiving st) eqn:Er; [|done]. injection Hex as <-. exists n. unfold receive_eot. case_bool_decide as Es.
    + destruct Hi' as [? ? ? ? ? He ?]. split; try done. cbn. unfold eot_to. destruct (bs_eot st) eqn:Ee; [done|].
      intros Hx. destruct (He Hx). congruence.
    + set (st1 := mkBatch (bs_table st) false _ _ _ _ _). assert (H1 : batch_inv (past ++ [EvEot]) st1 n).
      { destruct Hi' as [? ? ? ? ? He ?]. unfold st1. split; try done. cbn. unfold eot_to. destruct (bs_eot st) eqn:Ee; [done|].
        intros Hx. destruct (He Hx). congruence. }
      destruct (batch_drained _ _ _ (EGrpc "UDF_PARTIAL_RESPONSE(batch_map)") H1). by split.
  - destruct (bs_receiving st) eqn:Er; [|done]. injection Hex as <-. exists n. by apply batch_drained.
  - destruct (bs_receiving st) eqn:Er; [|done]. injection Hex as <-. exists n.
    destruct (batch_drained _ _ _ (EGrpc "receiver stream dropped") Hi'). by split.
Qed.

Lemma batch_run_inv past st n evs st' :
  batch_inv past st n -> (forall ids', EvStart ids' ∉ evs) -> batch_run st evs = Some st' -> exists n', batch_inv (past ++ evs) st' n'.
Proof.
  revert past st n. induction evs as [|ev evs IH]; intros past st n Hi Hns; cbn.
  - intros [= <-]. rewrite app_nil_r. by exists n.
  - destruct (batch_exec st ev) as [st1|] eqn:E; [|done]. cbn. intros Hrun.
    assert (Hev : forall ids', ev <> EvStart ids') by (intros ids' ->; apply (Hns ids'); by left).
    destruct (batch_exec_inv _ _ _ _ _ Hi Hev E) as [n1 H1].
    rewrite cons_middle, app_assoc. eapply IH; [exact H1| |exact Hrun]. intros ids' Hin. apply (Hns ids'). by right.
Qed.
End Invariant.

(** What holds between batches. *)
Definition idle_inv (st : BatchSenderMapState) : Prop :=
  table_ok (bs_table st) /\ (bs_closed st = true -> t_senders (bs_table st) = ∅) /\ (bs_receiving st = false -> bs_closed st = true).

Lemma batch_start_inv st ids : idle_inv st -> ids <> [] -> batch_inv ids [] (batch_start st ids) 0.
Proof.
  intros (Ht & Hc & Hr) Hne. split; try done.
  - intros k c Hk. apply lookup_lt_Some in Hk. cbn in Hk. lia.
  - cbn. destruct ids as [|id ids]; [done|]. cbn. split; [done|]. by exists [].
Qed.

Lemma batch_new_idle : idle_inv batch_new.
Proof. split_and!; [apply table_new_ok|done|done]. Qed.

(** Every state reached is one of a batch or between two. *)
Lemma idle_return st r : idle_inv st -> idle_inv (b_return st r).
Proof.
  intros (Ht & Hc & Hr). split_and!; try done. intros id k. cbn. rewrite (Ht id k), list_lookup_imap. split.
  - intros (c & -> & ? & ?). eexists. split; [done|]. case_bool_decide; done.
  - intros (c & (c0 & Hk & ->)%fmap_Some & Hid & Ho). exists c0. case_bool_decide; done.
Qed.
Lemma idle_drain st e : idle_inv st -> idle_inv (batch_broadcast_error st e).
Proof. intros (Ht & Hc & Hr). split_and!; try done. by apply table_drain. Qed.
Lemma idle_remove st id r : idle_inv st -> idle_inv (b_with st (remove_sender (bs_table st) id (chan_put r)) (b_phase st)).
Proof.
  intros (Ht & Hc & Hr). split_and!; try done.
  - apply table_remove; [apply chan_put_id|done].
  - cbn. intros Hx%Hc. by rewrite Hx, delete_empty.
Qed.

Lemma idle_exec st ev st' : idle_inv st -> batch_exec st ev = Some st' -> idle_inv st'.
Proof.
  intros Hi. destruct ev as [ids| |ok|ok| | | |id rs| |e|]; cbn [batch_exec].
  - destruct (b_phase st); intros [= <-]; by destruct Hi as (? & ? & ?).
  - destruct (b_phase st) as [|[|id todo]| | | | |]; intros [= <-]. unfold batch_register. destruct (bs_closed st) eqn:Ec; [by apply idle_return|].
    destruct Hi as (Ht & Hc & Hr). split_and!; cbn; try done; [|congruence]. by apply (table_insert (bs_table st) (mkCall id true [] true None)).
  - destruct (b_phase st) as [| |id todo| | | |] eqn:Eph; intros [= <-]. unfold batch_queue. destruct ok; [by destruct Hi as (? & ? & ?)|].
    apply idle_return, idle_drain. by apply idle_remove.
  - destruct (b_phase st); intros [= <-]. unfold batch_queue_eot. destruct ok; [by destruct Hi as (? & ? & ?)|]. by apply idle_return, idle_drain.
  - destruct (b_phase st) as [| | | |[|k ks] results| |]; try done. destruct (t_calls (bs_table st) !! k) as [c|]; [|done]. cbn.
    destruct (c_items c) as [|[r|e] items], (c_open c); intros [= <-]; try (by apply idle_return); by destruct Hi as (? & ? & ?).
  - destruct (b_phase st); try done. destruct (b_eot st); intros [= <-]; by apply idle_return.
  - destruct (b_phase st) as [| | | |[|k ks] results|results|]; intros [= <-]; by apply idle_return.
  - destruct (bs_receiving st); intros [= <-]. by apply idle_remove.
  - destruct (bs_receiving st) eqn:Er; intros [= <-]. unfold receive_eot. case_bool_decide; [by destruct Hi as (? & ? & ?)|].
    set (st1 := mkBatch (bs_table st) false _ _ _ _ _). assert (H1 : idle_inv st1) by (by destruct Hi as (? & ? & ?)).
    by destruct (idle_drain _ (EGrpc "UDF_PARTIAL_RESPONSE(batch_map)") H1) as (? & ? & ?).
  - destruct (bs_receiving st); intros [= <-]. by apply idle_drain.
  - destruct (bs_receiving st); intros [= <-]. by destruct (idle_drain _ (EGrpc "receiver stream dropped") Hi) as (? & ? & ?).
Qed.

Lemma idle_run st evs st' : idle_inv st -> batch_run st evs = Some st' -> idle_inv st'.
Proof.
  revert st. induction evs as [|ev evs IH]; intros st Hi; cbn; [by intros [= <-]|].
  destruct (batch_exec st ev) as [st1|] eqn:E; [|done]. apply IH. by eapply idle_exec.
Qed.

Lemma batch_run_app st evs evs' st' : batch_run st (evs ++ evs') = Some st' ->
  exists st1, batch_run st evs = Some st1 /\ batch_run st1 evs' = Some st'.
Proof.
  revert st. induction evs as [|ev evs IH]; intros st; cbn; [by exists st|]. destruct (batch_exec st ev) as [st1|]; [|done]. apply IH.
Qed.

(** C20: a batch of requests, in every interleaving with the responses, whatever came before it. A
    batch that returns gives either one error, or for each request, in order, the results of a
    response with its id that came after the batch began. And a batch never waits in vain: when it
    waits for an answer or for the end of transmission, that is there, or the stream is open, the
    receiving task runs and the sender the batch waits for is registered. *)
Theorem batch_answered (evs0 evs : list BEvent) (ids : list string) (st : BatchSenderMapState) :
  batch_run batch_new (evs0 ++ EvStart ids :: evs) = Some st -> ids <> [] -> (forall ids', EvStart ids' ∉ evs) ->
  match b_phase st with
  | BReturned r => (exists e, r = [Err e]) \/
      exists results, r = Ok <$> results /\ Forall2 (fun id rs => EvResponse id rs ∈ evs) ids results
  | BRecv ks _ => exists k c, head ks = Some k /\ t_calls (bs_table st) !! k = Some c /\
      (is_Some (batch_exec st EvAwait) \/
       bs_closed st = false /\ bs_receiving st = true /\ t_senders (bs_table st) !! c_id c = Some k)
  | BEotWait _ =>
      is_Some (batch_exec st EvAwaitEot) \/ bs_closed st = false /\ bs_receiving st = true /\ bs_eot st = true
  | BIdle => False
  | _ => True
  end.
Proof.
  intros (st0 & Hrun0 & Hrun)%batch_run_app Hne Hns. pose proof (idle_run _ _ _ batch_new_idle Hrun0) as H0.
  cbn [batch_run] in Hrun. destruct (batch_exec st0 (EvStart ids)) as [st1|] eqn:E1; [|done]. 
  assert (st1 = batch_start st0 ids) as ->. { cbn [batch_exec] in E1. destruct (b_phase st0); congruence. }
  destruct (batch_run_inv ids [] _ 0 evs st (batch_start_inv _ _ H0 Hne) Hns Hrun) as [n [Ht Hcl Hr Hl Hc He Hp]]. cbn [app] in *.
  assert (Hopen : bs_closed st = false -> bs_receiving st = true) by (destruct (bs_receiving st); [done|]; intros Hx; rewrite Hr in Hx; done).
  cbn [batch_exec]. destruct (b_phase st) as [| | | |ks results|results|] eqn:Eph; try done.
  - destruct Hp as (-> & Hks & Hseq & _). destruct ks as [|k ks]; [done|].
    assert (is_Some (t_calls (bs_table st) !! k)) as [c Hk].
    { apply lookup_lt_is_Some. rewrite Hl. assert (k ∈ k :: ks) as Hin by (by left). rewrite Hseq in Hin. apply elem_of_seq in Hin. lia. }
    exists k, c. split_and!; [done|done|]. rewrite Hk. destruct (c_items c) as [|[r|e] items] eqn:Eit; [|by left; eauto..].
    destruct (c_open c) eqn:Eo; [|left; eauto]. right. assert (Hs : t_senders (bs_table st) !! c_id c = Some k) by (apply Ht; by exists c).
    assert (Hcf : bs_closed st = false). { destruct (bs_closed st) eqn:Ec; [|done]. rewrite Hcl in Hs by done. by rewrite lookup_empty in Hs. }
    auto.
  - destruct Hp as [-> _]. destruct (b_eot st) eqn:Ee; [|by left; eauto..]. right. destruct He as [He1 He2]; [done|].
    assert (Hcf : bs_closed st = false) by (apply He2; by destruct ids). auto.
Qed.
End Batch.
End Batch.

(** * The streaming client *)

Module Stream.
Section Stream.
Context {R : Type}.
#[local] Abbreviation STable := (Table R bool).

Definition STREAMING_MAP_RESP_CHANNEL_SIZE : nat := 10.

(** The outcome of a call is whether its task saw the end of the channel, or dropped the receiver
    before. *)
Record StreamSenderMapState := mkStream { sm_table : STable; sm_closed : bool; sm_receiving : bool }.
Definition stream_new : StreamSenderMapState := mkStream (mkTable ∅ []) false true.
Definition sm_with (st : StreamSenderMapState) (t : STable) : StreamSenderMapState := mkStream t (sm_closed st) (sm_receiving st).

(** The sends of the errors, which wait for room on a full channel, are taken as one step. *)
Definition stream_broadcast_error (st : StreamSenderMapState) (e : Error) : StreamSenderMapState :=
  mkStream (drain_senders (sm_table st) e) true (sm_receiving st).

(** A receiver that yields one error. *)
Definition error_receiver (id : string) (e : Error) : Call R bool := mkCall id true [Err e] false None.

(** [stream]: the table and the request. *)
Definition stream_call (st : StreamSenderMapState) (id : string) (cancelled : bool) : StreamSenderMapState :=
  let t := sm_table st in
  if cancelled then sm_with st (add_call t (error_receiver id (EMapper "stream map operation cancelled")))
  else if sm_closed st then sm_with st (add_call t (error_receiver id (EGrpc "stream map stream closed")))
  else sm_with st (insert_sender (add_call t (mkCall id false [] true None)) id (length (t_calls t))).

(** [stream_process_response]; [None]: the channel is full and the send waits. *)
Definition stream_process_response (st : StreamSenderMapState) (id : string) (results : R) (eot : bool) : option (StreamSenderMapState * Result unit) :=
  let t := sm_table st in
  if eot then Some (sm_with st (remove_sender t id (fun c => c)), Ok tt)
  else
    match t_senders t !! id with
    | None => Some (st, Err (EMapper "No such req/resp ID found in StreamResponseSenderMap"))
    | Some k =>
        if sm_closed st then Some (sm_with st (remove_sender t id (chan_put (Err (EMapper "mapper closed")))), Ok tt)
        else
          let? c := t_calls t !! k in
          match c_done c with
          | Some _ =>
              Some (sm_with st (remove_sender t id (fun c => c)), Err (EMapper "Failed to send map response to stream task"))
          | None =>
              if bool_decide (length (c_items c) < STREAMING_MAP_RESP_CHANNEL_SIZE)%nat
              then Some (sm_with st (on_call t k (chan_put (Ok results))), Ok tt) else None
          end
    end.

Inductive SEvent :=
  | SCall (id : string) (cancelled : bool)
  | SQueue (k : nat) (ok : bool)
  | SRecv (k : nat)                             (* the task receives what is next *)
  | SEnd (k : nat)                              (* the task receives the end *)
  | SDropReceiver (k : nat)
  | SResponse (id : string) (results : R) (eot : bool)
  | SStreamError (e : Error)
  | SStreamEnd.

Definition stream_exec (st : StreamSenderMapState) (ev : SEvent) : option StreamSenderMapState :=
  let t := sm_table st in
  match ev with
  | SCall id cancelled => Some (stream_call st id cancelled)
  | SQueue k ok =>
      let? c := t_calls t !! k in
      match c_done c, c_queued c with
      | None, false =>
          Some (sm_with st (if ok then on_call t k set_queued
                            else on_call (remove_sender t (c_id c) (fun c => c)) k
                                   (fun c => set_queued (with_items (shut c) [Err (EGrpc "failed to send message to map stream server")]))))
      | _, _ => None
      end
  | SRecv k =>
      let? c := t_calls t !! k in
      match c_done c, c_queued c, c_items c with
      | None, true, _ :: items => Some (sm_with st (on_call t k (fun c => with_items c items)))
      | _, _, _ => None
      end
  | SEnd k =>
      let? c := t_calls t !! k in
      match c_done c, c_queued c, c_items c, c_open c with
      | None, true, [], false => Some (sm_with st (on_call t k (set_done true)))
      | _, _, _, _ => None
      end
  | SDropReceiver k =>
      let? c := t_calls t !! k in
      match c_done c, c_queued c with
      | None, true => Some (sm_with st (on_call t k (set_done false)))
      | _, _ => None
      end
  | SResponse id results eot => if sm_receiving st then fst <$> stream_process_response st id results eot else None
  | SStreamError e => if sm_receiving st then Some (stream_broadcast_error st e) else None
  | SStreamEnd =>
      if sm_receiving st then
        let st := stream_broadcast_error st (EGrpc "receiver stream dropped") in Some (mkStream (sm_table st) (sm_closed st) false)
      else None
  end.

(** What the tasks received, with the call. *)
Definition stream_out (st : StreamSenderMapState) (ev : SEvent) : list (nat * Result R) :=
  match ev with
  | SRecv k => match t_calls (sm_table st) !! k with Some c => (fun r => (k, r)) <$> firstn 1 (c_items c) | None => [] end
  | _ => []
  end.

Fixpoint stream_run (st : StreamSenderMapState) (evs : list SEvent) : option (StreamSenderMapState * list (nat * Result R)) :=
  match evs with
  | [] => Some (st, [])
  | ev :: evs =>
      let? st' := stream_exec st ev in
      let? (st'', outs) := stream_run st' evs in
      Some (st'', stream_out st ev ++ outs)
  end.

(** ** The responses to a call *)

(** The responses with an id since it was last called, up to the end of transmission, and whether
    that was received. *)
Definition scan_step (id : string) (acc : list R * bool) (ev : SEvent) : list R * bool :=
  match ev with
  | SCall id' _ => if bool_decide (id' = id) then ([], false) else acc
  | SResponse id' rs eot =>
      if bool_decide (id' = id) && negb acc.2 then if eot then (acc.1, true) else (acc.1 ++ [rs], false) else acc
  | _ => acc
  end.
Definition responses (id : string) (evs : list SEvent) : list R * bool := foldl (scan_step id) ([], false) evs.

Definition received (k : nat) (outs : list (nat * Result R)) : list (Result R) := snd <$> filter (fun p => p.1 = k) outs.

(** A call: its task gave up; or an error reached it; or it has received or will receive the
    responses, and its channel is open until the end of transmission. *)
Definition call_ok (past : list SEvent) (outs : list (nat * Result R)) (k : nat) (c : Call R bool) : Prop :=
  c_done c = Some false \/ (exists e, Err e ∈ received k outs ++ c_items c) \/
  (c_open c = negb (responses (c_id c) past).2 /\ received k outs ++ c_items c = Ok <$> (responses (c_id c) past).1).

Record stream_inv (past : list SEvent) (outs : list (nat * Result R)) (st : StreamSenderMapState) : Prop := mkStreamInv {
  si_table : table_ok (sm_table st);
  si_closed : sm_closed st = true -> t_senders (sm_table st) = ∅;
  si_receiving : sm_receiving st = false -> sm_closed st = true;
  si_outs : Forall (fun p => p.1 < length (t_calls (sm_table st)))%nat outs;
  si_ended : forall k c, t_calls (sm_table st) !! k = Some c -> c_done c = Some true -> c_open c = false /\ c_items c = [];
  si_calls : forall k c, t_calls (sm_table st) !! k = Some c -> call_ok past outs k c
}.
Definition call_ids (st : StreamSenderMapState) : list string := c_id <$> t_calls (sm_table st).

Lemma received_app k outs outs' : received k (outs ++ outs') = received k outs ++ received k outs'.
Proof. unfold received. by rewrite filter_app, fmap_app. Qed.

Lemma received_new k outs : Forall (fun p => p.1 < k)%nat outs -> received k outs = [].
Proof.
  unfold received. induction 1 as [|[k' r] outs Hk _ IH]; [done|]. rewrite filter_cons_False; [done|]. cbn in *. lia.
Qed.

Lemma responses_snoc id past ev : responses id (past ++ [ev]) = scan_step id (responses id past) ev.
Proof. unfold responses. by rewrite foldl_app. Qed.

(** An event that does not concern the id of a call, and leaves the call as it is. *)
Lemma call_ok_other past outs k c ev :
  scan_step (c_id c) (responses (c_id c) past) ev = responses (c_id c) past -> call_ok past outs k c -> call_ok (past ++ [ev]) outs k c.
Proof. intros Hs. unfold call_ok. by rewrite responses_snoc, Hs. Qed.

Lemma call_ok_same past outs k c c' :
  c_id c' = c_id c -> c_items c' = c_items c -> c_open c' = c_open c -> (c_done c = Some false -> c_done c' = Some false) ->
  call_ok past outs k c -> call_ok past outs k c'.
Proof. intros Hid Hit Hop Hd. unfold call_ok. rewrite Hid, Hit, Hop. naive_solver. Qed.

Lemma same_id st k k' c c' : NoDup (call_ids st) ->
  t_calls (sm_table st) !! k = Some c -> t_calls (sm_table st) !! k' = Some c' -> c_id c = c_id c' -> k = k'.
Proof.
  intros Hnd Hk Hk' Hid. apply (NoDup_lookup _ _ _ (c_id c) Hnd); unfold call_ids; rewrite list_lookup_fmap, ?Hk, ?Hk'; [done|].
  cbn. by rewrite Hid.
Qed.

Lemma alter_ids (f : Call R bool -> Call R bool) (k : nat) (calls : list (Call R bool)) : (forall c, c_id (f c) = c_id c) -> c_id <$> alter f k calls = c_id <$> calls.
Proof.
  intros Hf. apply list_eq. intros i. rewrite !list_lookup_fmap. destruct (decide (k = i)) as [->|].
  - rewrite list_lookup_alter_eq. destruct (calls !! i); cbn; [by rewrite Hf|done].
  - by rewrite list_lookup_alter_ne.
Qed.

(** A step on one call that leaves the table of senders as it is. *)
Lemma stream_on_call past outs st k f ev new c :
  stream_inv past outs st -> t_calls (sm_table st) !! k = Some c ->
  (forall c, c_id (f c) = c_id c) -> (forall c, c_open (f c) = c_open c) -> (c_done (f c) = Some true -> c_open c = false /\ c_items (f c) = []) ->
  Forall (fun p => p.1 = k) new -> call_ok (past ++ [ev]) (outs ++ new) k (f c) ->
  (forall k' c', k' <> k -> t_calls (sm_table st) !! k' = Some c' -> scan_step (c_id c') (responses (c_id c') past) ev = responses (c_id c') past) ->
  stream_inv (past ++ [ev]) (outs ++ new) (sm_with st (on_call (sm_table st) k f)).
Proof.
  intros [Ht Hcl Hr Ho He Hc] Hk Hid Hop Hdone Hnew Hok Hother. split; try done.
  - by apply table_on_call.
  - cbn. rewrite length_alter. apply Forall_app. split; [done|]. eapply Forall_impl; [exact Hnew|]. intros p ->. by eapply lookup_lt_Some.
  - intros k' c'. cbn. destruct (decide (k = k')) as [->|Hne]; [|rewrite list_lookup_alter_ne by done; apply He].
    rewrite list_lookup_alter_eq, Hk. intros [= <-]. by rewrite Hop.
  - intros k' c'. cbn. destruct (decide (k = k')) as [->|Hne]; [rewrite list_lookup_alter_eq, Hk; by intros [= <-]|].
    rewrite list_lookup_alter_ne by done. intros Hk'. apply call_ok_other; [by apply (Hother k')|].
    specialize (Hc k' c' Hk'). unfold call_ok in *. rewrite received_app.
    assert (received k' new = []) as ->; [|by rewrite app_nil_r].
    unfold received. clear -Hnew Hne. induction Hnew as [|[k0 r] l Hk0 _ IH]; [done|]. rewrite filter_cons_False; [done|]. cbn in *. congruence.
Qed.

(** The sender of an id is removed. *)
Lemma stream_remove past outs st id f ev :
  stream_inv past outs st -> NoDup (call_ids st) -> (forall c, c_id (f c) = c_id c) -> (forall c, c_done (f c) = c_done c) ->
  (forall id', id' <> id -> forall a, scan_step id' a ev = a) ->
  (forall k c, t_senders (sm_table st) !! id = Some k -> t_calls (sm_table st) !! k = Some c -> call_ok (past ++ [ev]) outs k (shut (f c))) ->
  (forall k c, t_senders (sm_table st) !! id = None -> t_calls (sm_table st) !! k = Some c -> c_id c = id -> call_ok (past ++ [ev]) outs k c) ->
  stream_inv (past ++ [ev]) outs (sm_with st (remove_sender (sm_table st) id f)).
Proof.
  intros [Ht Hcl Hr Ho He Hc] Hnd Hid Hdn Hscan Hsome Hnone. split; try done.
  - by apply table_remove.
  - cbn. intros Hx%Hcl. by rewrite Hx, delete_empty.
  - cbn. destruct (t_senders (sm_table st) !! id); [by rewrite length_alter|done].
  - intros k c. cbn. destruct (t_senders (sm_table st) !! id) as [k'|] eqn:El; [|apply He].
    destruct (decide (k' = k)) as [->|]; [|rewrite list_lookup_alter_ne by done; apply He].
    rewrite list_lookup_alter_eq. intros (c0 & Hk & ->)%fmap_Some Hd. cbn in Hd. rewrite Hdn in Hd.
    destruct (table_owner _ _ _ _ Ht El Hk) as [_ Hop]. destruct (He k c0 Hk Hd). congruence.
  - intros k c. cbn. destruct (t_senders (sm_table st) !! id) as [k'|] eqn:El.
    + destruct (decide (k' = k)) as [->|Hne].
      * rewrite list_lookup_alter_eq. intros (c0 & Hk & ->)%fmap_Some. by apply Hsome.
      * rewrite list_lookup_alter_ne by done. intros Hk. apply call_ok_other; [|by apply Hc]. apply Hscan. intros Hx.
        apply Hne. pose proof El as (c' & Hk' & Hid' & _)%Ht. eapply same_id; [done|exact Hk'|exact Hk|congruence].
    + intros Hk. destruct (decide (c_id c = id)) as [Hx|Hx]; [by apply Hnone|]. apply call_ok_other; [by apply Hscan|by apply Hc].
Qed.

(** The ids of the calls only grow. *)
Lemma exec_ids st ev st' : stream_exec st ev = Some st' -> exists new, call_ids st' = call_ids st ++ new.
Proof.
  assert (Hal : forall (f : Call R bool -> Call R bool) k (calls : list (Call R bool)), (forall c, c_id (f c) = c_id c) ->
    c_id <$> alter f k calls = c_id <$> calls) by (intros; by apply alter_ids).
  assert (Hrm : forall st id f, (forall c, c_id (f c) = c_id c) -> c_id <$> t_calls (remove_sender (sm_table st) id f) = call_ids st).
  { intros s0 id f Hf. cbn. destruct (t_senders (sm_table s0) !! id); [by rewrite Hal|done]. }
  assert (Hput : forall r (c : Call R bool), c_id (chan_put r c) = c_id c) by (intros r c; unfold chan_put; by destruct (c_open c), (c_done c)).
  assert (Hdr : forall st e, c_id <$> t_calls (drain_senders (sm_table st) e) = call_ids st).
  { intros s0 e. cbn. induction (map_to_list (t_senders (sm_table s0))).*2 as [|k ks IH]; [done|]. cbn. rewrite Hal; [done|]. intros c. cbn. apply Hput. }
  unfold call_ids in *. destruct ev as [id cn|k ok|k|k|k|id rs eot|e|]; cbn [stream_exec].
  - intros [= <-]. exists [id]. unfold stream_call. destruct cn, (sm_closed st); cbn; try (by rewrite fmap_app).
    destruct (t_senders (sm_table st) !! id); [rewrite Hal by done|]; by rewrite fmap_app.
  - destruct (t_calls (sm_table st) !! k) as [c|]; [|done]. cbn. destruct (c_done c), (c_queued c); try done. intros [= <-]. exists [].
    rewrite app_nil_r. destruct ok; cbn [sm_with sm_table on_call t_calls]; rewrite Hal by done; [done|]. by apply Hrm.
  - destruct (t_calls (sm_table st) !! k) as [c|]; [|done]. cbn. destruct (c_done c), (c_queued c), (c_items c); try done. intros [= <-]. exists [].
    rewrite app_nil_r. by apply Hal.
  - destruct (t_calls (sm_table st) !! k) as [c|]; [|done]. cbn. destruct (c_done c), (c_queued c), (c_items c), (c_open c); try done. intros [= <-].
    exists []. rewrite app_nil_r. by apply Hal.
  - destruct (t_calls (sm_table st) !! k) as [c|]; [|done]. cbn. destruct (c_done c), (c_queued c); try done. intros [= <-]. exists [].
    rewrite app_nil_r. by apply Hal.
  - destruct (sm_receiving st); [|done]. unfold stream_process_response. intros Hx. exists []. rewrite app_nil_r. revert Hx.
    destruct eot; cbn [fmap option_fmap option_map fst]; [intros [= <-]; by apply Hrm|].
    destruct (t_senders (sm_table st) !! id) as [k|]; [|by intros [= <-]].
    destruct (sm_closed st); [intros [= <-]; by apply Hrm|]. destruct (t_calls (sm_table st) !! k) as [c|]; [|done].
    destruct (c_done c); [intros [= <-]; by apply Hrm|]. case_bool_decide; [|done]. intros [= <-]. by apply Hal.
  - destruct (sm_receiving st); [|done]. intros [= <-]. exists []. rewrite app_nil_r. apply Hdr.
  - destruct (sm_receiving st); [|done]. intros [= <-]. exists []. rewrite app_nil_r. apply Hdr.
Qed.

Lemma stream_broadcast past outs st ev e :
  stream_inv past outs st -> (forall id a, scan_step id a ev = a) -> stream_inv (past ++ [ev]) outs (stream_broadcast_error st e).
Proof.
  intros [Ht Hcl Hr Ho He Hc] Hscan. split; try done.
  - by apply table_drain.
  - cbn [stream_broadcast_error sm_table]. by rewrite drain_length.
  - intros k c' Hk Hd. destruct (drain_lookup_inv _ _ _ _ Ht Hk) as (c & Hk0 & ->). destruct (c_open c) eqn:Eo; [|by eapply He].
    unfold chan_put in Hd. rewrite Eo in Hd. destruct (c_done c) eqn:Ed; cbn in Hd; [|congruence]. destruct (He k c Hk0); congruence.
  - intros k c' Hk. destruct (drain_lookup_inv _ _ _ _ Ht Hk) as (c & Hk0 & ->). specialize (Hc k c Hk0).
    assert (Hc' : call_ok (past ++ [ev]) outs k c) by (by apply call_ok_other). destruct (c_open c) eqn:Eo; [|done].
    unfold chan_put. rewrite Eo. destruct (c_done c) as [[]|] eqn:Ed.
    + destruct (He k c Hk0 Ed). congruence.
    + left. done.
    + right. left. exists e. cbn. rewrite !elem_of_app. right. right. by left.
Qed.

(** A call for whose id there is no sender: its channel is closed, so what it was to receive is
    complete. *)
Lemma call_ok_closed past outs st k c ev :
  stream_inv past outs st -> t_calls (sm_table st) !! k = Some c -> t_senders (sm_table st) !! c_id c = None ->
  (exists rs eot, ev = SResponse (c_id c) rs eot) -> call_ok (past ++ [ev]) outs k c.
Proof.
  intros [Ht _ _ _ _ Hc] Hk Hs (rs & eot & ->). destruct (Hc k c Hk) as [?|[?|[Ho Hr]]]; [by left|by right; left|].
  assert (c_open c = false) as Hop.
  { destruct (c_open c) eqn:Eo; [|done]. assert (t_senders (sm_table st) !! c_id c = Some k) by (apply Ht; by exists c). congruence. }
  right. right. rewrite responses_snoc. cbn. rewrite bool_decide_true by done. rewrite Hop in Ho.
  destruct (responses (c_id c) past) as [rs' []]; [|done]. by rewrite Hop.
Qed.

Lemma call_ok_put_ok past outs st k c rs :
  stream_inv past outs st -> t_calls (sm_table st) !! k = Some c -> c_open c = true -> c_done c = None ->
  call_ok (past ++ [SResponse (c_id c) rs false]) outs k (chan_put (Ok rs) c).
Proof.
  intros [_ _ _ _ _ Hc] Hk Ho Hd. unfold chan_put. rewrite Ho, Hd. destruct (Hc k c Hk) as [?|[[e He]|[Hop Hr]]]; [congruence| |].
  - right. left. exists e. cbn. rewrite !elem_of_app in *. tauto.
  - right. right. rewrite responses_snoc. cbn. rewrite bool_decide_true by done. rewrite Ho in Hop.
    destruct (responses (c_id c) past) as [rs' []]; [done|]. cbn in *. split; [done|]. by rewrite app_assoc, Hr, fmap_app.
Qed.

(** A call is added. *)
Lemma stream_added past outs st id cn c :
  stream_inv past outs st -> NoDup (call_ids st ++ [id]) -> c_id c = id -> c_done c = None ->
  (c_open c = true /\ c_items c = [] \/ exists e, Err e ∈ c_items c) ->
  let st' := sm_with st (add_call (sm_table st) c) in
  t_senders (sm_table st) !! id = None /\ Forall (fun p => p.1 < length (t_calls (sm_table st')))%nat outs /\
  (forall k c', t_calls (sm_table st') !! k = Some c' -> c_done c' = Some true -> c_open c' = false /\ c_items c' = []) /\
  (forall k c', t_calls (sm_table st') !! k = Some c' -> call_ok (past ++ [SCall id cn]) outs k c').
Proof.
  intros [Ht Hcl Hr Ho He Hc] Hnd Hid Hd Hnew st'.
  assert (Hfresh : forall k c', t_calls (sm_table st) !! k = Some c' -> c_id c' <> id).
  { intros k c' Hk Hx. apply NoDup_app in Hnd as (_ & Hnd & _). apply (Hnd id); [|by left]. unfold call_ids. apply list_elem_of_fmap.
    exists c'. split; [done|]. by eapply list_elem_of_lookup_2. }
  split_and!.
  - destruct (t_senders (sm_table st) !! id) as [k|] eqn:El; [|done]. apply Ht in El as (c' & Hk & Hx & _). by destruct (Hfresh k c').
  - eapply Forall_impl; [exact Ho|]. intros p Hp. cbn in *. rewrite length_app. cbn. lia.
  - intros k c' [Hk|[_ Hk]]%lookup_app_Some Hd'; [by eapply He|]. apply list_lookup_singleton_Some in Hk as [_ <-]. congruence.
  - intros k c' [Hk|[Hge Hk]]%lookup_app_Some.
    + apply call_ok_other; [|by apply Hc]. cbn. rewrite bool_decide_false; [done|]. intros ->. by apply (Hfresh k c').
    + apply list_lookup_singleton_Some in Hk as [Hk <-]. replace k with (length (t_calls (sm_table st))) by lia. unfold call_ok.
      rewrite (received_new _ _ Ho), responses_snoc. cbn. rewrite bool_decide_true by done. cbn. naive_solver.
Qed.

Lemma stream_call_inv past outs st id cn :
  stream_inv past outs st -> NoDup (call_ids (stream_call st id cn)) -> stream_inv (past ++ [SCall id cn]) outs (stream_call st id cn).
Proof.
  intros Hi Hnd'. assert (Hnd : NoDup (call_ids st ++ [id])).
  { revert Hnd'. unfold stream_call, call_ids. destruct cn, (sm_closed st); cbn; rewrite ?fmap_app; try done.
    destruct (t_senders (sm_table st) !! id); [rewrite alter_ids by done|]; by rewrite fmap_app. }
  assert (Herr : forall e, stream_inv (past ++ [SCall id cn]) outs (sm_with st (add_call (sm_table st) (error_receiver id e)))).
  { intros e. destruct (stream_added past outs st id cn (error_receiver id e) Hi Hnd) as (_ & ? & ? & ?); try done.
    - right. exists e. by left.
    - destruct Hi. split; try done. by apply table_add_closed. }
  unfold stream_call. destruct cn; [apply Herr|]. destruct (sm_closed st) eqn:Ec; [apply Herr|].
  destruct (stream_added past outs st id false (mkCall id false [] true None) Hi Hnd) as (Hno & ? & ? & ?); try done; [by left|].
  destruct Hi. split; cbn; rewrite ?Hno; try done; [|congruence].
  by apply (table_insert (sm_table st) (mkCall id false [] true None)).
Qed.

(** The request of a call is not queued: its sender is removed and its receiver yields an error. *)
Lemma stream_queue_failed past outs st k c ev e :
  stream_inv past outs st -> NoDup (call_ids st) -> t_calls (sm_table st) !! k = Some c -> c_done c = None -> (forall id a, scan_step id a ev = a) ->
  stream_inv (past ++ [ev]) outs
    (sm_with st (on_call (remove_sender (sm_table st) (c_id c) (fun c => c)) k (fun c => set_queued (with_items (shut c) [Err e])))).
Proof.
  intros Hi Hnd Hk Hd Hscan. set (f := fun c : Call R bool => set_queued (with_items c [Err e])).
  assert (Hok : forall c', call_ok (past ++ [ev]) outs k (shut (f c')) /\ call_ok (past ++ [ev]) outs k (f c')).
  { intros c'. split; right; left; exists e; apply elem_of_app; right; by left. }
  pose proof Hi as [Ht _ _ _ _ Hc]. unfold remove_sender, on_call. cbn [t_senders t_calls].
  destruct (t_senders (sm_table st) !! c_id c) as [k'|] eqn:El.
  - pose proof El as (c' & Hk' & Hid & _)%Ht. assert (k' = k) as -> by (by eapply same_id). rewrite alter_alter.
    pose proof (stream_remove past outs st (c_id c) f ev Hi Hnd) as Hrm. unfold remove_sender in Hrm. rewrite El in Hrm.
    apply Hrm; try done. intros k0 c0 [= <-] _. apply Hok.
  - rewrite delete_id by done. assert (Hop : c_open c = false).
    { destruct (c_open c) eqn:Eo; [|done]. assert (t_senders (sm_table st) !! c_id c = Some k) by (apply Ht; by exists c). congruence. }
    rewrite (list_alter_ext _ f _ (t_calls (sm_table st))) by (done || intros x Hx; rewrite Hk in Hx; injection Hx as <-; unfold f; destruct c; cbn in *; by subst).
    rewrite <- (app_nil_r outs). eapply (stream_on_call past outs st k f ev [] c); try done; [cbn; congruence|]. rewrite app_nil_r. apply Hok.
Qed.

Lemma stream_response past outs st id rs eot st' r :
  stream_inv past outs st -> NoDup (call_ids st) -> stream_process_response st id rs eot = Some (st', r) ->
  stream_inv (past ++ [SResponse id rs eot]) outs st'.
Proof.
  intros Hi Hnd. pose proof Hi as [Ht Hcl Hr Ho He Hc].
  assert (Hscan : forall id', id' <> id -> forall a : list R * bool, scan_step id' a (SResponse id rs eot) = a).
  { intros id' Hne a. cbn. by rewrite bool_decide_false by done. }
  assert (Hnone : forall k c, t_senders (sm_table st) !! id = None -> t_calls (sm_table st) !! k = Some c -> c_id c = id ->
    call_ok (past ++ [SResponse id rs eot]) outs k c).
  { intros k c Hs Hk <-. eapply call_ok_closed; try done. by eexists _, _. }
  unfold stream_process_response. destruct eot.
  - intros [= <- <-]. apply stream_remove; try done. intros k c Hs Hk. destruct (table_owner _ _ _ _ Ht Hs Hk) as [<- Hop].
    specialize (Hc k c Hk). unfold call_ok in *. rewrite responses_snoc. cbn. rewrite bool_decide_true by done. rewrite Hop in Hc.
    destruct (responses (c_id c) past) as [rs' []]; cbn in *; naive_solver.
  - destruct (t_senders (sm_table st) !! id) as [k|] eqn:El.
    + destruct (sm_closed st) eqn:Ec; [rewrite (Hcl eq_refl) in El; by rewrite lookup_empty in El|].
      destruct (t_calls (sm_table st) !! k) as [c|] eqn:Ek; [|done]. destruct (table_owner _ _ _ _ Ht El Ek) as [<- Hop].
      destruct (c_done c) as [[]|] eqn:Ed.
      * destruct (He k c Ek Ed). congruence.
      * intros [= <- <-]. apply stream_remove; try done; [|intros; congruence]. intros k' c' Hs Hk'. rewrite El in Hs. injection Hs as <-.
        rewrite Ek in Hk'. injection Hk' as <-. by left.
      * case_bool_decide; [|done]. intros [= <- <-]. rewrite <- (app_nil_r outs).
        assert (Hput : forall c : Call R bool, c_id (chan_put (Ok rs) c) = c_id c /\ c_open (chan_put (Ok rs) c) = c_open c /\ c_done (chan_put (Ok rs) c) = c_done c).
        { intros c0. unfold chan_put. by destruct (c_open c0) eqn:?, (c_done c0) eqn:?. }
        eapply stream_on_call; try done; try (intros; by apply Hput).
        -- destruct (Hput c) as (_ & _ & ->). congruence.
        -- rewrite app_nil_r. by eapply call_ok_put_ok.
        -- intros k' c' Hne Hk'. apply Hscan. intros Hx. apply Hne. by eapply same_id.
    + intros [= <- <-]. split; try done. intros k c Hk. destruct (decide (c_id c = id)) as [Hx|Hx]; [by eapply Hnone|].
      apply call_ok_other; [by apply Hscan|by apply Hc].
Qed.

Lemma stream_exec_inv past outs st ev st' :
  stream_inv past outs st -> NoDup (call_ids st') -> stream_exec st ev = Some st' ->
  stream_inv (past ++ [ev]) (outs ++ stream_out st ev) st'.
Proof.
  intros Hi Hnd' Hex. destruct (exec_ids _ _ _ Hex) as [new Hnew].
  assert (Hnd : NoDup (call_ids st)) by (rewrite Hnew in Hnd'; by apply NoDup_app in Hnd' as [? _]).
  pose proof (si_calls _ _ _ Hi) as Hc.
  assert (Hstep : forall k f c, t_calls (sm_table st) !! k = Some c -> (forall c, c_id (f c) = c_id c) -> (forall c, c_open (f c) = c_open c) ->
    (c_done (f c) = Some true -> c_open c = false /\ c_items (f c) = []) -> (forall id a, scan_step id a ev = a) -> call_ok (past ++ [ev]) outs k (f c) ->
    stream_inv (past ++ [ev]) outs (sm_with st (on_call (sm_table st) k f))).
  { intros k f c Hk Hid Hop Hdn Hsc Hok. rewrite <- (app_nil_r outs). eapply stream_on_call; try done. by rewrite app_nil_r. }
  destruct ev as [id cn|k ok|k|k|k|id rs eot|e|]; cbn [stream_exec stream_out] in *; rewrite ?app_nil_r.
  - injection Hex as <-. by apply stream_call_inv.
  - destruct (t_calls (sm_table st) !! k) as [c|] eqn:Ek; [|done]. destruct (c_done c) eqn:Ed, (c_queued c) eqn:Eq; try done. injection Hex as <-.
    destruct ok; [|by apply stream_queue_failed]. apply (Hstep _ _ c); try done; [cbn; congruence|]. apply call_ok_other; [done|].
    eapply call_ok_same; [..|by apply Hc]; done.
  - destruct (t_calls (sm_table st) !! k) as [c|] eqn:Ek; [|done]. destruct (c_done c) eqn:Ed, (c_queued c) eqn:Eq, (c_items c) as [|r items] eqn:Ei; try done.
    injection Hex as <-. change (firstn 1 (r :: items)) with [r]. rewrite list_fmap_singleton.
    eapply stream_on_call; try done; [cbn; congruence|by repeat constructor|]. apply call_ok_other; [done|].
    specialize (Hc k c Ek). unfold call_ok in *. rewrite received_app. cbn [c_items with_items c_id c_open c_done].
    assert (received k [(k, r)] = [r]) as -> by (unfold received; by rewrite filter_cons_True).
    rewrite <- app_assoc. change ([r] ++ items) with (r :: items). by rewrite <- Ei.
  - destruct (t_calls (sm_table st) !! k) as [c|] eqn:Ek; [|done]. destruct (c_done c) eqn:Ed, (c_queued c) eqn:Eq, (c_items c) eqn:Ei, (c_open c) eqn:Eo; try done.
    injection Hex as <-. apply (Hstep _ _ c); try done. apply call_ok_other; [done|]. eapply call_ok_same; [..|by apply Hc]; try done. congruence.
  - destruct (t_calls (sm_table st) !! k) as [c|] eqn:Ek; [|done]. destruct (c_done c) eqn:Ed, (c_queued c) eqn:Eq; try done.
    injection Hex as <-. apply (Hstep _ _ c); try done. by left.
  - destruct (sm_receiving st) eqn:Er; [|done]. destruct (stream_process_response st id rs eot) as [[st1 r]|] eqn:Ep; [|done]. injection Hex as <-.
    by eapply stream_response.
  - destruct (sm_receiving st); [|done]. injection Hex as <-. by apply stream_broadcast.
  - destruct (sm_receiving st); [|done]. injection Hex as <-.
    destruct (stream_broadcast _ _ _ SStreamEnd (EGrpc "receiver stream dropped") Hi); [done|]. by split.
Qed.

Lemma run_ids st evs st' outs : stream_run st evs = Some (st', outs) -> exists new, call_ids st' = call_ids st ++ new.
Proof.
  revert st outs. induction evs as [|ev evs IH]; intros st outs; cbn [stream_run]; [intros [= <- <-]; exists []; by rewrite app_nil_r|].
  destruct (stream_exec st ev) as [st1|] eqn:E; [|done]. destruct (stream_run st1 evs) as [[st2 outs2]|] eqn:E2; [|done]. intros [= <- <-].
  destruct (IH _ _ E2) as [new' ->]. destruct (exec_ids _ _ _ E) as [new0 ->]. exists (new0 ++ new'). by rewrite app_assoc.
Qed.

Lemma stream_run_inv past outs st evs st' outs' :
  stream_inv past outs st -> NoDup (call_ids st') -> stream_run st evs = Some (st', outs') -> stream_inv (past ++ evs) (outs ++ outs') st'.
Proof.
  intros Hi Hnd. revert past outs st outs' Hi. induction evs as [|ev evs IH]; intros past outs st outs' Hi; cbn [stream_run].
  - intros [= <- <-]. by rewrite !app_nil_r.
  - destruct (stream_exec st ev) as [st1|] eqn:E; [|done]. destruct (stream_run st1 evs) as [[st2 outs2]|] eqn:E2; [|done]. intros [= -> <-].
    rewrite cons_middle, !app_assoc. eapply IH; [|exact E2]. apply stream_exec_inv; try done.
    destruct (run_ids _ _ _ _ E2) as [new Hx]. rewrite Hx in Hnd. by apply NoDup_app in Hnd as [? _].
Qed.

Lemma stream_new_inv : stream_inv [] [] stream_new.
Proof. split; try done. apply table_new_ok. Qed.

(** The calls of a streaming map function, in every interleaving, if no id is called twice. A
    task that sees the end of its channel without an error has received, in order, all the
    responses to its call up to the end of transmission, and that has come; and a call that waits
    does not wait in vain: something is there for it, or the stream is open, the receiving task
    runs, and the sender of the call is registered. *)
Theorem stream_complete (evs : list SEvent) (st : StreamSenderMapState) (outs : list (nat * Result R)) :
  stream_run stream_new evs = Some (st, outs) -> NoDup (call_ids st) ->
  forall k c, t_calls (sm_table st) !! k = Some c ->
  (c_done c = Some true -> (forall e, Err e ∉ received k outs) -> received k outs = Ok <$> (responses (c_id c) evs).1 /\ (responses (c_id c) evs).2 = true) /\
  (c_done c = None -> c_queued c = true ->
     is_Some (stream_exec st (SRecv k)) \/ is_Some (stream_exec st (SEnd k)) \/
     sm_closed st = false /\ sm_receiving st = true /\ t_senders (sm_table st) !! c_id c = Some k).
Proof.
  intros Hrun Hnd k c Hk. destruct (stream_run_inv [] [] _ _ _ _ stream_new_inv Hnd Hrun) as [Ht Hcl Hr Ho He Hc]. cbn [app] in *. split.
  - intros Hd Herr. destruct (He k c Hk Hd) as [Hop Hit]. destruct (Hc k c Hk) as [?|[[e Hx]|[Ho' Hx]]]; [congruence| |].
    + rewrite Hit, app_nil_r in Hx. by destruct (Herr e).
    + rewrite Hit, app_nil_r in Hx. rewrite Hop in Ho'. split; [done|]. by destruct (responses (c_id c) evs).2.
  - intros Hd Hq. cbn [stream_exec]. rewrite Hk, Hd, Hq. destruct (c_items c) as [|r items] eqn:Ei; [|left; eauto]. right.
    destruct (c_open c) eqn:Eo; [|left; eauto]. right. assert (Hs : t_senders (sm_table st) !! c_id c = Some k) by (apply Ht; by exists c).
    assert (Hcf : sm_closed st = false). { destruct (sm_closed st) eqn:Ec; [|done]. rewrite Hcl in Hs by done. by rewrite lookup_empty in Hs. }
    split_and!; try done. destruct (sm_receiving st); [done|]. by rewrite Hr in Hcf.
Qed.
End Stream.
End Stream.

(** * Runs on concrete inputs *)

Module Examples.

(** Two calls; the answer to the second comes first; the stream breaks before the other. *)
Definition ex_unary : list (Unary.UEvent (R := string)) :=
  [Unary.UCall "a"; Unary.UQueue 0 true; Unary.UCall "b"; Unary.UQueue 1 true; Unary.UResponse "b" "B"; Unary.UAwait 1;
   Unary.UStreamError (EGrpc "reset")].

Lemma unary_calls_answered_witness :
  exists st c, Unary.unary_run Unary.unary_new ex_unary = Some st /\ t_calls (Unary.us_table st) !! 0%nat = Some c /\ c_done c = None /\
    (is_Some (Unary.unary_exec st (Unary.UAwait 0)) \/ Unary.us_closed st = false).
Proof.
  eexists. eexists. split; [vm_compute; reflexivity|]. split; [reflexivity|]. split; [reflexivity|].
  edestruct (proj2 (Unary.unary_calls_answered ex_unary _ eq_refl) 0%nat _ eq_refl eq_refl eq_refl) as [H|[H _]]; [by left|by right].
Defined.

Definition ex_batch : list (Batch.BEvent (R := string)) :=
  [Batch.EvRegister; Batch.EvQueue true; Batch.EvRegister; Batch.EvQueue true; Batch.EvResponse "b" "B"; Batch.EvQueueEot true;
   Batch.EvResponse "a" "A"; Batch.EvAwait; Batch.EvAwait; Batch.EvEot; Batch.EvAwaitEot].

Lemma batch_answered_witness :
  exists st, Batch.batch_run Batch.batch_new ([] ++ Batch.EvStart ["a"; "b"] :: ex_batch) = Some st /\
    Batch.b_phase st = Batch.BReturned [Ok "A"; Ok "B"] /\
    ((exists e, [Ok "A"; Ok "B"] = [@Err string e]) \/
     exists results, [Ok "A"; Ok "B"] = Ok <$> results /\ Forall2 (fun id rs => Batch.EvResponse id rs ∈ ex_batch) ["a"; "b"] results).
Proof.
  eexists. split; [vm_compute; reflexivity|]. split; [reflexivity|].
  refine (Batch.batch_answered [] ex_batch ["a"; "b"] _ eq_refl _ _); [done|].
  intros ids' Hin. repeat (apply elem_of_cons in Hin as [[=]|Hin]). by apply elem_of_nil in Hin.
Defined.

(** A stream of two responses. *)
Definition ex_stream : list (Stream.SEvent (R := string)) :=
  [Stream.SCall "a" false; Stream.SQueue 0 true; Stream.SResponse "a" "x" false; Stream.SRecv 0; Stream.SResponse "a" "y" false;
   Stream.SResponse "a" "z" true; Stream.SRecv 0; Stream.SEnd 0].

Lemma stream_complete_witness :
  exists st outs, Stream.stream_run Stream.stream_new ex_stream = Some (st, outs) /\
    Stream.received 0 outs = [Ok "x"; Ok "y"] /\ Stream.received 0 outs = Ok <$> (Stream.responses "a" ex_stream).1.
Proof.
  eexists. eexists. split; [vm_compute; reflexivity|]. split; [vm_compute; reflexivity|].
  refine (proj1 (proj1 (Stream.stream_complete ex_stream _ _ eq_refl _ 0%nat _ eq_refl) eq_refl _)).
  - apply NoDup_singleton.
  - intros e Hin. vm_compute in Hin. repeat (apply elem_of_cons in Hin as [[=]|Hin]). by apply elem_of_nil in Hin.
Defined.

(** A retried message is called again with the same id while the responses to the first call still
    arrive. The end of transmission of the first call ends the second: its task sees a clean end,
    with nothing received, before the function answers it. *)
Definition ex_retry : list (Stream.SEvent (R := string)) :=
  [Stream.SCall "a" false; Stream.SQueue 0 true; Stream.SResponse "a" "failed" false; Stream.SRecv 0; Stream.SDropReceiver 0;
   Stream.SCall "a" false; Stream.SQueue 1 true; Stream.SResponse "a" "" true; Stream.SEnd 1; Stream.SResponse "a" "result" false].

Example retry_takes_stale_end :
  exists st outs c, Stream.stream_run Stream.stream_new ex_retry = Some (st, outs) /\ t_calls (Stream.sm_table st) !! 1%nat = Some c /\
    c_done c = Some true /\ Stream.received 1 outs = [].
Proof. eexists. eexists. eexists. repeat split; vm_compute; reflexivity. Qed.
End Examples.
