(* ===== verification/Mapper.v ===== *)
(** The mapper (src/rust/numaflow-core/src/mapper/map.rs, the tasks of map/unary.rs, batch.rs and
    stream.rs): what becomes of a message, or a batch, that a map function answers, fails or does
    not answer, with retries; and the component that runs the tasks and drains after an error.

    The answers of the clients of [MapClient] are arguments, by the number of the attempt. The
    tasks of a unary or streaming mapper run concurrently; metrics and tracing are left out. *)
From Stdlib Require Import ZArith SpecFloat.
From S2P Require Import Prelude Clock Message Tracker Backoff SinkActor SinkWriter UdfRetry MapUdf.
Open Scope Z_scope.

Section Tasks.
Context (powi : F64 -> Z -> F64) (random_factor : Z -> F64) (vertex_name : string).
Context (error_text : Error -> string).
(** [cancelled i]: the hard shutdown comes in the wait after attempt [i]. *)
Context (cancelled : nat -> bool).

#[local] Abbreviation step := (next_step powi random_factor) (only parsing).
Definition exhausted_error : Error := EMapper "Retries exhausted".
Definition nack_cancelled : AckLabel := LFail "map UDF retry wait cancelled" None.

(** * Unary and streaming tasks *)

(** What a task did: the calls of the tracker, the messages handed on with a clone of the handle,
    the end of its own handle, and the error it reports. *)
Record TaskOut := mkTaskOut {
  to_ops : list TOp;
  to_out : list Message;
  to_end : AckLabel;
  to_error : option Error
}.
Definition task_fail (e : Error) : TaskOut := mkTaskOut [] [] (LFail (error_text e) None) (Some e).
Definition task_prefix (ops : list TOp) (out : list Message) (o : TaskOut) : TaskOut :=
  mkTaskOut (ops ++ to_ops o) (out ++ to_out o) (to_end o) (to_error o).

(** The end of a task that does not retry after a failed message. *)
Definition task_give_up (s : RetryStep) : TaskOut :=
  match s with
  | RDrop => mkTaskOut [] [] LSuccess None
  | RNack => task_fail exhausted_error
  | _ => mkTaskOut [] [] nack_cancelled None
  end.

Definition task_emit (m : Message) (ms : list Message) : TaskOut :=
  let ms := strip_tracing_udf <$> ms in
  mkTaskOut [TUpdate (m_offset m) (m_tags <$> ms)] ms LSuccess None.

(** [MapUnaryTask::execute] from attempt [i]; [fuel] bounds the attempts. [None]: out of fuel, or
    a panic. *)
Fixpoint unary_execute (fuel : nat) (m : Message) (answers : nat -> Result (list MapResult)) (rc : RetryController) (i : nat) : option TaskOut :=
  match fuel with
  | O => None
  | S fuel =>
      match answers i with
      | Err e => Some (task_fail e)
      | Ok results =>
          let? ms := mapped_messages vertex_name (parent_info m) results in
          if existsb failed ms then
            let? (s, rc') := step rc (cancelled i) in
            match s with
            | RAgain => unary_execute fuel m answers rc' (S i)
            | s => Some (task_give_up s)
            end
          else Some (task_emit m ms)
      end
  end.

(** How the receiver of a stream ended. *)
Inductive StreamEnd := SeDone | SeFailed | SeError (e : Error).

Fixpoint stream_results (p : ParentMessageInfo) (results : list MapResult) :
    option (list Message * ParentMessageInfo * bool) :=
  match results with
  | [] => Some ([], p, false)
  | r :: results =>
      let? m := user_defined_message vertex_name r p (pi_current_index p) in
      if failed m then Some ([], p, true)
      else
        let? (ms, p', f) := stream_results (set_current_index p (as_i32 (pi_current_index p + 1))) results in
        Some (strip_tracing_udf m :: ms, p', f)
  end.

(** The messages of one attempt. *)
Fixpoint stream_items (p : ParentMessageInfo) (items : list (Result (list MapResult))) : option (list Message * StreamEnd) :=
  match items with
  | [] => Some ([], SeDone)
  | Err e :: _ => Some ([], SeError e)
  | Ok results :: items =>
      let? (ms, p', f) := stream_results p results in
      if f then Some (ms, SeFailed)
      else let? (ms', e) := stream_items p' items in Some (ms ++ ms', e)
  end.

Definition append_op (m : Message) : TOp := TAppend (m_offset m) (m_tags m).

(** [MapStreamTask::execute]: [answers i] is what the receiver of attempt [i] yields before it ends. *)
Fixpoint stream_execute (fuel : nat) (m : Message) (answers : nat -> list (Result (list MapResult))) (rc : RetryController) (i : nat) : option TaskOut :=
  match fuel with
  | O => None
  | S fuel =>
      let? (ms, e) := stream_items (parent_info m) (answers i) in
      let with_pass := task_prefix (TRefresh (m_offset m) :: (append_op <$> ms)) ms in
      match e with
      | SeError e => Some (with_pass (task_fail e))
      | SeDone => Some (with_pass (mkTaskOut [] [] LSuccess None))
      | SeFailed =>
          let? (s, rc') := step rc (cancelled i) in
          match s with
          | RAgain => let? o := stream_execute fuel m answers rc' (S i) in Some (with_pass o)
          | s => Some (with_pass (task_give_up s))
          end
      end
  end.

(** * Batch tasks *)

(** One pass over the results of a batch. *)
Record BatchPass := mkPass {
  bp_ops : list TOp;
  bp_out : list (nat * Message);          (* by the handle cloned *)
  bp_verdicts : Verdicts;
  bp_next : list MessageHandle;           (* to be retried *)
  bp_error : option Error
}.

Definition pass_retry (h : MessageHandle) (p : BatchPass) : BatchPass :=
  mkPass (bp_ops p) (bp_out p) (bp_verdicts p) (h :: bp_next p) (bp_error p).
Definition pass_emit (h : MessageHandle) (ms : list Message) (p : BatchPass) : BatchPass :=
  let o := task_emit (h_message h) ms in
  mkPass (to_ops o ++ bp_ops p) (((fun m => (h_key h, m)) <$> to_out o) ++ bp_out p) ((h_key h, to_end o) :: bp_verdicts p)
    (bp_next p) (bp_error p).

(** The loop over the results zipped with the handles; handles left over are dropped. *)
Fixpoint batch_pass (hs : list MessageHandle) (results : list (Result (list MapResult))) : option BatchPass :=
  match hs, results with
  | h :: hs, Ok r :: results =>
      let? ms := mapped_messages vertex_name (parent_info (h_message h)) r in
      let? p := batch_pass hs results in
      Some (if existsb failed ms then pass_retry h p else pass_emit h ms p)
  | h :: hs, Err e :: _ =>
      Some (mkPass [] [] ((h_key h, LFail (error_text e) None) :: mark (fun _ => LDrop) hs) [] (Some e))
  | hs, [] => Some (mkPass [] [] (mark (fun _ => LDrop) hs) [] None)
  | [], _ => Some (mkPass [] [] [] [] None)
  end.

Record BatchOut := mkBatchOut {
  bo_ops : list TOp;
  bo_out : list (nat * Message);
  bo_verdicts : Verdicts;
  bo_result : Result unit
}.
Definition out_prefix (p : BatchPass) (o : BatchOut) : BatchOut :=
  mkBatchOut (bp_ops p ++ bo_ops o) (bp_out p ++ bo_out o) (bp_verdicts p ++ bo_verdicts o) (bo_result o).

(** The end of a batch whose failed messages are not retried again. *)
Definition batch_end (s : RetryStep) (next : list MessageHandle) : BatchOut :=
  mkBatchOut [] []
    (mark (fun _ => match s with RDrop => LSuccess | RNack => LFail (error_text exhausted_error) None | _ => nack_cancelled end) next) (Ok tt).

(** [MapBatchTask::execute]: [answers i] is the answer of the client in attempt [i]. *)
Fixpoint batch_execute (fuel : nat) (hs : list MessageHandle) (answers : nat -> list Message -> list (Result (list MapResult)))
    (rc : RetryController) (i : nat) : option BatchOut :=
  match fuel with
  | O => None
  | S fuel =>
      let? p := batch_pass hs (answers i (h_message <$> hs)) in
      match bp_error p, bp_next p with
      | Some e, next => Some (out_prefix p (mkBatchOut [] [] (mark (fun _ => LDrop) next) (Err e)))
      | None, [] => Some (out_prefix p (mkBatchOut [] [] [] (Ok tt)))
      | None, next =>
          let? (s, rc') := step rc (cancelled i) in
          match s with
          | RAgain => let? o := batch_execute fuel next answers rc' (S i) in Some (out_prefix p o)
          | s => Some (out_prefix p (batch_end s next))
          end
      end
  end.

(** [process_batch_messages]: the batches one by one; after an error all are failed. *)
Fixpoint process_batch_messages (run : list MessageHandle -> BatchOut) (batches : list (list MessageHandle)) (final_result : Result unit) :
    list (nat * Message) * Verdicts * Result unit :=
  match batches with
  | [] => ([], [], final_result)
  | b :: batches =>
      match final_result with
      | Err e =>
          let '(out, v, f) := process_batch_messages run batches final_result in
          (out, mark (fun _ => LFail (error_text e) None) b ++ v, f)
      | Ok _ =>
          match b with
          | [] => process_batch_messages run batches final_result
          | _ =>
              let o := run b in
              let '(out, v, f) := process_batch_messages run batches (bo_result o) in
              (bo_out o ++ out, bo_verdicts o ++ v, f)
          end
      end
  end.
End Tasks.

(** * Lemmas *)

Definition printable (m : Message) : Prop := is_Some (offset_to_string (m_offset m)).

Section Proofs.
Context (powi : F64 -> Z -> F64) (random_factor : Z -> F64) (vertex_name : string).
Context (error_text : Error -> string) (cancelled : nat -> bool).

Lemma mapped_from_some p i rs : is_Some (offset_to_string (pi_offset p)) -> is_Some (mapped_from vertex_name p i rs).
Proof.
  intros [o Ho]. revert i. induction rs as [|r rs IH]; intros i; cbn; [by eexists|]. unfold user_defined_message, result_offset.
  rewrite Ho. cbn. destruct (IH (i + 1)) as [ms ->]. by eexists.
Qed.
Lemma mapped_some m rs : printable m -> is_Some (mapped_messages vertex_name (parent_info m) rs).
Proof. intros Hm. by apply mapped_from_some. Qed.

(** ** Batches *)

Definition outs_of (k : nat) (out : list (nat * Message)) : list Message := snd <$> filter (fun p => p.1 = k) out.

Lemma outs_of_app k out out' : outs_of k (out ++ out') = outs_of k out ++ outs_of k out'.
Proof. unfold outs_of. by rewrite filter_app, fmap_app. Qed.
Lemma outs_of_none k out : k ∉ out.*1 -> outs_of k out = [].
Proof.
  unfold outs_of. induction out as [|[k' m] out IH]; [done|]. rewrite fmap_cons, not_elem_of_cons. intros [Hne Hni].
  rewrite filter_cons_False; [by apply IH|]. cbn in *. by intros ->.
Qed.
Lemma outs_of_same k ms : outs_of k ((fun m => (k, m)) <$> ms) = ms.
Proof. unfold outs_of. induction ms as [|m ms IH]; [done|]. rewrite fmap_cons, filter_cons_True by done. rewrite fmap_cons. by f_equal. Qed.

Context (answers : nat -> list Message -> list (Result (list MapResult))).

(** What the client returns: one error, or an answer for every message. *)
Definition answers_ok : Prop := forall i ms,
  (exists e, answers i ms = [Err e]) \/ exists rs, answers i ms = Ok <$> rs /\ length rs = length ms.

(** [ms] are the messages of an answer to the message of [h] in attempt [i]. *)
Definition answered (i : nat) (h : MessageHandle) (ms : list Message) : Prop :=
  exists msgs j r, msgs !! j = Some (h_message h) /\ answers i msgs !! j = Some (Ok r) /\
    mapped_messages vertex_name (parent_info (h_message h)) r = Some ms.
Definition failed_at (i : nat) (h : MessageHandle) : Prop := exists ms, answered i h ms /\ existsb failed ms = true.
(** None of them is failed, and they are handed on. *)
Definition passed_at (i : nat) (h : MessageHandle) (out : list Message) : Prop :=
  exists ms, answered i h ms /\ existsb failed ms = false /\ out = strip_tracing_udf <$> ms.

(** What was handed on for a handle that is marked successful, from attempt [i] with [left] retries
    left: the messages of the first answer in which none is failed; or nothing, since the message is
    dropped when it has failed in every attempt and the retries are used up. *)
Definition settled_as (strategy : option OnFailureStrategy) (left : option nat) (i : nat) (h : MessageHandle) (out : list Message) : Prop :=
  (exists k, (i <= k)%nat /\ (forall j, (i <= j < k)%nat -> failed_at j h) /\ passed_at k h out) \/
  (strategy = Some OFDrop /\ out = [] /\ exists n, left = Some n /\ forall j, (i <= j <= i + n)%nat -> failed_at j h).

(** [P]: what is known of a successful handle and its messages. *)
Record batch_spec (P : MessageHandle -> list Message -> Prop) (hs : list MessageHandle) (out : list (nat * Message)) (v : Verdicts)
    (next : list MessageHandle) : Prop := {
  bs_keys : v.*1 ++ (h_key <$> next) ≡ₚ h_key <$> hs;
  bs_next : next ⊆ hs;
  bs_out : forall k, k ∈ out.*1 -> (k, LSuccess) ∈ v;
  bs_success : forall h, h ∈ hs -> (h_key h, LSuccess) ∈ v -> P h (outs_of (h_key h) out)
}.

Lemma key_inj (hs : list MessageHandle) h h' : NoDup (h_key <$> hs) -> h ∈ hs -> h' ∈ hs -> h_key h = h_key h' -> h = h'.
Proof.
  intros Hnd (i & Hi)%list_elem_of_lookup (j & Hj)%list_elem_of_lookup Hk.
  assert (i = j) as ->; [|congruence]. apply (NoDup_lookup _ _ _ (h_key h) Hnd); rewrite list_lookup_fmap, ?Hi, ?Hj; cbn; congruence.
Qed.

(** A pass over answers to all of the messages. *)
Lemma batch_pass_spec i msgs pre hs rs :
  Forall (fun h => printable (h_message h)) hs -> NoDup (h_key <$> hs) -> length rs = length hs ->
  msgs = pre ++ (h_message <$> hs) -> (exists rpre, length rpre = length pre /\ answers i msgs = (Ok <$> rpre) ++ (Ok <$> rs)) ->
  exists p, batch_pass vertex_name error_text hs (Ok <$> rs) = Some p /\ bp_error p = None /\
    batch_spec (passed_at i) hs (bp_out p) (bp_verdicts p) (bp_next p) /\ Forall (failed_at i) (bp_next p) /\
    Forall (fun kl => kl.2 = LSuccess) (bp_verdicts p).
Proof.
  revert pre rs. induction hs as [|h hs IH]; intros pre [|r rs] Hpr Hnd Hlen Hmsgs (rpre & Hrp & Hans); try done.
  { cbn. eexists. split_and!; [done|done| |constructor..]. split; cbn; try done. by intros k ?%elem_of_nil. by intros h ?%elem_of_nil. }
  apply Forall_cons in Hpr as [Hh Hpr]. rewrite fmap_cons in Hnd. apply NoDup_cons in Hnd as [Hni Hnd].
  destruct (IH (pre ++ [h_message h]) rs Hpr Hnd ltac:(cbn in Hlen; lia)) as (p & Ep & Herr & [Hk Hnx Ho Hs] & Hfl & Hall).
  { rewrite Hmsgs. cbn. by rewrite <- app_assoc. }
  { exists (rpre ++ [r]). rewrite !length_app, Hans, fmap_app. cbn. rewrite <- app_assoc. split; [lia|done]. }
  cbn [fmap list_fmap batch_pass]. destruct (mapped_some _ r Hh) as [ms Ems]. rewrite Ems. cbn. change (list_fmap _ _ Ok rs) with (Ok <$> rs). rewrite Ep.
  assert (Hkey : forall h', h' ∈ hs -> h_key h' <> h_key h).
  { intros h' Hin Hx. apply Hni. rewrite <- Hx. by apply list_elem_of_fmap_2. }
  assert (Hnv : (h_key h, LSuccess) ∉ bp_verdicts p).
  { intros Hin. apply Hni. rewrite <- Hk. apply elem_of_app. left. by apply (list_elem_of_fmap_2 fst) in Hin. }
  assert (Han : answered i h ms).
  { exists msgs, (length pre), r. split_and!; try done; [by rewrite Hmsgs, lookup_app_r, Nat.sub_diag by done|].
    rewrite Hans, lookup_app_r by (rewrite length_fmap; lia). by rewrite length_fmap, Hrp, Nat.sub_diag. }
  assert (Hno : outs_of (h_key h) (bp_out p) = []) by (apply outs_of_none; intros Hin%Ho; done).
  destruct (existsb failed ms) eqn:Ef; eexists; (split_and!; [done|exact Herr| | |]);
    [|constructor; [by exists ms|exact Hfl]|exact Hall| |exact Hfl|by constructor].
  - split; cbn.
    + by rewrite <- Hk, Permutation_middle.
    + intros x [->|Hx]%elem_of_cons; [by left|right; by apply Hnx].
    + done.
    + intros h' [->|Hin]%elem_of_cons Hv; [done|by apply Hs].
  - split; cbn [pass_emit bp_out bp_verdicts bp_next bp_ops task_emit to_out to_end].
    + cbn. by rewrite Hk.
    + intros x Hx. right. by apply Hnx.
    + intros k. rewrite fmap_app, elem_of_app. intros [Hin|Hin]; [|right; by apply Ho].
      apply list_elem_of_fmap in Hin as ([k' m'] & -> & (m0 & [= -> ->] & _)%list_elem_of_fmap). by left.
    + intros h' [->|Hin]%elem_of_cons Hv.
      * exists ms. by rewrite outs_of_app, outs_of_same, Hno, app_nil_r.
      * apply elem_of_cons in Hv as [[= Hx]|Hv]; [by destruct (Hkey h' Hin)|].
        rewrite outs_of_app, (outs_of_none _ (_ <$> _)); [by apply Hs|].
        intros ([k' m'] & Hx & (m0 & [= -> ->] & _)%list_elem_of_fmap)%list_elem_of_fmap. by apply (Hkey h').
Qed.

Definition batch_done (strategy : option OnFailureStrategy) (left : option nat) (i : nat) (hs : list MessageHandle) (o : BatchOut) : Prop :=
  batch_spec (settled_as strategy left i) hs (bo_out o) (bo_verdicts o) [] /\ ((exists k, (k, LDrop) ∈ bo_verdicts o) -> exists e, bo_result o = Err e).

(** A pass, and what is done with the messages to be retried. *)
Lemma batch_spec_app (P P' Q : MessageHandle -> list Message -> Prop) hs p o :
  NoDup (h_key <$> hs) -> batch_spec P hs (bp_out p) (bp_verdicts p) (bp_next p) ->
  batch_spec P' (bp_next p) (bo_out o) (bo_verdicts o) [] ->
  (forall h out, P h out -> Q h out) -> (forall h out, h ∈ bp_next p -> P' h out -> Q h out) ->
  batch_spec Q hs (bo_out (out_prefix p o)) (bo_verdicts (out_prefix p o)) [].
Proof.
  intros Hnd [Hk Hnx Ho Hs] [Hk' _ Ho' Hs'] HP HP'. cbn in Hk'. rewrite app_nil_r in Hk'.
  assert (Hdisj : forall k, k ∈ (bp_verdicts p).*1 -> k ∉ h_key <$> bp_next p).
  { rewrite <- Hk in Hnd. apply NoDup_app in Hnd as (_ & Hx & _). exact Hx. }
  assert (Hv : forall k l, (k, l) ∈ bp_verdicts p -> k ∈ (bp_verdicts p).*1) by (intros k l Hin; by apply (list_elem_of_fmap_2 fst) in Hin).
  assert (Hv' : forall k l, (k, l) ∈ bo_verdicts o -> k ∈ h_key <$> bp_next p).
  { intros k l Hin. rewrite <- Hk'. by apply (list_elem_of_fmap_2 fst) in Hin. }
  split; cbn [out_prefix bo_out bo_verdicts].
  - cbn. by rewrite app_nil_r, fmap_app, Hk'.
  - by intros ? ?%elem_of_nil.
  - intros k. rewrite fmap_app, !elem_of_app. intros [?|?]; [left; by apply Ho|right; by apply Ho'].
  - intros h Hin. rewrite elem_of_app, outs_of_app. intros [Hin'|Hin'].
    + rewrite (outs_of_none _ (bo_out o)), app_nil_r; [by apply HP, Hs|]. intros Hx%Ho'. eapply Hdisj; [by eapply Hv|by eapply Hv'].
    + rewrite (outs_of_none _ (bp_out p)); [|intros Hx%Ho; eapply Hdisj; [by eapply Hv|by eapply Hv']].
      pose proof (Hv' _ _ Hin') as (h' & Hkey & Hh')%list_elem_of_fmap.
      assert (h = h') as -> by (eapply key_inj; [exact Hnd|done|by apply Hnx|done]). apply HP'; [done|]. by apply Hs'.
Qed.

Lemma mark_elem f hs k l : (k, l) ∈ mark f hs -> exists h, h ∈ hs /\ k = h_key h /\ l = f h.
Proof. intros (h & [= -> ->] & Hin)%list_elem_of_fmap. by exists h. Qed.

(** Marks without output. *)
Lemma batch_spec_mark (P : MessageHandle -> list Message -> Prop) hs f :
  (forall h, h ∈ hs -> f h = LSuccess -> P h []) -> NoDup (h_key <$> hs) -> batch_spec P hs [] (mark f hs) [].
Proof.
  intros Hf Hnd. split.
  - by rewrite mark_keys, app_nil_r.
  - by intros ? ?%elem_of_nil.
  - by intros ? ?%elem_of_nil.
  - intros h Hin (h' & Hin' & Hk & Hx)%mark_elem. apply Hf; [done|]. by rewrite (key_inj hs h h' Hnd Hin Hin' Hk).
Qed.

(** The batch ends: within the attempts left, or with an attempt in which nothing fails. *)
Definition passes_end (n : nat) (i : nat) (left : option nat) : Prop :=
  match left with
  | Some n' => (n' <= n)%nat
  | None => exists j, (j <= n)%nat /\ forall hs p, batch_pass vertex_name error_text hs (answers (i + j) (h_message <$> hs)) = Some p -> bp_next p = []
  end.

(** Nothing marked. *)
Lemma batch_spec_nil (P : MessageHandle -> list Message -> Prop) : batch_spec P [] [] [] [].
Proof. apply (batch_spec_mark P [] (fun _ => LDrop)); [by intros ? ?%elem_of_nil|constructor]. Qed.

Lemma batch_pass_cases hs i :
  answers_ok -> Forall (fun h => printable (h_message h)) hs -> NoDup (h_key <$> hs) ->
  exists p, batch_pass vertex_name error_text hs (answers i (h_message <$> hs)) = Some p /\
    batch_spec (passed_at i) hs (bp_out p) (bp_verdicts p) (bp_next p) /\ Forall (failed_at i) (bp_next p) /\
    (bp_error p = None /\ (forall k, (k, LDrop) ∉ bp_verdicts p) \/ exists e, bp_error p = Some e /\ bp_next p = []).
Proof.
  intros Ha Hpr Hnd. destruct (Ha i (h_message <$> hs)) as [[e He]|(rs & Hrs & Hlen)].
  - rewrite He. destruct hs as [|h hs].
    + eexists. split; [done|]. split; [apply batch_spec_nil|]. split; [constructor|]. left. split; [done|]. by intros k ?%elem_of_nil.
    + eexists. split; [done|]. cbn. split; [|split; [constructor|right; by exists e]]. split.
      * cbn. by rewrite mark_keys, app_nil_r.
      * by intros ? ?%elem_of_nil.
      * by intros ? ?%elem_of_nil.
      * intros h' Hin [[= ? ?]|(h0 & _ & _ & ?)%mark_elem]%elem_of_cons; done.
  - rewrite length_fmap in Hlen. rewrite Hrs.
    destruct (batch_pass_spec i (h_message <$> hs) [] hs rs Hpr Hnd Hlen eq_refl) as (p & Hp & He & Hs & Hfl & Hall).
    { by exists []. }
    exists p. split; [done|]. split; [done|]. split; [done|]. left. split; [done|]. intros k Hin. rewrite Forall_forall in Hall. by specialize (Hall _ Hin).
Qed.

(** The retries left after one more attempt. *)
Definition one_less (left left' : option nat) : Prop :=
  match left with Some (S n) => left' = Some n | Some O => False | None => left' = None end.

Lemma settled_now strategy left i h out : passed_at i h out -> settled_as strategy left i h out.
Proof. intros Hp. left. exists i. split_and!; [lia| |done]. intros j Hj. lia. Qed.

Lemma settled_later strategy left left' i h out :
  one_less left left' -> failed_at i h -> settled_as strategy left' (S i) h out -> settled_as strategy left i h out.
Proof.
  intros Hl Hf [(k & Hk & Hb & Hp)|(Hs & Ho & n & Hn & Hb)].
  - left. exists k. split_and!; [lia| |done]. intros j Hj. destruct (decide (j = i)) as [->|]; [done|]. apply Hb. lia.
  - right. split_and!; [done..|]. destruct left as [[|m]|]; cbn in Hl; [done| |congruence]. exists (S m). split; [done|].
    intros j Hj. destruct (decide (j = i)) as [->|]; [done|]. apply Hb. assert (n = m) by congruence. lia.
Qed.

(** What a controller does after a failed attempt. *)
Lemma next_step_cases rc c s rc' :
  controller_ok rc -> next_step powi random_factor rc c = Some (s, rc') ->
  controller_ok rc' /\ rc_strategy rc' = rc_strategy rc /\
  match s with
  | RAgain => one_less (attempts_left rc) (attempts_left rc')
  | RCancelled => c = true
  | RDrop => rc_strategy rc = Some OFDrop /\ attempts_left rc = Some 0%nat
  | RNack => rc_strategy rc = Some OFRetry /\ attempts_left rc = Some 0%nat
  end.
Proof.
  intros Hrc Hs. destruct (next_step_ok powi random_factor rc c Hrc) as (s0 & rc0 & Hs0 & Hrc' & Hst & Hcase).
  rewrite Hs in Hs0. injection Hs0 as <- <-. split_and!; try done. destruct (attempts_left rc) as [[|m]|] eqn:El.
  - subst s. unfold controller_ok, attempts_left in *. destruct (rc_backoff rc); [|done]. by destruct Hrc as [[-> | ->] _].
  - destruct Hcase as [-> Hl]. by destruct c.
  - destruct Hcase as [-> ->]. cbn. exact El.
Qed.

Lemma batch_execute_step fuel hs rc i :
  answers_ok -> controller_ok rc -> Forall (fun h => printable (h_message h)) hs -> NoDup (h_key <$> hs) ->
  (forall p rc', batch_pass vertex_name error_text hs (answers i (h_message <$> hs)) = Some p -> bp_next p <> [] ->
     next_step powi random_factor rc (cancelled i) = Some (RAgain, rc') -> Forall (fun h => printable (h_message h)) (bp_next p) ->
     NoDup (h_key <$> bp_next p) ->
     exists o, batch_execute powi random_factor vertex_name error_text cancelled fuel (bp_next p) answers rc' (S i) = Some o /\
       batch_done (rc_strategy rc) (attempts_left rc') (S i) (bp_next p) o) ->
  exists o, batch_execute powi random_factor vertex_name error_text cancelled (S fuel) hs answers rc i = Some o /\
    batch_done (rc_strategy rc) (attempts_left rc) i hs o.
Proof.
  intros Ha Hrc Hpr Hnd IH. cbn [batch_execute]. destruct (batch_pass_cases hs i Ha Hpr Hnd) as (p & Hp & Hsp & Hfl & Hcase).
  rewrite Forall_forall in Hfl. rewrite Hp.
  assert (Hjoin : forall P o, batch_spec P (bp_next p) (bo_out o) (bo_verdicts o) [] ->
    (forall h out, h ∈ bp_next p -> P h out -> settled_as (rc_strategy rc) (attempts_left rc) i h out) ->
    ((exists k, (k, LDrop) ∈ bp_verdicts p ++ bo_verdicts o) -> exists e, bo_result o = Err e) ->
    batch_done (rc_strategy rc) (attempts_left rc) i hs (out_prefix p o)).
  { intros P o Ho HP Hd. split; [|done]. eapply batch_spec_app; try done. intros h out. apply settled_now. }
  destruct Hcase as [[He Hnd0]|(e & He & Hx)]; rewrite He.
  2:{ eexists. split; [done|]. rewrite Hx in *. apply (Hjoin (fun _ _ => False)); [apply batch_spec_nil|done|by intros _; exists e]. }
  destruct (bp_next p) as [|h0 next0] eqn:Enx.
  { eexists. split; [done|]. apply (Hjoin (fun _ _ => False)); [apply batch_spec_nil|done|]. cbn. rewrite app_nil_r. by intros (k & ?%Hnd0). }
  rewrite <- Enx in *. assert (Hne : bp_next p <> []) by (by rewrite Enx).
  assert (Hsub : Forall (fun h => printable (h_message h)) (bp_next p) /\ NoDup (h_key <$> bp_next p)).
  { destruct Hsp as [Hk Hnx _ _]. split; [rewrite Forall_forall in Hpr |- *; intros x Hx; apply Hpr; by apply Hnx|].
    rewrite <- Hk in Hnd. by apply NoDup_app in Hnd as (_ & _ & ?). }
  destruct (next_step_ok powi random_factor rc (cancelled i) Hrc) as (s & rc' & Hstep & _). rewrite Hstep. cbn [mbind option_bind].
  destruct (next_step_cases rc (cancelled i) s rc' Hrc Hstep) as (_ & _ & Hs).
  assert (Hend : s <> RAgain -> batch_done (rc_strategy rc) (attempts_left rc) i hs (out_prefix p (batch_end error_text s (bp_next p)))).
  { intros Hs'. eapply Hjoin; [apply batch_spec_mark; [|apply Hsub]|by intros h out _ ?|].
    - intros h Hin Hl. right. destruct s; try done. destruct Hs as [-> ->]. split_and!; [done..|]. exists 0%nat. split; [done|].
      intros j Hj. replace j with i by lia. by apply Hfl.
    - intros (k & [Hk|Hk]%elem_of_app); [by apply Hnd0 in Hk|]. apply mark_elem in Hk as (h & _ & _ & Hl). by destruct s. }
  destruct s; try (eexists; split; [done|]; by apply Hend).
  destruct (IH p rc' Hp Hne Hstep (proj1 Hsub) (proj2 Hsub)) as (o & -> & Ho & Hd). eexists. split; [done|].
  eapply Hjoin; [exact Ho| |].
  - intros h out Hin. eapply settled_later; [exact Hs|by apply Hfl].
  - intros (k & [?%Hnd0|?]%elem_of_app); [done|]. apply Hd. by exists k.
Qed.

Lemma batch_execute_spec n hs rc i :
  answers_ok -> controller_ok rc -> Forall (fun h => printable (h_message h)) hs -> NoDup (h_key <$> hs) -> passes_end n i (attempts_left rc) ->
  exists o, batch_execute powi random_factor vertex_name error_text cancelled (S n) hs answers rc i = Some o /\
    batch_done (rc_strategy rc) (attempts_left rc) i hs o.
Proof.
  intros Ha. revert hs rc i. induction n as [|n IH]; intros hs rc i Hrc Hpr Hnd Hn; apply batch_execute_step; try done;
    intros p rc' Hp Hne Hstep Hpr' Hnd'; destruct (next_step_cases rc (cancelled i) RAgain rc' Hrc Hstep) as (Hrc' & Hst & Hs).
  - exfalso. destruct (attempts_left rc) as [[|m]|]; cbn in Hn, Hs; [done|lia|].
    destruct Hn as (j & Hj & Hx). replace (i + j)%nat with i in Hx by lia. by apply Hne, (Hx hs p).
  - rewrite <- Hst. apply IH; try done. destruct (attempts_left rc) as [[|m]|]; cbn in Hn, Hs; [done| |]; rewrite Hs.
    + cbn. lia.
    + destruct Hn as ([|j] & Hj & Hx); [rewrite Nat.add_0_r in Hx; by destruct Hne; apply (Hx hs p)|].
      exists j. split; [lia|]. intros hs' p'. replace (S i + j)%nat with (i + S j)%nat by lia. apply Hx.
Qed.

(** ** Unary and streaming tasks *)

(** The task ends: within the attempts left, or with an attempt that does not fail. *)
Definition attempts_end (fails : nat -> bool) (n i : nat) (left : option nat) : Prop :=
  match left with Some n' => (n' <= n)%nat | None => exists j, (j <= n)%nat /\ fails (i + j)%nat = false end.

(** How a task gives up after attempt [k], the [used]-th of the retries it had left: the shutdown came, or
    the retries are used up and the strategy says what becomes of the message. *)
Definition gives_up (strategy : option OnFailureStrategy) (left : option nat) (used k : nat) (s : RetryStep) : Prop :=
  match s with
  | RAgain => False
  | RCancelled => cancelled k = true
  | RDrop => strategy = Some OFDrop /\ left = Some used
  | RNack => strategy = Some OFRetry /\ left = Some used
  end.

(** A failed attempt leads to another one, with what is left, or to the end. *)
Lemma failed_attempt fails n i rc : controller_ok rc -> attempts_end fails n i (attempts_left rc) -> fails i = true ->
  exists s rc', next_step powi random_factor rc (cancelled i) = Some (s, rc') /\
    (gives_up (rc_strategy rc) (attempts_left rc) 0 i s \/
     s = RAgain /\ controller_ok rc' /\ rc_strategy rc' = rc_strategy rc /\ one_less (attempts_left rc) (attempts_left rc') /\
       exists n', n = S n' /\ attempts_end fails n' (S i) (attempts_left rc')).
Proof.
  intros Hrc Hend Hf. destruct (next_step_ok powi random_factor rc (cancelled i) Hrc) as (s & rc' & Hs & _).
  exists s, rc'. split; [done|]. destruct (next_step_cases rc (cancelled i) s rc' Hrc Hs) as (Hrc' & Hst & Hcase).
  destruct s; [|by left..]. right. split_and!; try done. destruct (attempts_left rc) as [[|m]|]; cbn in Hend, Hcase; [done| |]; rewrite Hcase.
  - destruct n as [|n]; [lia|]. exists n. split; [done|]. cbn. lia.
  - destruct Hend as ([|j] & Hj & Hx); [by rewrite Nat.add_0_r, Hf in Hx|].
    destruct n as [|n]; [lia|]. exists n. split; [done|]. exists j. split; [lia|]. by rewrite Nat.add_succ_l, <- Nat.add_succ_r.
Qed.

Lemma gives_up_later strategy left left' used k s :
  one_less left left' -> gives_up strategy left' used k s -> gives_up strategy left (S used) k s.
Proof.
  intros Hl. destruct s; cbn; try done; intros [-> ->]; (split; [done|]); destruct left as [[|m]|]; cbn in Hl; try done; congruence.
Qed.

Definition unary_fails (m : Message) (answers : nat -> Result (list MapResult)) (i : nat) : bool :=
  match answers i with
  | Ok rs => match mapped_messages vertex_name (parent_info m) rs with Some ms => existsb failed ms | None => false end
  | Err _ => false
  end.

(** The outcome [o] of a unary task from attempt [i] with [left] retries left, of which it uses [used]:
    every attempt before the last fails a message; the last one is an error, or has no failed message,
    or the task gives up. *)
Definition unary_done (strategy : option OnFailureStrategy) (left : option nat) (i : nat) (m : Message)
    (answers : nat -> Result (list MapResult)) (o : TaskOut) : Prop :=
  exists used, (forall j, (i <= j < i + used)%nat -> unary_fails m answers j = true) /\
  ((exists e, answers (i + used)%nat = Err e /\ o = task_fail error_text e) \/
   (exists rs ms, answers (i + used)%nat = Ok rs /\ mapped_messages vertex_name (parent_info m) rs = Some ms /\
      existsb failed ms = false /\ o = task_emit m ms) \/
   (unary_fails m answers (i + used)%nat = true /\
      exists s, gives_up strategy left used (i + used) s /\ o = task_give_up error_text s)).

Lemma unary_execute_spec m uanswers n rc i :
  printable m -> controller_ok rc -> attempts_end (unary_fails m uanswers) n i (attempts_left rc) ->
  exists o, unary_execute powi random_factor vertex_name error_text cancelled (S n) m uanswers rc i = Some o /\
    unary_done (rc_strategy rc) (attempts_left rc) i m uanswers o.
Proof.
  intros Hm. revert rc i. induction n as [n IH] using lt_wf_ind. intros rc i Hrc Hend. cbn [unary_execute].
  assert (Hnow : forall o, ((exists e, uanswers i = Err e /\ o = task_fail error_text e) \/
    (exists rs ms, uanswers i = Ok rs /\ mapped_messages vertex_name (parent_info m) rs = Some ms /\ existsb failed ms = false /\ o = task_emit m ms) \/
    (unary_fails m uanswers i = true /\ exists s, gives_up (rc_strategy rc) (attempts_left rc) 0 i s /\ o = task_give_up error_text s)) ->
    unary_done (rc_strategy rc) (attempts_left rc) i m uanswers o).
  { intros o Ho. exists 0%nat. rewrite Nat.add_0_r. split; [intros j Hj; lia|done]. }
  destruct (uanswers i) as [rs|e] eqn:Ea; [|eexists; split; [done|]; apply Hnow; left; by eexists].
  destruct (mapped_some m rs Hm) as [ms Ems]. rewrite Ems. cbn [mbind option_bind].
  destruct (existsb failed ms) eqn:Ef; [|eexists; split; [done|]; apply Hnow; right; left; by exists rs, ms].
  assert (Hfails : unary_fails m uanswers i = true) by (unfold unary_fails; by rewrite Ea, Ems).
  destruct (failed_attempt _ _ _ _ Hrc Hend Hfails) as (s & rc' & Hs & Hcase). rewrite Hs. cbn [mbind option_bind].
  destruct Hcase as [Hg|(-> & Hrc' & Hst & Hl & n' & -> & Hend')].
  - destruct s; try done; (eexists; split; [done|]; apply Hnow; right; right; split; [done|]; eexists; split; [exact Hg|done]).
  - destruct (IH n' ltac:(lia) rc' (S i) Hrc' Hend') as (o & Ho & used & Hb & Hlast). exists o. split; [done|].
    exists (S used). rewrite Nat.add_succ_r. rewrite Nat.add_succ_l in Hlast. rewrite Hst in Hlast. split.
    + intros j Hj. destruct (decide (j = i)) as [->|]; [done|]. apply Hb. lia.
    + destruct Hlast as [?|[?|(Hf & s & Hg & ->)]]; [by left|by right; left|]. right. right. split; [done|].
      exists s. split; [|done]. by eapply gives_up_later.
Qed.

Definition stream_fails (m : Message) (answers : nat -> list (Result (list MapResult))) (i : nat) : bool :=
  match stream_items vertex_name (parent_info m) (answers i) with Some (_, SeFailed) => true | _ => false end.

(** The messages a streaming task hands on in attempt [j]: up to its first failed message, if any. *)
Definition stream_out (m : Message) (answers : nat -> list (Result (list MapResult))) (j : nat) : list Message :=
  match stream_items vertex_name (parent_info m) (answers j) with Some (ms, _) => ms | None => [] end.

(** The outcome of a streaming task, as for [unary_done]. The messages of an attempt are handed on before
    it is known to fail: the output is that of all the attempts, the failed ones included, in order. *)
Definition stream_done (strategy : option OnFailureStrategy) (left : option nat) (i : nat) (m : Message)
    (answers : nat -> list (Result (list MapResult))) (o : TaskOut) : Prop :=
  exists used, (forall j, (i <= j < i + used)%nat -> stream_fails m answers j = true) /\
  to_out o = concat (stream_out m answers <$> seq i (S used)) /\
  ((exists ms e, stream_items vertex_name (parent_info m) (answers (i + used)%nat) = Some (ms, SeError e) /\
      to_end o = LFail (error_text e) None /\ to_error o = Some e) \/
   ((exists ms, stream_items vertex_name (parent_info m) (answers (i + used)%nat) = Some (ms, SeDone)) /\
      to_end o = LSuccess /\ to_error o = None) \/
   (stream_fails m answers (i + used)%nat = true /\ exists s, gives_up strategy left used (i + used) s /\
      to_end o = to_end (task_give_up error_text s) /\ to_error o = to_error (task_give_up error_text s))).

Lemma stream_results_some p rs : is_Some (offset_to_string (pi_offset p)) ->
  exists ms p' f, stream_results vertex_name p rs = Some (ms, p', f) /\ pi_offset p' = pi_offset p.
Proof.
  revert p. induction rs as [|r rs IH]; intros p [o Ho]; cbn [stream_results]; [by eexists _, _, _|].
  unfold user_defined_message, result_offset. rewrite Ho.
  match goal with |- context [if failed ?m then _ else _] => destruct (failed m) end; [by eexists _, _, _|]. destruct (IH (set_current_index p (as_i32 (pi_current_index p + 1)))) as (ms & p' & f & -> & Hp); [by exists o|].
  by eexists _, _, _.
Qed.
Lemma stream_items_some p items : is_Some (offset_to_string (pi_offset p)) -> is_Some (stream_items vertex_name p items).
Proof.
  revert p. induction items as [|[rs|e] items IH]; intros p Hp; cbn; [by eexists| |by eexists].
  destruct (stream_results_some p rs Hp) as (ms & p' & f & -> & Hp'). cbn. destruct f; [by eexists|].
  destruct (IH p') as [[ms' e] ->]; [by rewrite Hp'|]. by eexists.
Qed.

Lemma stream_execute_spec m sanswers n rc i :
  printable m -> controller_ok rc -> attempts_end (stream_fails m sanswers) n i (attempts_left rc) ->
  exists o, stream_execute powi random_factor vertex_name error_text cancelled (S n) m sanswers rc i = Some o /\
    stream_done (rc_strategy rc) (attempts_left rc) i m sanswers o.
Proof.
  intros Hm. revert rc i. induction n as [n IH] using lt_wf_ind. intros rc i Hrc Hend. cbn [stream_execute].
  destruct (stream_items_some (parent_info m) (sanswers i) Hm) as [[ms e] Ei]. rewrite Ei. cbn [mbind option_bind].
  assert (Hso : stream_out m sanswers i = ms) by (unfold stream_out; by rewrite Ei).
  assert (Hone : ms ++ [] = concat (stream_out m sanswers <$> seq i 1)) by (cbn; by rewrite Hso).
  destruct e as [| |e].
  - eexists. split; [done|]. exists 0%nat. rewrite Nat.add_0_r. split; [intros j Hj; lia|]. split; [exact Hone|]. right. left. eauto.
  - assert (Hfails : stream_fails m sanswers i = true) by (unfold stream_fails; by rewrite Ei).
    destruct (failed_attempt _ _ _ _ Hrc Hend Hfails) as (s & rc' & Hs & Hcase). rewrite Hs. cbn [mbind option_bind].
    destruct Hcase as [Hg|(-> & Hrc' & Hst & Hl & n' & -> & Hend')].
    + assert (Hout : to_out (task_give_up error_text s) = []) by (by destruct s).
      assert (Hd : stream_done (rc_strategy rc) (attempts_left rc) i m sanswers
        (task_prefix (TRefresh (m_offset m) :: (append_op <$> ms)) ms (task_give_up error_text s))).
      { exists 0%nat. rewrite Nat.add_0_r. split; [intros j Hj; lia|]. split; [cbn [task_prefix to_out]; by rewrite Hout|].
        right. right. split; [done|]. by exists s. }
      destruct s; try done; by eexists.
    + destruct (IH n' ltac:(lia) rc' (S i) Hrc' Hend') as (o & -> & used & Hb & Hout & Hlast). eexists. split; [done|].
      exists (S used). rewrite Nat.add_succ_r. rewrite Nat.add_succ_l in Hlast. split_and!.
      * intros j Hj. destruct (decide (j = i)) as [->|]; [done|]. apply Hb. lia.
      * cbn [task_prefix to_out]. rewrite Hout. change (seq i (S (S used))) with (i :: seq (S i) (S used)). by rewrite fmap_cons, <- Hso.
      * cbn [task_prefix to_end to_error]. rewrite Hst in Hlast.
        destruct Hlast as [?|[?|(Hf & s & Hg & ?)]]; [by left|by right; left|]. right. right. split; [done|].
        exists s. split; [|done]. by eapply gives_up_later.
  - eexists. split; [done|]. exists 0%nat. rewrite Nat.add_0_r. split; [intros j Hj; lia|]. split; [exact Hone|]. left. eauto.
Qed.
End Proofs.

(** * The component *)

(** A task: at work, or with an error to send to the loop. It holds a permit. *)
Inductive MapTask := MRunning (h : MessageHandle) | MReporting (e : Error).

Inductive MapLoop :=
  | MSelect                          (* waits for an error or a message *)
  | MPermit (h : MessageHandle)      (* waits for a permit *)
  | MDrain                           (* the input has ended; the receiver of the errors is gone *)
  | MDone (r : Result unit).

Record MapState := mkMapState {
  mh_loop : MapLoop;
  mh_final_result : Result unit;
  mh_shutting_down : bool;
  mh_cancelled : bool;                   (* the token of the upstream *)
  mh_errors : list Error;                (* in the channel *)
  mh_tasks : list MapTask;
  mh_read : list MessageHandle;          (* taken from the input *)
  mh_verdicts : Verdicts;
  mh_out : list (nat * Message);
  mh_lost : list Error                   (* sent when the receiver was gone *)
}.

Definition map_new : MapState := mkMapState MSelect (Ok tt) false false [] [] [] [] [] [].

Section Component.
Context (error_text : Error -> string) (concurrency : nat).
(** What a task may do with its message. *)
Context (outcome : Message -> TaskOut -> Prop).

Definition is_grpc (e : Error) : bool := match e with EGrpc _ => true | _ => false end.

(** An error arrives. *)
Definition on_error (st : MapState) (e : Error) (es : list Error) : MapState :=
  match mh_final_result st with
  | Ok _ => mkMapState (mh_loop st) (Err e) true true es (mh_tasks st) (mh_read st) (mh_verdicts st) (mh_out st) (mh_lost st)
  | Err _ =>
      mkMapState (mh_loop st) (if is_grpc e then Err e else mh_final_result st) (mh_shutting_down st) (mh_cancelled st) es
        (mh_tasks st) (mh_read st) (mh_verdicts st) (mh_out st) (mh_lost st)
  end.

(** A message arrives: it is failed if the component is shutting down. [None] is a panic. *)
Definition on_message (st : MapState) (h : MessageHandle) : option MapState :=
  let fails e := mkMapState MSelect (mh_final_result st) true (mh_cancelled st) (mh_errors st) (mh_tasks st) (mh_read st ++ [h])
                   (mh_verdicts st ++ [(h_key h, LFail (error_text e) None)]) (mh_out st) (mh_lost st) in
  if mh_shutting_down st then match mh_final_result st with Err e => Some (fails e) | Ok _ => None end
  else Some (mkMapState (MPermit h) (mh_final_result st) false (mh_cancelled st) (mh_errors st) (mh_tasks st) (mh_read st ++ [h])
               (mh_verdicts st) (mh_out st) (mh_lost st)).

Definition m_loop (st : MapState) (l : MapLoop) (ts : list MapTask) (es lost : list Error) : MapState :=
  mkMapState l (mh_final_result st) (mh_shutting_down st) (mh_cancelled st) es ts (mh_read st) (mh_verdicts st) (mh_out st) lost.

(** The handle of a task ends; with an error the task goes on to report it. *)
Definition on_task (st : MapState) (i : nat) (h : MessageHandle) (o : TaskOut) : MapState :=
  mkMapState (mh_loop st) (mh_final_result st) (mh_shutting_down st) (mh_cancelled st) (mh_errors st)
    (match to_error o with Some e => <[i := MReporting e]> (mh_tasks st) | None => base.delete i (mh_tasks st) end)
    (mh_read st) (mh_verdicts st ++ [(h_key h, to_end o)]) (mh_out st ++ ((fun m => (h_key h, m)) <$> to_out o)) (mh_lost st).

Definition receiving (l : MapLoop) : bool := match l with MSelect | MPermit _ => true | _ => false end.

Inductive mstep : MapState -> MapState -> Prop :=
  | ms_error st e es : mh_loop st = MSelect -> mh_errors st = e :: es -> mstep st (on_error st e es)
  | ms_message st h st' : mh_loop st = MSelect -> mh_errors st = [] -> on_message st h = Some st' -> mstep st st'
  | ms_permit st h : mh_loop st = MPermit h -> (length (mh_tasks st) < concurrency)%nat ->
      mstep st (m_loop st MSelect (mh_tasks st ++ [MRunning h]) (mh_errors st) (mh_lost st))
  | ms_input_end st : mh_loop st = MSelect -> mh_errors st = [] -> mstep st (m_loop st MDrain (mh_tasks st) [] (mh_lost st))
  | ms_task st i h o : mh_tasks st !! i = Some (MRunning h) -> outcome (h_message h) o -> mstep st (on_task st i h o)
  | ms_report st i e : mh_tasks st !! i = Some (MReporting e) -> receiving (mh_loop st) = true -> (length (mh_errors st) < concurrency)%nat ->
      mstep st (m_loop st (mh_loop st) (base.delete i (mh_tasks st)) (mh_errors st ++ [e]) (mh_lost st))
  | ms_report_lost st i e : mh_tasks st !! i = Some (MReporting e) -> receiving (mh_loop st) = false ->
      mstep st (m_loop st (mh_loop st) (base.delete i (mh_tasks st)) (mh_errors st) (mh_lost st ++ [e]))
  | ms_drained st : mh_loop st = MDrain -> mh_tasks st = [] -> mstep st (m_loop st (MDone (mh_final_result st)) [] [] (mh_lost st)).

Definition map_reachable (st : MapState) : Prop := rtc mstep map_new st.

(** ** The invariant *)

Definition task_key (t : MapTask) : list nat := match t with MRunning h => [h_key h] | MReporting _ => [] end.
Definition loop_key (l : MapLoop) : list nat := match l with MPermit h => [h_key h] | _ => [] end.
Definition open_keys (st : MapState) : list nat := concat (task_key <$> mh_tasks st) ++ loop_key (mh_loop st).

Record map_inv (st : MapState) : Prop := mkMapInv {
  mi_tasks : (length (mh_tasks st) <= concurrency)%nat;
  mi_keys : (mh_verdicts st).*1 ++ open_keys st ≡ₚ h_key <$> mh_read st;
  mi_tasks_read : forall i h, mh_tasks st !! i = Some (MRunning h) -> h ∈ mh_read st;
  mi_loop_read : forall h, mh_loop st = MPermit h -> h ∈ mh_read st;
  mi_shut : if mh_shutting_down st then (exists e, mh_final_result st = Err e) /\ mh_cancelled st = true else mh_final_result st = Ok tt;
  mi_permit : forall h, mh_loop st = MPermit h -> mh_shutting_down st = false /\ (length (mh_errors st) + length (mh_tasks st) <= concurrency)%nat;
  mi_success : forall k, (k, LSuccess) ∈ mh_verdicts st -> exists h o, h ∈ mh_read st /\ h_key h = k /\ outcome (h_message h) o /\ to_end o = LSuccess;
  mi_out : forall k m, (k, m) ∈ mh_out st -> exists h o, h ∈ mh_read st /\ h_key h = k /\ outcome (h_message h) o /\ m ∈ to_out o;
  mi_done : match mh_loop st with MDone r => r = mh_final_result st /\ mh_tasks st = [] | _ => True end
}.

Lemma map_new_inv : map_inv map_new.
Proof.
  split; cbn; try done; [lia|by intros k Hx%elem_of_nil|by intros k m Hx%elem_of_nil].
Qed.

(** The loop and the channel change, and no task ends its handle. *)
Lemma map_loop_inv st l ts es lost :
  map_inv st -> (length ts <= concurrency)%nat -> concat (task_key <$> ts) ++ loop_key l ≡ₚ open_keys st ->
  (forall i h, ts !! i = Some (MRunning h) -> h ∈ mh_read st) -> (forall h, l = MPermit h -> mh_loop st = l /\ (length es + length ts <= concurrency)%nat) ->
  match l with MDone r => r = mh_final_result st /\ ts = [] | _ => True end -> map_inv (m_loop st l ts es lost).
Proof.
  intros [Ht Hk Hr Hl Hs Hp Hsu Ho Hd] Hlen Hkeys Hread Hper Hdone. split; try done.
  - unfold open_keys. cbn. by rewrite Hkeys.
  - intros h Hx. cbn in Hx. destruct (Hper h Hx) as [Hlp _]. apply Hl. congruence.
  - intros h Hx. cbn in Hx |- *. destruct (Hper h Hx) as [Hlp ?]. split; [|done]. apply (Hp h). congruence.
Qed.

Lemma concat_tasks_delete ts i t : ts !! i = Some t -> concat (task_key <$> ts) ≡ₚ task_key t ++ concat (task_key <$> base.delete i ts).
Proof.
  intros Hi. destruct (list_elem_of_split_length _ _ _ Hi) as (l1 & l2 & -> & ->). rewrite delete_middle, !fmap_app, !concat_app. cbn.
  solve_Permutation.
Qed.

Lemma task_deleted st i : map_inv st ->
  (length (base.delete i (mh_tasks st)) <= length (mh_tasks st))%nat /\
  (forall j h, base.delete i (mh_tasks st) !! j = Some (MRunning h) -> h ∈ mh_read st).
Proof.
  intros Hi. split.
  - apply sublist_length, sublist_delete.
  - intros j h Hj. assert (MRunning h ∈ base.delete i (mh_tasks st)) as Hin by (by eapply list_elem_of_lookup_2).
    assert (MRunning h ∈ mh_tasks st) as Hin'.
    { eapply sublist_subseteq; [apply sublist_delete|exact Hin]. }
    apply list_elem_of_lookup in Hin' as [j' Hj']. by eapply (mi_tasks_read _ Hi).
Qed.

Lemma on_task_inv st i h o : map_inv st -> mh_tasks st !! i = Some (MRunning h) -> outcome (h_message h) o -> map_inv (on_task st i h o).
Proof.
  intros Hi Hti Hoc. destruct (task_deleted st i Hi) as [Hdl Hdr]. pose proof Hi as [Ht Hk Hr Hl Hs Hp Hsu Ho Hd].
  assert (Hread : h ∈ mh_read st) by (by eapply Hr).
  set (ts := match to_error o with Some e => <[i := MReporting e]> (mh_tasks st) | None => base.delete i (mh_tasks st) end).
  assert (Hlen : (length ts <= length (mh_tasks st))%nat) by (unfold ts; destruct (to_error o); [by rewrite length_insert|done]).
  assert (Hkeys : concat (task_key <$> mh_tasks st) ≡ₚ h_key h :: concat (task_key <$> ts)).
  { rewrite (concat_tasks_delete _ _ _ Hti). cbn. f_equiv. unfold ts. destruct (to_error o); [|done].
    destruct (list_elem_of_split_length _ _ _ Hti) as (l1 & l2 & Ets & Ei). rewrite Ets, Ei, delete_middle.
    rewrite insert_app_r_alt, Nat.sub_diag by lia. cbn. by rewrite !fmap_app, !concat_app. }
  split; cbn [on_task mh_loop mh_tasks mh_verdicts mh_read mh_final_result mh_shutting_down mh_cancelled mh_errors mh_out]; fold ts; try done.
  - lia.
  - rewrite fmap_app, <- Hk. unfold open_keys. cbn. fold ts. rewrite Hkeys. cbn. solve_Permutation.
  - intros j h' Hj. unfold ts in Hj. destruct (to_error o); [|by eapply Hdr].
    apply list_lookup_insert_Some in Hj as [(_ & [=] & _)|[_ Hj]]. by eapply Hr.
  - intros h' Hx. destruct (Hp h' Hx). split; [done|]. lia.
  - intros k [?|Hx%list_elem_of_singleton]%elem_of_app; [by apply Hsu|]. injection Hx as -> Hend. by exists h, o.
  - intros k m [?|Hx]%elem_of_app; [by apply Ho|]. apply list_elem_of_fmap in Hx as (m' & [= -> ->] & Hm). by exists h, o.
  - destruct (mh_loop st); try done. destruct Hd as [_ Hd]. by rewrite Hd in Hti.
Qed.

Lemma mstep_inv st st' : mstep st st' -> map_inv st -> map_inv st'.
Proof.
  intros Hst Hi. destruct Hst as [st e es El Ee|st h st' El Ee Hm|st h El Hlt|st El Ee|st i h o Hti Hoc|st i e Hti Hrc Hlt|st i e Hti Hrc|st El Ets].
  - destruct Hi as [Ht Hk Hr Hl Hs Hp Hsu Ho Hd]. unfold on_error. destruct (mh_final_result st) as [[]|e'] eqn:Ef.
    + split; try done; cbn; [|by intros h Hx; rewrite El in Hx|by rewrite El]. split; [by exists e|done].
    + split; try done; cbn; [|by intros h Hx; rewrite El in Hx|by rewrite El]. destruct (mh_shutting_down st); [|done].
      split; [|by destruct Hs]. destruct (is_grpc e); eauto.
  - destruct Hi as [Ht Hk Hr Hl Hs Hp Hsu Ho Hd].
    assert (Hmono : forall h', h' ∈ mh_read st -> h' ∈ mh_read st ++ [h]) by (intros; apply elem_of_app; by left).
    assert (Hop : open_keys st = concat (task_key <$> mh_tasks st)) by (unfold open_keys; rewrite El; by rewrite app_nil_r).
    unfold on_message in Hm. destruct (mh_shutting_down st) eqn:Esh.
    + destruct Hs as [[e Hf] Hc]. rewrite Hf in Hm. injection Hm as <-. split; cbn; try done.
      * unfold open_keys. cbn. rewrite Hop in Hk. rewrite app_nil_r, !fmap_app, <- Hk. cbn. solve_Permutation.
      * intros i h' Hx. apply Hmono. by eapply Hr.
      * split; [by exists e|done].
      * intros k [Hx|Hx%list_elem_of_singleton]%elem_of_app; [|done]. destruct (Hsu k Hx) as (h0 & o & ? & ?). exists h0, o. by split; [apply Hmono|].
      * intros k m Hx. destruct (Ho k m Hx) as (h0 & o & ? & ?). exists h0, o. by split; [apply Hmono|].
    + injection Hm as <-. split; cbn; try done.
      * unfold open_keys. cbn. rewrite Hop in Hk. rewrite fmap_app, <- Hk. cbn. solve_Permutation.
      * intros i h' Hx. apply Hmono. by eapply Hr.
      * intros h' [= <-]. apply elem_of_app. right. by left.
      * intros h' [= <-]. rewrite Ee. cbn. split; [done|lia].
      * intros k Hx. destruct (Hsu k Hx) as (h0 & o & ? & ?). exists h0, o. by split; [apply Hmono|].
      * intros k m Hx. destruct (Ho k m Hx) as (h0 & o & ? & ?). exists h0, o. by split; [apply Hmono|].
  - apply map_loop_inv; try done.
    + rewrite length_app. cbn. lia.
    + unfold open_keys. rewrite El, fmap_app, concat_app. cbn. by rewrite !app_nil_r.
    + intros i h' [Hx|[_ Hx]]%lookup_app_Some; [by eapply (mi_tasks_read _ Hi)|]. apply list_lookup_singleton_Some in Hx as [_ [= <-]].
      by apply (mi_loop_read _ Hi).
  - apply map_loop_inv; try done; [apply Hi|unfold open_keys; by rewrite El|apply Hi].
  - by apply on_task_inv.
  - destruct (task_deleted st i Hi) as [Hdl Hdr]. apply map_loop_inv; try done.
    + pose proof (mi_tasks _ Hi). lia.
    + unfold open_keys. by rewrite (concat_tasks_delete _ _ _ Hti).
    + intros h' El. split; [done|]. destruct (mi_permit _ Hi h' El). rewrite length_app. cbn. apply lookup_lt_Some in Hti as Hlt'.
      rewrite length_delete by (by eexists). lia.
    + pose proof (mi_done _ Hi). destruct (mh_loop st); try done.
  - destruct (task_deleted st i Hi) as [Hdl Hdr]. apply map_loop_inv; try done.
    + pose proof (mi_tasks _ Hi). lia.
    + unfold open_keys. by rewrite (concat_tasks_delete _ _ _ Hti).
    + intros h' El. by rewrite El in Hrc.
    + pose proof (mi_done _ Hi) as Hd. destruct (mh_loop st); try done. destruct Hd as [? Hd]. by rewrite Hd in Hti.
  - apply map_loop_inv; try done; [cbn; lia|unfold open_keys; by rewrite El, Ets].
Qed.

Lemma map_reachable_inv st : map_reachable st -> map_inv st.
Proof.
  intros Hr. unfold map_reachable in Hr. pose proof map_new_inv as Hi. induction Hr as [|? ? ? Hs _ IH]; [done|]. by apply IH, (mstep_inv _ _ Hs).
Qed.
End Component.

(** * Properties *)

(** C22: a batch of messages given to a map function settles, if the retries are bounded or an
    attempt comes in which no message fails: every handle ends exactly once; messages of a handle are
    handed on only if it is marked successful, and then they are exactly those of the first answer to
    its message in which none is failed; or none at all, if the strategy is to drop and the message
    has failed in every one of the attempts, as many as the retries allow; a handle is dropped only in
    a batch that ends with an error. *)
Theorem batch_map_verdicts (powi : F64 -> Z -> F64) (random_factor : Z -> F64) (vertex_name : string) (error_text : Error -> string)
    (cancelled : nat -> bool) (answers : nat -> list Message -> list (Result (list MapResult))) (cfg : option RetryConfig)
    (hs : list MessageHandle) (n : nat) :
  answers_ok answers -> config_ok cfg -> Forall (fun h => printable (h_message h)) hs -> NoDup (h_key <$> hs) ->
  passes_end vertex_name error_text answers n 0 (attempts_left (retry_controller_new cfg)) ->
  exists o, batch_execute powi random_factor vertex_name error_text cancelled (S n) hs answers (retry_controller_new cfg) 0 = Some o /\
    (bo_verdicts o).*1 ≡ₚ h_key <$> hs /\
    (forall k, k ∈ (bo_out o).*1 -> (k, LSuccess) ∈ bo_verdicts o) /\
    (forall h, h ∈ hs -> (h_key h, LSuccess) ∈ bo_verdicts o ->
       (exists k, (forall j, (j < k)%nat -> failed_at vertex_name answers j h) /\
          passed_at vertex_name answers k h (outs_of (h_key h) (bo_out o))) \/
       (sink_retry_on_fail_strategy <$> cfg = Some OFDrop /\ outs_of (h_key h) (bo_out o) = [] /\
          exists retries, Z.of_nat <$> Some retries = sink_max_retry_attempts <$> cfg /\
            forall j, (j <= retries)%nat -> failed_at vertex_name answers j h)) /\
    ((exists k, (k, LDrop) ∈ bo_verdicts o) -> exists e, bo_result o = Err e).
Proof.
  intros Ha Hcfg Hpr Hnd Hn.
  destruct (batch_execute_spec powi random_factor vertex_name error_text cancelled answers n hs (retry_controller_new cfg) 0 Ha
    (controller_new_ok cfg Hcfg) Hpr Hnd Hn) as (o & Ho & [[Hk _ Hout Hs] Hd]).
  exists o. cbn in Hk. rewrite app_nil_r in Hk. split_and!; try done.
  intros h Hin Hv. destruct (Hs h Hin Hv) as [(k & _ & Hb & Hp)|(Hst & Ho' & r & Hr & Hb)].
  - left. exists k. split; [|done]. intros j Hj. apply Hb. lia.
  - right. split_and!; [done..|]. exists r. split; [|intros j Hj; apply Hb; lia].
    destruct cfg as [rc|]; [|done]. rewrite attempts_left_new in Hr. injection Hr as <-. cbn. f_equal. destruct Hcfg. lia.
Qed.

(** C40: a message given to a unary or a streaming map function settles, if the retries are
    bounded or an attempt does not fail; every attempt before the last has failed. A unary task
    succeeds with exactly the messages of its last attempt, none of them failed; or it hands on
    nothing and reports the error of the function; or the last attempt has failed too and the task
    gives up: the shutdown came, or all the retries are used up and the strategy is to drop the
    message, which counts as success, or to fail it. A streaming task ends in the same ways, but hands on
    messages as they come: its output is that of all its attempts in order, the failed ones included,
    also when it succeeds. *)
Theorem map_task_settles (powi : F64 -> Z -> F64) (random_factor : Z -> F64) (vertex_name : string) (error_text : Error -> string)
    (cancelled : nat -> bool) (cfg : option RetryConfig) (m : Message) (n : nat) :
  config_ok cfg -> printable m ->
  let retries := (fun c => Z.to_nat (sink_max_retry_attempts c)) <$> cfg in
  (forall answers, attempts_end (unary_fails vertex_name m answers) n 0 retries ->
     exists o, unary_execute powi random_factor vertex_name error_text cancelled (S n) m answers (retry_controller_new cfg) 0 = Some o /\
       unary_done vertex_name error_text cancelled (sink_retry_on_fail_strategy <$> cfg) retries 0 m answers o) /\
  (forall answers, attempts_end (stream_fails vertex_name m answers) n 0 retries ->
     exists o, stream_execute powi random_factor vertex_name error_text cancelled (S n) m answers (retry_controller_new cfg) 0 = Some o /\
       stream_done vertex_name error_text cancelled (sink_retry_on_fail_strategy <$> cfg) retries 0 m answers o).
Proof.
  intros Hcfg Hm retries. pose proof (controller_new_ok cfg Hcfg) as Hrc.
  assert (Hr : retries = attempts_left (retry_controller_new cfg)) by (destruct cfg; [by rewrite attempts_left_new|done]).
  rewrite Hr. split; intros answers Hend.
  - by apply unary_execute_spec.
  - by apply stream_execute_spec.
Qed.

(** C21: the component that runs the tasks of a unary or a streaming mapper, in every interleaving:
    at most [concurrency] tasks run; every message read has ended, is with a task, or waits for a
    permit, and is one of these once; one that is marked successful, and every message handed on,
    is the outcome of a task; a task with an error can report it while the loop waits for a permit,
    so that the loop does not wait for ever; after an error was received the upstream is cancelled
    and the result is an error; and a component that is done leaves no message open. *)
Theorem map_component (error_text : Error -> string) (concurrency : nat) (outcome : Message -> TaskOut -> Prop) (st : MapState) :
  map_reachable error_text concurrency outcome st ->
  (length (mh_tasks st) <= concurrency)%nat /\
  (mh_verdicts st).*1 ++ open_keys st ≡ₚ h_key <$> mh_read st /\
  (forall k, (k, LSuccess) ∈ mh_verdicts st -> exists h o, h ∈ mh_read st /\ h_key h = k /\ outcome (h_message h) o /\ to_end o = LSuccess) /\
  (forall k m, (k, m) ∈ mh_out st -> exists h o, h ∈ mh_read st /\ h_key h = k /\ outcome (h_message h) o /\ m ∈ to_out o) /\
  (forall h i e, mh_loop st = MPermit h -> mh_tasks st !! i = Some (MReporting e) -> (length (mh_errors st) < concurrency)%nat) /\
  (mh_shutting_down st = true -> (exists e, mh_final_result st = Err e) /\ mh_cancelled st = true) /\
  (forall r, mh_loop st = MDone r -> r = mh_final_result st /\ (mh_verdicts st).*1 ≡ₚ h_key <$> mh_read st).
Proof.
  intros Hi%map_reachable_inv. destruct Hi as [Ht Hk Hr Hl Hs Hp Hsu Ho Hd]. split_and!; try done.
  - intros h i e El Hti. destruct (Hp h El) as [_ Hlen]. apply lookup_lt_Some in Hti. lia.
  - intros Hx. by rewrite Hx in Hs.
  - intros r El. rewrite El in Hd. destruct Hd as [-> Hts]. split; [done|]. rewrite <- Hk. unfold open_keys. rewrite El, Hts. by rewrite app_nil_r.
Qed.

(** * Runs on concrete inputs *)

Definition ex_text (_ : Error) : string := "error".
Definition ex_draw (_ : Z) : F64 := f64_of_Z 1.
Definition ex_cfg (s : OnFailureStrategy) : RetryConfig := mkRetryConfig 1 1 (f64_of_Z 1) (S754_zero false) 10 s.
Definition ex_handle (k : nat) : MessageHandle := mkHandle k (example_inflight_message (Z.of_nat k) 0 700 100).
Definition ex_ok (v : string) : MapResult := mkMapResult [] [] v None None.
Definition ex_failed : MapResult := mkMapResult [] [FAIL] "" None None.

(** The function fails every message with the value "v" in the first attempt of a batch of two. *)
Definition ex_batch_answers (i : nat) (ms : list Message) : list (Result (list MapResult)) :=
  (fun m => Ok (if (i =? 0)%nat && bool_decide (m_offset m = OInt (mkIntOffset 1 0)) then [ex_failed] else [ex_ok "a"; ex_ok "b"])) <$> ms.

Lemma batch_map_verdicts_witness :
  exists o, batch_execute powi_iter ex_draw "map" ex_text (fun _ => false) 2 [ex_handle 0; ex_handle 1] ex_batch_answers
      (retry_controller_new (Some (ex_cfg OFDrop))) 0 = Some o /\
    bo_verdicts o = [(0%nat, LSuccess); (1%nat, LSuccess)] /\ (bo_verdicts o).*1 ≡ₚ h_key <$> [ex_handle 0; ex_handle 1].
Proof.
  edestruct (batch_map_verdicts powi_iter ex_draw "map" ex_text (fun _ => false) ex_batch_answers (Some (ex_cfg OFDrop)) [ex_handle 0; ex_handle 1] 1)
    as (o & Ho & Hk & _).
  - intros i ms. right. eexists ((fun m => if (i =? 0)%nat && bool_decide (m_offset m = OInt (mkIntOffset 1 0)) then [ex_failed] else [ex_ok "a"; ex_ok "b"]) <$> ms).
    split; [by rewrite <- list_fmap_compose|by rewrite length_fmap].
  - by split.
  - repeat constructor; vm_compute; eauto.
  - apply (bool_decide_unpack _). vm_compute. exact I.
  - vm_compute. lia.
  - exists o. split; [exact Ho|]. split; [|exact Hk]. vm_compute in Ho. by injection Ho as <-.
Defined.

Definition ex_unary_answers (i : nat) : Result (list MapResult) := Ok [if (i =? 0)%nat then ex_failed else ex_ok "a"].

Lemma map_task_settles_witness :
  exists o, unary_execute powi_iter ex_draw "map" ex_text (fun _ => false) 2 (h_message (ex_handle 0)) ex_unary_answers
      (retry_controller_new (Some (ex_cfg OFRetry))) 0 = Some o /\ to_end o = LSuccess /\ length (to_out o) = 1%nat.
Proof.
  destruct (map_task_settles powi_iter ex_draw "map" ex_text (fun _ => false) (Some (ex_cfg OFRetry)) (h_message (ex_handle 0)) 1) as [Hu _].
  - by split.
  - vm_compute. eauto.
  - destruct (Hu ex_unary_answers) as (o & Ho & _); [vm_compute; lia|]. exists o. split; [exact Ho|]. vm_compute in Ho. by injection Ho as <-.
Defined.

(** A component with two messages: one is mapped, the other fails; a third is not accepted. *)
Definition ex_outcome (m : Message) (o : TaskOut) : Prop :=
  unary_execute powi_iter ex_draw "map" ex_text (fun _ => false) 1 m
    (fun _ => if bool_decide (m_offset m = OInt (mkIntOffset 1 0)) then Err (EGrpc "down") else Ok [ex_ok "a"]) (retry_controller_new None) 0 = Some o.
Definition ex_run (m : Message) : TaskOut :=
  default (task_fail ex_text exhausted_error) (unary_execute powi_iter ex_draw "map" ex_text (fun _ => false) 1 m
    (fun _ => if bool_decide (m_offset m = OInt (mkIntOffset 1 0)) then Err (EGrpc "down") else Ok [ex_ok "a"]) (retry_controller_new None) 0).

Definition ex_read (st : MapState) (h : MessageHandle) : MapState := default st (on_message ex_text st h).
Definition ex_spawn (st : MapState) (h : MessageHandle) : MapState := m_loop st MSelect (mh_tasks st ++ [MRunning h]) (mh_errors st) (mh_lost st).
Definition ex_trace : list MapState :=
  let st1 := ex_read map_new (ex_handle 0) in
  let st2 := ex_spawn st1 (ex_handle 0) in
  let st3 := ex_read st2 (ex_handle 1) in
  let st4 := ex_spawn st3 (ex_handle 1) in
  let st5 := on_task st4 1 (ex_handle 1) (ex_run (h_message (ex_handle 1))) in
  let st6 := m_loop st5 MSelect [MRunning (ex_handle 0)] [EGrpc "down"] [] in
  let st7 := on_error st6 (EGrpc "down") [] in
  let st8 := ex_read st7 (ex_handle 2) in
  let st9 := on_task st8 0 (ex_handle 0) (ex_run (h_message (ex_handle 0))) in
  let st10 := m_loop st9 MDrain [] [] [] in
  [map_new; st1; st2; st3; st4; st5; st6; st7; st8; st9; st10; m_loop st10 (MDone (mh_final_result st10)) [] [] []].
Definition ex_at (i : nat) : MapState := nth i ex_trace map_new.

Lemma ex_map_step i j st' : mstep ex_text 2 ex_outcome (ex_at i) st' -> st' = ex_at j -> mstep ex_text 2 ex_outcome (ex_at i) (ex_at j).
Proof. by intros ? <-. Qed.

Lemma ex_map_reachable : map_reachable ex_text 2 ex_outcome (ex_at 11).
Proof.
  unfold map_reachable.
  apply (rtc_l _ _ (ex_at 1)); [apply (ms_message _ _ _ (ex_at 0) (ex_handle 0)); vm_compute; reflexivity|].
  apply (rtc_l _ _ (ex_at 2)); [eapply (ex_map_step 1); [apply (ms_permit _ _ _ (ex_at 1) (ex_handle 0))|]; vm_compute; (reflexivity || lia)|].
  apply (rtc_l _ _ (ex_at 3)); [apply (ms_message _ _ _ (ex_at 2) (ex_handle 1)); vm_compute; reflexivity|].
  apply (rtc_l _ _ (ex_at 4)); [eapply (ex_map_step 3); [apply (ms_permit _ _ _ (ex_at 3) (ex_handle 1))|]; vm_compute; (reflexivity || lia)|].
  apply (rtc_l _ _ (ex_at 5));
    [eapply (ex_map_step 4); [apply (ms_task _ _ _ (ex_at 4) 1 (ex_handle 1) (ex_run (h_message (ex_handle 1))))|]; vm_compute; reflexivity|].
  apply (rtc_l _ _ (ex_at 6)); [eapply (ex_map_step 5); [apply (ms_report _ _ _ (ex_at 5) 1 (EGrpc "down"))|]; vm_compute; (reflexivity || lia)|].
  apply (rtc_l _ _ (ex_at 7)); [eapply (ex_map_step 6); [apply (ms_error _ _ _ (ex_at 6) (EGrpc "down") [])|]; vm_compute; reflexivity|].
  apply (rtc_l _ _ (ex_at 8)); [apply (ms_message _ _ _ (ex_at 7) (ex_handle 2)); vm_compute; reflexivity|].
  apply (rtc_l _ _ (ex_at 9));
    [eapply (ex_map_step 8); [apply (ms_task _ _ _ (ex_at 8) 0 (ex_handle 0) (ex_run (h_message (ex_handle 0))))|]; vm_compute; reflexivity|].
  apply (rtc_l _ _ (ex_at 10)); [eapply (ex_map_step 9); [apply (ms_input_end _ _ _ (ex_at 9))|]; vm_compute; reflexivity|].
  apply rtc_once. eapply (ex_map_step 10); [apply (ms_drained _ _ _ (ex_at 10))|]; vm_compute; reflexivity.
Qed.

Lemma map_component_witness :
  mh_verdicts (ex_at 11) = [(1%nat, LFail "error" None); (2%nat, LFail "error" None); (0%nat, LSuccess)] /\
  (mh_verdicts (ex_at 11)).*1 ≡ₚ h_key <$> mh_read (ex_at 11).
Proof.
  split; [vm_compute; reflexivity|].
  refine (proj2 (proj2 (proj2 (proj2 (proj2 (proj2 (proj2 (map_component ex_text 2 ex_outcome (ex_at 11) ex_map_reachable)))))) _ _)).
  reflexivity.
Defined.

(** An error reported after the input has ended is lost: the message is failed, and the component
    ends with success. *)
Example late_error_lost : exists st, map_reachable ex_text 1 ex_outcome st /\ mh_loop st = MDone (Ok tt) /\
  mh_verdicts st = [(1%nat, LFail "error" None)] /\ mh_cancelled st = false.
Proof.
  eexists. split.
  - eapply rtc_l; [by apply (ms_message _ _ _ map_new (ex_handle 1))|].
    eapply rtc_l; [apply (ms_permit _ _ _ _ (ex_handle 1)); [reflexivity|cbn; lia]|].
    eapply rtc_l; [by apply ms_input_end|].
    eapply rtc_l; [by apply (ms_task _ _ _ _ 0 (ex_handle 1) (ex_run (h_message (ex_handle 1))))|].
    eapply rtc_l; [by apply (ms_report_lost _ _ _ _ 0 (EGrpc "down"))|].
    apply rtc_once. by apply ms_drained.
  - vm_compute. by split_and!.
Qed.
