(* ===== verification/Transformer.v ===== *)
(** The source transformer (src/rust/numaflow-core/src/transformer.rs and
    transformer/user_defined.rs): requests and responses, the client that routes the responses to
    the calls, and the transformation of a batch with retries.

    Steps of the client are those done under the lock of its table or between two awaits, and the
    test whether the receiving task has finished. Metrics and tracing are left out. *)
From Stdlib Require Import ZArith SpecFloat.
From stdpp Require Import pretty.
From S2P Require Import Prelude Clock Message Tracker Backoff SinkActor SinkWriter UdfRetry MapUdf MapClient Mapper.
Open Scope Z_scope.

(** * Requests and responses *)

Record TransformRequest := mkTransformRequest {
  tq_id : string;
  tq_keys : list string;
  tq_value : string;
  tq_event_time : option Timestamp;
  tq_watermark : option Timestamp;
  tq_headers : gmap string string;
  tq_metadata : option ProtoMetadata
}.

Record TransformResult := mkTransformResult {
  tr_keys : list string;
  tr_value : string;
  tr_event_time : option Timestamp;
  tr_tags : list string;
  tr_metadata : option ProtoMetadata;
  tr_nack_options : option NackOptions
}.

Record TParentInfo := mkTParentInfo {
  tp_offset : Offset;
  tp_is_late : bool;
  tp_headers : gmap string string;
  tp_metadata : option Metadata
}.
Definition tparent_info (m : Message) : TParentInfo := mkTParentInfo (m_offset m) (m_is_late m) (m_headers m) (m_metadata m).

Section Conversions.
Context `{Chrono} (vertex_name : string).

(** [None] is a panic: an offset that is not UTF-8, a result without event time. *)
Definition transform_request (m : Message) : option TransformRequest :=
  let? id := offset_to_string (m_offset m) in
  Some (mkTransformRequest id (m_keys m) (m_value m) (Some (prost_timestamp_from_utc (m_event_time m)))
          (prost_timestamp_from_utc <$> m_watermark m) (m_headers m) (metadata_to_proto <$> m_metadata m)).

Definition transformer_message (r : TransformResult) (p : TParentInfo) (index : Z) : option Message :=
  let? o := offset_to_string (tp_offset p) in
  let? et := utc_from_timestamp <$> tr_event_time r in
  Some (mkMessage Data (tr_keys r) (Some (tr_tags r)) (tr_value r) (tp_offset p) et None
          (mkMessageID vertex_name o index) (tp_headers p) (Some (result_metadata (tp_metadata p) (tr_metadata r)))
          (tp_is_late p) (tr_nack_options r)).

Fixpoint transformed_from (p : TParentInfo) (i : Z) (rs : list TransformResult) : option (list Message) :=
  match rs with
  | [] => Some []
  | r :: rs =>
      let? m := transformer_message r p (as_i32 i) in let? ms := transformed_from p (i + 1) rs in Some (m :: ms)
  end.
(** The messages of a response. *)
Definition transformed_messages (p : TParentInfo) (rs : list TransformResult) : option (list Message) := transformed_from p 0 rs.

(** The handshake, as of the mapper. *)
Definition create_stream (sent stream : Result unit) (first : Result (option (option bool))) : Result unit :=
  match sent with
  | Err _ => Err (ETransformer "failed to send handshake request")
  | Ok _ =>
      try! _ := stream in
      try! first := first in
      match first with
      | None => Err (ETransformer "failed to receive handshake response")
      | Some (Some true) => Ok tt
      | Some _ => Err (ETransformer "invalid handshake response")
      end
  end.
End Conversions.

(** * The client *)

(** The receiving task: at work, out of its loop after it drained the table, finished. *)
Inductive TTask := TReceiving | TDrained | TFinished.

Section Client.
#[local] Abbreviation TTable := (Table (list Message) (Result (list Message))).

(** [tc_checked]: calls that found the task unfinished and are not yet in the table. *)
Record TransformClient := mkTransformClient { tc_table : TTable; tc_checked : list string; tc_task : TTask }.
Definition client_new : TransformClient := mkTransformClient (mkTable ∅ []) [] TReceiving.
Definition tc_with (st : TransformClient) (t : TTable) : TransformClient := mkTransformClient t (tc_checked st) (tc_task st).

Inductive TEvent :=
  | TCheck (id : string)                             (* [transform] tests [is_finished] *)
  | TInsertCall (j : nat)                            (* [queue_request]: the table *)
  | TQueue (k : nat) (ok : bool)                     (* [queue_request]: the send *)
  | TAwait (k : nat)                                 (* the caller has its answer *)
  | TCancel (k : nat)                                (* or the hard shutdown *)
  | TResponse (id : string) (ms : list Message)
  | TStreamEnd (e : Error)                           (* the end of the stream, or an error *)
  | TFinish.

Definition client_exec (st : TransformClient) (ev : TEvent) : option TransformClient :=
  let t := tc_table st in
  match ev with
  | TCheck id =>
      Some (match tc_task st with
            | TFinished => tc_with st (add_call t (mkCall id true [Err (EGrpc "source transformer stream closed")] false None))
            | _ => mkTransformClient t (tc_checked st ++ [id]) (tc_task st)
            end)
  | TInsertCall j =>
      let? id := tc_checked st !! j in
      Some (mkTransformClient (insert_sender (add_call t (mkCall id false [] true None)) id (length (t_calls t)))
              (base.delete j (tc_checked st)) (tc_task st))
  | TQueue k ok =>
      let? c := t_calls t !! k in
      if c_queued c then None
      else
        let t := on_call t k set_queued in
        Some (tc_with st (if ok then t else remove_sender t (c_id c) (chan_put (Err (EGrpc "source transformer stream closed before sending request")))))
  | TAwait k =>
      let? c := t_calls t !! k in
      match c_done c, c_items c, c_open c with
      | None, r :: _, _ => Some (tc_with st (on_call t k (set_done r)))
      | None, [], false => Some (tc_with st (on_call t k (set_done (Err (ETransformer "failed to receive response from server")))))
      | _, _, _ => None
      end
  | TCancel k =>
      let? c := t_calls t !! k in
      match c_done c with None => Some (tc_with st (on_call t k (set_done (Err (ETransformer "Operation cancelled"))))) | _ => None end
  | TResponse id ms =>
      match tc_task st with TReceiving => Some (tc_with st (remove_sender t id (chan_put (Ok ms)))) | _ => None end
  | TStreamEnd e =>
      match tc_task st with TReceiving => Some (mkTransformClient (drain_senders t e) (tc_checked st) TDrained) | _ => None end
  | TFinish =>
      match tc_task st with TDrained => Some (mkTransformClient t (tc_checked st) TFinished) | _ => None end
  end.

Fixpoint client_run (st : TransformClient) (evs : list TEvent) : option TransformClient :=
  match evs with [] => Some st | ev :: evs => let? st' := client_exec st ev in client_run st' evs end.

(** ** The invariant *)

Definition tcall_ok (past : list TEvent) (c : Call (list Message) (Result (list Message))) : Prop :=
  forall ms, Ok ms ∈ c_items c \/ c_done c = Some (Ok ms) -> TResponse (c_id c) ms ∈ past.
Definition client_inv (past : list TEvent) (st : TransformClient) : Prop :=
  table_ok (tc_table st) /\ Forall (tcall_ok past) (t_calls (tc_table st)).

Lemma tcall_ok_ext past c c' :
  c_id c' = c_id c -> c_items c' = c_items c -> (forall rs, c_done c' = Some (Ok rs) -> c_done c = Some (Ok rs)) -> tcall_ok past c -> tcall_ok past c'.
Proof. intros Hid Hit Hd Hc rs. rewrite Hid, Hit. intros [?|?%Hd]; apply Hc; auto. Qed.

Lemma tcall_ok_put past r c : (forall rs, r = Ok rs -> TResponse (c_id c) rs ∈ past) -> tcall_ok past c -> tcall_ok past (chan_put r c).
Proof.
  intros Hr Hc. unfold chan_put. destruct (c_open c), (c_done c) as [d|] eqn:Ed; try done. intros rs [Hin|Hd]; cbn in *.
  - apply elem_of_app in Hin as [?|Hin%list_elem_of_singleton]; [apply Hc; by left|by apply Hr].
  - congruence.
Qed.

Lemma client_exec_inv past st ev st' : client_inv past st -> client_exec st ev = Some st' -> client_inv (past ++ [ev]) st'.
Proof.
  intros [Ht Hc0] Hex. assert (Hc : Forall (tcall_ok (past ++ [ev])) (t_calls (tc_table st))).
  { eapply Forall_impl; [exact Hc0|]. intros c Hc rs Hr. apply elem_of_app. left. by apply Hc. }
  clear Hc0. assert (Halter : forall k f, (forall c, t_calls (tc_table st) !! k = Some c -> tcall_ok (past ++ [ev]) c -> tcall_ok (past ++ [ev]) (f c)) ->
    Forall (tcall_ok (past ++ [ev])) (alter f k (t_calls (tc_table st)))) by (intros; by apply Forall_alter_at).
  destruct ev as [id|j|k ok|k|k|id ms|e|]; cbn [client_exec] in Hex.
  - injection Hex as <-. destruct (tc_task st); try done. split; [by apply table_add_closed|]. cbn. apply Forall_app. split; [done|].
    apply Forall_singleton. intros rs. cbn. by intros [?%list_elem_of_singleton|[=]].
  - destruct (tc_checked st !! j) as [id|]; [|done]. injection Hex as <-. split; [by apply (table_insert (tc_table st) (mkCall id false [] true None))|].
    cbn. assert (Hx : Forall (tcall_ok (past ++ [TInsertCall j])) (t_calls (tc_table st) ++ [mkCall id false [] true None])).
    { apply Forall_app. split; [done|]. apply Forall_singleton. intros rs. cbn. by intros [?%elem_of_nil|[=]]. }
    destruct (t_senders (tc_table st) !! id); [|done]. apply Forall_alter_at; [|done]. intros c _. by apply tcall_ok_ext.
  - destruct (t_calls (tc_table st) !! k) as [c|] eqn:Ek; [|done]. destruct (c_queued c); [done|]. injection Hex as <-.
    assert (Hq : table_ok (on_call (tc_table st) k set_queued) /\ Forall (tcall_ok (past ++ [TQueue k ok])) (t_calls (on_call (tc_table st) k set_queued))).
    { split; [by apply table_on_call|]. apply Halter. intros c' _. by apply tcall_ok_ext. }
    destruct Hq as [Hq1 Hq2]. destruct ok; [done|]. split; [apply table_remove; [apply chan_put_id|done]|]. cbn [tc_with tc_table remove_sender t_calls].
    destruct (t_senders _ !! c_id c); [|done]. apply Forall_alter_at; [|done]. intros c' _ Hok. eapply (tcall_ok_ext _ (chan_put _ c')); [done..|].
    by apply tcall_ok_put.
  - destruct (t_calls (tc_table st) !! k) as [c|] eqn:Ek; [|done].
    destruct (c_done c) as [d0|], (c_items c) as [|r items] eqn:Ei, (c_open c); try done; injection Hex as <-; (split; [by apply table_on_call|]);
      apply Halter; intros c' Hk' Hok; rewrite Ek in Hk'; injection Hk' as <-; intros rs [Hin|[= Hx]]; cbn in *; apply Hok; left; try done; rewrite Ei, Hx; by left.
  - destruct (t_calls (tc_table st) !! k) as [c|] eqn:Ek; [|done]. destruct (c_done c); [done|]. injection Hex as <-. split; [by apply table_on_call|].
    apply Halter. intros c' _. by apply tcall_ok_ext.
  - destruct (tc_task st); try done. injection Hex as <-. split; [apply table_remove; [apply chan_put_id|done]|]. cbn.
    destruct (t_senders (tc_table st) !! id) as [k|] eqn:El; [|done]. apply Halter. intros c Hk Hok. eapply (tcall_ok_ext _ (chan_put (Ok ms) c)); [done..|].
    apply tcall_ok_put; [|done]. intros rs [= <-]. destruct (table_owner _ _ _ _ Ht El Hk) as [-> _]. apply elem_of_app. right. by left.
  - destruct (tc_task st); try done. injection Hex as <-. split; [by apply table_drain|]. apply Forall_lookup. intros k c' Hk.
    destruct (drain_lookup_inv _ _ _ _ Ht Hk) as (c & Hk0 & ->). rewrite Forall_lookup in Hc. specialize (Hc k c Hk0). destruct (c_open c); [|done].
    eapply (tcall_ok_ext _ (chan_put (Err e) c)); [done..|]. by apply tcall_ok_put.
  - destruct (tc_task st); try done. by injection Hex as <-.
Qed.

Lemma client_run_inv past st evs st' : client_inv past st -> client_run st evs = Some st' -> client_inv (past ++ evs) st'.
Proof.
  revert past st. induction evs as [|ev evs IH]; intros past st Hi; cbn.
  - intros [= <-]. by rewrite app_nil_r.
  - destruct (client_exec st ev) as [st1|] eqn:E; [|done]. cbn. intros Hrun. rewrite cons_middle, app_assoc. eapply IH; [|exact Hrun]. by eapply client_exec_inv.
Qed.

Lemma client_new_inv : client_inv [] client_new.
Proof. split; [apply table_new_ok|constructor]. Qed.

(** A call that returns messages returns those of a response with its id; a call that waits has
    its answer, or its sender is registered, and then the next response with its id answers it if
    the task still receives. *)
Lemma client_answers evs st : client_run client_new evs = Some st ->
  forall k c, t_calls (tc_table st) !! k = Some c ->
  (forall ms, c_done c = Some (Ok ms) -> TResponse (c_id c) ms ∈ evs) /\
  (c_done c = None -> is_Some (client_exec st (TAwait k)) \/
     t_senders (tc_table st) !! c_id c = Some k /\
     (tc_task st = TReceiving -> forall ms, exists st', client_exec st (TResponse (c_id c) ms) = Some st' /\ is_Some (client_exec st' (TAwait k)))).
Proof.
  intros Hrun k c Hk. destruct (client_run_inv [] _ _ _ client_new_inv Hrun) as [Ht Hc]. split.
  - intros ms Hd. rewrite Forall_lookup in Hc. apply (Hc k c Hk ms). by right.
  - intros Hd. cbn [client_exec]. rewrite Hk, Hd. destruct (c_items c) as [|r items] eqn:Ei; [|left; eauto]. destruct (c_open c) eqn:Eo; [|left; eauto].
    right. assert (Hs : t_senders (tc_table st) !! c_id c = Some k) by (apply Ht; by exists c). split; [done|]. intros -> ms. eexists. split; [done|].
    cbn. rewrite Hs, list_lookup_alter_eq, Hk. cbn. unfold chan_put. rewrite Eo, Hd. cbn. rewrite Hd, Ei. by eexists.
Qed.

(** A call that enters the table after the task drained it is not answered any more, unless it is
    cancelled, its request is refused, or its id is called again. *)
Definition quiet (k : nat) (ev : TEvent) : Prop :=
  match ev with TCancel k' => k' <> k | TInsertCall _ | TQueue _ false => False | _ => True end.

Lemma lost_call_waits evs st st' k c :
  table_ok (tc_table st) -> tc_task st <> TReceiving -> t_calls (tc_table st) !! k = Some c -> c_done c = None -> c_items c = [] -> c_open c = true ->
  Forall (quiet k) evs -> client_run st evs = Some st' -> client_exec st' (TAwait k) = None.
Proof.
  revert st c. induction evs as [|ev evs IH]; intros st c Ht Htask Hk Hd Hi Ho Hq; cbn [client_run].
  { intros [= <-]. cbn [client_exec]. by rewrite Hk, Hd, Hi, Ho. }
  apply Forall_cons in Hq as [Hev Hq]. destruct (client_exec st ev) as [st1|] eqn:E; [|done]. intros Hrun. cbn in Hrun.
  assert (Hgen : forall k' f, (k' = k -> forall c, c_done (f c) = c_done c /\ c_items (f c) = c_items c) ->
    (forall c, c_id (f c) = c_id c /\ c_open (f c) = c_open c) -> st1 = tc_with st (on_call (tc_table st) k' f) -> client_exec st' (TAwait k) = None).
  { intros k' f Hf Hf' ->. assert (Ht1 : table_ok (on_call (tc_table st) k' f)) by (apply table_on_call; [intros; apply Hf'|intros; apply Hf'|done]).
    destruct (decide (k' = k)) as [->|Hne].
    - destruct (Hf eq_refl c) as [Hfd Hfi], (Hf' c) as [_ Hfo].
      apply (IH (tc_with st (on_call (tc_table st) k f)) (f c)); try done; try congruence. cbn. by rewrite list_lookup_alter_eq, Hk.
    - apply (IH (tc_with st (on_call (tc_table st) k' f)) c); try done. cbn. by rewrite list_lookup_alter_ne. }
  destruct ev as [id|j|k' ok|k'|k'|id ms|e|]; cbn [client_exec] in E; try done.
  - injection E as <-. destruct (tc_task st) eqn:Et; try done.
    + eapply (IH (mkTransformClient (tc_table st) (tc_checked st ++ [id]) TDrained)); done.
    + eapply (IH (tc_with st (add_call (tc_table st) (mkCall id true [Err (EGrpc "source transformer stream closed")] false None)))); try done.
      * by apply table_add_closed.
      * cbn. by rewrite Et.
      * cbn. by apply lookup_app_l_Some.
  - destruct (t_calls (tc_table st) !! k') as [c'|] eqn:Ek; [|done]. destruct (c_queued c'); [done|]. destruct ok; [|done]. injection E as E. by eapply (Hgen k' set_queued).
  - destruct (t_calls (tc_table st) !! k') as [c'|] eqn:Ek; [|done].
    assert (Hne : k' <> k). { intros ->. rewrite Hk in Ek. injection Ek as <-. by rewrite Hd, Hi, Ho in E. }
    destruct (c_done c') as [d0|], (c_items c') as [|r items], (c_open c'); try done; injection E as E; by eapply (Hgen k' (set_done _)).
  - destruct (t_calls (tc_table st) !! k') as [c'|] eqn:Ek; [|done]. destruct (c_done c'); [done|]. injection E as E. by eapply (Hgen k' (set_done _)).
  - by destruct (tc_task st).
  - by destruct (tc_task st).
  - destruct (tc_task st) eqn:Et; try done. injection E as <-. by eapply (IH (mkTransformClient (tc_table st) (tc_checked st) TFinished)).
Qed.

(** The race: the stream ends between the test of the task and the entry in the table, and the
    request still finds room in the channel. *)
Definition ex_race : list TEvent := [TCheck "7-0"; TStreamEnd (EGrpc "closed"); TInsertCall 0; TQueue 0 true; TFinish].

Example transform_call_lost : exists st, client_run client_new ex_race = Some st /\
  forall evs st', Forall (quiet 0) evs -> client_run st evs = Some st' -> client_exec st' (TAwait 0) = None.
Proof.
  eexists. split; [reflexivity|]. intros evs st' Hq Hrun.
  eapply (lost_call_waits evs _ _ 0); [..|exact Hrun]; try reflexivity; try done.
  apply (client_run_inv [] _ ex_race _ client_new_inv eq_refl).
Qed.
End Client.

(** * The transformation of a batch *)

(** The answer of the client to one call, or the hard shutdown. *)
Definition transform_answer (answer : Result (list Message)) : Result (list Message) :=
  try! ms := answer in
  match ms with [] => Err (EGrpc "UDF_PARTIAL_RESPONSE(transformer)") | _ => Ok ms end.

Section Batch.
Context (powi : F64 -> Z -> F64) (random_factor : Z -> F64).

(** The future of one message from attempt [i]: the transformed messages, or the error that ends
    the batch. [fuel] bounds the attempts; [None]: out of fuel, or a panic. *)
Fixpoint transform_one (cancelled : nat -> bool) (fuel : nat) (answers : nat -> Result (list Message)) (rc : RetryController) (i : nat) :
    option (Result (list Message)) :=
  match fuel with
  | O => None
  | S fuel =>
      match transform_answer (answers i) with
      | Err e => Some (Err e)
      | Ok ms =>
          if existsb failed ms then
            let? (s, rc') := next_step powi random_factor rc (cancelled i) in
            match s with
            | RAgain => transform_one cancelled fuel answers rc' (S i)
            | RCancelled => Some (Err (ETransformer "Operation cancelled"))
            | RDrop => Some (Ok [])
            | RNack => Some (Err (ETransformer "Retries exhausted"))
            end
          else Some (Ok ms)
      end
  end.

(** The outputs in the order of the messages, up to the first error. *)
Fixpoint transform_collect (rs : list (MessageHandle * Result (list Message))) : Result (list (nat * Message)) :=
  match rs with
  | [] => Ok []
  | (h, r) :: rs => try! ms := r in try! out := transform_collect rs in Ok (((fun m => (h_key h, m)) <$> ms) ++ out)
  end.

(** What happens to a handle: a future that ran to its end made a clone for every message, which
    are dropped if the batch ends with an error; any other drops the handle. *)
Definition future_labels (delivered ran : bool) (r : Result (list Message)) : list AckLabel :=
  match r with
  | Ok ms =>
      if ran then repeat LClone (length ms) ++ [LSuccess] ++ (if delivered then [] else repeat LDrop (length ms)) else [LDrop]
  | Err _ => [LDrop]
  end.

Definition is_ok {A} (r : Result A) : bool := match r with Ok _ => true | Err _ => false end.

Record TransformOut := mkTransformOut {
  to_result : Result (list (nat * Message));
  to_updates : list TOp;
  to_labels : list (nat * list AckLabel)
}.

(** [completed i]: the future of the [i]-th message had run to its end when the batch ended. *)
Definition transform_finish (completed : nat -> bool) (rs : list (MessageHandle * Result (list Message))) : TransformOut :=
  let result := transform_collect rs in
  let ran i := is_ok result || completed i in
  mkTransformOut result
    (concat (imap (fun i (p : MessageHandle * Result (list Message)) =>
       match p.2 with Ok ms => if ran i then [TUpdate (m_offset (h_message p.1)) (m_tags <$> ms)] else [] | Err _ => [] end) rs))
    (imap (fun i (p : MessageHandle * Result (list Message)) => (h_key p.1, future_labels (is_ok result) (ran i) p.2)) rs).

Definition transform_batch (fuel : nat) (cfg : option RetryConfig) (hs : list MessageHandle) (answers : nat -> nat -> Result (list Message))
    (cancelled : nat -> nat -> bool) (completed : nat -> bool) : option TransformOut :=
  let? rs := mapM (fun h => let? r := transform_one (cancelled (h_key h)) fuel (answers (h_key h)) (retry_controller_new cfg) 0 in Some (h, r)) hs in
  Some (transform_finish completed rs).

(** ** Lemmas *)

Definition one_fails (answers : nat -> Result (list Message)) (i : nat) : bool :=
  match transform_answer (answers i) with Ok ms => existsb failed ms | Err _ => false end.

Definition one_done (strategy : option OnFailureStrategy) (answers : nat -> Result (list Message)) (r : Result (list Message)) : Prop :=
  match r with
  | Ok ms => (exists i, answers i = Ok ms /\ ms <> [] /\ existsb failed ms = false) \/ ms = [] /\ strategy = Some OFDrop
  | Err e => (exists i, transform_answer (answers i) = Err e) \/ e = ETransformer "Operation cancelled" \/
      e = ETransformer "Retries exhausted" /\ strategy = Some OFRetry
  end.

Lemma transform_answer_ok a ms : transform_answer a = Ok ms -> a = Ok ms /\ ms <> [].
Proof. destruct a as [[|m l]|e]; cbn; try done. by intros [= <-]. Qed.

Lemma transform_one_spec cancelled answers n rc i : controller_ok rc -> attempts_end (one_fails answers) n i (attempts_left rc) ->
  exists r, transform_one cancelled (S n) answers rc i = Some r /\ one_done (rc_strategy rc) answers r.
Proof.
  revert rc i. induction n as [n IH] using lt_wf_ind. intros rc i Hrc Hend. cbn [transform_one].
  destruct (transform_answer (answers i)) as [ms|e] eqn:Ea; [|eexists; split; [done|]; left; by exists i].
  destruct (existsb failed ms) eqn:Ef.
  - assert (Hf : one_fails answers i = true) by (unfold one_fails; by rewrite Ea).
    destruct (failed_attempt powi random_factor cancelled _ _ _ _ Hrc Hend Hf) as (s & rc' & -> & Hcase). cbn [mbind option_bind].
    destruct Hcase as [Hg|(-> & Hrc' & Hst & _ & n' & -> & Hend')].
    + destruct s; cbn in Hg; try done; eexists; (split; [done|]); cbn; naive_solver.
    + rewrite <- Hst. by apply IH; [lia| |].
  - eexists. split; [done|]. apply transform_answer_ok in Ea as [? ?]. left. by exists i.
Qed.

Lemma transform_collect_ok rs out : transform_collect rs = Ok out ->
  exists mss, Forall2 (fun p ms => p.2 = Ok ms) rs mss /\ out = concat (zip_with (fun p ms => (fun m => (h_key p.1, m)) <$> ms) rs mss).
Proof.
  revert out. induction rs as [|[h r] rs IH]; intros out; cbn; [intros [= <-]; exists []; by split; [constructor|]|].
  destruct r as [ms|e]; [|done]. destruct (transform_collect rs) as [o|e] eqn:E; [|done]. intros [= <-].
  destruct (IH _ eq_refl) as (mss & Hf & ->). exists (ms :: mss). split; [by constructor|done].
Qed.

Lemma transform_collect_err rs e : transform_collect rs = Err e -> exists i h, rs !! i = Some (h, Err e) /\
  forall j p, (j < i)%nat -> rs !! j = Some p -> is_ok p.2 = true.
Proof.
  induction rs as [|[h r] rs IH]; cbn; [done|]. destruct r as [ms|e']; [|intros [= <-]; exists 0%nat, h; split; [done|]; lia].
  destruct (transform_collect rs) as [o|e'] eqn:E; [done|]. intros [= <-]. destruct (IH eq_refl) as (i & h' & Hi & Hb). exists (S i), h'. split; [done|].
  intros [|j] p Hj; [by intros [= <-]|]. apply Hb. lia.
Qed.

(** A handle of a batch that fails is nacked, unless its message was dropped. *)
Lemma future_labels_failed ran r : existsb unsuccessful (future_labels false ran r) = true \/ r = Ok [].
Proof.
  destruct r as [[|m ms]|e]; [by right|left|by left]. unfold future_labels. destruct ran; [|done].
  rewrite !existsb_app. cbn. by rewrite orb_true_r.
Qed.

Lemma finish_ok completed hs rs out : length hs = length rs -> transform_collect (zip hs rs) = Ok out ->
  exists mss, rs = Ok <$> mss /\ out = concat (zip_with (fun h ms => (fun m => (h_key h, m)) <$> ms) hs mss) /\
    to_labels (transform_finish completed (zip hs rs)) = zip_with (fun h ms => (h_key h, repeat LClone (length ms) ++ [LSuccess])) hs mss.
Proof.
  intros Hlen Hout.
  assert (Hl : to_labels (transform_finish completed (zip hs rs)) = (fun p => (h_key p.1, future_labels true true p.2)) <$> zip hs rs).
  { cbn. rewrite Hout. cbn. apply imap_const. }
  rewrite Hl. clear Hl. revert rs out Hlen Hout. induction hs as [|h hs IH]; intros [|r rs] out Hlen; try done; cbn.
  { intros [= <-]. by exists []. }
  destruct r as [ms|e]; [|done]. destruct (transform_collect (zip hs rs)) as [o|e] eqn:E; [|done]. intros [= <-].
  destruct (IH rs o ltac:(cbn in Hlen; lia) E) as (mss & -> & -> & Hl). exists (ms :: mss). cbn. by rewrite <- Hl.
Qed.

Lemma finish_err completed hs rs e : length hs = length rs -> transform_collect (zip hs rs) = Err e ->
  (exists i, rs !! i = Some (Err e) /\ forall j, (j < i)%nat -> exists ms, rs !! j = Some (Ok ms)) /\
  (to_labels (transform_finish completed (zip hs rs))).*1 = h_key <$> hs /\
  forall i k ls, to_labels (transform_finish completed (zip hs rs)) !! i = Some (k, ls) -> existsb unsuccessful ls = true \/ rs !! i = Some (Ok []).
Proof.
  intros Hlen He. pose proof (transform_collect_err _ _ He) as (i & h & Hi & Hb). split_and!.
  - apply lookup_zip_with_Some in Hi as (h0 & r & [= <- <-] & Hh & Hr). exists i. split; [done|]. intros j Hj.
    assert (is_Some (hs !! j)) as [hj Hhj] by (apply lookup_lt_is_Some; apply lookup_lt_Some in Hh; lia).
    assert (is_Some (rs !! j)) as [rj Hrj] by (apply lookup_lt_is_Some; apply lookup_lt_Some in Hr; lia).
    specialize (Hb j (hj, rj) Hj). rewrite Hrj. destruct rj as [ms|e']; [by exists ms|]. discriminate Hb. apply lookup_zip_with_Some. by eexists _, _.
  - apply list_eq. intros j. cbn. rewrite !list_lookup_fmap, list_lookup_imap. destruct (hs !! j) as [hj|] eqn:Ej.
    + assert (is_Some (rs !! j)) as [rj Hrj] by (apply lookup_lt_is_Some; apply lookup_lt_Some in Ej; lia).
      rewrite (proj2 (lookup_zip_with_Some _ _ _ _ (hj, rj))) by (by eexists _, _). done.
    + assert (zip hs rs !! j = None) as ->; [|done]. apply lookup_ge_None. rewrite length_zip. apply lookup_ge_None in Ej. lia.
  - intros j k ls. cbn. rewrite list_lookup_imap, He. cbn. intros ([hj rj] & Hj & [= -> ->])%fmap_Some.
    apply lookup_zip_with_Some in Hj as (h0 & r & [= <- <-] & _ & ->). destruct (future_labels_failed (completed j) rj) as [?| ->]; auto.
Qed.
End Batch.

(** The transformation of a batch of messages settles, if the retries are bounded or an attempt
    for each message does not fail. If it succeeds, its output is, in the order of the messages,
    the messages of an answer to each, at least one and none of them failed, or none at all for a
    message dropped after its retries; every handle has a clone for each and is marked successful.
    If it ends with an error, that is the error of the first message that has one, and every handle
    is nacked, except that of a message that was dropped. *)
Theorem transform_batch_verdicts (powi : F64 -> Z -> F64) (random_factor : Z -> F64) (cfg : option RetryConfig) (hs : list MessageHandle)
    (answers : nat -> nat -> Result (list Message)) (cancelled : nat -> nat -> bool) (completed : nat -> bool) (n : nat) :
  config_ok cfg ->
  (forall h, h ∈ hs -> attempts_end (one_fails (answers (h_key h))) n 0 (attempts_left (retry_controller_new cfg))) ->
  exists o rs, transform_batch powi random_factor (S n) cfg hs answers cancelled completed = Some o /\
    Forall2 (fun h r => one_done (sink_retry_on_fail_strategy <$> cfg) (answers (h_key h)) r) hs rs /\
    match to_result o with
    | Ok out => exists mss, rs = Ok <$> mss /\ out = concat (zip_with (fun h ms => (fun m => (h_key h, m)) <$> ms) hs mss) /\
        to_labels o = zip_with (fun h ms => (h_key h, repeat LClone (length ms) ++ [LSuccess])) hs mss
    | Err e => (exists i, rs !! i = Some (Err e) /\ forall j, (j < i)%nat -> exists ms, rs !! j = Some (Ok ms)) /\
        (to_labels o).*1 = h_key <$> hs /\
        forall i k ls, to_labels o !! i = Some (k, ls) -> existsb unsuccessful ls = true \/ rs !! i = Some (Ok [])
    end.
Proof.
  intros Hcfg Hend. pose proof (controller_new_ok cfg Hcfg) as Hrc. unfold transform_batch.
  set (f := fun h : MessageHandle => let? r := transform_one powi random_factor (cancelled (h_key h)) (S n) (answers (h_key h)) (retry_controller_new cfg) 0 in Some (h, r)).
  assert (Hrs : exists rs, mapM f hs = Some (zip hs rs) /\ Forall2 (fun h r => one_done (sink_retry_on_fail_strategy <$> cfg) (answers (h_key h)) r) hs rs).
  { clear completed. induction hs as [|h hs IH]; [by exists []; split; [|constructor]|].
    destruct IH as (rs & Hm & Hall); [intros h' Hin; apply Hend; by right|].
    destruct (transform_one_spec powi random_factor (cancelled (h_key h)) (answers (h_key h)) n (retry_controller_new cfg) 0 Hrc) as (r & Hr & Hd);
      [apply Hend; by left|]. exists (r :: rs). split; [|by constructor].
    assert (Hf : f h = Some (h, r)) by (unfold f; by rewrite Hr). clearbody f. cbn. by rewrite Hf, Hm. }
  destruct Hrs as (rs & Hm & Hall). rewrite Hm. eexists _, rs. split; [done|]. split; [done|]. apply Forall2_length in Hall. cbn [to_result transform_finish].
  destruct (transform_collect (zip hs rs)) as [out|e] eqn:E; [by apply finish_ok|by apply finish_err].
Qed.

Definition ex_out (k : nat) : list Message := [h_message (ex_handle k)].
(** The second message fails once and is then transformed. *)
Definition ex_answers (k i : nat) : Result (list Message) :=
  Ok (if (k =? 1)%nat && (i =? 0)%nat
      then [mkMessage Data [] (Some [FAIL]) "" (OInt (mkIntOffset 1 0)) 700 None MessageID_default ∅ None false None] else ex_out k).

Lemma transform_batch_verdicts_witness :
  exists o rs, transform_batch powi_iter ex_draw 2 (Some (ex_cfg OFRetry)) [ex_handle 0; ex_handle 1] ex_answers (fun _ _ => false) (fun _ => false) = Some o /\
    to_labels o = [(0%nat, [LClone; LSuccess]); (1%nat, [LClone; LSuccess])] /\
    Forall2 (fun h r => one_done (Some OFRetry) (ex_answers (h_key h)) r) [ex_handle 0; ex_handle 1] rs.
Proof.
  destruct (transform_batch_verdicts powi_iter ex_draw (Some (ex_cfg OFRetry)) [ex_handle 0; ex_handle 1] ex_answers (fun _ _ => false) (fun _ => false) 1)
    as (o & rs & Ho & Hall & _).
  - by split.
  - intros h _. vm_compute. lia.
  - exists o, rs. split; [exact Ho|]. split; [|exact Hall]. vm_compute in Ho. by injection Ho as <-.
Defined.
