(* ===== verification/Pbq.v ===== *)
(** The persistent buffer queue of reduce (reduce/pbq.rs) and the compaction task it starts
    ([start_compaction_with_replay] of reduce/wal/segment/compactor.rs): after a start the
    queue passes on what the log has kept, then the messages of the buffer, each also handed to
    the writer of the log, which acknowledges it.

    The queue, the compaction task and the writer are the steps of a relation and interleave
    freely. The stream of the buffer, the reader behind the queue and the file system are
    external: they answer in any way. *)
From S2P Require Import Prelude Clock Message Wal WalMessage Compactor.
Open Scope Z_scope.

(** * Without a log *)

(** The messages the stream yields, each with whether the reader behind the queue still takes it;
    [joined] is how the task of the ISB reader ended, [None] for a panic. The messages passed on,
    acknowledged and rejected, and the result. *)
Definition join_error (who : string) (joined : option (Result unit)) : Result unit :=
  match joined with
  | None => Err (EReduce (who +:+ " task panicked"))
  | Some (Err _) => Err (EReduce (who +:+ " task failed"))
  | Some (Ok _) => Ok tt
  end.

Fixpoint read_isb_without_wal (stream : list (Message * bool)) (joined : option (Result unit))
    : list Message * list Message * list Message * Result unit :=
  match stream with
  | [] => ([], [], [], join_error "ISB reader" joined)
  | (m, true) :: stream =>
      let '(down, acked, nacked, r) := read_isb_without_wal stream joined in (m :: down, m :: acked, nacked, r)
  | (m, false) :: _ => ([], [], [m], Err (EReduce "PBQ ISB reader: downstream receiver dropped"))
  end.
(** [streaming_read] of a queue without a log: whether the token gets cancelled. *)
Definition streaming_read_without_wal (stream : list (Message * bool)) (joined : option (Result unit)) : bool :=
  match (read_isb_without_wal stream joined).2 with Ok _ => false | Err _ => true end.

(** * With a log *)

(** The compaction task: in the cycle of the start, with the actions left and the result that
    follows them; in the periodic loop; over. *)
Inductive CompactionTask :=
  | CBoot (acts : list CAction) (o : option (Result unit))
  | CPeriodic
  | CEnded (joined : option (Result unit)).

Inductive WriterTask := WNotStarted | WRunning | WEnded (joined : option (Result unit)).

Inductive PbqPhase :=
  | PReplay                        (* receiving the entries of the log *)
  | PStarting                      (* starting the ISB reader and the writer *)
  | PRead
  | PForward (m : Message)         (* the handle is with the writer, the clone not yet passed on *)
  | PAwaitIsb
  | PAwaitWal
  | PAwaitCompaction
  | PEnded (r : option (Result unit)).

Record Pbq := mkPbq {
  p_phase : PbqPhase;
  p_compaction : CompactionTask;
  p_replay : list string;                       (* the channel of the replay *)
  p_replayed : list string;                     (* entries passed on *)
  p_writer : WriterTask;
  p_wal : list Message;                         (* the channel of the writer *)
  p_events : list (DateTime * WEvent);          (* what the writer has done *)
  p_read : list Message;                        (* taken from the stream of the buffer *)
  p_acked : list Message;
  p_nacked : list Message;
  p_down : list Message;                        (* passed on to the reader behind the queue *)
  p_down_open : bool;
  p_cancelled : bool
}.

Definition set_phase (s : Pbq) (ph : PbqPhase) : Pbq :=
  mkPbq ph (p_compaction s) (p_replay s) (p_replayed s) (p_writer s) (p_wal s) (p_events s) (p_read s)
    (p_acked s) (p_nacked s) (p_down s) (p_down_open s) (p_cancelled s).
Definition set_compaction (s : Pbq) (c : CompactionTask) : Pbq :=
  mkPbq (p_phase s) c (p_replay s) (p_replayed s) (p_writer s) (p_wal s) (p_events s) (p_read s)
    (p_acked s) (p_nacked s) (p_down s) (p_down_open s) (p_cancelled s).
Definition set_replay (s : Pbq) (queue : list string) : Pbq :=
  mkPbq (p_phase s) (p_compaction s) queue (p_replayed s) (p_writer s) (p_wal s) (p_events s) (p_read s)
    (p_acked s) (p_nacked s) (p_down s) (p_down_open s) (p_cancelled s).
Definition set_writer (s : Pbq) (w : WriterTask) : Pbq :=
  mkPbq (p_phase s) (p_compaction s) (p_replay s) (p_replayed s) w (p_wal s) (p_events s) (p_read s)
    (p_acked s) (p_nacked s) (p_down s) (p_down_open s) (p_cancelled s).
Definition set_down_open (s : Pbq) (b : bool) : Pbq :=
  mkPbq (p_phase s) (p_compaction s) (p_replay s) (p_replayed s) (p_writer s) (p_wal s) (p_events s) (p_read s)
    (p_acked s) (p_nacked s) (p_down s) b (p_cancelled s).
Definition set_cancelled (s : Pbq) : Pbq :=
  mkPbq (p_phase s) (p_compaction s) (p_replay s) (p_replayed s) (p_writer s) (p_wal s) (p_events s) (p_read s)
    (p_acked s) (p_nacked s) (p_down s) (p_down_open s) true.

(** The end of the task of [streaming_read]: an error, not a panic, cancels the token. *)
Definition pbq_end (s : Pbq) (r : option (Result unit)) : Pbq :=
  match r with
  | Some (Err _) => set_cancelled (set_phase s (PEnded r))
  | _ => set_phase s (PEnded r)
  end.
Definition pbq_fail (s : Pbq) (what : string) : Pbq := pbq_end s (Some (Err (EReduce what))).

(** Waiting for a task: on success the queue goes on to [ph]. *)
Definition await_task (s : Pbq) (who : string) (joined : option (Result unit)) (ph : PbqPhase) : Pbq :=
  match join_error who joined with
  | Ok _ => set_phase s ph
  | Err e => pbq_end s (Some (Err e))
  end.

(** The writer is gone: the handles in its channel are dropped. *)
Definition writer_end (s : Pbq) (dropped : list Message) (joined : option (Result unit)) : Pbq :=
  mkPbq (p_phase s) (p_compaction s) (p_replay s) (p_replayed s) (WEnded joined) [] (p_events s) (p_read s)
    (p_acked s) (p_nacked s ++ dropped) (p_down s) (p_down_open s) (p_cancelled s).

(** The queue has dropped its end of the channel to the writer. *)
Definition wal_closed (ph : PbqPhase) : bool :=
  match ph with PAwaitWal | PAwaitCompaction | PEnded _ => true | _ => false end.
(** The queue still receives the replay. *)
Definition replaying (ph : PbqPhase) : bool := match ph with PReplay => true | _ => false end.

Inductive PLabel :=
  | LBoot                                             (* the compactor's next action, or its end *)
  | LTick (d : CycleDirs)                             (* a periodic cycle over these listings *)
  | LCompactionFails (joined : option (Result unit))  (* an I/O error or a panic *)
  | LCompactionStop (r : Result unit)                 (* cancelled; the result of its writer *)
  | LReplay
  | LStart (isb wal : Result unit)
  | LIsb (m : Message)
  | LIsbEnd
  | LForward
  | LIsbJoin (joined : option (Result unit))
  | LWalJoin
  | LCompactionJoin
  | LWrite (now : DateTime) (io : bool)               (* the writer's next command *)
  | LTimer (now : DateTime) (e : WEvent)
  | LWriterFails (e : Error)                          (* a timer's flush or rotation *)
  | LWriterEnd (io : Result unit)                     (* the final rotation *)
  | LDownDrop                                         (* the reader behind the queue is gone *)
  | LCancel.

Section Step.
Context `{Chrono} `{WalCodec} `{HashOrder} (kind : WindowKind).

(** The compaction task. *)
Definition compaction_step (l : PLabel) (s : Pbq) : option Pbq :=
  match l, p_compaction s with
  | LBoot, CBoot [] o => Some (set_compaction s (match o with Some (Ok _) => CPeriodic | _ => CEnded o end))
  | LBoot, CBoot (CReplay data :: acts) o =>
      Some (if replaying (p_phase s) then set_replay (set_compaction s (CBoot acts o)) (p_replay s ++ [data])
            else set_compaction s (CEnded (Some (Err (EOther "Failed to send message to replay channel")))))
  | LBoot, CBoot (_ :: acts) o => Some (set_compaction s (CBoot acts o))
  | LTick d, CPeriodic =>
      match (compact kind false true d).2 with
      | Some (Ok _) => Some s
      | o => Some (set_compaction s (CEnded o))
      end
  | LCompactionFails ((None | Some (Err _)) as joined), (CBoot _ _ | CPeriodic) => Some (set_compaction s (CEnded joined))
  | LCompactionStop r, CPeriodic => if p_cancelled s then Some (set_compaction s (CEnded (Some r))) else None
  | _, _ => None
  end.

(** The queue. *)
Definition replay_step (s : Pbq) : option Pbq :=
  match p_replay s with
  | data :: queue =>
      match wal_from_bytes data with
      | None => Some (pbq_end s None)
      | Some (Err _) => Some (pbq_fail s "Failed to parse WAL message")
      | Some (Ok m) =>
          if p_down_open s then
            Some (mkPbq (p_phase s) (p_compaction s) queue (p_replayed s ++ [data]) (p_writer s) (p_wal s)
              (p_events s) (p_read s) (p_acked s) (p_nacked s) (p_down s ++ [m]) (p_down_open s) (p_cancelled s))
          else Some (pbq_fail s "PBQ WAL replay: receiver dropped")
      end
  | [] => match p_compaction s with CBoot _ _ => None | _ => Some (set_phase s PStarting) end
  end.

Definition isb_step (s : Pbq) (m : Message) : Pbq :=
  match p_writer s with
  | WRunning =>
      mkPbq (PForward m) (p_compaction s) (p_replay s) (p_replayed s) (p_writer s) (p_wal s ++ [m]) (p_events s)
        (p_read s ++ [m]) (p_acked s) (p_nacked s) (p_down s) (p_down_open s) (p_cancelled s)
  | _ =>
      pbq_fail (mkPbq (p_phase s) (p_compaction s) (p_replay s) (p_replayed s) (p_writer s) (p_wal s) (p_events s)
        (p_read s ++ [m]) (p_acked s) (p_nacked s ++ [m]) (p_down s) (p_down_open s) (p_cancelled s))
        "PBQ WAL writer: receiver dropped"
  end.

Definition forward_step (s : Pbq) (m : Message) : Pbq :=
  if p_down_open s then
    mkPbq PRead (p_compaction s) (p_replay s) (p_replayed s) (p_writer s) (p_wal s) (p_events s) (p_read s)
      (p_acked s) (p_nacked s) (p_down s ++ [m]) (p_down_open s) (p_cancelled s)
  else pbq_fail s "PBQ ISB reader: downstream receiver dropped".

Definition read_isb_with_wal (l : PLabel) (s : Pbq) : option Pbq :=
  match l, p_phase s with
  | LReplay, PReplay => replay_step s
  | LStart (Err e) _, PStarting | LStart (Ok _) (Err e), PStarting => Some (pbq_end s (Some (Err e)))
  | LStart (Ok _) (Ok _), PStarting => Some (set_writer (set_phase s PRead) WRunning)
  | LIsb m, PRead => Some (isb_step s m)
  | LIsbEnd, PRead => Some (set_phase s PAwaitIsb)
  | LForward, PForward m => Some (forward_step s m)
  | LIsbJoin joined, PAwaitIsb => Some (await_task s "ISB reader" joined PAwaitWal)
  | LWalJoin, PAwaitWal =>
      match p_writer s with
      | WEnded joined => Some (await_task s "WAL writer" joined PAwaitCompaction)
      | _ => None
      end
  | LCompactionJoin, PAwaitCompaction =>
      match p_compaction s with
      | CEnded joined => Some (await_task s "Compaction" joined (PEnded (Some (Ok tt))))
      | _ => None
      end
  | _, _ => None
  end.

(** The writer of the log. *)
Definition writer_did (s : Pbq) (queue : list Message) (now : DateTime) (e : WEvent) (acked : list Message) : Pbq :=
  mkPbq (p_phase s) (p_compaction s) (p_replay s) (p_replayed s) (p_writer s) queue (p_events s ++ [(now, e)])
    (p_read s) (p_acked s ++ acked) (p_nacked s) (p_down s) (p_down_open s) (p_cancelled s).

Definition writer_step (l : PLabel) (s : Pbq) : option Pbq :=
  match l, p_writer s with
  | LWrite now io, WRunning =>
      match p_wal s with
      | [] => None
      | m :: queue =>
          match handle_message io (WriteMessage m) with
          | None => Some (writer_end s (p_wal s) None)
          | Some (Err e, _) => Some (writer_end s (p_wal s) (Some (Err e)))
          | Some (Ok ev, _) => Some (writer_did s queue now ev [m])
          end
      end
  | LTimer now e, WRunning => if is_timer e then Some (writer_did s (p_wal s) now e []) else None
  | LWriterFails e, WRunning => Some (writer_end s (p_wal s) (Some (Err e)))
  | LWriterEnd r, WRunning =>
      if wal_closed (p_phase s) && bool_decide (p_wal s = []) then Some (writer_end s [] (Some r)) else None
  | _, _ => None
  end.

(** [None]: the step is not enabled. *)
Definition pbq_step (l : PLabel) (s : Pbq) : option Pbq :=
  match l with
  | LBoot | LTick _ | LCompactionFails _ | LCompactionStop _ => compaction_step l s
  | LWrite _ _ | LTimer _ _ | LWriterFails _ | LWriterEnd _ => writer_step l s
  | LDownDrop => Some (set_down_open s false)
  | LCancel => Some (set_cancelled s)
  | _ => read_isb_with_wal l s
  end.

Fixpoint pbq_run (ls : list PLabel) (s : Pbq) : option Pbq :=
  match ls with
  | [] => Some s
  | l :: ls => let? s' := pbq_step l s in pbq_run ls s'
  end.

(** The cycle of the start, over the listings [d], replays and keeps all GC segments. *)
Definition boot_actions (d : CycleDirs) : list CAction := (compact kind true false d).1.
Definition pbq_start (d : CycleDirs) : Pbq :=
  mkPbq PReplay (CBoot (boot_actions d) (compact kind true false d).2) [] [] WNotStarted [] [] [] [] [] [] true false.
End Step.

(** * Without a log: what is passed on is acknowledged at once *)

Lemma without_wal_flow stream joined down acked nacked r :
  read_isb_without_wal stream joined = (down, acked, nacked, r) ->
  down = acked /\ (acked ++ nacked) `prefix_of` stream.*1 /\ (length nacked <= 1)%nat /\
  (r = Ok tt <-> Forall (fun x => x.2 = true) stream /\ joined = Some (Ok tt)) /\
  (r = Ok tt -> acked = stream.*1 /\ nacked = []).
Proof.
  revert down acked nacked r. induction stream as [|[m []] stream IH]; intros down acked nacked r E; cbn in E.
  - injection E as <- <- <- <-. split_and!; [done|done|cbn; lia| |done].
    destruct joined as [[[]|e]|]; cbn; split; try done; intros; by destruct_and?.
  - destruct (read_isb_without_wal stream joined) as [[[d a] n] r'] eqn:E'. injection E as <- <- <- <-.
    destruct (IH _ _ _ _ eq_refl) as (-> & Hp & Hn & Hr & Hok). split_and!; [done| |done| |].
    + cbn. by apply prefix_cons.
    + rewrite Hr, Forall_cons. naive_solver.
    + intros Hr'. destruct (Hok Hr') as [-> ->]. done.
  - injection E as <- <- <- <-. split_and!; [done| |cbn; lia| |done].
    + cbn. by apply prefix_cons, prefix_nil.
    + rewrite Forall_cons. naive_solver.
Qed.

(** * With a log: the invariant *)

Definition ended_ok (joined : option (Result unit)) : bool :=
  match joined with Some (Ok _) => true | _ => false end.
Definition booting (c : CompactionTask) : bool := match c with CBoot _ _ => true | _ => false end.

Section Invariant.
Context `{Chrono} `{WalCodec} `{HashOrder} (kind : WindowKind) (total : list string) (o0 : option (Result unit)).

Definition boot_inv (s : Pbq) : Prop :=
  let got := p_replayed s ++ p_replay s in
  match p_compaction s with
  | CBoot acts o => got ++ (acts ≫= act_replay) = total /\ o = o0
  | CPeriodic => got = total /\ o0 = Some (Ok tt)
  | CEnded joined => if ended_ok joined then got = total /\ o0 = Some (Ok tt) else got `prefix_of` total
  end.

Definition flow_inv (s : Pbq) : Prop :=
  exists rs fwd, Forall2 (fun b m => wal_from_bytes b = Some (Ok m)) (p_replayed s) rs /\ p_down s = rs ++ fwd /\
  match p_phase s with
  | PReplay | PStarting => p_read s = [] /\ fwd = []
  | PForward m => p_read s = fwd ++ [m]
  | PEnded r => if ended_ok r then p_read s = fwd else fwd `prefix_of` p_read s
  | _ => p_read s = fwd
  end.

(** Nothing of the buffer is read before the replay has ended. *)
Definition replay_over (s : Pbq) : Prop := p_replay s = [] /\ booting (p_compaction s) = false.
Definition order_inv (s : Pbq) : Prop :=
  match p_phase s with
  | PReplay => p_read s = []
  | PEnded r => ended_ok r = false /\ p_read s = [] \/ replay_over s
  | _ => replay_over s
  end.

Definition writer_inv (s : Pbq) : Prop :=
  p_read s = p_acked s ++ p_nacked s ++ p_wal s /\
  Forall2 (fun m b => wal_to_bytes m = Ok b) (p_acked s) (written (p_events s)) /\
  match p_writer s with
  | WNotStarted => p_read s = []
  | WRunning => p_nacked s = []
  | WEnded joined => p_wal s = [] /\ (ended_ok joined = true -> p_nacked s = [] /\ wal_closed (p_phase s) = true)
  end.

Definition phase_inv (s : Pbq) : Prop :=
  match p_phase s with
  | PReplay | PStarting => p_writer s = WNotStarted
  | PRead | PForward _ | PAwaitIsb | PAwaitWal => p_writer s <> WNotStarted
  | PAwaitCompaction => p_writer s = WEnded (Some (Ok tt))
  | PEnded r => ended_ok r = true -> p_writer s = WEnded (Some (Ok tt)) /\ p_compaction s = CEnded (Some (Ok tt))
  end.

Definition pinv (s : Pbq) : Prop := boot_inv s /\ flow_inv s /\ order_inv s /\ writer_inv s /\ phase_inv s.

Lemma prefix_drop {A} (l k t : list A) : (l ++ k) = t -> l `prefix_of` t.
Proof. intros <-. by apply prefix_app_r. Qed.

Definition running (c : CompactionTask) : bool := match c with CEnded _ => false | _ => true end.

(** A step of the compaction task. *)
Lemma set_compaction_inv s c :
  pinv s -> running (p_compaction s) = true -> (booting c = true -> booting (p_compaction s) = true) ->
  boot_inv (set_compaction s c) -> pinv (set_compaction s c).
Proof.
  intros (Hb & Hf & Ho & Hw & Hp) Hrun Hboot Hb'. split_and!; [done|done| |done|].
  - unfold order_inv, replay_over in *. cbn. destruct (p_phase s); try done;
      destruct (booting c); destruct (booting (p_compaction s)); naive_solver.
  - unfold phase_inv in *. cbn. destruct (p_phase s) as [| | | | | | |r]; try done.
    intros Hr. destruct (Hp Hr) as [_ E]. by rewrite E in Hrun.
Qed.

Lemma boot_got s acts o : boot_inv s -> p_compaction s = CBoot acts o -> (p_replayed s ++ p_replay s) `prefix_of` total.
Proof. unfold boot_inv. intros Hb E. rewrite E in Hb. by eapply prefix_drop, Hb. Qed.

Lemma compaction_inv l s s' : pinv s -> compaction_step kind l s = Some s' -> pinv s'.
Proof.
  intros Hi Hs. pose proof Hi as (Hb & _). unfold compaction_step in Hs.
  destruct l; try done; destruct (p_compaction s) as [acts o| |j] eqn:Ec; try done.
  - destruct acts as [|[e|data|f] acts].
    + injection Hs as <-. apply set_compaction_inv; [done|by rewrite Ec|by destruct o as [[]|]|].
      unfold boot_inv in *. rewrite Ec in Hb. cbn in *. destruct Hb as [Hb ->]. rewrite app_nil_r in Hb.
      destruct o0 as [[[]|]|]; cbn; rewrite ?Hb; done.
    + injection Hs as <-. apply set_compaction_inv; [done|by rewrite Ec|by rewrite Ec|].
      unfold boot_inv in *. by rewrite Ec in Hb.
    + destruct (replaying (p_phase s)) eqn:Er; injection Hs as <-.
      * assert (Hr : boot_inv (set_replay (set_compaction s (CBoot acts o)) (p_replay s ++ [data]))).
        { unfold boot_inv in *. rewrite Ec in Hb. cbn in *. by rewrite <- !app_assoc in *. }
        destruct Hi as (_ & Hf & Ho & Hw & Hp). destruct (p_phase s) eqn:Eph; try done.
        unfold pinv, flow_inv, order_inv, writer_inv, phase_inv in *. cbn [p_phase set_replay set_compaction] in *.
        by rewrite Eph in *.
      * apply set_compaction_inv; [done|by rewrite Ec|done|]. exact (boot_got _ _ _ Hb Ec).
    + injection Hs as <-. apply set_compaction_inv; [done|by rewrite Ec|by rewrite Ec|].
      unfold boot_inv in *. by rewrite Ec in Hb.
  - destruct (compact kind false true d).2 as [[[]|e]|] eqn:Eo; injection Hs as <-; [done|..];
      (apply set_compaction_inv; [done|by rewrite Ec|done|]);
      unfold boot_inv in *; rewrite Ec in Hb; cbn in *; by destruct Hb as [-> _].
  - destruct joined as [[|e]|]; try done; injection Hs as <-;
      (apply set_compaction_inv; [done|by rewrite Ec|done|]); exact (boot_got _ _ _ Hb Ec).
  - destruct joined as [[|e]|]; try done; injection Hs as <-;
      (apply set_compaction_inv; [done|by rewrite Ec|done|]);
      unfold boot_inv in *; rewrite Ec in Hb; cbn in *; by destruct Hb as [-> _].
  - by destruct joined as [[]|].
  - destruct (p_cancelled s); [|done]. injection Hs as <-. apply set_compaction_inv; [done|by rewrite Ec|done|].
    unfold boot_inv in *. rewrite Ec in Hb. cbn in *. destruct r as [|e]; cbn; [done|]. by destruct Hb as [-> _].
Qed.

(** A step of the writer. *)
Lemma writer_end_inv s joined :
  pinv s -> p_writer s = WRunning -> (ended_ok joined = true -> p_wal s = [] /\ wal_closed (p_phase s) = true) ->
  pinv (writer_end s (p_wal s) joined).
Proof.
  intros (Hb & Hf & Ho & (Hr & Hw & Hn) & Hp) Ew Hj. rewrite Ew in Hn.
  split_and!; [done|done|done| |]; unfold writer_inv, phase_inv in *; cbn.
  - rewrite Hr, Hn, !app_nil_r. split_and!; [done|done|done|]. intros Ho'. by destruct (Hj Ho') as [-> ->].
  - rewrite Ew in Hp. destruct (p_phase s); try done. intros Hok. by destruct (Hp Hok).
Qed.

Lemma writer_did_inv s queue now e acked bs :
  pinv s -> p_writer s = WRunning -> p_wal s = acked ++ queue -> written [(now, e)] = bs ->
  Forall2 (fun m b => wal_to_bytes m = Ok b) acked bs -> pinv (writer_did s queue now e acked).
Proof.
  intros (Hb & Hf & Ho & (Hr & Hw & Hn) & Hp) Ew Eq Hbs H2. rewrite Ew in Hn.
  unfold pinv. split_and!; [done|done|done| |unfold phase_inv in *; cbn in *; by rewrite Ew in *].
  unfold writer_inv. cbn. rewrite Ew, Hr, Hn, Eq. cbn. rewrite <- app_assoc.
  split_and!; [done| |done]. unfold written in *. rewrite omap_app, Hbs. by apply Forall2_app.
Qed.

Lemma writer_step_inv l s s' : pinv s -> writer_step l s = Some s' -> pinv s'.
Proof.
  intros Hi Hs. unfold writer_step in Hs. destruct l; try done; destruct (p_writer s) eqn:Ew; try done.
  - destruct (p_wal s) as [|m queue] eqn:Eq; [done|]. cbn [handle_message] in Hs.
    destruct (wal_to_bytes m) as [b|e] eqn:Eb; [destruct io|]; injection Hs as <-.
    + apply writer_did_inv with (bs := [b]); [done|done|done|done|by repeat constructor].
    + rewrite <- Eq. by apply writer_end_inv.
    + rewrite <- Eq. by apply writer_end_inv.
  - destruct (is_timer e) eqn:Et; [|done]. injection Hs as <-.
    apply writer_did_inv with (bs := []); [done|done|done|by destruct e|constructor].
  - injection Hs as <-. by apply writer_end_inv.
  - destruct (wal_closed (p_phase s)) eqn:Ec; [|done]. case_bool_decide as Eq; [|done]. injection Hs as <-.
    rewrite <- Eq. by apply writer_end_inv.
Qed.

(** A step of the queue. *)
Definition flows (s : Pbq) (P : list Message -> Prop) : Prop :=
  exists rs fwd, Forall2 (fun b m => wal_from_bytes b = Some (Ok m)) (p_replayed s) rs /\ p_down s = rs ++ fwd /\ P fwd.

Lemma end_inv s r :
  boot_inv s -> writer_inv s -> flows s (fun fwd => fwd `prefix_of` p_read s) ->
  (p_read s = [] \/ replay_over s) -> ended_ok r = false -> pinv (pbq_end s r).
Proof.
  intros Hb (Hr & Hw & Hn) (rs & fwd & Hrs & Hd & Hpre) Hover Hnok.
  destruct r as [[|e]|]; [done|..]; (split; [done|]; split; [by exists rs, fwd|]; split; [destruct Hover; [by left|by right]|]; split; [|done]);
    (split; [done|]; split; [done|]; cbn; destruct (p_writer s); naive_solver).
Qed.

Lemma flow_prefix s : flow_inv s -> flows s (fun fwd => fwd `prefix_of` p_read s).
Proof.
  intros (rs & fwd & Hrs & Hd & Hf). exists rs, fwd. split; [done|]. split; [done|].
  destruct (p_phase s) as [| | | | | | |r]; try (by rewrite Hf); try (destruct Hf as [_ ->]; apply prefix_nil).
  - rewrite Hf. by apply prefix_app_r.
  - by destruct (ended_ok r); [rewrite Hf|].
Qed.

Lemma order_over s : order_inv s -> p_read s = [] \/ replay_over s.
Proof. unfold order_inv. destruct (p_phase s); naive_solver. Qed.

Lemma pinv_end s r : pinv s -> ended_ok r = false -> pinv (pbq_end s r).
Proof.
  intros (Hb & Hf & Ho & Hw & Hp) Hnok. apply end_inv; [done|done| | |done].
  - by apply flow_prefix.
  - by apply order_over.
Qed.

(** Entering a phase after the replay. *)
Definition reading (ph : PbqPhase) : bool :=
  match ph with PRead | PAwaitIsb | PAwaitWal | PAwaitCompaction => true | _ => false end.

Lemma set_phase_inv s ph :
  boot_inv s -> writer_inv s -> reading ph = true -> replay_over s -> flows s (fun fwd => p_read s = fwd) ->
  (wal_closed (p_phase s) = true -> wal_closed ph = true) -> phase_inv (set_phase s ph) -> pinv (set_phase s ph).
Proof.
  intros Hb (Hr & Hw & Hn) Hph Ho (rs & fwd & Hf) Hc Hp. split; [done|]. split; [exists rs, fwd; by destruct ph|].
  split; [by destruct ph|]. split; [|done].
  unfold writer_inv in *. cbn. destruct (p_writer s); try done. split_and!; [done|done|naive_solver|naive_solver].
Qed.

Lemma read_flows s : pinv s -> reading (p_phase s) = true -> replay_over s /\ flows s (fun fwd => p_read s = fwd).
Proof.
  intros (_ & (rs & fwd & Hrs & Hd & Hf) & Ho & _) Hph. unfold order_inv in Ho.
  destruct (p_phase s); try done; (split; [done|by exists rs, fwd]).
Qed.

Lemma await_inv s who joined ph :
  pinv s -> reading (p_phase s) = true -> reading ph = true -> (wal_closed (p_phase s) = true -> wal_closed ph = true) ->
  (ended_ok joined = true -> phase_inv (set_phase s ph)) -> pinv (await_task s who joined ph).
Proof.
  intros Hi Hr Hph Hc Hp. unfold await_task.
  destruct joined as [[[]|e]|]; cbn [join_error]; [|by apply pinv_end..].
  destruct (read_flows s Hi Hr). destruct Hi as (Hb & _ & _ & Hw & _). by apply set_phase_inv; [..|apply Hp].
Qed.

Lemma replay_inv s s' : pinv s -> p_phase s = PReplay -> replay_step s = Some s' -> pinv s'.
Proof.
  intros Hi Eph Hs. unfold replay_step in Hs. destruct (p_replay s) as [|data queue] eqn:Eq.
  - destruct Hi as (Hb & (rs & fwd & Hrs & Hd & Hf) & Ho & (Hr & Hw & Hn) & Hp).
    unfold phase_inv in Hp. rewrite Eph in *. rewrite Hp in Hn.
    assert (Hover : booting (p_compaction s) = false /\ s' = set_phase s PStarting).
    { destruct (p_compaction s); [done|apply (inj Some) in Hs as <-; done..]. }
    destruct Hover as [Hboot ->]. split; [done|]. split; [by exists rs, fwd|]. split; [by split|].
    split; [|done]. unfold writer_inv. cbn. by rewrite Hp.
  - destruct (wal_from_bytes data) as [[m|e]|] eqn:Ed; [|apply (inj Some) in Hs as <-; by apply pinv_end..].
    destruct (p_down_open s); [|apply (inj Some) in Hs as <-; by apply pinv_end]. apply (inj Some) in Hs as <-.
    destruct Hi as (Hb & (rs & fwd & Hrs & Hd & Hf) & Ho & Hw & Hp). unfold order_inv, phase_inv in Ho, Hp.
    rewrite Eph in *. destruct Hf as [Hf ->]. rewrite app_nil_r in Hd. split.
    { unfold boot_inv in *. cbn. rewrite Eq in Hb. by rewrite <- (app_assoc _ [data]). }
    split; [exists (rs ++ [m]), []; cbn; rewrite app_nil_r, Hd; split; [apply Forall2_app; [done|by repeat constructor]|done]|].
    split; [done|]. split; [|done]. unfold writer_inv in *. cbn. by rewrite Eph in Hw.
Qed.

Lemma isb_inv s m : pinv s -> p_phase s = PRead -> pinv (isb_step s m).
Proof.
  intros Hi Eph. pose proof Hi as (Hb & (rs & fwd & Hrs & Hd & Hf) & Ho & (Hr & Hw & Hn) & Hp).
  unfold order_inv, phase_inv in Ho, Hp. rewrite Eph in *. unfold isb_step.
  destruct (p_writer s) as [| |j] eqn:Ew; [done|..].
  - split; [done|]. split; [exists rs, fwd; cbn; by rewrite Hf|]. split; [done|]. split; [|by cbn].
    unfold writer_inv. cbn. rewrite Hr, Hn. cbn. by rewrite app_assoc.
  - apply end_inv; [done| |exists rs, fwd; cbn; rewrite Hf; split_and!; [done..|by apply prefix_app_r]|by right|done].
    unfold writer_inv. cbn. rewrite Hr. destruct Hn as [-> Hj]. rewrite !app_nil_r, app_assoc.
    split_and!; [done..|]. intros Hok. destruct (Hj Hok) as [_ ?]. by rewrite Eph in *.
Qed.

Lemma forward_inv s m : pinv s -> p_phase s = PForward m -> pinv (forward_step s m).
Proof.
  intros Hi Eph. unfold forward_step. destruct (p_down_open s) eqn:Eo; [|by apply pinv_end].
  destruct Hi as (Hb & (rs & fwd & Hrs & Hd & Hf) & Ho & (Hr & Hw & Hn) & Hp).
  unfold order_inv, phase_inv in Ho, Hp. rewrite Eph in *.
  split; [done|]. split; [exists rs, (fwd ++ [m]); cbn; by rewrite Hd, <- app_assoc|].
  split; [done|]. split; [|done]. unfold writer_inv. cbn. done.
Qed.

Lemma queue_inv l s s' : pinv s -> read_isb_with_wal l s = Some s' -> pinv s'.
Proof.
  intros Hi Hs. unfold read_isb_with_wal in Hs.
  destruct l; try done; destruct (p_phase s) eqn:Eph; try done;
    try (by destruct isb; destruct wal).
  - by apply (replay_inv s).
  - destruct isb as [[]|e]; [destruct wal as [[]|e]|]; apply (inj Some) in Hs as <-; [|by apply pinv_end..].
    destruct Hi as (Hb & (rs & fwd & Hrs & Hd & Hf) & Ho & (Hr & Hw & Hn) & Hp).
    unfold order_inv, phase_inv in Ho, Hp. rewrite Eph in *. rewrite Hp in Hn. destruct Hf as [Hf ->].
    split; [done|]. split; [by exists rs, []|]. split; [done|]. split; [|done].
    unfold writer_inv. cbn. split_and!; [done..|]. rewrite Hf in Hr. symmetry in Hr. by apply app_nil in Hr as [_ [? _]%app_nil].
  - apply (inj Some) in Hs as <-. by apply isb_inv.
  - apply (inj Some) in Hs as <-. destruct (read_flows s Hi) as [? ?]; [by rewrite Eph|].
    destruct Hi as (Hb & _ & _ & Hw & Hp). apply set_phase_inv; [done..|by rewrite Eph|].
    unfold phase_inv in *. cbn. by rewrite Eph in Hp.
  - apply (inj Some) in Hs as <-. by apply forward_inv.
  - apply (inj Some) in Hs as <-. apply await_inv; rewrite ?Eph; try done. intros _. destruct Hi as (_ & _ & _ & _ & Hp).
    unfold phase_inv in *. cbn. by rewrite Eph in Hp.
  - destruct (p_writer s) as [| |j] eqn:Ew; try done. apply (inj Some) in Hs as <-. apply await_inv; rewrite ?Eph; try done.
    intros Hok. unfold phase_inv. cbn. rewrite Ew. by destruct j as [[[]|]|].
  - destruct (p_compaction s) as [| |j] eqn:Ec; try done. apply (inj Some) in Hs as <-.
    destruct j as [[[]|e]|]; unfold await_task; cbn [join_error]; [|by apply pinv_end..].
    destruct (read_flows s Hi) as [Ho (rs & fwd & Hf)]; [by rewrite Eph|].
    destruct Hi as (Hb & _ & _ & (Hr & Hw & Hn) & Hp). unfold phase_inv in Hp. rewrite Eph in *.
    split; [done|]. split; [by exists rs, fwd|]. split; [by right|]. split; [|done].
    unfold writer_inv. cbn. rewrite Hp in *. naive_solver.
Qed.

Lemma pbq_step_inv l s s' : pinv s -> pbq_step kind l s = Some s' -> pinv s'.
Proof.
  intros Hi Hs. destruct l; cbn [pbq_step] in Hs;
    try (by eapply compaction_inv); try (by eapply writer_step_inv); try (by eapply queue_inv);
    apply (inj Some) in Hs as <-; exact Hi.
Qed.

Lemma pbq_run_inv ls s s' : pinv s -> pbq_run kind ls s = Some s' -> pinv s'.
Proof.
  revert s. induction ls as [|l ls IH]; intros s Hi Hr; cbn in Hr; [by injection Hr as <-|].
  destruct (pbq_step kind l s) as [s1|] eqn:E; [|done]. eapply IH; [|done]. by eapply pbq_step_inv.
Qed.
End Invariant.

Lemma start_pinv `{Chrono} `{WalCodec} `{HashOrder} kind d :
  pinv (boot_actions kind d ≫= act_replay) (compact kind true false d).2 (pbq_start kind d).
Proof.
  split; [by split|]. split; [exists [], []; split_and!; [constructor|done..]|]. split; [done|].
  split; [|done]. split_and!; [done|constructor|done].
Qed.

(** * What the queue promises *)

(** C11: the flow through the queue. In every interleaving of the queue, the compaction task and
    the writer, with any failures: what is passed on is a prefix of what the log has kept, decoded,
    followed by a prefix of what was read from the buffer, which is not read before the replay
    is over; a message read is acknowledged, rejected or in the channel of the writer, in this
    order, and the acknowledged ones are the ones whose bytes the writer has taken. If the queue
    ends without an error, the whole log was replayed, every message read was passed on and
    every one acknowledged. *)
Theorem pbq_flow (C : Chrono) (K : WalCodec) (H : HashOrder) (kind : WindowKind) (d : CycleDirs)
    (ls : list PLabel) (s : Pbq) :
  pbq_run kind ls (pbq_start kind d) = Some s ->
  exists rs fwd,
    p_replayed s `prefix_of` (boot_actions kind d ≫= act_replay) /\
    Forall2 (fun b m => wal_from_bytes b = Some (Ok m)) (p_replayed s) rs /\
    p_down s = rs ++ fwd /\ fwd `prefix_of` p_read s /\
    (p_read s <> [] -> replay_over s) /\
    p_read s = p_acked s ++ p_nacked s ++ p_wal s /\
    Forall2 (fun m b => wal_to_bytes m = Ok b) (p_acked s) (written (p_events s)) /\
    (p_phase s = PEnded (Some (Ok tt)) ->
       (compact kind true false d).2 = Some (Ok tt) /\
       p_replayed s = boot_actions kind d ≫= act_replay /\
       fwd = p_read s /\ p_acked s = p_read s).
Proof.
  intros Hr. pose proof (pbq_run_inv _ _ _ _ _ _ (start_pinv kind d) Hr) as Hi.
  pose proof Hi as (Hb & Hf & Ho & (Hrd & Hw & Hn) & Hp).
  destruct (flow_prefix _ Hf) as (rs & fwd & Hrs & Hd & Hpre). exists rs, fwd.
  split_and!; try done.
  - unfold boot_inv in Hb. destruct (p_compaction s) as [acts o| |j].
    + destruct Hb as [<- _]. rewrite <- app_assoc. by apply prefix_app_r.
    + destruct Hb as [<- _]. by apply prefix_app_r.
    + destruct (ended_ok j); [destruct Hb as [<- _]; by apply prefix_app_r|].
      etrans; [|exact Hb]. by apply prefix_app_r.
  - intros Hne. by destruct (order_over _ Ho).
  - intros Eph. destruct Hf as (rs' & fwd' & Hrs' & Hd' & Hf'). unfold boot_inv, order_inv, phase_inv in *.
    rewrite Eph in *. destruct (Hp eq_refl) as [Ew Ec]. rewrite Ew in Hn. rewrite Ec in Hb.
    destruct Hn as [Hq Hn]. destruct (Hn eq_refl) as [Hnk _]. destruct Ho as [[? _]|[Hrq _]]; [done|].
    cbn in Hb, Hf'. rewrite Hrq, app_nil_r in Hb. rewrite Hnk, Hq, !app_nil_r in Hrd.
    destruct Hb as [-> ->]. split_and!; [done|done| |done].
    apply Forall2_length in Hrs, Hrs'. rewrite Hd in Hd'. by apply app_inj_1 in Hd' as [_ ->]; [|lia].
Qed.

(** ** The data log while compaction cycles run *)

(** What happens to the directory between the start of the writer of the data log and its end: the
    writer reacts, a compaction cycle deletes a segment it has listed, or another log changes. *)
Inductive DirStep :=
  | ByDataWriter (now : DateTime) (e : WEvent)
  | Compacted (f : string)
  | OtherLog (f : string) (content : option string).

Definition is_listed (t : WalType) (f : string) : bool :=
  starts_with (segment_prefix t) f && bool_decide (extension f = Some "frozen").

(** [None]: the step cannot happen. *)
Fixpoint dir_run (ls : list DirStep) (a : SegmentWriteActor) (dir : gmap string string)
    : option (SegmentWriteActor * gmap string string) :=
  match ls with
  | [] => Some (a, dir)
  | ByDataWriter now e :: ls => let (a', dir') := wexec now e a dir in dir_run ls a' dir'
  | Compacted f :: ls =>
      if is_listed WData f && bool_decide (is_Some (dir !! f)) then dir_run ls a (base.delete f dir) else None
  | OtherLog f content :: ls =>
      if starts_with (segment_prefix WData) f then None else dir_run ls a (partial_alter (fun _ => content) f dir)
  end.

Definition writer_events (ls : list DirStep) : list (DateTime * WEvent) :=
  omap (fun l => match l with ByDataWriter now e => Some (now, e) | _ => None end) ls.
Definition compacted (ls : list DirStep) : list string :=
  omap (fun l => match l with Compacted f => Some f | _ => None end) ls.

(** The life of the writer of the data log among the other steps. *)
Definition data_log_run (mb age : Z) (t0 : DateTime) (ls : list DirStep) (dir : gmap string string) : option (gmap string string) :=
  let (a0, dir0) := actor_start WData mb age t0 dir in
  let? (a, dir1) := dir_run ls a0 dir0 in Some (actor_stop a dir1).

Lemma is_listed_spec t f : is_listed t f = true <-> listed t f.
Proof. unfold is_listed, listed. by rewrite andb_true_iff, bool_decide_eq_true. Qed.

Lemma other_log_inv a dir K cur last k f content :
  winv WData a dir K cur last k -> starts_with (segment_prefix WData) f = false ->
  winv WData a (partial_alter (fun _ => content) f dir) K cur last k.
Proof.
  intros Hw Hf. pose proof (segment_name_prefix _ _ _ _ _ _ _ Hw) as Hp.
  destruct Hw as [? ? ? ? Ho (disk & Hd & Hc) Hfz Hon ? ?].
  assert (Hne : forall g, starts_with (segment_prefix WData) g = true -> f <> g) by congruence.
  split; try done.
  - exists disk. by rewrite lookup_partial_alter_ne by by apply Hne.
  - intros g ds Hg. destruct (Hfz g ds Hg) as (? & [Hpre ?] & ?).
    by rewrite lookup_partial_alter_ne by by apply Hne.
  - intros g Hg Hl. apply Hon; [|done]. by rewrite lookup_partial_alter_ne in Hg by by apply Hne, Hl.
Qed.

Lemma without_perm f ds K : NoDup (K.*1) -> (f, ds) ∈ K -> K ≡ₚ (f, ds) :: without [f] K.
Proof.
  induction K as [|[g es] K IH]; [by intros _ ?%elem_of_nil|]. rewrite fmap_cons, NoDup_cons. cbn [fst].
  intros [Hg Hnd] [[= <- <-]|Hin]%elem_of_cons; unfold without; rewrite filter_cons; cbn [fst].
  - rewrite decide_False by (rewrite list_elem_of_singleton; naive_solver). constructor.
    fold (without [f] K). rewrite without_id; [done|]. by intros g ->%list_elem_of_singleton.
  - rewrite decide_True; [|rewrite list_elem_of_singleton; intros ->; apply Hg, list_elem_of_fmap; by exists (f, ds)].
    fold (without [f] K). rewrite Permutation_swap. by rewrite <- IH.
Qed.

(** Of all the segments [A] of the log, those in [K] are there, those in [X] were compacted. *)
Definition split_log (A K X : list (string * list string)) : Prop := sublist K A /\ A ≡ₚ K ++ X.

Lemma dir_run_inv ls a dir A K X cur last k a' dir' :
  winv WData a dir K cur last k -> split_log A K X -> clock_ok last (writer_events ls) ->
  (k + 2 * N.of_nat (length (writer_events ls)) < 2 ^ 32)%N -> Forall good (written (writer_events ls)) ->
  dir_run ls a dir = Some (a', dir') ->
  exists A' K' X' cur' last' k', winv WData a' dir' K' cur' last' k' /\ split_log A' K' X' /\
    X'.*1 = X.*1 ++ compacted ls /\ concat (A'.*2) ++ cur' = concat (A.*2) ++ cur ++ written (writer_events ls).
Proof.
  revert a dir A K X cur last k. induction ls as [|[now e|f|f content] ls IH]; intros a dir A K X cur last k Hw Hs Hc Hk Hg Hr.
  - injection Hr as <- <-. exists A, K, X, cur, last, k. by rewrite !app_nil_r.
  - cbn [writer_events omap list_omap] in Hc, Hk, Hg |- *. fold (writer_events ls) in *. destruct Hc as (Hl & Hb & Hc).
    rewrite written_cons in *. apply Forall_app in Hg as [Hg1 Hg2]. cbn [length] in Hk.
    edestruct (wexec_inv WData a dir K cur last k now e) as (G & c1 & Hw1 & E1); [done..|lia|done|].
    cbn [dir_run] in Hr. destruct (wexec now e a dir) as [a1 dir1]. cbn [fst snd] in Hw1.
    edestruct (IH a1 dir1 (A ++ G) (K ++ G) X c1 now (k + 2)%N) as (A' & K' & X' & c' & l' & k' & H1 & H2 & H3 & H4); [done| |done|lia|done|done|].
    { destruct Hs as [Hs1 Hs2]. split; [by apply sublist_app|]. rewrite Hs2. solve_Permutation. }
    exists A', K', X', c', l', k'. split_and!; try done. rewrite H4, fmap_app, concat_app, <- !app_assoc. f_equal.
    rewrite (app_assoc (concat G.*2)), E1. by rewrite <- app_assoc.
  - cbn [dir_run] in Hr. destruct (is_listed WData f) eqn:Ef; [|done]. rewrite is_listed_spec in Ef.
    case_bool_decide as Hd; [|done]. cbn [andb] in Hr.
    pose proof (wi_only _ _ _ _ _ _ _ Hw f Hd Ef) as Hin. apply list_elem_of_fmap in Hin as ([f' ds] & -> & Hin). cbn [fst] in *.
    assert (Hnd : NoDup (K.*1)).
    { pose proof (wi_order _ _ _ _ _ _ _ Hw) as Ho. apply StronglySorted_app_1_l in Ho. by apply StronglySorted_key_NoDup. }
    assert (Hne : f' <> current_file_name a) by (intros ->; by eapply current_not_listed).
    edestruct (IH a (base.delete f' dir) A (without [f'] K) (X ++ [(f', ds)]) cur last k) as (A' & K' & X' & c' & l' & k' & H1 & H2 & H3 & H4);
      [by apply delete_inv| |done..|].
    { destruct Hs as [Hs1 Hs2]. split; [etrans; [apply sublist_filter|done]|].
      rewrite Hs2. rewrite (without_perm f' ds K Hnd Hin) at 1. solve_Permutation. }
    exists A', K', X', c', l', k'. split_and!; try done. rewrite H3, fmap_app, <- app_assoc. done.
  - cbn [dir_run] in Hr. destruct (starts_with _ f) eqn:Ef; [done|].
    eapply IH; [by apply other_log_inv|done..].
Qed.

Lemma data_log_split mb age t0 ls dir F dir' :
  frozen_log WData dir F ->
  Forall (fun f => Z.of_N (parse_segment_create_micros f) < t0 / 1000) (F.*1) ->
  0 <= t0 -> t0 / 1000 < 2 ^ 64 -> clock_ok t0 (writer_events ls) -> Z.of_nat (length (writer_events ls)) < 2 ^ 31 ->
  Forall good (written (writer_events ls)) ->
  data_log_run mb age t0 ls dir = Some dir' ->
  exists A K X, frozen_log WData dir' K /\ split_log A K X /\ X.*1 = compacted ls /\
    concat (A.*2) = concat (F.*2) ++ written (writer_events ls).
Proof.
  intros Hl Hnew H0 Hb Hc Hn Hg. pose proof (start_inv WData mb age t0 dir F Hl H0 Hb Hnew) as Hw.
  unfold data_log_run. destruct (actor_start WData mb age t0 dir) as [a0 dir0]. cbn [fst snd] in Hw.
  destruct (dir_run ls a0 dir0) as [[a dir1]|] eqn:Er; [|done]. intros [= <-].
  edestruct (dir_run_inv ls a0 dir0 F F [] [] t0 0 a dir1) as (A & K & X & cur & l & k & Hw' & [Hs Hp] & Hx & E); try done; [|lia|].
  { split; [done|]. by rewrite app_nil_r. }
  destruct (stop_inv _ _ _ _ _ _ _ Hw') as (G & Hl' & <-). exists (A ++ G), (K ++ G), X. split_and!; try done.
  - split; [by apply sublist_app|]. rewrite Hp. solve_Permutation.
  - by rewrite fmap_app, concat_app, E.
Qed.

(** C12: nothing is lost between two runs. Take a run of the queue that has ended without an
    error, and any interleaving of what its writer has done with the deletions of data segments by
    the compaction cycles meanwhile and the changes of the other logs. The data log consists of
    whole segments that hold, in order, the entries that were there before followed by exactly
    the messages the run has read from the buffer, as replay makes them: the segments the
    compaction has deleted, which it had read as a whole, and the others, which the next replay
    yields without an error, in order. *)
Theorem pbq_restart (C : Chrono) (K : WalCodec) (H : HashOrder) (kind : WindowKind) (d : CycleDirs)
    (ls : list PLabel) (s : Pbq) (mb age : Z) (t0 : DateTime) (dir dir' : gmap string string)
    (F : list (string * list string)) (es : list DirStep) :
  pbq_run kind ls (pbq_start kind d) = Some s -> p_phase s = PEnded (Some (Ok tt)) ->
  writer_events es = p_events s -> data_log_run mb age t0 es dir = Some dir' ->
  Forall encodable (p_read s) -> frozen_log WData dir F ->
  Forall (fun f => Z.of_N (parse_segment_create_micros f) < t0 / 1000) (F.*1) ->
  0 <= t0 -> t0 / 1000 < 2 ^ 64 -> clock_ok t0 (p_events s) -> Z.of_nat (length (p_events s)) < 2 ^ 31 ->
  Forall good (written (p_events s)) ->
  exists segments kept gone,
    wal_from_bytes <$> concat (segments.*2) =
      (wal_from_bytes <$> omap entry_data (streaming_read WData dir).1) ++ ((fun m => Some (Ok (as_replayed m))) <$> p_read s) /\
    sublist kept segments /\ segments ≡ₚ kept ++ gone /\ gone.*1 = compacted es /\
    (streaming_read WData dir').2 = Ok tt /\
    omap entry_data (streaming_read WData dir').1 = concat (kept.*2).
Proof.
  intros Hr Eph Hev Hdr Henc Hl. pose proof (pbq_run_inv _ _ _ _ _ _ (start_pinv kind d) Hr) as (_ & _ & _ & (Hrd & Hw & Hn) & Hp).
  unfold phase_inv in Hp. rewrite Eph in *. destruct (Hp eq_refl) as [Ew _]. rewrite Ew in Hn.
  destruct Hn as [Hq Hn]. destruct (Hn eq_refl) as [Hnk _]. rewrite Hnk, Hq, !app_nil_r in Hrd.
  rewrite Hrd in Henc |- *. intros Hnew H0 Hb Hc Hlen Hg. rewrite <- Hev in *.
  destruct (data_log_split mb age t0 es dir F dir' Hl Hnew H0 Hb Hc Hlen Hg Hdr) as (A & KK & X & Hl' & [Hs Hperm] & Hx & E).
  exists A, KK, X. rewrite (replay_log _ _ _ Hl'), (replay_log _ _ _ Hl). cbn [fst snd]. rewrite !log_entries_data.
  split_and!; try done. rewrite E, fmap_app. f_equal. by apply acked_decode.
Qed.

(** * Concrete runs *)

#[local] Existing Instance chrono_utc.
#[local] Existing Instance sample_codec.
#[local] Existing Instance canonical_order.

(** One message in the log, one in the buffer; the compaction task is cancelled at the end. *)
Definition one_flow : list PLabel :=
  [LBoot; LBoot; LReplay; LBoot; LBoot; LBoot; LReplay; LStart (Ok tt) (Ok tt); LIsb keyed_message; LTick one_dirs;
   LWrite 3000000 true; LForward; LTimer 3000001 FlushTick; LCancel; LIsbEnd; LIsbJoin (Some (Ok tt));
   LCompactionStop (Ok tt); LWriterEnd (Ok tt); LWalJoin; LCompactionJoin].

Lemma pbq_flow_witness :
  exists s, pbq_run Aligned one_flow (pbq_start Aligned one_dirs) = Some s /\
    p_phase s = PEnded (Some (Ok tt)) /\ p_replayed s = ["m"] /\ p_acked s = [keyed_message] /\
    boot_actions Aligned one_dirs ≫= act_replay = ["m"].
Proof.
  eexists. split; [vm_compute; reflexivity|].
  edestruct (pbq_flow chrono_utc sample_codec canonical_order Aligned one_dirs one_flow)
    as (rs & fwd & _ & _ & _ & _ & _ & _ & _ & Hok); [vm_compute; reflexivity|].
  destruct (Hok eq_refl) as (_ & Hrep & _ & Hack). split; [reflexivity|]. split; [reflexivity|].
  split; [exact Hack|]. symmetry. exact Hrep.
Defined.

(** The directory of this run: an old data segment is compacted while the writer waits. *)
Definition one_dir_steps : list DirStep :=
  [ByDataWriter 3000000 (Write "m"); Compacted "data_0_1.wal.frozen"; OtherLog "compact_0_5.wal" (Some "");
   ByDataWriter 3000001 FlushTick].

Lemma one_dir_log : frozen_log WData one_dir [("data_0_1.wal.frozen", ["m"])].
Proof.
  split; cbn [fmap list_fmap fst].
  - repeat constructor.
  - intros f ds [= -> ->]%list_elem_of_singleton. split; [reflexivity|]. split; [split; reflexivity|].
    constructor; [|constructor]. by split.
  - intros f [c Hc] _. unfold one_dir in Hc. apply lookup_singleton_Some in Hc as [<- _]. by left.
Qed.

Definition one_end : Pbq := default (pbq_start Aligned one_dirs) (pbq_run Aligned one_flow (pbq_start Aligned one_dirs)).
Definition one_dir_end : gmap string string := default ∅ (data_log_run 1 300 2000000 one_dir_steps one_dir).

Lemma one_end_events : p_events one_end = [(3000000, Write "m"); (3000001, FlushTick)].
Proof. vm_compute. reflexivity. Qed.
Lemma one_end_read : p_read one_end = [keyed_message].
Proof. vm_compute. reflexivity. Qed.

Lemma pbq_restart_witness :
  p_read one_end = [keyed_message] /\
  exists segments kept gone, sublist kept segments /\ segments ≡ₚ kept ++ gone /\ gone.*1 = ["data_0_1.wal.frozen"] /\
    omap entry_data (streaming_read WData one_dir_end).1 = concat (kept.*2) /\ concat (kept.*2) = ["m"].
Proof.
  split; [exact one_end_read|].
  destruct (pbq_restart chrono_utc sample_codec canonical_order Aligned one_dirs one_flow one_end 1 300 2000000 one_dir one_dir_end
    [("data_0_1.wal.frozen", ["m"])] one_dir_steps) as (sg & kp & gn & _ & Hs & Hp & Hg & _ & Hr).
  - vm_compute. reflexivity.
  - vm_compute. reflexivity.
  - by rewrite one_end_events.
  - vm_compute. reflexivity.
  - rewrite one_end_read. constructor; [|constructor]. split; [by vm_compute|]. split; [by intros|]. split; vm_compute; reflexivity.
  - exact one_dir_log.
  - repeat constructor.
  - done.
  - done.
  - rewrite one_end_events. repeat split; done.
  - by rewrite one_end_events.
  - rewrite one_end_events. constructor; [|constructor]. by split.
  - exists sg, kp, gn. split; [exact Hs|]. split; [exact Hp|]. split; [exact Hg|]. split; [exact Hr|].
    rewrite <- Hr. vm_compute. reflexivity.
Defined.

(** A segment whose second entry is cut short, in a directory with nothing else. *)
Definition torn_dir : gmap string string :=
  {["data_0_1.wal.frozen" := le_bytes 8 5 +:+ "m"; "data_1_2.wal.frozen" := frames ["m"]]}.
Definition torn_dirs : CycleDirs := mkCycleDirs torn_dir torn_dir torn_dir torn_dir torn_dir.

(** The cycle of the start fails on the cut segment. The end of the compaction task closes the
    channel of the replay, which the queue takes for the end of the replay: it passes on and
    acknowledges messages of the buffer, although the whole next segment was not replayed. The
    error is seen only when the stream of the buffer has ended. *)
Example boot_failure_ignored :
  exists s e, pbq_run Aligned [LBoot; LReplay; LStart (Ok tt) (Ok tt); LIsb keyed_message; LForward; LWrite 3000000 true]
      (pbq_start Aligned torn_dirs) = Some s /\
    p_compaction s = CEnded (Some (Err e)) /\ p_phase s = PRead /\ p_cancelled s = false /\
    p_down s = [keyed_message] /\ p_acked s = [keyed_message] /\ p_replayed s = [].
Proof. do 2 eexists. split; [vm_compute; reflexivity|]. split_and!; reflexivity. Qed.
