(* ===== verification/ServerInfo.v ===== *)
(** The server-info file of a user-defined function (src/rust/numaflow-shared/src/server_info.rs):
    reading it, and the check that the versions of the controller and of the SDK go together.

    The crates semver and pep440 and the JSON parser are parameters. Of semver the model uses the
    documented text of a version and the documented meaning of a requirement [>=]. *)
From stdpp Require Import pretty.
From S2P Require Import Prelude Clock Message Wal.
Open Scope N_scope.

(** * Strings *)

Fixpoint contains (p s : string) : bool :=
  starts_with p s || match s with EmptyString => false | String _ s => contains p s end.
Definition ends_with (p s : string) : bool :=
  bool_decide (sdrop (String.length s - String.length p) s = p).
Definition strip_suffix (p s : string) : option string :=
  if ends_with p s then Some (stake (String.length s - String.length p) s) else None.
(** [trim_end_matches], for a pattern that is not empty: every turn shortens the text. *)
Fixpoint trim_end_go (fuel : nat) (p s : string) : string :=
  match fuel with
  | O => s
  | S fuel => match strip_suffix p s with Some s' => trim_end_go fuel p s' | None => s end
  end.
Definition trim_end_matches (p s : string) : string := trim_end_go (String.length s) p s.

Definition letter_v : Ascii.ascii := Ascii.Ascii false true true false true true true false.
Definition dash : Ascii.ascii := Ascii.Ascii true false true true false true false false.
Definition comma : Ascii.ascii := Ascii.Ascii false false true true false true false false.
Definition greater : Ascii.ascii := Ascii.Ascii false true true true true true false false.
Definition equals : Ascii.ascii := Ascii.Ascii true false true true true true false false.

Fixpoint trim_v (s : string) : string :=
  match s with
  | String a s' => if decide (a = letter_v) then trim_v s' else s
  | EmptyString => s
  end.
Fixpoint trim_ge (s : string) : string :=
  match s with
  | String a (String b s') => if decide (a = greater /\ b = equals) then trim_ge s' else s
  | _ => s
  end.
Fixpoint trim_after_dash (input : string) : string :=
  match input with
  | String a s => if decide (a = dash) then "" else String a (trim_after_dash s)
  | EmptyString => ""
  end.

(** * Names *)

Inductive MapMode := MapUnary | MapBatch | MapStream.
Definition map_mode_from (s : string) : MapMode :=
  if decide (s = "unary-map") then MapUnary
  else if decide (s = "stream-map") then MapStream
  else if decide (s = "batch-map") then MapBatch
  else MapUnary.

Inductive Language := Go | Python | Java | Rust | UnknownLanguage.
#[global] Instance Language_eq_dec : EqDecision Language.
Proof. solve_decision. Defined.
Definition language_as_str (l : Language) : string :=
  match l with Go => "go" | Python => "python" | Java => "java" | Rust => "rust" | UnknownLanguage => "unknown" end.
Definition is_python (l : Language) : bool := match l with Python => true | _ => false end.
Definition is_unknown (l : Language) : bool := match l with UnknownLanguage => true | _ => false end.
(** serde: the names in lower case, every other text is the unknown language. *)
Definition language_deserialize (s : string) : Language :=
  if decide (s = "go") then Go else if decide (s = "python") then Python
  else if decide (s = "java") then Java else if decide (s = "rust") then Rust else UnknownLanguage.

Inductive Protocol := TCP | UDS.
Definition protocol_deserialize (s : string) : Protocol := if decide (s = "tcp") then TCP else UDS.

Inductive ContainerType :=
  | Sourcer | SourceTransformer | Sinker | MapperContainer | Reducer | ReduceStreamer | SessionReducer
  | AccumulatorContainer | SideInput | FbSinker | OnsSinker | UnknownContainer.
#[global] Instance ContainerType_eq_dec : EqDecision ContainerType.
Proof. solve_decision. Defined.
Definition container_as_str (t : ContainerType) : string :=
  match t with
  | Sourcer => "sourcer"
  | SourceTransformer => "sourcetransformer"
  | Sinker => "sinker"
  | MapperContainer => "mapper"
  | Reducer => "reducer"
  | ReduceStreamer => "reducestreamer"
  | SessionReducer => "sessionreducer"
  | AccumulatorContainer => "accumulator"
  | SideInput => "sideinput"
  | FbSinker => "fb-sinker"
  | OnsSinker => "ons-sinker"
  | UnknownContainer => "unknown"
  end.
Definition known_containers : list ContainerType :=
  [Sourcer; SourceTransformer; Sinker; MapperContainer; Reducer; ReduceStreamer; SessionReducer;
   AccumulatorContainer; SideInput; FbSinker; OnsSinker].
(** From the name of the file. *)
Definition container_from (file_name : string) : ContainerType :=
  let ctnr_str := trim_end_matches "-server-info" file_name in
  match list_find (fun t => container_as_str t = ctnr_str) known_containers with
  | Some (_, t) => t
  | None => UnknownContainer
  end.

Record ServerInfo := mkServerInfo {
  si_protocol : Protocol;
  si_language : Language;
  si_minimum_numaflow_version : string;
  si_version : string;
  si_metadata : option (gmap string string)
}.
Definition MAP_MODE_KEY : string := "MAP_MODE".
Definition HTTP_ENDPOINTS_KEY : string := "MULTIPROC_ENDPOINTS".
Definition get_map_mode (self : ServerInfo) : option MapMode :=
  match si_metadata self with Some md => map_mode_from <$> md !! MAP_MODE_KEY | None => None end.
Definition get_http_endpoints (self : ServerInfo) : list string :=
  match si_metadata self with
  | Some md => match md !! HTTP_ENDPOINTS_KEY with Some endpoints => split_at comma endpoints | None => [] end
  | None => []
  end.

(** * The tables *)

Definition all_at (v : string) (ts : list ContainerType) : list (ContainerType * string) := (fun t => (t, v)) <$> ts.
Definition first_containers : list ContainerType :=
  [Sourcer; SourceTransformer; Sinker; FbSinker; MapperContainer; SideInput; Reducer].
Definition streaming_containers : list ContainerType := [ReduceStreamer; SessionReducer].

Definition minimum_supported_sdk_versions (l : Language) : option (list (ContainerType * string)) :=
  match l with
  | Go | Java => Some (all_at "0.9.0-z" (first_containers ++ streaming_containers) ++
                       [(AccumulatorContainer, "0.10.0-z"); (OnsSinker, "0.10.2-z")])
  | Python => Some (all_at "0.9.0rc100" (first_containers ++ streaming_containers) ++
                    [(AccumulatorContainer, "0.10.0rc100"); (OnsSinker, "0.11.1rc100")])
  | Rust => Some (all_at "0.2.0-z" first_containers ++ all_at "0.3.0-z" streaming_containers ++
                  [(AccumulatorContainer, "0.3.0-z"); (OnsSinker, "0.4.0-z")])
  | UnknownLanguage => None
  end.
Definition find_container (t : ContainerType) (m : list (ContainerType * string)) : option string :=
  snd ∘ snd <$> list_find (fun p => p.1 = t) m.

Definition nack_support_sdk_versions (l : Language) : option string :=
  match l with
  | Go | Java => Some "0.11.0-z"
  | Python => Some "0.11.0rc100"
  | Rust => Some "0.4.0-z"
  | UnknownLanguage => None
  end.

(** * The version of the controller *)

Record ControllerVersionInfo := mkControllerVersionInfo {
  cv_version : string;
  cv_build_date : string;
  cv_git_commit : string;
  cv_git_tag : string;
  cv_git_tree_state : string;
  cv_go_version : string;
  cv_compiler : string;
  cv_platform : string
}.

(** [&s[..n]]: [None] is the panic when [n] is not at the boundary of a character. *)
Definition str_prefix (n : nat) (s : string) : option string :=
  if continuation (shead (sdrop n s)) then None else Some (stake n s).

Definition controller_version_str (version git_commit git_tag git_tree_state : string) : option string :=
  if negb (bool_decide (git_commit = "")) && negb (bool_decide (git_tag = "")) && bool_decide (git_tree_state = "clean")
  then Some git_tag
  else if negb (bool_decide (git_commit = "")) && (7 <=? String.length git_commit)%nat then
    let? short := str_prefix 7 git_commit in
    Some (version +:+ "+" +:+ short +:+ (if decide (git_tree_state = "clean") then "" else ".dirty"))
  else Some (version +:+ "+unknown").

(** [env] reads the environment, [platform] is the target of the build. *)
Definition controller_version_init (env : string -> option string) (platform : string) : option ControllerVersionInfo :=
  let var x d := default d (env x) in
  let version := var "VERSION" "latest" in
  let git_commit := var "GIT_COMMIT" "" in
  let git_tag := var "GIT_TAG" "" in
  let git_tree_state := var "GIT_TREE_STATE" "" in
  let? version_str := controller_version_str version git_commit git_tag git_tree_state in
  Some (mkControllerVersionInfo version_str (var "BUILD_DATE" "1970-01-01T00:00:00Z") git_commit git_tag
    git_tree_state (var "GO_VERSION" "unknown") (var "COMPILER" "") (var "PLATFORM" platform)).

(** * The libraries *)

(** [semver::Version]. *)
Record Version := mkVersion { v_major : N; v_minor : N; v_patch : N; v_pre : string; v_build : string }.
Definition mmp (v : Version) : N * N * N := (v_major v, v_minor v, v_patch v).
Definition mmp_str (p : N * N * N) : string :=
  pretty p.1.1 +:+ "." +:+ pretty p.1.2 +:+ "." +:+ pretty p.2.
Definition mmp_le (p q : N * N * N) : bool :=
  (p.1.1 <? q.1.1) || (p.1.1 =? q.1.1) && ((p.1.2 <? q.1.2) || (p.1.2 =? q.1.2) && (p.2 <=? q.2)).
Definition mmp_fits (p : N * N * N) : Prop := p.1.1 < 2 ^ 64 /\ p.1.2 < 2 ^ 64 /\ p.2 < 2 ^ 64.
Definition tagged (c s : string) : string := if decide (s = "") then "" else c +:+ s.

(** Build metadata without hyphens: identifiers of letters and digits, separated by dots. *)
Definition alphanumeric (a : Ascii.ascii) : bool :=
  let n := Ascii.N_of_ascii a in
  (48 <=? n) && (n <=? 57) || (65 <=? n) && (n <=? 90) || (97 <=? n) && (n <=? 122).
Fixpoint all_alphanumeric (s : string) : bool :=
  match s with EmptyString => true | String a s => alphanumeric a && all_alphanumeric s end.
Definition build_ok (b : string) : bool :=
  bool_decide (b = "") || forallb (fun i => negb (bool_decide (i = "")) && all_alphanumeric i) (split_at dot b).

(** [Version::parse], its [Display], and [VersionReq::parse] with [matches]. The laws: the text of
    a version; a version without pre-release parses; a requirement [>=] of a bare version is met by the versions
    at or above it that are not pre-releases (a pre-release meets a requirement only if the
    requirement names a pre-release of the same version). *)
Class Semver := {
  version_parse : string -> option Version;
  version_to_string : Version -> string;
  req_parse : string -> option (Version -> bool);
  version_to_string_eq : forall v,
    version_to_string v = mmp_str (mmp v) +:+ tagged "-" (v_pre v) +:+ tagged "+" (v_build v);
  version_parse_stable : forall p b, mmp_fits p -> build_ok b = true ->
    version_parse (mmp_str p +:+ tagged "+" b) = Some (mkVersion p.1.1 p.1.2 p.2 "" b);
  req_parse_bare : forall p, mmp_fits p -> exists f, req_parse (">=" +:+ mmp_str p) = Some f /\
    forall v, f v = mmp_le p (mmp v) && bool_decide (v_pre v = "")
}.

(** [pep440_rs]: a version, and the specifier [>=] as a test. *)
Class Pep440 := {
  PepVersion : Type;
  pep_parse : string -> option PepVersion;
  pep_spec : string -> option (PepVersion -> bool)
}.

(** * The checks *)

Definition info_err {A} (what : string) : Result A := Err (EOther what).

(** "0.8.0-z" and "0.8.0rc100" stand for the stable version. *)
Definition human_readable (ver : string) : string :=
  match strip_suffix "-z" ver with
  | Some v => v
  | None => match strip_suffix "rc100" ver with Some v => v | None => ver end
  end.

Section Checks.
Context `{Semver} `{Pep440}.

(** [check_constraint]; [fuel] bounds its calls of itself. *)
Fixpoint check_constraint (fuel : nat) (version : Version) (constraint : string) : option (Result unit) :=
  let binding := version_to_string version in
  match version_parse (default "" (head (split_at dash binding))) with
  | None => Some (info_err "Error parsing version")
  | Some mmp_version =>
      let mmp_ver_str_constraint := trim_after_dash (trim_ge constraint) in
      let mmp_ver_constraint := ">=" +:+ mmp_ver_str_constraint in
      let other := negb (starts_with mmp_ver_str_constraint binding) in
      let plain :=
        match req_parse constraint with
        | None => info_err "Error parsing constraint"
        | Some req => if req version then Ok tt else info_err "invalid version"
        end in
      match fuel with
      | O => if contains "-" constraint then None else Some plain
      | S fuel =>
          if contains "-z" constraint then
            if other then check_constraint fuel mmp_version mmp_ver_constraint
            else check_constraint fuel version mmp_ver_constraint
          else if contains "-" constraint && other then check_constraint fuel mmp_version mmp_ver_constraint
          else Some plain
      end
  end.

Definition check_controller_compatibility (numaflow_version min_numaflow_version : string) : option (Result unit) :=
  if decide (min_numaflow_version = "") then Some (info_err "invalid version")
  else
    match version_parse (trim_v numaflow_version) with
    | None => Some (info_err "Error parsing Numaflow version")
    | Some v =>
        let? r := check_constraint 1 v (">=" +:+ min_numaflow_version) in
        Some (match r with
              | Ok _ => Ok tt
              | Err _ => info_err ("numaflow version must be upgraded to at least " +:+ human_readable min_numaflow_version)
              end)
    end.

Definition check_sdk_compatibility (sdk_version : string) (sdk_language : Language) (container_type : ContainerType)
    (min_supported : Language -> option (list (ContainerType * string))) : option (Result unit) :=
  match min_supported sdk_language with
  | None => Some (info_err "SDK version constraint not found for language")
  | Some lang_constraints =>
      match find_container container_type lang_constraints with
      | None => Some (info_err "SDK version constraint not found for language and container type")
      | Some required =>
          let upgrade := "SDK version must be upgraded to at least " +:+ human_readable required in
          let sdk_constraint := ">=" +:+ required in
          if is_python sdk_language then
            match pep_parse sdk_version with
            | None => Some (info_err "Error parsing SDK version")
            | Some v =>
                match pep_spec sdk_constraint with
                | None => Some (info_err "Error parsing SDK constraint")
                | Some spec => Some (if spec v then Ok tt else info_err upgrade)
                end
            end
          else
            match version_parse (trim_v sdk_version) with
            | None => Some (info_err "Error parsing SDK version")
            | Some v =>
                let? r := check_constraint 1 v sdk_constraint in
                Some (match r with Ok _ => Ok tt | Err _ => info_err upgrade end)
            end
      end
  end.

Definition supports_nack (sdk_version : string) (sdk_language : Language) : option bool :=
  if bool_decide (sdk_version = "") || is_unknown sdk_language then Some false
  else
    match nack_support_sdk_versions sdk_language with
    | None => Some false
    | Some required =>
        let constraint := ">=" +:+ required in
        if is_python sdk_language then
          Some (match pep_parse sdk_version, pep_spec constraint with
                | Some v, Some spec => spec v
                | _, _ => false
                end)
        else
          match version_parse (trim_v sdk_version) with
          | None => Some false
          | Some v => let? r := check_constraint 1 v constraint in Some (match r with Ok _ => true | Err _ => false end)
          end
    end.

(** * Reading the file *)

Definition END : string := "U+005C__END__".

(** Waiting for the file: at each look, whether the token is cancelled and the length of the file if
    it is there. [None]: still waiting. *)
Fixpoint wait_ready (looks : list (bool * option N)) : option (Result unit) :=
  match looks with
  | [] => None
  | (true, _) :: _ => Some (info_err "Server info file is not ready")
  | (false, len) :: looks =>
      match len with Some n => if 0 <? n then Some (Ok tt) else wait_ready looks | None => wait_ready looks end
  end.

(** Reading: [attempt i] is what the [i]-th attempt reads. At most ten attempts. *)
Definition READ_ATTEMPTS : nat := 10.
Fixpoint read_contents (tries : nat) (attempt : nat -> option string) (i : nat) : Result string :=
  match tries with
  | O => info_err "server-info reading retry exceeded"
  | S tries =>
      match attempt i with
      | Some data => if ends_with END data then Ok (trim_end_matches END data) else read_contents tries attempt (S i)
      | None => read_contents tries attempt (S i)
      end
  end.

(** [json] parses the contents. *)
Definition read_server_info (looks : list (bool * option N)) (attempt : nat -> option string)
    (json : string -> option ServerInfo) : option (Result ServerInfo) :=
  let? r := wait_ready looks in
  Some (try! _ := r in
        try! contents := read_contents READ_ATTEMPTS attempt 0 in
        ok_or (json contents) (EOther "Failed to parse server-info file")).

Definition check_server_info (file_name : string) (cv : ControllerVersionInfo) (server_info : ServerInfo)
    : option (Result unit) :=
  let container_type := container_from file_name in
  let controller_version := cv_version cv in
  let min_controller_version := si_minimum_numaflow_version server_info in
  let? r :=
    if decide (min_controller_version = "") then Some (Ok tt)
    else if negb (contains "latest" controller_version) && negb (contains (cv_git_commit cv) controller_version)
    then check_controller_compatibility controller_version min_controller_version
    else Some (Ok tt) in
  match r with
  | Err e => Some (Err e)
  | Ok _ =>
      if bool_decide (si_version server_info = "") || is_unknown (si_language server_info) then Some (Ok tt)
      else check_sdk_compatibility (si_version server_info) (si_language server_info) container_type
             minimum_supported_sdk_versions
  end.

Definition sdk_server_info (file_name : string) (looks : list (bool * option N)) (attempt : nat -> option string)
    (json : string -> option ServerInfo) (cv : ControllerVersionInfo) : option (Result ServerInfo) :=
  let? r := read_server_info looks attempt json in
  match r with
  | Err e => Some (Err e)
  | Ok server_info =>
      let? c := check_server_info file_name cv server_info in
      Some (match c with Ok _ => Ok server_info | Err e => Err e end)
  end.
End Checks.

(** * Lemmas on strings *)

Lemma lacks_dash_contains s : lacks dash s -> contains "-" s = false.
Proof.
  induction s as [|a s IH]; [done|]. intros [Ha Hs]. cbn [contains starts_with].
  rewrite bool_decide_eq_false_2 by (intros E; by apply Ha). cbn. auto.
Qed.
Lemma lacks_dash_z s : lacks dash s -> contains "-z" s = false.
Proof.
  induction s as [|a s IH]; [done|]. intros [Ha Hs]. cbn [contains starts_with].
  rewrite bool_decide_eq_false_2 by (intros E; by apply Ha). cbn. auto.
Qed.
Lemma trim_after_dash_lacks s : lacks dash (trim_after_dash s).
Proof. induction s as [|a s IH]; cbn; [done|]. by case_decide. Qed.
Lemma trim_after_dash_id s : lacks dash s -> trim_after_dash s = s.
Proof. induction s as [|a s IH]; cbn; [done|]. intros [Ha Hs]. rewrite decide_False by done. by rewrite IH. Qed.
Lemma trim_after_dash_app s t : lacks dash s -> trim_after_dash (s +:+ String dash t) = s.
Proof.
  induction s as [|a s IH]; [done|]. intros [Ha Hs]. rewrite sapp_cons. cbn [trim_after_dash].
  rewrite decide_False by done. by rewrite IH.
Qed.
Lemma contains_app p s t : contains p t = true -> contains p (s +:+ t) = true.
Proof. intros Ht. induction s as [|a s IH]; [done|]. rewrite sapp_cons. cbn [contains]. by rewrite IH, orb_true_r. Qed.

(** A version as text *)
Lemma mmp_str_lacks c p : digit_of c = None -> c <> dot -> lacks c (mmp_str p).
Proof.
  intros Hc Hd. unfold mmp_str.
  assert (Hn : forall n : N, lacks c (pretty n)) by (intros; apply digits_lack; [done|apply pretty_N_digits]).
  repeat apply lacks_app; try apply Hn; (split; [|done]); by intros <-.
Qed.
Lemma mmp_str_lacks_dash p : lacks dash (mmp_str p).
Proof. by apply mmp_str_lacks. Qed.

Lemma trim_ge_mmp p s : trim_ge (">=" +:+ mmp_str p +:+ s) = mmp_str p +:+ s.
Proof.
  change (trim_ge (mmp_str p +:+ s) = mmp_str p +:+ s). unfold mmp_str.
  destruct (pretty_N_digits p.1.1) as (Hd & Hne & _). destruct (pretty p.1.1) as [|a r]; [done|].
  destruct Hd as [[d Hd] _]. rewrite !sapp_cons. destruct ((r +:+ _) +:+ s) as [|b r']; [done|].
  cbn. rewrite decide_False; [done|]. intros [-> _]. done.
Qed.

Lemma alphanumeric_lacks c s : alphanumeric c = false -> all_alphanumeric s = true -> lacks c s.
Proof.
  intros Hc. induction s as [|a s IH]; cbn; [done|]. intros [Ha Hs]%andb_true_iff. split; [|auto].
  intros ->. congruence.
Qed.
Lemma split_lacks c sep s : c <> sep -> Forall (lacks c) (split_at sep s) -> lacks c s.
Proof.
  intros Hc. induction s as [|a s IH]; [done|]. cbn [split_at]. case_decide as Ha.
  - intros [_ Hs]%Forall_cons. split; [congruence|auto].
  - destruct (split_at sep s) as [|x xs].
    + intros [[? _] _]%Forall_cons. split; [done|]. apply IH. constructor.
    + intros [[? Hx] Hxs]%Forall_cons. split; [done|]. apply IH. by constructor.
Qed.
Lemma build_lacks_dash b : build_ok b = true -> lacks dash b.
Proof.
  unfold build_ok. intros [->%bool_decide_eq_true|Hb]%orb_true_iff; [done|].
  apply split_lacks with (sep := dot); [done|]. apply Forall_forall. intros x Hx.
  rewrite forallb_forall in Hb. specialize (Hb x). rewrite <- list_elem_of_In in Hb.
  apply Hb, andb_true_iff in Hx as [_ Hx]. by apply alphanumeric_lacks.
Qed.

(** * The check of a constraint *)

Section CheckProofs.
Context `{Semver} `{Pep440}.

Lemma check_constraint_S fuel v c :
  check_constraint (S fuel) v c =
  match version_parse (default "" (head (split_at dash (version_to_string v)))) with
  | None => Some (info_err "Error parsing version")
  | Some m =>
      let bare := trim_after_dash (trim_ge c) in
      let other := negb (starts_with bare (version_to_string v)) in
      if contains "-z" c then check_constraint fuel (if other then m else v) (">=" +:+ bare)
      else if contains "-" c && other then check_constraint fuel m (">=" +:+ bare)
      else Some (match req_parse c with
                 | None => info_err "Error parsing constraint"
                 | Some req => if req v then Ok tt else info_err "invalid version"
                 end)
  end.
Proof.
  cbn [check_constraint]. destruct (version_parse _); [|done]. cbv zeta. destruct (contains "-z" c); [|done].
  by destruct (negb _).
Qed.

(** One call of itself is enough. *)
Lemma check_constraint_total v c : is_Some (check_constraint 1 v c).
Proof.
  rewrite check_constraint_S. destruct (version_parse _) as [m|]; [|done]. cbv zeta.
  assert (Hrec : forall v', is_Some (check_constraint 0 v' (">=" +:+ trim_after_dash (trim_ge c)))).
  { intros v'. cbn [check_constraint]. destruct (version_parse _); [|done].
    rewrite lacks_dash_contains by (do 2 (split; [done|]); apply trim_after_dash_lacks). done. }
  destruct (contains "-z" c); [apply Hrec|].
  destruct (contains "-" c && _); [apply Hrec|done].
Qed.

(** The version without its pre-release parses. *)
Definition stable_part (v : Version) : Version :=
  mkVersion (v_major v) (v_minor v) (v_patch v) "" (if decide (v_pre v = "") then v_build v else "").
Definition well_formed (v : Version) : Prop := mmp_fits (mmp v) /\ build_ok (v_build v) = true.

Lemma stable_part_ok v : well_formed v -> well_formed (stable_part v) /\ mmp (stable_part v) = mmp v /\ v_pre (stable_part v) = "".
Proof. intros [Hf Hb]. repeat split; try apply Hf. cbn. by case_decide. Qed.

Lemma parse_stable_part v : well_formed v ->
  version_parse (default "" (head (split_at dash (version_to_string v)))) = Some (stable_part v).
Proof.
  intros [Hf Hb]. rewrite version_to_string_eq. unfold stable_part, tagged at 1. case_decide as Hp.
  - cbn [String.append]. rewrite split_at_lacks; [by apply (version_parse_stable (mmp v))|].
    apply lacks_app; [apply mmp_str_lacks_dash|]. unfold tagged. case_decide; [done|].
    apply (lacks_app _ "+"); [done|by apply build_lacks_dash].
  - rewrite sapp_assoc. change ("-" +:+ ?s) with (String dash s). rewrite split_at_app by apply mmp_str_lacks_dash.
    pose proof (version_parse_stable (mmp v) "" Hf eq_refl) as E. cbn in E. by rewrite sapp_nil_r in E.
Qed.

(** Against a bare version: the pre-releases are refused. *)
Lemma check_bare fuel v p : well_formed v -> mmp_fits p ->
  check_constraint fuel v (">=" +:+ mmp_str p) =
  Some (if mmp_le p (mmp v) && bool_decide (v_pre v = "") then Ok tt else info_err "invalid version").
Proof.
  intros Hv Hp. pose proof (trim_ge_mmp p "") as Ht. rewrite sapp_nil_r in Ht.
  assert (Hl : lacks dash (">=" +:+ mmp_str p)) by (do 2 (split; [done|]); apply mmp_str_lacks_dash).
  destruct (req_parse_bare p Hp) as (f & Ef & Hf).
  destruct fuel as [|fuel]; cbn [check_constraint]; rewrite (parse_stable_part v Hv), Ef, Hf;
    rewrite ?lacks_dash_contains, ?lacks_dash_z by done; done.
Qed.

(** Against a stable version, written with [-z]. *)
Lemma check_z v p : well_formed v -> mmp_fits p ->
  check_constraint 1 v (">=" +:+ mmp_str p +:+ "-z") =
  Some (if mmp_le p (mmp v) && (negb (starts_with (mmp_str p) (version_to_string v)) || bool_decide (v_pre v = ""))
        then Ok tt else info_err "invalid version").
Proof.
  intros Hv Hp. rewrite check_constraint_S, (parse_stable_part v Hv), trim_ge_mmp.
  change (mmp_str p +:+ "-z") with (mmp_str p +:+ String dash "z") at 1 2.
  rewrite trim_after_dash_app by apply mmp_str_lacks_dash. cbv zeta.
  replace (contains "-z" _) with true by (symmetry; rewrite <- sapp_assoc; by apply contains_app).
  destruct (stable_part_ok v Hv) as (Hw & Em & Es).
  destruct (starts_with _ _); cbn [negb orb]; rewrite check_bare by done; [done|].
  by rewrite Em, Es, bool_decide_eq_true_2.
Qed.
End CheckProofs.

(** * The order of versions *)

(** [v] is at or above the stable version [p]: a pre-release is below its version. *)
Definition at_least (p : N * N * N) (v : Version) : bool :=
  mmp_le p (mmp v) && (negb (bool_decide (mmp v = p)) || bool_decide (v_pre v = "")).

Lemma starts_with_cut c s t x y : lacks c s -> lacks c t ->
  starts_with (s +:+ String c x) (t +:+ String c y) = true -> s = t /\ starts_with x y = true.
Proof.
  revert t. induction s as [|a s IH]; intros [|b t] Hs Ht; rewrite ?sapp_cons; cbn [starts_with String.append].
  - by intros [_ ?]%andb_true_iff.
  - intros [->%bool_decide_eq_true _]%andb_true_iff. by destruct Ht.
  - intros [->%bool_decide_eq_true _]%andb_true_iff. by destruct Hs.
  - destruct Hs as [_ Hs], Ht as [_ Ht]. intros [->%bool_decide_eq_true Hp]%andb_true_iff.
    by destruct (IH t Hs Ht Hp) as [-> ?].
Qed.

Lemma pretty_go_leading x s : 0 < x -> exists d r, pretty_N_go x s = String (pretty_N_char d) r /\ 0 < d < 10.
Proof.
  revert s. induction (N.lt_wf_0 x) as [x _ IH]. intros s Hx. rewrite pretty_N_go_step by done.
  destruct (N.eq_0_gt_0_cases (x `div` 10)) as [Hd|Hd]; [|apply IH; [by apply N.div_lt|done]].
  rewrite Hd, pretty_N_go_0.
  exists (x `mod` 10), s. split; [done|]. pose proof (N.div_mod x 10). pose proof (N.mod_lt x 10). lia.
Qed.

(** A number written with a leading zero is zero. *)
Lemma starts_with_zero n s : starts_with "0" (pretty n +:+ s) = true -> n = 0.
Proof.
  intros Hs. destruct (decide (n = 0)) as [|Hn]; [done|]. exfalso.
  unfold pretty, pretty_N in Hs. rewrite decide_False in Hs by done.
  destruct (pretty_go_leading n "") as (d & r & E & Hd); [lia|]. rewrite E, sapp_cons in Hs.
  cbn [starts_with] in Hs. apply andb_true_iff in Hs as [Hs%bool_decide_eq_true _].
  assert (Hz : digit_of (pretty_N_char d) = Some 0) by by rewrite <- Hs.
  rewrite digit_of_pretty in Hz by lia. injection Hz as ->. lia.
Qed.

Lemma starts_with_mmp p q s : p.2 = 0 -> starts_with (mmp_str p) (mmp_str q +:+ s) = true -> p = q.
Proof.
  intros Hz Hs. unfold mmp_str in Hs. rewrite Hz, !sapp_assoc in Hs.
  assert (Hn : forall n : N, lacks dot (pretty n)) by (intros; apply digits_lack; [done|apply pretty_N_digits]).
  apply (starts_with_cut dot) in Hs as [H1 Hs]; [|done..].
  apply (starts_with_cut dot) in Hs as [H2 Hs]; [|done..]. apply starts_with_zero in Hs.
  apply (inj pretty) in H1, H2. destruct p as [[a b] c], q as [[a' b'] c']. cbn in *. congruence.
Qed.

Section Exact.
Context `{Semver} `{Pep440}.

(** The check is the order, for a requirement with patch 0 and for stable versions. *)
Lemma check_z_at_least v p : well_formed v -> mmp_fits p -> p.2 = 0 \/ v_pre v = "" ->
  check_constraint 1 v (">=" +:+ mmp_str p +:+ "-z") = Some (if at_least p v then Ok tt else info_err "invalid version").
Proof.
  intros Hv Hp Hc. rewrite check_z by done. unfold at_least.
  assert (E : v_pre v <> "" -> starts_with (mmp_str p) (version_to_string v) = bool_decide (mmp v = p)).
  { intros Hn. destruct Hc as [Hz|Hs]; [|done]. rewrite version_to_string_eq. case_bool_decide as E.
    - rewrite E. apply starts_with_app.
    - destruct (starts_with _ _) eqn:Es; [|done]. by apply starts_with_mmp in Es. }
  destruct (decide (v_pre v = "")) as [Hs|Hs]; [|by rewrite E].
  by rewrite (bool_decide_eq_true_2 (v_pre v = "")), !orb_true_r.
Qed.
End Exact.

(** * The checks as a whole *)

(** The required versions, as numbers. *)
Definition required_mmp (l : Language) (t : ContainerType) : N * N * N :=
  match l, t with
  | Rust, OnsSinker => (0, 4, 0)
  | Rust, (ReduceStreamer | SessionReducer | AccumulatorContainer) => (0, 3, 0)
  | Rust, _ => (0, 2, 0)
  | _, OnsSinker => (0, 10, 2)
  | _, AccumulatorContainer => (0, 10, 0)
  | _, _ => (0, 9, 0)
  end.
Definition nack_mmp (l : Language) : N * N * N := match l with Rust => (0, 4, 0) | _ => (0, 11, 0) end.

Lemma required_version l t : l <> Python -> l <> UnknownLanguage -> t <> UnknownContainer ->
  minimum_supported_sdk_versions l ≫= find_container t = Some (mmp_str (required_mmp l t) +:+ "-z").
Proof. destruct l; try done; destruct t; try done; intros; vm_compute; reflexivity. Qed.
Lemma nack_version l : l <> Python -> l <> UnknownLanguage ->
  nack_support_sdk_versions l = Some (mmp_str (nack_mmp l) +:+ "-z").
Proof. destruct l; try done; intros; vm_compute; reflexivity. Qed.

(** C30: the version of an SDK. For a known container and an SDK of another language than Python,
    whose version text parses: the check of compatibility accepts exactly the versions at or
    above the required one (a pre-release is below its own version), if the version is stable or
    the patch number of the required one is 0; and the function is told to support nacks exactly
    from its version on. *)
Theorem sdk_check_exact (S : Semver) (P : Pep440) (l : Language) (t : ContainerType) (text : string) (v : Version) :
  l <> Python -> l <> UnknownLanguage -> t <> UnknownContainer -> text <> "" ->
  version_parse (trim_v text) = Some v -> well_formed v ->
  (v_pre v = "" \/ (required_mmp l t).2 = 0 ->
   exists r, check_sdk_compatibility text l t minimum_supported_sdk_versions = Some r /\
     (r = Ok tt <-> at_least (required_mmp l t) v = true)) /\
  supports_nack text l = Some (at_least (nack_mmp l) v).
Proof.
  intros Hpy Hun Ht Htext Ev Hv. split.
  - intros Hc. unfold check_sdk_compatibility. pose proof (required_version l t Hpy Hun Ht) as Er.
    destruct (minimum_supported_sdk_versions l) as [m|]; [|done]. cbn in Er. rewrite Er.
    replace (is_python l) with false by by destruct l. rewrite Ev, check_z_at_least; [|done| |naive_solver].
    + eexists. split; [reflexivity|]. by destruct (at_least _ v).
    + destruct l; try done; destruct t; done.
  - unfold supports_nack. rewrite bool_decide_eq_false_2 by done. replace (is_unknown l) with false by by destruct l.
    cbn [orb]. rewrite (nack_version l Hpy Hun). replace (is_python l) with false by by destruct l.
    rewrite Ev, check_z_at_least; [by destruct (at_least _ v)|done|by destruct l|left; by destruct l].
Qed.

(** The name of the file gives the container, and back. *)
Lemma container_roundtrip t : container_from (container_as_str t +:+ "-server-info") = t.
Proof. by destruct t; vm_compute. Qed.

(** The first complete read among ten is the one used. *)
Lemma read_contents_first n attempt i k data :
  (k < n)%nat -> attempt (i + k)%nat = Some data -> ends_with END data = true ->
  (forall j d, (j < k)%nat -> attempt (i + j)%nat = Some d -> ends_with END d = false) ->
  read_contents n attempt i = Ok (trim_end_matches END data).
Proof.
  revert i k. induction n as [|n IH]; intros i k Hk Ha He Hj; [lia|]. cbn.
  destruct k as [|k]; [rewrite Nat.add_0_r in Ha; by rewrite Ha, He|].
  assert (Hrec : read_contents n attempt (S i) = Ok (trim_end_matches END data)).
  { apply (IH (S i) k); [lia| |done|]; [by rewrite <- Ha; f_equal; lia|].
    intros j d Hjk Hd. apply (Hj (S j)); [lia|]. rewrite <- Hd. f_equal. lia. }
  destruct (attempt i) as [d|] eqn:E; [|done]. by rewrite (Hj 0%nat d); [|lia|rewrite Nat.add_0_r].
Qed.

(** * A library that satisfies the laws, and concrete checks *)

(** The text before the first [c], and what follows it. *)
Fixpoint cut_at (c : Ascii.ascii) (s : string) : string * string :=
  match s with
  | EmptyString => ("", "")
  | String a s => if decide (a = c) then ("", s) else let (x, y) := cut_at c s in (String a x, y)
  end.
Lemma cut_at_lacks c s : lacks c s -> cut_at c s = (s, "").
Proof. induction s as [|a s IH]; cbn; [done|]. intros [? ?]. rewrite decide_False by done. by rewrite IH. Qed.
Lemma cut_at_app c s t : lacks c s -> cut_at c (s +:+ String c t) = (s, t).
Proof.
  induction s as [|a s IH]; [intros _; change (cut_at c (String c t) = ("", t)); cbn [cut_at]; by rewrite decide_True|]. intros [? ?]. rewrite sapp_cons. cbn [cut_at].
  rewrite decide_False by done. by rewrite IH.
Qed.

Definition sample_parse (s : string) : option Version :=
  let (core, build) := cut_at plus_sign s in
  let (nums, pre) := cut_at dash core in
  match split_at dot nums with
  | [a; b; c] =>
      let? a := parse_unsigned (2 ^ 64) a in
      let? b := parse_unsigned (2 ^ 64) b in
      let? c := parse_unsigned (2 ^ 64) c in
      Some (mkVersion a b c pre build)
  | _ => None
  end.
Definition sample_show (v : Version) : string := mmp_str (mmp v) +:+ tagged "-" (v_pre v) +:+ tagged "+" (v_build v).
Definition sample_req (s : string) : option (Version -> bool) :=
  if starts_with ">=" s then
    let? p := sample_parse (sdrop 2 s) in
    Some (fun v => mmp_le (mmp p) (mmp v) &&
      (bool_decide (v_pre v = "") || bool_decide (mmp p = mmp v) && bool_decide (v_pre p <> "") && String.leb (v_pre p) (v_pre v)))
  else None.

Lemma sample_parse_stable p b : mmp_fits p -> sample_parse (mmp_str p +:+ tagged "+" b) = Some (mkVersion p.1.1 p.1.2 p.2 "" b).
Proof.
  intros (Ha & Hb & Hc). unfold sample_parse.
  assert (E : cut_at plus_sign (mmp_str p +:+ tagged "+" b) = (mmp_str p, b)).
  { unfold tagged. case_decide as Hn.
    - rewrite sapp_nil_r, Hn. apply cut_at_lacks. by apply mmp_str_lacks.
    - change ("+" +:+ b) with (String plus_sign b). apply cut_at_app. by apply mmp_str_lacks. }
  rewrite E, cut_at_lacks by apply mmp_str_lacks_dash.
  assert (Hn : forall n : N, lacks dot (pretty n)) by (intros; apply digits_lack; [done|apply pretty_N_digits]).
  assert (Es : split_at dot (mmp_str p) = [pretty p.1.1; pretty p.1.2; pretty p.2]).
  { trans (split_at dot (pretty p.1.1 +:+ String dot (pretty p.1.2 +:+ String dot (pretty p.2)))); [done|].
    by rewrite split_at_app, split_at_app, split_at_lacks by done. }
  rewrite Es. by rewrite !parse_unsigned_pretty.
Qed.

Definition sample_semver : Semver.
Proof.
  refine {| version_parse := sample_parse; version_to_string := sample_show; req_parse := sample_req |}.
  - done.
  - intros p b Hp _. by apply sample_parse_stable.
  - intros p Hp. unfold sample_req. change (starts_with ">=" (">=" +:+ mmp_str p)) with true.
    change (sdrop 2 (">=" +:+ mmp_str p)) with (mmp_str p).
    pose proof (sample_parse_stable p "" Hp) as E. cbn [tagged decide] in E. unfold tagged in E.
    rewrite decide_True, sapp_nil_r in E by done. cbv iota. rewrite E. eexists. split; [reflexivity|]. intros v.
    cbn. destruct p as [[a b] c]. by rewrite andb_false_r, orb_false_r.
Defined.
Definition no_pep440 : Pep440 := {| PepVersion := unit; pep_parse := fun _ => None; pep_spec := fun _ => None |}.
#[local] Existing Instance sample_semver.
#[local] Existing Instance no_pep440.

Definition old_sdk : Version := mkVersion 0 9 0 "rc1" "".
Lemma sdk_check_exact_witness :
  (exists r, check_sdk_compatibility "v0.9.0-rc1" Go Sinker minimum_supported_sdk_versions = Some r /\
     (r = Ok tt <-> at_least (0, 9, 0) old_sdk = true)) /\
  supports_nack "v0.9.0-rc1" Go = Some (at_least (0, 11, 0) old_sdk).
Proof.
  edestruct (sdk_check_exact sample_semver no_pep440 Go Sinker "v0.9.0-rc1" old_sdk) as [H1 H2];
    [done|done|done|done|vm_compute; reflexivity| |].
  - split; [by repeat split|reflexivity].
  - split; [apply H1; right; reflexivity|exact H2].
Defined.

(** A requirement with another patch number: a release candidate of a later patch whose number
    begins with the same digits is taken for one of the required patch, and is refused. *)
Example later_candidate_refused :
  let v := mkVersion 0 10 20 "rc1" "" in
  version_parse "0.10.20-rc1" = Some v /\ at_least (required_mmp Go OnsSinker) v = true /\
  (exists e, check_sdk_compatibility "0.10.20-rc1" Go OnsSinker minimum_supported_sdk_versions = Some (Err e)) /\
  check_sdk_compatibility "0.10.30-rc1" Go OnsSinker minimum_supported_sdk_versions = Some (Ok tt).
Proof. cbv zeta. split_and!; [vm_compute; reflexivity..|eexists; vm_compute; reflexivity|vm_compute; reflexivity]. Qed.

(** Without a commit in the environment every version contains it: the controller is not checked. *)
Example no_commit_no_check :
  exists cv, controller_version_init (fun x => if decide (x = "VERSION") then Some "v0.1.0" else None) "linux/amd64" = Some cv /\
    cv_version cv = "v0.1.0+unknown" /\
    check_server_info "sinker-server-info" cv (mkServerInfo UDS UnknownLanguage "1.4.0-z" "" None) = Some (Ok tt) /\
    (exists e, check_controller_compatibility (cv_version cv) "1.4.0-z" = Some (Err e)).
Proof. eexists. split_and!; [vm_compute; reflexivity..|eexists; vm_compute; reflexivity]. Qed.
