(* ===== verification/RedisStore.v ===== *)
(** The Redis store of the rate limiter (src/rust/numaflow-throttling/src/state/store/redis_store.rs
    and the Lua scripts it embeds, state/store/lua): the second implementation of the class
    [Store], and the reading of its configuration.

    A sorted set of Redis is a map from member to score, a hash a map from field to value; a script
    is one atomic step. Scores are integers: seconds and pool sizes, exact below 2^53. *)
From stdpp Require Import pretty.
From S2P Require Import Prelude Message Wal Publisher F32 Throttle ThrottleStore.
Open Scope Z_scope.

(** * Redis and the scripts *)

Abbreviation ZSet := (gmap string Z) (only parsing).

Definition zset_scores (z : ZSet) : list Z := (map_to_list z).*2.
(** The score of the first and of the last member in the order of the scores ([ZRANGE 0 0] and
    [ZRANGE -1 -1] with scores). *)
Definition zmin_score (z : ZSet) : option Z := list_min (zset_scores z).
Definition zmax_score (z : ZSet) : option Z := list_max (zset_scores z).
(** The members with a score below a bound ([ZRANGEBYSCORE -inf (bound]). *)
Definition zbelow (bound : Z) (z : ZSet) : ZSet := filter (fun kv => kv.2 < bound) z.

Record RedisState := mkRedis {
  rz_heartbeats : ZSet;
  rz_poolsize : ZSet;
  rz_prev_max_filled : gmap string string;
  rz_prev_max_filled_ttl : ZSet
}.

(** register.lua; [now] is the clock of the server. *)
Definition register_lua (now stale_age : Z) (r : RedisState) (id : string) : RedisState * list string :=
  let beats := <[id := now]> (rz_heartbeats r) in
  let new_pool_size := Z.of_nat (size beats) in
  let stale := zbelow (now - stale_age) (rz_prev_max_filled_ttl r) in
  let ttl := rz_prev_max_filled_ttl r ∖ stale in
  let prev := filter (fun kv => stale !! kv.1 = None) (rz_prev_max_filled r) in
  (mkRedis beats (<[id := new_pool_size]> (rz_poolsize r)) prev ttl,
   [pretty new_pool_size; default "0" (prev !! id)]).

(** deregister.lua *)
Definition deregister_lua (now : Z) (r : RedisState) (id filled : string) : RedisState :=
  mkRedis (delete id (rz_heartbeats r)) (delete id (rz_poolsize r))
    (<[id := filled]> (rz_prev_max_filled r)) (<[id := now]> (rz_prev_max_filled_ttl r)).

(** sync_pool_size.lua; [ts] is the clock of the caller. *)
Definition sync_answer (beats pool : ZSet) : list string :=
  let active_processor_count := size beats in
  let poolsize_count := size pool in
  let max_text := default "0" (pretty <$> zmax_score pool) in
  if bool_decide (active_processor_count = 0%nat) || negb (bool_decide (active_processor_count = poolsize_count))
  then ["DISAGREE"; max_text; pretty (Z.of_nat poolsize_count)]
  else if bool_decide (pretty <$> zmin_score pool = pretty <$> zmax_score pool)
  then ["AGREE"; default "0" (pretty <$> zmin_score pool); pretty (Z.of_nat poolsize_count)]
  else ["DISAGREE"; max_text; pretty (Z.of_nat poolsize_count)].

Definition sync_lua (ts pool_size stale_age : Z) (r : RedisState) (id : string) : RedisState * list string :=
  let beats := <[id := ts]> (rz_heartbeats r) in
  let pool := <[id := pool_size]> (rz_poolsize r) in
  let stale := zbelow (ts - stale_age) beats in
  let beats' := beats ∖ stale in
  let pool' := filter (fun kv => stale !! kv.1 = None) pool in
  (mkRedis beats' pool' (rz_prev_max_filled r) (rz_prev_max_filled_ttl r), sync_answer beats' pool').

(** * The store *)

(** The text of a 32-bit float. *)
Class F32Text := {
  f32_to_string : F32 -> string;
  f32_parse : string -> option F32
}.

Record RedisStore := mkRedisStore { redis_state : RedisState; redis_stale_age : Z }.

(** What one call meets: the clock of the server, the clock of the caller, and whether the
    connection fails, before or after the script has run. *)
Record RedisEnv := mkRedisEnv {
  re_server : Z;
  re_client : Z;
  re_fails : option bool
}.

(** [exec_lua_script]: the state and the reply, or an error. *)
Definition exec_lua_script {A} (e : RedisEnv) (s : RedisStore) (out : RedisState * A) : RedisStore * Result A :=
  match re_fails e with
  | None => (mkRedisStore out.1 (redis_stale_age s), Ok out.2)
  | Some true => (mkRedisStore out.1 (redis_stale_age s), Err (EOther "Redis"))
  | Some false => (s, Err (EOther "Redis"))
  end.

Definition parse_usize (s : string) : option Z := Z.of_N <$> parse_unsigned (2 ^ 64) s.

Section Redis.
Context `{F32Text}.

Definition register_reply (result : list string) : Result (Z * F32) :=
  match result with
  | [size; filled] =>
      try! pool_size := ok_or (parse_usize size) (EOther "Invalid pool size in response") in
      try! prev := ok_or (f32_parse filled) (EOther "Invalid prev_max_filled in response") in
      Ok (pool_size, prev)
  | _ => Err (EOther "Invalid response from register script")
  end.
Definition redis_register (e : RedisEnv) (s : RedisStore) (id : string) : RedisStore * Result (Z * F32) :=
  let (s', r) := exec_lua_script e s (register_lua (re_server e) (redis_stale_age s) (redis_state s) id) in
  (s', try! result := r in register_reply result).

Definition redis_deregister (e : RedisEnv) (s : RedisStore) (id : string) (x : F32) : RedisStore * Result unit :=
  exec_lua_script e s (deregister_lua (re_server e) (redis_state s) id (f32_to_string x), tt).

Definition sync_reply (result : list string) : Result Consensus :=
  match result with
  | [consensus_type; size; _] =>
      try! n := ok_or (parse_usize size) (EOther "Invalid pool size in response") in
      if decide (consensus_type = "AGREE") then Ok (Agree n)
      else if decide (consensus_type = "DISAGREE") then Ok (Disagree n)
      else Err (EOther "Unknown consensus type")
  | _ => Err (EOther "Invalid response from sync script")
  end.
(** The cancellation is not looked at. *)
Definition redis_sync_pool_size (e : RedisEnv) (s : RedisStore) (id : string) (n : Z) (cancelled : bool)
    : RedisStore * Result Consensus :=
  let (s', r) := exec_lua_script e s (sync_lua (re_client e) n (redis_stale_age s) (redis_state s) id) in
  (s', try! result := r in sync_reply result).

#[global] Instance redis_store : Store RedisStore RedisEnv := {
  register := redis_register;
  deregister := redis_deregister;
  sync_pool_size := redis_sync_pool_size
}.
End Redis.

(** * Configuration *)

(** [SecretKeySelector], and the parts of the configuration. *)
Record SecretRef := mkSecretRef { secret_name : string; secret_key : string }.
Record RedisAuthConfig := mkAuthConfig { ac_username : option SecretRef; ac_password : option SecretRef }.
Record Tls := mkTls {
  insecure_skip_verify : option bool;
  ca_cert_secret : option SecretRef;
  cert_secret : option SecretRef;
  key_secret : option SecretRef
}.
Record RedisSentinelConfig := mkSentinelConfig {
  sn_master_name : string;
  sn_endpoints : list string;
  sn_sentinel_auth : option RedisAuthConfig;
  sn_redis_auth : option RedisAuthConfig;
  sn_sentinel_tls : option Tls;
  sn_redis_tls : option Tls
}.
Record RateLimiterRedisStore := mkRedisConfig {
  rc_mode : string;
  rc_url : option string;
  rc_db : option Z;
  rc_sentinel : option RedisSentinelConfig
}.

Record RedisAuth := mkRedisAuth { ra_username : option string; ra_password : option string }.
Record ClientTlsConfig := mkClientTls { client_cert : string; client_key : string }.
Record TlsCertificates := mkTlsCertificates { client_tls : option ClientTlsConfig; root_cert : option string }.
Record RedisTlsInfo := mkTlsInfo { is_secure : bool; certificates : option TlsCertificates }.
Inductive RedisMode :=
  | SingleUrl (url : string) (db : option Z)
  | Sentinel (master_name : string) (endpoints : list string) (sentinel_auth redis_auth : option RedisAuth)
      (sentinel_tls redis_tls : option RedisTlsInfo) (db : option Z).

(** [str::trim]: the UTF-8 forms of the characters that are white space. *)
Definition bytes (ns : list nat) : string := foldr (fun n s => String (Ascii.ascii_of_nat n) s) "" ns.
Definition white_space : list string :=
  bytes <$> ([[9]; [10]; [11]; [12]; [13]; [32]; [194; 133]; [194; 160]; [225; 154; 128];
    [226; 128; 168]; [226; 128; 169]; [226; 128; 175]; [226; 129; 159]; [227; 128; 128]] ++
    ((fun n => [226; 128; 128 + n]) <$> seq 0 11))%nat.
Definition ends_in (p s : string) : bool := bool_decide (sdrop (String.length s - String.length p) s = p).
Fixpoint trim_start_go (fuel : nat) (s : string) : string :=
  match fuel with
  | O => s
  | S fuel =>
      match list_find (fun w => starts_with w s = true) white_space with
      | Some (_, w) => trim_start_go fuel (sdrop (String.length w) s)
      | None => s
      end
  end.
Fixpoint trim_end_go (fuel : nat) (s : string) : string :=
  match fuel with
  | O => s
  | S fuel =>
      match list_find (fun w => ends_in w s = true) white_space with
      | Some (_, w) => trim_end_go fuel (stake (String.length s - String.length w) s)
      | None => s
      end
  end.
Definition trim (s : string) : string :=
  let s' := trim_start_go (String.length s) s in trim_end_go (String.length s') s'.

Definition SECRET_BASE_PATH : string := "/var/numaflow/secrets".

Section Config.
(** The contents of a file, [None] if it cannot be read. *)
Context (read_file : string -> option string).

Definition get_secret_from_volume (name key : string) : option string :=
  trim <$> read_file (SECRET_BASE_PATH +:+ "/" +:+ name +:+ "/" +:+ key).

(** [Option::map], [transpose] and the error. *)
Definition opt_secret (what : string) (r : option SecretRef) : Result (option string) :=
  match r with
  | None => Ok None
  | Some r =>
      match get_secret_from_volume (secret_name r) (secret_key r) with
      | Some v => Ok (Some v)
      | None => Err (EOther ("Failed to get " +:+ what +:+ " secret"))
      end
  end.

Definition parse_redis_auth (auth : RedisAuthConfig) : Result RedisAuth :=
  try! username := opt_secret "username" (ac_username auth) in
  try! password := opt_secret "password" (ac_password auth) in
  Ok (mkRedisAuth username password).

Definition parse_redis_tls_config (tls : Tls) : Result TlsCertificates :=
  try! ca_cert := opt_secret "CA cert" (ca_cert_secret tls) in
  match cert_secret tls, key_secret tls with
  | Some cert, Some key =>
      try! c := ok_or (get_secret_from_volume (secret_name cert) (secret_key cert)) (EOther "Failed to get client cert secret") in
      try! k := ok_or (get_secret_from_volume (secret_name key) (secret_key key)) (EOther "Failed to get client key secret") in
      Ok (mkTlsCertificates (Some (mkClientTls c k)) ca_cert)
  | None, None => Ok (mkTlsCertificates None ca_cert)
  | _, _ => Err (EOther "Both cert and key secrets must be provided for client TLS authentication")
  end.

Definition create_redis_tls_info (tls : Tls) : Result RedisTlsInfo :=
  if default false (insecure_skip_verify tls) then Ok (mkTlsInfo false None)
  else try! certs := parse_redis_tls_config tls in Ok (mkTlsInfo true (Some certs)).

Definition opt_try {A B} (f : A -> Result B) (o : option A) : Result (option B) :=
  match o with None => Ok None | Some a => try! b := f a in Ok (Some b) end.

(** [SingleUrlBuilder::build] and [SentinelBuilder::build]. *)
Definition single_url_build (url : string) (db : option Z) : Result RedisMode := Ok (SingleUrl url db).
Definition sentinel_build (master_name : string) (endpoints : list string) (sentinel_auth redis_auth : option RedisAuth)
    (sentinel_tls redis_tls : option RedisTlsInfo) (db : option Z) : Result RedisMode :=
  match endpoints with
  | [] => Err (EOther "At least one endpoint is required for Sentinel mode")
  | _ => Ok (Sentinel master_name endpoints sentinel_auth redis_auth sentinel_tls redis_tls db)
  end.

Definition redis_mode_new (config : RateLimiterRedisStore) : Result RedisMode :=
  if decide (rc_mode config = "single") then
    try! url := ok_or (rc_url config) (EOther "URL is required for Single mode") in
    single_url_build url (rc_db config)
  else if decide (rc_mode config = "sentinel") then
    try! sn := ok_or (rc_sentinel config) (EOther "Sentinel config is required for Sentinel mode") in
    try! sentinel_auth := opt_try parse_redis_auth (sn_sentinel_auth sn) in
    try! redis_auth := opt_try parse_redis_auth (sn_redis_auth sn) in
    try! sentinel_tls := opt_try create_redis_tls_info (sn_sentinel_tls sn) in
    try! redis_tls := opt_try create_redis_tls_info (sn_redis_tls sn) in
    sentinel_build (sn_master_name sn) (sn_endpoints sn) sentinel_auth redis_auth sentinel_tls redis_tls (rc_db config)
  else Err (EOther "Unsupported Redis mode").

(** A client that verifies the server uses both halves of its certificate or none. *)
Lemma tls_info_secure tls info : create_redis_tls_info tls = Ok info ->
  is_secure info = negb (default false (insecure_skip_verify tls)) /\
  (is_secure info = true -> (is_Some (cert_secret tls) <-> is_Some (key_secret tls)) /\
     exists c, certificates info = Some c /\ (is_Some (client_tls c) <-> is_Some (cert_secret tls)) /\
       (is_Some (root_cert c) <-> is_Some (ca_cert_secret tls))).
Proof.
  unfold create_redis_tls_info, parse_redis_tls_config, opt_secret. destruct (default false _); [by intros [= <-]|].
  intros E. destruct (ca_cert_secret tls) as [ca|]; [destruct (get_secret_from_volume (secret_name ca) _); [|done]|];
    destruct (cert_secret tls) as [c|], (key_secret tls) as [k|]; try done;
    repeat (destruct (get_secret_from_volume _ _); try done); injection E as <-; cbn; (split; [done|]);
    intros _; (split; [split; intros; eauto|]); eexists; (split; [done|]); cbn; split; split; intros [? ?]; done || eauto.
Qed.
End Config.

(** * The two stores answer alike *)

Section Refinement.
Context `{HashOrder} `{F32Text}.

(** The scores of a sorted set are 64-bit floats, exact for integers up to this bound. *)
Definition exact_max : Z := 2 ^ 53 - 1.
Lemma exact_usize n : 0 <= n <= exact_max -> 0 <= n <= usize_max.
Proof. unfold exact_max, usize_max. lia. Qed.

(** The maps of the two stores are the same, with times and sizes that are exact as scores; every active
    processor has a report, and no other has one. *)
Definition redis_rel (r : RedisStore) (s : InMemoryStore) : Prop :=
  rz_heartbeats (redis_state r) = heartbeats (inner s) /\ rz_poolsize (redis_state r) = reported_pool (inner s) /\
  redis_stale_age r = stale_age s /\
  dom (heartbeats (inner s)) = dom (reported_pool (inner s)) /\
  map_Forall (fun _ n => 0 <= n <= exact_max) (reported_pool (inner s)) /\
  map_Forall (fun _ t => 0 <= t <= exact_max) (heartbeats (inner s)).

Lemma elem_of_scores (z : ZSet) n : n ∈ zset_scores z <-> exists id, z !! id = Some n.
Proof.
  unfold zset_scores. rewrite list_elem_of_fmap. split.
  - intros ([id k] & -> & Hk%elem_of_map_to_list). by exists id.
  - intros [id Hid%elem_of_map_to_list]. by exists (id, n).
Qed.

Lemma parse_usize_pretty n : 0 <= n <= usize_max -> parse_usize (pretty n) = Some n.
Proof.
  intros Hn. unfold parse_usize. rewrite pretty_Z_N by lia. rewrite parse_unsigned_pretty; [simpl; f_equal; lia|].
  unfold usize_max in Hn. lia.
Qed.

Lemma greatest_unique t v v' : greatest t v -> greatest t v' -> v = v'.
Proof.
  intros [(i & Hi & Ei) Hu] [(j & Hj & Ej) Hu']. apply Z.le_antisymm; [by apply (Hu' i)|by apply (Hu j)].
Qed.

(** The answer of the script is the consensus of the in-memory store. *)
Lemma sync_answer_consensus t :
  heartbeats t <> ∅ -> dom (heartbeats t) = dom (reported_pool t) ->
  map_Forall (fun _ n => 0 <= n <= exact_max) (reported_pool t) ->
  sync_reply (sync_answer (heartbeats t) (reported_pool t)) = Ok (compute_consensus t).
Proof.
  intros Hne Hdom Hr.
  assert (Hact : forall id, is_Some (heartbeats t !! id) <-> is_Some (reported_pool t !! id)).
  { intros id. by rewrite <- !(elem_of_dom (D := gset string)), Hdom. }
  destruct (compute_consensus_spec t Hne) as (v & Hg & Hc).
  { intros id Hid. apply Hact in Hid as [n Hn]. exists n. split; [done|]. by apply exact_usize, (Hr id). }
  destruct Hg as [(i & Hi & Ei) Hub].
  assert (Emax : zmax_score (reported_pool t) = Some v).
  { apply list_max_Some. split; [apply elem_of_scores; by exists i|].
    intros x [j Hj]%elem_of_scores. apply (Hub j); [|done]. apply Hact. by eexists. }
  assert (Hv : 0 <= v <= usize_max) by by apply exact_usize, (Hr i).
  assert (Hsz : size (heartbeats t) = size (reported_pool t)).
  { by rewrite <- !(size_dom (D := gset string)), Hdom. }
  assert (Hnz : size (heartbeats t) <> 0%nat) by (intros Hz; by apply map_size_empty_inv in Hz).
  unfold sync_answer. rewrite <- Hsz, (bool_decide_eq_false_2 _ Hnz), (bool_decide_eq_true_2 (size _ = size _)) by done.
  cbn [orb negb]. rewrite Emax. cbn [fmap option_fmap option_map from_option id].
  destruct (zmin_score (reported_pool t)) as [lo|] eqn:Emin.
  2:{ apply list_min_None in Emin. exfalso. assert (Hin : v ∈ zset_scores (reported_pool t)) by (apply elem_of_scores; by exists i).
      rewrite Emin in Hin. by apply elem_of_nil in Hin. }
  apply list_min_Some in Emin as [[j Hj]%elem_of_scores Hlo]. cbn [fmap option_fmap option_map from_option id].
  case_bool_decide as Eq.
  - injection Eq as Eq. apply (inj pretty) in Eq. subst lo. cbn [sync_reply]. rewrite parse_usize_pretty by done. cbn.
    destruct Hc as [[-> _]|[_ Hnu]]; [done|]. exfalso. apply Hnu. intros id Hid. pose proof Hid as [n Hn]%Hact.
    rewrite Hn. f_equal. apply Z.le_antisymm; [by apply (Hub id)|]. apply Hlo, elem_of_scores. by exists id.
  - cbn [sync_reply]. rewrite parse_usize_pretty by done. cbn. destruct Hc as [[_ Hu]|[-> _]]; [|done].
    exfalso. apply Eq. do 2 f_equal. assert (is_Some (heartbeats t !! j)) as Hjs by (apply Hact; by eexists).
    specialize (Hu j Hjs). congruence.
Qed.

Definition consensus_size (c : Consensus) : Z := match c with Agree n | Disagree n => n end.
Lemma consensus_range t :
  heartbeats t <> ∅ -> dom (heartbeats t) = dom (reported_pool t) ->
  map_Forall (fun _ n => 0 <= n <= exact_max) (reported_pool t) -> 0 <= consensus_size (compute_consensus t) <= exact_max.
Proof.
  intros Hne Hdom Hr. destruct (compute_consensus_spec t Hne) as (v & [(i & _ & Ei) _] & Hc).
  { intros id Hid. apply elem_of_dom in Hid. rewrite Hdom in Hid. apply elem_of_dom in Hid as [n Hn].
    exists n. split; [done|]. by apply exact_usize, (Hr id). }
  destruct Hc as [[-> _]|[-> _]]; by apply (Hr i).
Qed.

(** The in-memory store with the clock of the caller, in the whole seconds that Redis is given. *)
Definition same_env (e : RedisEnv) : StoreEnv := mkStoreEnv (re_client e) (re_client e) (re_client e).

(** Inserting a fresh heartbeat and dropping the stale ones commute. *)
Lemma stale_lookup (ts age : Z) (b : ZSet) id j :
  0 <= age -> zbelow (ts - age) (<[id := ts]> b) !! j = if decide (id = j) then None else filter (fun kv => age < elapsed ts kv.2) b !! j.
Proof.
  intros Ha. unfold zbelow. case_decide as E.
  - subst j. apply map_lookup_filter_None. right. intros x. rewrite lookup_insert_eq. intros [= <-]. simpl. lia.
  - rewrite !map_lookup_filter, lookup_insert_ne by done. destruct (b !! j) as [x|]; [|done]. simpl.
    unfold elapsed. by repeat case_guard; [..|lia|lia|].
Qed.

Lemma beats_commute (ts age : Z) (b : ZSet) id : 0 <= age ->
  <[id := ts]> b ∖ zbelow (ts - age) (<[id := ts]> b) = <[id := ts]> (b ∖ filter (fun kv => age < elapsed ts kv.2) b).
Proof.
  intros Ha. apply map_eq. intros j. rewrite lookup_difference, stale_lookup, !lookup_insert by done.
  case_decide; [done|]. rewrite lookup_difference. by destruct (filter _ b !! j).
Qed.

Lemma pool_commute (ts age n : Z) (b p : ZSet) id : 0 <= age ->
  filter (fun kv => zbelow (ts - age) (<[id := ts]> b) !! kv.1 = None) (<[id := n]> p) =
  <[id := n]> (filter (fun kv => filter (fun kv => age < elapsed ts kv.2) b !! kv.1 = None) p).
Proof.
  intros Ha. apply map_eq. intros j. rewrite map_lookup_filter, !lookup_insert. case_decide as E.
  - subst j. simpl. rewrite option_guard_True; [done|]. rewrite stale_lookup by done. by rewrite decide_True.
  - rewrite map_lookup_filter. destruct (p !! j) as [x|]; [|done]. simpl. rewrite (stale_lookup _ _ _ _ j) by done.
    by rewrite decide_False.
Qed.

Lemma pruned_dom (b p st : ZSet) : dom b = dom p -> dom (b ∖ st) = dom (filter (fun kv => st !! kv.1 = None) p).
Proof.
  intros Hd. apply set_eq. intros j. rewrite !elem_of_dom, map_lookup_filter, lookup_difference.
  assert (Hj : is_Some (b !! j) <-> is_Some (p !! j)) by by rewrite <- !(elem_of_dom (D := gset string)), Hd.
  destruct (p !! j) as [y|]; simpl.
  - destruct (st !! j) as [x|] eqn:E; [rewrite option_guard_False by congruence; by split; intros [? ?]|].
    rewrite option_guard_True by done. split; [by eexists|]. intros _. apply Hj. by eexists.
  - destruct (st !! j); [by split; intros [? ?]|]. done.
Qed.

Lemma redis_sync_sim e r s id n cancelled :
  redis_rel r s -> 0 <= stale_age s -> 0 <= n <= exact_max -> re_fails e = None -> 0 <= re_client e <= exact_max ->
  let r' := redis_sync_pool_size e r id n cancelled in
  let s' := mem_sync_pool_size (same_env e) s id n false in
  redis_rel r'.1 s'.1 /\ stale_age s'.1 = stale_age s /\ r'.2 = s'.2 /\
  exists c, s'.2 = Ok c /\ 0 <= consensus_size c <= exact_max.
Proof.
  intros (Hb & Hp & Ha & Hd & Hr & Ht) Hage Hn He Hcl.
  unfold redis_sync_pool_size, exec_lua_script, sync_lua. rewrite He. cbn.
  rewrite Hb, Hp, Ha, beats_commute, pool_commute by done.
  set (t' := mkTimeline _ _ _).
  assert (Hd' : dom (heartbeats t') = dom (reported_pool t')).
  { subst t'. cbn. rewrite !dom_insert_L. f_equal. by apply pruned_dom. }
  assert (Hr' : map_Forall (fun _ n => 0 <= n <= exact_max) (reported_pool t')).
  { subst t'. cbn. apply map_Forall_insert_2; [done|]. intros j m [Hm _]%map_lookup_filter_Some. by apply (Hr j). }
  assert (Ht' : map_Forall (fun _ t => 0 <= t <= exact_max) (heartbeats t')).
  { subst t'. cbn. apply map_Forall_insert_2; [done|]. intros j x [Hx _]%lookup_difference_Some. by apply (Ht j). }
  assert (Hne : heartbeats t' <> ∅) by (subst t'; cbn; apply insert_non_empty).
  split_and!; [done..|by apply (sync_answer_consensus t')|]. eexists. split; [done|]. by apply consensus_range.
Qed.

(** A refresh of one processor against Redis, and the same refresh against the in-memory store. *)
Record RTick := mkRTick { rt_id : string; rt_env : RedisEnv; rt_now : Z }.
Definition mem_tick (k : RTick) : Tick := mkTick (rt_id k) (same_env (rt_env k)) (rt_now k).
Definition redis_tick (runway : OptimisticValidityUpdateSecs) (sys : RedisStore * gmap string RateLimiterState) (k : RTick)
    : RedisStore * gmap string RateLimiterState :=
  match snd sys !! rt_id k with
  | Some s => let (t', s') := refresh (rt_env k) (rt_now k) runway (fst sys) (rt_id k) s false in
              (t', <[rt_id k := s']> (snd sys))
  | None => sys
  end.
Definition redis_run runway sys (ks : list RTick) : RedisStore * gmap string RateLimiterState :=
  foldl (redis_tick runway) sys ks.

Definition sane (m : gmap string RateLimiterState) : Prop := map_Forall (fun _ s => 0 <= desired_pool_size s <= exact_max) m.

Lemma redis_tick_sim runway rsys sys k :
  redis_rel (fst rsys) (fst sys) -> snd rsys = snd sys -> sane (snd sys) -> 0 <= stale_age (fst sys) ->
  re_fails (rt_env k) = None -> 0 <= re_client (rt_env k) <= exact_max ->
  let rsys' := redis_tick runway rsys k in
  let sys' := sys_tick runway sys (mem_tick k) in
  redis_rel (fst rsys') (fst sys') /\ snd rsys' = snd sys' /\ sane (snd sys') /\ 0 <= stale_age (fst sys').
Proof.
  intros Hrel Es Hs Ha He Hcl. unfold redis_tick, sys_tick. cbn [mem_tick tick_id]. rewrite Es.
  destruct (snd sys !! rt_id k) as [x|] eqn:Ex; [|done].
  destruct (redis_sync_sim (rt_env k) (fst rsys) (fst sys) (rt_id k) (desired_pool_size x) false) as (Hrel' & Ea & Er & c & Ec & Hc);
    [done|done|by apply (Hs (rt_id k))|done|done|].
  unfold refresh. cbn [sync_pool_size redis_store in_memory_store mem_tick tick_env tick_now].
  destruct (redis_sync_pool_size _ _ _ _ _) as [r' a]. destruct (mem_sync_pool_size _ _ _ _ _) as [s' a'].
  cbn in Er, Ec, Hrel', Ea. subst a a'. cbn. split; [done|]. split; [done|]. split; [|lia].
  apply map_Forall_insert_2; [|done]. by destruct c.
Qed.
End Refinement.

(** C35: the Redis store is as good as the in-memory store, up to the resolution of its clock. From
    stores that hold the same, in every sequence of refreshes of the processors whose connections
    work, when both stores are given the clocks of the callers in whole seconds, and sizes and
    times are below 2^53, the processors get the same answers and end in the same states, and the
    stores still hold the same. *)
Theorem redis_refines_memory (O : HashOrder) (X : F32Text) (runway : OptimisticValidityUpdateSecs)
    (rsys : RedisStore * gmap string RateLimiterState) (sys : InMemoryStore * gmap string RateLimiterState)
    (ks : list RTick) :
  redis_rel (fst rsys) (fst sys) -> snd rsys = snd sys -> sane (snd sys) -> 0 <= stale_age (fst sys) ->
  Forall (fun k => re_fails (rt_env k) = None /\ 0 <= re_client (rt_env k) <= exact_max) ks ->
  let rsys' := redis_run runway rsys ks in
  let sys' := sys_run runway sys (mem_tick <$> ks) in
  redis_rel (fst rsys') (fst sys') /\ snd rsys' = snd sys'.
Proof.
  revert rsys sys. induction ks as [|k ks IH]; intros rsys sys Hrel Es Hs Ha Hk; [done|].
  apply Forall_cons in Hk as [[Hk Hcl] Hks]. destruct (redis_tick_sim runway rsys sys k) as (? & ? & ? & ?); [done..|].
  by apply (IH (redis_tick runway rsys k) (sys_tick runway sys (mem_tick k))).
Qed.

(** What a processor leaves when it deregisters is given back when it registers again in time. *)
Lemma redis_filled_back `{F32Text} e e' s id x :
  f32_parse (f32_to_string x) = Some x -> re_fails e = None -> re_fails e' = None -> re_server e' <= re_server e + redis_stale_age s ->
  Z.of_nat (S (size (rz_heartbeats (redis_state s)))) <= usize_max ->
  exists n, (redis_register e' (redis_deregister e s id x).1 id).2 = Ok (n, x).
Proof.
  intros Hx He He' Ht Hsz. unfold redis_deregister, redis_register, exec_lua_script. rewrite He, He'. cbn.
  set (beats := <[id := _]> (delete id _)).
  assert (Hn : 0 <= Z.of_nat (size beats) <= usize_max).
  { subst beats. rewrite map_size_insert_None by apply lookup_delete_eq.
    assert (size (delete id (rz_heartbeats (redis_state s))) <= size (rz_heartbeats (redis_state s)))%nat by
      (apply map_subseteq_size, delete_subseteq). lia. }
  assert (E : filter (fun kv => zbelow (re_server e' - redis_stale_age s) (<[id := re_server e]> (rz_prev_max_filled_ttl (redis_state s))) !! kv.1 = None)
    (<[id := f32_to_string x]> (rz_prev_max_filled (redis_state s))) !! id = Some (f32_to_string x)).
  { apply map_lookup_filter_Some. rewrite lookup_insert_eq. split; [done|]. simpl. apply map_lookup_filter_None.
    right. intros y. rewrite lookup_insert_eq. intros [= <-]. simpl. lia. }
  rewrite E, parse_usize_pretty by done. cbn. rewrite Hx. by eexists.
Qed.

(** * Concrete runs *)

#[local] Existing Instance canonical_order.
Definition zero_text : F32Text := {| f32_to_string := fun _ => "0"; f32_parse := fun _ => Some (f32_of_Z 0) |}.
#[local] Existing Instance zero_text.

(** The in-memory store after its processors have registered, and a Redis store that holds the same. *)
Definition example_redis : RedisStore * gmap string RateLimiterState :=
  let t := inner (fst example_pool) in
  (mkRedisStore (mkRedis (heartbeats t) (reported_pool t) ∅ ∅) (stale_age (fst example_pool)), snd example_pool).
Definition example_rticks : list RTick :=
  [mkRTick "c" (mkRedisEnv 0 5 None) 0; mkRTick "a" (mkRedisEnv 0 6 None) 0; mkRTick "b" (mkRedisEnv 0 7 None) 0].

Lemma redis_refines_memory_witness :
  let rsys' := redis_run validity_default example_redis example_rticks in
  let sys' := sys_run validity_default example_pool (mem_tick <$> example_rticks) in
  (redis_rel (fst rsys') (fst sys') /\ snd rsys' = snd sys') /\
  desired_pool_size <$> snd rsys' !! "a" = Some 3.
Proof.
  split; [|vm_compute; reflexivity].
  apply (redis_refines_memory canonical_order zero_text validity_default example_redis example_pool example_rticks).
  - split; [reflexivity|]. split; [reflexivity|]. split; [reflexivity|]. split; [vm_compute; reflexivity|].
    split; apply map_Forall_to_list; set (l := map_to_list _); vm_compute in l; unfold l; repeat constructor; simpl; by vm_compute.
  - reflexivity.
  - apply map_Forall_to_list. set (l := map_to_list _). vm_compute in l. unfold l. repeat constructor; simpl; by vm_compute.
  - by vm_compute.
  - repeat constructor; cbn; by vm_compute.
Defined.

(** The in-memory store has a finer clock. Stale after two seconds, a processor that was seen at 0.9 s is
    stale for it at 2.95 s; for Redis, which is given 0 and 2, it is not. Times in milliseconds in the
    one, in seconds in the other. *)
Example clock_resolution :
  let mem := mkStore (mkTimeline {["a" := 900]} {["a" := 2]} ∅) 2000 in
  let redis := mkRedisStore (mkRedis {["a" := 0]} {["a" := 2]} ∅ ∅) 2 in
  (mem_sync_pool_size (example_env 2950) mem "b" 1 false).2 = Ok (Agree 1) /\
  (redis_sync_pool_size (mkRedisEnv 2 2 None) redis "b" 1 false).2 = Ok (Disagree 2).
Proof. split; vm_compute; reflexivity. Qed.

(** The script that registers does not remove stale processors: after three processors have died,
    the next one is told a pool of four, and goes on with a quarter of the rate on its own. The
    in-memory store removes them first. *)
Example redis_counts_dead :
  let dead := foldl (fun s id => (redis_register (mkRedisEnv 0 0 None) s id).1) (mkRedisStore (mkRedis ∅ ∅ ∅ ∅) 180) ["a"; "b"; "c"] in
  let r := redis_register (mkRedisEnv 1000 1000 None) dead "d" in
  r.2 = Ok (4, f32_of_Z 0) /\
  (redis_sync_pool_size (mkRedisEnv 1001 1001 None) r.1 "d" 4 false).2 = Ok (Agree 4) /\
  (let m := foldl (fun s id => (mem_register (example_env 0) s id).1) (with_ttl 180) ["a"; "b"; "c"] in
   (mem_register (example_env 1000) m "d").2 = Ok (1, f32_of_Z 0)).
Proof. cbv zeta. split_and!; vm_compute; reflexivity. Qed.
