(* ===== verification/JetStreamIsb.v ===== *)
(** The JetStream inter-step buffer (src/rust/numaflow-core/src/pipeline/isb/jetstream: js_writer.rs,
    js_reader.rs, and pipeline/isb/compression.rs): what the writer of a stream submits, how it
    tells that the buffer is full, and what the reader makes of the messages it fetches and of the
    verdicts on them.

    The server and its client are external: their answers are arguments. The compression
    libraries are parameters, with the law that decompression undoes compression. *)
From Stdlib Require Import ZArith SpecFloat.
From S2P Require Import Prelude Clock Message Backoff Forward Manager Publisher IsbWriter.
Open Scope Z_scope.

(** * Compression *)

Inductive CompressionType := Gzip | Zstd | LZ4 | NoCompression.

(** flate2, zstd and lz4, by the type they serve. *)
Class Compressors := {
  lib_compress : CompressionType -> string -> option string;
  lib_decompress : CompressionType -> string -> option string;
  lib_decompress_compress : forall t d c, lib_compress t d = Some c -> lib_decompress t c = Some d
}.

Section Compression.
Context `{Compressors}.

Definition compress (t : CompressionType) (data : string) : Result string :=
  match t with
  | NoCompression => Ok data
  | _ => ok_or (lib_compress t data) (EOther "Failed to compress message")
  end.
Definition decompress (t : CompressionType) (data : string) : Result string :=
  match t with
  | NoCompression => Ok data
  | _ => ok_or (lib_decompress t data) (EOther "Failed to decompress message")
  end.

Lemma decompress_compress t d c : compress t d = Ok c -> decompress t c = Ok d.
Proof.
  destruct t; cbn; try (by intros [= ->]); (destruct (lib_compress _ d) as [c'|] eqn:E; [|done]);
    intros [= ->]; by rewrite (lib_decompress_compress _ _ _ E).
Qed.
End Compression.

(** * The writer of a stream *)

Record JetStreamWriter := mkJetStreamWriter {
  jw_stream : Stream;
  jw_compression_type : option CompressionType;
  jw_is_full : bool;
  jw_max_length : Z;
  jw_usage_limit : F64
}.

(** Until the first look at the stream the writer takes it for full. *)
Definition js_writer_new (stream : Stream) (max_length : Z) (usage_limit : F64) (c : option CompressionType) : JetStreamWriter :=
  mkJetStreamWriter stream c true max_length usage_limit.

(** What is submitted: a payload, and the id by which the server drops duplicates. *)
Record PublishMessage := mkPublish { pub_payload : string; pub_message_id : option string }.
(** The acknowledgement of a publish. *)
Record PublishAck := mkPublishAck { ack_sequence : Z; ack_duplicate : bool }.

Definition with_value (m : Message) (v : string) : Message :=
  mkMessage (m_typ m) (m_keys m) (m_tags m) v (m_offset m) (m_event_time m) (m_watermark m) (m_id m)
    (m_headers m) (m_metadata m) (m_is_late m) (m_nack_options m).
Definition is_wmb (m : Message) : bool := match m_typ m with MWMB => true | Data => false end.

Section Writer.
Context `{Chrono} `{IsbCodec} `{Compressors} (vertex_name : string).

Definition compressed (w : JetStreamWriter) (m : Message) : Message + WriteError :=
  match jw_compression_type w with
  | None => inl m
  | Some t => match compress t (m_value m) with
              | Ok v => inl (with_value m v)
              | Err _ => inr (WEWriteFailed "Compression failed")
              end
  end.

(** [async_write]: what is submitted, or the error; [None] is a panic. [send] says whether the
    submission fails. *)
Definition js_async_write (w : JetStreamWriter) (m : Message) (send : PublishMessage -> option string)
    : option (PublishMessage + WriteError) :=
  if negb (is_wmb m) && jw_is_full w then Some (inr WEBufferFull)
  else
    let? id := message_id_to_string (m_id m) in
    match compressed w m with
    | inr e => Some (inr e)
    | inl m' =>
        match message_to_bytes vertex_name m' with
        | Err _ => None
        | Ok payload =>
            let p := mkPublish payload (if is_wmb m then None else Some id) in
            Some (match send p with None => inl p | Some e => inr (WEWriteFailed e) end)
        end
    end.

(** The pending write is resolved. *)
Definition resolve_ack (w : JetStreamWriter) (r : PublishAck + string) : WriteResult + WriteError :=
  match r with
  | inr e => inr (WEWriteFailed e)
  | inl ack => inl (mkWriteResult (OInt (mkIntOffset (wrap_i64 (ack_sequence ack)) (stream_partition (jw_stream w))))
                      (ack_duplicate ack))
  end.

(** [write]: without an id for duplicates, and waits for the acknowledgement. *)
Definition js_write (w : JetStreamWriter) (m : Message) (publish : PublishMessage -> option string)
    (paf : PublishMessage -> PublishAck + string) : option (WriteResult + WriteError) :=
  if negb (is_wmb m) && jw_is_full w then Some (inr WEBufferFull)
  else
    match compressed w m with
    | inr e => Some (inr e)
    | inl m' =>
        match message_to_bytes vertex_name m' with
        | Err _ => None
        | Ok payload =>
            let p := mkPublish payload None in
            Some (match publish p with
                  | Some e => inr (WEWriteFailed e)
                  | None => resolve_ack w (paf p)
                  end)
        end
    end.
End Writer.

(** ** Fullness *)

Record BufferInfo := mkBufferInfo {
  soft_usage : F64;
  solid_usage : F64;
  num_pending : Z;
  num_ack_pending : Z
}.

(** The answers of the server: the retention is by limits, the messages of the stream; the pending
    messages of the consumer. [None] is an error. *)
Definition fetch_buffer_info (stream_info : option (bool * Z)) (consumer_info : option (Z * Z)) (max_length : Z) : Result BufferInfo :=
  match stream_info, consumer_info with
  | None, _ => Err (EOther "Failed to get the stream info")
  | _, None => Err (EOther "Failed to get the consumer info")
  | Some (limits, messages), Some (pending, ack_pending) =>
      let soft := SFdiv 53 1024 (SFadd 53 1024 (f64_of_Z pending) (f64_of_Z ack_pending)) (f64_of_Z max_length) in
      let solid := if limits then soft else SFdiv 53 1024 (f64_of_Z messages) (f64_of_Z max_length) in
      Ok (mkBufferInfo soft solid pending ack_pending)
  end.

(** A tick of [check_stream_status]. *)
Definition check_stream_status (stream_info : option (bool * Z)) (consumer_info : option (Z * Z)) (w : JetStreamWriter) : JetStreamWriter :=
  let full :=
    match fetch_buffer_info stream_info consumer_info (jw_max_length w) with
    | Ok info => SFleb (jw_usage_limit w) (solid_usage info) && SFleb (jw_usage_limit w) (soft_usage info)
    | Err _ => true
    end in
  mkJetStreamWriter (jw_stream w) (jw_compression_type w) full (jw_max_length w) (jw_usage_limit w).

(** * The reader *)

(** A message of the server: its payload, its sequence in the stream ([None] when the reply subject
    does not parse), and the delivery it belongs to. *)
Record JsMessage := mkJsMessage { js_payload : string; js_sequence : option Z; js_delivery : nat }.

Record JetStreamReader := mkJetStreamReader {
  jr_stream : Stream;
  jr_compression_type : option CompressionType;
  jr_offset2jsmsg : gmap Offset JsMessage;
  jr_wip_ack_interval : Z                    (* seconds *)
}.
(** [ack_wait] in seconds: three thirds, to give two chances. *)
Definition js_reader_new (stream : Stream) (c : option CompressionType) (ack_wait : Z) : JetStreamReader :=
  mkJetStreamReader stream c ∅ (ack_wait / 3).
Definition with_messages (r : JetStreamReader) (m : gmap Offset JsMessage) : JetStreamReader :=
  mkJetStreamReader (jr_stream r) (jr_compression_type r) m (jr_wip_ack_interval r).

Definition js_offset (partition seq : Z) : Offset := OInt (mkIntOffset (wrap_i64 seq) partition).
Definition with_offset (m : Message) (o : Offset) : Message :=
  mkMessage (m_typ m) (m_keys m) (m_tags m) (m_value m) o (m_event_time m) (m_watermark m) (m_id m)
    (m_headers m) (m_metadata m) (m_is_late m) (m_nack_options m).
Definition with_id (m : Message) (i : MessageID) : Message :=
  mkMessage (m_typ m) (m_keys m) (m_tags m) (m_value m) (m_offset m) (m_event_time m) (m_watermark m) i
    (m_headers m) (m_metadata m) (m_is_late m) (m_nack_options m).
Definition with_type (m : Message) (t : MessageType) : Message :=
  mkMessage t (m_keys m) (m_tags m) (m_value m) (m_offset m) (m_event_time m) (m_watermark m) (m_id m)
    (m_headers m) (m_metadata m) (m_is_late m) (m_nack_options m).

Section Reader.
Context `{Chrono} `{IsbCodec} `{Compressors} (vertex_name : string).

Definition decompress_body (t : option CompressionType) (p : ProtoMessage) : Result ProtoMessage :=
  match t, pm_body p with
  | Some t, Some body => try! v := decompress t body in Ok (mkProtoMessage (pm_header p) (Some v))
  | _, _ => Ok p
  end.

(** [into_message]; [now] is the event time of a default message. *)
Definition into_message (now : DateTime) (partition : Z) (t : option CompressionType) (jm : JsMessage) : Result Message :=
  try! proto := ok_or (isb_decode (js_payload jm)) (EProto "decode") in
  try! header := ok_or (pm_header proto) (EProto "Missing header") in
  match type_of_i32 (ph_kind header) with
  | MWMB => Ok (with_type (message_default now) MWMB)
  | Data =>
      try! seq := ok_or (js_sequence jm) (EOther "Failed to get message info from JetStream") in
      let offset := js_offset partition seq in
      try! proto := decompress_body t proto in
      try! message := message_from_isb_proto proto offset in
      Ok (with_id message (mkMessageID vertex_name (default "" (offset_to_string offset)) 0))
  end.

(** One message of a batch: it is entered in the map only once it has been converted. *)
Definition fetch_one (now : DateTime) (r : JetStreamReader) (jm : JsMessage) : JetStreamReader * Result Message :=
  match js_sequence jm with
  | None => (r, Err (EOther "Failed to get message info from JetStream"))
  | Some seq =>
      let offset := js_offset (stream_partition (jr_stream r)) seq in
      match into_message now (stream_partition (jr_stream r)) (jr_compression_type r) jm with
      | Err e => (r, Err e)
      | Ok m => (with_messages r (<[offset := jm]> (jr_offset2jsmsg r)), Ok (with_offset m offset))
      end
  end.
Fixpoint fetch_each (now : DateTime) (r : JetStreamReader) (ms : list JsMessage) : JetStreamReader * Result (list Message) :=
  match ms with
  | [] => (r, Ok [])
  | jm :: ms =>
      match fetch_one now r jm with
      | (r', Err e) => (r', Err e)
      | (r', Ok m) => let (r'', out) := fetch_each now r' ms in (r'', try! l := out in Ok (m :: l))
      end
  end.
(** The batch as the client delivers it: [None] for the whole batch is ignored, a message that
    fails is skipped. *)
Definition js_fetch (now : DateTime) (r : JetStreamReader) (batch : option (list (option JsMessage))) : JetStreamReader * Result (list Message) :=
  fetch_each now r (omap (fun x => x) (default [] batch)).
End Reader.

(** ** Verdicts *)

(** What is sent to the server for a delivery. *)
Inductive AckKind := Progress | DoubleAck | NakAfter (delay : option Z).

Definition get_js_message (r : JetStreamReader) (off : Offset) (remove : bool) : JetStreamReader * option JsMessage :=
  if remove then (with_messages r (delete off (jr_offset2jsmsg r)), jr_offset2jsmsg r !! off)
  else (r, jr_offset2jsmsg r !! off).

(** Sends [kind] for the delivery of an offset; [ok] is the answer. On success, the offset is
    forgotten if [settles]. The reader, what was sent, the result. *)
Definition send_verdict (kind : AckKind) (settles ok : bool) (r : JetStreamReader) (off : Offset)
    : JetStreamReader * option (nat * AckKind) * Result unit :=
  match (get_js_message r off false).2 with
  | None => (r, None, Err (EOther "OffsetNotFound"))
  | Some jm =>
      let sent := Some (js_delivery jm, kind) in
      if ok then ((if settles then (get_js_message r off true).1 else r), sent, Ok tt)
      else (r, sent, Err (EOther "Ack"))
  end.
Definition js_mark_wip : bool -> JetStreamReader -> Offset -> _ := send_verdict Progress false.
Definition js_ack : bool -> JetStreamReader -> Offset -> _ := send_verdict DoubleAck true.
Definition js_nack (o : option NackOptions) : bool -> JetStreamReader -> Offset -> _ :=
  send_verdict (NakAfter (o ≫= nack_delay)) true.
(** [pending]: the answer of the server as [usize]. *)
Definition js_pending (info : option (Z * Z)) : Result (option Z) :=
  match info with
  | None => Err (EOther "Failed to get consumer info")
  | Some (num_pending, num_ack_pending) => Ok (Some (usize (num_pending + num_ack_pending)))
  end.

(** * From the writer to the reader *)

Section Flow.
Context `{Chrono} `{IsbCodec} `{Compressors} (writer_vertex reader_vertex : string).

(** The message a reader hands out at an offset for the message [m] of a writer: the id names the
    reader and the offset; of a control message only the kind is left. *)
Definition as_fetched (now : DateTime) (off : Offset) (m : Message) : Message :=
  match m_typ m with
  | Data => with_id (as_read writer_vertex off m) (mkMessageID reader_vertex (default "" (offset_to_string off)) 0)
  | MWMB => with_offset (with_type (message_default now) MWMB) off
  end.

(** What an accepted write has submitted. *)
Lemma async_write_payload w m send p :
  js_async_write writer_vertex w m send = Some (inl p) ->
  exists id m', message_id_to_string (m_id m) = Some id /\ compressed w m = inl m' /\
    message_to_bytes writer_vertex m' = Ok (pub_payload p) /\
    pub_message_id p = (if is_wmb m then None else Some id) /\ (jw_is_full w = true -> is_wmb m = true).
Proof.
  unfold js_async_write. destruct (negb (is_wmb m) && jw_is_full w) eqn:Ef; [done|].
  destruct (message_id_to_string (m_id m)) as [id|] eqn:Ei; [|done].
  destruct (compressed w m) as [m'|e] eqn:Ec; [|done].
  destruct (message_to_bytes writer_vertex m') as [b|e] eqn:Eb; [|done].
  intros Hs. exists id, m'. destruct (send _); [done|]. injection Hs as <-. split_and!; [done..|].
  intros Hf. rewrite Hf in Ef. by destruct (is_wmb m).
Qed.

Lemma compressed_proto w m m' :
  compressed w m = inl m' ->
  decompress_body (jw_compression_type w) (message_to_isb_proto writer_vertex m') = Ok (message_to_isb_proto writer_vertex m) /\
  m_typ m' = m_typ m.
Proof.
  unfold compressed, decompress_body. destruct (jw_compression_type w) as [t|]; [|by intros [= <-]].
  destruct (compress t (m_value m)) as [v|e] eqn:Ec; [|done]. intros [= <-]. split; [|done].
  cbn. by rewrite (decompress_compress _ _ _ Ec).
Qed.

Lemma message_id_utf8 i s : message_id_to_string i = Some s ->
  utf8_valid (id_vertex_name i) = true /\ utf8_valid (id_offset i) = true.
Proof. unfold message_id_to_string. destruct (_ && _) eqn:E; [|done]. intros _. by apply andb_true_iff in E. Qed.

Lemma fetch_written now w r m send p jm seq :
  js_async_write writer_vertex w m send = Some (inl p) -> dt_valid (m_event_time m) ->
  jr_compression_type r = jw_compression_type w -> js_payload jm = pub_payload p -> js_sequence jm = Some seq ->
  let off := js_offset (stream_partition (jr_stream r)) seq in
  fetch_one reader_vertex now r jm = (with_messages r (<[off := jm]> (jr_offset2jsmsg r)), Ok (as_fetched now off m)).
Proof.
  intros Hw Ht Ec Ep Es off. apply async_write_payload in Hw as (id & m' & Hid & Hm' & Hb & _).
  apply message_id_utf8 in Hid as [Hv Ho]. destruct (compressed_proto _ _ _ Hm') as [Hd Hty].
  unfold message_to_bytes in Hb. destruct (isb_encode _) as [b|] eqn:Ee; [|done]. injection Hb as ->.
  unfold fetch_one. rewrite Es. fold off. unfold into_message. rewrite Ep, (isb_decode_encode _ _ Ee).
  cbn [ok_or pm_header message_to_isb_proto ph_kind]. unfold as_fetched. rewrite Hty, Ec.
  destruct (m_typ m) eqn:Em; cbn [i32_of_type type_of_i32 Z.eqb]; [|done].
  rewrite Es. cbn [ok_or]. rewrite Hd, isb_proto_roundtrip by done. done.
Qed.

(** [jm] delivers what the writer has submitted for [m]. *)
Definition delivers (w : JetStreamWriter) (m : Message) (jm : JsMessage) : Prop :=
  exists send p, js_async_write writer_vertex w m send = Some (inl p) /\ dt_valid (m_event_time m) /\
    js_payload jm = pub_payload p /\ is_Some (js_sequence jm).
Definition offset_of (r : JetStreamReader) (jm : JsMessage) : Offset :=
  js_offset (stream_partition (jr_stream r)) (default 0 (js_sequence jm)).

Lemma fetch_each_written now w ms jms r :
  jr_compression_type r = jw_compression_type w -> Forall2 (delivers w) ms jms ->
  exists r', fetch_each reader_vertex now r jms =
    (r', Ok (zip_with (fun jm m => as_fetched now (offset_of r jm) m) jms ms)) /\
    jr_stream r' = jr_stream r /\ jr_compression_type r' = jr_compression_type r /\
    (NoDup (offset_of r <$> jms) -> forall jm, jm ∈ jms -> jr_offset2jsmsg r' !! offset_of r jm = Some jm) /\
    (forall off, off ∉ offset_of r <$> jms -> jr_offset2jsmsg r' !! off = jr_offset2jsmsg r !! off).
Proof.
  intros Ec H2. revert r Ec. induction H2 as [|m jm ms jms Hm H2 IH]; intros r Ec.
  { exists r. split_and!; try done. by intros _ jm ?%elem_of_nil. }
  destruct Hm as (send & p & Hw & Ht & Ep & seq & Es). cbn [fetch_each].
  rewrite (fetch_written now w r m send p jm seq) by done.
  set (r1 := with_messages r _). destruct (IH r1 Ec) as (r' & Hf & Hs & Hc & Hin & Hout).
  exists r'. rewrite Hf. assert (Eo : js_offset (stream_partition (jr_stream r)) seq = offset_of r jm) by by unfold offset_of; rewrite Es.
  split_and!; [by rewrite Eo|done|done| |].
  - rewrite fmap_cons, NoDup_cons. intros [Hni Hnd] x [->|Hx]%elem_of_cons; [|by apply Hin].
    rewrite Hout by done. subst r1. cbn. rewrite Eo. apply lookup_insert_eq.
  - rewrite fmap_cons. intros off [Hne Hni]%not_elem_of_cons. rewrite Hout by done. subst r1. cbn.
    rewrite Eo. by rewrite lookup_insert_ne.
Qed.
End Flow.

(** C9: from the writer to the reader of a stream. Of messages the writer has accepted, delivered in
    any order at different sequence numbers, a fetch hands out exactly these, in the order of the
    delivery, with their payload as it was before compression; and an acknowledgement, a
    rejection or a sign of progress for one of their offsets then reaches its own delivery. *)
Theorem js_write_fetch (C : Chrono) (K : IsbCodec) (L : Compressors) (writer_vertex reader_vertex : string) (now : DateTime)
    (w : JetStreamWriter) (r : JetStreamReader) (ms : list Message) (jms : list JsMessage) :
  jr_compression_type r = jw_compression_type w -> Forall2 (delivers writer_vertex w) ms jms ->
  NoDup (offset_of r <$> jms) ->
  exists r', js_fetch reader_vertex now r (Some (Some <$> jms)) =
    (r', Ok (zip_with (fun jm m => as_fetched writer_vertex reader_vertex now (offset_of r jm) m) jms ms)) /\
  forall jm ok o, jm ∈ jms ->
    (js_ack ok r' (offset_of r jm)).1.2 = Some (js_delivery jm, DoubleAck) /\
    (js_nack o ok r' (offset_of r jm)).1.2 = Some (js_delivery jm, NakAfter (o ≫= nack_delay)) /\
    (js_mark_wip ok r' (offset_of r jm)).1.2 = Some (js_delivery jm, Progress).
Proof.
  intros Ec H2 Hnd. unfold js_fetch. cbn [default from_option id].
  assert (E : omap (fun x => x) (Some <$> jms) = jms) by (clear; induction jms as [|x l IH]; cbn; by rewrite ?IH).
  rewrite E. destruct (fetch_each_written writer_vertex reader_vertex now w ms jms r Ec H2) as (r' & Hf & _ & _ & Hin & _).
  exists r'. split; [done|]. intros jm ok o Hjm. specialize (Hin Hnd jm Hjm).
  unfold js_ack, js_nack, js_mark_wip, send_verdict, get_js_message. cbn. rewrite Hin. by destruct ok.
Qed.

(** A settled offset is forgotten, a failed verdict can be tried again. *)
Lemma verdict_retry kind settles r off r' sent res :
  send_verdict kind settles false r off = (r', sent, res) -> r' = r /\ (is_Some sent <-> is_Some (jr_offset2jsmsg r !! off)).
Proof. unfold send_verdict. cbn. destruct (_ !! off); intros [= <- <- <-]; split; try done; by split; intros []. Qed.

(** A buffer that is full refuses messages, never control messages. *)
Lemma full_refuses `{Chrono} `{IsbCodec} `{Compressors} v w m send :
  jw_is_full w = true -> js_async_write v w m send = Some (inr WEBufferFull) <-> m_typ m = Data.
Proof.
  intros Hf. unfold js_async_write, is_wmb. rewrite Hf. destruct (m_typ m); cbn; [done|]. split; [|done].
  destruct (message_id_to_string _); [|done]. unfold compressed. destruct (jw_compression_type w) as [t|].
  - destruct (compress t _); [|done]. destruct (message_to_bytes v _); [|done]. by destruct (send _).
  - destruct (message_to_bytes v m); [|done]. by destruct (send _).
Qed.

(** * Concrete runs *)

#[local] Existing Instance chrono_utc.
#[local] Existing Instance digit_codec.

(** A library that puts a mark before the text. *)
Definition mark_compressors : Compressors.
Proof.
  refine {| lib_compress t d := Some (String Ascii.zero d);
            lib_decompress t c := match c with String _ d => Some d | EmptyString => None end |}.
  by intros t d c [= <-].
Defined.
#[local] Existing Instance mark_compressors.

Definition ex_js_writer : JetStreamWriter :=
  check_stream_status (Some (true, 10)) (Some (3, 2)) (js_writer_new (mkStream "s" "v" 1) 100 (f64_of_Z 1) (Some Gzip)).
Definition ex_js_reader : JetStreamReader := js_reader_new (mkStream "s" "v" 1) (Some Gzip) 30.
Definition accept_all (p : PublishMessage) : option string := None.
Definition payload_of (m : Message) : string :=
  match js_async_write "cat" ex_js_writer m accept_all with Some (inl p) => pub_payload p | _ => "" end.
Definition ex_js_delivery : JsMessage := mkJsMessage (payload_of example_message) (Some 9) 4.

Lemma js_write_fetch_witness :
  exists r', js_fetch "sink" 0 ex_js_reader (Some [Some ex_js_delivery]) =
    (r', Ok [with_id (as_read "cat" (OInt (mkIntOffset 9 1)) example_message) (mkMessageID "sink" "9-1" 0)]) /\
    (js_ack true r' (OInt (mkIntOffset 9 1))).1.2 = Some (4%nat, DoubleAck).
Proof.
  destruct (js_write_fetch chrono_utc digit_codec mark_compressors "cat" "sink" 0 ex_js_writer ex_js_reader
    [example_message] [ex_js_delivery]) as (r' & Hf & Hv).
  - reflexivity.
  - constructor; [|constructor]. exists accept_all. eexists. split; [vm_compute; reflexivity|].
    split; [by vm_compute|]. split; [vm_compute; reflexivity|by eexists].
  - repeat constructor. by intros ?%elem_of_nil.
  - exists r'. split; [exact Hf|]. apply (Hv ex_js_delivery true None). by left.
Defined.

(** One message that cannot be decoded fails the whole fetch: the message before it, already
    entered in the map, is not handed out. *)
Example undecodable_fails_batch :
  let r := js_fetch "sink" 0 ex_js_reader (Some [Some ex_js_delivery; Some (mkJsMessage "" (Some 10) 5)]) in
  (exists e, r.2 = Err e) /\ jr_offset2jsmsg r.1 !! OInt (mkIntOffset 9 1) = Some ex_js_delivery.
Proof. cbv zeta. split; [eexists|]; vm_compute; reflexivity. Qed.
