(* ===== verification/ServingStore.v ===== *)
(** The stores behind a serving pod (src/rust/serving/src/app/store: status.rs,
    cbstore/jetstream_store.rs, datastore/jetstream.rs, and the writer of a result in
    numaflow-core's sinker/sink/serve/nats.rs): the status of a request, the callbacks that tell
    its progress and the responses collected for it.

    A bucket of the JetStream key-value store is external: a class with its documented laws. The
    rows a watcher is sent, and what fails, are arguments. *)
From S2P Require Import Prelude Clock Message Wal WalMessage Manager ServerInfo ServingGraph SinkWriter.
From stdpp Require Import pretty.
#[local] Open Scope Z_scope.

(** * Buckets *)

(** [kv_create] gives [None] when the key is there. The buckets of serving have a time to live of two
    hours: an entry that old disappears, as if it were deleted. For the status bucket this is an
    operation of its own below ([OExpire]); the callbacks and responses are followed within that
    time. *)
Class KvBucket := {
  Bucket : Type;
  kv_get : Bucket -> string -> option string;
  kv_put : Bucket -> string -> string -> Bucket;
  kv_create : Bucket -> string -> string -> option Bucket;
  kv_delete : Bucket -> string -> Bucket;
  kv_get_put : forall b k v k', kv_get (kv_put b k v) k' = if decide (k = k') then Some v else kv_get b k';
  kv_get_delete : forall b k k', kv_get (kv_delete b k) k' = if decide (k = k') then None else kv_get b k';
  kv_create_put : forall b k v, kv_create b k v = match kv_get b k with Some _ => None | None => Some (kv_put b k v) end
}.

(** A row as a watcher sees it. *)
Record Row := mkRow { row_key : string; row_value : string; row_operation : KVWatchOp; row_revision : Z }.

(** A call that fails, and whether the server carried it out all the same. *)
Record Fault := mkFault { carried_out : bool; fault_text : string }.

(** * Requests and their status *)

Inductive RequestType := Sse | Sync | Async.
#[global] Instance RequestType_eq_dec : EqDecision RequestType.
Proof. solve_decision. Defined.

Inductive ProcessingStatus :=
  | InProgress (pod_hash : string)
  | Completed (subgraph pod_hash : string)
  | Failed (error pod_hash : string).

Inductive StatusError :=
  | InvalidStatus (id : string)
  | Cancelled (err previous_pod_hash : string)
  | Duplicate (id : string)
  | StatusOther (e : string).

(** serde_json on the statuses, the request types and the callbacks. *)
Class ServingJson := {
  status_bytes : ProcessingStatus -> string;
  status_of_bytes : string -> option ProcessingStatus;
  status_of_status_bytes : forall s, status_of_bytes (status_bytes s) = Some s;
  type_bytes : RequestType -> string;
  type_of_bytes : string -> option RequestType;
  type_of_type_bytes : forall t, type_of_bytes (type_bytes t) = Some t;
  callback_bytes : Callback -> string;
  callback_of_bytes : string -> option Callback;
  callback_of_callback_bytes : forall c, callback_of_bytes (callback_bytes c) = Some c
}.

Definition START_PROCESSING_MARKER : string := "start.processing".
Definition DONE_PROCESSING_MARKER : string := "done.processing".
Definition FINAL_RESULT_KEY_SUFFIX : string := "final.result.processed".

Definition status_key (id : string) : string := "status." +:+ id.
Definition start_key (pod id : string) : string := "rs." +:+ pod +:+ "." +:+ id +:+ "." +:+ START_PROCESSING_MARKER.
Definition done_key (pod id : string) : string := "rs." +:+ pod +:+ "." +:+ id +:+ "." +:+ DONE_PROCESSING_MARKER.
Definition final_key (id : string) : string := "rs." +:+ id +:+ "." +:+ FINAL_RESULT_KEY_SUFFIX.

(** [has_response_kv] is false for a user-defined store of responses. *)
Record StatusTracker := mkStatusTracker { st_pod_hash : string; has_response_kv : bool }.

Section Status.
Context `{KvBucket} `{ServingJson}.

(** The status bucket and the response bucket. *)
Record Stores := mkStores { status_kv : Bucket; response_kv : Bucket }.

Definition try_put (f : option Fault) (b : Bucket) (k v : string) : Bucket * option string :=
  match f with
  | None => (kv_put b k v, None)
  | Some e => (if carried_out e then kv_put b k v else b, Some (fault_text e))
  end.
Definition try_remove (f : option Fault) (b : Bucket) (k : string) : Bucket * option string :=
  match f with
  | None => (kv_delete b k, None)
  | Some e => (if carried_out e then kv_delete b k else b, Some (fault_text e))
  end.

Inductive CreateError := AlreadyExists | CreateOther (e : string).
Definition try_create (f : option Fault) (b : Bucket) (k v : string) : Bucket * option CreateError :=
  match f with
  | None => match kv_create b k v with Some b' => (b', None) | None => (b, Some AlreadyExists) end
  | Some e => (if carried_out e then default b (kv_create b k v) else b, Some (CreateOther (fault_text e)))
  end.

Definition put_marker (f : option Fault) (s : Stores) (k v : string) : Stores * (unit + StatusError) :=
  let (b, e) := try_put f (response_kv s) k v in
  (mkStores (status_kv s) b, match e with None => inl tt | Some e => inr (StatusOther e) end).

(** [get_status]: the entry is expected. *)
Definition get_status (f : option string) (s : Stores) (id : string) : ProcessingStatus + StatusError :=
  match f with
  | Some e => inr (StatusOther e)
  | None =>
      match kv_get (status_kv s) (status_key id) with
      | None => inr (StatusOther "Status entry not found")
      | Some v => match status_of_bytes v with
                  | Some st => inl st
                  | None => inr (StatusOther "Failed to deserialize status")
                  end
      end
  end.

Definition handle_existing_status (t : StatusTracker) (id : string) (st : ProcessingStatus) : unit + StatusError :=
  match st with
  | InProgress pod =>
      if decide (pod = st_pod_hash t) then inr (Duplicate id)
      else inr (StatusOther "Request is getting processed in another pod")
  | Completed _ _ => inr (Duplicate id)
  | Failed e pod => inr (Cancelled e pod)
  end.

(** What may fail in one operation of the tracker: the call on the status bucket, the read of a
    status, the marker. *)
Record Faults := mkFaults { f_status : option Fault; f_get : option string; f_marker : option Fault }.
Definition no_faults : Faults := mkFaults None None None.

Definition register (t : StatusTracker) (id : string) (rt : RequestType) (f : Faults) (s : Stores)
    : Stores * (unit + StatusError) :=
  let (b, e) := try_create (f_status f) (status_kv s) (status_key id) (status_bytes (InProgress (st_pod_hash t))) in
  let s := mkStores b (response_kv s) in
  match e with
  | None =>
      if has_response_kv t then put_marker (f_marker f) s (start_key (st_pod_hash t) id) (type_bytes rt)
      else (s, inl tt)
  | Some AlreadyExists =>
      (s, match get_status (f_get f) s id with
          | inl st => handle_existing_status t id st
          | inr e => inr e
          end)
  | Some (CreateOther e) => (s, inr (StatusOther e))
  end.

(** [status]: the entry may be missing. *)
Definition status (f : option string) (s : Stores) (id : string) : ProcessingStatus + StatusError :=
  match f with
  | Some e => inr (StatusOther e)
  | None =>
      match kv_get (status_kv s) (status_key id) with
      | Some v => match status_of_bytes v with
                  | Some st => inl st
                  | None => inr (StatusOther "Failed to deserialize status")
                  end
      | None => inr (InvalidStatus id)
      end
  end.

Definition update_status (id : string) (st : ProcessingStatus) (f : Faults) (s : Stores) : Stores * (unit + StatusError) :=
  let (b, e) := try_put (f_status f) (status_kv s) (status_key id) (status_bytes st) in
  (mkStores b (response_kv s), match e with None => inl tt | Some e => inr (StatusOther e) end).

Definition mark_as_failed (t : StatusTracker) (id error : string) (f : Faults) (s : Stores) : Stores * (unit + StatusError) :=
  update_status id (Failed error (st_pod_hash t)) f s.

Definition deregister (t : StatusTracker) (id subgraph : string) (pod : option string) (f : Faults) (s : Stores)
    : Stores * (unit + StatusError) :=
  let pod := default (st_pod_hash t) pod in
  match update_status id (Completed subgraph pod) f s with
  | (s, inr e) => (s, inr e)
  | (s, inl _) =>
      if has_response_kv t then put_marker (f_marker f) s (done_key pod id) "" else (s, inl tt)
  end.

Definition discard (t : StatusTracker) (id : string) (f : Faults) (s : Stores) : Stores * (unit + StatusError) :=
  let (b, e) := try_remove (f_status f) (status_kv s) (status_key id) in
  let s := mkStores b (response_kv s) in
  match e with
  | Some e => (s, inr (StatusOther e))
  | None =>
      if has_response_kv t then put_marker (f_marker f) s (done_key (st_pod_hash t) id) "" else (s, inl tt)
  end.
End Status.

(** * Lists of results as one value *)

Definition merge_bytes_list (l : list string) : string :=
  foldl (fun acc b => acc +:+ le_bytes 8 (slen b) +:+ b) "" l.

(** The loop over the cursor; every turn takes the eight bytes of a length, so the size of the value
    is enough fuel. *)
Fixpoint extract_go (fuel : nat) (acc : list string) (s : string) : list string + string :=
  match fuel with
  | O => inl acc
  | S fuel =>
      if decide (slen s = 0%N) then inl acc
      else if decide (slen s < 8)%N then inr "Truncated data: not enough bytes for length prefix"
      else
        let len := of_le (stake 8 s) in
        let rest := sdrop 8 s in
        if decide (slen rest < len)%N then inr "Truncated data: declared payload length exceeds remaining bytes"
        else extract_go fuel (acc ++ [stake (N.to_nat len) rest]) (sdrop (N.to_nat len) rest)
  end.
Definition extract_bytes_list (merged : string) : list string + string :=
  extract_go (S (String.length merged)) [] merged.

(** * The store of responses *)

Inductive StoreError :=
  | Connection (e : string)
  | InvalidRequestId (e : string)
  | DuplicateRequest (e : string)
  | StoreRead (e : string).

(** The receiving end of a channel: in the map, taken by a client, dropped by it. *)
Inductive Receiver := RxHere | RxTaken | RxDropped.
#[global] Instance Receiver_eq_dec : EqDecision Receiver.
Proof. solve_decision. Defined.

(** A channel holds at most ten values that were sent and not received. *)
Inductive ResponseMode :=
  | MStream (sent : list string) (rx : Receiver)
  | MUnary (responses : list string).
Definition CHANNEL_SIZE : nat := 10.
Abbreviation ResponsesMap := (gmap string ResponseMode) (only parsing).

(** [str::splitn]: at most [n] parts, the last one with the rest of the text. *)
Fixpoint find_cut (c : Ascii.ascii) (s : string) : option (string * string) :=
  match s with
  | EmptyString => None
  | String a s =>
      if decide (a = c) then Some ("", s)
      else let? (x, y) := find_cut c s in Some (String a x, y)
  end.
Fixpoint splitn (n : nat) (c : Ascii.ascii) (s : string) : list string :=
  match n with
  | O => []
  | S O => [s]
  | S n => match find_cut c s with Some (x, y) => x :: splitn n c y | None => [s] end
  end.

(** What the processing of a row ends with: [Blocked] waits for a place in a channel. *)
Inductive Outcome := Done | Errored (e : string) | Blocked | Panicked.
#[global] Instance Outcome_eq_dec : EqDecision Outcome.
Proof. solve_decision. Defined.

Section Responses.
Context `{ServingJson} (pod_hash : string).

(** The request and the suffix of a key of this pod. *)
Definition parse_key (prefix key : string) : option (string * string) :=
  match splitn 5 dot key with
  | [p; pod; id; a; b] =>
      if decide (p = prefix /\ pod = pod_hash) then Some (id, a +:+ "." +:+ b) else None
  | _ => None
  end.

(** [process_entry]: the map, the write that is spawned, and the outcome. The permits bound how
    many writes are in flight. *)
Definition process_entry (r : Row) (m : ResponsesMap) : ResponsesMap * list (string * string) * Outcome :=
  match parse_key "rs" (row_key r) with
  | None => (m, [], Errored "Unexpected key format")
  | Some (id, suffix) =>
      if decide (suffix = START_PROCESSING_MARKER) then
        match type_of_bytes (row_value r) with
        | None => (m, [], Panicked)
        | Some rt =>
            match m !! id with
            | Some _ => (m, [], Errored "Start processing marker already exists")
            | None => (<[id := match rt with Sse => MStream [] RxHere | _ => MUnary [] end]> m, [], Done)
            end
        end
      else if decide (suffix = DONE_PROCESSING_MARKER) then
        (delete id m,
         match m !! id with
         | Some (MUnary responses) => [(final_key id, merge_bytes_list responses)]
         | _ => []
         end, Done)
      else
        match m !! id with
        | None => (m, [], Done)
        | Some (MUnary responses) => (<[id := MUnary (responses ++ [row_value r])]> m, [], Done)
        | Some (MStream sent rx) =>
            if decide (rx = RxDropped) then (m, [], Errored "Failed to send SSE response")
            else if decide (CHANNEL_SIZE <= length sent)%nat then (m, [], Blocked)
            else (<[id := MStream (sent ++ [row_value r]) rx]> m, [], Done)
        end
  end.

(** ** The central watcher

    [w_log]: the rows of the bucket under the prefix of the pod; [w_todo]: those the present
    watcher has not delivered; [w_current]: the row the watcher waits in, with the lock of the
    map; [w_writes]: the writes that are spawned and not carried out; [w_results]: the results
    written. *)
Record WState := mkW {
  w_log : list Row;
  w_todo : list Row;
  w_latest : Z;
  w_current : option Row;
  w_map : ResponsesMap;
  w_writes : list (string * string);
  w_results : gmap string string;
  w_dead : bool
}.
Definition watcher_start (log : list Row) : WState := mkW log log 0 None ∅ [] ∅ false.

Definition last_revision (log : list Row) : Z := match last log with Some r => row_revision r | None => 0 end.

(** [watch_from_revision]. *)
Definition rows_from (rev : Z) (log : list Row) : list Row := filter (fun r => rev <= row_revision r) log.

(** The row [r] is processed, the watcher being otherwise [s]. *)
Definition handle_row (r : Row) (s : WState) : WState :=
  match row_operation r with
  | KVPut =>
      let '(m, ws, o) := process_entry r (w_map s) in
      match o with
      | Blocked => mkW (w_log s) (w_todo s) (w_latest s) (Some r) (w_map s) (w_writes s) (w_results s) (w_dead s)
      | Panicked => mkW (w_log s) (w_todo s) (w_latest s) None m (w_writes s) (w_results s) true
      | _ => mkW (w_log s) (w_todo s) (w_latest s) None m (w_writes s ++ ws) (w_results s) (w_dead s)
      end
  | _ => mkW (w_log s) (w_todo s) (w_latest s) None (w_map s) (w_writes s) (w_results s) (w_dead s)
  end.

Inductive WLabel :=
  | LAppend (k v : string) (op : KVWatchOp)   (* somebody writes to the bucket *)
  | LRow                                      (* the watcher takes the next row *)
  | LResume                                   (* the watcher goes on with the row it waits in *)
  | LRecreate                                 (* the stream of the watcher fails or ends *)
  | LTake (id : string)                       (* a client takes the receiver of a request *)
  | LReceive (id : string)                    (* and receives a value *)
  | LDrop (id : string)                       (* or drops it *)
  | LCommit (i : nat) (f : bool).             (* a spawned write is carried out, or fails *)

(** [stream_data] of a request of this pod: with the lock of the map, the client takes the receiver;
    [None]: it is not there yet, or it is gone, and the client tries again. *)
Definition stream_data (id : string) (s : WState) : option WState :=
  match w_current s, w_map s !! id with
  | None, Some (MStream sent RxHere) =>
      Some (mkW (w_log s) (w_todo s) (w_latest s) None (<[id := MStream sent RxTaken]> (w_map s)) (w_writes s) (w_results s) (w_dead s))
  | _, _ => None
  end.

(** One step; [None]: not possible. *)
Definition w_step (l : WLabel) (s : WState) : option WState :=
  match l with
  | LAppend k v op =>
      let r := mkRow k v op (last_revision (w_log s) + 1) in
      Some (mkW (w_log s ++ [r]) (w_todo s ++ [r]) (w_latest s) (w_current s) (w_map s) (w_writes s) (w_results s) (w_dead s))
  | LRow =>
      match w_dead s, w_current s, w_todo s with
      | false, None, r :: todo =>
          Some (handle_row r (mkW (w_log s) todo (row_revision r) None (w_map s) (w_writes s) (w_results s) false))
      | _, _, _ => None
      end
  | LResume =>
      match w_current s with
      | Some r => Some (handle_row r s)
      | None => None
      end
  | LRecreate =>
      match w_dead s, w_current s with
      | false, None => Some (mkW (w_log s) (rows_from (w_latest s + 1) (w_log s)) (w_latest s) None (w_map s) (w_writes s) (w_results s) false)
      | _, _ => None
      end
  | LTake id => stream_data id s
  | LReceive id =>
      match w_map s !! id with
      | Some (MStream (_ :: sent) RxTaken) =>
          Some (mkW (w_log s) (w_todo s) (w_latest s) (w_current s) (<[id := MStream sent RxTaken]> (w_map s)) (w_writes s) (w_results s) (w_dead s))
      | _ => None
      end
  | LDrop id =>
      match w_map s !! id with
      | Some (MStream sent RxTaken) =>
          Some (mkW (w_log s) (w_todo s) (w_latest s) (w_current s) (<[id := MStream sent RxDropped]> (w_map s)) (w_writes s) (w_results s) (w_dead s))
      | _ => None
      end
  | LCommit i f =>
      match w_writes s !! i with
      | Some (k, v) =>
          Some (mkW (w_log s) (w_todo s) (w_latest s) (w_current s) (w_map s) (delete i (w_writes s))
                  (if f then <[k := v]> (w_results s) else w_results s) (w_dead s))
      | None => None
      end
  end.
Fixpoint w_run (ls : list WLabel) (s : WState) : option WState :=
  match ls with
  | [] => Some s
  | l :: ls => let? s := w_step l s in w_run ls s
  end.
End Responses.

(** ** Reading the responses *)

(** [get_data_from_response_store]: polls until the result is there; the answers of the store to the
    polls, an error among them. [None]: no answer yet. *)
Fixpoint get_data_from_response_store (answers : list (option string + string)) : option (list string + StoreError) :=
  match answers with
  | [] => None
  | inl (Some result) :: _ =>
      Some (match extract_bytes_list result with inl l => inl l | inr e => inr (StoreRead e) end)
  | inl None :: answers => get_data_from_response_store answers
  | inr e :: _ => Some (inr (StoreRead e))
  end.

(** What a watcher of one request gives, in order. *)
Inductive WatchItem := WRow (r : Row) | WError | WEnd.

(** [create_watcher]: tries until it succeeds, and gives up once the token is cancelled: for each
    attempt whether it succeeds, and whether the token is cancelled after it. [None]: still trying. *)
Fixpoint create_watcher (attempts : list (bool * bool)) : option (unit + StoreError) :=
  match attempts with
  | [] => None
  | (true, _) :: _ => Some (inl tt)
  | (false, true) :: _ => Some (inr (Connection "Cancellation token triggered"))
  | (false, false) :: attempts => create_watcher attempts
  end.

(** [get_historic_response], the watcher being re-created from the revision after the last one
    delivered: [items] are what the successive watchers give. [None]: no done marker yet. *)
Fixpoint get_historic_response (responses : list string) (items : list WatchItem) : option (list string) :=
  match items with
  | [] => None
  | WRow r :: items =>
      if contains START_PROCESSING_MARKER (row_key r) then get_historic_response responses items
      else if contains DONE_PROCESSING_MARKER (row_key r) then Some responses
      else get_historic_response (responses ++ [row_value r]) items
  | _ :: items => get_historic_response responses items
  end.

(** [stream_historic_responses]: the same, sent one by one; whether the marker was reached. *)
Fixpoint stream_historic_responses (items : list WatchItem) : list string * bool :=
  match items with
  | [] => ([], false)
  | WRow r :: items =>
      if contains START_PROCESSING_MARKER (row_key r) then stream_historic_responses items
      else if contains DONE_PROCESSING_MARKER (row_key r) then ([], true)
      else let (sent, d) := stream_historic_responses items in (row_value r :: sent, d)
  | _ :: items => stream_historic_responses items
  end.

(** [retrieve_data]. *)
Definition retrieve_data (pod : option string) (answers : list (option string + string)) (items : list WatchItem)
    : option (list string + StoreError) :=
  match pod with
  | Some _ => let? l := get_historic_response [] items in Some (inl l)
  | None => get_data_from_response_store answers
  end.

(** What a sink stores: one row per result, [timestamps] being the clock at each of them. *)
Definition response_key (pod id origin : string) (timestamp : Z) : string :=
  "rs." +:+ pod +:+ "." +:+ id +:+ "." +:+ origin +:+ "." +:+ pretty timestamp.
Definition datum_rows (origin : string) (payloads : list (StoreEntry * Z)) : list (string * string) :=
  (fun '(p, ts) => (response_key (pod_hash p) (entry_id p) origin ts, entry_value p)) <$> payloads.

(** [join_next] until the first error, in the order the puts end. *)
Fixpoint join_puts (results : list (option string)) : Result unit :=
  match results with
  | [] => Ok tt
  | None :: results => join_puts results
  | Some e :: _ => Err (ESink e)
  end.
Definition put_datum (origin : string) (payloads : list (StoreEntry * Z)) (results : list (option string))
    : list (string * string) * Result unit :=
  (datum_rows origin payloads, join_puts results).

(** * The store of callbacks *)

(** The channel of a request: what was sent and not received, and whether the receiver is there. *)
Record CbChannel := mkCbChannel { cb_sent : list Callback; cb_open : bool }.
Abbreviation Senders := (gmap string CbChannel) (only parsing).

Definition callback_key (pod id vertex : string) (timestamp : Z) : string :=
  "cb." +:+ pod +:+ "." +:+ id +:+ "." +:+ vertex +:+ "." +:+ pretty timestamp.

Section Callbacks.
Context `{ServingJson}.

(** [CallbackHandler::callback]: the row a vertex writes, with the clock in milliseconds and in
    nanoseconds; at most three attempts. *)
Definition callback_row (vertex id pod previous : string) (responses : list (option (list string))) (ms ns : Z)
    : string * string :=
  (callback_key pod id vertex ns, callback_bytes (mkCallback id vertex ms previous responses)).

(** One row of the central watcher of the pod. *)
Definition callback_entry (pod : string) (r : Row) (senders : Senders) : Senders * Outcome :=
  match row_operation r with
  | KVPut =>
      match parse_key pod "cb" (row_key r) with
      | None => (senders, Errored "Received unexpected key format")
      | Some (id, _) =>
          match callback_of_bytes (row_value r) with
          | None => (senders, Panicked)
          | Some cb =>
              match senders !! id with
              | None => (senders, Errored "No active sender found for request id")
              | Some ch =>
                  if negb (cb_open ch) then (senders, Panicked)
                  else if decide (CHANNEL_SIZE <= length (cb_sent ch))%nat then (senders, Blocked)
                  else (<[id := mkCbChannel (cb_sent ch ++ [cb]) true]> senders, Done)
              end
          end
      end
  | _ => (senders, Done)
  end.

(** [watch_historical_callbacks]: what is sent, until the receiver is gone after [room] callbacks;
    whether the scan ended. *)
Fixpoint watch_historical_callbacks (room : nat) (items : list WatchItem) : list Callback * bool :=
  match items with
  | [] => ([], false)
  | WRow r :: items =>
      match row_operation r with
      | KVDelete => ([], true)
      | _ =>
          match callback_of_bytes (row_value r) with
          | None => watch_historical_callbacks room items
          | Some cb =>
              match room with
              | O => ([], true)
              | S room => let (sent, d) := watch_historical_callbacks room items in (cb :: sent, d)
              end
          end
      end
  | _ :: items => watch_historical_callbacks room items
  end.

(** [register_and_watch] puts a new channel in the map; a previous pod adds a scan of its rows,
    whose pattern is given. *)
Definition register_and_watch (id : string) (failed_pod_hash : option string) (senders : Senders)
    : Senders * option string :=
  (<[id := mkCbChannel [] true]> senders,
   (fun pod => "cb." +:+ pod +:+ "." +:+ id +:+ ".*.*") <$> failed_pod_hash).

Definition cb_deregister (id : string) (senders : Senders) : Senders := delete id senders.

(** The task of the request receives a callback; the receiver goes away with the task. *)
Definition cb_receive (id : string) (senders : Senders) : option (Callback * Senders) :=
  match senders !! id with
  | Some (mkCbChannel (cb :: sent) o) => Some (cb, <[id := mkCbChannel sent o]> senders)
  | _ => None
  end.
Definition cb_close (id : string) (senders : Senders) : Senders :=
  alter (fun ch => mkCbChannel (cb_sent ch) false) id senders.
End Callbacks.

(** * Keys *)

Lemma find_cut_app c x y : lacks c x -> find_cut c (x +:+ String c y) = Some (x, y).
Proof.
  induction x as [|a x IH]; intros Hx.
  - change ("" +:+ String c y) with (String c y). cbn [find_cut]. by rewrite decide_True by done.
  - destruct Hx as [Ha Hx]. rewrite sapp_cons. cbn [find_cut]. rewrite decide_False by done. by rewrite IH.
Qed.
Lemma find_cut_Some c s x y : find_cut c s = Some (x, y) -> s = x +:+ String c y /\ lacks c x.
Proof.
  revert x. induction s as [|a s IH]; intros x Hs; [done|]. cbn [find_cut] in Hs. case_decide as Ha.
  - subst. by injection Hs as <- <-.
  - destruct (find_cut c s) as [[x' y']|] eqn:E; [|done]. injection Hs as <- <-.
    destruct (IH x' eq_refl) as [-> Hl]. by rewrite sapp_cons.
Qed.

(** A key of four parts: how the pod reads it. *)
Lemma parse_key_of pod prefix id a b :
  lacks dot prefix -> lacks dot pod -> lacks dot id -> lacks dot a ->
  parse_key pod prefix (prefix +:+ "." +:+ pod +:+ "." +:+ id +:+ "." +:+ a +:+ "." +:+ b) = Some (id, a +:+ "." +:+ b).
Proof.
  intros Hp Hq Hi Ha. unfold parse_key.
  assert (Hd : forall s, "." +:+ s = String dot s) by done. rewrite !Hd. cbn [splitn].
  rewrite !find_cut_app by done. rewrite decide_True by done. done.
Qed.

(** A request a key is read as has no dot in its name. *)
Lemma parse_key_lacks pod prefix key id suffix :
  parse_key pod prefix key = Some (id, suffix) -> lacks dot id.
Proof.
  unfold parse_key. cbn [splitn].
  destruct (find_cut dot key) as [[p k1]|] eqn:E1; [|done]. destruct (find_cut dot k1) as [[q k2]|] eqn:E2; [|done].
  destruct (find_cut dot k2) as [[i k3]|] eqn:E3; [|done]. destruct (find_cut dot k3) as [[a b]|] eqn:E4; [|done].
  case_decide; [|done]. intros [= <- _]. by apply find_cut_Some in E3 as [_ ?].
Qed.

Lemma start_key_parse pod id : lacks dot pod -> lacks dot id ->
  parse_key pod "rs" (start_key pod id) = Some (id, START_PROCESSING_MARKER).
Proof. intros. by apply (parse_key_of pod "rs" id "start" "processing"). Qed.
Lemma done_key_parse pod id : lacks dot pod -> lacks dot id ->
  parse_key pod "rs" (done_key pod id) = Some (id, DONE_PROCESSING_MARKER).
Proof. intros. by apply (parse_key_of pod "rs" id "done" "processing"). Qed.
Lemma response_key_parse pod id origin ts : lacks dot pod -> lacks dot id -> lacks dot origin ->
  parse_key pod "rs" (response_key pod id origin ts) = Some (id, origin +:+ "." +:+ pretty ts).
Proof. intros. by apply (parse_key_of pod "rs" id origin (pretty ts)). Qed.
Lemma callback_key_parse pod id vertex ts : lacks dot pod -> lacks dot id -> lacks dot vertex ->
  parse_key pod "cb" (callback_key pod id vertex ts) = Some (id, vertex +:+ "." +:+ pretty ts).
Proof. intros. by apply (parse_key_of pod "cb" id vertex (pretty ts)). Qed.

Lemma final_key_inj id id' : final_key id = final_key id' -> id = id'.
Proof.
  unfold final_key. intros E%(inj (String.append "rs.")). revert E. generalize ("." +:+ FINAL_RESULT_KEY_SUFFIX). intros t E.
  assert (Hl : String.length id = String.length id').
  { apply (f_equal slen) in E. rewrite !slen_app in E. unfold slen in E. lia. }
  rewrite <- (stake_app id t), <- (stake_app id' t), E, Hl. done.
Qed.

(** * Merging and extracting *)

Lemma merge_frames_from acc l :
  foldl (fun acc b => acc +:+ le_bytes 8 (slen b) +:+ b) acc l = acc +:+ frames l.
Proof.
  revert acc. induction l as [|b l IH]; intros acc; cbn [foldl]; [by rewrite sapp_nil_r|].
  rewrite IH. change (frames (b :: l)) with (frame b +:+ frames l). unfold frame. by rewrite !sapp_assoc.
Qed.
Lemma merge_frames l : merge_bytes_list l = frames l.
Proof. apply merge_frames_from. Qed.

Lemma extract_frame fuel acc d s :
  fits d -> extract_go (S fuel) acc (frame d +:+ s) = extract_go fuel (acc ++ [d]) s.
Proof.
  intros Hd. unfold frame. rewrite sapp_assoc.
  assert (H8 : String.length (le_bytes 8 (slen d)) = 8%nat) by apply slen_le_bytes.
  assert (Hle : of_le (le_bytes 8 (slen d)) = slen d) by (by apply of_le_bytes).
  generalize dependent (le_bytes 8 (slen d)). intros h H8 Hle. cbn [extract_go].
  assert (Hl : (8 <= slen (h +:+ d +:+ s))%N) by (rewrite slen_app; unfold slen at 1; rewrite H8; lia).
  rewrite decide_False by lia. rewrite decide_False by lia.
  rewrite <- H8, stake_app, sdrop_app, Hle. rewrite decide_False by (rewrite slen_app; lia).
  replace (N.to_nat (slen d)) with (String.length d) by (unfold slen; lia).
  by rewrite sdrop_app, stake_app.
Qed.
Lemma extract_frames fuel acc l :
  Forall fits l -> extract_go (S (length l + fuel)) acc (frames l) = inl (acc ++ l).
Proof.
  revert acc. induction l as [|d l IH]; intros acc Hf; [by rewrite app_nil_r|].
  apply Forall_cons in Hf as [Hd Hf]. change (frames (d :: l)) with (frame d +:+ frames l).
  cbn [length Nat.add]. rewrite extract_frame by done. rewrite IH by done. by rewrite <- app_assoc.
Qed.

(** What was merged is extracted, for values whose length fits 64 bits. *)
Lemma extract_merge l : Forall fits l -> extract_bytes_list (merge_bytes_list l) = inl l.
Proof.
  intros Hf. rewrite merge_frames. unfold extract_bytes_list.
  assert (Hn : (length l <= String.length (frames l))%nat) by (pose proof (slen_frames l); unfold slen in *; lia).
  replace (String.length (frames l)) with (length l + (String.length (frames l) - length l))%nat by lia.
  by apply (extract_frames _ []).
Qed.

(** * One request among the others

    [mine]: what the rows of the pod say of one request, as suffixes and values. [id_run]: the
    request on its own, the lists of results it ends with. *)

Definition mine (pod id : string) (rows : list Row) : list (string * string) :=
  omap (fun r => match row_operation r, parse_key pod "rs" (row_key r) with
                 | KVPut, Some (i, suffix) => if decide (i = id) then Some (suffix, row_value r) else None
                 | _, _ => None
                 end) rows.

Inductive IdState := IdNone | IdUnary (l : list string) | IdStream.
Definition abs (m : option ResponseMode) : IdState :=
  match m with None => IdNone | Some (MUnary l) => IdUnary l | Some (MStream _ _) => IdStream end.

Section Isolation.
Context {J : ServingJson} (pod : string).

Definition id_step (st : IdState * list (list string)) (e : string * string) : IdState * list (list string) :=
  if decide (e.1 = START_PROCESSING_MARKER) then
    match type_of_bytes e.2, st.1 with
    | Some Sse, IdNone => (IdStream, st.2)
    | Some _, IdNone => (IdUnary [], st.2)
    | _, _ => st
    end
  else if decide (e.1 = DONE_PROCESSING_MARKER) then
    (IdNone, match st.1 with IdUnary l => st.2 ++ [l] | _ => st.2 end)
  else match st.1 with IdUnary l => (IdUnary (l ++ [e.2]), st.2) | _ => st end.
Definition id_run (es : list (string * string)) : IdState * list (list string) := foldl id_step (IdNone, []) es.
Definition id_results (id : string) (rows : list Row) : list (list string) := (id_run (mine pod id rows)).2.

Lemma id_run_snoc es e : id_run (es ++ [e]) = id_step (id_run es) e.
Proof. unfold id_run. by rewrite foldl_app. Qed.

(** Results are never taken back. *)
Lemma id_results_app es es' : exists more, (id_run (es ++ es')).2 = (id_run es).2 ++ more.
Proof.
  induction es' as [|e es' IH] using rev_ind; [exists []; by rewrite !app_nil_r|].
  destruct IH as [more IH]. rewrite app_assoc, id_run_snoc. unfold id_step.
  repeat case_decide; repeat case_match; cbn [snd]; eauto. rewrite IH, <- app_assoc. eauto.
Qed.

(** What the map, the spawned writes and the results have to do with the rows processed. *)
Record sem (rows : list Row) (m : gmap string ResponseMode) (ws : list (string * string)) (res : gmap string string) : Prop := {
  sem_map : forall id, abs (m !! id) = (id_run (mine pod id rows)).1;
  sem_sound : forall k v, (k, v) ∈ ws \/ res !! k = Some v ->
    exists id l, k = final_key id /\ v = merge_bytes_list l /\ l ∈ id_results id rows;
  sem_kept : forall id, id_results id rows <> [] -> (exists v, (final_key id, v) ∈ ws) \/ is_Some (res !! final_key id)
}.

Lemma mine_app id rows rows' : mine pod id (rows ++ rows') = mine pod id rows ++ mine pod id rows'.
Proof. apply omap_app. Qed.

(** A row that says nothing of any request, or that changes neither state nor results. *)
Lemma sem_silent rows r m ws res :
  (forall id, id_run (mine pod id (rows ++ [r])) = id_run (mine pod id rows)) ->
  sem rows m ws res -> sem (rows ++ [r]) m ws res.
Proof.
  intros He [Hm Hs Hk]. split; unfold id_results in *.
  - intros id. by rewrite He.
  - intros k v Hv. destruct (Hs k v Hv) as (id & l & ? & ? & ?). exists id, l. by rewrite He.
  - intros id. rewrite He. apply Hk.
Qed.

Lemma mine_other id rows r : mine pod id [r] = [] -> mine pod id (rows ++ [r]) = mine pod id rows.
Proof. intros E. by rewrite mine_app, E, app_nil_r. Qed.

Lemma mine_row id i suffix r :
  row_operation r = KVPut -> parse_key pod "rs" (row_key r) = Some (i, suffix) ->
  mine pod id [r] = if decide (i = id) then [(suffix, row_value r)] else [].
Proof. intros Ho Hp. unfold mine. cbn. rewrite Ho, Hp. by case_decide. Qed.

(** A row of the request [i]: the others are as they were. *)
Lemma sem_at rows r m m' ws res i suffix new :
  row_operation r = KVPut -> parse_key pod "rs" (row_key r) = Some (i, suffix) ->
  (forall j, j <> i -> m' !! j = m !! j) ->
  id_step (id_run (mine pod i rows)) (suffix, row_value r) = (abs (m' !! i), id_results i rows ++ new) ->
  sem rows m ws res -> sem (rows ++ [r]) m' (ws ++ ((fun l => (final_key i, merge_bytes_list l)) <$> new)) res.
Proof.
  intros Ho Hp Hj Hi [Hm Hs Hk].
  assert (Hrun : forall id, id_run (mine pod id (rows ++ [r])) =
    if decide (i = id) then (abs (m' !! i), id_results i rows ++ new) else id_run (mine pod id rows)).
  { intros id. rewrite mine_app, (mine_row id i suffix r Ho Hp). case_decide as E; [|by rewrite app_nil_r].
    subst id. by rewrite id_run_snoc. }
  split; unfold id_results in *.
  - intros id. rewrite Hrun. case_decide as E; [by subst|]. by rewrite Hj.
  - intros k v [Hv|Hv]; [apply elem_of_app in Hv as [Hv|Hv]|].
    + destruct (Hs k v (or_introl Hv)) as (id & l & ? & ? & Hl). exists id, l. split_and!; [done..|]. rewrite Hrun.
      case_decide; [subst|done]. cbn. set_solver.
    + apply list_elem_of_fmap in Hv as (l & [= -> ->] & Hl). exists i, l. split_and!; [done..|]. rewrite Hrun, decide_True by done.
      cbn. set_solver.
    + destruct (Hs k v (or_intror Hv)) as (id & l & ? & ? & Hl). exists id, l. split_and!; [done..|]. rewrite Hrun.
      case_decide; [subst|done]. cbn. set_solver.
  - intros id. rewrite Hrun. case_decide as E; cbn.
    + subst id. intros Hne. destruct new as [|l new].
      * rewrite app_nil_r in Hne. destruct (Hk i Hne) as [[v Hv]|?]; [left; exists v; set_solver|by right].
      * left. exists (merge_bytes_list l). set_solver.
    + intros Hne. destruct (Hk id Hne) as [[v Hv]|?]; [left; exists v; set_solver|by right].
Qed.

Lemma sem_row rows r m ws res m' ws' o :
  row_operation r = KVPut -> process_entry pod r m = (m', ws', o) -> o <> Blocked ->
  sem rows m ws res -> sem (rows ++ [r]) m' (ws ++ ws') res.
Proof.
  intros Ho Hp Hb Hsem. unfold process_entry in Hp.
  destruct (parse_key pod "rs" (row_key r)) as [[i suffix]|] eqn:Ek.
  2:{ injection Hp as <- <- _. rewrite app_nil_r. apply sem_silent; [|done]. intros id.
      rewrite mine_other; [done|]. unfold mine. cbn. by rewrite Ho, Ek. }
  pose proof (sem_map _ _ _ _ Hsem i) as Hi.
  assert (Hrun : id_run (mine pod i rows) = (abs (m !! i), id_results i rows)) by (rewrite Hi; apply surjective_pairing).
  assert (Hsame : forall new, id_step (id_run (mine pod i rows)) (suffix, row_value r) = (abs (m !! i), id_results i rows ++ new) ->
    new = [] -> sem (rows ++ [r]) m (ws ++ []) res).
  { intros new H1 ->. by apply (sem_at rows r m m ws res i suffix []). }
  assert (Hset : forall x, id_step (id_run (mine pod i rows)) (suffix, row_value r) = (abs (Some x), id_results i rows) ->
    sem (rows ++ [r]) (<[i := x]> m) (ws ++ []) res).
  { intros x H1. apply (sem_at rows r m _ ws res i suffix []); [done..| | |done].
    - intros j Hj. by rewrite lookup_insert_ne.
    - by rewrite lookup_insert_eq, app_nil_r. }
  rewrite Hrun in Hsame, Hset. unfold id_step in Hsame, Hset. cbn [fst snd] in Hsame, Hset.
  destruct (decide (suffix = START_PROCESSING_MARKER)) as [Es|Es].
  { destruct (type_of_bytes (row_value r)) as [rt|] eqn:Et.
    2:{ injection Hp as <- <- _. apply (Hsame []); [by rewrite app_nil_r|done]. }
    destruct (m !! i) as [x|] eqn:Em; injection Hp as <- <- _.
    - apply (Hsame []); [|done]. rewrite app_nil_r. by destruct rt, x.
    - by destruct rt; apply Hset. }
  destruct (decide (suffix = DONE_PROCESSING_MARKER)) as [Ed|Ed].
  { injection Hp as <- <- _.
    set (new := match m !! i with Some (MUnary l) => [l] | _ => [] end).
    replace (match m !! i with Some (MUnary l) => [(final_key i, merge_bytes_list l)] | _ => [] end)
      with ((fun l => (final_key i, merge_bytes_list l)) <$> new) by (unfold new; by destruct (m !! i) as [[]|]).
    apply (sem_at rows r m _ ws res i suffix new); [done..| | |done].
    - intros j Hj. by rewrite lookup_delete_ne.
    - rewrite Hrun, lookup_delete_eq. unfold id_step. cbn [fst snd]. rewrite decide_False, decide_True by done.
      unfold new. destruct (m !! i) as [[]|]; cbn; by rewrite ?app_nil_r. }
  destruct (m !! i) as [[sent rx|l]|] eqn:Em.
  - destruct (decide (rx = RxDropped)).
    { injection Hp as <- <- _. apply (Hsame []); [by rewrite app_nil_r|done]. }
    destruct (decide (CHANNEL_SIZE <= length sent)%nat); [by injection Hp as _ _ <-|].
    injection Hp as <- <- _. by apply Hset.
  - injection Hp as <- <- _. by apply Hset.
  - injection Hp as <- <- _. apply (Hsame []); [by rewrite app_nil_r|done].
Qed.

(** ** The invariant of the watcher: [pre] are the rows it is done with. *)
Definition rev_lt (a b : Row) : Prop := row_revision a < row_revision b.
Definition in_order (log : list Row) : Prop := StronglySorted rev_lt log /\ Forall (fun r => 0 < row_revision r) log.

Record winv (pre : list Row) (s : WState) : Prop := {
  wi_log : w_log s = pre ++ option_list (w_current s) ++ w_todo s;
  wi_old : Forall (fun r => row_revision r <= w_latest s) (pre ++ option_list (w_current s));
  wi_new : Forall (fun r => w_latest s < row_revision r) (w_todo s);
  wi_sorted : StronglySorted rev_lt (w_todo s);
  wi_last : Forall (fun r => row_revision r <= last_revision (w_log s)) (w_log s);
  wi_latest : w_latest s <= last_revision (w_log s);
  wi_sem : sem pre (w_map s) (w_writes s) (w_results s)
}.

Lemma last_revision_snoc log r : last_revision (log ++ [r]) = row_revision r.
Proof. unfold last_revision. by rewrite last_snoc. Qed.

Lemma sorted_last log : StronglySorted rev_lt log -> Forall (fun r => row_revision r <= last_revision log) log.
Proof.
  induction log as [|r log IH] using rev_ind; [done|]. intros Hs. rewrite last_revision_snoc.
  apply Forall_app. split; [|by constructor]. apply Forall_forall. intros x Hx.
  apply Z.lt_le_incl. by eapply (StronglySorted_app_1_elem_of rev_lt log [r] x r); [..|apply list_elem_of_singleton].
Qed.

Lemma winv_start log : in_order log -> winv [] (watcher_start log).
Proof.
  intros [Hs Hp]. split; cbn; [done|constructor|done|done|by apply sorted_last| |].
  - unfold last_revision. destruct (last log) as [r|] eqn:E; [|done].
    apply last_Some_elem_of in E. rewrite Forall_forall in Hp. specialize (Hp r E). lia.
  - split; [done| |done]. intros k v [Hv|Hv]; [by apply not_elem_of_nil in Hv|by rewrite lookup_empty in Hv].
Qed.

Lemma rows_from_app rev old new :
  Forall (fun r => row_revision r < rev) old -> Forall (fun r => rev <= row_revision r) new ->
  rows_from rev (old ++ new) = new.
Proof.
  intros Ho Hn. unfold rows_from. rewrite filter_app.
  replace (filter _ old) with (@nil Row); [cbn|].
  - induction Hn as [|r l Hr Hn IH]; [done|]. rewrite filter_cons_True by done. by rewrite IH.
  - induction Ho as [|r l Hr Ho IH]; [done|]. rewrite filter_cons_False by lia. done.
Qed.
Lemma rows_from_todo pre s : winv pre s -> w_current s = None -> rows_from (w_latest s + 1) (w_log s) = w_todo s.
Proof.
  intros [Hl Ho Hn _ _ _ _] Hc. rewrite Hc in Hl, Ho. cbn in Hl, Ho. rewrite app_nil_r in Ho. rewrite Hl.
  apply rows_from_app; eapply Forall_impl; [exact Ho| |exact Hn|]; cbn; intros; lia.
Qed.

Lemma sem_abs rows m m' ws res :
  (forall id, abs (m' !! id) = abs (m !! id)) -> sem rows m ws res -> sem rows m' ws res.
Proof. intros He [Hm Hs Hk]. split; [|done|done]. intros id. by rewrite He. Qed.
Lemma abs_insert (m : gmap string ResponseMode) id x x' :
  m !! id = Some x -> abs (Some x') = abs (Some x) -> forall j, abs (<[id := x']> m !! j) = abs (m !! j).
Proof. intros E Ha j. destruct (decide (id = j)); [subst; by rewrite lookup_insert_eq, E, Ha|by rewrite lookup_insert_ne]. Qed.

(** A spawned write is carried out. *)
Lemma sem_commit rows m ws res i k v :
  ws !! i = Some (k, v) -> sem rows m ws res -> sem rows m (delete i ws) (<[k := v]> res).
Proof.
  intros Hi [Hm Hs Hk]. split; [done| |].
  - intros k' v' [Hv|Hv]; apply Hs; [left|].
    + apply list_elem_of_lookup in Hv as [j Hj]. destruct (decide (j < i)%nat).
      * rewrite list_lookup_delete_lt in Hj by done. by eapply list_elem_of_lookup_2.
      * rewrite list_lookup_delete_ge in Hj by lia. by eapply list_elem_of_lookup_2.
    + destruct (decide (k = k')) as [->|]; [|right; by rewrite lookup_insert_ne in Hv].
      rewrite lookup_insert_eq in Hv. injection Hv as <-. left. by eapply list_elem_of_lookup_2.
  - intros id Hne. destruct (decide (k = final_key id)) as [->|Hk']; [right; by rewrite lookup_insert_eq|].
    destruct (Hk id Hne) as [[v' Hv]|Hv]; [left; exists v'|right; by rewrite lookup_insert_ne].
    apply list_elem_of_lookup in Hv as [j Hj]. destruct (decide (j = i)) as [->|Hji]; [congruence|].
    destruct (decide (j < i)%nat).
    + apply (list_elem_of_lookup_2 _ j). by rewrite list_lookup_delete_lt.
    + apply (list_elem_of_lookup_2 _ (j - 1)). rewrite list_lookup_delete_ge by lia. replace (S (j - 1)) with j by lia. done.
Qed.

(** The watcher handles the row it has taken. *)
Lemma winv_handle pre s r cur :
  winv pre (mkW (w_log s) (w_todo s) (w_latest s) (Some r) (w_map s) (w_writes s) (w_results s) (w_dead s)) ->
  w_current s = cur -> exists pre', winv pre' (handle_row pod r s).
Proof.
  intros [Hl Ho Hn Hs Hla Hlt Hsem] _. cbn in *. unfold handle_row.
  assert (Hquiet : row_operation r <> KVPut -> sem (pre ++ [r]) (w_map s) (w_writes s) (w_results s)).
  { intros Hop. apply sem_silent; [|done]. intros id. rewrite mine_other; [done|]. unfold mine. cbn. by destruct (row_operation r). }
  destruct (row_operation r) eqn:Hop.
  2,3: exists (pre ++ [r]); split; cbn; rewrite ?app_nil_r, ?Hl, <- ?app_assoc; auto; by rewrite <- Hl.
  destruct (process_entry pod r (w_map s)) as [[m' ws'] o] eqn:Ep.
  assert (Hrow : o <> Blocked -> sem (pre ++ [r]) m' (w_writes s ++ ws') (w_results s)) by (intros; by eapply sem_row).
  destruct o as [|e| |].
  - exists (pre ++ [r]). split; cbn; rewrite ?app_nil_r, ?Hl, <- ?app_assoc; auto; by rewrite <- Hl.
  - exists (pre ++ [r]). split; cbn; rewrite ?app_nil_r, ?Hl, <- ?app_assoc; auto; by rewrite <- Hl.
  - exists pre. by split.
  - exists (pre ++ [r]). split; cbn; rewrite ?app_nil_r, ?Hl, <- ?app_assoc; auto; [by rewrite <- Hl..|].
    assert (ws' = []) as ->; [|rewrite <- (app_nil_r (w_writes s)); by apply Hrow].
    unfold process_entry in Ep. repeat case_match; try case_decide; congruence.
Qed.

Definition commits (l : WLabel) : Prop := match l with LCommit _ f => f = true | _ => True end.

Lemma winv_step pre s l s' : winv pre s -> commits l -> w_step pod l s = Some s' -> exists pre', winv pre' s'.
Proof.
  intros Hi Hc Hstep. destruct l as [k v op| | | |id|id|id|i f]; cbn in Hstep.
  - injection Hstep as <-. exists pre. destruct Hi as [Hl Ho Hn Hs Hla Hlt Hsem]. set (r := mkRow _ _ _ _).
    assert (Hr : Forall (fun x => row_revision x < row_revision r) (w_log s)).
    { eapply Forall_impl; [exact Hla|]. cbn. intros; lia. }
    split; cbn; rewrite ?last_revision_snoc; auto.
    + by rewrite Hl, <- !app_assoc.
    + apply Forall_app. split; [done|]. constructor; [cbn; lia|done].
    + apply StronglySorted_app. split_and!; [|done|repeat constructor]. intros x1 x2 H1 H2. apply list_elem_of_singleton in H2 as ->.
      rewrite Hl, Forall_forall in Hr. apply Hr. set_solver.
    + apply Forall_app. split; [|by constructor]. eapply Forall_impl; [exact Hr|]. cbn. intros; lia.
    + unfold r; cbn; lia.
  - destruct (w_dead s), (w_current s) eqn:Hcur; [done..| |]; [done|]. destruct (w_todo s) as [|r todo] eqn:Ht; [done|].
    injection Hstep as <-. eapply (winv_handle pre _ r None); [|done]. cbn.
    destruct Hi as [Hl Ho Hn Hs Hla Hlt Hsem]. rewrite Hcur, ?Ht in *. cbn in *. rewrite app_nil_r in Ho.
    apply Forall_cons in Hn as [Hr Hn]. apply StronglySorted_cons in Hs as [Hrs Hs].
    split; cbn; auto.
    + apply Forall_app. split; [|by constructor]. eapply Forall_impl; [exact Ho|]. cbn. intros; lia.
    + rewrite Forall_forall in Hla. apply Hla. rewrite Hl. set_solver.
  - destruct (w_current s) as [r|] eqn:Hcur; [|done]. injection Hstep as <-.
    eapply (winv_handle pre _ r (Some r)); [|done]. destruct Hi. rewrite Hcur in *. by split.
  - destruct (w_dead s), (w_current s) eqn:Hcur; [done..| |]; [done|]. injection Hstep as <-. exists pre.
    pose proof (rows_from_todo _ _ Hi Hcur) as Hf. destruct Hi. rewrite Hcur in *. by split; cbn; rewrite ?Hf.
  - unfold stream_data in Hstep. destruct (w_current s) eqn:Hcur; [done|]. destruct (w_map s !! id) as [[sent []|]|] eqn:Em; try done. injection Hstep as <-.
    exists pre. destruct Hi. rewrite Hcur in *. split; cbn; auto. eapply sem_abs; [|done]. by eapply abs_insert.
  - destruct (w_map s !! id) as [[[|x sent] []|]|] eqn:Em; try done. injection Hstep as <-.
    exists pre. destruct Hi. split; cbn; auto. eapply sem_abs; [|done]. by eapply abs_insert.
  - destruct (w_map s !! id) as [[sent []|]|] eqn:Em; try done. injection Hstep as <-.
    exists pre. destruct Hi. split; cbn; auto. eapply sem_abs; [|done]. by eapply abs_insert.
  - destruct (w_writes s !! i) as [[k v]|] eqn:Ew; [|done]. injection Hstep as <-. cbn in Hc. subst f.
    exists pre. destruct Hi. split; cbn; auto. by apply sem_commit.
Qed.

Lemma winv_run pre s ls s' : winv pre s -> Forall commits ls -> w_run pod ls s = Some s' -> exists pre', winv pre' s'.
Proof.
  revert pre s. induction ls as [|l ls IH]; intros pre s Hi Hc Hr; cbn [w_run] in Hr; [injection Hr as <-; eauto|].
  apply Forall_cons in Hc as [Hl Hc]. destruct (w_step pod l s) as [s1|] eqn:E; [|done].
  destruct (winv_step _ _ _ _ Hi Hl E) as [pre1 Hi1]. by eapply IH.
Qed.
End Isolation.

(** The request on its own: the marker, the responses, the marker. *)
Definition plain (e : string * string) : Prop := e.1 <> START_PROCESSING_MARKER /\ e.1 <> DONE_PROCESSING_MARKER.

Lemma id_run_responses {J : ServingJson} l rs :
  Forall plain rs -> foldl id_step (IdUnary l, []) rs = (IdUnary (l ++ rs.*2), []).
Proof.
  intros Hp. revert l. induction Hp as [|e rs [H1 H2] Hp IH]; intros l; cbn [foldl fmap list_fmap]; [by rewrite app_nil_r|].
  unfold id_step at 2. rewrite !decide_False by done. cbn. rewrite IH. by rewrite <- app_assoc.
Qed.
Lemma id_run_cycle {J : ServingJson} rt rs v :
  rt <> Sse -> Forall plain rs ->
  id_run ((START_PROCESSING_MARKER, type_bytes rt) :: rs ++ [(DONE_PROCESSING_MARKER, v)]) = (IdNone, [rs.*2]).
Proof.
  intros Hrt Hp. unfold id_run. cbn [foldl]. rewrite foldl_app. unfold id_step at 3. rewrite decide_True by done.
  cbn [snd fst]. rewrite type_of_type_bytes.
  replace (match Some rt with Some Sse => (IdStream, []) | Some _ => (IdUnary [], []) | None => (IdNone, []) end)
    with (IdUnary [], @nil (list string)) by (by destruct rt).
  rewrite id_run_responses by done. cbn [foldl]. unfold id_step. cbn. done.
Qed.

(** While the store has nothing under the key of the result, the poll goes on. *)
Lemma poll_waits n answers :
  get_data_from_response_store (replicate n (inl None) ++ answers) = get_data_from_response_store answers.
Proof. by induction n. Qed.

(** * Status *)

Section Acceptance.
Context {K : KvBucket} {J : ServingJson}.

Lemma status_key_inj id id' : status_key id = status_key id' -> id = id'.
Proof. apply (inj (String.append "status.")). Qed.

(** The operations of the trackers of all pods on the shared stores, and the expiry of the status of a
    request, which the server does on its own. *)
Inductive TrackerOp :=
  | ORegister (id : string) (rt : RequestType)
  | OFail (id error : string)
  | ODeregister (id subgraph : string) (pod : option string)
  | ODiscard (id : string)
  | OExpire (id : string).
Definition expire (id : string) (s : Stores) : Stores := mkStores (kv_delete (status_kv s) (status_key id)) (response_kv s).
Definition tracker_op (t : StatusTracker) (o : TrackerOp) (f : Faults) (s : Stores) : Stores * (unit + StatusError) :=
  match o with
  | ORegister id rt => register t id rt f s
  | OFail id e => mark_as_failed t id e f s
  | ODeregister id g pod => deregister t id g pod f s
  | ODiscard id => discard t id f s
  | OExpire id => (expire id s, inl tt)
  end.
Fixpoint tracker_run (ops : list (StatusTracker * TrackerOp * Faults)) (s : Stores) : list (unit + StatusError) :=
  match ops with
  | [] => []
  | (t, o, f) :: ops => let (s, r) := tracker_op t o f s in r :: tracker_run ops s
  end.

Definition known (s : Stores) (id : string) : Prop := is_Some (kv_get (status_kv s) (status_key id)).

Lemma put_known f b k v k' : is_Some (kv_get b k') -> is_Some (kv_get (try_put f b k v).1 k').
Proof. unfold try_put. destruct f as [[[] ?]|]; cbn; rewrite ?kv_get_put; try case_decide; eauto. Qed.
Lemma create_known f b k v k' : is_Some (kv_get b k') -> is_Some (kv_get (try_create f b k v).1 k').
Proof.
  unfold try_create. destruct f as [[[] ?]|]; cbn; rewrite ?kv_create_put; [|done|]; destruct (kv_get b k); cbn;
    rewrite ?kv_get_put; try case_decide; eauto.
Qed.
Lemma put_marker_status f s k v : status_kv (put_marker f s k v).1 = status_kv s.
Proof. unfold put_marker. by destruct (try_put f (response_kv s) k v). Qed.
Lemma update_status_known id st f s id' : known s id' -> known (update_status id st f s).1 id'.
Proof.
  unfold known, update_status. intros Hk. pose proof (put_known (f_status f) (status_kv s) (status_key id) (status_bytes st) _ Hk) as Hp.
  by destruct (try_put (f_status f) _ _ _).
Qed.

(** Only [discard] and the expiry of its status make a request unknown. *)
Lemma known_kept t o f s id : known s id -> o <> ODiscard id -> o <> OExpire id -> known (tracker_op t o f s).1 id.
Proof.
  intros Hk Ho Hx. destruct o as [i rt|i e|i g pod|i|i]; cbn [tracker_op].
  - unfold register. pose proof (create_known (f_status f) (status_kv s) (status_key i) (status_bytes (InProgress (st_pod_hash t))) _ Hk) as Hc.
    destruct (try_create (f_status f) _ _ _) as [b e]. cbn in Hc.
    destruct e as [[|]|]; [done..|]. destruct (has_response_kv t); [|done].
    unfold known. by rewrite put_marker_status.
  - by apply update_status_known.
  - unfold deregister. pose proof (update_status_known i (Completed g (default (st_pod_hash t) pod)) f s id Hk) as Hu.
    destruct (update_status _ _ f s) as [s' [?|?]]; cbn in Hu; [|done]. destruct (has_response_kv t); [|done].
    unfold known. by rewrite put_marker_status.
  - assert (Hne : status_key i <> status_key id) by (intros E%status_key_inj; by subst).
    assert (Hr : is_Some (kv_get (try_remove (f_status f) (status_kv s) (status_key i)).1 (status_key id))).
    { unfold try_remove. destruct (f_status f) as [[[] ?]|]; cbn; rewrite ?kv_get_delete, ?decide_False by done; done. }
    unfold discard. destruct (try_remove (f_status f) _ _) as [b e]. cbn in Hr. destruct e; [done|].
    destruct (has_response_kv t); [|done]. unfold known. by rewrite put_marker_status.
  - assert (Hne : status_key i <> status_key id) by (intros E%status_key_inj; by subst).
    unfold known, expire. cbn. by rewrite kv_get_delete, decide_False by done.
Qed.

(** A registration that is accepted finds the request unknown and leaves it known. *)
Lemma accepted_new t id rt f s s' :
  register t id rt f s = (s', inl tt) -> ~ known s id /\ known s' id.
Proof.
  unfold register, try_create, known. intros Hr. destruct (f_status f) as [[[] ?]|]; [done..|].
  rewrite kv_create_put in Hr. destruct (kv_get (status_kv s) (status_key id)) as [v|] eqn:E.
  - exfalso. destruct (get_status _ _ id) as [[pod|? ?|? ?]|]; cbn in Hr; try case_decide; done.
  - split; [intros [? [=]]|].
    assert (Hs : status_kv s' = kv_put (status_kv s) (status_key id) (status_bytes (InProgress (st_pod_hash t)))).
    { destruct (has_response_kv t); [|by injection Hr as <-]. apply (f_equal fst) in Hr. cbn in Hr. subst s'. by rewrite put_marker_status. }
    rewrite Hs, kv_get_put, decide_True by done. eauto.
Qed.

Lemma tracker_run_known ops s id j t rt f :
  known s id -> ops !! j = Some (t, ORegister id rt, f) -> tracker_run ops s !! j = Some (inl tt) ->
  exists k t' o f', (k < j)%nat /\ ops !! k = Some (t', o, f') /\ (o = ODiscard id \/ o = OExpire id).
Proof.
  revert s j. induction ops as [|[[t0 o] f0] ops IH]; intros s j Hk Ho Hr; [done|]. cbn [tracker_run] in Hr.
  destruct (tracker_op t0 o f0 s) as [s1 r] eqn:E. destruct j as [|j].
  - cbn in Ho, Hr. injection Ho as -> -> ->. injection Hr as ->. by apply accepted_new in E as [? _].
  - assert (Hd : (o = ODiscard id \/ o = OExpire id) \/ (o <> ODiscard id /\ o <> OExpire id)).
    { destruct o as [| | |i|i]; try (by right); (destruct (decide (i = id)) as [->|]; [by auto|right; split; congruence]). }
    destruct Hd as [Hd|[Hne1 Hne2]]; [exists 0%nat, t0, o, f0; split; [lia|done]|].
    pose proof (known_kept t0 o f0 s id Hk Hne1 Hne2) as Hk1. rewrite E in Hk1.
    destruct (IH s1 j Hk1 Ho Hr) as (k & t' & o' & f' & ? & ?). exists (S k), t', o', f'. split; [lia|done].
Qed.
End Acceptance.

(** * A stream that nobody reads

    [stalled id n s]: the watcher has filled the channel of [id], whose receiver is still in the
    map, and waits in a row of it, with [n] rows to come that it started with. *)
Section Stalled.
Context {J : ServingJson} (pod : string).

Record stalled (id : string) (s : WState) : Prop := {
  st_row : exists r suffix, w_current s = Some r /\ row_operation r = KVPut /\
    parse_key pod "rs" (row_key r) = Some (id, suffix) /\ plain (suffix, row_value r);
  st_map : exists sent, w_map s !! id = Some (MStream sent RxHere) /\ (CHANNEL_SIZE <= length sent)%nat
}.

(** It waits for ever: no step of the watcher, of a client or of a writer frees it, and no row is
    taken any more. *)
Lemma stalled_step id s l s' : stalled id s -> w_step pod l s = Some s' -> stalled id s' /\ w_todo s `prefix_of` w_todo s'.
Proof.
  intros [(r & suffix & Hc & Ho & Hk & Hp1 & Hp2) (sent & Hm & Hl)] Hs. destruct l as [k v op| | | |i|i|i|i f]; cbn in Hs.
  - injection Hs as <-. split; [split; cbn; [by exists r, suffix|by exists sent]|]. cbn. by apply prefix_app_r.
  - rewrite Hc in Hs. by destruct (w_dead s).
  - rewrite Hc in Hs. injection Hs as <-. unfold handle_row. rewrite Ho. unfold process_entry. rewrite Hk.
    rewrite !decide_False by done. rewrite Hm, decide_False, decide_True by done.
    split; [|done]. split; cbn; [by exists r, suffix|by exists sent].
  - rewrite Hc in Hs. by destruct (w_dead s).
  - unfold stream_data in Hs. by rewrite Hc in Hs.
  - destruct (w_map s !! i) as [[[|x sent'] []|]|] eqn:Em; try done. injection Hs as <-. split; [|done].
    assert (id <> i) by (intros ->; congruence). split; cbn; [by exists r, suffix|]. exists sent. by rewrite lookup_insert_ne.
  - destruct (w_map s !! i) as [[sent' []|]|] eqn:Em; try done. injection Hs as <-. split; [|done].
    assert (id <> i) by (intros ->; congruence). split; cbn; [by exists r, suffix|]. exists sent. by rewrite lookup_insert_ne.
  - destruct (w_writes s !! i) as [[k v]|]; [|done]. injection Hs as <-. split; [|done]. split; cbn; [by exists r, suffix|by exists sent].
Qed.
Lemma stalled_run id s ls s' : stalled id s -> w_run pod ls s = Some s' -> stalled id s' /\ w_todo s `prefix_of` w_todo s'.
Proof.
  revert s. induction ls as [|l ls IH]; intros s Hs Hr; cbn [w_run] in Hr; [injection Hr as <-; done|].
  destruct (w_step pod l s) as [s1|] eqn:E; [|done]. destruct (stalled_step _ _ _ _ Hs E) as [H1 P1].
  destruct (IH s1 H1 Hr) as [H2 P2]. split; [done|]. by trans (w_todo s1).
Qed.
(** A row that brings a response of the request. *)
Definition response_of (id : string) (r : Row) : Prop :=
  row_operation r = KVPut /\ exists suffix, parse_key pod "rs" (row_key r) = Some (id, suffix) /\ plain (suffix, row_value r).

Lemma response_entry id r m sent rx :
  response_of id r -> m !! id = Some (MStream sent rx) -> rx <> RxDropped ->
  process_entry pod r m = if decide (CHANNEL_SIZE <= length sent)%nat then (m, [], Blocked)
                          else (<[id := MStream (sent ++ [row_value r]) rx]> m, [], Done).
Proof.
  intros (_ & suffix & Hk & Hp1 & Hp2) Hm Hrx. unfold process_entry. rewrite Hk, !decide_False by done. rewrite Hm.
  by rewrite decide_False.
Qed.

(** The responses that fit are taken one after the other, and with one more the watcher stalls. *)
Lemma channel_fills id rs r later s sent :
  Forall (response_of id) rs -> response_of id r -> w_todo s = rs ++ r :: later -> w_current s = None -> w_dead s = false ->
  w_map s !! id = Some (MStream sent RxHere) -> (length sent + length rs = CHANNEL_SIZE)%nat ->
  exists s', w_run pod (replicate (S (length rs)) LRow) s = Some s' /\ stalled id s' /\ w_todo s' = later.
Proof.
  revert s sent. induction rs as [|r0 rs IH]; intros s sent Hrs Hr Ht Hc Hd Hm Hl.
  - cbn [length replicate w_run w_step]. rewrite Hd, Hc, Ht. cbn [app]. eexists. split; [done|].
    unfold handle_row. destruct Hr as (Ho & suffix & Hk & Hp). rewrite Ho.
    rewrite (response_entry id r _ sent RxHere); [|by split; eauto|done|done]. cbn in Hl.
    rewrite decide_True by lia. split; [|done]. split; cbn; [by exists r, suffix|exists sent; split; [done|lia]].
  - apply Forall_cons in Hrs as [Hr0 Hrs]. cbn [length] in Hl |- *. change (replicate (S (S (length rs))) LRow) with (LRow :: replicate (S (length rs)) LRow).
    change (w_run pod (LRow :: ?l) s) with (match w_step pod LRow s with Some s1 => w_run pod l s1 | None => None end).
    cbn [w_step]. rewrite Hd, Hc, Ht. cbn [app]. unfold handle_row. pose proof Hr0 as [Ho _]. rewrite Ho.
    rewrite (response_entry id r0 _ sent RxHere) by done. rewrite decide_False by lia.
    apply (IH _ (sent ++ [row_value r0])); cbn; try done; [by rewrite lookup_insert_eq|]. rewrite length_app. cbn. lia.
Qed.
End Stalled.

(** * Properties *)

(** C13: the result of a request is its responses, whatever other requests do. Let the watcher of a
    pod run, with clients reading streams, watchers failing and being created again and rows
    arriving, over rows that say of a request that it started as a sync or async one, had some
    responses and was done. Then at any time what is stored under the key of its result holds
    exactly these responses in order; and once the watcher has caught up and its writes are carried
    out, a reader that polled any number of times before gets them. *)
Theorem serving_result_exact {J : ServingJson} (pod id : string) (rt : RequestType) (responses : list (string * string))
    (log : list Row) (steps : list WLabel) (s : WState) (n : nat) :
  in_order log -> Forall commits steps -> w_run pod steps (watcher_start log) = Some s ->
  mine pod id (w_log s) = (START_PROCESSING_MARKER, type_bytes rt) :: responses ++ [(DONE_PROCESSING_MARKER, "")] ->
  rt <> Sse -> Forall plain responses -> Forall fits (responses.*2) ->
  (forall v, w_results s !! final_key id = Some v -> extract_bytes_list v = inl (responses.*2)) /\
  (w_todo s = [] -> w_current s = None -> w_writes s = [] ->
   get_data_from_response_store (replicate n (inl None) ++ [inl (w_results s !! final_key id)]) = Some (inl (responses.*2))).
Proof.
  intros Hord Hc Hr Hm Hrt Hp Hf.
  destruct (winv_run pod [] _ _ _ (winv_start pod log Hord) Hc Hr) as [pre Hi].
  assert (Hres : id_results pod id (w_log s) = [responses.*2]).
  { unfold id_results. rewrite Hm. by rewrite id_run_cycle. }
  assert (Hsound : forall v, w_results s !! final_key id = Some v -> extract_bytes_list v = inl (responses.*2)).
  { intros v Hv. destruct (sem_sound _ _ _ _ _ (wi_sem _ _ _ Hi) _ _ (or_intror Hv)) as (id' & l & <-%final_key_inj & -> & Hl).
    rewrite (wi_log _ _ _ Hi) in Hres. unfold id_results in Hl, Hres.
    rewrite mine_app in Hres. destruct (id_results_app (mine pod id pre) (mine pod id (option_list (w_current s) ++ w_todo s))) as [more E].
    rewrite E in Hres.
    assert (l ∈ [responses.*2]) as ->%list_elem_of_singleton by (rewrite <- Hres; set_solver).
    by apply extract_merge. }
  split; [done|]. intros Ht Hcur Hw. rewrite poll_waits.
  rewrite (wi_log _ _ _ Hi), Ht, Hcur, !app_nil_r in Hres.
  destruct (sem_kept _ _ _ _ _ (wi_sem _ _ _ Hi) id) as [[v Hv]|[v Hv]].
  - by rewrite Hres.
  - rewrite Hw in Hv. by apply not_elem_of_nil in Hv.
  - rewrite Hv. cbn [get_data_from_response_store]. by rewrite (Hsound v Hv).
Qed.

(** C14: a request is accepted at most once. Among the trackers of all pods, with any of their calls
    failing or failing after the server carried it out: between two registrations of a request that
    are accepted, the request was discarded, or its status went through the two hours an entry of
    the bucket lives. *)
Theorem accepted_once {K : KvBucket} {J : ServingJson} (ops : list (StatusTracker * TrackerOp * Faults)) (s : Stores)
    (i j : nat) (id : string) (t t' : StatusTracker) (rt rt' : RequestType) (f f' : Faults) :
  (i < j)%nat -> ops !! i = Some (t, ORegister id rt, f) -> ops !! j = Some (t', ORegister id rt', f') ->
  tracker_run ops s !! i = Some (inl tt) -> tracker_run ops s !! j = Some (inl tt) ->
  exists k u o g, (i < k < j)%nat /\ ops !! k = Some (u, o, g) /\ (o = ODiscard id \/ o = OExpire id).
Proof.
  revert i j s. induction ops as [|[[t0 o] f0] ops IH]; intros i j s Hij Hi Hj Ri Rj; [done|].
  cbn [tracker_run] in Ri, Rj. destruct (tracker_op t0 o f0 s) as [s1 r] eqn:E. destruct j as [|j]; [lia|]. destruct i as [|i].
  - cbn in Hi, Ri. injection Hi as -> -> ->. injection Ri as ->. apply accepted_new in E as [_ Hk].
    destruct (tracker_run_known ops s1 id j t' rt' f' Hk Hj Rj) as (k & u & o' & g & ? & ?). exists (S k), u, o', g. split; [lia|done].
  - destruct (IH i j s1 ltac:(lia) Hi Hj Ri Rj) as (k & u & o' & g & ? & ?). exists (S k), u, o', g. split; [lia|done].
Qed.

(** A pod that starts again reads its rows from the first one. A streaming request among them that
    had more responses than a channel holds has no client any more, so the watcher waits for one
    with the lock of the map: whatever happens then, it never comes to the rows after it. *)
Lemma restart_stalls {J : ServingJson} (pod id : string) (start r : Row) (rs later : list Row) (steps : list WLabel) (s : WState) :
  row_operation start = KVPut -> parse_key pod "rs" (row_key start) = Some (id, START_PROCESSING_MARKER) ->
  row_value start = type_bytes Sse ->
  Forall (response_of pod id) rs -> length rs = CHANNEL_SIZE -> response_of pod id r ->
  w_run pod (replicate 12 LRow ++ steps) (watcher_start (start :: rs ++ r :: later)) = Some s ->
  later `prefix_of` w_todo s.
Proof.
  intros Ho Hk Hv Hrs Hl Hr Hrun.
  assert (Happ : forall l l' s0, w_run pod (l ++ l') s0 = match w_run pod l s0 with Some s1 => w_run pod l' s1 | None => None end).
  { induction l as [|x l IH]; intros l' s0; cbn [app w_run]; [done|]. by destruct (w_step pod x s0). }
  rewrite Happ in Hrun. change (replicate 12 LRow) with (LRow :: replicate 11 LRow) in Hrun.
  set (s1 := mkW (start :: rs ++ r :: later) (rs ++ r :: later) (row_revision start) None {[id := MStream [] RxHere]} [] ∅ false).
  assert (E1 : w_step pod LRow (watcher_start (start :: rs ++ r :: later)) = Some s1).
  { cbn [w_step]. cbn. unfold handle_row. rewrite Ho. unfold process_entry. rewrite Hk, Hv, type_of_type_bytes. done. }
  destruct (channel_fills pod id rs r later s1 []) as (s2 & E2 & H2 & T2); [done..| | |].
  - cbn. apply lookup_singleton_eq.
  - cbn. done.
  - rewrite Hl in E2. change (w_run pod (LRow :: ?l) ?x) with (match w_step pod LRow x with Some y => w_run pod l y | None => None end) in Hrun.
    rewrite E1 in Hrun. change (replicate 11 LRow) with (replicate (S CHANNEL_SIZE) LRow) in Hrun. rewrite E2 in Hrun.
    destruct (stalled_run pod id s2 steps s H2 Hrun) as [_ Hp]. by rewrite T2 in Hp.
Qed.

(** * Instances *)

(** A bucket as a map. *)
Definition map_bucket : KvBucket.
Proof.
  refine {| Bucket := gmap string string; kv_get b k := b !! k; kv_put b k v := <[k := v]> b;
            kv_create b k v := match b !! k with Some _ => None | None => Some (<[k := v]> b) end;
            kv_delete b k := delete k b |}.
  - intros b k v k'. apply lookup_insert.
  - intros b k k'. apply lookup_delete.
  - done.
Defined.

#[global] Instance ProcessingStatus_eq_dec : EqDecision ProcessingStatus.
Proof. solve_decision. Defined.
#[global] Instance ProcessingStatus_countable : Countable ProcessingStatus.
Proof.
  refine (inj_countable'
    (fun s => match s with InProgress p => inl p | Completed g p => inr (inl (g, p)) | Failed e p => inr (inr (e, p)) end)
    (fun x => match x with inl p => InProgress p | inr (inl (g, p)) => Completed g p | inr (inr (e, p)) => Failed e p end) _).
  by intros [].
Defined.
#[global] Instance RequestType_countable : Countable RequestType.
Proof.
  refine (inj_countable' (fun t => match t with Sse => None | Sync => Some true | Async => Some false end)
    (fun x => match x with None => Sse | Some true => Sync | Some false => Async end) _). by intros [].
Defined.
#[global] Instance Callback_countable : Countable Callback.
Proof.
  refine (inj_countable' (fun c => (c_id c, c_vertex c, c_cb_time c, c_from_vertex c, c_responses c))
    (fun x => mkCallback x.1.1.1.1 x.1.1.1.2 x.1.1.2 x.1.2 x.2) _). by intros [].
Defined.
Definition number_json : ServingJson.
Proof.
  refine {| status_bytes x := number_bytes (encode x); status_of_bytes s := decode (bytes_number s);
            type_bytes x := number_bytes (encode x); type_of_bytes s := decode (bytes_number s);
            callback_bytes x := number_bytes (encode x); callback_of_bytes s := decode (bytes_number s) |};
    intros x; by rewrite bytes_number_bytes, decode_encode.
Defined.
#[local] Existing Instance map_bucket.
#[local] Existing Instance number_json.

(** A sync request and a streaming one at the same time; the watcher fails once. *)
Definition ex_steps : list WLabel :=
  [LAppend (start_key "p" "a") (type_bytes Sync) KVPut; LAppend (start_key "p" "b") (type_bytes Sse) KVPut; LRow;
   LAppend (response_key "p" "a" "out" 1) "x" KVPut; LRow; LTake "b"; LAppend (response_key "p" "b" "out" 2) "z" KVPut;
   LRow; LRecreate; LRow; LAppend (response_key "p" "a" "out" 3) "y" KVPut; LReceive "b";
   LAppend (done_key "p" "a") "" KVPut; LRow; LRow; LCommit 0 true].
Definition ex_responses : list (string * string) := [("out.1", "x"); ("out.3", "y")].
Definition ex_end : option WState := w_run "p" ex_steps (watcher_start []).

Lemma serving_result_exact_witness :
  exists s, ex_end = Some s /\
    get_data_from_response_store (replicate 3 (inl None) ++ [inl (w_results s !! final_key "a")]) = Some (inl ["x"; "y"]).
Proof.
  assert (H : (fun s => (mine "p" "a" (w_log s), w_todo s, w_current s, w_writes s)) <$> ex_end =
    Some ((START_PROCESSING_MARKER, type_bytes Sync) :: ex_responses ++ [(DONE_PROCESSING_MARKER, "")], [], None, []))
    by (vm_compute; reflexivity).
  destruct ex_end as [s|] eqn:E; [|discriminate H]. exists s. split; [reflexivity|].
  injection H as Hm Ht Hc Hw.
  refine (proj2 (serving_result_exact "p" "a" Sync ex_responses [] ex_steps s 3 _ _ E Hm _ _ _) Ht Hc Hw).
  - split; constructor.
  - repeat constructor.
  - discriminate.
  - repeat constructor; discriminate.
  - repeat constructor.
Defined.

(** Registered, discarded since it could not be published, and registered again. *)
Definition pod_a : StatusTracker := mkStatusTracker "A" true.
Definition pod_b : StatusTracker := mkStatusTracker "B" true.
Definition empty_stores : Stores := mkStores (∅ : Bucket) (∅ : Bucket).
Definition ex_ops : list (StatusTracker * TrackerOp * Faults) :=
  [(pod_a, ORegister "a" Sync, no_faults); (pod_b, ORegister "a" Sync, no_faults); (pod_a, ODiscard "a", no_faults);
   (pod_b, ORegister "a" Sync, no_faults)].

(** The status expires: a pod takes the request as a new one while the first still works on it. *)
Example expired_accepted_again :
  tracker_run [(pod_a, ORegister "a" Sync, no_faults); (pod_b, ORegister "a" Sync, no_faults); (pod_a, OExpire "a", no_faults);
               (pod_b, ORegister "a" Sync, no_faults)] empty_stores =
  [inl tt; inr (StatusOther "Request is getting processed in another pod"); inl tt; inl tt].
Proof. vm_compute. reflexivity. Qed.

Lemma accepted_once_witness :
  exists k u o g, (0 < k < 3)%nat /\ ex_ops !! k = Some (u, o, g) /\ (o = ODiscard "a" \/ o = OExpire "a").
Proof.
  apply (accepted_once ex_ops empty_stores 0 3 "a" pod_a pod_b Sync Sync no_faults no_faults);
    [lia|reflexivity|reflexivity|vm_compute; reflexivity|vm_compute; reflexivity].
Defined.

(** * Where the code falls short *)

(** When the start marker cannot be written the registration fails, but the status stays: the client
    that tries again is told that its request is a duplicate. *)
Example marker_failure_sticks :
  tracker_run [(pod_a, ORegister "a" Sync, mkFaults None None (Some (mkFault false "timeout")));
               (pod_a, ORegister "a" Sync, no_faults)] empty_stores =
  [inr (StatusOther "timeout"); inr (Duplicate "a")].
Proof. vm_compute. reflexivity. Qed.

(** A client that goes away after its request was completed marks it as failed. *)
Example completed_then_failed :
  tracker_run [(pod_a, ORegister "a" Sse, no_faults); (pod_a, ODeregister "a" "graph" None, no_faults);
               (pod_a, OFail "a" "Cancelled", no_faults); (pod_b, ORegister "a" Sse, no_faults)] empty_stores =
  [inl tt; inl tt; inl tt; inr (Cancelled "Cancelled" "A")].
Proof. vm_compute. reflexivity. Qed.

(** The pod that took over a failed request and fails too is named in its place: the next one looks
    for the callbacks of [B], though they are under the name of [A]. *)
Example retry_names_wrong_pod :
  tracker_run [(pod_a, ORegister "a" Sync, no_faults); (pod_a, OFail "a" "Cancelled", no_faults);
               (pod_b, ORegister "a" Sync, no_faults); (pod_b, OFail "a" "Cancelled", no_faults);
               (pod_b, ORegister "a" Sync, no_faults)] empty_stores =
  [inl tt; inl tt; inr (Cancelled "Cancelled" "A"); inl tt; inr (Cancelled "Cancelled" "B")].
Proof. vm_compute. reflexivity. Qed.

(** A request that was discarded leaves an empty result. When it is sent again, a reader that comes
    before the watcher has written the new result gets the empty one. *)
Example discarded_result_served :
  (fun s => get_data_from_response_store [inl (w_results s !! final_key "a")]) <$>
  w_run "p" [LAppend (start_key "p" "a") (type_bytes Sync) KVPut; LAppend (done_key "p" "a") "" KVPut; LRow; LRow; LCommit 0 true;
             LAppend (start_key "p" "a") (type_bytes Sync) KVPut; LAppend (response_key "p" "a" "out" 1) "x" KVPut;
             LAppend (done_key "p" "a") "" KVPut; LRow; LRow] (watcher_start []) = Some (Some (inl [])).
Proof. vm_compute. reflexivity. Qed.

(** The rows of a request whose name has a dot are taken for those of another one. *)
Example dotted_request : parse_key "p" "rs" (start_key "p" "a.b") = Some ("a", "b.start.processing").
Proof. vm_compute. reflexivity. Qed.
