(* ===== verification/ServingProxy.v ===== *)
(** How a serving pod answers a request (src/rust/serving/src/app: orchestrator.rs,
    jetstream_proxy.rs, message_path.rs and the middleware of app.rs): the request is registered, the
    message published, the callbacks collected until they make a complete path, and the responses
    read back.

    The stores are those of [ServingStore]; the publishing and the HTTP server are external. *)
From S2P Require Import Prelude Clock Message Wal WalMessage Manager ServerInfo ServingGraph SinkWriter ServingStore.
From stdpp Require Import pretty.
#[local] Open Scope Z_scope.

(** * The orchestrator *)

Inductive ServeError :=
  | SDuplicate (id : string)
  | SStatus (e : StatusError)
  | SStore (e : StoreError)
  | SSubGraph (e : string).

(** The task that collects the callbacks of a request: [task_pod] is the pod it was taken over from. *)
Record RequestTask := mkTask { task_id : string; task_pod : option string; task_callbacks : list Callback }.
(** A task of [process_request] notifies a handler, a task of [stream_response] does not. [waiting]:
    the handler still waits when the path is complete; its receiver is gone when the client has gone. *)
Inductive TaskKind := Notifying (waiting : bool) | Streaming.
Inductive TaskState := TWaiting (t : RequestTask) | TDone (graph : string) | TStopped | TPanicked.

Section Orchestrator.
Context {K : KvBucket} {J : ServingJson} (to_json : Subgraph -> Result string) (dag : gmap string (list Edge)).

(** The registration at the start of [process_request] and [stream_response]: the pod that had the
    request before, if it failed there. *)
Definition orch_register (t : StatusTracker) (id : string) (rt : RequestType) (f : Faults) (s : Stores)
    : Stores * (option string + ServeError) :=
  let (s, r) := register t id rt f s in
  (s, match r with
      | inl _ => inl None
      | inr (Cancelled _ previous) => inl (Some previous)
      | inr (Duplicate m) => inr (SDuplicate m)
      | inr e => inr (SStatus e)
      end).

(** Both register, and start a task with a channel of callbacks. *)
Definition process_request (t : StatusTracker) (id : string) (rt : RequestType) (f : Faults) (s : Stores)
    (senders : gmap string CbChannel) : Stores * gmap string CbChannel * (RequestTask + ServeError) :=
  let (s, r) := orch_register t id rt f s in
  match r with
  | inr e => (s, senders, inr e)
  | inl pod => (s, (register_and_watch id pod senders).1, inl (mkTask id pod []))
  end.

(** [stream_response] does the same, and takes the stream of the responses: that of the watcher of this
    pod, or of a scan of the pod that failed. [None]: it waits for the start marker. *)
Definition stream_response (t : StatusTracker) (id : string) (rt : RequestType) (f : Faults) (s : Stores)
    (senders : gmap string CbChannel) (w : WState) : option (Stores * gmap string CbChannel * WState * (RequestTask + ServeError)) :=
  match process_request t id rt f s senders with
  | (s, senders, inr e) => Some (s, senders, w, inr e)
  | (s, senders, inl task) =>
      match task_pod task with
      | Some _ => Some (s, senders, w, inl task)
      | None => let? w := stream_data id w in Some (s, senders, w, inl task)
      end
  end.

(** The task receives a callback. The search always ends, see [search_sound]. *)
Definition on_callback (kind : TaskKind) (t : StatusTracker) (task : RequestTask) (cb : Callback) (f : Faults) (s : Stores)
    (senders : gmap string CbChannel) : Stores * gmap string CbChannel * TaskState :=
  let cbs := task_callbacks task ++ [cb] in
  match generate_subgraph_from_callbacks to_json dag (task_id task) cbs with
  | None => (s, senders, TPanicked)
  | Some (Err _) =>
      (s, cb_close (task_id task) senders, match kind with Notifying _ => TPanicked | Streaming => TStopped end)
  | Some (Ok None) => (s, senders, TWaiting (mkTask (task_id task) (task_pod task) cbs))
  | Some (Ok (Some graph)) =>
      let (s, r) := deregister t (task_id task) graph (task_pod task) f s in
      match r with
      | inl _ =>
          (s, cb_deregister (task_id task) senders,
           match kind with Notifying false => TPanicked | _ => TDone graph end)
      | inr _ => (s, cb_close (task_id task) senders, TPanicked)
      end
  end.

(** The loop over the callbacks of the channel; without more of them the task waits. *)
Fixpoint task_run (kind : TaskKind) (t : StatusTracker) (task : RequestTask) (cbs : list Callback) (f : Faults) (s : Stores)
    (senders : gmap string CbChannel) : Stores * gmap string CbChannel * TaskState :=
  match cbs with
  | [] => (s, senders, TWaiting task)
  | cb :: cbs =>
      match on_callback kind t task cb f s senders with
      | (s, senders, TWaiting task) => task_run kind t task cbs f s senders
      | r => r
      end
  end.

(** [retrieve_saved], up to what it waits for: the responses of this pod, or the end of a task and
    then the responses of the pod that failed. *)
Inductive Retrieval :=
  | RInProgress
  | RRead
  | RAwait (task : RequestTask) (pod : string)
  | RError (e : ServeError).
Definition retrieve_saved (t : StatusTracker) (id : string) (rt : RequestType) (f : Faults) (s : Stores)
    (senders : gmap string CbChannel) : Stores * gmap string CbChannel * Retrieval :=
  match status (f_get f) s id with
  | inr e => (s, senders, RError (SStatus e))
  | inl (InProgress _) => (s, senders, RInProgress)
  | inl (Completed _ _) => (s, senders, RRead)
  | inl (Failed _ pod) =>
      match process_request t id rt f s senders with
      | (s, senders, inl task) => (s, senders, RAwait task pod)
      | (s, senders, inr e) => (s, senders, RError e)
      end
  end.

(** And what it gives in the end: [notified] is what the task sends, [None] that it is gone, which
    panics; the answers of the store and the rows of the failed pod are given. *)
Inductive Saved := SavedNothing | Saved_ (data : list string) | SavedError (e : ServeError) | SavedPanic.
Definition saved (r : option (list string + StoreError)) : option Saved :=
  (fun r => match r with inl l => Saved_ l | inr e => SavedError (SStore e) end) <$> r.
Definition retrieved (r : Retrieval) (notified : option string) (answers : list (option string + string)) (items : list WatchItem)
    : option Saved :=
  match r with
  | RInProgress => Some SavedNothing
  | RError e => Some (SavedError e)
  | RRead => saved (retrieve_data None answers items)
  | RAwait _ pod =>
      match notified with
      | None => Some SavedPanic
      | Some _ => saved (retrieve_data (Some pod) answers items)
      end
  end.

Definition retrieve_subgraph_from_storage (id : string) (f : option string) (s : Stores) : string + ServeError :=
  match status f s id with
  | inr e => inr (SStatus e)
  | inl (InProgress _) => inl "Request In Progress"
  | inl (Completed graph _) => inl graph
  | inl (Failed e _) => inr (SSubGraph e)
  end.

Definition orch_discard (t : StatusTracker) (id : string) (f : Faults) (s : Stores) (senders : gmap string CbChannel)
    : Stores * gmap string CbChannel * (unit + ServeError) :=
  let (s, r) := discard t id f s in
  match r with
  | inr e => (s, senders, inr (SStatus e))
  | inl _ => (s, cb_deregister id senders, inl tt)
  end.
End Orchestrator.

(** * The handlers *)

Record Response := mkResponse { r_code : Z; r_headers : list (string * string); r_body : string }.

Inductive ApiError :=
  | BadRequest (m : string)
  | InternalServerError (m : string)
  | Conflict (m : string)
  | TooManyRequests (m : string).
Definition api_code (e : ApiError) : Z :=
  match e with BadRequest _ => 400 | InternalServerError _ => 500 | Conflict _ => 409 | TooManyRequests _ => 429 end.

Definition NUMAFLOW_RESP_ARRAY_LEN : string := "Numaflow-Array-Len".
Definition NUMAFLOW_RESP_ARRAY_IDX_LEN : string := "Numaflow-Array-Index-Len".

Fixpoint join (sep : string) (l : list string) : string :=
  match l with [] => "" | [x] => x | x :: l => x +:+ sep +:+ join sep l end.

(** The results as one body, with the headers that say where each ends. *)
Definition array_headers (result : list string) : list (string * string) :=
  [(NUMAFLOW_RESP_ARRAY_LEN, pretty (N.of_nat (length result)));
   (NUMAFLOW_RESP_ARRAY_IDX_LEN, join "," ((fun x => pretty (slen x)) <$> result))].
Definition concat_body (result : list string) : string := foldr String.append "" result.

(** [fetch]. *)
Definition fetch_response (r : Saved) : option (Response + ApiError) :=
  match r with
  | SavedPanic => None
  | SavedError (SStore _) => Some (inl (mkResponse 404 [] "Failed to fetch response from store"))
  | SavedError _ => Some (inr (InternalServerError "Failed to retrieve data"))
  | SavedNothing => Some (inl (mkResponse 200 [] "in-progress"))
  | Saved_ result => Some (inl (mkResponse 200 (array_headers result) (concat_body result)))
  end.

(** [publish_to_jetstream]: the publish, then its confirmation. *)
Definition publish_to_jetstream (published confirmed : bool) : unit + ApiError :=
  if published && confirmed then inl tt else inr (TooManyRequests "Failed to write message to JetStream").

Definition register_error (e : ServeError) : ApiError :=
  match e with
  | SDuplicate _ => Conflict "Specified request id already exists in the store"
  | _ => InternalServerError "Failed to register message"
  end.

(** The headers of the message that is published. *)
Definition msg_headers (tid_header id pod : string) (headers : list (string * string)) : gmap string string :=
  <["X-Numaflow-Pod-Hash" := pod]> (<[tid_header := id]> (foldl (fun m kv => <[kv.1 := kv.2]> m) ∅ headers)).

Section Handlers.
Context {K : KvBucket} {J : ServingJson}.

(** A message that cannot be published is discarded. [None]: the discard fails, which panics. *)
Definition publish_or_discard (t : StatusTracker) (task : RequestTask) (fd : Faults) (published confirmed : bool)
    (s : Stores) (senders : gmap string CbChannel) : Stores * gmap string CbChannel * option (RequestTask + ApiError) :=
  match publish_to_jetstream published confirmed with
  | inl _ => (s, senders, Some (inl task))
  | inr e =>
      match orch_discard t (task_id task) fd s senders with
      | (s, senders, inl _) => (s, senders, Some (inr e))
      | (s, senders, inr _) => (s, senders, None)
      end
  end.

(** The first half of [sync_publish] and [async_publish]: register and publish. *)
Definition accept (t : StatusTracker) (id : string) (rt : RequestType) (f fd : Faults) (published confirmed : bool)
    (s : Stores) (senders : gmap string CbChannel) : Stores * gmap string CbChannel * option (RequestTask + ApiError) :=
  match process_request t id rt f s senders with
  | (s, senders, inr e) => (s, senders, Some (inr (register_error e)))
  | (s, senders, inl task) => publish_or_discard t task fd published confirmed s senders
  end.

(** [sse_handler]: [None] in front: the handler waits for its stream. *)
Definition sse_handler (t : StatusTracker) (id : string) (f fd : Faults) (published confirmed : bool) (s : Stores)
    (senders : gmap string CbChannel) (w : WState)
    : option (Stores * gmap string CbChannel * WState * option (RequestTask + ApiError)) :=
  let? (s, senders, w, r) := stream_response t id Sse f s senders w in
  match r with
  | inr _ => Some (s, senders, w, Some (inr (InternalServerError "stream_response")))
  | inl task =>
      let '(s, senders, r) := publish_or_discard t task fd published confirmed s senders in Some (s, senders, w, r)
  end.

(** [async_publish] answers as soon as the message is published. *)
Definition async_response (id : string) (r : RequestTask + ApiError) : Response + ApiError :=
  match r with
  | inl _ => inl (mkResponse 200 [] ("Successfully published message " +:+ id))
  | inr e => inr e
  end.

(** The second half of [sync_publish]: [notified] as above, and what is retrieved. *)
Definition sync_response (tid_header id : string) (notified : option (string + ServeError)) (r : Saved) : option (Response + ApiError) :=
  match notified with
  | None => Some (inr (InternalServerError "Failed while waiting on pipeline output"))
  | Some (inr _) => Some (inr (InternalServerError "Failed to collect results of processing from all vertices"))
  | Some (inl _) =>
      match r with
      | SavedPanic => None
      | SavedError _ => Some (inr (InternalServerError "Failed to retrieve result from Datum store"))
      | SavedNothing => Some (inl (mkResponse 200 [] "processing"))
      | Saved_ result =>
          Some (inl (mkResponse 200 ((tid_header, id) :: array_headers result) (concat_body result)))
      end
  end.

(** The task [async_publish] leaves behind: at a shutdown before the callbacks are complete the
    request is marked as failed. *)
Definition async_wait (t : StatusTracker) (id : string) (cancelled : bool) (f : Faults) (s : Stores) : Stores :=
  if cancelled then (mark_as_failed t id "Cancelled" f s).1 else s.

(** The forwarding task of [stream_response]: for each response whether the client took it. *)
Fixpoint forward_stream (t : StatusTracker) (id : string) (taken : list bool) (s : Stores) : Stores :=
  match taken with
  | [] => s
  | true :: taken => forward_stream t id taken s
  | false :: taken => forward_stream t id taken (mark_as_failed t id "Cancelled" no_faults s).1
  end.

(** [message_path]. *)
Definition message_path (id : string) (f : option string) (s : Stores) : string + ApiError :=
  match retrieve_subgraph_from_storage id f s with
  | inl g => inl g
  | inr _ => inr (InternalServerError "Failed to track message")
  end.
End Handlers.

(** * The middleware *)

Record Request := mkRequest { req_path : string; req_query_id : option string; req_headers : gmap string string }.

Definition PUBLISH_ENDPOINTS : list string := ["/v1/process/sync"; "/v1/process/async"; "/v1/process/fetch"].

(** Names of headers are compared in lower case. [validate_request]: [None] passes the request on. *)
Definition validate_request (r : Request) : option Response :=
  match req_headers r !! "x-numaflow-id" with
  | Some v => if ServerInfo.contains "." v then Some (mkResponse 400 [] ("Header-ID should not contain '.', found " +:+ v)) else None
  | None => None
  end.

Definition auth_middleware (token : option string) (r : Request) : option Response :=
  if negb (bool_decide (req_path r ∈ PUBLISH_ENDPOINTS)) then None
  else
    match token with
    | None => None
    | Some token =>
        match req_headers r !! "authorization" with
        | None => Some (mkResponse 401 [] "")
        | Some v => if decide (v = "Bearer " +:+ token) then None else Some (mkResponse 401 [] "")
        end
    end.

(** The id of a request: of the query for a fetch, else of the configured header, else fresh. *)
Definition request_id (tid_header : string) (uuid : string) (r : Request) : string :=
  match (if decide (req_path r = "/v1/process/fetch") then req_query_id r else None) with
  | Some id => id
  | None => default uuid (req_headers r !! tid_header)
  end.

(** * The task of a request *)

Section Completion.
Context {K : KvBucket} {J : ServingJson} (to_json : Subgraph -> Result string) (dag : gmap string (list Edge)).

Lemma deregister_effect t id graph pod s :
  exists s', deregister t id graph pod no_faults s = (s', inl tt) /\
    status None s' id = inl (Completed graph (default (st_pod_hash t) pod)) /\
    (has_response_kv t = true -> kv_get (response_kv s') (done_key (default (st_pod_hash t) pod) id) = Some "").
Proof.
  unfold deregister, update_status, put_marker, try_put. cbn. destruct (has_response_kv t); eexists; (split; [done|]); cbn; unfold status; cbn;
    rewrite ?kv_get_put, ?decide_True by done; by rewrite status_of_status_bytes.
Qed.

(** How a task that has found its subgraph ends: notifying a handler that is gone panics, after the
    request was completed. *)
Definition completed_as (kind : TaskKind) (g : string) : TaskState :=
  match kind with Notifying false => TPanicked | _ => TDone g end.

(** With a serializer that works, the task is done after some of the callbacks, or it still waits and
    the search on all of them finds nothing. *)
Definition finished (kind : TaskKind) (t : StatusTracker) (id : string) (pod : option string) (acc cbs : list Callback)
    (senders : gmap string CbChannel) (r : Stores * gmap string CbChannel * TaskState) : Prop :=
  exists used rest g s', cbs = used ++ rest /\ r = (s', cb_deregister id senders, completed_as kind g) /\
    generate_subgraph_from_callbacks to_json dag id (acc ++ used) = Some (Ok (Some g)) /\
    status None s' id = inl (Completed g (default (st_pod_hash t) pod)) /\
    (has_response_kv t = true -> kv_get (response_kv s') (done_key (default (st_pod_hash t) pod) id) = Some "").

Lemma task_progress kind t id pod acc cbs s senders :
  (forall g, exists j, to_json g = Ok j) ->
  finished kind t id pod acc cbs senders (task_run to_json dag kind t (mkTask id pod acc) cbs no_faults s senders) \/
  task_run to_json dag kind t (mkTask id pod acc) cbs no_faults s senders = (s, senders, TWaiting (mkTask id pod (acc ++ cbs))) /\
  (cbs <> [] -> generate_subgraph_from_callbacks to_json dag id (acc ++ cbs) = Some (Ok None)).
Proof.
  intros Hj. revert acc. induction cbs as [|cb cbs IH]; intros acc; [right; by rewrite app_nil_r|].
  cbn [task_run]. unfold on_callback. cbn [task_id task_pod task_callbacks].
  destruct (generate_subgraph_from_callbacks to_json dag id (acc ++ [cb])) as [[[g|]|e]|] eqn:E.
  - left. destruct (deregister_effect t id g pod s) as (s' & -> & Hs & Hk). exists [cb], cbs, g, s'. by destruct kind as [[]|]; split_and!.
  - destruct (IH (acc ++ [cb])) as [Hf|[Hw Hn]].
    + left. destruct Hf as (used & rest & g & s' & -> & -> & Hg & Hs & Hk). exists (cb :: used), rest, g, s'.
      rewrite <- app_assoc in Hg. by split_and!.
    + right. rewrite Hw, <- app_assoc. split; [done|]. intros _. destruct cbs as [|c cbs]; [done|].
      rewrite <- app_assoc in Hn. by apply Hn.
  - exfalso. unfold generate_subgraph_from_callbacks in E.
    assert (Ha : forall sg, match to_json sg with Ok j => Ok (Some j) | Err e => Err e end <> Err e) by (intros sg; by destruct (Hj sg) as [j ->]).
    destruct (is_monovertex dag && _); [by eapply Ha; injection E|]. destruct (source_vertex _); [|done].
    destruct (generate_subgraph _ _ _ _ _ _) as [[[[] ?] ?]|]; [|done..]. by eapply Ha; injection E.
  - destruct (search_sound to_json dag id (acc ++ [cb])) as (r & Hr & _). congruence.
Qed.
End Completion.

(** * The body of an answer *)

(** What a client does with the headers: the lengths, then the pieces. *)
Fixpoint cut_body (lens : list N) (body : string) : list string :=
  match lens with
  | [] => []
  | n :: lens => stake (N.to_nat n) body :: cut_body lens (sdrop (N.to_nat n) body)
  end.
Definition comma : Ascii.ascii := Ascii.Ascii false false true true false true false false.
Definition header_of (k : string) (hs : list (string * string)) : option string :=
  let? p := list_find (fun h => h.1 = k) hs in Some p.2.2.
Definition decompose (hs : list (string * string)) (body : string) : option (list string) :=
  let? n := header_of NUMAFLOW_RESP_ARRAY_LEN hs ≫= parse_unsigned (2 ^ 64) in
  if decide (n = 0%N) then Some []
  else
    let? idx := header_of NUMAFLOW_RESP_ARRAY_IDX_LEN hs in
    let? lens := mapM (parse_unsigned (2 ^ 64)) (split_at comma idx) in
    Some (cut_body lens body).

Lemma split_join l : l <> [] -> Forall (lacks comma) l -> split_at comma (join "," l) = l.
Proof.
  intros Hl Hf. induction l as [|x l IH]; [done|]. apply Forall_cons in Hf as [Hx Hf].
  destruct l as [|y l]; [by apply split_at_lacks|].
  change (join "," (x :: y :: l)) with (x +:+ String comma (join "," (y :: l))). rewrite split_at_app by done. by rewrite IH.
Qed.
Lemma cut_concat result : cut_body (slen <$> result) (concat_body result) = result.
Proof.
  induction result as [|x result IH]; [done|]. cbn [fmap list_fmap cut_body concat_body foldr].
  replace (N.to_nat (slen x)) with (String.length x) by (symmetry; apply Nat2N.id). fold (concat_body result).
  rewrite stake_app, sdrop_app. by rewrite IH.
Qed.

(** A client that follows the headers of an answer gets the results back. *)
Lemma array_roundtrip tid_header id result :
  tid_header <> NUMAFLOW_RESP_ARRAY_LEN -> tid_header <> NUMAFLOW_RESP_ARRAY_IDX_LEN ->
  (N.of_nat (length result) < 2 ^ 64)%N -> Forall fits result ->
  decompose ((tid_header, id) :: array_headers result) (concat_body result) = Some result.
Proof.
  intros H1 H2 Hn Hf. unfold decompose.
  assert (E1 : header_of NUMAFLOW_RESP_ARRAY_LEN ((tid_header, id) :: array_headers result) = Some (pretty (N.of_nat (length result)))).
  { unfold header_of. cbn [list_find fst]. rewrite decide_False by done. done. }
  assert (E2 : header_of NUMAFLOW_RESP_ARRAY_IDX_LEN ((tid_header, id) :: array_headers result) =
    Some (join "," ((fun x => pretty (slen x)) <$> result))).
  { unfold header_of. cbn [list_find fst]. rewrite decide_False by done. done. }
  rewrite E1, E2. cbn [mbind option_bind]. rewrite parse_unsigned_pretty by done.
  case_decide as Hz; [destruct result; [done|cbn in Hz; lia]|]. rewrite split_join.
  - assert (Hm : mapM (parse_unsigned (2 ^ 64)) ((fun x => pretty (slen x)) <$> result) = Some (slen <$> result)).
    { apply mapM_Some. apply Forall2_fmap_l, Forall2_fmap_r. apply Forall_Forall2_diag. eapply Forall_impl; [exact Hf|].
      intros x Hx. by apply parse_unsigned_pretty. }
    rewrite Hm. f_equal. apply cut_concat.
  - by destruct result.
  - apply Forall_fmap, Forall_forall. intros x _. apply digits_lack; [done|apply pretty_N_digits].
Qed.

(** A request that could not be published may be sent again. *)
Lemma unpublished_retry {K : KvBucket} {J : ServingJson} t id rt published confirmed s senders s' senders' m :
  accept t id rt no_faults no_faults published confirmed s senders = (s', senders', Some (inr (TooManyRequests m))) ->
  exists s2, register t id rt no_faults s' = (s2, inl tt).
Proof.
  unfold accept. assert (Hid : forall task, (process_request t id rt no_faults s senders).2 = inl task -> task_id task = id).
  { unfold process_request. destruct (orch_register t id rt no_faults s) as [? [?|?]]; cbn; by intros ? [= <-]. }
  destruct (process_request t id rt no_faults s senders) as [[s1 senders1] [task|e]]; [specialize (Hid task eq_refl)|].
  2:{ intros [= -> -> He]. by destruct e. }
  unfold publish_or_discard. destruct (publish_to_jetstream published confirmed) as [|e']; [done|]. unfold orch_discard.
  rewrite Hid. destruct (discard t id no_faults s1) as [s3 [[]|]] eqn:Ed; [|done]. intros [= <- <- _].
  assert (Hs : kv_get (status_kv s3) (status_key id) = None).
  { unfold discard, try_remove in Ed. cbn in Ed. apply (f_equal (fun x => status_kv x.1)) in Ed. cbn in Ed. rewrite <- Ed.
    destruct (has_response_kv t); rewrite ?put_marker_status; cbn; by rewrite kv_get_delete, decide_True. }
  unfold register, try_create. cbn. rewrite kv_create_put, Hs. destruct (has_response_kv t); [|eauto].
  unfold put_marker. cbn. eauto.
Qed.

(** * Properties *)

(** C15: a request is answered. When the callbacks of a request, in whatever order they come, are
    those of a complete trace of its message through the pipeline, and the calls of the stores
    succeed, the task that collects them ends after one of them: with a subgraph that follows a
    complete trace made of callbacks received so far, the request completed with this subgraph in
    the status store, the done marker in the response store for the pod that had accepted the
    request, and the channel of callbacks removed. It hands the subgraph to its handler; if that
    no longer waits the task panics, with all this done. *)
Theorem request_completes {K : KvBucket} {J : ServingJson} (to_json : Subgraph -> Result string) (dag : gmap string (list Edge))
    (kind : TaskKind) (t : StatusTracker) (id src : string) (pod : option string) (cbs tr : list Callback) (s : Stores)
    (senders : gmap string CbChannel) :
  (forall g, exists j, to_json g = Ok j) ->
  trace dag src src tr -> cbs ≡ₚ tr -> named cbs -> source_vertex cbs = Some src -> is_monovertex dag = false ->
  exists used rest g s' src' tr', cbs = used ++ rest /\
    task_run to_json dag kind t (mkTask id pod []) cbs no_faults s senders = (s', cb_deregister id senders, completed_as kind g) /\
    trace dag src' src' tr' /\ tr' ⊆+ used /\ to_json (mkSubgraph id (edge_of <$> tr')) = Ok g /\
    status None s' id = inl (Completed g (default (st_pod_hash t) pod)) /\
    (has_response_kv t = true -> kv_get (response_kv s') (done_key (default (st_pod_hash t) pod) id) = Some "").
Proof.
  intros Hj Ht Hp Hn Hsrc Hmono.
  destruct (task_progress to_json dag kind t id pod [] cbs s senders Hj) as [Hf|[_ Hnone]].
  - destruct Hf as (used & rest & g & s' & -> & -> & Hg & Hs & Hk). cbn [app] in Hg.
    destruct (search_sound to_json dag id used) as (r & Hr & Hsound). rewrite Hg in Hr. injection Hr as <-.
    destruct (Hsound g eq_refl) as [[Hm _]|(src' & tr' & _ & Htr & Hsub & Hjs)]; [congruence|].
    exists used, rest, g, s', src', tr'. by split_and!.
  - exfalso. destruct (search_complete to_json dag id src cbs tr) as (tr' & _ & _ & E); [done..|].
    destruct (Hj (mkSubgraph id (edge_of <$> tr'))) as [j Hj']. rewrite Hj' in E.
    destruct cbs as [|cb cbs]; [done|]. cbn [app] in Hnone. rewrite Hnone in E; done.
Qed.

#[local] Existing Instance map_bucket.
#[local] Existing Instance number_json.

Lemma request_completes_witness :
  exists used rest g s' src' tr', ex_cbs = used ++ rest /\
    task_run (fun _ => Ok "json") ex_dag (Notifying true) pod_b (mkTask "m" (Some "A") []) ex_cbs no_faults empty_stores ∅ =
      (s', cb_deregister "m" ∅, TDone g) /\
    trace ex_dag src' src' tr' /\ tr' ⊆+ used /\ Ok "json" = Ok g /\
    status None s' "m" = inl (Completed g "A") /\
    (has_response_kv pod_b = true -> kv_get (response_kv s') (done_key "A" "m") = Some "").
Proof.
  refine (request_completes (fun _ => Ok "json") ex_dag (Notifying true) pod_b "m" "in" (Some "A") ex_cbs ex_trace empty_stores ∅ _ ex_trace_ok
    ex_perm ex_named _ _); [intros; eexists; reflexivity|vm_compute; reflexivity|vm_compute; reflexivity].
Defined.

(** * Where the code falls short *)

(** The client of a synchronous request goes before the path is complete: the request is completed in
    the stores all the same, and the task panics. *)
Example client_gone_panics :
  let '(s', senders, r) := task_run (fun _ => Ok "json") ex_dag (Notifying false) pod_b (mkTask "m" None []) ex_cbs no_faults empty_stores ∅ in
  (r, status None s' "m") = (TPanicked, inl (Completed "json" "B")).
Proof. vm_compute. reflexivity. Qed.

(** Streaming requests are published without the token. *)
Example sse_unauthenticated : auth_middleware (Some "secret") (mkRequest "/v1/process/sse" None ∅) = None.
Proof. reflexivity. Qed.

(** The check for dots is made on a fixed header: with another header configured for the id, an id
    with dots goes through. *)
Example custom_header_unchecked :
  let r := mkRequest "/v1/process/sync" None {["x-request-id" := "a.b"]} in
  validate_request r = None /\ request_id "x-request-id" "uuid" r = "a.b".
Proof. split; vm_compute; reflexivity. Qed.

(** A request that failed in one pod and is sent again to another one is published again; when that
    fails the status is deleted, so the first message, which is being processed, is forgotten. *)
Example retry_forgets :
  let s := (mark_as_failed pod_a "a" "Cancelled" no_faults (register pod_a "a" Sync no_faults empty_stores).1).1 in
  let '(s', _, r) := accept pod_b "a" Sync no_faults no_faults false false s ∅ in
  (r, status None s' "a") = (Some (inr (TooManyRequests "Failed to write message to JetStream")), inr (InvalidStatus "a")).
Proof. vm_compute. reflexivity. Qed.

(** When the second pod completes the request it reads the result under the common key, but it has
    written no start marker of its own: the responses that come to it are dropped and no result is
    written, so the poll never ends unless the first pod is still there. *)
Example retry_result_missing :
  let s := (mark_as_failed pod_a "a" "Cancelled" no_faults (register pod_a "a" Sync no_faults empty_stores).1).1 in
  let '(s1, _, r1) := accept pod_b "a" Sync no_faults no_faults true true s ∅ in
  let s2 := (deregister pod_b "a" "graph" (Some "A") no_faults s1).1 in
  (r1, (retrieve_saved pod_b "a" Sync no_faults s2 ∅).2,
   (fun w => (w_results w !! final_key "a", w_writes w)) <$>
     w_run "B" [LAppend (response_key "B" "a" "out" 1) "x" KVPut; LRow] (watcher_start [])) =
  (Some (inl (mkTask "a" (Some "A") [])), RRead, Some (None, [])).
Proof. vm_compute. reflexivity. Qed.
