(* ===== verification/HttpSource.v ===== *)
(** The HTTP source (src/rust/extns/numaflow-http/src/lib.rs and numaflow-core's source/http.rs): a
    request becomes a message and waits until the message is acknowledged, the actor hands out the
    messages and answers the requests.

    The server is external: requests come with their headers, a fresh id and the clock. *)
From S2P Require Import Prelude Clock Message Wal RedisStore.
#[local] Open Scope Z_scope.

(** * Requests *)

Record HttpMessage := mkHttpMessage {
  hm_body : string;
  hm_headers : gmap string string;
  hm_event_time : DateTime;
  hm_id : string;
  hm_keys : list string
}.

Definition NUMAFLOW_ID_HEADER : string := "x-numaflow-id".
Definition NUMAFLOW_ID_HEADER_KEY : string := "X-Numaflow-Id".
Definition NUMAFLOW_EVENT_TIME_HEADER : string := "x-numaflow-event-time".
Definition NUMAFLOW_KEYS_HEADER : string := "x-numaflow-keys".
Definition AUTHORIZATION : string := "authorization".

(** The headers of a request in order, with their names in lower case; a name may occur again. *)
Abbreviation HeaderMap := (list (string * string)) (only parsing).
Definition header_get (k : string) (hs : HeaderMap) : option string :=
  let? p := list_find (fun h => h.1 = k) hs in Some p.2.2.

(** [HeaderValue::to_str]: visible ASCII. *)
Definition visible (c : Ascii.ascii) : bool :=
  let n := Ascii.N_of_ascii c in ((32 <=? n) && (n <? 127) || (n =? 9))%N.
Fixpoint all_visible (s : string) : bool :=
  match s with EmptyString => true | String c s => visible c && all_visible s end.
Definition to_str (v : string) : option string := if all_visible v then Some v else None.

Definition minus_sign : Ascii.ascii := Ascii.Ascii true false true true false true false false.
(** [str::parse::<i64>]. *)
Definition parse_i64 (s : string) : option Z :=
  match s with
  | String c rest =>
      if decide (c = minus_sign) then
        match rest with
        | EmptyString => None
        | _ => let? n := parse_digits 0 rest in if decide (Z.of_N n <= 2 ^ 63) then Some (- Z.of_N n) else None
        end
      else let? n := parse_unsigned (2 ^ 63) s in Some (Z.of_N n)
  | EmptyString => None
  end.

(** [str::parse::<i32>]. *)
Definition in_i32 (n : Z) : bool := (- 2 ^ 31 <=? n) && (n <? 2 ^ 31).
Definition parse_i32 (s : string) : option Z := let? n := parse_i64 s in if in_i32 n then Some n else None.

Section Parsing.
Context `{Chrono}.

(** The error is the status code. *)
Definition parse_message_id_from_header (v : string) : string + Z :=
  match to_str v with Some id => inl id | None => inr 400 end.

Definition parse_event_time_from_header (v : string) : DateTime + Z :=
  match to_str v with
  | None => inr 400
  | Some s =>
      match parse_i64 s with
      | None => inr 400
      | Some ms => match from_timestamp_millis ms with Some t => inl t | None => inr 400 end
      end
  end.

Definition is_comma : Ascii.ascii := Ascii.Ascii false false true true false true false false.
Definition parse_keys_from_header (v : string) : list string + Z :=
  match to_str v with
  | None => inr 400
  | Some s => inl (filter (fun k => k <> "") (RedisStore.trim <$> split_at is_comma s))
  end.

(** The headers that go with the message; of several values of a name the last one stays. *)
Definition message_headers (id : string) (hs : HeaderMap) : gmap string string :=
  foldl (fun m h => match to_str h.2 with Some v => <[h.1 := v]> m | None => m end)
    {[NUMAFLOW_ID_HEADER_KEY := id]}
    (filter (fun h => h.1 <> NUMAFLOW_EVENT_TIME_HEADER /\ h.1 <> AUTHORIZATION) hs).

(** [data_handler] up to the message: an error ends it with the status code. *)
Definition to_message (uuid : string) (now : DateTime) (hs : HeaderMap) (body : string) : HttpMessage + Z :=
  match match header_get NUMAFLOW_ID_HEADER hs with Some v => parse_message_id_from_header v | None => inl uuid end with
  | inr e => inr e
  | inl id =>
      match match header_get NUMAFLOW_EVENT_TIME_HEADER hs with Some v => parse_event_time_from_header v | None => inl now end with
      | inr e => inr e
      | inl t =>
          match match header_get NUMAFLOW_KEYS_HEADER hs with Some v => parse_keys_from_header v | None => inl [] end with
          | inr e => inr e
          | inl keys => inl (mkHttpMessage body (message_headers id hs) t id keys)
          end
      end
  end.
End Parsing.

(** The authorization in front of the handlers: a token that is not text panics. *)
Inductive Access := Granted | Unauthorized | TokenPanic.
Definition authorize (token : option string) (hs : HeaderMap) : Access :=
  match token with
  | None => Granted
  | Some token =>
      match header_get AUTHORIZATION hs with
      | Some v =>
          match to_str v with
          | None => TokenPanic
          | Some t => if decide (t = "Bearer " +:+ token) then Granted else Unauthorized
          end
      | None => Unauthorized
      end
  end.

Lemma authorize_granted token hs :
  authorize (Some token) hs = Granted -> header_get AUTHORIZATION hs = Some ("Bearer " +:+ token).
Proof. unfold authorize, to_str. intros. repeat case_match; simplify_eq; done. Qed.

(** * The source

    [h_queue]: the channel from the server to the actor; [h_inflight]: the requests that wait, by
    their id, each given as its number; [h_read]: the ids handed out and not settled;
    [h_answers]: the answers given, in order; [h_count]: the requests so far. *)
Record HttpSource := mkHttp {
  h_queue : list HttpMessage;
  h_inflight : gmap string nat;
  h_read : list string;
  h_answers : list (nat * Z);
  h_count : nat;
  h_open : bool;
  h_stopped : bool
}.
Definition http_new : HttpSource := mkHttp [] ∅ [] [] 0 true false.

Definition with_inflight (s : HttpSource) (m : gmap string nat) (answers : list (nat * Z)) : HttpSource :=
  mkHttp (h_queue s) m (h_read s) (h_answers s ++ answers) (h_count s) (h_open s) (h_stopped s).

Inductive SendError := ChannelFull | ChannelClosed.

Section Source.
Context `{Chrono} (buffer_size : nat).

(** [send_message]: the channel is closed or full, or takes the message. *)
Definition send_message (m : HttpMessage) (s : HttpSource) : list HttpMessage + SendError :=
  if negb (h_open s) then inr ChannelClosed
  else if decide (buffer_size <= length (h_queue s))%nat then inr ChannelFull
  else inl (h_queue s ++ [m]).

(** [data_handler], until the request is answered or waits. *)
Definition data_handler (uuid : string) (now : DateTime) (hs : list (string * string)) (body : string) (s : HttpSource) : HttpSource :=
  let n := h_count s in
  let s := mkHttp (h_queue s) (h_inflight s) (h_read s) (h_answers s) (S n) (h_open s) (h_stopped s) in
  let reply code := with_inflight s (h_inflight s) [(n, code)] in
  match to_message uuid now hs body with
  | inr code => reply code
  | inl m =>
      match h_inflight s !! hm_id m with
      | Some _ => reply 409
      | None =>
          match send_message m s with
          | inl q => mkHttp q (<[hm_id m := n]> (h_inflight s)) (h_read s) (h_answers s) (h_count s) (h_open s) (h_stopped s)
          | inr ChannelFull => reply 429
          | inr ChannelClosed => reply 500
          end
      end
  end.

(** [read]: of what is in the channel when the time is over, or the count of messages; [None]: the
    channel is closed and empty. [avail] is how many receives come back in time. *)
Definition http_read (count avail : nat) (s : HttpSource) : option (list HttpMessage) * HttpSource :=
  let k := Nat.min avail (Nat.max 1 count) in
  let msgs := take k (h_queue s) in
  if negb (h_open s) && bool_decide (msgs = []) && bool_decide (0 < avail)%nat then (None, s)
  else (Some msgs, mkHttp (drop k (h_queue s)) (h_inflight s) (h_read s ++ (hm_id <$> msgs)) (h_answers s) (h_count s) (h_open s) (h_stopped s)).

(** [ack] and [nack] answer the requests of the offsets, those that still wait. *)
Definition answer (code : Z) (s : HttpSource) (id : string) : HttpSource :=
  match h_inflight s !! id with
  | Some n => with_inflight s (delete id (h_inflight s)) [(n, code)]
  | None => s
  end.
Definition settle (code : Z) (offsets : list string) (s : HttpSource) : HttpSource :=
  let s := foldl (answer code) s offsets in
  mkHttp (h_queue s) (h_inflight s) (list_difference (h_read s) offsets) (h_answers s) (h_count s) (h_open s) (h_stopped s).
Definition http_ack : list string -> HttpSource -> HttpSource := settle 200.
Definition http_nack : list string -> HttpSource -> HttpSource := settle 500.

(** [pending] hides the length of the channel. *)
Definition http_pending (s : HttpSource) : option Z := None.

(** [fail_pending_requests], when the actor has stopped. *)
Definition fail_pending_requests (s : HttpSource) : HttpSource :=
  let s' := with_inflight s ∅ ((fun p => (p.2, 500)) <$> map_to_list (h_inflight s)) in
  mkHttp (h_queue s') (h_inflight s') (h_read s') (h_answers s') (h_count s') (h_open s') true.

(** The requests, the calls of the source, the end of the server and of the actor. *)
Inductive HEvent :=
  | HRequest (uuid : string) (now : DateTime) (headers : list (string * string)) (body : string)
  | HRead (count avail : nat)
  | HAck (offsets : list string)
  | HNack (offsets : list string)
  | HClose
  | HStop.

(** The source settles what was handed out to it, each once ([None]: not possible). When the actor has
    stopped and waits for the server to shut down, the server still handles requests. *)
Definition http_step (e : HEvent) (s : HttpSource) : option HttpSource :=
  match e with
  | HRequest uuid now hs body => Some (data_handler uuid now hs body s)
  | HClose => Some (mkHttp (h_queue s) (h_inflight s) (h_read s) (h_answers s) (h_count s) false (h_stopped s))
  | _ =>
      if h_stopped s then None
      else
        match e with
        | HRead count avail => Some (http_read count avail s).2
        | HAck offs => if decide (NoDup offs /\ offs ⊆ h_read s) then Some (http_ack offs s) else None
        | HNack offs => if decide (NoDup offs /\ offs ⊆ h_read s) then Some (http_nack offs s) else None
        | _ => Some (fail_pending_requests s)
        end
  end.
Fixpoint http_run (es : list HEvent) (s : HttpSource) : option HttpSource :=
  match es with
  | [] => Some s
  | e :: es => let? s := http_step e s in http_run es s
  end.
End Source.

(** ** As a source of the data plane *)

Definition http_into_message (vertex_name : string) (replica : Z) (h : HttpMessage) : Message :=
  mkMessage Data (hm_keys h) None (hm_body h) (OString (mkStringOffset (hm_id h) replica)) (hm_event_time h) None
    (mkMessageID vertex_name (hm_id h) 0) (hm_headers h) (Some Metadata_default) false None.
Definition http_source_read (vertex_name : string) (replica : Z) (r : option (list HttpMessage)) : option (list Message) :=
  (fun l : list HttpMessage => http_into_message vertex_name replica <$> l) <$> r.
(** The ids of the offsets to acknowledge; an offset of another kind is left out. *)
Definition offset_ids (offs : list Offset) : list string :=
  omap (fun o => match o with OString o => Some (so_offset o) | OInt _ => None end) offs.

Lemma offset_ids_of vertex_name replica (hs : list HttpMessage) :
  offset_ids (m_offset <$> (http_into_message vertex_name replica <$> hs)) = hm_id <$> hs.
Proof. induction hs as [|h hs IH]; [done|]. simpl. f_equal. exact IH. Qed.

(** * Every request is answered *)

Section Answered.
Context `{Chrono} (buffer_size : nat).

(** The ids of the messages that are on their way. *)
Definition on_the_way (s : HttpSource) : list string := (hm_id <$> h_queue s) ++ h_read s.

(** Every request so far was answered once or waits; and while the actor runs, those that wait are
    those of the messages that are on their way, one each. *)
Record hinv (s : HttpSource) : Prop := {
  hi_all : (h_answers s).*1 ++ (map_to_list (h_inflight s)).*2 ≡ₚ seq 0 (h_count s);
  hi_way : h_stopped s = false -> on_the_way s ≡ₚ (map_to_list (h_inflight s)).*1
}.

Lemma hinv_new : hinv http_new.
Proof. by split. Qed.

Lemma keys_NoDup (m : gmap string nat) : NoDup (map_to_list m).*1.
Proof. apply NoDup_fst_map_to_list. Qed.

Lemma settle_split (read offs : list string) :
  NoDup read -> NoDup offs -> offs ⊆ read -> read ≡ₚ offs ++ list_difference read offs.
Proof.
  intros Hr Ho Hs. apply NoDup_Permutation; [done| |].
  - apply NoDup_app. split_and!; [done| |by apply NoDup_list_difference].
    intros x Hx Hd. by apply list_elem_of_difference in Hd as [_ ?].
  - intros x. rewrite elem_of_app, list_elem_of_difference. destruct (decide (x ∈ offs)); [|set_solver]. split; [set_solver|].
    intros [?|[? ?]]; [by apply Hs|done].
Qed.

Lemma fold_answers code offs rest s :
  (h_answers s).*1 ++ (map_to_list (h_inflight s)).*2 ≡ₚ seq 0 (h_count s) ->
  (map_to_list (h_inflight s)).*1 ≡ₚ offs ++ rest ->
  let s' := foldl (answer code) s offs in
  (h_answers s').*1 ++ (map_to_list (h_inflight s')).*2 ≡ₚ seq 0 (h_count s') /\
  (map_to_list (h_inflight s')).*1 ≡ₚ rest /\
  h_queue s' = h_queue s /\ h_read s' = h_read s /\ h_count s' = h_count s /\ h_stopped s' = h_stopped s.
Proof.
  revert s. induction offs as [|id offs IH]; intros s Ha Hk; [done|]. cbn [foldl].
  assert (Hin : id ∈ (map_to_list (h_inflight s)).*1) by (rewrite Hk; set_solver).
  apply list_elem_of_fmap in Hin as ([id' n] & E & Hin). cbn in E. subst id'. apply elem_of_map_to_list in Hin.
  pose proof (map_to_list_delete _ _ _ Hin) as Hd.
  assert (E : answer code s id = with_inflight s (delete id (h_inflight s)) [(n, code)]) by (unfold answer; by rewrite Hin).
  destruct (IH (answer code s id)) as (H1 & H2 & H3 & H4 & H5 & H6).
  - rewrite E. cbn. rewrite fmap_app. cbn. rewrite <- Hd in Ha. cbn in Ha. rewrite <- app_assoc. exact Ha.
  - rewrite E. cbn. rewrite <- Hd in Hk. cbn in Hk. by apply Permutation_cons_inv in Hk.
  - rewrite E in *. cbn in *. split_and!; done.
Qed.

Lemma hinv_settle code offs s :
  hinv s -> h_stopped s = false -> NoDup offs -> offs ⊆ h_read s -> hinv (settle code offs s).
Proof.
  intros [Ha Hw] Hs Hn Ho. specialize (Hw Hs).
  assert (Hnd : NoDup (on_the_way s)) by (rewrite Hw; apply NoDup_fst_map_to_list).
  apply NoDup_app in Hnd as (_ & _ & Hnd). pose proof (settle_split _ _ Hnd Hn Ho) as Hsp.
  destruct (fold_answers code offs ((hm_id <$> h_queue s) ++ list_difference (h_read s) offs) s Ha) as (H1 & H2 & H3 & H4 & H5 & H6).
  { rewrite <- Hw. unfold on_the_way. etrans; [apply Permutation_app_head, Hsp|]. by rewrite app_assoc, (Permutation_app_comm _ offs), <- app_assoc. }
  unfold settle. split; cbn; [exact H1|]. intros _. unfold on_the_way. cbn. rewrite H3, H4. by rewrite H2.
Qed.

Lemma hinv_request uuid now hs body s : hinv s -> hinv (data_handler buffer_size uuid now hs body s).
Proof.
  intros [Ha Hw]. set (n := h_count s) in *.
  assert (Hseq : seq 0 (S n) = seq 0 n ++ [n]) by (by rewrite seq_S).
  assert (Hreply : forall code, hinv (with_inflight (mkHttp (h_queue s) (h_inflight s) (h_read s) (h_answers s) (S n) (h_open s) (h_stopped s))
    (h_inflight s) [(n, code)])).
  { intros code. split; cbn -[seq]; [|exact Hw]. rewrite Hseq, <- Ha, fmap_app. cbn. rewrite <- !app_assoc. apply Permutation_app_head, Permutation_app_comm. }
  unfold data_handler. fold n. destruct (to_message uuid now hs body) as [m|code]; [|apply Hreply].
  cbn [h_inflight]. destruct (h_inflight s !! hm_id m) as [k|] eqn:Em; [apply Hreply|]. unfold send_message. cbn [h_open h_queue].
  destruct (h_open s); cbn [negb]; [|apply Hreply]. case_decide; [apply Hreply|].
  pose proof (map_to_list_insert _ _ n Em) as Hi. split; cbn -[seq].
  - rewrite Hi, Hseq, <- Ha. cbn. rewrite <- Permutation_middle. by rewrite Permutation_cons_append.
  - intros Hs. specialize (Hw Hs). rewrite Hi. cbn. rewrite <- Hw. unfold on_the_way. cbn. rewrite fmap_app. cbn. rewrite <- app_assoc. cbn [app]. by rewrite <- Permutation_middle.
Qed.

Lemma hinv_step e s s' : hinv s -> http_step buffer_size e s = Some s' -> hinv s'.
Proof.
  intros Hi Hs. unfold http_step in Hs. destruct e as [uuid now hs body|count avail|offs|offs| |].
  - injection Hs as <-. by apply hinv_request.
  - destruct (h_stopped s) eqn:Est; [done|]. injection Hs as <-. unfold http_read. case_match; [done|]. destruct Hi as [Ha Hw]. split; cbn; [done|].
    intros _. rewrite <- (Hw Est). unfold on_the_way. cbn. rewrite <- (take_drop (Nat.min avail (Nat.max 1 count)) (h_queue s)) at 3.
    rewrite fmap_app. rewrite (Permutation_app_comm (h_read s)), app_assoc. f_equiv. apply Permutation_app_comm.
  - destruct (h_stopped s) eqn:Est; [done|]. case_decide as Hc; [|done]. injection Hs as <-. destruct Hc. by apply hinv_settle.
  - destruct (h_stopped s) eqn:Est; [done|]. case_decide as Hc; [|done]. injection Hs as <-. destruct Hc. by apply hinv_settle.
  - injection Hs as <-. destruct Hi as [Ha Hw]. split; done.
  - destruct (h_stopped s) eqn:Est; [done|]. injection Hs as <-. destruct Hi as [Ha _]. split; cbn; [|done]. rewrite map_to_list_empty. cbn. rewrite app_nil_r, fmap_app.
    rewrite <- Ha. by rewrite <- list_fmap_compose.
Qed.
Lemma hinv_run es s s' : hinv s -> http_run buffer_size es s = Some s' -> hinv s'.
Proof.
  revert s. induction es as [|e es IH]; intros s Hi Hr; cbn [http_run] in Hr; [by injection Hr as <-|].
  destruct (http_step buffer_size e s) as [s1|] eqn:E; [|done]. eapply IH; [|done]. by eapply hinv_step.
Qed.
End Answered.

(** Once the actor has stopped, it stays so, and whoever waits came after. *)
Lemma stopped_step {C : Chrono} size c0 e s s' :
  h_stopped s = true -> (c0 <= h_count s)%nat -> (forall id n, h_inflight s !! id = Some n -> (c0 <= n)%nat) ->
  http_step size e s = Some s' ->
  h_stopped s' = true /\ (c0 <= h_count s')%nat /\ (forall id n, h_inflight s' !! id = Some n -> (c0 <= n)%nat).
Proof.
  intros Hs Hc Hn. unfold http_step. destruct e as [uuid now hs body|count avail|offs|offs| |]; rewrite ?Hs; try done.
  - intros [= <-]. unfold data_handler.
    destruct (to_message uuid now hs body) as [m|code]; [|cbn; split_and!; try done; lia]. cbn [h_inflight].
    destruct (h_inflight s !! hm_id m); [cbn; split_and!; try done; lia|].
    destruct (send_message size m _) as [q|[]]; cbn; split_and!; try done; try lia.
    intros id n. rewrite lookup_insert_Some. intros [[_ <-]|[_ ?]]; [done|eauto].
  - intros [= <-]. cbn. by split_and!.
Qed.

Lemma stopped_waiters {C : Chrono} size es s s' :
  h_stopped s = false -> http_run size es s = Some s' -> h_stopped s' = true ->
  exists before after s0, es = before ++ HStop :: after /\ http_run size before s = Some s0 /\
    forall id n, h_inflight s' !! id = Some n -> (h_count s0 <= n)%nat.
Proof.
  assert (Hafter : forall es c0 s, h_stopped s = true -> (c0 <= h_count s)%nat -> (forall id n, h_inflight s !! id = Some n -> (c0 <= n)%nat) ->
    forall s', http_run size es s = Some s' -> forall id n, h_inflight s' !! id = Some n -> (c0 <= n)%nat).
  { clear. intros es c0. induction es as [|e es IH]; intros s Hs Hc Hn s' Hr; cbn [http_run] in Hr; [by injection Hr as <-|].
    destruct (http_step size e s) as [s1|] eqn:E; [|done]. destruct (stopped_step size c0 e s s1 Hs Hc Hn E) as (? & ? & ?). by eapply IH. }
  assert (Hkeep : forall (code : Z) offs t, h_stopped (foldl (answer code) t offs) = h_stopped t).
  { intros code offs. induction offs as [|id offs IHo]; intros t; [done|]. cbn [foldl]. rewrite IHo. unfold answer. by destruct (h_inflight t !! id). }
  revert s. induction es as [|e es IH]; intros s Hs Hr Hst; cbn [http_run] in Hr; [injection Hr as <-; congruence|].
  destruct (http_step size e s) as [s1|] eqn:E; [|done]. cbn [mbind option_bind] in Hr. destruct (h_stopped s1) eqn:Es1.
  - exists [], es, s. unfold http_step in E. rewrite Hs in E.
    destruct e as [uuid now hs body|count avail|offs|offs| |]; simplify_eq.
    + exfalso. revert Es1. unfold data_handler. repeat case_match; cbn; congruence.
    + exfalso. revert Es1. unfold http_read. case_match; cbn; congruence.
    + exfalso. case_decide; simplify_eq. revert Es1. unfold http_ack, settle. cbn. rewrite Hkeep. intros; congruence.
    + exfalso. case_decide; simplify_eq. revert Es1. unfold http_nack, settle. cbn. rewrite Hkeep. intros; congruence.
    + split_and!; [done..|]. eapply (Hafter es (h_count s) (fail_pending_requests s)); [done|cbn; lia|intros ? ?; cbn; by rewrite lookup_empty|done].
  - destruct (IH s1 Es1 Hr Hst) as (before & after & s0 & -> & Hb & Hn). exists (e :: before), after, s0.
    split_and!; [done| |done]. cbn [http_run]. by rewrite E.
Qed.

(** What [ack] and [nack] add to the answers. *)
Lemma settle_answers code offs s id n :
  NoDup offs -> id ∈ offs -> h_inflight s !! id = Some n -> (n, code) ∈ h_answers (settle code offs s).
Proof.
  unfold settle. cbn. assert (Hmono : forall offs t x, x ∈ h_answers t -> x ∈ h_answers (foldl (answer code) t offs)).
  { clear. induction offs as [|i offs IH]; intros t x Hx; [done|]. cbn [foldl]. apply IH. unfold answer. case_match; cbn; set_solver. }
  revert s. induction offs as [|i offs IH]; intros s Hn Hin Hl; [by apply not_elem_of_nil in Hin|].
  apply NoDup_cons in Hn as [Hi Hn]. cbn [foldl]. apply elem_of_cons in Hin as [->|Hin].
  - apply Hmono. unfold answer. rewrite Hl. cbn. set_solver.
  - apply IH; [done..|]. unfold answer. case_match; cbn; [|done]. rewrite lookup_delete_ne; [done|]. intros ->. done.
Qed.

Lemma http_run_app {C : Chrono} size es es' s s0 :
  http_run size es s = Some s0 -> http_run size (es ++ es') s = http_run size es' s0.
Proof.
  revert s. induction es as [|e es IH]; intros s; cbn [http_run app]; [by intros [= ->]|].
  destruct (http_step size e s); [|done]. cbn. apply IH.
Qed.

Lemma http_count_mono {C : Chrono} size es s s' : http_run size es s = Some s' -> (h_count s <= h_count s')%nat.
Proof.
  assert (Hkeep : forall (code : Z) offs t, h_count (foldl (answer code) t offs) = h_count t).
  { intros code offs. induction offs as [|id offs IHo]; intros t; [done|]. cbn [foldl]. rewrite IHo. unfold answer. by destruct (h_inflight t !! id). }
  revert s. induction es as [|e es IH]; intros s Hr; cbn [http_run] in Hr; [by injection Hr as <-|].
  destruct (http_step size e s) as [s1|] eqn:E; [|done]. apply IH in Hr. etrans; [|exact Hr]. clear -E Hkeep.
  unfold http_step in E. destruct e as [uuid now hs body|count avail|offs|offs| |]; try (destruct (h_stopped s); [done|]); simplify_eq; try done.
  - unfold data_handler. repeat case_match; cbn; lia.
  - unfold http_read. by case_match.
  - case_decide; simplify_eq. unfold http_ack, settle. cbn. by rewrite Hkeep.
  - case_decide; simplify_eq. unfold http_nack, settle. cbn. by rewrite Hkeep.
Qed.

(** * Properties *)

(** C16: no request to the HTTP source is lost or answered twice. After any sequence of requests,
    reads and settlements of what was read: every request so far has one answer or waits, and not
    both. While the actor runs, the requests that wait are exactly those whose message is in the
    channel or was handed out and not settled, and each id is there once; acknowledging a message
    answers its request with 200, and nacking it with 500. When the actor has stopped, every request
    that came before the stop has its answer; those that wait came after it, while the server was
    shutting down, and the actor does not answer them any more. *)
Theorem http_requests_answered {C : Chrono} (buffer_size : nat) (events : list HEvent) (s : HttpSource) :
  http_run buffer_size events http_new = Some s ->
  NoDup (h_answers s).*1 /\
  (forall n, (n < h_count s)%nat <-> n ∈ (h_answers s).*1 \/ exists id, h_inflight s !! id = Some n) /\
  (forall n id, n ∈ (h_answers s).*1 -> h_inflight s !! id <> Some n) /\
  (h_stopped s = true -> exists before after s0, events = before ++ HStop :: after /\ http_run buffer_size before http_new = Some s0 /\
     forall n, (n < h_count s0)%nat -> n ∈ (h_answers s).*1) /\
  (h_stopped s = false -> NoDup (on_the_way s) /\ forall id, id ∈ on_the_way s <-> is_Some (h_inflight s !! id)) /\
  (forall offs id n, NoDup offs -> id ∈ offs -> h_inflight s !! id = Some n ->
     (n, 200) ∈ h_answers (http_ack offs s) /\ (n, 500) ∈ h_answers (http_nack offs s)).
Proof.
  intros Hr. destruct (hinv_run buffer_size events _ _ hinv_new Hr) as [Ha Hw].
  assert (Hnd : NoDup ((h_answers s).*1 ++ (map_to_list (h_inflight s)).*2)) by (rewrite Ha; apply NoDup_seq).
  apply NoDup_app in Hnd as (Hn1 & Hn2 & _).
  assert (Hval : forall n, n ∈ (map_to_list (h_inflight s)).*2 <-> exists id, h_inflight s !! id = Some n).
  { intros n. rewrite list_elem_of_fmap. split.
    - intros ([id n'] & -> & Hin). exists id. by apply elem_of_map_to_list.
    - intros [id Hid]. exists (id, n). split; [done|]. by apply elem_of_map_to_list. }
  assert (Hall : forall n, (n < h_count s)%nat <-> n ∈ (h_answers s).*1 \/ exists id, h_inflight s !! id = Some n).
  { intros n. rewrite <- Hval, <- elem_of_app, Ha, elem_of_seq. lia. }
  split_and!; try done.
  - intros n id Hin Hid. apply (Hn2 n Hin). apply Hval. by exists id.
  - intros Hst. destruct (stopped_waiters buffer_size events http_new s) as (before & after & s0 & -> & Hb & Hw0); [done..|].
    exists before, after, s0. split_and!; [done..|]. intros n Hn. pose proof (http_count_mono buffer_size (HStop :: after) s0 s) as Hm.
    destruct (proj1 (Hall n)) as [?|[id Hid]]; [|done|apply Hw0 in Hid; lia].
    enough (h_count s0 <= h_count s)%nat by lia. apply Hm. by rewrite <- (http_run_app buffer_size before (HStop :: after) http_new s0 Hb).
  - intros Hs. specialize (Hw Hs). split; [rewrite Hw; apply NoDup_fst_map_to_list|]. intros id. rewrite Hw, list_elem_of_fmap. split.
    + intros ([id' n] & -> & Hin). exists n. by apply elem_of_map_to_list.
    + intros [n Hid]. exists (id, n). split; [done|]. by apply elem_of_map_to_list.
  - intros offs id n Hno Hin Hid. split; by eapply settle_answers.
Qed.

#[local] Existing Instance chrono_utc.

(** Two requests, one of them sent twice; the channel holds two. *)
Definition ex_events : list HEvent :=
  [HRequest "u0" 0 [("x-numaflow-id", "a"); ("x-numaflow-keys", " k1 ,, k2")] "x"; HRequest "u1" 0 [("x-numaflow-id", "a")] "x";
   HRequest "u2" 0 [("x-numaflow-event-time", "1000")] "y"; HRequest "u3" 0 [] "z"; HRead 10 2; HAck ["a"]; HRequest "u4" 0 [] "w"].
Definition ex_state : option HttpSource := http_run 2 ex_events http_new.

Example ex_http :
  (fun s => (h_answers s, on_the_way s, map_to_list (h_inflight s))) <$> ex_state =
  Some ([(1%nat, 409); (3%nat, 429); (0%nat, 200)], ["u4"; "u2"], [("u2", 2%nat); ("u4", 4%nat)]).
Proof. vm_compute. reflexivity. Qed.

(** A request that comes while the actor waits for the server to shut down is taken, its message stays
    in the channel, and it gets no answer. *)
Example late_request_unanswered :
  (fun s => (h_answers s, hm_id <$> h_queue s, map_to_list (h_inflight s))) <$>
    http_run 2 [HRequest "u0" 0 [] "x"; HStop; HRequest "u1" 0 [] "y"; HClose] http_new =
  Some ([(0%nat, 500)], ["u0"; "u1"], [("u1", 1%nat)]).
Proof. vm_compute. reflexivity. Qed.

(** A run with a stop, and the state at its end. *)
Definition ex_stopped_events : list HEvent := ex_events ++ [HStop; HRequest "u5" 0 [] "v"].
Definition ex_final : HttpSource := default http_new (http_run 2 ex_stopped_events http_new).
Lemma ex_final_run : http_run 2 ex_stopped_events http_new = Some ex_final.
Proof. vm_compute. reflexivity. Qed.
Lemma ex_final_stopped : h_stopped ex_final = true.
Proof. vm_compute. reflexivity. Qed.

Lemma http_requests_answered_witness :
  NoDup ((h_answers ex_final).*1) /\
  exists before after s0, ex_stopped_events = before ++ HStop :: after /\ http_run 2 before http_new = Some s0 /\
    forall n, (n < h_count s0)%nat -> n ∈ (h_answers ex_final).*1.
Proof.
  pose proof (http_requests_answered 2 ex_stopped_events ex_final ex_final_run) as (H1 & _ & _ & H4 & _).
  split; [exact H1|exact (H4 ex_final_stopped)].
Defined.
