(* ===== verification/Generator.v ===== *)
(** The generator source (src/rust/numaflow-core/src/source/generator.rs): messages at a rate, so many
    per unit of time, in batches.

    The ticks of the interval, the clock and the random numbers are external. *)
From S2P Require Import Prelude Clock Message.
From stdpp Require Import pretty.
#[local] Open Scope Z_scope.

(** The part of the configuration the stream uses. *)
Record GeneratorConfig := mkGenConfig {
  gc_rpu : nat;
  gc_content : string;
  gc_key_count : nat;               (* u8 *)
  gc_value : option Z;
  gc_msg_size_bytes : Z;
  gc_jitter_secs : Z
}.

Record StreamGenerator := mkGen {
  g_content : string;
  g_rpu : nat;
  g_batch : nat;
  g_used : nat;
  g_value : option Z;
  g_msg_size : Z;
  g_jitter : Z;
  g_keys : list string;
  g_key_idx : nat
}.

Definition generator_new (cfg : GeneratorConfig) (batch_size : nat) : StreamGenerator :=
  let key_count := Nat.min (gc_key_count cfg) (gc_rpu cfg) in
  let rpu := if bool_decide (0 < key_count)%nat && negb (gc_rpu cfg mod key_count =? 0)%nat
             then (gc_rpu cfg - gc_rpu cfg mod key_count)%nat else gc_rpu cfg in
  mkGen (gc_content cfg) rpu (Nat.min (gc_rpu cfg) batch_size) 0 (gc_value cfg) (gc_msg_size_bytes cfg) (gc_jitter_secs cfg)
    ((fun i => "key-" +:+ pretty (N.of_nat i)) <$> seq 0 key_count) 0.

Definition next_key_to_be_fetched (g : StreamGenerator) : list string * StreamGenerator :=
  match g_keys g !! g_key_idx g with
  | Some key =>
      ([key], mkGen (g_content g) (g_rpu g) (g_batch g) (g_used g) (g_value g) (g_msg_size g) (g_jitter g) (g_keys g)
                ((g_key_idx g + 1) mod length (g_keys g)))
  | None => ([], g)
  end.

(** What is read for one message: the clock, in nanoseconds, for the offset, for the event time and for
    the id in the payload (twice for an id), and the random delay of the event time. *)
Record Draw := mkDraw { d_id : Z * Z; d_now : Z; d_delay_secs : Z; d_payload : Z * Z }.

(** An id: nanoseconds if they fit, else microseconds. *)
Definition timestamp_nanos_opt (t : Z) : option Z := if (- 2 ^ 63 <=? t) && (t <? 2 ^ 63) then Some t else None.
Definition time_id (t : Z * Z) : Z := default (t.2 / 1000) (timestamp_nanos_opt t.1).

(** The delays to draw from: [0 .. jitter]. *)
Definition jitter_bound (g : StreamGenerator) : Z := Z.max (g_jitter g) 1.

Section Messages.
Context `{Chrono} (vertex_name : string) (replica : Z).
(** serde_json of the payload: the id, the value and the size of the padding. *)
Context (payload_json : string -> Z -> Z -> string).

Definition padding_size (g : StreamGenerator) : Z := if 8 <? g_msg_size g then g_msg_size g - 8 else 0.
Definition generate_payload (g : StreamGenerator) (t : Z * Z) (value : Z) : string :=
  payload_json (pretty (time_id t) +:+ "-" +:+ pretty replica) value (padding_size g).

Definition create_message (g : StreamGenerator) (d : Draw) : Message * StreamGenerator :=
  let id := time_id (d_id d) in
  let offset := OInt (mkIntOffset id replica) in
  let event_time := d_now d - d_delay_secs d * 10 ^ 9 in
  let data := match g_content g with
              | EmptyString => generate_payload g (d_payload d) (default (default 0 (timestamp_nanos_opt event_time)) (g_value g))
              | c => c
              end in
  let (keys, g) := next_key_to_be_fetched g in
  (mkMessage Data keys None data offset event_time None (mkMessageID vertex_name (pretty id +:+ "-" +:+ pretty replica) 0) ∅
     (Some Metadata_default) false None, g).

(** One draw per message. *)
Fixpoint generate_messages (g : StreamGenerator) (ds : list Draw) : list Message * StreamGenerator :=
  match ds with
  | [] => ([], g)
  | d :: ds =>
      let (m, g) := create_message g d in
      let (ms, g) := generate_messages g ds in (m :: ms, g)
  end.

Definition with_used (g : StreamGenerator) (u : nat) : StreamGenerator :=
  mkGen (g_content g) (g_rpu g) (g_batch g) u (g_value g) (g_msg_size g) (g_jitter g) (g_keys g) (g_key_idx g).

(** [poll_next]: how many messages, if any; [tick] says that the unit of time has passed. *)
Definition poll_count (g : StreamGenerator) (tick : bool) : option (nat * nat) :=
  if tick then Some (g_batch g, g_batch g)
  else if decide (g_used g < g_rpu g)%nat then
    let to_send := Nat.min (g_rpu g - g_used g) (g_batch g) in Some (to_send, (g_used g + to_send)%nat)
  else None.
Definition poll_next (g : StreamGenerator) (tick : bool) (draws : nat -> list Draw) : option (list Message) * StreamGenerator :=
  match poll_count g tick with
  | None => (None, g)
  | Some (n, used) => let (ms, g) := generate_messages (with_used g used) (draws n) in (Some ms, g)
  end.

(** [size_hint]: what is left, in unsigned arithmetic ([None]: it underflows). *)
Definition size_hint (g : StreamGenerator) : option (nat * nat) :=
  if decide (g_used g <= g_rpu g)%nat then Some ((g_rpu g - g_used g)%nat, g_rpu g) else None.

(** The polls of one unit of time, from the tick on: the messages of each that gives some. *)
Fixpoint polls (g : StreamGenerator) (n : nat) (draws : nat -> list Draw) : list (list Message) * StreamGenerator :=
  match n with
  | O => ([], g)
  | S n =>
      match poll_next g false draws with
      | (None, g) => polls g n draws
      | (Some ms, g) => let (mss, g) := polls g n draws in (ms :: mss, g)
      end
  end.
Definition unit_of_time (g : StreamGenerator) (n : nat) (draws : nat -> list Draw) : list (list Message) * StreamGenerator :=
  match poll_next g true draws with
  | (None, g) => polls g n draws
  | (Some ms, g) => let (mss, g) := polls g n draws in (ms :: mss, g)
  end.

(** [GeneratorRead::read]. *)
Definition generator_read (cancelled : bool) (r : list Message) : option (list Message) :=
  if cancelled then None else Some r.

(** * The quota *)

Definition same_rate (g g' : StreamGenerator) : Prop := g_rpu g' = g_rpu g /\ g_batch g' = g_batch g /\ g_used g' = g_used g /\ g_keys g' = g_keys g.

Lemma create_message_rate g d : same_rate g (create_message g d).2.
Proof. unfold create_message, next_key_to_be_fetched. by destruct (g_keys g !! g_key_idx g). Qed.
Lemma generate_messages_rate g ds :
  length (generate_messages g ds).1 = length ds /\ same_rate g (generate_messages g ds).2.
Proof.
  revert g. induction ds as [|d ds IH]; intros g; [done|]. cbn [generate_messages].
  pose proof (create_message_rate g d) as Hc. destruct (create_message g d) as [m g1]. cbn in Hc.
  specialize (IH g1). destruct (generate_messages g1 ds) as [ms g2]. cbn in *. destruct IH as [-> H2]. split; [done|].
  destruct Hc as (? & ? & ? & ?), H2 as (? & ? & ? & ?). split_and!; congruence.
Qed.

Context (draws : nat -> list Draw) (draws_length : forall n, length (draws n) = n).

Lemma polls_quota g n :
  (g_used g <= g_rpu g)%nat ->
  let r := polls g n draws in
  sum_list (length <$> r.1) = (g_used r.2 - g_used g)%nat /\ (g_used g <= g_used r.2 <= g_rpu g)%nat /\
  ((0 < g_batch g)%nat -> (g_rpu g <= g_used g + n * g_batch g)%nat -> g_used r.2 = g_rpu g).
Proof.
  revert g. induction n as [|n IH]; intros g Hu; cbn [polls].
  - split_and!; cbn; lia.
  - unfold poll_next, poll_count. case_decide as Hlt.
    + set (k := Nat.min (g_rpu g - g_used g) (g_batch g)).
      pose proof (generate_messages_rate (with_used g (g_used g + k)) (draws k)) as [Hl (R1 & R2 & R3 & _)].
      destruct (generate_messages _ _) as [ms g1]. cbn in Hl, R1, R2, R3. rewrite draws_length in Hl.
      destruct (IH g1) as (S1 & S2 & S3); [rewrite R3, R1; unfold k; lia|].
      destruct (polls g1 n draws) as [mss g2]. cbn in *. rewrite R1, R2, R3 in *. split_and!; [lia|unfold k in *; lia..|].
      intros Hb Hn. apply S3; [done|]. unfold k. lia.
    + destruct (IH g Hu) as (S1 & S2 & S3). split_and!; [done|lia..|]. intros Hb Hn. lia.
Qed.

(** In a unit of time at most [rpu] messages are sent, and exactly so many once there are enough polls,
    when a batch is not more than that. *)
Lemma unit_quota g n :
  (g_batch g <= g_rpu g)%nat ->
  let total := sum_list (length <$> (unit_of_time g n draws).1) in
  (total <= g_rpu g)%nat /\ ((0 < g_batch g)%nat -> (g_rpu g <= S n * g_batch g)%nat -> total = g_rpu g).
Proof.
  intros Hb. unfold unit_of_time, poll_next, poll_count.
  pose proof (generate_messages_rate (with_used g (g_batch g)) (draws (g_batch g))) as [Hl (R1 & R2 & R3 & _)].
  destruct (generate_messages _ _) as [ms g1]. cbn in Hl, R1, R2, R3. rewrite draws_length in Hl.
  destruct (polls_quota g1 n) as (S1 & S2 & S3); [lia|]. destruct (polls g1 n draws) as [mss g2]. cbn in *.
  rewrite R1, R2, R3 in *. split; [lia|]. intros Hp Hn. rewrite S3 in S1 by lia. lia.
Qed.

(** The keys go round: the messages of a poll have the keys from the present one on. *)
Lemma keys_cycle g ds i :
  (g_key_idx g < length (g_keys g))%nat -> (i < length ds)%nat ->
  m_keys <$> (generate_messages g ds).1 !! i =
  (fun k => [k]) <$> g_keys g !! ((g_key_idx g + i) mod length (g_keys g))%nat.
Proof.
  revert g i. induction ds as [|d ds IH]; intros g i Hk Hi; [cbn in Hi; lia|]. cbn [generate_messages].
  destruct (lookup_lt_is_Some_2 (g_keys g) (g_key_idx g)) as [key Ek]; [lia|].
  destruct (create_message g d) as [m g1] eqn:E. unfold create_message, next_key_to_be_fetched in E. rewrite Ek in E.
  injection E as <- <-. destruct i as [|i].
  - destruct (generate_messages _ ds) as [ms g2]. cbn. rewrite Nat.add_0_r, Nat.mod_small by done. by rewrite Ek.
  - cbn in Hi. destruct (generate_messages _ ds) as [ms g2] eqn:E2.
    replace (((m_keys <$> (((mkMessage _ _ _ _ _ _ _ _ _ _ _ _) :: ms, g2).1 !! S i)))) with (m_keys <$> ms !! i) by done.
    replace ms with ((generate_messages (mkGen (g_content g) (g_rpu g) (g_batch g) (g_used g) (g_value g) (g_msg_size g) (g_jitter g) (g_keys g)
                ((g_key_idx g + 1) mod length (g_keys g))) ds).1) by (by rewrite E2).
    rewrite IH; cbn; [|apply Nat.mod_upper_bound; lia|lia]. rewrite Nat.Div0.add_mod_idemp_l. by replace (g_key_idx g + 1 + i)%nat with (g_key_idx g + S i)%nat by lia.
Qed.
End Messages.

(** The rate is reduced to a multiple of the number of keys, but the batch is bounded by the rate that
    was asked for: a batch is more than the quota, and the lower bound of [size_hint] underflows. *)
Example batch_over_quota :
  let g := generator_new (mkGenConfig 33 "x" 7 None 8 0) 50 in
  let draws n := replicate n (mkDraw (0, 0) 0 0 (0, 0)) in
  let (mss, g') := unit_of_time "in" 0 (fun _ _ _ => "json") g 3 draws in
  (g_rpu g, length <$> mss, size_hint g') = (28%nat, [33%nat], None).
Proof. vm_compute. reflexivity. Qed.
