(* ===== verification/SqsSource.v ===== *)
(** The SQS source (src/rust/extns/numaflow-sqs/src/source.rs and numaflow-core's source/sqs.rs): one actor
    per queue receives messages, a read asks all of them and takes the answers that come first, and
    what a read did not wait for is kept for the next one.

    The SQS service is external: its answers are arguments. *)
From S2P Require Import Prelude Clock Message Wal ServingStore HttpSource.
From stdpp Require Import pretty.
#[local] Open Scope Z_scope.

Inductive SqsError :=
  | SqsService (e : string)
  | SqsInvalidConfig (e : string)
  | SqsActorTerminated
  | SqsOther (e : string).

(** * Configuration *)

Record SqsSourceConfig := mkSqsConfig {
  queue_names : list string;
  dead_letter_queue_names : list string;
  max_receive_count : option Z;
  max_number_of_messages : option Z
}.

(** The checks at the start of [build]: the number of receives to expect of the redrive policies. *)
Fixpoint check_names (seen : list string) (names : list string) : option SqsError :=
  match names with
  | [] => None
  | n :: names =>
      if decide (n = "") then Some (SqsInvalidConfig "SQS queue name must not be empty")
      else if decide (n ∈ seen) then Some (SqsInvalidConfig "duplicate SQS queue name")
      else check_names (n :: seen) names
  end.
Definition is_fifo (n : string) : bool := ServerInfo.ends_with ".fifo" n.
Fixpoint check_pairs (pairs : list (string * string)) : option SqsError :=
  match pairs with
  | [] => None
  | (q, d) :: pairs =>
      if decide (d = "") then Some (SqsInvalidConfig "SQS dead-letter queue name must not be empty")
      else if decide (q = d) then Some (SqsInvalidConfig "SQS source queue cannot be its own dead-letter queue")
      else if negb (Bool.eqb (is_fifo q) (is_fifo d)) then
        Some (SqsInvalidConfig "SQS source queue and dead-letter queue must both be FIFO queues or both be standard queues")
      else check_pairs pairs
  end.
Definition sqs_check_config (cfg : SqsSourceConfig) : option Z + SqsError :=
  if decide (queue_names cfg = []) then inr (SqsInvalidConfig "at least one queue name must be configured for the SQS source")
  else
    match check_names [] (queue_names cfg) with
    | Some e => inr e
    | None =>
        if decide (dead_letter_queue_names cfg = []) then
          match max_receive_count cfg with
          | Some _ => inr (SqsInvalidConfig "max_receive_count requires at least one dead-letter queue")
          | None => inl None
          end
        else if negb (length (dead_letter_queue_names cfg) =? length (queue_names cfg))%nat then
          inr (SqsInvalidConfig "expected one dead-letter queue for each source queue")
        else
          match check_pairs (zip (queue_names cfg) (dead_letter_queue_names cfg)) with
          | Some e => inr e
          | None =>
              let n := default 10 (max_receive_count cfg) in
              if (1 <=? n) && (n <=? 1000) then inl (Some n)
              else inr (SqsInvalidConfig "max_receive_count must be between 1 and 1000")
          end
    end.

(** A value of serde_json; a number is given by [as_i64]. *)
Inductive Json := JNull | JBool (b : bool) | JNumber (n : option Z) | JString (s : string) | JArray (l : list Json)
  | JObject (l : list (string * Json)).
Definition json_get (k : string) (l : list (string * Json)) : option Json :=
  let? p := list_find (fun x => x.1 = k) l in Some p.2.2.

Record RedrivePolicy := mkRedrive { dead_letter_target_arn : string; redrive_max_receive_count : Z }.


(** [value] is what serde_json makes of the text, [None] if it is not JSON. *)
Definition parse_redrive_policy (value : option Json) : RedrivePolicy + string :=
  match value with
  | None => inr "invalid JSON"
  | Some (JObject policy) =>
      match json_get "deadLetterTargetArn" policy with
      | Some (JString arn) =>
          if decide (arn = "") then inr "missing or invalid deadLetterTargetArn"
          else
            match json_get "maxReceiveCount" policy with
            | Some (JString s) =>
                match parse_i32 s with Some n => inl (mkRedrive arn n) | None => inr "invalid maxReceiveCount: expected an integer" end
            | Some (JNumber (Some n)) =>
                if in_i32 n then inl (mkRedrive arn n) else inr "invalid maxReceiveCount: expected a 32-bit integer"
            | Some (JNumber None) => inr "invalid maxReceiveCount: expected a 32-bit integer"
            | Some _ => inr "invalid maxReceiveCount: expected a string or integer"
            | None => inr "missing maxReceiveCount"
            end
      | _ => inr "missing or invalid deadLetterTargetArn"
      end
  | Some _ => inr "expected a JSON object"
  end.

Definition validate_redrive_policy (arn : string) (count : Z) (actual : RedrivePolicy) : option SqsError :=
  if negb (bool_decide (dead_letter_target_arn actual = arn)) then Some (SqsInvalidConfig "deadLetterTargetArn")
  else if negb (redrive_max_receive_count actual =? count) then Some (SqsInvalidConfig "maxReceiveCount")
  else None.

(** * Messages *)

Record SqsMessage := mkSqsMessage {
  sm_key : string;
  sm_payload : string;
  sm_offset : string;
  sm_event_time : DateTime;
  sm_queue_name : string;
  sm_system_attributes : gmap string string;
  sm_custom_attributes : gmap string (gmap string string)
}.

(** A message of the SDK; a user attribute may have no text. *)
Record SdkMessage := mkSdk {
  sdk_message_id : option string;
  sdk_body : option string;
  sdk_receipt_handle : option string;
  sdk_attributes : option (gmap string string);
  sdk_message_attributes : option (gmap string (option string))
}.

Definition from_sdk `{Chrono} (queue : string) (now : DateTime) (m : SdkMessage) : SqsMessage :=
  mkSqsMessage (default "" (sdk_message_id m)) (default "" (sdk_body m)) (default "" (sdk_receipt_handle m))
    (default now (let? attrs := sdk_attributes m in let? t := attrs !! "SentTimestamp" in
                  let? ms := parse_i64 t in from_timestamp_millis ms))
    queue (default ∅ (sdk_attributes m))
    (match sdk_message_attributes m with
     | Some attrs => {["sqs" := omap id attrs]}
     | None => ∅
     end).

(** The offset of a message names its queue. *)
Definition colon : Ascii.ascii := Ascii.Ascii false true false true true true false false.
Definition encode_offset (queue receipt_handle : string) : string := queue +:+ ":" +:+ receipt_handle.
Definition decode_offset (offset : string) : (string * string) + string :=
  if negb (utf8_valid offset) then inr "Invalid UTF-8 SQS offset"
  else
    match find_cut colon offset with
    | None => inr "Invalid SQS offset: missing queue name prefix"
    | Some (queue, handle) =>
        if decide (queue = "") then inr "Invalid SQS offset: empty queue name"
        else if decide (handle = "") then inr "Invalid SQS offset: empty receipt handle"
        else inl (queue, handle)
    end.

Definition sqs_into_message (vertex_name : string) (replica : Z) (m : SqsMessage) : Message :=
  let offset := mkStringOffset (encode_offset (sm_queue_name m) (sm_offset m)) replica in
  mkMessage Data [sm_key m] None (sm_payload m) (OString offset) (sm_event_time m) (Some (sm_event_time m))
    (mkMessageID vertex_name (so_offset offset +:+ "-" +:+ pretty replica) 0) (sm_system_attributes m)
    (Some (mkMetadata "" {["sqs" := mkKeyValueGroup {["queue_name" := sm_queue_name m]}]} (mkKeyValueGroup <$> sm_custom_attributes m)))
    false None.

(** * Acknowledgements *)

(** [ack] of the source: all offsets are decoded before any is acknowledged. *)
Fixpoint decode_offsets (offs : list Offset) : list (string * string) + string :=
  match offs with
  | [] => inl []
  | OInt _ :: _ => inr "Expected Offset::String type for SQS"
  | OString o :: offs =>
      match decode_offset (so_offset o) with
      | inr e => inr e
      | inl x => match decode_offsets offs with inr e => inr e | inl l => inl (x :: l) end
      end
  end.

(** [nack] of the source: only offsets with a delay, in milliseconds, rounded up to seconds. *)
Record SqsNack := mkSqsNack { nack_queue : string; nack_handle : string; nack_visibility : Z }.
Fixpoint sqs_nacks (offs : list (Offset * option NackOptions)) : list SqsNack + string :=
  match offs with
  | [] => inl []
  | (OInt _, _) :: _ => inr "Expected Offset::String type for SQS"
  | (OString o, opts) :: offs =>
      match opts ≫= nack_delay with
      | None => sqs_nacks offs
      | Some ms =>
          match decode_offset (so_offset o) with
          | inr e => inr e
          | inl (q, h) =>
              match sqs_nacks offs with
              | inr e => inr e
              | inl l => inl (mkSqsNack q h (let s := ((ms + 999) / 1000) mod 2 ^ 32 in if s <? 2 ^ 31 then s else s - 2 ^ 32) :: l)
              end
          end
      end
  end.

(** The offsets by queue, each group in the order given. *)
Definition group_by_queue {A} (offs : list (string * A)) : gmap string (list A) :=
  foldl (fun m x => <[x.1 := default [] (m !! x.1) ++ [x.2]]> m) ∅ offs.

(** [delete_messages]: every handle is checked first, then deleted in groups of at most ten; a call
    that fails, or has failed entries, ends it. The handles deleted before are the first part. *)
Fixpoint chunks {A} (fuel n : nat) (l : list A) : list (list A) :=
  match fuel, l with
  | S fuel, _ :: _ => take n l :: chunks fuel n (drop n l)
  | _, _ => []
  end.
Fixpoint delete_chunks (bs : list (list string)) (ok : list string -> bool) : list string * option SqsError :=
  match bs with
  | [] => ([], None)
  | b :: bs =>
      if ok b then let (l, e) := delete_chunks bs ok in (b ++ l, e)
      else ([], Some (SqsOther "SQS failed to delete one or more messages"))
  end.
Definition delete_messages (handles : list string) (ok : list string -> bool) : list string * option SqsError :=
  if forallb utf8_valid handles then delete_chunks (chunks (length handles) 10 handles) ok
  else ([], Some (SqsOther "failed to parse offset")).

(** [nack_messages]: one by one, up to the first that fails. *)
Fixpoint nack_messages (nacks : list SqsNack) (ok : SqsNack -> bool) : list SqsNack * option SqsError :=
  match nacks with
  | [] => ([], None)
  | n :: nacks =>
      if negb (utf8_valid (nack_handle n)) then ([], Some (SqsOther "failed to parse receipt handle"))
      else if ok n then let (l, e) := nack_messages nacks ok in (n :: l, e)
      else ([], Some (SqsService "change_message_visibility"))
  end.

(** [ack_offsets] and [nack_offsets]: the groups are sent in the order of the hash map to the actors of
    their queues, up to a queue without an actor, which fails the call; those sent are handled, and
    the first error of them fails it too. *)
Fixpoint send_groups {A} (queues : list string) (groups : list (string * list A)) : list (string * list A) * option SqsError :=
  match groups with
  | [] => ([], None)
  | g :: groups =>
      if bool_decide (g.1 ∈ queues) then let (sent, e) := send_groups queues groups in (g :: sent, e)
      else ([], Some (SqsOther "unknown SQS queue"))
  end.
Fixpoint first_error {A} (rs : list (list A * option SqsError)) : option SqsError :=
  match rs with [] => None | (_, Some e) :: _ => Some e | (_, None) :: rs => first_error rs end.
Definition settle_groups {A} (queues : list string) (order : list (string * list A))
    (handle : string -> list A -> list A * option SqsError) : list (string * list A) * option SqsError :=
  let (sent, e) := send_groups queues order in
  let rs := (fun g => handle g.1 g.2) <$> sent in
  (zip sent.*1 rs.*1, match e with Some e => Some e | None => first_error rs end).
Definition ack_offsets (queues : list string) (order : list (string * list string)) (ok : string -> list string -> bool) :=
  settle_groups queues order (fun q l => delete_messages l (ok q)).
Definition nack_offsets (queues : list string) (order : list (string * list SqsNack)) (ok : SqsNack -> bool) :=
  settle_groups queues order (fun _ l => nack_messages l ok).

(** [get_pending_messages], of the attribute of the queue, and [pending_count] over the queues: one
    that fails hides the sum. *)
Definition get_pending_messages (attr : option string + string) : option Z + SqsError :=
  match attr with
  | inr e => inr (SqsService e)
  | inl None => inl None
  | inl (Some v) =>
      match parse_unsigned (2 ^ 64) v with
      | Some n => inl (Some (Z.of_N n))
      | None => inr (SqsOther "failed to parse ApproximateNumberOfMessages")
      end
  end.
Fixpoint pending_sum (total : Z) (answers : list (option Z + SqsError)) : option Z :=
  match answers with
  | [] => Some total
  | inl (Some n) :: answers => pending_sum (Z.min (total + n) (2 ^ 64 - 1)) answers
  | _ => None
  end.
Definition sqs_pending_count (answers : list (option Z + SqsError)) : option Z := pending_sum 0 answers.

(** * Receiving *)

Definition MAX_CONSECUTIVE_RECEIVE_FAILURES : nat := 10.
Definition INBOX_SIZE : nat := 10.

(** The messages to ask a queue for, and the seconds to wait, of the milliseconds that are left. *)
Definition max_messages (cfg : SqsSourceConfig) (count : Z) : Z :=
  Z.max 1 (Z.min 10 (Z.min count (default 10 (max_number_of_messages cfg)))).
Definition wait_time (remaining_ms : Z) : Z := if remaining_ms <? 1000 then 1 else Z.min (remaining_ms / 1000) 20.

(** The share of the queue at [idx] in a batch: the remainder goes round with the cursor. *)
Definition sqs_queue_count (batch n cursor idx : nat) : nat :=
  batch / n + (if decide ((idx + n - cursor mod n) mod n < batch mod n)%nat then 1 else 0).

(** A request waits in the inbox of an actor; the read it belongs to is given by its number. *)
Record Req := mkReq { rq_round : nat; rq_count : nat }.
Record SqsActor := mkActor { a_buffered : list SqsMessage; a_inbox : list Req; a_failures : nat }.
Definition actor_new : SqsActor := mkActor [] [] 0.

(** The answer of an actor: cancelled, failed, or messages. *)
Inductive SqsResponse := RCancelled | RFailed | RMessages (ms : list SqsMessage).
Definition response_messages (r : SqsResponse) : list SqsMessage := match r with RMessages ms => ms | _ => [] end.

Definition channel_messages (c : list (string * SqsResponse)) : list SqsMessage := c ≫= fun x => response_messages x.2.

(** A read: it waits for answers, takes what else is there once it has messages, and is over when it
    will look no more. *)
Inductive Phase := Waiting | Draining | Over.
Record Round := mkRound {
  rd_id : nat;
  rd_expected : nat;
  rd_responded : nat;
  rd_messages : list SqsMessage;
  rd_all_cancelled : bool;
  rd_channel : list (string * SqsResponse);
  rd_phase : Phase
}.

(** [sq_received], [sq_returned], [sq_lost]: all messages received from SQS, returned by reads, and dropped
    with the channel of a read. *)
Record SqsSource := mkSqs {
  sq_actors : gmap string SqsActor;
  sq_cursor : nat;
  sq_terminal : option string;
  sq_round : option Round;
  sq_received : list SqsMessage;
  sq_returned : list SqsMessage;
  sq_lost : list SqsMessage
}.
Definition sqs_new : SqsSource := mkSqs ∅ 0 None None [] [] [].
Definition actor_of (s : SqsSource) (q : string) : SqsActor := default actor_new (sq_actors s !! q).

(** What the service answers to one receive. *)
Inductive Sdk := SdkMessages (ms : list SqsMessage) | SdkFails (e : string).

Section Reading.
Context (cfg : SqsSourceConfig) (batch_size : nat).
Let queues := queue_names cfg.

(** The requests of a read: a full inbox is passed over. *)
Definition ask (round cursor : nat) (acc : gmap string SqsActor * nat) (iq : nat * string) : gmap string SqsActor * nat :=
  let count := sqs_queue_count batch_size (length queues) cursor iq.1 in
  let a := default actor_new (acc.1 !! iq.2) in
  if decide (count = 0%nat) then acc
  else if decide (INBOX_SIZE <= length (a_inbox a))%nat then acc
  else (<[iq.2 := mkActor (a_buffered a) (a_inbox a ++ [mkReq round count]) (a_failures a)]> acc.1, S acc.2).
Definition ask_all (round cursor : nat) (actors : gmap string SqsActor) : gmap string SqsActor * nat :=
  foldl (ask round cursor) (actors, 0%nat) (zip (seq 0 (length queues)) queues).

(** [get_messages]: the answer, the failures in a row, and the error that ends the source. *)
Definition get_messages (cancelled : bool) (sdk : Sdk) (failures : nat) : SqsResponse * nat * option string :=
  if cancelled then (RCancelled, failures, None)
  else
    match sdk with
    | SdkMessages ms => (RMessages ms, 0%nat, None)
    | SdkFails e =>
        if decide (MAX_CONSECUTIVE_RECEIVE_FAILURES < S failures)%nat then (RFailed, S failures, Some e)
        else (RMessages [], S failures, None)
    end.

(** [collect_response]. *)
Definition collect (rd : Round) (r : SqsResponse) (channel : list (string * SqsResponse)) (phase : Phase) : Round :=
  mkRound (rd_id rd) (rd_expected rd) (S (rd_responded rd)) (rd_messages rd ++ response_messages r)
    (match r with RCancelled => rd_all_cancelled rd | _ => false end) channel phase.

(** The result of a read that is over; [None]: the end of the stream. *)
Definition read_result (rd : Round) (terminal : option string) : option (list SqsMessage + SqsError) :=
  match rd_messages rd with
  | [] =>
      match terminal with
      | Some e => Some (inr (SqsService e))
      | None =>
          if rd_all_cancelled rd && bool_decide (0 < rd_expected rd)%nat && bool_decide (rd_responded rd = rd_expected rd)
          then None else Some (inl [])
      end
  | ms => Some (inl ms)
  end.

Definition with_round (s : SqsSource) (r : option Round) : SqsSource :=
  mkSqs (sq_actors s) (sq_cursor s) (sq_terminal s) r (sq_received s) (sq_returned s) (sq_lost s).

Inductive SqsStep :=
  | SStart                                           (* a read begins *)
  | SServe (q : string) (cancelled : bool) (sdk : Sdk)  (* an actor handles the next request *)
  | SReceive                                         (* the read receives an answer *)
  | SDrain                                           (* the read looks for one more *)
  | STimeout                                         (* nothing came by the deadline *)
  | SReturn.                                         (* the read returns, its channel is dropped *)

(** Messages the reader did not take go to the front. *)
Definition restore_unclaimed (ms : list SqsMessage) (a : SqsActor) : SqsActor :=
  mkActor (ms ++ a_buffered a) (a_inbox a) (a_failures a).

(** The answer goes to the read if it still has its channel, else back to the front of the buffer. *)
Definition sqs_deliver (q : string) (round : nat) (r : SqsResponse) (a : SqsActor) (s : SqsSource) : SqsSource :=
  match sq_round s with
  | Some rd =>
      if decide (rd_id rd = round) then
        mkSqs (<[q := a]> (sq_actors s)) (sq_cursor s) (sq_terminal s)
          (Some (mkRound (rd_id rd) (rd_expected rd) (rd_responded rd) (rd_messages rd) (rd_all_cancelled rd)
                   (rd_channel rd ++ [(q, r)]) (rd_phase rd)))
          (sq_received s) (sq_returned s) (sq_lost s)
      else mkSqs (<[q := restore_unclaimed (response_messages r) a]> (sq_actors s))
             (sq_cursor s) (sq_terminal s) (sq_round s) (sq_received s) (sq_returned s) (sq_lost s)
  | None => mkSqs (<[q := restore_unclaimed (response_messages r) a]> (sq_actors s))
              (sq_cursor s) (sq_terminal s) None (sq_received s) (sq_returned s) (sq_lost s)
  end.

(** One step ([None]: not possible). The service gives messages of the queue, and not more than it was
    asked for. *)
Definition sqs_step (l : SqsStep) (s : SqsSource) : option SqsSource :=
  match l, sq_round s with
  | SStart, None =>
      match sq_terminal s with
      | Some _ => Some s
      | None =>
          let round := sq_cursor s in
          let (actors, expected) := ask_all round round (sq_actors s) in
          Some (mkSqs actors (S round) None
                  (Some (mkRound round expected 0 [] true [] (if decide (expected = 0%nat) then Over else Waiting)))
                  (sq_received s) (sq_returned s) (sq_lost s))
      end
  | SServe q cancelled sdk, _ =>
      let a := actor_of s q in
      match a_inbox a with
      | [] => None
      | req :: inbox =>
          match a_buffered a with
          | _ :: _ =>
              let k := rq_count req in
              Some (sqs_deliver q (rq_round req) (RMessages (take k (a_buffered a)))
                      (mkActor (drop k (a_buffered a)) inbox (a_failures a)) s)
          | [] =>
              let ms := match sdk with SdkMessages ms => if cancelled then [] else ms | SdkFails _ => [] end in
              if decide (Forall (fun m => sm_queue_name m = q) ms /\
                         Z.of_nat (length ms) <= max_messages cfg (Z.of_nat (rq_count req))) then
                let '(r, failures, e) := get_messages cancelled sdk (a_failures a) in
                Some (sqs_deliver q (rq_round req) r (mkActor [] inbox failures)
                        (mkSqs (sq_actors s) (sq_cursor s) (match sq_terminal s with Some t => Some t | None => e end)
                           (sq_round s) (sq_received s ++ ms) (sq_returned s) (sq_lost s)))
              else None
          end
      end
  | SReceive, Some rd =>
      match rd_phase rd, rd_channel rd with
      | Waiting, (_, r) :: channel =>
          let phase := match rd_messages rd ++ response_messages r with
                       | [] => if decide (S (rd_responded rd) = rd_expected rd) then Over else Waiting
                       | _ => Draining
                       end in
          Some (with_round s (Some (collect rd r channel phase)))
      | _, _ => None
      end
  | SDrain, Some rd =>
      match rd_phase rd, rd_channel rd with
      | Draining, (_, r) :: channel => Some (with_round s (Some (collect rd r channel Draining)))
      | Draining, [] =>
          Some (with_round s (Some (mkRound (rd_id rd) (rd_expected rd) (rd_responded rd) (rd_messages rd) (rd_all_cancelled rd) [] Over)))
      | _, _ => None
      end
  | STimeout, Some rd =>
      match rd_phase rd, rd_channel rd with
      | Waiting, [] =>
          Some (with_round s (Some (mkRound (rd_id rd) (rd_expected rd) (rd_responded rd) (rd_messages rd) (rd_all_cancelled rd) [] Over)))
      | _, _ => None
      end
  | SReturn, Some rd =>
      match rd_phase rd with
      | Over =>
          Some (mkSqs (sq_actors s) (sq_cursor s) (sq_terminal s) None (sq_received s) (sq_returned s ++ rd_messages rd)
                  (sq_lost s ++ channel_messages (rd_channel rd)))
      | _ => None
      end
  | _, _ => None
  end.
Fixpoint sqs_run (ls : list SqsStep) (s : SqsSource) : option SqsSource :=
  match ls with
  | [] => Some s
  | l :: ls => let? s := sqs_step l s in sqs_run ls s
  end.
End Reading.

(** * The split of a batch *)

Lemma mod_inj_window n lo x y :
  (lo <= x < lo + n)%nat -> (lo <= y < lo + n)%nat -> (x mod n = y mod n)%nat -> x = y.
Proof.
  intros Hx Hy E. pose proof (Nat.div_mod_eq x n) as Dx. pose proof (Nat.div_mod_eq y n) as Dy. rewrite E in Dx.
  generalize dependent (y mod n)%nat. generalize dependent (x / n)%nat. generalize dependent (y / n)%nat. intros q2 q1 r _ Dx Dy.
  assert (q1 = q2) by nia. subst. lia.
Qed.
Lemma rotation n k : (k <= n)%nat -> (fun i => (i + k) mod n)%nat <$> seq 0 n ≡ₚ seq 0 n.
Proof.
  intros Hk. destruct (decide (n = 0%nat)) as [->|Hn]; [done|].
  apply submseteq_length_Permutation; [|by rewrite length_fmap]. apply NoDup_submseteq.
  - apply NoDup_fmap_2_strong; [|apply NoDup_seq]. intros x y Hx Hy E. apply elem_of_seq in Hx. apply elem_of_seq in Hy.
    apply (mod_inj_window n k) in E; lia.
  - intros x Hx. apply list_elem_of_fmap in Hx as (i & -> & Hi). apply elem_of_seq. split; [lia|].
    apply Nat.mod_upper_bound. lia.
Qed.

Lemma sum_below n r : (r <= n)%nat -> sum_list_with (fun i => if decide (i < r)%nat then 1 else 0)%nat (seq 0 n) = r.
Proof.
  intros Hr. replace n with (r + (n - r))%nat by lia. rewrite seq_app, sum_list_with_app.
  assert (H1 : forall l, Forall (fun i => (i < r)%nat) l -> sum_list_with (fun i => if decide (i < r)%nat then 1 else 0)%nat l = length l).
  { induction 1 as [|i l Hi Hl IH]; [done|]. cbn. rewrite decide_True by done. by rewrite IH. }
  assert (H2 : forall l, Forall (fun i => (r <= i)%nat) l -> sum_list_with (fun i => if decide (i < r)%nat then 1 else 0)%nat l = 0%nat).
  { induction 1 as [|i l Hi Hl IH]; [done|]. cbn. rewrite decide_False by lia. by rewrite IH. }
  rewrite H1, H2, length_seq; [lia|..]; apply Forall_seq; lia.
Qed.

Lemma sum_list_with_fmap {A B} (f : A -> B) (g : B -> nat) l : sum_list_with g (f <$> l) = sum_list_with (fun x => g (f x)) l.
Proof. induction l as [|x l IH]; [done|]. cbn. by rewrite IH. Qed.
Lemma sum_list_with_ext {A} (f g : A -> nat) l : (forall x, f x = g x) -> sum_list_with f l = sum_list_with g l.
Proof. intros E. induction l as [|x l IH]; [done|]. cbn. by rewrite E, IH. Qed.
Lemma sum_list_with_const_add {A} (c : nat) (g : A -> nat) l :
  sum_list_with (fun x => c + g x)%nat l = (length l * c + sum_list_with g l)%nat.
Proof. induction l as [|x l IH]; [done|]. cbn. rewrite IH. lia. Qed.

(** The shares of the queues make up the batch. *)
Lemma queue_count_sum batch n cursor :
  (0 < n)%nat -> sum_list_with (sqs_queue_count batch n cursor) (seq 0 n) = batch.
Proof.
  intros Hn. unfold sqs_queue_count. rewrite sum_list_with_const_add, length_seq.
  set (k := (n - cursor mod n)%nat). assert (Hk : (k <= n)%nat) by (unfold k; lia).
  assert (Hc : (cursor mod n < n)%nat) by (apply Nat.mod_upper_bound; lia).
  replace (sum_list_with _ (seq 0 n)) with
    (sum_list_with (fun i => if decide (i < batch mod n)%nat then 1 else 0)%nat ((fun i => (i + k) mod n)%nat <$> seq 0 n)).
  2:{ rewrite sum_list_with_fmap. apply sum_list_with_ext. intros i. by replace (i + n - cursor mod n)%nat with (i + k)%nat by (unfold k; lia). }
  rewrite (rotation n k Hk). rewrite sum_below by (apply Nat.lt_le_incl, Nat.mod_upper_bound; lia).
  pose proof (Nat.div_mod_eq batch n). lia.
Qed.

(** Over as many reads as there are queues, every queue has the same share. *)
Lemma queue_count_fair batch n cursor idx :
  (idx < n)%nat -> sum_list_with (fun c => sqs_queue_count batch n c idx) (seq cursor n) = batch.
Proof.
  intros Hi. unfold sqs_queue_count. rewrite sum_list_with_const_add, length_seq.
  assert (E : sum_list_with (fun c => if decide ((idx + n - c mod n) mod n < batch mod n)%nat then 1 else 0)%nat (seq cursor n) =
    sum_list_with (fun i => if decide (i < batch mod n)%nat then 1 else 0)%nat ((fun c => (idx + n - c mod n) mod n)%nat <$> seq cursor n)).
  { by rewrite sum_list_with_fmap. }
  rewrite E. assert (Hp : (fun c => (idx + n - c mod n) mod n)%nat <$> seq cursor n ≡ₚ seq 0 n).
  { apply submseteq_length_Permutation; [|by rewrite length_fmap, !length_seq]. apply NoDup_submseteq.
    - apply NoDup_fmap_2_strong; [|apply NoDup_seq]. intros x y Hx Hy Exy. apply elem_of_seq in Hx. apply elem_of_seq in Hy.
      assert (H1 : (x mod n < n)%nat) by (apply Nat.mod_upper_bound; lia). assert (H2 : (y mod n < n)%nat) by (apply Nat.mod_upper_bound; lia).
      apply (mod_inj_window n cursor); [done..|]. apply (mod_inj_window n (S idx)) in Exy; lia.
    - intros x Hx. apply list_elem_of_fmap in Hx as (c & -> & Hc). apply elem_of_seq. split; [lia|]. apply Nat.mod_upper_bound. lia. }
  rewrite Hp, sum_below by (apply Nat.lt_le_incl, Nat.mod_upper_bound; lia).
  pose proof (Nat.div_mod_eq batch n). lia.
Qed.

Lemma sum_update_add (qs : list string) (f f' : string -> nat) q c :
  NoDup qs -> (forall q', q' <> q -> f' q' = f q') -> (f' q <= f q + c)%nat ->
  (sum_list_with f' qs <= sum_list_with f qs + c)%nat.
Proof.
  intros Hn Ho Hq. induction Hn as [|x qs Hx Hn IH]; cbn; [lia|]. destruct (decide (x = q)) as [->|Hne].
  - assert (E : sum_list_with f' qs = sum_list_with f qs); [|lia]. clear IH. induction qs as [|y qs IHq]; [done|]. cbn.
    rewrite Ho by set_solver. apply NoDup_cons in Hn as [_ Hn]. rewrite IHq; [done|set_solver|done].
  - rewrite Ho by done. lia.
Qed.
Lemma sum_update_sub (qs : list string) (f f' : string -> nat) q c :
  NoDup qs -> q ∈ qs -> (forall q', q' <> q -> f' q' = f q') -> (f' q + c <= f q)%nat ->
  (sum_list_with f' qs + c <= sum_list_with f qs)%nat.
Proof.
  intros Hn Hin Ho Hq. induction Hn as [|x qs Hx Hn IH]; [by apply not_elem_of_nil in Hin|]. cbn. destruct (decide (x = q)) as [->|Hne].
  - assert (E : sum_list_with f' qs = sum_list_with f qs); [|lia]. clear IH Hin. induction qs as [|y qs IHq]; [done|]. cbn.
    rewrite Ho by set_solver. apply NoDup_cons in Hn as [_ Hn]. rewrite IHq; [done|set_solver|done].
  - rewrite Ho by done. apply elem_of_cons in Hin as [->|Hin]; [done|]. specialize (IH Hin). lia.
Qed.

(** * No message is lost or reordered *)

Section Order.
Context (cfg : SqsSourceConfig) (batch_size : nat).
Context (names_ok : NoDup (queue_names cfg)).
Let queues := queue_names cfg.

Definition of_queue (q : string) (l : list SqsMessage) : list SqsMessage := filter (fun m => sm_queue_name m = q) l.
(** What the present read holds, taken or in its channel. *)
Definition in_read (s : SqsSource) : list SqsMessage :=
  match sq_round s with Some rd => rd_messages rd ++ channel_messages (rd_channel rd) | None => [] end.
(** What the requests of a read in an inbox ask for. *)
Definition asked (round : nat) (inbox : list Req) : nat :=
  sum_list_with (fun r => if decide (rq_round r = round) then rq_count r else 0)%nat inbox.
Definition outstanding (round : nat) (actors : gmap string SqsActor) : nat :=
  sum_list_with (fun q => asked round (a_inbox (default actor_new (actors !! q)))) queues.
(** A request of an earlier read, for at least one message. *)
Definition req_ok (cursor : nat) (r : Req) : Prop := (rq_round r < cursor /\ 1 <= rq_count r)%nat.

Record sinv (s : SqsSource) : Prop := {
  si_order : sq_lost s = [] -> forall q, of_queue q (sq_received s) = of_queue q (sq_returned s ++ in_read s) ++ a_buffered (actor_of s q);
  si_count : forall q, of_queue q (sq_received s) ≡ₚ of_queue q (sq_returned s ++ sq_lost s ++ in_read s) ++ a_buffered (actor_of s q);
  si_names : forall q, Forall (fun m => sm_queue_name m = q) (a_buffered (actor_of s q));
  si_inbox : forall q, Forall (req_ok (sq_cursor s)) (a_inbox (actor_of s q)) /\ (a_inbox (actor_of s q) <> [] -> q ∈ queues);
  si_bound : forall rd, sq_round s = Some rd ->
    (rd_id rd < sq_cursor s)%nat /\ (length (in_read s) + outstanding (rd_id rd) (sq_actors s) <= batch_size)%nat
}.

Lemma sinv_new : sinv sqs_new.
Proof. by split. Qed.

Lemma of_queue_app q l k : of_queue q (l ++ k) = of_queue q l ++ of_queue q k.
Proof. apply filter_app. Qed.
Lemma of_queue_all q l : Forall (fun m => sm_queue_name m = q) l -> of_queue q l = l.
Proof. unfold of_queue. induction 1 as [|m l Hm Hl IH]; [done|]. rewrite filter_cons_True by done. by rewrite IH. Qed.
Lemma of_queue_none q q' l : q <> q' -> Forall (fun m => sm_queue_name m = q') l -> of_queue q l = [].
Proof. unfold of_queue. intros Hne. induction 1 as [|m l Hm Hl IH]; [done|]. rewrite filter_cons_False by congruence. done. Qed.
Lemma channel_messages_app c d : channel_messages (c ++ d) = channel_messages c ++ channel_messages d.
Proof. unfold channel_messages. apply bind_app. Qed.

(** ** A read begins *)

Lemma asked_fresh round inbox : Forall (req_ok round) inbox -> asked round inbox = 0%nat.
Proof. unfold asked. induction 1 as [|r l [Hr _] Hl IH]; [done|]. cbn. rewrite decide_False by lia. done. Qed.

Lemma ask_effect round cursor acc iq :
  let acc' := ask cfg batch_size round cursor acc iq in
  let c := sqs_queue_count batch_size (length queues) cursor iq.1 in
  (forall q, a_buffered (default actor_new (acc'.1 !! q)) = a_buffered (default actor_new (acc.1 !! q))) /\
  (forall q, q <> iq.2 -> acc'.1 !! q = acc.1 !! q) /\
  (a_inbox (default actor_new (acc'.1 !! iq.2)) = a_inbox (default actor_new (acc.1 !! iq.2)) \/
   (1 <= c)%nat /\ a_inbox (default actor_new (acc'.1 !! iq.2)) = a_inbox (default actor_new (acc.1 !! iq.2)) ++ [mkReq round c]).
Proof.
  unfold ask. repeat case_decide; cbn; [by auto..|]. split_and!.
  - intros q. destruct (decide (q = iq.2)) as [->|]; [by rewrite lookup_insert_eq|by rewrite lookup_insert_ne].
  - intros q Hq. by rewrite lookup_insert_ne.
  - right. split; [unfold queues in *; lia|]. by rewrite lookup_insert_eq.
Qed.

Lemma ask_fold round cursor l acc :
  Forall (fun iq => iq.2 ∈ queues) l ->
  let acc' := foldl (ask cfg batch_size round cursor) acc l in
  (forall q, a_buffered (default actor_new (acc'.1 !! q)) = a_buffered (default actor_new (acc.1 !! q))) /\
  (forall q, Forall (req_ok (S round)) (a_inbox (default actor_new (acc.1 !! q))) /\ (a_inbox (default actor_new (acc.1 !! q)) <> [] -> q ∈ queues) ->
     Forall (req_ok (S round)) (a_inbox (default actor_new (acc'.1 !! q))) /\ (a_inbox (default actor_new (acc'.1 !! q)) <> [] -> q ∈ queues)) /\
  (outstanding round acc'.1 <= outstanding round acc.1 +
     sum_list_with (fun iq => sqs_queue_count batch_size (length queues) cursor iq.1) l)%nat.
Proof.
  revert acc. induction l as [|iq l IH]; intros acc Hl; [cbn; split_and!; [done|done|lia]|].
  apply Forall_cons in Hl as [Hiq Hl]. cbn [foldl sum_list_with].
  destruct (ask_effect round cursor acc iq) as (E1 & E2 & E3). specialize (IH (ask cfg batch_size round cursor acc iq) Hl) as (I1 & I2 & I3).
  split_and!.
  - intros q. by rewrite I1.
  - intros q Hq. apply I2. destruct (decide (q = iq.2)) as [->|Hne]; [|by rewrite E2].
    destruct E3 as [->|[Hc ->]]; [done|]. split; [|done]. apply Forall_app. split; [apply Hq|]. constructor; [split; cbn; lia|constructor].
  - etrans; [exact I3|]. rewrite Nat.add_assoc. apply Nat.add_le_mono_r. unfold outstanding.
    apply (sum_update_add _ _ _ iq.2); [done| |].
    + intros q' Hq'. by rewrite E2.
    + destruct E3 as [->|[_ ->]]; [lia|]. unfold asked. rewrite sum_list_with_app. cbn. rewrite decide_True by done. lia.
Qed.

(** ** An actor answers *)

Lemma actor_insert (m : gmap string SqsActor) q a q' :
  default actor_new (<[q := a]> m !! q') = if decide (q' = q) then a else default actor_new (m !! q').
Proof. case_decide; [subst; by rewrite lookup_insert_eq|by rewrite lookup_insert_ne]. Qed.

(** With the request out of its inbox, what is asked for by the others. *)
Lemma outstanding_pop round m q a req inbox :
  a_inbox (default actor_new (m !! q)) = req :: inbox -> q ∈ queues -> a_inbox a = inbox ->
  (outstanding round (<[q := a]> m) + (if decide (rq_round req = round) then rq_count req else 0) <= outstanding round m)%nat.
Proof.
  intros Hi Hq Ha. unfold outstanding. apply (sum_update_sub _ _ _ q); [done|done| |].
  - intros q' Hne. by rewrite actor_insert, decide_False.
  - rewrite actor_insert, decide_True by done. rewrite Ha, Hi. unfold asked. cbn. lia.
Qed.

Lemma sinv_deliver s q r buf req inbox fl :
  sinv s -> a_buffered (actor_of s q) = response_messages r ++ buf -> a_inbox (actor_of s q) = req :: inbox ->
  (length (response_messages r) <= rq_count req)%nat ->
  sinv (sqs_deliver q (rq_round req) r (mkActor buf inbox fl) s).
Proof.
  intros [Ho Hc Hn Hi Hb] Hbuf Hin Hlen. set (ms := response_messages r) in *.
  assert (Hms : Forall (fun m => sm_queue_name m = q) ms /\ Forall (fun m => sm_queue_name m = q) buf).
  { apply Forall_app. rewrite <- Hbuf. apply Hn. }
  destruct Hms as [Hms Hbq]. pose proof (Hi q) as [Hreqs Hq]. rewrite Hin in Hreqs, Hq. apply Forall_cons in Hreqs as [_ Hreqs].
  specialize (Hq ltac:(done)).
  assert (Hi' : forall x q', a_inbox x = inbox ->
    Forall (req_ok (sq_cursor s)) (a_inbox (default actor_new (<[q := x]> (sq_actors s) !! q'))) /\
    (a_inbox (default actor_new (<[q := x]> (sq_actors s) !! q')) <> [] -> q' ∈ queues)).
  { intros x q' Hx. rewrite actor_insert. case_decide; [subst q'; by rewrite Hx|apply Hi]. }
  assert (Hkeep : forall rd', sq_round s = rd' -> (match rd' with Some rd => rd_id rd <> rq_round req | None => True end) ->
    sinv (mkSqs (<[q := mkActor (ms ++ buf) inbox fl]> (sq_actors s)) (sq_cursor s) (sq_terminal s) rd' (sq_received s) (sq_returned s) (sq_lost s))).
  { intros rd' Hrd Hid. assert (Hb0 : forall q', a_buffered (default actor_new (<[q := mkActor (ms ++ buf) inbox fl]> (sq_actors s) !! q')) = a_buffered (actor_of s q')).
    { intros q'. rewrite actor_insert. case_decide; [subst; done|done]. }
    split; unfold actor_of, in_read in *; cbn in *; rewrite <- ?Hrd in *.
    - intros Hl q'. rewrite Hb0. by apply Ho.
    - intros q'. rewrite Hb0. apply Hc.
    - intros q'. rewrite Hb0. apply Hn.
    - intros q'. by apply Hi'.
    - intros rd Erd. destruct (Hb rd Erd) as [H1 H2]. split; [done|].
      pose proof (outstanding_pop (rd_id rd) (sq_actors s) q (mkActor (ms ++ buf) inbox fl) req inbox Hin Hq eq_refl) as Hp. lia. }
  unfold sqs_deliver. fold ms. cbn [a_buffered a_inbox a_failures].
  destruct (sq_round s) as [rd|] eqn:Erd; [|by apply (Hkeep None)].
  case_decide as Hid; [|by apply (Hkeep (Some rd))].
  destruct (Hb rd eq_refl) as [H1 H2].
  assert (Hread : in_read (mkSqs (<[q := mkActor buf inbox fl]> (sq_actors s)) (sq_cursor s) (sq_terminal s)
    (Some (mkRound (rd_id rd) (rd_expected rd) (rd_responded rd) (rd_messages rd) (rd_all_cancelled rd) (rd_channel rd ++ [(q, r)]) (rd_phase rd)))
    (sq_received s) (sq_returned s) (sq_lost s)) = in_read s ++ ms).
  { unfold in_read. rewrite Erd. cbn. rewrite channel_messages_app, <- app_assoc. unfold channel_messages at 2. cbn. by rewrite app_nil_r. }
  assert (Hbuf' : forall q', of_queue q' ms ++ a_buffered (default actor_new (<[q := mkActor buf inbox fl]> (sq_actors s) !! q')) = a_buffered (actor_of s q')).
  { intros q'. rewrite actor_insert. case_decide as E; [subst q'; cbn; by rewrite of_queue_all|]. by rewrite (of_queue_none q' q). }
  split; rewrite ?Hread; cbn [sq_lost sq_received sq_returned sq_cursor sq_round sq_actors]; unfold actor_of; cbn [sq_actors].
  - intros Hl q'. rewrite (Ho Hl q'), <- Hbuf', !of_queue_app, <- !app_assoc. done.
  - intros q'. rewrite (Hc q'), <- Hbuf', !of_queue_app, <- !app_assoc. done.
  - intros q'. rewrite actor_insert. case_decide; [by subst|apply Hn].
  - intros q'. by apply Hi'.
  - intros rd' [= <-]. cbn. split; [done|]. rewrite length_app.
    pose proof (outstanding_pop (rd_id rd) (sq_actors s) q (mkActor buf inbox fl) req inbox Hin Hq eq_refl) as Hp.
    rewrite decide_True in Hp by done. lia.
Qed.

(** The service has given messages to an actor without any. *)
Lemma sinv_received s q ms fl term :
  sinv s -> a_buffered (actor_of s q) = [] -> Forall (fun m => sm_queue_name m = q) ms ->
  sinv (mkSqs (<[q := mkActor ms (a_inbox (actor_of s q)) fl]> (sq_actors s)) (sq_cursor s) term (sq_round s)
          (sq_received s ++ ms) (sq_returned s) (sq_lost s)).
Proof.
  intros [Ho Hc Hn Hi Hb] He Hms.
  assert (Hbuf : forall q', a_buffered (actor_of s q') ++ of_queue q' ms =
    a_buffered (default actor_new (<[q := mkActor ms (a_inbox (actor_of s q)) fl]> (sq_actors s) !! q'))).
  { intros q'. rewrite actor_insert. case_decide as E; [subst q'; cbn; by rewrite He, of_queue_all|].
    rewrite (of_queue_none q' q) by done. by rewrite app_nil_r. }
  assert (Hin : forall q', a_inbox (default actor_new (<[q := mkActor ms (a_inbox (actor_of s q)) fl]> (sq_actors s) !! q')) = a_inbox (actor_of s q')).
  { intros q'. rewrite actor_insert. case_decide; [by subst|done]. }
  split; cbn [sq_lost sq_received sq_returned sq_cursor sq_round sq_actors]; unfold actor_of; cbn [sq_actors].
  - intros Hl q'. rewrite <- Hbuf, of_queue_app, (Ho Hl q'), <- app_assoc. done.
  - intros q'. rewrite <- Hbuf, of_queue_app, (Hc q'), <- app_assoc. done.
  - intros q'. rewrite <- Hbuf. apply Forall_app. split; [apply Hn|]. apply Forall_forall. intros m [Hm _]%list_elem_of_filter. done.
  - intros q'. rewrite Hin. apply Hi.
  - intros rd Hrd. destruct (Hb rd Hrd) as [H1 H2]. split; [done|]. unfold in_read in *. cbn.
    assert (E : outstanding (rd_id rd) (<[q := mkActor ms (a_inbox (actor_of s q)) fl]> (sq_actors s)) = outstanding (rd_id rd) (sq_actors s)).
    { unfold outstanding. apply sum_list_with_ext. intros q'. by rewrite Hin. }
    unfold actor_of in E. by rewrite E.
Qed.

(** ** The steps *)

(** The read changes, but what it holds and what it asked for does not. *)
Lemma sinv_round s rd rd' :
  sinv s -> sq_round s = Some rd -> rd_id rd' = rd_id rd ->
  rd_messages rd' ++ channel_messages (rd_channel rd') = rd_messages rd ++ channel_messages (rd_channel rd) ->
  sinv (with_round s (Some rd')).
Proof.
  intros [Ho Hc Hn Hi Hb] Hrd Hid He.
  assert (E : in_read (with_round s (Some rd')) = in_read s) by (unfold in_read; cbn; by rewrite Hrd, He).
  split; rewrite ?E; [exact Ho|exact Hc|exact Hn|exact Hi|]. intros x [= <-]. rewrite Hid. by apply Hb.
Qed.

Lemma zip_seq_snd (qs : list string) i n : Forall (fun iq : nat * string => iq.2 ∈ qs) (zip (seq i n) qs).
Proof. apply Forall_forall. intros [k q] H%elem_of_zip_r. done. Qed.
Lemma zip_seq_sum (f : nat -> nat) (qs : list string) i :
  sum_list_with (fun iq : nat * string => f iq.1) (zip (seq i (length qs)) qs) = sum_list_with f (seq i (length qs)).
Proof. revert i. induction qs as [|q qs IH]; intros i; [done|]. cbn. by rewrite IH. Qed.

Lemma sinv_start s : sinv s -> sq_round s = None -> queues <> [] ->
  let r := ask_all cfg batch_size (sq_cursor s) (sq_cursor s) (sq_actors s) in
  forall phase, sinv (mkSqs r.1 (S (sq_cursor s)) None (Some (mkRound (sq_cursor s) r.2 0 [] true [] phase)) (sq_received s) (sq_returned s) (sq_lost s)).
Proof.
  intros [Ho Hc Hn Hi Hb] Hr Hq r phase. unfold ask_all in r.
  destruct (ask_fold (sq_cursor s) (sq_cursor s) (zip (seq 0 (length queues)) queues) (sq_actors s, 0%nat) (zip_seq_snd _ _ _)) as (F1 & F2 & F3).
  change (foldl _ _ _) with r in F1, F2, F3. cbn [fst] in F1, F2, F3.
  assert (E : in_read s = []) by (unfold in_read; by rewrite Hr). rewrite E in Ho, Hc. rewrite !app_nil_r in Hc.
  split; unfold in_read; cbn [sq_lost sq_received sq_returned sq_cursor sq_round sq_actors rd_messages rd_channel]; unfold actor_of; cbn [sq_actors].
  - intros Hl q. rewrite F1. by apply Ho.
  - intros q. rewrite F1. cbn. rewrite app_nil_r. apply Hc.
  - intros q. rewrite F1. apply Hn.
  - intros q. apply F2. destruct (Hi q) as [H1 H2]. split; [|done]. eapply Forall_impl; [exact H1|]. unfold req_ok. intros x ?. lia.
  - intros rd [= <-]. cbn. split; [lia|]. rewrite zip_seq_sum, queue_count_sum in F3 by (destruct queues; [done|cbn; lia]).
    assert (E0 : outstanding (sq_cursor s) (sq_actors s) = 0%nat); [|lia].
    unfold outstanding. assert (Hz : forall l, sum_list_with (fun q => asked (sq_cursor s) (a_inbox (default actor_new (sq_actors s !! q)))) l = 0%nat).
    { induction l as [|q l IH]; [done|]. cbn. rewrite IH, asked_fresh; [done|]. apply (Hi q). }
    apply Hz.
Qed.

Lemma sinv_step l s s' : queues <> [] -> sinv s -> sqs_step cfg batch_size l s = Some s' -> sinv s'.
Proof.
  intros Hq Hs Hstep. destruct l as [|q cancelled sdk| | | |]; cbn in Hstep.
  - destruct (sq_round s) eqn:Hr; [done|]. destruct (sq_terminal s); [by injection Hstep as <-|].
    pose proof (sinv_start s Hs Hr Hq) as Hst. cbn in Hst. destruct (ask_all _ _ _ _ _) as [actors expected]. injection Hstep as <-. apply Hst.
  - destruct (a_inbox (actor_of s q)) as [|req inbox] eqn:Hin; [done|]. destruct (a_buffered (actor_of s q)) as [|m ms] eqn:Hbuf.
    + case_decide as Hms; [|done]. destruct Hms as [Hms Hmax].
      set (ms := match sdk with SdkMessages ms => if cancelled then [] else ms | SdkFails _ => [] end) in *.
      destruct (get_messages cancelled sdk (a_failures (actor_of s q))) as [[r failures] e] eqn:Eg.
      assert (Hr : response_messages r = ms).
      { unfold get_messages in Eg. unfold ms. destruct cancelled, sdk; repeat case_decide; by injection Eg as <- <- <-. }
      injection Hstep as <-. destruct (si_inbox _ Hs q) as [Hreqs _]. rewrite Hin in Hreqs. apply Forall_cons in Hreqs as [[_ Hc] _].
      assert (Hmx : (length ms <= rq_count req)%nat) by (unfold max_messages in Hmax; lia).
      set (term := match sq_terminal s with Some t => Some t | None => e end).
      pose proof (sinv_received s q ms failures term Hs Hbuf Hms) as H1.
      set (s1 := mkSqs (<[q := _]> (sq_actors s)) _ term _ _ _ _) in H1.
      assert (Ha : actor_of s1 q = mkActor ms (req :: inbox) failures) by (unfold actor_of, s1; cbn; by rewrite lookup_insert_eq, <- Hin).
      pose proof (sinv_deliver s1 q r [] req inbox failures H1) as H2.
      rewrite Ha, Hr, app_nil_r in H2. specialize (H2 eq_refl eq_refl Hmx).
      unfold sqs_deliver in H2 |- *. unfold s1 in H2. cbn [sq_round sq_actors sq_cursor sq_terminal sq_received sq_returned sq_lost] in H2 |- *.
      destruct (sq_round s); [case_decide|]; by rewrite insert_insert_eq in H2.
    + injection Hstep as <-. rewrite <- Hbuf in *.
      apply (sinv_deliver s q (RMessages (take (rq_count req) (a_buffered (actor_of s q))))); [done| |done|].
      * cbn. by rewrite take_drop.
      * cbn. rewrite length_take. lia.
  - destruct (sq_round s) as [rd|] eqn:Hr; [|done]. destruct (rd_phase rd); [|done|done]. destruct (rd_channel rd) as [|[q r] ch] eqn:Hch; [done|].
    injection Hstep as <-. apply (sinv_round s rd); [done|done|done|]. cbn. rewrite Hch. by rewrite <- app_assoc.
  - destruct (sq_round s) as [rd|] eqn:Hr; [|done]. destruct (rd_phase rd); [done| |done]. destruct (rd_channel rd) as [|[q r] ch] eqn:Hch;
      injection Hstep as <-; apply (sinv_round s rd); try done; cbn; rewrite Hch; [done|]. by rewrite <- app_assoc.
  - destruct (sq_round s) as [rd|] eqn:Hr; [|done]. destruct (rd_phase rd); [|done|done]. destruct (rd_channel rd) as [|[q r] ch] eqn:Hch; [|done].
    injection Hstep as <-. apply (sinv_round s rd); try done. cbn. by rewrite Hch.
  - destruct (sq_round s) as [rd|] eqn:Hr; [|done]. destruct (rd_phase rd); [done|done|]. injection Hstep as <-.
    destruct Hs as [Ho Hc Hn Hi Hb]. unfold in_read in *. rewrite Hr in *.
    split; cbn [sq_lost sq_received sq_returned sq_cursor sq_round sq_actors]; unfold actor_of; cbn [sq_actors].
    + intros [Hl Hch]%app_nil q. rewrite app_nil_r. rewrite Hch, app_nil_r in Ho. by apply Ho.
    + intros q. rewrite app_nil_r, (Hc q). apply Permutation_app; [|done]. rewrite !of_queue_app.
      rewrite <- !app_assoc. apply Permutation_app_head. rewrite app_assoc. rewrite (Permutation_app_comm (of_queue q (sq_lost s))). by rewrite <- app_assoc.
    + exact Hn.
    + exact Hi.
    + done.
Qed.
Lemma sinv_run ls s s' : queues <> [] -> sinv s -> sqs_run cfg batch_size ls s = Some s' -> sinv s'.
Proof.
  intros Hq. revert s. induction ls as [|l ls IH]; intros s Hs Hr; cbn [sqs_run] in Hr; [by injection Hr as <-|].
  destruct (sqs_step cfg batch_size l s) as [s1|] eqn:E; [|done]. eapply IH; [|done]. by eapply sinv_step.
Qed.
End Order.

Lemma check_names_NoDup seen names :
  check_names seen names = None -> NoDup names /\ Forall (fun n => n ∉ seen) names.
Proof.
  revert seen. induction names as [|n names IH]; intros seen Hc; [split; constructor|]. cbn [check_names] in Hc.
  repeat case_decide; try done. destruct (IH _ Hc) as [Hn Hs]. split.
  - constructor; [|done]. intros Hin. rewrite Forall_forall in Hs. specialize (Hs n Hin). set_solver.
  - constructor; [done|]. eapply Forall_impl; [exact Hs|]. set_solver.
Qed.
Lemma sqs_check_queues cfg n : sqs_check_config cfg = inl n -> NoDup (queue_names cfg) /\ queue_names cfg <> [].
Proof.
  unfold sqs_check_config. case_decide; [done|]. destruct (check_names [] (queue_names cfg)) eqn:E; [done|]. intros _.
  by apply check_names_NoDup in E as [? _].
Qed.

(** An acknowledgement finds the queue and the handle of its message. *)
Lemma decode_encode queue handle :
  lacks colon queue -> queue <> "" -> handle <> "" -> utf8_valid (encode_offset queue handle) = true ->
  decode_offset (encode_offset queue handle) = inl (queue, handle).
Proof.
  intros Hl Hq Hh Hu. unfold decode_offset. rewrite Hu. cbn [negb]. unfold encode_offset.
  change (queue +:+ ":" +:+ handle) with (queue +:+ String colon handle). rewrite find_cut_app by done.
  by rewrite !decide_False.
Qed.

(** The groups that are deleted are the handles, ten at a time. *)
Lemma chunks_concat {A} fuel n (l : list A) : (0 < n)%nat -> (length l <= fuel)%nat -> concat (chunks fuel n l) = l /\ Forall (fun c => (length c <= n)%nat) (chunks fuel n l).
Proof.
  intros Hn. revert l. induction fuel as [|fuel IH]; intros l Hl; [destruct l; [split; constructor|cbn in Hl; lia]|].
  destruct l as [|x l]; [split; constructor|]. change (chunks (S fuel) n (x :: l)) with (take n (x :: l) :: chunks fuel n (drop n (x :: l))).
  destruct (IH (drop n (x :: l))) as [E F]; [rewrite length_drop; cbn in *; lia|]. split.
  - cbn [concat]. rewrite E. apply take_drop.
  - constructor; [|done]. rewrite length_take. lia.
Qed.

(** * Acknowledging what was read *)

Lemma group_lookup {A} (offs : list (string * A)) q :
  default [] (group_by_queue offs !! q) = (filter (fun x => x.1 = q) offs).*2.
Proof.
  unfold group_by_queue. assert (H : forall (m : gmap string (list A)),
    default [] (foldl (fun m x => <[x.1 := default [] (m !! x.1) ++ [x.2]]> m) m offs !! q) = default [] (m !! q) ++ (filter (fun x => x.1 = q) offs).*2).
  { induction offs as [|[q' x] offs IH]; intros m; cbn [foldl fst snd]; [by rewrite filter_nil, app_nil_r|].
    rewrite IH. destruct (decide (q' = q)) as [->|Hq].
    - rewrite lookup_insert_eq, filter_cons_True by done. cbn. by rewrite <- app_assoc.
    - rewrite lookup_insert_ne, filter_cons_False by done. done. }
  rewrite H. by rewrite lookup_empty.
Qed.
Lemma group_keys {A} (offs : list (string * A)) q l : group_by_queue offs !! q = Some l -> q ∈ offs.*1 /\ Forall (fun x => x ∈ offs.*2) l.
Proof.
  intros Hq. pose proof (group_lookup offs q) as E. rewrite Hq in E. cbn in E. subst l. split.
  - destruct (decide (q ∈ offs.*1)) as [|Hn]; [done|exfalso]. revert Hq. unfold group_by_queue.
    enough (forall m : gmap string (list A), m !! q = None -> foldl (fun m x => <[x.1 := default [] (m !! x.1) ++ [x.2]]> m) m offs !! q = None) as H
      by (rewrite H; [done|apply lookup_empty]).
    induction offs as [|[q' x] offs IH]; intros m Hm; [done|]. cbn in *. apply IH; [set_solver|]. rewrite lookup_insert_ne; set_solver.
  - apply Forall_forall. intros x (y & -> & Hy)%list_elem_of_fmap. apply list_elem_of_filter in Hy as [_ Hy].
    by apply list_elem_of_fmap_2.
Qed.

Lemma delete_all handles : Forall (fun h => utf8_valid h = true) handles -> delete_messages handles (fun _ => true) = (handles, None).
Proof.
  intros Hu. unfold delete_messages. assert (E : forallb utf8_valid handles = true) by (induction Hu as [|h l Hh Hu IH]; cbn; [done|by rewrite Hh]). rewrite E.
  assert (H : forall bs, delete_chunks bs (fun _ => true) = (concat bs, None)) by (induction bs as [|b bs IH]; cbn; [done|by rewrite IH]).
  rewrite H. f_equal. by apply chunks_concat; lia.
Qed.

Definition sqs_readable (queues : list string) (m : SqsMessage) : Prop :=
  sm_queue_name m ∈ queues /\ lacks colon (sm_queue_name m) /\ sm_queue_name m <> "" /\ sm_offset m <> "" /\
  utf8_valid (sm_offset m) = true /\ utf8_valid (encode_offset (sm_queue_name m) (sm_offset m)) = true.

(** The offsets of messages read lead back to their queues and handles: acknowledging them deletes, in each
    queue and in the order given, exactly the handles of the messages of that queue. *)
Lemma ack_deletes_handles queues vertex_name replica (ms : list SqsMessage) order :
  Forall (sqs_readable queues) ms ->
  exists offs, decode_offsets (m_offset <$> (sqs_into_message vertex_name replica <$> ms)) = inl offs /\
  (order ≡ₚ map_to_list (group_by_queue offs) -> ack_offsets queues order (fun _ _ => true) = (order, None)) /\
  forall q, default [] (group_by_queue offs !! q) = sm_offset <$> of_queue q ms.
Proof.
  intros Hm. exists ((fun m => (sm_queue_name m, sm_offset m)) <$> ms). split_and!.
  - induction Hm as [|m ms (_ & H1 & H2 & H3 & _ & H4) Hm IH]; [done|]. cbn. rewrite decode_encode by done. by rewrite IH.
  - intros Ho. unfold ack_offsets, settle_groups.
    assert (Hg : Forall (fun g => g.1 ∈ queues /\ Forall (fun h => utf8_valid h = true) g.2) order).
    { rewrite Ho. apply Forall_forall. intros [q l] Hin%elem_of_map_to_list. apply group_keys in Hin as [Hk Hv]. rewrite Forall_forall in Hm. split.
      - rewrite <- list_fmap_compose in Hk. apply list_elem_of_fmap in Hk as (m & -> & Hin). by apply Hm.
      - eapply Forall_impl; [exact Hv|]. cbn. intros h Hh. rewrite <- list_fmap_compose in Hh. apply list_elem_of_fmap in Hh as (m & -> & Hin). cbn. apply Hm in Hin. unfold sqs_readable in Hin. tauto. }
    clear Ho. assert (E1 : send_groups queues order = (order, None)).
    { induction Hg as [|g order [Hq _] Hg IH]; [done|]. cbn. rewrite bool_decide_true by done. by rewrite IH. }
    rewrite E1. assert (E2 : (fun g : string * list string => delete_messages g.2 (fun _ => true)) <$> order = (fun g => (g.2, None)) <$> order).
    { apply list_fmap_ext. intros i g Hi. apply delete_all. rewrite Forall_forall in Hg. apply (Hg g). by eapply list_elem_of_lookup_2. }
    cbn [fst snd]. rewrite E2. clear. f_equal.
    + rewrite <- list_fmap_compose. cbn. induction order as [|[q l] order IH]; cbn; [done|]. by f_equal.
    + induction order as [|g order IH]; cbn; done.
  - intros q. rewrite group_lookup. unfold of_queue. clear Hm. induction ms as [|m ms IH]; [done|]. cbn [fmap list_fmap].
    rewrite !filter_cons. cbn [fst]. case_decide; cbn; rewrite IH; done.
Qed.

(** * Properties *)

(** C17: the SQS source neither invents, duplicates nor reorders messages. With an accepted
    configuration, in every interleaving of reads and of the actors of the queues, whatever the
    service answers: of each queue, the messages received are those returned by reads, held by the
    present read, kept for the next one, or dropped with the channel of a read; and as long as none
    was dropped so, the messages of a queue are returned in the order they were received, with those
    kept coming next. A read holds at most a batch. *)
Theorem sqs_messages_in_order (cfg : SqsSourceConfig) (count : option Z) (batch_size : nat) (steps : list SqsStep) (s : SqsSource) :
  sqs_check_config cfg = inl count -> sqs_run cfg batch_size steps sqs_new = Some s ->
  (forall q, of_queue q (sq_received s) ≡ₚ of_queue q (sq_returned s ++ sq_lost s ++ in_read s) ++ a_buffered (actor_of s q)) /\
  (sq_lost s = [] -> forall q, of_queue q (sq_received s) = of_queue q (sq_returned s ++ in_read s) ++ a_buffered (actor_of s q)) /\
  (length (in_read s) <= batch_size)%nat.
Proof.
  intros [Hn Hq]%sqs_check_queues Hr. pose proof (sinv_run cfg batch_size Hn steps _ _ Hq (sinv_new cfg batch_size) Hr) as [Ho Hc _ _ Hb].
  split_and!; [done|done|]. destruct (sq_round s) as [rd|] eqn:E; [destruct (Hb rd eq_refl); lia|]. unfold in_read. rewrite E. cbn. lia.
Qed.

Definition sqs_ex_msg (q id : string) : SqsMessage := mkSqsMessage id "" id 0 q ∅ ∅.
Definition sqs_ex_cfg : SqsSourceConfig := mkSqsConfig ["a"; "b"] [] None None.
(** The first read returns with the messages of [a]; those of [b] come later and are kept. *)
Definition sqs_ex_steps : list SqsStep :=
  [SStart; SServe "a" false (SdkMessages [sqs_ex_msg "a" "a1"; sqs_ex_msg "a" "a2"]); SReceive; SDrain; SReturn;
   SServe "b" false (SdkMessages [sqs_ex_msg "b" "b1"; sqs_ex_msg "b" "b2"]); SStart; SServe "b" false (SdkFails "no call"); SReceive].
Definition sqs_ex_end : option SqsSource := sqs_run sqs_ex_cfg 4 sqs_ex_steps sqs_new.

Example sqs_ex_state :
  (fun s => (sm_key <$> sq_returned s, sm_key <$> in_read s, sm_key <$> a_buffered (actor_of s "b"), sq_lost s)) <$> sqs_ex_end =
  Some (["a1"; "a2"], ["b1"; "b2"], [], []).
Proof. vm_compute. reflexivity. Qed.

Lemma sqs_messages_in_order_witness :
  exists s, sqs_ex_end = Some s /\
    (forall q, of_queue q (sq_received s) = of_queue q (sq_returned s ++ in_read s) ++ a_buffered (actor_of s q)) /\
    (length (in_read s) <= 4)%nat.
Proof.
  assert (E : sq_lost <$> sqs_ex_end = Some []) by (vm_compute; reflexivity).
  destruct sqs_ex_end as [s|] eqn:Es; [|discriminate E]. exists s. split; [reflexivity|]. injection E as Hl.
  pose proof (sqs_messages_in_order sqs_ex_cfg None 4 sqs_ex_steps s ltac:(vm_compute; reflexivity) Es) as (_ & H2 & H3).
  split; [exact (H2 Hl)|exact H3].
Defined.

(** * Where the code falls short *)

(** An answer that comes after the last look of a read, and before the read drops its channel, is taken
    by the channel: its messages are neither returned nor put back. *)
Example late_answer_lost :
  (fun s => (sm_key <$> sq_returned s, sm_key <$> sq_lost s, sm_key <$> a_buffered (actor_of s "b"))) <$>
  sqs_run sqs_ex_cfg 4
    [SStart; SServe "a" false (SdkMessages [sqs_ex_msg "a" "a1"]); SReceive; SDrain;
     SServe "b" false (SdkMessages [sqs_ex_msg "b" "b1"]); SReturn] sqs_new = Some (["a1"], ["b1"], []).
Proof. vm_compute. reflexivity. Qed.
