(* ===== verification/KafkaSource.v ===== *)
(** The Kafka source (src/rust/extns/numaflow-kafka/src/source.rs and numaflow-core's source/kafka.rs):
    the actor that reads from the consumer, commits offsets and reports partitions, and its use as a
    source.

    The consumer and the brokers are external: what a receive, a commit or a query gives is an
    argument. *)
From S2P Require Import Prelude Clock Message Wal HttpSource SqsSource.
From stdpp Require Import pretty sorting.
#[local] Open Scope Z_scope.

(** * Messages *)

Record KafkaMessage := mkKafka {
  km_topic : string;
  km_value : string;
  km_key : option string;
  km_partition : Z;
  km_global_partition_id : Z;
  km_offset : Z;
  km_headers : gmap string string;
  km_timestamp : option Z
}.
Record KafkaOffset := mkKafkaOffset { ko_topic : string; ko_partition : Z; ko_offset : Z }.

(** What the consumer receives; header values may be missing. *)
Record RawMessage := mkRaw {
  raw_topic : string;
  raw_partition : Z;
  raw_offset : Z;
  raw_payload : option string;
  raw_key : option string;
  raw_headers : option (list (string * option string));
  raw_timestamp : option Z
}.

Definition KAFKA_TOPIC_HEADER_KEY : string := "X-NF-Kafka-TopicName".

(** The id of a partition over all topics ([None]: it panics, on a negative partition or an id that is
    not 16 bits wide); a topic that is not known counts from 0. *)
Definition global_partition_id (offsets : gmap string Z) (topic : string) (partition : Z) : option Z :=
  let id := default 0 (offsets !! topic) + partition in
  if (0 <=? partition) && (id <? 2 ^ 16) then Some id else None.

Definition kafka_headers (m : RawMessage) : gmap string string :=
  <[KAFKA_TOPIC_HEADER_KEY := raw_topic m]>
    (foldl (fun h kv => <[kv.1 := from_utf8_lossy (default "" kv.2)]> h) ∅ (default [] (raw_headers m))).

Definition to_kafka_message (offsets : gmap string Z) (m : RawMessage) : option KafkaMessage :=
  let? id := global_partition_id offsets (raw_topic m) (raw_partition m) in
  Some (mkKafka (raw_topic m) (default "" (raw_payload m)) (from_utf8_lossy <$> raw_key m) (raw_partition m) id (raw_offset m)
          (kafka_headers m) (raw_timestamp m)).

(** * Reading *)

Definition MAX_FAILURE_COUNT : nat := 10.

Inductive Recv := RecvMessage (m : RawMessage) | RecvError (e : string).
Inductive KafkaReadError := ReadFailed (e : string) | RetriesExceeded (e : string).
Inductive KafkaRead := KEnd | KMessages (ms : list KafkaMessage) | KFailed (e : KafkaReadError) | KPanic.

Section Read.
Context (offsets : gmap string Z) (batch_size : nat) (read_timeout : Z).

(** What a read that timed out returns. *)
Definition kafka_timed_out (ms : list KafkaMessage) (last_error : option KafkaReadError) : KafkaRead :=
  match ms, last_error with
  | [], Some e => KFailed e
  | _, _ => KMessages ms
  end.

(** The loop: each receive comes with the time it takes, [now] is the time since the read began. The
    timeout wins when both are ready, and a failure is followed by a third of the timeout. *)
Fixpoint kafka_read_loop (recvs : list (Z * Recv)) (now : Z) (ms : list KafkaMessage) (failures : nat)
    (last_error : option KafkaReadError) : KafkaRead :=
  if decide (batch_size <= length ms)%nat then KMessages ms
  else
    match recvs with
    | [] => kafka_timed_out ms last_error
    | (wait, r) :: recvs =>
        if read_timeout <=? now + wait then kafka_timed_out ms last_error
        else
          match r with
          | RecvMessage raw =>
              match to_kafka_message offsets raw with
              | None => KPanic
              | Some m => kafka_read_loop recvs (now + wait) (ms ++ [m]) 0 None
              end
          | RecvError e =>
              if decide (MAX_FAILURE_COUNT < S failures)%nat then KFailed (RetriesExceeded e)
              else kafka_read_loop recvs (now + wait + read_timeout / 3) ms (S failures) (Some (ReadFailed e))
          end
    end.
Definition kafka_read_messages (cancelled : bool) (recvs : list (Z * Recv)) : KafkaRead :=
  if cancelled then KEnd else kafka_read_loop recvs 0 [] 0 None.
End Read.

(** * Committing *)

(** The partitions of the topics of the offsets, each with the highest one. *)
Definition highest_step (m : gmap string (gmap Z Z)) (o : KafkaOffset) : gmap string (gmap Z Z) :=
  let ps : gmap Z Z := default ∅ (m !! ko_topic o) in
  <[ko_topic o := <[ko_partition o := match ps !! ko_partition o with
                                      | Some current => if current <? ko_offset o then ko_offset o else current
                                      | None => ko_offset o
                                      end]> ps]> m.
Definition highest_offsets (offs : list KafkaOffset) : gmap string (gmap Z Z) := foldl highest_step ∅ offs.

(** The codes of a failed commit that are told apart. *)
Inductive CommitCode :=
  | UnknownMemberId | IllegalGeneration | RebalanceInProgress | FencedInstanceId | FencedMemberEpoch
  | StaleMemberEpoch | GroupAuthorizationFailed | OtherCode.
Inductive KafkaError := KafkaFailure (e : string) | KafkaNonRetryable (e : string) | KafkaOther (e : string).
Definition commit_error (code : option CommitCode) : KafkaError :=
  match code with
  | None | Some OtherCode => KafkaFailure "Failed to commit offsets"
  | Some _ => KafkaNonRetryable "Non-retryable commit error"
  end.

(** The committed positions, by topic and partition: where a consumer goes on reading. *)
Abbreviation Committed := (gmap string (gmap Z Z)) (only parsing).
Definition position (c : Committed) (t : string) (p : Z) : option Z := (c !! t : option (gmap Z Z)) ≫= (fun ps : gmap Z Z => ps !! p).

Definition commit_topic (c : Committed) (g : string * gmap Z Z) : Committed :=
  <[g.1 := (Z.succ <$> g.2) ∪ default ∅ (c !! g.1)]> c.

Section Acks.
Context `{O : HashOrder}.

(** [ack_messages]: a commit per topic, which all run, and the first error of them; [result] is what
    the broker answers, [None] if it takes the commit. *)
Definition ack_messages (result : string -> option (option CommitCode)) (offs : list KafkaOffset) (c : Committed) :
    Committed * option KafkaError :=
  let groups := hm_iter (highest_offsets offs) in
  (foldl (fun c g => match result g.1 with None => commit_topic c g | Some _ => c end) c groups,
   head (omap (fun g => commit_error <$> result g.1) groups)).

(** ** As a source of the data plane *)

Definition encode_kafka_offset (m : KafkaMessage) : string :=
  km_topic m +:+ ":" +:+ pretty (km_partition m) +:+ ":" +:+ pretty (km_offset m).

Definition kafka_into_message `{Chrono} (vertex_name : string) (now : DateTime) (m : KafkaMessage) : Message :=
  let offset := mkStringOffset (encode_kafka_offset m) (km_global_partition_id m) in
  mkMessage Data (match km_key m with Some k => [k] | None => [] end) None (km_value m) (OString offset)
    (match km_timestamp m with Some ms => default now (from_timestamp_millis ms) | None => now end) None
    (mkMessageID vertex_name (so_offset offset +:+ "-" +:+ pretty (so_partition_idx offset)) 0) (km_headers m)
    (Some Metadata_default) false None.

Definition decode_kafka_offset (s : string) : KafkaOffset + string :=
  match split_at colon (from_utf8_lossy s) with
  | [topic; p; o] =>
      match parse_i32 p with
      | None => inr "invalid partition id"
      | Some p => match parse_i64 o with None => inr "invalid offset id" | Some o => inl (mkKafkaOffset topic p o) end
      end
  | _ => inr "Invalid Kafka offset format"
  end.
Fixpoint decode_kafka_offsets (offs : list Offset) : list KafkaOffset + string :=
  match offs with
  | [] => inl []
  | OInt _ :: _ => inr "Expected Offset::String type for Kafka"
  | OString o :: offs =>
      match decode_kafka_offset (so_offset o) with
      | inr e => inr e
      | inl k => match decode_kafka_offsets offs with inr e => inr e | inl l => inl (k :: l) end
      end
  end.

(** [ack] and [nack] of the source. *)
Definition kafka_ack (result : string -> option (option CommitCode)) (offs : list Offset) (c : Committed) : Committed * option KafkaError :=
  match decode_kafka_offsets offs with
  | inr e => (c, Some (KafkaOther e))
  | inl l => ack_messages result l c
  end.
Definition kafka_nack (offs : list (Offset * option NackOptions)) (c : Committed) : Committed := c.
End Acks.

(** * Partitions *)

(** The number of pending messages of a partition, of its low and high watermarks and the committed
    offset: the difference as an unsigned number. *)
Definition partition_pending (low high : Z) (committed : option Z) : Z := (high - default low committed) mod 2 ^ 64.
Definition topic_pending (ps : list (Z * Z * option Z)) : Z :=
  foldl (fun t p => (t + partition_pending p.1.1 p.1.2 p.2) mod 2 ^ 64) 0 ps.
(** [pending_messages], over the topics; one that fails fails all. *)
Fixpoint pending_topics (total : Z) (topics : list (list (Z * Z * option Z) + KafkaError)) : Z + KafkaError :=
  match topics with
  | [] => inl total
  | inl ps :: topics => pending_topics ((total + topic_pending ps) mod 2 ^ 64) topics
  | inr e :: _ => inr e
  end.

(** [compute_topic_partition_offsets]: the topics in order, each at its place times the largest number
    of partitions. *)
Definition string_le (a b : string) : Prop := String.leb a b = true.
#[global] Instance string_le_dec : RelDecision string_le.
Proof. intros a b. unfold string_le. apply _. Defined.

Definition max_partitions (counts : list (string * Z)) : Z := foldl (fun m tc => Z.max m tc.2) 0 counts.
Definition compute_topic_partition_offsets (topics : list string) (count : string -> Z + KafkaError) :
    (gmap string Z * Z) + KafkaError :=
  let sorted := merge_sort string_le topics in
  match mapM (fun t => match count t with inl n => Some (t, n) | inr _ => None end) sorted with
  | None => inr (KafkaFailure "Failed to fetch metadata")
  | Some counts =>
      let max := max_partitions counts in
      inl (foldl (fun m x => <[x.2.1 := Z.of_nat x.1 * max]> m) ∅ (zip (seq 0 (length counts)) counts),
           foldl (fun total tc => total + tc.2) 0 counts)
  end.

(** [partitions_info]: the map is computed anew, the partitions assigned get their ids ([None]: a
    panic). *)
Definition partitions_info (topics : list string) (count : string -> Z + KafkaError) (assigned : list (string * Z)) :
    option ((gmap string Z * list Z * Z) + KafkaError) :=
  match compute_topic_partition_offsets topics count with
  | inr e => Some (inr e)
  | inl (offsets, total) =>
      let? ids := mapM (fun tp => global_partition_id offsets tp.1 tp.2) assigned in Some (inl (offsets, ids, total))
  end.

(** * Reads *)

(** The retries of a read are never used up: each failure takes a third of the timeout. *)
Lemma retries_unreachable offsets batch_size timeout recvs now ms failures last :
  3 <= timeout -> Forall (fun r => 0 <= r.1) recvs -> Z.of_nat failures * (timeout / 3) <= now ->
  (forall e, last <> Some (RetriesExceeded e)) ->
  forall e, kafka_read_loop offsets batch_size timeout recvs now ms failures last <> KFailed (RetriesExceeded e).
Proof.
  intros Ht Hw. revert now ms failures last.
  induction Hw as [|[w r] recvs Hw0 Hw IH]; intros now ms failures last Hn Hl e; cbn [kafka_read_loop];
    (case_decide; [done|]); [unfold kafka_timed_out; repeat case_match; congruence|].
  cbn in Hw0. destruct (Z.leb_spec timeout (now + w)); [unfold kafka_timed_out; repeat case_match; congruence|].
  pose proof (Z.div_mod timeout 3 ltac:(lia)). pose proof (Z.mod_pos_bound timeout 3 ltac:(lia)).
  destruct r as [raw|err].
  - destruct (to_kafka_message offsets raw) as [m|]; [|done]. apply IH; [nia|done].
  - case_decide as Hf; [unfold MAX_FAILURE_COUNT in Hf; nia|]. apply IH; [nia|done].
Qed.

(** A read takes at most a batch, of messages received in order. *)
Lemma kafka_read_batch offsets batch_size timeout recvs now ms failures last l :
  kafka_read_loop offsets batch_size timeout recvs now ms failures last = KMessages l ->
  exists k, l = ms ++ omap (fun r => match r.2 with RecvMessage m => to_kafka_message offsets m | RecvError _ => None end) (take k recvs) /\
    (length l <= Nat.max batch_size (length ms))%nat.
Proof.
  revert now ms failures last. induction recvs as [|[w r] recvs IH]; intros now ms failures last; cbn [kafka_read_loop]; case_decide as Hb.
  - intros [= <-]. exists 0%nat. split; [by rewrite app_nil_r|lia].
  - unfold kafka_timed_out. intros Hl. exists 0%nat. rewrite app_nil_r. repeat case_match; simplify_eq; split; done || (cbn in *; lia).
  - intros [= <-]. exists 0%nat. split; [by rewrite app_nil_r|lia].
  - destruct (Z.leb_spec timeout (now + w)).
    + unfold kafka_timed_out. intros Hl. exists 0%nat. rewrite app_nil_r. repeat case_match; simplify_eq; split; done || (cbn in *; lia).
    + destruct r as [raw|err].
      * destruct (to_kafka_message offsets raw) as [m|] eqn:E; [|done]. intros (k & -> & Hk)%IH. exists (S k). cbn. rewrite E.
        rewrite <- app_assoc. rewrite length_app in Hk |- *. rewrite !length_app in Hk. cbn in *. split; [done|]. lia.
      * case_decide; [done|]. intros (k & -> & Hk)%IH. exists (S k). split; [done|exact Hk].
Qed.

(** * Offsets *)

Fixpoint ascii_only (s : string) : Prop :=
  match s with EmptyString => True | String a s => (Ascii.N_of_ascii a < 128)%N /\ ascii_only s end.
Lemma ascii_valid s : ascii_only s -> utf8_valid s = true.
Proof.
  unfold utf8_valid. induction s as [|a s IH]; [done|]. intros [Ha Hs]. cbn [String.length utf8_valid_go]. unfold utf8_chunk.
  assert (E : byte_in 0 127 (Some a) = true) by (unfold byte_in; lia). rewrite E. apply (IH Hs).
Qed.
Lemma ascii_only_app s t : ascii_only s -> ascii_only t -> ascii_only (s +:+ t).
Proof. induction s as [|a s IH]; [done|]. intros [Ha Hs] Ht. split; [done|auto]. Qed.
Lemma digits_ascii s : all_digits s -> ascii_only s.
Proof.
  induction s as [|a s IH]; [done|]. intros [[d Hd] Hs]. split; [|auto]. unfold digit_of in Hd.
  destruct a as [[] [] [] [] [] [] [] []]; vm_compute; done || (vm_compute in Hd; done).
Qed.
Lemma parse_i64_pretty n : 0 <= n < 2 ^ 63 -> parse_i64 (pretty n) = Some n.
Proof.
  intros Hn. rewrite pretty_Z_N by lia. destruct (pretty_N_digits (Z.to_N n)) as (Hd & Hne & _).
  pose proof (parse_unsigned_pretty (2 ^ 63) (Z.to_N n) ltac:(lia)) as Hp. unfold parse_i64.
  destruct (pretty (Z.to_N n)) as [|a s] eqn:E; [done|]. rewrite decide_False.
  - rewrite Hp. cbn. f_equal. lia.
  - intros ->. destruct Hd as [[d Hd] _]. done.
Qed.
Lemma pretty_Z_all_digits n : 0 <= n -> all_digits (pretty n).
Proof. intros Hn. rewrite pretty_Z_N by done. apply pretty_N_digits. Qed.

(** What the brokers give: names of topics without colons, partitions and offsets that are not negative. *)
Definition kafka_valid (m : KafkaMessage) : Prop :=
  ascii_only (km_topic m) /\ lacks colon (km_topic m) /\ 0 <= km_partition m < 2 ^ 31 /\ 0 <= km_offset m < 2 ^ 63.
Definition offset_of (m : KafkaMessage) : KafkaOffset := mkKafkaOffset (km_topic m) (km_partition m) (km_offset m).

Lemma decode_encode_kafka m : kafka_valid m -> decode_kafka_offset (encode_kafka_offset m) = inl (offset_of m).
Proof.
  intros (Ha & Hl & Hp & Ho). unfold decode_kafka_offset, encode_kafka_offset.
  pose proof (pretty_Z_all_digits (km_partition m) ltac:(lia)) as Dp. pose proof (pretty_Z_all_digits (km_offset m) ltac:(lia)) as Do.
  change (":" +:+ pretty (km_partition m) +:+ ":" +:+ pretty (km_offset m))
    with (String colon (pretty (km_partition m) +:+ String colon (pretty (km_offset m)))).
  rewrite from_utf8_lossy_valid.
  - rewrite split_at_app by done. rewrite split_at_app by (by apply digits_lack).
    rewrite split_at_lacks by (by apply digits_lack). unfold parse_i32. rewrite parse_i64_pretty by lia. cbn.
    unfold in_i32. replace ((- 2 ^ 31 <=? km_partition m) && (km_partition m <? 2 ^ 31)) with true by lia.
    rewrite parse_i64_pretty by lia. done.
  - apply ascii_valid, ascii_only_app; [done|]. split; [done|]. apply ascii_only_app; [by apply digits_ascii|]. split; [done|by apply digits_ascii].
Qed.
Lemma decode_batch `{Chrono} vertex_name now ms :
  Forall kafka_valid ms -> decode_kafka_offsets (m_offset <$> (kafka_into_message vertex_name now <$> ms)) = inl (offset_of <$> ms).
Proof. induction 1 as [|m ms Hm Hms IH]; [done|]. cbn. rewrite decode_encode_kafka by done. by rewrite IH. Qed.

(** * Positions *)

(** The highest of the offsets of a partition. *)
Definition in_partition (t : string) (p : Z) (o : KafkaOffset) : Prop := ko_topic o = t /\ ko_partition o = p.
#[global] Instance in_partition_dec t p o : Decision (in_partition t p o).
Proof. unfold in_partition. apply _. Defined.
Definition raise (acc : option Z) (n : Z) : option Z := Some (match acc with Some a => Z.max a n | None => n end).
Definition top (acc : option Z) (t : string) (p : Z) (offs : list KafkaOffset) : option Z :=
  foldl (fun acc o => if decide (in_partition t p o) then raise acc (ko_offset o) else acc) acc offs.

Lemma highest_step_position m o t p :
  position (highest_step m o) t p = if decide (in_partition t p o) then raise (position m t p) (ko_offset o) else position m t p.
Proof.
  unfold position, highest_step, raise. destruct o as [t' p' n]. cbn [ko_topic ko_partition ko_offset]. case_decide as Ho.
  - destruct Ho as [Et Ep]. cbn in Et, Ep. subst t' p'. rewrite lookup_insert_eq. cbn. rewrite lookup_insert_eq.
    destruct (m !! t) as [ps|]; cbn; [|by rewrite lookup_empty]. destruct (ps !! p) as [c|]; [|done]. destruct (Z.ltb_spec c n); f_equal; lia.
  - destruct (decide (t' = t)) as [->|Ht]; [|by rewrite lookup_insert_ne]. rewrite lookup_insert_eq. cbn.
    rewrite lookup_insert_ne by (intros ->; by destruct Ho). destruct (m !! t) as [ps|]; cbn; [done|by rewrite lookup_empty].
Qed.
Lemma highest_position offs t p : position (highest_offsets offs) t p = top None t p offs.
Proof.
  unfold highest_offsets, top. replace (@None Z) with (position ∅ t p) by (unfold position; by rewrite lookup_empty).
  generalize (∅ : gmap string (gmap Z Z)). induction offs as [|o offs IH]; intros m; [done|]. cbn [foldl].
  rewrite IH, highest_step_position. by case_decide.
Qed.
Lemma top_spec acc t p offs :
  match top acc t p offs with
  | None => acc = None /\ forall o, o ∈ offs -> ~ in_partition t p o
  | Some n => (acc = Some n \/ exists o, o ∈ offs /\ in_partition t p o /\ ko_offset o = n) /\
      (forall a, acc = Some a -> a <= n) /\ forall o, o ∈ offs -> in_partition t p o -> ko_offset o <= n
  end.
Proof.
  revert acc. induction offs as [|o offs IH]; intros acc; cbn [top foldl].
  - destruct acc as [a|]; split_and!; auto; try set_solver; by intros ? [= ->].
  - specialize (IH (if decide (in_partition t p o) then raise acc (ko_offset o) else acc)). unfold top in IH.
    destruct (foldl _ _ offs) as [n|]; [|case_decide; [destruct IH as [[=] _]|destruct IH as [-> IH]; split; set_solver]].
    case_decide as Ho; destruct IH as (I1 & I2 & I3).
    + specialize (I2 _ eq_refl). split_and!.
      * destruct I1 as [[= I1]|(o' & ? & ?)]; [|right; exists o'; set_solver]. destruct acc as [a|].
        -- destruct (Z.max_spec a (ko_offset o)) as [[? E]|[? E]]; rewrite E in I1; [right; exists o; set_solver|left; by f_equal].
        -- right. exists o. set_solver.
      * intros a ->. lia.
      * intros o' [->|Hin]%elem_of_cons Ho'; [destruct acc; lia|by apply I3].
    + split_and!; [destruct I1 as [I1|(o' & ? & ?)]; [by left|right; exists o'; set_solver]|done|].
      intros o' [->|Hin]%elem_of_cons Ho'; [done|by apply I3].
Qed.

Lemma position_insert (c : gmap string (gmap Z Z)) t' ps t p :
  position (<[t' := ps]> c) t p = if decide (t' = t) then ps !! p else position c t p.
Proof. unfold position. case_decide; [subst; by rewrite lookup_insert_eq|by rewrite lookup_insert_ne]. Qed.
Lemma commit_topic_position c g t p :
  position (commit_topic c g) t p =
  if decide (g.1 = t) then match g.2 !! p with Some o => Some (Z.succ o) | None => position c t p end else position c t p.
Proof.
  unfold commit_topic. rewrite position_insert. case_decide as Ht; [subst t|done]. rewrite lookup_union, lookup_fmap. destruct (g.2 !! p) as [o|]; cbn; [by rewrite union_Some_l|].
  rewrite (left_id_L None union). unfold position. destruct (c !! g.1) as [ps|]; cbn; [done|by rewrite lookup_empty].
Qed.

Section Positions.
Context `{O : HashOrder}.

Lemma commits_position (result : string -> option (option CommitCode)) (groups : list (string * gmap Z Z)) (c : gmap string (gmap Z Z)) t p :
  NoDup groups.*1 ->
  position (foldl (fun c g => match result g.1 with None => commit_topic c g | Some _ => c end) c groups) t p =
  match result t, position (list_to_map groups) t p with None, Some o => Some (Z.succ o) | _, _ => position c t p end.
Proof.
  revert c. induction groups as [|[t' ps] groups IH]; intros c Hn.
  - replace (position (list_to_map []) t p) with (@None Z) by (unfold position; by rewrite list_to_map_nil, lookup_empty). by destruct (result t).
  - cbn [fmap list_fmap fst] in Hn. apply NoDup_cons in Hn as [Ht Hn]. cbn [foldl fst]. rewrite IH by done. rewrite list_to_map_cons. cbn [fst snd].
    rewrite position_insert. destruct (decide (t' = t)) as [->|Hne].
    + replace (position (list_to_map groups) t p) with (@None Z) by (unfold position; by rewrite not_elem_of_list_to_map_1).
      destruct (result t) eqn:E; [done|]. rewrite commit_topic_position. cbn [fst snd]. by rewrite decide_True by done.
    + assert (E : position (match result t' with None => commit_topic c (t', ps) | Some _ => c end) t p = position c t p).
      { destruct (result t'); [done|]. rewrite commit_topic_position. cbn [fst]. by rewrite decide_False. }
      by rewrite E.
Qed.

(** What an acknowledgement does to the position of a partition. *)
Lemma ack_position result offs c t p :
  position (ack_messages result offs c).1 t p =
  match result t, top None t p offs with None, Some o => Some (Z.succ o) | _, _ => position c t p end.
Proof.
  unfold ack_messages. cbn [fst]. rewrite commits_position.
  - by rewrite list_to_map_hm_iter, highest_position.
  - rewrite hm_iter_perm. apply NoDup_fst_map_to_list.
Qed.

(** ** Batches *)

Context `{C : Chrono} (vertex_name : string) (now : DateTime).
Definition batch_offsets (ms : list KafkaMessage) : list Offset := m_offset <$> (kafka_into_message vertex_name now <$> ms).

(** Batches acknowledged one after the other, each with what the broker answered. *)
Definition kafka_acks (c : gmap string (gmap Z Z)) (acked : list (list KafkaMessage * (string -> option (option CommitCode)))) :=
  foldl (fun c b => (kafka_ack b.2 (batch_offsets b.1) c).1) c acked.

Definition same_partition (m m' : KafkaMessage) : Prop := km_topic m = km_topic m' /\ km_partition m = km_partition m'.
(** The messages of a partition are read in the order of their offsets. *)
Definition batch_before (b b' : list KafkaMessage) : Prop :=
  forall m m', m ∈ b -> m' ∈ b' -> same_partition m m' -> km_offset m < km_offset m'.
Definition read_in_order (batches : list (list KafkaMessage)) : Prop := StronglySorted batch_before batches.

Definition pos (c : gmap string (gmap Z Z)) (m : KafkaMessage) : option Z := position c (km_topic m) (km_partition m).

Lemma batch_position b result c m :
  Forall kafka_valid b ->
  pos (kafka_ack result (batch_offsets b) c).1 m =
  match result (km_topic m), top None (km_topic m) (km_partition m) (offset_of <$> b) with None, Some o => Some (Z.succ o) | _, _ => pos c m end.
Proof. intros Hb. unfold kafka_ack, batch_offsets. rewrite decode_batch by done. apply ack_position. Qed.

Lemma in_partition_offset_of m m' : in_partition (km_topic m) (km_partition m) (offset_of m') <-> same_partition m' m.
Proof. done. Qed.

(** One acknowledgement: a message of a later batch is not passed, one of an earlier or this batch is. *)
Lemma ack_not_passed b result c m :
  Forall kafka_valid b -> (forall p, pos c m = Some p -> p <= km_offset m) ->
  (forall m', m' ∈ b -> same_partition m' m -> km_offset m' < km_offset m) ->
  forall p, pos (kafka_ack result (batch_offsets b) c).1 m = Some p -> p <= km_offset m.
Proof.
  intros Hb Hc Hl p. rewrite batch_position by done. destruct (result (km_topic m)); [apply Hc|].
  pose proof (top_spec None (km_topic m) (km_partition m) (offset_of <$> b)) as Ht.
  destruct (top _ _ _ _) as [o|]; [|apply Hc]. intros [= <-]. destruct Ht as [[[=]|(k & Hk & Hp & <-)] _].
  apply list_elem_of_fmap in Hk as (m' & -> & Hm'). specialize (Hl m' Hm' Hp). cbn. lia.
Qed.
Lemma ack_stays_passed b result c m :
  Forall kafka_valid b -> (exists p, pos c m = Some p /\ km_offset m < p) ->
  (forall m', m' ∈ b -> same_partition m' m -> km_offset m < km_offset m') ->
  exists p, pos (kafka_ack result (batch_offsets b) c).1 m = Some p /\ km_offset m < p.
Proof.
  intros Hb Hc Hl. rewrite batch_position by done. destruct (result (km_topic m)); [done|].
  pose proof (top_spec None (km_topic m) (km_partition m) (offset_of <$> b)) as Ht.
  destruct (top _ _ _ _) as [o|]; [|done]. exists (Z.succ o). split; [done|]. destruct Ht as [[[=]|(k & Hk & Hp & <-)] _].
  apply list_elem_of_fmap in Hk as (m' & -> & Hm'). specialize (Hl m' Hm' Hp). cbn. lia.
Qed.
Lemma ack_passes b (result : string -> option (option CommitCode)) c m :
  Forall kafka_valid b -> m ∈ b -> result (km_topic m) = None ->
  exists p, pos (kafka_ack result (batch_offsets b) c).1 m = Some p /\ km_offset m < p.
Proof.
  intros Hb Hm Hr. rewrite batch_position, Hr by done.
  pose proof (top_spec None (km_topic m) (km_partition m) (offset_of <$> b)) as Ht.
  assert (Hin : offset_of m ∈ offset_of <$> b) by (by apply list_elem_of_fmap_2).
  destruct (top _ _ _ _) as [o|].
  - exists (Z.succ o). split; [done|]. destruct Ht as (_ & _ & Ht). specialize (Ht _ Hin ltac:(by split)). cbn in Ht. lia.
  - destruct Ht as [_ Ht]. by destruct (Ht _ Hin).
Qed.

Lemma acks_safe acked todo c :
  read_in_order (acked.*1 ++ todo) -> Forall kafka_valid (concat (acked.*1 ++ todo)) ->
  (forall m p, m ∈ concat (acked.*1 ++ todo) -> pos c m = Some p -> p <= km_offset m) ->
  (forall m p, m ∈ concat todo -> pos (kafka_acks c acked) m = Some p -> p <= km_offset m) /\
  (forall b r m, (b, r) ∈ acked -> m ∈ b -> r (km_topic m) = None ->
     exists p, pos (kafka_acks c acked) m = Some p /\ km_offset m < p).
Proof.
  revert todo. induction acked as [|[b r] acked IH] using rev_ind; intros todo Ho Hv Hc.
  - split; [|intros ??? []%not_elem_of_nil]. intros m p Hm. by apply Hc.
  - rewrite fmap_app in Ho, Hv, Hc. cbn in Ho, Hv, Hc. rewrite <- app_assoc in Ho, Hv, Hc. cbn in Ho, Hv, Hc.
    destruct (IH (b :: todo) Ho Hv Hc) as [I1 I2]. unfold kafka_acks. rewrite foldl_app. cbn [foldl fst snd].
    fold (kafka_acks c acked). rewrite concat_app in Hv. apply Forall_app in Hv as [_ Hv]. cbn in Hv. apply Forall_app in Hv as [Hb _].
    assert (Hlater : forall x y, x ∈ acked.*1 -> y ∈ b :: todo -> batch_before x y) by (intros x y; by apply (StronglySorted_app_1_elem_of _ _ _ _ _ Ho)).
    apply StronglySorted_app_1_r in Ho. apply StronglySorted_inv in Ho as [_ Hbt]. rewrite Forall_forall in Hbt. split.
    + intros m p Hm. apply ack_not_passed; [done| |].
      * intros q. apply I1. cbn. set_solver.
      * intros m' Hm' Hs. apply list_elem_of_In, in_concat in Hm as (b' & Hb'%list_elem_of_In & Hin%list_elem_of_In). by apply (Hbt b' Hb').
    + intros b' r' m [Hin|[= -> ->]%list_elem_of_singleton]%elem_of_app Hm Hr; [|by apply ack_passes].
      apply ack_stays_passed; [done|by eapply I2|]. intros m' Hm' Hs. apply (Hlater b' b); [|set_solver|done|done|].
      * by apply (list_elem_of_fmap_2 fst) in Hin.
      * destruct Hs. by split.
Qed.
End Positions.

(** * Global partition ids *)

Lemma max_partitions_bound (counts : list (string * Z)) (m : Z) (t : string) (n : Z) : (t, n) ∈ counts -> n <= foldl (fun m tc => Z.max m tc.2) m counts.
Proof.
  assert (Hge : forall counts m, m <= foldl (fun m (tc : string * Z) => Z.max m tc.2) m counts).
  { clear. induction counts as [|x counts IH]; intros m; cbn; [lia|]. specialize (IH (Z.max m x.2)). lia. }
  revert m. induction counts as [|x counts IH]; intros m; [by intros []%not_elem_of_nil|].
  intros [<-|Hin]%elem_of_cons; cbn; [|by apply IH]. specialize (Hge counts (Z.max m n)). lia.
Qed.

Lemma offsets_lookup (max : Z) (counts : list (string * Z)) k (m : gmap string Z) i t n :
  NoDup counts.*1 -> counts !! i = Some (t, n) ->
  foldl (fun m x => <[x.2.1 := Z.of_nat x.1 * max]> m) m (zip (seq k (length counts)) counts) !! t = Some (Z.of_nat (k + i) * max).
Proof.
  revert k m i. induction counts as [|[t' n'] counts IH]; intros k m i Hn Hi; [done|]. cbn in Hn. apply NoDup_cons in Hn as [Ht Hn].
  cbn [length seq zip zip_with foldl fst snd]. destruct i as [|i].
  - cbn in Hi. injection Hi as -> ->. rewrite Nat.add_0_r. clear IH Hn.
    assert (H : forall (l : list (string * Z)) k (m : gmap string Z), t ∉ l.*1 ->
      foldl (fun m x => <[x.2.1 := Z.of_nat x.1 * max]> m) m (zip (seq k (length l)) l) !! t = m !! t).
    { clear. induction l as [|[t' n'] l IH]; intros k m Hl; [done|]. cbn in Hl |- *. apply not_elem_of_cons in Hl as [Hne Hl].
      rewrite IH by done. by rewrite lookup_insert_ne. }
    rewrite H by done. by rewrite lookup_insert_eq.
  - cbn in Hi. rewrite IH with (i := i) by done. do 2 f_equal. lia.
Qed.

(** As long as the number of partitions is what it was when the map was computed, two partitions, of
    the same or of different topics, have different ids. *)
Lemma global_ids_injective topics count offs total t p t' p' n n' :
  NoDup topics -> compute_topic_partition_offsets topics count = inl (offs, total) ->
  t ∈ topics -> t' ∈ topics -> count t = inl n -> count t' = inl n' -> 0 <= p < n -> 0 <= p' < n' ->
  default 0 (offs !! t) + p = default 0 (offs !! t') + p' -> t = t' /\ p = p'.
Proof.
  intros Hn Hc Ht Ht' Et Et' Hp Hp'. unfold compute_topic_partition_offsets in Hc.
  assert (Hperm : merge_sort string_le topics ≡ₚ topics) by apply merge_sort_Permutation.
  assert (Hn2 : NoDup (merge_sort string_le topics)) by (by rewrite Hperm).
  rewrite <- Hperm in Ht, Ht'. destruct (mapM _ _) as [counts|] eqn:Em; [|done]. injection Hc as <- _.
  apply mapM_Some in Em.
  assert (Hk : counts.*1 = merge_sort string_le topics).
  { clear -Em. induction Em as [|x y l k Hx Em IH]; [done|]. cbn. f_equal; [|done]. destruct (count x); [by injection Hx as <-|done]. }
  assert (Hidx : forall t n, t ∈ merge_sort string_le topics -> count t = inl n -> exists i, counts !! i = Some (t, n)).
  { intros u k [i Hi]%list_elem_of_lookup_1 Hu. exists i. destruct (Forall2_lookup_l _ _ _ _ _ Em Hi) as (y & Hy & E). rewrite Hu in E. congruence. }
  destruct (Hidx t n Ht Et) as [i Hi], (Hidx t' n' Ht' Et') as [j Hj].
  rewrite (offsets_lookup _ counts 0 ∅ i t n) by (done || by rewrite Hk). rewrite (offsets_lookup _ counts 0 ∅ j t' n') by (done || by rewrite Hk).
  cbn. pose proof (max_partitions_bound counts 0 t n ltac:(by eapply list_elem_of_lookup_2)) as H1.
  pose proof (max_partitions_bound counts 0 t' n' ltac:(by eapply list_elem_of_lookup_2)) as H2. fold (max_partitions counts) in H1, H2.
  intros E. assert (i = j) as -> by nia. split; [congruence|lia].
Qed.

(** * Properties *)

(** C18: acknowledging to Kafka neither skips nor repeats messages, as long as whole batches are acknowledged
    in the order in which they were read. Whatever the brokers answer to the commits: the position
    from which a restarted consumer reads is never past a message of a batch that is not yet
    acknowledged, so it is read again; a message whose commit was taken is before that position; and
    an acknowledgement whose commits are all taken succeeds. *)
Theorem kafka_commits_safe {O : HashOrder} {C : Chrono} (vertex_name : string) (now : DateTime)
    (acked : list (list KafkaMessage * (string -> option (option CommitCode)))) (todo : list (list KafkaMessage))
    (committed : gmap string (gmap Z Z)) :
  read_in_order (acked.*1 ++ todo) -> Forall kafka_valid (concat (acked.*1 ++ todo)) ->
  (forall m p, m ∈ concat (acked.*1 ++ todo) -> pos committed m = Some p -> p <= km_offset m) ->
  let c := kafka_acks vertex_name now committed acked in
  (forall m p, m ∈ concat todo -> pos c m = Some p -> p <= km_offset m) /\
  (forall b r m, (b, r) ∈ acked -> m ∈ b -> r (km_topic m) = None -> exists p, pos c m = Some p /\ km_offset m < p) /\
  (forall b r c', (b, r) ∈ acked -> (forall t, r t = None) -> (kafka_ack r (batch_offsets vertex_name now b) c').2 = None).
Proof.
  intros Ho Hv Hc c. destruct (acks_safe vertex_name now acked todo committed Ho Hv Hc) as [H1 H2]. split_and!; [done..|].
  intros b r c' Hin Hr. unfold kafka_ack, batch_offsets. rewrite decode_batch.
  - unfold ack_messages. cbn [snd]. induction (hm_iter _) as [|g l IH]; [done|]. cbn. by rewrite Hr.
  - rewrite concat_app in Hv. apply Forall_app in Hv as [Hv _]. rewrite Forall_forall in Hv |- *. intros m Hm. apply Hv.
    apply list_elem_of_In, in_concat. exists b. split; apply list_elem_of_In; [|done]. by apply (list_elem_of_fmap_2 fst) in Hin.
Qed.

Definition kafka_ex (p o : Z) : KafkaMessage := mkKafka "t" "v" None p p o ∅ None.
Definition kafka_ok (t : string) : option (option CommitCode) := None.

Lemma kafka_commits_safe_witness :
  let acked := [([kafka_ex 0 5; kafka_ex 0 6], kafka_ok); ([kafka_ex 1 3], kafka_ok)] in
  let todo := [[kafka_ex 0 7; kafka_ex 1 4]] in
  let c := @kafka_acks canonical_order chrono_utc "in" 0 {["t" := {[0 := 5]}]} acked in
  pos c (kafka_ex 0 7) = Some 7 /\ (forall m p, m ∈ concat todo -> pos c m = Some p -> p <= km_offset m).
Proof.
  intros acked todo c. split; [vm_compute; reflexivity|].
  refine (proj1 (@kafka_commits_safe canonical_order chrono_utc "in" 0 acked todo {["t" := {[0 := 5]}]} _ _ _)).
  - repeat (constructor; [|repeat (constructor; [unfold batch_before, same_partition; set_solver by (subst; cbn in *; lia)|]); constructor]). constructor.
  - cbn. repeat (constructor; [unfold kafka_valid; cbn; split_and!; done || lia|]). constructor.
  - intros m p Hm. cbn in Hm. rewrite !elem_of_cons in Hm. destruct Hm as [->|[->|[->|[->|[->|[]%not_elem_of_nil]]]]]; vm_compute; by intros [= <-] || done.
Defined.

(** * Where the code falls short *)

#[local] Existing Instance canonical_order.
#[local] Existing Instance chrono_utc.

(** A nack does nothing, and the commit of a later message of the batch moves past the message. *)
Example nacked_message_skipped :
  let nacked := kafka_ex 0 5 in
  let c := kafka_nack [(OString (mkStringOffset (encode_kafka_offset nacked) 0), None)] {["t" := {[0 := 5]}]} in
  pos (kafka_ack kafka_ok (batch_offsets "in" 0 [kafka_ex 0 6]) c).1 nacked = Some 7.
Proof. vm_compute. reflexivity. Qed.

(** Acknowledgements out of order: the position is past a message that is still being processed, and
    goes back when that one is acknowledged. *)
Example unordered_acks_skip :
  let c := kafka_acks "in" 0 {["t" := {[0 := 5]}]} [([kafka_ex 0 6], kafka_ok)] in
  let c' := kafka_acks "in" 0 c [([kafka_ex 0 5], kafka_ok)] in
  (pos c (kafka_ex 0 5), pos c' (kafka_ex 0 6)) = (Some 7, Some 6).
Proof. vm_compute. reflexivity. Qed.

(** A topic has got a partition more since the map was computed: its new partition has the id of one
    of another topic. *)
Example grown_topic_collides :
  let before t : Z + KafkaError := inl 2 in
  (fun r => (global_partition_id r.1.1 "a" 2, global_partition_id r.1.1 "b" 0)) <$>
  (match partitions_info ["b"; "a"] before [("a", 0); ("b", 1)] with Some (inl r) => Some r | _ => None end) = Some (Some 2, Some 2).
Proof. vm_compute. reflexivity. Qed.

(** A committed offset past the end of the partition, as after the topic was made anew, counts as
    almost [2 ^ 64] pending messages. *)
Example pending_wraps : partition_pending 0 3 (Some 5) = 2 ^ 64 - 2.
Proof. vm_compute. reflexivity. Qed.
