(* ===== verification/PulsarSource.v ===== *)
(** The Pulsar source (src/rust/extns/numaflow-pulsar/src/source.rs and numaflow-core's
    source/pulsar.rs): the actor that reads from a consumer and keeps the ids of the messages that are
    not acknowledged, and its use as a source.

    The consumer is external: what a receive, an ack or a nack gives is an argument. *)
From S2P Require Import Prelude Clock Message Wal Source HttpSource SqsSource KafkaSource.
From stdpp Require Import pretty.
#[local] Open Scope Z_scope.

(** * Offsets *)

Record MessageIdData := mkIdData { id_ledger : Z; id_entry : Z; id_partition : option Z; id_batch : option Z }.
Record PulsarOffset := mkPulsarOffset { po_ledger : Z; po_entry : Z; po_partition : Z; po_batch : Z }.
#[global] Instance PulsarOffset_eq_dec : EqDecision PulsarOffset.
Proof. solve_decision. Defined.
#[global] Instance PulsarOffset_countable : Countable PulsarOffset.
Proof.
  by refine (inj_countable' (fun o => (po_ledger o, po_entry o, po_partition o, po_batch o))
    (fun '(l, e, p, b) => mkPulsarOffset l e p b) _); intros [].
Defined.

Definition pulsar_offset_of (d : MessageIdData) : PulsarOffset :=
  mkPulsarOffset (id_ledger d) (id_entry d) (default (-1) (id_partition d)) (default (-1) (id_batch d)).

Definition pulsar_display (o : PulsarOffset) : string :=
  pretty (po_ledger o) +:+ ":" +:+ pretty (po_entry o) +:+ ":" +:+ pretty (po_partition o) +:+ ":" +:+ pretty (po_batch o).
Definition parse_u64 (s : string) : option Z := Z.of_N <$> parse_unsigned (2 ^ 64) s.
Definition pulsar_from_str (s : string) : option PulsarOffset :=
  match split_at colon s with
  | [l; e; p; b] =>
      let? l := parse_u64 l in let? e := parse_u64 e in let? p := parse_i32 p in let? b := parse_i32 b in
      Some (mkPulsarOffset l e p b)
  | _ => None
  end.

(** * The actor *)

Record PulsarMessage := mkPulsar {
  pm_key : string;
  pm_payload : string;
  pm_offset : PulsarOffset;
  pm_event_time : DateTime;
  pm_headers : gmap string string
}.

(** A message of the consumer; [pr_topic] is its physical topic. *)
Record PulsarRaw := mkPulsarRaw {
  pr_id : MessageIdData;
  pr_topic : string;
  pr_key : option string;
  pr_data : string;
  pr_event_time : option Z;
  pr_publish_time : Z;
  pr_properties : list (string * string)
}.
Record PendingMessage := mkPending { pe_topic : string; pe_id : MessageIdData }.
Abbreviation MessageIds := (gmap PulsarOffset PendingMessage) (only parsing).

Inductive PulsarError := PulsarFailure (e : string) | AckPendingExceeded (n : nat) | UnknownOffset (o : PulsarOffset).

(** What a receive gives; an error comes with the milliseconds that are left. *)
Inductive PulsarRecv := PTimeout | PMessage (m : PulsarRaw) | PClosed | PError (e : string) (remaining_ms : Z).

Section Actor.
Context `{Chrono} (max_unack : nat).

Definition as_i64 (n : Z) : Z := let n := n mod 2 ^ 64 in if n <? 2 ^ 63 then n else n - 2 ^ 64.
(** A message whose time is out of range is passed over. *)
Definition to_pulsar_message (m : PulsarRaw) : option PulsarMessage :=
  let? t := from_timestamp_millis (as_i64 (default (pr_publish_time m) (pr_event_time m))) in
  Some (mkPulsar (default "" (pr_key m)) (pr_data m) (pulsar_offset_of (pr_id m)) t
          (foldl (fun h kv => <[kv.1 := kv.2]> h) ∅ (pr_properties m))).

(** The loop of [get_messages], a receive per round; the rounds end with [count]. *)
Fixpoint pulsar_read_loop (count : nat) (recvs : list PulsarRecv) (ids : MessageIds) (ms : list PulsarMessage) :
    (list PulsarMessage + PulsarError) * MessageIds * list PulsarMessage :=
  match count, recvs with
  | O, _ | _, [] | _, PTimeout :: _ | _, PClosed :: _ => (inl ms, ids, ms)
  | S count, PError e remaining :: recvs =>
      if 100 <=? remaining then pulsar_read_loop count recvs ids ms else (inr (PulsarFailure e), ids, ms)
  | S count, PMessage raw :: recvs =>
      match to_pulsar_message raw with
      | None => pulsar_read_loop count recvs ids ms
      | Some m =>
          let ids := <[pm_offset m := mkPending (pr_topic raw) (pr_id raw)]> ids in
          let ms := ms ++ [m] in
          if decide (max_unack <= length ms)%nat then (inl ms, ids, ms) else pulsar_read_loop count recvs ids ms
      end
  end.
(** [get_messages]: the answer ([None]: the end), the ids, and the messages taken from the consumer. *)
Definition pulsar_get_messages (cancelled : bool) (count : nat) (recvs : list PulsarRecv) (ids : MessageIds) :
    option (list PulsarMessage + PulsarError) * MessageIds * list PulsarMessage :=
  if cancelled then (None, ids, [])
  else if decide (max_unack <= size ids)%nat then (Some (inr (AckPendingExceeded (size ids))), ids, [])
  else let '(r, ids, ms) := pulsar_read_loop count recvs ids [] in (Some r, ids, ms).

(** [ack_messages] and [nack_messages]: one by one, up to the first that is not known or fails; one
    that fails stays. [ok]: what the broker makes of it. *)
Fixpoint pulsar_settle (ok : PulsarOffset -> bool) (offs : list PulsarOffset) (ids : MessageIds) : MessageIds * option PulsarError :=
  match offs with
  | [] => (ids, None)
  | o :: offs =>
      match ids !! o with
      | None => (ids, Some (UnknownOffset o))
      | Some _ => if ok o then pulsar_settle ok offs (delete o ids) else (ids, Some (PulsarFailure "ack"))
      end
  end.
End Actor.

(** ** As a source of the data plane *)

Definition pulsar_into_message (vertex_name : string) (replica : Z) (m : PulsarMessage) : Message :=
  let offset := mkStringOffset (pulsar_display (pm_offset m)) replica in
  mkMessage Data [pm_key m] None (pm_payload m) (OString offset) (pm_event_time m) None
    (mkMessageID vertex_name (so_offset offset +:+ "-" +:+ pretty replica) 0) (pm_headers m) (Some Metadata_default) false None.

Definition to_pulsar_offset (o : Offset) : PulsarOffset + Error :=
  match o with
  | OInt _ => inr (ESource "Expected Offset::String type for Pulsar")
  | OString o =>
      match pulsar_from_str (from_utf8_lossy (so_offset o)) with
      | Some o => inl o
      | None => inr (ESource "Invalid Pulsar offset")
      end
  end.
Fixpoint to_pulsar_offsets (offs : list Offset) : list PulsarOffset + Error :=
  match offs with
  | [] => inl []
  | o :: offs =>
      match to_pulsar_offset o with
      | inr e => inr e
      | inl k => match to_pulsar_offsets offs with inr e => inr e | inl l => inl (k :: l) end
      end
  end.
Definition pulsar_error (e : PulsarError) : Error :=
  match e with
  | PulsarFailure e => ESource e
  | UnknownOffset _ => ESource "Received unknown offset for acknowledgement"
  | AckPendingExceeded _ => ESource "Messages to be acknowledged has reached its configured limit"
  end.

(** [ack] and [nack] of the source. *)
Definition pulsar_ack (ok : PulsarOffset -> bool) (offs : list Offset) (ids : gmap PulsarOffset PendingMessage) :
    gmap PulsarOffset PendingMessage * option Error :=
  match to_pulsar_offsets offs with
  | inr e => (ids, Some e)
  | inl l => let (ids, e) := pulsar_settle ok l ids in (ids, pulsar_error <$> e)
  end.

(** * Offsets and their text *)

Definition pulsar_offset_valid (o : PulsarOffset) : Prop :=
  0 <= po_ledger o < 2 ^ 64 /\ 0 <= po_entry o < 2 ^ 64 /\ - 2 ^ 31 < po_partition o < 2 ^ 31 /\ - 2 ^ 31 < po_batch o < 2 ^ 31.

Lemma parse_u64_pretty n : 0 <= n < 2 ^ 64 -> parse_u64 (pretty n) = Some n.
Proof. intros Hn. unfold parse_u64. rewrite pretty_Z_N by lia. rewrite parse_unsigned_pretty by lia. cbn. f_equal. lia. Qed.
Lemma pretty_Z_neg n : n < 0 -> pretty n = String minus_sign (pretty (Z.to_N (- n))).
Proof. destruct n; [lia..|]. intros _. done. Qed.
Lemma parse_i32_pretty n : - 2 ^ 31 < n < 2 ^ 31 -> parse_i32 (pretty n) = Some n.
Proof.
  intros Hn. unfold parse_i32. assert (E : parse_i64 (pretty n) = Some n).
  - destruct (decide (n < 0)) as [Hneg|Hpos]; [|apply parse_i64_pretty; lia].
    rewrite pretty_Z_neg by done. destruct (pretty_N_digits (Z.to_N (- n))) as (_ & Hne & Hp). cbn [parse_i64].
    rewrite decide_True by done. destruct (pretty (Z.to_N (- n))) as [|a s] eqn:E; [done|]. rewrite Hp. cbn.
    rewrite decide_True by lia. f_equal. lia.
  - rewrite E. cbn. unfold in_i32. by replace ((- 2 ^ 31 <=? n) && (n <? 2 ^ 31)) with true by lia.
Qed.
Lemma pretty_Z_text (n : Z) : lacks colon (pretty n) /\ ascii_only (pretty n).
Proof.
  destruct (decide (n < 0)) as [Hneg|Hpos].
  - rewrite pretty_Z_neg by done. destruct (pretty_N_digits (Z.to_N (- n))) as (Hd & _ & _).
    split; (split; [done|]); [by apply digits_lack|by apply digits_ascii].
  - pose proof (pretty_Z_all_digits n ltac:(lia)). split; [by apply digits_lack|by apply digits_ascii].
Qed.

Lemma pulsar_offset_roundtrip o :
  pulsar_offset_valid o -> pulsar_from_str (pulsar_display o) = Some o /\ from_utf8_lossy (pulsar_display o) = pulsar_display o.
Proof.
  destruct o as [l e p b]. intros (Hl & He & Hp & Hb). cbn in *. unfold pulsar_display. cbn [po_ledger po_entry po_partition po_batch].
  change (pretty l +:+ ":" +:+ pretty e +:+ ":" +:+ pretty p +:+ ":" +:+ pretty b)
    with (pretty l +:+ String colon (pretty e +:+ String colon (pretty p +:+ String colon (pretty b)))). split.
  - unfold pulsar_from_str. rewrite !split_at_app by apply pretty_Z_text. rewrite split_at_lacks by apply pretty_Z_text.
    by rewrite !parse_u64_pretty, !parse_i32_pretty by lia.
  - apply from_utf8_lossy_valid, ascii_valid. repeat (apply ascii_only_app; [apply pretty_Z_text|split; [done|]]). apply pretty_Z_text.
Qed.

Lemma to_pulsar_offsets_of vertex_name replica (ms : list PulsarMessage) :
  Forall (fun m => pulsar_offset_valid (pm_offset m)) ms ->
  to_pulsar_offsets (m_offset <$> (pulsar_into_message vertex_name replica <$> ms)) = inl (pm_offset <$> ms).
Proof.
  induction 1 as [|m ms Hm Hms IH]; [done|]. destruct (pulsar_offset_roundtrip _ Hm) as [E1 E2]. cbn [fmap list_fmap to_pulsar_offsets].
  assert (E : to_pulsar_offset (m_offset (pulsar_into_message vertex_name replica m)) = inl (pm_offset m))
    by (unfold to_pulsar_offset, pulsar_into_message; cbn [m_offset so_offset]; by rewrite E2, E1).
  rewrite E. by rewrite IH.
Qed.

(** * The ids that are kept *)

Lemma settle_ids ok offs ids :
  let r := pulsar_settle ok offs ids in
  exists k, (k <= length offs)%nat /\ r.1 = foldl (fun m o => delete o m) ids (take k offs) /\ (r.2 = None -> k = length offs).
Proof.
  cbn. revert ids. induction offs as [|o offs IH]; intros ids; [by exists 0%nat|]. cbn [pulsar_settle].
  destruct (ids !! o); [|by exists 0%nat; split_and!; [lia|..]]. destruct (ok o); [|by exists 0%nat; split_and!; [lia|..]].
  destruct (IH (delete o ids)) as (k & Hk & E & Hn). exists (S k). split_and!; [cbn; lia|done|]. intros Hs. cbn. by rewrite Hn.
Qed.
Lemma dom_deletes (offs : list PulsarOffset) (ids : gmap PulsarOffset PendingMessage) :
  dom (foldl (fun m o => delete o m) ids offs) = dom ids ∖ list_to_set offs.
Proof. revert ids. induction offs as [|o offs IH]; intros ids; cbn; [set_solver|]. rewrite IH, dom_delete_L. set_solver. Qed.

Lemma read_loop_ids `{Chrono} max_unack count recvs ids ms :
  let '(r, ids', ms') := pulsar_read_loop max_unack count recvs ids ms in
  (exists new, ms' = ms ++ new /\ dom ids' = dom ids ∪ list_to_set (pm_offset <$> new)) /\ (forall l, r = inl l -> l = ms').
Proof.
  revert recvs ids ms. induction count as [|count IH]; intros recvs ids ms.
  - cbn. split; [exists []; rewrite app_nil_r; split; [done|set_solver]|congruence].
  - assert (Hnil : forall m : list PulsarMessage, exists new, m = m ++ new /\ dom ids = dom ids ∪ list_to_set (pm_offset <$> new))
      by (intros m; exists []; rewrite app_nil_r; split; [done|set_solver]).
    destruct recvs as [|[|raw| |e rem] recvs]; cbn [pulsar_read_loop]; try (split; [apply Hnil|congruence]).
    + destruct (to_pulsar_message raw) as [m|]; [|apply IH]. case_decide.
      * split; [exists [m]; split; [done|rewrite dom_insert_L; set_solver]|congruence].
      * specialize (IH recvs (<[pm_offset m := mkPending (pr_topic raw) (pr_id raw)]> ids) (ms ++ [m])).
        destruct (pulsar_read_loop _ _ _ _ _) as [[r ids'] ms']. destruct IH as [(new & -> & E) H2]. split; [|done].
        exists (m :: new). rewrite <- app_assoc. split; [done|]. rewrite E, dom_insert_L. set_solver.
    + destruct (100 <=? rem); [apply IH|]. split; [apply Hnil|congruence].
Qed.

(** The reads and the acknowledgements of an actor: [pu_out], what was handed out and is not settled;
    [pu_dropped], what was taken from the consumer by a read that failed. *)
Record PulsarState := mkPulsarState { pu_ids : gmap PulsarOffset PendingMessage; pu_out : gset PulsarOffset; pu_dropped : gset PulsarOffset }.
Inductive PulsarStep :=
  | PuRead (cancelled : bool) (count : nat) (recvs : list PulsarRecv)
  | PuSettle (ok : PulsarOffset -> bool) (offs : list PulsarOffset).

Definition settled (ids ids' : gmap PulsarOffset PendingMessage) : gset PulsarOffset := dom ids ∖ dom ids'.
Definition pulsar_step `{Chrono} (max_unack : nat) (s : PulsarState) (l : PulsarStep) : PulsarState :=
  match l with
  | PuRead cancelled count recvs =>
      let '(r, ids, ms) := pulsar_get_messages max_unack cancelled count recvs (pu_ids s) in
      let new : gset PulsarOffset := list_to_set (pm_offset <$> ms) in
      match r with
      | Some (inl _) => mkPulsarState ids (pu_out s ∪ new) (pu_dropped s ∖ new)
      | _ => mkPulsarState ids (pu_out s) (pu_dropped s ∪ new)
      end
  | PuSettle ok offs =>
      let ids := (pulsar_settle ok offs (pu_ids s)).1 in
      mkPulsarState ids (pu_out s ∖ settled (pu_ids s) ids) (pu_dropped s ∖ settled (pu_ids s) ids)
  end.

(** The ids kept are those handed out and not settled, and those dropped by a failed read; these stay
    for ever, and count against [max_unack]. *)
Lemma pulsar_ids_exact `{Chrono} max_unack steps :
  let s := foldl (pulsar_step max_unack) (mkPulsarState ∅ ∅ ∅) steps in dom (pu_ids s) = pu_out s ∪ pu_dropped s.
Proof.
  cbn. assert (Hstep : forall l s, dom (pu_ids s) = pu_out s ∪ pu_dropped s ->
      dom (pu_ids (pulsar_step max_unack s l)) = pu_out (pulsar_step max_unack s l) ∪ pu_dropped (pulsar_step max_unack s l)).
  { clear. intros [cancelled count recvs|ok offs] [ids out dropped] Hs; cbn [pulsar_step pu_ids pu_out pu_dropped] in *.
    - unfold pulsar_get_messages. destruct cancelled; [cbn; set_solver|]. case_decide; [cbn; set_solver|].
      pose proof (read_loop_ids max_unack count recvs ids []) as Hr. destruct (pulsar_read_loop _ _ _ _ _) as [[r ids'] ms'].
      destruct Hr as [(new & -> & E) _]. destruct r; cbn; rewrite E, Hs; [|set_solver].
      apply set_eq. intros x. rewrite !elem_of_union, elem_of_difference. destruct (decide (x ∈ (list_to_set (pm_offset <$> new) : gset PulsarOffset))); set_solver.
    - destruct (settle_ids ok offs ids) as (k & _ & E & _). cbn. unfold settled. rewrite E, dom_deletes, Hs. set_solver. }
  induction steps as [|l steps IH] using rev_ind; [done|]. rewrite foldl_app. cbn. by apply Hstep.
Qed.

(** * Where the code falls short *)

(** A batch is acknowledged again as a whole when one of its messages failed, but those before it are
    not known any more: no later call succeeds, whatever the broker does, and the retries of the
    source never end. *)
Fixpoint pulsar_ack_answers (oks : nat -> PulsarOffset -> bool) (offs : list Offset) (ids : gmap PulsarOffset PendingMessage) (i : nat) : option Error :=
  match i with
  | O => (pulsar_ack (oks O) offs ids).2
  | S i => pulsar_ack_answers (fun i => oks (S i)) offs (pulsar_ack (oks O) offs ids).1 i
  end.

Lemma partial_ack_stuck oks offs o rest ids :
  to_pulsar_offsets offs = inl (o :: rest) -> is_Some (ids !! o) -> oks 0%nat o = true ->
  (pulsar_ack (oks 0%nat) offs ids).2 <> None ->
  forall fuel, source_ack_with_retry fuel (pulsar_ack_answers oks offs ids) (fun _ => false) 0 = None.
Proof.
  intros Ho [pe Hi] Hok Hf.
  assert (Hstuck : forall i oks ids, ids !! o = None -> pulsar_ack_answers oks offs ids i = Some (pulsar_error (UnknownOffset o))).
  { clear -Ho. induction i as [|i IH]; intros oks ids Hn; cbn [pulsar_ack_answers]; unfold pulsar_ack; rewrite Ho; cbn [pulsar_settle]; rewrite Hn; [done|].
    by apply IH. }
  assert (Hgone : (pulsar_ack (oks 0%nat) offs ids).1 !! o = None).
  { unfold pulsar_ack. rewrite Ho. cbn [pulsar_settle]. rewrite Hi, Hok. destruct (settle_ids (oks 0%nat) rest (delete o ids)) as (k & _ & E & _).
    destruct (pulsar_settle _ _ _) as [ids' e]. cbn in E |- *. subst ids'. apply not_elem_of_dom. rewrite dom_deletes, dom_delete_L. set_solver. }
  assert (Hans : forall i, exists e, pulsar_ack_answers oks offs ids i = Some e /\ forall x, e <> ENonRetryable x).
  { intros [|i]; cbn [pulsar_ack_answers].
    - destruct (pulsar_ack (oks 0%nat) offs ids).2 as [e|] eqn:E; [|done]. exists e. split; [done|]. revert E. unfold pulsar_ack. rewrite Ho.
      destruct (pulsar_settle _ _ _) as [? [[]|]]; cbn; by intros [= <-].
    - exists (pulsar_error (UnknownOffset o)). split; [by apply Hstuck|done]. }
  assert (Hall : forall fuel i, source_ack_with_retry fuel (pulsar_ack_answers oks offs ids) (fun _ => false) i = None).
  { induction fuel as [|fuel IH]; intros i; [done|]. cbn [source_ack_with_retry]. destruct (Hans i) as (e & -> & He).
    destruct e; try apply IH. by destruct (He _ eq_refl). }
  intros fuel. apply Hall.
Qed.

#[local] Existing Instance chrono_utc.
Definition pulsar_ex (n : Z) : PulsarRaw := mkPulsarRaw (mkIdData n 0 None None) "t" None "x" None 1000 [].
Definition pulsar_ex_id (n : Z) : PulsarOffset := mkPulsarOffset n 0 (-1) (-1).

(** Two messages are read; the broker takes the first acknowledgement and once fails the second. *)
Example partial_ack :
  let ids := (pulsar_get_messages 10 false 2 [PMessage (pulsar_ex 1); PMessage (pulsar_ex 2)] ∅).1.2 in
  let offs := [OString (mkStringOffset (pulsar_display (pulsar_ex_id 1)) 0); OString (mkStringOffset (pulsar_display (pulsar_ex_id 2)) 0)] in
  let oks i o := negb (bool_decide (i = 0%nat /\ o = pulsar_ex_id 2)) in
  pulsar_ack_answers oks offs ids <$> [0; 1; 2]%nat =
  [Some (ESource "ack"); Some (ESource "Received unknown offset for acknowledgement"); Some (ESource "Received unknown offset for acknowledgement")].
Proof. vm_compute. reflexivity. Qed.

(** An error after some messages were received: they are not returned, and their ids are kept. *)
Example read_error_drops :
  let '(r, ids, _) := pulsar_get_messages 10 false 3 [PMessage (pulsar_ex 1); PError "broken" 20] ∅ in
  (r, size ids) = (Some (inr (PulsarFailure "broken")), 1%nat).
Proof. vm_compute. reflexivity. Qed.

(** The bound is put to the messages of a read, not to all that are not acknowledged. *)
Example max_unack_exceeded :
  let '(_, ids, _) := pulsar_get_messages 2 false 5 [PMessage (pulsar_ex 1); PTimeout] ∅ in
  let '(r, ids, ms) := pulsar_get_messages 2 false 5 [PMessage (pulsar_ex 2); PMessage (pulsar_ex 3); PMessage (pulsar_ex 4)] ids in
  (length ms, size ids) = (2%nat, 3%nat).
Proof. vm_compute. reflexivity. Qed.
