(* ===== verification/NatsSource.v ===== *)
(** The NATS and JetStream sources (src/rust/extns/numaflow-nats/src/nats.rs and jetstream.rs, and
    numaflow-core's source/nats.rs and source/jetstream.rs): the reads, the task that keeps a JetStream
    message in progress, and the acknowledgements.

    The NATS client is external: what it delivers and answers is an argument. *)
From S2P Require Import Prelude Clock Message Wal HttpSource PulsarSource.
From stdpp Require Import pretty.
#[local] Open Scope Z_scope.

(** * The deliver policy *)

Inductive DeliverPolicy :=
  | DeliverAll | DeliverLast | DeliverLastPerSubject | DeliverNew
  | ByStartSequence (start_sequence : Z) | ByStartTime (epoch_ms : Z).

Definition ascii_space (a : Ascii.ascii) : bool :=
  let n := Ascii.N_of_ascii a in ((n =? 32) || (n =? 9) || (n =? 10) || (n =? 12) || (n =? 13))%N.
Definition lower (a : Ascii.ascii) : Ascii.ascii :=
  let n := Ascii.N_of_ascii a in if ((65 <=? n) && (n <=? 90))%N then Ascii.ascii_of_N (n + 32) else a.
(** [split_ascii_whitespace], each word in lower case; [w] is the word so far. *)
Fixpoint words (w : string) (s : string) : list string :=
  match s with
  | EmptyString => if decide (w = "") then [] else [w]
  | String a s => if ascii_space a then (if decide (w = "") then words "" s else w :: words "" s)
                  else words (w +:+ String (lower a) "") s
  end.

(** Only the letters of ASCII matter: no other one occurs in an option. *)
Definition parse_deliver_policy (value : string) : DeliverPolicy + string :=
  match words "" value with
  | [w] =>
      if decide (w = "all") then inl DeliverAll
      else if decide (w = "last") then inl DeliverLast
      else if decide (w = "last_per_subject") then inl DeliverLastPerSubject
      else if decide (w = "new") then inl DeliverNew
      else inr "Invalid option for DeliverPolicy"
  | [w; arg] =>
      if decide (w = "by_start_sequence") then
        match parse_u64 arg with Some n => inl (ByStartSequence n) | None => inr "start_sequence is not a valid unsigned integer" end
      else if decide (w = "by_start_time") then
        match parse_i64 arg with Some n => inl (ByStartTime n) | None => inr "epoch time should be in milliseconds" end
      else inr "Invalid option for DeliverPolicy"
  | _ => inr "Invalid option for DeliverPolicy"
  end.

Example deliver_policies :
  parse_deliver_policy <$> ["  All "; "last_per_subject"; "By_Start_Sequence 12"; "by_start_time -5"; "all new"; ""] =
  [inl DeliverAll; inl DeliverLastPerSubject; inl (ByStartSequence 12); inl (ByStartTime (-5));
   inr "Invalid option for DeliverPolicy"; inr "Invalid option for DeliverPolicy"].
Proof. vm_compute. reflexivity. Qed.

(** * JetStream *)

Record JsSourceMessage := mkJsSourceMessage {
  jm_value : string;
  jm_stream_sequence : Z;
  jm_published : DateTime;
  jm_headers : gmap string string
}.
(** What the client delivers; [jr_info] is the sequence and the time of publication, if the reply
    subject can be read. *)
Record JsRaw := mkJsRaw { jr_payload : string; jr_headers : option (list (string * list string)); jr_info : option (Z * DateTime) }.

(** Only the first value of a header is used. *)
Definition js_try_from (m : JsRaw) : JsSourceMessage + string :=
  match jr_info m with
  | None => inr "fetching message metadata from Jetstream"
  | Some (seq, published) =>
      inl (mkJsSourceMessage (jr_payload m) seq published
             (foldl (fun h kv => <[kv.1 := default "" (head kv.2)]> h) ∅ (default [] (jr_headers m))))
  end.

Inductive AckKind := AckAck | AckNak | AckProgress.

(** ** The task of a message

    [start_work_in_progress]: it sends progress at every tick until its signal comes, and then the final
    verdict; when the handle is dropped without a signal the verdict is a nak. *)
Inductive WipEvent := WTick (cancelled : bool) | WSignal (k : AckKind) | WDropped.
Fixpoint wip (evs : list WipEvent) : list AckKind * option AckKind :=
  match evs with
  | [] => ([], None)
  | WTick cancelled :: evs => let (sent, v) := wip evs in (if cancelled then sent else AckProgress :: sent, v)
  | WSignal k :: _ => ([], Some k)
  | WDropped :: _ => ([], Some AckNak)
  end.

(** [invoke_ack_with_retry]: until the server takes it or the source is cancelled; [fuel] bounds the
    attempts. Whether it was taken, and the attempts. *)
Fixpoint js_ack_with_retry (fuel : nat) (answers cancelled : nat -> bool) (i : nat) : option (bool * nat) :=
  match fuel with
  | O => None
  | S fuel =>
      if answers i then Some (true, S i)
      else if cancelled i then Some (false, S i)
      else js_ack_with_retry fuel answers cancelled (S i)
  end.

(** ** The actor

    Deliveries are numbered. [ja_in_progress]: the handles of the tasks by sequence; [ja_verdicts]: the
    verdicts signalled to the tasks. *)
Record JetstreamActor := mkJsActor {
  ja_in_progress : gmap Z nat;
  ja_verdicts : list (nat * AckKind);
  ja_count : nat
}.
Definition js_actor_new : JetstreamActor := mkJsActor ∅ [] 0.

(** [process_message]: a task of its own; the handle of an earlier delivery of the sequence is dropped. *)
Definition js_process_message (raw : JsRaw) (a : JetstreamActor) : (JsSourceMessage + string) * JetstreamActor :=
  match js_try_from raw with
  | inr e => (inr e, a)
  | inl m =>
      let dropped := match ja_in_progress a !! jm_stream_sequence m with Some d => [(d, AckNak)] | None => [] end in
      (inl m, mkJsActor (<[jm_stream_sequence m := ja_count a]> (ja_in_progress a)) (ja_verdicts a ++ dropped) (S (ja_count a)))
  end.

(** [read_messages]: [None] in the batch is a message that could not be fetched; a batch that could
    not be asked for is empty. *)
Fixpoint js_read_batch (batch : list (option JsRaw)) (ms : list JsSourceMessage) (a : JetstreamActor) : (list JsSourceMessage + string) * JetstreamActor :=
  match batch with
  | [] => (inl ms, a)
  | None :: batch => js_read_batch batch ms a
  | Some raw :: batch =>
      match js_process_message raw a with
      | (inr e, a) => (inr e, a)
      | (inl m, a) => js_read_batch batch (ms ++ [m]) a
      end
  end.
Definition js_read_messages (batch : option (list (option JsRaw))) (a : JetstreamActor) : (list JsSourceMessage + string) * JetstreamActor :=
  match batch with None => (inl [], a) | Some b => js_read_batch b [] a end.

(** [ack_messages] and [nack_messages]: an offset that is not known is passed over. *)
Definition js_settle_one (k : AckKind) (a : JetstreamActor) (offset : Z) : JetstreamActor :=
  match ja_in_progress a !! offset with
  | None => a
  | Some d => mkJsActor (delete offset (ja_in_progress a)) (ja_verdicts a ++ [(d, k)]) (ja_count a)
  end.
Definition js_settle (k : AckKind) (offs : list Z) (a : JetstreamActor) : JetstreamActor := foldl (js_settle_one k) a offs.

Definition js_source_pending (num_pending num_ack_pending : Z) : Z := (num_pending + num_ack_pending) mod 2 ^ 64.

(** ** As a source of the data plane *)

Definition js_into_message (vertex_name : string) (replica : Z) (m : JsSourceMessage) : Message :=
  let id := as_i64 (jm_stream_sequence m) in
  mkMessage Data [] None (jm_value m) (OInt (mkIntOffset id replica)) (jm_published m) None
    (mkMessageID vertex_name (pretty id +:+ "-" +:+ pretty replica) 0) (jm_headers m) (Some Metadata_default) false None.
Definition as_u64 (n : Z) : Z := n mod 2 ^ 64.
Fixpoint js_offsets (offs : list Offset) : list Z + string :=
  match offs with
  | [] => inl []
  | OString _ :: _ => inr "Expected integer offset for Jetstream source"
  | OInt o :: offs => match js_offsets offs with inr e => inr e | inl l => inl (as_u64 (io_offset o) :: l) end
  end.

(** ** Properties *)

Lemma as_u64_i64 n : 0 <= n < 2 ^ 64 -> as_u64 (as_i64 n) = n.
Proof.
  intros Hn. unfold as_u64, as_i64. rewrite (Z.mod_small n) by lia. destruct (Z.ltb_spec n (2 ^ 63)); [by rewrite Z.mod_small by lia|].
  replace (n - 2 ^ 64) with (n + (-1) * 2 ^ 64) by lia. rewrite Z.mod_add by lia. by rewrite Z.mod_small by lia.
Qed.
Lemma js_offsets_of vertex_name replica (ms : list JsSourceMessage) :
  Forall (fun m => 0 <= jm_stream_sequence m < 2 ^ 64) ms ->
  js_offsets (m_offset <$> (js_into_message vertex_name replica <$> ms)) = inl (jm_stream_sequence <$> ms).
Proof. induction 1 as [|m ms Hm Hms IH]; [done|]. cbn [fmap list_fmap js_offsets m_offset js_into_message io_offset]. rewrite IH, as_u64_i64 by done. done. Qed.

(** The final verdict of a task is the one signalled, and a nak if the handle is dropped; before it only
    progress is sent. *)
Lemma wip_verdict (ticks : list bool) e evs :
  (forall c, e <> WTick c) ->
  wip ((WTick <$> ticks) ++ e :: evs) = (replicate (length (filter (fun c => c = false) ticks)) AckProgress,
                                          match e with WSignal k => Some k | _ => Some AckNak end).
Proof.
  intros He. induction ticks as [|c ticks IH]; [destruct e; done || by destruct (He cancelled)|]. cbn [fmap list_fmap app wip]. rewrite IH.
  destruct c; [by rewrite filter_cons_False|by rewrite filter_cons_True].
Qed.

(** Every delivery is in progress or has been given one verdict. *)
Definition deliveries (a : JetstreamActor) : list nat := (ja_verdicts a).*1 ++ (map_to_list (ja_in_progress a)).*2.
Lemma process_deliveries raw a : deliveries a ≡ₚ seq 0 (ja_count a) -> deliveries (js_process_message raw a).2 ≡ₚ seq 0 (ja_count (js_process_message raw a).2).
Proof.
  unfold js_process_message, deliveries. intros Ha. destruct (js_try_from raw) as [m|]; [|done]. cbn [snd ja_verdicts ja_in_progress ja_count].
  rewrite seq_S, <- Ha. destruct (ja_in_progress a !! jm_stream_sequence m) as [d|] eqn:E.
  - rewrite <- insert_delete_eq. rewrite map_to_list_insert by apply lookup_delete_eq.
    rewrite <- (map_to_list_delete _ _ _ E). cbn. rewrite fmap_app. cbn. solve_Permutation.
  - rewrite app_nil_r. rewrite map_to_list_insert by done. cbn. solve_Permutation.
Qed.
Lemma settle_deliveries k offs a : deliveries a ≡ₚ seq 0 (ja_count a) -> deliveries (js_settle k offs a) ≡ₚ seq 0 (ja_count (js_settle k offs a)).
Proof.
  unfold js_settle. revert a. induction offs as [|o offs IH]; intros a Ha; [done|]. cbn [foldl]. apply IH. unfold js_settle_one, deliveries in *.
  destruct (ja_in_progress a !! o) as [d|] eqn:E; [|done]. cbn [ja_verdicts ja_in_progress ja_count]. rewrite <- Ha.
  rewrite <- (map_to_list_delete _ _ _ E). rewrite fmap_app. cbn. solve_Permutation.
Qed.
Lemma read_deliveries batch ms a : deliveries a ≡ₚ seq 0 (ja_count a) -> deliveries (js_read_batch batch ms a).2 ≡ₚ seq 0 (ja_count (js_read_batch batch ms a).2).
Proof.
  revert ms a. induction batch as [|[raw|] batch IH]; intros ms a Ha; cbn [js_read_batch]; [done| |by apply IH].
  pose proof (process_deliveries raw a Ha) as Hp. destruct (js_process_message raw a) as [[m|e] a']; [by apply IH|done].
Qed.

(** ** Where the code falls short *)

Definition js_ex (seq : Z) : JsRaw := mkJsRaw "x" None (Some (seq, 0)).

(** A message that is delivered again while it is in progress: the handle of the first delivery is
    dropped, and its task sends a nak though nobody rejected the message. *)
Example redelivery_naks :
  ja_verdicts (js_read_messages (Some [Some (js_ex 7)]) (js_read_messages (Some [Some (js_ex 7)]) js_actor_new).2).2 = [(0%nat, AckNak)].
Proof. vm_compute. reflexivity. Qed.

(** A message that cannot be converted fails the read; those before it are not returned, and their tasks
    keep them in progress. *)
Example js_read_error_drops :
  let (r, a) := js_read_messages (Some [Some (js_ex 1); Some (mkJsRaw "y" None None)]) js_actor_new in
  (r, map_to_list (ja_in_progress a)) = (inr "fetching message metadata from Jetstream", [(1, 0%nat)]).
Proof. vm_compute. reflexivity. Qed.

(** * NATS *)

Record NatsMessage := mkNatsMessage { nm_value : string; nm_id : string; nm_event_time : DateTime }.

(** A receive takes a time and gives a payload, with a fresh id and the clock, or the end of the
    subscription. *)
Fixpoint nats_read_loop (batch_size : nat) (read_timeout : Z) (recvs : list (Z * option NatsMessage)) (now : Z) (ms : list NatsMessage) : list NatsMessage :=
  if decide (batch_size <= length ms)%nat then ms
  else
    match recvs with
    | [] => ms
    | (wait, r) :: recvs =>
        if read_timeout <=? now + wait then ms
        else match r with None => ms | Some m => nats_read_loop batch_size read_timeout recvs (now + wait) (ms ++ [m]) end
    end.
Definition nats_read_messages (cancelled : bool) (batch_size : nat) (read_timeout : Z) (recvs : list (Z * option NatsMessage)) : option (list NatsMessage) :=
  if cancelled then None else Some (nats_read_loop batch_size read_timeout recvs 0 []).

Definition nats_into_message (vertex_name : string) (replica : Z) (m : NatsMessage) : Message :=
  mkMessage Data [] None (nm_value m) (OString (mkStringOffset (nm_id m) replica)) (nm_event_time m) None
    (mkMessageID vertex_name (nm_id m +:+ "-" +:+ pretty replica) 0) ∅ (Some Metadata_default) false None.

Lemma nats_read_batch batch_size timeout recvs now ms :
  exists k, nats_read_loop batch_size timeout recvs now ms = ms ++ omap snd (take k recvs) /\
    (length (nats_read_loop batch_size timeout recvs now ms) <= Nat.max batch_size (length ms))%nat.
Proof.
  revert now ms. induction recvs as [|[w r] recvs IH]; intros now ms; cbn [nats_read_loop]; case_decide; try (exists 0%nat; rewrite app_nil_r; split; [done|lia]).
  destruct (Z.leb_spec timeout (now + w)); [exists 0%nat; rewrite app_nil_r; split; [done|lia]|]. destruct r as [m|]; [|exists 0%nat; rewrite app_nil_r; split; [done|lia]].
  destruct (IH (now + w) (ms ++ [m])) as (k & E & Hl). exists (S k). cbn. rewrite E in Hl |- *. rewrite <- app_assoc in *. cbn in *. split; [done|].
  rewrite !length_app in *. cbn in *. lia.
Qed.
