(* ===== verification/BuiltinSinks.v ===== *)
(** The built-in sinks: log, blackhole and serve (numaflow-core's sinker/sink/), SQS
    (src/rust/extns/numaflow-sqs/src/sink.rs), Kafka (numaflow-kafka/src/sink.rs) and Pulsar
    (numaflow-pulsar/src/sink.rs), each with its adapter under sinker/sink/: the messages they make and
    the answers they give, and that the actor in front of a sink accepts these answers.

    The clients of the services are external: what a service answers is an argument. *)
From S2P Require Import Prelude Clock Message Wal Backoff SinkActor HttpSource SqsSource.
From stdpp Require Import pretty.
#[local] Open Scope Z_scope.

(** The text of the id of each message; a panic ends the call. *)
Definition ids_of (ms : list Message) : option (list string) := mapM (fun m => message_id_to_string (m_id m)) ms.
Definition panicked {A} : Result A := Err (EActorPatternRecv "the actor panicked").

(** What the actor needs of a sink: one answer per message. *)
Class AnswersAll (sink : list Message -> Result (list ResponseFromSink)) : Prop :=
  answers_all : forall ms rs, sink ms = Ok rs -> exists ids, ids_of ms = Some ids /\ resp_id <$> rs ≡ₚ ids.

(** * Log, blackhole, serve *)

Definition answer_each (status : ResponseStatusFromSink) (ms : list Message) : Result (list ResponseFromSink) :=
  match ids_of ms with
  | None => panicked
  | Some ids => Ok ((fun id => mkResponse id status) <$> ids)
  end.
Definition log_sink : list Message -> Result (list ResponseFromSink) := answer_each SSuccess.
Definition blackhole_sink : list Message -> Result (list ResponseFromSink) := answer_each SSuccess.
Definition serve_sink : list Message -> Result (list ResponseFromSink) := answer_each (SinkActor.SServe None).

Lemma answer_each_all status : AnswersAll (answer_each status).
Proof.
  intros ms rs. unfold answer_each. destruct (ids_of ms) as [ids|]; [|done]. intros [= <-]. exists ids. split; [done|].
  rewrite <- list_fmap_compose. cbn. by rewrite list_fmap_id.
Qed.
#[global] Instance log_answers : AnswersAll log_sink := answer_each_all SSuccess.
#[global] Instance blackhole_answers : AnswersAll blackhole_sink := answer_each_all SSuccess.
#[global] Instance serve_answers : AnswersAll serve_sink := answer_each_all (SinkActor.SServe None).

(** An answer of a service, success or an error, as an answer of the sink. *)
Record ServiceResponse := mkServiceResponse { sr_id : string; sr_error : option string }.
Definition into_response (r : ServiceResponse) : ResponseFromSink :=
  mkResponse (sr_id r) (match sr_error r with None => SSuccess | Some e => SFailed e end).

(** * SQS *)

Definition SQS_METADATA_KEY : string := "sqs".
Definition HEADER_DELAY_SECONDS : string := "DelaySeconds".
Definition HEADER_MESSAGE_GROUP_ID : string := "MessageGroupId".
Definition HEADER_MESSAGE_DEDUPLICATION_ID : string := "MessageDeduplicationId".
Definition SQS_MAX_BATCH_SIZE : nat := 10.

Record SqsSinkMessage := mkSqsSink { sk_id : string; sk_body : string; sk_headers : gmap string string }.
(** The headers, with those of the user metadata that are text. *)
Definition sqs_sink_message (m : Message) : option SqsSinkMessage :=
  let? id := message_id_to_string (m_id m) in
  let sqs : gmap string string := match m_metadata m with
             | Some md => match user_metadata md !! SQS_METADATA_KEY with Some g => filter (fun kv => utf8_valid kv.2 = true) (key_value g) | None => ∅ end
             | None => ∅
             end in
  Some (mkSqsSink id (m_value m) (sqs ∪ m_headers m)).

Record BatchEntry := mkEntry { be_id : string; be_body : string; be_delay : option Z; be_group : option string; be_dedup : option string }.
Definition batch_entry (index : nat) (m : SqsSinkMessage) : BatchEntry :=
  mkEntry ("msg_" +:+ pretty (N.of_nat index)) (from_utf8_lossy (sk_body m))
    (let? d := sk_headers m !! HEADER_DELAY_SECONDS in let? n := parse_i32 d in if 0 <=? n then Some n else None)
    (sk_headers m !! HEADER_MESSAGE_GROUP_ID) (sk_headers m !! HEADER_MESSAGE_DEDUPLICATION_ID).

(** The answers of the service name the entries: the ids of the messages are looked up and removed, an
    unknown one panics. *)
Fixpoint correlate {A} (key : A -> string) (error : A -> option string) (ids : gmap string string) (l : list A) :
    option (list ServiceResponse * gmap string string) :=
  match l with
  | [] => Some ([], ids)
  | x :: l =>
      let? id := ids !! key x in
      let? (rs, ids) := correlate key error (delete (key x) ids) l in
      Some (mkServiceResponse id (error x) :: rs, ids)
  end.

Section Sqs.
(** [SendMessageBatch]: the ids of the entries that were taken, and of those that failed with a
    message; [None] if the call fails. *)
Context (send : list BatchEntry -> option (list string * list (string * string))).

Definition entries_of (chunk : list SqsSinkMessage) : list BatchEntry := imap batch_entry chunk.
Definition id_correlation (chunk : list SqsSinkMessage) : gmap string string :=
  list_to_map (zip (be_id <$> entries_of chunk) (sk_id <$> chunk)).
Definition sqs_sink_chunk (chunk : list SqsSinkMessage) : option (Result (list ServiceResponse)) :=
  match send (entries_of chunk) with
  | None => Some (Err (ESink "SendMessageBatch"))
  | Some (successful, failed) =>
      let? (ok, ids) := correlate id (fun _ => None) (id_correlation chunk) successful in
      let? (bad, _) := correlate fst (fun f => Some f.2) ids failed in
      Some (Ok (ok ++ bad))
  end.
Fixpoint sqs_sink_chunks (cs : list (list SqsSinkMessage)) : option (Result (list ServiceResponse)) :=
  match cs with
  | [] => Some (Ok [])
  | c :: cs =>
      let? r := sqs_sink_chunk c in
      match r with
      | Err e => Some (Err e)
      | Ok rs => let? r' := sqs_sink_chunks cs in Some (match r' with Err e => Err e | Ok rs' => Ok (rs ++ rs') end)
      end
  end.
Definition sqs_sink_messages (ms : list SqsSinkMessage) : option (Result (list ServiceResponse)) :=
  sqs_sink_chunks (chunks (length ms) SQS_MAX_BATCH_SIZE ms).

Definition sqs_sink (ms : list Message) : Result (list ResponseFromSink) :=
  match mapM sqs_sink_message ms with
  | None => panicked
  | Some l =>
      match sqs_sink_messages l with
      | None => panicked
      | Some (Err e) => Err e
      | Some (Ok rs) => Ok (into_response <$> rs)
      end
  end.
End Sqs.

(** * Kafka *)

Record KafkaSinkMessage := mkKafkaSink { ks_id : string; ks_partition_key : option string; ks_headers : gmap string string; ks_payload : string }.
Definition key_headers (m : Message) : gmap string string :=
  foldl (fun h ik => <["__key_" +:+ pretty (N.of_nat ik.1) := ik.2]> h)
    (<["__key_len" := pretty (N.of_nat (length (m_keys m)))]> (m_headers m)) (zip (seq 0 (length (m_keys m))) (m_keys m)).
Fixpoint join (sep : string) (l : list string) : string :=
  match l with [] => "" | [x] => x | x :: l => x +:+ sep +:+ join sep l end.
Definition kafka_sink_message (m : Message) : option KafkaSinkMessage :=
  let? id := message_id_to_string (m_id m) in
  Some (mkKafkaSink id (match m_keys m with [] => None | ks => Some (join ":" ks) end) (key_headers m) (m_value m)).

(** The record that is sent: with a key only if it is configured. *)
Definition record_key (set_partition_key : bool) (m : KafkaSinkMessage) : option string :=
  if set_partition_key then ks_partition_key m else None.

(** The sends run at once; their results come in the order of completion. [None]: it was sent. *)
Definition kafka_sink_messages (send : KafkaSinkMessage -> option string) (completion : list KafkaSinkMessage -> list KafkaSinkMessage)
    (ms : list KafkaSinkMessage) : list ServiceResponse :=
  (fun m => mkServiceResponse (ks_id m) (send m)) <$> completion ms.
Definition kafka_sink (send : KafkaSinkMessage -> option string) (completion : list KafkaSinkMessage -> list KafkaSinkMessage)
    (ms : list Message) : Result (list ResponseFromSink) :=
  match mapM kafka_sink_message ms with
  | None => panicked
  | Some l => Ok (into_response <$> kafka_sink_messages send completion l)
  end.

(** * Pulsar *)

Record PulsarSinkMessage := mkPulsarSink { ps_id : string; ps_properties : gmap string string; ps_event_time_ms : Z; ps_payload : string }.

Section Pulsar.
Context `{Chrono}.
(** Whether the producer takes the message, and whether the broker then confirms it. *)
Context (enqueue : PulsarSinkMessage -> option string) (confirm : PulsarSinkMessage -> option string).

Definition pulsar_sink_message (m : Message) : option (Result PulsarSinkMessage) :=
  let? id := message_id_to_string (m_id m) in
  let t := timestamp_millis (m_event_time m) in
  Some (if t <? 0 then Err (ESink "Event time is negative") else Ok (mkPulsarSink id (key_headers m) t (m_value m))).
Fixpoint pulsar_sink_convert (ms : list Message) : option (Result (list PulsarSinkMessage)) :=
  match ms with
  | [] => Some (Ok [])
  | m :: ms =>
      let? r := pulsar_sink_message m in
      match r with
      | Err e => Some (Err e)
      | Ok x => let? r' := pulsar_sink_convert ms in Some (match r' with Err e => Err e | Ok l => Ok (x :: l) end)
      end
  end.
(** All are handed to the producer first; one it does not take fails the call. *)
Definition pulsar_sink_messages (ms : list PulsarSinkMessage) : Result (list ServiceResponse) :=
  match omap enqueue ms with
  | e :: _ => Err (ESink e)
  | [] => Ok ((fun m => mkServiceResponse (ps_id m) (confirm m)) <$> ms)
  end.
Definition pulsar_sink (ms : list Message) : Result (list ResponseFromSink) :=
  match pulsar_sink_convert ms with
  | None => panicked
  | Some (Err e) => Err e
  | Some (Ok l) => match pulsar_sink_messages l with Err e => Err e | Ok rs => Ok (into_response <$> rs) end
  end.
End Pulsar.

(** * One answer per message *)

Lemma ids_of_convert {A} (f : Message -> option A) (key : A -> string) ms l :
  (forall m x, f m = Some x -> message_id_to_string (m_id m) = Some (key x)) -> mapM f ms = Some l -> ids_of ms = Some (key <$> l).
Proof.
  intros Hf Hl. apply mapM_Some in Hl. unfold ids_of. apply mapM_Some. induction Hl as [|m x ms l Hx Hl IH]; [constructor|]. cbn. constructor; auto.
Qed.
Lemma into_response_ids (rs : list ServiceResponse) : resp_id <$> (into_response <$> rs) = sr_id <$> rs.
Proof. by rewrite <- list_fmap_compose. Qed.

#[global] Instance kafka_answers send completion : (forall ms, completion ms ≡ₚ ms) -> AnswersAll (kafka_sink send completion).
Proof.
  intros Hc ms rs. unfold kafka_sink. destruct (mapM kafka_sink_message ms) as [l|] eqn:E; [|done]. intros [= <-].
  exists (ks_id <$> l). split; [apply (ids_of_convert kafka_sink_message); [|done]|].
  - intros m x. unfold kafka_sink_message. destruct (message_id_to_string (m_id m)); cbn; [|done]. by intros [= <-].
  - rewrite into_response_ids. unfold kafka_sink_messages. rewrite <- list_fmap_compose. cbn. by rewrite Hc.
Qed.

Lemma pulsar_convert_ids `{Chrono} ms l : pulsar_sink_convert ms = Some (Ok l) -> ids_of ms = Some (ps_id <$> l).
Proof.
  revert l. induction ms as [|m ms IH]; intros l; [by intros [= <-]|]. cbn [pulsar_sink_convert]. unfold pulsar_sink_message.
  unfold ids_of in *. cbn [mapM]. destruct (message_id_to_string (m_id m)) as [id|]; [|done]. cbn.
  destruct (timestamp_millis (m_event_time m) <? 0); [done|]. destruct (pulsar_sink_convert ms) as [[l'|e]|]; cbn; [|done..].
  intros [= <-]. by rewrite (IH l' eq_refl).
Qed.
#[global] Instance pulsar_answers `{Chrono} enqueue confirm : AnswersAll (pulsar_sink enqueue confirm).
Proof.
  intros ms rs. unfold pulsar_sink. destruct (pulsar_sink_convert ms) as [[l|e]|] eqn:E; [|done..]. unfold pulsar_sink_messages.
  destruct (omap enqueue l); [|done]. intros [= <-]. exists (ps_id <$> l). split; [by apply pulsar_convert_ids|].
  rewrite into_response_ids. by rewrite <- list_fmap_compose.
Qed.

(** The service names every entry once, as taken or as failed. *)
Definition send_names_all (send : list BatchEntry -> option (list string * list (string * string))) : Prop :=
  forall es ok failed, send es = Some (ok, failed) -> ok ++ failed.*1 ≡ₚ be_id <$> es.

Lemma correlate_spec {A} (key : A -> string) error (l : list A) (ids : list (string * string)) rest :
  NoDup ids.*1 -> (key <$> l) ++ rest ≡ₚ ids.*1 ->
  exists rs ids', correlate key error (list_to_map ids) l = Some (rs, list_to_map ids') /\
    NoDup ids'.*1 /\ rest ≡ₚ ids'.*1 /\ (sr_id <$> rs) ++ ids'.*2 ≡ₚ ids.*2.
Proof.
  revert ids. induction l as [|x l IH]; intros ids Hn Hp; cbn [fmap list_fmap app] in Hp; [by exists [], ids|].
  assert (Hk : key x ∈ ids.*1) by (rewrite <- Hp; set_solver). apply list_elem_of_fmap in Hk as ([k id] & Ek & Hin). cbn in Ek.
  apply elem_of_Permutation in Hin as [ids1 Hids]. rewrite Hids in Hn, Hp. cbn in Hn, Hp. rewrite <- Ek in Hn, Hp.
  apply NoDup_cons in Hn as [Hx Hn]. apply Permutation.Permutation_cons_inv in Hp.
  destruct (IH ids1 Hn Hp) as (rs & ids' & E & H1 & H2 & H3).
  assert (Em : (list_to_map ids : gmap string string) = <[key x := id]> (list_to_map ids1)).
  { rewrite Ek. change (<[k := id]> (list_to_map ids1)) with (list_to_map ((k, id) :: ids1) : gmap string string).
    apply list_to_map_proper; [|done]. rewrite Hids. cbn. rewrite <- Ek. by constructor. }
  exists (mkServiceResponse id (error x) :: rs), ids'. cbn [correlate]. rewrite Em, lookup_insert_eq. cbn.
  rewrite delete_insert_id by (by apply not_elem_of_list_to_map_1). rewrite E. cbn. split_and!; [done..|]. rewrite Hids. cbn. by rewrite H3.
Qed.

Lemma entries_ids_NoDup i chunk : NoDup (be_id <$> imap (fun j => batch_entry (i + j)) chunk).
Proof.
  assert (Hge : forall chunk i k, ("msg_" +:+ pretty (N.of_nat k)) ∈ (be_id <$> imap (fun j => batch_entry (i + j)) chunk) -> (i <= k)%nat).
  { clear. induction chunk as [|m chunk IH]; intros i k; [by intros []%not_elem_of_nil|]. cbn. intros [E|Hin]%elem_of_cons.
    - rewrite Nat.add_0_r in E. apply (inj (String.append "msg_")), (inj pretty) in E. lia.
    - specialize (IH (S i) k). rewrite (imap_ext _ (fun j => batch_entry (S i + j))) in Hin by (intros; cbn; f_equal; lia). specialize (IH Hin). lia. }
  revert i. induction chunk as [|m chunk IH]; intros i; [constructor|]. cbn. constructor.
  - intros Hin. rewrite Nat.add_0_r in Hin. rewrite (imap_ext _ (fun j => batch_entry (S i + j))) in Hin by (intros; cbn; f_equal; lia).
    apply Hge in Hin. lia.
  - rewrite (imap_ext _ (fun j => batch_entry (S i + j))) by (intros; cbn; f_equal; lia). apply IH.
Qed.
Lemma entries_of_NoDup chunk : NoDup (be_id <$> entries_of chunk).
Proof. unfold entries_of. rewrite (imap_ext _ (fun j => batch_entry (0 + j))) by done. apply entries_ids_NoDup. Qed.

Lemma sqs_chunk_ids send chunk : send_names_all send ->
  match sqs_sink_chunk send chunk with
  | None => False
  | Some (Err _) => True
  | Some (Ok rs) => sr_id <$> rs ≡ₚ sk_id <$> chunk
  end.
Proof.
  intros Hs. unfold sqs_sink_chunk. destruct (send (entries_of chunk)) as [[ok failed]|] eqn:E; [|done]. apply Hs in E.
  pose proof (entries_of_NoDup chunk) as Hn. unfold id_correlation. set (ids := zip (be_id <$> entries_of chunk) (sk_id <$> chunk)).
  assert (Hl : length (be_id <$> entries_of chunk) = length (sk_id <$> chunk)) by (unfold entries_of; by rewrite !length_fmap, length_imap).
  assert (E1 : ids.*1 = be_id <$> entries_of chunk) by (apply fst_zip; lia). assert (E2 : ids.*2 = sk_id <$> chunk) by (apply snd_zip; lia).
  destruct (correlate_spec id (fun _ => None) ok ids failed.*1) as (rs1 & ids1 & C1 & N1 & P1 & Q1); [by rewrite E1|by rewrite list_fmap_id, E1|].
  rewrite C1. cbn. destruct (correlate_spec fst (fun f : string * string => Some f.2) failed ids1 []) as (rs2 & ids2 & C2 & N2 & P2 & Q2);
    [done|by rewrite app_nil_r|]. rewrite C2. cbn.
  apply Permutation_nil_l in P2. symmetry in P2. apply fmap_nil_inv in P2. subst ids2. cbn in Q2. rewrite app_nil_r in Q2.
  rewrite fmap_app, Q2. by rewrite Q1, E2.
Qed.
Lemma sqs_chunks_ids send cs : send_names_all send ->
  match sqs_sink_chunks send cs with
  | None => False
  | Some (Err e) => e = ESink "SendMessageBatch" /\ exists es, send es = None
  | Some (Ok rs) => sr_id <$> rs ≡ₚ sk_id <$> concat cs
  end.
Proof.
  intros Hs. induction cs as [|c cs IH]; [by cbn; constructor|]. cbn [sqs_sink_chunks]. pose proof (sqs_chunk_ids send c Hs) as Hc.
  assert (He : forall e, sqs_sink_chunk send c = Some (Err e) -> e = ESink "SendMessageBatch" /\ exists es, send es = None).
  { intros e. unfold sqs_sink_chunk. destruct (send (entries_of c)) as [[ok bad]|] eqn:Esend; [|intros [= <-]; by eauto].
    destruct (correlate id _ _ ok) as [[rs ids]|]; [|done]. cbn [mbind option_bind]. by destruct (correlate fst _ _ bad) as [[]|]. }
  destruct (sqs_sink_chunk send c) as [[rs|e]|]; cbn; [|by apply He|done].
  destruct (sqs_sink_chunks send cs) as [[rs'|e]|]; cbn; [|done..]. by rewrite !fmap_app, Hc, IH.
Qed.
#[global] Instance sqs_answers send : send_names_all send -> AnswersAll (sqs_sink send).
Proof.
  intros Hs ms rs. unfold sqs_sink. destruct (mapM sqs_sink_message ms) as [l|] eqn:E; [|done].
  pose proof (sqs_chunks_ids send (chunks (length l) SQS_MAX_BATCH_SIZE l) Hs) as Hc. unfold sqs_sink_messages.
  destruct (sqs_sink_chunks _ _) as [[rs'|e]|]; [|done..]. intros [= <-]. exists (sk_id <$> l). split.
  - apply (ids_of_convert sqs_sink_message); [|done]. intros m x. unfold sqs_sink_message. destruct (message_id_to_string (m_id m)); cbn; [|done]. by intros [= <-].
  - rewrite into_response_ids, Hc. destruct (chunks_concat (length l) SQS_MAX_BATCH_SIZE l) as [-> _]; [unfold SQS_MAX_BATCH_SIZE; lia|done|done].
Qed.

(** * In front of a built-in sink *)

Lemma result_map_of_NoDup (rs : list ResponseFromSink) (rm : gmap string ResponseStatusFromSink) :
  NoDup (resp_id <$> rs) -> (forall r, r ∈ rs -> rm !! resp_id r = None) ->
  exists rm', result_map_of rs rm = Ok rm' /\ dom rm' = dom rm ∪ list_to_set (resp_id <$> rs).
Proof.
  revert rm. induction rs as [|r rs IH]; intros rm Hn Hf; [exists rm; split; [done|set_solver]|]. cbn in Hn. apply NoDup_cons in Hn as [Hr Hn].
  cbn [result_map_of]. rewrite Hf by set_solver. destruct (IH (<[resp_id r := resp_status r]> rm)) as (rm' & E & Hd); [done| |].
  - intros r' Hr'. rewrite lookup_insert_ne; [apply Hf; set_solver|]. intros E. apply Hr. rewrite E. by apply list_elem_of_fmap_2.
  - exists rm'. split; [done|]. rewrite Hd, dom_insert_L. set_solver.
Qed.
Lemma classify_all (ms : list Message) (ids : list string) (rm : gmap string ResponseStatusFromSink) a :
  ids_of ms = Some ids -> NoDup ids -> dom rm = list_to_set ids -> exists a', classify rm ms a = Ok (∅, a').
Proof.
  revert ids rm a. induction ms as [|m ms IH]; intros ids rm a Hi Hn Hd; unfold ids_of in *; cbn [mapM] in Hi.
  - injection Hi as <-. exists a. cbn in *. by rewrite (dom_empty_inv_L rm Hd).
  - destruct (message_id_to_string (m_id m)) as [id|] eqn:Em; [|done]. destruct (mapM _ ms) as [ids'|] eqn:El; [|done]. injection Hi as <-.
    apply NoDup_cons in Hn as [Hid Hn]. cbn [classify]. rewrite Em.
    destruct (rm !! id) as [st|] eqn:E; [|exfalso; apply not_elem_of_dom in E; rewrite Hd in E; set_solver].
    apply (IH ids'); [done..|]. rewrite dom_delete_L, Hd. set_solver.
Qed.

Lemma ids_of_ids (ms : list Message) ids : ids_of ms = Some ids <-> message_id_to_string <$> (m_id <$> ms) = Some <$> ids.
Proof.
  unfold ids_of. rewrite mapM_Some, <- list_fmap_compose. split.
  - induction 1 as [|m id ms ids Hm _ IH]; [done|]. cbn. by rewrite Hm, IH.
  - revert ids. induction ms as [|m ms IH]; intros [|id ids]; try done. cbn. intros [= Hm Hms]. constructor; [done|by apply IH].
Qed.

(** The messages that an actor still has of a batch have ids, all different, if the batch has. *)
Lemma accounted_ids strategy (ms batch : list Message) ids h a :
  ids_of ms = Some ids -> NoDup ids -> accounted strategy (m_id <$> ms) h a -> m_id <$> batch = m_id <$> r_failed a ->
  exists l, ids_of batch = Some l /\ NoDup l.
Proof.
  intros Hi Hn (dn & _ & Hp & _) Hb. apply ids_of_ids in Hi.
  assert (Hsub : message_id_to_string <$> (m_id <$> batch) ⊆+ Some <$> ids).
  { rewrite <- Hi. apply fmap_submseteq. rewrite Hb, <- Hp, kept_split, fmap_app. apply submseteq_inserts_l. by apply submseteq_inserts_r. }
  assert (Hall : Forall is_Some (message_id_to_string <$> (m_id <$> batch))).
  { apply Forall_forall. intros x Hx. apply (elem_of_submseteq _ _ _ Hx) in Hsub.
    apply list_elem_of_fmap in Hsub as (y & -> & _). done. }
  assert (Hex : exists l, message_id_to_string <$> (m_id <$> batch) = Some <$> l).
  { clear -Hall. induction (message_id_to_string <$> (m_id <$> batch)) as [|x l IH]; [by exists []|]. apply Forall_cons in Hall as [[y ->] Hall].
    destruct (IH Hall) as [l' ->]. by exists (y :: l'). }
  destruct Hex as [l El]. exists l. split; [by apply ids_of_ids|]. rewrite El in Hsub.
  apply submseteq_Permutation in Hsub as [k Hk]. apply (NoDup_fmap_1 Some).
  assert (Hnd : NoDup (Some <$> ids)) by (by apply NoDup_fmap_2; [apply _|]). rewrite Hk in Hnd. by apply NoDup_app in Hnd as [? _].
Qed.

Section Accepted.
Context (powi : F64 -> Z -> F64) (random_factor : Z -> F64) (cancelled : list (list Message * Result (list ResponseFromSink)) -> bool).
Context (sink : list (list Message * Result (list ResponseFromSink)) -> list Message -> Result (list ResponseFromSink)).
Context (Hsink : forall h, AnswersAll (sink h)) (cfg : RetryConfig).

Lemma builtin_round (ms : list Message) ids h n a :
  ids_of ms = Some ids -> NoDup ids -> accounted (sink_retry_on_fail_strategy cfg) (m_id <$> ms) h a ->
  forall e, (sink_round sink h n a).1 = Err e -> exists batch l, ids_of batch = Some l /\ sink h batch = Err e.
Proof.
  intros Hi Hn Ha e. unfold sink_round. cbn [fst]. set (batch := (fun m => message_set_sink_retry_count m n) <$> r_failed a).
  destruct (accounted_ids _ ms batch ids h a Hi Hn Ha ltac:(apply stamp_ids)) as (l & El & Hn').
  destruct (sink h batch) as [rs|e'] eqn:Es; [|intros [= <-]; by eauto]. destruct (Hsink h batch rs Es) as (l' & El' & Hp). simplify_eq.
  destruct (result_map_of_NoDup rs ∅) as (rm & -> & Hd); [by rewrite Hp|by intros; apply lookup_empty|].
  destruct (classify_all batch l rm (take_failed a) El Hn') as [a' ->]; [|by rewrite decide_True].
  rewrite Hd, dom_empty_L, (left_id_L ∅ union). by rewrite Hp.
Qed.

Lemma builtin_loop (ms : list Message) ids fuel b n a h r h' :
  ids_of ms = Some ids -> NoDup ids -> accounted (sink_retry_on_fail_strategy cfg) (m_id <$> ms) h a ->
  write_loop powi random_factor cancelled sink cfg fuel b n a h = Some (r, h') ->
  forall e, r = Err e -> exists h0 batch l, ids_of batch = Some l /\ sink h0 batch = Err e.
Proof.
  intros Hi Hn. revert b n a h. induction fuel as [|fuel IH]; intros b n a h Ha; [done|]. cbn [write_loop].
  destruct (sink_round sink h n a) as [[a'|e'] h1] eqn:Er.
  - pose proof (proj1 (sink_round_accounted _ _ _ _ _ _ _ _ Er Ha)) as Ha'. destruct (r_failed a'); [by intros [= <- <-]|].
    destruct (cancelled h1); [by intros [= <- <-]|]. destruct (exponential_next _ _ b) as [[d|] b']; [by apply IH|by intros [= <- <-]].
  - intros [= <- <-] e [= <-]. destruct (builtin_round ms ids h n a Hi Hn Ha e') as (batch & l & Hl & Hb); [by rewrite Er|]. eauto.
Qed.
End Accepted.

(** ** The built-in sinks by name *)

(** The answers of a service may depend on all the attempts before. *)
Abbreviation Attempts := (list (list Message * Result (list ResponseFromSink))) (only parsing).
Inductive BuiltinSink :=
  | BLog
  | BBlackhole
  | BServe
  | BSqs (send : Attempts -> list BatchEntry -> option (list string * list (string * string)))
  | BKafka (send : Attempts -> KafkaSinkMessage -> option string)
      (completion : Attempts -> list KafkaSinkMessage -> list KafkaSinkMessage)
  | BPulsar (enqueue confirm : Attempts -> PulsarSinkMessage -> option string).

Definition builtin_sink `{Chrono} (b : BuiltinSink) (h : Attempts) : list Message -> Result (list ResponseFromSink) :=
  match b with
  | BLog => log_sink
  | BBlackhole => blackhole_sink
  | BServe => serve_sink
  | BSqs send => sqs_sink (send h)
  | BKafka send completion => kafka_sink (send h) (completion h)
  | BPulsar enqueue confirm => pulsar_sink (enqueue h) (confirm h)
  end.

(** SQS names every entry of a request once; the sends to Kafka complete in some order, each once. *)
Definition services_ok (b : BuiltinSink) : Prop :=
  match b with
  | BSqs send => forall h, send_names_all (send h)
  | BKafka _ completion => forall h ms, completion h ms ≡ₚ ms
  | _ => True
  end.

(** The errors a sink gives for a batch: a failed call of SQS, and for Pulsar an event time before 1970
    or a message its producer does not take. *)
Definition own_error (b : BuiltinSink) (e : Error) : Prop :=
  match b with
  | BSqs send => e = ESink "SendMessageBatch" /\ exists h es, send h es = None
  | BPulsar enqueue _ => e = ESink "Event time is negative" \/ exists h m t, enqueue h m = Some t /\ e = ESink t
  | _ => False
  end.

Lemma builtin_answers `{Chrono} b h : services_ok b -> AnswersAll (builtin_sink b h).
Proof.
  intros Hs. destruct b; cbn [builtin_sink services_ok] in *; try apply _.
  - by apply sqs_answers.
  - apply kafka_answers. apply Hs.
Qed.

Lemma convert_ids_of {A} (f : Message -> option A) ms l :
  (forall m id, message_id_to_string (m_id m) = Some id -> is_Some (f m)) -> ids_of ms = Some l -> is_Some (mapM f ms).
Proof.
  intros Hf Hi. apply mapM_is_Some. apply mapM_Some in Hi. induction Hi as [|m id ms l Hm _ IH]; constructor; [by eapply Hf|done].
Qed.

Lemma pulsar_convert_some `{Chrono} ms l : ids_of ms = Some l ->
  match pulsar_sink_convert ms with None => False | Some (Err e) => e = ESink "Event time is negative" | Some (Ok _) => True end.
Proof.
  unfold ids_of. intros Hi%mapM_Some. induction Hi as [|m id ms l Hm _ IH]; [done|]. cbn [pulsar_sink_convert]. unfold pulsar_sink_message.
  rewrite Hm. cbn [mbind option_bind]. destruct (_ <? 0); [done|]. by destruct (pulsar_sink_convert ms) as [[]|].
Qed.

Lemma builtin_error `{Chrono} b h batch l e :
  services_ok b -> ids_of batch = Some l -> builtin_sink b h batch = Err e -> own_error b e.
Proof.
  intros Hs Hl. destruct b as [| | |send|send completion|enqueue confirm]; cbn [builtin_sink own_error services_ok] in *.
  1,2,3: unfold log_sink, blackhole_sink, serve_sink, answer_each; by rewrite Hl.
  - unfold sqs_sink. destruct (convert_ids_of sqs_sink_message batch l) as [x ->]; [|done|].
    { intros m id Hm. unfold sqs_sink_message. rewrite Hm. by eexists. }
    pose proof (sqs_chunks_ids (send h) (chunks (length x) SQS_MAX_BATCH_SIZE x) (Hs h)) as Hc. unfold sqs_sink_messages.
    destruct (sqs_sink_chunks _ _) as [[rs|e']|]; [done| |done]. intros [= <-]. destruct Hc as [-> (es & Hes)]. split; [done|]. by exists h, es.
  - unfold kafka_sink. destruct (convert_ids_of kafka_sink_message batch l) as [x ->]; [|done..].
    intros m id Hm. unfold kafka_sink_message. rewrite Hm. by eexists.
  - unfold pulsar_sink. pose proof (pulsar_convert_some batch l Hl) as Hc.
    destruct (pulsar_sink_convert batch) as [[x|e']|]; [| |done]; [|intros [= <-]; by left].
    unfold pulsar_sink_messages. destruct (omap (enqueue h) x) as [|t ts] eqn:Eo; [done|]. intros [= <-]. right.
    assert (Hin : t ∈ omap (enqueue h) x) by (rewrite Eo; by left). apply list_elem_of_omap in Hin as (m & _ & Hm). by exists h, m, t.
Qed.

(** C26: the actor in front of a sink accepts the answers of the built-in sinks log, blackhole, serve,
    SQS, Kafka and Pulsar. For a batch of messages with different ids, and whatever the services of
    these sinks answer at each attempt, provided that SQS names every entry of a request once, as
    taken or as failed, the actor returns, and no answer of the sink is missing, doubled or unknown
    to it: with log, blackhole, serve and Kafka it returns no error, with SQS only that of a failed
    call, with Pulsar only that of an event time before 1970 or of a message the producer does not
    take. *)
Theorem builtin_sinks_accepted (C : Chrono) (powi : F64 -> Z -> F64) (random_factor : Z -> F64)
    (cancelled : list (list Message * Result (list ResponseFromSink)) -> bool) (b : BuiltinSink)
    (cfg : RetryConfig) (ms : list Message) (ids : list string) (h : list (list Message * Result (list ResponseFromSink))) :
  services_ok b -> 0 <= sink_max_retry_attempts cfg < 2 ^ 16 -> ids_of ms = Some ids -> NoDup ids ->
  exists r h', write_messages_with_retry powi random_factor cancelled (builtin_sink b) cfg ms h = Some (r, h') /\
    forall e, r = Err e -> own_error b e.
Proof.
  intros Hs Hc Hi Hn. destruct (write_messages_done powi random_factor cancelled (builtin_sink b) cfg ms h Hc) as (r & h' & Hw & _).
  exists r, h'. split; [done|]. unfold write_messages_with_retry in Hw. destruct ms as [|m ms]; [by injection Hw as <- <-|].
  intros e He. edestruct (builtin_loop powi random_factor cancelled (builtin_sink b)) as (h0 & batch & l & Hl & Hb);
    [intros h0; by apply builtin_answers|exact Hi|exact Hn| |exact Hw|exact He|by eapply builtin_error].
  exists []. split_and!; [done| |split_and!; try done; constructor]. unfold kept. simpl. by rewrite app_nil_r.
Qed.

(** The service fails the second entry of a batch at the first attempt. *)
Definition ex_send (n : nat) (es : list BatchEntry) : option (list string * list (string * string)) :=
  match n, be_id <$> es with
  | O, a :: b :: l => Some (a :: l, [(b, "throttled")])
  | _, l => Some (l, [])
  end.
Definition ex_sqs : BuiltinSink := BSqs (fun h => ex_send (length h)).
#[local] Existing Instance chrono_utc.

Lemma ex_send_names n : send_names_all (ex_send n).
Proof.
  intros es ok failed. unfold ex_send. destruct n; [destruct (be_id <$> es) as [|a [|b l]]|]; intros [= <- <-]; cbn; rewrite ?app_nil_r; try done.
  constructor. symmetry. apply Permutation_cons_append.
Qed.

Lemma builtin_sinks_accepted_witness :
  exists r h', write_messages_with_retry powi_iter f64_of_Z (fun _ => false) (builtin_sink ex_sqs) ex_config (ex_message <$> [1; 2; 3]) [] = Some (r, h') /\
    forall e, r = Err e -> own_error ex_sqs e.
Proof.
  refine (builtin_sinks_accepted chrono_utc powi_iter f64_of_Z (fun _ => false) ex_sqs ex_config (ex_message <$> [1; 2; 3]) ["v-o-1"; "v-o-2"; "v-o-3"] [] _ _ _ _).
  - intros h. apply ex_send_names.
  - cbn. lia.
  - vm_compute. reflexivity.
  - apply (bool_decide_unpack _). vm_compute. done.
Defined.

Example sqs_retry :
  (fun p => match p.1 with Ok a => (m_id <$> kept a, length p.2) | Err _ => ([], 0%nat) end) <$>
  write_messages_with_retry powi_iter f64_of_Z (fun _ => false) (builtin_sink ex_sqs) ex_config (ex_message <$> [1; 2; 3]) [] = Some ([], 2%nat).
Proof. vm_compute. reflexivity. Qed.

(** An answer of SQS that leaves an entry out makes the actor fail. *)
Example sqs_omits_entry :
  (fun p => match p.1 with Ok _ => true | Err _ => false end) <$>
  write_messages_with_retry powi_iter f64_of_Z (fun _ => false) (builtin_sink (BSqs (fun _ es => Some (tail (be_id <$> es), []))))
    ex_config (ex_message <$> [1; 2; 3]) [] = Some false.
Proof. vm_compute. reflexivity. Qed.
