(* ===== verification/SideInput.v ===== *)
(** Side inputs (src/rust/numaflow-sideinput/src/): the manager that has a value made on a schedule and
    puts it into the bucket, the synchronizer that watches the bucket and keeps a file for each side
    input, and the swap of a file.

    The file system is a map from paths to files and symbolic links. The bucket's watcher, the
    user-defined code and the clock are external: their answers are arguments, and any operation on
    a file may fail. *)
From S2P Require Import Prelude Wal ServingStore.
From stdpp Require Import pretty.
#[local] Open Scope Z_scope.

(** * Files *)

Inductive Node := File (content : string) | Link (target : string).
Abbreviation FS := (gmap string Node) (only parsing).

(** Reading follows a link to a file. *)
Definition fs_read (fs : FS) (p : string) : option string :=
  match fs !! p with
  | Some (File c) => Some c
  | Some (Link t) => match fs !! t with Some (File c) => Some c | _ => None end
  | None => None
  end.
Definition fs_read_link (fs : FS) (p : string) : option string := match fs !! p with Some (Link t) => Some t | _ => None end.
Definition fs_exists (fs : FS) (p : string) : bool :=
  match fs !! p with Some (Link t) => bool_decide (is_Some (fs !! t)) | Some (File _) => true | None => false end.

(** * The swap of a side input *)

(** Which of the operations the system lets through. *)
Record Luck := mkLuck { lk_write : bool; lk_symlink : bool; lk_rename : bool; lk_remove : bool }.

Definition new_file_name (symlink : string) (timestamp : Z) : string := symlink +:+ "_" +:+ pretty timestamp.
Definition symlink_path_tmp (symlink : string) (timestamp : Z) : string := symlink +:+ "_temp_" +:+ pretty timestamp.

(** The states the file system goes through, the last one first, and whether it succeeded. A file of
    the name of a link, or a link that is there, makes the call fail. *)
Definition update_side_input_file (luck : Luck) (timestamp : Z) (symlink value : string) (fs : FS) : list (gmap string Node) * bool :=
  let file := new_file_name symlink timestamp in
  let tmp := symlink_path_tmp symlink timestamp in
  if decide (fs_read fs symlink = Some value) then ([fs], true)
  else if negb (lk_write luck) then ([fs], false)
  else
    let fs1 := <[file := File value]> fs in
    let old := fs_read_link fs1 symlink in
    if negb (lk_symlink luck) || bool_decide (is_Some (fs1 !! tmp)) then ([fs1; fs], false)
    else
      let fs2 := <[tmp := Link file]> fs1 in
      if negb (lk_rename luck) then ([fs2; fs1; fs], false)
      else
        let fs3 := <[symlink := Link file]> (delete tmp fs2) in
        match old with
        | Some o => if fs_exists fs3 o && lk_remove luck then ([delete o fs3; fs3; fs2; fs1; fs], true) else ([fs3; fs2; fs1; fs], true)
        | None => ([fs3; fs2; fs1; fs], true)
        end.
Definition after (r : list (gmap string Node) * bool) (fs : FS) : FS := default fs (head r.1).

(** * The synchronizer *)

(** What the watcher gives, with the time and the luck of the update. *)
Inductive WatchEvent :=
  | WPut (key value : string) (timestamp : Z) (luck : Luck)
  | WDelete (key : string)
  | WPurge
  | WNone
  | WCancel.

Inductive SyncEnd := SyncRunning | SyncDone | SyncCancelled | SyncPanic.

Section Sync.
Context (side_inputs : list string) (mount_path : string) (run_once : bool).

Definition side_path (key : string) : string := mount_path +:+ "/" +:+ key.
Definition got_all_sideinputs (seen : gset string) : bool := forallb (fun s => bool_decide (s ∈ seen)) side_inputs.

(** [run]: the file systems on the way, the latest first, with the events begun, and how it ends. *)
Fixpoint sync_run (n : nat) (evs : list WatchEvent) (seen : gset string) (fs : FS) : list (nat * gmap string Node) * SyncEnd :=
  match evs with
  | [] => ([(n, fs)], SyncRunning)
  | WCancel :: _ => ([(n, fs)], SyncCancelled)
  | WPut key value timestamp luck :: evs =>
      if decide (key ∈ side_inputs) then
        let seen := {[key]} ∪ seen in
        let (states, ok) := update_side_input_file luck timestamp (side_path key) value fs in
        let here := (fun f => (S n, f)) <$> states in
        if negb ok then (here, SyncPanic)
        else if run_once && got_all_sideinputs seen then (here, SyncDone)
        else let (later, e) := sync_run (S n) evs seen (after (states, ok) fs) in (later ++ here, e)
      else sync_run (S n) evs seen fs
  | WNone :: evs => sync_run (S n) evs seen fs
  | (WDelete _ | WPurge) :: evs =>
      if run_once && got_all_sideinputs seen then ([(S n, fs)], SyncDone) else sync_run (S n) evs seen fs
  end.
End Sync.

(** * The manager *)

Record SideInputResponse := mkSideInputResponse { si_value : string; si_no_broadcast : bool }.

(** [generate_side_input]: the value that is put into the bucket, if any; [put_ok] is the bucket's answer. *)
Definition generate_side_input (r : option SideInputResponse) (put_ok : bool) : option string * bool :=
  match r with
  | None => (None, false)
  | Some r => if si_no_broadcast r then (None, true) else if put_ok then (Some (si_value r), true) else (None, false)
  end.
(** [run_schedule]: at once, and then at every scheduled time up to the cancellation; failures are only
    logged. The values put, in order. *)
Definition run_schedule (first : option SideInputResponse * bool) (ticks : list (option SideInputResponse * bool)) : list string :=
  omap (fun t => (generate_side_input t.1 t.2).1) (first :: ticks).

(** * Paths *)

Lemma find_cut_lacks c s : lacks c s -> find_cut c s = None.
Proof. induction s as [|a s IH]; [done|]. intros [Ha Hs]. cbn [find_cut]. rewrite decide_False by done. by rewrite IH. Qed.

Section Names.
Context (mount_path : string).
Abbreviation P := (side_path mount_path).

Lemma path_inj s t : mount_path +:+ "/" +:+ s = mount_path +:+ "/" +:+ t -> s = t.
Proof. intros E. by apply (inj (String.append mount_path)), (inj (String.append "/")) in E. Qed.
Lemma file_name_eq k ts : new_file_name (P k) ts = mount_path +:+ "/" +:+ (k +:+ String underscore (pretty ts)).
Proof. unfold new_file_name, side_path. by rewrite !sapp_assoc. Qed.
Lemma tmp_name_eq k ts : symlink_path_tmp (P k) ts = mount_path +:+ "/" +:+ (k +:+ String underscore ("temp_" +:+ pretty ts)).
Proof. unfold symlink_path_tmp, side_path. by rewrite !sapp_assoc. Qed.

Context (k k' : string) (Hk : lacks underscore k) (Hk' : lacks underscore k').

Lemma path_ne_file ts : P k <> new_file_name (P k') ts.
Proof. rewrite file_name_eq. intros E%path_inj. apply (f_equal (find_cut underscore)) in E. by rewrite find_cut_lacks, find_cut_app in E. Qed.
Lemma path_ne_tmp ts : P k <> symlink_path_tmp (P k') ts.
Proof. rewrite tmp_name_eq. intros E%path_inj. apply (f_equal (find_cut underscore)) in E. by rewrite find_cut_lacks, find_cut_app in E. Qed.
Lemma file_inj ts ts' : new_file_name (P k) ts = new_file_name (P k') ts' -> k = k' /\ ts = ts'.
Proof.
  rewrite !file_name_eq. intros E%path_inj. apply (f_equal (find_cut underscore)) in E. rewrite !find_cut_app in E by done.
  injection E as E1 E2. split; [done|by apply (inj pretty)].
Qed.
Lemma tmp_inj ts ts' : symlink_path_tmp (P k) ts = symlink_path_tmp (P k') ts' -> k = k' /\ ts = ts'.
Proof.
  rewrite !tmp_name_eq. intros E%path_inj. apply (f_equal (find_cut underscore)) in E. rewrite !find_cut_app in E by done.
  injection E as E1 E2. split; [done|]. by apply (inj (String.append "temp_")), (inj pretty) in E2 || by apply (inj pretty).
Qed.
Lemma file_ne_tmp ts ts' : 0 <= ts -> new_file_name (P k) ts <> symlink_path_tmp (P k') ts'.
Proof.
  intros Hts. rewrite file_name_eq, tmp_name_eq. intros E%path_inj. apply (f_equal (find_cut underscore)) in E. rewrite !find_cut_app in E by done.
  injection E as E1 E2. rewrite pretty_Z_N in E2 by done. destruct (pretty_N_digits (Z.to_N ts)) as (Hd & _). rewrite E2 in Hd. destruct Hd as [[d Hd] _]. done.
Qed.
End Names.

(** * The files of the side inputs *)

Section Files.
Context (side_inputs : list string) (mount_path : string).
Context (Hnames : Forall (lacks underscore) side_inputs).
Abbreviation P := (side_path mount_path).

Definition view (fs : gmap string Node) (k : string) : option string := fs_read fs (P k).

(** Every side input has no file, or a link to a file of an earlier time. *)
Definition swap_ok (T : Z) (fs : gmap string Node) : Prop :=
  (forall k, k ∈ side_inputs ->
     fs !! P k = None \/ exists ts c, 0 <= ts < T /\ fs !! P k = Some (Link (new_file_name (P k) ts)) /\ fs !! new_file_name (P k) ts = Some (File c)) /\
  (forall k ts, k ∈ side_inputs -> T <= ts -> fs !! symlink_path_tmp (P k) ts = None).

Lemma names_lack k : k ∈ side_inputs -> lacks underscore k.
Proof. rewrite Forall_forall in Hnames. apply Hnames. Qed.

(** What is read of a side input depends on its link and the file it names. *)
Lemma view_eq T (fs fs' : gmap string Node) k :
  swap_ok T fs -> k ∈ side_inputs -> fs' !! P k = fs !! P k ->
  (forall ts, 0 <= ts < T -> fs !! P k = Some (Link (new_file_name (P k) ts)) -> fs' !! new_file_name (P k) ts = fs !! new_file_name (P k) ts) ->
  view fs' k = view fs k.
Proof.
  intros [Hl _] Hk E1 E2. unfold view, fs_read. rewrite E1. destruct (Hl k Hk) as [->|(ts & c & Hts & E & Ec)]; [done|]. rewrite E. by rewrite (E2 ts Hts E).
Qed.

Section Swap.
Context (T ts : Z) (k value : string) (fs : gmap string Node).
Context (Hok : swap_ok T fs) (HT : 0 <= T <= ts) (Hk : k ∈ side_inputs).

#[local] Abbreviation file := (new_file_name (P k) ts).
#[local] Abbreviation tmp := (symlink_path_tmp (P k) ts).
(** The states of a swap: the new file, the temporary link, the link. *)
Definition fs1 : gmap string Node := <[file := File value]> fs.
Definition fs2 : gmap string Node := <[tmp := Link file]> fs1.
Definition fs3 : gmap string Node := <[P k := Link file]> (delete tmp fs2).

Lemma link_ne_file k' : k' ∈ side_inputs -> file <> P k'.
Proof. intros Hk'. apply not_eq_sym, path_ne_file; by apply names_lack. Qed.
Lemma link_ne_tmp k' : k' ∈ side_inputs -> tmp <> P k'.
Proof. intros Hk'. apply not_eq_sym, path_ne_tmp; by apply names_lack. Qed.
Lemma file_ne_old k' t : k' ∈ side_inputs -> 0 <= t < T -> file <> new_file_name (P k') t.
Proof. intros Hk' Htt E. apply file_inj in E; [lia|by apply names_lack|by apply names_lack]. Qed.
Lemma tmp_ne_old k' t : k' ∈ side_inputs -> 0 <= t -> tmp <> new_file_name (P k') t.
Proof. intros Hk' Htt. apply not_eq_sym, file_ne_tmp; [by apply names_lack|by apply names_lack|done]. Qed.
Lemma file_ne_new_tmp k' t : k' ∈ side_inputs -> file <> symlink_path_tmp (P k') t.
Proof. intros Hk'. apply file_ne_tmp; [by apply names_lack|by apply names_lack|lia]. Qed.

(** A state with the same links, and the same old files, shows the same and is as good. *)
Lemma unseen (fs' : gmap string Node) :
  (forall k', k' ∈ side_inputs -> fs' !! P k' = fs !! P k') ->
  (forall k' t, k' ∈ side_inputs -> 0 <= t < T -> fs' !! new_file_name (P k') t = fs !! new_file_name (P k') t) ->
  (forall k' t, k' ∈ side_inputs -> ts + 1 <= t -> fs' !! symlink_path_tmp (P k') t = None) ->
  (forall k', k' ∈ side_inputs -> view fs' k' = view fs k') /\ swap_ok (ts + 1) fs'.
Proof.
  intros E1 E2 E3. split; [|split; [|done]].
  - intros k' Hk'. apply (view_eq T); [done|done|by apply E1|]. intros t Htt _. by apply E2.
  - intros k' Hk'. rewrite E1 by done. destruct (proj1 Hok k' Hk') as [?|(t & c & Htt & E & Ec)]; [by left|]. right. exists t, c.
    split_and!; [lia|lia|done|]. by rewrite E2.
Qed.

Lemma fs0_unseen : (forall k', k' ∈ side_inputs -> view fs k' = view fs k') /\ swap_ok (ts + 1) fs.
Proof. apply unseen; [done|done|]. intros k' t Hk' Ht. apply Hok; [done|lia]. Qed.
Lemma fs1_unseen : (forall k', k' ∈ side_inputs -> view fs1 k' = view fs k') /\ swap_ok (ts + 1) fs1.
Proof.
  apply unseen; unfold fs1; intros; rewrite lookup_insert_ne; try done; [by apply link_ne_file|by apply file_ne_old|apply Hok; [done|lia]|by apply file_ne_new_tmp].
Qed.
Lemma fs2_unseen : (forall k', k' ∈ side_inputs -> view fs2 k' = view fs k') /\ swap_ok (ts + 1) fs2.
Proof.
  apply unseen; unfold fs2, fs1; intros k' **; rewrite !lookup_insert_ne; try done.
  - by apply link_ne_file.
  - by apply link_ne_tmp.
  - by apply file_ne_old.
  - apply tmp_ne_old; [done|lia].
  - apply Hok; [done|lia].
  - by apply file_ne_new_tmp.
  - intros E. apply tmp_inj in E as [_ E]; [lia|by apply names_lack|by apply names_lack].
Qed.

Lemma tmp_free : fs1 !! tmp = None.
Proof. unfold fs1. rewrite lookup_insert_ne by (by apply file_ne_new_tmp). apply Hok; [done|lia]. Qed.
Lemma fs3_eq : fs3 = <[P k := Link file]> fs1.
Proof. unfold fs3, fs2. by rewrite delete_insert_id by apply tmp_free. Qed.
Lemma fs1_link k' : k' ∈ side_inputs -> fs1 !! P k' = fs !! P k'.
Proof. intros Hk'. unfold fs1. by rewrite lookup_insert_ne by (by apply link_ne_file). Qed.

(** The old file of the side input, if there was one. *)
Definition old_file (o : string) : Prop := fs !! P k = Some (Link o).
Lemma old_file_name o : old_file o -> exists t, 0 <= t < T /\ o = new_file_name (P k) t.
Proof. intros Eo. destruct (proj1 Hok k Hk) as [En|(t & c & Htt & E & _)]; unfold old_file in Eo; [congruence|]. exists t. split; [done|congruence]. Qed.

(** After the link was moved, with or without the old file. *)
Lemma swapped fs4 : (fs4 = fs3 \/ exists o, old_file o /\ fs4 = delete o fs3) ->
  view fs4 k = Some value /\ (forall k', k' ∈ side_inputs -> k' <> k -> view fs4 k' = view fs k') /\ swap_ok (ts + 1) fs4.
Proof.
  intros H4. pose proof (names_lack k Hk) as Lk.
  assert (Hkeep : forall p, (forall o, old_file o -> o <> p) -> fs4 !! p = fs3 !! p)
    by (intros p Hp; destruct H4 as [->|(o & Eo & ->)]; [done|by rewrite lookup_delete_ne by (by apply Hp)]).
  assert (Hlink : forall k', k' ∈ side_inputs -> fs4 !! P k' = fs3 !! P k').
  { intros k' Hk'. apply Hkeep. intros o (t & _ & ->)%old_file_name. apply not_eq_sym, path_ne_file; by apply names_lack. }
  assert (Hfile : fs4 !! file = Some (File value)).
  { rewrite Hkeep by (intros o (t & Htt & ->)%old_file_name; by apply not_eq_sym, file_ne_old). rewrite fs3_eq, lookup_insert_ne by (apply not_eq_sym; by apply link_ne_file).
    unfold fs1. by rewrite lookup_insert_eq. }
  assert (Gk : fs4 !! P k = Some (Link file)) by (rewrite Hlink by done; unfold fs3; by rewrite lookup_insert_eq).
  assert (Gp : forall k', k' ∈ side_inputs -> k' <> k -> fs4 !! P k' = fs !! P k').
  { intros k' Hk' Hn. rewrite Hlink by done. rewrite fs3_eq, lookup_insert_ne; [by apply fs1_link|]. intros E. by apply path_inj in E. }
  assert (Gq : forall k' t, k' ∈ side_inputs -> k' <> k -> 0 <= t < T -> fs4 !! new_file_name (P k') t = fs !! new_file_name (P k') t).
  { intros k' t Hk' Hn Htt. rewrite Hkeep by (intros o (t' & _ & ->)%old_file_name E; apply file_inj in E as [-> _]; [done|done|by apply names_lack]).
    rewrite fs3_eq, lookup_insert_ne by (apply path_ne_file; by apply names_lack). unfold fs1. by rewrite lookup_insert_ne by (by apply file_ne_old). }
  split_and!.
  - unfold view, fs_read. by rewrite Gk, Hfile.
  - intros k' Hk' Hn. apply (view_eq T); [done|done|by apply Gp|]. intros t Htt _. by apply Gq.
  - split.
    + intros k' Hk'. destruct (decide (k' = k)) as [->|Hn]; [right; exists ts, value; split_and!; [lia|lia|done|done]|].
      rewrite (Gp k' Hk' Hn). destruct (proj1 Hok k' Hk') as [?|(t & c & Htt & E & Ec)]; [by left|]. right. exists t, c. split_and!; [lia|lia|done|]. by rewrite Gq.
    + intros k' t Hk' Htt. assert (H3 : fs3 !! symlink_path_tmp (P k') t = None).
      { rewrite fs3_eq, lookup_insert_ne by (apply path_ne_tmp; by apply names_lack). apply fs1_unseen; [done|lia]. }
      destruct H4 as [->|(o & Eo & ->)]; [done|]. apply lookup_delete_None. by right.
Qed.

Definition swap_shows (r : list (gmap string Node) * bool) : Prop :=
  (forall f, f ∈ r.1 -> (forall k', k' ∈ side_inputs -> k' <> k -> view f k' = view fs k') /\ (view f k = view fs k \/ view f k = Some value)) /\
  (r.2 = true -> view (after r fs) k = Some value) /\ swap_ok (ts + 1) (after r fs).

Lemma unseen_shows (l : list (gmap string Node)) :
  l <> [] -> Forall (fun f => (forall k', k' ∈ side_inputs -> view f k' = view fs k') /\ swap_ok (ts + 1) f) l -> swap_shows (l, false).
Proof.
  intros Hl Hf. rewrite Forall_forall in Hf. split_and!; [|done|].
  - intros f [Hv _]%Hf. split; [by intros; apply Hv|left; by apply Hv].
  - destruct l as [|f l]; [done|]. apply Hf. set_solver.
Qed.

Lemma update_swap luck : swap_shows (update_side_input_file luck ts (P k) value fs).
Proof.
  pose proof fs0_unseen as U0. pose proof fs1_unseen as U1. pose proof fs2_unseen as U2. destruct (swapped fs3) as (V3 & O3 & S3); [by left|].
  unfold update_side_input_file. fold fs1 fs2 fs3. case_decide as Hsame.
  { split_and!; [intros f ->%list_elem_of_singleton; split; [done|by left]|by intros _|apply U0]. }
  destruct (lk_write luck); cbn [negb]; [|apply unseen_shows; [done|by rewrite !Forall_cons, Forall_nil]].
  rewrite tmp_free, (bool_decide_false (is_Some None)) by (by intros [? ?]). rewrite orb_false_r.
  destruct (lk_symlink luck); cbn [negb]; [|apply unseen_shows; [done|by rewrite !Forall_cons, Forall_nil]].
  destruct (lk_rename luck); cbn [negb]; [|apply unseen_shows; [done|by rewrite !Forall_cons, Forall_nil]].
  assert (Hstates : forall f, f ∈ [fs3; fs2; fs1; fs] -> (forall k', k' ∈ side_inputs -> k' <> k -> view f k' = view fs k') /\ (view f k = view fs k \/ view f k = Some value)).
  { destruct U0 as [U0 _], U1 as [U1 _], U2 as [U2 _]. intros f Hf. rewrite !elem_of_cons in Hf. destruct Hf as [->|[->|[->|[->|[]%not_elem_of_nil]]]]; split; auto. }
  unfold fs_read_link. rewrite fs1_link by done. destruct (fs !! P k) as [[c|o]|] eqn:Eo; try (split_and!; done).
  destruct (fs_exists fs3 o && lk_remove luck); [|split_and!; done].
  destruct (swapped (delete o fs3)) as (V4 & O4 & S4); [right; by exists o|]. split_and!; [|done|done].
  intros f Hf. apply elem_of_cons in Hf as [->|Hf]; [split; auto|by apply Hstates].
Qed.
End Swap.
End Files.

(** * A run of the synchronizer *)

Definition put_of (k : string) (e : WatchEvent) : option string :=
  match e with WPut k' v _ _ => if decide (k' = k) then Some v else None | _ => None end.
(** The value of a side input after some events: that of the last put. *)
Definition shown (v : option string) (k : string) (evs : list WatchEvent) : option string :=
  foldl (fun v e => match put_of k e with Some x => Some x | None => v end) v evs.
(** The times of the updates go up. *)
Fixpoint times_ok (T : Z) (evs : list WatchEvent) : Prop :=
  match evs with
  | [] => True
  | WPut _ _ ts _ :: evs => T <= ts /\ times_ok (ts + 1) evs
  | _ :: evs => times_ok T evs
  end.

(** [x] is the value after [i] events or after one less. *)
Definition between (x v : option string) (k : string) (i : nat) (evs : list WatchEvent) : Prop :=
  x = shown v k (take (i - 1) evs) \/ x = shown v k (take i evs).
Lemma between_cons x v k n i e evs :
  (S n <= i)%nat -> between x (shown v k [e]) k (i - S n) evs -> between x v k (i - n) (e :: evs).
Proof.
  intros Hi. replace (i - n)%nat with (S (i - S n)) by lia. unfold between. destruct (i - S n)%nat as [|m]; [by intros [->| ->]; right|].
  intros [->| ->]; [left|right]; cbn; rewrite ?Nat.sub_0_r; done.
Qed.
Lemma shown_cons v k n i e evs : (S n <= i)%nat -> shown (shown v k [e]) k (take (i - S n) evs) = shown v k (take (i - n) (e :: evs)).
Proof. intros Hi. by replace (i - n)%nat with (S (i - S n)) by lia. Qed.
Lemma shown_is_Some v k evs : is_Some v -> is_Some (shown v k evs).
Proof. unfold shown. revert v. induction evs as [|e evs IH]; intros v Hv; [done|]. cbn. apply IH. by destruct (put_of k e). Qed.

Section Run.
Context (side_inputs : list string) (mount_path : string) (run_once : bool).
Context (Hnames : Forall (lacks underscore) side_inputs).
Abbreviation vw := (view mount_path).

(** What a run shows: [n] events are behind it, the file system was [fs], [seen] are the side inputs put so far. *)
Record run_shows (n : nat) (evs : list WatchEvent) (seen : gset string) (fs : gmap string Node) (r : list (nat * gmap string Node) * SyncEnd) : Prop := {
  rs_between : forall i f k, (i, f) ∈ r.1 -> k ∈ side_inputs -> (n <= i)%nat /\ between (vw f k) (vw fs k) k (i - n) evs;
  rs_last : exists i f l, r.1 = (i, f) :: l /\ (n <= i)%nat /\
    (r.2 <> SyncPanic -> forall k, k ∈ side_inputs -> vw f k = shown (vw fs k) k (take (i - n) evs)) /\
    (r.2 = SyncDone -> (forall k, k ∈ side_inputs -> k ∈ seen -> is_Some (vw fs k)) -> forall k, k ∈ side_inputs -> is_Some (vw f k))
}.

(** An end where nothing more is done. *)
Lemma shows_here n evs seen fs e :
  (e = SyncDone -> forall k, k ∈ side_inputs -> k ∈ seen) -> run_shows n evs seen fs ([(n, fs)], e).
Proof.
  intros He. split.
  - intros i f k [= -> ->]%list_elem_of_singleton Hk. split; [done|]. rewrite Nat.sub_diag. by left.
  - exists n, fs, []. rewrite Nat.sub_diag. split_and!; [done|done|done|]. cbn. intros E Hs k Hk. apply Hs; [done|by apply He].
Qed.

(** An event, and the run after it. *)
Lemma shows_cons n e evs seen seen' fs fs' here r :
  (forall k, k ∈ side_inputs -> vw fs' k = shown (vw fs k) k [e]) ->
  (forall f k, f ∈ here -> k ∈ side_inputs -> between (vw f k) (vw fs k) k 1 (e :: evs)) ->
  ((forall k, k ∈ side_inputs -> k ∈ seen -> is_Some (vw fs k)) -> forall k, k ∈ side_inputs -> k ∈ seen' -> is_Some (vw fs' k)) ->
  run_shows (S n) evs seen' fs' r -> run_shows n (e :: evs) seen fs (r.1 ++ ((fun f => (S n, f)) <$> here), r.2).
Proof.
  intros Hfs Hhere Hseen [Hb (i & f & l & E & Hi & Hv & Hd)]. split.
  - cbn. intros j g k Hj Hk. apply elem_of_app in Hj as [Hj|Hj].
    + destruct (Hb j g k Hj Hk) as [Hj1 Hj2]. split; [lia|]. apply between_cons; [done|]. by rewrite <- Hfs.
    + apply list_elem_of_fmap in Hj as (g' & [= -> ->] & Hg). split; [lia|]. replace (S n - n)%nat with 1%nat by lia. by apply Hhere.
  - cbn. exists i, f, (l ++ ((fun f => (S n, f)) <$> here)). rewrite E. split_and!; [done|lia| |].
    + intros Hp k Hk. rewrite Hv by done. rewrite Hfs by done. by apply shown_cons.
    + intros Hp Hs. apply Hd; [done|]. by apply Hseen.
Qed.
Lemma shows_skip n e evs seen fs r :
  (forall k, k ∈ side_inputs -> put_of k e = None) -> run_shows (S n) evs seen fs r -> run_shows n (e :: evs) seen fs r.
Proof.
  intros He Hr. pose proof (shows_cons n e evs seen seen fs fs [] r) as H. cbn in H. rewrite app_nil_r, <- surjective_pairing in H.
  apply H; [|by intros ? ? []%not_elem_of_nil|done|done]. intros k Hk. unfold shown. cbn. by rewrite He.
Qed.

Lemma got_all_spec seen : got_all_sideinputs side_inputs seen = true -> forall k, k ∈ side_inputs -> k ∈ seen.
Proof. unfold got_all_sideinputs. intros Hg k Hk. apply list_elem_of_In in Hk. apply forallb_forall with (x := k) in Hg; [|done]. by apply bool_decide_eq_true in Hg. Qed.

(** A put to a side input: the states of the swap, and the value after it. *)
Lemma put_states T ts k value luck fs evs (states : list (gmap string Node)) ok :
  swap_ok side_inputs mount_path T fs -> 0 <= T <= ts -> k ∈ side_inputs ->
  update_side_input_file luck ts (side_path mount_path k) value fs = (states, ok) ->
  let e := WPut k value ts luck in
  (forall f k', f ∈ states -> k' ∈ side_inputs -> between (vw f k') (vw fs k') k' 1 (e :: evs)) /\
  (ok = true -> forall k', k' ∈ side_inputs -> vw (after (states, ok) fs) k' = shown (vw fs k') k' [e]) /\
  swap_ok side_inputs mount_path (ts + 1) (after (states, ok) fs) /\ states <> [].
Proof.
  intros Hok HT Hk E e. pose proof (update_swap side_inputs mount_path Hnames T ts k value fs Hok HT Hk luck) as (H1 & H2 & H3). rewrite E in H1, H2, H3. cbn [fst snd] in *.
  assert (Hne : states <> []).
  { unfold update_side_input_file in E. intros ->. repeat case_match; simplify_eq. }
  split_and!; [| |done|done].
  - intros f k' Hf Hk'. destruct (H1 f Hf) as [H1a H1b]. unfold between, shown. cbn. destruct (decide (k = k')) as [<-|Hn]; [by destruct H1b; [left|right]|].
    left. by apply H1a.
  - intros -> k' Hk'. unfold shown. cbn. destruct (decide (k = k')) as [<-|Hn]; [by apply H2|].
    destruct states as [|f states]; [done|]. unfold after. cbn. apply H1; [set_solver|done|done].
Qed.

Lemma shows_stop n e evs seen fs here r :
  here <> [] -> (forall f k, f ∈ here -> k ∈ side_inputs -> between (vw f k) (vw fs k) k 1 (e :: evs)) ->
  (r <> SyncPanic -> forall k, k ∈ side_inputs -> vw (default fs (head here)) k = shown (vw fs k) k [e]) ->
  (r = SyncDone -> (forall k, k ∈ side_inputs -> k ∈ seen -> is_Some (vw fs k)) -> forall k, k ∈ side_inputs -> is_Some (vw (default fs (head here)) k)) ->
  run_shows n (e :: evs) seen fs ((fun f => (S n, f)) <$> here, r).
Proof.
  intros Hne Hh Hl Hd. split.
  - cbn. intros i f k (g & [= -> ->] & Hg)%list_elem_of_fmap Hk. split; [lia|]. replace (S n - n)%nat with 1%nat by lia. by apply Hh.
  - destruct here as [|f here]; [done|]. cbn. exists (S n), f, ((fun f => (S n, f)) <$> here). replace (S n - n)%nat with 1%nat by lia. split_and!; [done|lia| |]; auto.
Qed.

Lemma sync_shows n evs seen T fs :
  swap_ok side_inputs mount_path T fs -> 0 <= T -> times_ok T evs ->
  run_shows n evs seen fs (sync_run side_inputs mount_path run_once n evs seen fs).
Proof.
  revert n seen T fs. induction evs as [|[k v ts luck|k| | |] evs IH]; intros n seen T fs Hok HT Ht; cbn [sync_run times_ok] in *.
  - by apply shows_here.
  - destruct Ht as [Hts Ht]. case_decide as Hk.
    2: { apply shows_skip; [|apply (IH (S n) seen (ts + 1)); [|lia|done]].
         - intros k' Hk'. cbn. rewrite decide_False; [done|]. congruence.
         - destruct Hok as [Hl Hm]. split; [|intros; apply Hm; [done|lia]]. intros k' Hk'. destruct (Hl k' Hk') as [?|(t & c & ? & ? & ?)]; [by left|].
           right. exists t, c. split_and!; try done; lia. }
    destruct (update_side_input_file luck ts (side_path mount_path k) v fs) as [states ok] eqn:E.
    destruct (put_states T ts k v luck fs evs states ok Hok ltac:(lia) Hk E) as (H1 & H2 & H3 & H4).
    assert (Hsome : ok = true -> (forall k', k' ∈ side_inputs -> k' ∈ seen -> is_Some (vw fs k')) ->
      forall k', k' ∈ side_inputs -> k' ∈ ({[k]} ∪ seen : gset string) -> is_Some (vw (after (states, ok) fs) k')).
    { intros Eok Hs k' Hk' Hin. rewrite H2 by done. unfold shown. cbn. destruct (decide (k = k')); [done|]. apply Hs; set_solver. }
    destruct ok; cbn [negb]; [|by apply shows_stop].
    destruct (run_once && got_all_sideinputs side_inputs ({[k]} ∪ seen)) eqn:Eg.
    + apply andb_true_iff in Eg as [_ Eg]. apply shows_stop; [done|done|intros _; by apply H2|]. intros _ Hs k' Hk'. apply Hsome; [done|done|done|].
      by apply got_all_spec with (k := k') in Eg.
    + pose proof (IH (S n) ({[k]} ∪ seen) (ts + 1) (after (states, true) fs) H3 ltac:(lia) Ht) as Hr.
      destruct (sync_run side_inputs mount_path run_once (S n) evs _ _) as [later fin].
      apply (shows_cons n _ evs seen ({[k]} ∪ seen) fs (after (states, true) fs) states (later, fin)); [by apply H2|done|by apply Hsome|done].
  - destruct (run_once && got_all_sideinputs side_inputs seen) eqn:Eg; apply shows_skip; try done; [|by eapply IH].
    apply shows_here. intros _. apply andb_true_iff in Eg as [_ Eg]. by apply got_all_spec.
  - destruct (run_once && got_all_sideinputs side_inputs seen) eqn:Eg; apply shows_skip; try done; [|by eapply IH].
    apply shows_here. intros _. apply andb_true_iff in Eg as [_ Eg]. by apply got_all_spec.
  - apply shows_skip; [done|]. by eapply IH.
  - by apply shows_here.
Qed.
End Run.

(** * Properties *)

(** C27: a reader of a side input never sees anything but its values, whole and in order. With names that
    have no underscore and times that go up, whatever events come and whichever operations on
    files fail: at every moment of the synchronizer, within the swap of a file too, reading the file
    of a side input gives the value of the last put before, or of the one being processed; unless
    an operation failed, at the end it gives the last one; and a run that is to stop when all side
    inputs are there stops with a file for each. *)
Theorem side_inputs_synchronized (side_inputs : list string) (mount_path : string) (run_once : bool) (events : list WatchEvent) :
  Forall (lacks underscore) side_inputs -> times_ok 0 events ->
  let r := sync_run side_inputs mount_path run_once 0 events ∅ ∅ in
  (forall n fs k, (n, fs) ∈ r.1 -> k ∈ side_inputs -> between (fs_read fs (side_path mount_path k)) None k n events) /\
  exists n fs l, r.1 = (n, fs) :: l /\
    (r.2 <> SyncPanic -> forall k, k ∈ side_inputs -> fs_read fs (side_path mount_path k) = shown None k (take n events)) /\
    (r.2 = SyncDone -> forall k, k ∈ side_inputs -> is_Some (fs_read fs (side_path mount_path k))).
Proof.
  intros Hn Ht r. assert (Hok : swap_ok side_inputs mount_path 0 ∅) by (split; [by left|done]).
  destruct (sync_shows side_inputs mount_path run_once Hn 0 events ∅ 0 ∅ Hok ltac:(lia) Ht) as [Hb (n & fs & l & E & _ & Hl & Hd)].
  assert (Ev : forall k, view mount_path ∅ k = None) by (intros k; unfold view, fs_read; by rewrite lookup_empty). split.
  - intros m f k Hin Hk. destruct (Hb m f k Hin Hk) as [_ H]. rewrite Nat.sub_0_r, Ev in H. exact H.
  - exists n, fs, l. split_and!; [done| |].
    + intros Hp k Hk. pose proof (Hl Hp k Hk) as H. rewrite Nat.sub_0_r, Ev in H. exact H.
    + intros Hp k Hk. apply Hd; [done| |done]. intros k' _ []%not_elem_of_empty.
Qed.

Definition lucky : Luck := mkLuck true true true true.
Definition ex_side_events : list WatchEvent :=
  [WPut "a" "1" 10 lucky; WPut "other" "x" 11 lucky; WDelete "a"; WPut "a" "2" 12 (mkLuck true true true false); WPut "b" "3" 13 lucky; WPut "a" "4" 14 lucky].

Lemma side_inputs_synchronized_witness :
  let r := sync_run ["a"; "b"] "/mnt" true 0 ex_side_events ∅ ∅ in
  r.2 = SyncDone /\ exists n fs l, r.1 = (n, fs) :: l /\
    (r.2 = SyncDone -> forall k, k ∈ ["a"; "b"] -> is_Some (fs_read fs (side_path "/mnt" k))).
Proof.
  intros r. split; [vm_compute; reflexivity|].
  destruct (side_inputs_synchronized ["a"; "b"] "/mnt" true ex_side_events) as [_ (n & fs & l & E & _ & Hd)].
  - repeat constructor; done.
  - cbn. lia.
  - exists n, fs, l. split; [exact E|exact Hd].
Defined.

(** It stops at the first event after which all are there; the first file of [a] could not be removed. *)
Example ex_sync :
  let r := sync_run ["a"; "b"] "/mnt" true 0 ex_side_events ∅ ∅ in
  (fun p => (p.1, fs_read p.2 "/mnt/a", fs_read p.2 "/mnt/b", fs_read p.2 "/mnt/a_10", size p.2)) <$> head r.1 = Some (5%nat, Some "2", Some "3", Some "1", 5%nat).
Proof. vm_compute. reflexivity. Qed.

(** The values of the manager, through the bucket, to the file: when the synchronizer has taken them all,
    the file has the last one. *)
Lemma manager_to_file k mount_path first ticks (evs : list WatchEvent) :
  lacks underscore k -> times_ok 0 evs -> omap (put_of k) evs = run_schedule first ticks ->
  let r := sync_run [k] mount_path false 0 evs ∅ ∅ in
  r.2 = SyncRunning -> exists n fs l, r.1 = (n, fs) :: l /\ (n = length evs -> fs_read fs (side_path mount_path k) = last (run_schedule first ticks)).
Proof.
  intros Hk Ht He r Hr. assert (Hn : Forall (lacks underscore) [k]) by (by constructor). assert (Hok : swap_ok [k] mount_path 0 ∅) by (split; [by left|done]).
  destruct (sync_shows [k] mount_path false Hn 0 evs ∅ 0 ∅ Hok ltac:(lia) Ht) as [_ (n & fs & l & E & _ & Hl & _)].
  exists n, fs, l. split; [done|]. intros ->. specialize (Hl ltac:(fold r; congruence) k ltac:(set_solver)). rewrite Nat.sub_0_r, firstn_all in Hl.
  change (fs_read fs (side_path mount_path k)) with (view mount_path fs k). rewrite Hl, <- He.
  replace (view mount_path ∅ k) with (@None string) by (unfold view, fs_read; by rewrite lookup_empty). clear.
  unfold shown. induction evs as [|e evs IH] using rev_ind; [done|]. rewrite foldl_app, omap_app, IH. cbn. destruct (put_of k e); [by rewrite last_snoc|by rewrite app_nil_r].
Qed.
