(* ===== verification/KvStore.v ===== *)
(** The key-value stores behind watermarks and side inputs (src/rust/numaflow-shared/src/): the store in
    memory with its history and its watch stream (kv/inmemory/store.rs), and the watcher of a
    JetStream bucket that makes itself anew when it fails (isb/jetstream.rs).

    The JetStream client is external. Error injection and latency, for tests, are left out, but for the
    two ways of closing a watch. *)
From S2P Require Import Prelude Clock.
From stdpp Require Import sorting.
#[local] Open Scope Z_scope.

(** * The store in memory *)

Inductive KVWatchOp := KvPut | KvDelete | KvPurge.
Record KVHistoryEntry := mkKvHistory {
  kh_revision : Z;
  kh_key : string;
  kh_value : string;
  kh_operation : KVWatchOp;
  kh_created : Z
}.
Record KVEntry := mkKvEntry { ke_key : string; ke_value : string; ke_operation : KVWatchOp; ke_created : Z }.
Definition kv_entry_of (e : KVHistoryEntry) : KVEntry := mkKvEntry (kh_key e) (kh_value e) (kh_operation e) (kh_created e).

Record KVState := mkKvState {
  kv_data : gmap string string;
  kv_revision : Z;
  kv_history : list KVHistoryEntry;
  kv_max_history_size : nat
}.
Definition kv_state_new (max_history_size : nat) : KVState := mkKvState ∅ 0 [] max_history_size.

Definition record_history (now : Z) (key value : string) (op : KVWatchOp) (s : KVState) : KVState :=
  let revision := kv_revision s + 1 in
  let history := kv_history s ++ [mkKvHistory revision key value op now] in
  let max := kv_max_history_size s in
  mkKvState (kv_data s) revision
    (if bool_decide (0 < max)%nat && bool_decide (max < length history)%nat then drop (length history - max) history else history) max.
Definition history_from (revision : Z) (s : KVState) : list KVHistoryEntry := filter (fun e => revision <= kh_revision e) (kv_history s).

Definition with_data (d : gmap string string) (s : KVState) : KVState := mkKvState d (kv_revision s) (kv_history s) (kv_max_history_size s).
Definition simple_put (now : Z) (key value : string) (s : KVState) : KVState :=
  record_history now key value KvPut (with_data (<[key := value]> (kv_data s)) s).
Definition simple_delete (now : Z) (key : string) (s : KVState) : KVState :=
  record_history now key "" KvDelete (with_data (delete key (kv_data s)) s).
Definition simple_purge (now : Z) (s : KVState) : KVState := record_history now "" "" KvPurge (with_data ∅ s).
Definition simple_get (key : string) (s : KVState) : option string := kv_data s !! key.
Definition simple_keys (s : KVState) : gset string := dom (kv_data s).

(** ** The watch stream

    [ws_live]: what the broadcast channel holds for this stream; when it is full the oldest go. *)
Definition BROADCAST_SIZE : nat := 1024.
Definition broadcast (e : KVHistoryEntry) (l : list KVHistoryEntry) : list KVHistoryEntry :=
  let l := l ++ [e] in drop (length l - BROADCAST_SIZE) l.

Record WatchStream := mkWatchStream {
  ws_history : list KVHistoryEntry;          (* not yet replayed *)
  ws_live : list KVHistoryEntry;
  ws_close_after : nat;
  ws_items_emitted : nat;
  ws_closed : bool
}.
Inductive Polled := PReady (e : KVEntry) | PEnd | PPending.

Definition ws_close (w : WatchStream) : WatchStream := mkWatchStream (ws_history w) (ws_live w) (ws_close_after w) (ws_items_emitted w) true.
Definition watch_poll_next (close : bool) (w : WatchStream) : Polled * WatchStream :=
  if ws_closed w then (PEnd, w)
  else if close then (PEnd, ws_close w)
  else if bool_decide (0 < ws_close_after w)%nat && bool_decide (ws_close_after w <= ws_items_emitted w)%nat then (PEnd, ws_close w)
  else
    match ws_history w, ws_live w with
    | e :: h, _ => (PReady (kv_entry_of e), mkWatchStream h (ws_live w) (ws_close_after w) (S (ws_items_emitted w)) false)
    | [], e :: l => (PReady (kv_entry_of e), mkWatchStream [] l (ws_close_after w) (S (ws_items_emitted w)) false)
    | [], [] => (PPending, w)
    end.

(** ** Writers and a watcher

    A write changes the state and sends its entry after it let go of the lock; a watch reads the history
    and then subscribes. *)
Record KvWorld := mkKvWorld {
  kw_state : KVState;
  kw_unsent : list KVHistoryEntry;
  kw_snapshot : option (list KVHistoryEntry);
  kw_stream : option WatchStream
}.
Definition kv_world_new (max_history_size : nat) : KvWorld := mkKvWorld (kv_state_new max_history_size) [] None None.

Inductive KvStep :=
  | KsWrite (now : Z) (op : KVWatchOp) (key value : string)
  | KsSend (i : nat)
  | KsWatchRead (revision : option Z)
  | KsWatchSubscribe.

Definition kv_write (now : Z) (op : KVWatchOp) (key value : string) (s : KVState) : KVState :=
  match op with KvPut => simple_put now key value s | KvDelete => simple_delete now key s | KvPurge => simple_purge now s end.

Definition kv_step (w : KvWorld) (l : KvStep) : KvWorld :=
  match l with
  | KsWrite now op key value =>
      let s := kv_write now op key value (kw_state w) in
      mkKvWorld s (kw_unsent w ++ (match last (kv_history s) with Some e => [e] | None => [] end)) (kw_snapshot w) (kw_stream w)
  | KsSend i =>
      match kw_unsent w !! i with
      | None => w
      | Some e =>
          mkKvWorld (kw_state w) (list_delete i (kw_unsent w)) (kw_snapshot w)
            ((fun s => mkWatchStream (ws_history s) (broadcast e (ws_live s)) (ws_close_after s) (ws_items_emitted s) (ws_closed s)) <$> kw_stream w)
      end
  | KsWatchRead revision =>
      mkKvWorld (kw_state w) (kw_unsent w) (Some (match revision with Some r => history_from r (kw_state w) | None => [] end)) (kw_stream w)
  | KsWatchSubscribe =>
      match kw_snapshot w with
      | None => w
      | Some h => mkKvWorld (kw_state w) (kw_unsent w) None (Some (mkWatchStream h [] 0 0 false))
      end
  end.

(** What a stream is still to give. *)
Definition to_come (w : KvWorld) : list KVHistoryEntry := match kw_stream w with Some s => ws_history s ++ ws_live s | None => [] end.

(** ** Properties *)

(** The history, replayed. *)
Definition replay (d : gmap string string) (h : list KVHistoryEntry) : gmap string string :=
  foldl (fun d e => match kh_operation e with KvPut => <[kh_key e := kh_value e]> d | KvDelete => delete (kh_key e) d | KvPurge => ∅ end) d h.

Definition kv_writes (ops : list (Z * KVWatchOp * string * string)) (s : KVState) : KVState :=
  foldl (fun s o => kv_write o.1.1.1 o.1.1.2 o.1.2 o.2 s) s ops.

(** Nothing is cut off as long as the bound is not reached: then the history is numbered from 1, and
    replaying it gives the data. *)
Definition history_whole (s : KVState) : Prop :=
  replay ∅ (kv_history s) = kv_data s /\ kh_revision <$> kv_history s = Z.of_nat <$> seq 1 (length (kv_history s)) /\
  kv_revision s = Z.of_nat (length (kv_history s)).

Lemma write_whole now op key value s :
  history_whole s -> (kv_max_history_size s = 0%nat \/ (length (kv_history s) < kv_max_history_size s)%nat) ->
  let s' := kv_write now op key value s in
  history_whole s' /\ kv_max_history_size s' = kv_max_history_size s /\
  exists e, kv_history s' = kv_history s ++ [e] /\ kh_revision e = kv_revision s'.
Proof.
  intros (Hr & Hn & Hv) Hm. cbn. unfold kv_write, simple_put, simple_delete, simple_purge.
  assert (E : forall d k v o, kv_history (record_history now k v o (with_data d s)) = kv_history s ++ [mkKvHistory (kv_revision s + 1) k v o now]).
  { intros d k v o. unfold record_history. cbn. rewrite length_app. cbn.
    destruct (bool_decide_reflect (0 < kv_max_history_size s)%nat), (bool_decide_reflect (kv_max_history_size s < length (kv_history s) + 1)%nat); cbn; done || lia. }
  assert (W : forall d k v o, replay (kv_data s) [mkKvHistory (kv_revision s + 1) k v o now] = d ->
      history_whole (record_history now k v o (with_data d s)) /\ kv_max_history_size (record_history now k v o (with_data d s)) = kv_max_history_size s /\
      exists e, kv_history (record_history now k v o (with_data d s)) = kv_history s ++ [e] /\ kh_revision e = kv_revision (record_history now k v o (with_data d s))).
  { intros d k v o Hd. split_and!; [|done|by eexists; split; [apply E|]]. unfold history_whole. rewrite E, length_app. cbn [length]. split_and!.
    - unfold replay in *. by rewrite foldl_app, Hr.
    - rewrite fmap_app, Hn, Nat.add_1_r, seq_S, fmap_app. cbn. rewrite Hv. do 2 f_equal. lia.
    - cbn. lia. }
  destruct op; by apply W.
Qed.

Lemma writes_whole ops s :
  history_whole s -> (kv_max_history_size s = 0%nat \/ (length (kv_history s) + length ops <= kv_max_history_size s)%nat) ->
  history_whole (kv_writes ops s).
Proof.
  unfold kv_writes. revert s. induction ops as [|[[[now op] k] v] ops IH]; intros s Hs Hm; [done|]. cbn [foldl fst snd].
  destruct (write_whole now op k v s Hs) as (Hw & Hm' & e & He & _); [cbn in Hm; lia|]. apply IH; [done|]. rewrite Hm', He, length_app. cbn in *. lia.
Qed.

(** Without a race, a watch from the first revision gives every entry once and in order, so that a reader
    that replays what it gets has the data. *)
Definition quiet_writes (ops : list (Z * KVWatchOp * string * string)) : list KvStep :=
  ops ≫= fun o => [KsWrite o.1.1.1 o.1.1.2 o.1.2 o.2; KsSend 0].

Lemma quiet_write w now op k v h :
  kw_unsent w = [] -> history_whole (kw_state w) -> (kv_max_history_size (kw_state w) = 0%nat \/ (length (kv_history (kw_state w)) < kv_max_history_size (kw_state w))%nat) ->
  (is_Some (kw_stream w) -> to_come w = h /\ (length h < BROADCAST_SIZE)%nat) ->
  let w' := kv_step (kv_step w (KsWrite now op k v)) (KsSend 0) in
  kw_unsent w' = [] /\ kw_state w' = kv_write now op k v (kw_state w) /\ (is_Some (kw_stream w') <-> is_Some (kw_stream w)) /\
  (is_Some (kw_stream w) -> exists e, to_come w' = h ++ [e] /\ kv_history (kw_state w') = kv_history (kw_state w) ++ [e]).
Proof.
  intros Hu Hs Hm Hh. destruct (write_whole now op k v (kw_state w) Hs Hm) as (_ & _ & e & He & _). cbn [kv_step kw_unsent kw_state kw_snapshot kw_stream].
  rewrite Hu, He, last_snoc. cbn. destruct (kw_stream w) as [s|] eqn:Es; cbn; split_and!; try done.
  intros _. exists e. split; [|done]. destruct (Hh ltac:(done)) as [Hc Hl]. unfold to_come in *. cbn. rewrite Es in Hc. unfold broadcast.
  rewrite length_app. cbn. subst h. rewrite length_app in Hl. replace (length (ws_live s) + 1 - BROADCAST_SIZE)%nat with 0%nat by lia.
  by rewrite <- app_assoc.
Qed.

Definition quiet (n : nat) (w : KvWorld) : Prop :=
  kw_unsent w = [] /\ history_whole (kw_state w) /\ kv_max_history_size (kw_state w) = 0%nat /\ (length (kv_history (kw_state w)) + n < BROADCAST_SIZE)%nat /\
  (is_Some (kw_stream w) -> to_come w = kv_history (kw_state w)).
Lemma quiet_run ops w n : quiet (length ops + n) w -> quiet n (foldl kv_step w (quiet_writes ops)).
Proof.
  revert w. induction ops as [|[[[now op] k] v] ops IH]; intros w (Hu & Hs & Hm & Hl & Hc); [done|].
  change (quiet_writes ((now, op, k, v) :: ops)) with (KsWrite now op k v :: KsSend 0 :: quiet_writes ops). cbn [foldl]. apply IH.
  destruct (quiet_write w now op k v (kv_history (kw_state w)) Hu Hs ltac:(by left)) as (Q1 & Q2 & Q3 & Q4); [intros Hi; split; [by apply Hc|lia]|].
  destruct (write_whole now op k v (kw_state w) Hs ltac:(by left)) as (W1 & W2 & e & W3 & _).
  split_and!; [done|by rewrite Q2|by rewrite Q2, W2|rewrite Q2, W3, length_app; cbn in *; lia|].
  intros Hi. apply Q3 in Hi. destruct (Q4 Hi) as (e' & -> & ->). done.
Qed.
Lemma quiet_watch ops1 ops2 :
  (length ops1 + length ops2 < BROADCAST_SIZE)%nat ->
  let w := foldl kv_step (kv_world_new 0) (quiet_writes ops1 ++ [KsWatchRead (Some 1); KsWatchSubscribe] ++ quiet_writes ops2) in
  to_come w = kv_history (kw_state w) /\ replay ∅ (to_come w) = kv_data (kw_state w).
Proof.
  intros Hl. rewrite !foldl_app. set (w1 := foldl kv_step (kv_world_new 0) (quiet_writes ops1)).
  assert (Q1 : quiet (length ops2) w1) by (apply quiet_run; split_and!; try done; by intros [? ?]). destruct Q1 as (Hu & Hs & Hm & Hn & _).
  assert (Hall : history_from 1 (kw_state w1) = kv_history (kw_state w1)).
  { unfold history_from. destruct Hs as (_ & Hr & _). revert Hr. generalize (kv_history (kw_state w1)). intros l Hr. assert (Ha : Forall (fun e => 1 <= kh_revision e) l).
    { apply Forall_fmap with (P := fun z => 1 <= z). rewrite Hr. apply Forall_fmap, Forall_seq. intros i Hi. cbn. lia. }
    clear Hr. induction Ha as [|e l He _ IH]; [done|]. by rewrite filter_cons_True, IH. }
  set (w2 := foldl kv_step w1 [KsWatchRead (Some 1); KsWatchSubscribe]).
  assert (Q2 : quiet (length ops2 + 0) w2).
  { unfold w2. cbn. unfold quiet, to_come. cbn. rewrite Hall, app_nil_r. split_and!; try done; lia. }
  assert (Hst : is_Some (kw_stream (foldl kv_step w2 (quiet_writes ops2)))).
  { assert (Hsome : is_Some (kw_stream w2)) by done. revert Hsome. generalize w2. clear. induction ops2 as [|o ops IH]; intros w Hw; [done|]. cbn. apply IH.
    destruct (kw_unsent w ++ _) eqn:E; cbn; [done|by apply fmap_is_Some]. }
  destruct (quiet_run ops2 w2 0 Q2) as (_ & (Hrep & _) & _ & _ & Hc). cbv zeta. by rewrite (Hc Hst).
Qed.

(** ** Where the code falls short *)

Definition ex_ops (l : list (string * string)) : list KvStep := l ≫= fun kv => [KsWrite 0 KvPut kv.1 kv.2; KsSend 0].
Definition gets (w : KvWorld) : list (string * string) := (fun e => (kh_key e, kh_value e)) <$> to_come w.

(** A write between the look at the history and the subscription is not seen by the watcher. *)
Example watch_gap :
  gets (foldl kv_step (kv_world_new 0) (ex_ops [("a", "1")] ++ [KsWatchRead (Some 1)] ++ ex_ops [("a", "2")] ++ [KsWatchSubscribe])) = [("a", "1")].
Proof. vm_compute. reflexivity. Qed.
(** Two writers send in the other order: the watcher ends with the older value. *)
Example watch_reorders :
  let w := foldl kv_step (kv_world_new 0) [KsWatchRead (Some 1); KsWatchSubscribe; KsWrite 0 KvPut "a" "1"; KsWrite 0 KvPut "a" "2"; KsSend 1; KsSend 0] in
  (gets w, simple_get "a" (kw_state w)) = ([("a", "2"); ("a", "1")], Some "2").
Proof. vm_compute. reflexivity. Qed.
(** When the history is cut off, a new watcher does not learn of a key that is still there. *)
Example history_cut :
  let w := foldl kv_step (kv_world_new 2) (ex_ops [("a", "1"); ("b", "2"); ("b", "3")] ++ [KsWatchRead (Some 1); KsWatchSubscribe]) in
  (gets w, simple_get "a" (kw_state w)) = ([("b", "2"); ("b", "3")], Some "1").
Proof. vm_compute. reflexivity. Qed.

(** * The watcher of a JetStream bucket *)

(** What a poll of the inner watcher gives, and of the future that makes a new one. *)
Inductive Inner := IEntry (e : KVEntry) | IError | IEnded | IPending.

Record JetstreamWatcher := mkJsWatcher { jw_recreating : bool; jw_created : nat }.
(** [poll_next]: [made] says whether a watcher can be made, [inner n] what the [n]-th watcher gives when it
    is polled. It polls again after a failure; [fuel] bounds the polls. *)
Fixpoint js_poll_next (fuel : nat) (made : nat -> bool) (inner : nat -> Inner) (w : JetstreamWatcher) : option (Polled * JetstreamWatcher) :=
  match fuel with
  | O => None
  | S fuel =>
      if jw_recreating w && negb (made (jw_created w)) then Some (PPending, w)
      else
        let w := if jw_recreating w then mkJsWatcher false (S (jw_created w)) else w in
        match inner (jw_created w) with
        | IEntry e => Some (PReady e, w)
        | IPending => Some (PPending, w)
        | IError | IEnded => js_poll_next fuel made inner (mkJsWatcher true (jw_created w))
        end
  end.

(** The stream never ends, and a poll returns when some watcher does not fail at once. *)
Lemma js_watcher_never_ends fuel made inner w r w' : js_poll_next fuel made inner w = Some (r, w') -> r <> PEnd.
Proof. revert w. induction fuel as [|fuel IH]; intros w; [done|]. cbn [js_poll_next]. repeat case_match; try (by intros [= <- <-]); apply IH. Qed.
Lemma js_recreating_returns made inner c k :
  (forall i, inner i = IError \/ inner i = IEnded -> (i < S c + k)%nat) -> is_Some (js_poll_next (S k) made inner (mkJsWatcher true c)).
Proof.
  revert c. induction k as [|k IH]; intros c Hk; cbn [js_poll_next jw_recreating jw_created andb]; (destruct (negb (made c)); [by eexists|]);
    destruct (inner (S c)) eqn:E; try by eexists.
  1, 2: specialize (Hk (S c)); rewrite E in Hk; specialize (Hk ltac:(auto)); lia.
  all: apply IH; intros i Hi; specialize (Hk i Hi); lia.
Qed.
Lemma js_watcher_returns made inner w k :
  (forall i, inner i = IError \/ inner i = IEnded -> (i < jw_created w + k)%nat) -> is_Some (js_poll_next (S k) made inner w).
Proof.
  intros Hk. destruct w as [[] c]; [apply js_recreating_returns; intros i Hi; specialize (Hk i Hi); cbn in Hk; lia|].
  cbn [js_poll_next jw_recreating jw_created andb] in *. destruct (inner c) eqn:E; try by eexists.
  all: destruct k as [|k]; [specialize (Hk c); rewrite E in Hk; specialize (Hk ltac:(auto)); lia|].
  all: apply js_recreating_returns; intros i Hi; specialize (Hk i Hi); lia.
Qed.
