(* ===== verification/UserDefined.v ===== *)
(** The clients of user-defined sources and sinks (numaflow-core's source/user_defined.rs,
    sinker/sink/user_defined.rs, the answers in sinker/sink.rs) and the pending count that the
    metrics show (metrics/mod.rs).

    The user-defined code is external: its side of a stream is a list of what arrives, and a client that
    needs more waits. Base64 is the class [Base64] with its documented laws. *)
From S2P Require Import Prelude Clock Message Wal Backoff SinkActor KafkaSource BuiltinSinks.
From stdpp Require Import pretty.
#[local] Open Scope Z_scope.

(** What a stream of responses gives. *)
Inductive Recv (A : Type) := RItem (a : A) | REnd | RFail (what : string).
Arguments RItem {A} _.
Arguments REnd {A}.
Arguments RFail {A} _.

(** What becomes of a call. *)
Inductive Outcome (A : Type) := Waits | Panics | Returns (a : A).
Arguments Waits {A}.
Arguments Panics {A}.
Arguments Returns {A} _.

(** The handshake that opens a stream: [error] makes the error of the side. The first response, if there
    is one, carries [sot] or no handshake at all. *)
Definition handshake (error : string -> Error) (what : string) (sent : bool) (stream : Result unit) (first : Recv (option bool)) : Result unit :=
  if negb sent then Err (error ("failed to send " +:+ what +:+ " request"))
  else
    try! _ := stream in
    match first with
    | RFail e => Err (EGrpc e)
    | REnd => Err (error ("failed to receive " +:+ what +:+ " response"))
    | RItem (Some true) => Ok tt
    | RItem _ => Err (error ("invalid " +:+ what +:+ " response"))
    end.

(** * Sources *)

Class Base64 := {
  b64_encode : string -> string;
  b64_decode : string -> option string;
  b64_roundtrip s : b64_decode (b64_encode s) = Some s;
  b64_text s : utf8_valid (b64_encode s) = true
}.

Record PbOffset := mkPbOffset { po_offset : string; po_partition_id : Z }.
Record ReadResult := mkReadResult {
  rr_payload : string;
  rr_offset : option PbOffset;
  rr_event_time : option Timestamp;
  rr_keys : list string;
  rr_headers : gmap string string;
  rr_metadata : option ProtoMetadata
}.
Record ReadResponse := mkReadResponse { rp_result : option ReadResult; rp_eot : option bool }.

Record ReadRequest := mkReadRequest { rq_num_records : Z; rq_timeout_in_ms : Z }.
Definition read_request (num_records timeout_ms : Z) : ReadRequest := mkReadRequest num_records (as_u32 timeout_ms).

Record SourcePartitions := mkSourcePartitions { active_partitions : list Z; total_partitions : option Z }.

Section Source.
Context `{Chrono} `{Base64} (vertex_name : string).

Definition user_offset (o : option PbOffset) : Result Offset :=
  match o with
  | None => Err (ESource "Offset not found")
  | Some o =>
      if bool_decide (po_offset o = "") then Err (ESource "Invalid offset found in response")
      else Ok (OString (mkStringOffset (b64_encode (po_offset o)) (as_u16 (po_partition_id o))))
  end.

(** [None] is a panic: no event time. *)
Definition user_message (r : ReadResult) : option (Result Message) :=
  match user_offset (rr_offset r) with
  | Err e => Some (Err e)
  | Ok o =>
      let? et := utc_from_timestamp <$> rr_event_time r in
      let? text := offset_to_string o in
      Some (Ok (mkMessage Data (rr_keys r) None (rr_payload r) o et None (mkMessageID vertex_name text 0) (rr_headers r)
                  (Some (match rr_metadata r with Some md => metadata_of_proto md | None => Metadata_default end)) false None))
  end.

(** The loop over the responses to one request, up to the end of transmission. *)
Fixpoint user_collect (acc : list Message) (l : list (Recv ReadResponse)) : Outcome (Result (list Message)) * list (Recv ReadResponse) :=
  match l with
  | [] => (Waits, [])
  | RFail e :: l => (Returns (Err (EGrpc e)), l)
  | REnd :: l => (Returns (Ok acc), l)
  | RItem r :: l =>
      if default false (rp_eot r) then (Returns (Ok acc), l)
      else
        match rp_result r with
        | None => (Returns (Err (ESource "Empty message in response")), l)
        | Some res =>
            match user_message res with
            | None => (Panics, l)
            | Some (Err e) => (Returns (Err e), l)
            | Some (Ok m) => user_collect (acc ++ [m]) l
            end
        end
  end.

(** [read]: the inner [None] of the result is the end of the stream. *)
Definition user_read (cancelled sent : bool) (l : list (Recv ReadResponse)) : Outcome (option (Result (list Message))) * list (Recv ReadResponse) :=
  if cancelled then (Returns None, l)
  else if negb sent then (Returns (Some (Err (EGrpc "source read stream closed"))), l)
  else
    match user_collect [] l with
    | (Waits, l) => (Waits, l)
    | (Panics, l) => (Panics, l)
    | (Returns r, l) => (Returns (Some r), l)
    end.

Fixpoint user_reads (n : nat) (l : list (Recv ReadResponse)) : list (Outcome (option (Result (list Message)))) * list (Recv ReadResponse) :=
  match n with
  | O => ([], l)
  | S n => let (r, l) := user_read false true l in let (rs, l) := user_reads n l in (r :: rs, l)
  end.

(** Back to the offset of the source; [None] is a panic. *)
Definition source_offset (o : Offset) : option (Result PbOffset) :=
  match o with
  | OString o => let? bytes := b64_decode (so_offset o) in Some (Ok (mkPbOffset bytes (so_partition_idx o)))
  | OInt _ => Some (Err (ESource "IntOffset not supported"))
  end.
(** [collect] stops at the first error. *)
Fixpoint collect_offsets (os : list Offset) : option (Result (list PbOffset)) :=
  match os with
  | [] => Some (Ok [])
  | o :: os =>
      match source_offset o with
      | None => None
      | Some (Err e) => Some (Err e)
      | Some (Ok p) => (fun r => try! ps := r in Ok (p :: ps)) <$> collect_offsets os
      end
  end.

(** [ack]: the request on the channel, if one is sent, and the result. *)
Definition user_ack (open : bool) (answer : Recv unit) (os : list Offset) : option (option (list PbOffset) * Result unit) :=
  let? r := collect_offsets os in
  match r with
  | Err e => Some (None, Err e)
  | Ok ps =>
      if negb open then Some (None, Err (ENonRetryable "source ack stream closed"))
      else Some (Some ps, match answer with
                          | RItem _ => Ok tt
                          | REnd => Err (ENonRetryable "source ack stream closed")
                          | RFail e => Err (ENonRetryable e)
                          end)
  end.

Inductive ErrorKind := BrokenPipe | ConnectionReset | NotConnected | OtherKind.
#[global] Instance ErrorKind_eq_dec : EqDecision ErrorKind.
Proof. solve_decision. Defined.
(** An error and its sources: which of them are I/O errors, of which kind. *)
Fixpoint has_io_kind_in_chain (kinds : list ErrorKind) (chain : list (option ErrorKind)) : bool :=
  match chain with
  | [] => false
  | Some k :: chain => if bool_decide (k ∈ kinds) then true else has_io_kind_in_chain kinds chain
  | None :: chain => has_io_kind_in_chain kinds chain
  end.
Definition is_stream_closed : list (option ErrorKind) -> bool := has_io_kind_in_chain [BrokenPipe; ConnectionReset; NotConnected].

(** The call of the nack function: whether its response has a result, or its error. *)
Inductive NackAnswer := NaResponse (result : bool) | NaStatus (chain : list (option ErrorKind)) (what : string).

Fixpoint collect_nacks (os : list (Offset * option NackOptions)) : option (Result (list (list PbOffset * option NackOptions))) :=
  match os with
  | [] => Some (Ok [])
  | (o, opt) :: os =>
      match source_offset o with
      | None => None
      | Some (Err e) => Some (Err e)
      | Some (Ok p) => (fun r => try! ps := r in Ok (([p], opt) :: ps)) <$> collect_nacks os
      end
  end.
Definition user_nack (supports_nack : bool) (answer : NackAnswer) (os : list (Offset * option NackOptions)) :
    option (option (list (list PbOffset * option NackOptions)) * Result unit) :=
  if negb supports_nack then Some (None, Ok tt)
  else
    let? r := collect_nacks os in
    match r with
    | Err e => Some (None, Err e)
    | Ok ps =>
        Some (Some ps, match answer with
                       | NaStatus chain what => if is_stream_closed chain then Err (ENonRetryable what) else Err (EGrpc what)
                       | NaResponse true => Ok tt
                       | NaResponse false => Err (ESource "failed to receive nack response")
                       end)
    end.

(** [None] is the panic on a response without a result. *)
Definition user_partitions (answer : Result (option (list Z * option Z))) : option (Result SourcePartitions) :=
  match answer with
  | Err e => Some (Err e)
  | Ok None => None
  | Ok (Some (ps, total)) => Some (Ok (mkSourcePartitions (as_u16 <$> ps) (as_u32 <$> total)))
  end.

Definition user_pending (answer : Result (option Z)) : Result (option Z) :=
  try! r := answer in Ok ((fun count => usize count) <$> r).
(** What the metrics show, -1 if it is not known. *)
Definition fetch_pending (pending : Result (option Z)) : Result Z :=
  try! p := pending in Ok (match p with Some p => wrap_i64 p | None => -1 end).

(** ** Properties *)

(** What the user-defined source has to give: an offset that is not empty, an event time, and a partition
    that fits 16 bits. *)
Definition well_formed (r : ReadResult) : Prop :=
  is_Some (rr_event_time r) /\ exists o, rr_offset r = Some o /\ po_offset o <> "" /\ 0 <= po_partition_id o < 2 ^ 16.
Definition answer_of (r : ReadResult) (m : Message) : Prop := user_message r = Some (Ok m).

Lemma user_message_total r : well_formed r -> exists m, answer_of r m.
Proof.
  intros ([et Het] & o & Ho & Hn & _). unfold answer_of, user_message, user_offset. rewrite Ho, bool_decide_eq_false_2, Het by done. cbn [fmap option_fmap option_map].
  unfold offset_to_string. cbn [so_offset]. rewrite b64_text. eauto.
Qed.
Lemma user_offset_back r m o :
  answer_of r m -> rr_offset r = Some o ->
  source_offset (m_offset m) = Some (Ok (mkPbOffset (po_offset o) (as_u16 (po_partition_id o)))).
Proof.
  unfold answer_of, user_message, user_offset. intros Hm Ho. rewrite Ho in Hm. destruct (bool_decide_reflect (po_offset o = "")); [done|].
  destruct (rr_event_time r); [|done]. cbn [fmap option_fmap option_map] in Hm. unfold offset_to_string in Hm. cbn [so_offset] in Hm. rewrite b64_text in Hm.
  injection Hm as <-. unfold source_offset. cbn [m_offset so_offset so_partition_idx]. by rewrite b64_roundtrip.
Qed.

Lemma answers_total b : Forall well_formed b -> exists ms, Forall2 answer_of b ms.
Proof.
  induction 1 as [|r b Hr _ [ms IH]]; [by exists []|]. destruct (user_message_total r Hr) as [m Hm]. exists (m :: ms). by constructor.
Qed.
Lemma acks_reach_source rs ms :
  Forall well_formed rs -> Forall2 answer_of rs ms -> collect_offsets (m_offset <$> ms) = Some (Ok (omap rr_offset rs)).
Proof.
  intros Hw Hf. induction Hf as [|r m rs ms Hm Hf IH]; [done|]. apply Forall_cons in Hw as [(_ & o & Ho & _ & Hp) Hw].
  cbn [fmap list_fmap collect_offsets omap list_omap]. rewrite (user_offset_back r m o Hm Ho), Ho, IH by done.
  rewrite as_u16_small by done. by destruct o.
Qed.

(** The responses to a request: the results, and the end of transmission. *)
Definition batch_items (b : list ReadResult) : list (Recv ReadResponse) :=
  ((fun r => RItem (mkReadResponse (Some r) None)) <$> b) ++ [RItem (mkReadResponse None (Some true))].

Lemma user_collect_batch acc b ms rest : Forall2 answer_of b ms -> user_collect acc (batch_items b ++ rest) = (Returns (Ok (acc ++ ms)), rest).
Proof.
  intros Hf. revert acc. induction Hf as [|r m b ms Hm Hf IH]; intros acc; [cbn; by rewrite app_nil_r|].
  unfold batch_items in *. cbn [fmap list_fmap app user_collect rp_eot rp_result default]. rewrite Hm, IH. by rewrite <- app_assoc.
Qed.
Lemma user_reads_batches bs mss rest :
  Forall2 (Forall2 answer_of) bs mss -> user_reads (length bs) (concat (batch_items <$> bs) ++ rest) = ((fun ms => Returns (Some (Ok ms))) <$> mss, rest).
Proof.
  intros Hf. induction Hf as [|b ms bs mss Hb Hf IH]; [done|]. cbn [fmap list_fmap concat length user_reads]. unfold user_read. cbn [negb].
  rewrite <- app_assoc, (user_collect_batch [] b ms), IH by done. done.
Qed.

(** From a user-defined source to the pipeline and back. If the source answers every request with a batch of
    results that have an offset, an event time and a partition of 16 bits, and ends it, the reads give
    exactly these batches, in order, and no read takes from the next; and acknowledging any of the
    messages, of whatever batches and in whatever order, tells the source exactly their offsets. *)
Lemma user_source_roundtrip (bs : list (list ReadResult)) (rest : list (Recv ReadResponse)) :
  Forall (Forall well_formed) bs ->
  exists mss, user_reads (length bs) (concat (batch_items <$> bs) ++ rest) = ((fun ms => Returns (Some (Ok ms))) <$> mss, rest) /\
    Forall2 (Forall2 answer_of) bs mss /\
    forall rs ms, Forall (fun r => r ∈ concat bs) rs -> Forall2 answer_of rs ms ->
      user_ack true (RItem ()) (m_offset <$> ms) = Some (Some (omap rr_offset rs), Ok tt).
Proof.
  intros Hw. assert (exists mss, Forall2 (Forall2 answer_of) bs mss) as [mss Hf].
  { induction Hw as [|b bs Hb _ [mss IH]]; [by exists []|]. destruct (answers_total b Hb) as [ms Hm]. exists (ms :: mss). by constructor. }
  exists mss. split_and!; [by apply user_reads_batches|done|]. intros rs ms Hin Hr. unfold user_ack. rewrite (acks_reach_source rs ms); [done| |done].
  eapply Forall_impl; [exact Hin|]. intros r Hr'%list_elem_of_In. apply in_concat in Hr' as (b & Hb & Hrb). apply list_elem_of_In in Hb, Hrb.
  rewrite Forall_forall in Hw. specialize (Hw b Hb). rewrite Forall_forall in Hw. by apply Hw.
Qed.

(** A nack tells each offset with its options, when the function is there. *)
Lemma nacks_reach_source rs ms opts :
  Forall well_formed rs -> Forall2 answer_of rs ms -> length opts = length rs ->
  collect_nacks (zip (m_offset <$> ms) opts) = Some (Ok (zip ((fun o => [o]) <$> omap rr_offset rs) opts)).
Proof.
  intros Hw Hf. revert opts. induction Hf as [|r m rs ms Hm Hf IH]; intros opts Hl; [by destruct opts|].
  destruct opts as [|opt opts]; [done|]. apply Forall_cons in Hw as [(_ & o & Ho & _ & Hp) Hw]. injection Hl as Hl.
  change (zip (m_offset <$> m :: ms) (opt :: opts)) with ((m_offset m, opt) :: zip (m_offset <$> ms) opts). cbn [collect_nacks omap list_omap].
  rewrite (user_offset_back r m o Hm Ho), Ho, (IH Hw opts Hl).
  rewrite as_u16_small by done. by destruct o.
Qed.

(** An error in a batch leaves the rest of the batch in the stream: the next read takes it for its own. *)
Lemma error_shifts_reads b1 bad b2 bs ms rest :
  (forall m, ~ answer_of bad m) -> user_message bad <> None -> Forall well_formed b1 -> Forall2 answer_of b2 ms ->
  exists e, user_reads 2 (((fun r => RItem (mkReadResponse (Some r) None)) <$> b1) ++ RItem (mkReadResponse (Some bad) None) :: batch_items b2 ++ concat (batch_items <$> bs) ++ rest) =
    ([Returns (Some (Err e)); Returns (Some (Ok ms))], concat (batch_items <$> bs) ++ rest).
Proof.
  intros Hbad Hnp Hb1 Hb2. destruct (user_message bad) as [[m|e]|] eqn:Em; [by destruct (Hbad m)| |done]. exists e. cbn [user_reads]. unfold user_read. cbn [negb].
  assert (E : forall acc, user_collect acc (((fun r => RItem (mkReadResponse (Some r) None)) <$> b1) ++ RItem (mkReadResponse (Some bad) None) :: batch_items b2 ++ concat (batch_items <$> bs) ++ rest) =
    (Returns (Err e), batch_items b2 ++ concat (batch_items <$> bs) ++ rest)).
  { induction Hb1 as [|r b Hr _ IH]; intros acc; cbn [fmap list_fmap app user_collect rp_eot rp_result default]; [by rewrite Em|].
    destruct (user_message_total r Hr) as [m ->]. apply IH. }
  rewrite E. by rewrite (user_collect_batch [] b2 ms).
Qed.

(** The count passes through [usize] and back: a negative one, which means that it is not known, stays so. *)
Lemma pending_shown count : in_i64 count -> fetch_pending (user_pending (Ok (Some count))) = Ok count.
Proof.
  intros Hc. cbn. f_equal. unfold wrap_i64, usize, in_i64, i64_min, i64_max in *. rewrite Zplus_mod_idemp_l.
  rewrite Z.mod_small; lia.
Qed.
End Source.

(** * Sinks *)

Record SinkRequest := mkSinkRequest {
  sq_id : string;
  sq_keys : list string;
  sq_value : string;
  sq_event_time : option Timestamp;
  sq_watermark : option Timestamp;
  sq_headers : gmap string string;
  sq_metadata : option ProtoMetadata
}.

Inductive SinkStatus := StSuccess | StFailure | StFallback | StServe | StOnSuccess | StNack.
Record SinkResult := mkSinkResult {
  sr_id : string;
  sr_status : SinkStatus;
  sr_err_msg : string;
  sr_serve_response : option string;
  sr_on_success_msg : option OnSuccessMessage;
  sr_nack_options : option NackOptions
}.
Record SinkResponse := mkSinkResponse { sp_results : list SinkResult; sp_eot : option bool }.

Definition response_from_sink (r : SinkResult) : ResponseFromSink :=
  mkResponse (sr_id r)
    (match sr_status r with
     | StSuccess => SSuccess
     | StFailure => SFailed (sr_err_msg r)
     | StFallback => SFallback
     | StServe => SinkActor.SServe (sr_serve_response r)
     | StOnSuccess => SOnSuccess (sr_on_success_msg r)
     | StNack => SNack (sr_nack_options r)
     end).

(** The loop over the responses to a batch of [n] requests. *)
Fixpoint sink_collect (n : nat) (acc : list ResponseFromSink) (l : list (Recv SinkResponse)) :
    Outcome (Result (list ResponseFromSink)) * list (Recv SinkResponse) :=
  match l with
  | [] => (Waits, [])
  | REnd :: l => (Returns (Err (EGrpc "sink response stream closed")), l)
  | RFail e :: l => (Returns (Err (EGrpc e)), l)
  | RItem r :: l =>
      if default false (sp_eot r) then
        (Returns (if bool_decide (length acc <> n) then Err (EGrpc "UDF_PARTIAL_RESPONSE(udsink)") else Ok acc), l)
      else sink_collect n (acc ++ (response_from_sink <$> sp_results r)) l
  end.

Section Sink.
Context `{Chrono}.

(** [None] is the panic of an id that is not text. *)
Definition sink_request (m : Message) : option SinkRequest :=
  let? id := message_id_to_string (m_id m) in
  Some (mkSinkRequest id (m_keys m) (m_value m) (Some (prost_timestamp_from_utc (m_event_time m))) (prost_timestamp_from_utc <$> m_watermark m)
          (m_headers m) (metadata_to_proto <$> m_metadata m)).

(** [sink]: the requests and the end of transmission go out, as far as the channel takes them ([None]:
    all of them); then come the responses. *)
Definition user_sink (accepted : option nat) (l : list (Recv SinkResponse)) (ms : list Message) :
    Outcome (Result (list ResponseFromSink)) * list (Recv SinkResponse) :=
  match mapM sink_request ms with
  | None => (Panics, l)
  | Some requests =>
      match accepted with
      | Some k => if bool_decide (k <= length requests)%nat then (Returns (Err (EGrpc "channel closed")), l) else sink_collect (length requests) [] l
      | None => sink_collect (length requests) [] l
      end
  end.

(** As the actor sees it: [server] gives, for each call, the stream at that time, up to the end of a
    transmission or its failure. *)
Definition user_sink_call (server : list (list Message * Result (list ResponseFromSink)) -> list SinkRequest -> list (Recv SinkResponse))
    (h : list (list Message * Result (list ResponseFromSink))) (ms : list Message) : Result (list ResponseFromSink) :=
  match mapM sink_request ms with
  | None => panicked
  | Some requests =>
      match (user_sink None (server h requests) ms).1 with
      | Returns r => r
      | Panics => panicked
      | Waits => Err (EGrpc "no answer")
      end
  end.

(** ** Properties *)

(** The results before the end of transmission. *)
Fixpoint results_of (l : list (Recv SinkResponse)) : list SinkResult :=
  match l with
  | RItem r :: l => if default false (sp_eot r) then [] else sp_results r ++ results_of l
  | _ => []
  end.

(** An answer is exactly what came before the end of transmission, and as many as were asked for. *)
Lemma sink_collect_exact n acc l rs l' :
  sink_collect n acc l = (Returns (Ok rs), l') -> rs = acc ++ (response_from_sink <$> results_of l) /\ length rs = n.
Proof.
  revert acc. induction l as [|[r| |e] l IH]; intros acc; [done|cbn [sink_collect results_of]|done..].
  destruct (default false (sp_eot r)).
  - case_bool_decide; intros [= <- <-]. rewrite app_nil_r. split; [done|]. by destruct (decide (length acc = n)).
  - intros Hc. apply IH in Hc as [-> Hl]. split; [|done]. by rewrite fmap_app, app_assoc.
Qed.
Lemma request_ids ms requests : mapM sink_request ms = Some requests -> ids_of ms = Some (sq_id <$> requests).
Proof.
  unfold ids_of. rewrite !mapM_Some, Forall2_fmap_r. intros Hf. eapply Forall2_impl; [exact Hf|]. intros m q. unfold sink_request.
  destruct (message_id_to_string (m_id m)); [|done]. by intros [= <-].
Qed.

(** A user-defined sink that names every request once in its answers, in whatever order and however they
    are split, is a sink as the actor needs it; [builtin_sinks_accepted] then holds of it. *)
Definition names_all (server : list (list Message * Result (list ResponseFromSink)) -> list SinkRequest -> list (Recv SinkResponse)) : Prop :=
  forall h requests, sr_id <$> results_of (server h requests) ≡ₚ sq_id <$> requests.
#[global] Instance user_answers server h : names_all server -> AnswersAll (user_sink_call server h).
Proof.
  intros Hs ms rs. unfold user_sink_call, user_sink. destruct (mapM sink_request ms) as [qs|] eqn:E; [|done].
  destruct (sink_collect (length qs) [] (server h qs)) as [[| |r] l'] eqn:Ec; cbn; try done. intros ->.
  apply sink_collect_exact in Ec as [-> _]. exists (sq_id <$> qs). split; [by apply request_ids|]. rewrite <- (Hs h qs). cbn.
  by rewrite <- list_fmap_compose.
Qed.
End Sink.

(** The count is checked, not the ids: a sink that answers one message twice and another not at all
    passes here, and it is the actor that finds out. *)
Definition ex_result (id : string) : SinkResult := mkSinkResult id StSuccess "" None None None.
Example doubled_answer_counted :
  sink_collect 2 [] [RItem (mkSinkResponse [ex_result "a"; ex_result "a"] None); RItem (mkSinkResponse [] (Some true))] =
  (Returns (Ok [mkResponse "a" SSuccess; mkResponse "a" SSuccess]), []).
Proof. reflexivity. Qed.
Example missing_answer_found :
  sink_collect 2 [] [RItem (mkSinkResponse [ex_result "a"] None); RItem (mkSinkResponse [] (Some true))] =
  (Returns (Err (EGrpc "UDF_PARTIAL_RESPONSE(udsink)")), []).
Proof. reflexivity. Qed.

(** * A concrete source *)

(** Two characters for a byte. *)
Definition nibble (n : N) : Ascii.ascii := Ascii.ascii_of_N (48 + n).
Definition of_nibble (a : Ascii.ascii) : N := Ascii.N_of_ascii a - 48.
Fixpoint hex_encode (s : string) : string :=
  match s with
  | EmptyString => ""
  | String a s => String (nibble (Ascii.N_of_ascii a / 16)) (String (nibble (Ascii.N_of_ascii a mod 16)) (hex_encode s))
  end.
Fixpoint hex_decode (s : string) : option string :=
  match s with
  | EmptyString => Some ""
  | String a (String b s) => String (Ascii.ascii_of_N (of_nibble a * 16 + of_nibble b)) <$> hex_decode s
  | _ => None
  end.
Lemma hex_roundtrip s : hex_decode (hex_encode s) = Some s.
Proof.
  induction s as [|a s IH]; [done|]. cbn [hex_encode hex_decode]. rewrite IH. cbn [fmap option_fmap option_map]. do 2 f_equal.
  clear. destruct a as [[] [] [] [] [] [] [] []]; vm_compute; reflexivity.
Qed.
Lemma hex_text s : utf8_valid (hex_encode s) = true.
Proof.
  apply ascii_valid. induction s as [|a s IH]; [done|]. cbn [hex_encode ascii_only].
  split; [|split; [|exact IH]]; destruct a as [[] [] [] [] [] [] [] []]; vm_compute; reflexivity.
Qed.

#[local] Existing Instance chrono_utc.
#[local] Instance hex_base64 : Base64 := {| b64_encode := hex_encode; b64_decode := hex_decode; b64_roundtrip := hex_roundtrip; b64_text := hex_text |}.

Definition ex_read (o : string) (p : Z) : ReadResult := mkReadResult "v" (Some (mkPbOffset o p)) (Some (mkTimestamp 1 0)) ["k"] ∅ None.
Definition ex_batches : list (list ReadResult) := [[ex_read "x" 0; ex_read "y" 1]; []; [ex_read "z" 65535]].

Lemma ex_batches_ok : Forall (Forall well_formed) ex_batches.
Proof.
  repeat constructor; unfold well_formed; cbn; try (by eexists); eexists; (split; [reflexivity|]); cbn; split; done || lia.
Qed.

Lemma ex_source_roundtrip :
  exists mss, user_reads "in" (length ex_batches) (concat (batch_items <$> ex_batches) ++ []) = ((fun ms => Returns (Some (Ok ms))) <$> mss, []) /\
    Forall2 (Forall2 (answer_of "in")) ex_batches mss /\
    forall rs ms, Forall (fun r => r ∈ concat ex_batches) rs -> Forall2 (answer_of "in") rs ms ->
      user_ack true (RItem ()) (m_offset <$> ms) = Some (Some (omap rr_offset rs), Ok tt).
Proof. exact (user_source_roundtrip "in" ex_batches [] ex_batches_ok). Qed.

(** A partition that does not fit 16 bits comes back as another one. *)
Example partition_wraps :
  match user_message "in" (ex_read "x" (-1)) with
  | Some (Ok m) => source_offset (m_offset m)
  | _ => None
  end = Some (Ok (mkPbOffset "x" 65535)).
Proof. vm_compute. reflexivity. Qed.
