(* ===== verification/AlignedUdf.v ===== *)
(** The client of the user-defined function of aligned reduce (numaflow-core's
    reduce/reducer/aligned/user_defined.rs): the requests for the operations on a window, the messages
    made of the responses with the ids by which the next buffer drops duplicates, and the loop over
    the responses. The user-defined function is external: its responses, and the moment of a
    cancellation, are a list of what arrives. *)
From S2P Require Import Prelude Clock Message AlignedWindow UserDefined.
From stdpp Require Import pretty.
#[local] Open Scope Z_scope.

(** * Requests *)

Record AlignedPayload := mkAlignedPayload {
  ap_keys : list string;
  ap_value : string;
  ap_event_time : option Timestamp;
  ap_watermark : option Timestamp;
  ap_headers : gmap string string;
  ap_metadata : option ProtoMetadata
}.
Record AlignedPbWindow := mkAlignedPbWindow { aw_start : option Timestamp; aw_end : option Timestamp; aw_slot : string }.
Definition apw_default : AlignedPbWindow := mkAlignedPbWindow None None "".
Inductive AlignedEvent := AeOpen | AeClose | AeAppend.
Record AlignedRequest := mkAlignedRequest { aq_payload : option AlignedPayload; aq_event : AlignedEvent; aq_windows : list AlignedPbWindow }.

(** * Responses *)

Record AlignedResult := mkAlignedResult { ar_keys : list string; ar_tags : list string; ar_value : string }.
Definition ar_default : AlignedResult := mkAlignedResult [] [] "".
Record AlignedResponse := mkAlignedResponse { al_result : option AlignedResult; al_window : option AlignedPbWindow; al_eof : bool }.

Section Client.
Context `{Chrono}.

Definition aligned_payload (m : Message) : AlignedPayload :=
  mkAlignedPayload (m_keys m) (m_value m) (Some (prost_timestamp_from_utc (m_event_time m))) (prost_timestamp_from_utc <$> m_watermark m)
    (m_headers m) (metadata_to_proto <$> m_metadata m).
Definition aligned_pb_window (w : Window) : AlignedPbWindow :=
  mkAlignedPbWindow (Some (prost_timestamp_from_utc (start_time w))) (Some (prost_timestamp_from_utc (end_time w))) "0".

Definition aligned_request (value : AlignedWindowMessage) : AlignedRequest :=
  match operation value with
  | Open message window => mkAlignedRequest (Some (aligned_payload message)) AeOpen [aligned_pb_window window]
  | Close window => mkAlignedRequest (Some (mkAlignedPayload [] "" None None ∅ None)) AeClose [aligned_pb_window window]
  | Append message window => mkAlignedRequest (Some (aligned_payload message)) AeAppend [aligned_pb_window window]
  end.

(** [vertex] is the name and the replica; [None] is a panic. *)
Definition aligned_message (vertex : string) (index : Z) (r : AlignedResponse) : option Message :=
  let result := default ar_default (al_result r) in
  let window := default apw_default (al_window r) in
  let? s := utc_from_timestamp <$> aw_start window in
  let? e := utc_from_timestamp <$> aw_end window in
  let? t := dt_add e (- ns_per_ms) in
  Some (mkMessage Data (ar_keys result) (match ar_tags result with [] => None | tags => Some tags end) (ar_value result)
          (OInt (mkIntOffset 0 0)) t (Some t)
          (mkMessageID vertex (pretty (timestamp_millis s) +:+ "-" +:+ pretty (timestamp_millis e)) index) ∅ None false None).

(** What the loop sees: a cancellation, or the next of the stream. *)
Inductive ReduceEvent := RvCancelled | RvNext (r : Recv AlignedResponse).

(** The loop over the responses, with the messages sent to the writer. *)
Fixpoint reduce_loop (vertex : string) (index : Z) (sent : list Message) (l : list ReduceEvent) : Outcome (Result unit) * list Message :=
  match l with
  | [] => (Waits, sent)
  | RvCancelled :: _ => (Returns (Err ECancelled), sent)
  | RvNext (RFail e) :: _ => (Returns (Err (EGrpc e)), sent)
  | RvNext REnd :: _ => (Returns (Ok tt), sent)
  | RvNext (RItem r) :: l =>
      if al_eof r then (Returns (Ok tt), sent)
      else
        match aligned_message vertex index r with
        | None => (Panics, sent)
        | Some m => reduce_loop vertex (as_i32 (index + 1)) (sent ++ [m]) l
        end
  end.

(** [reduce_fn]: the call, unless it is cancelled first, and the loop. *)
Definition reduce_fn (vertex : string) (call : option (Result unit)) (l : list ReduceEvent) : Outcome (Result unit) * list Message :=
  match call with
  | None => (Returns (Err ECancelled), [])
  | Some (Err e) => (Returns (Err e), [])
  | Some (Ok _) => reduce_loop vertex 0 [] l
  end.

(** ** Properties *)

Lemma aligned_message_id vertex vertex' i i' r r' m m' :
  aligned_message vertex i r = Some m -> aligned_message vertex' i' r' = Some m' -> m_id m = m_id m' ->
  i = i' /\ exists s e s' e', aw_start (default apw_default (al_window r)) = Some s /\ aw_end (default apw_default (al_window r)) = Some e /\
    aw_start (default apw_default (al_window r')) = Some s' /\ aw_end (default apw_default (al_window r')) = Some e' /\
    timestamp_millis (utc_from_timestamp s) = timestamp_millis (utc_from_timestamp s') /\
    timestamp_millis (utc_from_timestamp e) = timestamp_millis (utc_from_timestamp e').
Proof.
  unfold aligned_message.
  destruct (aw_start (default apw_default (al_window r))) as [s|], (aw_end (default apw_default (al_window r))) as [e|]; try done.
  destruct (aw_start (default apw_default (al_window r'))) as [s'|], (aw_end (default apw_default (al_window r'))) as [e'|]; try done.
  cbn [fmap option_fmap option_map]. destruct (dt_add (utc_from_timestamp e) _); [|done]. destruct (dt_add (utc_from_timestamp e') _); [|done].
  intros [= <-] [= <-]. cbn [m_id]. intros [= _ Ho Hi]. split; [done|]. apply pretty_prefix_inj in Ho as [Hs He%(inj pretty)].
  exists s, e, s', e'. split_and!; done.
Qed.

(** The results before the end of the stream of responses, with their index. *)
Fixpoint results_before (index : Z) (l : list ReduceEvent) : list (Z * AlignedResponse) :=
  match l with
  | RvNext (RItem r) :: l => if al_eof r then [] else (index, r) :: results_before (index + 1) l
  | _ => []
  end.
Lemma results_before_index index l k i r : results_before index l !! k = Some (i, r) -> i = index + Z.of_nat k.
Proof.
  revert index k. induction l as [|[|[r0| |e]] l IH]; intros index k; cbn [results_before]; try done. destruct (al_eof r0); [done|].
  destruct k as [|k]; cbn; [intros [= <- <-]; lia|]. intros Hk%IH. lia.
Qed.

(** Unless the loop panics, what was sent is made of these results, in order. *)
Lemma reduce_loop_sent vertex index sent l o out :
  0 <= index -> index + Z.of_nat (length l) < 2 ^ 31 -> reduce_loop vertex index sent l = (o, out) -> o <> Panics ->
  exists ms, out = sent ++ ms /\ Forall2 (fun ir m => aligned_message vertex ir.1 ir.2 = Some m) (results_before index l) ms.
Proof.
  revert index sent. induction l as [|[|[r| |e]] l IH]; intros index sent Hi Hl; cbn [reduce_loop results_before];
    try (intros [= <- <-] _; exists []; rewrite app_nil_r; split; [done|constructor]).
  destruct (al_eof r); [intros [= <- <-] _; exists []; rewrite app_nil_r; split; [done|constructor]|].
  destruct (aligned_message vertex index r) as [m|] eqn:Em; [|by intros [= <- <-]].
  cbn [length] in Hl. replace (as_i32 (index + 1)) with (index + 1) by (unfold as_i32; rewrite Z.mod_small; lia).
  intros Hr Ho. destruct (IH (index + 1) (sent ++ [m]) ltac:(lia) ltac:(lia) Hr Ho) as (ms & -> & Hf). exists (m :: ms). rewrite <- app_assoc.
  split; [done|]. by constructor.
Qed.

(** The results of a call have different ids. *)
Lemma aligned_ids_unique vertex l out o :
  Z.of_nat (length l) < 2 ^ 31 -> reduce_fn vertex (Some (Ok tt)) l = (o, out) -> o <> Panics -> NoDup (m_id <$> out).
Proof.
  intros Hl Hr Ho. destruct (reduce_loop_sent vertex 0 [] l o out ltac:(lia) ltac:(lia) Hr Ho) as (ms & -> & Hf). cbn [app]. apply NoDup_alt. intros p q x Hp Hq.
  rewrite list_lookup_fmap in Hp, Hq. destruct (ms !! p) as [m|] eqn:Em; [|done]. destruct (ms !! q) as [m'|] eqn:Em'; [|done].
  injection Hp as Hp. injection Hq as Hq. rewrite <- Hq in Hp.
  destruct (Forall2_lookup_r _ _ _ _ _ Hf Em) as ([i r] & Hi & Hm). destruct (Forall2_lookup_r _ _ _ _ _ Hf Em') as ([i' r'] & Hi' & Hm').
  cbn [fst snd] in Hm, Hm'. destruct (aligned_message_id _ _ _ _ _ _ _ _ Hm Hm' Hp) as [-> _]. apply results_before_index in Hi, Hi'. lia.
Qed.

(** A task of a window that is run again, with the same responses from the function, gives its results the same
    ids, so that the next buffer drops those that the first run has written: what a run has sent when it
    is cancelled is a prefix of what the whole run sends. *)
Lemma rerun_repeats_ids vertex index sent l1 l2 out o out' :
  (forall ev, ev ∈ l1 -> exists r, ev = RvNext (RItem r) /\ al_eof r = false) ->
  reduce_loop vertex index sent (l1 ++ [RvCancelled]) = (Returns (Err ECancelled), out) -> reduce_loop vertex index sent (l1 ++ l2) = (o, out') ->
  out `prefix_of` out'.
Proof.
  revert index sent. induction l1 as [|ev l1 IH]; intros index sent Hl; cbn [app reduce_loop].
  - intros [= <-]. clear. revert index sent. induction l2 as [|[|[r| |e]] l2 IH]; intros index sent; cbn [reduce_loop]; try by intros [= <- <-].
    destruct (al_eof r); [by intros [= <- <-]|]. destruct (aligned_message vertex index r); [|by intros [= <- <-]].
    intros Hp%IH. eapply prefix_app_l; exact Hp.
  - destruct (Hl ev ltac:(apply elem_of_cons; by left)) as (r & -> & Her). rewrite Her. destruct (aligned_message vertex index r); [|done].
    apply IH. intros ev' Hev'. apply Hl, elem_of_cons. by right.
Qed.

(** A result lies in its window, and carries the last millisecond of it as event time and as watermark. *)
Lemma aligned_message_times vertex i r m w :
  al_window r = Some (aligned_pb_window w) -> dt_valid (start_time w) -> dt_valid (end_time w) -> aligned_message vertex i r = Some m ->
  m_event_time m = end_time w - ns_per_ms /\ m_watermark m = Some (m_event_time m) /\
  (start_time w + ns_per_ms <= end_time w -> start_time w <= m_event_time m < end_time w).
Proof.
  intros Hw Hs He. unfold aligned_message. rewrite Hw. cbn [from_option id aligned_pb_window aw_start aw_end fmap option_fmap option_map].
  rewrite !utc_timestamp_roundtrip by done. rewrite dt_add_spec. case_decide; [|done]. intros [= <-]. cbn. unfold ns_per_ms. split_and!; [lia|done|lia].
Qed.
End Client.
