(* ===== verification/Config.v ===== *)
(** The configuration of a vertex (numaflow-core's config/pipeline.rs, config/pipeline/watermark.rs,
    config/pipeline/isb.rs, config/components/reduce.rs, config/components/ratelimit.rs): from the
    specification, which the controller passes on, to the streams, buckets, windows and limits the parts are
    made with, and whether the two ends of an edge agree on them.

    The specification is given parsed; the conversion of the source and sink types is an argument, and
    so are the variables of the environment. Metrics and callback settings are left out. *)
From S2P Require Import Prelude Clock Message Backoff Timeline Manager Publisher Fetcher SourceWatermark IsbWriter.
From stdpp Require Import pretty.
From Stdlib Require Import Floats.SpecFloat.
#[local] Open Scope Z_scope.

(** * Reduce *)

Record WindowSpec := mkWindowSpec {
  ws_fixed : option (option Duration * option bool);                     (* length, streaming *)
  ws_sliding : option (option Duration * option Duration * option bool); (* length, slide, streaming *)
  ws_session : option (option Duration);
  ws_accumulator : option (option Duration)
}.
Record GroupBy := mkGroupBy {
  gb_window : WindowSpec;
  gb_keyed : option bool;
  gb_allowed_lateness : option Duration;
  gb_storage : option bool                  (* a storage, and whether it is no_store *)
}.

Inductive WindowType :=
  | WtFixed (length : Duration) (streaming : bool)
  | WtSliding (length slide : Duration) (streaming : bool)
  | WtSession (timeout : Duration)
  | WtAccumulator (timeout : Duration).
Inductive UdfServer := UdfReduce | UdfReduceStream | UdfSession | UdfAccumulator.
Record ReducerConfig := mkReducerConfig {
  rc_aligned : bool;
  rc_server : UdfServer;
  rc_window : WindowType;
  rc_allowed_lateness : Duration;
  rc_is_keyed : bool
}.

Definition reducer_config (g : GroupBy) : Result ReducerConfig :=
  let lateness := default 0 (gb_allowed_lateness g) in
  let keyed := default false (gb_keyed g) in
  let server (streaming : option bool) := if default false streaming then UdfReduceStream else UdfReduce in
  match ws_fixed (gb_window g), ws_sliding (gb_window g), ws_session (gb_window g), ws_accumulator (gb_window g) with
  | Some (l, s), _, _, _ => Ok (mkReducerConfig true (server s) (WtFixed (default 0 l) (default false s)) lateness keyed)
  | None, Some (l, sl, s), _, _ => Ok (mkReducerConfig true (server s) (WtSliding (default 0 l) (default 0 sl) (default false s)) lateness keyed)
  | None, None, Some t, _ => Ok (mkReducerConfig false UdfSession (WtSession (default 0 t)) lateness keyed)
  | None, None, None, Some t => Ok (mkReducerConfig false UdfAccumulator (WtAccumulator (default 0 t)) lateness keyed)
  | None, None, None, None => Err (EOther "No window type specified")
  end.

Record ReduceVtxConfig := mkReduceVtx { rv_keyed : bool; rv_reducer : ReducerConfig; rv_storage : bool }.
Definition reduce_vtx_config (g : GroupBy) : Result ReduceVtxConfig :=
  try! r := reducer_config g in
  Ok (mkReduceVtx (default true (gb_keyed g)) r (match gb_storage g with Some no_store => negb no_store | None => false end)).

(** * Rate limit *)

Record RateLimit := mkRateLimit {
  rl_max : option Z;
  rl_min : option Z;
  rl_ramp_up_duration : option Duration;
  rl_resumed_ramp_up : option bool;
  rl_ttl : option Duration
}.
Record RateLimitConfig := mkRateLimitConfig {
  rlc_max : Z;
  rlc_min : Z;
  rlc_ramp_up_duration : Duration;
  rlc_resume : bool;
  rlc_ttl : Z
}.
(** [div_ceil]; [None] is the panic of a division by zero. *)
Definition div_ceil (a b : Z) : option Z :=
  if b =? 0 then None else Some (a / b + if a mod b =? 0 then 0 else 1).

Definition rate_limit_config (batch_size : Z) (is_source : bool) (r : RateLimit) : option RateLimitConfig :=
  let scaled x := let x := default 0 (usize <$> x) in if is_source then div_ceil x batch_size else Some x in
  let? max := scaled (rl_max r) in
  let? min := scaled (rl_min r) in
  Some (mkRateLimitConfig max min (default 0 (rl_ramp_up_duration r)) (default false (rl_resumed_ramp_up r))
          (default (180 * 10 ^ 9) (rl_ttl r) / 10 ^ 9)).

(** * The specification of a vertex *)

Record Limits := mkLimits {
  l_read_batch_size : option Z;
  l_concurrency : option Z;
  l_read_timeout : option Duration;
  l_rate_limit : option RateLimit
}.
Record EdgeLimits := mkEdgeLimits { el_buffer_max_length : option Z; el_buffer_usage_limit : option Z }.
Record CombinedEdge := mkEdge {
  e_from : string;
  e_to : string;
  e_from_vertex_partition_count : option Z;
  e_to_vertex_partition_count : option Z;
  e_to_vertex_type : string;
  e_to_vertex_limits : option EdgeLimits;
  e_on_full : option string;
  e_to_vertex_ordered : option (option bool)
}.
Record IdleSource := mkIdleSource {
  is_increment_by : option Duration;
  is_step_interval : option Duration;
  is_threshold : option Duration;
  is_init_source_delay : option Duration
}.
Record WatermarkSpec := mkWatermarkSpec {
  wm_disabled : option bool;
  wm_max_delay : option Duration;
  wm_idle_source : option IdleSource
}.
Record UdfSpec := mkUdf { u_group_by : option GroupBy; u_container : bool }.
Record VertexSpec := mkVertexSpec {
  vs_namespace : option (option string);     (* the metadata, and the namespace in it *)
  vs_pipeline_name : string;
  vs_name : string;
  vs_source : option (Result unit);
  vs_sink : option (Result unit);
  vs_udf : option UdfSpec;
  vs_limits : option Limits;
  vs_from_edges : option (list CombinedEdge);
  vs_to_edges : option (list CombinedEdge);
  vs_ordered : option (option bool);
  vs_watermark : option WatermarkSpec;
  vs_compression : option (option string)
}.

(** * Streams *)

Definition DEFAULT_BATCH_SIZE : Z := 500.
Definition DEFAULT_TIMEOUT_IN_MS : Z := 1000.
Definition DEFAULT_MAX_LENGTH : Z := 30000.
(** [DEFAULT_USAGE_LIMIT as i64]: 0.8 cut to an integer. *)
Definition DEFAULT_USAGE_LIMIT_i64 : Z := 0.

Definition vertex_type_from_str (s : string) : Result VertexType :=
  if bool_decide (s = "Source") then Ok Manager.Source
  else if bool_decide (s = "Sink") then Ok Manager.Sink
  else if bool_decide (s = "MapUDF") then Ok MapUDF
  else if bool_decide (s = "ReduceUDF") then Ok ReduceUDF
  else Err (EOther "Unknown vertex type").
Definition strategy_from (s : string) : option BufferFullStrategy :=
  if bool_decide (s = "retryUntilSuccess") then Some RetryUntilSuccess
  else if bool_decide (s = "discardLatest") then Some DiscardLatest else None.

(** [0..n] *)
Definition upto (n : Z) : list Z := Z.of_nat <$> seq 0 (Z.to_nat n).
Definition stream_of (ns pl to : string) (i : Z) : Stream := mkStream (ns +:+ "-" +:+ pl +:+ "-" +:+ to +:+ "-" +:+ pretty i) to i.
Definition streams_of (ns pl to : string) (n : Z) : list Stream := stream_of ns pl to <$> upto n.

Record FromVertexConfig := mkFromVertex {
  fv_name : string;
  fv_streams : list Stream;
  fv_max_ack_pending : Z;
  fv_partitions : Z
}.
Record ToVertexConfig := mkToVertex {
  tv_name : string;
  tv_partitions : Z;
  tv_streams : list Stream;
  tv_max_length : Z;
  tv_usage_limit : spec_float;
  tv_buffer_full_strategy : BufferFullStrategy;
  tv_type : VertexType;
  tv_ordered : bool
}.

Definition from_vertex (ns pl : string) (ordered : bool) (replica concurrency : Z) (e : CombinedEdge) : FromVertexConfig :=
  mkFromVertex (e_from e)
    (if ordered then [stream_of ns pl (e_to e) replica] else streams_of ns pl (e_to e) (as_u16 (default 0 (e_to_vertex_partition_count e))))
    concurrency (as_u16 (default 0 (e_from_vertex_partition_count e))).

Definition to_vertex (ns pl : string) (e : CombinedEdge) : Result ToVertexConfig :=
  let n := as_u16 (default 0 (e_to_vertex_partition_count e)) in
  let limit (f : EdgeLimits -> option Z) := e_to_vertex_limits e ≫= f in
  try! t := vertex_type_from_str (e_to_vertex_type e) in
  Ok (mkToVertex (e_to e) n (streams_of ns pl (e_to e) n)
        (usize (default DEFAULT_MAX_LENGTH (limit el_buffer_max_length)))
        (SFdiv 53 1024 (f64_of_Z (default DEFAULT_USAGE_LIMIT_i64 (limit el_buffer_usage_limit))) (f64_of_Z 100))
        (default RetryUntilSuccess (e_on_full e ≫= strategy_from)) t (default false (default None (e_to_vertex_ordered e)))).
Fixpoint to_vertices (ns pl : string) (es : list CombinedEdge) : Result (list ToVertexConfig) :=
  match es with
  | [] => Ok []
  | e :: es => try! t := to_vertex ns pl e in try! ts := to_vertices ns pl es in Ok (t :: ts)
  end.

(** * Watermark *)

Record OtBucket := mkOtBucket { ot_bucket : string; ot_config : BucketConfig }.
Inductive WatermarkConfig :=
  | WcSource (max_delay : Duration) (source : OtBucket) (to : list OtBucket) (idle : IdleConfig)
  | WcEdge (from to : list OtBucket).

Definition DEFAULT_WMB_DELAY : Duration := 100 * ns_per_ms.
Definition idle_config_of (w : option WatermarkSpec) : IdleConfig :=
  match w ≫= wm_idle_source with
  | Some i => mkIdleConfig (default 0 (is_threshold i)) (default DEFAULT_WMB_DELAY (is_step_interval i)) (default 0 (is_increment_by i)) (is_init_source_delay i)
  | None => mkIdleConfig 0 DEFAULT_WMB_DELAY 0 None
  end.
Definition edge_bucket (ns pl from to : string) : string := ns +:+ "-" +:+ pl +:+ "-" +:+ from +:+ "-" +:+ to +:+ "_OT".

Inductive VertexConfig := VSource | VSink | VMap | VReduce (r : ReduceVtxConfig).
Definition vertex_type (v : VertexConfig) : VertexType :=
  match v with VSource => Manager.Source | VSink => Manager.Sink | VMap => MapUDF | VReduce _ => ReduceUDF end.

Definition watermark_config (w : option WatermarkSpec) (ns pl name : string) (v : VertexConfig) (froms : list FromVertexConfig) (tos : list ToVertexConfig)
    (ordered : bool) (replica : Z) : WatermarkConfig :=
  let max_delay := default 0 (usize <$> ((fun d => d / ns_per_ms) <$> (w ≫= wm_max_delay))) in
  let idle := idle_config_of w in
  let delay := Some (step_interval idle) in
  let to t := mkOtBucket (edge_bucket ns pl name (tv_name t)) (mkBucketConfig (tv_name t) (upto (tv_partitions t)) delay) in
  let from (partitions : FromVertexConfig -> list Z) f := mkOtBucket (edge_bucket ns pl (fv_name f) name) (mkBucketConfig (fv_name f) (partitions f) delay) in
  match v with
  | VSource => WcSource (max_delay * ns_per_ms) (mkOtBucket (ns +:+ "-" +:+ pl +:+ "-" +:+ name +:+ "_SOURCE_OT") (mkBucketConfig name [0] delay)) (to <$> tos) idle
  | VSink | VMap => WcEdge (from (fun f => if ordered then [replica] else upto (fv_partitions f)) <$> froms) (to <$> tos)
  | VReduce _ => WcEdge (from (fun _ => [replica]) <$> froms) (to <$> tos)
  end.

(** * The whole *)

Inductive CompressionSetting := CtNone | CtGzip | CtZstd | CtLz4.
Record PipelineConfig := mkPipelineConfig {
  pc_pipeline_name : string;
  pc_vertex_name : string;
  pc_replica : Z;
  pc_batch_size : Z;
  pc_concurrency : Z;
  pc_writer_concurrency : Z;
  pc_read_timeout : Duration;
  pc_from : list FromVertexConfig;
  pc_to : list ToVertexConfig;
  pc_vertex : VertexConfig;
  pc_watermark : option WatermarkConfig;
  pc_compression : option CompressionSetting;
  pc_rate_limit : option RateLimitConfig;
  pc_ordered : bool
}.

Definition vertex_config (s : VertexSpec) : Result VertexConfig :=
  match vs_source s, vs_sink s, vs_udf s with
  | Some r, _, _ => try! _ := r in Ok VSource
  | None, Some r, _ => try! _ := r in Ok VSink
  | None, None, Some u =>
      match u_group_by u with
      | Some g => try! r := reduce_vtx_config g in Ok (VReduce r)
      | None => if u_container u then Ok VMap else Err (EOther "Invalid UDF")
      end
  | None, None, None => Err (EOther "Only source, sink, map, and reduce are supported")
  end.
Definition ordered_enabled (v : VertexConfig) (s : VertexSpec) : bool :=
  match v with VSource | VReduce _ => false | VSink | VMap => default false (default None (vs_ordered s)) end.
Definition compression_setting (c : option (option string)) : Result (option CompressionSetting) :=
  match c with
  | None => Ok None
  | Some None => Ok (Some CtNone)
  | Some (Some t) =>
      if bool_decide (t = "gzip") then Ok (Some CtGzip)
      else if bool_decide (t = "zstd") then Ok (Some CtZstd)
      else if bool_decide (t = "lz4") then Ok (Some CtLz4)
      else Err (EOther "Invalid compression type setting")
  end.
Definition batch_size_of (s : VertexSpec) : Z := default DEFAULT_BATCH_SIZE (usize <$> (vs_limits s ≫= l_read_batch_size)).
Definition concurrency_of (s : VertexSpec) : Z := default (batch_size_of s) (usize <$> (vs_limits s ≫= l_concurrency)).
Definition rate_limit_of (v : VertexConfig) (s : VertexSpec) : option (option RateLimitConfig) :=
  match v, vs_limits s ≫= l_rate_limit with
  | VReduce _, _ | _, None => Some None
  | v, Some r => Some <$> rate_limit_config (batch_size_of s) (match v with VSource => true | _ => false end) r
  end.

(** [PipelineConfig::load]; [isb] is what the client configuration gives, [write_concurrency] the
    parsed variable. [None] is a panic. *)
Definition load (replica : Z) (isb : Result unit) (write_concurrency : option Z) (s : VertexSpec) : option (Result PipelineConfig) :=
  match vs_namespace s with
  | None => Some (Err (EOther "Missing metadata in vertex spec"))
  | Some None => Some (Err (EOther "Missing namespace in vertex spec"))
  | Some (Some ns) =>
      let pl := vs_pipeline_name s in
      match vertex_config s with
      | Err e => Some (Err e)
      | Ok v =>
          let? rate_limit := rate_limit_of v s in
          Some
            (try! _ := isb in
             let ordered := ordered_enabled v s in
             let froms := from_vertex ns pl ordered replica (concurrency_of s) <$> default [] (vs_from_edges s) in
             try! tos := to_vertices ns pl (default [] (vs_to_edges s)) in
             let watermark :=
               if default false (vs_watermark s ≫= wm_disabled) then None
               else Some (watermark_config (vs_watermark s) ns pl (vs_name s) v froms tos ordered replica) in
             try! compression := compression_setting (vs_compression s) in
             Ok (mkPipelineConfig pl (vs_name s) replica (batch_size_of s) (concurrency_of s) (default (concurrency_of s) write_concurrency)
                   (default DEFAULT_TIMEOUT_IN_MS (as_u32 <$> ((fun d => d / ns_per_ms) <$> (vs_limits s ≫= l_read_timeout))) * ns_per_ms)
                   froms tos v watermark compression rate_limit ordered))
      end
  end.

(** * Properties *)

Lemma upto_elem n i : i ∈ upto n <-> 0 <= i < n.
Proof.
  unfold upto. rewrite list_elem_of_fmap. split.
  - intros (k & -> & Hk%elem_of_seq). lia.
  - intros Hi. exists (Z.to_nat i). split; [lia|]. apply elem_of_seq. lia.
Qed.
Lemma upto_lookup n i : 0 <= i < n -> upto n !! Z.to_nat i = Some i.
Proof. intros Hi. unfold upto. rewrite list_lookup_fmap, lookup_seq_lt by lia. cbn. f_equal. lia. Qed.

Lemma to_vertices_elem ns pl es ts e :
  to_vertices ns pl es = Ok ts -> e ∈ es -> exists t, t ∈ ts /\ to_vertex ns pl e = Ok t.
Proof.
  revert ts. induction es as [|e0 es IH]; intros ts; [by intros _ ?%elem_of_nil|]. cbn [to_vertices].
  destruct (to_vertex ns pl e0) as [t0|] eqn:E0; [|done]. destruct (to_vertices ns pl es) as [ts0|]; [|done]. intros [= <-] [->|Hin]%elem_of_cons.
  - exists t0. split; [left|done].
  - destruct (IH ts0 eq_refl Hin) as (t & Ht & Et). exists t. split; [by right|done].
Qed.

(** What a configuration was loaded from. *)
Lemma load_parts replica isb wc s c :
  load replica isb wc s = Some (Ok c) ->
  exists ns, vs_namespace s = Some (Some ns) /\ vertex_config s = Ok (pc_vertex c) /\ pc_ordered c = ordered_enabled (pc_vertex c) s /\
    pc_from c = from_vertex ns (vs_pipeline_name s) (pc_ordered c) replica (concurrency_of s) <$> default [] (vs_from_edges s) /\
    to_vertices ns (vs_pipeline_name s) (default [] (vs_to_edges s)) = Ok (pc_to c) /\
    pc_watermark c = (if default false (vs_watermark s ≫= wm_disabled) then None
      else Some (watermark_config (vs_watermark s) ns (vs_pipeline_name s) (vs_name s) (pc_vertex c) (pc_from c) (pc_to c) (pc_ordered c) replica)).
Proof.
  unfold load. destruct (vs_namespace s) as [[ns|]|]; [|done..]. destruct (vertex_config s) as [v|] eqn:Ev; [|done].
  destruct (rate_limit_of v s) as [rl|]; [|done]. destruct isb; [|done]. destruct (to_vertices ns _ _) as [tos|] eqn:Et; [|done].
  destruct (compression_setting (vs_compression s)); [|done]. intros [= <-]. exists ns. cbn. by split_and!.
Qed.

(** The two ends of an edge: the vertex that has it among its edges to others, and a replica of the vertex that has it
    among its edges from others. *)
Section Edge.
Context (a b : VertexSpec) (e : CombinedEdge) (ra rb : Z) (isb isb' : Result unit) (wa wb : option Z) (ca cb : PipelineConfig).
Context (Hload_a : load ra isb wa a = Some (Ok ca)) (Hload_b : load rb isb' wb b = Some (Ok cb)).
Context (Hns : vs_namespace a = vs_namespace b) (Hpl : vs_pipeline_name a = vs_pipeline_name b).
Context (Hto : e ∈ default [] (vs_to_edges a)) (Hfrom : e ∈ default [] (vs_from_edges b)).

(** They agree on the streams: all those that are written are read, by every replica, or, with ordered processing, each
    by the replica of its number. *)
Lemma streams_agree :
  exists t f, t ∈ pc_to ca /\ f ∈ pc_from cb /\ tv_name t = e_to e /\ fv_name f = e_from e /\
    if pc_ordered cb then 0 <= rb < tv_partitions t -> exists s, fv_streams f = [s] /\ tv_streams t !! Z.to_nat rb = Some s
    else fv_streams f = tv_streams t.
Proof.
  destruct (load_parts _ _ _ _ _ Hload_a) as (ns & Ens & _ & _ & _ & Eto & _). destruct (load_parts _ _ _ _ _ Hload_b) as (ns' & Ens' & _ & _ & Ef & _).
  assert (ns' = ns) as -> by congruence. destruct (to_vertices_elem _ _ _ _ _ Eto Hto) as (t & Ht & Et).
  exists t, (from_vertex ns (vs_pipeline_name b) (pc_ordered cb) rb (concurrency_of b) e). unfold to_vertex in Et.
  destruct (vertex_type_from_str (e_to_vertex_type e)); [|done]. injection Et as <-. split_and!; try done.
  - rewrite Ef. by apply list_elem_of_fmap_2.
  - unfold from_vertex. cbn [fv_streams tv_streams tv_partitions]. rewrite Hpl. destruct (pc_ordered cb); [|done]. intros Hr.
    exists (stream_of ns (vs_pipeline_name b) (e_to e) rb). split; [done|]. unfold streams_of. by rewrite list_lookup_fmap, upto_lookup.
Qed.

(** They agree on the bucket of the watermarks, if both have one. *)
Lemma buckets_agree :
  e_from e = vs_name a -> e_to e = vs_name b -> pc_vertex cb <> VSource -> is_Some (pc_watermark ca) -> is_Some (pc_watermark cb) ->
  exists o o', (match pc_watermark ca with Some (WcSource _ _ to _) | Some (WcEdge _ to) => o ∈ to | None => False end) /\
    (match pc_watermark cb with Some (WcEdge from _) => o' ∈ from | _ => False end) /\
    ot_bucket o = ot_bucket o' /\ bc_partitions (ot_config o) = upto (as_u16 (default 0 (e_to_vertex_partition_count e))) /\
    bc_partitions (ot_config o') = (match pc_vertex cb with
      | VReduce _ => [rb]
      | _ => if pc_ordered cb then [rb] else upto (as_u16 (default 0 (e_from_vertex_partition_count e))) end).
Proof.
  intros Ha Hb Hsrc Hwa Hwb.
  destruct (load_parts _ _ _ _ _ Hload_a) as (ns & Ens & _ & _ & _ & Eto & Ewa). destruct (load_parts _ _ _ _ _ Hload_b) as (ns' & Ens' & _ & _ & Ef & _ & Ewb).
  assert (ns' = ns) as -> by congruence. destruct (to_vertices_elem _ _ _ _ _ Eto Hto) as (t & Ht & Et).
  assert (Hf : from_vertex ns (vs_pipeline_name b) (pc_ordered cb) rb (concurrency_of b) e ∈ pc_from cb) by (rewrite Ef; by apply list_elem_of_fmap_2).
  unfold to_vertex in Et. destruct (vertex_type_from_str (e_to_vertex_type e)); [|done]. injection Et as <-.
  rewrite Ewa in Hwa |- *. rewrite Ewb in Hwb |- *. destruct (default false (vs_watermark a ≫= wm_disabled)); [by destruct Hwa|].
  destruct (default false (vs_watermark b ≫= wm_disabled)); [by destruct Hwb|]. unfold watermark_config.
  destruct (pc_vertex ca), (pc_vertex cb); try done; (eexists _, _; split_and!; [by apply list_elem_of_fmap_2|by apply list_elem_of_fmap_2|..]);
    cbn; try done; by rewrite <- Ha, <- Hb, Hpl.
Qed.
End Edge.

(** ** Where the configuration falls short *)

(** The partitions a fetcher waits for are counted by the vertex upstream. A partition that the vertex does not read
    holds the watermark back for ever. *)
Section Stuck.
Context `{HashOrder} `{Chrono}.

Definition waits_for (f : ISBWatermarkFetcher) (edge : string) (q : Z) : Prop :=
  exists m, last_processed_wm f !! edge = Some m /\ m !! q = Some (-1).

Lemma fetcher_new_waits ms c q : q ∈ bc_partitions c -> waits_for (fetcher_new ms [c]) (bc_vertex c) q.
Proof.
  intros Hq. exists (foldl (fun m' p => <[p := -1]> m') ∅ (bc_partitions c)). unfold fetcher_new. cbn. split; [by rewrite lookup_insert_eq|].
  assert (G : forall l (m : gmap Z Z), (q ∈ l \/ m !! q = Some (-1)) -> foldl (fun m' p => <[p := -1]> m') m l !! q = Some (-1)).
  { induction l as [|p l IH]; intros m [Hin|Hm]; cbn; [by apply elem_of_nil in Hin|done|apply IH..].
    - apply elem_of_cons in Hin as [->|Hin]; [right; by rewrite lookup_insert_eq|by left].
    - right. destruct (decide (p = q)) as [->|]; [by rewrite lookup_insert_eq|by rewrite lookup_insert_ne]. }
  apply G. by left.
Qed.
Lemma fetch_waits f off part f' wm edge q :
  fetch_watermark f off part = Some (f', wm) -> part <> q -> waits_for f edge q -> waits_for f' edge q /\ wm <= - ns_per_ms.
Proof.
  unfold fetch_watermark. destruct (fetch_edges off part f (hm_iter (processor_managers f))) as [f1|] eqn:E; [|done].
  destruct (get_watermark f1) as [w|] eqn:Ew; [|done]. intros [= <- <-] Hp (m & Hm & Hq).
  assert (Hf : waits_for f1 edge q).
  { destruct (fetch_edges_Some _ off part f _ f1 (NoDup_hm_keys _) E edge) as [_ Hl]. unfold waits_for. rewrite Hl, Hm.
    destruct ((list_to_map (hm_iter (processor_managers f)) : gmap string (gmap string Processor)) !! edge) as [ps|]; [|by exists m]. exists (record part (edge_epoch off part ps) m). split; [done|].
    unfold record. case_match; [done|]. by rewrite lookup_insert_ne. }
  split; [done|]. destruct Hf as (m1 & Hm1 & Hq1). apply from_timestamp_millis_Some in Ew as ->.
  pose proof (min_last_le _ f1 edge m1 q (-1) Hm1 Hq1 ltac:(done)). unfold ns_per_ms. lia.
Qed.
Fixpoint fetches (f : ISBWatermarkFetcher) (reads : list (Z * Z)) : option (ISBWatermarkFetcher * list DateTime) :=
  match reads with
  | [] => Some (f, [])
  | (off, part) :: reads => let? r := fetch_watermark f off part in let? r' := fetches r.1 reads in Some (r'.1, r.2 :: r'.2)
  end.

(** A vertex downstream of one with more partitions: whatever is published and read, its watermark stays at -1. *)
Lemma watermark_stuck ms edge (n_to n_from : Z) delay reads f wms :
  0 <= n_to < n_from -> fetches (fetcher_new ms [mkBucketConfig edge (upto n_from) delay]) reads = Some (f, wms) ->
  Forall (fun r => 0 <= r.2 < n_to) reads -> Forall (fun wm => wm <= - ns_per_ms) wms.
Proof.
  intros Hn Hf Hr. assert (Hw : waits_for (fetcher_new ms [mkBucketConfig edge (upto n_from) delay]) edge n_to).
  { apply (fetcher_new_waits ms (mkBucketConfig edge (upto n_from) delay)), upto_elem. lia. }
  revert Hf Hw. generalize (fetcher_new ms [mkBucketConfig edge (upto n_from) delay]). intros f0. revert f0 wms.
  induction Hr as [|[off part] reads Hpart _ IH]; intros f0 wms; cbn [fetches]; [by intros [= <- <-]|].
  destruct (fetch_watermark f0 off part) as [[f1 wm]|] eqn:E1; [|done]. cbn [fst snd]. destruct (fetches f1 reads) as [[f2 wms']|] eqn:E2; [|done].
  intros [= <- <-] Hw. cbn in Hpart. destruct (fetch_waits _ _ _ _ _ edge n_to E1 ltac:(lia) Hw) as [Hw1 Hwm]. constructor; [done|]. by apply (IH f1 wms').
Qed.
End Stuck.

(** A vertex downstream of one with fewer partitions: it drops what is published for the others. The source has
    published 200 for the first partition and 100 for the second; a message of the second gets 200. *)
Definition ex_published (ws : list WMB) : gmap string Processor :=
  foldl (fun ps w => default ps (@ot_watch identity_codec (upto 1) MapUDF 0 ps (@mkKVEntry identity_codec "p" (wmb_to_proto w) KVPut 0))) ∅ ws.
Definition ex_fetcher : ISBWatermarkFetcher :=
  fetcher_new {["in" := ex_published [mkWMB false 10 200 0 None; mkWMB false 10 100 1 None]]} [mkBucketConfig "in" (upto 1) None].
Definition ex_watermarks (reads : list (Z * Z)) : list Z :=
  match @fetches canonical_order chrono_utc ex_fetcher reads with Some r => (fun t => t / ns_per_ms) <$> r.2 | None => [] end.
Example watermark_unsafe : ex_watermarks [(12, 0); (12, 1)] = [200; 200].
Proof. vm_compute. reflexivity. Qed.

(** The names of vertices may contain dashes: two edges share a bucket. *)
Example bucket_shared : edge_bucket "ns" "pl" "a" "b-c" = edge_bucket "ns" "pl" "a-b" "c".
Proof. reflexivity. Qed.
(** And so do vertices of two pipelines share a stream. *)
Example stream_shared : stream_name (stream_of "ns" "pl-a" "b" 0) = stream_name (stream_of "ns" "pl" "a-b" 0).
Proof. reflexivity. Qed.

(** Without a [keyed] in the specification, the reducer and its configuration disagree. *)
Example keyed_defaults_differ :
  (fun r => match r with Ok v => Some (rv_keyed v, rc_is_keyed (rv_reducer v)) | Err _ => None end)
    (reduce_vtx_config (mkGroupBy (mkWindowSpec (Some (Some 1000, None)) None None None) None None None)) = Some (true, false).
Proof. reflexivity. Qed.

(** Without a limit in the specification, the buffer counts as full from 0%, not from the 80% of the default. *)
Example usage_default_zero :
  match to_vertex "ns" "pl" (mkEdge "a" "b" (Some 1) (Some 1) "Sink" None None None) with Ok t => tv_usage_limit t = S754_zero false | Err _ => False end.
Proof. vm_compute. reflexivity. Qed.

(** ** Rate limit *)

(** A source is limited in batches: never below the limit in messages, and above it by less than a batch. *)
Lemma source_rate_limit batch r c :
  0 < batch -> (forall m, rl_max r = Some m -> 0 <= m < 2 ^ 63) -> rate_limit_config batch true r = Some c ->
  default 0 (rl_max r) <= rlc_max c * batch < default 0 (rl_max r) + batch.
Proof.
  intros Hb Hm. unfold rate_limit_config, div_ceil. destruct (Z.eqb_spec batch 0); [lia|]. intros [= <-]. cbn [rlc_max].
  assert (E : default 0 (usize <$> rl_max r) = default 0 (rl_max r)).
  { destruct (rl_max r) as [m|]; [|done]. cbn. unfold usize. rewrite Z.mod_small; [done|]. specialize (Hm m eq_refl). lia. }
  rewrite E. pose proof (Z.div_mod (default 0 (rl_max r)) batch ltac:(lia)). pose proof (Z.mod_pos_bound (default 0 (rl_max r)) batch Hb).
  destruct (Z.eqb_spec (default 0 (rl_max r) mod batch) 0); nia.
Qed.
(** A batch size of 0 panics when a source has a rate limit. *)
Example batch_size_zero r : rate_limit_config 0 true r = None.
Proof. reflexivity. Qed.
