(* ===== verification/Recovery.v ===== *)
(** The loop that runs the forwarder of a vertex and builds it again after a failure (numaflow-core's
    lib.rs, [run_forwarder_with_recovery]). A forwarder is external: what becomes of each attempt, and
    when the process is told to stop, is a list of attempts. *)
From S2P Require Import Prelude Message UserDefined.
#[local] Open Scope Z_scope.

(** One turn: whether the process was told to stop before it, the result of the attempt, whether the
    attempt's own token was cancelled, and whether the process was told to stop during the
    attempt or the pause after it. *)
Record Attempt := mkAttempt {
  at_stopped_before : bool;
  at_result : Result unit;
  at_cancelled : bool;
  at_stopped_during : bool;
  at_stopped_pause : bool
}.

(** The error of an attempt, if it failed. *)
Definition attempt_error (a : Attempt) : option Error :=
  match at_result a with
  | Ok _ => if at_cancelled a then Some (EOther "forwarder attempt was cancelled by a component") else None
  | Err e => Some e
  end.

(** The errors that were reported, and the result. *)
Fixpoint run_forwarder_with_recovery (reported : list Error) (l : list Attempt) : list Error * Outcome (Result unit) :=
  match l with
  | [] => (reported, Waits)
  | a :: l =>
      if at_stopped_before a || at_stopped_during a then (reported, Returns (Ok tt))
      else
        match attempt_error a with
        | None => (reported, Returns (Ok tt))
        | Some e => if at_stopped_pause a then (reported ++ [e], Returns (Ok tt)) else run_forwarder_with_recovery (reported ++ [e]) l
        end
  end.

(** What is reported of an attempt: nothing once the process stops. *)
Definition failure_of (a : Attempt) : option Error := if at_stopped_before a || at_stopped_during a then None else attempt_error a.
(** The loop ends with an attempt. *)
Definition ends (a : Attempt) : bool :=
  at_stopped_before a || at_stopped_during a || at_stopped_pause a || match attempt_error a with None => true | Some _ => false end.

(** As long as the process is not told to stop, every failed attempt, also one that drained without an error after one of
    its parts had failed, is reported once and followed by another; the loop ends at the first attempt
    that ends it, without an error. *)
Lemma recovery_reports l1 a l2 :
  Forall (fun x => ends x = false) l1 -> ends a = true ->
  run_forwarder_with_recovery [] (l1 ++ a :: l2) = (omap failure_of (l1 ++ [a]), Returns (Ok tt)).
Proof.
  intros Hl Ha. enough (G : forall r, run_forwarder_with_recovery r (l1 ++ a :: l2) = (r ++ omap failure_of (l1 ++ [a]), Returns (Ok tt))) by apply (G []).
  induction Hl as [|x l1 Hx _ IH]; intros r; cbn [app run_forwarder_with_recovery omap list_omap].
  - unfold ends in Ha. unfold failure_of. destruct (at_stopped_before a || at_stopped_during a) eqn:Es; [by rewrite app_nil_r|].
    destruct (attempt_error a) as [e|]; [|by rewrite app_nil_r]. destruct (at_stopped_pause a); [done|done].
  - unfold ends in Hx. unfold failure_of at 1. destruct (at_stopped_before x || at_stopped_during x); [done|].
    destruct (attempt_error x) as [e|]; [|by rewrite orb_true_r in Hx]. destruct (at_stopped_pause x); [done|]. rewrite IH. by rewrite <- app_assoc.
Qed.
Lemma recovery_goes_on l : Forall (fun x => ends x = false) l -> run_forwarder_with_recovery [] l = (omap failure_of l, Waits) /\ length (omap failure_of l) = length l.
Proof.
  intros Hl. enough (G : forall r, run_forwarder_with_recovery r l = (r ++ omap failure_of l, Waits) /\ length (omap failure_of l) = length l) by apply (G []).
  induction Hl as [|x l Hx _ IH]; intros r; [cbn; by rewrite app_nil_r|].
  assert (exists e, failure_of x = Some e /\ run_forwarder_with_recovery r (x :: l) = run_forwarder_with_recovery (r ++ [e]) l) as (e & Hf & ->).
  { unfold ends in Hx. cbn [run_forwarder_with_recovery]. unfold failure_of. destruct (at_stopped_before x || at_stopped_during x); [done|].
    destruct (attempt_error x) as [e|]; [|by rewrite orb_true_r in Hx]. destruct (at_stopped_pause x); [done|]. by exists e. }
  destruct (IH (r ++ [e])) as [-> Hlen]. cbn [omap list_omap]. rewrite Hf, <- app_assoc. split; [done|]. cbn [length]. f_equal. exact Hlen.
Qed.
