(* ===== verification/UnalignedClient.v ===== *)
(** The tasks that receive the responses of the user-defined functions of unaligned reduce
    (numaflow-core's reduce/reducer/unaligned/user_defined, [session_reduce_fn] of session.rs and
    [accumulator_fn] of accumulator.rs). The function is external: its responses, and the moment of a
    cancellation, are a list of what arrives. *)
From S2P Require Import Prelude Message UnalignedUdf UserDefined.
#[local] Open Scope Z_scope.

Inductive StreamEvent (A : Type) := SeCancelled | SeNext (r : Recv A).
Arguments SeCancelled {A}.
Arguments SeNext {A} _.

(** The task over responses of type [A], each turned by [step] with the state [S] into what is sent on; [open n] is whether
    the receiver takes the [n]-th. The result of the task, and what was sent. *)
Fixpoint receive_loop {A S B} (step : S -> A -> S * B) (open : nat -> bool) (s : S) (sent : list B) (l : list (StreamEvent A)) : Outcome (Result unit) * list B :=
  match l with
  | [] => (Waits, sent)
  | SeCancelled :: _ => (Returns (Err ECancelled), sent)
  | SeNext (RFail e) :: _ => (Returns (Err (EGrpc e)), sent)
  | SeNext REnd :: _ => (Returns (Ok tt), sent)
  | SeNext (RItem r) :: l =>
      let (s, b) := step s r in
      if open (length sent) then receive_loop step open s (sent ++ [b]) l else (Returns (Err (EReduce "failed to send response")), sent)
  end.

(** A session response with the index of its keys; an accumulator response goes on as it is. *)
Definition session_step (ix : gmap (list string) Z) (r : SessionResponse) : gmap (list string) Z * (SessionResponse * Z) :=
  let (ix, i) := response_index ix r in (ix, (r, i)).
Definition session_reduce_fn (call : Result unit) (open : nat -> bool) (l : list (StreamEvent SessionResponse)) : Outcome (Result unit) * list (SessionResponse * Z) :=
  match call with
  | Err e => (Returns (Err e), [])
  | Ok _ => receive_loop session_step open ∅ [] l
  end.
Definition accumulator_fn (call : Result unit) (open : nat -> bool) (l : list (StreamEvent AccumulatorResponse)) : Outcome (Result unit) * list AccumulatorResponse :=
  match call with
  | Err e => (Returns (Err e), [])
  | Ok _ => receive_loop (fun _ r => (tt, r)) open tt [] l
  end.

(** ** Properties *)

Fixpoint received {A} (l : list (StreamEvent A)) : list A :=
  match l with SeNext (RItem r) :: l => r :: received l | _ => [] end.
Fixpoint steps {A S B} (step : S -> A -> S * B) (s : S) (l : list A) : list B :=
  match l with [] => [] | r :: l => let (s, b) := step s r in b :: steps step s l end.

(** What is sent on is a prefix of what was received, each in its turn, and all of it when the task ends well; the task ends
    well only at the end of the stream. *)
Lemma receive_loop_sent {A S B} (step : S -> A -> S * B) open s sent l o out :
  receive_loop step open s sent l = (o, out) ->
  exists k, out = sent ++ take k (steps step s (received l)) /\
    (o = Returns (Ok tt) -> out = sent ++ steps step s (received l) /\ exists l', l = (SeNext ∘ RItem <$> received l) ++ SeNext REnd :: l').
Proof.
  revert s sent. induction l as [|[|[r| |e]] l IH]; intros s sent; cbn [receive_loop received steps].
  - intros [= <- <-]. exists 0%nat. by rewrite app_nil_r.
  - intros [= <- <-]. exists 0%nat. by rewrite app_nil_r.
  - destruct (step s r) as [s' b]. destruct (open (length sent)).
    + intros Hr. destruct (IH s' (sent ++ [b]) Hr) as (k & Hk & Hok). rewrite <- app_assoc in Hk, Hok. exists (Datatypes.S k). split; [done|].
      intros Ho. destruct (Hok Ho) as (-> & l' & El). split; [done|]. exists l'. cbn. by f_equal.
    + intros [= <- <-]. exists 0%nat. by rewrite app_nil_r.
  - intros [= <- <-]. exists 0%nat. cbn [take]. rewrite !app_nil_r. split; [done|]. intros _. split; [done|by exists l].
  - intros [= <- <-]. exists 0%nat. by rewrite app_nil_r.
Qed.

(** The indices are those of [response_indices], about which [session_ids_unique] speaks. *)
Lemma session_steps rs ix : steps session_step ix rs = response_indices ix rs.
Proof.
  revert ix. induction rs as [|r rs IH]; intros ix; [done|]. cbn [steps response_indices]. unfold session_step. destruct (response_index ix r) as [ix' i].
  by rewrite IH.
Qed.
Lemma session_indexed open l o out :
  session_reduce_fn (Ok tt) open l = (o, out) -> out `prefix_of` response_indices ∅ (received l) /\ (o = Returns (Ok tt) -> out = response_indices ∅ (received l)).
Proof.
  intros Hr. apply receive_loop_sent in Hr as (k & Hk & Hok). rewrite session_steps in *. cbn [app] in *. split; [rewrite Hk; apply prefix_take|].
  intros Ho. by destruct (Hok Ho).
Qed.
Lemma accumulator_passed open l o out :
  accumulator_fn (Ok tt) open l = (o, out) -> out `prefix_of` received l /\ (o = Returns (Ok tt) -> out = received l).
Proof.
  assert (E : forall rs : list AccumulatorResponse, steps (fun (_ : unit) r => (tt, r)) tt rs = rs) by (induction rs as [|r rs IH]; cbn; congruence).
  intros Hr. apply receive_loop_sent in Hr as (k & Hk & Hok). rewrite E in *. cbn [app] in *. split; [rewrite Hk; apply prefix_take|].
  intros Ho. by destruct (Hok Ho).
Qed.
