(* ===== verification/IsbWriteLoop.v ===== *)
(** The loop of the ISB writer (numaflow-core's pipeline/isb/writer.rs, [streaming_write] and
    [wait_for_paf_resolvers]): a task per message under a semaphore, and the wait for all of them at the end.
    The task of a message is [execute] of [IsbWriter]; here it starts and ends, and the tasks interleave freely. *)
From S2P Require Import Prelude Message IsbWriter.
#[local] Open Scope Z_scope.

Section Loop.
Context {M : Type} (permits : nat).

Record WriteLoop := mkWriteLoop {
  wl_input : list M;                        (* still to come on the stream *)
  wl_running : list M;                      (* with a task, which holds a permit *)
  wl_ended : list M;
  wl_done : bool
}.
Definition write_loop_new (input : list M) : WriteLoop := mkWriteLoop input [] [] false.

Inductive WriteLoopStep := WlSpawn | WlTaskEnds (i : nat) | WlReturn.
(** A step, if it can be taken: a task needs a permit, and the return all of them. *)
Definition write_loop_step (st : WriteLoop) (l : WriteLoopStep) : option WriteLoop :=
  if wl_done st then None
  else
    match l with
    | WlSpawn =>
        match wl_input st with
        | [] => None
        | m :: input => if bool_decide (length (wl_running st) < permits)%nat then Some (mkWriteLoop input (wl_running st ++ [m]) (wl_ended st) false) else None
        end
    | WlTaskEnds i =>
        match wl_running st !! i with
        | None => None
        | Some m => Some (mkWriteLoop (wl_input st) (delete i (wl_running st)) (wl_ended st ++ [m]) false)
        end
    | WlReturn => match wl_input st, wl_running st with [], [] => Some (mkWriteLoop [] [] (wl_ended st) true) | _, _ => None end
    end.
Fixpoint write_loop_run (st : WriteLoop) (ls : list WriteLoopStep) : option WriteLoop :=
  match ls with [] => Some st | l :: ls => let? st := write_loop_step st l in write_loop_run st ls end.

Definition loop_inv (input : list M) (st : WriteLoop) : Prop :=
  wl_ended st ++ wl_running st ++ wl_input st ≡ₚ input /\ (length (wl_running st) <= permits)%nat /\ (wl_done st = true -> wl_input st = [] /\ wl_running st = []).

Lemma loop_step_inv input st l st' : loop_inv input st -> write_loop_step st l = Some st' -> loop_inv input st'.
Proof.
  intros (Hp & Hl & Hd). unfold write_loop_step. destruct (wl_done st); [done|]. destruct l as [|i|].
  - destruct (wl_input st) as [|m rest]; [done|]. case_bool_decide; [|done]. intros [= <-]. split_and!; cbn; [|rewrite length_app; cbn; lia|done].
    rewrite <- Hp. by rewrite <- app_assoc.
  - destruct (wl_running st !! i) as [m|] eqn:Em; [|done]. intros [= <-]. split_and!; cbn; [| |done].
    + rewrite <- Hp, <- app_assoc. f_equiv. rewrite (delete_Permutation (wl_running st) i m Em) at 2. done.
    + rewrite length_delete by (by eexists). lia.
  - destruct (wl_input st); [|done]. destruct (wl_running st); [|done]. intros [= <-]. split_and!; cbn; [done|lia|done].
Qed.

(** In every interleaving at most as many tasks run as there are permits, and every message of the stream waits, has a task or
    had one, once; when the loop returns, every message had its task and the task has ended. *)
Lemma loop_accounts input ls st :
  write_loop_run (write_loop_new input) ls = Some st ->
  (length (wl_running st) <= permits)%nat /\ wl_ended st ++ wl_running st ++ wl_input st ≡ₚ input /\ (wl_done st = true -> wl_ended st ≡ₚ input).
Proof.
  assert (Hi : loop_inv input (write_loop_new input)) by (split_and!; cbn; [done|lia|done]). revert Hi. generalize (write_loop_new input).
  induction ls as [|l ls IH]; intros st0 Hi; cbn [write_loop_run].
  - intros [= <-]. destruct Hi as (Hp & Hl & Hd). split_and!; [done..|]. intros Hdone. destruct (Hd Hdone) as [E1 E2]. by rewrite E1, E2, !app_nil_r in Hp.
  - destruct (write_loop_step st0 l) as [st1|] eqn:E; [|done]. by apply IH, (loop_step_inv input st0 l).
Qed.

(** The loop does not stop short: as long as it has not returned, a step can be taken, and there are at most two steps per message
    and the return. *)
Lemma loop_progress st : (0 < permits)%nat -> wl_done st = false -> exists l, is_Some (write_loop_step st l).
Proof.
  intros Hp Hd. unfold write_loop_step. rewrite Hd. destruct (wl_running st) as [|m running] eqn:Er.
  - destruct (wl_input st) eqn:Ei; [exists WlReturn; cbn; eauto|]. exists WlSpawn. cbn. rewrite bool_decide_eq_true_2 by done. eauto.
  - exists (WlTaskEnds 0). cbn. eauto.
Qed.
Definition loop_measure (st : WriteLoop) : nat := 2 * length (wl_input st) + length (wl_running st) + if wl_done st then 0 else 1.
Lemma loop_measure_falls st l st' : write_loop_step st l = Some st' -> (loop_measure st' < loop_measure st)%nat.
Proof.
  unfold write_loop_step, loop_measure. destruct (wl_done st); [done|]. destruct l as [|i|].
  - destruct (wl_input st); [done|]. case_bool_decide; [|done]. intros [= <-]. cbn. rewrite length_app. cbn. lia.
  - destruct (wl_running st !! i) as [m|] eqn:Em; [|done]. intros [= <-]. cbn. rewrite length_delete by (by eexists). apply lookup_lt_Some in Em. lia.
  - destruct (wl_input st); [|done]. destruct (wl_running st); [|done]. intros [= <-]. cbn. lia.
Qed.
End Loop.
